(* ===== verification/_CoqProject ===== *)
-Q . S2P
Prelude.v
Rings.v
FrameAlloc.v
Term.v
TermImm.v
TermHeap.v
TermVal.v
TermFmt.v
TermCopy.v
TermMap.v
Evac.v
EvacInv.v
EvacSteps.v
EvacProofs.v
Bytecode.v
BytecodeFormat.v
BytecodeAnalysis.v
Verify.v
VerifySound.v
Interp.v
InterpSafe.v
InterpRun.v
InterpArms.v
InterpFuel.v
InterpExec.v
Clif.v
Jit.v
JitLogic.v
JitScan.v
JitSim.v
JitRef.v
JitArms.v
JitControl.v
JitExtCall.v
JitTotal.v
JitLoop.v
JitRefine.v
JitInterp.v
ApiSim.v
Atoms.v
Proc.v
ProcInv.v
ProcSafe.v
ProcThms.v
ProcSignals.v
Ports.v
PortsProofs.v
PortsBuffers.v
Memory.v
MemoryProofs.v
Compact.v
StackProofs.v
Messages.v
MessagesThms.v
Shootdown.v
ShootdownProofs.v
Paging.v
Modload.v
ModloadProofs.v
ModloadRun.v
ModloadThms.v
Luxpack.v
LuxpackThms.v
JitRt.v
JitRtLaws.v
JitPublish.v
KernelSim.v
JitThms.v
HostJit.v
HostJitLaws.v
HostRun.v
HostRunThms.v
HostAgree.v
Asm.v
AsmRef.v
AsmLayout.v
AsmVerify.v
AsmText.v
AsmThms.v
