(* ===== verification/Prelude.v ===== *)
(** * Yggdrasil: a verification of the BEAM-like kernel

    Yggdrasil is an operating system whose processes run verified bytecode: terms live in
    per-process bump heaps, messages are deep copies, modules are verified when they are
    loaded, and an interpreter (or a baseline compiler) runs them under a multicore scheduler.
    This library models that core in Rocq, file by file, and proves what makes it correct.
    Everything is executable; integers are [Z] with the wrap-around of their width written out,
    as in the release build the kernel ships (debug assertions off).

    ** How code is modelled

    This file holds the shared machinery.  A computation is [M S E A := S -> res E A * S]: the
    state is threaded, and a result is a value, an error of the Rust [Result] ([Err]), a panic
    ([Panic]) or the end of the fuel ([NoFuel]).  Reading or writing unmapped memory, an index out of range,
    [unwrap] of [None] and [unreachable!] are [Panic], so "no panic" also means memory safety.
    [wp c Q s] states all outcomes of [c] at once.  Code outside the repository is a class with
    named laws (page tables, device drivers, the kernel services a process calls), and every
    theorem over such a class has a witness with a concrete instance.

    ** The files

    - [Prelude]: the monad, machine integers, lists indexed by [Z], the hint databases.
    - [Rings] ([crates/ygg-rings]): the ring buffers of the ports.  [Ring], [push], [pop] as
      sequential methods; [Spsc] has the same methods one atomic access at a time, as a step relation
      for one producer and one consumer.  A ring refines a bounded queue, and under
      every interleaving the values come out in order, none lost, and the two sides never touch
      the same slot.
    - [FrameAlloc] ([crates/ygg-alloc]): the frame bitmap with every method.  [alloc] is a next
      fit, [alloc_contig] the lowest aligned run, [free_frames] panics exactly on a double free.
    - [Term] ([crates/ygg-term]): tagged words, readers, the bump heap, tuples, lists, binaries,
      maps, size, equality and the deep copy, on a memory [gmap Z Z] of words.  [TermImm] has the
      immediates, [TermHeap] the contract of an allocation ([grows]), [TermVal] the value [val] a
      word denotes ([repr]) with size and equality, [TermFmt] the text it is printed as, [TermCopy]
      the deep copy, [TermMap] the maps.
    - [Evac] (same crate): the Cheney collector.  [EvacInv] states its invariant, [EvacSteps]
      proves it step by step, [EvacProofs] concludes that the roots keep their values, that every
      reachable object is copied once and that it fails exactly when they do not fit.
    - [Bytecode] ([crates/ygg-bytecode]): the module format, the code builder with its
      labels, the linear decoder and the sentinel analysis; [BytecodeFormat] proves that decoding
      inverts encoding and rejects everything else, [BytecodeAnalysis] that labels are resolved and that the
      analysis is the reachability it means.
    - [Verify] (same crate): the verifier, arm by arm; [VerifySound] proves that it accepts
      exactly the modules that satisfy a declarative specification.
    - [Interp] ([crates/ygg-interp]): frames, one definition per instruction, the fetch
      loop and calls, over the class [SystemApi] of what the kernel offers.  [InterpSafe] states the contract
      of a host ([ApiLawsUpTo], whose methods may panic only in states where they are to blame for it;
      [ApiLaws] is the contract of one that never does); it,
      [InterpRun], [InterpArms], [InterpFuel] and [InterpExec] prove that a function of a verified
      module never panics nor traps with [BadCode], keeps existing terms, and returns a well-formed term.
    - [Atoms] ([kernel/src/atoms.rs]): the atom table.
    - [Proc] ([kernel/src/proc.rs], [percpu.rs]): process table, run queues, timer wheel, spawning, message
      delivery, receive, links, monitors and the scheduler loop; the cores interleave at the
      granularity of the table lock, each core's position is its program counter [pc].  [ProcInv]
      is the placement invariant, [ProcSafe] its preservation, [ProcThms] and [ProcSignals] the
      theorems: every process in exactly one place, no panic, exit signals exactly once with nothing else changed.
    - [Ports] ([kernel/src/ports.rs], [virtio.rs], [serial.rs]): submission, completion, parked reads and the buffer
      table; [PortsProofs] accounts for every submission and completion.  [PortsBuffers] interleaves
      the critical sections of the buffer functions on several cores: a pinned buffer stays.
    - [Memory] ([kernel/src/mm.rs], [vmm.rs], [proc.rs]): boot of the frame allocator, process
      heaps, stack slots and mappings; [MemoryProofs] and [StackProofs] prove that frames are neither leaked nor shared.
    - [Shootdown] ([kernel/src/vmm.rs], [smp.rs], [irq.rs]): mapping and unmapping stacks on all cores at
      once, one access of shared state at a time, with their translation caches and the flush
      interrupt; [ShootdownProofs]: no core reaches a freed frame, and a broadcast ends.
    - [Paging] ([kernel/src/vmm.rs], [mm.rs]): the kernel's own page tables, built at boot, over the class
      [BootMapper] of the page-table crate: nothing is writable and executable, and [virt_to_phys]
      undoes them.
    - [Messages] ([kernel/src/proc.rs]): fragments, and the message services of [Proc] on real memory;
      [MessagesThms]: what the selective receive returns denotes the value that was sent.
    - [Compact] ([kernel/src/proc.rs]): [maybe_compact], which joins [Memory] and [Evac].
    - [Modload] ([kernel/src/modload.rs]): the two-version module table, loading, purging, the
      trampoline and the kernel's [SystemApi], over the classes [Runtime] (the rest of the kernel) and
      [Engine] (the compiler and its code).  [ModloadProofs] proves that this [SystemApi] keeps the
      interpreter's contract, [ModloadRun] follows the trampoline and the loader, [ModloadThms]
      concludes that only verified modules are in the table and that running them through tail
      calls, version changes and nested calls panics only where a service of the rest of the kernel does.
    - [Clif]: the intermediate representation the compiler hands to the third-party code
      generator, as the record of the builder calls made, and its execution.  What the arithmetic
      instructions compute is the class [Clif] with the documented values as [ClifLaws].
    - [Jit] ([crates/ygg-jit]): the baseline compiler: helper signatures, decoder, block leaders,
      one definition per arm of [compile_fn], relocations, the module driver.  [JitScan] proves that
      [find_leaders] finds the blocks.  [JitLogic] and [JitSim] are the logic of emitted code (the
      translator only appends; a translator step and an interpreter step in simulation);
      [JitArms], [JitControl] and [JitExtCall] prove the simulation arm by arm; [JitTotal] and
      [JitLoop] prove that the translation of verified code always succeeds; [JitRefine] joins
      them over blocks, functions and calls.  The reference is [native_run] of [JitRef]: the interpreter
      with the five arms in which the compiler departs from it.  [JitInterp] proves that
      on runs that return the departure shows only in the polls.  [ApiSim]: the interpreter on two hosts that simulate
      each other gives the same results.
    - [JitRt] ([kernel/src/jit.rs]): the [rt_] functions that compiled code calls and their table.
      The contract between compiler and kernel is the class [HelperLaws] of [JitRef]; [JitRtLaws]
      discharges it for the kernel's helpers.  [KernelSim] relates the kernel's own services
      ([KernelApi]) to what the helpers do for a process registered at the version it runs.
    - [JitPublish] ([kernel/src/jit.rs]): layout, copying and relocation of compiled code;
      [JitThms] concludes: a verified module is compiled, published and linked, its code does what the
      reference says, and returns what the interpreter returns on the kernel's services.
    - [Luxpack] ([tools/xtask/src/main.rs], [kernel/src/selftest.rs]): writing a pack of modules and
      loading it; [LuxpackThms]: a written pack installs what was packed, and no bytes make
      the loader panic.
    - [HostJit], [HostRun] ([tools/ygg-run/src/main.rs]): the development host's compiled and interpreted
      modes.  [HostJitLaws] discharges [HelperLaws] for the host's helpers; [HostRunThms] proves that no pack makes
      interpreting panic in a release build; [HostAgree] that the two modes agree on modules that use no
      buffers, whose helpers the compiled mode does not have.
    - [Asm] ([tools/ygg-asm]): the assembler, line by line.  [AsmRef] is a two-pass reference with a syntax
      table, [AsmLayout] proves the one-pass assembler equal to it, [AsmText] reads the reference
      back as a translation of the text, [AsmVerify] relates it to the verifier, and
      [AsmThms] concludes that checked text assembles into modules the kernel accepts.

    ** Fuel

    Loops and recursions that are not structural take fuel, and every such definition has a
    theorem that gives a sufficient amount: [vfuel v] for the readers of a value [v], the length
    of the code for the verifier and the analyses, one unit per free word of to-space for the scan of
    the collector, the queue lengths for the pumps.  The interpreter runs programs that need not
    end; [run_function_fuel] shows that more fuel never changes a result.  For compiled
    code the theorems give an amount of fuel from which on the outcome is that of the reference.  The trampoline adds a
    bound on its hops and on the nesting of external calls; its theorems hold at every bound, and so do
    those about the host's.

    ** Not modelled

    The third-party code generator behind [crates/ygg-jit]: the class [Backend], whose laws only
    speak about the relocations it reports, so the step from the intermediate
    representation to machine code is trusted; the switch to the compiler's stack.  Page-table
    formats, the allocator behind the kernel's [Vec]s and the device registers belong to other crates or
    to hardware and are classes or absent.  CPU and interrupt set-up, ACPI tables and drivers: sequences of
    register writes without state of their own.  The self tests, except the pack loader in their file.
    The build tool [xtask], except its pack writer: it runs other programs.  Reading files,
    command lines and the texts of messages of the host tools. *)

From Stdlib Require Export Strings.Byte.
From stdpp Require Export base numbers option list gmap relations.
From stdpp Require Import strings.

#[global] Open Scope Z_scope.
#[global] Set Default Goal Selector "!".
#[global] Unset Printing Use Implicit Types.

(** ** Machine integers

    Every Rust integer is a [Z]; the wrap-around of a width is written out. *)

Definition wrap (w z : Z) : Z := z mod 2 ^ w.
Definition swrap (w z : Z) : Z := (z + 2 ^ (w - 1)) mod 2 ^ w - 2 ^ (w - 1).

Abbreviation u8w := (wrap 8) (only parsing).
Abbreviation u16w := (wrap 16) (only parsing).
Abbreviation u32w := (wrap 32) (only parsing).
Abbreviation u64w := (wrap 64) (only parsing).
Abbreviation i32w := (swrap 32) (only parsing).
Abbreviation i64w := (swrap 64) (only parsing).

(** [usize::checked_add], on the 64-bit targets the code is built for. *)
Definition checked_add_usize (a b : Z) : option Z :=
  if bool_decide (a + b < 2 ^ 64) then Some (a + b) else None.

(** [i64::checked_add], [checked_sub], [checked_mul] share this range test. *)
Definition checked_i64 (v : Z) : option Z :=
  if bool_decide (- 2 ^ 63 <= v < 2 ^ 63) then Some v else None.

(** [usize::div_ceil]. *)
Definition div_ceil (a b : Z) : Z := (a + b - 1) / b.

(** ** Bytes *)

Definition b2z (b : byte) : Z := Z.of_N (Byte.to_N b).
Definition z2b (z : Z) : byte :=
  match Byte.of_N (Z.to_N (z mod 256)) with Some b => b | None => x00 end.

(** [to_le_bytes] and [from_le_bytes]. *)
Fixpoint le_bytes (n : nat) (z : Z) : list byte :=
  match n with
  | O => []
  | S n' => z2b z :: le_bytes n' (z / 256)
  end.

Fixpoint le_val (bs : list byte) : Z :=
  match bs with
  | [] => 0
  | b :: bs' => b2z b + 256 * le_val bs'
  end.

#[export] Instance byte_eq_decision : EqDecision byte := Byte.byte_eq_dec.

#[export] Instance byte_countable : Countable byte.
Proof.
  refine (inj_countable Byte.to_N Byte.of_N _).
  intros b. apply Byte.of_to_N.
Defined.

(** ** Slices and vectors

    [lookupz l i] is Rust's [l.get(i)]; [slice l a b] is [l.get(a..b)].  Both
    compare against the length before converting the index, so they also
    evaluate quickly on indices far out of range. *)

Definition zlen {A} (l : list A) : Z := Z.of_nat (length l).

Definition lookupz {A} (l : list A) (i : Z) : option A :=
  if bool_decide (0 <= i < zlen l) then l !! Z.to_nat i else None.

Definition insertz {A} (i : Z) (x : A) (l : list A) : list A :=
  if bool_decide (0 <= i < zlen l) then <[Z.to_nat i := x]> l else l.

Definition slice {A} (l : list A) (a b : Z) : option (list A) :=
  if bool_decide (0 <= a /\ a <= b /\ b <= zlen l)
  then Some (take (Z.to_nat (b - a)) (drop (Z.to_nat a) l))
  else None.

(** ** Results and stateful computations

    [res E A] is the outcome of a Rust computation returning [Result<A, E>]:
    [Panic] stands for a Rust panic and for an access outside live memory,
    [NoFuel] for a bounded execution of a loop that was cut short. *)

Inductive res (E A : Type) : Type :=
| Ok (a : A)
| Err (e : E)
| Panic
| NoFuel.
Arguments Ok {E A} _.
Arguments Err {E A} _.
Arguments Panic {E A}.
Arguments NoFuel {E A}.

#[export] Instance res_ret {E} : MRet (res E) := fun A a => Ok a.
#[export] Instance res_bind {E} : MBind (res E) := fun A B f r =>
  match r with Ok a => f a | Err e => Err e | Panic => Panic | NoFuel => NoFuel end.

(** The state survives an error: a Rust function that fails keeps the writes
    it made through [&mut] references before failing. *)
Definition M (S E A : Type) : Type := S -> res E A * S.

#[export] Instance M_ret {S E} : MRet (M S E) := fun A a s => (Ok a, s).
#[export] Instance M_bind {S E} : MBind (M S E) := fun A B f c s =>
  match c s with
  | (Ok a, s') => f a s'
  | (Err e, s') => (Err e, s')
  | (Panic, s') => (Panic, s')
  | (NoFuel, s') => (NoFuel, s')
  end.

Section monad_ops.
Context {S E : Type}.

Definition throw {A} (e : E) : M S E A := fun s => (Err e, s).
Definition panic {A} : M S E A := fun s => (Panic, s).
Definition nofuel {A} : M S E A := fun s => (NoFuel, s).
Definition get : M S E S := fun s => (Ok s, s).
Definition gets {A} (f : S -> A) : M S E A := fun s => (Ok (f s), s).
Definition modify (f : S -> S) : M S E unit := fun s => (Ok tt, f s).
(** A computation that reads no state of [S]. *)
Definition lift {A} (r : res E A) : M S E A := fun s => (r, s).
(** [o.ok_or(e)?] *)
Definition ok_or {A} (o : option A) (e : E) : M S E A :=
  match o with Some a => mret a | None => throw e end.
(** Indexing and [unwrap]: a missing value panics. *)
Definition unwrap {A} (o : option A) : M S E A :=
  match o with Some a => mret a | None => panic end.
(** [assert!(b)] *)
Definition massert (b : bool) : M S E unit := if b then mret tt else panic.
(** [if b { return Err(e) }] *)
Definition fail_if (b : bool) (e : E) : M S E unit :=
  if b then throw e else mret tt.

(** [for x in xs { body(x)?; }] *)
Fixpoint for_each {A} (xs : list A) (body : A -> M S E unit) : M S E unit :=
  match xs with
  | [] => mret tt
  | x :: xs' => _ ← body x; for_each xs' body
  end.

(** [for _ in 0..n { v.push(body()?) }] *)
Fixpoint collect {A} (n : nat) (body : M S E A) : M S E (list A) :=
  match n with
  | O => mret []
  | Datatypes.S n' => x ← body; xs ← collect n' body; mret (x :: xs)
  end.

(** [for _ in 0..n { body()?; }] *)
Fixpoint repeat_m (n : nat) (body : M S E unit) : M S E unit :=
  match n with
  | O => mret tt
  | Datatypes.S n' => _ ← body; repeat_m n' body
  end.
End monad_ops.

(** [r.map_err(f)] *)
Definition map_err {S E E' A} (f : E -> E') (c : M S E A) : M S E' A := fun s =>
  match c s with
  | (Ok a, s') => (Ok a, s')
  | (Err e, s') => (Err (f e), s')
  | (Panic, s') => (Panic, s')
  | (NoFuel, s') => (NoFuel, s')
  end.

(** A Rust [match] on an integer: the first arm whose patterns contain it. *)
Fixpoint select_arm {A} (x : Z) (arms : list (list Z * A)) (otherwise : A) : A :=
  match arms with
  | [] => otherwise
  | (pats, body) :: arms' => if existsb (Z.eqb x) pats then body else select_arm x arms' otherwise
  end.

(** The outcome of a computation, all of its branches in one postcondition. *)
Definition wp {S E A} (c : M S E A) (Q : res E A -> S -> Prop) (s : S) : Prop :=
  Q (c s).1 (c s).2.

(** *** Lemmas *)

Lemma wrap_range w z : 0 <= w -> 0 <= wrap w z < 2 ^ w.
Proof. intros. unfold wrap. apply Z.mod_pos_bound. lia. Qed.

Lemma wrap_small w z : 0 <= z < 2 ^ w -> wrap w z = z.
Proof. apply Z.mod_small. Qed.

Lemma swrap_range w z : 0 < w -> - 2 ^ (w - 1) <= swrap w z < 2 ^ (w - 1).
Proof.
  intros Hw. unfold swrap.
  assert (2 ^ w = 2 * 2 ^ (w - 1)) by (rewrite <- Z.pow_succ_r by lia; f_equal; lia).
  pose proof (Z.mod_pos_bound (z + 2 ^ (w - 1)) (2 ^ w)). lia.
Qed.

Lemma swrap_small w z : 0 < w -> - 2 ^ (w - 1) <= z < 2 ^ (w - 1) -> swrap w z = z.
Proof.
  intros Hw Hz. unfold swrap.
  assert (2 ^ w = 2 * 2 ^ (w - 1)) by (rewrite <- Z.pow_succ_r by lia; f_equal; lia).
  rewrite Z.mod_small; lia.
Qed.

Lemma swrap_wrap w z : 0 < w -> swrap w (wrap w z) = swrap w z.
Proof.
  intros Hw. unfold swrap, wrap. rewrite Zplus_mod_idemp_l. done.
Qed.

Lemma mod_add_ne a k n : 0 < k < n -> (a + k) mod n <> a mod n.
Proof.
  intros Hk He. pose proof (Z.div_mod (a + k) n ltac:(lia)) as H1.
  pose proof (Z.div_mod a n ltac:(lia)) as H2.
  assert (k = n * ((a + k) / n - a / n)) as H3 by lia.
  destruct (Z.le_gt_cases ((a + k) / n - a / n) 0); nia.
Qed.

Lemma b2z_range b : 0 <= b2z b < 256.
Proof. unfold b2z. pose proof (Byte.to_N_bounded b). lia. Qed.

Lemma z2b_b2z b : z2b (b2z b) = b.
Proof.
  unfold z2b. rewrite Z.mod_small by apply b2z_range.
  unfold b2z. rewrite N2Z.id, Byte.of_to_N. done.
Qed.

Lemma b2z_z2b z : b2z (z2b z) = z mod 256.
Proof.
  unfold z2b, b2z. pose proof (Z.mod_pos_bound z 256 ltac:(lia)).
  destruct (Byte.of_N _) as [b|] eqn:Hb.
  - apply Byte.to_of_N in Hb. rewrite Hb. lia.
  - apply Byte.of_N_None_iff in Hb. lia.
Qed.

Lemma b2z_inj b1 b2 : b2z b1 = b2z b2 -> b1 = b2.
Proof. intros H. rewrite <- (z2b_b2z b1), <- (z2b_b2z b2). by rewrite H. Qed.

Lemma length_le_bytes n z : length (le_bytes n z) = n.
Proof. revert z; induction n; intros; simpl; [done|]. by rewrite IHn. Qed.

Lemma le_val_range bs : 0 <= le_val bs < 256 ^ zlen bs.
Proof.
  unfold zlen. induction bs as [|b bs IH]; [simpl; lia|].
  cbn [le_val length]. rewrite Nat2Z.inj_succ, Z.pow_succ_r by lia.
  pose proof (b2z_range b). lia.
Qed.

Lemma le_val_bytes n z : le_val (le_bytes n z) = z mod 256 ^ Z.of_nat n.
Proof.
  revert z. induction n as [|n IH]; intros z.
  { simpl. by rewrite Z.mod_1_r. }
  cbn [le_bytes le_val]. rewrite IH, b2z_z2b, Nat2Z.inj_succ, Z.pow_succ_r by lia.
  rewrite (Z.rem_mul_r z 256) by lia. done.
Qed.

Lemma le_bytes_val bs : le_bytes (length bs) (le_val bs) = bs.
Proof.
  induction bs as [|b bs IH]; [done|]. cbn [length le_bytes le_val].
  pose proof (b2z_range b). f_equal.
  - apply b2z_inj. rewrite b2z_z2b. rewrite Z.mul_comm, Z_mod_plus_full, Z.mod_small; lia.
  - rewrite Z.mul_comm, Z.div_add, Z.div_small, Z.add_0_l by lia. done.
Qed.

Lemma zlen_nonneg {A} (l : list A) : 0 <= zlen l.
Proof. unfold zlen; lia. Qed.

Lemma zlen_app {A} (l k : list A) : zlen (l ++ k) = zlen l + zlen k.
Proof. unfold zlen. rewrite length_app. lia. Qed.

Lemma zlen_cons {A} (x : A) l : zlen (x :: l) = 1 + zlen l.
Proof. unfold zlen. cbn [length]. lia. Qed.

Lemma zlen_nil {A} : zlen (@nil A) = 0.
Proof. done. Qed.

Lemma lookupz_Some {A} (l : list A) i x :
  lookupz l i = Some x <-> 0 <= i /\ l !! Z.to_nat i = Some x.
Proof.
  unfold lookupz, zlen. case_bool_decide as H; split.
  - intros Hx. split; [lia|done].
  - by intros [_ Hx].
  - done.
  - intros [Hi Hx]. apply lookup_lt_Some in Hx. lia.
Qed.

Lemma lookupz_range {A} (l : list A) i x : lookupz l i = Some x -> 0 <= i < zlen l.
Proof. unfold lookupz. case_bool_decide; [done|discriminate]. Qed.

Lemma lookupz_is_Some {A} (l : list A) i :
  0 <= i < zlen l -> is_Some (lookupz l i).
Proof.
  intros H. unfold lookupz. rewrite bool_decide_true by done.
  apply lookup_lt_is_Some. unfold zlen in H. lia.
Qed.

Lemma lookupz_None {A} (l : list A) i : lookupz l i = None <-> ~ (0 <= i < zlen l).
Proof.
  split.
  - intros Hn Hi. apply lookupz_is_Some in Hi as [x Hx]. congruence.
  - intros Hi. unfold lookupz. by rewrite bool_decide_false.
Qed.

Lemma zlen_insertz {A} i (x : A) l : zlen (insertz i x l) = zlen l.
Proof. unfold insertz, zlen. case_bool_decide; [by rewrite length_insert|done]. Qed.

Lemma lookupz_insertz {A} i j (x : A) l :
  0 <= i < zlen l -> lookupz (insertz i x l) j = if decide (i = j) then Some x else lookupz l j.
Proof.
  intros Hi. unfold lookupz. rewrite zlen_insertz. unfold insertz, zlen in *.
  rewrite (bool_decide_true (0 <= i < _)) by done.
  case_decide as Hij; [subst j|].
  - rewrite bool_decide_true by done. apply list_lookup_insert_eq. lia.
  - case_bool_decide; [|done]. apply list_lookup_insert_ne. lia.
Qed.

Lemma lookup_omap_total {A B} (f : A -> option B) (l : list A) i :
  (forall x, x ∈ l -> is_Some (f x)) -> omap f l !! i = l !! i ≫= f.
Proof.
  revert i. induction l as [|x l IH]; intros i Hf; [done|].
  destruct (Hf x) as [y Hy]; [set_solver|].
  cbn [omap list_omap]. rewrite Hy. destruct i as [|i]; simpl; [done|].
  apply IH. set_solver.
Qed.

Lemma lookupz_app_r {A} (l : list A) x : lookupz (l ++ [x]) (zlen l) = Some x.
Proof.
  apply lookupz_Some. split; [auto using zlen_nonneg|].
  unfold zlen. rewrite Nat2Z.id. by apply list_lookup_middle.
Qed.

Lemma lookupz_nil {A} i : lookupz (@nil A) i = None.
Proof. unfold lookupz. by case_bool_decide. Qed.

Lemma lookupz_app_l {A} (l k : list A) i : i < zlen l -> lookupz (l ++ k) i = lookupz l i.
Proof.
  intros Hi. unfold lookupz, zlen in *. rewrite length_app.
  destruct (decide (0 <= i)).
  - rewrite !bool_decide_true by lia. apply lookup_app_l. lia.
  - rewrite !bool_decide_false by lia. done.
Qed.

Lemma lookupz_snoc {A} (l : list A) x i :
  lookupz (l ++ [x]) i = if decide (i = zlen l) then Some x else lookupz l i.
Proof.
  case_decide as Hi; [subst i; apply lookupz_app_r|]. destruct (decide (i < zlen l)); [by apply lookupz_app_l|].
  trans (@None A); [|symmetry]; apply lookupz_None; [|lia].
  unfold zlen in *. rewrite length_app. cbn. lia.
Qed.

Lemma zlen_inj {A B} (l : list A) (k : list B) : zlen l = zlen k <-> length l = length k.
Proof. unfold zlen. lia. Qed.

(** Walking [seqZ 0 n] is walking the list the indices address. *)
Lemma lookupz_cons_shift {A} (x y : A) xs i : lookupz xs i = Some y -> lookupz (x :: xs) (1 + i) = Some y.
Proof.
  rewrite !lookupz_Some. intros [? H]. split; [lia|].
  by replace (Z.to_nat (1 + i)) with (S (Z.to_nat i)) by lia.
Qed.

Lemma seqZ_walk {A} i0 (x : A) xs : seqZ i0 (zlen (x :: xs)) = i0 :: seqZ (Z.succ i0) (zlen xs).
Proof.
  pose proof (zlen_nonneg xs). rewrite zlen_cons, seqZ_cons by lia. do 2 f_equal. lia.
Qed.

Lemma seqZ_0 {A} i0 : seqZ i0 (zlen (@nil A)) = [].
Proof. by apply seqZ_nil. Qed.

Lemma Forall2_impl_elem {A B} (P Q : A -> B -> Prop) l k :
  Forall2 P l k -> (forall x y, x ∈ l -> P x y -> Q x y) -> Forall2 Q l k.
Proof. induction 1 as [|x y l k Hxy _ IH]; intros H; constructor; [|apply IH]; set_solver. Qed.

(** A small integer is one of finitely many. *)
Lemma seqZ_cases (P : Z -> Prop) n z : Forall P (seqZ 0 n) -> 0 <= z < n -> P z.
Proof. rewrite Forall_forall. intros H Hz. apply H, elem_of_seqZ. lia. Qed.

Lemma select_arm_none {A} x (arms : list (list Z * A)) d :
  Forall (fun a => x ∉ a.1) arms -> select_arm x arms d = d.
Proof.
  induction 1 as [|[pats body] arms Hx _ IH]; [done|]. cbn [select_arm fst] in *.
  destruct (existsb _ pats) eqn:He; [|done]. apply existsb_exists in He as (y & Hy & ->%Z.eqb_eq).
  by apply list_elem_of_In in Hy.
Qed.

(** A property every step preserves holds of every state reached. *)
Lemma rtc_preserves {A} (R : relation A) (I : A -> Prop) x y :
  (forall a b, I a -> R a b -> I b) -> rtc R x y -> I x -> I y.
Proof. intros HI Hr. induction Hr; eauto. Qed.

(** *** The monad *)

Lemma bind_ok {S E A B} (c : M S E A) (k : A -> M S E B) s b s' :
  (x ← c; k x) s = (Ok b, s') <-> exists a s1, c s = (Ok a, s1) /\ k a s1 = (Ok b, s').
Proof.
  unfold mbind, M_bind. destruct (c s) as [[a|e| |] s1]; split; try discriminate.
  { intros H; eauto. }
  all: intros (a' & s2 & H1 & H2); by simplify_eq.
Qed.

Lemma bind_eval {S E A B} (c : M S E A) (k : A -> M S E B) s a s1 :
  c s = (Ok a, s1) -> (x ← c; k x) s = k a s1.
Proof. unfold mbind, M_bind. by intros ->. Qed.

Lemma bind_assoc {S E A B C} (c : M S E A) (k : A -> M S E B) (k' : B -> M S E C) s :
  (y ← (x ← c; k x); k' y) s = (x ← c; y ← k x; k' y) s.
Proof. unfold mbind, M_bind. by destruct (c s) as [[a|e| |] s1]. Qed.

Lemma bind_ext {S E A B} (c : M S E A) (k k' : A -> M S E B) s :
  (forall a s', k a s' = k' a s') -> (x ← c; k x) s = (x ← c; k' x) s.
Proof. intros H. unfold mbind, M_bind. destruct (c s) as [[a|e| |] s1]; auto. Qed.

Lemma wp_ret {S E A} (a : A) (Q : res E A -> S -> Prop) s : Q (Ok a) s -> wp (mret a) Q s.
Proof. done. Qed.

Lemma wp_bind {S E A B} (c : M S E A) (k : A -> M S E B) Q s :
  wp c (fun r s' => match r with
                    | Ok a => wp (k a) Q s'
                    | Err e => Q (Err e) s'
                    | Panic => Q Panic s'
                    | NoFuel => Q NoFuel s'
                    end) s ->
  wp (x ← c; k x) Q s.
Proof.
  unfold wp, mbind, M_bind. destruct (c s) as [[a|e| |] s1]; simpl; auto.
Qed.

Lemma wp_mono {S E A} (c : M S E A) (Q Q' : res E A -> S -> Prop) s :
  wp c Q s -> (forall r s', Q r s' -> Q' r s') -> wp c Q' s.
Proof. unfold wp. auto. Qed.

Lemma wp_throw {S E A} (e : E) (Q : res E A -> S -> Prop) s : Q (Err e) s -> wp (throw e) Q s.
Proof. done. Qed.

(** Decompose every hypothesis [(x ← c; k x) s = (Ok _, _)] into its steps. *)
Ltac minv :=
  repeat match goal with
    | H : (mbind _ _) _ = (Ok _, _) |- _ =>
        let a := fresh "a" in let s1 := fresh "s" in let H1 := fresh "Hc" in
        apply bind_ok in H as (a & s1 & H1 & H)
    | H : mret _ _ = (Ok _, _) |- _ => unfold mret, M_ret in H; simplify_eq
    | H : throw _ _ = (Ok _, _) |- _ => discriminate H
    | H : fail_if ?b _ _ = (Ok _, _) |- _ =>
        let Hb := fresh "Hb" in
        destruct b eqn:Hb; cbn [fail_if] in H; [discriminate H|]
    end.

Create HintDb ygg.
Create Rewrite HintDb zlen.
#[export] Hint Resolve zlen_nonneg b2z_range : ygg.
#[export] Hint Rewrite @zlen_app @zlen_cons @zlen_nil @zlen_insertz : zlen.
