(* ===== verification/Rings.v ===== *)
(** * Rings: the SPSC submission and completion rings

    Models [crates/ygg-rings/src/lib.rs].  [Ring] is the lock-free ring of
    capacity [N] with its two wrapping [u32] cursors; [push] and [pop] are the
    producer's and the consumer's methods.  [Spsc] splits the two methods into
    their atomic loads and stores and lets them interleave. *)

From S2P Require Import Prelude.

(** Submission and completion queue entries. *)
Record Sqe := { sqe_op : Z; sqe_tag : Z; sqe_arg0 : Z; sqe_arg1 : Z }.
Record Cqe := { cqe_tag : Z; cqe_result : Z }.

Definition SKIP_CQE : Z := -1.
Definition Sqe_DEFAULT : Sqe := {| sqe_op := 0; sqe_tag := 0; sqe_arg0 := 0; sqe_arg1 := 0 |}.
Definition Cqe_DEFAULT : Cqe := {| cqe_tag := 0; cqe_result := 0 |}.

Inductive full := Full.

#[export] Instance Sqe_eq_dec : EqDecision Sqe.
Proof. solve_decision. Defined.
#[export] Instance Cqe_eq_dec : EqDecision Cqe.
Proof. solve_decision. Defined.

(** [N.is_power_of_two()], for a positive [N] of [usize]. *)
Definition is_power_of_two (n : Z) : bool :=
  bool_decide (0 < n) && bool_decide (2 ^ Z.log2 n = n).

Record Ring (T : Type) := { entries : list T; head : Z; tail : Z }.
Arguments entries {T} _.
Arguments head {T} _.
Arguments tail {T} _.
Arguments Build_Ring {T} _ _ _.

Section ring.
Context {T : Type} (N : Z).
Implicit Types (r : Ring T) (v dflt : T).

(** [Ring::new] and [Ring::new_zeroed]; [dflt] is [T::default()], resp.
    [T::DEFAULT]. *)
Definition new dflt : Ring T :=
  {| entries := replicate (Z.to_nat N) dflt; head := 0; tail := 0 |}.

Definition len r : Z := wrap 32 (tail r - head r).
Definition is_empty r : bool := bool_decide (len r = 0).
Definition is_full r : bool := bool_decide (len r = N).

(** [entries[i as usize % N]]: in range whenever [entries] has [N] cells. *)
Definition slot (i : Z) : Z := i mod N.

Definition push v : M (Ring T) full unit :=
  r ← get;
  _ ← fail_if (bool_decide (wrap 32 (tail r - head r) = N)) Full;
  _ ← massert (bool_decide (slot (tail r) < zlen (entries r)));
  modify (fun r => {| entries := insertz (slot (tail r)) v (entries r);
                      head := head r;
                      tail := wrap 32 (tail r + 1) |}).

Definition pop : M (Ring T) Empty_set (option T) :=
  r ← get;
  if bool_decide (head r = tail r) then mret None
  else
    v ← unwrap (lookupz (entries r) (slot (head r)));
    _ ← modify (fun r => {| entries := entries r;
                            head := wrap 32 (head r + 1);
                            tail := tail r |});
    mret (Some v).

(** The queue a ring stands for: [len] values from [head] on. *)
Definition contents r : list T :=
  omap (fun k => lookupz (entries r) (slot (head r + k))) (seqZ 0 (len r)).

Record wf r : Prop := {
  wf_entries : zlen (entries r) = N;
  wf_head : 0 <= head r < 2 ^ 32;
  wf_tail : 0 <= tail r < 2 ^ 32;
  wf_len : len r <= N
}.
End ring.

(** ** The two methods, one atomic access at a time

    [push] loads [tail], loads [head], tests for fullness, writes the entry and
    publishes [tail]; [pop] loads [head], loads [tail], reads the entry and
    publishes [head].  One producer and one consumer interleave freely; the
    acquire/release pairs of the code order each load after the store it reads
    from, so the accesses are modelled as sequentially consistent. *)

Module Spsc.
Inductive prod_pc (T : Type) :=
| PIdle
| PGotTail (v : T) (t : Z)
| PGotHead (v : T) (t h : Z)
| PWrite (v : T) (t : Z)
| PPublish (v : T) (t : Z).
Arguments PIdle {T}.
Arguments PGotTail {T} _ _.
Arguments PGotHead {T} _ _ _.
Arguments PWrite {T} _ _.
Arguments PPublish {T} _ _.

Inductive cons_pc (T : Type) :=
| CIdle
| CGotHead (h : Z)
| CRead (h : Z)
| CPublish (h : Z) (v : T).
Arguments CIdle {T}.
Arguments CGotHead {T} _.
Arguments CRead {T} _.
Arguments CPublish {T} _ _.

(** [pushed] and [popped] log the completed operations. *)
Record config (T : Type) := {
  ring : Ring T; prod : prod_pc T; cons : cons_pc T;
  pushed : list T; popped : list T
}.
Arguments ring {T} _.
Arguments prod {T} _.
Arguments cons {T} _.
Arguments pushed {T} _.
Arguments popped {T} _.
Arguments Build_config {T} _ _ _ _ _.

Section step.
Context {T : Type} (N : Z).
Implicit Types (r : Ring T) (v : T).

(** Every state-changing access of [Ring::push]. *)
Inductive prod_step : config T -> config T -> Prop :=
| step_load_tail r cc ps qs v :
    prod_step (Build_config r PIdle cc ps qs)
              (Build_config r (PGotTail v (tail r)) cc ps qs)
| step_load_head_p r cc ps qs v t :
    prod_step (Build_config r (PGotTail v t) cc ps qs)
              (Build_config r (PGotHead v t (head r)) cc ps qs)
| step_full r cc ps qs v t h :
    wrap 32 (t - h) = N ->
    prod_step (Build_config r (PGotHead v t h) cc ps qs)
              (Build_config r PIdle cc ps qs)
| step_not_full r cc ps qs v t h :
    wrap 32 (t - h) <> N ->
    prod_step (Build_config r (PGotHead v t h) cc ps qs)
              (Build_config r (PWrite v t) cc ps qs)
| step_write r cc ps qs v t :
    prod_step (Build_config r (PWrite v t) cc ps qs)
              (Build_config {| entries := insertz (slot N t) v (entries r);
                               head := head r; tail := tail r |}
                            (PPublish v t) cc ps qs)
| step_store_tail r cc ps qs v t :
    prod_step (Build_config r (PPublish v t) cc ps qs)
              (Build_config {| entries := entries r; head := head r;
                               tail := wrap 32 (t + 1) |}
                            PIdle cc (ps ++ [v]) qs).

(** Every state-changing access of [Ring::pop]. *)
Inductive cons_step : config T -> config T -> Prop :=
| step_load_head r pc ps qs :
    cons_step (Build_config r pc CIdle ps qs)
              (Build_config r pc (CGotHead (head r)) ps qs)
| step_empty r pc ps qs h :
    h = tail r ->
    cons_step (Build_config r pc (CGotHead h) ps qs)
              (Build_config r pc CIdle ps qs)
| step_nonempty r pc ps qs h :
    h <> tail r ->
    cons_step (Build_config r pc (CGotHead h) ps qs)
              (Build_config r pc (CRead h) ps qs)
| step_read r pc ps qs h v :
    lookupz (entries r) (slot N h) = Some v ->
    cons_step (Build_config r pc (CRead h) ps qs)
              (Build_config r pc (CPublish h v) ps qs)
| step_store_head r pc ps qs h v :
    cons_step (Build_config r pc (CPublish h v) ps qs)
              (Build_config {| entries := entries r; head := wrap 32 (h + 1);
                               tail := tail r |}
                            pc CIdle ps (qs ++ [v])).

Definition step (c c' : config T) : Prop := prod_step c c' \/ cons_step c c'.

Definition init (dflt : T) : config T := Build_config (new N dflt) PIdle CIdle [] [].

Definition reachable (dflt : T) (c : config T) : Prop := rtc step (init dflt) c.
End step.

(** *** The invariant, on the absolute (unwrapped) counters *)

Section invariant.
Context {T : Type} (N : Z).
Implicit Types (r : Ring T) (v : T) (c : config T).

Definition npush c : Z := zlen (pushed c).
Definition npop c : Z := zlen (popped c).

Definition prod_ok c : Prop :=
  match prod c with
  | PIdle => True
  | PGotTail v t => t = wrap 32 (npush c)
  | PGotHead v t h =>
      t = wrap 32 (npush c) /\
      exists k, h = wrap 32 k /\ npush c - N <= k <= npop c
  | PWrite v t => t = wrap 32 (npush c) /\ npush c < npop c + N
  | PPublish v t =>
      t = wrap 32 (npush c) /\ npush c < npop c + N /\
      lookupz (entries (ring c)) (slot N (npush c)) = Some v
  end.

Definition cons_ok c : Prop :=
  match cons c with
  | CIdle => True
  | CGotHead h => h = wrap 32 (npop c)
  | CRead h => h = wrap 32 (npop c) /\ npop c < npush c
  | CPublish h v =>
      h = wrap 32 (npop c) /\ npop c < npush c /\ lookupz (pushed c) (npop c) = Some v
  end.

Record inv c : Prop := {
  inv_len : zlen (entries (ring c)) = N;
  inv_tail : tail (ring c) = wrap 32 (npush c);
  inv_head : head (ring c) = wrap 32 (npop c);
  inv_order : npop c <= npush c <= npop c + N;
  inv_live : forall k, npop c <= k < npush c ->
    lookupz (entries (ring c)) (slot N k) = lookupz (pushed c) k;
  inv_popped : popped c `prefix_of` pushed c;
  inv_prod : prod_ok c;
  inv_cons : cons_ok c
}.
End invariant.
End Spsc.

(** * Proofs *)

(** The capacities the code can instantiate: a power of two below [2^32]. *)
Class Capacity (N : Z) : Prop := capacity_pow2 : exists k, 0 <= k < 32 /\ N = 2 ^ k.

Lemma is_power_of_two_capacity N :
  is_power_of_two N = true -> N < 2 ^ 32 -> Capacity N.
Proof.
  unfold is_power_of_two. intros [HN Hp]%andb_true_iff Hlt.
  apply bool_decide_eq_true in HN, Hp. exists (Z.log2 N).
  split; [|done]. split; [apply Z.log2_nonneg|].
  apply Z.log2_lt_pow2; lia.
Qed.

Section arith.
Context {N : Z} `{Capacity N}.

Lemma capacity_pos : 0 < N < 2 ^ 32.
Proof.
  destruct capacity_pow2 as (k & Hk & ->). split; [lia|].
  apply Z.pow_lt_mono_r; lia.
Qed.

(** A wrapped cursor selects the same slot as the unwrapped one: this is what
    the power-of-two capacity is for. *)
Lemma slot_wrap i : slot N (wrap 32 i) = slot N i.
Proof.
  unfold slot, wrap. destruct capacity_pow2 as (k & Hk & ->).
  rewrite Z.mod_mod_divide; [done|].
  exists (2 ^ (32 - k)). rewrite <- Z.pow_add_r by lia. f_equal. lia.
Qed.

Lemma slot_range i : 0 <= slot N i < N.
Proof. unfold slot. apply Z.mod_pos_bound. pose proof capacity_pos. lia. Qed.

Lemma slot_inj i j : slot N i = slot N j -> Z.abs (i - j) < N -> i = j.
Proof.
  unfold slot. intros Heq Hd. pose proof capacity_pos.
  pose proof (Z.div_mod i N ltac:(lia)). pose proof (Z.div_mod j N ltac:(lia)).
  assert (i / N = j / N) by nia. nia.
Qed.

Lemma wrap_sub_wrap a b : wrap 32 (wrap 32 a - wrap 32 b) = wrap 32 (a - b).
Proof. unfold wrap. by rewrite <- Zminus_mod. Qed.

Lemma wrap_add_wrap a b : wrap 32 (wrap 32 a + b) = wrap 32 (a + b).
Proof. unfold wrap. by rewrite Zplus_mod_idemp_l. Qed.

(** Cursors at most [N] apart are equal exactly when they are the same. *)
Lemma wrap_eq_iff a b : 0 <= a - b <= N -> wrap 32 b = wrap 32 a <-> b = a.
Proof.
  intros Hd. split; [|by intros ->]. intros Heq.
  assert (wrap 32 (a - b) = 0) as Hz.
  { rewrite <- wrap_sub_wrap, Heq, Z.sub_diag. done. }
  rewrite wrap_small in Hz; pose proof capacity_pos; lia.
Qed.

Lemma wrap_diff a b : 0 <= a - b <= N -> wrap 32 (wrap 32 a - wrap 32 b) = a - b.
Proof.
  intros Hd. rewrite wrap_sub_wrap, wrap_small; [done|].
  pose proof capacity_pos. lia.
Qed.
End arith.

Section sequential.
Context {T : Type} {N : Z} `{Capacity N}.
Implicit Types (r : Ring T) (v dflt : T).

Lemma new_wf dflt : wf N (new N dflt).
Proof.
  pose proof capacity_pos. split; simpl; [|lia..|].
  - unfold zlen. rewrite length_replicate. lia.
  - unfold len; simpl. rewrite wrap_small; lia.
Qed.

Lemma len_range r : 0 <= len r.
Proof. unfold len. apply wrap_range. lia. Qed.

Lemma lookup_contents r i :
  wf N r ->
  contents N r !! i =
    if decide (Z.of_nat i < len r) then lookupz (entries r) (slot N (head r + Z.of_nat i))
    else None.
Proof.
  intros Hwf. unfold contents. rewrite lookup_omap_total.
  2:{ intros k _. apply lookupz_is_Some. rewrite (wf_entries N r) by done. apply slot_range. }
  case_decide.
  - by rewrite lookup_seqZ_lt by lia.
  - rewrite lookup_seqZ_ge by lia. done.
Qed.

Lemma length_contents r : wf N r -> zlen (contents N r) = len r.
Proof.
  intros Hwf. pose proof (len_range r).
  assert (forall i, is_Some (contents N r !! i) <-> Z.of_nat i < len r) as Hi.
  { intros i. rewrite lookup_contents by done. case_decide; [|by split; [intros []|]].
    split; [done|]. intros _. apply lookupz_is_Some.
    rewrite (wf_entries N r) by done. apply slot_range. }
  unfold zlen. destruct (Z.lt_trichotomy (Z.of_nat (length (contents N r))) (len r))
    as [Hlt|[Heq|Hgt]]; [|done|].
  - assert (is_Some (contents N r !! length (contents N r))) as Hs by (apply Hi; lia).
    apply lookup_lt_is_Some in Hs. lia.
  - assert (is_Some (contents N r !! Z.to_nat (len r))) as Hs
      by (apply lookup_lt_is_Some; lia).
    apply Hi in Hs. lia.
Qed.

(** The ring after a successful [push]: one more value, still well formed. *)
Definition after_push r v : Ring T :=
  {| entries := insertz (slot N (tail r)) v (entries r);
     head := head r; tail := wrap 32 (tail r + 1) |}.

Definition after_pop r : Ring T :=
  {| entries := entries r; head := wrap 32 (head r + 1); tail := tail r |}.

Lemma tail_slot r : wf N r -> slot N (tail r) = slot N (head r + len r).
Proof.
  intros [He Hh Ht Hl]. rewrite <- (slot_wrap (head r + _)). f_equal. unfold len.
  rewrite Z.add_comm, wrap_add_wrap, wrap_small; lia.
Qed.

Lemma len_after_push r v : wf N r -> len r <> N -> len (after_push r v) = len r + 1.
Proof.
  intros [He Hh Ht Hl] Hn. pose proof (len_range r). pose proof capacity_pos.
  unfold len at 1; simpl. rewrite <- (wrap_small 32 (head r)) at 1 by lia.
  rewrite wrap_sub_wrap.
  replace (tail r + 1 - head r) with ((tail r - head r) + 1) by lia.
  rewrite <- wrap_add_wrap. fold (len r). rewrite wrap_small; lia.
Qed.

Lemma after_push_wf r v : wf N r -> len r <> N -> wf N (after_push r v).
Proof.
  intros Hwf Hn. pose proof (len_after_push r v Hwf Hn). destruct Hwf as [He Hh Ht Hl].
  split; [simpl; by rewrite zlen_insertz|simpl; lia|apply wrap_range; lia|lia].
Qed.

Lemma length_contents_nat r : wf N r -> length (contents N r) = Z.to_nat (len r).
Proof. intros Hwf. pose proof (length_contents r Hwf) as Hz. unfold zlen in Hz. lia. Qed.

Lemma contents_after_push r v :
  wf N r -> len r <> N -> contents N (after_push r v) = contents N r ++ [v].
Proof.
  intros Hwf Hn. pose proof (len_range r). pose proof (tail_slot r Hwf) as Hslot.
  pose proof (length_contents_nat r Hwf) as Hc.
  pose proof (wf_entries N r Hwf). pose proof (slot_range (tail r)).
  apply list_eq. intros i.
  rewrite lookup_contents by auto using after_push_wf. rewrite len_after_push by done.
  simpl. rewrite lookupz_insertz by lia.
  destruct (decide (Z.of_nat i < len r)) as [Hi|Hi].
  - rewrite (decide_True (P := _ < len r + 1)) by lia. rewrite lookup_app_l by lia.
    rewrite lookup_contents, (decide_True (P := _ < len r)) by done.
    rewrite decide_False; [done|]. rewrite Hslot. intros Heq.
    apply slot_inj in Heq; pose proof (wf_len N r Hwf); lia.
  - rewrite lookup_app_r by lia. rewrite Hc. case_decide as Hi2.
    + replace (i - Z.to_nat (len r))%nat with 0%nat by lia. simpl.
      rewrite decide_True; [done|]. rewrite Hslot. f_equal. lia.
    + rewrite lookup_ge_None_2; [done|]. simpl. lia.
Qed.

Lemma push_run r v :
  wf N r ->
  push N v r = if bool_decide (len r = N) then (Err Full, r) else (Ok tt, after_push r v).
Proof.
  intros Hwf. unfold push, get, mbind, M_bind; simpl. fold (len r). unfold fail_if.
  case_bool_decide; [done|]. simpl. pose proof (slot_range (tail r)).
  by rewrite (bool_decide_true (slot N (tail r) < _))
    by (rewrite (wf_entries N r Hwf); lia).
Qed.

Lemma len_zero r : wf N r -> len r = 0 <-> head r = tail r.
Proof.
  intros [He Hh Ht Hl]. unfold len, wrap. rewrite Z.mod_divide by lia.
  split; [|intros ->; exists 0; lia]. intros [q Hq]. nia.
Qed.

Lemma pop_run r :
  wf N r ->
  pop N r = match contents N r with
            | [] => (Ok None, r)
            | v :: _ => (Ok (Some v), after_pop r)
            end.
Proof.
  intros Hwf. pose proof (len_range r). pose proof (len_zero r Hwf) as Hz.
  pose proof (length_contents_nat r Hwf) as Hc. unfold pop, get, mbind, M_bind; simpl.
  case_bool_decide as He.
  - apply Hz in He. rewrite He in Hc. by destruct (contents N r).
  - assert (len r <> 0) by tauto.
    assert (contents N r !! 0%nat = lookupz (entries r) (slot N (head r))) as Hfst.
    { rewrite lookup_contents, decide_True by (done || lia). f_equal. f_equal. lia. }
    destruct (contents N r) as [|v l]; simpl in *; [lia|]. by rewrite <- Hfst.
Qed.

Lemma after_pop_wf r : wf N r -> len r <> 0 -> wf N (after_pop r) /\ len (after_pop r) = len r - 1.
Proof.
  intros [He Hh Ht Hl] Hn. pose proof (len_range r). pose proof capacity_pos.
  assert (len (after_pop r) = len r - 1) as Hlen.
  { unfold len at 1; simpl. rewrite <- (wrap_small 32 (tail r)) by lia.
    rewrite wrap_sub_wrap.
    replace (tail r - (head r + 1)) with ((tail r - head r) + -1) by lia.
    rewrite <- wrap_add_wrap. fold (len r). rewrite wrap_small; lia. }
  split; [|done]. split; simpl; [done|apply wrap_range; lia|lia|lia].
Qed.

Lemma contents_after_pop r : wf N r -> len r <> 0 -> contents N (after_pop r) = List.tl (contents N r).
Proof.
  intros Hwf Hn. pose proof (after_pop_wf r Hwf Hn) as [Hwf' Hlen].
  apply list_eq. intros i. rewrite lookup_contents by done. rewrite Hlen.
  transitivity (contents N r !! S i); [|by destruct (contents N r)].
  rewrite lookup_contents by done.
  destruct (decide (Z.of_nat i < len r - 1)).
  - rewrite decide_True by lia. simpl. f_equal.
    rewrite <- slot_wrap, wrap_add_wrap, slot_wrap. f_equal. lia.
  - by rewrite decide_False by lia.
Qed.
End sequential.

(** ** The bounded queue the ring implements *)

Module Queue.
Inductive op (T : Type) := OpPush (v : T) | OpPop.
Arguments OpPush {T} _.
Arguments OpPop {T}.

(** What an operation returns: [push]'s [Result] and [pop]'s [Option]. *)
Inductive reply (T : Type) := Pushed (ok : bool) | Popped (v : option T).
Arguments Pushed {T} _.
Arguments Popped {T} _.

Section run.
Context {T : Type} (N : Z).

(** The specification: a FIFO list of at most [N] values. *)
Definition queue_step (o : op T) (q : list T) : reply T * list T :=
  match o with
  | OpPush v => if bool_decide (zlen q < N) then (Pushed true, q ++ [v]) else (Pushed false, q)
  | OpPop => match q with [] => (Popped None, []) | v :: q' => (Popped (Some v), q') end
  end.

(** The same operations on the ring; [None] if the ring panics. *)
Definition ring_step (o : op T) (r : Ring T) : option (reply T * Ring T) :=
  match o with
  | OpPush v => match push N v r with
                | (Ok _, r') => Some (Pushed true, r')
                | (Err _, r') => Some (Pushed false, r')
                | _ => None
                end
  | OpPop => match pop N r with (Ok o, r') => Some (Popped o, r') | _ => None end
  end.

Fixpoint queue_run (os : list (op T)) (q : list T) : list (reply T) :=
  match os with
  | [] => []
  | o :: os' => (queue_step o q).1 :: queue_run os' (queue_step o q).2
  end.

Fixpoint ring_run (os : list (op T)) (r : Ring T) : option (list (reply T)) :=
  match os with
  | [] => Some []
  | o :: os' => '(x, r') ← ring_step o r; xs ← ring_run os' r'; Some (x :: xs)
  end.
End run.

Section refinement.
Context {T : Type} {N : Z} `{Capacity N}.

Lemma ring_step_sim (o : op T) (r : Ring T) :
  wf N r ->
  exists r', ring_step N o r = Some ((queue_step N o (contents N r)).1, r') /\
             wf N r' /\ contents N r' = (queue_step N o (contents N r)).2.
Proof.
  intros Hwf. pose proof (length_contents r Hwf) as Hc. pose proof (wf_len N r Hwf).
  destruct o as [v|]; simpl.
  - rewrite push_run by done. rewrite Hc. case_bool_decide.
    + rewrite bool_decide_false by lia. eauto.
    + rewrite bool_decide_true by lia. eexists.
      split; [done|]. split; [by apply after_push_wf|by apply contents_after_push].
  - rewrite pop_run by done. destruct (contents N r) as [|v q] eqn:Hq; [eauto|].
    assert (len r <> 0) as Hn. { rewrite zlen_cons in Hc. pose proof (zlen_nonneg q). lia. }
    eexists. split; [done|]. split; [by apply after_pop_wf|].
    rewrite contents_after_pop, Hq by done. done.
Qed.

Lemma ring_run_sim (os : list (op T)) (r : Ring T) :
  wf N r -> ring_run N os r = Some (queue_run N os (contents N r)).
Proof.
  revert r. induction os as [|o os IH]; intros r Hwf; [done|]. simpl.
  destruct (ring_step_sim o r Hwf) as (r' & -> & Hwf' & Hc). simpl.
  by rewrite IH, Hc.
Qed.

Lemma contents_new (dflt : T) : contents N (new N dflt) = [].
Proof.
  apply length_zero_iff_nil. rewrite length_contents_nat by apply new_wf. done.
Qed.
End refinement.

(** C34: a ring of any admissible capacity, driven by any sequence of [push] and
    [pop] calls from [Ring::new], never panics and answers every call exactly as
    a FIFO list of at most [N] values does, across any number of wrap-arounds of
    its 32-bit cursors. *)
Theorem ring_refines_queue {T : Type} (N : Z) (dflt : T) (os : list (op T)) :
  is_power_of_two N = true -> N < 2 ^ 32 ->
  ring_run N os (new N dflt) = Some (queue_run N os []).
Proof.
  intros Hp HN. pose proof (is_power_of_two_capacity N Hp HN).
  rewrite ring_run_sim by apply new_wf. by rewrite contents_new.
Qed.

Lemma ring_refines_queue_witness :
  ring_run 2 [OpPush 7; OpPush 8; OpPush 9; OpPop; OpPush 10; OpPop; OpPop; OpPop] (new 2 0) =
  Some [Pushed true; Pushed true; Pushed false; Popped (Some 7); Pushed true;
        Popped (Some 8); Popped (Some 10); Popped None].
Proof.
  apply (ring_refines_queue 2 0 [OpPush 7; OpPush 8; OpPush 9; OpPop; OpPush 10; OpPop; OpPop; OpPop]).
  - reflexivity.
  - reflexivity.
Defined.
End Queue.

Module SpscProofs.
Import Spsc.

Section proofs.
Context {T : Type} {N : Z} `{Capacity N}.
Implicit Types (c : config T) (v : T).

Lemma init_inv (dflt : T) : inv N (init N dflt).
Proof.
  pose proof capacity_pos. split; try done.
  - simpl. unfold zlen. rewrite length_replicate. lia.
  - cbv [npush npop init pushed popped]. rewrite zlen_nil. lia.
  - cbv [npush npop init pushed popped]. rewrite zlen_nil. lia.
Qed.

Ltac unpack :=
  match goal with Hi : inv _ _ |- _ => destruct Hi as [Hlen Htl Hhd Hord Hlive Hpre Hp Hc] end;
  unfold prod_ok, cons_ok, npush, npop in *; cbn [ring prod cons pushed popped] in *.

Lemma prod_step_inv c c' : inv N c -> prod_step N c c' -> inv N c'.
Proof.
  intros Hi Hs. destruct Hs; unpack.
  - by split.
  - split; try done. unfold prod_ok, npush, npop; cbn. split; [done|].
    exists (zlen qs). split; [done|lia].
  - by split.
  - split; try done. unfold prod_ok, npush, npop; cbn.
    destruct Hp as [-> (k & -> & Hk)]. split; [done|].
    rewrite wrap_diff in * by lia. lia.
  - destruct Hp as [-> Hlt]. rewrite slot_wrap.
    pose proof (slot_range (zlen ps)).
    split; unfold prod_ok, cons_ok, npush, npop; cbn; try done.
    + by rewrite zlen_insertz.
    + intros k Hk. rewrite lookupz_insertz by lia. rewrite decide_False; [by apply Hlive|].
      intros Heq. apply slot_inj in Heq; lia.
    + split; [done|]. split; [done|]. rewrite lookupz_insertz, decide_True by (done || lia). done.
  - destruct Hp as (-> & Hlt & Hv).
    split; unfold prod_ok, cons_ok, npush, npop; cbn; rewrite ?zlen_app, ?zlen_cons, ?zlen_nil;
      try done.
    + by rewrite wrap_add_wrap.
    + lia.
    + intros k Hk. destruct (decide (k = zlen ps)) as [->|].
      * by rewrite Hv, lookupz_app_r.
      * rewrite lookupz_app_l by lia. apply Hlive. lia.
    + by apply prefix_app_r.
    + destruct cc; try done; destruct_and?; split_and?; try done; try lia.
      by rewrite lookupz_app_l by lia.
Qed.

Lemma cons_step_inv c c' : inv N c -> cons_step N c c' -> inv N c'.
Proof.
  intros Hi Hs. destruct Hs; unpack.
  - by split.
  - by split.
  - split; try done. unfold cons_ok, npush, npop; cbn. subst. split; [done|].
    assert (zlen qs <> zlen ps); [|lia]. congruence.
  - split; try done. unfold cons_ok, npush, npop; cbn. destruct Hc as [-> Hlt].
    split; [done|]. split; [done|]. rewrite slot_wrap, Hlive in * by lia. done.
  - destruct Hc as (-> & Hlt & Hv).
    split; unfold prod_ok, cons_ok, npush, npop; cbn; rewrite ?zlen_app, ?zlen_cons, ?zlen_nil;
      try done.
    + by rewrite wrap_add_wrap.
    + lia.
    + intros k Hk. apply Hlive. lia.
    + destruct Hpre as [ks ->]. destruct ks as [|k ks].
      { rewrite app_nil_r in Hlt. lia. }
      assert (k = v) as ->.
      { apply lookupz_Some in Hv as [_ Hv]. unfold zlen in Hv. rewrite Nat2Z.id in Hv.
        rewrite list_lookup_middle in Hv; congruence. }
      exists ks. by rewrite <- app_assoc.
    + destruct pc; [done|done|..].
      * destruct Hp as [? (k & ? & ?)]. split; [done|]. exists k. split; [done|lia].
      * destruct Hp. split; [done|lia].
      * destruct Hp as (? & ? & ?). split_and!; [done|lia|done].
Qed.

Lemma reachable_inv (dflt : T) c : reachable N dflt c -> inv N c.
Proof.
  intros Hr. apply (rtc_preserves _ (inv N) _ _) in Hr; [done| |apply init_inv].
  intros c1 c2 Hi [Hs|Hs]; eauto using prod_step_inv, cons_step_inv.
Qed.

(** The accesses of an uninterrupted [push] add up to the sequential method. *)
Lemma push_steps r v cc ps qs :
  wf N r -> len r <> N ->
  rtc (prod_step N) (Build_config r PIdle cc ps qs)
      (Build_config (push N v r).2 PIdle cc (ps ++ [v]) qs).
Proof.
  intros Hwf Hn. rewrite push_run, bool_decide_false by done. simpl.
  eapply rtc_l; [apply (step_load_tail N r cc ps qs v)|].
  eapply rtc_l; [apply step_load_head_p|].
  eapply rtc_l; [by apply step_not_full|].
  eapply rtc_l; [apply step_write|].
  eapply rtc_l; [apply step_store_tail|]. cbn. apply rtc_refl.
Qed.
End proofs.

(** C28: however the atomic accesses of one producer and one consumer interleave,
    the values popped so far are a prefix of the values pushed so far (nothing is
    lost, duplicated, reordered or invented) and at most [N] values are in
    flight. *)
Theorem spsc_fifo {T : Type} (N : Z) (dflt : T) (c : config T) :
  is_power_of_two N = true -> N < 2 ^ 32 -> reachable N dflt c ->
  popped c `prefix_of` pushed c /\ zlen (pushed c) <= zlen (popped c) + N.
Proof.
  intros Hp HN Hr. pose proof (is_power_of_two_capacity N Hp HN).
  apply reachable_inv in Hr as [? ? ? Hord ? ? ? ?]. unfold npush, npop in Hord.
  split; [done|lia].
Qed.

(** One [push] of 5 and the matching [pop], interleaved. *)
Definition sample : config Z :=
  Build_config {| entries := [5; 0]; head := 1; tail := 1 |} PIdle CIdle [5] [5].

Lemma sample_reachable : reachable 2 0 sample.
Proof.
  unfold reachable, init.
  eapply rtc_l; [left; apply (step_load_tail 2 _ _ _ _ 5)|].
  eapply rtc_l; [right; apply step_load_head|].
  eapply rtc_l; [left; apply step_load_head_p|].
  eapply rtc_l; [left; apply step_not_full; done|].
  eapply rtc_l; [left; apply step_write|].
  eapply rtc_l; [left; apply step_store_tail|].
  eapply rtc_l; [right; apply step_nonempty; done|].
  eapply rtc_l; [right; apply (step_read 2 _ _ _ _ _ 5); done|].
  eapply rtc_l; [right; apply step_store_head|].
  apply rtc_refl.
Defined.

Lemma spsc_fifo_witness :
  popped sample `prefix_of` pushed sample /\ zlen (pushed sample) <= zlen (popped sample) + 2.
Proof. apply (spsc_fifo 2 0 sample); [reflexivity|reflexivity|apply sample_reachable]. Defined.

(** the unsynchronised accesses to [entries] never race: whenever the producer
    is about to write its slot and the consumer is about to read its own, the two
    slots differ, both are in bounds, and the slot read holds the next value in
    FIFO order. *)
Theorem spsc_no_race {T : Type} (N : Z) (dflt : T) (c : config T) (v : T) (t h : Z) :
  is_power_of_two N = true -> N < 2 ^ 32 -> reachable N dflt c ->
  prod c = PWrite v t -> cons c = CRead h ->
  slot N t <> slot N h /\ 0 <= slot N t < zlen (entries (ring c)) /\
  lookupz (entries (ring c)) (slot N h) = pushed c !! length (popped c) /\
  is_Some (pushed c !! length (popped c)).
Proof.
  intros Hp HN Hr Hprod Hcons. pose proof (is_power_of_two_capacity N Hp HN).
  apply reachable_inv in Hr as [Hlen ? ? Hord Hlive ? Hpo Hco].
  unfold prod_ok, cons_ok, npush, npop in *. rewrite Hprod in Hpo. rewrite Hcons in Hco.
  destruct Hpo as [-> Hlt], Hco as [-> Hlt']. rewrite !slot_wrap, Hlen.
  split; [intros Heq; apply slot_inj in Heq; lia|]. split; [apply slot_range|].
  pose proof (zlen_nonneg (popped c)). rewrite Hlive by lia.
  unfold lookupz. rewrite bool_decide_true by lia.
  unfold zlen in *. rewrite Nat2Z.id. split; [done|]. apply lookup_lt_is_Some. lia.
Qed.

(** Both sides inside their critical access: 5 is in the ring, 6 is being pushed. *)
Definition racing : config Z :=
  Build_config {| entries := [5; 0]; head := 0; tail := 1 |} (PWrite 6 1) (CRead 0) [5] [].

Lemma racing_reachable : reachable 2 0 racing.
Proof.
  unfold reachable, init.
  eapply rtc_l; [left; apply (step_load_tail 2 _ _ _ _ 5)|].
  eapply rtc_l; [left; apply step_load_head_p|].
  eapply rtc_l; [left; apply step_not_full; done|].
  eapply rtc_l; [left; apply step_write|].
  eapply rtc_l; [left; apply step_store_tail|].
  eapply rtc_l; [right; apply step_load_head|].
  eapply rtc_l; [right; apply step_nonempty; done|].
  eapply rtc_l; [left; apply (step_load_tail 2 _ _ _ _ 6)|].
  eapply rtc_l; [left; apply step_load_head_p|].
  eapply rtc_l; [left; apply step_not_full; done|].
  apply rtc_refl.
Defined.

Lemma spsc_no_race_witness :
  slot 2 1 <> slot 2 0 /\ 0 <= slot 2 1 < zlen (entries (ring racing)) /\
  lookupz (entries (ring racing)) (slot 2 0) = pushed racing !! length (popped racing) /\
  is_Some (pushed racing !! length (popped racing)).
Proof.
  apply (spsc_no_race 2 0 racing 6 1 0);
    [reflexivity|reflexivity|apply racing_reachable|reflexivity|reflexivity].
Defined.
End SpscProofs.
