(* ===== verification/FrameAlloc.v ===== *)
(** * FrameAlloc: the physical frame bitmap

    Models [crates/ygg-alloc/src/lib.rs].  One bit per frame, set = used; the
    cursor drives next-fit single-frame allocation, contiguous runs are
    first-fit.  Out-of-range indexing of the storage slice and failed
    [assert!]s are [Panic]; [debug_assert!]s are absent from the release kernel
    and from the model. *)

From S2P Require Import Prelude Rings.

Definition FRAME_SIZE : Z := 4096.

Record FrameBitmap := {
  bits : list Z;
  base : Z;
  nframes : Z;
  cursor : Z;
  free : Z
}.

Definition with_cursor (c : Z) (b : FrameBitmap) : FrameBitmap :=
  {| bits := bits b; base := base b; nframes := nframes b; cursor := c; free := free b |}.
Definition with_word (k w fr : Z) (b : FrameBitmap) : FrameBitmap :=
  {| bits := insertz k w (bits b); base := base b; nframes := nframes b;
     cursor := cursor b; free := fr |}.

Definition storage_words (n : Z) : Z := div_ceil n 64.

(** No operation of the allocator returns a [Result]. *)
Abbreviation FM := (M FrameBitmap Empty_set).

(** [FrameBitmap::new] fills the caller's storage with ones. *)
Definition new (base0 n : Z) (storage : list Z) : res Empty_set FrameBitmap :=
  if bool_decide (storage_words n <= zlen storage) && bool_decide (base0 mod FRAME_SIZE = 0)
  then Ok {| bits := replicate (length storage) (2 ^ 64 - 1); base := base0;
             nframes := n; cursor := 0; free := 0 |}
  else Panic.

Definition index_of (b : FrameBitmap) (addr : Z) : Z := wrap 64 (addr - base b) / FRAME_SIZE.
Definition addr_of (b : FrameBitmap) (i : Z) : Z := wrap 64 (base b + i * FRAME_SIZE).

Definition is_used (i : Z) : FM bool :=
  b ← get;
  w ← unwrap (lookupz (bits b) (i / 64));
  mret (negb (bool_decide (Z.land w (Z.shiftl 1 (i mod 64)) = 0))).

Definition set_used (i : Z) (used : bool) : FM unit :=
  b ← get;
  let mask := Z.shiftl 1 (i mod 64) in
  w ← unwrap (lookupz (bits b) (i / 64));
  let was := negb (bool_decide (Z.land w mask = 0)) in
  if used then
    modify (with_word (i / 64) (Z.lor w mask) (if was then free b else wrap 64 (free b - 1)))
  else
    modify (with_word (i / 64) (Z.ldiff w mask) (if was then wrap 64 (free b + 1) else free b)).

Definition mark_free_range (addr len : Z) : FM unit :=
  b ← get;
  let first := index_of b addr in
  let n := len / FRAME_SIZE in
  for_each (seqZ first (Z.min (first + n) (nframes b) - first)) (fun i => set_used i false).

Definition mark_used_range (addr len : Z) : FM unit :=
  b ← get;
  let first := index_of b addr in
  let n := div_ceil len FRAME_SIZE in
  for_each (seqZ first (Z.min (first + n) (nframes b) - first)) (fun i => set_used i true).

(** [(i + 1) % self.nframes]; a zero divisor panics. *)
Definition next_index (i : Z) : FM Z :=
  b ← get;
  _ ← massert (negb (bool_decide (nframes b = 0)));
  mret ((i + 1) mod nframes b).

(** The loop of [alloc]; it inspects at most [nframes] frames before it is back
    at [start], which is the fuel [alloc] gives it. *)
Fixpoint alloc_loop (fuel : nat) (start i : Z) : FM (option Z) :=
  match fuel with
  | O => nofuel
  | S fuel' =>
      u ← is_used i;
      if negb u then
        _ ← set_used i true;
        c ← next_index i;
        _ ← modify (with_cursor c);
        b ← get;
        mret (Some (addr_of b i))
      else
        i' ← next_index i;
        if bool_decide (i' = start) then mret None else alloc_loop fuel' start i'
  end.

Definition alloc : FM (option Z) :=
  b ← get;
  if bool_decide (free b = 0) then mret None
  else alloc_loop (Z.to_nat (nframes b)) (cursor b) (cursor b).

(** The inner scan of [alloc_contig]: the first used frame among
    [i, i + 1, ..., i + n - 1], as the offset [j] at which it is found. *)
Fixpoint first_used (i : Z) (js : list Z) : FM (option Z) :=
  match js with
  | [] => mret None
  | j :: js' => u ← is_used (i + j); if u : bool then mret (Some j) else first_used i js'
  end.

(** ['outer]: every round advances [i] by at least one, so [nframes + 1] rounds
    are enough. *)
Fixpoint contig_loop (fuel : nat) (n align i : Z) : FM (option Z) :=
  match fuel with
  | O => nofuel
  | S fuel' =>
      b ← get;
      if bool_decide (i + n <= nframes b) then
        let misalign := base b / FRAME_SIZE + i in
        if negb (bool_decide (misalign mod align = 0)) then
          contig_loop fuel' n align (i + (align - misalign mod align))
        else
          o ← first_used i (seqZ 0 n);
          match o with
          | Some j => contig_loop fuel' n align (i + j + 1)
          | None =>
              _ ← for_each (seqZ 0 n) (fun j => set_used (i + j) true);
              mret (Some (addr_of b i))
          end
      else mret None
  end.

Definition alloc_contig (n align_frames : Z) : FM (option Z) :=
  _ ← massert (bool_decide (0 < n) && is_power_of_two align_frames);
  b ← get;
  if bool_decide (free b < n) then mret None
  else contig_loop (S (Z.to_nat (nframes b))) n align_frames 0.

Definition free_frames (addr n : Z) : FM unit :=
  b ← get;
  let first := index_of b addr in
  for_each (seqZ first n) (fun i =>
    u ← is_used i;
    _ ← massert u;
    set_used i false).

Definition free_count (b : FrameBitmap) : Z := free b.
Definition total (b : FrameBitmap) : Z := nframes b.

(** ** The set of free frames, and the invariant *)

Definition used_bit (b : FrameBitmap) (i : Z) : bool :=
  match lookupz (bits b) (i / 64) with
  | Some w => Z.testbit w (i mod 64)
  | None => true
  end.

Definition free_set (b : FrameBitmap) : gset Z :=
  list_to_set (filter (fun i => used_bit b i = false) (seqZ 0 (nframes b))).

Record wf (b : FrameBitmap) : Prop := {
  wf_storage : storage_words (nframes b) <= zlen (bits b);
  wf_words : Forall (fun w => 0 <= w < 2 ^ 64) (bits b);
  wf_base : 0 <= base b /\ base b mod FRAME_SIZE = 0;
  wf_nframes : 0 <= nframes b /\ base b + nframes b * FRAME_SIZE < 2 ^ 64;
  wf_cursor : 0 <= cursor b /\ (0 < nframes b -> cursor b < nframes b);
  wf_free : free b = Z.of_nat (size (free_set b))
}.

(** A run [alloc_contig] may hand out: [n] free frames from an aligned index. *)
Definition run_at (b : FrameBitmap) (n align i : Z) : Prop :=
  0 <= i /\ i + n <= nframes b /\ (base b / FRAME_SIZE + i) mod align = 0 /\
  forall j, 0 <= j < n -> i + j ∈ free_set b.

(** The frames [i, i + 1, ..., i + n - 1] as a set. *)
Definition frames (i n : Z) : gset Z := list_to_set (seqZ i n).

(** The state [set_used] leaves behind. *)
Definition set_bit (i : Z) (used : bool) (b : FrameBitmap) : FrameBitmap :=
  (set_used i used b).2.

(** ** Proofs *)

Lemma elem_of_free_set b i :
  i ∈ free_set b <-> 0 <= i < nframes b /\ used_bit b i = false.
Proof.
  unfold free_set. rewrite elem_of_list_to_set, list_elem_of_filter, elem_of_seqZ.
  rewrite Z.add_0_l. tauto.
Qed.

Lemma elem_of_frames i n k : k ∈ frames i n <-> i <= k < i + n.
Proof. unfold frames. by rewrite elem_of_list_to_set, elem_of_seqZ. Qed.

Lemma land_bit w k : 0 <= k -> negb (bool_decide (Z.land w (Z.shiftl 1 k) = 0)) = Z.testbit w k.
Proof.
  intros Hk. rewrite Z.shiftl_1_l. case_bool_decide as Hz; simpl.
  - assert (Z.testbit (Z.land w (2 ^ k)) k = false) as Ht by (rewrite Hz; apply Z.testbit_0_l).
    rewrite Z.land_spec, Z.pow2_bits_true, andb_true_r in Ht by done. done.
  - destruct (Z.testbit w k) eqn:Ht; [done|]. exfalso. apply Hz.
    apply Z.bits_inj'. intros j Hj. rewrite Z.land_spec, Z.testbit_0_l.
    destruct (decide (k = j)) as [->|Hne]; [by rewrite Ht|].
    rewrite Z.pow2_bits_false by lia. apply andb_false_r.
Qed.

Lemma mask_bit k j : 0 <= k -> Z.testbit (Z.shiftl 1 k) j = bool_decide (j = k).
Proof.
  intros Hk. rewrite Z.shiftl_1_l. case_bool_decide as H.
  - subst. by apply Z.pow2_bits_true.
  - apply Z.pow2_bits_false. lia.
Qed.

Lemma word_bits_range w :
  0 <= w -> (forall j, 64 <= j -> Z.testbit w j = false) -> 0 <= w < 2 ^ 64.
Proof.
  intros H0 Hb. split; [done|].
  destruct (decide (w = 0)) as [->|]; [lia|].
  apply Z.log2_lt_pow2; [lia|]. apply Z.nle_gt. intros Hl.
  specialize (Hb _ Hl). rewrite Z.bit_log2 in Hb; [done|lia].
Qed.

Lemma word_high_bits w j : 0 <= w < 2 ^ 64 -> 64 <= j -> Z.testbit w j = false.
Proof.
  intros Hw Hj. apply Z.bits_above_log2; [lia|].
  destruct (decide (w = 0)) as [->|]; [simpl; lia|].
  assert (Z.log2 w < 64); [|lia]. apply Z.log2_lt_pow2; lia.
Qed.

Section wf_lemmas.
Context (b : FrameBitmap) (Hwf : wf b).

Lemma word_index i : 0 <= i < nframes b -> 0 <= i / 64 < zlen (bits b).
Proof.
  intros Hi. pose proof (wf_storage b Hwf) as Hs. unfold storage_words, div_ceil in Hs.
  split; [apply Z.div_pos; lia|].
  assert (i / 64 < (nframes b + 64 - 1) / 64); [|lia].
  apply Z.div_lt_upper_bound; [lia|].
  pose proof (Z.div_mod (nframes b + 64 - 1) 64). pose proof (Z.mod_pos_bound (nframes b + 64 - 1) 64).
  lia.
Qed.

Lemma word_lookup i : 0 <= i < nframes b ->
  exists w, lookupz (bits b) (i / 64) = Some w /\ 0 <= w < 2 ^ 64.
Proof.
  intros Hi. destruct (lookupz_is_Some _ _ (word_index i Hi)) as [w Hw].
  exists w. split; [done|]. apply lookupz_Some in Hw as [_ Hw].
  exact (Forall_lookup_1 _ _ _ _ (wf_words b Hwf) Hw).
Qed.

Lemma is_used_run i : 0 <= i < nframes b -> is_used i b = (Ok (used_bit b i), b).
Proof.
  intros Hi. destruct (word_lookup i Hi) as (w & Hw & _).
  unfold is_used, used_bit, get, unwrap, mbind, M_bind; simpl. rewrite Hw; simpl.
  rewrite land_bit; [done|]. apply Z.mod_pos_bound. lia.
Qed.
End wf_lemmas.

Section set_bit_lemmas.
Context (b : FrameBitmap) (Hwf : wf b) (i : Z) (Hi : 0 <= i < nframes b).

Lemma set_used_run u : set_used i u b = (Ok tt, set_bit i u b).
Proof.
  unfold set_bit. destruct (word_lookup b Hwf i Hi) as (w & Hw & _).
  unfold set_used, get, unwrap, modify, mbind, M_bind; simpl. rewrite Hw; simpl.
  by destruct u.
Qed.

Lemma set_bit_word u :
  exists w w' fr, lookupz (bits b) (i / 64) = Some w /\ 0 <= w < 2 ^ 64 /\
    set_bit i u b = with_word (i / 64) w' fr b /\
    (forall j, 0 <= j -> Z.testbit w' j = if decide (j = i mod 64) then u else Z.testbit w j) /\
    0 <= w' /\
    fr = (if u then if Z.testbit w (i mod 64) then free b else wrap 64 (free b - 1)
          else if Z.testbit w (i mod 64) then wrap 64 (free b + 1) else free b).
Proof.
  destruct (word_lookup b Hwf i Hi) as (w & Hw & Hwr).
  assert (0 <= i mod 64) as Hm by (apply Z.mod_pos_bound; lia).
  unfold set_bit, set_used, get, unwrap, modify, mbind, M_bind; simpl. rewrite Hw; simpl.
  rewrite land_bit by done. exists w.
  destruct u; eexists _, _; (split; [done|]); (split; [done|]); (split; [done|]);
    (split; [|split; [|done]]).
  - intros j Hj. rewrite Z.lor_spec, mask_bit by done.
    case_bool_decide; case_decide; try done; by rewrite ?orb_true_r, ?orb_false_r.
  - apply Z.lor_nonneg. split; [lia|]. rewrite Z.shiftl_1_l. lia.
  - intros j Hj. rewrite Z.ldiff_spec, mask_bit by done.
    case_bool_decide; case_decide; try done; simpl; by rewrite ?andb_false_r, ?andb_true_r.
  - apply Z.ldiff_nonneg. lia.
Qed.

Lemma set_bit_same u :
  base (set_bit i u b) = base b /\ nframes (set_bit i u b) = nframes b /\
  cursor (set_bit i u b) = cursor b /\ zlen (bits (set_bit i u b)) = zlen (bits b).
Proof.
  destruct (set_bit_word u) as (w & w' & fr & _ & _ & -> & _). simpl.
  by rewrite zlen_insertz.
Qed.

Lemma used_bit_set_bit u j :
  0 <= j -> used_bit (set_bit i u b) j = if decide (j = i) then u else used_bit b j.
Proof.
  intros Hj. destruct (set_bit_word u) as (w & w' & fr & Hw & _ & -> & Hb & _).
  unfold used_bit. simpl. rewrite lookupz_insertz by by apply word_index.
  pose proof (Z.mod_pos_bound j 64 ltac:(lia)).
  pose proof (Z.div_mod i 64 ltac:(lia)). pose proof (Z.div_mod j 64 ltac:(lia)).
  destruct (decide (i / 64 = j / 64)) as [He|He].
  - rewrite Hb by lia. rewrite <- He, Hw.
    destruct (decide (j = i)) as [->|]; [by rewrite decide_True|].
    rewrite decide_False; [done|]. lia.
  - rewrite decide_False; [done|]. intros ->. done.
Qed.

Lemma free_set_set_bit u :
  free_set (set_bit i u b) = if u then free_set b ∖ {[i]} else free_set b ∪ {[i]}.
Proof.
  apply set_eq. intros k. rewrite elem_of_free_set.
  destruct (set_bit_same u) as (_ & -> & _).
  destruct (decide (0 <= k < nframes b)) as [Hk|Hk].
  - rewrite used_bit_set_bit by lia.
    destruct u; rewrite ?elem_of_difference, ?elem_of_union, elem_of_free_set, elem_of_singleton;
      case_decide; intuition (subst; congruence || lia).
  - destruct u; rewrite ?elem_of_difference, ?elem_of_union, elem_of_free_set, elem_of_singleton;
      intuition (subst; congruence || lia).
Qed.

Lemma set_bit_wf u : wf (set_bit i u b).
Proof.
  pose proof (free_set_set_bit u) as Hfs.
  destruct (set_bit_same u) as (Hb & Hn & Hc & Hz).
  destruct (set_bit_word u) as (w & w' & fr & Hw & Hwr & Heq & Hbits & Hpos & Hfr).
  pose proof (elem_of_free_set b i) as Hmem. unfold used_bit in Hmem. rewrite Hw in Hmem.
  assert (Z.of_nat (size (free_set b)) <= nframes b) as Hsz.
  { transitivity (Z.of_nat (size (frames 0 (nframes b)))).
    - apply inj_le, subseteq_size. intros k. rewrite elem_of_free_set, elem_of_frames. lia.
    - unfold frames. rewrite size_list_to_set by apply NoDup_seqZ. rewrite length_seqZ.
      pose proof (wf_nframes b Hwf). lia. }
  pose proof (wf_free b Hwf) as Hf. pose proof (wf_nframes b Hwf) as Hnf.
  unfold FRAME_SIZE in Hnf. pose proof (wf_base b Hwf).
  split; rewrite ?Hb, ?Hn, ?Hc, ?Hz; try apply Hwf.
  - rewrite Heq. simpl. unfold insertz. case_bool_decide; [|apply Hwf].
    apply Forall_insert; [apply Hwf|]. apply word_bits_range; [done|].
    intros j Hj. rewrite Hbits by lia. rewrite decide_False; [by apply word_high_bits|].
    pose proof (Z.mod_pos_bound i 64). lia.
  - rewrite Hfs. rewrite Heq. simpl. rewrite Hfr.
    destruct u, (Z.testbit w (i mod 64)) eqn:Ht.
    + rewrite difference_disjoint_L; [done|]. set_solver.
    + assert (i ∈ free_set b) as Hin by tauto.
      rewrite size_difference by set_solver. rewrite size_singleton.
      assert (size (free_set b) <> 0)%nat by (apply size_non_empty_iff; set_solver).
      rewrite wrap_small; lia.
    + rewrite size_union by set_solver. rewrite size_singleton, wrap_small by lia. lia.
    + assert (i ∈ free_set b) by tauto.
      replace (free_set b ∪ {[i]}) with (free_set b) by set_solver. done.
Qed.
End set_bit_lemmas.

(** Two states that differ at most in which frames are marked. *)
Definition same_shape (b b' : FrameBitmap) : Prop :=
  base b' = base b /\ nframes b' = nframes b /\ cursor b' = cursor b.

#[export] Instance same_shape_preorder : PreOrder same_shape.
Proof. split; [by intros b|]. intros b1 b2 b3 (?&?&?) (?&?&?). split_and!; congruence. Qed.

Lemma set_bit_shape b i u : wf b -> 0 <= i < nframes b -> same_shape b (set_bit i u b).
Proof. intros Hwf Hi. by destruct (set_bit_same b Hwf i Hi u) as (?&?&?&?). Qed.

(** Marking a list of in-range frames, one [set_used] each. *)
Lemma mark_run u (l : list Z) b :
  wf b -> (forall i, i ∈ l -> 0 <= i < nframes b) ->
  exists b', for_each l (fun i => set_used i u) b = (Ok tt, b') /\ wf b' /\ same_shape b b' /\
    free_set b' = if u then free_set b ∖ list_to_set l else free_set b ∪ list_to_set l.
Proof.
  revert b. induction l as [|i l IH]; intros b Hwf Hl.
  { exists b. split; [done|]. split; [done|]. split; [done|]. destruct u; set_solver. }
  assert (0 <= i < nframes b) as Hi by (apply Hl; set_solver).
  pose proof (set_bit_shape b i u Hwf Hi) as Hs.
  destruct (IH (set_bit i u b)) as (b' & Hrun & Hwf' & Hs' & Hfs).
  { by apply set_bit_wf. }
  { intros j Hj. destruct Hs as (_ & -> & _). apply Hl. set_solver. }
  exists b'. split.
  { cbn [for_each]. unfold mbind, M_bind. by rewrite set_used_run. }
  split; [done|]. split; [by etrans|].
  rewrite Hfs, free_set_set_bit by done. destruct u; set_solver.
Qed.

Lemma first_used_run b i (js : list Z) :
  wf b -> (forall j, j ∈ js -> 0 <= i + j < nframes b) ->
  (exists j js1 js2, first_used i js b = (Ok (Some j), b) /\ js = js1 ++ j :: js2 /\
     i + j ∉ free_set b) \/
  (first_used i js b = (Ok None, b) /\ forall j, j ∈ js -> i + j ∈ free_set b).
Proof.
  intros Hwf. induction js as [|j js IH]; intros Hr.
  { right. split; [done|]. set_solver. }
  assert (0 <= i + j < nframes b) as Hj by (apply Hr; set_solver).
  cbn [first_used]. unfold mbind, M_bind. rewrite is_used_run by done.
  destruct (used_bit b (i + j)) eqn:Hu.
  - left. exists j, [], js. split; [done|]. split; [done|].
    rewrite elem_of_free_set, Hu. naive_solver.
  - destruct IH as [(k & js1 & js2 & Hrun & -> & Hk)|[Hrun Hall]].
    { intros k Hk. apply Hr. set_solver. }
    + left. exists k, (j :: js1), js2. by rewrite Hrun.
    + right. rewrite Hrun. split; [done|]. intros k Hk.
      apply elem_of_cons in Hk as [->|Hk]; [|by apply Hall].
      by apply elem_of_free_set.
Qed.

(** The cyclic scan: frame number [k] after the cursor. *)
Definition nth_from (b : FrameBitmap) (k : Z) : Z := (cursor b + k) mod nframes b.

Lemma nth_from_range b k : 0 < nframes b -> 0 <= nth_from b k < nframes b.
Proof. intros. unfold nth_from. by apply Z.mod_pos_bound. Qed.

Lemma nth_from_succ b k : 0 < nframes b -> (nth_from b k + 1) mod nframes b = nth_from b (k + 1).
Proof. intros. unfold nth_from. rewrite Zplus_mod_idemp_l. f_equal. lia. Qed.

Lemma nth_from_0 b : wf b -> 0 < nframes b -> nth_from b 0 = cursor b.
Proof.
  intros Hwf Hn. unfold nth_from. rewrite Z.add_0_r. pose proof (wf_cursor b Hwf).
  apply Z.mod_small. lia.
Qed.

Lemma nth_from_surj b i :
  wf b -> 0 <= i < nframes b -> exists k, 0 <= k < nframes b /\ nth_from b k = i.
Proof.
  intros Hwf Hi. exists ((i - cursor b) mod nframes b).
  split; [apply Z.mod_pos_bound; lia|]. unfold nth_from.
  rewrite Zplus_mod_idemp_r. rewrite Z.mod_small; lia.
Qed.

Lemma next_index_run b i : 0 < nframes b -> next_index i b = (Ok ((i + 1) mod nframes b), b).
Proof.
  intros Hn. unfold next_index, get, massert, mbind, M_bind; simpl.
  by rewrite bool_decide_false by lia.
Qed.

(** What [alloc] returns: the first free frame from the cursor on, cyclically. *)
Definition alloc_found (b b' : FrameBitmap) (r : option Z) : Prop :=
  exists k, 0 <= k < nframes b /\ r = Some (addr_of b (nth_from b k)) /\
    nth_from b k ∈ free_set b /\ (forall j, 0 <= j < k -> nth_from b j ∉ free_set b) /\
    free_set b' = free_set b ∖ {[nth_from b k]} /\
    cursor b' = nth_from b (k + 1) /\ base b' = base b /\ nframes b' = nframes b.

Lemma alloc_loop_run b k fuel :
  wf b -> 0 <= k < nframes b -> Z.of_nat fuel = nframes b - k ->
  (forall j, 0 <= j < k -> nth_from b j ∉ free_set b) -> free_set b <> ∅ ->
  exists r b', alloc_loop fuel (cursor b) (nth_from b k) b = (Ok r, b') /\
    wf b' /\ alloc_found b b' r.
Proof.
  intros Hwf. revert k. induction fuel as [|fuel IH]; intros k Hk Hf Hseen Hne; [lia|].
  assert (0 < nframes b) as Hn by lia. pose proof (nth_from_range b k Hn) as Hr.
  cbn [alloc_loop]. unfold mbind at 1, M_bind at 1. rewrite is_used_run by done.
  destruct (used_bit b (nth_from b k)) eqn:Hu; cbn [negb].
  - assert (nth_from b k ∉ free_set b) as Hnot by (rewrite elem_of_free_set, Hu; naive_solver).
    unfold mbind at 1, M_bind at 1. rewrite next_index_run, nth_from_succ by done.
    assert (k + 1 < nframes b) as Hk1.
    { destruct (decide (k + 1 = nframes b)); [|lia]. exfalso.
      apply Hne. apply set_eq. intros i. split; [|set_solver]. intros Hi.
      assert (Hi' := Hi). apply elem_of_free_set in Hi' as [Hi' _].
      destruct (nth_from_surj b i Hwf Hi') as (j & Hj & <-).
      destruct (decide (j = k)) as [->|]; [done|]. exfalso. apply (Hseen j); [lia|done]. }
    rewrite bool_decide_false.
    2:{ rewrite <- (nth_from_0 b) by done. unfold nth_from. rewrite Z.add_0_r.
        apply mod_add_ne. lia. }
    apply IH; [lia|lia| |done].
    intros j Hj. destruct (decide (j = k)) as [->|]; [done|]. apply Hseen. lia.
  - unfold mbind, M_bind. rewrite set_used_run by done.
    pose proof (set_bit_shape b (nth_from b k) true Hwf Hr) as (Hb1 & Hn1 & Hc1).
    rewrite next_index_run by lia. rewrite Hn1, nth_from_succ by done. simpl.
    eexists _, _. split; [done|].
    pose proof (set_bit_wf b Hwf _ Hr true) as Hwf'.
    pose proof (nth_from_range b (k + 1) Hn).
    split.
    { destruct Hwf' as [? ? ? ? ? ?]. split; simpl; try done. rewrite Hn1. lia. }
    exists k. split; [done|]. unfold addr_of; simpl. rewrite Hb1.
    split; [done|]. split; [by apply elem_of_free_set|]. split; [done|].
    split; [by apply (free_set_set_bit b Hwf _ Hr true)|]. by rewrite Hn1.
Qed.

Lemma free_set_empty_nframes b : nframes b <= 0 -> free_set b = ∅.
Proof. intros Hn. apply set_eq. intros i. rewrite elem_of_free_set. set_solver by lia. Qed.

Lemma alloc_run b :
  wf b ->
  exists r b', alloc b = (Ok r, b') /\ wf b' /\
    ((r = None /\ b' = b /\ free_set b = ∅) \/ alloc_found b b' r).
Proof.
  intros Hwf. unfold alloc, get, mbind, M_bind; simpl. pose proof (wf_free b Hwf) as Hf.
  case_bool_decide as H0.
  - eexists _, _. split; [done|]. split; [done|]. left. split; [done|]. split; [done|].
    apply leibniz_equiv, size_empty_iff. lia.
  - assert (free_set b <> ∅) as Hne by (intros He; rewrite He, size_empty in Hf; lia).
    assert (0 < nframes b) as Hn.
    { destruct (decide (0 < nframes b)); [done|]. by rewrite free_set_empty_nframes in Hne by lia. }
    destruct (alloc_loop_run b 0 (Z.to_nat (nframes b))) as (r & b' & Hrun & Hwf' & Hr); try done; try lia.
    rewrite nth_from_0 in Hrun by done. rewrite Hrun.
    eexists _, _. split; [done|]. split; [done|]. by right.
Qed.

(** ** Contiguous runs *)

Lemma no_run_below_misaligned b n align i :
  0 < align -> (base b / FRAME_SIZE + i) mod align <> 0 ->
  let m := base b / FRAME_SIZE + i in
  forall i', i <= i' < i + (align - m mod align) -> ~ run_at b n align i'.
Proof.
  intros Ha Hm m i' Hi' (_ & _ & Hal & _). subst m.
  set (m := base b / FRAME_SIZE + i) in *.
  replace (base b / FRAME_SIZE + i') with (m + (i' - i)) in Hal by lia.
  pose proof (Z.mod_pos_bound m align Ha).
  assert ((m + (i' - i)) mod align = m mod align + (i' - i)) as Hs.
  { rewrite <- Zplus_mod_idemp_l. apply Z.mod_small. lia. }
  lia.
Qed.

Lemma no_run_through_used b n align i j :
  i + j ∉ free_set b -> 0 <= j < n ->
  forall i', i <= i' < i + j + 1 -> ~ run_at b n align i'.
Proof.
  intros Hnot Hj i' Hi' (_ & _ & _ & Hfree).
  apply Hnot. replace (i + j) with (i' + (i + j - i')) by lia. apply Hfree. lia.
Qed.

(** What [alloc_contig] returns: the lowest aligned run of free frames. *)
Definition contig_found (b b' : FrameBitmap) (n align : Z) (r : option Z) : Prop :=
  exists i, r = Some (addr_of b i) /\ run_at b n align i /\
    (forall i', 0 <= i' < i -> ~ run_at b n align i') /\
    free_set b' = free_set b ∖ frames i n /\ same_shape b b'.

Lemma mark_run_at b n align i :
  wf b -> run_at b n align i ->
  exists b', for_each (seqZ 0 n) (fun j => set_used (i + j) true) b = (Ok tt, b') /\
    wf b' /\ same_shape b b' /\ free_set b' = free_set b ∖ frames i n.
Proof.
  intros Hwf (Hi & Hin & _ & Hfree).
  destruct (mark_run true (seqZ i n) b Hwf) as (b' & Hrun & Hwf' & Hs & Hfs).
  { intros k Hk%elem_of_seqZ. lia. }
  exists b'. split; [|done]. rewrite <- Hrun.
  replace (seqZ i n) with ((fun j => i + j) <$> seqZ 0 n).
  2:{ rewrite fmap_add_seqZ. f_equal. lia. }
  clear. revert b. induction (seqZ 0 n) as [|j l IH]; intros b; [done|].
  cbn [for_each fmap list_fmap]. unfold mbind, M_bind.
  destruct (set_used (i + j) true b) as [[[]|[]| |] b1]; [apply IH|done|done].
Qed.

Lemma contig_loop_run b n align fuel i :
  wf b -> 0 < n -> 0 < align -> 0 <= i -> nframes b + 1 - i <= Z.of_nat fuel -> 0 < Z.of_nat fuel ->
  (forall i', 0 <= i' < i -> ~ run_at b n align i') ->
  exists r b', contig_loop fuel n align i b = (Ok r, b') /\ wf b' /\
    ((r = None /\ b' = b /\ forall i', ~ run_at b n align i') \/ contig_found b b' n align r).
Proof.
  intros Hwf Hn Ha. revert i.
  induction fuel as [|fuel IH]; intros i Hi Hf Hpos Hseen; [lia|].
  cbn [contig_loop]. unfold mbind at 1, M_bind at 1, get. cbn.
  case_bool_decide as Hfit.
  2:{ eexists _, _. split; [done|]. split; [done|]. left. split; [done|]. split; [done|].
      intros i' Hrun. destruct (decide (i' < i)).
      - apply (Hseen i'); [|done]. destruct Hrun. lia.
      - destruct Hrun as (_ & ? & _). lia. }
  case_bool_decide as Hal; cbn [negb].
  - destruct (first_used_run b i (seqZ 0 n)) as [(j & js1 & js2 & Hu & Hjs & Hnot)|[Hu Hall]].
    { done. } { intros j Hj%elem_of_seqZ. lia. }
    + assert (j ∈ seqZ 0 n) as Hj%elem_of_seqZ by (rewrite Hjs; set_solver).
      unfold mbind, M_bind. rewrite Hu. apply IH; [lia..|].
      intros i' Hi'. destruct (decide (i' < i)); [apply Hseen; lia|].
      eapply no_run_through_used; [done|lia|lia].
    + assert (run_at b n align i) as Hrun.
      { split; [lia|]. split; [lia|]. split; [done|]. intros j Hj. apply Hall.
        apply elem_of_seqZ. lia. }
      destruct (mark_run_at b n align i Hwf Hrun) as (b' & Hmark & Hwf' & Hs & Hfs).
      unfold mbind, M_bind. rewrite Hu, Hmark. eexists _, _. split; [done|]. split; [done|].
      right. exists i. done.
  - pose proof (Z.mod_pos_bound (base b / FRAME_SIZE + i) align Ha).
    apply IH; [lia..|]. intros i' Hi'. destruct (decide (i' < i)); [apply Hseen; lia|].
    apply (no_run_below_misaligned b n align i); [done|done|lia].
Qed.

Lemma run_size b n align i : 0 <= n -> run_at b n align i -> n <= Z.of_nat (size (free_set b)).
Proof.
  intros Hn (_ & _ & _ & Hfree).
  transitivity (Z.of_nat (size (frames i n))).
  - unfold frames. rewrite size_list_to_set by apply NoDup_seqZ. rewrite length_seqZ. lia.
  - apply inj_le, subseteq_size. intros k Hk%elem_of_frames.
    replace k with (i + (k - i)) by lia. apply Hfree. lia.
Qed.

Lemma is_power_of_two_pos n : is_power_of_two n = true -> 0 < n.
Proof. unfold is_power_of_two. intros [H _]%andb_true_iff. by apply bool_decide_eq_true in H. Qed.

Lemma alloc_contig_run b n align :
  wf b -> 0 < n -> is_power_of_two align = true ->
  exists r b', alloc_contig n align b = (Ok r, b') /\ wf b' /\
    ((r = None /\ b' = b /\ forall i, ~ run_at b n align i) \/ contig_found b b' n align r).
Proof.
  intros Hwf Hn Hp. pose proof (is_power_of_two_pos align Hp).
  unfold alloc_contig, get, massert. rewrite bool_decide_true, Hp by done.
  unfold mbind, M_bind; simpl. case_bool_decide as Hfree.
  - eexists _, _. split; [done|]. split; [done|]. left. split; [done|]. split; [done|].
    intros i Hrun. apply run_size in Hrun; [|lia]. rewrite (wf_free b Hwf) in Hfree. lia.
  - apply (contig_loop_run b n align (S (Z.to_nat (nframes b))) 0);
      pose proof (wf_nframes b Hwf); try done; lia.
Qed.

(** ** Freeing *)

Lemma free_frames_run b l :
  wf b -> NoDup l -> (forall i, i ∈ l -> 0 <= i < nframes b) ->
  (forall i, i ∈ l -> i ∉ free_set b) ->
  exists b', for_each l (fun i => u ← is_used i; _ ← massert u; set_used i false) b = (Ok tt, b') /\
    wf b' /\ same_shape b b' /\ free_set b' = free_set b ∪ list_to_set l.
Proof.
  intros Hwf Hnd. revert b Hwf. induction Hnd as [|i l Hil Hnd IH]; intros b Hwf Hr Hu.
  { exists b. split; [done|]. split; [done|]. split; [done|]. set_solver. }
  assert (0 <= i < nframes b) as Hi by (apply Hr; set_solver).
  assert (used_bit b i = true) as Hub.
  { specialize (Hu i ltac:(set_solver)). rewrite elem_of_free_set in Hu.
    destruct (used_bit b i); [done|]. naive_solver. }
  pose proof (set_bit_shape b i false Hwf Hi) as Hs.
  pose proof (free_set_set_bit b Hwf i Hi false) as Hfs; simpl in Hfs.
  destruct (IH (set_bit i false b)) as (b' & Hrun & Hwf' & Hs' & Hfs').
  { by apply set_bit_wf. }
  { intros j Hj. destruct Hs as (_ & -> & _). apply Hr. set_solver. }
  { intros j Hj. rewrite Hfs. specialize (Hu j ltac:(set_solver)). set_solver. }
  exists b'. split.
  { cbn [for_each]. unfold mbind, M_bind in *. rewrite is_used_run, Hub by done. simpl.
    rewrite set_used_run by done. done. }
  split; [done|]. split; [by etrans|]. rewrite Hfs', Hfs. set_solver.
Qed.

Lemma free_frames_panics b l i :
  wf b -> (forall i, i ∈ l -> 0 <= i < nframes b) -> i ∈ l -> i ∈ free_set b ->
  (for_each l (fun i => u ← is_used i; _ ← massert u; set_used i false) b).1 = Panic.
Proof.
  revert b. induction l as [|j l IH]; intros b Hwf Hr Hin Hfree; [set_solver|].
  assert (0 <= j < nframes b) as Hj by (apply Hr; set_solver).
  cbn [for_each]. unfold mbind, M_bind. rewrite is_used_run by done.
  destruct (used_bit b j) eqn:Hu; [|done]. simpl. rewrite set_used_run by done.
  destruct (decide (i = j)) as [->|].
  { apply elem_of_free_set in Hfree as [_ Hf]. congruence. }
  apply IH.
  - by apply set_bit_wf.
  - intros k Hk. destruct (set_bit_shape b j false Hwf Hj) as (_ & -> & _). apply Hr. set_solver.
  - set_solver.
  - rewrite free_set_set_bit by done. set_solver.
Qed.

Lemma index_of_addr_of b i : wf b -> 0 <= i < nframes b -> index_of b (addr_of b i) = i.
Proof.
  intros Hwf Hi. pose proof (wf_nframes b Hwf) as Hn. pose proof (wf_base b Hwf).
  unfold index_of, addr_of, FRAME_SIZE in *.
  rewrite (wrap_small 64 (base b + _)) by lia.
  replace (base b + i * 4096 - base b) with (i * 4096) by lia.
  rewrite wrap_small by lia. apply Z.div_mul. lia.
Qed.

Lemma range_run u b first n :
  wf b -> 0 <= first ->
  exists b', for_each (seqZ first (Z.min (first + n) (nframes b) - first)) (fun i => set_used i u) b
             = (Ok tt, b') /\ wf b' /\ same_shape b b' /\
    forall k, k ∈ free_set b' <->
      if u then k ∈ free_set b /\ ~ first <= k < first + n
      else k ∈ free_set b \/ (first <= k < first + n /\ k < nframes b).
Proof.
  intros Hwf Hf.
  destruct (mark_run u (seqZ first (Z.min (first + n) (nframes b) - first)) b Hwf)
    as (b' & Hrun & Hwf' & Hs & Hfs).
  { intros i Hi%elem_of_seqZ. lia. }
  exists b'. split; [done|]. split; [done|]. split; [done|]. intros k. rewrite Hfs.
  pose proof (elem_of_free_set b k) as Hk.
  destruct u; rewrite ?elem_of_difference, ?elem_of_union, elem_of_list_to_set, elem_of_seqZ.
  - split; intros [Hin Hout]; (split; [done|]); intros ?; apply Hout; [|lia].
    apply Hk in Hin. lia.
  - split; (intros [?|?]; [by left|right]); lia.
Qed.

(** [alloc] never panics or loops: it returns [None] exactly when no frame is
    free, and otherwise the first free frame found cyclically from the cursor; that
    frame, and only it, leaves the free set, the cursor moves just past it, and the
    bitmap, its frame count included, stays consistent. *)
Theorem alloc_next_fit (b : FrameBitmap) :
  wf b ->
  exists r b', alloc b = (Ok r, b') /\ wf b' /\
    ((r = None /\ b' = b /\ free_set b = ∅) \/
     exists k, 0 <= k < nframes b /\ r = Some (base b + nth_from b k * FRAME_SIZE) /\
       nth_from b k ∈ free_set b /\ (forall j, 0 <= j < k -> nth_from b j ∉ free_set b) /\
       free_set b' = free_set b ∖ {[nth_from b k]} /\ free_count b' = free_count b - 1 /\
       cursor b' = nth_from b (k + 1)).
Proof.
  intros Hwf. destruct (alloc_run b Hwf) as (r & b' & Hrun & Hwf' & Hcase).
  exists r, b'. split; [done|]. split; [done|]. destruct Hcase as [?|Hk]; [by left|right].
  destruct Hk as (k & Hk & -> & Hin & Hbefore & Hfs & Hcur & _ & _).
  exists k. split; [done|]. split.
  { f_equal. unfold addr_of. apply wrap_small. pose proof (wf_nframes b Hwf).
    pose proof (wf_base b Hwf). pose proof (nth_from_range b k). unfold FRAME_SIZE in *. lia. }
  split; [done|]. split; [done|]. split; [done|]. split; [|done].
  unfold free_count. rewrite (wf_free b' Hwf'), (wf_free b Hwf), Hfs.
  rewrite size_difference by set_solver. rewrite size_singleton.
  assert (size (free_set b) <> 0)%nat by (apply size_non_empty_iff; set_solver). lia.
Qed.

(** Four frames from 1 MiB; frame 2 is free, the cursor stands on frame 3. *)
Definition sample_bitmap : FrameBitmap :=
  {| bits := [2 ^ 64 - 1 - 4]; base := 1048576; nframes := 4; cursor := 3; free := 1 |}.

Lemma sample_bitmap_wf : wf sample_bitmap.
Proof.
  split; simpl.
  - done.
  - repeat constructor; lia.
  - done.
  - unfold FRAME_SIZE. lia.
  - lia.
  - vm_compute. reflexivity.
Qed.

Lemma alloc_next_fit_witness :
  alloc sample_bitmap =
    (Ok (Some 1056768), {| bits := [2 ^ 64 - 1]; base := 1048576; nframes := 4; cursor := 3; free := 0 |}) /\
  exists r b', alloc sample_bitmap = (Ok r, b') /\ wf b'.
Proof.
  split; [vm_compute; reflexivity|].
  destruct (alloc_next_fit sample_bitmap sample_bitmap_wf) as (r & b' & Hrun & Hwf & _).
  exists r, b'. split; [exact Hrun|exact Hwf].
Defined.

(** C31: [alloc_contig] never panics or loops on a positive size and a power-of-two
    alignment: it returns the base of the lowest run of [n] free frames whose
    physical frame number is a multiple of the alignment and takes exactly those
    frames, or [None], without changing anything, when no such run exists. *)
Theorem alloc_contig_first_fit (b : FrameBitmap) (n align : Z) :
  wf b -> 0 < n -> is_power_of_two align = true ->
  exists r b', alloc_contig n align b = (Ok r, b') /\ wf b' /\
    ((r = None /\ b' = b /\ forall i, ~ run_at b n align i) \/
     exists i, r = Some (base b + i * FRAME_SIZE) /\ run_at b n align i /\
       (forall i', 0 <= i' < i -> ~ run_at b n align i') /\
       (base b + i * FRAME_SIZE) mod (align * FRAME_SIZE) = 0 /\
       free_set b' = free_set b ∖ frames i n).
Proof.
  intros Hwf Hn Hp. pose proof (is_power_of_two_pos align Hp).
  destruct (alloc_contig_run b n align Hwf Hn Hp) as (r & b' & Hrun & Hwf' & Hcase).
  exists r, b'. split; [done|]. split; [done|]. destruct Hcase as [?|Hk]; [by left|right].
  destruct Hk as (i & -> & Hat & Hlow & Hfs & _). exists i.
  pose proof (wf_nframes b Hwf). pose proof (wf_base b Hwf) as [Hb0 Hb].
  destruct Hat as (Hi & Hin & Hal & Hfree). unfold FRAME_SIZE in *.
  split; [f_equal; unfold addr_of, FRAME_SIZE; apply wrap_small; lia|].
  split; [done|]. split; [done|]. split; [|done].
  apply Z.div_exact in Hb; [|lia].
  replace (base b + i * 4096) with ((base b / 4096 + i) * 4096) by lia.
  rewrite Z.mul_mod_distr_r by lia. rewrite Hal. lia.
Qed.

Definition sample_bitmap8 : FrameBitmap :=
  {| bits := [2 ^ 64 - 1 - 248]; base := 4096; nframes := 8; cursor := 0; free := 5 |}.

Lemma sample_bitmap8_wf : wf sample_bitmap8.
Proof.
  split; simpl.
  - done.
  - repeat constructor; lia.
  - done.
  - unfold FRAME_SIZE. lia.
  - lia.
  - vm_compute. reflexivity.
Qed.

Lemma alloc_contig_first_fit_witness :
  (alloc_contig 2 4 sample_bitmap8).1 = Ok (Some 16384) /\
  exists r b', alloc_contig 2 4 sample_bitmap8 = (Ok r, b') /\ wf b'.
Proof.
  split; [vm_compute; reflexivity|].
  destruct (alloc_contig_first_fit sample_bitmap8 2 4 sample_bitmap8_wf) as (r & b' & Hrun & Hwf & _).
  - lia.
  - vm_compute; reflexivity.
  - exists r, b'. split; [exact Hrun|exact Hwf].
Defined.

(** [free_frames] on an in-range run returns every frame of it to the free set
    when all of them are in use, and panics (the double-free assertion) when one of
    them is already free. *)
Theorem free_frames_double_free (b : FrameBitmap) (i n : Z) :
  wf b -> 0 <= i -> 0 < n -> i + n <= nframes b ->
  (frames i n ## free_set b ->
     exists b', free_frames (base b + i * FRAME_SIZE) n b = (Ok tt, b') /\ wf b' /\
                free_set b' = free_set b ∪ frames i n) /\
  (forall k, k ∈ frames i n -> k ∈ free_set b ->
     (free_frames (base b + i * FRAME_SIZE) n b).1 = Panic).
Proof.
  intros Hwf Hi Hn Hr. pose proof (wf_nframes b Hwf). pose proof (wf_base b Hwf).
  assert (base b + i * FRAME_SIZE = addr_of b i) as ->.
  { unfold addr_of, FRAME_SIZE in *. rewrite wrap_small; lia. }
  unfold free_frames, get. unfold mbind at 1 4, M_bind at 1 4. cbn.
  rewrite index_of_addr_of by (done || lia). split.
  - intros Hd. destruct (free_frames_run b (seqZ i n)) as (b' & Hrun & Hwf' & _ & Hfs).
    + done.
    + apply NoDup_seqZ.
    + intros k Hk%elem_of_seqZ. lia.
    + intros k Hk Hf. apply (Hd k); [|done]. by apply elem_of_list_to_set.
    + exists b'. by rewrite Hrun.
  - intros k Hk Hf. apply (free_frames_panics b (seqZ i n) k); try done.
    + intros j Hj%elem_of_seqZ. lia.
    + by apply elem_of_list_to_set in Hk.
Qed.

Lemma free_frames_double_free_witness :
  (free_frames 4096 2 sample_bitmap8).1 = Ok tt /\
  exists b', free_frames (4096 + 0 * FRAME_SIZE) 2 sample_bitmap8 = (Ok tt, b') /\ wf b' /\
    free_set b' = free_set sample_bitmap8 ∪ frames 0 2.
Proof.
  split; [vm_compute; reflexivity|].
  apply (free_frames_double_free sample_bitmap8 0 2 sample_bitmap8_wf).
  - lia.
  - lia.
  - simpl. lia.
  - apply (bool_decide_unpack (frames 0 2 ## free_set sample_bitmap8)). vm_compute. exact I.
Defined.

(** Giving back a run that [alloc_contig] handed out restores the set of free
    frames, and no double-free panic is possible on that path. *)
Theorem alloc_contig_free_roundtrip (b : FrameBitmap) (n align a : Z) (b1 : FrameBitmap) :
  wf b -> 0 < n -> is_power_of_two align = true ->
  alloc_contig n align b = (Ok (Some a), b1) ->
  exists b2, free_frames a n b1 = (Ok tt, b2) /\ wf b2 /\
    free_set b2 = free_set b /\ free_count b2 = free_count b.
Proof.
  intros Hwf Hn Hp Hrun. destruct (alloc_contig_run b n align Hwf Hn Hp) as (r & b' & Hrun' & Hwf' & Hc).
  rewrite Hrun in Hrun'. simplify_eq.
  destruct Hc as [(? & _)|(i & Ha & (Hi & Hin & _ & Hfree) & _ & Hfs & (Hb & Hnf & _))]; [done|].
  simplify_eq. unfold free_frames, get. unfold mbind at 1, M_bind at 1. cbn.
  assert (index_of b' (addr_of b i) = i) as ->.
  { unfold addr_of. rewrite <- Hb. apply index_of_addr_of; [done|lia]. }
  assert (frames i n ⊆ free_set b) as Hsub.
  { intros k Hk%elem_of_frames. replace k with (i + (k - i)) by lia. apply Hfree. lia. }
  destruct (free_frames_run b' (seqZ i n)) as (b2 & Hrun2 & Hwf2 & _ & Hfs2).
  - done.
  - apply NoDup_seqZ.
  - intros k Hk%elem_of_seqZ. lia.
  - intros k Hk. rewrite Hfs. apply (elem_of_list_to_set (C := gset Z)) in Hk. fold (frames i n) in Hk. set_solver.
  - exists b2. split; [done|]. split; [done|].
    assert (free_set b2 = free_set b) as He.
    { rewrite Hfs2, Hfs. fold (frames i n). rewrite union_comm_L.
      symmetry. by apply union_difference_L. }
    split; [done|]. unfold free_count. by rewrite (wf_free b2 Hwf2), (wf_free b Hwf), He.
Qed.

Lemma alloc_contig_free_roundtrip_witness :
  exists a b1, alloc_contig 2 4 sample_bitmap8 = (Ok (Some a), b1) /\
    exists b2, free_frames a 2 b1 = (Ok tt, b2) /\ free_set b2 = free_set sample_bitmap8.
Proof.
  assert (alloc_contig 2 4 sample_bitmap8 = (Ok (Some 16384), (alloc_contig 2 4 sample_bitmap8).2)) as Hr
    by (vm_compute; reflexivity).
  exists 16384, (alloc_contig 2 4 sample_bitmap8).2. split; [exact Hr|].
  destruct (alloc_contig_free_roundtrip sample_bitmap8 2 4 16384 _ sample_bitmap8_wf
              ltac:(lia) ltac:(reflexivity) Hr) as (b2 & H1 & _ & H2 & _).
  exists b2. split; [exact H1|exact H2].
Defined.

(** marking ranges: [mark_free_range] adds exactly the in-range frames of the
    whole frames of [addr, addr + len) and [mark_used_range] removes exactly the
    frames that [addr, addr + len), rounded up, touches; neither panics, and both
    keep the bitmap consistent. *)
Theorem mark_ranges_exact (b : FrameBitmap) (i len : Z) :
  wf b -> 0 <= i <= nframes b -> 0 <= len ->
  (exists b', mark_free_range (base b + i * FRAME_SIZE) len b = (Ok tt, b') /\ wf b' /\
     forall k, k ∈ free_set b' <->
       k ∈ free_set b \/ (i <= k < i + len / FRAME_SIZE /\ k < nframes b)) /\
  (exists b', mark_used_range (base b + i * FRAME_SIZE) len b = (Ok tt, b') /\ wf b' /\
     forall k, k ∈ free_set b' <->
       k ∈ free_set b /\ ~ i <= k < i + div_ceil len FRAME_SIZE).
Proof.
  intros Hwf Hi Hl. pose proof (wf_nframes b Hwf). pose proof (wf_base b Hwf).
  assert (index_of b (base b + i * FRAME_SIZE) = i) as Hidx.
  { unfold index_of, FRAME_SIZE in *. replace (base b + i * 4096 - base b) with (i * 4096) by lia.
    rewrite wrap_small by lia. apply Z.div_mul. lia. }
  unfold mark_free_range, mark_used_range, get. unfold mbind, M_bind. cbn. rewrite Hidx. split.
  - destruct (range_run false b i (len / FRAME_SIZE) Hwf ltac:(lia)) as (b' & -> & Hwf' & _ & Hk).
    exists b'. done.
  - destruct (range_run true b i (div_ceil len FRAME_SIZE) Hwf ltac:(lia)) as (b' & -> & Hwf' & _ & Hk).
    exists b'. done.
Qed.

Lemma mark_ranges_exact_witness :
  (mark_used_range (4096 + 3 * 4096) 5000 sample_bitmap8).1 = Ok tt /\
  exists b', mark_free_range (base sample_bitmap8 + 0 * FRAME_SIZE) 8192 sample_bitmap8 = (Ok tt, b') /\ wf b'.
Proof.
  split; [vm_compute; reflexivity|].
  destruct (mark_ranges_exact sample_bitmap8 0 8192 sample_bitmap8_wf) as [(b' & H1 & H2 & _) _].
  - simpl. lia.
  - lia.
  - exists b'. split; [exact H1|exact H2].
Defined.
