(* ===== verification/Term.v ===== *)
(** * Term: tagged terms, bump heaps and the copies between them

    Models [crates/ygg-term/src/lib.rs].  A term is one 64-bit word with a
    3-bit tag; a boxed term is the address of a header word.  [mem] is the
    word-addressed memory, a [Heap] a bump arena inside it.  A read or write of
    an unmapped word is [Panic], so a theorem that excludes [Panic] excludes
    wild accesses. *)

From S2P Require Import Prelude.

Definition TAG_MASK : Z := 7.
Definition TAG_BOXED : Z := 0.
Definition TAG_INT : Z := 1.
Definition TAG_ATOM : Z := 2.
Definition TAG_PID : Z := 3.
Definition TAG_REF : Z := 4.
Definition TAG_SPECIAL : Z := 5.
Definition TAG_PORT : Z := 6.

Definition KIND_TUPLE : Z := 0.
Definition KIND_CONS : Z := 1.
Definition KIND_BINARY : Z := 2.
Definition KIND_MAP : Z := 3.

(** [Term(pub u64)]. *)
Abbreviation Term := Z (only parsing).

Inductive Kind := KInt | KAtom | KPid | KRef | KNil | KPort | KTuple | KCons | KBinary | KMap.

#[export] Instance Kind_eq_dec : EqDecision Kind.
Proof. solve_decision. Defined.

Inductive heap_full := HeapFull.
Inductive MapError := MapHeap (e : heap_full) | NonImmediateKey.

(** ** Immediates *)

Definition NIL : Term := TAG_SPECIAL.

(** [(x << 3) | tag] on a [u64]: the three high bits are dropped. *)
Definition tagged (x tg : Z) : Term := Z.lor (wrap 64 (Z.shiftl x 3)) tg.

Definition term_int (v : Z) : Term := tagged (wrap 64 v) TAG_INT.
Definition term_atom (idx : Z) : Term := tagged idx TAG_ATOM.
Definition term_pid (p : Z) : Term := tagged p TAG_PID.
Definition term_reference (r : Z) : Term := tagged r TAG_REF.
Definition term_port (p : Z) : Term := tagged p TAG_PORT.

Definition tag (t : Term) : Z := Z.land t TAG_MASK.

(** [(self.0 as i64) >> 3] and [self.0 >> 3]. *)
Definition as_int (t : Term) : option Z :=
  if bool_decide (tag t = TAG_INT) then Some (Z.shiftr (swrap 64 t) 3) else None.
Definition as_atom (t : Term) : option Z :=
  if bool_decide (tag t = TAG_ATOM) then Some (wrap 32 (Z.shiftr t 3)) else None.
Definition as_pid (t : Term) : option Z :=
  if bool_decide (tag t = TAG_PID) then Some (Z.shiftr t 3) else None.
Definition as_ref (t : Term) : option Z :=
  if bool_decide (tag t = TAG_REF) then Some (Z.shiftr t 3) else None.
Definition as_port (t : Term) : option Z :=
  if bool_decide (tag t = TAG_PORT) then Some (Z.shiftr t 3) else None.
Definition is_nil (t : Term) : bool := bool_decide (t = NIL).
Definition is_boxed (t : Term) : bool := bool_decide (tag t = TAG_BOXED).

(** ** Reading boxed terms *)

Abbreviation mem := (gmap Z Z) (only parsing).

Section readers.
Context {E : Type}.
Implicit Types (m : mem) (t : Term).

Definition load m (a : Z) : res E Z :=
  match m !! a with Some w => Ok w | None => Panic end.

Definition kind m t : res E Kind :=
  let g := tag t in
  if bool_decide (g = TAG_INT) then Ok KInt
  else if bool_decide (g = TAG_ATOM) then Ok KAtom
  else if bool_decide (g = TAG_PID) then Ok KPid
  else if bool_decide (g = TAG_REF) then Ok KRef
  else if bool_decide (g = TAG_SPECIAL) then Ok KNil
  else if bool_decide (g = TAG_PORT) then Ok KPort
  else if bool_decide (g = TAG_BOXED) then
    header ← load m t;
    let k := Z.land header TAG_MASK in
    if bool_decide (k = KIND_TUPLE) then Ok KTuple
    else if bool_decide (k = KIND_CONS) then Ok KCons
    else if bool_decide (k = KIND_BINARY) then Ok KBinary
    else if bool_decide (k = KIND_MAP) then Ok KMap
    else Panic
  else Panic.

Definition tuple_arity m t : res E Z := h ← load m t; Ok (Z.shiftr h 3).
Definition tuple_elem m t (i : Z) : res E Term := load m (t + 8 * (1 + i)).
Definition head m t : res E Term := load m (t + 8).
Definition tail m t : res E Term := load m (t + 16).

(** Byte [i] of the payload that starts at address [a]. *)
Definition load_byte m (a i : Z) : res E byte :=
  w ← load m (a + 8 * (i / 8)); Ok (z2b (Z.shiftr w (8 * (i mod 8)))).

Fixpoint load_bytes m (a : Z) (ix : list Z) : res E (list byte) :=
  match ix with
  | [] => Ok []
  | i :: ix' => b ← load_byte m a i; bs ← load_bytes m a ix'; Ok (b :: bs)
  end.

Definition bin_bytes m t : res E (list byte) :=
  h ← load m t; load_bytes m (t + 8) (seqZ 0 (Z.shiftr h 3)).

Definition map_arity m t : res E Z := h ← load m t; Ok (Z.shiftr h 3).
Definition map_key m t (i : Z) : res E Term := load m (t + 8 * (1 + i)).
Definition map_val m t (i : Z) : res E Term := n ← map_arity m t; load m (t + 8 * (1 + n + i)).

(** The binary search of [map_get]; every round halves [hi - lo]. *)
Fixpoint map_get_loop (fuel : nat) m t (key : Term) (lo hi : Z) : res E (option Term) :=
  match fuel with
  | O => NoFuel
  | S fuel' =>
      if bool_decide (lo < hi) then
        let mid := (lo + hi) / 2 in
        k ← map_key m t mid;
        if bool_decide (k = key) then v ← map_val m t mid; Ok (Some v)
        else if bool_decide (k < key) then map_get_loop fuel' m t key (mid + 1) hi
        else map_get_loop fuel' m t key lo mid
      else Ok None
  end.

Definition map_get m t (key : Term) : res E (option Term) :=
  n ← map_arity m t; map_get_loop (S (Z.to_nat n)) m t key 0 n.

(** Heap words a deep copy needs; [fuel] bounds the nesting and the spines. *)
Fixpoint size_spine (fuel : nat) (size : Term -> res E Z) m (words : Z) (cur : Term) : res E Z :=
  match fuel with
  | O => NoFuel
  | S fuel' =>
      k ← kind m cur;
      if bool_decide (k = KCons) then
        h ← head m cur; sz ← size h; tl ← tail m cur;
        size_spine fuel' size m (words + (3 + sz)) tl
      else sz ← size cur; Ok (words + sz)
  end.

Fixpoint sum_sizes (size : Term -> res E Z) (elem : Z -> res E Term) (ix : list Z) : res E Z :=
  match ix with
  | [] => Ok 0
  | i :: ix' => t ← elem i; sz ← size t; rest ← sum_sizes size elem ix'; Ok (sz + rest)
  end.

Fixpoint term_size_words (fuel : nat) m t : res E Z :=
  match fuel with
  | O => NoFuel
  | S fuel' =>
      k ← kind m t;
      match k with
      | KInt | KAtom | KPid | KRef | KNil | KPort => Ok 0
      | KTuple =>
          n ← tuple_arity m t;
          sz ← sum_sizes (term_size_words fuel' m) (tuple_elem m t) (seqZ 0 n);
          Ok (1 + n + sz)
      | KBinary => bs ← bin_bytes m t; Ok (1 + div_ceil (zlen bs) 8)
      | KMap =>
          n ← map_arity m t;
          sz ← sum_sizes (term_size_words fuel' m) (map_val m t) (seqZ 0 n);
          Ok (1 + 2 * n + sz)
      | KCons => size_spine fuel' (term_size_words fuel' m) m 0 t
      end
  end.

(** [(0..n).all(|i| f(i))], stopping at the first [false]. *)
Fixpoint all_range (f : Z -> res E bool) (ix : list Z) : res E bool :=
  match ix with
  | [] => Ok true
  | i :: ix' => b ← f i; if b : bool then all_range f ix' else Ok false
  end.

Fixpoint eq_spine (fuel : nat) (eqt : Term -> Term -> res E bool) m (x y : Term) : res E bool :=
  match fuel with
  | O => NoFuel
  | S fuel' =>
      hx ← head m x; hy ← head m y; e ← eqt hx hy;
      if negb e then Ok false
      else
        tx ← tail m x; ty ← tail m y; kx ← kind m tx; ky ← kind m ty;
        match bool_decide (kx = KCons), bool_decide (ky = KCons) with
        | true, true => eq_spine fuel' eqt m tx ty
        | false, false => eqt tx ty
        | _, _ => Ok false
        end
  end.

(** Structural equality. *)
Fixpoint eq_term (fuel : nat) m (a b : Term) : res E bool :=
  match fuel with
  | O => NoFuel
  | S fuel' =>
      if bool_decide (a = b) then Ok true
      else if negb (is_boxed a && is_boxed b) then Ok false
      else
        ka ← kind m a; kb ← kind m b;
        match ka, kb with
        | KTuple, KTuple =>
            n ← tuple_arity m a; n' ← tuple_arity m b;
            if bool_decide (n = n') then
              all_range (fun i => x ← tuple_elem m a i; y ← tuple_elem m b i; eq_term fuel' m x y)
                        (seqZ 0 n)
            else Ok false
        | KBinary, KBinary => x ← bin_bytes m a; y ← bin_bytes m b; Ok (bool_decide (x = y))
        | KMap, KMap =>
            n ← map_arity m a; n' ← map_arity m b;
            if bool_decide (n = n') then
              all_range (fun i =>
                ka ← map_key m a i; kb ← map_key m b i;
                if bool_decide (ka = kb)
                then x ← map_val m a i; y ← map_val m b i; eq_term fuel' m x y
                else Ok false) (seqZ 0 n)
            else Ok false
        | KCons, KCons => eq_spine fuel' (eq_term fuel' m) m a b
        | _, _ => Ok false
        end
  end.
End readers.

(** ** Heaps *)

Record Heap := { hbase : Z; cap_words : Z; top : Z }.

(** The memory together with the heap an operation allocates from. *)
Record HS := { hmem : mem; hp : Heap }.

Abbreviation HM := (M HS heap_full).

Definition Heap_new (b bytes : Z) : Heap := {| hbase := b; cap_words := bytes / 8; top := 0 |}.
Definition used_bytes (h : Heap) : Z := top h * 8.
Definition truncate_to (bytes : Z) (h : Heap) : Heap :=
  {| hbase := hbase h; cap_words := cap_words h; top := bytes / 8 |}.
Definition capacity_bytes (h : Heap) : Z := cap_words h * 8.

(** A raw word write; writing unmapped memory is [Panic]. *)
Definition store {E} (a v : Z) : M HS E unit := fun s =>
  match hmem s !! a with
  | Some _ => (Ok tt, {| hmem := <[a := v]> (hmem s); hp := hp s |})
  | None => (Panic, s)
  end.

(** [p.write(w0); p.add(1).write(w1); ...] *)
Fixpoint store_words {E} (a : Z) (ws : list Z) : M HS E unit :=
  match ws with
  | [] => mret tt
  | w :: ws' => _ ← store a w; store_words (a + 8) ws'
  end.

(** Overwrite byte [k] of a word. *)
Definition set_byte (w k : Z) (b : byte) : Z :=
  Z.lor (Z.ldiff w (Z.shiftl 255 (8 * k))) (Z.shiftl (b2z b) (8 * k)).

Definition store_byte {E} (a i : Z) (b : byte) : M HS E unit := fun s =>
  match hmem s !! (a + 8 * (i / 8)) with
  | Some w => (Ok tt, {| hmem := <[a + 8 * (i / 8) := set_byte w (i mod 8) b]> (hmem s); hp := hp s |})
  | None => (Panic, s)
  end.

(** [copy_nonoverlapping(data, p.add(1).cast::<u8>(), data.len())] *)
Fixpoint store_bytes {E} (a i : Z) (bs : list byte) : M HS E unit :=
  match bs with
  | [] => mret tt
  | b :: bs' => _ ← store_byte a i b; store_bytes a (i + 1) bs'
  end.

Definition heap_alloc (words : Z) : HM Z := fun s =>
  let h := hp s in
  if bool_decide (top h + words > cap_words h) then (Err HeapFull, s)
  else (Ok (hbase h + 8 * top h),
        {| hmem := hmem s; hp := {| hbase := hbase h; cap_words := cap_words h; top := top h + words |} |}).

Definition header (n k : Z) : Z := Z.lor (wrap 64 (Z.shiftl n 3)) k.

Definition tuple (elems : list Term) : HM Term :=
  p ← heap_alloc (1 + zlen elems);
  _ ← store p (header (zlen elems) KIND_TUPLE);
  _ ← store_words (p + 8) elems;
  mret p.

Definition cons (h t : Term) : HM Term :=
  p ← heap_alloc 3;
  _ ← store p KIND_CONS;
  _ ← store (p + 8) h;
  _ ← store (p + 16) t;
  mret p.

Definition binary (data : list byte) : HM Term :=
  p ← heap_alloc (1 + div_ceil (zlen data) 8);
  _ ← store p (header (zlen data) KIND_BINARY);
  _ ← store_bytes (p + 8) 0 data;
  mret p.

(** [for e in elems.iter().rev()]: one cell in front per element. *)
Fixpoint cons_all (rev_elems : list Term) (t : Term) : HM Term :=
  match rev_elems with
  | [] => mret t
  | e :: es => t' ← cons e t; cons_all es t'
  end.

Definition list_term (elems : list Term) : HM Term := cons_all (rev elems) NIL.

(** *** Maps *)

(** The stable [sort_by_key(|(k, _)| k.0)]. *)
Fixpoint insert_pair (x : Term * Term) (l : list (Term * Term)) : list (Term * Term) :=
  match l with
  | [] => [x]
  | y :: l' => if bool_decide (x.1 <= y.1) then x :: l else y :: insert_pair x l'
  end.

Definition sort_by_key (l : list (Term * Term)) : list (Term * Term) := foldr insert_pair [] l.

(** One round of the in-place deduplication; [n] is the write index. *)
Definition dedup_step (st : Z * list (Term * Term)) (i : Z) : Z * list (Term * Term) :=
  let '(n, pairs) := st in
  match lookupz pairs i with
  | None => st
  | Some p =>
      if bool_decide (0 < n) && bool_decide (fst <$> lookupz pairs (n - 1) = Some p.1)
      then (n, insertz (n - 1) p pairs)
      else (n + 1, insertz n p pairs)
  end.

Definition dedup (pairs : list (Term * Term)) : Z * list (Term * Term) :=
  foldl dedup_step (0, pairs) (seqZ 0 (zlen pairs)).

(** The caller's slice after the call: sorted and deduplicated in place. *)
Definition sorted_pairs (pairs : list (Term * Term)) : Z * list (Term * Term) :=
  dedup (sort_by_key pairs).

(** The write loop over [pairs[..n]]: key [i] to slot [1 + i], value [i] to slot [1 + n + i]. *)
Fixpoint store_pairs {E} (p n i : Z) (kvs : list (Term * Term)) : M HS E unit :=
  match kvs with
  | [] => mret tt
  | (k, v) :: kvs' =>
      _ ← store (p + 8 * (1 + i)) k;
      _ ← store (p + 8 * (1 + n + i)) v;
      store_pairs p n (i + 1) kvs'
  end.

Definition map_from_pairs (pairs : list (Term * Term)) : M HS MapError Term :=
  _ ← fail_if (existsb (fun kv => is_boxed kv.1) pairs) NonImmediateKey;
  let '(n, pairs') := sorted_pairs pairs in
  let kvs := take (Z.to_nat n) pairs' in
  p ← map_err MapHeap (heap_alloc (1 + 2 * n));
  _ ← store p (header n KIND_MAP);
  _ ← store_pairs p n 0 kvs;
  mret p.

(** The pairs of a map term, in order. *)
Fixpoint map_pairs {E} (m : mem) (t : Term) (ix : list Z) : res E (list (Term * Term)) :=
  match ix with
  | [] => Ok []
  | i :: ix' => k ← map_key m t i; v ← map_val m t i; kvs ← map_pairs m t ix'; Ok ((k, v) :: kvs)
  end.

Definition map_put (bs key val : Term) : M HS MapError Term :=
  _ ← fail_if (is_boxed key) NonImmediateKey;
  m ← gets hmem;
  n ← lift (map_arity m bs);
  kvs ← lift (map_pairs m bs (seqZ 0 n));
  map_from_pairs (kvs ++ [(key, val)]).

(** ** Deep copy *)

(** The cells of a list spine and the tail that ends it. *)
Fixpoint spine (fuel : nat) (cur : Term) : HM (list Term * Term) :=
  match fuel with
  | O => nofuel
  | S fuel' =>
      m ← gets hmem;
      k ← lift (kind m cur);
      if bool_decide (k = KCons) then
        tl ← lift (tail m cur);
        '(cells, last) ← spine fuel' tl;
        mret (cur :: cells, last)
      else mret ([], cur)
  end.

(** [for cell in spine.into_iter().rev() { ... }], given the reversed spine. *)
Fixpoint copy_cells (copy : Term -> HM Term) (rev_cells : list Term) (tl : Term) : HM Term :=
  match rev_cells with
  | [] => mret tl
  | cell :: cells =>
      m ← gets hmem;
      e ← lift (head m cell);
      h ← copy e;
      tl' ← cons h tl;
      copy_cells copy cells tl'
  end.

(** [for i in 0..n { let c = copy_term(elem(i), dst)?; p.add(off + i).write(c) }] *)
Definition copy_slots (copy : Term -> HM Term) (elem : mem -> Z -> res heap_full Term)
    (slot : Z -> Z) (ix : list Z) : HM unit :=
  for_each ix (fun i =>
    m ← gets hmem;
    e ← lift (elem m i);
    c ← copy e;
    store (slot i) c).

Fixpoint copy_term (fuel : nat) (src : Term) : HM Term :=
  match fuel with
  | O => nofuel
  | S fuel' =>
      m ← gets hmem;
      k ← lift (kind m src);
      match k with
      | KInt | KAtom | KPid | KRef | KNil | KPort => mret src
      | KTuple =>
          n ← lift (tuple_arity m src);
          p ← heap_alloc (1 + n);
          _ ← store p (header n KIND_TUPLE);
          _ ← copy_slots (copy_term fuel') (fun m i => tuple_elem m src i)
                         (fun i => p + 8 * (1 + i)) (seqZ 0 n);
          mret p
      | KBinary => bs ← lift (bin_bytes m src); binary bs
      | KMap =>
          n ← lift (map_arity m src);
          p ← heap_alloc (1 + 2 * n);
          _ ← store p (header n KIND_MAP);
          _ ← for_each (seqZ 0 n) (fun i =>
                m ← gets hmem;
                k ← lift (map_key m src i);
                store (p + 8 * (1 + i)) k);
          _ ← copy_slots (copy_term fuel') (fun m i => map_val m src i)
                         (fun i => p + 8 * (1 + n + i)) (seqZ 0 n);
          mret p
      | KCons =>
          '(cells, last) ← spine fuel' src;
          tl ← copy_term fuel' last;
          copy_cells (copy_term fuel') (rev cells) tl
      end
  end.
