(* ===== verification/TermImm.v ===== *)
(** * TermImm: immediate terms

    The bit-level encoding of the immediates of [crates/ygg-term]: every
    constructor is inverted by its reader, the readers of the other kinds
    refuse the word, and an integer outside the i61 payload is reduced modulo
    [2^61] (the release build has no debug assertion). *)

From S2P Require Import Prelude Term.

(** ** Tag arithmetic, shared with the boxed headers *)

Lemma tag_mod t : tag t = t mod 8.
Proof. unfold tag. change TAG_MASK with (Z.ones 3). by rewrite Z.land_ones. Qed.

Lemma shiftr3_div t : Z.shiftr t 3 = t / 8.
Proof. by rewrite Z.shiftr_div_pow2. Qed.

Lemma lor_low x g : 0 <= g < 8 -> Z.lor (8 * x) g = 8 * x + g.
Proof.
  intros Hg.
  assert (Z.land (8 * x) g = 0) as H0.
  { apply Z.bits_inj'. intros i Hi. rewrite Z.land_spec, Z.bits_0.
    rewrite (Z.mul_comm 8 x). change 8 with (2 ^ 3).
    destruct (Z.lt_ge_cases i 3).
    - by rewrite Z.mul_pow2_bits_low.
    - assert (Z.testbit g i = false) as ->; [|by rewrite andb_false_r].
      destruct (decide (g = 0)) as [->|]; [apply Z.bits_0|].
      apply Z.bits_above_log2; [lia|]. apply Z.log2_lt_pow2; [lia|].
      assert (2 ^ 3 <= 2 ^ i) by (apply Z.pow_le_mono_r; lia). lia. }
  rewrite (Z.add_nocarry_lxor _ _ H0). apply Z.bits_inj'. intros i Hi.
  assert (Z.testbit (Z.land (8 * x) g) i = false) as Hb by by rewrite H0, Z.bits_0.
  revert Hb. rewrite Z.land_spec, Z.lor_spec, Z.lxor_spec.
  by destruct (Z.testbit (8 * x) i), (Z.testbit g i).
Qed.

Lemma header_eq n k : 0 <= k < 8 -> header n k = 8 * (n mod 2 ^ 61) + k.
Proof.
  intros Hk. unfold header, wrap. rewrite Z.shiftl_mul_pow2 by lia.
  change (2 ^ 64) with (2 ^ 61 * 2 ^ 3). rewrite Z.mul_mod_distr_r by lia.
  change (2 ^ 3) with 8. rewrite (Z.mul_comm _ 8). by apply lor_low.
Qed.

Lemma header_tag n k : 0 <= k < 8 -> Z.land (header n k) TAG_MASK = k.
Proof.
  intros Hk. change (Z.land (header n k) TAG_MASK) with (tag (header n k)).
  rewrite tag_mod, header_eq by done.
  rewrite Z.add_comm, Z.mul_comm, Z.mod_add, Z.mod_small; lia.
Qed.

Lemma header_arity n k : 0 <= k < 8 -> 0 <= n < 2 ^ 61 -> Z.shiftr (header n k) 3 = n.
Proof.
  intros Hk Hn. rewrite shiftr3_div, header_eq, (Z.mod_small n) by done.
  rewrite Z.add_comm, Z.mul_comm, Z.div_add, Z.div_small; lia.
Qed.

Lemma header_range n k : 0 <= k < 8 -> 0 <= header n k < 2 ^ 64.
Proof.
  intros Hk. rewrite header_eq by done.
  pose proof (Z.mod_pos_bound n (2 ^ 61) ltac:(lia)). lia.
Qed.

(** ** The immediates *)

(** The constructors are headers with a tag in place of a kind. *)
Lemma tagged_header x g : tagged x g = header x g.
Proof. done. Qed.

Lemma term_int_header v : term_int v = header v TAG_INT.
Proof.
  unfold term_int. rewrite tagged_header, !header_eq by (unfold TAG_INT; lia).
  unfold wrap. rewrite <- Znumtheory.Zmod_div_mod; [done|lia|lia|]. by exists 8.
Qed.

Lemma as_int_term_int v : as_int (term_int v) = Some (swrap 61 v).
Proof.
  unfold as_int. rewrite term_int_header. unfold tag.
  rewrite header_tag by (unfold TAG_INT; lia). rewrite bool_decide_true by done.
  f_equal. rewrite shiftr3_div, header_eq by (unfold TAG_INT; lia).
  unfold swrap, TAG_INT. change (2 ^ (64 - 1)) with (8 * 2 ^ 60). change (2 ^ (61 - 1)) with (2 ^ 60).
  replace (8 * (v mod 2 ^ 61) + 1 + 8 * 2 ^ 60) with (1 + (v mod 2 ^ 61 + 2 ^ 60) * 8) by ring.
  change (2 ^ 64) with (8 * 2 ^ 61). rewrite Z.rem_mul_r by lia.
  rewrite Z.mod_add, Z.div_add by lia. change (1 mod 8) with 1. change (1 / 8) with 0.
  rewrite Z.add_0_l, Zplus_mod_idemp_l. set (y := (v + 2 ^ 60) mod 2 ^ 61).
  replace (1 + 8 * y - 8 * 2 ^ 60) with (1 + (y - 2 ^ 60) * 8) by ring.
  rewrite Z.div_add by lia. change (1 / 8) with 0. lia.
Qed.

(** What a word denotes when it is not a pointer. *)
Inductive imm :=
| ImmInt (v : Z) | ImmAtom (i : Z) | ImmPid (p : Z) | ImmRef (r : Z) | ImmNil | ImmPort (p : Z).

Definition imm_term (i : imm) : Term :=
  match i with
  | ImmInt v => term_int v | ImmAtom a => term_atom a | ImmPid p => term_pid p
  | ImmRef r => term_reference r | ImmNil => NIL | ImmPort p => term_port p
  end.

(** The ranges of the constructors' arguments: i61 (a [v] the payload holds),
    [u32] atom indices, and identifiers below [2^61]. *)
Definition imm_ok (i : imm) : Prop :=
  match i with
  | ImmInt v => - 2 ^ 60 <= v < 2 ^ 60
  | ImmAtom a => 0 <= a < 2 ^ 32
  | ImmPid p | ImmRef p | ImmPort p => 0 <= p < 2 ^ 61
  | ImmNil => True
  end.

(** All five readers and [is_nil] at once. *)
Definition readings (t : Term) :=
  (as_int t, as_atom t, as_pid t, as_ref t, as_port t, is_nil t).

Definition reading_of (i : imm) :=
  match i with
  | ImmInt v => (Some v, None, None, None, None, false)
  | ImmAtom a => (None, Some a, None, None, None, false)
  | ImmPid p => (None, None, Some p, None, None, false)
  | ImmRef r => (None, None, None, Some r, None, false)
  | ImmPort p => (None, None, None, None, Some p, false)
  | ImmNil => (None, None, None, None, None, true)
  end.

Lemma readers_other t g : tag t = g ->
  (g <> TAG_INT -> as_int t = None) /\ (g <> TAG_ATOM -> as_atom t = None) /\
  (g <> TAG_PID -> as_pid t = None) /\ (g <> TAG_REF -> as_ref t = None) /\
  (g <> TAG_PORT -> as_port t = None) /\ (g <> TAG_SPECIAL -> is_nil t = false) /\
  (g <> TAG_BOXED -> is_boxed t = false).
Proof.
  intros Hg. unfold as_int, as_atom, as_pid, as_ref, as_port, is_nil, is_boxed.
  rewrite Hg. repeat split; intros; rewrite ?bool_decide_false; auto.
  intros ->. by subst.
Qed.

Ltac imm_solve :=
  match goal with
  | |- context [header ?x ?g] =>
      let Ht := fresh in
      assert (tag (header x g) = g) as Ht
        by (unfold tag; rewrite header_tag; [done|vm_compute; split; congruence]);
      destruct (readers_other _ _ Ht) as (Hi & Ha & Hp & Hr & Ho & Hn & Hb);
      rewrite ?Hi, ?Ha, ?Hp, ?Hr, ?Ho, ?Hn, ?Hb by (vm_compute; congruence)
  end.

(** Every immediate constructor ([Term::int], [atom], [pid], [reference],
    [port], [NIL]) round-trips: on an argument its payload can hold, its own
    reader returns the argument, all other readers refuse the word, and the
    word is never taken for a heap pointer. *)
Theorem imm_roundtrip i :
  imm_ok i -> readings (imm_term i) = reading_of i /\ is_boxed (imm_term i) = false.
Proof.
  destruct i as [v|a|p|p| |p]; intros Hok; unfold readings; cbn [imm_term reading_of imm_ok] in *;
    unfold term_atom, term_pid, term_reference, term_port; rewrite ?term_int_header, ?tagged_header;
    [| | | |done|].
  all: imm_solve; split; [|done]; repeat f_equal.
  - rewrite <- term_int_header, as_int_term_int. f_equal. by apply swrap_small.
  - unfold as_atom. rewrite bool_decide_true by done. rewrite header_arity by (unfold TAG_ATOM; lia).
    f_equal. apply wrap_small. lia.
  - unfold as_pid. rewrite bool_decide_true by done. by rewrite header_arity by (unfold TAG_PID; lia).
  - unfold as_ref. rewrite bool_decide_true by done. by rewrite header_arity by (unfold TAG_REF; lia).
  - unfold as_port. rewrite bool_decide_true by done. by rewrite header_arity by (unfold TAG_PORT; lia).
Qed.

Lemma imm_roundtrip_witness :
  imm_ok (ImmInt (-5)) /\ readings (imm_term (ImmInt (-5))) = (Some (-5), None, None, None, None, false).
Proof.
  assert (imm_ok (ImmInt (-5))) as H by (simpl; lia).
  split; [exact H|]. exact (proj1 (imm_roundtrip (ImmInt (-5)) H)).
Defined.

(** [Term::int] followed by [as_int] reduces any [i64] to the signed 61-bit
    value congruent to it: exact on the i61 range, and a silent wrap outside. *)
Theorem int_wraps_i61 v :
  as_int (term_int v) = Some (swrap 61 v) /\ (as_int (term_int v) = Some v <-> imm_ok (ImmInt v)).
Proof.
  rewrite as_int_term_int. split; [done|]. split.
  - intros [= <-]. apply (swrap_range 61 v). lia.
  - intros H. f_equal. by apply swrap_small.
Qed.
