(* ===== verification/TermHeap.v ===== *)
(** * TermHeap: what the bump heap promises

    The separation discipline behind every allocation of [crates/ygg-term]: a
    heap owns the words between its top and its end, an operation writes only
    there, and whatever it returns is represented inside the words it
    allocated.  [grows c n R s] packages that contract; the constructors
    [tuple], [cons] and [binary] are proved to meet it. *)

From S2P Require Import Prelude Term TermImm.

(** ** Memory changes confined to an address range *)

Record writes (lo hi : Z) (m m' : mem) : Prop := {
  writes_out x : ~ (lo <= x < hi) -> m' !! x = m !! x;
  writes_dom x : is_Some (m !! x) -> is_Some (m' !! x);
}.

Lemma writes_refl lo hi m : writes lo hi m m.
Proof. by split. Qed.

Lemma writes_trans lo hi m1 m2 m3 : writes lo hi m1 m2 -> writes lo hi m2 m3 -> writes lo hi m1 m3.
Proof.
  intros [Ho1 Hd1] [Ho2 Hd2]. split; [|by auto].
  intros x Hx. rewrite Ho2, Ho1; done.
Qed.

Lemma writes_weaken lo hi lo' hi' m m' :
  writes lo hi m m' -> lo' <= lo -> hi <= hi' -> writes lo' hi' m m'.
Proof. intros [Ho Hd] ??. split; [|done]. intros x Hx. apply Ho. lia. Qed.

Lemma writes_insert lo hi m x v : lo <= x < hi -> is_Some (m !! x) -> writes lo hi m (<[x := v]> m).
Proof.
  intros Hx Hs. split.
  - intros y Hy. apply lookup_insert_ne. lia.
  - intros y Hy. destruct (decide (x = y)) as [->|].
    + rewrite lookup_insert_eq. eauto.
    + by rewrite lookup_insert_ne.
Qed.

(** The words of [m] between [lo] and [hi]. *)
Definition region (lo hi : Z) (m : mem) : mem := filter (fun kv => lo <= kv.1 < hi) m.

Lemma region_lookup lo hi m x w : region lo hi m !! x = Some w <-> m !! x = Some w /\ lo <= x < hi.
Proof. unfold region. apply map_lookup_filter_Some. Qed.

Lemma region_sub lo hi m : region lo hi m ⊆ m.
Proof. apply map_filter_subseteq. Qed.

Lemma region_mono lo hi lo' hi' m m' :
  lo' <= lo -> hi <= hi' -> (forall x, lo <= x < hi -> m' !! x = m !! x) ->
  region lo hi m ⊆ region lo' hi' m'.
Proof.
  intros ?? Hm. apply map_subseteq_spec. intros x w. rewrite !region_lookup.
  intros [Hx ?]. split; [by rewrite Hm|lia].
Qed.

(** A map outside the written range survives the writes. *)
Lemma writes_sub lo hi m m' m0 :
  writes lo hi m m' -> m0 ⊆ m -> (forall x w, m0 !! x = Some w -> ~ (lo <= x < hi)) -> m0 ⊆ m'.
Proof.
  intros [Ho _] Hs Hd. apply map_subseteq_spec. intros x w Hx.
  rewrite Ho by eauto. by eapply lookup_weaken.
Qed.

(** ** Consecutive words *)

Fixpoint slots_at (m : mem) (a : Z) (xs : list Z) : Prop :=
  match xs with
  | [] => True
  | x :: xs' => m !! a = Some x /\ slots_at m (a + 8) xs'
  end.

Lemma slots_at_lookup m a xs :
  slots_at m a xs <-> forall i x, lookupz xs i = Some x -> m !! (a + 8 * i) = Some x.
Proof.
  revert a. induction xs as [|y xs IH]; intros a; cbn [slots_at].
  { split; [|done]. intros _ i x. rewrite lookupz_Some, lookup_nil. by intros []. }
  rewrite IH. split.
  - intros [Hy Hr] i x. rewrite lookupz_Some. intros [Hi Hx].
    destruct (decide (i = 0)) as [->|].
    + simpl in Hx. injection Hx as <-. by rewrite Z.mul_0_r, Z.add_0_r.
    + replace (a + 8 * i) with (a + 8 + 8 * (i - 1)) by lia. apply Hr. apply lookupz_Some.
      split; [lia|]. replace (Z.to_nat i) with (S (Z.to_nat (i - 1))) in Hx by lia. done.
  - intros H. split.
    + specialize (H 0 y). rewrite Z.mul_0_r, Z.add_0_r in H. by apply H.
    + intros i x. rewrite lookupz_Some. intros [Hi Hx].
      replace (a + 8 + 8 * i) with (a + 8 * (i + 1)) by lia. apply H. apply lookupz_Some.
      split; [lia|]. by replace (Z.to_nat (i + 1)) with (S (Z.to_nat i)) by lia.
Qed.

Lemma slots_at_mono m m' a xs : m ⊆ m' -> slots_at m a xs -> slots_at m' a xs.
Proof. rewrite !slots_at_lookup. intros Hs H i x Hx. eapply lookup_weaken; eauto. Qed.

Lemma slots_at_region lo hi m a xs :
  slots_at m a xs -> lo <= a -> a + 8 * zlen xs <= hi -> slots_at (region lo hi m) a xs.
Proof.
  rewrite !slots_at_lookup. intros H ?? i x Hx. apply region_lookup. split; [by apply H|].
  apply lookupz_range in Hx. lia.
Qed.

Lemma slots_at_out lo hi m m' a xs :
  writes lo hi m m' -> (a + 8 * zlen xs <= lo \/ hi <= a) -> slots_at m a xs -> slots_at m' a xs.
Proof.
  rewrite !slots_at_lookup. intros [Ho _] Hd H i x Hx. pose proof (lookupz_range _ _ _ Hx).
  rewrite Ho by lia. by apply H.
Qed.

(** ** The heap

    A heap is an aligned span of mapped words inside the address space; its size
    in bytes fits the 61-bit length of a header. *)

Record heap_ok (s : HS) : Prop := {
  ok_base : 0 < hbase (hp s) /\ hbase (hp s) mod 8 = 0;
  ok_top : 0 <= top (hp s) <= cap_words (hp s);
  ok_end : hbase (hp s) + 8 * cap_words (hp s) <= 2 ^ 64 /\ 8 * cap_words (hp s) < 2 ^ 61;
  ok_mapped i : top (hp s) <= i < cap_words (hp s) -> is_Some (hmem s !! (hbase (hp s) + 8 * i));
}.

Definition ptop (s : HS) : Z := hbase (hp s) + 8 * top (hp s).
Definition pend (s : HS) : Z := hbase (hp s) + 8 * cap_words (hp s).

Definition set_mem (m : mem) (s : HS) : HS := {| hmem := m; hp := hp s |}.
Definition bump (n : Z) (s : HS) : HS :=
  {| hmem := hmem s;
     hp := {| hbase := hbase (hp s); cap_words := cap_words (hp s); top := top (hp s) + n |} |}.

Definition same_arena (s s' : HS) : Prop :=
  hbase (hp s') = hbase (hp s) /\ cap_words (hp s') = cap_words (hp s).

(** The contract: [n] words are taken or the heap is left too full for them;
    only words above the old top are written; the result [R] lives inside the
    allocated words. *)
Definition grown {E A} (n : Z) (R : mem -> A -> Prop) (s : HS) (r : res E A) (s' : HS) : Prop :=
  heap_ok s' /\ same_arena s s' /\ writes (ptop s) (pend s) (hmem s) (hmem s') /\
  match r with
  | Ok x => top (hp s') = top (hp s) + n /\ R (region (ptop s) (ptop s') (hmem s')) x
  | Err _ => cap_words (hp s) < top (hp s) + n
  | _ => False
  end.

Definition grows {E A} (c : M HS E A) (n : Z) (R : mem -> A -> Prop) (s : HS) : Prop :=
  wp c (grown n R s) s.

Lemma wp_alloc n (Q : res heap_full Z -> HS -> Prop) s :
  (cap_words (hp s) < top (hp s) + n -> Q (Err HeapFull) s) ->
  (top (hp s) + n <= cap_words (hp s) -> Q (Ok (ptop s)) (bump n s)) ->
  wp (heap_alloc n) Q s.
Proof. intros He Ho. unfold wp, heap_alloc. case_bool_decide; simpl; [apply He|apply Ho]; lia. Qed.

Lemma store_ok {E} a v s :
  is_Some (hmem s !! a) -> store (E:=E) a v s = (Ok tt, set_mem (<[a := v]> (hmem s)) s).
Proof. intros [w Hw]. unfold store. by rewrite Hw. Qed.

Lemma wp_store {E} a v (Q : res E unit -> HS -> Prop) s :
  is_Some (hmem s !! a) -> Q (Ok tt) (set_mem (<[a := v]> (hmem s)) s) -> wp (store a v) Q s.
Proof. intros Ha HQ. unfold wp. by rewrite store_ok. Qed.

Lemma wp_gets {S E A} (f : S -> A) (Q : res E A -> S -> Prop) s : Q (Ok (f s)) s -> wp (gets f) Q s.
Proof. done. Qed.

Lemma wp_lift {S E A} (r : res E A) (Q : res E A -> S -> Prop) s : Q r s -> wp (lift r) Q s.
Proof. done. Qed.

Lemma heap_ok_bump n s : heap_ok s -> 0 <= n -> top (hp s) + n <= cap_words (hp s) -> heap_ok (bump n s).
Proof. intros [Hb Ht He Hm] ??. split; simpl; [done|lia|lia|]. intros; apply Hm; lia. Qed.

Lemma heap_ok_writes lo hi m s : writes lo hi (hmem s) m -> heap_ok s -> heap_ok (set_mem m s).
Proof.
  intros [_ Hd] [Hb Ht He Hm]. split; simpl; auto.
Qed.

Lemma free_mapped s i :
  heap_ok s -> top (hp s) <= i < cap_words (hp s) -> is_Some (hmem s !! (hbase (hp s) + 8 * i)).
Proof. intros [_ _ _ H]. apply H. Qed.

(** Word [k] of the next allocation. *)
Lemma ptop_mapped s k n :
  heap_ok s -> 0 <= k < n -> top (hp s) + n <= cap_words (hp s) -> is_Some (hmem s !! (ptop s + 8 * k)).
Proof.
  intros Hs ??. unfold ptop.
  replace (hbase (hp s) + 8 * top (hp s) + 8 * k) with (hbase (hp s) + 8 * (top (hp s) + k)) by lia.
  apply free_mapped; [done|lia].
Qed.

Lemma ptop_boxed s : heap_ok s -> tag (ptop s) = 0.
Proof.
  intros [[_ Hb] _ _ _]. rewrite tag_mod. unfold ptop.
  rewrite Z.mul_comm, Z.mod_add by lia. done.
Qed.

(** ** Runs of stores *)

Lemma store_words_spec {E} ws : forall a s,
  (forall i, 0 <= i < zlen ws -> is_Some (hmem s !! (a + 8 * i))) ->
  exists m', store_words (E:=E) a ws s = (Ok tt, set_mem m' s) /\
    writes a (a + 8 * zlen ws) (hmem s) m' /\ slots_at m' a ws.
Proof.
  induction ws as [|w ws IH]; intros a s Hm.
  { exists (hmem s). split; [by destruct s|]. split; [apply writes_refl|done]. }
  pose proof (zlen_nonneg ws). rewrite zlen_cons in *.
  assert (is_Some (hmem s !! a)) as Ha.
  { replace a with (a + 8 * 0) by lia. apply Hm. lia. }
  destruct (IH (a + 8) (set_mem (<[a := w]> (hmem s)) s)) as (m' & He & Hw & Hs).
  { intros i Hi. simpl. rewrite lookup_insert_ne by lia.
    replace (a + 8 + 8 * i) with (a + 8 * (i + 1)) by lia. apply Hm. lia. }
  exists m'. split_and!.
  - cbn [store_words]. by rewrite (bind_eval _ _ _ _ _ (store_ok _ _ _ Ha)).
  - eapply writes_trans; [|eapply writes_weaken; [exact Hw|lia|simpl; lia]].
    apply writes_insert; [lia|done].
  - split; [|done]. rewrite (writes_out _ _ _ _ Hw) by lia. apply lookup_insert_eq.
Qed.

(** *** Bytes inside words *)

Definition byte_of (w k : Z) : byte := z2b (Z.shiftr w (8 * k)).

Definition byte_at (m : mem) (a i : Z) : option byte :=
  (fun w => byte_of w (i mod 8)) <$> m !! (a + 8 * (i / 8)).

Lemma z2b_bits x y : (forall i, 0 <= i < 8 -> Z.testbit x i = Z.testbit y i) -> z2b x = z2b y.
Proof.
  intros H. apply b2z_inj. rewrite !b2z_z2b. change 256 with (2 ^ 8). rewrite <- !Z.land_ones by lia.
  apply Z.bits_inj'. intros i Hi. rewrite !Z.land_spec.
  destruct (Z.lt_ge_cases i 8); [by rewrite H by lia|].
  rewrite Z.ones_spec_high by lia. by rewrite !andb_false_r.
Qed.

Lemma byte_bit_high b i : 8 <= i -> Z.testbit (b2z b) i = false.
Proof.
  intros Hi. pose proof (b2z_range b). destruct (decide (b2z b = 0)) as [->|]; [apply Z.bits_0|].
  apply Z.bits_above_log2; [lia|]. apply Z.log2_lt_pow2; [lia|].
  assert (2 ^ 8 <= 2 ^ i) by (apply Z.pow_le_mono_r; lia). lia.
Qed.

Lemma ones8_bit i : 0 <= i -> Z.testbit 255 i = bool_decide (i < 8).
Proof.
  intros Hi. change 255 with (Z.ones 8). case_bool_decide.
  - apply Z.ones_spec_low; lia.
  - apply Z.ones_spec_high; lia.
Qed.

Lemma byte_of_set w k b j :
  0 <= k -> 0 <= j -> byte_of (set_byte w k b) j = if decide (j = k) then b else byte_of w j.
Proof.
  intros Hk Hj. unfold byte_of, set_byte. case_decide as Hjk.
  - subst j. rewrite <- (z2b_b2z b) at 2. apply z2b_bits. intros i Hi.
    rewrite Z.shiftr_spec, Z.lor_spec, Z.ldiff_spec, !Z.shiftl_spec by lia.
    replace (i + 8 * k - 8 * k) with i by lia.
    rewrite ones8_bit, bool_decide_true by lia. by rewrite andb_false_r.
  - apply z2b_bits. intros i Hi.
    rewrite !Z.shiftr_spec, Z.lor_spec, Z.ldiff_spec, !Z.shiftl_spec by lia.
    destruct (Z.lt_ge_cases (i + 8 * j) (8 * k)).
    + rewrite !(Z.testbit_neg_r _ (i + 8 * j - 8 * k)) by lia. by rewrite andb_true_r, orb_false_r.
    + rewrite ones8_bit, bool_decide_false, byte_bit_high by lia. by rewrite andb_true_r, orb_false_r.
Qed.

Lemma byte_at_mono m m' a i b : m ⊆ m' -> byte_at m a i = Some b -> byte_at m' a i = Some b.
Proof.
  unfold byte_at. intros Hs. rewrite !fmap_Some. intros (w & Hw & ->).
  exists w. split; [|done]. by eapply lookup_weaken.
Qed.

Lemma byte_at_store m a i j b w :
  0 <= i -> 0 <= j -> m !! (a + 8 * (i / 8)) = Some w ->
  byte_at (<[a + 8 * (i / 8) := set_byte w (i mod 8) b]> m) a j =
  if decide (j = i) then Some b else byte_at m a j.
Proof.
  intros Hi Hj Hw. unfold byte_at.
  pose proof (Z.mod_pos_bound i 8 ltac:(lia)). pose proof (Z.mod_pos_bound j 8 ltac:(lia)).
  pose proof (Z.div_mod i 8 ltac:(lia)). pose proof (Z.div_mod j 8 ltac:(lia)).
  destruct (decide (i / 8 = j / 8)) as [He|He].
  - rewrite <- He, lookup_insert_eq, Hw. simpl. rewrite byte_of_set by lia.
    repeat case_decide; (done || lia).
  - rewrite lookup_insert_ne by lia. case_decide as Hij; [congruence|done].
Qed.

Lemma store_bytes_spec {E} bs : forall a i0 n s,
  0 <= i0 -> i0 + zlen bs <= 8 * n ->
  (forall k, 0 <= k < n -> is_Some (hmem s !! (a + 8 * k))) ->
  exists m', store_bytes (E:=E) a i0 bs s = (Ok tt, set_mem m' s) /\
    writes a (a + 8 * n) (hmem s) m' /\
    (forall i b, lookupz bs (i - i0) = Some b -> byte_at m' a i = Some b) /\
    (forall i, 0 <= i < i0 -> byte_at m' a i = byte_at (hmem s) a i).
Proof.
  induction bs as [|b bs IH]; intros a i0 n s Hi Hn Hm.
  { exists (hmem s). split_and!; [by destruct s|apply writes_refl| |done].
    intros i b. by rewrite lookupz_Some, lookup_nil; intros []. }
  rewrite zlen_cons in *. pose proof (zlen_nonneg bs).
  assert (0 <= i0 / 8 < n) as Hq by (split; [apply Z.div_pos; lia|apply Z.div_lt_upper_bound; lia]).
  destruct (Hm _ Hq) as [w Hw].
  destruct (IH a (i0 + 1) n (set_mem (<[a + 8 * (i0 / 8) := set_byte w (i0 mod 8) b]> (hmem s)) s))
    as (m' & He & Hwr & Hb & Hold); [lia|lia| |].
  { intros k Hk. simpl. destruct (decide (i0 / 8 = k)) as [->|].
    - rewrite lookup_insert_eq. eauto.
    - rewrite lookup_insert_ne by lia. by apply Hm. }
  exists m'. split_and!.
  - cbn [store_bytes]. erewrite bind_eval; [exact He|]. unfold store_byte. by rewrite Hw.
  - eapply writes_trans; [|exact Hwr]. apply writes_insert; [lia|by eauto].
  - intros i b'. destruct (decide (i = i0)) as [->|Hne].
    + rewrite Z.sub_diag. intros [= <-]. rewrite Hold by lia. simpl.
      rewrite byte_at_store by done. by rewrite decide_True.
    + intros Hx. apply Hb. revert Hx. rewrite !lookupz_Some. intros [? Hx]. split; [lia|].
      replace (Z.to_nat (i - i0)) with (S (Z.to_nat (i - (i0 + 1)))) in Hx by lia. done.
  - intros i Hi'. rewrite Hold by lia. simpl. rewrite byte_at_store by (done || lia).
    by rewrite decide_False by lia.
Qed.

(** ** Boxed objects *)

Definition boxed (m : mem) (t k n : Z) : Prop :=
  0 < t < 2 ^ 64 /\ tag t = TAG_BOXED /\ 0 <= n < 2 ^ 61 /\ m !! t = Some (header n k).

Definition tuple_at (m : mem) (t : Z) (xs : list Z) : Prop :=
  boxed m t KIND_TUPLE (zlen xs) /\ slots_at m (t + 8) xs.

Definition cons_at (m : mem) (t x y : Z) : Prop :=
  boxed m t KIND_CONS 0 /\ m !! (t + 8) = Some x /\ m !! (t + 16) = Some y.

Definition bin_at (m : mem) (t : Z) (bs : list byte) : Prop :=
  boxed m t KIND_BINARY (zlen bs) /\
  forall i b, lookupz bs i = Some b -> byte_at m (t + 8) i = Some b.

Definition map_at (m : mem) (t : Z) (ks xs : list Z) : Prop :=
  boxed m t KIND_MAP (zlen ks) /\ length xs = length ks /\
  slots_at m (t + 8) ks /\ slots_at m (t + 8 * (1 + zlen ks)) xs.

Section objects_mono.
Context (m m' : mem) (Hsub : m ⊆ m').

Lemma boxed_mono t k n : boxed m t k n -> boxed m' t k n.
Proof using Hsub. intros (?&?&?&?). repeat split; try done; try lia. by eapply lookup_weaken. Qed.

Lemma tuple_at_mono t xs : tuple_at m t xs -> tuple_at m' t xs.
Proof using Hsub. intros []. split; [by apply boxed_mono|by eapply slots_at_mono]. Qed.

Lemma cons_at_mono t x y : cons_at m t x y -> cons_at m' t x y.
Proof using Hsub.
  intros (?&?&?). split_and!; [by apply boxed_mono|..]; by eapply lookup_weaken.
Qed.

Lemma bin_at_mono t bs : bin_at m t bs -> bin_at m' t bs.
Proof using Hsub.
  intros [? H]. split; [by apply boxed_mono|]. intros i b Hb. eapply byte_at_mono; eauto.
Qed.

Lemma map_at_mono t ks xs : map_at m t ks xs -> map_at m' t ks xs.
Proof using Hsub.
  intros (?&?&?&?). split_and!; [by apply boxed_mono|done|..]; by eapply slots_at_mono.
Qed.
End objects_mono.

(** *** Reading them back *)

Lemma load_Some {E} m a w : m !! a = Some w -> load (E:=E) m a = Ok w.
Proof. unfold load. by intros ->. Qed.

Lemma boxed_kind {E} m t k n :
  boxed m t k n -> 0 <= k <= 3 ->
  kind (E:=E) m t =
  Ok (if decide (k = KIND_TUPLE) then KTuple else if decide (k = KIND_CONS) then KCons
      else if decide (k = KIND_BINARY) then KBinary else KMap).
Proof.
  intros (_&Ht&_&Hm) Hk. unfold kind. rewrite Ht. unfold TAG_BOXED. simpl.
  rewrite (load_Some _ _ _ Hm). simpl. rewrite header_tag by lia.
  unfold KIND_TUPLE, KIND_CONS, KIND_BINARY, KIND_MAP.
  repeat (first [case_bool_decide | case_decide]; try done; try lia).
Qed.

Lemma boxed_arity {E} m t k n :
  boxed m t k n -> 0 <= k <= 3 -> (h ← load (E:=E) m t; Ok (Z.shiftr h 3)) = Ok n.
Proof.
  intros (_&_&Hn&Hm) Hk. rewrite (load_Some _ _ _ Hm). simpl. by rewrite header_arity by lia.
Qed.

Lemma boxed_is_boxed m t k n : boxed m t k n -> is_boxed t = true.
Proof. intros (_&Ht&_). unfold is_boxed. by rewrite bool_decide_true. Qed.

Lemma load_bytes_spec {E} m a bs : forall i0,
  (forall i b, lookupz bs i = Some b -> byte_at m a (i0 + i) = Some b) ->
  load_bytes (E:=E) m a (seqZ i0 (zlen bs)) = Ok bs.
Proof.
  induction bs as [|b bs IH]; intros i0 H; [by rewrite zlen_nil, seqZ_nil by lia|].
  pose proof (zlen_nonneg bs). rewrite zlen_cons, seqZ_cons by lia. cbn [load_bytes].
  pose proof (H 0 b eq_refl) as Hb0. rewrite Z.add_0_r in Hb0.
  unfold byte_at in Hb0. apply fmap_Some in Hb0 as (w & Hw & ->).
  unfold load_byte. rewrite (load_Some _ _ _ Hw). simpl.
  replace (Z.pred (1 + zlen bs)) with (zlen bs) by lia.
  rewrite IH; [done|]. intros i b' Hb.
  replace (Z.succ i0 + i) with (i0 + (1 + i)) by lia. apply H.
  revert Hb. rewrite !lookupz_Some. intros [? Hb]. split; [lia|].
  by replace (Z.to_nat (1 + i)) with (S (Z.to_nat i)) by lia.
Qed.

Lemma bin_at_bytes {E} m t bs : bin_at m t bs -> bin_bytes (E:=E) m t = Ok bs.
Proof.
  intros [(_&_&Hn&Hm) Hb]. unfold bin_bytes. rewrite (load_Some _ _ _ Hm). simpl.
  rewrite header_arity by (unfold KIND_BINARY; lia). by apply load_bytes_spec.
Qed.

(** ** The constructors meet the contract *)

Lemma grown_full {E A} n (R : mem -> A -> Prop) s (e : E) :
  heap_ok s -> cap_words (hp s) < top (hp s) + n -> grown n R s (Err e) s.
Proof. intros. split_and!; [done|by split|apply writes_refl|done]. Qed.

(** An operation that allocates once and then fills in what it allocated. *)
Lemma grows_alloc {A} n (k : Z -> HM A) (R : mem -> A -> Prop) s :
  heap_ok s -> 0 <= n ->
  (top (hp s) + n <= cap_words (hp s) ->
   exists x m', k (ptop s) (bump n s) = (Ok x, set_mem m' (bump n s)) /\
     writes (ptop s) (ptop s + 8 * n) (hmem s) m' /\ R (region (ptop s) (ptop s + 8 * n) m') x) ->
  grows (p ← heap_alloc n; k p) n R s.
Proof.
  intros Hs Hn Hk. apply wp_bind, wp_alloc; [by apply grown_full|].
  intros Hfit. destruct (Hk Hfit) as (x & m' & He & Hw & HR).
  unfold wp. rewrite He. simpl. split_and!.
  - eapply heap_ok_writes; [exact Hw|]. by apply heap_ok_bump.
  - by split.
  - simpl. eapply writes_weaken; [exact Hw|lia|]. unfold ptop, pend. lia.
  - done.
  - unfold ptop in *. simpl. by replace (hbase (hp s) + 8 * (top (hp s) + n))
      with (hbase (hp s) + 8 * top (hp s) + 8 * n) by lia.
Qed.

(** The allocated header, once the body has been written behind it. *)
Lemma boxed_fresh s n words k m' :
  heap_ok s -> 0 <= n < words -> top (hp s) + words <= cap_words (hp s) -> 
  m' !! ptop s = Some (header n k) -> 
  boxed (region (ptop s) (ptop s + 8 * words) m') (ptop s) k n.
Proof.
  intros Hs Hn Hfit Hm. pose proof (ptop_boxed s Hs). destruct Hs as [[Hb _] Ht He _].
  unfold ptop in *. split_and!; [lia|lia|done|lia|lia|].
  apply region_lookup. split; [done|lia].
Qed.

Lemma grows_tuple xs s :
  heap_ok s -> grows (tuple xs) (1 + zlen xs) (fun m t => tuple_at m t xs) s.
Proof.
  intros Hs. pose proof (zlen_nonneg xs). apply grows_alloc; [done|lia|]. intros Hfit.
  set (s1 := set_mem (<[ptop s := header (zlen xs) KIND_TUPLE]> (hmem s)) (bump (1 + zlen xs) s)).
  assert (is_Some (hmem s !! ptop s)) as H0.
  { replace (ptop s) with (ptop s + 8 * 0) by lia. eapply ptop_mapped; [done| |exact Hfit]. lia. }
  destruct (store_words_spec (E:=heap_full) xs (ptop s + 8) s1) as (m' & He & Hw & Hsl).
  { intros i Hi. simpl. rewrite lookup_insert_ne by lia.
    replace (ptop s + 8 + 8 * i) with (ptop s + 8 * (1 + i)) by lia.
    eapply ptop_mapped; [done| |exact Hfit]. lia. }
  exists (ptop s), m'. split_and!.
  - rewrite (bind_eval _ _ _ _ _ (store_ok (ptop s) _ (bump _ s) H0)).
    by rewrite (bind_eval _ _ _ _ _ He).
  - eapply writes_trans; [|eapply writes_weaken; [exact Hw|lia|lia]].
    apply writes_insert; [lia|done].
  - split.
    + apply boxed_fresh; [done|lia|done|]. rewrite (writes_out _ _ _ _ Hw) by lia. apply lookup_insert_eq.
    + apply slots_at_region; [done|lia|lia].
Qed.

Lemma grows_cons x y s : heap_ok s -> grows (cons x y) 3 (fun m t => cons_at m t x y) s.
Proof.
  intros Hs. apply grows_alloc; [done|lia|]. intros Hfit.
  destruct (store_words_spec (E:=heap_full) [KIND_CONS; x; y] (ptop s) (bump 3 s))
    as (m' & He & Hw & H0 & H1 & H2 & _).
  { intros i Hi. eapply (ptop_mapped s); [done|exact Hi|exact Hfit]. }
  exists (ptop s), m'. split_and!.
  - transitivity ((_ ← store_words (E:=heap_full) (ptop s) [KIND_CONS; x; y]; mret (ptop s)) (bump 3 s));
      [|by rewrite (bind_eval _ _ _ _ _ He)].
    cbn [store_words]. replace (ptop s + 8 + 8) with (ptop s + 16) by lia.
    unfold mbind, M_bind. destruct (store (ptop s) KIND_CONS _) as [[| | |] s1]; [|done..].
    destruct (store (ptop s + 8) x s1) as [[| | |] s2]; [|done..].
    by destruct (store (ptop s + 16) y s2) as [[| | |] s3].
  - exact Hw.
  - split_and!.
    + by apply boxed_fresh.
    + apply region_lookup. split; [done|lia].
    + apply region_lookup. split; [|lia]. by replace (ptop s + 16) with (ptop s + 8 + 8) by lia.
Qed.

Lemma div_ceil8_spec n : 0 <= n -> n <= 8 * div_ceil n 8 < n + 8.
Proof.
  intros Hn. unfold div_ceil.
  pose proof (Z.div_mod (n + 8 - 1) 8 ltac:(lia)). pose proof (Z.mod_pos_bound (n + 8 - 1) 8 ltac:(lia)).
  lia.
Qed.

Lemma grows_binary bs s :
  heap_ok s -> grows (binary bs) (1 + div_ceil (zlen bs) 8) (fun m t => bin_at m t bs) s.
Proof.
  intros Hs. pose proof (zlen_nonneg bs). pose proof (div_ceil8_spec (zlen bs) ltac:(done)).
  set (q := div_ceil (zlen bs) 8) in *.
  apply grows_alloc; [done|lia|]. intros Hfit.
  set (s1 := set_mem (<[ptop s := header (zlen bs) KIND_BINARY]> (hmem s)) (bump (1 + q) s)).
  assert (is_Some (hmem s !! ptop s)) as Hp0.
  { replace (ptop s) with (ptop s + 8 * 0) by lia. eapply ptop_mapped; [done| |exact Hfit]. lia. }
  destruct (store_bytes_spec (E:=heap_full) bs (ptop s + 8) 0 q s1) as (m' & He & Hw & Hb & _);
    [lia|lia| |].
  { intros i Hi. simpl. rewrite lookup_insert_ne by lia.
    replace (ptop s + 8 + 8 * i) with (ptop s + 8 * (1 + i)) by lia.
    eapply ptop_mapped; [done| |exact Hfit]. lia. }
  exists (ptop s), m'. split_and!.
  - rewrite (bind_eval _ _ _ _ _ (store_ok (ptop s) _ (bump _ s) Hp0)).
    by rewrite (bind_eval _ _ _ _ _ He).
  - eapply writes_trans; [|eapply writes_weaken; [exact Hw|lia|lia]].
    apply writes_insert; [lia|done].
  - assert (0 <= zlen bs < 2 ^ 61 /\ 0 <= ptop s) as Hlen by (destruct Hs; unfold ptop in *; lia).
    destruct (boxed_fresh s 0 (1 + q) KIND_BINARY (<[ptop s := header 0 KIND_BINARY]> ∅)) as (?&?&_);
      [done|lia|done|apply lookup_insert_eq|].
    split.
    + split_and!; try done; try lia. apply region_lookup. split; [|lia].
      rewrite (writes_out _ _ _ _ Hw) by lia. apply lookup_insert_eq.
    + intros i b Hi. pose proof (lookupz_range _ _ _ Hi).
      unfold byte_at in *. specialize (Hb i b). rewrite Z.sub_0_r in Hb. specialize (Hb Hi).
      apply fmap_Some in Hb as (w & Hw' & ->). apply fmap_Some. exists w. split; [|done].
      apply region_lookup. split; [done|].
      pose proof (Z.div_mod i 8 ltac:(lia)). pose proof (Z.mod_pos_bound i 8 ltac:(lia)). lia.
Qed.
