(* ===== verification/TermVal.v ===== *)
(** * TermVal: terms as values

    The abstract value a term word denotes in a memory ([repr]), the heap words
    its deep copy needs ([vsize]) and the fuel the recursive readers need
    ([vfuel]).  [term_size_words] computes [vsize] and [eq_term] decides equality
    of values. *)

From S2P Require Import Prelude Term TermImm TermHeap.

Inductive val :=
| VImm (w : Z)
| VTuple (vs : list val)
| VCons (h t : val)
| VBin (bs : list byte)
| VMap (ks : list Z) (vs : list val).

Section val_induction.
Context (P : val -> Prop).
Hypothesis Himm : forall w, P (VImm w).
Hypothesis Htuple : forall vs, Forall P vs -> P (VTuple vs).
Hypothesis Hcons : forall h t, P h -> P t -> P (VCons h t).
Hypothesis Hbin : forall bs, P (VBin bs).
Hypothesis Hmap : forall ks vs, Forall P vs -> P (VMap ks vs).

Fixpoint val_induction (v : val) : P v :=
  let all := fix all vs : Forall P vs :=
    match vs with [] => Forall_nil_2 P | v :: vs' => Forall_cons_2 P v vs' (val_induction v) (all vs') end in
  match v with
  | VImm w => Himm w
  | VTuple vs => Htuple vs (all vs)
  | VCons h t => Hcons h t (val_induction h) (val_induction t)
  | VBin bs => Hbin bs
  | VMap ks vs => Hmap ks vs (all vs)
  end.
End val_induction.

(** A word that is not a pointer: tags 1 to 6. *)
Definition imm_word (w : Z) : Prop := 0 <= w < 2 ^ 64 /\ 1 <= tag w <= 6.

Inductive repr (m : mem) : val -> Z -> Prop :=
| repr_imm w : imm_word w -> repr m (VImm w) w
| repr_tuple vs xs t : tuple_at m t xs -> Forall2 (repr m) vs xs -> repr m (VTuple vs) t
| repr_cons vh vt x y t : cons_at m t x y -> repr m vh x -> repr m vt y -> repr m (VCons vh vt) t
| repr_bin bs t : bin_at m t bs -> repr m (VBin bs) t
| repr_map ks vs xs t :
    map_at m t ks xs -> Forall imm_word ks -> Forall2 (repr m) vs xs -> repr m (VMap ks vs) t.

Definition zsum (l : list Z) : Z := foldr Z.add 0 l.

Fixpoint vsize (v : val) : Z :=
  match v with
  | VImm _ => 0
  | VTuple vs => 1 + zlen vs + zsum (map vsize vs)
  | VCons h t => 3 + vsize h + vsize t
  | VBin bs => 1 + div_ceil (zlen bs) 8
  | VMap ks vs => 1 + 2 * zlen ks + zsum (map vsize vs)
  end.

Fixpoint vfuel (v : val) : nat :=
  match v with
  | VImm _ | VBin _ => 1
  | VTuple vs | VMap _ vs => S (max_list (map vfuel vs))
  | VCons h t => S (S (Nat.max (vfuel h) (vfuel t)))
  end.

(** The number of rounds of a walk along the spine of [v]. *)
Fixpoint vspine (v : val) : nat :=
  match v with VCons _ t => S (vspine t) | _ => 1 end.

(** ** Basic facts *)

Lemma repr_mono m m' v t : m ⊆ m' -> repr m v t -> repr m' v t.
Proof.
  intros Hs. revert t. induction v using val_induction; intros t Hr; inversion Hr; subst.
  - by constructor.
  - econstructor; [by eapply tuple_at_mono|].
    eapply Forall2_impl_elem; [eassumption|]; simpl.
    intros v x Hv Hvx. rewrite Forall_forall in H. by apply H.
  - econstructor; [by eapply cons_at_mono|eauto|eauto].
  - econstructor. by eapply bin_at_mono.
  - econstructor; [by eapply map_at_mono|done|].
    eapply Forall2_impl_elem; [eassumption|]; simpl.
    intros v x Hv Hvx. rewrite Forall_forall in H. by apply H.
Qed.

Lemma zsum_nonneg {A} (f : A -> Z) l : Forall (fun x => 0 <= f x) l -> 0 <= zsum (map f l).
Proof. induction 1; simpl in *; lia. Qed.

Lemma vsize_nonneg v : 0 <= vsize v.
Proof.
  induction v using val_induction; simpl.
  - done.
  - pose proof (zlen_nonneg vs). apply zsum_nonneg in H. lia.
  - lia.
  - pose proof (zlen_nonneg bs). pose proof (div_ceil8_spec (zlen bs)). lia.
  - pose proof (zlen_nonneg ks). apply zsum_nonneg in H. lia.
Qed.

Lemma vfuel_pos v : (1 <= vfuel v)%nat.
Proof. destruct v; simpl; lia. Qed.

Lemma vspine_fuel v : (vspine v <= vfuel v)%nat.
Proof. induction v using val_induction; simpl; try lia. Qed.

Lemma max_list_In n l : In n l -> (n <= max_list l)%nat.
Proof. induction l; simpl; [done|]. intros [->|?]; [lia|]. specialize (IHl ltac:(done)). lia. Qed.

Lemma vfuel_elem v vs : v ∈ vs -> (vfuel v <= max_list (map vfuel vs))%nat.
Proof. intros Hv. apply max_list_In, in_map. by apply list_elem_of_In. Qed.

Lemma imm_kind {E} m w : imm_word w ->
  exists k, kind (E:=E) m w = Ok k /\ k ∈ [KInt; KAtom; KPid; KRef; KNil; KPort].
Proof.
  intros [_ Ht]. unfold kind, TAG_INT, TAG_ATOM, TAG_PID, TAG_REF, TAG_SPECIAL, TAG_PORT.
  repeat (case_bool_decide; [eexists; split; [done|set_solver]|]). lia.
Qed.

Lemma imm_not_boxed w : imm_word w -> is_boxed w = false.
Proof. intros [_ Ht]. unfold is_boxed, TAG_BOXED. apply bool_decide_false. lia. Qed.

(** The kind read from memory is the constructor of the value. *)
Lemma repr_kind {E} m v t : repr m v t ->
  exists k, kind (E:=E) m t = Ok k /\
  match v with
  | VImm _ => k ∈ [KInt; KAtom; KPid; KRef; KNil; KPort]
  | VTuple _ => k = KTuple | VCons _ _ => k = KCons | VBin _ => k = KBinary | VMap _ _ => k = KMap
  end.
Proof.
  intros Hr. inversion Hr; subst.
  - by apply imm_kind.
  - destruct H as [Hb _]. eexists. split; [by eapply boxed_kind|done].
  - destruct H as [Hb _]. eexists. split; [by eapply boxed_kind|done].
  - destruct H as [Hb _]. eexists. split; [by eapply boxed_kind|done].
  - destruct H as [Hb _]. eexists. split; [by eapply boxed_kind|done].
Qed.

Lemma slots_elem {E} m a xs i x :
  slots_at m a xs -> lookupz xs i = Some x -> load (E:=E) m (a + 8 * i) = Ok x.
Proof. rewrite slots_at_lookup. intros H Hx. by apply load_Some, H. Qed.

Lemma tuple_at_elem {E} m t xs i x :
  tuple_at m t xs -> lookupz xs i = Some x -> tuple_elem (E:=E) m t i = Ok x.
Proof.
  intros [_ Hs] Hx. unfold tuple_elem. replace (t + 8 * (1 + i)) with (t + 8 + 8 * i) by lia.
  by eapply slots_elem.
Qed.

Lemma tuple_at_arity {E} m t xs : tuple_at m t xs -> tuple_arity (E:=E) m t = Ok (zlen xs).
Proof. intros [Hb _]. by eapply boxed_arity. Qed.

Lemma map_at_arity {E} m t ks xs : map_at m t ks xs -> map_arity (E:=E) m t = Ok (zlen ks).
Proof. intros [Hb _]. by eapply boxed_arity. Qed.

Lemma map_at_key {E} m t ks xs i k :
  map_at m t ks xs -> lookupz ks i = Some k -> map_key (E:=E) m t i = Ok k.
Proof.
  intros (_&_&Hs&_) Hx. unfold map_key. replace (t + 8 * (1 + i)) with (t + 8 + 8 * i) by lia.
  by eapply slots_elem.
Qed.

Lemma map_at_val {E} m t ks xs i x :
  map_at m t ks xs -> lookupz xs i = Some x -> map_val (E:=E) m t i = Ok x.
Proof.
  intros Hm Hx. unfold map_val. rewrite (map_at_arity _ _ _ _ Hm). simpl.
  destruct Hm as (_&_&_&Hs).
  replace (t + 8 * (1 + zlen ks + i)) with (t + 8 * (1 + zlen ks) + 8 * i) by lia.
  by eapply slots_elem.
Qed.

Lemma cons_at_head {E} m t x y : cons_at m t x y -> head (E:=E) m t = Ok x.
Proof. intros (_&H&_). by apply load_Some. Qed.

Lemma cons_at_tail {E} m t x y : cons_at m t x y -> tail (E:=E) m t = Ok y.
Proof. intros (_&_&H). by apply load_Some. Qed.

(** ** [term_size_words] *)

Lemma sum_sizes_spec {E} (size : Term -> res E Z) elem vs xs : forall i0,
  (forall i x, lookupz xs i = Some x -> elem (i0 + i) = Ok x) ->
  Forall2 (fun v x => size x = Ok (vsize v)) vs xs ->
  sum_sizes size elem (seqZ i0 (zlen xs)) = Ok (zsum (map vsize vs)).
Proof.
  intros i0 He Hall. revert i0 He. induction Hall as [|v x vs xs Hv _ IH]; intros i0 He; [done|].
  rewrite seqZ_walk. cbn [sum_sizes map].
  assert (elem i0 = Ok x) as ->.
  { replace i0 with (i0 + 0) by lia. by apply He. }
  simpl. rewrite Hv. simpl. rewrite IH; [done|].
  intros i y Hy. replace (Z.succ i0 + i) with (i0 + (1 + i)) by lia. by apply He, lookupz_cons_shift.
Qed.

(** [Forall2] with the fuel bound of each element. *)
Lemma Forall2_fuel {A} (P : val -> A -> Prop) (Q : val -> A -> Prop) vs xs fuel :
  Forall (fun v => forall x, (vfuel v <= fuel)%nat -> P v x -> Q v x) vs ->
  (max_list (map vfuel vs) <= fuel)%nat -> Forall2 P vs xs -> Forall2 Q vs xs.
Proof.
  intros Hall Hf HP. eapply Forall2_impl_elem; [exact HP|]; simpl.
  intros v x Hv Hvx. rewrite Forall_forall in Hall. apply Hall; [done| |done].
  pose proof (vfuel_elem v vs Hv). lia.
Qed.

Section sizes.
Context {E : Type} (m : mem).

(** The size of [v] is computed wherever [v] is represented. *)
Definition sized (v : val) : Prop := forall t fuel,
  repr m v t -> (vfuel v <= fuel)%nat -> term_size_words (E:=E) fuel m t = Ok (vsize v).

(** So is the size of the rest of a list, from any cell on. *)
Definition sized_spine (v : val) : Prop := forall t fuel f2 w,
  repr m v t -> (vfuel v <= fuel)%nat -> (vspine v <= f2)%nat ->
  size_spine (E:=E) f2 (term_size_words fuel m) m w t = Ok (w + vsize v).

Lemma sized_end v : (forall h t, v <> VCons h t) -> sized v -> sized_spine v.
Proof using Type.
  intros Hv IH t fuel f2 w Hr Hf Hf2. destruct f2 as [|f2]; [destruct v; simpl in Hf2; lia|].
  cbn [size_spine]. destruct (repr_kind (E:=E) m v t Hr) as (k & -> & Hk). simpl.
  rewrite bool_decide_false; [by rewrite (IH t fuel Hr Hf)|].
  intros ->. destruct v; try done; [set_solver|naive_solver].
Qed.

Lemma sized_imm w : sized (VImm w).
Proof using Type.
  intros t [|fuel] Hr Hf; [simpl in Hf; lia|]. cbn [term_size_words].
  destruct (repr_kind (E:=E) m _ _ Hr) as (k & -> & Hk). simpl. destruct k; try done; set_solver.
Qed.

Lemma sized_bin bs : sized (VBin bs).
Proof using Type.
  intros t [|fuel] Hr Hf; [simpl in Hf; lia|]. cbn [term_size_words].
  destruct (repr_kind (E:=E) m _ _ Hr) as (k & -> & ->). simpl. inversion Hr as [| | |? ? Hb|]; subst.
  by rewrite (bin_at_bytes _ _ _ Hb).
Qed.

Lemma sized_tuple vs : Forall sized vs -> sized (VTuple vs).
Proof using Type.
  intros IH t [|fuel] Hr Hf; [simpl in Hf; lia|]. cbn [term_size_words].
  destruct (repr_kind (E:=E) m _ _ Hr) as (k & -> & ->). simpl.
  inversion Hr as [|? xs ? Ht Hall| | |]; subst.
  rewrite (tuple_at_arity _ _ _ Ht). simpl. rewrite (sum_sizes_spec _ _ vs).
  - simpl. unfold zlen. by rewrite (Forall2_length _ _ _ Hall).
  - intros i x Hx. by eapply tuple_at_elem.
  - eapply Forall2_fuel; [|simpl in Hf; by apply le_S_n|exact Hall].
    eapply Forall_impl; [exact IH|]. unfold sized. naive_solver.
Qed.

Lemma sized_map ks vs : Forall sized vs -> sized (VMap ks vs).
Proof using Type.
  intros IH t [|fuel] Hr Hf; [simpl in Hf; lia|]. cbn [term_size_words].
  destruct (repr_kind (E:=E) m _ _ Hr) as (k & -> & ->). simpl.
  inversion Hr as [| | | |? ? xs ? Ht Hks Hall]; subst.
  rewrite (map_at_arity _ _ _ _ Ht). simpl.
  assert (zlen ks = zlen xs) as -> by (unfold zlen; destruct Ht as (_&->&_); done).
  rewrite (sum_sizes_spec _ _ vs); [done| |].
  - intros i x Hx. by eapply map_at_val.
  - eapply Forall2_fuel; [|simpl in Hf; by apply le_S_n|exact Hall].
    eapply Forall_impl; [exact IH|]. unfold sized. naive_solver.
Qed.

Lemma sized_cons_spine h t0 : sized h -> sized_spine t0 ->
  forall t fuel f2 w, repr m (VCons h t0) t -> (Nat.max (vfuel h) (vfuel t0) <= fuel)%nat ->
    (vspine (VCons h t0) <= f2)%nat ->
    size_spine (E:=E) f2 (term_size_words fuel m) m w t = Ok (w + vsize (VCons h t0)).
Proof using Type.
  intros IHh IHt t fuel [|f2] w Hr Hf Hf2; [simpl in Hf2; lia|]. cbn [size_spine].
  destruct (repr_kind (E:=E) m _ _ Hr) as (k & -> & ->). simpl.
  inversion Hr as [| |? ? x y ? Hc Hx Hy| |]; subst.
  rewrite (cons_at_head _ _ _ _ Hc). simpl. rewrite (IHh x fuel) by (done || lia). simpl.
  rewrite (cons_at_tail _ _ _ _ Hc). simpl. rewrite IHt by (done || (simpl in Hf2; lia)).
  f_equal. lia.
Qed.

Lemma sized_cons h t : sized h -> sized_spine t -> sized (VCons h t) /\ sized_spine (VCons h t).
Proof using Type.
  intros IHh IHt. split.
  - intros a [|fuel] Hr Hf; [simpl in Hf; lia|]. cbn [term_size_words].
    destruct (repr_kind (E:=E) m _ _ Hr) as (k & -> & ->). simpl in *. pose proof (vspine_fuel t).
    rewrite (sized_cons_spine h t) by (done || simpl; lia). done.
  - intros a fuel f2 w Hr Hf Hf2. simpl in Hf. apply sized_cons_spine; try done. lia.
Qed.

Lemma sized_all v : sized v /\ sized_spine v.
Proof using Type.
  induction v as [w|vs IH|h t [IHh _] [_ IHt]|bs|ks vs IH] using val_induction.
  3: by apply sized_cons.
  all: match goal with |- sized ?u /\ _ =>
    assert (sized u) as H; [|split; [exact H|by apply sized_end]] end.
  - apply sized_imm.
  - apply sized_tuple. eapply Forall_impl; [exact IH|]. naive_solver.
  - apply sized_bin.
  - apply sized_map. eapply Forall_impl; [exact IH|]. naive_solver.
Qed.
End sizes.

Lemma term_size_repr {E} m v t fuel :
  repr m v t -> (vfuel v <= fuel)%nat -> term_size_words (E:=E) fuel m t = Ok (vsize v).
Proof. apply sized_all. Qed.

(** ** A word denotes at most one value *)

Lemma boxed_det m t k k' n n' :
  boxed m t k n -> boxed m t k' n' -> 0 <= k <= 3 -> 0 <= k' <= 3 -> k = k' /\ n = n'.
Proof.
  intros H1 H2 Hk Hk'. pose proof (boxed_arity (E:=unit) _ _ _ _ H1 Hk) as Ha.
  rewrite (boxed_arity _ _ _ _ H2 Hk') in Ha.
  destruct H1 as (_&_&?&H1), H2 as (_&_&?&H2). split; [|congruence].
  rewrite H1 in H2. apply (f_equal (option_map (fun w => Z.land w TAG_MASK))) in H2.
  cbn [option_map] in H2. rewrite !header_tag in H2 by lia. congruence.
Qed.

Lemma slots_at_det m a xs ys : slots_at m a xs -> slots_at m a ys -> length xs = length ys -> xs = ys.
Proof.
  revert a ys. induction xs as [|x xs IH]; intros a [|y ys]; try done; simpl.
  intros [Hx Hxs] [Hy Hys] [= Hl]. f_equal; [congruence|by eapply IH].
Qed.

Lemma bin_at_det m t bs bs' : bin_at m t bs -> bin_at m t bs' -> bs = bs'.
Proof. intros H1%(bin_at_bytes (E:=unit)) H2%(bin_at_bytes (E:=unit)). congruence. Qed.

Lemma imm_boxed_absurd m w k n : imm_word w -> boxed m w k n -> False.
Proof. intros [_ Ht] (_&Hb&_). unfold TAG_BOXED in Hb. lia. Qed.

Lemma Forall2_det {A B} (R : A -> B -> Prop) l1 l2 k :
  Forall (fun x => forall y z, R x z -> R y z -> x = y) l1 ->
  Forall2 R l1 k -> Forall2 R l2 k -> l1 = l2.
Proof.
  intros Hd H1. revert l2 Hd. induction H1 as [|x z l1 k Hx _ IH]; intros l2 Hd H2;
    inversion H2; subst; [done|]. inversion Hd; subst. f_equal; eauto.
Qed.

(** The object a value's constructor requires, as one case distinction. *)
Lemma repr_inv m v t : repr m v t ->
  match v with
  | VImm w => t = w /\ imm_word w
  | VTuple vs => exists xs, tuple_at m t xs /\ Forall2 (repr m) vs xs
  | VCons h tl => exists x y, cons_at m t x y /\ repr m h x /\ repr m tl y
  | VBin bs => bin_at m t bs
  | VMap ks vs => exists xs, map_at m t ks xs /\ Forall imm_word ks /\ Forall2 (repr m) vs xs
  end.
Proof. destruct 1; eauto 10. Qed.

(** The header of a boxed value: its kind and its arity. *)
Definition vheader (v : val) : option (Z * Z) :=
  match v with
  | VImm _ => None
  | VTuple vs => Some (KIND_TUPLE, zlen vs)
  | VCons _ _ => Some (KIND_CONS, 0)
  | VBin bs => Some (KIND_BINARY, zlen bs)
  | VMap ks _ => Some (KIND_MAP, zlen ks)
  end.

Lemma repr_header m v t : repr m v t ->
  match vheader v with
  | None => v = VImm t /\ imm_word t
  | Some (k, n) => boxed m t k n /\ 0 <= k <= 3
  end.
Proof.
  intros Hr%repr_inv. destruct v; simpl.
  - by destruct Hr as [-> ?].
  - destruct Hr as (xs & [Hb _] & Hall). split; [|by vm_compute].
    apply Forall2_length in Hall. apply zlen_inj in Hall. by rewrite Hall.
  - destruct Hr as (x & y & [Hb _] & _). split; [done|by vm_compute].
  - destruct Hr as [Hb _]. split; [done|by vm_compute].
  - destruct Hr as (xs & [Hb _] & _). split; [done|by vm_compute].
Qed.

Lemma repr_header_det m v1 v2 t : repr m v1 t -> repr m v2 t -> vheader v1 = vheader v2.
Proof.
  intros H1%repr_header H2%repr_header.
  destruct (vheader v1) as [[k1 n1]|], (vheader v2) as [[k2 n2]|]; try done.
  - destruct H1, H2. destruct (boxed_det m t k1 k2 n1 n2) as [-> ->]; done.
  - destruct H1, H2. by edestruct imm_boxed_absurd.
  - destruct H1, H2. by edestruct imm_boxed_absurd.
Qed.

Lemma repr_det m v1 v2 t : repr m v1 t -> repr m v2 t -> v1 = v2.
Proof.
  revert v2 t. induction v1 as [w|vs IH|h tl IHh IHt|bs|ks vs IH] using val_induction;
    intros v2 t H1 H2; pose proof (repr_header_det _ _ _ _ H1 H2) as Hh;
    apply repr_inv in H1, H2; destruct v2 as [w2|vs2|h2 tl2|bs2|ks2 vs2]; try done; simpl in Hh.
  - by destruct H1 as [-> _], H2 as [-> _].
  - destruct H1 as (xs & [_ Hs1] & Ha1), H2 as (xs2 & [_ Hs2] & Ha2).
    assert (xs2 = xs) as ->.
    { eapply slots_at_det; [done..|].
      rewrite <- (Forall2_length _ _ _ Ha1), <- (Forall2_length _ _ _ Ha2). apply zlen_inj. congruence. }
    f_equal. eapply Forall2_det; [|done..]. eapply Forall_impl; [exact IH|]. naive_solver.
  - destruct H1 as (x & y & (_&?&?) & ? & ?), H2 as (x2 & y2 & (_&?&?) & ? & ?).
    simplify_eq. f_equal; eauto.
  - f_equal. by eapply bin_at_det.
  - destruct H1 as (xs & (_&?&?&?) & _ & ?), H2 as (xs2 & (_&?&?&?) & _ & ?).
    assert (ks2 = ks) as -> by (eapply slots_at_det; [done..|]; apply zlen_inj; congruence).
    assert (xs2 = xs) as -> by (eapply slots_at_det; [done..|]; congruence).
    f_equal. eapply Forall2_det; [|done..]. eapply Forall_impl; [exact IH|]. naive_solver.
Qed.

(** ** [eq_term] *)

Lemma all_range_spec {E A} (f : Z -> res E bool) (P : A -> Prop) l : forall i0,
  (forall i x, lookupz l i = Some x -> exists r, f (i0 + i) = Ok r /\ (r = true <-> P x)) ->
  exists r, all_range f (seqZ i0 (zlen l)) = Ok r /\ (r = true <-> Forall P l).
Proof.
  induction l as [|x l IH]; intros i0 H.
  { exists true. by split; [|split]. }
  rewrite seqZ_walk. cbn [all_range].
  destruct (H 0 x eq_refl) as (r & Hr & HP). rewrite Z.add_0_r in Hr. rewrite Hr. simpl.
  destruct r; simpl.
  - destruct (IH (Z.succ i0)) as (r & Hr' & HP').
    { intros i y Hy. replace (Z.succ i0 + i) with (i0 + (1 + i)) by lia. by apply H, lookupz_cons_shift. }
    exists r. split; [done|]. rewrite HP', Forall_cons. tauto.
  - exists false. split; [done|]. rewrite Forall_cons, <- HP. naive_solver.
Qed.

Section equality.
Context {E : Type} (m : mem).

Definition eq_ok (v1 : val) : Prop := forall v2 a b fuel,
  repr m v1 a -> repr m v2 b -> (vfuel v1 <= fuel)%nat ->
  exists r, eq_term (E:=E) fuel m a b = Ok r /\ (r = true <-> v1 = v2).

(** [eq_term] on two words that are both boxed but different. *)
Definition eq_boxed_ok (v1 : val) : Prop := forall v2 a b fuel h1 h2,
  repr m v1 a -> repr m v2 b -> (vfuel v1 <= fuel)%nat ->
  vheader v1 = Some h1 -> vheader v2 = Some h2 -> a <> b ->
  exists r, eq_term (E:=E) fuel m a b = Ok r /\ (r = true <-> v1 = v2).

Lemma repr_boxed v t : repr m v t -> is_boxed t = bool_decide (is_Some (vheader v)).
Proof using Type.
  intros Hr%repr_header. destruct (vheader v) as [[k n]|].
  - rewrite bool_decide_true by eauto. by eapply boxed_is_boxed, Hr.
  - destruct Hr as [_ Hi]. rewrite bool_decide_false by (by intros [? ?]). by apply imm_not_boxed.
Qed.

(** The shortcuts of [eq_term]: the same word, or an immediate. *)
Lemma eq_shortcut v1 : eq_boxed_ok v1 -> eq_ok v1.
Proof using Type.
  intros Hbox v2 a b fuel H1 H2 Hf. destruct (decide (a = b)) as [<-|Hne].
  { destruct fuel; [pose proof (vfuel_pos v1); lia|]. exists true. cbn [eq_term].
    rewrite bool_decide_true by done. split; [done|]. split; [intros _; by eapply repr_det|done]. }
  destruct (vheader v1) as [h1|] eqn:Hh1, (vheader v2) as [h2|] eqn:Hh2; [by eapply Hbox|..].
  all: destruct fuel; [pose proof (vfuel_pos v1); lia|]; exists false; cbn [eq_term];
    rewrite bool_decide_false by done; rewrite (repr_boxed v1), (repr_boxed v2), Hh1, Hh2 by done.
  all: split; [by rewrite ?andb_false_r|]; split; [done|]; intros ->; try congruence.
  apply repr_header in H1, H2. rewrite Hh1 in H1. rewrite Hh2 in H2. naive_solver.
Qed.

Lemma eq_unfold fuel a b v1 v2 h1 h2 :
  repr m v1 a -> repr m v2 b -> vheader v1 = Some h1 -> vheader v2 = Some h2 -> a <> b ->
  eq_term (E:=E) (S fuel) m a b =
  (ka ← kind m a; kb ← kind m b;
   match ka, kb with
   | KTuple, KTuple =>
       n ← tuple_arity m a; n' ← tuple_arity m b;
       if bool_decide (n = n') then
         all_range (fun i => x ← tuple_elem m a i; y ← tuple_elem m b i; eq_term fuel m x y) (seqZ 0 n)
       else Ok false
   | KBinary, KBinary => x ← bin_bytes m a; y ← bin_bytes m b; Ok (bool_decide (x = y))
   | KMap, KMap =>
       n ← map_arity m a; n' ← map_arity m b;
       if bool_decide (n = n') then
         all_range (fun i =>
           ka ← map_key m a i; kb ← map_key m b i;
           if bool_decide (ka = kb)
           then x ← map_val m a i; y ← map_val m b i; eq_term fuel m x y
           else Ok false) (seqZ 0 n)
       else Ok false
   | KCons, KCons => eq_spine fuel (eq_term fuel m) m a b
   | _, _ => Ok false
   end).
Proof using Type.
  intros H1 H2 Hh1 Hh2 Hne. cbn [eq_term]. rewrite bool_decide_false by done.
  by rewrite (repr_boxed v1), (repr_boxed v2), Hh1, Hh2 by done.
Qed.

Lemma zip_lookup {A B} (l : list A) (k : list B) i x y :
  lookupz (zip l k) i = Some (x, y) <-> lookupz l i = Some x /\ lookupz k i = Some y.
Proof using Type.
  rewrite !lookupz_Some. rewrite lookup_zip_Some. naive_solver.
Qed.

Lemma Forall2_lookupz {A B} (R : A -> B -> Prop) l k i x :
  Forall2 R l k -> lookupz l i = Some x -> exists y, lookupz k i = Some y /\ R x y.
Proof using Type.
  intros HR [Hi Hx]%lookupz_Some. destruct (Forall2_lookup_l _ _ _ _ _ HR Hx) as (y & Hy & Hr).
  exists y. split; [by apply lookupz_Some|done].
Qed.

Lemma zlen_zip {A B} (l : list A) (k : list B) : length l = length k -> zlen (zip l k) = zlen l.
Proof using Type. unfold zlen. intros. rewrite length_zip_with. lia. Qed.

Lemma Forall_zip_eq {A} (l k : list A) :
  length l = length k -> Forall (fun p => p.1 = p.2) (zip l k) <-> l = k.
Proof using Type.
  revert k. induction l as [|x l IH]; intros [|y k]; try done; simpl; intros Hl.
  rewrite Forall_cons, IH by congruence. simpl. naive_solver.
Qed.

Lemma Forall_zip_pair {A B} (P : A -> Prop) (Q : B -> Prop) l k :
  length l = length k -> Forall (fun p => P p.1 /\ Q p.2) (zip l k) <-> Forall P l /\ Forall Q k.
Proof using Type.
  revert k. induction l as [|x l IH]; intros [|y k]; try done; simpl; intros Hl.
  rewrite !Forall_cons, IH by congruence. simpl. tauto.
Qed.

Lemma eq_tuple vs : Forall eq_ok vs -> eq_boxed_ok (VTuple vs).
Proof using Type.
  intros IH v2 a b [|fuel] h1 h2 H1 H2 Hf Hh1 Hh2 Hne; [simpl in Hf; lia|].
  rewrite (eq_unfold _ _ _ _ _ _ _ H1 H2 Hh1 Hh2 Hne).
  destruct (repr_kind (E:=E) _ _ _ H1) as (k1 & -> & ->).
  destruct (repr_kind (E:=E) _ _ _ H2) as (k2 & -> & Hk2). simpl.
  destruct v2 as [|vs2|?? |?|??]; [done| |subst k2; exists false; by split; [|split]..]. subst k2.
  apply repr_inv in H1 as (xs & Ht1 & Ha1), H2 as (ys & Ht2 & Ha2).
  rewrite (tuple_at_arity _ _ _ Ht1), (tuple_at_arity _ _ _ Ht2). simpl.
  pose proof (Forall2_length _ _ _ Ha1). pose proof (Forall2_length _ _ _ Ha2).
  case_bool_decide as Hn; rewrite zlen_inj in Hn; [|exists false; split; [done|split; [done|congruence]]].
  assert (length vs = length vs2) as Hl by congruence.
  replace (zlen xs) with (zlen (zip vs vs2)) by (rewrite zlen_zip by done; apply zlen_inj; done).
  destruct (all_range_spec (E:=E) (fun i => x ← tuple_elem m a i; y ← tuple_elem m b i; eq_term fuel m x y)
    (fun p => p.1 = p.2) (zip vs vs2) 0) as (r & Hr & HP).
  { intros i [u1 u2] [Hu1 Hu2]%zip_lookup.
    destruct (Forall2_lookupz _ _ _ _ _ Ha1 Hu1) as (x & Hx & Hux).
    destruct (Forall2_lookupz _ _ _ _ _ Ha2 Hu2) as (y & Hy & Huy).
    rewrite Z.add_0_l, (tuple_at_elem _ _ _ _ _ Ht1 Hx), (tuple_at_elem _ _ _ _ _ Ht2 Hy). simpl.
    assert (u1 ∈ vs) as Hin by (apply lookupz_Some in Hu1 as [_ Hu1]; by eapply list_elem_of_lookup_2).
    rewrite Forall_forall in IH. apply (IH u1 Hin u2 x y fuel); [done..|].
    pose proof (vfuel_elem _ _ Hin). simpl in Hf. lia. }
  exists r. split; [done|]. rewrite HP, Forall_zip_eq by done. naive_solver.
Qed.

Lemma eq_map ks vs : Forall eq_ok vs -> eq_boxed_ok (VMap ks vs).
Proof using Type.
  intros IH v2 a b [|fuel] h1 h2 H1 H2 Hf Hh1 Hh2 Hne; [simpl in Hf; lia|].
  rewrite (eq_unfold _ _ _ _ _ _ _ H1 H2 Hh1 Hh2 Hne).
  destruct (repr_kind (E:=E) _ _ _ H1) as (k1 & -> & ->).
  destruct (repr_kind (E:=E) _ _ _ H2) as (k2 & -> & Hk2). simpl.
  destruct v2 as [|vs2|?? |?|ks2 vs2]; [done|subst k2; exists false; by split; [|split]..|]. subst k2.
  apply repr_inv in H1 as (xs & Ht1 & _ & Ha1), H2 as (ys & Ht2 & _ & Ha2).
  rewrite (map_at_arity _ _ _ _ Ht1), (map_at_arity _ _ _ _ Ht2). simpl.
  pose proof (Forall2_length _ _ _ Ha1). pose proof (Forall2_length _ _ _ Ha2).
  case_bool_decide as Hn; rewrite zlen_inj in Hn; [|exists false; split; [done|split; [done|congruence]]].
  pose proof Ht1 as (_&Hlx&_). pose proof Ht2 as (_&Hly&_).
  assert (length vs = length vs2) as Hl by congruence.
  set (l := zip (zip ks ks2) (zip vs vs2)).
  assert (zlen l = zlen ks) as Hzl.
  { unfold l. rewrite zlen_zip; [by apply zlen_zip|]. apply zlen_inj. rewrite !zlen_zip by done.
    apply zlen_inj. congruence. }
  rewrite <- Hzl.
  destruct (all_range_spec (E:=E) (fun i => ka ← map_key m a i; kb ← map_key m b i;
           if bool_decide (ka = kb)
           then x ← map_val m a i; y ← map_val m b i; eq_term fuel m x y
           else Ok false) (fun p => p.1.1 = p.1.2 /\ p.2.1 = p.2.2) l 0) as (r & Hr & HP).
  { intros i [[k1 k2] [u1 u2]] [[Hk1 Hk2]%zip_lookup [Hu1 Hu2]%zip_lookup]%zip_lookup.
    destruct (Forall2_lookupz _ _ _ _ _ Ha1 Hu1) as (x & Hx & Hux).
    destruct (Forall2_lookupz _ _ _ _ _ Ha2 Hu2) as (y & Hy & Huy).
    rewrite Z.add_0_l, (map_at_key _ _ _ _ _ _ Ht1 Hk1), (map_at_key _ _ _ _ _ _ Ht2 Hk2). simpl.
    case_bool_decide as Hkk; [|exists false; split; [done|naive_solver]].
    rewrite (map_at_val _ _ _ _ _ _ Ht1 Hx), (map_at_val _ _ _ _ _ _ Ht2 Hy). simpl.
    assert (u1 ∈ vs) as Hin by (apply lookupz_Some in Hu1 as [_ Hu1]; by eapply list_elem_of_lookup_2).
    rewrite Forall_forall in IH. destruct (IH u1 Hin u2 x y fuel) as (r & Hr & Hiff); [done..| |].
    { pose proof (vfuel_elem _ _ Hin). simpl in Hf. lia. }
    exists r. split; [done|]. naive_solver. }
  exists r. split; [done|]. rewrite HP.
  assert (Forall (fun p => p.1.1 = p.1.2 /\ p.2.1 = p.2.2) l <-> ks = ks2 /\ vs = vs2) as ->; [|naive_solver].
  rewrite <- (Forall_zip_eq ks ks2), <- (Forall_zip_eq vs vs2) by done.
  assert (length (zip ks ks2) = length (zip vs vs2)) as Hlz by (rewrite !length_zip_with; congruence).
  exact (Forall_zip_pair (fun q => q.1 = q.2) (fun q => q.1 = q.2) _ _ Hlz).
Qed.

Lemma eq_bin bs : eq_boxed_ok (VBin bs).
Proof using Type.
  intros v2 a b [|fuel] h1 h2 H1 H2 Hf Hh1 Hh2 Hne; [simpl in Hf; lia|].
  rewrite (eq_unfold _ _ _ _ _ _ _ H1 H2 Hh1 Hh2 Hne).
  destruct (repr_kind (E:=E) _ _ _ H1) as (k1 & -> & ->).
  destruct (repr_kind (E:=E) _ _ _ H2) as (k2 & -> & Hk2). simpl.
  destruct v2 as [|?|?? |bs2|??]; [done|subst k2; exists false; by split; [|split]..| |
    subst k2; exists false; by split; [|split]]. subst k2.
  apply repr_inv in H1, H2. rewrite (bin_at_bytes _ _ _ H1), (bin_at_bytes _ _ _ H2). simpl.
  eexists. split; [done|]. rewrite bool_decide_eq_true. naive_solver.
Qed.

(** Two list cells compared along their spines. *)
Definition eq_spine_ok (h1 t1 : val) : Prop := forall h2 t2 a b fuel f2,
  repr m (VCons h1 t1) a -> repr m (VCons h2 t2) b ->
  (Nat.max (vfuel h1) (vfuel t1) <= fuel)%nat -> (vspine t1 <= f2)%nat ->
  exists r, eq_spine (E:=E) f2 (eq_term fuel m) m a b = Ok r /\ (r = true <-> VCons h1 t1 = VCons h2 t2).

Lemma eq_spine_step h1 t1 : eq_ok h1 -> eq_ok t1 ->
  (forall h t, t1 = VCons h t -> eq_spine_ok h t) -> eq_spine_ok h1 t1.
Proof using Type.
  intros IHh IHt IHs h2 t2 a b fuel [|f2] H1 H2 Hf Hf2; [destruct t1; simpl in Hf2; lia|].
  apply repr_inv in H1 as (x1 & y1 & Hc1 & Hx1 & Hy1), H2 as (x2 & y2 & Hc2 & Hx2 & Hy2).
  cbn [eq_spine]. rewrite (cons_at_head _ _ _ _ Hc1), (cons_at_head _ _ _ _ Hc2). simpl.
  destruct (IHh h2 x1 x2 fuel Hx1 Hx2 ltac:(lia)) as (r & -> & Hr). simpl.
  destruct r; simpl; [|exists false; split; [done|naive_solver]].
  rewrite (cons_at_tail _ _ _ _ Hc1), (cons_at_tail _ _ _ _ Hc2). simpl.
  destruct (IHt t2 y1 y2 fuel Hy1 Hy2 ltac:(lia)) as (rt & Hrt & Hit).
  destruct (repr_kind (E:=E) _ _ _ Hy1) as (k1 & -> & Hk1). simpl.
  destruct (repr_kind (E:=E) _ _ _ Hy2) as (k2 & -> & Hk2). simpl.
  destruct t1 as [| |h1' t1'| |].
  3: { subst k1. rewrite bool_decide_true by done. destruct t2 as [| |h2' t2'| |].
    3: { subst k2. rewrite bool_decide_true by done. simpl in Hf, Hf2.
         destruct (IHs h1' t1' eq_refl h2' t2' y1 y2 fuel f2 Hy1 Hy2) as (r & -> & Hr'); [lia|lia|].
         exists r. split; [done|]. naive_solver. }
    all: rewrite bool_decide_false by (set_solver || congruence); exists false; naive_solver. }
  all: rewrite (bool_decide_false (k1 = KCons)) by (set_solver || congruence).
  all: destruct t2; try (subst k2; rewrite bool_decide_true by done; exists false; naive_solver).
  all: rewrite bool_decide_false by (set_solver || congruence); exists rt; naive_solver.
Qed.

Lemma eq_cons h t : eq_spine_ok h t -> eq_boxed_ok (VCons h t).
Proof using Type.
  intros IHs v2 a b [|fuel] h1 h2 H1 H2 Hf Hh1 Hh2 Hne; [simpl in Hf; lia|].
  rewrite (eq_unfold _ _ _ _ _ _ _ H1 H2 Hh1 Hh2 Hne).
  destruct (repr_kind (E:=E) _ _ _ H1) as (k1 & -> & ->).
  destruct (repr_kind (E:=E) _ _ _ H2) as (k2 & -> & Hk2). simpl in *.
  destruct v2 as [| |h' t'| |]; [done| | |subst k2; exists false; by split; [|split]..];
    [subst k2; exists false; by split; [|split]|]. subst k2.
  pose proof (vspine_fuel t). apply IHs; [done..|lia|lia].
Qed.

Lemma eq_all v : eq_ok v /\ (forall h t, v = VCons h t -> eq_spine_ok h t).
Proof using Type.
  induction v as [w|vs IH|h t [IHh _] [IHt IHs]|bs|ks vs IH] using val_induction.
  3: { assert (eq_spine_ok h t) as Hs by (by apply eq_spine_step).
       split; [by apply eq_shortcut, eq_cons|]. by intros ?? [= <- <-]. }
  all: split; [|done]; apply eq_shortcut.
  - by intros ?????????.
  - apply eq_tuple. eapply Forall_impl; [exact IH|]. naive_solver.
  - apply eq_bin.
  - apply eq_map. eapply Forall_impl; [exact IH|]. naive_solver.
Qed.
End equality.

(** ** A memory to evaluate on

    A tuple [{7, [1, 2], <<"ab">>, 7}] whose first and last element share
    nothing, at address 4096, and a structurally equal copy at 8192. *)
Definition put_words (a : Z) (ws : list Z) (m : mem) : mem :=
  foldr (fun iw m => <[a + 8 * iw.1 := iw.2]> m) m (zip (seqZ 0 (zlen ws)) ws).

Definition sample_words (a : Z) : list Z :=
  [header 3 KIND_TUPLE; term_int 7; a + 32; a + 80;
   KIND_CONS; term_int 1; a + 56;
   KIND_CONS; term_int 2; NIL;
   header 2 KIND_BINARY; 25185].

Definition sample_mem : mem := put_words 4096 (sample_words 4096) (put_words 8192 (sample_words 8192) ∅).

Definition sample_val : val :=
  VTuple [VImm (term_int 7); VCons (VImm (term_int 1)) (VCons (VImm (term_int 2)) (VImm NIL));
          VBin [x61; x62]].

Ltac repr_eval := repeat split; vm_compute; congruence.

Lemma sample_imm v : - 100 <= v <= 100 -> imm_word (term_int v).
Proof.
  intros. rewrite term_int_header. split; [apply header_range; unfold TAG_INT; lia|].
  unfold tag. rewrite header_tag by (unfold TAG_INT; lia). unfold TAG_INT. lia.
Qed.

Lemma sample_repr a : a = 4096 \/ a = 8192 -> repr sample_mem sample_val a.
Proof.
  intros Ha. unfold sample_val.
  apply (repr_tuple _ _ [term_int 7; a + 32; a + 80]);
    [|repeat apply Forall2_cons_2; [apply repr_imm; by apply sample_imm| | |apply Forall2_nil_2]].
  - destruct Ha as [-> | ->]; repr_eval.
  - apply (repr_cons _ _ _ (term_int 1) (a + 56)); [destruct Ha as [-> | ->]; repr_eval|
      apply repr_imm; by apply sample_imm|].
    apply (repr_cons _ _ _ (term_int 2) NIL); [destruct Ha as [-> | ->]; repr_eval|
      apply repr_imm; by apply sample_imm|apply repr_imm]. by vm_compute.
  - apply repr_bin. split; [destruct Ha as [-> | ->]; repr_eval|].
    intros i b Hb. pose proof (lookupz_range _ _ _ Hb). unfold zlen in H; simpl in H.
    assert (i = 0 \/ i = 1) as [-> | ->] by lia; injection Hb as <-;
      destruct Ha as [-> | ->]; vm_compute; reflexivity.
Qed.

(** ** Properties *)

(** C35: [eq] decides structural equality of the values two terms denote: on any
    two well-formed terms it returns (no wild read, no unbounded run), and it
    returns [true] exactly when the values are the same, wherever they live. *)
Theorem eq_term_decides {E} m v1 v2 a b fuel :
  repr m v1 a -> repr m v2 b -> (vfuel v1 <= fuel)%nat ->
  exists r, eq_term (E:=E) fuel m a b = Ok r /\ (r = true <-> v1 = v2).
Proof. intros H1 H2 Hf. by apply (eq_all m v1). Qed.

Lemma eq_term_decides_witness :
  exists r, eq_term (E:=unit) 10 sample_mem 4096 8192 = Ok r /\ (r = true <-> sample_val = sample_val).
Proof.
  apply (eq_term_decides sample_mem sample_val sample_val 4096 8192 10).
  - apply sample_repr. by left.
  - apply sample_repr. by right.
  - vm_compute. lia.
Defined.
