(* ===== verification/TermFmt.v ===== *)
(** * TermFmt: rendering terms

    Models [fmt_term] of [crates/ygg-term/src/lib.rs]: the text it writes for a term,
    as bytes.  The writer appends to a [String] and never fails; [atom_name] is the
    caller's.  On every well-formed term it ends and writes the rendering of the
    value the term denotes ([show]), which does not depend on where the term lives. *)

From S2P Require Import Prelude Term TermImm TermHeap TermVal.

(** ** Text *)

(** [{}] of an integer of at most 64 bits. *)
Fixpoint show_digits (fuel : nat) (n : Z) : list byte :=
  match fuel with
  | O => []
  | S fuel' => if bool_decide (n < 10) then [z2b (48 + n)] else show_digits fuel' (n / 10) ++ [z2b (48 + n mod 10)]
  end.
Definition show_int (n : Z) : list byte := if bool_decide (n < 0) then x2d :: show_digits 20 (- n) else show_digits 20 n.

Definition txt_pid : list byte := [x3c; x70; x69; x64; x3a].                    (* "<pid:" *)
Definition txt_gt : list byte := [x3e].                                         (* ">" *)
Definition txt_ref : list byte := [x23; x72; x65; x66; x3c].                    (* "#ref<" *)
Definition txt_port : list byte := [x23; x70; x6f; x72; x74; x3c].              (* "#port<" *)
Definition txt_nil : list byte := [x5b; x5d].                                   (* "[]" *)
Definition txt_bin : list byte := [x3c; x3c].                                   (* "<<" *)
Definition txt_bytes : list byte := [x20; x62; x79; x74; x65; x73; x3e; x3e].   (* " bytes>>" *)
Definition txt_map : list byte := [x23; x7b].                                   (* "#{" *)
Definition txt_open : list byte := [x7b].                                       (* "{" *)
Definition txt_close : list byte := [x7d].                                      (* "}" *)
Definition txt_comma : list byte := [x2c; x20].                                 (* ", " *)
Definition txt_arrow : list byte := [x20; x3d; x3e; x20].                       (* " => " *)
Definition txt_lbr : list byte := [x5b].                                        (* "[" *)
Definition txt_rbr : list byte := [x5d].                                        (* "]" *)
Definition txt_bar : list byte := [x20; x7c; x20].                              (* " | " *)

(** ** The renderer *)

Section fmt.
Context {E : Type} (m : gmap Z Z) (atom_name : Z -> list byte).

(** [for i in .. { if i > 0 { write!(", ") }; .. }] *)
Fixpoint fmt_range (f : Z -> res E (list byte)) (ix : list Z) : res E (list byte) :=
  match ix with
  | [] => Ok []
  | i :: ix' => s ← f i; rest ← fmt_range f ix'; Ok ((if bool_decide (0 < i) then txt_comma else []) ++ s ++ rest)
  end.

(** The [while] along the spine, and what follows it. *)
Fixpoint fmt_spine (fuel : nat) (fmt : Term -> res E (list byte)) (first : bool) (cur : Term) : res E (list byte) :=
  match fuel with
  | O => NoFuel
  | S fuel' =>
      k ← kind m cur;
      if bool_decide (k = KCons) then
        h ← head m cur; s ← fmt h; tl ← tail m cur;
        rest ← fmt_spine fuel' fmt false tl;
        Ok ((if first then [] else txt_comma) ++ s ++ rest)
      else if is_nil cur then Ok []
      else s ← fmt cur; Ok (txt_bar ++ s)
  end.

Definition unwrap_r {A} (o : option A) : res E A := match o with Some a => Ok a | None => Panic end.

Fixpoint fmt_term (fuel : nat) (t : Term) : res E (list byte) :=
  match fuel with
  | O => NoFuel
  | S fuel' =>
      k ← kind m t;
      match k with
      | KInt => n ← unwrap_r (as_int t); Ok (show_int n)
      | KAtom => a ← unwrap_r (as_atom t); Ok (atom_name a)
      | KPid => n ← unwrap_r (as_pid t); Ok (txt_pid ++ show_int n ++ txt_gt)
      | KRef => n ← unwrap_r (as_ref t); Ok (txt_ref ++ show_int n ++ txt_gt)
      | KPort => n ← unwrap_r (as_port t); Ok (txt_port ++ show_int n ++ txt_gt)
      | KNil => Ok txt_nil
      | KBinary => bs ← bin_bytes m t; Ok (txt_bin ++ show_int (zlen bs) ++ txt_bytes)
      | KMap =>
          n ← map_arity m t;
          s ← fmt_range (fun i => k ← map_key m t i; ks ← fmt_term fuel' k; v ← map_val m t i; vs ← fmt_term fuel' v;
                                  Ok (ks ++ txt_arrow ++ vs)) (seqZ 0 n);
          Ok (txt_map ++ s ++ txt_close)
      | KTuple =>
          n ← tuple_arity m t;
          s ← fmt_range (fun i => x ← tuple_elem m t i; fmt_term fuel' x) (seqZ 0 n);
          Ok (txt_open ++ s ++ txt_close)
      | KCons => s ← fmt_spine fuel' (fmt_term fuel') true t; Ok (txt_lbr ++ s ++ txt_rbr)
      end
  end.
End fmt.

(** ** The rendering of a value *)

Fixpoint join (l : list (list byte)) : list byte :=
  match l with
  | [] => []
  | [s] => s
  | s :: l' => s ++ txt_comma ++ join l'
  end.

Section show.
Context (atom_name : Z -> list byte).

Definition show_imm (w : Z) : list byte :=
  match as_int w, as_atom w, as_pid w, as_ref w, as_port w with
  | Some n, _, _, _, _ => show_int n
  | _, Some a, _, _, _ => atom_name a
  | _, _, Some n, _, _ => txt_pid ++ show_int n ++ txt_gt
  | _, _, _, Some n, _ => txt_ref ++ show_int n ++ txt_gt
  | _, _, _, _, Some n => txt_port ++ show_int n ++ txt_gt
  | _, _, _, _, _ => txt_nil
  end.

(** A value, or ([rest]) what follows an element of a list. *)
Fixpoint show (rest : bool) (v : val) : list byte :=
  match v with
  | VCons h t => (if rest then txt_comma else txt_lbr) ++ show false h ++ show true t ++ (if rest then [] else txt_rbr)
  | VImm w => if rest then (if is_nil w then [] else txt_bar ++ show_imm w) else show_imm w
  | VTuple vs => (if rest then txt_bar else []) ++ txt_open ++ join (map (show false) vs) ++ txt_close
  | VBin bs => (if rest then txt_bar else []) ++ txt_bin ++ show_int (zlen bs) ++ txt_bytes
  | VMap ks vs => (if rest then txt_bar else []) ++ txt_map ++
      join (zip_with (fun k s => show_imm k ++ txt_arrow ++ s) ks (map (show false) vs)) ++ txt_close
  end.
End show.

(** ** The renderer writes the rendering *)

Lemma join_cons s l : join (s :: l) = s ++ concat (map (app txt_comma) l).
Proof.
  revert s. induction l as [|s' l IH]; intros s; [by rewrite app_nil_r|].
  cbn [join]. cbn [join] in IH. rewrite IH. cbn [map concat]. by rewrite !app_assoc.
Qed.

Section fmt_show.
Context {E : Type} (m : mem) (atom_name : Z -> list byte).
Local Abbreviation fmt_term := (fmt_term (E:=E) m atom_name).
Local Abbreviation show := (show atom_name).

Lemma fmt_range_rest (f : Z -> res E (list byte)) ss : forall i0, 0 < i0 ->
  (forall i s, lookupz ss i = Some s -> f (i0 + i) = Ok s) ->
  fmt_range f (seqZ i0 (zlen ss)) = Ok (concat (map (app txt_comma) ss)).
Proof using Type.
  induction ss as [|s ss IH]; intros i0 H0 Hf; [done|].
  rewrite seqZ_walk. cbn [fmt_range]. pose proof (Hf 0 s eq_refl) as Hs.
  rewrite Z.add_0_r in Hs. rewrite Hs. simpl. rewrite IH; [|lia|].
  - simpl. rewrite bool_decide_true by done. done.
  - intros i y Hy. replace (Z.succ i0 + i) with (i0 + (1 + i)) by lia. by apply Hf, lookupz_cons_shift.
Qed.

(** Comma-separated pieces, from index 0 on. *)
Lemma fmt_range_join (f : Z -> res E (list byte)) ss :
  (forall i s, lookupz ss i = Some s -> f i = Ok s) -> fmt_range f (seqZ 0 (zlen ss)) = Ok (join ss).
Proof using Type.
  destruct ss as [|s ss]; intros Hf; [done|].
  rewrite seqZ_walk, join_cons. cbn [fmt_range]. rewrite (Hf 0 s eq_refl). simpl. rewrite fmt_range_rest; [|lia|].
  - done.
  - intros i y Hy. by apply Hf, lookupz_cons_shift.
Qed.

(** [v] is rendered wherever it is represented, and so is the rest of a list. *)
Definition shown (v : val) : Prop := forall t fuel,
  repr m v t -> (vfuel v <= fuel)%nat -> fmt_term fuel t = Ok (show false v).
Definition shown_spine (v : val) : Prop := forall t fuel f2,
  repr m v t -> (vfuel v <= fuel)%nat -> (vspine v <= f2)%nat ->
  fmt_spine m f2 (fmt_term fuel) false t = Ok (show true v).

Lemma shown_imm w : shown (VImm w).
Proof using Type.
  intros t [|fuel] Hr Hf; [simpl in Hf; lia|]. inversion Hr as [? [_ Ht]| | | |]; subst.
  cbn [TermFmt.fmt_term TermFmt.show]. unfold show_imm, kind, as_int, as_atom, as_pid, as_ref, as_port,
    TAG_INT, TAG_ATOM, TAG_PID, TAG_REF, TAG_SPECIAL, TAG_PORT.
  assert (tag t = 1 \/ tag t = 2 \/ tag t = 3 \/ tag t = 4 \/ tag t = 5 \/ tag t = 6)
    as [-> |[-> |[-> |[-> |[-> | ->]]]]] by lia; reflexivity.
Qed.

Lemma shown_bin bs : shown (VBin bs).
Proof using Type.
  intros t [|fuel] Hr Hf; [simpl in Hf; lia|]. cbn [TermFmt.fmt_term].
  destruct (repr_kind (E:=E) m _ _ Hr) as (k & -> & ->). simpl. inversion Hr as [| | |? ? Hb|]; subst.
  by rewrite (bin_at_bytes _ _ _ Hb).
Qed.

(** The elements of a tuple, or the values of a map, at their indices. *)
Lemma shown_elems vs xs fuel : Forall shown vs -> (max_list (map vfuel vs) <= fuel)%nat -> Forall2 (repr m) vs xs ->
  forall i s, lookupz (map (show false) vs) i = Some s ->
    exists x, lookupz xs i = Some x /\ fmt_term fuel x = Ok s.
Proof using Type.
  intros IH Hf Hall i s Hs.
  assert (Forall2 (fun v x => fmt_term fuel x = Ok (show false v)) vs xs) as H2.
  { eapply Forall2_fuel; [|exact Hf|exact Hall]. eapply Forall_impl; [exact IH|]. unfold shown. naive_solver. }
  apply lookupz_Some in Hs as [Hi (v & -> & Hv)%list_lookup_fmap_Some].
  destruct (Forall2_lookupz _ _ _ i v H2) as (x & Hx & Heq); [by apply lookupz_Some|eauto].
Qed.

Lemma shown_tuple vs : Forall shown vs -> shown (VTuple vs).
Proof using Type.
  intros IH t [|fuel] Hr Hf; [simpl in Hf; lia|]. cbn [TermFmt.fmt_term].
  destruct (repr_kind (E:=E) m _ _ Hr) as (k & -> & ->). simpl.
  inversion Hr as [|? xs ? Ht Hall| | |]; subst. rewrite (tuple_at_arity _ _ _ Ht). simpl.
  replace (zlen xs) with (zlen (map (show false) vs))
    by (unfold zlen; rewrite length_map; by rewrite (Forall2_length _ _ _ Hall)).
  rewrite fmt_range_join; [done|]. intros i s Hs.
  destruct (shown_elems vs xs fuel IH ltac:(simpl in Hf; lia) Hall i s Hs) as (x & Hx & Hx').
  by rewrite (tuple_at_elem _ _ _ _ _ Ht Hx).
Qed.

Lemma fuel_of_elem vs i s : map (show false) vs !! i = Some s -> (1 <= max_list (map vfuel vs))%nat.
Proof using Type.
  intros (v & -> & Hv)%list_lookup_fmap_Some. pose proof (vfuel_pos v).
  pose proof (vfuel_elem v vs (list_elem_of_lookup_2 _ _ _ Hv)). lia.
Qed.

Lemma boxed_not_nil v t : repr m v t -> (forall w, v <> VImm w) -> is_nil t = false.
Proof using Type.
  intros Hr Hv. unfold is_nil. apply bool_decide_false. intros ->.
  assert (imm_word NIL) as Hn by (by vm_compute).
  inversion Hr as [| ? ? ? [Hb _] | ? ? ? ? ? [Hb _] | ? ? [Hb _] | ? ? ? ? [Hb _]]; subst;
    [naive_solver|by eapply imm_boxed_absurd..].
Qed.

Lemma shown_map ks vs : Forall shown vs -> shown (VMap ks vs).
Proof using Type.
  intros IH t [|fuel] Hr Hf; [simpl in Hf; lia|]. cbn [TermFmt.fmt_term].
  destruct (repr_kind (E:=E) m _ _ Hr) as (k & -> & ->). simpl.
  inversion Hr as [| | | |? ? xs ? Ht Hks Hall]; subst. rewrite (map_at_arity _ _ _ _ Ht). simpl.
  set (ss := zip_with _ ks _).
  assert (length ks = length vs) as Hlen.
  { rewrite (Forall2_length _ _ _ Hall). by destruct Ht as (_&->&_). }
  replace (zlen ks) with (zlen ss) by (unfold zlen, ss; rewrite length_zip_with, length_map; lia).
  rewrite fmt_range_join; [done|]. intros i s [Hi Hs]%lookupz_Some.
  apply lookup_zip_with_Some in Hs as (k & s' & -> & Hk & Hs').
  destruct (shown_elems vs xs fuel IH ltac:(simpl in Hf; lia) Hall i s') as (x & Hx & Hx'); [by apply lookupz_Some|].
  rewrite (map_at_key _ _ _ _ i k Ht) by (by apply lookupz_Some). simpl.
  destruct fuel as [|fuel]; [exfalso; pose proof (fuel_of_elem _ _ _ Hs'); simpl in Hf; lia|].
  rewrite (shown_imm k k (S fuel)); [|constructor; by eapply Forall_lookup_1|simpl; lia].
  cbn [mbind res_bind]. rewrite (map_at_val _ _ _ _ _ _ Ht Hx). cbn [mbind res_bind]. by rewrite Hx'.
Qed.

Lemma shown_end v : (forall h t, v <> VCons h t) -> shown v -> shown_spine v.
Proof using Type.
  intros Hv IH t fuel f2 Hr Hf Hf2. destruct f2 as [|f2]; [destruct v; simpl in Hf2; lia|].
  cbn [fmt_spine]. destruct (repr_kind (E:=E) m v t Hr) as (k & -> & Hk). simpl.
  rewrite bool_decide_false by (intros ->; destruct v; try done; [set_solver|naive_solver]).
  rewrite (IH t fuel Hr Hf). inversion Hr; subst; simpl; [by destruct (is_nil t)| |by edestruct Hv| |].
  all: by rewrite (boxed_not_nil _ _ Hr).
Qed.

Lemma shown_cons_spine h t0 : shown h -> shown_spine t0 ->
  forall t fuel f2 first, repr m (VCons h t0) t -> (Nat.max (vfuel h) (vfuel t0) <= fuel)%nat ->
    (vspine (VCons h t0) <= f2)%nat ->
    fmt_spine m f2 (fmt_term fuel) first t =
      Ok ((if first then [] else txt_comma) ++ show false h ++ show true t0).
Proof using Type.
  intros IHh IHt t fuel [|f2] first Hr Hf Hf2; [simpl in Hf2; lia|]. cbn [fmt_spine].
  destruct (repr_kind (E:=E) m _ _ Hr) as (k & -> & ->). simpl.
  inversion Hr as [| |? ? x y ? Hc Hx Hy| |]; subst.
  rewrite (cons_at_head _ _ _ _ Hc). simpl. rewrite (IHh x fuel) by (done || lia). simpl.
  rewrite (cons_at_tail _ _ _ _ Hc). simpl. by rewrite IHt by (done || (simpl in Hf2; lia)).
Qed.

Lemma shown_cons h t : shown h -> shown_spine t -> shown (VCons h t) /\ shown_spine (VCons h t).
Proof using Type.
  intros IHh IHt. split.
  - intros a [|fuel] Hr Hf; [simpl in Hf; lia|]. cbn [TermFmt.fmt_term].
    destruct (repr_kind (E:=E) m _ _ Hr) as (k & -> & ->). simpl in *. pose proof (vspine_fuel t).
    rewrite (shown_cons_spine h t) by (done || simpl; lia). simpl. by rewrite <- app_assoc.
  - intros a fuel f2 Hr Hf Hf2. simpl in Hf. rewrite (shown_cons_spine h t) by (done || lia).
    simpl. by rewrite app_nil_r.
Qed.

Lemma shown_all v : shown v /\ shown_spine v.
Proof using Type.
  induction v as [w|vs IH|h t [IHh _] [_ IHt]|bs|ks vs IH] using val_induction.
  3: by apply shown_cons.
  all: match goal with |- shown ?u /\ _ =>
    assert (shown u) as H; [|split; [exact H|by apply shown_end]] end.
  - apply shown_imm.
  - apply shown_tuple. eapply Forall_impl; [exact IH|]. naive_solver.
  - apply shown_bin.
  - apply shown_map. eapply Forall_impl; [exact IH|]. naive_solver.
Qed.
End fmt_show.

(** On a well-formed term [fmt_term] ends, reads no wild word, and writes the
    rendering of the value the term denotes: structurally equal terms print alike. *)
Theorem fmt_term_shows {E} m atom_name v t fuel :
  repr m v t -> (vfuel v <= fuel)%nat -> fmt_term (E:=E) m atom_name fuel t = Ok (show atom_name false v).
Proof. apply shown_all. Qed.

(** [{7, [1, 2], <<2 bytes>>}] *)
Lemma fmt_term_shows_witness :
  fmt_term (E:=unit) sample_mem (fun _ => []) 10 4096 =
  Ok [x7b; x37; x2c; x20; x5b; x31; x2c; x20; x32; x5d; x2c; x20; x3c; x3c; x32; x20; x62; x79; x74; x65; x73; x3e; x3e; x7d].
Proof.
  rewrite (fmt_term_shows sample_mem (fun _ => []) sample_val 4096 10);
    [vm_compute; reflexivity|apply sample_repr; by left|vm_compute; lia].
Defined.
