(* ===== verification/TermCopy.v ===== *)
(** * TermCopy: the deep copy

    [copy_term] duplicates the value of its source inside the words it
    allocates, takes exactly [term_size_words] of them, and leaves everything
    below the destination's top as it was.  This is what copy-on-send, message
    fragments and the interpreter's literals rely on. *)

From S2P Require Import Prelude Term TermImm TermHeap TermVal.

(** [m0] holds the source: it is part of memory and outside the free words of
    the destination. *)
Definition source (m0 : mem) (s : HS) : Prop :=
  m0 ⊆ hmem s /\ forall x w, m0 !! x = Some w -> ~ (ptop s <= x < pend s).

Lemma source_grown {E A} m0 n (R : mem -> A -> Prop) s (r : res E A) s' :
  source m0 s -> 0 <= n -> grown n R s r s' -> top (hp s) <= top (hp s') -> source m0 s'.
Proof.
  intros [Hs Hd] Hn (Hok & [Hb Hc] & Hw & _) Ht. split; [by eapply writes_sub|].
  intros x w Hx ?. apply (Hd x w Hx). unfold ptop, pend in *. rewrite Hb, Hc in *. lia.
Qed.

(** ** Sequencing two allocating operations *)

Lemma region_grown lo s s1 s2 :
  lo <= ptop s -> same_arena s s1 -> same_arena s s2 ->
  top (hp s) <= top (hp s1) -> top (hp s1) <= top (hp s2) ->
  writes (ptop s1) (pend s1) (hmem s1) (hmem s2) ->
  region (ptop s) (ptop s1) (hmem s1) ⊆ region lo (ptop s2) (hmem s2).
Proof.
  intros Hlo [Hb1 Hc1] [Hb2 Hc2] ?? Hw. apply region_mono; [lia|unfold ptop; rewrite Hb1, Hb2; lia|].
  intros x Hx. apply (writes_out _ _ _ _ Hw). lia.
Qed.

Lemma grown_trans {E A B} n1 n2 (R1 : mem -> A -> Prop) (R2 R : mem -> B -> Prop) s s1 s2 x (r : res E B) :
  0 <= n1 -> 0 <= n2 -> grown n1 R1 s (Ok x : res E A) s1 -> grown n2 R2 s1 r s2 ->
  (forall m1 m2 m y, R1 m1 x -> R2 m2 y -> m1 ⊆ m -> m2 ⊆ m -> R m y) ->
  grown (n1 + n2) R s r s2.
Proof.
  intros Hn1 Hn2 (Hok1 & [Hb1 Hc1] & Hw1 & Ht1 & HR1) (Hok2 & [Hb2 Hc2] & Hw2 & Hr) HR.
  assert (same_arena s s2) as Ha by (split; congruence).
  split_and!; [done|done| |].
  - eapply writes_trans; [exact Hw1|]. eapply writes_weaken; [exact Hw2|..]; unfold ptop, pend; rewrite Hb1, ?Hc1; lia.
  - destruct r as [y| | |]; [|rewrite Hc1 in Hr; lia|done|done].
    destruct Hr as [Ht2 HR2]. split; [lia|]. eapply HR; [exact HR1|exact HR2|..].
    + apply region_grown; [lia|by split|done|lia|lia|done].
    + apply region_mono; [unfold ptop; rewrite Hb1; lia|lia|done].
Qed.

Lemma grows_bind {E A B} n1 n2 (c : M HS E A) (k : A -> M HS E B)
    (R1 : mem -> A -> Prop) (R2 : A -> mem -> B -> Prop) (R : mem -> B -> Prop) s :
  0 <= n1 -> 0 <= n2 -> grows c n1 R1 s ->
  (forall x s1, grown n1 R1 s (Ok x : res E A) s1 -> grows (k x) n2 (R2 x) s1) ->
  (forall x m1 m2 m y, R1 m1 x -> R2 x m2 y -> m1 ⊆ m -> m2 ⊆ m -> R m y) ->
  grows (x ← c; k x) (n1 + n2) R s.
Proof.
  intros Hn1 Hn2 Hc Hk HR. apply wp_bind. eapply wp_mono; [exact Hc|].
  intros [x|e| |] s1 H1.
  - eapply wp_mono; [by apply Hk|]. intros r s2 H2. eapply grown_trans; eauto.
  - destruct H1 as (?&?&?&H1). split_and!; try done. lia.
  - by destruct H1 as (?&?&?&[]).
  - by destruct H1 as (?&?&?&[]).
Qed.

(** A value is copied from wherever [m0] represents it. *)
Definition copied (v : val) (copy : Term -> HM Term) : Prop := forall m0 t s,
  repr m0 v t -> heap_ok s -> source m0 s ->
  grows (copy t) (vsize v) (fun m x => repr m v x) s.

(** ** The slot loops of tuples and maps *)

Record filled (lo hi : Z) (n : Z) (R : mem -> list Z -> Prop) (s : HS)
    (r : res heap_full unit) (s' : HS) : Prop := {
  filled_ok : heap_ok s';
  filled_arena : same_arena s s';
  filled_out x : ~ (lo <= x < hi) -> ~ (ptop s <= x < pend s) -> hmem s' !! x = hmem s !! x;
  filled_dom x : is_Some (hmem s !! x) -> is_Some (hmem s' !! x);
  filled_res :
    match r with
    | Ok _ => top (hp s') = top (hp s) + n /\
              exists ys, slots_at (hmem s') lo ys /\ R (region (ptop s) (ptop s') (hmem s')) ys
    | Err _ => cap_words (hp s) < top (hp s) + n
    | _ => False
    end
}.

Definition slots_src (m0 : mem) (elem : mem -> Z -> res heap_full Term) (i0 : Z) (xs : list Z) : Prop :=
  forall m i x, m0 ⊆ m -> lookupz xs i = Some x -> elem m (i0 + i) = Ok x.

Lemma slots_src_tail m0 elem i0 x xs : slots_src m0 elem i0 (x :: xs) -> slots_src m0 elem (Z.succ i0) xs.
Proof.
  intros H m i y Hm Hy. replace (Z.succ i0 + i) with (i0 + (1 + i)) by lia.
  by apply H, lookupz_cons_shift.
Qed.

(** One iteration followed by the rest of the loop. *)
Lemma filled_step v vs lo hi n s s1 r s' c :
  0 <= n -> grown (vsize v) (fun m x => repr m v x) s (Ok c : res heap_full Z) s1 ->
  lo + 8 <= hi <= ptop s ->
  filled (lo + 8) hi n (fun m ys => Forall2 (repr m) vs ys) (set_mem (<[lo := c]> (hmem s1)) s1) r s' ->
  filled lo hi (vsize v + n) (fun m ys => Forall2 (repr m) (v :: vs) ys) s r s'.
Proof.
  intros Hn (Hok1 & [Hb1 Hc1] & Hw1 & Ht1 & Hv) Hlo [Hok [Hb Hc] Hout Hdom Hres].
  pose proof (vsize_nonneg v). simpl in *.
  assert (ptop s <= ptop s1) as Hp1 by (unfold ptop; rewrite Hb1; lia).
  assert (pend s1 = pend s) as Hpe by (unfold pend; by rewrite Hb1, Hc1).
  change (ptop (set_mem _ s1)) with (ptop s1) in *. change (pend (set_mem _ s1)) with (pend s1) in *.
  split; [done|split; congruence| | |].
  - intros x Hx Hx'. rewrite Hout by lia. rewrite lookup_insert_ne by lia.
    by rewrite (writes_out _ _ _ _ Hw1).
  - intros x Hx. apply Hdom. destruct (decide (lo = x)) as [->|].
    + rewrite lookup_insert_eq. eauto.
    + rewrite lookup_insert_ne by done. by apply (writes_dom _ _ _ _ Hw1).
  - destruct r as [u|e| |]; [|lia|done|done]. destruct Hres as (Ht & ys & Hys & Hall).
    split; [lia|]. exists (c :: ys). simpl. split_and!; [|done|].
    + rewrite Hout by lia. apply lookup_insert_eq.
    + constructor.
      * eapply repr_mono; [|exact Hv]. apply region_mono; [lia|unfold ptop; rewrite Hb; lia|].
        intros x Hx. rewrite Hout by lia. apply lookup_insert_ne. lia.
      * eapply Forall2_impl; [exact Hall|]. intros ? ?. apply repr_mono.
        apply region_mono; [lia|lia|done].
Qed.

Lemma copy_slots_spec copy elem slot m0 vs xs : forall i0 lo s,
  Forall2 (repr m0) vs xs -> Forall (fun v => copied v copy) vs ->
  slots_src m0 elem i0 xs -> (forall i, slot i = lo + 8 * (i - i0)) ->
  heap_ok s -> source m0 s -> lo + 8 * zlen xs <= ptop s ->
  (forall i, 0 <= i < zlen xs -> is_Some (hmem s !! (lo + 8 * i))) ->
  (forall x w, m0 !! x = Some w -> ~ (lo <= x < lo + 8 * zlen xs)) ->
  wp (copy_slots copy elem slot (seqZ i0 (zlen xs)))
     (filled lo (lo + 8 * zlen xs) (zsum (map vsize vs)) (fun m ys => Forall2 (repr m) vs ys) s) s.
Proof.
  intros i0 lo s Hall. revert i0 lo s.
  induction Hall as [|v x vs xs Hv Hvs IH]; intros i0 lo s Hcop Hsrc Hslot Hok Hm0 Hlo Hmap Hdisj.
  { unfold wp. simpl. split; [done|by split|done|done|]. simpl. split; [lia|]. by exists []. }
  pose proof (zlen_nonneg xs). rewrite zlen_cons in *.
  replace (1 + zlen xs) with (zlen (x :: xs)) by apply zlen_cons.
  inversion Hcop as [|? ? Hcv Hcvs]; subst. rewrite seqZ_walk. cbn [copy_slots for_each map zsum foldr].
  apply wp_bind, wp_bind, wp_gets, wp_bind, wp_lift.
  pose proof (Hsrc (hmem s) 0 x (proj1 Hm0) eq_refl) as He. rewrite Z.add_0_r in He. rewrite He.
  pose proof (vsize_nonneg v). assert (0 <= zsum (map vsize vs)).
  { apply zsum_nonneg, Forall_forall. intros. apply vsize_nonneg. }
  apply wp_bind. eapply wp_mono; [apply (Hcv m0 x s); done|]. intros [c|e| |] s1 Hg.
  2: { destruct Hg as (?&?&[Ho Hd]&?). split; [done|done|auto|auto|simpl in *; unfold zsum in *; lia]. }
  2: by destruct Hg as (?&?&?&[]).
  2: by destruct Hg as (?&?&?&[]).
  pose proof Hg as (Hok1 & [Hb1 Hc1] & Hw1 & Ht1 & _).
  assert (ptop s <= ptop s1) as Hp1 by (unfold ptop; rewrite Hb1; lia).
  assert (slot i0 = lo) as Hs0 by (rewrite Hslot; lia).
  assert (is_Some (hmem s1 !! slot i0)) as Hm.
  { rewrite Hs0. apply (writes_dom _ _ _ _ Hw1). replace lo with (lo + 8 * 0) by lia. apply Hmap. lia. }
  apply wp_store; [done|]. rewrite Hs0 in *.
  assert (writes lo (lo + 8 * (1 + zlen xs)) (hmem s1) (<[lo := c]> (hmem s1))) as Hw2
    by (apply writes_insert; [lia|done]).
  eapply wp_mono; [apply (IH (Z.succ i0) (lo + 8) (set_mem (<[lo := c]> (hmem s1)) s1))|].
  - done.
  - by eapply slots_src_tail.
  - intros i. rewrite Hslot. lia.
  - by eapply heap_ok_writes.
  - assert (source m0 s1) as [Hs1 Hd1] by (eapply source_grown; [exact Hm0| |exact Hg|lia]; lia).
    split; [eapply writes_sub; [exact Hw2|done|exact Hdisj]|exact Hd1].
  - change (ptop (set_mem _ s1)) with (ptop s1). lia.
  - intros i Hi. apply (writes_dom _ _ _ _ Hw2), (writes_dom _ _ _ _ Hw1).
    replace (lo + 8 + 8 * i) with (lo + 8 * (1 + i)) by lia. apply Hmap. lia.
  - intros y w Hy. pose proof (Hdisj y w Hy). lia.
  - intros r s' Hf. eapply filled_step; [|exact Hg| |]; [done|rewrite zlen_cons; lia|].
    rewrite zlen_cons. by replace (lo + 8 * (1 + zlen xs)) with (lo + 8 + 8 * zlen xs) by lia.
Qed.

(** The key loop of a map copies words verbatim. *)
Lemma copy_keys_spec (key : mem -> Z -> res heap_full Term) slot m0 ks : forall i0 lo s,
  slots_src m0 key i0 ks -> (forall i, slot i = lo + 8 * (i - i0)) -> m0 ⊆ hmem s ->
  (forall i, 0 <= i < zlen ks -> is_Some (hmem s !! (lo + 8 * i))) ->
  (forall x w, m0 !! x = Some w -> ~ (lo <= x < lo + 8 * zlen ks)) ->
  exists m', for_each (seqZ i0 (zlen ks)) (fun i =>
      m ← gets hmem; k ← lift (key m i); store (slot i) k) s = (Ok tt, set_mem m' s) /\
    writes lo (lo + 8 * zlen ks) (hmem s) m' /\ slots_at m' lo ks.
Proof.
  induction ks as [|k ks IH]; intros i0 lo s Hsrc Hslot Hsub Hmap Hdisj.
  { exists (hmem s). split; [by destruct s|]. split; [apply writes_refl|done]. }
  pose proof (zlen_nonneg ks). rewrite seqZ_walk. rewrite zlen_cons in *.
  assert (slot i0 = lo) as Hs0 by (rewrite Hslot; lia).
  assert (is_Some (hmem s !! lo)) as Hm.
  { replace lo with (lo + 8 * 0) by lia. apply Hmap. lia. }
  assert (writes lo (lo + 8 * (1 + zlen ks)) (hmem s) (<[lo := k]> (hmem s))) as Hw1
    by (apply writes_insert; [lia|done]).
  destruct (IH (Z.succ i0) (lo + 8) (set_mem (<[lo := k]> (hmem s)) s)) as (m' & He & Hw & Hs).
  - by eapply slots_src_tail.
  - intros i. rewrite Hslot. lia.
  - by eapply writes_sub.
  - intros i Hi. apply (writes_dom _ _ _ _ Hw1).
    replace (lo + 8 + 8 * i) with (lo + 8 * (1 + i)) by lia. apply Hmap. lia.
  - intros y w Hy. pose proof (Hdisj y w Hy). lia.
  - exists m'. split_and!.
    + cbn [for_each]. erewrite bind_eval; [exact He|].
      pose proof (Hsrc (hmem s) 0 k Hsub eq_refl) as Hk. rewrite Z.add_0_r in Hk.
      unfold mbind, M_bind. simpl. rewrite Hk. simpl. rewrite Hs0. by apply store_ok.
    + eapply writes_trans; [exact Hw1|]. eapply writes_weaken; [exact Hw|lia|lia].
    + split; [|done]. rewrite (writes_out _ _ _ _ Hw) by lia. apply lookup_insert_eq.
Qed.

(** What the loop leaves behind, seen from before the block was allocated. *)
Lemma filled_grown {A} (x : A) (R : mem -> A -> Prop) nb n lo hi P m1 s r s' :
  heap_ok s -> 0 <= nb -> 0 <= n -> top (hp s) + nb <= cap_words (hp s) ->
  writes (ptop s) (ptop s + 8 * nb) (hmem s) m1 ->
  ptop s <= lo <= ptop s + 8 * nb -> hi <= ptop s + 8 * nb ->
  filled lo hi n P (set_mem m1 (bump nb s)) r s' ->
  (forall m, (forall y, ptop s <= y < lo -> m !! y = m1 !! y) ->
     (exists ys m2, slots_at m lo ys /\ m2 ⊆ region (ptop s) (ptop s + 8 * (nb + n)) m /\ P m2 ys) ->
     R (region (ptop s) (ptop s + 8 * (nb + n)) m) x) ->
  match r with
  | Ok _ => grown (nb + n) R s (Ok x : res heap_full A) s'
  | Err e => grown (nb + n) R s (Err e : res heap_full A) s'
  | _ => False
  end.
Proof.
  intros Hok Hnb Hn Hfit Hw1 Hlo Hhi [Hok' [Hb Hc] Hout Hdom Hres] HR. simpl in *.
  assert (writes (ptop s) (pend s) (hmem s) (hmem s')) as Hw.
  { assert (ptop s + 8 * nb <= pend s) by (unfold ptop, pend; lia). split.
    - intros y Hy. rewrite Hout; [apply (writes_out _ _ _ _ Hw1); lia|lia|].
      unfold ptop, pend in *. simpl. lia.
    - intros y Hy. by apply Hdom, (writes_dom _ _ _ _ Hw1). }
  destruct r as [u|e| |]; [|split_and!; try done; lia|done..].
  destruct Hres as (Ht & ys & Hys & HP). split_and!; [done|done|done|lia|].
  assert (ptop s' = ptop s + 8 * (nb + n)) as Hpt by (unfold ptop; rewrite Hb, Ht; lia).
  rewrite Hpt. apply HR.
  - intros y Hy. apply Hout; [lia|]. unfold ptop, pend in *. simpl. lia.
  - exists ys. eexists. split_and!; [done| |exact HP].
    apply region_mono; [unfold ptop; simpl; lia|rewrite Hpt; lia|done].
Qed.

Lemma copied_imm fuel w : copied (VImm w) (copy_term (S fuel)).
Proof.
  intros m0 t s Hr Hok Hsrc. cbn [copy_term]. apply wp_bind, wp_gets, wp_bind, wp_lift.
  apply repr_inv in Hr as [-> Hi]. destruct (imm_kind (E:=heap_full) (hmem s) w Hi) as (k & -> & Hk).
  assert (grown 0 (fun m x => repr m (VImm w) x) s (Ok w : res heap_full Z) s).
  { split_and!; [done|by split|apply writes_refl|lia|by constructor]. }
  destruct k; try (by apply wp_ret); set_solver.
Qed.

Lemma copied_bin fuel bs : copied (VBin bs) (copy_term (S fuel)).
Proof.
  intros m0 t s Hr Hok [Hsub _]. cbn [copy_term]. apply wp_bind, wp_gets, wp_bind, wp_lift.
  apply (repr_mono _ _ _ _ Hsub) in Hr.
  destruct (repr_kind (E:=heap_full) _ _ _ Hr) as (k & -> & ->).
  apply repr_inv in Hr. apply wp_bind, wp_lift. rewrite (bin_at_bytes _ _ _ Hr).
  eapply wp_mono; [by apply grows_binary|]. intros r s' (?&?&?&H). split_and!; [done..|].
  destruct r; [|done..]. destruct H. split; [done|by constructor].
Qed.

Lemma block_disjoint m0 s nb lo :
  source m0 s -> top (hp s) + nb <= cap_words (hp s) -> ptop s <= lo ->
  forall x w, m0 !! x = Some w -> ~ (lo <= x < ptop s + 8 * nb).
Proof. intros [_ Hd] ?? x w Hx ?. apply (Hd x w Hx). unfold ptop, pend in *. lia. Qed.

(** The state once a block of [nb] words is taken and only it was written. *)
Lemma source_block m0 s nb m1 :
  source m0 s -> 0 <= nb -> top (hp s) + nb <= cap_words (hp s) ->
  writes (ptop s) (ptop s + 8 * nb) (hmem s) m1 -> source m0 (set_mem m1 (bump nb s)).
Proof.
  intros Hs Hnb Hfit Hw. split.
  - simpl. eapply writes_sub; [exact Hw|apply Hs|]. intros x w Hx. eapply block_disjoint; eauto. lia.
  - intros x w Hx ?. apply (proj2 Hs x w Hx). unfold ptop, pend in *. simpl in *. lia.
Qed.

Lemma zsum_vsize_nonneg vs : 0 <= zsum (map vsize vs).
Proof. apply zsum_nonneg, Forall_forall. intros. apply vsize_nonneg. Qed.

(** The last [zlen xs] words of a block are filled with copies and its address
    is returned. *)
Lemma copy_block copy elem slot m0 vs xs nb m1 s (R : mem -> Z -> Prop) :
  Forall2 (repr m0) vs xs -> Forall (fun v => copied v copy) vs -> slots_src m0 elem 0 xs ->
  heap_ok s -> source m0 s -> zlen xs < nb -> top (hp s) + nb <= cap_words (hp s) ->
  (forall i, slot i = ptop s + 8 * (nb - zlen xs + i)) ->
  writes (ptop s) (ptop s + 8 * nb) (hmem s) m1 ->
  (forall m ys m2, (forall y, ptop s <= y < slot 0 -> m !! y = m1 !! y) ->
     slots_at m (slot 0) ys -> length ys = length xs ->
     m2 ⊆ region (ptop s) (ptop s + 8 * (nb + zsum (map vsize vs))) m -> Forall2 (repr m2) vs ys ->
     R (region (ptop s) (ptop s + 8 * (nb + zsum (map vsize vs))) m) (ptop s)) ->
  wp (_ ← copy_slots copy elem slot (seqZ 0 (zlen xs)); mret (ptop s))
     (grown (nb + zsum (map vsize vs)) R s) (set_mem m1 (bump nb s)).
Proof.
  intros Hall Hcop Hsrc Hok Hm0 Hnb Hfit Hslot Hw1 HR. pose proof (zlen_nonneg xs).
  pose proof (zsum_vsize_nonneg vs). pose proof (Hslot 0) as Hs0.
  apply wp_bind. eapply wp_mono.
  { apply (copy_slots_spec _ _ _ m0 vs xs 0 (slot 0) (set_mem m1 (bump nb s))); [done|done|done|..].
    - intros i. rewrite (Hslot i). lia.
    - eapply heap_ok_writes; [exact Hw1|]. by apply heap_ok_bump; [|lia|].
    - apply source_block; [done|lia|done|done].
    - rewrite Hs0. unfold ptop. simpl. lia.
    - intros i Hi. apply (writes_dom _ _ _ _ Hw1). rewrite Hs0.
      replace (ptop s + 8 * (nb - zlen xs + 0) + 8 * i) with (ptop s + 8 * (nb - zlen xs + i)) by lia.
      eapply ptop_mapped; [done| |exact Hfit]. lia.
    - intros x w Hx. pose proof (block_disjoint m0 s nb (slot 0) Hm0 Hfit ltac:(lia) x w Hx). lia. }
  intros r s' Hf. apply (filled_grown (ptop s) R nb) in Hf; [|done|lia|done|done|done|lia|lia|].
  { by destruct r. }
  intros m Hm (ys & m2 & Hys & Hsub & Hr2). apply (HR m ys m2); [done|done| |done|done].
  by rewrite <- (Forall2_length _ _ _ Hr2), <- (Forall2_length _ _ _ Hall).
Qed.

(** The header of the block, seen in the words the whole copy allocated. *)
Lemma boxed_block s n nb k z m :
  heap_ok s -> 0 <= n < nb -> 0 <= z -> top (hp s) + nb <= cap_words (hp s) ->
  m !! ptop s = Some (header n k) -> boxed (region (ptop s) (ptop s + 8 * (nb + z)) m) (ptop s) k n.
Proof.
  intros Hok Hn Hz Hfit Hm. eapply boxed_mono; [|by apply (boxed_fresh s n nb)].
  apply region_mono; [lia|lia|done].
Qed.

Lemma copied_tuple fuel vs :
  Forall (fun v => copied v (copy_term fuel)) vs -> copied (VTuple vs) (copy_term (S fuel)).
Proof.
  intros IH m0 t s Hr Hok Hsrc. cbn [copy_term]. apply wp_bind, wp_gets, wp_bind, wp_lift.
  pose proof (repr_mono _ _ _ _ (proj1 Hsrc) Hr) as Hr'.
  destruct (repr_kind (E:=heap_full) _ _ _ Hr') as (k & -> & ->).
  apply repr_inv in Hr as (xs & Ht & Hall). pose proof (tuple_at_mono _ _ (proj1 Hsrc) _ _ Ht) as Ht'.
  apply wp_bind, wp_lift. rewrite (tuple_at_arity _ _ _ Ht').
  pose proof (zlen_nonneg xs). assert (zlen vs = zlen xs) as Hl by (apply zlen_inj; by eapply Forall2_length).
  pose proof (zsum_vsize_nonneg vs) as Hz. cbn [vsize]. rewrite Hl.
  apply wp_bind, wp_alloc; [intros; apply grown_full; [done|lia]|]. intros Hfit.
  assert (is_Some (hmem s !! ptop s)) as Hp0.
  { replace (ptop s) with (ptop s + 8 * 0) by lia. eapply ptop_mapped; [done| |exact Hfit]. lia. }
  apply wp_bind, wp_store; [done|]. eapply (copy_block _ _ _ m0); try done.
  - intros m i x Hm Hx. rewrite Z.add_0_l. eapply tuple_at_elem; [by eapply tuple_at_mono|done].
  - lia.
  - intros i. lia.
  - apply writes_insert; [lia|done].
  - intros m ys m2 Hm Hys Hly Hsub Hr2. apply zlen_inj in Hly.
    apply (repr_tuple _ _ ys); [|eapply Forall2_impl; [exact Hr2|]; intros ??; by apply repr_mono].
    split.
    + rewrite Hly. apply boxed_block; [done|lia|done|done|]. rewrite Hm by lia. apply lookup_insert_eq.
    + replace (ptop s + 8) with (ptop s + 8 * (1 + 0)) by lia. apply slots_at_region; [done|lia|lia].
Qed.

Lemma copied_map fuel ks vs :
  Forall (fun v => copied v (copy_term fuel)) vs -> copied (VMap ks vs) (copy_term (S fuel)).
Proof.
  intros IH m0 t s Hr Hok Hsrc. cbn [copy_term]. apply wp_bind, wp_gets, wp_bind, wp_lift.
  pose proof (repr_mono _ _ _ _ (proj1 Hsrc) Hr) as Hr'.
  destruct (repr_kind (E:=heap_full) _ _ _ Hr') as (k & -> & ->).
  apply repr_inv in Hr as (xs & Ht & Hks & Hall).
  pose proof (map_at_mono _ _ (proj1 Hsrc) _ _ _ Ht) as Ht'.
  apply wp_bind, wp_lift. rewrite (map_at_arity _ _ _ _ Ht').
  pose proof (zlen_nonneg ks). assert (zlen xs = zlen ks) as Hl by (apply zlen_inj, Ht).
  pose proof (zsum_vsize_nonneg vs) as Hz. cbn [vsize]. set (nb := 1 + 2 * zlen ks).
  apply wp_bind, wp_alloc; [intros; apply grown_full; [done|lia]|]. intros Hfit.
  assert (forall i, 0 <= i < nb -> is_Some (hmem s !! (ptop s + 8 * i))) as Hp.
  { intros i Hi. eapply ptop_mapped; [done|exact Hi|exact Hfit]. }
  assert (is_Some (hmem s !! ptop s)) as Hp0.
  { replace (ptop s) with (ptop s + 8 * 0) by lia. apply Hp. lia. }
  apply wp_bind, wp_store; [done|].
  set (m1 := <[ptop s := header (zlen ks) KIND_MAP]> (hmem (bump nb s))).
  assert (writes (ptop s) (ptop s + 8 * nb) (hmem s) m1) as Hw1 by (apply writes_insert; [lia|done]).
  destruct (copy_keys_spec (fun m i => map_key m t i) (fun i => ptop s + 8 * (1 + i)) m0 ks 0 (ptop s + 8)
    (set_mem m1 (bump nb s))) as (m2 & He & Hw2 & Hsl2).
  { intros m i x Hm Hx. rewrite Z.add_0_l. eapply map_at_key; [by eapply map_at_mono|done]. }
  { intros i. lia. }
  { apply (source_block m0 s nb m1 Hsrc ltac:(lia) Hfit Hw1). }
  { intros i Hi. apply (writes_dom _ _ _ _ Hw1).
    replace (ptop s + 8 + 8 * i) with (ptop s + 8 * (1 + i)) by lia. apply Hp. lia. }
  { intros x w Hx. pose proof (block_disjoint m0 s nb (ptop s + 8) Hsrc Hfit ltac:(lia) x w Hx). lia. }
  apply wp_bind. unfold wp at 1. rewrite He. cbn [fst snd]. rewrite <- Hl.
  change (set_mem m2 (set_mem m1 (bump nb s))) with (set_mem m2 (bump nb s)).
  eapply (copy_block _ _ _ m0); try done.
  - intros m i x Hm Hx. rewrite Z.add_0_l. eapply map_at_val; [by eapply map_at_mono|done].
  - lia.
  - intros i. lia.
  - eapply writes_trans; [exact Hw1|]. eapply writes_weaken; [exact Hw2|lia|lia].
  - intros m ys m3 Hm Hys Hly Hsub Hr2. apply zlen_inj in Hly.
    apply (repr_map _ _ _ ys); [|done|eapply Forall2_impl; [exact Hr2|]; intros ??; by apply repr_mono].
    split_and!.
    + apply boxed_block; [done|lia|done|done|]. rewrite Hm, (writes_out _ _ _ _ Hw2) by lia.
      apply lookup_insert_eq.
    + apply zlen_inj. lia.
    + apply slots_at_region; [|lia|lia]. rewrite slots_at_lookup in *. intros i x Hx.
      pose proof (lookupz_range _ _ _ Hx). rewrite Hm by lia. by apply Hsl2.
    + replace (ptop s + 8 * (1 + zlen ks)) with (ptop s + 8 * (1 + zlen xs + 0)) by lia.
      apply slots_at_region; [done|lia|lia].
Qed.

(** ** Lists *)

(** The part of the cons case after the spine was collected. *)
Definition copy_list (copy : Term -> HM Term) (cells : list Term) (last : Term) : HM Term :=
  tl ← copy last; copy_cells copy (rev cells) tl.

Lemma copy_cells_snoc copy cells c tl s :
  copy_cells copy (cells ++ [c]) tl s =
  (tl' ← copy_cells copy cells tl; m ← gets hmem; e ← lift (head m c); h ← copy e; cons h tl') s.
Proof.
  revert tl s. induction cells as [|d cells IH]; intros tl s; cbn [app copy_cells].
  - unfold mbind, M_bind. simpl. destruct (head (hmem s) c) as [e| | |]; simpl; try done.
    destruct (copy e s) as [[h| | |] s1]; simpl; try done. by destruct (cons h tl s1) as [[?|?| |] ?].
  - unfold mbind, M_bind in *. simpl. destruct (head (hmem s) d) as [e| | |]; simpl; try done.
    destruct (copy e s) as [[h| | |] s1]; simpl; try done.
    destruct (cons h tl s1) as [[tl'|?| |] s2]; simpl; try done. apply IH.
Qed.

Lemma copy_list_cons copy c cells last s :
  copy_list copy (c :: cells) last s =
  (tl ← copy_list copy cells last; m ← gets hmem; e ← lift (head m c); h ← copy e; cons h tl) s.
Proof.
  unfold copy_list. cbn [rev]. rewrite bind_assoc. apply bind_ext. intros tl s'. apply copy_cells_snoc.
Qed.

(** What a list value offers: its spine, and that copying it cell by cell works. *)
Definition copied_spine (v : val) (copy : Term -> HM Term) : Prop := forall m0 t,
  repr m0 v t -> exists cells last,
    (forall s fuel, m0 ⊆ hmem s -> (vspine v <= fuel)%nat -> spine fuel t s = (Ok (cells, last), s)) /\
    (forall s, heap_ok s -> source m0 s ->
       grows (copy_list copy cells last) (vsize v) (fun m x => repr m v x) s).

Lemma copied_spine_end v copy : (forall h t, v <> VCons h t) -> copied v copy -> copied_spine v copy.
Proof.
  intros Hv Hc m0 t Hr. exists [], t. split.
  - intros s [|fuel] Hsub Hf; [destruct v; simpl in Hf; lia|]. cbn [spine].
    pose proof (repr_mono _ _ _ _ Hsub Hr) as Hr'.
    destruct (repr_kind (E:=heap_full) _ _ _ Hr') as (k & Hk & Hkv).
    unfold mbind, M_bind. simpl. rewrite Hk. simpl. rewrite bool_decide_false; [done|].
    intros ->. destruct v; try done; [set_solver|naive_solver].
  - intros s Hok Hsrc. unfold copy_list. apply wp_bind. eapply wp_mono; [by apply (Hc m0)|].
    by intros [x|e| |] s'.
Qed.

Lemma copied_spine_cons h t copy :
  copied h copy -> copied_spine t copy -> copied_spine (VCons h t) copy.
Proof.
  intros Hh Ht m0 a Hr. apply repr_inv in Hr as Hr0. destruct Hr0 as (x & y & Hc & Hx & Hy).
  destruct (Ht m0 y Hy) as (cells & last & Hsp & Hcp). exists (a :: cells), last. split.
  - intros s [|fuel] Hsub Hf; simpl in Hf; [lia|]. cbn [spine].
    pose proof (repr_mono _ _ _ _ Hsub Hr) as Hr'.
    destruct (repr_kind (E:=heap_full) _ _ _ Hr') as (k & Hk & ->).
    unfold mbind, M_bind. simpl. rewrite Hk. simpl.
    rewrite (cons_at_tail _ _ _ _ (cons_at_mono _ _ Hsub _ _ _ Hc)). simpl.
    rewrite Hsp by (done || lia). done.
  - intros s Hok Hsrc. unfold grows, wp. rewrite copy_list_cons.
    change (wp (tl ← copy_list copy cells last; m ← gets hmem; e ← lift (head m a); h' ← copy e; cons h' tl)
      (grown (vsize (VCons h t)) (fun m x => repr m (VCons h t) x) s) s).
    pose proof (vsize_nonneg h). pose proof (vsize_nonneg t).
    replace (vsize (VCons h t)) with (vsize t + (vsize h + 3)) by (simpl; lia).
    eapply (grows_bind _ _ _ _ (fun m z => repr m t z)
      (fun tl m z => exists hd, repr m h hd /\ cons_at m z hd tl)); [lia|lia|by apply Hcp| |].
    + intros tl s1 Hg. assert (source m0 s1) as Hs1.
      { eapply source_grown; [exact Hsrc| |exact Hg|]; [lia|]. destruct Hg as (_&_&_&Htop&_). lia. }
      apply wp_bind, wp_gets, wp_bind, wp_lift.
      rewrite (cons_at_head _ _ _ _ (cons_at_mono _ _ (proj1 Hs1) _ _ _ Hc)).
      eapply (grows_bind _ _ _ _ (fun m z => repr m h z) (fun hd m z => cons_at m z hd tl)); [lia|lia|..].
      * apply (Hh m0); [done|apply Hg|done].
      * intros hd s2 Hg2. apply grows_cons, Hg2.
      * intros hd m1 m2 m z H1 H2 S1 S2. exists hd. split; [exact (repr_mono _ _ _ _ S1 H1)|exact (cons_at_mono _ _ S2 _ _ _ H2)].
    + intros tl m1 m2 m z H1 (hd & H2 & H3) S1 S2.
      apply (repr_cons _ _ _ hd tl);
        [exact (cons_at_mono _ _ S2 _ _ _ H3)|exact (repr_mono _ _ _ _ S2 H2)|exact (repr_mono _ _ _ _ S1 H1)].
Qed.

Lemma copied_cons fuel h t :
  (vspine (VCons h t) <= fuel)%nat -> copied_spine (VCons h t) (copy_term fuel) ->
  copied (VCons h t) (copy_term (S fuel)).
Proof.
  intros Hf Hsp m0 a s Hr Hok Hsrc. cbn [copy_term]. apply wp_bind, wp_gets, wp_bind, wp_lift.
  pose proof (repr_mono _ _ _ _ (proj1 Hsrc) Hr) as Hr'.
  destruct (repr_kind (E:=heap_full) _ _ _ Hr') as (k & -> & ->).
  destruct (Hsp m0 a Hr) as (cells & last & Hs & Hc).
  apply wp_bind. unfold wp at 1. rewrite (Hs s fuel (proj1 Hsrc) Hf). by apply Hc.
Qed.

(** ** The whole copy *)

Definition copies (v : val) : Prop :=
  (forall fuel, (vfuel v <= fuel)%nat -> copied v (copy_term fuel)) /\
  (forall fuel, (vfuel v <= fuel)%nat -> copied_spine v (copy_term fuel)).

Lemma copies_list vs fuel :
  Forall copies vs -> (max_list (map vfuel vs) <= fuel)%nat ->
  Forall (fun v => copied v (copy_term fuel)) vs.
Proof.
  intros IH Hf. rewrite Forall_forall in *. intros v Hv. apply IH; [done|].
  pose proof (vfuel_elem v vs Hv). lia.
Qed.

Lemma copied_all v : copies v.
Proof.
  induction v as [w|vs IH|h t [IHh _] [_ IHt]|bs|ks vs IH] using val_induction.
  3: { assert (forall fuel, (Nat.max (vfuel h) (vfuel t) <= fuel)%nat ->
         copied_spine (VCons h t) (copy_term fuel)) as Hs.
       { intros fuel Hf. apply copied_spine_cons; [apply IHh|apply IHt]; lia. }
       split; intros fuel Hf; simpl in Hf; [|apply Hs; lia].
       destruct fuel as [|fuel]; [lia|]. pose proof (vspine_fuel t).
       apply copied_cons; [simpl; lia|apply Hs; lia]. }
  all: unfold copies; match goal with |- ?A /\ _ => assert A as HA;
    [|split; [exact HA|intros; apply copied_spine_end; [done|by apply HA]]] end;
    intros [|fuel] Hf; simpl in Hf; try lia.
  - apply copied_imm.
  - apply copied_tuple, copies_list; [done|lia].
  - apply copied_bin.
  - apply copied_map, copies_list; [done|lia].
Qed.

(** ** Properties *)

(** C6: [term_size_words] is exactly the number of words [copy_term] takes: for
    every well-formed source outside the destination's free words, and fuel for
    its nesting, the copy succeeds if and only if that many words are free; it
    then consumes exactly those, and the result denotes the same value using
    only the words just allocated. *)
Theorem copy_term_correct m0 v t s fuel :
  repr m0 v t -> heap_ok s -> source m0 s -> (vfuel v <= fuel)%nat ->
  term_size_words (E:=heap_full) fuel (hmem s) t = Ok (vsize v) /\
  if bool_decide (top (hp s) + vsize v <= cap_words (hp s))
  then exists t' s', copy_term fuel t s = (Ok t', s') /\
         top (hp s') = top (hp s) + vsize v /\
         repr (region (ptop s) (ptop s') (hmem s')) v t'
  else exists s', copy_term fuel t s = (Err HeapFull, s').
Proof.
  intros Hr Hok Hsrc Hf. split; [eapply term_size_repr, Hf; by eapply repr_mono, Hr; apply Hsrc|].
  pose proof (proj1 (copied_all v) fuel Hf m0 t s Hr Hok Hsrc) as Hg.
  unfold grows, wp in Hg. destruct (copy_term fuel t s) as [[t'|[]| |] s'] eqn:He;
    simpl in Hg; destruct Hg as (Hok' & [Hb Hc] & Hw & Hres); try done.
  - destruct Hres as [Ht Hrep]. rewrite bool_decide_true; [by exists t', s'|].
    destruct Hok' as [_ ? _ _]. lia.
  - rewrite bool_decide_false by lia. by exists s'.
Qed.

(** A deep copy never disturbs what already exists, whether it succeeds or
    runs out of heap: every word outside the destination's free span, the
    source and the terms below the destination's top included, keeps its
    contents, so every value it denoted before it still denotes. *)
Theorem copy_term_frame m0 v t s fuel m1 u x :
  repr m0 v t -> heap_ok s -> source m0 s -> (vfuel v <= fuel)%nat ->
  repr m1 u x -> source m1 s ->
  let s' := (copy_term fuel t s).2 in
  heap_ok s' /\ same_arena s s' /\
  (forall a, ~ (ptop s <= a < pend s) -> hmem s' !! a = hmem s !! a) /\ repr (hmem s') u x.
Proof.
  intros Hr Hok Hsrc Hf Hu Hsu.
  pose proof (proj1 (copied_all v) fuel Hf m0 t s Hr Hok Hsrc) as (Hok' & Ha & Hw & _).
  simpl. split_and!; [done|done|apply Hw|].
  eapply repr_mono; [|exact Hu]. eapply writes_sub; [exact Hw|apply Hsu|apply Hsu].
Qed.

(** A destination heap of 32 words beside the sample memory. *)
Definition sample_heap (words : Z) : HS :=
  {| hmem := put_words 65536 (replicate (Z.to_nat words) 0) sample_mem; hp := Heap_new 65536 (8 * words) |}.

Lemma sample_heap_ok : heap_ok (sample_heap 32).
Proof.
  split; [by vm_compute|by vm_compute|by vm_compute|].
  intros i Hi. change (0 <= i < 32) in Hi.
  assert (Forall (fun i => is_Some (hmem (sample_heap 32) !! (65536 + 8 * i))) (seqZ 0 32)) as Hall.
  { apply (bool_decide_unpack _). by vm_compute. }
  rewrite Forall_forall in Hall. apply Hall. apply elem_of_seqZ. lia.
Qed.

Lemma sample_source : source sample_mem (sample_heap 32).
Proof.
  split.
  - apply map_subseteq_spec. apply (map_Forall_to_list (fun x w => hmem (sample_heap 32) !! x = Some w)).
    vm_compute. repeat constructor.
  - intros x w Hx. assert (map_Forall (fun x _ => x < 65536) sample_mem) as H.
    { apply (bool_decide_unpack _). by vm_compute. }
    specialize (H x w Hx). unfold ptop, sample_heap, Heap_new. simpl in *. lia.
Qed.

Lemma copy_term_correct_witness :
  exists t' s', copy_term 10 4096 (sample_heap 32) = (Ok t', s') /\
    top (hp s') = 12 /\ repr (region 65536 (ptop s') (hmem s')) sample_val t'.
Proof.
  destruct (copy_term_correct sample_mem sample_val 4096 (sample_heap 32) 10
    (sample_repr 4096 (or_introl eq_refl)) sample_heap_ok sample_source ltac:(vm_compute; lia)) as [_ H].
  exact H.
Defined.

Lemma copy_term_frame_witness :
  repr (hmem (copy_term 10 4096 (sample_heap 32)).2) sample_val 8192.
Proof.
  destruct (copy_term_frame sample_mem sample_val 4096 (sample_heap 32) 10 sample_mem sample_val 8192
    (sample_repr 4096 (or_introl eq_refl)) sample_heap_ok sample_source ltac:(vm_compute; lia)
    (sample_repr 8192 (or_intror eq_refl)) sample_source) as (_ & _ & _ & H).
  exact H.
Defined.
