(* ===== verification/TermMap.v ===== *)
(** * TermMap: flat maps

    The maps of [crates/ygg-term] against their abstract specification, finite
    maps from key words to value words: [map_from_pairs] builds the map in which
    the last duplicate wins, [map_put] is insertion, and the binary search of
    [map_get] is lookup. *)

From S2P Require Import Prelude Term TermImm TermHeap TermVal TermCopy.
From Stdlib Require Import Sorted.

(** The pairs as a finite map; the last binding of a key counts. *)
Definition last_wins (l : list (Z * Z)) : gmap Z Z := list_to_map (reverse l).

(** The map a boxed word denotes: strictly sorted immediate keys. *)
Definition map_denotes (m : mem) (t : Z) (M : gmap Z Z) : Prop :=
  exists kvs, map_at m t kvs.*1 kvs.*2 /\ StronglySorted Z.lt kvs.*1 /\
    Forall (fun k => is_boxed k = false) kvs.*1 /\ list_to_map kvs = M.

(** ** Lookup in association lists *)

Lemma list_to_map_filter (l : list (Z * Z)) k :
  (list_to_map l : gmap Z Z) !! k = snd <$> list.head (filter (fun p => p.1 = k) l).
Proof.
  induction l as [|[k' v] l IH]; [done|]. simpl. rewrite filter_cons. simpl. case_decide as H.
  - subst. by rewrite lookup_insert_eq.
  - by rewrite lookup_insert_ne.
Qed.

Lemma last_wins_filter l k :
  last_wins l !! k = snd <$> last (filter (fun p => p.1 = k) l).
Proof. unfold last_wins. rewrite list_to_map_filter, filter_reverse, head_reverse. done. Qed.

Lemma sorted_lt_NoDup l : StronglySorted Z.lt l -> NoDup l.
Proof.
  induction 1 as [|x l _ IH Hx]; constructor; [|done].
  intros Hin. rewrite Forall_forall in Hx. specialize (Hx x Hin). lia.
Qed.

(** ** The stable sort *)

Definition key_le (p q : Z * Z) : Prop := p.1 <= q.1.

Lemma insert_pair_Permutation x l : insert_pair x l ≡ₚ x :: l.
Proof.
  induction l as [|y l IH]; [done|]. simpl. case_bool_decide; [done|]. rewrite IH. constructor.
Qed.

Lemma insert_pair_sorted x l : StronglySorted key_le l -> StronglySorted key_le (insert_pair x l).
Proof.
  induction 1 as [|y l Hl IH Hy]; simpl; [by repeat constructor|].
  case_bool_decide as Hxy.
  - constructor; [by constructor|]. constructor; [done|].
    eapply Forall_impl; [exact Hy|]. unfold key_le. intros. lia.
  - constructor; [done|]. rewrite insert_pair_Permutation. constructor; [unfold key_le; lia|done].
Qed.

Lemma sort_by_key_sorted l : StronglySorted key_le (sort_by_key l).
Proof. induction l; simpl; [constructor|by apply insert_pair_sorted]. Qed.

Lemma sort_by_key_Permutation l : sort_by_key l ≡ₚ l.
Proof. induction l as [|x l IH]; simpl; [done|]. by rewrite insert_pair_Permutation, IH. Qed.

Lemma insert_pair_stable x l k :
  filter (fun p => p.1 = k) (insert_pair x l) = filter (fun p => p.1 = k) (x :: l).
Proof.
  induction l as [|y l IH]; [done|]. cbn [insert_pair]. case_bool_decide as Hxy; [done|].
  rewrite filter_cons, IH, !filter_cons. repeat case_decide; try done. lia.
Qed.

Lemma sort_by_key_stable l k :
  filter (fun p => p.1 = k) (sort_by_key l) = filter (fun p => p.1 = k) l.
Proof.
  induction l as [|x l IH]; [done|]. cbn [sort_by_key foldr]. fold (sort_by_key l).
  rewrite insert_pair_stable, !filter_cons, IH. done.
Qed.

(** ** Deduplication *)

(** One element of the sorted list enters the result. *)
Definition keep (acc : list (Z * Z)) (p : Z * Z) : list (Z * Z) :=
  match last acc with
  | Some q => if decide (q.1 = p.1) then removelast acc ++ [p] else acc ++ [p]
  | None => [p]
  end.

Definition keep_all (l : list (Z * Z)) : list (Z * Z) := foldl keep [] l.

Lemma keep_all_snoc l p : keep_all (l ++ [p]) = keep (keep_all l) p.
Proof. unfold keep_all. by rewrite foldl_app. Qed.

Lemma length_keep acc p : (length acc <= length (keep acc p) <= S (length acc))%nat.
Proof.
  unfold keep. destruct acc as [|q acc _] using rev_ind; [simpl; lia|].
  rewrite last_snoc. case_decide; rewrite ?removelast_last, !length_app; simpl; lia.
Qed.

Lemma length_keep_all l : (length (keep_all l) <= length l)%nat.
Proof.
  induction l as [|p l IH] using rev_ind; [done|]. rewrite keep_all_snoc, length_app.
  pose proof (length_keep (keep_all l) p). simpl. lia.
Qed.

(** The in-place loop: a kept prefix, then leftovers, then the part still to read. *)
Lemma dedup_step_spec l p l' k :
  length k = (length l - length (keep_all l))%nat ->
  dedup_step (zlen (keep_all l), keep_all l ++ k ++ p :: l') (zlen l) =
  (zlen (keep_all (l ++ [p])),
   keep_all (l ++ [p]) ++ drop (length (keep_all (l ++ [p])) - length (keep_all l)) (k ++ [p]) ++ l').
Proof.
  intros Hk. pose proof (length_keep_all l) as Hle. rewrite keep_all_snoc.
  set (acc := keep_all l) in *. unfold dedup_step.
  assert (lookupz (acc ++ k ++ p :: l') (zlen l) = Some p) as ->.
  { apply lookupz_Some. split; [apply zlen_nonneg|]. unfold zlen. rewrite Nat2Z.id, app_assoc.
    apply list_lookup_middle. rewrite length_app. lia. }
  unfold keep. destruct acc as [|q acc' _] using rev_ind.
  { simpl. rewrite zlen_nil. unfold insertz. rewrite bool_decide_true by (unfold zlen; rewrite length_app; simpl; lia).
    destruct k as [|r k]; simpl; [done|]. by rewrite drop_0, <- app_assoc. }
  assert (zlen (acc' ++ [q]) - 1 = zlen acc') as Hz by (unfold zlen; rewrite length_app; simpl; lia).
  rewrite last_snoc, Hz, (bool_decide_true (0 < _)) by (unfold zlen; rewrite length_app; simpl; lia).
  rewrite lookupz_app_l, lookupz_app_r by (unfold zlen; rewrite length_app; simpl; lia). simpl.
  case_decide as Hq.
  - rewrite bool_decide_true by (by rewrite Hq). rewrite removelast_last.
    replace (length (acc' ++ [p]) - length (acc' ++ [q]))%nat with 0%nat by (rewrite !length_app; simpl; lia).
    rewrite drop_0. f_equal; [unfold zlen; rewrite !length_app; done|].
    unfold insertz. rewrite bool_decide_true by (unfold zlen; rewrite !length_app; simpl; lia).
    unfold zlen. rewrite Nat2Z.id, <- !app_assoc. rewrite insert_app_r_alt by lia.
    by rewrite Nat.sub_diag.
  - rewrite bool_decide_false by congruence.
    replace (length ((acc' ++ [q]) ++ [p]) - length (acc' ++ [q]))%nat with 1%nat by (rewrite !length_app; simpl; lia).
    f_equal; [unfold zlen; rewrite !length_app; simpl; lia|].
    unfold insertz. rewrite bool_decide_true by (unfold zlen; rewrite !length_app; simpl; lia).
    unfold zlen. rewrite Nat2Z.id, insert_app_r_alt by lia. rewrite Nat.sub_diag, <- !app_assoc.
    destruct k as [|r k]; simpl; [done|]. by rewrite drop_0, <- !app_assoc.
Qed.

(** The whole loop: the result in front, and behind it what was there. *)
Lemma dedup_spec l : dedup l = (zlen (keep_all l), keep_all l ++ drop (length (keep_all l)) l).
Proof.
  assert (forall l' l0 : list (Z * Z), foldl dedup_step
      (zlen (keep_all l0), keep_all l0 ++ drop (length (keep_all l0)) (l0 ++ l')) (seqZ (zlen l0) (zlen l')) =
      (zlen (keep_all (l0 ++ l')), keep_all (l0 ++ l') ++ drop (length (keep_all (l0 ++ l'))) (l0 ++ l'))) as H.
  { induction l' as [|p l' IH]; intros l0; [by rewrite app_nil_r|].
    rewrite seqZ_walk. cbn [foldl]. pose proof (length_keep_all l0).
    rewrite (drop_app_le l0) by done. rewrite dedup_step_spec by (by rewrite length_drop).
    replace (Z.succ (zlen l0)) with (zlen (l0 ++ [p])) by (rewrite zlen_app; unfold zlen; simpl; lia).
    replace (l0 ++ p :: l') with ((l0 ++ [p]) ++ l') by (by rewrite <- app_assoc).
    rewrite <- (IH (l0 ++ [p])). do 3 f_equal.
    pose proof (length_keep_all (l0 ++ [p])) as Hle. rewrite (drop_app_le (l0 ++ [p])) by done.
    f_equal. rewrite <- (drop_app_le l0 [p]) by done. rewrite drop_drop. f_equal.
    rewrite keep_all_snoc. pose proof (length_keep (keep_all l0) p). lia. }
  apply (H l []).
Qed.

Lemma sorted_snoc {A} (R : relation A) l x :
  StronglySorted R (l ++ [x]) <-> StronglySorted R l /\ Forall (fun y => R y x) l.
Proof.
  induction l as [|y l IH]; simpl.
  { split; intros _; repeat constructor. }
  split.
  - intros [Hs Hf]%StronglySorted_inv. apply IH in Hs as [Hs Hx].
    apply Forall_app in Hf as [Hf Hy]. rewrite Forall_singleton in Hy. by split; constructor.
  - intros [[Hs Hf]%StronglySorted_inv [Hy Hx]%Forall_cons]. constructor; [by apply IH|].
    apply Forall_app. by split; [|apply Forall_singleton].
Qed.

Lemma keys_not_in (acc : list (Z * Z)) k : Forall (fun r => r.1 < k) acc -> k ∉ acc.*1.
Proof.
  intros H (r & -> & Hin)%list_elem_of_fmap. rewrite Forall_forall in H. specialize (H r Hin). lia.
Qed.

(** On a sorted list the kept pairs have strictly increasing keys and the
    bindings of the whole list. *)
Lemma keep_sorted acc p :
  StronglySorted Z.lt acc.*1 -> Forall (fun q => key_le q p) acc ->
  StronglySorted Z.lt (keep acc p).*1 /\ list_to_map (keep acc p) = <[p.1 := p.2]> (list_to_map acc : gmap Z Z).
Proof.
  intros Hs Hle. unfold keep. destruct acc as [|[k' v'] acc _] using rev_ind.
  { split; [by repeat constructor|]. by destruct p. }
  rewrite last_snoc. apply Forall_app in Hle as [_ Hq]. rewrite Forall_singleton in Hq. unfold key_le in Hq.
  rewrite fmap_app in Hs. apply sorted_snoc in Hs as [Hs Hlt]. rewrite Forall_fmap in Hlt.
  destruct p as [k v]; simpl in *. case_decide as He.
  - rewrite removelast_last, fmap_app. subst k'. split; [by apply sorted_snoc; rewrite Forall_fmap|].
    rewrite !list_to_map_snoc by (by apply keys_not_in). by rewrite insert_insert_eq.
  - assert (Forall (fun r => r.1 < k) (acc ++ [(k', v')])) as Hk.
    { apply Forall_app. split; [|apply Forall_singleton; simpl; lia].
      eapply Forall_impl; [exact Hlt|]. simpl. intros. lia. }
    rewrite fmap_app. split; [|by apply list_to_map_snoc, keys_not_in].
    apply sorted_snoc. split; [|by rewrite Forall_fmap].
    rewrite fmap_app. apply sorted_snoc. by rewrite Forall_fmap.
Qed.

Lemma keep_incl acc p q : q ∈ keep acc p -> q ∈ acc \/ q = p.
Proof.
  unfold keep. destruct acc as [|r acc _] using rev_ind; [set_solver|].
  rewrite last_snoc. case_decide; rewrite ?removelast_last; set_solver.
Qed.

Lemma keep_all_incl l q : q ∈ keep_all l -> q ∈ l.
Proof.
  induction l as [|p l IH] using rev_ind; [done|]. rewrite keep_all_snoc.
  intros [?| ->]%keep_incl; set_solver.
Qed.

Lemma keep_all_sorted l :
  StronglySorted key_le l ->
  StronglySorted Z.lt (keep_all l).*1 /\ list_to_map (keep_all l) = last_wins l.
Proof.
  induction l as [|p l IH] using rev_ind; [intros _; split; [constructor|done]|].
  intros [Hs Hp]%sorted_snoc. destruct (IH Hs) as [Hk Hm]. rewrite keep_all_snoc.
  destruct (keep_sorted (keep_all l) p) as [H1 H2]; [done| |].
  { rewrite Forall_forall in *. intros q Hq. by apply Hp, keep_all_incl. }
  split; [done|]. rewrite H2, Hm. unfold last_wins. rewrite reverse_app. by destruct p.
Qed.

Lemma last_wins_sort l : last_wins (sort_by_key l) = last_wins l.
Proof. apply map_eq. intros k. by rewrite !last_wins_filter, sort_by_key_stable. Qed.

(** The pairs [map_from_pairs] writes. *)
Definition kept (pairs : list (Z * Z)) : list (Z * Z) := keep_all (sort_by_key pairs).

Lemma kept_spec pairs :
  StronglySorted Z.lt (kept pairs).*1 /\ list_to_map (kept pairs) = last_wins pairs /\
  zlen (kept pairs) = Z.of_nat (size (last_wins pairs)) /\
  take (Z.to_nat (sorted_pairs pairs).1) (sorted_pairs pairs).2 = kept pairs /\
  (sorted_pairs pairs).1 = zlen (kept pairs).
Proof.
  destruct (keep_all_sorted (sort_by_key pairs) (sort_by_key_sorted pairs)) as [Hs Hm].
  rewrite last_wins_sort in Hm. split_and!; [done|done| | |].
  - rewrite <- Hm. unfold kept, zlen. f_equal. symmetry. apply map_size_list_to_map. by apply sorted_lt_NoDup.
  - unfold sorted_pairs. rewrite dedup_spec. simpl. unfold zlen. rewrite Nat2Z.id. by apply take_app_length.
  - unfold sorted_pairs. by rewrite dedup_spec.
Qed.

(** A failed attempt leaves the slice sorted and partly overwritten; it still
    stands for the same map, so trying again is harmless. *)
Lemma last_wins_retry pairs : last_wins (sorted_pairs pairs).2 = last_wins pairs.
Proof.
  rewrite <- (last_wins_sort pairs). unfold sorted_pairs. set (l := sort_by_key pairs).
  rewrite dedup_spec. cbn [snd].
  destruct (keep_all_sorted l (sort_by_key_sorted pairs)) as [Hs Hm].
  apply map_eq. intros k. rewrite !last_wins_filter, filter_app, last_app.
  destruct (last (filter (fun p => p.1 = k) (drop (length (keep_all l)) l))) as [p|] eqn:Hp.
  - assert (filter (fun p => p.1 = k) l = filter (fun p => p.1 = k) (take (length (keep_all l)) l) ++
      filter (fun p => p.1 = k) (drop (length (keep_all l)) l)) as -> by (by rewrite <- filter_app, take_drop).
    by rewrite last_app, Hp.
  - rewrite <- !last_wins_filter, <- Hm. unfold last_wins.
    apply sorted_lt_NoDup in Hs. f_equal. apply list_to_map_proper; [|apply reverse_Permutation].
    rewrite fmap_reverse. by rewrite reverse_Permutation.
Qed.

(** ** Writing a map *)

Lemma store_pairs_spec {E} kvs : forall p n i s,
  0 <= i -> i + zlen kvs <= n ->
  (forall j, 0 <= j < 1 + 2 * n -> is_Some (hmem s !! (p + 8 * j))) ->
  exists m', store_pairs (E:=E) p n i kvs s = (Ok tt, set_mem m' s) /\
    writes (p + 8) (p + 8 * (1 + 2 * n)) (hmem s) m' /\
    slots_at m' (p + 8 * (1 + i)) kvs.*1 /\ slots_at m' (p + 8 * (1 + n + i)) kvs.*2 /\
    (forall x, ~ (p + 8 * (1 + i) <= x < p + 8 * (1 + n)) -> ~ (p + 8 * (1 + n + i) <= x) ->
       m' !! x = hmem s !! x).
Proof.
  induction kvs as [|[k v] kvs IH]; intros p n i s Hi Hn Hm.
  { exists (hmem s). split_and!; [by destruct s|apply writes_refl|done..]. }
  rewrite zlen_cons in Hn. pose proof (zlen_nonneg kvs).
  set (m1 := <[p + 8 * (1 + i) := k]> (hmem s)). set (m2 := <[p + 8 * (1 + n + i) := v]> m1).
  assert (is_Some (hmem s !! (p + 8 * (1 + i)))) as H1 by (apply Hm; lia).
  assert (is_Some (m1 !! (p + 8 * (1 + n + i)))) as H2.
  { unfold m1. rewrite lookup_insert_ne by lia. apply Hm. lia. }
  assert (writes (p + 8) (p + 8 * (1 + 2 * n)) (hmem s) m2) as Hw2.
  { eapply writes_trans; [apply writes_insert; [|exact H1]; lia|]. apply writes_insert; [lia|done]. }
  destruct (IH p n (i + 1) (set_mem m2 s)) as (m' & He & Hw & Hk & Hv & Hout); [lia|lia| |].
  { intros j Hj. by apply (writes_dom _ _ _ _ Hw2), Hm. }
  exists m'. split_and!.
  - cbn [store_pairs]. rewrite (bind_eval _ _ _ _ _ (store_ok _ _ _ H1)).
    by rewrite (bind_eval _ _ _ _ _ (store_ok _ _ (set_mem m1 s) H2)).
  - by eapply writes_trans.
  - cbn. split; [|by replace (p + 8 * (1 + i) + 8) with (p + 8 * (1 + (i + 1))) by lia].
    rewrite Hout by lia. simpl. unfold m2. rewrite lookup_insert_ne by lia. apply lookup_insert_eq.
  - cbn. split; [|by replace (p + 8 * (1 + n + i) + 8) with (p + 8 * (1 + n + (i + 1))) by lia].
    rewrite Hout by lia. simpl. apply lookup_insert_eq.
  - intros x Hx Hx'. rewrite Hout by lia. simpl. unfold m2, m1. by rewrite !lookup_insert_ne by lia.
Qed.

Lemma map_err_bind_grows {A} (c : HM A) (k : A -> M HS MapError A) (Q : res MapError A -> HS -> Prop) s :
  wp c (fun r s' => match r with
                    | Ok a => wp (k a) Q s' | Err e => Q (Err (MapHeap e)) s'
                    | Panic => Q Panic s' | NoFuel => Q NoFuel s' end) s ->
  wp (x ← map_err MapHeap c; k x) Q s.
Proof.
  intros H. apply wp_bind. unfold wp, map_err in *. by destruct (c s) as [[?|?| |] ?].
Qed.

Lemma map_from_pairs_spec pairs s :
  heap_ok s -> existsb (fun kv => is_boxed kv.1) pairs = false ->
  grows (map_from_pairs pairs) (1 + 2 * Z.of_nat (size (last_wins pairs)))
        (fun m t => map_denotes m t (last_wins pairs)) s.
Proof.
  intros Hs Himm. unfold grows, map_from_pairs. rewrite Himm. cbn [fail_if].
  apply wp_bind, wp_ret. destruct (kept_spec pairs) as (Hsort & Hmap & Hlen & Htake & Hn).
  destruct (sorted_pairs pairs) as [n pairs']. cbn [fst snd] in *. rewrite Htake. subst n.
  rewrite <- Hlen. set (kvs := kept pairs) in *. pose proof (zlen_nonneg kvs).
  apply map_err_bind_grows, wp_alloc; [by apply grown_full|]. intros Hfit.
  assert (forall j, 0 <= j < 1 + 2 * zlen kvs -> is_Some (hmem s !! (ptop s + 8 * j))) as Hm.
  { intros j Hj. eapply ptop_mapped; [done|exact Hj|exact Hfit]. }
  assert (is_Some (hmem s !! ptop s)) as H0.
  { replace (ptop s) with (ptop s + 8 * 0) by lia. apply Hm. lia. }
  apply wp_bind, wp_store; [done|].
  set (s1 := set_mem (<[ptop s := header (zlen kvs) KIND_MAP]> (hmem (bump (1 + 2 * zlen kvs) s))) (bump (1 + 2 * zlen kvs) s)).
  assert (writes (ptop s) (ptop s + 8 * (1 + 2 * zlen kvs)) (hmem s) (hmem s1)) as Hw1
    by (apply writes_insert; [lia|done]).
  destruct (store_pairs_spec (E:=MapError) kvs (ptop s) (zlen kvs) 0 s1)
    as (m' & He & Hw & Hk & Hv & _); [lia|lia| |].
  { intros j Hj. by apply (writes_dom _ _ _ _ Hw1), Hm. }
  assert (writes (ptop s) (ptop s + 8 * (1 + 2 * zlen kvs)) (hmem s) m') as Hw'.
  { eapply writes_trans; [exact Hw1|]. eapply writes_weaken; [exact Hw|lia|lia]. }
  apply wp_bind. unfold wp. rewrite He. simpl.
  assert (zlen kvs.*1 = zlen kvs /\ zlen kvs.*2 = zlen kvs) as [Hl1 Hl2]
    by (unfold zlen; by rewrite !length_fmap).
  assert (ptop (set_mem m' s1) = ptop s + 8 * (1 + 2 * zlen kvs)) as Hpt by (unfold ptop; simpl; lia).
  split_and!.
  - eapply (heap_ok_writes _ _ _ (bump _ s) Hw'). apply heap_ok_bump; [done|lia|done].
  - by split.
  - eapply writes_weaken; [exact Hw'|lia|]. unfold ptop, pend. lia.
  - done.
  - rewrite Hpt. exists kvs. split_and!; [|done| |done].
    + split_and!.
      * rewrite Hl1. apply boxed_fresh; [done|lia|done|].
        rewrite (writes_out _ _ _ _ Hw) by lia. apply lookup_insert_eq.
      * by rewrite !length_fmap.
      * apply slots_at_region; [|lia|lia]. by replace (ptop s + 8) with (ptop s + 8 * (1 + 0)) by lia.
      * rewrite Hl1. apply slots_at_region; [|lia|lia].
        by replace (ptop s + 8 * (1 + zlen kvs)) with (ptop s + 8 * (1 + zlen kvs + 0)) by lia.
    + apply Forall_fmap, Forall_forall. intros kv Hkv%keep_all_incl.
      rewrite sort_by_key_Permutation in Hkv. apply list_elem_of_In in Hkv. simpl.
      destruct (is_boxed kv.1) eqn:Hb; [|done].
      assert (existsb (fun kv => is_boxed kv.1) pairs = true); [|congruence]. apply existsb_exists. eauto.
Qed.

Lemma map_from_pairs_full pairs s :
  existsb (fun kv => is_boxed kv.1) pairs = false ->
  cap_words (hp s) < top (hp s) + (1 + 2 * Z.of_nat (size (last_wins pairs))) ->
  map_from_pairs pairs s = (Err (MapHeap HeapFull), s).
Proof.
  intros Hb Hfull. unfold map_from_pairs. rewrite Hb. cbn [fail_if]. erewrite bind_eval; [|done].
  destruct (kept_spec pairs) as (_ & _ & Hlen & _ & Hn).
  destruct (sorted_pairs pairs) as [n l]. cbn [fst] in Hn. subst n. rewrite Hlen.
  unfold mbind, M_bind, map_err, heap_alloc. by rewrite bool_decide_true by lia.
Qed.

(** ** The binary search *)

Lemma sorted_lookupz ks i j x y :
  StronglySorted Z.lt ks -> lookupz ks i = Some x -> lookupz ks j = Some y -> i < j -> x < y.
Proof.
  intros Hs. revert i j. induction Hs as [|k ks Hs IH Hk]; intros i j.
  { rewrite lookupz_Some, lookup_nil. by intros []. }
  rewrite !lookupz_Some. intros [Hi Hx] [Hj Hy] Hij.
  replace (Z.to_nat j) with (S (Z.to_nat (j - 1))) in Hy by lia. simpl in Hy.
  destruct (decide (i = 0)) as [->|].
  - simpl in Hx. injection Hx as <-. rewrite Forall_forall in Hk. apply Hk. by eapply list_elem_of_lookup_2.
  - replace (Z.to_nat i) with (S (Z.to_nat (i - 1))) in Hx by lia. simpl in Hx.
    apply (IH (i - 1) (j - 1)); [| |lia]; apply lookupz_Some; (split; [lia|done]).
Qed.

Lemma map_get_loop_spec {E} m t (kvs : list (Z * Z)) key :
  map_at m t kvs.*1 kvs.*2 -> StronglySorted Z.lt kvs.*1 ->
  forall fuel lo hi, 0 <= lo <= hi -> hi <= zlen kvs -> hi - lo < Z.of_nat fuel ->
  (forall i kv, lookupz kvs i = Some kv -> (i < lo -> kv.1 < key) /\ (hi <= i -> key < kv.1)) ->
  map_get_loop (E:=E) fuel m t key lo hi = Ok ((list_to_map kvs : gmap Z Z) !! key).
Proof.
  intros Hm Hs. assert (forall i kv, lookupz kvs i = Some kv ->
    lookupz kvs.*1 i = Some kv.1 /\ lookupz kvs.*2 i = Some kv.2) as Hl.
  { intros i kv [Hi Hkv]%lookupz_Some. rewrite !lookupz_Some, !list_lookup_fmap, Hkv. done. }
  induction fuel as [|fuel IH]; intros lo hi Hlo Hhi Hf Hinv; [lia|]. cbn [map_get_loop].
  case_bool_decide as Hlh.
  2: { f_equal. symmetry. apply not_elem_of_list_to_map_1. intros (kv & -> & Hin)%list_elem_of_fmap.
       apply list_elem_of_lookup in Hin as [i Hi].
       destruct (Hinv (Z.of_nat i) kv) as [H1 H2]; [apply lookupz_Some; rewrite Nat2Z.id; split; [lia|done]|].
       lia. }
  assert (lo <= (lo + hi) / 2 < hi) as Hmid.
  { pose proof (Z.div_mod (lo + hi) 2 ltac:(lia)). pose proof (Z.mod_pos_bound (lo + hi) 2 ltac:(lia)). lia. }
  set (mid := (lo + hi) / 2) in *.
  destruct (lookupz_is_Some kvs mid) as [[k v] Hkv]; [lia|]. destruct (Hl _ _ Hkv) as [Hk Hv]. simpl in *.
  rewrite (map_at_key _ _ _ _ _ _ Hm Hk). simpl. case_bool_decide as Hke.
  - subst k. rewrite (map_at_val _ _ _ _ _ _ Hm Hv). simpl. do 2 f_equal. symmetry.
    apply elem_of_list_to_map_1; [by apply sorted_lt_NoDup|].
    apply lookupz_Some in Hkv as [_ Hkv]. by eapply list_elem_of_lookup_2.
  - case_bool_decide as Hlt; apply IH; try lia; intros i kv Hi; destruct (Hinv i kv Hi) as [H1 H2];
      destruct (Hl _ _ Hi) as [Hik _]; (split; intros Hside); try (apply H1 || apply H2; lia).
    + destruct (decide (i = mid)) as [->|]; [simplify_eq; simpl in *; simplify_eq; done|].
      assert (kv.1 < k) by (eapply sorted_lookupz; [exact Hs|exact Hik|exact Hk|lia]). lia.
    + destruct (decide (i = mid)) as [->|]; [simplify_eq; simpl in *; simplify_eq; lia|].
      assert (k < kv.1) by (eapply sorted_lookupz; [exact Hs|exact Hk|exact Hik|lia]). lia.
Qed.

Lemma map_get_denotes {E} m t M key : map_denotes m t M -> map_get (E:=E) m t key = Ok (M !! key).
Proof.
  intros (kvs & Hm & Hs & _ & <-). unfold map_get. rewrite (map_at_arity _ _ _ _ Hm). cbn [mbind res_bind].
  assert (zlen kvs.*1 = zlen kvs) as -> by (unfold zlen; by rewrite length_fmap).
  pose proof (zlen_nonneg kvs). apply map_get_loop_spec; [done|done|lia|lia|lia|].
  intros i kv Hi%lookupz_range. lia.
Qed.

Lemma map_denotes_mono m m' t M : m ⊆ m' -> map_denotes m t M -> map_denotes m' t M.
Proof. intros Hs (kvs & Hm & ?). exists kvs. split; [by eapply map_at_mono|done]. Qed.

Lemma map_pairs_spec {E} m t (kvs : list (Z * Z)) ks xs :
  map_at m t ks xs -> forall i0,
  (forall i kv, lookupz kvs i = Some kv -> lookupz ks (i0 + i) = Some kv.1 /\ lookupz xs (i0 + i) = Some kv.2) ->
  map_pairs (E:=E) m t (seqZ i0 (zlen kvs)) = Ok kvs.
Proof.
  intros Hm. induction kvs as [|[k v] kvs IH]; intros i0 H; [done|].
  rewrite seqZ_walk. cbn [map_pairs]. destruct (H 0 (k, v) eq_refl) as [Hk Hv]. rewrite Z.add_0_r in *.
  rewrite (map_at_key _ _ _ _ _ _ Hm Hk). simpl. rewrite (map_at_val _ _ _ _ _ _ Hm Hv). simpl.
  rewrite IH; [done|]. intros i kv Hi. replace (Z.succ i0 + i) with (i0 + (1 + i)) by lia.
  by apply H, lookupz_cons_shift.
Qed.

(** ** Properties *)

(** C29: [map_from_pairs] builds, from any list of pairs, exactly the map in
    which the last duplicate of a key wins.  A boxed key is refused before
    anything changes; otherwise the call succeeds iff one header and two words
    per distinct key are free, and then [map_get] on the result returns, for
    every key, what that map holds. *)
Theorem map_from_pairs_correct pairs s :
  heap_ok s ->
  let n := Z.of_nat (size (last_wins pairs)) in
  if existsb (fun kv => is_boxed kv.1) pairs
  then map_from_pairs pairs s = (Err NonImmediateKey, s)
  else if bool_decide (top (hp s) + (1 + 2 * n) <= cap_words (hp s))
  then exists t s', map_from_pairs pairs s = (Ok t, s') /\ top (hp s') = top (hp s) + (1 + 2 * n) /\
         map_denotes (region (ptop s) (ptop s') (hmem s')) t (last_wins pairs) /\
         (forall key, map_get (E:=MapError) (hmem s') t key = Ok (last_wins pairs !! key))
  else exists s', map_from_pairs pairs s = (Err (MapHeap HeapFull), s').
Proof.
  intros Hok n. destruct (existsb _ pairs) eqn:Hb.
  { unfold map_from_pairs. by rewrite Hb. }
  case_bool_decide as Hfit; [|exists s; apply map_from_pairs_full; [done|lia]].
  pose proof (map_from_pairs_spec pairs s Hok Hb) as Hg. unfold grows, wp in Hg. fold n in Hg.
  destruct (map_from_pairs pairs s) as [[t|e| |] s']; destruct Hg as (Hok' & _ & _ & Hres);
    cbn [fst snd] in *; try done; [|lia].
  destruct Hres as [Ht Hd]. exists t, s'. split_and!; [done|done|done|].
  intros key. apply map_get_denotes. eapply map_denotes_mono; [|exact Hd]. apply region_sub.
Qed.

Lemma map_from_pairs_correct_witness :
  exists t s', map_from_pairs [(term_atom 9, 8); (term_int 1, 16); (term_atom 9, 24)] (sample_heap 32) = (Ok t, s') /\
    map_get (E:=MapError) (hmem s') t (term_atom 9) = Ok (Some 24).
Proof.
  destruct (map_from_pairs_correct [(term_atom 9, 8); (term_int 1, 16); (term_atom 9, 24)] (sample_heap 32)
    sample_heap_ok) as (t & s' & He & _ & _ & Hg).
  exists t, s'. split; [exact He|]. exact (Hg (term_atom 9)).
Defined.

(** [map_put] is insertion: on a base map anywhere outside the free words,
    with an immediate key, the call succeeds when the resulting map fits, the new
    map maps [key] to [val] and every other key as before, and the base map
    still denotes what it did. *)
Theorem map_put_inserts m0 b M key v s :
  map_denotes m0 b M -> source m0 s -> heap_ok s -> is_boxed key = false ->
  let n := Z.of_nat (size (<[key := v]> M)) in
  top (hp s) + (1 + 2 * n) <= cap_words (hp s) ->
  exists t s', map_put b key v s = (Ok t, s') /\ top (hp s') = top (hp s) + (1 + 2 * n) /\
    (forall k, map_get (E:=MapError) (hmem s') t k = Ok (<[key := v]> M !! k)) /\
    (forall k, map_get (E:=MapError) (hmem s') b k = Ok (M !! k)).
Proof.
  intros Hd [Hsub Hdis] Hok Hkey n Hfit. pose proof (map_denotes_mono _ _ _ _ Hsub Hd) as Hd'.
  destruct Hd' as (kvs & Hm & Hs & Himm & HM).
  assert (last_wins (kvs ++ [(key, v)]) = <[key := v]> M) as Hlw.
  { unfold last_wins. rewrite reverse_app. simpl. f_equal. rewrite <- HM.
    apply sorted_lt_NoDup in Hs. symmetry. apply list_to_map_proper; [done|].
    symmetry. apply reverse_Permutation. }
  assert (existsb (fun kv => is_boxed kv.1) (kvs ++ [(key, v)]) = false) as Hnb.
  { rewrite existsb_app. simpl. rewrite Hkey, !orb_false_r. apply not_true_is_false.
    intros (kv & Hin & Hb)%existsb_exists. rewrite Forall_fmap, Forall_forall in Himm.
    apply list_elem_of_In in Hin. specialize (Himm kv Hin). simpl in Himm. congruence. }
  pose proof (map_from_pairs_spec (kvs ++ [(key, v)]) s Hok Hnb) as Hg. rewrite Hlw in Hg. fold n in Hg.
  assert (map_put b key v s = map_from_pairs (kvs ++ [(key, v)]) s) as ->.
  { unfold map_put. rewrite Hkey. cbn [fail_if]. unfold mbind, M_bind. simpl.
    rewrite (map_at_arity _ _ _ _ Hm). simpl.
    assert (zlen kvs.*1 = zlen kvs) as -> by (unfold zlen; by rewrite length_fmap).
    rewrite (map_pairs_spec _ _ kvs _ _ Hm); [done|].
    intros i kv [Hi Hkv]%lookupz_Some. rewrite Z.add_0_l, !lookupz_Some, !list_lookup_fmap, Hkv. done. }
  unfold grows, wp in Hg.
  destruct (map_from_pairs _ s) as [[t|e| |] s']; destruct Hg as (Hok' & _ & Hw & Hres);
    cbn [fst snd] in *; try done; [|lia].
  destruct Hres as [Ht Hdt]. exists t, s'. split_and!; [done|done|..]; intros k; apply map_get_denotes.
  - eapply map_denotes_mono; [|exact Hdt]. apply region_sub.
  - eapply map_denotes_mono; [|exact Hd]. by eapply writes_sub.
Qed.

(** A one-pair map beside the sample heap. *)
Definition sample_map_mem : mem := put_words 16384 [header 1 KIND_MAP; term_int 1; term_int 2] ∅.
Definition sample_map_heap : HS :=
  {| hmem := put_words 16384 [header 1 KIND_MAP; term_int 1; term_int 2] (hmem (sample_heap 32));
     hp := hp (sample_heap 32) |}.

Lemma sample_map_denotes : map_denotes sample_map_mem 16384 {[term_int 1 := term_int 2]}.
Proof.
  exists [(term_int 1, term_int 2)]. split_and!; [|by repeat constructor|by repeat constructor|done].
  split_and!; repeat split; vm_compute; congruence.
Qed.

Lemma sample_map_source : source sample_map_mem sample_map_heap /\ heap_ok sample_map_heap.
Proof.
  split; [split|].
  - apply map_subseteq_spec. apply (map_Forall_to_list (fun x w => hmem sample_map_heap !! x = Some w)).
    vm_compute. repeat constructor.
  - intros x w Hx. assert (map_Forall (fun x _ => x < 65536) sample_map_mem) as H.
    { apply (bool_decide_unpack _). by vm_compute. }
    specialize (H x w Hx). unfold ptop, sample_map_heap, sample_heap, Heap_new. simpl in *. lia.
  - pose proof sample_heap_ok as [Hb Ht He Hm]. split; [done|done|done|].
    intros i Hi. change (0 <= i < 32) in Hi.
    assert (Forall (fun i => is_Some (hmem sample_map_heap !! (65536 + 8 * i))) (seqZ 0 32)) as Hall.
    { apply (bool_decide_unpack _). by vm_compute. }
    rewrite Forall_forall in Hall. apply Hall. apply elem_of_seqZ. lia.
Qed.

Lemma map_put_inserts_witness :
  exists t s', map_put 16384 (term_atom 3) (term_int 4) sample_map_heap = (Ok t, s') /\
    map_get (E:=MapError) (hmem s') t (term_int 1) = Ok (Some (term_int 2)).
Proof.
  destruct (map_put_inserts sample_map_mem 16384 _ (term_atom 3) (term_int 4) sample_map_heap
    sample_map_denotes (proj1 sample_map_source) (proj2 sample_map_source) ltac:(by vm_compute)
    ltac:(by vm_compute)) as (t & s' & He & _ & Hg & _).
  exists t, s'. split; [exact He|]. exact (Hg (term_int 1)).
Defined.

(** Retrying is harmless.  A failed [map_from_pairs] leaves the caller's
    slice sorted and partly overwritten (the deduplication is in place and the
    tail is stale); building a map from that slice, any number of times later,
    still gives the map of the original pairs. *)
Theorem map_retry_same pairs n :
  last_wins (Nat.iter n (fun l => (sorted_pairs l).2) pairs) = last_wins pairs.
Proof. induction n as [|n IH]; [done|]. simpl. by rewrite last_wins_retry. Qed.
