(* ===== verification/Evac.v ===== *)
(** * Evac: the compacting collector

    Models [evacuate] and [evac_one] of [crates/ygg-term/src/lib.rs], the Cheney
    evacuation that compacts a process heap: the state is the memory with the
    to-space heap, old headers are overwritten with forwarding words. *)

From S2P Require Import Prelude Term.

Definition KIND_FWD : Z := 7.

Definition load_w (a : Z) : HM Z := m ← gets hmem; lift (load m a).

(** [core::ptr::copy_nonoverlapping(src, dst, n)] *)
Fixpoint copy_words (n : nat) (src dst : Z) : HM unit :=
  match n with
  | O => mret tt
  | S n' => w ← load_w src; _ ← store dst w; copy_words n' (src + 8) (dst + 8)
  end.

(** The words of an object with this header; [unreachable!] is [Panic]. *)
Definition object_words (h : Z) : HM Z :=
  let k := Z.land h TAG_MASK in
  if bool_decide (k = KIND_TUPLE) then mret (1 + Z.shiftr h 3)
  else if bool_decide (k = KIND_CONS) then mret 3
  else if bool_decide (k = KIND_BINARY) then mret (1 + div_ceil (Z.shiftr h 3) 8)
  else if bool_decide (k = KIND_MAP) then mret (1 + 2 * Z.shiftr h 3)
  else panic.

Definition evac_one (t : Term) : HM Term :=
  if negb (is_boxed t) then mret t
  else
    h ← load_w t;
    if bool_decide (Z.land h TAG_MASK = KIND_FWD) then mret (Z.ldiff h TAG_MASK)
    else
      words ← object_words h;
      dst ← heap_alloc words;
      _ ← copy_words (Z.to_nat words) t dst;
      _ ← store t (Z.lor dst KIND_FWD);
      mret dst.

(** The word at [p] is replaced by its evacuated copy. *)
Definition evac_field (p : Z) : HM unit :=
  w ← load_w p; t ← evac_one w; store p t.

(** The breadth-first scan; [scan] is a word offset into to-space. *)
Fixpoint scan_loop (fuel : nat) (scan : Z) : HM unit :=
  match fuel with
  | O => nofuel
  | S fuel' =>
      to ← gets hp;
      if bool_decide (scan < top to) then
        h ← load_w (hbase to + 8 * scan);
        let k := Z.land h TAG_MASK in
        let n := Z.shiftr h 3 in
        if bool_decide (k = KIND_TUPLE) then
          _ ← for_each (map (fun i => hbase to + 8 * (scan + 1 + i)) (seqZ 0 n)) evac_field;
          scan_loop fuel' (scan + (1 + n))
        else if bool_decide (k = KIND_CONS) then
          _ ← for_each (map (fun i => hbase to + 8 * (scan + i)) [1; 2]) evac_field;
          scan_loop fuel' (scan + 3)
        else if bool_decide (k = KIND_BINARY) then
          scan_loop fuel' (scan + (1 + div_ceil n 8))
        else if bool_decide (k = KIND_MAP) then
          _ ← for_each (map (fun i => hbase to + 8 * (scan + 1 + n + i)) (seqZ 0 n)) evac_field;
          scan_loop fuel' (scan + (1 + 2 * n))
        else panic
      else mret tt
  end.

(** The loop over the roots, which are updated in place. *)
Fixpoint evac_roots (roots : list Term) : HM (list Term) :=
  match roots with
  | [] => mret []
  | r :: rs => r' ← evac_one r; rs' ← evac_roots rs; mret (r' :: rs')
  end.

(** Every round of the scan passes at least one word of to-space. *)
Definition evacuate (roots : list Term) : HM (list Term) :=
  to ← gets hp;
  roots' ← evac_roots roots;
  _ ← scan_loop (S (Z.to_nat (cap_words to - top to))) (top to);
  mret roots'.
