(* ===== verification/EvacInv.v ===== *)
(** * EvacInv: the collector's invariant

    [s0] is the state before the collection and [R] the live objects in it.  A state of the
    collection is described by the list of the objects copied so far, in the order of their
    copies, which lie one after the other from the old top on, and by the address [lim] below
    which the copies have been scanned. *)

From S2P Require Import Prelude Term TermImm TermHeap TermVal Evac.

(** ** Objects *)

(** The words an object with header [h] takes, and the words of it that hold terms. *)
Definition hwords (h : Z) : Z :=
  let n := Z.shiftr h 3 in
  if decide (tag h = KIND_TUPLE) then 1 + n
  else if decide (tag h = KIND_CONS) then 3
  else if decide (tag h = KIND_BINARY) then 1 + div_ceil n 8
  else 1 + 2 * n.

Definition hfields (h : Z) : list Z :=
  let n := Z.shiftr h 3 in
  if decide (tag h = KIND_TUPLE) then seqZ 1 n
  else if decide (tag h = KIND_CONS) then [1; 2]
  else if decide (tag h = KIND_BINARY) then []
  else seqZ (1 + n) n.

Lemma tag_range w : 0 <= tag w < 8.
Proof. unfold tag, TAG_MASK. change 7 with (Z.ones 3). rewrite Z.land_ones by lia. apply Z.mod_pos_bound. lia. Qed.

Lemma shiftr3_nonneg h : 0 <= h -> 0 <= Z.shiftr h 3.
Proof. intros Hh. by apply Z.shiftr_nonneg. Qed.

Lemma hwords_pos h : 0 <= h -> 1 <= hwords h.
Proof.
  intros Hh. pose proof (shiftr3_nonneg h Hh). unfold hwords. repeat case_decide; try lia.
  unfold div_ceil. pose proof (Z.div_pos (Z.shiftr h 3 + 8 - 1) 8). lia.
Qed.

Lemma hfields_range h i : 0 <= h -> i ∈ hfields h -> 1 <= i < hwords h.
Proof.
  intros Hh. pose proof (shiftr3_nonneg h Hh). unfold hfields, hwords. repeat case_decide.
  - intros Hi%elem_of_seqZ. lia.
  - rewrite !elem_of_cons. intros [->|[->|Hi%not_elem_of_nil]]; [lia|lia|done].
  - by intros Hi%not_elem_of_nil.
  - intros Hi%elem_of_seqZ. lia.
Qed.

Lemma object_words_run h s : tag h <= KIND_MAP -> object_words h s = (Ok (hwords h), s).
Proof.
  intros Hk. pose proof (tag_range h) as Ht. unfold object_words, hwords. fold (tag h).
  unfold KIND_TUPLE, KIND_CONS, KIND_BINARY, KIND_MAP in *.
  repeat (case_bool_decide || case_decide); try done; lia.
Qed.

(** ** Words *)

Lemma fwd_word x : tag x = 0 -> Z.land (Z.lor x KIND_FWD) TAG_MASK = KIND_FWD /\ Z.ldiff (Z.lor x KIND_FWD) TAG_MASK = x.
Proof.
  unfold tag, KIND_FWD, TAG_MASK. intros Hx.
  assert (forall i, Z.testbit x i && Z.testbit 7 i = false) as Hb.
  { intros i. by rewrite <- Z.land_spec, Hx, Z.bits_0. }
  split; apply Z.bits_inj'; intros i Hi.
  - rewrite Z.land_spec, Z.lor_spec. destruct (Z.testbit x i), (Z.testbit 7 i); done.
  - rewrite Z.ldiff_spec, Z.lor_spec. specialize (Hb i). destruct (Z.testbit x i), (Z.testbit 7 i); done.
Qed.

Lemma load_w_ok a w s : hmem s !! a = Some w -> load_w a s = (Ok w, s).
Proof. intros Hw. unfold load_w, lift. unfold mbind, M_bind, gets. simpl. by rewrite (load_Some _ _ _ Hw). Qed.

Lemma wp_load_w a w (Q : res heap_full Z -> HS -> Prop) s : hmem s !! a = Some w -> Q (Ok w) s -> wp (load_w a) Q s.
Proof. intros Hw HQ. unfold wp. by rewrite (load_w_ok _ _ _ Hw). Qed.

Lemma heap_ok_dom m s : heap_ok s -> (forall x, is_Some (hmem s !! x) -> is_Some (m !! x)) -> heap_ok (set_mem m s).
Proof. intros [Hb Ht He Hm] Hd. split; simpl; auto. Qed.

Lemma copy_words_spec n src : forall dst s,
  (forall i, 0 <= i < Z.of_nat n -> is_Some (hmem s !! (src + 8 * i))) ->
  (forall i, 0 <= i < Z.of_nat n -> is_Some (hmem s !! (dst + 8 * i))) ->
  src + 8 * Z.of_nat n <= dst \/ dst + 8 * Z.of_nat n <= src ->
  exists m, copy_words n src dst s = (Ok tt, set_mem m s) /\
    writes dst (dst + 8 * Z.of_nat n) (hmem s) m /\
    forall i, 0 <= i < Z.of_nat n -> m !! (dst + 8 * i) = hmem s !! (src + 8 * i).
Proof.
  revert src. induction n as [|n IH]; intros src dst s Hs Hd Hap.
  { exists (hmem s). split_and!; [by destruct s|apply writes_refl|lia]. }
  destruct (Hs 0) as [w Hw]; [lia|]. pose proof (Hd 0 ltac:(lia)) as Hd0. rewrite Z.mul_0_r, Z.add_0_r in Hw, Hd0.
  assert (forall i, 0 <= i < Z.of_nat n -> src + 8 + 8 * i = src + 8 * (i + 1) /\ dst + 8 + 8 * i = dst + 8 * (i + 1)) as Hsh by lia.
  destruct (IH (src + 8) (dst + 8) (set_mem (<[dst := w]> (hmem s)) s)) as (m & He & Hw' & Hc); [..|lia|].
  1-2: intros i Hi; simpl; rewrite lookup_insert_ne by lia; destruct (Hsh i Hi) as [H1 H2];
    (rewrite H1; apply Hs; lia) || (rewrite H2; apply Hd; lia).
  exists m. split_and!.
  - cbn [copy_words]. rewrite (bind_eval _ _ _ _ _ (load_w_ok _ _ _ Hw)), (bind_eval _ _ _ _ _ (store_ok _ _ _ Hd0)). exact He.
  - eapply writes_trans; [|eapply writes_weaken; [exact Hw'|lia|lia]]. apply writes_insert; [lia|done].
  - intros i Hi. destruct (decide (i = 0)) as [->|].
    + rewrite (writes_out _ _ _ _ Hw') by lia. rewrite !Z.mul_0_r, !Z.add_0_r. simpl. by rewrite lookup_insert_eq.
    + specialize (Hc (i - 1) ltac:(lia)). simpl in Hc. rewrite lookup_insert_ne in Hc by lia.
      destruct (Hsh (i - 1)) as [H1 H2]; [lia|]. rewrite H1, H2 in Hc. by replace (i - 1 + 1) with i in Hc by lia.
Qed.

Section evac.
Context (s0 : HS) (R : gset Z).
Local Abbreviation m0 := (hmem s0).
Local Abbreviation start := (ptop s0).

(** The size of a live object. *)
Definition osize (a : Z) : Z := hwords (default 0 (m0 !! a)).
Definition ofields (a : Z) : list Z := hfields (default 0 (m0 !! a)).

Record live : Prop := {
  live_addr a : a ∈ R -> 0 < a /\ tag a = 0;
  live_header a : a ∈ R -> exists h, m0 !! a = Some h /\ 0 <= h /\ tag h <= KIND_MAP;
  live_words a i : a ∈ R -> 0 <= i < osize a -> is_Some (m0 !! (a + 8 * i));
  live_closed a i w : a ∈ R -> i ∈ ofields a -> m0 !! (a + 8 * i) = Some w -> is_boxed w = true -> w ∈ R;
  live_out a : a ∈ R -> a + 8 * osize a <= start \/ pend s0 <= a;
  live_apart a b : a ∈ R -> b ∈ R -> a <> b -> a + 8 * osize a <= b \/ b + 8 * osize b <= a;
}.

(** Where the copies go. *)
Fixpoint place (x : Z) (order : list Z) (a : Z) : option Z :=
  match order with
  | [] => None
  | b :: o => if decide (a = b) then Some x else place (x + 8 * osize b) o a
  end.

Definition total (order : list Z) : Z := zsum (map osize order).

(** What a term becomes. *)
Definition forward (order : list Z) (w w' : Z) : Prop :=
  if is_boxed w then place start order w = Some w' else w' = w.

(** The word [i] of the copy, at [x], of an object whose word was [w]. *)
Definition copied_word (order : list Z) (lim : Z) (a i x w w' : Z) : Prop :=
  if decide (i ∈ ofields a /\ x < lim) then forward order w w' else w' = w.

(** The header of a copied object holds its new address; nothing but headers of live objects
    and to-space has changed. *)
Record inv (order : list Z) (lim : Z) (s : HS) : Prop := {
  inv_nodup : NoDup order;
  inv_live a : a ∈ order -> a ∈ R;
  inv_heap : heap_ok s;
  inv_arena : same_arena s0 s;
  inv_top : top (hp s) = top (hp s0) + total order;
  inv_fwd a x : place start order a = Some x -> hmem s !! a = Some (Z.lor x KIND_FWD);
  inv_old a : a ∈ R -> a ∉ order -> hmem s !! a = m0 !! a;
  inv_frame x : x ∉ R -> ~ (start <= x < pend s0) -> hmem s !! x = m0 !! x;
  inv_dom x : is_Some (m0 !! x) -> is_Some (hmem s !! x);
  inv_copy a x i w : place start order a = Some x -> 0 <= i < osize a -> m0 !! (a + 8 * i) = Some w ->
    exists w', hmem s !! (x + 8 * i) = Some w' /\ copied_word order lim a i (x + 8 * i) w w';
}.

(** *** The layout *)

Lemma osize_pos a : live -> a ∈ R -> 1 <= osize a.
Proof. intros Hl Ha. unfold osize. destruct (live_header Hl a Ha) as (h & -> & Hh & _). by apply hwords_pos. Qed.

Lemma total_nil : total [] = 0.
Proof. done. Qed.
Lemma total_cons a o : total (a :: o) = osize a + total o.
Proof. done. Qed.
Lemma total_app o o' : total (o ++ o') = total o + total o'.
Proof. unfold total, zsum. rewrite map_app. induction (map osize o); cbn; lia. Qed.

Lemma total_nonneg o : live -> (forall a, a ∈ o -> a ∈ R) -> 0 <= total o.
Proof.
  intros Hl Ho. unfold total. apply zsum_nonneg. apply Forall_forall. intros a Ha.
  pose proof (osize_pos a Hl (Ho a Ha)). lia.
Qed.

Lemma place_None x o a : place x o a = None <-> a ∉ o.
Proof.
  revert x. induction o as [|b o IH]; intros x; cbn; [by split; [intros _; apply not_elem_of_nil|]|].
  rewrite elem_of_cons. case_decide; [naive_solver|]. rewrite IH. naive_solver.
Qed.

Lemma place_elem x o a y : place x o a = Some y -> a ∈ o.
Proof. intros Hp. destruct (decide (a ∈ o)) as [|Hn]; [done|]. apply (place_None x) in Hn. congruence. Qed.

Lemma place_app_l x o o' a y : place x o a = Some y -> place x (o ++ o') a = Some y.
Proof. revert x. induction o as [|b o IH]; intros x; cbn; [done|]. case_decide; auto. Qed.

Lemma place_app_r x o o' a : a ∉ o -> place x (o ++ o') a = place (x + 8 * total o) o' a.
Proof.
  revert x. induction o as [|b o IH]; intros x Hn; cbn [app place]; [rewrite total_nil, Z.add_0_r; done|].
  apply not_elem_of_cons in Hn as [Hne Hn]. rewrite decide_False by done. rewrite IH by done. f_equal.
  rewrite total_cons. lia.
Qed.

(** The copies are pairwise disjoint and lie between [x] and [x + 8 * total o]. *)
Lemma place_split x o a y : place x o a = Some y -> exists o1 o2, o = o1 ++ a :: o2 /\ a ∉ o1 /\ y = x + 8 * total o1.
Proof.
  revert x. induction o as [|b o IH]; intros x Hp; cbn in Hp; [done|]. case_decide as Hab.
  - injection Hp as <-. subst b. exists [], o. split_and!; [done|apply not_elem_of_nil|rewrite total_nil; lia].
  - destruct (IH _ Hp) as (o1 & o2 & -> & Hn & ->). exists (b :: o1), o2. split_and!; [done| |rewrite total_cons; lia].
    apply not_elem_of_cons. done.
Qed.

Lemma place_range o a y : live -> (forall a, a ∈ o -> a ∈ R) -> place start o a = Some y ->
  start <= y /\ y + 8 * osize a <= start + 8 * total o.
Proof.
  intros Hl Ho Hp. destruct (place_split _ _ _ _ Hp) as (o1 & o2 & -> & _ & ->). rewrite total_app, total_cons.
  assert (0 <= total o1) by (apply total_nonneg; [done|]; intros b Hb; apply Ho; set_solver).
  assert (0 <= total o2) by (apply total_nonneg; [done|]; intros b Hb; apply Ho; set_solver). lia.
Qed.

Lemma place_apart o a b x y : live -> (forall a, a ∈ o -> a ∈ R) -> place start o a = Some x -> place start o b = Some y -> a <> b ->
  x + 8 * osize a <= y \/ y + 8 * osize b <= x.
Proof.
  intros Hl. revert x y. generalize start as z. induction o as [|c o IH]; intros z x y Ho Ha Hb Hne; [done|].
  assert (forall b y, place (z + 8 * osize c) o b = Some y -> z + 8 * osize c <= y) as Hge.
  { intros b' y' (o1 & o2 & -> & _ & ->)%place_split.
    assert (0 <= total o1) by (apply total_nonneg; [done|]; intros d Hd; apply Ho; set_solver). lia. }
  cbn in Ha, Hb. case_decide as Hac; case_decide as Hbc; simplify_eq.
  - right. eapply Hge. eassumption.
  - left. eapply Hge. eassumption.
  - eapply IH; eauto. intros d Hd. apply Ho. set_solver.
Qed.

Lemma forward_app o o' w w' : forward o w w' -> forward (o ++ o') w w'.
Proof. unfold forward. destruct (is_boxed w); [apply place_app_l|done]. Qed.
Lemma place_mult o a x : place start o a = Some x -> exists k, x = start + 8 * k.
Proof. intros (o1 & o2 & _ & _ & ->)%place_split. eauto. Qed.

(** A word of to-space belongs to one copy. *)
Lemma place_word_inj o a b x y i j : live -> (forall a, a ∈ o -> a ∈ R) -> place start o a = Some x -> place start o b = Some y ->
  0 <= i < osize a -> 0 <= j < osize b -> x + 8 * i = y + 8 * j -> a = b /\ i = j.
Proof.
  intros Hl Ho Ha Hb Hi Hj He. destruct (decide (a = b)) as [<-|Hne]; [|destruct (place_apart o a b x y); auto; lia].
  rewrite Ha in Hb. injection Hb as <-. split; [done|lia].
Qed.

Lemma ofields_range a i : live -> a ∈ R -> i ∈ ofields a -> 1 <= i < osize a.
Proof. intros Hl Ha. unfold ofields, osize. destruct (live_header Hl a Ha) as (h & -> & Hh & _). by apply hfields_range. Qed.

(** Interior words of live objects are nobody's header. *)
Lemma interior a i : live -> a ∈ R -> 1 <= i < osize a -> a + 8 * i ∉ R.
Proof.
  intros Hl Ha Hi Hb. pose proof (osize_pos _ Hl Hb). destruct (live_apart Hl a (a + 8 * i)); auto; lia.
Qed.

Section steps.
Context (Hl : live).
Context (order : list Z) (lim : Z) (s : HS) (I : inv order lim s).

Lemma inv_pend : pend s = pend s0.
Proof using I. destruct (inv_arena _ _ _ I) as [Hb Hc]. unfold pend. by rewrite Hb, Hc. Qed.

Lemma inv_ptop : ptop s = start + 8 * total order.
Proof using I. destruct (inv_arena _ _ _ I) as [Hb _]. unfold ptop. rewrite Hb, (inv_top _ _ _ I). lia. Qed.

Lemma inv_fits : start + 8 * total order <= pend s0.
Proof using I.
  rewrite <- inv_ptop, <- inv_pend. destruct (ok_top _ (inv_heap _ _ _ I)). unfold ptop, pend. lia.
Qed.

(** Every word of an object that has not been copied is as it was. *)
Lemma inv_body a i : a ∈ R -> a ∉ order -> 0 <= i < osize a -> hmem s !! (a + 8 * i) = m0 !! (a + 8 * i).
Proof using I Hl.
  intros Ha Hn Hi. destruct (decide (i = 0)) as [->|]; [rewrite Z.mul_0_r, Z.add_0_r; by apply (inv_old _ _ _ I)|].
  apply (inv_frame _ _ _ I); [by apply interior; [..|lia]|]. pose proof (live_out Hl a Ha). lia.
Qed.

Lemma place_tag a x : place start order a = Some x -> tag x = 0.
Proof using I.
  intros (k & ->)%place_mult. rewrite tag_mod. destruct (ok_base _ (inv_heap _ _ _ I)) as [_ Hb].
  destruct (inv_arena _ _ _ I) as [He _]. rewrite He in Hb. unfold ptop.
  replace (hbase (hp s0) + 8 * top (hp s0) + 8 * k) with (hbase (hp s0) + (top (hp s0) + k) * 8) by lia.
  by rewrite Z.mod_add by lia.
Qed.

Lemma place_bounds a x : place start order a = Some x -> start <= x /\ x + 8 * osize a <= ptop s.
Proof using I Hl. intros Hp. rewrite inv_ptop. apply place_range; [done|exact (inv_live _ _ _ I)|done]. Qed.

(** [lim] may pass words that hold no terms. *)
Lemma inv_skip a x i i' : place start order a = Some x -> lim = x + 8 * i -> 0 <= i <= i' -> i' <= osize a ->
  (forall k, k ∈ ofields a -> ~ (i <= k < i')) -> inv order (x + 8 * i') s.
Proof using I Hl.
  intros Hp -> Hi Hi' Hk. destruct I as [Hnd Hlv Hh Har Ht Hf Ho Hfr Hdm Hc]. split; try done.
  intros b y j w Hb Hj Hw. destruct (Hc b y j w Hb Hj Hw) as (w' & Hw' & Hcw). exists w'. split; [done|].
  unfold copied_word in *. case_decide as Hd; case_decide as Hd'; try done.
  - exfalso. apply Hd'. destruct Hd. split; [done|lia].
  - destruct Hd' as [Hd' Hlt]. destruct (place_mult _ _ _ Hb) as [ky Hky]. destruct (place_mult _ _ _ Hp) as [kx Hkx].
    assert (~ (y + 8 * j < x + 8 * i)) by tauto.
    destruct (place_word_inj order a b x y (ky + j - kx) j) as [<- He]; [done|done|done|done|lia|lia|lia|].
    exfalso. apply (Hk j); [done|lia].
Qed.
End steps.
End evac.
