(* ===== verification/EvacSteps.v ===== *)
(** * EvacSteps: every step of the collector keeps its invariant

    [evac_one], the loop over the fields of an object, the scan and the loop over the roots:
    each ends in a state of the invariant with more objects copied, or fails because the
    objects it met do not fit to-space. *)

From S2P Require Import Prelude Term TermImm TermHeap TermVal Evac EvacInv.

Lemma nodup_snoc (o : list Z) t : NoDup o -> t ∉ o -> NoDup (o ++ [t]).
Proof. intros Hn Ht. apply NoDup_app. split_and!; [done|set_solver|apply NoDup_singleton]. Qed.

Lemma map_seqZ_shift (g g' : Z -> Z) f n : (forall i, g i = g' (f + i)) -> map g (seqZ 0 n) = map g' (seqZ f n).
Proof.
  intros Hg. destruct (Z.lt_ge_cases n 0) as [|Hn]; [by rewrite !seqZ_nil by lia|]. 
  enough (forall k, map g (seqZ k n) = map g' (seqZ (f + k) n)) as H by (rewrite H; by rewrite Z.add_0_r).
  rewrite <- (Z2Nat.id n) by done. induction (Z.to_nat n) as [|c IH]; intros k; [done|].
  rewrite !(seqZ_cons _ (Z.of_nat (S c))) by lia. cbn [map]. rewrite Nat2Z.inj_succ, Z.pred_succ, IH, Hg.
  by rewrite Z.add_succ_r.
Qed.

Section steps.
Context (s0 : HS) (R : gset Z) (Hl : live s0 R).
Local Abbreviation m0 := (hmem s0).
Local Abbreviation start := (ptop s0).
Local Abbreviation place := (place s0).
Local Abbreviation inv := (inv s0 R).

(** Some live objects together exceed to-space. *)
Definition overflow : Prop :=
  exists o, NoDup o /\ (forall a, a ∈ o -> a ∈ R) /\ cap_words (hp s0) < top (hp s0) + total s0 o.

(** A step that may copy further objects and moves [lim] by [f]. *)
Definition stepped {A} (order : list Z) (lim : HS -> Z) (Q : list Z -> A -> Prop) (r : res heap_full A) (s' : HS) : Prop :=
  match r with
  | Ok x => exists e, inv (order ++ e) (lim s') s' /\ Q (order ++ e) x
  | Err _ => overflow
  | _ => False
  end.

(** The state after the copy of [t] was made and [t] was forwarded. *)
Lemma inv_extend order lim s t m :
  inv order lim s -> t ∈ R -> t ∉ order -> lim <= ptop s ->
  top (hp s) + osize s0 t <= cap_words (hp s) ->
  writes (ptop s) (ptop s + 8 * osize s0 t) (hmem s) m ->
  (forall i, 0 <= i < osize s0 t -> m !! (ptop s + 8 * i) = hmem s !! (t + 8 * i)) ->
  inv (order ++ [t]) lim (set_mem (<[t := Z.lor (ptop s) KIND_FWD]> m) (bump (osize s0 t) s)).
Proof using Hl.
  intros I Ht Hn Hlim Hfit Hw Hc. pose proof (inv_ptop _ _ _ _ _ I) as Hpt. pose proof (inv_pend _ _ _ _ _ I) as Hpe.
  pose proof (osize_pos _ _ _ Hl Ht) as Hsz. pose proof (total_nonneg _ _ _ Hl (inv_live _ _ _ _ _ I)) as Htot.
  assert (ptop s + 8 * osize s0 t <= pend s0) as Hend by (rewrite <- Hpe; unfold ptop, pend; lia).
  assert (forall a, a ∈ R -> ~ (start <= a < pend s0)) as Hout.
  { intros a Ha. pose proof (live_out _ _ Hl a Ha). pose proof (osize_pos _ _ _ Hl Ha). lia. }
  set (m' := <[t := Z.lor (ptop s) KIND_FWD]> m).
  assert (forall x, x <> t -> ~ (ptop s <= x < ptop s + 8 * osize s0 t) -> m' !! x = hmem s !! x) as Hm'.
  { intros x Hx Hx'. unfold m'. rewrite lookup_insert_ne by done. by apply (writes_out _ _ _ _ Hw). }
  assert (forall x, is_Some (hmem s !! x) -> is_Some (m' !! x)) as Hdom.
  { intros x Hx. unfold m'. destruct (decide (x = t)) as [->|]; [rewrite lookup_insert_eq; eauto|].
    rewrite lookup_insert_ne by done. by apply (writes_dom _ _ _ _ Hw). }
  pose proof (Hout t Ht) as Hot.
  split; simpl.
  - apply nodup_snoc; [exact (inv_nodup _ _ _ _ _ I)|done].
  - intros a. rewrite elem_of_app, list_elem_of_singleton. intros [Ha| ->]; [by apply (inv_live _ _ _ _ _ I)|done].
  - apply heap_ok_dom; [apply heap_ok_bump; [exact (inv_heap _ _ _ _ _ I)|lia|done]|done].
  - exact (inv_arena _ _ _ _ _ I).
  - rewrite (inv_top _ _ _ _ _ I), total_app, total_cons, total_nil. lia.
  - intros a x Hp. destruct (decide (a ∈ order)) as [Ha|Ha].
    + destruct (place start order a) as [y|] eqn:Hy; [|by apply place_None in Hy].
      rewrite (place_app_l _ _ _ _ _ _ Hy) in Hp. injection Hp as <-.
      rewrite Hm'; [by apply (inv_fwd _ _ _ _ _ I)|by intros ->|].
      pose proof (Hout a (inv_live _ _ _ _ _ I a Ha)). lia.
    + rewrite place_app_r in Hp by done. simpl in Hp. case_decide as Hat; [|done]. injection Hp as <-.
      rewrite <- Hpt, Hat. unfold m'. apply lookup_insert_eq.
  - intros a Ha Hna. rewrite Hm'; [apply (inv_old _ _ _ _ _ I); [done|set_solver]|set_solver|].
    pose proof (Hout a Ha). lia.
  - intros x Hx Hxr. rewrite Hm'; [by apply (inv_frame _ _ _ _ _ I)|by intros ->|lia].
  - intros x Hx. by apply Hdom, (inv_dom _ _ _ _ _ I).
  - intros a x i w Hp Hi Hwd. destruct (decide (a ∈ order)) as [Ha|Ha].
    + destruct (place start order a) as [y|] eqn:Hy; [|by apply place_None in Hy].
      rewrite (place_app_l _ _ _ _ _ _ Hy) in Hp. injection Hp as <-.
      destruct (inv_copy _ _ _ _ _ I a y i w Hy Hi Hwd) as (w' & Hw' & Hcw).
      pose proof (place_bounds _ _ Hl _ _ _ I _ _ Hy). exists w'. rewrite Hm'; [|lia|lia].
      split; [done|]. unfold copied_word in *. case_decide; [by apply forward_app|done].
    + rewrite place_app_r in Hp by done. simpl in Hp. case_decide as Hat; [|done]. injection Hp as <-. subst a.
      rewrite <- Hpt. exists w. unfold m'. rewrite lookup_insert_ne by lia. rewrite (Hc i Hi).
      rewrite (inv_body _ _ Hl _ _ _ I) by done. split; [done|]. unfold copied_word. rewrite decide_False; [done|]. lia.
Qed.

Lemma evac_one_spec order lim s t : inv order lim s -> lim <= ptop s -> (is_boxed t = true -> t ∈ R) ->
  wp (evac_one t) (stepped order (fun _ => lim) (fun o t' => forward s0 o t t')) s.
Proof using Hl.
  intros I Hlim Ht. unfold evac_one. destruct (is_boxed t) eqn:Hb; cbn [negb].
  2: { apply wp_ret. exists []. rewrite app_nil_r. split; [done|]. unfold forward. by rewrite Hb. }
  specialize (Ht eq_refl). destruct (place start order t) as [x|] eqn:Hp.
  - pose proof (fwd_word x (place_tag _ _ _ _ _ I _ _ Hp)) as [Hf Hx].
    apply wp_bind. eapply wp_load_w; [exact (inv_fwd _ _ _ _ _ I _ _ Hp)|]. cbn beta iota. rewrite Hf, bool_decide_true by done.
    rewrite Hx. apply wp_ret. exists []. rewrite app_nil_r. split; [done|]. unfold forward. by rewrite Hb.
  - apply place_None in Hp as Hn. destruct (live_header _ _ Hl t Ht) as (h & Hh & Hh0 & Hk).
    apply wp_bind. eapply wp_load_w; [rewrite (inv_old _ _ _ _ _ I); done|]. cbn beta iota.
    fold (tag h). rewrite bool_decide_false by (unfold KIND_FWD; unfold KIND_MAP in Hk; lia).
    apply wp_bind. unfold wp at 1. rewrite object_words_run by done. cbn [fst snd].
    assert (hwords h = osize s0 t) as -> by (unfold osize; by rewrite Hh).
    pose proof (osize_pos _ _ _ Hl Ht) as Hsz. apply wp_bind, wp_alloc.
    { intros Hfull. exists (order ++ [t]). split_and!; [apply nodup_snoc; [exact (inv_nodup _ _ _ _ _ I)|done]| |].
      - intros a. rewrite elem_of_app, list_elem_of_singleton. intros [Ha| ->]; [by apply (inv_live _ _ _ _ _ I)|done].
      - rewrite total_app, total_cons, total_nil. destruct (inv_arena _ _ _ _ _ I) as [_ Hc].
        rewrite Hc, (inv_top _ _ _ _ _ I) in Hfull. lia. }
    intros Hfit. pose proof (live_out _ _ Hl t Ht) as Hout. pose proof (inv_ptop _ _ _ _ _ I) as Hpt.
    pose proof (total_nonneg _ _ _ Hl (inv_live _ _ _ _ _ I)) as Htot.
    assert (ptop s + 8 * osize s0 t <= pend s0) as Hend by (rewrite <- (inv_pend _ _ _ _ _ I); unfold ptop, pend; lia).
    destruct (copy_words_spec (Z.to_nat (osize s0 t)) t (ptop s) (bump (osize s0 t) s)) as (m & He & Hw & Hc).
    1-3: rewrite Z2Nat.id by lia.
    + intros i Hi. simpl. rewrite (inv_body _ _ Hl _ _ _ I) by done. by apply (live_words _ _ Hl).
    + intros i Hi. simpl. eapply ptop_mapped; [exact (inv_heap _ _ _ _ _ I)|done|done].
    + lia.
    + rewrite Z2Nat.id in Hw, Hc by lia. apply wp_bind. unfold wp at 1. rewrite He. cbn [fst snd].
      apply wp_bind, wp_store.
      { simpl. apply (writes_dom _ _ _ _ Hw). simpl. rewrite (inv_old _ _ _ _ _ I) by done. by rewrite Hh. }
      apply wp_ret. exists [t]. split; [by apply (inv_extend _ _ _ _ _ I)|].
      unfold forward. rewrite Hb, place_app_r by done. simpl. rewrite decide_True by done. by rewrite Hpt.
Qed.
(** The word [i] of the copy of [a] is replaced by what it becomes. *)
Lemma inv_scan order s a x i w t' :
  inv order (x + 8 * i) s -> place start order a = Some x -> i ∈ ofields s0 a ->
  m0 !! (a + 8 * i) = Some w -> forward s0 order w t' ->
  inv order (x + 8 * (i + 1)) (set_mem (<[x + 8 * i := t']> (hmem s)) s).
Proof using Hl.
  intros I Hp Hi Hw Hf. assert (a ∈ R) as Ha by (eapply (inv_live _ _ _ _ _ I), place_elem; done).
  pose proof (ofields_range _ _ _ _ Hl Ha Hi) as Hr. pose proof (place_bounds _ _ Hl _ _ _ I _ _ Hp) as Hb.
  pose proof (inv_ptop _ _ _ _ _ I) as Hpt. pose proof (inv_fits _ _ _ _ _ I) as Hfit.
  destruct (inv_copy _ _ _ _ _ I _ _ i w Hp ltac:(lia) Hw) as (w0 & Hw0 & _).
  assert (forall b, b ∈ R -> x + 8 * i <> b) as Hne.
  { intros b Hb'. pose proof (live_out _ _ Hl b Hb'). pose proof (osize_pos _ _ _ Hl Hb'). lia. }
  assert (forall y, is_Some (hmem s !! y) -> is_Some (<[x + 8 * i := t']> (hmem s) !! y)) as Hdom.
  { intros y Hy. destruct (decide (x + 8 * i = y)) as [->|]; [rewrite lookup_insert_eq; eauto|by rewrite lookup_insert_ne]. }
  destruct I as [Hnd Hlv Hh Har Ht Hfw Ho Hfr Hdm Hc]. split; simpl; try done.
  - by apply heap_ok_dom.
  - intros b y Hby. rewrite lookup_insert_ne by (eapply Hne, Hlv, place_elem; done). eauto.
  - intros b Hb' Hnb. rewrite lookup_insert_ne by auto. auto.
  - intros y Hy Hyr. rewrite lookup_insert_ne by lia. auto.
  - auto.
  - intros b y j v Hby Hj Hv. destruct (decide (x + 8 * i = y + 8 * j)) as [He|He].
    + destruct (place_word_inj s0 R order a b x y i j) as [<- <-]; try done; [lia|].
      rewrite He, lookup_insert_eq. exists t'. split; [done|]. unfold copied_word. rewrite Hw in Hv. injection Hv as <-.
      rewrite decide_True; [done|]. split; [done|lia].
    + rewrite lookup_insert_ne by done. destruct (Hc b y j v Hby Hj Hv) as (v' & Hv' & Hcv). exists v'. split; [done|].
      destruct (place_mult _ _ _ _ Hby) as [ky Hky]. destruct (place_mult _ _ _ _ Hp) as [kx Hkx].
      unfold copied_word in *. case_decide as Hd; case_decide as Hd'; try done.
      * exfalso. apply Hd'. destruct Hd. split; [done|lia].
      * exfalso. apply Hd. destruct Hd'. split; [done|lia].
Qed.

Lemma evac_field_spec order s a x i : inv order (x + 8 * i) s -> place start order a = Some x -> i ∈ ofields s0 a ->
  wp (evac_field (x + 8 * i)) (stepped order (fun _ => x + 8 * (i + 1)) (fun _ _ => True)) s.
Proof using Hl.
  intros I Hp Hi. assert (a ∈ R) as Ha by (eapply (inv_live _ _ _ _ _ I), place_elem; done).
  pose proof (ofields_range _ _ _ _ Hl Ha Hi) as Hr. pose proof (place_bounds _ _ Hl _ _ _ I _ _ Hp) as Hb.
  destruct (live_words _ _ Hl a i Ha ltac:(lia)) as [w Hw].
  destruct (inv_copy _ _ _ _ _ I _ _ i w Hp ltac:(lia) Hw) as (w0 & Hw0 & Hcw).
  unfold copied_word in Hcw. rewrite decide_False in Hcw by lia. subst w0.
  unfold evac_field. apply wp_bind. eapply wp_load_w; [exact Hw0|]. cbn beta iota. apply wp_bind.
  eapply wp_mono; [apply (evac_one_spec order); [exact I|lia|]|].
  { intros Hbw. by apply (live_closed _ _ Hl a i w). }
  intros [t'|e| |] s1; cbn [stepped]; try done. intros (e & I1 & Hf).
  assert (place start (order ++ e) a = Some x) as Hp1 by by apply place_app_l.
  destruct (inv_copy _ _ _ _ _ I1 _ _ i w Hp1 ltac:(lia) Hw) as (w1 & Hw1 & _).
  apply wp_store; [eauto|]. exists e. split; [|done]. by eapply inv_scan.
Qed.

Lemma fields_spec order s a x j n : inv order (x + 8 * j) s -> place start order a = Some x -> 0 <= n ->
  (forall i, j <= i < j + n -> i ∈ ofields s0 a) ->
  wp (for_each (map (fun i => x + 8 * i) (seqZ j n)) evac_field)
     (stepped order (fun _ => x + 8 * (j + n)) (fun _ _ => True)) s.
Proof using Hl.
  intros I Hp Hn. revert j order s I Hp. pattern n. apply natlike_ind; [..|done]; clear n Hn.
  { intros j order s I Hp _. exists []. rewrite app_nil_r, Z.add_0_r. done. }
  intros n Hn IH j order s I Hp Hi. rewrite seqZ_cons by lia. cbn [map for_each]. apply wp_bind.
  eapply wp_mono; [eapply evac_field_spec; [exact I|exact Hp|apply Hi; lia]|].
  intros [[]|e| |] s1; cbn [stepped]; try done. intros (e & I1 & _). rewrite Z.pred_succ.
  eapply wp_mono; [apply (IH (Z.succ j) (order ++ e)); [exact I1|by apply place_app_l|intros; apply Hi; lia]|].
  intros [[]|e'| |] s2; cbn [stepped]; try done. intros (e' & I2 & _). exists (e ++ e').
  rewrite app_assoc. replace (j + Z.succ n) with (Z.succ j + n) by lia. done.
Qed.
(** The fields of an object follow one another to its end. *)
Lemma scan_fields order s a x f n : inv order x s -> place start order a = Some x ->
  ofields s0 a = seqZ f n -> 0 <= f -> 0 <= n -> f + n = osize s0 a ->
  wp (for_each (map (fun i => x + 8 * i) (seqZ f n)) evac_field)
     (stepped order (fun _ => x + 8 * osize s0 a) (fun _ _ => True)) s.
Proof using Hl.
  intros I Hp Hof Hf Hn He. rewrite <- He. eapply fields_spec; [|exact Hp|done|].
  - eapply (inv_skip _ _ Hl _ _ _ I a x 0 f); [done|lia|lia|lia|]. intros k. rewrite Hof. intros Hk%elem_of_seqZ. lia.
  - intros i Hi. rewrite Hof. by apply elem_of_seqZ.
Qed.

(** The object at the scan position. *)
Lemma scan_here o1 a o2 s : inv (o1 ++ a :: o2) (start + 8 * total s0 o1) s ->
  a ∈ R /\ place start (o1 ++ a :: o2) a = Some (start + 8 * total s0 o1) /\
  exists h, hmem s !! (start + 8 * total s0 o1) = Some h /\ 0 <= h /\ tag h <= KIND_MAP /\
    ofields s0 a = hfields h /\ osize s0 a = hwords h.
Proof using Hl.
  intros I. assert (a ∈ R) as Ha by (apply (inv_live _ _ _ _ _ I), elem_of_app; right; apply elem_of_cons; by left).
  assert (a ∉ o1) as Hn1.
  { intros Hin. pose proof (inv_nodup _ _ _ _ _ I) as (_ & Hd & _)%NoDup_app.
    apply (Hd a Hin), elem_of_cons. by left. }
  assert (place start (o1 ++ a :: o2) a = Some (start + 8 * total s0 o1)) as Hp.
  { rewrite place_app_r by done. simpl. by rewrite decide_True. }
  destruct (live_header _ _ Hl a Ha) as (h & Hh & Hh0 & Hk). pose proof (osize_pos _ _ _ Hl Ha) as Hsz.
  destruct (inv_copy _ _ _ _ _ I a _ 0 h Hp) as (h' & Hh' & Hch); [lia|by rewrite Z.mul_0_r, Z.add_0_r|].
  unfold copied_word in Hch.
  rewrite decide_False in Hch by (intros [Hin _]; apply (ofields_range _ _ _ _ Hl Ha) in Hin; lia). subst h'.
  rewrite Z.mul_0_r, Z.add_0_r in Hh'. split_and!; [done|done|]. exists h. split_and!; try done.
  - unfold ofields. by rewrite Hh.
  - unfold osize. by rewrite Hh.
Qed.

(** From any object of to-space on, the scan ends with everything scanned. *)
Lemma scan_loop_spec fuel : forall scan o1 o2 s,
  inv (o1 ++ o2) (start + 8 * total s0 o1) s -> scan = top (hp s0) + total s0 o1 ->
  cap_words (hp s0) - scan < Z.of_nat fuel ->
  wp (scan_loop fuel scan) (stepped (o1 ++ o2) ptop (fun _ _ => True)) s.
Proof using Hl.
  induction fuel as [|fuel IH]; intros scan o1 o2 s I Hs Hf.
  all: pose proof (inv_top _ _ _ _ _ I) as Ht; rewrite total_app in Ht; pose proof (inv_ptop _ _ _ _ _ I) as Hpt; rewrite total_app in Hpt.
  all: destruct (inv_arena _ _ _ _ _ I) as [Hba Hca]; pose proof (ok_top _ (inv_heap _ _ _ _ _ I)) as Hcap.
  all: assert (0 <= total s0 o2) as Ho2 by
    (apply (total_nonneg _ R); [done|]; intros b Hb; apply (inv_live _ _ _ _ _ I), elem_of_app; by right).
  { lia. }
  cbn [scan_loop]. apply wp_bind, wp_gets. cbn beta iota. case_bool_decide as Hlt.
  2: { apply wp_ret. exists []. rewrite app_nil_r. split; [|done]. replace (ptop s) with (start + 8 * total s0 o1) by lia. done. }
  destruct o2 as [|a o2]; [rewrite total_nil in *; lia|]. set (order := o1 ++ a :: o2) in *.
  set (x := start + 8 * total s0 o1) in *.
  destruct (scan_here _ _ _ _ I) as (Ha & Hp & h & Hh & Hh0 & Hk & Hfe & Hwe). pose proof (osize_pos _ _ _ Hl Ha) as Hsz.
  assert (hbase (hp s) + 8 * scan = x) as Hx by (unfold x, ptop; rewrite Hba; lia).
  apply wp_bind. eapply wp_load_w; [by rewrite Hx|]. cbn beta iota zeta.
  assert (forall e s1 sc, inv (order ++ e) (x + 8 * osize s0 a) s1 -> sc = scan + osize s0 a ->
    wp (scan_loop fuel sc) (stepped order ptop (fun _ _ => True)) s1) as Hnext.
  { intros e s1 sc I1 ->. assert (order ++ e = (o1 ++ [a]) ++ (o2 ++ e)) as Heq by (unfold order; rewrite <- !app_assoc; done).
    rewrite Heq in I1. eapply wp_mono; [apply (IH _ (o1 ++ [a]) (o2 ++ e)); rewrite ?total_app, ?total_cons, ?total_nil|].
    - replace (start + 8 * (total s0 o1 + (osize s0 a + 0))) with (x + 8 * osize s0 a) by (unfold x; lia). done.
    - lia.
    - lia.
    - intros [y|e1| |] s2; cbn [stepped]; try done. intros (e1 & I2 & _). exists (e ++ e1). split; [|done].
      by rewrite app_assoc, Heq. }
  assert (forall (l : list Z) f n sc, ofields s0 a = seqZ f n -> l = map (fun i => x + 8 * i) (seqZ f n) -> 0 <= f -> 0 <= n -> f + n = osize s0 a ->
    sc = scan + osize s0 a -> wp (_ ← for_each l evac_field; scan_loop fuel sc) (stepped order ptop (fun _ _ => True)) s) as Hobj.
  { intros l f n sc Hof -> Hf0 Hn Hfn Hsc. apply wp_bind. eapply wp_mono; [by apply (scan_fields order s a x f n)|].
    intros [[]|e| |] s1; cbn [stepped]; try done. intros (e & I1 & _). by apply (Hnext e). }
  pose proof (shiftr3_nonneg h Hh0) as Hn. fold (tag h). unfold hfields in Hfe. unfold hwords in Hwe.
  case_bool_decide as Hk1; [rewrite decide_True in Hfe by done; rewrite decide_True in Hwe by done|rewrite decide_False in Hfe by done; rewrite decide_False in Hwe by done].
  { eapply Hobj; [exact Hfe|by apply map_seqZ_shift; intros; lia|lia|lia|lia|lia]. }
  case_bool_decide as Hk2; [rewrite decide_True in Hfe by done; rewrite decide_True in Hwe by done|rewrite decide_False in Hfe by done; rewrite decide_False in Hwe by done].
  { eapply (Hobj _ 1 2); [exact Hfe| |lia|lia|lia|lia]. change (seqZ 1 2) with [1; 2]. cbn [map]. f_equal; [lia|]. f_equal. lia. }
  case_bool_decide as Hk3; [rewrite decide_True in Hfe by done; rewrite decide_True in Hwe by done|rewrite decide_False in Hfe by done; rewrite decide_False in Hwe by done].
  { apply (Hnext []); [|lia]. rewrite app_nil_r. eapply (inv_skip _ _ Hl _ _ _ I a x 0); [done|lia|lia|lia|].
    rewrite Hfe. intros k Hin. by apply not_elem_of_nil in Hin. }
  pose proof (tag_range h). rewrite bool_decide_true by (unfold KIND_TUPLE, KIND_CONS, KIND_BINARY, KIND_MAP in *; lia).
  eapply Hobj; [exact Hfe|by apply map_seqZ_shift; intros; lia|lia|lia|lia|lia].
Qed.

Lemma evac_roots_spec roots : forall order s, inv order start s -> Forall (fun t => is_boxed t = true -> t ∈ R) roots ->
  wp (evac_roots roots) (stepped order (fun _ => start) (fun o roots' => Forall2 (forward s0 o) roots roots')) s.
Proof using Hl.
  induction roots as [|r rs IH]; intros order s I Hr; cbn [evac_roots].
  { apply wp_ret. exists []. rewrite app_nil_r. done. }
  inversion Hr; subst. apply wp_bind. eapply wp_mono; [apply (evac_one_spec order start); [done| |done]|].
  { rewrite (inv_ptop _ _ _ _ _ I). pose proof (total_nonneg _ _ _ Hl (inv_live _ _ _ _ _ I)). lia. }
  intros [r'|e| |] s1; cbn [stepped]; try done. intros (e & I1 & Hf). apply wp_bind.
  eapply wp_mono; [by apply (IH (order ++ e))|]. intros [rs'|e'| |] s2; cbn [stepped]; try done.
  intros (e' & I2 & Hf'). apply wp_ret. exists (e ++ e'). rewrite app_assoc. split; [done|].
  constructor; [by apply forward_app|done].
Qed.

Lemma evacuate_spec roots s : inv [] start s -> hp s = hp s0 -> Forall (fun t => is_boxed t = true -> t ∈ R) roots ->
  wp (evacuate roots) (stepped [] ptop (fun o roots' => Forall2 (forward s0 o) roots roots')) s.
Proof using Hl.
  intros I Hhp Hr. unfold evacuate. apply wp_bind, wp_gets. cbn beta iota. rewrite Hhp. apply wp_bind.
  eapply wp_mono; [by apply evac_roots_spec|]. intros [rs'|e| |] s1; cbn [stepped app]; try done.
  intros (e & I1 & Hf). apply wp_bind. eapply wp_mono; [apply (scan_loop_spec _ _ [] e)|].
  - rewrite total_nil, Z.mul_0_r, Z.add_0_r. done.
  - rewrite total_nil. lia.
  - lia.
  - intros [[]|e'| |] s2; cbn [stepped app]; try done. intros (e' & I2 & _). apply wp_ret. exists (e ++ e'). split; [done|].
    eapply Forall2_impl; [exact Hf|]. intros w w' Hw. by apply (forward_app s0 e e').
Qed.
End steps.
