(* ===== verification/EvacProofs.v ===== *)
(** * EvacProofs: compaction keeps every value

    The collector copies each object that is reachable from the roots exactly once, the new
    roots denote the values of the old ones inside the words it allocated, and it fails exactly
    when the reachable objects do not fit. *)

From S2P Require Import Prelude Term TermImm TermHeap TermVal Evac EvacInv EvacSteps.

(** ** Reachability *)

Section reachable.
Context (s : HS).
Local Abbreviation m := (hmem s).

Inductive reachable (roots : list Z) : Z -> Prop :=
| reach_root t : t ∈ roots -> is_boxed t = true -> reachable roots t
| reach_field a i w : reachable roots a -> i ∈ ofields s a -> m !! (a + 8 * i) = Some w -> is_boxed w = true ->
    reachable roots w.

(** A well-formed object. *)
Record object (a : Z) : Prop := {
  object_addr : 0 < a /\ tag a = 0;
  object_header : exists h, m !! a = Some h /\ 0 <= h /\ tag h <= KIND_MAP;
  object_mapped i : 0 <= i < osize s a -> is_Some (m !! (a + 8 * i));
}.

(** [objs] holds, with repetitions, the objects met on a walk from [roots]. *)
Record walk (roots objs : list Z) : Prop := {
  walk_roots t : t ∈ roots -> is_boxed t = true -> t ∈ objs;
  walk_object a : a ∈ objs -> object a;
  walk_reach a : a ∈ objs -> reachable roots a;
  walk_closed a i w : a ∈ objs -> i ∈ ofields s a -> m !! (a + 8 * i) = Some w -> is_boxed w = true -> w ∈ objs;
}.

Lemma reachable_trans r1 r2 a : (forall t, t ∈ r1 -> is_boxed t = true -> reachable r2 t) -> reachable r1 a -> reachable r2 a.
Proof using Type. intros Hr. induction 1; [auto|by eapply reach_field]. Qed.

Lemma reachable_mono r1 r2 a : r1 ⊆ r2 -> reachable r1 a -> reachable r2 a.
Proof using Type. intros Hr. apply reachable_trans. intros t Ht Hb. apply reach_root; auto. Qed.

Lemma walk_nil : walk [] [].
Proof using Type. split; intros *; intros H; by apply not_elem_of_nil in H. Qed.

Lemma walk_app r1 r2 o1 o2 : walk r1 o1 -> walk r2 o2 -> walk (r1 ++ r2) (o1 ++ o2).
Proof using Type.
  intros [Hr1 Ho1 Hc1 Hf1] [Hr2 Ho2 Hc2 Hf2]. split; intros *; rewrite ?elem_of_app.
  - intros [H|H]; auto.
  - intros [H|H]; auto.
  - intros [H|H]; [eapply reachable_mono, Hc1, H|eapply reachable_mono, Hc2, H]; set_solver.
  - intros [H|H]; eauto.
Qed.

(** The object [t] in front of a walk from its fields. *)
Lemma walk_cons t ts o : is_boxed t = true -> object t ->
  (forall i w, i ∈ ofields s t -> m !! (t + 8 * i) = Some w -> w ∈ ts) ->
  (forall w, w ∈ ts -> exists i, i ∈ ofields s t /\ m !! (t + 8 * i) = Some w) ->
  walk ts o -> walk [t] (t :: o).
Proof using Type.
  intros Hb Ht Hin Hout [Hr Ho Hc Hf].
  assert (forall a, a ∈ o -> reachable [t] a) as Hreach.
  { intros a Ha. eapply reachable_trans; [|by apply Hc]. intros w Hw Hbw. destruct (Hout w Hw) as (i & Hi & Hm).
    eapply reach_field; [|done..]. apply reach_root; [by apply list_elem_of_singleton|done]. }
  split; intros *; rewrite ?elem_of_cons.
  - intros [->|H%not_elem_of_nil]; [auto|done].
  - intros [->|H]; auto.
  - intros [->|H]; [|auto]. apply reach_root; [by apply list_elem_of_singleton|done].
  - intros [->|H] Hi Hm Hbw; right; [|by eapply Hf]. apply Hr; [by eapply Hin|done].
Qed.

(** *** The objects of a value *)

Lemma boxed_object k n t : boxed m t k n -> 0 <= k <= 3 ->
  (forall i, 1 <= i < hwords (header n k) -> is_Some (m !! (t + 8 * i))) ->
  object t /\ osize s t = hwords (header n k) /\ ofields s t = hfields (header n k).
Proof using Type.
  intros (Ht & Htag & Hn & Hm) Hk Hw. unfold osize, ofields. rewrite Hm. cbn [from_option id]. split_and!; [|done|done].
  split; [by destruct Ht| |].
  - exists (header n k). pose proof (header_range n k). split_and!; [done|lia|]. unfold tag. rewrite header_tag by lia. unfold KIND_MAP. lia.
  - unfold osize. rewrite Hm. cbn [from_option id]. intros i Hi. destruct (decide (i = 0)) as [->|].
    + rewrite Z.mul_0_r, Z.add_0_r. eauto.
    + apply Hw. lia.
Qed.

Lemma hwords_header n k : 0 <= k <= 3 -> 0 <= n < 2 ^ 61 ->
  hwords (header n k) =
    (if decide (k = KIND_TUPLE) then 1 + n else if decide (k = KIND_CONS) then 3
     else if decide (k = KIND_BINARY) then 1 + div_ceil n 8 else 1 + 2 * n) /\
  hfields (header n k) =
    (if decide (k = KIND_TUPLE) then seqZ 1 n else if decide (k = KIND_CONS) then [1; 2]
     else if decide (k = KIND_BINARY) then [] else seqZ (1 + n) n).
Proof using Type.
  intros Hk Hn. unfold hwords, hfields, tag. rewrite header_tag, header_arity by lia. done.
Qed.

(** A value met by a walk of as many words as its deep copy takes. *)
Definition walked (v : val) (t : Z) : Prop := exists o, walk [t] o /\ total s o = vsize v.

Lemma walked_list vs ts : Forall2 walked vs ts -> exists o, walk ts o /\ total s o = zsum (map vsize vs).
Proof using Type.
  induction 1 as [|v t vs ts (o & Ho & Hv) _ (o' & Ho' & Hv')]; [exists []; split; [apply walk_nil|done]|].
  exists (o ++ o'). split; [by apply (walk_app [t] ts)|]. rewrite total_app, Hv, Hv'. done.
Qed.

Lemma walked_imm w : imm_word w -> walked (VImm w) w.
Proof using Type.
  intros Hw. exists []. split; [|done]. split; intros *; try (intros H; by apply not_elem_of_nil in H).
  intros ->%list_elem_of_singleton. by rewrite imm_not_boxed.
Qed.

(** [xs] fills the words of [t] from the word [j] on. *)
Lemma slots_index t j xs w : slots_at m (t + 8 * j) xs ->
  w ∈ xs <-> exists i, i ∈ seqZ j (zlen xs) /\ m !! (t + 8 * i) = Some w.
Proof using Type.
  rewrite slots_at_lookup. intros Hs. split.
  - intros (k & Hk)%list_elem_of_lookup. exists (j + Z.of_nat k).
    assert (lookupz xs (Z.of_nat k) = Some w) as Hz by (apply lookupz_Some; rewrite Nat2Z.id; split; [lia|done]).
    pose proof (lookupz_range _ _ _ Hz). split; [apply elem_of_seqZ; lia|].
    rewrite <- (Hs _ _ Hz). f_equal. lia.
  - intros (i & Hi%elem_of_seqZ & Hm). destruct (lookupz_is_Some xs (i - j)) as [w' Hw']; [lia|].
    pose proof (Hs _ _ Hw') as He. replace (t + 8 * j + 8 * (i - j)) with (t + 8 * i) in He by lia.
    assert (w' = w) as -> by congruence. apply lookupz_Some in Hw' as [_ Hw']. by eapply list_elem_of_lookup_2.
Qed.

Lemma slots_mapped t j xs i : slots_at m (t + 8 * j) xs -> j <= i < j + zlen xs -> is_Some (m !! (t + 8 * i)).
Proof using Type.
  rewrite slots_at_lookup. intros Hs Hi. destruct (lookupz_is_Some xs (i - j)) as [w Hw]; [lia|].
  apply Hs in Hw. replace (t + 8 * j + 8 * (i - j)) with (t + 8 * i) in Hw by lia. eauto.
Qed.

Lemma walked_tuple vs xs t : tuple_at m t xs -> Forall2 walked vs xs -> walked (VTuple vs) t.
Proof using Type.
  intros [Hb Hs] Hall. destruct (walked_list _ _ Hall) as (o & Ho & Hv). exists (t :: o).
  apply Forall2_length, zlen_inj in Hall. pose proof Hb as (_&_&Hn&_).
  destruct (hwords_header (zlen xs) KIND_TUPLE) as [Hw Hf]; [by vm_compute|done|].
  change (hwords (header (zlen xs) KIND_TUPLE) = 1 + zlen xs) in Hw. change (hfields (header (zlen xs) KIND_TUPLE) = seqZ 1 (zlen xs)) in Hf.
  replace (t + 8) with (t + 8 * 1) in Hs by lia.
  destruct (boxed_object _ _ _ Hb) as (Hob & Hsz & Hfi); [by vm_compute| |].
  { intros i. rewrite Hw. intros Hi. by eapply slots_mapped; [exact Hs|lia]. }
  split; [|rewrite total_cons, Hv, Hsz, Hw; cbn [vsize]; rewrite Hall; lia].
  eapply walk_cons; [by eapply boxed_is_boxed|done|..|done]; rewrite Hfi, Hf.
  - intros i w Hi Hm. apply (slots_index t 1 xs w Hs). eauto.
  - intros w. by apply slots_index.
Qed.

Lemma walked_map ks vs xs t : map_at m t ks xs -> Forall2 walked vs xs -> walked (VMap ks vs) t.
Proof using Type.
  intros (Hb & Hlen & Hk & Hs) Hall. destruct (walked_list _ _ Hall) as (o & Ho & Hv). exists (t :: o).
  pose proof Hb as (_&_&Hn&_). apply zlen_inj in Hlen.
  destruct (hwords_header (zlen ks) KIND_MAP) as [Hw Hf]; [by vm_compute|done|].
  change (hwords (header (zlen ks) KIND_MAP) = 1 + 2 * zlen ks) in Hw. change (hfields (header (zlen ks) KIND_MAP) = seqZ (1 + zlen ks) (zlen ks)) in Hf.
  replace (t + 8) with (t + 8 * 1) in Hk by lia.
  destruct (boxed_object _ _ _ Hb) as (Hob & Hsz & Hfi); [by vm_compute| |].
  { intros i. rewrite Hw. intros Hi. destruct (Z.lt_ge_cases i (1 + zlen ks)); [by eapply slots_mapped; [exact Hk|lia]|].
    by eapply slots_mapped; [exact Hs|lia]. }
  split; [|rewrite total_cons, Hv, Hsz, Hw; cbn [vsize]; lia].
  eapply walk_cons; [by eapply boxed_is_boxed|done|..|done]; rewrite Hfi, Hf, <- Hlen; rewrite <- Hlen in Hs.
  - intros i w Hi Hm. apply (slots_index t _ xs w Hs). eauto.
  - intros w. by apply slots_index.
Qed.

Lemma walked_cons h tl x y t : cons_at m t x y -> walked h x -> walked tl y -> walked (VCons h tl) t.
Proof using Type.
  intros (Hb & Hx & Hy) Hh Htl. destruct (walked_list [h; tl] [x; y]) as (o & Ho & Hv); [by repeat constructor|]. exists (t :: o).
  pose proof Hb as (_&_&Hn&_).
  destruct (hwords_header 0 KIND_CONS) as [Hw Hf]; [by vm_compute|done|].
  destruct (boxed_object _ _ _ Hb) as (Hob & Hsz & Hfi); [by vm_compute| |].
  { intros i. rewrite Hw. change (1 <= i < 3 -> is_Some (m !! (t + 8 * i))). intros Hi.
    assert (i = 1 \/ i = 2) as [-> | ->] by lia; eauto. }
  change (hwords (header 0 KIND_CONS) = 3) in Hw. change (hfields (header 0 KIND_CONS) = [1; 2]) in Hf.
  split; [|rewrite total_cons, Hv, Hsz, Hw; cbn [map vsize zsum foldr]; lia].
  eapply walk_cons; [by eapply boxed_is_boxed|done|..|done]; rewrite Hfi, Hf.
  - intros i w Hi Hm.  rewrite !elem_of_cons in Hi.
    destruct Hi as [->|[->|Hi%not_elem_of_nil]]; [| |done].
    + replace (t + 8 * 1) with (t + 8) in Hm by lia. rewrite Hx in Hm. injection Hm as <-. apply elem_of_cons. by left.
    + replace (t + 8 * 2) with (t + 16) in Hm by lia. rewrite Hy in Hm. injection Hm as <-.
      apply elem_of_cons. right. by apply list_elem_of_singleton.
  - intros w. rewrite !elem_of_cons.
    intros [->|[->|Hi%not_elem_of_nil]]; [exists 1|exists 2|done]; (split; [|done]); rewrite !elem_of_cons; auto.
Qed.

Lemma walked_bin bs t : bin_at m t bs -> walked (VBin bs) t.
Proof using Type.
  intros [Hb Hs]. exists [t]. pose proof Hb as (_&_&Hn&_). pose proof (div_ceil8_spec (zlen bs)) as Hd.
  destruct (hwords_header (zlen bs) KIND_BINARY) as [Hw Hf]; [by vm_compute|done|].
  change (hwords (header (zlen bs) KIND_BINARY) = 1 + div_ceil (zlen bs) 8) in Hw. change (hfields (header (zlen bs) KIND_BINARY) = []) in Hf.
  destruct (boxed_object _ _ _ Hb) as (Hob & Hsz & Hfi); [by vm_compute| |].
  { intros i. rewrite Hw. intros Hi. destruct (lookupz_is_Some bs (8 * (i - 1))) as [b Hb']; [lia|].
    apply Hs in Hb'. unfold byte_at in Hb'. apply fmap_Some in Hb' as (w & Hw' & _).
    rewrite (Z.mul_comm 8 (i - 1)), Z.div_mul in Hw' by lia. replace (t + 8 + 8 * (i - 1)) with (t + 8 * i) in Hw' by lia. eauto. }
  split; [|rewrite total_cons, total_nil, Hsz, Hw; cbn [vsize]; lia].
  eapply (walk_cons t []); [by eapply boxed_is_boxed|done|..|apply walk_nil]; rewrite ?Hfi, ?Hf.
  - intros i w Hi. by apply not_elem_of_nil in Hi.
  - intros w Hi. by apply not_elem_of_nil in Hi.
Qed.

Lemma repr_walked v t : repr m v t -> walked v t.
Proof using Type.
  revert t. induction v as [w|vs IH|h tl IHh IHt|bs|ks vs IH] using val_induction; intros t Hr%repr_inv.
  - destruct Hr as [-> Hw]. by apply walked_imm.
  - destruct Hr as (xs & Ht & Hall). eapply walked_tuple; [done|]. eapply Forall2_impl_elem; [exact Hall|].
    intros v x Hv. rewrite Forall_forall in IH. by apply IH.
  - destruct Hr as (x & y & Hc & Hx & Hy). eapply walked_cons; eauto.
  - by apply walked_bin.
  - destruct Hr as (xs & Ht & _ & Hall). eapply walked_map; [done|]. eapply Forall2_impl_elem; [exact Hall|].
    intros v x Hv. rewrite Forall_forall in IH. by apply IH.
Qed.
End reachable.

(** ** The copies denote the old values *)

(** Words related one by one to the words of a list. *)
Lemma slots_build (M : mem) b (P : Z -> Z -> Prop) xs :
  (forall i x, lookupz xs i = Some x -> exists y, M !! (b + 8 * i) = Some y /\ P x y) ->
  exists ys, slots_at M b ys /\ Forall2 P xs ys.
Proof.
  revert b. induction xs as [|x xs IH]; intros b H; [exists []; done|].
  destruct (H 0 x) as (y & Hy & HP); [done|]. rewrite Z.mul_0_r, Z.add_0_r in Hy.
  destruct (IH (b + 8)) as (ys & Hs & Hall).
  { intros i z Hz. replace (b + 8 + 8 * i) with (b + 8 * (1 + i)) by lia. by apply H, lookupz_cons_shift. }
  exists (y :: ys). split; [done|by constructor].
Qed.

Lemma Forall2_forward (F : Z -> Z -> Prop) (P' Q' : val -> Z -> Prop) vs xs ys :
  Forall (fun v => forall x y, P' v x -> F x y -> Q' v y) vs -> Forall2 P' vs xs -> Forall2 F xs ys -> Forall2 Q' vs ys.
Proof.
  intros Hall HP. revert ys Hall. induction HP as [|v x vs xs Hv _ IH]; intros ys Hall HF; inversion HF; subst; [constructor|].
  inversion Hall; subst. constructor; eauto.
Qed.

Section final.
Context (s0 : HS) (R : gset Z) (Hs0 : heap_ok s0) (Hl : live s0 R).
Context (order : list Z) (s : HS) (I : inv s0 R order (ptop s) s).
Local Abbreviation M := (region (ptop s0) (ptop s) (hmem s)).
Local Abbreviation place := (place s0 (ptop s0) order).

Lemma final_word a x i w : place a = Some x -> 0 <= i < osize s0 a -> hmem s0 !! (a + 8 * i) = Some w ->
  exists w', M !! (x + 8 * i) = Some w' /\ if decide (i ∈ ofields s0 a) then forward s0 order w w' else w' = w.
Proof using Hl I.
  intros Hp Hi Hw. destruct (inv_copy _ _ _ _ _ I a x i w Hp Hi Hw) as (w' & Hw' & Hc).
  pose proof (place_bounds _ _ Hl _ _ _ I _ _ Hp). exists w'. split; [apply region_lookup; split; [done|lia]|].
  unfold copied_word in Hc. case_decide as H1; case_decide as H2; try done.
  - exfalso. apply H2. apply H1.
  - exfalso. apply H1. split; [done|lia].
Qed.

Lemma final_slots t t' j xs : place t = Some t' -> slots_at (hmem s0) (t + 8 * j) xs -> 0 <= j ->
  j + zlen xs <= osize s0 t -> (forall i, j <= i < j + zlen xs -> i ∈ ofields s0 t) ->
  exists ys, slots_at M (t' + 8 * j) ys /\ Forall2 (forward s0 order) xs ys.
Proof using Hl I.
  intros Hp Hs Hj Hn Hf. rewrite slots_at_lookup in Hs. apply slots_build. intros i x Hx. pose proof (lookupz_range _ _ _ Hx).
  apply Hs in Hx. replace (t + 8 * j + 8 * i) with (t + 8 * (j + i)) in Hx by lia.
  destruct (final_word t t' (j + i) x Hp) as (y & Hy & HP); [lia|done|]. rewrite decide_True in HP by (apply Hf; lia).
  exists y. split; [|done]. by replace (t' + 8 * j + 8 * i) with (t' + 8 * (j + i)) by lia.
Qed.

Lemma final_keys t t' j xs : place t = Some t' -> slots_at (hmem s0) (t + 8 * j) xs -> 0 <= j ->
  j + zlen xs <= osize s0 t -> (forall i, j <= i < j + zlen xs -> i ∉ ofields s0 t) -> slots_at M (t' + 8 * j) xs.
Proof using Hl I.
  intros Hp Hs Hj Hn Hf. rewrite slots_at_lookup in *. intros i x Hx. pose proof (lookupz_range _ _ _ Hx).
  apply Hs in Hx. replace (t + 8 * j + 8 * i) with (t + 8 * (j + i)) in Hx by lia.
  destruct (final_word t t' (j + i) x Hp) as (y & Hy & HP); [lia|done|]. rewrite decide_False in HP by (apply Hf; lia).
  subst y. by replace (t' + 8 * j + 8 * i) with (t' + 8 * (j + i)) by lia.
Qed.

Lemma final_boxed t t' k n : boxed (hmem s0) t k n -> forward s0 order t t' -> 0 <= k <= 3 ->
  place t = Some t' /\ boxed M t' k n /\ osize s0 t = hwords (header n k) /\ ofields s0 t = hfields (header n k).
Proof using Hs0 Hl I.
  intros Hb Hf Hk. unfold forward in Hf. rewrite (boxed_is_boxed _ _ _ _ Hb) in Hf. destruct Hb as (Ht & Htag & Hn & Hm).
  assert (osize s0 t = hwords (header n k) /\ ofields s0 t = hfields (header n k)) as [Hsz Hfi] by (unfold osize, ofields; by rewrite Hm).
  pose proof (place_bounds _ _ Hl _ _ _ I _ _ Hf) as Hb. assert (t ∈ R) as HR by (eapply (inv_live _ _ _ _ _ I), place_elem; done).
  pose proof (osize_pos _ _ _ Hl HR) as Hpos. split_and!; try done.
  destruct (final_word t t' 0 (header n k) Hf) as (h & Hh & HP); [lia|by rewrite Z.mul_0_r, Z.add_0_r|].
  rewrite decide_False in HP by (intros Hin; apply (ofields_range _ _ _ _ Hl HR) in Hin; lia). subst h.
  rewrite Z.mul_0_r, Z.add_0_r in Hh. split; [|split; [exact (place_tag _ _ _ _ _ I _ _ Hf)|done]].
  destruct (inv_heap _ _ _ _ _ I) as [_ Hto [Hend _] _], Hs0 as [[Hb0 _] Ht0 _ _].
  unfold ptop in *. lia.
Qed.

(** The copy of whatever denotes [v] denotes [v]. *)
Definition kept (v : val) : Prop := forall t t', repr (hmem s0) v t -> forward s0 order t t' -> repr M v t'.

Lemma kept_tuple vs : Forall kept vs -> kept (VTuple vs).
Proof using Hs0 Hl I.
  intros IH t t' Hr%repr_inv Hf.
  destruct Hr as (xs & [Hb Hs] & Hall). destruct (final_boxed _ _ _ _ Hb Hf) as (Hp & Hb' & Hsz & Hfi); [by vm_compute|].
  pose proof Hb as (_&_&Hn&_). destruct (hwords_header (zlen xs) KIND_TUPLE) as [Hw Hfl]; [by vm_compute|done|].
  rewrite <- Hsz in Hw. rewrite <- Hfi in Hfl. change (osize s0 t = 1 + zlen xs) in Hw. change (ofields s0 t = seqZ 1 (zlen xs)) in Hfl.
  destruct (final_slots t t' 1 xs Hp) as (ys & Hys & Hfw); [done|lia|lia|intros; rewrite Hfl; by apply elem_of_seqZ|].
  econstructor; [split|]; [..|by eapply Forall2_forward].
  - apply Forall2_length, zlen_inj in Hfw. by rewrite <- Hfw.
  - done.
Qed.

Lemma kept_cons h tl : kept h -> kept tl -> kept (VCons h tl).
Proof using Hs0 Hl I.
  intros IHh IHt t t' Hr%repr_inv Hf.
  destruct Hr as (x & y & (Hb & Hx & Hy) & Hrx & Hry). destruct (final_boxed _ _ _ _ Hb Hf) as (Hp & Hb' & Hsz & Hfi); [by vm_compute|].
  destruct (hwords_header 0 KIND_CONS) as [Hw Hfl]; [by vm_compute|by vm_compute|].
  rewrite <- Hsz in Hw. rewrite <- Hfi in Hfl. change (osize s0 t = 3) in Hw. change (ofields s0 t = [1; 2]) in Hfl.
  destruct (final_slots t t' 1 [x; y] Hp) as (ys & Hys & Hfw); [|lia|rewrite Hw; by vm_compute| |].
  { split; [done|]. split; [|done]. by replace (t + 8 * 1 + 8) with (t + 16) by lia. }
  { intros i Hi. rewrite Hfl, !elem_of_cons. change (1 <= i < 3) in Hi. lia. }
  inversion Hfw as [|? x' ? ? Hx' Hfw']; subst. inversion Hfw' as [|? y' ? ? Hy' Hfn]; subst. inversion Hfn; subst.
  destruct Hys as (Hx1 & Hy1 & _). replace (t' + 8 * 1 + 8) with (t' + 16) in Hy1 by lia.
  econstructor; [split; [exact Hb'|]|..]; eauto.
Qed.

Lemma kept_bin bs : kept (VBin bs).
Proof using Hs0 Hl I.
  intros t t' Hr%repr_inv Hf.
  destruct Hr as [Hb Hs]. destruct (final_boxed _ _ _ _ Hb Hf) as (Hp & Hb' & Hsz & Hfi); [by vm_compute|].
  pose proof Hb as (_&_&Hn&_). destruct (hwords_header (zlen bs) KIND_BINARY) as [Hw Hfl]; [by vm_compute|done|].
  rewrite <- Hsz in Hw. rewrite <- Hfi in Hfl. change (osize s0 t = 1 + div_ceil (zlen bs) 8) in Hw. change (ofields s0 t = []) in Hfl.
  constructor. split; [done|]. intros i b Hbi. pose proof (lookupz_range _ _ _ Hbi) as Hri. apply Hs in Hbi. unfold byte_at in *.
  apply fmap_Some in Hbi as (w & Hwi & ->). pose proof (div_ceil8_spec (zlen bs) ltac:(lia)).
  assert (0 <= i / 8 < div_ceil (zlen bs) 8) by (split; [apply Z.div_pos; lia|apply Z.div_lt_upper_bound; lia]).
  replace (t + 8 + 8 * (i / 8)) with (t + 8 * (1 + i / 8)) in Hwi by lia.
  destruct (final_word t t' (1 + i / 8) w Hp) as (w' & Hw' & HP); [lia|done|]. rewrite Hfl, decide_False in HP by apply not_elem_of_nil.
  subst w'. replace (t' + 8 + 8 * (i / 8)) with (t' + 8 * (1 + i / 8)) by lia. by rewrite Hw'.
Qed.

Lemma kept_map ks vs : Forall kept vs -> kept (VMap ks vs).
Proof using Hs0 Hl I.
  intros IH t t' Hr%repr_inv Hf.
  destruct Hr as (xs & (Hb & Hlen & Hk & Hs) & Hks & Hall). destruct (final_boxed _ _ _ _ Hb Hf) as (Hp & Hb' & Hsz & Hfi); [by vm_compute|].
  pose proof Hb as (_&_&Hn&_). destruct (hwords_header (zlen ks) KIND_MAP) as [Hw Hfl]; [by vm_compute|done|].
  rewrite <- Hsz in Hw. rewrite <- Hfi in Hfl. change (osize s0 t = 1 + 2 * zlen ks) in Hw.
  change (ofields s0 t = seqZ (1 + zlen ks) (zlen ks)) in Hfl. pose proof Hlen as Hz%zlen_inj. pose proof (zlen_nonneg ks).
  destruct (final_slots t t' (1 + zlen ks) xs Hp) as (ys & Hys & Hfw); [done|lia|lia|intros; rewrite Hfl; apply elem_of_seqZ; lia|].
  econstructor; [split_and!|done|]; [done| | |exact Hys|by eapply Forall2_forward].
  - apply Forall2_length in Hfw. congruence.
  - apply (final_keys t t' 1 ks Hp); [done|lia|lia|]. intros i Hi. rewrite Hfl. intros Hin%elem_of_seqZ. lia.
Qed.

Lemma final_repr v : kept v.
Proof using Hs0 Hl I.
  induction v using val_induction; auto using kept_tuple, kept_cons, kept_bin, kept_map.
  intros t t' [-> Hw]%repr_inv Hf. unfold forward in Hf. rewrite imm_not_boxed in Hf by done. subst t'. by constructor.
Qed.

(** The objects reached from the new roots are the copies. *)
Lemma final_osize a x : place a = Some x -> osize s x = osize s0 a /\ ofields s x = ofields s0 a.
Proof using Hl I.
  intros Hp. assert (a ∈ R) as HR by (eapply (inv_live _ _ _ _ _ I), place_elem; done).
  destruct (live_header _ _ Hl a HR) as (h & Hh & _). pose proof (osize_pos _ _ _ Hl HR).
  destruct (final_word a x 0 h Hp) as (h' & Hh' & HP); [lia|by rewrite Z.mul_0_r, Z.add_0_r|].
  rewrite decide_False in HP by (intros Hin; apply (ofields_range _ _ _ _ Hl HR) in Hin; lia). subst h'.
  apply region_lookup in Hh' as [Hh' _]. rewrite Z.mul_0_r, Z.add_0_r in Hh'. unfold osize, ofields. by rewrite Hh, Hh'.
Qed.

Lemma forward_boxed w w' : forward s0 order w w' -> is_boxed w' = true -> place w = Some w'.
Proof using Type. unfold forward. destruct (is_boxed w) eqn:Hb; [done|]. intros ->. congruence. Qed.

Lemma final_reachable roots roots' y : Forall2 (forward s0 order) roots roots' -> reachable s roots' y -> exists a, place a = Some y.
Proof using Hl I.
  intros Hf. induction 1 as [t Ht Hb|y i w _ (a & Hp) Hi Hw Hb].
  - apply list_elem_of_lookup in Ht as [k Hk]. destruct (Forall2_lookup_r _ _ _ _ _ Hf Hk) as (t0 & _ & Hft).
    exists t0. by apply forward_boxed.
  - destruct (final_osize a y Hp) as [Hsz Hfi]. rewrite Hfi in Hi.
    assert (a ∈ R) as HR by (eapply (inv_live _ _ _ _ _ I), place_elem; done).
    pose proof (ofields_range _ _ _ _ Hl HR Hi). destruct (live_words _ _ Hl a i HR ltac:(lia)) as [w0 Hw0].
    destruct (final_word a y i w0 Hp) as (w' & Hw' & HP); [lia|done|]. rewrite decide_True in HP by done.
    apply region_lookup in Hw' as [Hw' _]. exists w0. apply forward_boxed; [|done]. by assert (w' = w) as <- by congruence.
Qed.

Lemma final_apart roots roots' : Forall2 (forward s0 order) roots roots' ->
  (forall y, reachable s roots' y -> ptop s0 <= y /\ y + 8 * osize s y <= ptop s) /\
  (forall y z, reachable s roots' y -> reachable s roots' z -> y <> z -> y + 8 * osize s y <= z \/ z + 8 * osize s z <= y).
Proof using Hl I.
  intros Hf. split.
  - intros y (a & Hp)%(final_reachable _ _ _ Hf). rewrite (proj1 (final_osize a y Hp)). by apply (place_bounds _ _ Hl _ _ _ I).
  - intros y z (a & Hp)%(final_reachable _ _ _ Hf) (b & Hq)%(final_reachable _ _ _ Hf) Hne.
    rewrite (proj1 (final_osize a y Hp)), (proj1 (final_osize b z Hq)).
    eapply (place_apart s0 R order); [done|exact (inv_live _ _ _ _ _ I)|done|done|]. intros <-. congruence.
Qed.
End final.

(** ** The collector *)

Section total.
Context (s : HS).

Lemma total_Permutation o o' : o ≡ₚ o' -> total s o = total s o'.
Proof using Type. induction 1; rewrite ?total_cons; lia. Qed.

Lemma total_submseteq o o' : (forall a, a ∈ o' -> 0 <= osize s a) -> o ⊆+ o' -> total s o <= total s o'.
Proof using Type.
  intros Hp (k & Hk)%submseteq_Permutation. rewrite (total_Permutation _ _ Hk), total_app.
  enough (0 <= total s k) by lia. unfold total. apply zsum_nonneg, Forall_forall. intros a Ha. apply Hp. rewrite Hk. set_solver.
Qed.
End total.

(** What the collector needs of from-space: the reachable objects do not overlap one another
    nor the free part of to-space. *)
Record from_space (s : HS) (roots : list Z) : Prop := {
  from_out a : reachable s roots a -> a + 8 * osize s a <= ptop s \/ pend s <= a;
  from_apart a b : reachable s roots a -> reachable s roots b -> a <> b ->
    a + 8 * osize s a <= b \/ b + 8 * osize s b <= a;
}.

Lemma walk_live s roots o : from_space s roots -> walk s roots o -> live s (list_to_set o).
Proof.
  intros [Ho Ha] [Hr Hob Hre Hc]. split; intros *; rewrite ?elem_of_list_to_set.
  - intros Hin. apply (object_addr _ _ (Hob _ Hin)).
  - intros Hin. apply (object_header _ _ (Hob _ Hin)).
  - intros Hin. apply (object_mapped _ _ (Hob _ Hin)).
  - apply Hc.
  - auto.
  - auto.
Qed.

Lemma reachable_object s roots vs a : Forall2 (repr (hmem s)) vs roots -> reachable s roots a -> object s a.
Proof.
  intros Hvs Ha. destruct (walked_list s vs roots) as (o & [Hr Ho _ Hc] & _).
  { eapply Forall2_impl; [exact Hvs|]. apply repr_walked. }
  apply Ho. induction Ha; eauto.
Qed.

(** Reachability and sizes depend on the memory only. *)
Lemma osize_mem s s' a : hmem s = hmem s' -> osize s a = osize s' a.
Proof. unfold osize. by intros ->. Qed.

Lemma reachable_mem s s' roots a : hmem s = hmem s' -> reachable s roots a -> reachable s' roots a.
Proof.
  intros Hm. induction 1 as [t Ht Hb|a i w _ IH Hi Hw Hb]; [by apply reach_root|]. unfold ofields in Hi. rewrite Hm in Hi, Hw.
  by eapply reach_field.
Qed.

Lemma inv_start s R : heap_ok s -> inv s R [] (ptop s) s.
Proof.
  intros Hs. split; try done; [constructor|..].
  - intros a Ha. by apply not_elem_of_nil in Ha.
  - rewrite total_nil. lia.
Qed.

(** What was copied is exactly what was reachable. *)
Lemma order_reachable s0 R order s roots roots' : live s0 R -> inv s0 R order (ptop s) s ->
  Forall2 (forward s0 order) roots roots' -> forall a, reachable s0 roots a -> a ∈ order.
Proof.
  intros Hl I Hf a. induction 1 as [t Ht Hb|a i w _ Ha Hi Hw Hb].
  - apply list_elem_of_lookup in Ht as [k Hk]. destruct (Forall2_lookup_l _ _ _ _ _ Hf Hk) as (t' & _ & Hft).
    unfold forward in Hft. rewrite Hb in Hft. by eapply place_elem.
  - destruct (place s0 (ptop s0) order a) as [x|] eqn:Hp; [|by apply place_None in Hp].
    pose proof (ofields_range _ _ _ _ Hl (inv_live _ _ _ _ _ I a Ha) Hi).
    destruct (final_word _ _ Hl _ _ I a x i w Hp) as (w' & _ & Hw'); [lia|done|]. rewrite decide_True in Hw' by done.
    unfold forward in Hw'. rewrite Hb in Hw'. by eapply place_elem.
Qed.

Lemma evacuate_run s roots vs :
  heap_ok s -> Forall2 (repr (hmem s)) vs roots -> from_space s roots ->
  exists objs, NoDup objs /\ (forall a, a ∈ objs <-> reachable s roots a) /\ total s objs <= zsum (map vsize vs) /\
    wp (evacuate roots) (fun r s' =>
      match r with
      | Ok roots' =>
          heap_ok s' /\ same_arena s s' /\ top (hp s') = top (hp s) + total s objs /\
          Forall2 (repr (region (ptop s) (ptop s') (hmem s'))) vs roots' /\
          (forall x, ~ reachable s roots x -> ~ (ptop s <= x < pend s) -> hmem s' !! x = hmem s !! x) /\
          (forall x, is_Some (hmem s !! x) -> is_Some (hmem s' !! x)) /\
          (forall y, reachable s' roots' y -> ptop s <= y /\ y + 8 * osize s' y <= ptop s') /\
          (forall y z, reachable s' roots' y -> reachable s' roots' z -> y <> z ->
             y + 8 * osize s' y <= z \/ z + 8 * osize s' z <= y)
      | Err HeapFull => cap_words (hp s) < top (hp s) + total s objs
      | _ => False
      end) s.
Proof.
  intros Hs Hvs Hfs. destruct (walked_list s vs roots) as (o & Hwk & Htot).
  { eapply Forall2_impl; [exact Hvs|]. apply repr_walked. }
  set (R := list_to_set o : gset Z). pose proof (walk_live _ _ _ Hfs Hwk) as Hl. fold R in Hl.
  assert (forall a, a ∈ elements R <-> a ∈ o) as Hel by (intros a; unfold R; rewrite elem_of_elements; apply elem_of_list_to_set).
  assert (forall a, a ∈ o <-> reachable s roots a) as Hre.
  { intros a. split; [apply (walk_reach _ _ _ Hwk)|]. induction 1; [by apply (walk_roots _ _ _ Hwk)|by eapply (walk_closed _ _ _ Hwk)]. }
  assert (forall a, a ∈ o -> 0 <= osize s a) as Hpos.
  { intros a Ha. assert (a ∈ R) as HaR by (by apply elem_of_list_to_set). pose proof (osize_pos _ _ _ Hl HaR). lia. }
  exists (elements R). split_and!; [apply NoDup_elements|intros a; by rewrite Hel|..].
  { rewrite <- Htot. apply total_submseteq; [done|]. apply NoDup_submseteq; [apply NoDup_elements|]. intros a. apply Hel. }
  eapply wp_mono; [apply (evacuate_spec s R Hl); [by apply inv_start|done|]|].
  { apply Forall_forall. intros t Ht Hb. apply elem_of_list_to_set. by apply (walk_roots _ _ _ Hwk). }
  intros [roots'|[]| |] s'; cbn [stepped app]; try done.
  - intros (order & I & Hf). split_and!; [exact (inv_heap _ _ _ _ _ I)|exact (inv_arena _ _ _ _ _ I)|..].
    + rewrite (inv_top _ _ _ _ _ I). f_equal. apply total_Permutation, NoDup_Permutation; [exact (inv_nodup _ _ _ _ _ I)|apply NoDup_elements|].
      intros a. rewrite elem_of_elements. split; [apply (inv_live _ _ _ _ _ I)|]. intros Ha%elem_of_list_to_set.
      by eapply order_reachable, Hre.
    + eapply Forall2_forward; [|exact Hvs|exact Hf]. apply Forall_forall. intros v _. by apply (final_repr s R).
    + intros x Hx Hout. apply (inv_frame _ _ _ _ _ I); [|done]. unfold R. by rewrite elem_of_list_to_set, Hre.
    + exact (inv_dom _ _ _ _ _ I).
    + by apply (final_apart s R Hl order s' I roots).
    + by apply (final_apart s R Hl order s' I roots).
  - intros (o' & Hnd & Hin & Hcap). enough (total s o' <= total s (elements R)) by lia. apply total_submseteq.
    + intros a. rewrite Hel. apply Hpos.
    + apply NoDup_submseteq; [done|]. intros a Ha. rewrite elem_of_elements. by apply Hin.
Qed.

(** ** A heap with sharing

    A pair of twice the same cell, at 4096, and an empty to-space at 8192. *)

Definition shared_words : list Z := [header 2 KIND_TUPLE; 4128; 4128; 0; KIND_CONS; term_int 1; NIL].

Definition shared_state : HS :=
  {| hmem := put_words 4096 shared_words (put_words 8192 (replicate 8 0) ∅); hp := Heap_new 8192 64 |}.

Definition shared_val : val := let c := VCons (VImm (term_int 1)) (VImm NIL) in VTuple [c; c].

Lemma shared_heap_ok : heap_ok shared_state.
Proof.
  split; cbn [shared_state hp hbase top cap_words Heap_new hmem]; [by vm_compute|by vm_compute|by vm_compute|].
  intros i Hi. change (0 <= i < 8) in Hi.
  revert Hi. apply (seqZ_cases (fun i => is_Some (hmem shared_state !! (8192 + 8 * i))) 8).
  repeat (apply Forall_cons; split; [vm_compute; eauto|]). constructor.
Qed.

Lemma shared_cell : repr (hmem shared_state) (VCons (VImm (term_int 1)) (VImm NIL)) 4128.
Proof.
  eapply repr_cons with (x := term_int 1) (y := NIL); [|constructor..].
  - split_and!; [|by vm_compute|by vm_compute]. split_and!; by vm_compute.
  - apply sample_imm. lia.
  - split_and!; by vm_compute.
Qed.

Lemma shared_repr : repr (hmem shared_state) shared_val 4096.
Proof.
  eapply repr_tuple with (xs := [4128; 4128]).
  - split; [split_and!; by vm_compute|]. split_and!; by vm_compute.
  - repeat constructor; apply shared_cell.
Qed.

Lemma shared_reachable a : reachable shared_state [4096] a -> a = 4096 \/ a = 4128.
Proof.
  induction 1 as [t Ht _|a i w _ IH Hi Hw Hb]; [left; by apply list_elem_of_singleton|].
  destruct IH as [-> | ->].
  - change (i ∈ [1; 2]) in Hi. rewrite !elem_of_cons in Hi. right.
    destruct Hi as [->|[->|Hi%not_elem_of_nil]]; [..|done]; vm_compute in Hw; congruence.
  - change (i ∈ [1; 2]) in Hi. rewrite !elem_of_cons in Hi. exfalso.
    destruct Hi as [->|[->|Hi%not_elem_of_nil]]; [..|done]; vm_compute in Hw; injection Hw as <-; by vm_compute in Hb.
Qed.

Lemma shared_from_space : from_space shared_state [4096].
Proof.
  split.
  - intros a [-> | ->]%shared_reachable; left; by vm_compute.
  - intros a b [-> | ->]%shared_reachable [-> | ->]%shared_reachable Hne; try done; [left|right]; by vm_compute.
Qed.

(** C7: Compacting a heap ends.  It runs out of to-space exactly when the reachable objects, each
    counted once, do not fit; otherwise the new roots denote the values of the old ones within
    the words allocated, which are those of the reachable objects and never more than a deep
    copy of the roots takes; the new objects do not overlap, no word changes outside the reachable
    objects and to-space, and none is unmapped. *)
Theorem evacuate_correct s roots vs :
  heap_ok s -> Forall2 (repr (hmem s)) vs roots -> from_space s roots ->
  exists objs, NoDup objs /\ (forall a, a ∈ objs <-> reachable s roots a) /\ total s objs <= zsum (map vsize vs) /\
    wp (evacuate roots) (fun r s' =>
      match r with
      | Ok roots' =>
          heap_ok s' /\ same_arena s s' /\ top (hp s') = top (hp s) + total s objs /\
          Forall2 (repr (region (ptop s) (ptop s') (hmem s'))) vs roots' /\
          (forall x, ~ reachable s roots x -> ~ (ptop s <= x < pend s) -> hmem s' !! x = hmem s !! x) /\
          (forall x, is_Some (hmem s !! x) -> is_Some (hmem s' !! x)) /\
          (forall y, reachable s' roots' y -> ptop s <= y /\ y + 8 * osize s' y <= ptop s') /\
          (forall y z, reachable s' roots' y -> reachable s' roots' z -> y <> z ->
             y + 8 * osize s' y <= z \/ z + 8 * osize s' z <= y)
      | Err HeapFull => cap_words (hp s) < top (hp s) + total s objs
      | _ => False
      end) s.
Proof. apply evacuate_run. Qed.

Lemma evacuate_correct_witness : exists r' s', evacuate [4096] shared_state = (Ok [r'], s') /\
  top (hp s') = 6 /\ repr (region 8192 (ptop s') (hmem s')) shared_val r'.
Proof.
  destruct (evacuate_correct shared_state [4096] [shared_val] shared_heap_ok) as (objs & Hn & Hr & _ & Hwp).
  - constructor; [exact shared_repr|constructor].
  - exact shared_from_space.
  - assert (top (hp (evacuate [4096] shared_state).2) = 6) as H6 by (vm_compute; reflexivity).
    assert ((evacuate [4096] shared_state).1 = Ok [8192]) as H1 by (vm_compute; reflexivity).
    unfold wp in Hwp. rewrite H1 in Hwp. destruct Hwp as (_ & _ & _ & Hall & _).
    exists 8192, (evacuate [4096] shared_state).2. split; [rewrite <- H1; apply surjective_pairing|].
    split; [exact H6|]. inversion Hall; subst. assumption.
Defined.
