(* ===== verification/Bytecode.v ===== *)
(** * Bytecode: the instruction set, the module format and the code builder

    Models [crates/ygg-bytecode/src/lib.rs].  A byte string is a [list byte]; a
    Rust [String] is a byte list that passes [valid_utf8].  The decoder reads
    through a cursor ([Reader]) in the error monad; the encoder truncates its
    length fields to their width, as the casts of the source do. *)

From S2P Require Import Prelude.

(** ** Opcodes *)

Module op.
Definition NOP : Z := 0.
Definition LOAD_INT : Z := 1.
Definition LOAD_ATOM : Z := 2.
Definition LOAD_NIL : Z := 3.
Definition MOVE : Z := 4.
Definition SELF_PID : Z := 5.
Definition MAKE_TUPLE : Z := 6.
Definition GET_ELEM : Z := 7.
Definition CONS : Z := 8.
Definition HEAD : Z := 9.
Definition TAIL : Z := 10.
Definition ADD : Z := 11.
Definition SUB : Z := 12.
Definition MUL : Z := 13.
Definition CMP_EQ : Z := 14.
Definition CMP_LT : Z := 15.
Definition JMP : Z := 16.
Definition JMP_IF : Z := 17.
Definition CALL : Z := 18.
Definition RET : Z := 19.
Definition SPAWN : Z := 20.
Definition SEND : Z := 21.
Definition RECV : Z := 22.
Definition PRINT : Z := 23.
Definition EXIT_ATOM : Z := 24.
Definition PORT_OPEN : Z := 25.
Definition PORT_SUBMIT : Z := 26.
Definition CALL_EXT : Z := 27.
Definition BAND : Z := 28.
Definition BOR : Z := 29.
Definition BXOR : Z := 30.
Definition BSL : Z := 31.
Definition BSR : Z := 32.
Definition BNOT : Z := 33.
Definition BIN_NEW : Z := 34.
Definition BIN_FROM_LIST : Z := 35.
Definition BIN_TO_LIST : Z := 36.
Definition BIN_SIZE : Z := 37.
Definition BUF_TO_BIN : Z := 38.
Definition BIN_TO_BUF : Z := 39.
Definition MAP_NEW : Z := 40.
Definition MAP_GET : Z := 41.
Definition MAP_PUT : Z := 42.
Definition IS_BINARY : Z := 43.
Definition BIN_CAT : Z := 44.
Definition LIST_CAT : Z := 45.
Definition BIN_PART : Z := 46.
Definition TAIL_CALL_EXT : Z := 47.
Definition PORT_SUBMIT2 : Z := 48.
Definition TAIL_CALL : Z := 49.
Definition BUF_WRITE : Z := 50.
Definition SLEEP_MS : Z := 51.
Definition BUF_NEW : Z := 52.
Definition BUF_READ : Z := 53.
Definition TICKS : Z := 54.
Definition BIN_AT : Z := 55.
End op.

(** Evaluate a [select_arm] on a literal opcode. *)
Ltac op_eval :=
  cbn [select_arm existsb orb Z.eqb Pos.eqb
    op.NOP op.LOAD_INT op.LOAD_ATOM op.LOAD_NIL op.MOVE op.SELF_PID op.MAKE_TUPLE op.GET_ELEM
    op.CONS op.HEAD op.TAIL op.ADD op.SUB op.MUL op.CMP_EQ op.CMP_LT op.JMP op.JMP_IF op.CALL op.RET
    op.SPAWN op.SEND op.RECV op.PRINT op.EXIT_ATOM op.PORT_OPEN op.PORT_SUBMIT op.CALL_EXT op.BAND
    op.BOR op.BXOR op.BSL op.BSR op.BNOT op.BIN_NEW op.BIN_FROM_LIST op.BIN_TO_LIST op.BIN_SIZE
    op.BUF_TO_BIN op.BIN_TO_BUF op.MAP_NEW op.MAP_GET op.MAP_PUT op.IS_BINARY op.BIN_CAT op.LIST_CAT
    op.BIN_PART op.TAIL_CALL_EXT op.PORT_SUBMIT2 op.TAIL_CALL op.BUF_WRITE op.SLEEP_MS op.BUF_NEW
    op.BUF_READ op.TICKS op.BIN_AT].

(** ** Modules *)

Record Function := { name_atom : Z; arity : Z; nregs : Z; code : list byte }.
Record Module_ := { atoms : list (list byte); functions : list Function }.

Inductive DecodeError := BadMagic | Truncated | BadUtf8.

#[export] Instance Function_eq_dec : EqDecision Function.
Proof. solve_decision. Defined.
#[export] Instance Module_eq_dec : EqDecision Module_.
Proof. solve_decision. Defined.

(** [b"YGGM1\n"] *)
Definition MAGIC : list byte := [x59; x47; x47; x4d; x31; x0a].

(** ** UTF-8 validity

    [core::str::from_utf8]: the well-formed byte sequences of the Unicode
    standard (no overlong forms, no surrogates, nothing above U+10FFFF). *)

Definition in_range (lo hi : Z) (b : byte) : bool := bool_decide (lo <= b2z b <= hi).
Definition cont (b : byte) : bool := in_range 128 191 b.

Fixpoint valid_utf8 (bs : list byte) : bool :=
  match bs with
  | [] => true
  | b1 :: r1 =>
      if in_range 0 127 b1 then valid_utf8 r1
      else match r1 with
      | [] => false
      | b2 :: r2 =>
          if in_range 194 223 b1 then cont b2 && valid_utf8 r2
          else match r2 with
          | [] => false
          | b3 :: r3 =>
              if in_range 224 224 b1 then in_range 160 191 b2 && cont b3 && valid_utf8 r3
              else if in_range 225 236 b1 || in_range 238 239 b1 then cont b2 && cont b3 && valid_utf8 r3
              else if in_range 237 237 b1 then in_range 128 159 b2 && cont b3 && valid_utf8 r3
              else match r3 with
              | [] => false
              | b4 :: r4 =>
                  if in_range 240 240 b1 then in_range 144 191 b2 && cont b3 && cont b4 && valid_utf8 r4
                  else if in_range 241 243 b1 then cont b2 && cont b3 && cont b4 && valid_utf8 r4
                  else if in_range 244 244 b1 then in_range 128 143 b2 && cont b3 && cont b4 && valid_utf8 r4
                  else false
              end
          end
      end
  end.

(** ** Encoding *)

Definition encode_atom (a : list byte) : list byte := le_bytes 2 (zlen a) ++ a.

Definition encode_function (f : Function) : list byte :=
  le_bytes 4 (name_atom f) ++ [z2b (arity f)] ++ [z2b (nregs f)] ++ le_bytes 4 (zlen (code f)) ++ code f.

Definition encode (m : Module_) : list byte :=
  MAGIC ++ le_bytes 4 (zlen (atoms m)) ++ concat (map encode_atom (atoms m)) ++
  le_bytes 4 (zlen (functions m)) ++ concat (map encode_function (functions m)).

(** ** Decoding *)

Record Reader := { rb : list byte; rat : Z }.
Abbreviation RM := (M Reader DecodeError).

Definition reader_take (n : Z) : RM (list byte) := fun r =>
  match checked_add_usize (rat r) n with
  | None => (Err Truncated, r)
  | Some stop =>
      if bool_decide (stop > zlen (rb r)) then (Err Truncated, r)
      else match slice (rb r) (rat r) stop with
           | None => (Panic, r)
           | Some s => (Ok s, {| rb := rb r; rat := stop |})
           end
  end.

Definition reader_u8 : RM Z := s ← reader_take 1; b ← unwrap (s !! 0%nat); mret (b2z b).
Definition reader_u16 : RM Z := s ← reader_take 2; mret (le_val s).
Definition reader_u32 : RM Z := s ← reader_take 4; mret (le_val s).

Definition decode_atom : RM (list byte) :=
  len ← reader_u16;
  s ← reader_take len;
  _ ← fail_if (negb (valid_utf8 s)) BadUtf8;
  mret s.

Definition decode_function : RM Function :=
  na ← reader_u32;
  ar ← reader_u8;
  nr ← reader_u8;
  code_len ← reader_u32;
  c ← reader_take code_len;
  mret {| name_atom := na; arity := ar; nregs := nr; code := c |}.

Definition decode_body : RM Module_ :=
  magic ← reader_take 6;
  _ ← fail_if (negb (bool_decide (magic = MAGIC))) BadMagic;
  natoms ← reader_u32;
  ats ← collect (Z.to_nat natoms) decode_atom;
  nfns ← reader_u32;
  fs ← collect (Z.to_nat nfns) decode_function;
  mret {| atoms := ats; functions := fs |}.

Definition decode (bytes : list byte) : res DecodeError Module_ :=
  (decode_body {| rb := bytes; rat := 0 |}).1.

(** [functions.iter().position(..)] *)
Fixpoint position {A} (f : A -> bool) (i : Z) (l : list A) : option Z :=
  match l with
  | [] => None
  | x :: l' => if f x then Some i else position f (i + 1) l'
  end.

Definition function_named (m : Module_) (name : list byte) : option Z :=
  position (fun f => bool_decide (lookupz (atoms m) (name_atom f) = Some name)) 0 (functions m).

(** ** Instruction lengths *)

(** [at.checked_add(n).filter(|&e| e <= code.len())] *)
Definition fixed (c : list byte) (at_ n : Z) : option Z :=
  e ← checked_add_usize at_ n; if bool_decide (e <= zlen c) then Some e else None.

Definition byte_operand (c : list byte) (i : Z) : option Z := b2z <$> lookupz c i.

(** [u32::from_le_bytes(code.get(a..a + 4)?)] *)
Definition u32_operand (c : list byte) (a : Z) : option Z := le_val <$> slice c a (a + 4).

Definition skip_operands (opcode : Z) (c : list byte) (at_ : Z) : option Z :=
  select_arm opcode
    [ ([op.NOP], fixed c at_ 0);
      ([op.LOAD_INT], fixed c at_ 9);
      ([op.LOAD_ATOM], fixed c at_ 5);
      ([op.SPAWN], fixed c at_ 6);
      ([op.LOAD_NIL; op.SELF_PID; op.RECV; op.RET; op.EXIT_ATOM; op.PRINT; op.TICKS; op.SLEEP_MS], fixed c at_ 1);
      ([op.MOVE; op.HEAD; op.TAIL; op.SEND; op.BNOT; op.BIN_FROM_LIST; op.BIN_TO_LIST; op.BIN_SIZE;
        op.BUF_TO_BIN; op.BIN_TO_BUF; op.IS_BINARY; op.PORT_OPEN; op.BUF_NEW], fixed c at_ 2);
      ([op.GET_ELEM; op.CONS; op.ADD; op.SUB; op.MUL; op.CMP_EQ; op.CMP_LT; op.BAND; op.BOR; op.BXOR;
        op.BSL; op.BSR; op.BIN_CAT; op.LIST_CAT; op.MAP_GET; op.BIN_AT], fixed c at_ 3);
      ([op.MAP_PUT; op.BIN_PART; op.PORT_SUBMIT; op.BUF_WRITE; op.BUF_READ], fixed c at_ 4);
      ([op.PORT_SUBMIT2], fixed c at_ 5);
      ([op.JMP], fixed c at_ 4);
      ([op.JMP_IF], fixed c at_ 5);
      ([op.MAKE_TUPLE], n ← byte_operand c (at_ + 1); fixed c at_ (2 + n));
      ([op.MAP_NEW], n ← byte_operand c (at_ + 1); fixed c at_ (2 + 2 * n));
      ([op.BIN_NEW], len ← u32_operand c (at_ + 1); fixed c at_ (5 + len));
      ([op.CALL], n ← byte_operand c (at_ + 5); fixed c at_ (6 + n));
      ([op.TAIL_CALL], n ← byte_operand c (at_ + 4); fixed c at_ (5 + n));
      ([op.CALL_EXT], n ← byte_operand c (at_ + 9); fixed c at_ (10 + n));
      ([op.TAIL_CALL_EXT], n ← byte_operand c (at_ + 8); fixed c at_ (9 + n)) ]
    None.

(** ** Which functions can return the tail sentinel *)

(** The scan of one function: does it tail-call (or fail to decode), and which
    siblings does it call.  Every round consumes the opcode byte. *)
Fixpoint scan_sentinel (fuel : nat) (c : list byte) (at_ : Z) (bit : bool) (callees : list Z)
    : res Empty_set (bool * list Z) :=
  match fuel with
  | O => NoFuel
  | S fuel' =>
      if bool_decide (at_ < zlen c) then
        match lookupz c at_ with
        | None => Panic
        | Some b =>
            let opcode := b2z b in
            let '(bit, callees) :=
              if bool_decide (opcode ∈ [op.TAIL_CALL; op.TAIL_CALL_EXT]) then (true, callees)
              else if bool_decide (opcode = op.CALL) then
                match u32_operand c (at_ + 2) with
                | Some t => (bit, callees ++ [t])
                | None => (bit, callees)
                end
              else (bit, callees) in
            match skip_operands opcode c (at_ + 1) with
            | Some next => scan_sentinel fuel' c next bit callees
            | None => Ok (true, callees)
            end
        end
      else Ok (bit, callees)
  end.

(** [callees[i].iter().any(|&c| bits.get(c).copied().unwrap_or(true))] *)
Definition calls_returner (bits : list bool) (cs : list Z) : bool :=
  existsb (fun c => default true (lookupz bits c)) cs.

(** One pass of the fixpoint loop over [i in 0..bits.len()]. *)
Definition propagate_step (callees : list (list Z)) (st : list bool * bool) (i : Z) : list bool * bool :=
  let '(bits, changed) := st in
  match lookupz bits i, lookupz callees i with
  | Some false, Some cs => if calls_returner bits cs then (insertz i true bits, true) else st
  | _, _ => st
  end.

Definition propagate (callees : list (list Z)) (bits : list bool) : list bool * bool :=
  foldl (propagate_step callees) (bits, false) (seqZ 0 (zlen bits)).

Fixpoint propagate_loop (fuel : nat) (callees : list (list Z)) (bits : list bool) : res Empty_set (list bool) :=
  match fuel with
  | O => NoFuel
  | S fuel' =>
      let '(bits', changed) := propagate callees bits in
      if changed : bool then propagate_loop fuel' callees bits' else Ok bits'
  end.

Fixpoint scan_all (fs : list Function) : res Empty_set (list bool * list (list Z)) :=
  match fs with
  | [] => Ok ([], [])
  | f :: fs' =>
      '(b, cs) ← scan_sentinel (S (length (code f))) (code f) 0 false [];
      '(bits, callees) ← scan_all fs';
      Ok (b :: bits, cs :: callees)
  end.

Definition sentinel_returners (m : Module_) : res Empty_set (list bool) :=
  '(bits, callees) ← scan_all (functions m);
  propagate_loop (S (length (functions m))) callees bits.

(** ** The code builder *)

Record CodeBuilder := { cb_code : list byte; fixups : list (Z * Z); labels : gmap Z Z }.

Definition CodeBuilder_new : CodeBuilder := {| cb_code := []; fixups := []; labels := ∅ |}.

Definition emit (bs : list byte) (b : CodeBuilder) : CodeBuilder :=
  {| cb_code := cb_code b ++ bs; fixups := fixups b; labels := labels b |}.
Definition emit_u8 (v : Z) : CodeBuilder -> CodeBuilder := emit [z2b v].
Definition emit_u32 (v : Z) : CodeBuilder -> CodeBuilder := emit (le_bytes 4 v).
Definition emit_i64 (v : Z) : CodeBuilder -> CodeBuilder := emit (le_bytes 8 v).
Definition label_ref (label : Z) (b : CodeBuilder) : CodeBuilder :=
  {| cb_code := cb_code b ++ le_bytes 4 0; fixups := fixups b ++ [(zlen (cb_code b), label)]; labels := labels b |}.
Definition bind_label (label : Z) (b : CodeBuilder) : CodeBuilder :=
  {| cb_code := cb_code b; fixups := fixups b; labels := <[label := zlen (cb_code b)]> (labels b) |}.

(** [code[pos..pos + 4].copy_from_slice(..)]; out of range panics. *)
Definition patch (pos : Z) (bs : list byte) (c : list byte) : option (list byte) :=
  if bool_decide (0 <= pos /\ pos + zlen bs <= zlen c)
  then Some (take (Z.to_nat pos) c ++ bs ++ drop (Z.to_nat (pos + zlen bs)) c)
  else None.

Fixpoint resolve (lbls : gmap Z Z) (fx : list (Z * Z)) (c : list byte) : res Z (list byte) :=
  match fx with
  | [] => Ok c
  | (pos, label) :: fx' =>
      match lbls !! label with
      | None => Err label
      | Some target =>
          let next := pos + 4 in
          let off := target - next in
          match patch pos (le_bytes 4 off) c with
          | None => Panic
          | Some c' => resolve lbls fx' c'
          end
      end
  end.

Definition finish (b : CodeBuilder) : res Z (list byte) := resolve (labels b) (fixups b) (cb_code b).
