(* ===== verification/BytecodeFormat.v ===== *)
(** * BytecodeFormat: the module format round-trips

    [decode] inverts [encode] on every module whose fields fit the format, a
    byte string decodes exactly when it starts with the encoding of a
    well-formed module, and no truncated encoding decodes. *)

From S2P Require Import Prelude Bytecode.

(** What the length fields, the field widths and [String] can hold. *)
Definition atom_ok (a : list byte) : Prop := zlen a < 2 ^ 16 /\ valid_utf8 a = true.

Definition function_ok (f : Function) : Prop :=
  0 <= name_atom f < 2 ^ 32 /\ 0 <= arity f < 256 /\ 0 <= nregs f < 256 /\ zlen (code f) < 2 ^ 32.

Definition module_ok (m : Module_) : Prop :=
  zlen (atoms m) < 2 ^ 32 /\ Forall atom_ok (atoms m) /\
  zlen (functions m) < 2 ^ 32 /\ Forall function_ok (functions m).

(** A cursor between what was read and what is left. *)
Definition at_pos (pre rest : list byte) : Reader := {| rb := pre ++ rest; rat := zlen pre |}.

(** [reads c bs x]: on any input that continues with [bs], [c] consumes exactly
    [bs] and returns [x]. *)
Definition reads {A} (c : RM A) (bs : list byte) (x : A) : Prop := forall pre rest,
  zlen pre + zlen bs + zlen rest < 2 ^ 64 -> c (at_pos pre (bs ++ rest)) = (Ok x, at_pos (pre ++ bs) rest).

(** [readable c P]: whenever [c] succeeds, it consumed a byte string [P] relates
    to its result, and leaves the rest. *)
Definition readable {A} (c : RM A) (P : list byte -> A -> Prop) : Prop := forall pre input r x,
  c (at_pos pre input) = (Ok x, r) ->
  exists bs rest, input = bs ++ rest /\ r = at_pos (pre ++ bs) rest /\ P bs x.

(** ** Reading what was written *)

Lemma slice_mid {A} (pre bs rest : list A) :
  slice (pre ++ bs ++ rest) (zlen pre) (zlen pre + zlen bs) = Some bs.
Proof.
  unfold slice. rewrite bool_decide_true by (rewrite !zlen_app; pose proof (zlen_nonneg rest);
    pose proof (zlen_nonneg pre); pose proof (zlen_nonneg bs); lia).
  replace (zlen pre + zlen bs - zlen pre) with (zlen bs) by lia. unfold zlen.
  rewrite !Nat2Z.id, drop_app_length, take_app_length. done.
Qed.

Lemma reads_take bs : reads (reader_take (zlen bs)) bs bs.
Proof.
  intros pre rest Hlen. unfold reader_take, checked_add_usize. cbn [rat rb at_pos].
  pose proof (zlen_nonneg rest). rewrite bool_decide_true by lia.
  rewrite bool_decide_false by (rewrite !zlen_app; lia). rewrite slice_mid.
  unfold at_pos. by rewrite zlen_app, app_assoc.
Qed.

Lemma reads_bind {A B} (c : RM A) (k : A -> RM B) bs1 bs2 x y :
  reads c bs1 x -> reads (k x) bs2 y -> reads (x ← c; k x) (bs1 ++ bs2) y.
Proof.
  intros Hc Hk pre rest Hlen. rewrite zlen_app in Hlen. pose proof (zlen_nonneg bs2).
  rewrite <- app_assoc. erewrite bind_eval; [|apply Hc; rewrite zlen_app; lia].
  rewrite Hk by (rewrite zlen_app; lia). by rewrite app_assoc.
Qed.

Lemma reads_ret {A} (x : A) : reads (mret x) [] x.
Proof. intros pre rest _. by rewrite app_nil_r. Qed.

Lemma reads_ret_bind {A B} (c : RM A) (k : A -> B) bs x :
  reads c bs x -> reads (x ← c; mret (k x)) bs (k x).
Proof. intros H. rewrite <- (app_nil_r bs). eapply reads_bind; [done|apply reads_ret]. Qed.

Lemma reads_uint n z : 0 <= z < 256 ^ Z.of_nat n ->
  reads (s ← reader_take (Z.of_nat n); mret (le_val s)) (le_bytes n z) z.
Proof.
  intros Hz. rewrite <- (Z.mod_small z (256 ^ Z.of_nat n)) at 2 by done. rewrite <- le_val_bytes.
  apply (reads_ret_bind _ le_val).
  replace (Z.of_nat n) with (zlen (le_bytes n z)) by (unfold zlen; by rewrite length_le_bytes).
  apply reads_take.
Qed.

Lemma reads_u16 z : 0 <= z < 2 ^ 16 -> reads reader_u16 (le_bytes 2 z) z.
Proof. apply (reads_uint 2). Qed.

Lemma reads_u32 z : 0 <= z < 2 ^ 32 -> reads reader_u32 (le_bytes 4 z) z.
Proof. apply (reads_uint 4). Qed.

Lemma reads_u8 z : 0 <= z < 256 -> reads reader_u8 [z2b z] z.
Proof.
  intros Hz pre rest Hlen. unfold reader_u8. erewrite bind_eval; [|by apply (reads_take [z2b z])].
  erewrite bind_eval; [|done]. by rewrite b2z_z2b, Z.mod_small.
Qed.

Lemma reads_atom a : atom_ok a -> reads decode_atom (encode_atom a) a.
Proof.
  intros [Hl Hu]. pose proof (zlen_nonneg a). eapply reads_bind; [by apply reads_u16|].
  rewrite <- (app_nil_r a) at 2. eapply reads_bind; [apply reads_take|].
  rewrite Hu. apply reads_ret.
Qed.

Lemma reads_function f : function_ok f -> reads decode_function (encode_function f) f.
Proof.
  intros (Hn & Ha & Hr & Hc). pose proof (zlen_nonneg (code f)).
  eapply reads_bind; [by apply reads_u32|]. eapply reads_bind; [by apply reads_u8|].
  eapply reads_bind; [by apply reads_u8|]. eapply reads_bind; [by apply reads_u32|].
  rewrite <- (app_nil_r (code f)) at 2. eapply reads_bind; [apply reads_take|].
  destruct f. apply reads_ret.
Qed.

Lemma reads_collect {A} (c : RM A) (enc : A -> list byte) (ok : A -> Prop) l :
  (forall x, ok x -> reads c (enc x) x) -> Forall ok l ->
  reads (collect (length l) c) (concat (map enc l)) l.
Proof.
  intros Hc. induction 1 as [|x l Hx _ IH]; [apply reads_ret|]. cbn [length collect map concat].
  eapply reads_bind; [by apply Hc|]. by apply (reads_ret_bind _ (fun xs => x :: xs)).
Qed.

Lemma reads_module m : module_ok m -> reads decode_body (encode m) m.
Proof.
  destruct m as [ats fs]. intros (Hna & Ha & Hnf & Hf). unfold encode. cbn [atoms functions] in *.
  pose proof (zlen_nonneg ats). pose proof (zlen_nonneg fs).
  eapply reads_bind; [apply (reads_take MAGIC)|].
  rewrite bool_decide_true by done. apply (reads_bind (fail_if _ _) _ [] _ tt); [apply reads_ret|].
  eapply (reads_bind _ _ (le_bytes 4 _)); [by apply reads_u32|].
  unfold zlen at 1. rewrite Nat2Z.id. eapply reads_bind; [by eapply reads_collect; [apply reads_atom|]|].
  eapply (reads_bind _ _ (le_bytes 4 _)); [by apply reads_u32|].
  unfold zlen at 1. rewrite Nat2Z.id.
  apply (reads_ret_bind _ (fun fs => {| atoms := ats; functions := fs |})).
  by eapply reads_collect; [apply reads_function|].
Qed.

(** ** What a successful read says about the input *)

Lemma readable_bind {A B} (c : RM A) (k : A -> RM B) P Q :
  readable c P -> (forall x, readable (k x) (Q x)) ->
  readable (x ← c; k x) (fun bs y => exists bs1 bs2 x, bs = bs1 ++ bs2 /\ P bs1 x /\ Q x bs2 y).
Proof.
  intros Hc Hk pre input r y (x & s & H1 & H2)%bind_ok.
  destruct (Hc _ _ _ _ H1) as (bs1 & rest & -> & -> & HP).
  destruct (Hk _ _ _ _ _ H2) as (bs2 & rest2 & -> & -> & HQ).
  exists (bs1 ++ bs2), rest2. split_and!; [by rewrite app_assoc|by rewrite app_assoc|eauto 10].
Qed.

Lemma readable_mono {A} (c : RM A) (P Q : list byte -> A -> Prop) :
  readable c P -> (forall bs x, P bs x -> Q bs x) -> readable c Q.
Proof. intros Hc HPQ pre input r x H. destruct (Hc _ _ _ _ H) as (bs & rest & ?&?&?). eauto 10. Qed.

Lemma readable_ret {A} (x : A) : readable (mret x) (fun bs y => bs = [] /\ y = x).
Proof. intros pre input r y [= <- <-]. exists [], input. by rewrite app_nil_r. Qed.

Lemma readable_fail_if b e : readable (fail_if b e) (fun bs _ => bs = [] /\ b = false).
Proof. intros pre input r y. destruct b; [done|]. intros [= <- <-]. exists [], input. by rewrite app_nil_r. Qed.

Lemma readable_take n : readable (reader_take n) (fun bs x => x = bs /\ zlen bs = n).
Proof.
  intros pre input r x. unfold reader_take, checked_add_usize. cbn [rat rb at_pos].
  case_bool_decide; [|done]. rewrite zlen_app. case_bool_decide as Hle; [done|].
  unfold slice. case_bool_decide as Hs; [|done]. rewrite zlen_app in Hs. intros [= <- <-].
  replace (zlen pre + n - zlen pre) with n by lia.
  assert (zlen (take (Z.to_nat n) input) = n) as Hn.
  { unfold zlen in *. rewrite length_take. lia. }
  exists (take (Z.to_nat n) input), (drop (Z.to_nat n) input). split_and!.
  - by rewrite take_drop.
  - unfold at_pos. rewrite zlen_app, Hn, <- app_assoc, take_drop. done.
  - unfold zlen. by rewrite Nat2Z.id, drop_app_length.
  - done.
Qed.

Lemma readable_uint n : readable (s ← reader_take (Z.of_nat n); mret (le_val s))
  (fun bs z => bs = le_bytes n z /\ 0 <= z < 256 ^ Z.of_nat n).
Proof.
  eapply readable_mono; [eapply readable_bind; [apply readable_take|]; intros; apply readable_ret|].
  intros bs z (bs1 & bs2 & x & -> & [-> Hn] & -> & ->). rewrite app_nil_r.
  pose proof (le_val_range bs1) as Hr. rewrite Hn in Hr. split; [|done].
  rewrite <- (le_bytes_val bs1) at 1. f_equal. unfold zlen in Hn. lia.
Qed.

Lemma readable_u8 : readable reader_u8 (fun bs z => bs = [z2b z] /\ 0 <= z < 256).
Proof.
  intros pre input r z (s & r1 & H1 & H2)%bind_ok.
  destruct (readable_take _ _ _ _ _ H1) as (bs & rest & -> & -> & -> & Hn).
  destruct bs as [|b [|b' bs]]; [done| |rewrite !zlen_cons in Hn; pose proof (zlen_nonneg bs); lia].
  injection H2 as <- <-. exists [b], rest. rewrite z2b_b2z. auto using b2z_range.
Qed.

Lemma readable_atom : readable decode_atom (fun bs a => bs = encode_atom a /\ atom_ok a).
Proof.
  eapply readable_mono.
  { eapply readable_bind; [apply (readable_uint 2)|]. intros len.
    eapply readable_bind; [apply readable_take|]. intros s.
    eapply readable_bind; [apply readable_fail_if|]. intros ?. apply readable_ret. }
  intros bs a (b1 & b2 & z & -> & [-> Hz] & b3 & b4 & s & -> & [-> Hl] & b5 & b6 & u & -> & [-> Hu] & -> & ->).
  rewrite !app_nil_r. apply negb_false_iff in Hu. unfold encode_atom, atom_ok.
  rewrite Hl. split; [done|]. split; [|done]. change (256 ^ Z.of_nat 2) with (2 ^ 16) in Hz. lia.
Qed.

Lemma readable_function : readable decode_function (fun bs f => bs = encode_function f /\ function_ok f).
Proof.
  eapply readable_mono.
  { eapply readable_bind; [apply (readable_uint 4)|]. intros na.
    eapply readable_bind; [apply readable_u8|]. intros ar.
    eapply readable_bind; [apply readable_u8|]. intros nr.
    eapply readable_bind; [apply (readable_uint 4)|]. intros cl.
    eapply readable_bind; [apply readable_take|]. intros c. apply readable_ret. }
  intros bs f (b1 & b2 & na & -> & [-> Hna] & b3 & b4 & ar & -> & [-> Har] & b5 & b6 & nr & -> & [-> Hnr] &
    b7 & b8 & cl & -> & [-> Hcl] & b9 & b10 & c & -> & [-> Hl] & -> & ->).
  unfold encode_function, function_ok. cbn [name_atom arity nregs code].
  rewrite Hl, app_nil_r. split; [done|]. change (256 ^ Z.of_nat 4) with (2 ^ 32) in *. lia.
Qed.

Lemma readable_collect {A} (c : RM A) (enc : A -> list byte) (ok : A -> Prop) n :
  readable c (fun bs x => bs = enc x /\ ok x) ->
  readable (collect n c) (fun bs l => bs = concat (map enc l) /\ Forall ok l /\ length l = n).
Proof.
  intros Hc. induction n as [|n IH]; cbn [collect].
  - eapply readable_mono; [apply readable_ret|]. by intros bs l [-> ->].
  - eapply readable_mono.
    { eapply readable_bind; [exact Hc|]. intros x. eapply readable_bind; [exact IH|]. intros xs. apply readable_ret. }
    intros bs l (b1 & b2 & x & -> & [-> Hx] & b3 & b4 & xs & -> & (-> & Hxs & Hn) & -> & ->).
    cbn [map concat length]. rewrite app_nil_r. split_and!; [done|by constructor|by f_equal].
Qed.

Lemma readable_module : readable decode_body (fun bs m => bs = encode m /\ module_ok m).
Proof.
  eapply readable_mono.
  { eapply readable_bind; [apply readable_take|]. intros mg.
    eapply readable_bind; [apply readable_fail_if|]. intros ?.
    eapply readable_bind; [apply (readable_uint 4)|]. intros na.
    eapply readable_bind; [apply readable_collect, readable_atom|]. intros ats.
    eapply readable_bind; [apply (readable_uint 4)|]. intros nf.
    eapply readable_bind; [apply readable_collect, readable_function|]. intros fs. apply readable_ret. }
  intros bs m (b1 & b2 & mg & -> & [-> _] & b3 & b4 & u & -> & [-> Hmg] & b5 & b6 & na & -> & [-> Hna] &
    b7 & b8 & ats & -> & (-> & Hats & Hla) & b9 & b10 & nf & -> & [-> Hnf] &
    b11 & b12 & fs & -> & (-> & Hfs & Hlf) & -> & ->).
  apply negb_false_iff, bool_decide_eq_true in Hmg as ->.
  change (256 ^ Z.of_nat 4) with (2 ^ 32) in *.
  assert (zlen ats = na) as Hza by (unfold zlen; lia). assert (zlen fs = nf) as Hzf by (unfold zlen; lia).
  unfold encode, module_ok. cbn [atoms functions]. rewrite Hza, Hzf, !app_nil_r. simpl app at 3.
  split; [done|]. split_and!; [lia|done|lia|done].
Qed.

(** ** No input makes the decoder panic *)

Definition graceful {E A} (r : res E A) : Prop :=
  match r with Panic | NoFuel => False | _ => True end.

Definition safe_reader {A} (c : RM A) : Prop := forall pre input, graceful (c (at_pos pre input)).1.

Lemma graceful_bind {A B} (c : RM A) (k : A -> RM B) P :
  safe_reader c -> readable c P -> (forall bs x, P bs x -> safe_reader (k x)) -> safe_reader (x ← c; k x).
Proof.
  intros Hc Hr Hk pre input. specialize (Hc pre input). unfold mbind, M_bind.
  destruct (c (at_pos pre input)) as [[x|e| |] s] eqn:He; try done.
  destruct (Hr _ _ _ _ He) as (bs & rest & -> & -> & HP). by eapply Hk.
Qed.

Lemma graceful_ret {A} (x : A) : safe_reader (mret x).
Proof. done. Qed.

Lemma graceful_fail_if b e : safe_reader (fail_if b e).
Proof. intros ??. by destruct b. Qed.

Lemma graceful_take n : 0 <= n -> safe_reader (reader_take n).
Proof.
  intros Hn pre input. unfold reader_take, checked_add_usize. cbn [rat rb at_pos].
  case_bool_decide; [|done]. case_bool_decide; [done|]. unfold slice.
  by rewrite bool_decide_true by (pose proof (zlen_nonneg pre); lia).
Qed.

Lemma graceful_uint n : safe_reader (s ← reader_take (Z.of_nat n); mret (le_val s)).
Proof. eapply graceful_bind; [apply graceful_take; lia|apply readable_take|]. intros. apply graceful_ret. Qed.

Lemma graceful_u8 : safe_reader reader_u8.
Proof.
  eapply graceful_bind; [by apply graceful_take|apply readable_take|]. intros bs x [-> Hn].
  destruct bs as [|b bs]; [done|]. apply graceful_ret.
Qed.

Lemma graceful_collect {A} (c : RM A) P n : safe_reader c -> readable c P -> safe_reader (collect n c).
Proof.
  intros Hc Hr. induction n as [|n IH]; [apply graceful_ret|]. cbn [collect].
  eapply graceful_bind; [done|done|]. intros _ x _. unfold safe_reader. intros pre input.
  specialize (IH pre input). unfold mbind, M_bind. by destruct (collect n c _) as [[?|?| |] ?].
Qed.

Lemma graceful_atom : safe_reader decode_atom.
Proof.
  eapply graceful_bind; [apply (graceful_uint 2)|apply (readable_uint 2)|]. intros _ len [_ Hlen].
  eapply graceful_bind; [apply graceful_take; lia|apply readable_take|]. intros _ s _.
  eapply graceful_bind; [apply graceful_fail_if|apply readable_fail_if|]. intros. apply graceful_ret.
Qed.

Lemma graceful_function : safe_reader decode_function.
Proof.
  eapply graceful_bind; [apply (graceful_uint 4)|apply (readable_uint 4)|]. intros _ na _.
  eapply graceful_bind; [apply graceful_u8|apply readable_u8|]. intros _ ar _.
  eapply graceful_bind; [apply graceful_u8|apply readable_u8|]. intros _ nr _.
  eapply graceful_bind; [apply (graceful_uint 4)|apply (readable_uint 4)|]. intros _ cl [_ Hcl].
  eapply graceful_bind; [apply graceful_take; lia|apply readable_take|]. intros. apply graceful_ret.
Qed.

Lemma graceful_module : safe_reader decode_body.
Proof.
  eapply graceful_bind; [by apply graceful_take|apply readable_take|]. intros _ mg _.
  eapply graceful_bind; [apply graceful_fail_if|apply readable_fail_if|]. intros _ u _.
  eapply graceful_bind; [apply (graceful_uint 4)|apply (readable_uint 4)|]. intros _ na _.
  eapply graceful_bind; [eapply graceful_collect; [apply graceful_atom|apply readable_atom]|
    apply readable_collect, readable_atom|]. intros _ ats _.
  eapply graceful_bind; [apply (graceful_uint 4)|apply (readable_uint 4)|]. intros _ nf _.
  eapply graceful_bind; [eapply graceful_collect; [apply graceful_function|apply readable_function]|
    apply readable_collect, readable_function|]. intros. apply graceful_ret.
Qed.

(** ** Properties *)

Lemma decode_encode_app m rest :
  module_ok m -> zlen (encode m) + zlen rest < 2 ^ 64 -> decode (encode m ++ rest) = Ok m.
Proof.
  intros Hm Hl. unfold decode.
  change {| rb := encode m ++ rest; rat := 0 |} with (at_pos [] (encode m ++ rest)).
  by rewrite (reads_module m Hm [] rest).
Qed.

Lemma decode_prefix bytes m :
  decode bytes = Ok m -> module_ok m /\ exists rest, bytes = encode m ++ rest.
Proof.
  unfold decode. destruct (decode_body _) as [r s] eqn:He. cbn [fst]. intros ->.
  destruct (readable_module [] bytes s m He) as (bs & rest & -> & _ & -> & Hok). eauto.
Qed.

Lemma decode_total bytes : graceful (decode bytes).
Proof.
  unfold decode. change {| rb := bytes; rat := 0 |} with (at_pos [] bytes). apply graceful_module.
Qed.

(** C30: Decoding an encoded module gives it back, with any bytes after it: every
    module whose names are UTF-8 and whose lengths fit the format round-trips. *)
Theorem decode_encode m rest :
  module_ok m -> zlen (encode m) + zlen rest < 2 ^ 64 -> decode (encode m ++ rest) = Ok m.
Proof. apply decode_encode_app. Qed.

Definition sample_module : Module_ :=
  {| atoms := [[x6d]; [xc3; xa9]];
     functions := [{| name_atom := 1; arity := 1; nregs := 2; code := [x13; x00] |}] |}.

Lemma sample_module_ok : module_ok sample_module.
Proof.
  split_and!; [by vm_compute| |by vm_compute|].
  - repeat constructor; by vm_compute.
  - repeat constructor; by vm_compute.
Qed.

Lemma decode_encode_witness : decode (encode sample_module ++ [x00; x01]) = Ok sample_module.
Proof. apply (decode_encode sample_module [x00; x01]); [exact sample_module_ok|by vm_compute]. Defined.

(** C36: [decode] is total and decides the format: on any byte string it either
    returns a well-formed module whose encoding starts the input, or an error,
    and an error means that no well-formed module's encoding starts it; it
    never panics. *)
Theorem decode_decides bytes :
  match decode bytes with
  | Ok m => module_ok m /\ exists rest, bytes = encode m ++ rest
  | Err _ => forall m rest, module_ok m -> zlen bytes < 2 ^ 64 -> bytes <> encode m ++ rest
  | Panic | NoFuel => False
  end.
Proof.
  destruct (decode bytes) as [m|e| |] eqn:He.
  - by apply decode_prefix.
  - intros m rest Hm Hl ->. rewrite decode_encode_app in He; [done|done|]. by rewrite zlen_app in Hl.
  - pose proof (decode_total bytes) as H. by rewrite He in H.
  - pose proof (decode_total bytes) as H. by rewrite He in H.
Qed.

(** The format is prefix-free: no proper prefix of a module's encoding
    decodes, so a truncated file is always rejected. *)
Theorem decode_truncated m k :
  module_ok m -> zlen (encode m) < 2 ^ 64 -> 0 <= k < zlen (encode m) ->
  exists e, decode (take (Z.to_nat k) (encode m)) = Err e.
Proof.
  intros Hok Hlen Hk. pose proof (decode_total (take (Z.to_nat k) (encode m))) as Ht.
  destruct (decode (take (Z.to_nat k) (encode m))) as [m'|e| |] eqn:Hd; [exfalso|by eauto|done..].
  apply decode_prefix in Hd as [Hok' [rest' Hrest]].
  assert (encode m = encode m' ++ rest' ++ drop (Z.to_nat k) (encode m)) as Hsplit.
  { by rewrite app_assoc, <- Hrest, take_drop. }
  assert (m' = m) as ->.
  { pose proof (decode_encode_app m' (rest' ++ drop (Z.to_nat k) (encode m)) Hok') as H1.
    rewrite <- zlen_app, <- Hsplit in H1. specialize (H1 Hlen).
    pose proof (decode_encode_app m [] Hok) as H2. rewrite zlen_nil, app_nil_r in H2.
    rewrite H2 in H1 by lia. congruence. }
  apply (f_equal zlen) in Hrest. rewrite zlen_app in Hrest. pose proof (zlen_nonneg rest').
  assert (zlen (take (Z.to_nat k) (encode m)) <= k) by (unfold zlen; rewrite length_take; lia). lia.
Qed.

Lemma decode_truncated_witness : exists e, decode (take 20 (encode sample_module)) = Err e.
Proof.
  apply (decode_truncated sample_module 20); [exact sample_module_ok|by vm_compute|by vm_compute].
Defined.
