(* ===== verification/BytecodeAnalysis.v ===== *)
(** * BytecodeAnalysis: the sentinel analysis and the code builder

    [sentinel_returners] computes exactly the functions that can reach a tail
    call through sibling calls, and [finish] resolves every label reference of
    a builder to the offset of its label. *)

From S2P Require Import Prelude Bytecode.

(** ** Instruction boundaries *)

(** [at'] follows [a] in the linear decoding of [c]. *)
Definition instr_step (c : list byte) (a a' : Z) : Prop :=
  exists b, lookupz c a = Some b /\ skip_operands (b2z b) c (a + 1) = Some a'.

Definition boundary (c : list byte) (a : Z) : Prop := rtc (instr_step c) 0 a.

Lemma fixed_Some c a n e : fixed c a n = Some e -> e = a + n /\ e <= zlen c.
Proof.
  unfold fixed, checked_add_usize, mbind, option_bind.
  case_bool_decide; [|done]. case_bool_decide; [|done]. intros [= <-]. done.
Qed.

Lemma le_val_nonneg bs : 0 <= le_val bs.
Proof. apply le_val_range. Qed.

(** Operands never move the cursor back, nor past the end. *)
Lemma skip_operands_bound o c a e : skip_operands o c a = Some e -> a <= e <= zlen c.
Proof.
  unfold skip_operands. cbn [select_arm]. intros H.
  repeat match type of H with
    | (if ?x then _ else _) = _ => destruct x
    end; try (apply fixed_Some in H; lia); try done.
  all: unfold mbind, option_bind, byte_operand, u32_operand in H.
  all: match type of H with match ?x with _ => _ end = _ => destruct x as [n|] eqn:Hn end; [|done].
  all: apply fixed_Some in H; apply fmap_Some in Hn as (y & _ & ->).
  all: try (pose proof (b2z_range y); lia). pose proof (le_val_nonneg y). lia.
Qed.

Lemma instr_step_bound c a a' : instr_step c a a' -> 0 <= a < a' /\ a' <= zlen c.
Proof. intros (b & Hb%lookupz_range & Hs%skip_operands_bound). lia. Qed.

(** ** The scan of one function *)

(** The instruction at [a] makes its function a returner by itself. *)
Definition own_returner (c : list byte) (a : Z) : Prop :=
  exists b, lookupz c a = Some b /\
    (b2z b ∈ [op.TAIL_CALL; op.TAIL_CALL_EXT] \/ skip_operands (b2z b) c (a + 1) = None).

Definition call_at (c : list byte) (a t : Z) : Prop :=
  exists b, lookupz c a = Some b /\ b2z b = op.CALL /\ u32_operand c (a + 2) = Some t.

Lemma rtc_step_cases c a a' :
  rtc (instr_step c) a a' <-> a' = a \/ exists n, instr_step c a n /\ rtc (instr_step c) n a'.
Proof.
  split.
  - intros H. inversion H; subst; eauto.
  - intros [-> | (n & ? & ?)]; [done|]. by eapply rtc_l.
Qed.

Lemma instr_step_det c a n n' : instr_step c a n -> instr_step c a n' -> n = n'.
Proof. intros (b & ? & ?) (b' & ? & ?). by simplify_eq. Qed.

Lemma scan_sentinel_spec c fuel : forall a bit cs,
  0 <= a <= zlen c -> zlen c - a < Z.of_nat fuel ->
  exists b' cs', scan_sentinel fuel c a bit cs = Ok (b', cs') /\
    (b' = true <-> bit = true \/ exists a', rtc (instr_step c) a a' /\ own_returner c a') /\
    (forall t, t ∈ cs' <-> t ∈ cs \/ exists a', rtc (instr_step c) a a' /\ call_at c a' t).
Proof.
  induction fuel as [|fuel IH]; intros a bit cs Ha Hf; [pose proof (zlen_nonneg c); lia|].
  cbn [scan_sentinel]. case_bool_decide as Hlt.
  2: { assert (forall a' b, rtc (instr_step c) a a' -> lookupz c a' <> Some b) as Hno.
       { intros a' b Hr Hb%lookupz_range. apply rtc_step_cases in Hr as [-> | (n & Hs & _)]; [lia|].
         apply instr_step_bound in Hs. lia. }
       exists bit, cs. split; [done|]. split.
       - split; [by left|]. intros [?|(a' & Hr & b & Hb & _)]; [done|]. by destruct (Hno a' b).
       - intros t. split; [by left|]. intros [?|(a' & Hr & b & Hb & _)]; [done|]. by destruct (Hno a' b). }
  destruct (lookupz_is_Some c a) as [b Hb]; [lia|]. rewrite Hb.
  set (bit1 := if bool_decide (b2z b ∈ [op.TAIL_CALL; op.TAIL_CALL_EXT]) then true else bit).
  set (cs1 := if bool_decide (b2z b = op.CALL) then cs ++ option_list (u32_operand c (a + 2)) else cs).
  match goal with |- context [let '(_, _) := ?p in _] => assert (p = (bit1, cs1)) as -> end.
  { unfold bit1, cs1. case_bool_decide as Ht.
    - rewrite bool_decide_false; [done|]. intros Hc. rewrite Hc in Ht. set_solver.
    - case_bool_decide; [|done]. destruct (u32_operand c (a + 2)); simpl; [done|]. by rewrite app_nil_r. }
  assert (forall t, t ∈ cs1 <-> t ∈ cs \/ call_at c a t) as Hcs1.
  { intros t. unfold cs1, call_at. case_bool_decide as Hc.
    - rewrite elem_of_app. destruct (u32_operand c (a + 2)); simpl; rewrite ?list_elem_of_singleton, ?elem_of_nil; naive_solver.
    - naive_solver. }
  destruct (skip_operands (b2z b) c (a + 1)) as [next|] eqn:Hs.
  - assert (instr_step c a next) as Hstep by (by exists b).
    pose proof (instr_step_bound _ _ _ Hstep).
    destruct (IH next bit1 cs1) as (b' & cs' & -> & Hb' & Hcs'); [lia|lia|].
    exists b', cs'. split; [done|]. split.
    + rewrite Hb'. unfold bit1. case_bool_decide as Ht.
      * split; [|by left]. intros _. right. exists a. split; [done|]. exists b. by split; [|left].
      * split; [intros [?|(a' & ? & ?)]; [by left|right; exists a'; split; [by eapply rtc_l|done]]|].
        intros [?|(a' & Hr & Ho)]; [by left|]. right. apply rtc_step_cases in Hr as [-> | (n & Hn & Hr)].
        -- destruct Ho as (b0 & ? & [?|?]); by simplify_eq.
        -- rewrite (instr_step_det _ _ _ _ Hstep Hn). eauto.
    + intros t. rewrite Hcs', Hcs1. split.
      * intros [[?|?]|(a' & ? & ?)]; [by left|right; by exists a|right; exists a'; split; [by eapply rtc_l|done]].
      * intros [?|(a' & Hr & Ho)]; [by left; left|]. apply rtc_step_cases in Hr as [-> | (n & Hn & Hr)]; [by left; right|].
        right. rewrite (instr_step_det _ _ _ _ Hstep Hn). eauto.
  - exists true, cs1. split; [done|]. split.
    + split; [|done]. intros _. right. exists a. split; [done|]. exists b. by split; [|right].
    + intros t. rewrite Hcs1. split; [intros [?|?]; [by left|right; by exists a]|].
      intros [?|(a' & Hr & Ho)]; [by left|]. apply rtc_step_cases in Hr as [-> | (n & (b0 & ? & ?) & _)]; [by right|].
      simplify_eq.
Qed.

(** ** The functions that can return the sentinel *)

(** Function [i] contains a tail call or an undecodable instruction, or it calls
    a sibling that does not exist or is itself a returner. *)
Inductive returner (m : Module_) : Z -> Prop :=
| returner_own i f a :
    lookupz (functions m) i = Some f -> boundary (code f) a -> own_returner (code f) a -> returner m i
| returner_bad i f a t :
    lookupz (functions m) i = Some f -> boundary (code f) a -> call_at (code f) a t ->
    lookupz (functions m) t = None -> returner m i
| returner_call i f a t :
    lookupz (functions m) i = Some f -> boundary (code f) a -> call_at (code f) a t ->
    returner m t -> returner m i.

Lemma scan_all_spec fs :
  exists bits callees, scan_all fs = Ok (bits, callees) /\
    length bits = length fs /\ length callees = length fs /\
    forall i f, lookupz fs i = Some f -> exists b cs,
      lookupz bits i = Some b /\ lookupz callees i = Some cs /\
      (b = true <-> exists a, boundary (code f) a /\ own_returner (code f) a) /\
      (forall t, t ∈ cs <-> exists a, boundary (code f) a /\ call_at (code f) a t).
Proof.
  induction fs as [|f fs (bits & callees & He & Hlb & Hlc & Hall)].
  { exists [], []. split_and!; try done. intros i f. by rewrite lookupz_Some, lookup_nil; intros []. }
  cbn [scan_all]. pose proof (zlen_nonneg (code f)).
  destruct (scan_sentinel_spec (code f) (S (length (code f))) 0 false []) as (b & cs & -> & Hb & Hcs);
    [lia|unfold zlen; lia|].
  cbn [mbind res_bind]. rewrite He. exists (b :: bits), (cs :: callees). simpl. split_and!; [done|lia|lia|].
  intros i g. rewrite !lookupz_Some. intros [Hi Hg]. destruct (decide (i = 0)) as [->|].
  - simpl in Hg. injection Hg as <-. exists b, cs. split_and!; [done|done|..].
    + rewrite Hb. split; [intros [?|?]; done|by right].
    + intros t. rewrite Hcs. split; [intros [Hn|?]; [by apply elem_of_nil in Hn|done]|by right].
  - destruct (Hall (i - 1) g) as (b' & cs' & Hb' & Hcs' & ?).
    { apply lookupz_Some. split; [lia|]. by replace (Z.to_nat i) with (S (Z.to_nat (i - 1))) in Hg by lia. }
    exists b', cs'. replace i with (1 + (i - 1)) by lia. split_and!; try apply H0; by apply lookupz_cons_shift.
Qed.

(** ** The fixpoint loop *)

Definition ntrue (bits : list bool) : nat := length (filter (fun b => b = true) bits).

Lemma ntrue_bound bits : (ntrue bits <= length bits)%nat.
Proof. apply length_filter. Qed.

Lemma ntrue_set bits i : lookupz bits i = Some false -> ntrue (insertz i true bits) = S (ntrue bits).
Proof.
  intros Hi. pose proof (lookupz_range _ _ _ Hi) as Hr. apply lookupz_Some in Hi as [_ Hi].
  unfold insertz. rewrite bool_decide_true by done. unfold ntrue.
  apply list_elem_of_split_length in Hi as (l1 & l2 & -> & ->).
  rewrite insert_app_r_alt, Nat.sub_diag by done. cbn [insert list_insert]. rewrite !filter_app, !filter_cons, !length_app. simpl. lia.
Qed.

Section fixpoint.
Context (callees : list (list Z)) (P : Z -> Prop).

(** [P] is closed under calling a returner or a missing sibling. *)
Definition closed_under (n : Z) : Prop := forall i cs t,
  lookupz callees i = Some cs -> t ∈ cs -> (0 <= t < n -> P t) -> P i.

Definition sound (bits : list bool) : Prop := forall i, lookupz bits i = Some true -> P i.

Lemma calls_returner_true bits cs :
  calls_returner bits cs = true <-> exists t, t ∈ cs /\ (0 <= t < zlen bits -> lookupz bits t = Some true).
Proof using Type.
  unfold calls_returner. rewrite existsb_exists. setoid_rewrite list_elem_of_In. split.
  - intros (t & Ht & Hd). exists t. split; [done|]. intros Hr.
    destruct (lookupz_is_Some bits t Hr) as [b Hb]. rewrite Hb in *. simpl in Hd. by subst.
  - intros (t & Ht & Hd). exists t. split; [done|]. destruct (lookupz bits t) as [b|] eqn:Hb; [|done].
    apply lookupz_range in Hb as Hr. specialize (Hd Hr). by simplify_eq.
Qed.

(** The state of a pass: it only turns bits on, soundly; an unchanged pass has
    seen that no bit of the indices so far can be turned on. *)
Definition pass_inv (bits : list bool) (done_ : Z -> Prop) (st : list bool * bool) : Prop :=
  zlen st.1 = zlen bits /\ (sound bits -> sound st.1) /\
  (forall i, lookupz bits i = Some true -> lookupz st.1 i = Some true) /\
  if st.2 then (ntrue bits < ntrue st.1)%nat
  else st.1 = bits /\ forall i cs, done_ i -> lookupz bits i = Some false -> lookupz callees i = Some cs ->
         calls_returner bits cs = false.

Lemma propagate_step_inv bits done_ st i :
  closed_under (zlen bits) -> pass_inv bits done_ st ->
  pass_inv bits (fun j => done_ j \/ j = i) (propagate_step callees st i).
Proof using Type.
  intros Hcl. destruct st as [b ch]. intros (Hl & Hs & Hm & Hc). cbn [fst snd] in *.
  unfold propagate_step.
  destruct (lookupz b i) as [[]|] eqn:Hi; [| |].
  2: destruct (lookupz callees i) as [cs|] eqn:Hcs; [destruct (calls_returner b cs) eqn:Hr|].
  2: { apply calls_returner_true in Hr as (t & Ht & Htb). rewrite Hl in Htb.
    pose proof (lookupz_range _ _ _ Hi). split_and!; cbn [fst snd].
    - by rewrite zlen_insertz.
    - intros Hsb j. rewrite lookupz_insertz by done. case_decide as Hij; [subst j; intros _|by apply Hs].
      eapply Hcl; [exact Hcs|exact Ht|]. intros Hr. by apply Hs, Htb.
    - intros j Hj. rewrite lookupz_insertz by done. case_decide; [done|by apply Hm].
    - rewrite ntrue_set by done. destruct ch; [lia|]. destruct Hc as [-> _]. lia. }
  all: split_and!; [done|done|done|]; destruct ch; [done|]; cbn [fst snd]; destruct Hc as [-> Hc]; split; [done|].
  all: intros j cs' [Hj | ->] Hf Hcs'; [by eapply Hc|]; by simplify_eq.
Qed.

Lemma propagate_spec bits :
  closed_under (zlen bits) ->
  pass_inv bits (fun i => 0 <= i < zlen bits) (propagate callees bits).
Proof using Type.
  intros Hcl. unfold propagate.
  assert (forall js done_ st, pass_inv bits done_ st ->
    pass_inv bits (fun j => done_ j \/ j ∈ js) (foldl (propagate_step callees) st js)) as Hfold.
  { induction js as [|i js IH]; intros done_ st Hst; cbn [foldl].
    - destruct Hst as (?&?&?&Hc). split_and!; [done..|]. destruct st.2; [done|]. destruct Hc as [? Hc].
      split; [done|]. intros i cs [?|Hn]; [by apply Hc|by apply elem_of_nil in Hn].
    - eapply propagate_step_inv in Hst; [|exact Hcl]. apply IH in Hst. destruct Hst as (?&?&?&Hc).
      split_and!; [done..|]. destruct (foldl _ _ js).2; [done|]. destruct Hc as [? Hc]. split; [done|].
      intros j cs Hj. apply Hc. set_solver. }
  assert (pass_inv bits (fun _ => False) (bits, false)) as H0 by (split_and!; [done..|]; split; [done|]; done).
  destruct (Hfold (seqZ 0 (zlen bits)) _ _ H0) as (?&?&?&Hc). split_and!; [done..|].
  destruct (foldl _ _ _).2; [done|]. destruct Hc as [? Hc]. split; [done|].
  intros i cs Hi. apply Hc. right. apply elem_of_seqZ. lia.
Qed.

(** The loop stops within one round per function and returns the least sound
    closed set of bits. *)
Lemma propagate_loop_spec fuel : forall bits,
  closed_under (zlen bits) -> sound bits -> (length bits - ntrue bits < fuel)%nat ->
  exists bits', propagate_loop fuel callees bits = Ok bits' /\
    zlen bits' = zlen bits /\ sound bits' /\
    (forall i, lookupz bits i = Some true -> lookupz bits' i = Some true) /\
    (forall i cs, lookupz bits' i = Some false -> lookupz callees i = Some cs -> calls_returner bits' cs = false).
Proof using Type.
  induction fuel as [|fuel IH]; intros bits Hcl Hs Hf; [lia|]. cbn [propagate_loop].
  pose proof (propagate_spec bits Hcl) as Hp. destruct (propagate callees bits) as [b ch].
  destruct Hp as (Hl & Hsd & Hm & Hc). cbn [fst snd] in *. destruct ch.
  - apply zlen_inj in Hl as Hl'. pose proof (ntrue_bound b).
    destruct (IH b) as (b' & -> & Hl2 & Hs2 & Hm2 & Hc2); [by rewrite Hl|by apply Hsd|lia|].
    exists b'. split_and!; [done|lia|done|auto|done].
  - destruct Hc as [-> Hc]. exists bits. split_and!; [done|done|done|done|].
    intros i cs Hi. apply Hc; [|done]. by eapply lookupz_range.
Qed.
End fixpoint.

Lemma sentinel_bits m :
  exists bits, sentinel_returners m = Ok bits /\ length bits = length (functions m) /\
    forall i f, lookupz (functions m) i = Some f -> (lookupz bits i = Some true <-> returner m i).
Proof.
  unfold sentinel_returners. destruct (scan_all_spec (functions m)) as (bits & callees & -> & Hlb & Hlc & Hall).
  cbn [mbind res_bind].
  assert (zlen bits = zlen (functions m)) as Hz by (by apply zlen_inj).
  assert (forall i cs, lookupz callees i = Some cs -> exists f, lookupz (functions m) i = Some f) as Hfun.
  { intros i cs Hi%lookupz_range. apply lookupz_is_Some. apply zlen_inj in Hlc. lia. }
  destruct (propagate_loop_spec callees (returner m) (S (length (functions m))) bits)
    as (bits' & -> & Hl' & Hs & Hm & Hc).
  - intros i cs t Hi Ht HP. destruct (Hfun i cs Hi) as [f Hf].
    destruct (Hall i f Hf) as (b & cs' & _ & Hi' & _ & Hcs). simplify_eq.
    apply Hcs in Ht as (a & Ha & Hcall). destruct (lookupz (functions m) t) as [g|] eqn:Hg.
    + eapply returner_call; [done..|]. apply HP. apply lookupz_range in Hg. lia.
    + by eapply returner_bad.
  - intros i Hi. pose proof (lookupz_range _ _ _ Hi). destruct (lookupz_is_Some (functions m) i) as [f Hf]; [lia|].
    destruct (Hall i f Hf) as (b & cs & Hb & _ & Hown & _). simplify_eq.
    destruct Hown as [(a & Ha & Ho) _]; [done|]. by eapply returner_own.
  - lia.
  - exists bits'. split; [done|]. split; [apply zlen_inj; lia|]. intros i f Hf. split; [apply Hs|].
    intros Hret. clear f Hf. induction Hret as [i f a Hf Ha Ho|i f a t Hf Ha Hcall Hn|i f a t Hf Ha Hcall Hr IH].
    all: destruct (Hall i f Hf) as (b & cs & Hb & Hcs & Hown & Hcall').
    + apply Hm. rewrite Hb. f_equal. apply Hown. eauto.
    + destruct (lookupz_is_Some bits' i) as [[] Hb']; [apply lookupz_range in Hf; lia|done|].
      specialize (Hc i cs Hb' Hcs). assert (calls_returner bits' cs = true); [|congruence].
      apply calls_returner_true. exists t. split; [apply Hcall'; eauto|].
      rewrite lookupz_None in Hn. intros Hr. lia.
    + destruct (lookupz_is_Some bits' i) as [[] Hb']; [apply lookupz_range in Hf; lia|done|].
      specialize (Hc i cs Hb' Hcs). assert (calls_returner bits' cs = true); [|congruence].
      apply calls_returner_true. exists t. split; [apply Hcall'; eauto|]. done.
Qed.

(** C38: [sentinel_returners] terminates on every module and computes exactly the
    functions that can return the tail sentinel: bit [i] is set iff function
    [i] contains a tail call or an undecodable instruction, or reaches such a
    function (or a missing one) through a chain of sibling calls. *)
Theorem sentinel_returners_exact m :
  exists bits, sentinel_returners m = Ok bits /\ length bits = length (functions m) /\
    forall i f, lookupz (functions m) i = Some f -> (lookupz bits i = Some true <-> returner m i).
Proof. apply sentinel_bits. Qed.

(** ** The code builder *)

Inductive builder_op := B_u8 (v : Z) | B_u32 (v : Z) | B_i64 (v : Z) | B_bytes (v : list byte)
| B_label_ref (l : Z) | B_bind (l : Z).

Definition build_step (b : CodeBuilder) (o : builder_op) : CodeBuilder :=
  match o with
  | B_u8 v => emit_u8 v b | B_u32 v => emit_u32 v b | B_i64 v => emit_i64 v b | B_bytes v => emit v b
  | B_label_ref l => label_ref l b | B_bind l => bind_label l b
  end.

Definition build (os : list builder_op) : CodeBuilder := foldl build_step CodeBuilder_new os.

(** Placeholders lie inside the code and do not overlap; labels lie inside it. *)
Record builder_wf (b : CodeBuilder) : Prop := {
  bw_range : Forall (fun p => 0 <= p.1 /\ p.1 + 4 <= zlen (cb_code b)) (fixups b);
  bw_disj : forall i j p q, fixups b !! i = Some p -> fixups b !! j = Some q -> (i < j)%nat -> p.1 + 4 <= q.1;
  bw_labels : map_Forall (fun _ t => 0 <= t <= zlen (cb_code b)) (labels b);
}.

Lemma builder_wf_emit bs b : builder_wf b -> builder_wf (emit bs b).
Proof.
  intros [Hr Hd Hl]. pose proof (zlen_nonneg bs). split; cbn [emit cb_code fixups labels]; [|done|].
  - eapply Forall_impl; [exact Hr|]. intros p Hp. cbn beta in *. rewrite zlen_app. lia.
  - eapply map_Forall_impl; [exact Hl|]. intros l t Ht. cbn beta in *. rewrite zlen_app. lia.
Qed.

Lemma builder_wf_step b o : builder_wf b -> builder_wf (build_step b o).
Proof.
  intros Hb. destruct o as [v|v|v|v|l|l]; try (by apply builder_wf_emit).
  - pose proof Hb as [Hr Hd Hl]. pose proof (zlen_nonneg (cb_code b)).
    assert (zlen (le_bytes 4 0) = 4) as H4 by done.
    split; cbn [build_step label_ref cb_code fixups labels].
    + rewrite zlen_app, H4. apply Forall_app. split; [|apply Forall_singleton; simpl; lia].
      eapply Forall_impl; [exact Hr|]. intros p Hp. cbn beta in *. lia.
    + intros i j p q. rewrite !lookup_app_Some. intros [Hi|[? Hi]] [Hj|[? Hj]] Hij.
      * by eapply Hd.
      * apply list_lookup_singleton_Some in Hj as [_ <-]. cbn [fst].
        rewrite Forall_lookup in Hr. apply (Hr i p Hi).
      * apply lookup_lt_Some in Hj. lia.
      * apply list_lookup_singleton_Some in Hi as [? _], Hj as [? _]. lia.
    + rewrite zlen_app, H4. eapply map_Forall_impl; [exact Hl|]. intros l' t Ht. cbn beta in *. lia.
  - destruct Hb as [Hr Hd Hl]. split; cbn [build_step bind_label cb_code fixups labels]; [done|done|].
    apply map_Forall_insert_2; [|done]. pose proof (zlen_nonneg (cb_code b)). lia.
Qed.

Lemma builder_wf_build os : builder_wf (build os).
Proof.
  unfold build. assert (builder_wf CodeBuilder_new) as H0.
  { split; cbn; [constructor|intros i j p q; by rewrite lookup_nil|apply map_Forall_empty]. }
  revert H0. generalize CodeBuilder_new. induction os as [|o os IH]; intros b Hb; [done|].
  cbn [foldl]. by apply IH, builder_wf_step.
Qed.

Lemma lookupz_patch pos bs c c' i :
  patch pos bs c = Some c' -> zlen c' = zlen c /\
  lookupz c' i = if decide (pos <= i < pos + zlen bs) then lookupz bs (i - pos) else lookupz c i.
Proof.
  unfold patch. case_bool_decide as Hb; [|done]. intros [= <-].
  assert (zlen (take (Z.to_nat pos) c ++ bs ++ drop (Z.to_nat (pos + zlen bs)) c) = zlen c) as Hl.
  { unfold zlen in *. rewrite !length_app, length_take, length_drop. lia. }
  split; [done|]. unfold lookupz at 1 3. rewrite Hl.
  case_decide as Hd.
  - rewrite bool_decide_true by lia. unfold lookupz. rewrite bool_decide_true by lia.
    unfold zlen in *. rewrite lookup_app_r by (rewrite length_take; lia). rewrite length_take.
    rewrite lookup_app_l by lia. f_equal. lia.
  - case_bool_decide as Hi; [|done]. unfold zlen in *. destruct (decide (i < pos)).
    + rewrite lookup_app_l by (rewrite length_take; lia). apply lookup_take_lt. lia.
    + rewrite lookup_app_r by (rewrite length_take; lia). rewrite length_take.
      rewrite lookup_app_r by lia. rewrite lookup_drop. f_equal. lia.
Qed.

(** The four bytes at [pos] of [c], if they all are those of [bs]. *)
Lemma slice_lookupz {A} (c bs : list A) pos :
  0 <= pos -> pos + zlen bs <= zlen c ->
  (forall i, 0 <= i < zlen bs -> lookupz c (pos + i) = lookupz bs i) -> slice c pos (pos + zlen bs) = Some bs.
Proof.
  intros Hp Hl H. unfold slice. pose proof (zlen_nonneg bs). rewrite bool_decide_true by lia. f_equal.
  replace (pos + zlen bs - pos) with (zlen bs) by lia. apply list_eq. intros j.
  destruct (decide (Z.of_nat j < zlen bs)) as [Hj|Hj].
  - rewrite lookup_take_lt, lookup_drop by lia. specialize (H (Z.of_nat j) ltac:(lia)).
    unfold lookupz in H. rewrite !bool_decide_true in H by lia.
    rewrite Nat2Z.id in H. rewrite <- H. f_equal. lia.
  - rewrite lookup_take_ge by lia. symmetry. apply lookup_ge_None. unfold zlen in *. lia.
Qed.

(** What [resolve] does to the code, one placeholder at a time. *)
Lemma resolve_spec lbls n fx : forall c,
  Forall (fun p => 0 <= p.1 /\ p.1 + 4 <= n) fx -> zlen c = n ->
  (forall i j p q, fx !! i = Some p -> fx !! j = Some q -> (i < j)%nat -> p.1 + 4 <= q.1) ->
  (forall p, p ∈ fx -> is_Some (lbls !! p.2)) ->
  exists c', resolve lbls fx c = Ok c' /\ zlen c' = n /\
    (forall p t, p ∈ fx -> lbls !! p.2 = Some t -> slice c' p.1 (p.1 + 4) = Some (le_bytes 4 (t - (p.1 + 4)))) /\
    (forall i, (forall p, p ∈ fx -> ~ (p.1 <= i < p.1 + 4)) -> lookupz c' i = lookupz c i).
Proof.
  induction fx as [|[pos l] fx IH]; intros c Hr Hn Hd Hl.
  { exists c. split_and!; [done|done| |done]. intros p t Hp. by apply elem_of_nil in Hp. }
  apply Forall_cons in Hr as [[Hp1 Hp2] Hr]. cbn [fst snd] in *. destruct (Hl (pos, l)) as [t Ht]; [by left|].
  cbn [resolve]. cbn [snd] in Ht. rewrite Ht. set (bs := le_bytes 4 (t - (pos + 4))).
  assert (zlen bs = 4) as H4 by (unfold zlen, bs; by rewrite length_le_bytes).
  destruct (patch pos bs c) as [c1|] eqn:Hpatch.
  2: { unfold patch in Hpatch. rewrite bool_decide_true in Hpatch by lia. done. }
  assert (forall i, lookupz c1 i = if decide (pos <= i < pos + 4) then lookupz bs (i - pos) else lookupz c i) as Hc1.
  { intros i. destruct (lookupz_patch _ _ _ _ i Hpatch) as [_ ->]. by rewrite H4. }
  destruct (lookupz_patch _ _ _ _ 0 Hpatch) as [Hl1 _].
  assert (forall p, p ∈ fx -> pos + 4 <= p.1) as Hafter.
  { intros p [j Hj]%list_elem_of_lookup. apply (Hd 0%nat (S j) (pos, l) p); [done|done|lia]. }
  destruct (IH c1) as (c' & -> & Hl' & Hfix & Hout); [done|lia| | |].
  { intros i j p q Hi Hj Hij. apply (Hd (S i) (S j)); [done|done|lia]. }
  { intros p Hp. apply Hl. by right. }
  exists c'. split_and!; [done|done| |].
  - intros p t' Hp Ht'. apply elem_of_cons in Hp as [-> | Hp]; [|by apply Hfix].
    cbn [fst snd] in *. simplify_eq. fold bs. rewrite <- H4.
    apply slice_lookupz; [done|lia|]. intros i Hi. rewrite H4 in Hi.
    rewrite Hout; [rewrite Hc1, decide_True by lia; f_equal; lia|].
    intros p Hp. specialize (Hafter p Hp). lia.
  - intros i Hi. rewrite Hout by (intros p Hp; apply Hi; by right). rewrite Hc1.
    by rewrite decide_False by (apply (Hi (pos, l)); by left).
Qed.

Lemma resolve_err lbls n fx : forall c l,
  Forall (fun p => 0 <= p.1 /\ p.1 + 4 <= n) fx -> zlen c = n ->
  list.head (filter (fun p => lbls !! p.2 = None) fx) = Some l -> resolve lbls fx c = Err l.2.
Proof.
  induction fx as [|[pos l0] fx IH]; intros c l Hr Hn Hh; [done|].
  apply Forall_cons in Hr as [[Hp1 Hp2] Hr]. cbn [fst snd] in *. cbn [resolve].
  rewrite filter_cons in Hh. cbn [snd] in Hh. destruct (lbls !! l0) as [t|] eqn:Ht.
  - rewrite decide_False in Hh by done.
    destruct (patch pos _ c) as [c1|] eqn:Hpatch.
    + apply (IH c1); [done| |done]. destruct (lookupz_patch _ _ _ _ 0 Hpatch) as [? _]. lia.
    + unfold patch in Hpatch. rewrite bool_decide_true in Hpatch; [done|].
      unfold zlen at 1. rewrite length_le_bytes. lia.
  - rewrite decide_True in Hh by done. injection Hh as <-. done.
Qed.

(** [finish] resolves whatever was built: if some referenced label was never
    bound it reports the first such reference; otherwise it returns code of the
    same length, equal to the emitted bytes outside the placeholders, in which
    every placeholder holds the 32-bit offset from the byte after it to its
    label, so that the interpreter's relative jump lands on the label. *)
Theorem finish_resolves os :
  let b := build os in
  match list.head (filter (fun p => labels b !! p.2 = None) (fixups b)) with
  | Some p => finish b = Err p.2
  | None =>
      exists c, finish b = Ok c /\ zlen c = zlen (cb_code b) /\
        (forall i, (forall p, p ∈ fixups b -> ~ (p.1 <= i < p.1 + 4)) -> lookupz c i = lookupz (cb_code b) i) /\
        (forall pos l, (pos, l) ∈ fixups b -> exists target raw,
           labels b !! l = Some target /\ u32_operand c pos = Some raw /\
           (zlen c < 2 ^ 31 -> pos + 4 + swrap 32 raw = target))
  end.
Proof.
  intros b. pose proof (builder_wf_build os) as [Hr Hd Hl]. fold b in Hr, Hd, Hl.
  destruct (list.head _) as [p|] eqn:Hh; [by eapply resolve_err|].
  assert (forall p, p ∈ fixups b -> is_Some (labels b !! p.2)) as Hall.
  { intros p Hp. apply not_eq_None_Some. intros Hn. apply head_None in Hh.
    assert (p ∈ filter (fun p => labels b !! p.2 = None) (fixups b)) as Hin by (by apply list_elem_of_filter).
    rewrite Hh in Hin. by apply elem_of_nil in Hin. }
  destruct (resolve_spec (labels b) (zlen (cb_code b)) (fixups b) (cb_code b)) as (c & He & Hlen & Hfix & Hout);
    [done|done|done|done|].
  exists c. split_and!; [done|done|done|]. intros pos l Hp. destruct (Hall _ Hp) as [t Ht]. cbn [snd] in Ht.
  exists t, (wrap 32 (t - (pos + 4))). split_and!; [done| |].
  - unfold u32_operand. pose proof (Hfix _ t Hp Ht) as Hs. cbn [fst] in Hs. rewrite Hs.
    cbn [fmap option_fmap option_map]. by rewrite le_val_bytes.
  - intros Hs. specialize (Hl l t Ht). simpl in Hl. rewrite Forall_forall in Hr. specialize (Hr _ Hp).
    cbn [fst] in Hr. rewrite swrap_wrap, swrap_small by lia. lia.
Qed.
