(* ===== verification/Verify.v ===== *)
(** * Verify: the bytecode verifier

    Models [crates/ygg-bytecode/src/verify.rs]: one definition per arm of the
    opcode match, the scan loop of [verify_fn] over a cursor, the set of
    instruction boundaries and the list of jump targets, and the final checks. *)

From S2P Require Import Prelude Bytecode.

Inductive VerifyError :=
| BadFunctionName (fn_idx : Z)
| ArityExceedsRegs (fn_idx : Z)
| UnknownOpcode (fn_idx at_ opcode : Z)
| TruncatedInstruction (fn_idx at_ : Z)
| BadRegister (fn_idx at_ reg : Z)
| BadAtom (fn_idx at_ atom : Z)
| BadJumpTarget (fn_idx at_ : Z)
| BadCallTarget (fn_idx at_ callee : Z)
| BadCallArity (fn_idx at_ : Z)
| FallsOffEnd (fn_idx : Z).

(** [Scan] (its cursor and start offset; the code and function index are the
    section's) with the accumulators of [verify_fn]. *)
Record Scan := {
  s_at : Z;
  s_start : Z;
  boundaries : gset Z;
  jump_targets : list (Z * Z);
  fell_through : bool;
}.

Abbreviation VM := (M Scan VerifyError).

Definition scan0 : Scan :=
  {| s_at := 0; s_start := 0; boundaries := ∅; jump_targets := []; fell_through := true |}.

Definition set_at (n : Z) (s : Scan) : Scan :=
  {| s_at := n; s_start := s_start s; boundaries := boundaries s;
     jump_targets := jump_targets s; fell_through := fell_through s |}.

(** The head of the loop: [s.start = s.at; boundaries.insert(s.start)]. *)
Definition start_instr (s : Scan) : Scan :=
  {| s_at := s_at s; s_start := s_at s; boundaries := {[s_at s]} ∪ boundaries s;
     jump_targets := jump_targets s; fell_through := fell_through s |}.

Definition set_fell (b : bool) (s : Scan) : Scan :=
  {| s_at := s_at s; s_start := s_start s; boundaries := boundaries s;
     jump_targets := jump_targets s; fell_through := b |}.

Definition push_target (site off : Z) (s : Scan) : Scan :=
  {| s_at := s_at s; s_start := s_start s; boundaries := boundaries s;
     jump_targets := jump_targets s ++ [(site, s_at s + off)]; fell_through := fell_through s |}.

Section verifier.
Context (m : Module_) (fn_idx : Z) (f : Function).

Definition scan_u8 : VM Z :=
  s ← get;
  v ← ok_or (lookupz (code f) (s_at s)) (TruncatedInstruction fn_idx (s_start s));
  _ ← modify (set_at (s_at s + 1));
  mret (b2z v).

Definition scan_u32 : VM Z :=
  s ← get;
  v ← ok_or (slice (code f) (s_at s) (s_at s + 4)) (TruncatedInstruction fn_idx (s_start s));
  _ ← modify (set_at (s_at s + 4));
  mret (le_val v).

Definition scan_skip (n : Z) : VM unit :=
  s ← get;
  _ ← fail_if (bool_decide (s_at s + n > zlen (code f))) (TruncatedInstruction fn_idx (s_start s));
  modify (set_at (s_at s + n)).

Definition reg_ok (r a : Z) : VM unit :=
  fail_if (bool_decide (r >= nregs f)) (BadRegister fn_idx a r).

(** [reg_ok(s.u8()?, at)?] *)
Definition scan_reg (a : Z) : VM unit := r ← scan_u8; reg_ok r a.
(** [for _ in 0..n { reg_ok(s.u8()?, at)?; }] *)
Definition scan_regs (n a : Z) : VM unit := repeat_m (Z.to_nat n) (scan_reg a).

Definition scan_atom (a : Z) : VM unit :=
  i ← scan_u32;
  fail_if (negb (bool_decide (is_Some (lookupz (atoms m) i)))) (BadAtom fn_idx a i).

(** The callee of a call must exist; its arity is returned. *)
Definition callee_arity (a callee : Z) : VM Z :=
  g ← ok_or (lookupz (functions m) callee) (BadCallTarget fn_idx a callee);
  mret (arity g).

(** [s.u32()? as i32], recorded as an absolute target. *)
Definition scan_jump (a : Z) : VM unit :=
  off ← scan_u32; modify (push_target a (swrap 32 off)).

(** *** The arms *)

Definition v_nop : VM unit := mret tt.
Definition v_load_int (a : Z) : VM unit := _ ← scan_reg a; scan_skip 8.
Definition v_load_atom (a : Z) : VM unit := _ ← scan_reg a; scan_atom a.
Definition v_reg1 (a : Z) : VM unit := scan_reg a.
Definition v_reg2 (a : Z) : VM unit := _ ← scan_reg a; scan_reg a.
Definition v_reg3 (a : Z) : VM unit := _ ← scan_reg a; _ ← scan_reg a; scan_reg a.
Definition v_reg4 (a : Z) : VM unit := _ ← scan_reg a; _ ← scan_reg a; _ ← scan_reg a; scan_reg a.
Definition v_make_tuple (a : Z) : VM unit := _ ← scan_reg a; n ← scan_u8; scan_regs n a.
Definition v_get_elem (a : Z) : VM unit := _ ← scan_reg a; _ ← scan_reg a; scan_skip 1.
Definition v_jmp (a : Z) : VM unit := _ ← scan_jump a; modify (set_fell false).
Definition v_jmp_if (a : Z) : VM unit := _ ← scan_reg a; scan_jump a.
Definition v_call (a : Z) : VM unit :=
  _ ← scan_reg a;
  callee ← scan_u32;
  nargs ← scan_u8;
  ar ← callee_arity a callee;
  _ ← fail_if (negb (bool_decide (ar = nargs))) (BadCallArity fn_idx a);
  scan_regs nargs a.
Definition v_ret (a : Z) : VM unit := _ ← scan_reg a; modify (set_fell false).
Definition v_spawn (a : Z) : VM unit :=
  _ ← scan_reg a;
  callee ← scan_u32;
  ar ← callee_arity a callee;
  _ ← fail_if (negb (bool_decide (ar = 1))) (BadCallArity fn_idx a);
  scan_reg a.
Definition v_port_open (a : Z) : VM unit := _ ← scan_reg a; scan_skip 1.
Definition v_port_submit (a : Z) : VM unit :=
  _ ← scan_reg a; _ ← scan_skip 1; _ ← scan_reg a; scan_reg a.
Definition v_regs_const (n a : Z) : VM unit := scan_regs n a.
Definition v_call_ext (a : Z) : VM unit :=
  _ ← scan_reg a;
  _ ← scan_atom a;
  _ ← scan_atom a;
  nargs ← scan_u8;
  scan_regs nargs a.
Definition v_tail_call (a : Z) : VM unit :=
  callee ← scan_u32;
  nargs ← scan_u8;
  ar ← callee_arity a callee;
  _ ← fail_if (negb (bool_decide (ar = nargs))) (BadCallArity fn_idx a);
  _ ← scan_regs nargs a;
  modify (set_fell false).
Definition v_tail_call_ext (a : Z) : VM unit :=
  _ ← scan_atom a;
  _ ← scan_atom a;
  nargs ← scan_u8;
  _ ← scan_regs nargs a;
  modify (set_fell false).
Definition v_bin_new (a : Z) : VM unit := _ ← scan_reg a; len ← scan_u32; scan_skip len.
Definition v_map_new (a : Z) : VM unit :=
  _ ← scan_reg a;
  n ← scan_u8;
  repeat_m (Z.to_nat n) (_ ← scan_reg a; scan_reg a).

(** The opcode match: opcode groups in the order of the source. *)
Definition verify_arms (a : Z) : list (list Z * VM unit) :=
  [ ([op.NOP], v_nop);
    ([op.LOAD_INT], v_load_int a);
    ([op.LOAD_ATOM], v_load_atom a);
    ([op.LOAD_NIL; op.SELF_PID; op.RECV; op.TICKS], v_reg1 a);
    ([op.MOVE; op.HEAD; op.TAIL], v_reg2 a);
    ([op.MAKE_TUPLE], v_make_tuple a);
    ([op.GET_ELEM], v_get_elem a);
    ([op.CONS; op.ADD; op.SUB; op.MUL; op.CMP_EQ; op.CMP_LT], v_reg3 a);
    ([op.JMP], v_jmp a);
    ([op.JMP_IF], v_jmp_if a);
    ([op.CALL], v_call a);
    ([op.RET; op.EXIT_ATOM], v_ret a);
    ([op.SPAWN], v_spawn a);
    ([op.SEND], v_reg2 a);
    ([op.PRINT], v_reg1 a);
    ([op.PORT_OPEN], v_port_open a);
    ([op.PORT_SUBMIT], v_port_submit a);
    ([op.PORT_SUBMIT2], v_regs_const 5 a);
    ([op.BUF_WRITE], v_regs_const 4 a);
    ([op.SLEEP_MS], v_reg1 a);
    ([op.BUF_NEW], v_reg2 a);
    ([op.BUF_READ], v_regs_const 4 a);
    ([op.CALL_EXT], v_call_ext a);
    ([op.TAIL_CALL], v_tail_call a);
    ([op.TAIL_CALL_EXT], v_tail_call_ext a);
    ([op.BAND; op.BOR; op.BXOR; op.BSL; op.BSR], v_reg3 a);
    ([op.BIN_CAT; op.LIST_CAT], v_reg3 a);
    ([op.BNOT; op.BIN_FROM_LIST; op.BIN_TO_LIST; op.BIN_SIZE; op.BUF_TO_BIN; op.BIN_TO_BUF; op.IS_BINARY], v_reg2 a);
    ([op.BIN_NEW], v_bin_new a);
    ([op.MAP_NEW], v_map_new a);
    ([op.MAP_GET; op.BIN_AT], v_reg3 a);
    ([op.MAP_PUT; op.BIN_PART], v_reg4 a) ].

Definition verify_instr (a opcode : Z) : VM unit :=
  select_arm opcode (verify_arms a) (throw (UnknownOpcode fn_idx a opcode)).

(** [while s.at < f.code.len()]; every round consumes at least the opcode. *)
Fixpoint verify_loop (fuel : nat) : VM unit :=
  match fuel with
  | O => nofuel
  | S fuel' =>
      s ← get;
      if bool_decide (s_at s < zlen (code f)) then
        _ ← modify start_instr;
        opcode ← scan_u8;
        _ ← modify (set_fell true);
        _ ← verify_instr (s_at s) opcode;
        verify_loop fuel'
      else mret tt
  end.

(** The checks after the loop. *)
Definition verify_end : VM unit :=
  s ← get;
  _ ← fail_if (fell_through s) (FallsOffEnd fn_idx);
  for_each (jump_targets s) (fun t =>
    fail_if (bool_decide (t.2 < 0) || negb (bool_decide (t.2 ∈ boundaries s))) (BadJumpTarget fn_idx t.1)).

Definition verify_fn : VM unit :=
  _ ← fail_if (negb (bool_decide (is_Some (lookupz (atoms m) (name_atom f))))) (BadFunctionName fn_idx);
  _ ← fail_if (bool_decide (arity f > nregs f)) (ArityExceedsRegs fn_idx);
  _ ← verify_loop (S (length (code f)));
  verify_end.
End verifier.

(** [for (fn_idx, f) in m.functions.iter().enumerate() { verify_fn(m, fn_idx, f)?; }] *)
Fixpoint verify_from (m : Module_) (i : Z) (fs : list Function) : res VerifyError unit :=
  match fs with
  | [] => Ok tt
  | f :: fs' => _ ← (verify_fn m i f scan0).1; verify_from m (i + 1) fs'
  end.

Definition verify (m : Module_) : res VerifyError unit := verify_from m 0 (functions m).
