(* ===== verification/VerifySound.v ===== *)
(** * VerifySound: what the verifier accepts

    A declarative grammar of the instruction set ([format]) and of well-formed
    operands ([item_ok]), and the theorem that [verify] accepts exactly the
    modules whose functions decode into it, stay inside their frame, jump to
    instruction boundaries and cannot run off their end. *)

From S2P Require Import Prelude Bytecode BytecodeAnalysis Verify.

(** ** The grammar *)

Inductive item :=
| IReg            (* a register byte *)
| IRaw (n : Z)    (* n uninterpreted bytes *)
| IAtom           (* u32 index into the atom table *)
| IRegs           (* count byte n, then n registers *)
| IPairs          (* count byte n, then n pairs of registers *)
| ICall           (* u32 callee, count byte equal to its arity, that many registers *)
| ISpawn          (* u32 callee of arity 1 *)
| IJump           (* i32 offset *)
| IBytes.         (* u32 length, that many bytes *)

#[export] Instance item_eq_dec : EqDecision item.
Proof. solve_decision. Defined.

(** Operand items, and whether control never reaches the next instruction. *)
Definition format (o : Z) : option (list item * bool) :=
  select_arm o
    [ ([op.NOP], Some ([], false));
      ([op.LOAD_INT], Some ([IReg; IRaw 8], false));
      ([op.LOAD_ATOM], Some ([IReg; IAtom], false));
      ([op.LOAD_NIL; op.SELF_PID; op.RECV; op.TICKS; op.PRINT; op.SLEEP_MS], Some ([IReg], false));
      ([op.MOVE; op.HEAD; op.TAIL; op.SEND; op.BUF_NEW; op.BNOT; op.BIN_FROM_LIST; op.BIN_TO_LIST; op.BIN_SIZE;
        op.BUF_TO_BIN; op.BIN_TO_BUF; op.IS_BINARY], Some ([IReg; IReg], false));
      ([op.MAKE_TUPLE], Some ([IReg; IRegs], false));
      ([op.GET_ELEM], Some ([IReg; IReg; IRaw 1], false));
      ([op.CONS; op.ADD; op.SUB; op.MUL; op.CMP_EQ; op.CMP_LT; op.BAND; op.BOR; op.BXOR; op.BSL; op.BSR;
        op.BIN_CAT; op.LIST_CAT; op.MAP_GET; op.BIN_AT], Some ([IReg; IReg; IReg], false));
      ([op.BUF_WRITE; op.BUF_READ; op.MAP_PUT; op.BIN_PART], Some ([IReg; IReg; IReg; IReg], false));
      ([op.PORT_SUBMIT2], Some ([IReg; IReg; IReg; IReg; IReg], false));
      ([op.JMP], Some ([IJump], true));
      ([op.JMP_IF], Some ([IReg; IJump], false));
      ([op.CALL], Some ([IReg; ICall], false));
      ([op.RET; op.EXIT_ATOM], Some ([IReg], true));
      ([op.SPAWN], Some ([IReg; ISpawn; IReg], false));
      ([op.PORT_OPEN], Some ([IReg; IRaw 1], false));
      ([op.PORT_SUBMIT], Some ([IReg; IRaw 1; IReg; IReg], false));
      ([op.CALL_EXT], Some ([IReg; IAtom; IAtom; IRegs], false));
      ([op.TAIL_CALL], Some ([ICall], true));
      ([op.TAIL_CALL_EXT], Some ([IAtom; IAtom; IRegs], true));
      ([op.BIN_NEW], Some ([IReg; IBytes], false));
      ([op.MAP_NEW], Some ([IReg; IPairs], false)) ]
    None.

Section grammar.
Context (m : Module_) (f : Function).

Definition reg_at (a : Z) : Prop := exists b, lookupz (code f) a = Some b /\ b2z b < nregs f.

Definition item_ok (i : item) (a e : Z) : Prop :=
  match i with
  | IReg => reg_at a /\ e = a + 1
  | IRaw n => e = a + n /\ e <= zlen (code f)
  | IAtom => exists v, u32_operand (code f) a = Some v /\ v < zlen (atoms m) /\ e = a + 4
  | IRegs => exists b, lookupz (code f) a = Some b /\ e = a + 1 + b2z b /\ forall j, a + 1 <= j < e -> reg_at j
  | IPairs => exists b, lookupz (code f) a = Some b /\ e = a + 1 + 2 * b2z b /\ forall j, a + 1 <= j < e -> reg_at j
  | ICall => exists v g b, u32_operand (code f) a = Some v /\ lookupz (functions m) v = Some g /\
      lookupz (code f) (a + 4) = Some b /\ arity g = b2z b /\
      e = a + 5 + b2z b /\ forall j, a + 5 <= j < e -> reg_at j
  | ISpawn => exists v g, u32_operand (code f) a = Some v /\ lookupz (functions m) v = Some g /\
      arity g = 1 /\ e = a + 4
  | IJump => is_Some (u32_operand (code f) a) /\ e = a + 4
  | IBytes => exists v, u32_operand (code f) a = Some v /\ e = a + 4 + v /\ e <= zlen (code f)
  end.

Fixpoint items_ok (is_ : list item) (a e : Z) : Prop :=
  match is_ with
  | [] => e = a
  | i :: is' => exists a', item_ok i a a' /\ items_ok is' a' e
  end.

(** Where the jumps among the items lead. *)
Fixpoint jumps (is_ : list item) (a : Z) (t : Z) : Prop :=
  match is_ with
  | [] => False
  | i :: is' => exists a', item_ok i a a' /\
      ((i = IJump /\ exists v, u32_operand (code f) a = Some v /\ t = a' + swrap 32 v) \/ jumps is' a' t)
  end.

(** An instruction at [a]: its operands end at [e]. *)
Definition instr_at (a : Z) (is_ : list item) (term : bool) (e : Z) : Prop :=
  exists b, lookupz (code f) a = Some b /\ format (b2z b) = Some (is_, term) /\ items_ok is_ (a + 1) e.

(** The instruction boundaries: what decoding one instruction after another
    from offset 0 reaches. *)
Definition next_instr (a e : Z) : Prop := exists is_ term, instr_at a is_ term e.
Definition decoded (a : Z) : Prop := rtc next_instr 0 a /\ a < zlen (code f).

(** What the verifier promises about a function. *)
Record fn_ok : Prop := {
  fn_name : is_Some (lookupz (atoms m) (name_atom f));
  fn_arity : arity f <= nregs f;
  fn_entry : decoded 0;
  fn_instr a : decoded a -> exists is_ term e, instr_at a is_ term e /\
    (term = false -> decoded e) /\ (forall t, jumps is_ (a + 1) t -> decoded t);
}.
End grammar.

(** Some function of the module has the instruction [o]. *)
Definition uses (m : Module_) (o : Z) : Prop := exists i f p b,
  lookupz (functions m) i = Some f /\ decoded m f p /\ lookupz (code f) p = Some b /\ b2z b = o.

Definition module_verified (m : Module_) : Prop :=
  forall i f, lookupz (functions m) i = Some f -> fn_ok m f.

(** ** The scanner as an interpreter of the grammar *)

Section scanner.
Context (m : Module_) (fn_idx : Z) (f : Function).

Definition scan_item (a : Z) (i : item) : VM unit :=
  match i with
  | IReg => scan_reg fn_idx f a
  | IRaw n => scan_skip fn_idx f n
  | IAtom => scan_atom m fn_idx f a
  | IRegs => n ← scan_u8 fn_idx f; scan_regs fn_idx f n a
  | IPairs => n ← scan_u8 fn_idx f; repeat_m (Z.to_nat n) (_ ← scan_reg fn_idx f a; scan_reg fn_idx f a)
  | ICall =>
      callee ← scan_u32 fn_idx f;
      nargs ← scan_u8 fn_idx f;
      ar ← callee_arity m fn_idx a callee;
      _ ← fail_if (negb (bool_decide (ar = nargs))) (BadCallArity fn_idx a);
      scan_regs fn_idx f nargs a
  | ISpawn =>
      callee ← scan_u32 fn_idx f;
      ar ← callee_arity m fn_idx a callee;
      fail_if (negb (bool_decide (ar = 1))) (BadCallArity fn_idx a)
  | IJump => scan_jump fn_idx f a
  | IBytes => len ← scan_u32 fn_idx f; scan_skip fn_idx f len
  end.

Fixpoint scan_items (a : Z) (is_ : list item) : VM unit :=
  match is_ with
  | [] => mret tt
  | i :: is' => _ ← scan_item a i; scan_items a is'
  end.

Definition scan_format (a : Z) (fmt : list item * bool) : VM unit :=
  _ ← scan_items a fmt.1; if fmt.2 then modify (set_fell false) else mret tt.

Lemma bind_unit_r {S E} (c : M S E unit) s : (_ ← c; mret tt) s = c s.
Proof using Type. unfold mbind, M_bind. by destruct (c s) as [[[]|?| |] ?]. Qed.

(** The verifier's arms are the grammar's scanner. *)
Lemma verify_instr_format a o s :
  verify_instr m fn_idx f a o s =
  match format o with
  | Some fmt => scan_format a fmt s
  | None => (Err (UnknownOpcode fn_idx a o), s)
  end.
Proof using Type.
  destruct (decide (0 <= o < 56)) as [Ho|Ho].
  - apply (seqZ_cases (fun o => verify_instr m fn_idx f a o s =
      match format o with
      | Some fmt => scan_format a fmt s
      | None => (Err (UnknownOpcode fn_idx a o), s)
      end) 56); [|done].
    let l := eval vm_compute in (seqZ 0 56) in change (seqZ 0 56) with l.
    repeat constructor.
    all: unfold verify_instr, format, verify_arms; op_eval; unfold scan_format; cbn [fst snd scan_items scan_item].
    all: unfold v_nop, v_load_int, v_load_atom, v_reg1, v_reg2, v_reg3, v_reg4, v_make_tuple, v_get_elem, v_jmp,
      v_jmp_if, v_call, v_ret, v_spawn, v_port_open, v_port_submit, v_regs_const, v_call_ext, v_tail_call,
      v_tail_call_ext, v_bin_new, v_map_new.
    all: unfold scan_regs; change (Z.to_nat 5) with 5%nat; change (Z.to_nat 4) with 4%nat; cbn [repeat_m].
    all: unfold mbind, M_bind, mret, M_ret.
    all: repeat match goal with
      | |- _ => progress cbn beta iota
      | |- context [match ?c ?st with _ => _ end] => destruct (c st) as [[?|?| |] ?]; try done
      end.
    all: by repeat match goal with u : unit |- _ => destruct u end.
  - unfold verify_instr, format. rewrite !select_arm_none; [done|..].
    all: repeat constructor; cbn [fst]; rewrite !not_elem_of_cons; repeat split; try apply not_elem_of_nil.
    all: vm_compute; intros ->; lia.
Qed.

(** *** The primitives *)

Lemma scan_u8_ok s v s' :
  scan_u8 fn_idx f s = (Ok v, s') <->
  exists b, lookupz (code f) (s_at s) = Some b /\ v = b2z b /\ s' = set_at (s_at s + 1) s.
Proof using Type.
  unfold scan_u8, mbind, M_bind, get, ok_or, modify, mret, M_ret.
  destruct (lookupz _ _) as [b|]; simpl; naive_solver.
Qed.

Lemma scan_u32_ok s v s' :
  scan_u32 fn_idx f s = (Ok v, s') <->
  u32_operand (code f) (s_at s) = Some v /\ s' = set_at (s_at s + 4) s.
Proof using Type.
  unfold scan_u32, u32_operand, mbind, M_bind, get, ok_or, modify, mret, M_ret.
  destruct (slice _ _ _) as [b|]; simpl; naive_solver.
Qed.

Lemma scan_skip_ok n s s' :
  scan_skip fn_idx f n s = (Ok tt, s') <-> s_at s + n <= zlen (code f) /\ s' = set_at (s_at s + n) s.
Proof using Type.
  unfold scan_skip, mbind, M_bind, get, fail_if, modify, mret, M_ret, throw.
  case_bool_decide; simpl; naive_solver lia.
Qed.

Lemma scan_reg_ok a s s' :
  scan_reg fn_idx f a s = (Ok tt, s') <-> reg_at f (s_at s) /\ s' = set_at (s_at s + 1) s.
Proof using Type.
  unfold scan_reg, reg_ok. rewrite bind_ok. setoid_rewrite scan_u8_ok. unfold reg_at, fail_if, throw. split.
  - intros (v & s1 & (b & Hb & -> & ->) & H). case_bool_decide; [done|]. injection H as <-.
    split; [|done]. exists b. split; [done|lia].
  - intros [(b & Hb & Hlt) ->]. eexists _, _. split; [by exists b|]. by rewrite bool_decide_false by lia.
Qed.

Lemma set_at_set_at x y s : set_at x (set_at y s) = set_at x s.
Proof using Type. done. Qed.

Lemma set_at_id s : set_at (s_at s) s = s.
Proof using Type. by destruct s. Qed.

Lemma scan_regs_ok a n : forall s s',
  repeat_m n (scan_reg fn_idx f a) s = (Ok tt, s') <->
  (forall j, s_at s <= j < s_at s + Z.of_nat n -> reg_at f j) /\ s' = set_at (s_at s + Z.of_nat n) s.
Proof using Type.
  induction n as [|n IH]; intros s s'; cbn [repeat_m].
  - rewrite Z.add_0_r, set_at_id. unfold mret, M_ret. split; [intros [= <-]; split; [lia|done]|].
    by intros [_ ->].
  - rewrite bind_ok. split.
    + intros ([] & s1 & [Hr ->]%scan_reg_ok & [Hall ->]%IH). cbn [s_at set_at] in *. split.
      * intros j Hj. destruct (decide (j = s_at s)) as [->|]; [done|]. apply Hall. lia.
      * rewrite set_at_set_at. f_equal. lia.
    + intros [Hall ->]. exists tt, (set_at (s_at s + 1) s). split.
      * apply scan_reg_ok. split; [|done]. apply Hall. lia.
      * apply IH. cbn [s_at set_at]. split; [intros j Hj; apply Hall; lia|].
        rewrite set_at_set_at. f_equal. lia.
Qed.

Lemma scan_pairs_ok a n : forall s s',
  repeat_m n (_ ← scan_reg fn_idx f a; scan_reg fn_idx f a) s = (Ok tt, s') <->
  repeat_m (2 * n) (scan_reg fn_idx f a) s = (Ok tt, s').
Proof using Type.
  induction n as [|n IH]; intros s s'; [done|].
  replace (2 * S n)%nat with (S (S (2 * n)))%nat by lia. cbn [repeat_m]. rewrite bind_assoc.
  rewrite !bind_ok. setoid_rewrite bind_ok. by setoid_rewrite IH.
Qed.

Lemma scan_atom_ok a s s' :
  scan_atom m fn_idx f a s = (Ok tt, s') <-> exists e, item_ok m f IAtom (s_at s) e /\ s' = set_at e s.
Proof using Type.
  unfold scan_atom. rewrite bind_ok. setoid_rewrite scan_u32_ok. unfold item_ok, fail_if, throw. split.
  - intros (v & s1 & (Hv & ->) & H). case_bool_decide as Hs; [|done]. injection H as <-.
    eexists. split; [|done]. exists v. destruct Hs as [x Hx%lookupz_range]. naive_solver lia.
  - intros (e & (v & Hv & Hlt & ->) & ->). exists v, (set_at (s_at s + 4) s). split; [done|].
    rewrite bool_decide_true; [done|]. apply lookupz_is_Some. split; [|done].
    unfold u32_operand in Hv. apply fmap_Some in Hv as (x & _ & ->). apply le_val_nonneg.
Qed.

Lemma callee_arity_ok a c s v s' :
  callee_arity m fn_idx a c s = (Ok v, s') <->
  exists g, lookupz (functions m) c = Some g /\ v = arity g /\ s' = s.
Proof using Type.
  unfold callee_arity, mbind, M_bind, ok_or, mret, M_ret, throw.
  destruct (lookupz _ _); simpl; naive_solver.
Qed.

Lemma fail_if_ok {S E} b (e : E) (s s' : S) : fail_if b e s = (Ok tt, s') <-> b = false /\ s' = s.
Proof using Type. unfold fail_if, throw, mret, M_ret. destruct b; naive_solver. Qed.

(** The scanner's state after one operand. *)
Definition after_item (a : Z) (i : item) (e : Z) (s : Scan) : Scan :=
  match i with
  | IJump => push_target a (swrap 32 (default 0 (u32_operand (code f) (s_at s)))) (set_at e s)
  | _ => set_at e s
  end.

Lemma scan_item_ok a i s s' :
  scan_item a i s = (Ok tt, s') <-> exists e, item_ok m f i (s_at s) e /\ s' = after_item a i e s.
Proof using Type.
  destruct i; cbn [scan_item item_ok after_item].
  - rewrite scan_reg_ok. naive_solver.
  - rewrite scan_skip_ok. naive_solver.
  - apply scan_atom_ok.
  - rewrite bind_ok. unfold scan_regs. setoid_rewrite scan_u8_ok. setoid_rewrite scan_regs_ok. split.
    + intros (v & s1 & (b & Hb & -> & ->) & Hall & ->). pose proof (b2z_range b). cbn [s_at set_at] in *.
      rewrite Z2Nat.id in * by lia. eexists. split; [exists b; split_and!; [done|reflexivity|done]|done].
    + intros (e & (b & Hb & -> & Hall) & ->). pose proof (b2z_range b).
      exists (b2z b), (set_at (s_at s + 1) s). split; [by exists b|]. cbn [s_at set_at].
      rewrite Z2Nat.id by lia. done.
  - rewrite bind_ok. setoid_rewrite scan_u8_ok. split.
    + intros (v & s1 & (b & Hb & -> & ->) & [Hall ->]%scan_pairs_ok%scan_regs_ok).
      pose proof (b2z_range b). cbn [s_at set_at] in *. rewrite Nat2Z.inj_mul, Z2Nat.id in * by lia.
      eexists. split; [exists b; split_and!; [done|reflexivity|done]|done].
    + intros (e & (b & Hb & -> & Hall) & ->). pose proof (b2z_range b).
      exists (b2z b), (set_at (s_at s + 1) s). split; [by exists b|]. apply scan_pairs_ok, scan_regs_ok.
      cbn [s_at set_at]. rewrite Nat2Z.inj_mul, Z2Nat.id by lia. done.
  - unfold scan_regs. split.
    + intros (v & s1 & [Hv ->]%scan_u32_ok & (n & s2 & (b & Hb & -> & ->)%scan_u8_ok & (ar & s3 &
        (g & Hg & -> & ->)%callee_arity_ok & ([] & s4 & [Ha ->]%fail_if_ok & [Hall ->]%scan_regs_ok)
        %bind_ok)%bind_ok)%bind_ok)%bind_ok.
      pose proof (b2z_range b). apply negb_false_iff, bool_decide_eq_true in Ha. cbn [s_at set_at] in *.
      rewrite Z2Nat.id in * by lia. replace (s_at s + 4 + 1) with (s_at s + 5) in * by lia.
      eexists. split; [exists v, g, b; split_and!; [done|done|done|done|reflexivity|done]|done].
    + intros (e & (v & g & b & Hv & Hg & Hb & Ha & -> & Hall) & ->). pose proof (b2z_range b).
      rewrite (bind_eval _ _ _ v (set_at (s_at s + 4) s)) by (by apply scan_u32_ok).
      rewrite (bind_eval _ _ _ (b2z b) (set_at (s_at s + 4 + 1) s)) by (apply scan_u8_ok; by exists b).
      rewrite (bind_eval _ _ _ (arity g) (set_at (s_at s + 4 + 1) s)) by (apply callee_arity_ok; by exists g).
      rewrite (bind_eval _ _ _ tt (set_at (s_at s + 4 + 1) s)) by (apply fail_if_ok; by rewrite bool_decide_true).
      apply scan_regs_ok. cbn [s_at set_at]. rewrite Z2Nat.id by lia.
      by replace (s_at s + 4 + 1) with (s_at s + 5) by lia.
  - split.
    + intros (v & s1 & [Hv ->]%scan_u32_ok & (ar & s2 & (g & Hg & -> & ->)%callee_arity_ok &
        [Ha ->]%fail_if_ok)%bind_ok)%bind_ok.
      apply negb_false_iff, bool_decide_eq_true in Ha. eexists. split; [by exists v, g|done].
    + intros (e & (v & g & Hv & Hg & Ha & ->) & ->).
      rewrite (bind_eval _ _ _ v (set_at (s_at s + 4) s)) by (by apply scan_u32_ok).
      rewrite (bind_eval _ _ _ (arity g) (set_at (s_at s + 4) s)) by (apply callee_arity_ok; by exists g).
      apply fail_if_ok. by rewrite bool_decide_true.
  - unfold scan_jump. rewrite bind_ok. setoid_rewrite scan_u32_ok. unfold modify. split.
    + intros (v & s1 & [Hv ->] & [= <-]). rewrite Hv. eexists. split; [split; [by eexists|reflexivity]|done].
    + intros (e & [[v Hv] ->] & ->). rewrite Hv. exists v, (set_at (s_at s + 4) s). done.
  - rewrite bind_ok. setoid_rewrite scan_u32_ok. setoid_rewrite scan_skip_ok. split.
    + intros (v & s1 & [Hv ->] & Hle & ->). eexists. split; [exists v; split_and!; [done|reflexivity|done]|done].
    + intros (e & (v & Hv & -> & Hle) & ->). exists v, (set_at (s_at s + 4) s). done.
Qed.
End scanner.

Lemma item_ok_det m f i a e e' : item_ok m f i a e -> item_ok m f i a e' -> e = e'.
Proof.
  destruct i; cbn [item_ok]; intros; repeat match goal with
    | H : exists _, _ |- _ => destruct H
    | H : _ /\ _ |- _ => destruct H
    end; congruence.
Qed.

Lemma items_ok_det m f is_ : forall a e e', items_ok m f is_ a e -> items_ok m f is_ a e' -> e = e'.
Proof.
  induction is_ as [|i is_ IH]; intros a e e'; cbn [items_ok]; [congruence|].
  intros (x & Hx & He) (y & Hy & He'). assert (x = y) as -> by (by eapply item_ok_det). eauto.
Qed.

Lemma item_ok_le m f i a e : item_ok m f i a e -> a <= e \/ exists n, i = IRaw n.
Proof.
  destruct i; cbn [item_ok]; [intros [_ ->]|eauto|intros (v & _ & _ & ->)|intros (b & _ & -> & _)|
    intros (b & _ & -> & _)|intros (v & g & b & _ & _ & _ & _ & -> & _)|intros (v & g & _ & _ & _ & ->)|
    intros [_ ->]|intros (v & Hv & -> & _)]; try (pose proof (b2z_range b)); try lia.
  unfold u32_operand in Hv. apply fmap_Some in Hv as (x & _ & ->). pose proof (le_val_nonneg x). lia.
Qed.

Section loop.
Context (m : Module_) (fn_idx : Z) (f : Function).

(** What scanning a list of operands does to the state. *)
Definition scanned (a : Z) (is_ : list item) (s s' : Scan) : Prop :=
  items_ok m f is_ (s_at s) (s_at s') /\ boundaries s' = boundaries s /\ fell_through s' = fell_through s /\
  exists js, jump_targets s' = jump_targets s ++ js /\
    (forall p, p ∈ js <-> p.1 = a /\ jumps m f is_ (s_at s) p.2).

Lemma scan_items_ok a is_ : forall s s',
  scan_items m fn_idx f a is_ s = (Ok tt, s') -> scanned a is_ s s'.
Proof using Type.
  induction is_ as [|i is_ IH]; intros s s'; cbn [scan_items].
  { intros [= <-]. split_and!; [done|done|done|]. exists []. rewrite app_nil_r. split; [done|].
    intros p. rewrite elem_of_nil. cbn [jumps]. tauto. }
  intros ([] & s1 & (e & Hi & ->)%scan_item_ok & (Hr & Hb & Hf & js & Hj & Hjs)%IH)%bind_ok.
  assert (s_at (after_item f a i e s) = e) as He by (by destruct i). rewrite He in *.
  assert (boundaries (after_item f a i e s) = boundaries s /\
          fell_through (after_item f a i e s) = fell_through s) as [Hb1 Hf1] by (by destruct i).
  split_and!; [by exists e|congruence|congruence|].
  assert (forall t, (exists a', item_ok m f i (s_at s) a' /\
    ((i = IJump /\ exists v, u32_operand (code f) (s_at s) = Some v /\ t = a' + swrap 32 v) \/ jumps m f is_ a' t)) <->
    (i = IJump /\ t = e + swrap 32 (default 0 (u32_operand (code f) (s_at s)))) \/ jumps m f is_ e t) as Hcase.
  { intros t. split.
    - intros (a' & Ha' & H). rewrite (item_ok_det _ _ _ _ _ _ Hi Ha'). destruct H as [(-> & v & -> & ->)|?]; naive_solver.
    - intros [[-> ->]|?]; exists e; (split; [done|]); [left|by right]. split; [done|].
      destruct Hi as [[v Hv] _]. rewrite Hv. eauto. }
  cbn [jumps]. setoid_rewrite Hcase.
  destruct (decide (i = IJump)) as [->|Hne].
  - exists ((a, e + swrap 32 (default 0 (u32_operand (code f) (s_at s)))) :: js). split.
    { rewrite Hj. cbn [after_item push_target jump_targets set_at s_at]. by rewrite <- app_assoc. }
    intros [p1 p2]. rewrite elem_of_cons, Hjs. cbn [fst snd]. naive_solver.
  - exists js. split; [rewrite Hj; f_equal; by destruct i|]. intros p. rewrite Hjs. naive_solver.
Qed.

Lemma scan_items_complete a is_ : forall s e,
  items_ok m f is_ (s_at s) e -> exists s', scan_items m fn_idx f a is_ s = (Ok tt, s').
Proof using Type.
  induction is_ as [|i is_ IH]; intros s e; cbn [scan_items items_ok]; [by eauto|].
  intros (a' & Hi & Hr). destruct (IH (after_item f a i a' s) e) as [s' Hs'].
  { by destruct i. }
  exists s'. rewrite (bind_eval _ _ _ tt (after_item f a i a' s)); [done|]. apply scan_item_ok. eauto.
Qed.

(** One round of the loop on the instruction at the cursor. *)
Definition round (s s' : Scan) : Prop :=
  exists is_ term, instr_at m f (s_at s) is_ term (s_at s') /\
    boundaries s' = {[s_at s]} ∪ boundaries s /\ fell_through s' = negb term /\
    exists js, jump_targets s' = jump_targets s ++ js /\
      (forall p, p ∈ js <-> p.1 = s_at s /\ jumps m f is_ (s_at s + 1) p.2).

Definition round_body (s : Scan) : VM unit :=
  _ ← modify start_instr; opcode ← scan_u8 fn_idx f; _ ← modify (set_fell true);
  verify_instr m fn_idx f (s_at s) opcode.

Lemma round_ok s s' : round_body s s = (Ok tt, s') -> round s s'.
Proof using Type.
  unfold round_body. rewrite (bind_eval _ _ _ tt (start_instr s)) by done.
  intros (o & s1 & (b & Hb & -> & ->)%scan_u8_ok & H)%bind_ok. cbn [s_at start_instr] in *.
  rewrite (bind_eval _ _ _ tt (set_fell true (set_at (s_at s + 1) (start_instr s)))) in H by done.
  rewrite verify_instr_format in H. destruct (format (b2z b)) as [[is_ term]|] eqn:Hfmt; [|done].
  unfold scan_format in H. cbn [fst snd] in H.
  apply bind_ok in H as ([] & s2 & (Hi & Hbd & Hf & js & Hj & Hjs)%scan_items_ok & H).
  cbn [s_at set_fell set_at start_instr boundaries fell_through jump_targets] in *.
  assert (s' = if term then set_fell false s2 else s2) as -> by (destruct term; by injection H as <-).
  exists is_, term. split_and!.
  - exists b. split_and!; [done|done|]. by destruct term.
  - by destruct term.
  - by destruct term.
  - exists js. split; [by destruct term|done].
Qed.

Lemma round_complete s is_ term e :
  instr_at m f (s_at s) is_ term e -> exists s', round_body s s = (Ok tt, s') /\ s_at s' = e.
Proof using Type.
  intros (b & Hb & Hfmt & Hi). unfold round_body.
  rewrite (bind_eval _ _ _ tt (start_instr s)) by done.
  rewrite (bind_eval _ _ _ (b2z b) (set_at (s_at s + 1) (start_instr s))) by (apply scan_u8_ok; by exists b).
  rewrite (bind_eval _ _ _ tt (set_fell true (set_at (s_at s + 1) (start_instr s)))) by done.
  rewrite verify_instr_format, Hfmt. unfold scan_format. cbn [fst snd].
  destruct (scan_items_complete (s_at s) is_ (set_fell true (set_at (s_at s + 1) (start_instr s))) e Hi) as [s' Hs'].
  rewrite (bind_eval _ _ _ tt s') by done. apply scan_items_ok in Hs' as (Hi' & _).
  assert (s_at s' = e) as He by (by eapply items_ok_det). destruct term; eexists; (split; [done|]); done.
Qed.

Lemma verify_loop_unfold fuel s :
  verify_loop m fn_idx f (S fuel) s =
  if bool_decide (s_at s < zlen (code f)) then (_ ← round_body s; verify_loop m fn_idx f fuel) s else (Ok tt, s).
Proof using Type.
  cbn [verify_loop]. rewrite (bind_eval _ _ _ s s) by done. case_bool_decide; [|done].
  unfold round_body. rewrite bind_assoc. apply bind_ext. intros _ s1. rewrite bind_assoc.
  apply bind_ext. intros o s2. by rewrite bind_assoc.
Qed.

(** From here on, a cursor inside the code. *)
Lemma instr_at_bound a is_ term e : instr_at m f a is_ term e -> 0 <= a < zlen (code f).
Proof using Type. intros (b & Hb & _). by eapply lookupz_range. Qed.

Lemma u32_operand_bound c a v : u32_operand c a = Some v -> 0 <= v /\ a + 4 <= zlen c.
Proof using Type.
  unfold u32_operand. intros (x & Hx & ->)%fmap_Some. split; [apply le_val_nonneg|].
  unfold slice in Hx. case_bool_decide; [lia|done].
Qed.

Definition wf_item (i : item) : Prop := match i with IRaw n => 0 <= n | _ => True end.

Lemma format_wf o is_ term : format o = Some (is_, term) -> Forall wf_item is_.
Proof using Type.
  unfold format. cbn [select_arm].
  repeat match goal with |- context [existsb (Z.eqb o) ?l] => destruct (existsb (Z.eqb o) l) end;
    intros [= <- <-]; by repeat constructor.
Qed.

Lemma item_ok_bound i a e :
  wf_item i -> item_ok m f i a e -> a <= zlen (code f) -> a <= e <= zlen (code f).
Proof using Type.
  intros Hw Hi Ha. destruct i; cbn [item_ok wf_item] in *.
  - destruct Hi as [(b & Hb%lookupz_range & _) ->]. lia.
  - lia.
  - destruct Hi as (v & Hv%u32_operand_bound & _ & ->). lia.
  - destruct Hi as (b & Hb%lookupz_range & -> & Hr). pose proof (b2z_range b).
    destruct (decide (b2z b = 0)); [lia|]. destruct (Hr (a + b2z b)) as (r & Hr'%lookupz_range & _); lia.
  - destruct Hi as (b & Hb%lookupz_range & -> & Hr). pose proof (b2z_range b).
    destruct (decide (b2z b = 0)); [lia|]. destruct (Hr (a + 2 * b2z b)) as (r & Hr'%lookupz_range & _); lia.
  - destruct Hi as (v & g & b & Hv%u32_operand_bound & _ & Hb%lookupz_range & _ & -> & Hr).
    pose proof (b2z_range b). destruct (decide (b2z b = 0)); [lia|].
    destruct (Hr (a + 4 + b2z b)) as (r & Hr'%lookupz_range & _); lia.
  - destruct Hi as (v & g & Hv%u32_operand_bound & _ & _ & ->). lia.
  - destruct Hi as [[v Hv%u32_operand_bound] ->]. lia.
  - destruct Hi as (v & Hv%u32_operand_bound & -> & ?). lia.
Qed.

Lemma items_ok_bound is_ : forall a e,
  Forall wf_item is_ -> items_ok m f is_ a e -> a <= zlen (code f) -> a <= e <= zlen (code f).
Proof using Type.
  induction is_ as [|i is_ IH]; intros a e Hw; cbn [items_ok]; [lia|].
  apply Forall_cons in Hw as [Hi Hw]. intros (a' & Ha' & He) Ha.
  pose proof (item_ok_bound _ _ _ Hi Ha' Ha). specialize (IH a' e Hw He). lia.
Qed.

Lemma instr_at_end a is_ term e : instr_at m f a is_ term e -> a < e <= zlen (code f).
Proof using Type.
  intros (b & Hb%lookupz_range & Hf%format_wf & Hi).
  pose proof (items_ok_bound _ _ _ Hf Hi ltac:(lia)). lia.
Qed.

Lemma instr_at_det a is1 t1 e1 is2 t2 e2 :
  instr_at m f a is1 t1 e1 -> instr_at m f a is2 t2 e2 -> is1 = is2 /\ t1 = t2 /\ e1 = e2.
Proof using Type.
  intros (b & Hb & Hf & Hi) (b' & Hb' & Hf' & Hi'). simplify_eq. split_and!; [done|done|].
  by eapply items_ok_det.
Qed.

Lemma rtc_next_cases a is_ term e x :
  instr_at m f a is_ term e -> rtc (next_instr m f) a x <-> x = a \/ rtc (next_instr m f) e x.
Proof using Type.
  intros Hi. split.
  - intros Hr. inversion Hr as [|? y ? (is2 & t2 & Hy) Hyx]; subst; [by left|right].
    destruct (instr_at_det _ _ _ _ _ _ _ Hi Hy) as (_ & _ & ->). done.
  - intros [-> | Hr]; [done|]. eapply rtc_l; [by exists is_, term|done].
Qed.

Lemma rtc_next_end a x : zlen (code f) <= a -> rtc (next_instr m f) a x -> x = a.
Proof using Type.
  intros Ha Hr. inversion Hr as [|? y ? (is2 & t2 & Hy%instr_at_bound) _]; subst; [done|lia].
Qed.

(** The state of a finished loop describes every instruction from the cursor on. *)
Definition covers (s s' : Scan) : Prop :=
  (forall a, a ∈ boundaries s' <-> a ∈ boundaries s \/ (rtc (next_instr m f) (s_at s) a /\ a < zlen (code f))) /\
  (forall a is_ term e t, rtc (next_instr m f) (s_at s) a -> instr_at m f a is_ term e ->
     (e < zlen (code f) \/ (e = zlen (code f) /\ fell_through s' = negb term)) /\
     (jumps m f is_ (a + 1) t -> (a, t) ∈ jump_targets s')) /\
  (forall p, p ∈ jump_targets s' -> p ∈ jump_targets s \/
     exists is_ term e, rtc (next_instr m f) (s_at s) p.1 /\ instr_at m f p.1 is_ term e /\ jumps m f is_ (p.1 + 1) p.2) /\
  (forall p, p ∈ jump_targets s -> p ∈ jump_targets s') /\
  (forall a, rtc (next_instr m f) (s_at s) a -> a < zlen (code f) -> exists is_ term e, instr_at m f a is_ term e) /\
  (s_at s < zlen (code f) -> exists a is_ term,
     rtc (next_instr m f) (s_at s) a /\ instr_at m f a is_ term (zlen (code f))).

Lemma covers_end s : zlen (code f) <= s_at s -> covers s s.
Proof using Type.
  intros Hs. unfold covers. split_and!.
  - intros a. split; [by left|]. intros [?|[->%rtc_next_end ?]]; [done|lia|done].
  - intros a is_ term e t ->%rtc_next_end Hi%instr_at_bound; [lia|done].
  - by left.
  - done.
  - intros a ->%rtc_next_end ?; [lia|done].
  - lia.
Qed.

Lemma covers_step s s1 s' :
  round s s1 -> covers s1 s' -> (s_at s1 = zlen (code f) -> s' = s1) -> covers s s'.
Proof using Type.
  intros (is0 & t0 & Hi & Hb & Hf & js & Hj & Hjs) (H1 & H2 & H3 & H4 & H5 & H6) Hend.
  pose proof (instr_at_end _ _ _ _ Hi) as He. pose proof (instr_at_bound _ _ _ _ Hi).
  unfold covers. setoid_rewrite (fun x => rtc_next_cases _ _ _ _ x Hi). split_and!.
  - intros a. rewrite H1, Hb. set_solver by lia.
  - intros a is_ term e t [-> | Hr] Ha; [|by eapply H2].
    destruct (instr_at_det _ _ _ _ _ _ _ Hi Ha) as (<- & <- & <-). split.
    + destruct (decide (s_at s1 < zlen (code f))); [by left|right]. split; [lia|].
      rewrite Hend by lia. done.
    + intros Ht. apply H4. rewrite Hj. apply elem_of_app. right. by apply Hjs.
  - intros p Hp. destruct (H3 p Hp) as [Hp'|(is_ & term & e & ? & ? & ?)]; [|right; by eauto 10].
    rewrite Hj in Hp'. apply elem_of_app in Hp' as [?|[Hp1 Hp2]%Hjs]; [by left|right].
    exists is0, t0, (s_at s1). rewrite Hp1. auto.
  - intros p Hp. apply H4. rewrite Hj. set_solver.
  - intros a [-> | Hr] Ha; [by eauto|by apply H5].
  - intros _. destruct (decide (s_at s1 < zlen (code f))) as [Hlt|].
    + destruct (H6 Hlt) as (a & is_ & term & Hr & Ha). eauto 10.
    + exists (s_at s), is0, t0. split; [by left|]. by replace (zlen (code f)) with (s_at s1) by lia.
Qed.

Lemma verify_loop_sound fuel : forall s s',
  s_at s <= zlen (code f) -> verify_loop m fn_idx f fuel s = (Ok tt, s') ->
  covers s s' /\ (s_at s = zlen (code f) -> s' = s).
Proof using Type.
  induction fuel as [|fuel IH]; intros s s' Hs H; [done|].
  rewrite verify_loop_unfold in H. case_bool_decide as Hlt.
  2: { injection H as <-. split; [apply covers_end; lia|done]. }
  apply bind_ok in H as ([] & s1 & Hr%round_ok & H). split; [|lia].
  pose proof Hr as (is_ & term & Hi%instr_at_end & _). destruct (IH s1 s') as [Hc Hend]; [lia|done|].
  by eapply covers_step.
Qed.

Lemma verify_loop_complete fuel : forall s,
  s_at s <= zlen (code f) -> zlen (code f) - s_at s < Z.of_nat fuel ->
  (forall a, rtc (next_instr m f) (s_at s) a -> a < zlen (code f) -> exists is_ term e, instr_at m f a is_ term e) ->
  exists s', verify_loop m fn_idx f fuel s = (Ok tt, s').
Proof using Type.
  induction fuel as [|fuel IH]; intros s Hs Hf Hall; [lia|].
  rewrite verify_loop_unfold. case_bool_decide as Hlt; [|by eauto].
  destruct (Hall (s_at s)) as (is_ & term & e & Hi); [done|done|].
  destruct (round_complete s is_ term e Hi) as (s1 & Hr & He).
  rewrite (bind_eval _ _ _ tt s1) by done. pose proof (instr_at_end _ _ _ _ Hi).
  apply IH; [lia|lia|]. intros a Ha. apply Hall. eapply rtc_l; [|exact Ha]. rewrite He. by exists is_, term.
Qed.

Lemma for_each_ok {S E A} (body : A -> M S E unit) (P : A -> Prop) l (s : S) :
  (forall x s', body x s = (Ok tt, s') <-> P x /\ s' = s) ->
  forall s', for_each l body s = (Ok tt, s') <-> Forall P l /\ s' = s.
Proof using Type.
  intros Hb. induction l as [|x l IH]; intros s'; cbn [for_each].
  - unfold mret, M_ret. split; [intros [= <-]; by split|by intros [_ ->]].
  - rewrite bind_ok, Forall_cons. split.
    + intros ([] & s1 & [Hx ->]%Hb & [Hl ->]%IH). done.
    + intros [[Hx Hl] ->]. exists tt, s. split; [by apply Hb|by apply IH].
Qed.

Lemma verify_end_ok s s' :
  verify_end fn_idx s = (Ok tt, s') <->
  fell_through s = false /\ Forall (fun p => 0 <= p.2 /\ p.2 ∈ boundaries s) (jump_targets s) /\ s' = s.
Proof using Type.
  unfold verify_end. rewrite (bind_eval _ _ _ s s) by done. rewrite bind_ok. split.
  - intros ([] & s1 & [Hf ->]%fail_if_ok & [Hall ->]%(for_each_ok _ (fun p => 0 <= p.2 /\ p.2 ∈ boundaries s))); [done|].
    intros x s2. rewrite fail_if_ok, orb_false_iff, negb_false_iff, bool_decide_eq_false, bool_decide_eq_true.
    split; intros [[??] ->]; repeat split; try done; lia.
  - intros (Hf & Hall & ->). exists tt, s. split; [by apply fail_if_ok|].
    apply (for_each_ok _ (fun p => 0 <= p.2 /\ p.2 ∈ boundaries s)); [|done].
    intros x s2. rewrite fail_if_ok, orb_false_iff, negb_false_iff, bool_decide_eq_false, bool_decide_eq_true.
    split; intros [[??] ->]; repeat split; try done; lia.
Qed.
End loop.

Lemma verify_fn_ok m i f s' :
  verify_fn m i f scan0 = (Ok tt, s') -> fn_ok m f.
Proof.
  intros ([] & s1 & [Hn ->]%fail_if_ok & ([] & s2 & [Ha ->]%fail_if_ok & ([] & s3 & Hl & Hend)%bind_ok)%bind_ok)%bind_ok.
  apply verify_end_ok in Hend as (Hf & Hj & ->). rewrite Forall_forall in Hj.
  apply verify_loop_sound in Hl as [(H1 & H2 & _ & _ & H5 & _) Hz]; [|apply zlen_nonneg].
  assert (forall a, a ∈ boundaries s3 <-> decoded m f a) as Hd.
  { intros a. rewrite H1. unfold decoded. cbn. set_solver. }
  split.
  - by apply negb_false_iff, bool_decide_eq_true in Hn.
  - apply bool_decide_eq_false in Ha. lia.
  - split; [done|]. destruct (decide (zlen (code f) = 0)) as [H0|]; [|pose proof (zlen_nonneg (code f)); lia].
    rewrite Hz in Hf by done. done.
  - intros a [Hr Ha']. destruct (H5 a Hr Ha') as (is_ & term & e & Hi). exists is_, term, e. split; [done|].
    split.
    + intros ->. destruct (H2 a is_ false e 0 Hr Hi) as [[?|[-> Hfs]] _]; [|by rewrite Hf in Hfs].
      split; [|done]. eapply rtc_r; [exact Hr|]. by exists is_, false.
    + intros t Ht. destruct (H2 a is_ term e t Hr Hi) as [_ Hjt]. apply Hd. by apply (Hj (a, t)), Hjt.
Qed.

Lemma verify_fn_complete m i f : fn_ok m f -> exists s', verify_fn m i f scan0 = (Ok tt, s').
Proof.
  intros [Hn Ha [_ He] Hi]. unfold verify_fn.
  rewrite (bind_eval _ _ _ tt scan0) by (apply fail_if_ok; by rewrite bool_decide_true).
  rewrite (bind_eval _ _ _ tt scan0) by (apply fail_if_ok; by rewrite bool_decide_false by lia).
  destruct (verify_loop_complete m i f (S (length (code f))) scan0) as [s1 Hl].
  { apply zlen_nonneg. }
  { cbn. unfold zlen. lia. }
  { intros a Hr Hlt. destruct (Hi a) as (is_ & term & e & ? & _); [done|eauto]. }
  rewrite (bind_eval _ _ _ tt s1) by done. exists s1. apply verify_end_ok.
  apply verify_loop_sound in Hl as [(H1 & H2 & H3 & _ & _ & H6) _]; [|apply zlen_nonneg]. cbn [s_at scan0] in *.
  split_and!; [| |done].
  - destruct (H6 He) as (a & is_ & term & Hr & Hia). pose proof (instr_at_bound _ _ _ _ _ _ Hia).
    destruct (Hi a) as (is2 & t2 & e2 & Hia2 & Hfall & _); [by split; [|lia]|].
    destruct (instr_at_det _ _ _ _ _ _ _ _ _ Hia Hia2) as (<- & <- & <-).
    destruct (H2 a is_ term _ 0 Hr Hia) as [[?|[_ ->]] _]; [lia|].
    destruct term; [done|]. destruct Hfall as [_ ?]; [done|lia].
  - apply Forall_forall. intros [a t] Hp. destruct (H3 _ Hp) as [Hp'|(is_ & term & e & Hr & Hia & Hjt)].
    { by apply elem_of_nil in Hp'. }
    cbn [fst snd] in *. pose proof (instr_at_bound _ _ _ _ _ _ Hia).
    destruct (Hi a) as (is2 & t2 & e2 & Hia2 & _ & Hjmp); [by split; [|lia]|].
    destruct (instr_at_det _ _ _ _ _ _ _ _ _ Hia Hia2) as (<- & <- & <-).
    destruct (Hjmp t Hjt) as [Hrt Hlt]. split; [|apply H1; by right].
    destruct (Hi t) as (is3 & t3 & e3 & Hia3 & _); [done|]. apply instr_at_bound in Hia3. lia.
Qed.

Lemma verify_from_ok m fs : forall i,
  verify_from m i fs = Ok tt <-> Forall (fn_ok m) fs.
Proof.
  induction fs as [|f fs IH]; intros i; cbn [verify_from]; [by split; [constructor|]|].
  rewrite Forall_cons, <- (IH (i + 1)). destruct (verify_fn m i f scan0) as [r s'] eqn:Hv. cbn [fst].
  split.
  - destruct r as [[]|?| |]; try done. cbn [mbind res_bind]. intros ->. split; [by eapply verify_fn_ok|done].
  - intros [Hf Hr]. destruct (verify_fn_complete m i f Hf) as [s2 Hs2]. rewrite Hv in Hs2. by simplify_eq.
Qed.

Lemma verify_iff m : verify m = Ok tt <-> module_verified m.
Proof.
  unfold verify. rewrite verify_from_ok. unfold module_verified. rewrite Forall_forall. split.
  - intros H i f [_ Hf]%lookupz_Some. apply H. by eapply list_elem_of_lookup_2.
  - intros H f [i Hi]%list_elem_of_lookup. apply (H (Z.of_nat i)). apply lookupz_Some.
    rewrite Nat2Z.id. split; [lia|done].
Qed.

(** ** The verifier always answers *)

Section total.
Context (m : Module_) (fn_idx : Z) (f : Function).

Definition total_m {S E A} (c : M S E A) : Prop :=
  forall s, match (c s).1 with Panic | NoFuel => False | _ => True end.

Lemma total_bind_at {S E A B} (c : M S E A) (k : A -> M S E B) s :
  match (c s).1 with Panic | NoFuel => False | _ => True end ->
  (forall x s1, c s = (Ok x, s1) -> match (k x s1).1 with Panic | NoFuel => False | _ => True end) ->
  match ((x ← c; k x) s).1 with Panic | NoFuel => False | _ => True end.
Proof using Type. unfold mbind, M_bind. destruct (c s) as [[x|e| |] s']; naive_solver. Qed.

Lemma total_bind {S E A B} (c : M S E A) (k : A -> M S E B) :
  total_m c -> (forall x, total_m (k x)) -> total_m (x ← c; k x).
Proof using Type.
  intros Hc Hk s. specialize (Hc s). unfold mbind, M_bind. destruct (c s) as [[x|e| |] s']; try done. apply Hk.
Qed.

Lemma total_u8 : total_m (scan_u8 fn_idx f).
Proof using Type. intros s. unfold scan_u8, mbind, M_bind, get, ok_or. by destruct (lookupz _ _). Qed.
Lemma total_u32 : total_m (scan_u32 fn_idx f).
Proof using Type. intros s. unfold scan_u32, mbind, M_bind, get, ok_or. by destruct (slice _ _ _). Qed.
Lemma total_fail {S E} b (e : E) : total_m (S:=S) (fail_if b e).
Proof using Type. intros s. by destruct b. Qed.
Lemma total_skip n : total_m (scan_skip fn_idx f n).
Proof using Type. intros s. unfold scan_skip, mbind, M_bind, get. by case_bool_decide. Qed.
Lemma total_reg a : total_m (scan_reg fn_idx f a).
Proof using Type. apply total_bind; [apply total_u8|]. intros. apply total_fail. Qed.
Lemma total_repeat n (c : VM unit) : total_m c -> total_m (repeat_m n c).
Proof using Type. intros Hc. induction n; cbn [repeat_m]; [done|]. by apply total_bind. Qed.
Lemma total_callee a c : total_m (callee_arity m fn_idx a c).
Proof using Type. intros s. unfold callee_arity, mbind, M_bind, ok_or. by destruct (lookupz _ _). Qed.

Hint Resolve total_u8 total_u32 total_fail total_skip total_reg total_repeat total_callee total_bind : total.

Lemma total_item a i : total_m (scan_item m fn_idx f a i).
Proof using Type.
  destruct i; cbn [scan_item]; unfold scan_atom, scan_regs, scan_jump;
    repeat first [done | by auto 10 with total | apply total_bind; [|intros ?]].
Qed.

Lemma total_items a is_ : total_m (scan_items m fn_idx f a is_).
Proof using Type. induction is_; cbn [scan_items]; [done|]. apply total_bind; [apply total_item|done]. Qed.

Lemma total_round s : total_m (round_body m fn_idx f s).
Proof using Type.
  unfold round_body. apply total_bind; [done|]. intros _. apply total_bind; [apply total_u8|]. intros o.
  apply total_bind; [done|]. intros _ s'. rewrite verify_instr_format.
  destruct (format o) as [[is_ term]|]; [|done]. unfold scan_format. cbn [fst snd].
  apply total_bind; [apply total_items|]. by destruct term.
Qed.

Lemma total_loop fuel : forall s,
  s_at s <= zlen (code f) -> zlen (code f) - s_at s < Z.of_nat fuel ->
  match (verify_loop m fn_idx f fuel s).1 with Panic | NoFuel => False | _ => True end.
Proof using Type.
  induction fuel as [|fuel IH]; intros s Hs Hf; [lia|]. rewrite verify_loop_unfold.
  case_bool_decide; [|done]. pose proof (total_round s s) as Ht. unfold mbind, M_bind.
  destruct (round_body m fn_idx f s s) as [[[]|e| |] s1] eqn:Hr; try done.
  apply round_ok in Hr as (is_ & term & Hi%instr_at_end & _). apply IH; lia.
Qed.

Lemma total_for_each {S E A} l (body : A -> M S E unit) : (forall x, total_m (body x)) -> total_m (for_each l body).
Proof using Type. intros Hb. induction l; cbn [for_each]; [done|]. by apply total_bind. Qed.

Lemma verify_fn_total :
  match (verify_fn m fn_idx f scan0).1 with Panic | NoFuel => False | _ => True end.
Proof using Type.
  unfold verify_fn. apply total_bind_at; [apply total_fail|]. intros [] s1 [_ ->]%fail_if_ok.
  apply total_bind_at; [apply total_fail|]. intros [] s2 [_ ->]%fail_if_ok.
  apply total_bind_at.
  { apply total_loop; cbn; [apply zlen_nonneg|unfold zlen; lia]. }
  intros [] s1 _. apply (total_bind get); [done|]. intros s2. apply total_bind; [apply total_fail|].
  intros _. apply total_for_each. intros. apply total_fail.
Qed.
End total.

Lemma verify_total m : verify m = Ok tt \/ exists e, verify m = Err e.
Proof.
  unfold verify. generalize 0. induction (functions m) as [|f fs IH]; intros i; cbn [verify_from]; [by left|].
  pose proof (verify_fn_total m i f) as Ht.
  destruct (verify_fn m i f scan0) as [[[]|e| |] s]; cbn in *; [apply IH|right; eauto|done..].
Qed.

(** ** The linear decoders agree *)

Section skip.
Context (m : Module_) (f : Function) (Hlen : zlen (code f) < 2 ^ 64).

Lemma fixed_ok a n e : 0 <= a -> e = a + n -> e <= zlen (code f) -> fixed (code f) a n = Some e.
Proof using Hlen.
  intros Ha -> He. unfold fixed, checked_add_usize, mbind, option_bind.
  rewrite bool_decide_true by lia. by rewrite bool_decide_true.
Qed.

(** [skip_operands], used by the sentinel analysis, finds the end the verifier found. *)
Lemma skip_operands_format o is_ term a e :
  0 <= a <= zlen (code f) ->
  format o = Some (is_, term) -> items_ok m f is_ a e -> skip_operands o (code f) a = Some e.
Proof using Hlen.
  intros Ha Hf Hi. pose proof (items_ok_bound m f is_ a e (format_wf _ _ _ Hf) Hi (proj2 Ha)) as He.
  assert (exists o', o = o' /\ o' ∈ seqZ 0 56) as (o' & -> & Ho).
  { exists o. split; [done|]. apply elem_of_seqZ. destruct (decide (0 <= o < 0 + 56)) as [|Hno]; [done|].
    revert Hf. unfold format. rewrite select_arm_none; [done|].
    repeat constructor; cbn [fst]; rewrite !not_elem_of_cons; repeat split; try apply not_elem_of_nil.
    all: vm_compute; intros ->; lia. }
  revert Hf. revert o' Ho.
  apply (proj1 (Forall_forall (fun o => format o = Some (is_, term) -> skip_operands o (code f) a = Some e) _)).
  let l := eval vm_compute in (seqZ 0 56) in change (seqZ 0 56) with l.
  repeat constructor; unfold format, skip_operands; op_eval; intros [= <- <-]; cbn [items_ok item_ok] in Hi;
    unfold byte_operand; repeat match goal with
    | H : exists _, _ |- _ => destruct H
    | H : _ /\ _ |- _ => destruct H
    end; subst; try (apply fixed_ok; lia).
  all: match goal with
    | H : lookupz (code f) ?x = Some ?b |- context [lookupz (code f) ?y] =>
        replace y with x by lia; rewrite H; cbn [fmap option_fmap option_map mbind option_bind]; apply fixed_ok; lia
    | H : u32_operand (code f) ?x = Some ?b |- context [u32_operand (code f) ?y] =>
        replace y with x by lia; rewrite H; cbn [fmap option_fmap option_map mbind option_bind]; apply fixed_ok; lia
    end.
Qed.

Lemma instr_at_step a is_ term e : instr_at m f a is_ term e -> instr_step (code f) a e.
Proof using Hlen.
  intros (b & Hb & Hf & Hi). exists b. split; [done|]. apply lookupz_range in Hb.
  eapply skip_operands_format; [lia|done|done].
Qed.
End skip.

(** ** Properties *)

(** C5: [verify] decides well-formedness: on any module it answers (no panic, no
    unbounded loop), and it accepts exactly the modules in which every function
    has a name and fits its frame, every instruction reached by decoding from
    offset 0 is in the instruction set with registers, atoms, callees and
    arities in range, every jump lands on such an instruction, and an
    instruction that can fall through is followed by one. *)
Theorem verify_decides m :
  (verify m = Ok tt \/ exists e, verify m = Err e) /\ (verify m = Ok tt <-> module_verified m).
Proof. split; [apply verify_total|apply verify_iff]. Qed.

(** The linear decoder of the sentinel analysis and the verifier agree on
    verified code: the offsets [skip_operands] walks through are exactly the
    verifier's instruction boundaries, and it never gives up on one. *)
Theorem verified_boundaries m i f a :
  verify m = Ok tt -> lookupz (functions m) i = Some f -> zlen (code f) < 2 ^ 64 ->
  (decoded m f a <-> boundary (code f) a /\ a < zlen (code f)) /\
  (decoded m f a -> exists b e, lookupz (code f) a = Some b /\ skip_operands (b2z b) (code f) (a + 1) = Some e).
Proof.
  intros Hv%verify_iff Hf Hlen. specialize (Hv i f Hf). split.
  - split; intros [Hr Ha]; (split; [|done]).
    + clear Ha. eapply rtc_subrel; [|exact Hr]. intros x y (is_ & term & Hi). by eapply instr_at_step.
    + revert Ha. unfold boundary in Hr. revert a Hr.
      apply (rtc_ind_r (R:=instr_step (code f)) (fun x => x < zlen (code f) -> rtc (next_instr m f) 0 x) 0); [done|].
      intros x y Hx Hxy IH Hy. pose proof (instr_step_bound _ _ _ Hxy).
      destruct (fn_instr _ _ Hv x) as (is_ & term & e & Hi & _); [split; [apply IH; lia|lia]|].
      rewrite (instr_step_det _ _ _ _ Hxy (instr_at_step _ _ Hlen _ _ _ _ Hi)).
      eapply rtc_r; [apply IH; lia|]. by exists is_, term.
  - intros Hd. destruct (fn_instr _ _ Hv a Hd) as (is_ & term & e & Hi & _).
    destruct (instr_at_step _ _ Hlen _ _ _ _ Hi) as (b & ? & ?). eauto.
Qed.

(** A two-function module with a call, a loop and a tail call. *)
Definition loop_code : list byte :=
  [ x01; x01; x01; x00; x00; x00; x00; x00; x00; x00;      (* LOAD_INT r1 1 *)
    x0c; x00; x00; x01;                                    (* SUB r0 r0 r1 *)
    x11; x00; xf6; xff; xff; xff;                          (* JMP_IF r0 -10 *)
    x13; x00 ].                                            (* RET r0 *)
Definition main_code : list byte :=
  [ x12; x00; x01; x00; x00; x00; x01; x00;                (* CALL r0 fn1 (r0) *)
    x31; x01; x00; x00; x00; x01; x00 ].                   (* TAIL_CALL fn1 (r0) *)
Definition demo_module : Module_ :=
  {| atoms := [[x61]; [x62]];
     functions := [ {| name_atom := 0; arity := 1; nregs := 1; code := main_code |};
                    {| name_atom := 1; arity := 1; nregs := 2; code := loop_code |} ] |}.

Lemma verified_boundaries_witness :
  exists b e, lookupz loop_code 0 = Some b /\ skip_operands (b2z b) loop_code (0 + 1) = Some e.
Proof.
  apply (verified_boundaries demo_module 1 {| name_atom := 1; arity := 1; nregs := 2; code := loop_code |} 0);
    [by vm_compute|by vm_compute|by vm_compute|]. split; [apply rtc_refl|by vm_compute].
Defined.
