(* ===== verification/Interp.v ===== *)
(** * Interp: the bytecode interpreter

    Models [crates/ygg-interp/src/lib.rs].  The trait [SystemApi] is the class of
    the same name over an arbitrary state type; the interpreter's own state is
    the frame of the running function beside that state.  There is one
    definition per arm of the opcode match of [run_function]; [exec] is its loop
    and [run_function] its entry.  Fuel bounds the executed instructions, the
    call depth, the walks along terms and the grow-and-retry loops. *)

From S2P Require Import Prelude Term Bytecode.

Definition TAIL_SENTINEL : Term := 7.

Inductive Trap := Badarg | BadCode | TrapHeapFull | Exit (reason : Z).

#[export] Instance Trap_eq_dec : EqDecision Trap.
Proof. solve_decision. Defined.

(** [heap] gives access to the memory and the process's current heap; methods
    that return [Result] are computations that may trap. *)
Class SystemApi (S : Type) := {
  heap_state : S -> HS;
  with_heap : HS -> S -> S;
  self_pid : S -> Z;
  api_send : Term -> Term -> M S Trap unit;
  api_recv : M S Trap Term;
  api_spawn : Z -> Term -> M S Trap Z;
  safepoint : S -> S;
  atom_global : Z -> M S Trap Z;
  api_print : Term -> S -> S;
  port_open : Z -> M S Trap Term;
  port_submit : Term -> Z -> Term -> Term -> M S Trap unit;
  call_ext : Z -> Z -> list Term -> M S Trap Term;
  buf_to_bin : Z -> M S Trap Term;
  bin_to_buf : Term -> M S Trap Term;
  heap_grow : S -> bool * S;
  tail_call : Z -> Z -> list Term -> S -> S;
  tail_call_local : Z -> list Term -> S -> S;
  buf_write : Term -> Term -> Term -> M S Trap Term;
  buf_new : Term -> M S Trap Term;
  buf_read : Term -> Term -> Term -> M S Trap Term;
  sleep_ms : Z -> S -> S;
  api_ticks : S -> Term;
  port_submit2 : Term -> Term -> Term -> Term -> Term -> M S Trap unit;
}.

Record Frame := { fcode : list byte; pc : Z; regs : list Term }.

(** What an instruction does to control. *)
Inductive outcome := Next | Return (t : Term).

Section interpreter.
Context {S : Type} `{!SystemApi S} (m : Module_).

Record IS := { fr : Frame; api : S }.
Abbreviation IM := (M IS Trap).

(** ** Allocation with grow-on-full retry *)

Fixpoint alloc_term (fuel : nat) (f : HM Term) : M S Trap Term := fun s =>
  match fuel with
  | O => (NoFuel, s)
  | Datatypes.S fuel' =>
      let '(r, h) := f (heap_state s) in
      let s1 := with_heap h s in
      match r with
      | Ok t => (Ok t, s1)
      | Err HeapFull =>
          let '(grown, s2) := heap_grow s1 in
          if grown : bool then alloc_term fuel' f s2 else (Err TrapHeapFull, s2)
      | Panic => (Panic, s1)
      | NoFuel => (NoFuel, s1)
      end
  end.

(** The loop of [MAP_NEW]; the slice keeps what the failed attempt left in it. *)
Fixpoint alloc_map (fuel : nat) (pairs : list (Term * Term)) : M S Trap Term := fun s =>
  match fuel with
  | O => (NoFuel, s)
  | Datatypes.S fuel' =>
      let '(r, h) := map_from_pairs pairs (heap_state s) in
      let s1 := with_heap h s in
      match r with
      | Ok t => (Ok t, s1)
      | Err NonImmediateKey => (Err Badarg, s1)
      | Err (MapHeap _) =>
          let '(grown, s2) := heap_grow s1 in
          if grown : bool then alloc_map fuel' (sorted_pairs pairs).2 s2 else (Err TrapHeapFull, s2)
      | Panic => (Panic, s1)
      | NoFuel => (NoFuel, s1)
      end
  end.

(** The loop of [MAP_PUT]. *)
Fixpoint put_map (fuel : nat) (b k v : Term) : M S Trap Term := fun s =>
  match fuel with
  | O => (NoFuel, s)
  | Datatypes.S fuel' =>
      let '(r, h) := map_put b k v (heap_state s) in
      let s1 := with_heap h s in
      match r with
      | Ok t => (Ok t, s1)
      | Err NonImmediateKey => (Err Badarg, s1)
      | Err (MapHeap _) =>
          let '(grown, s2) := heap_grow s1 in
          if grown : bool then put_map fuel' b k v s2 else (Err TrapHeapFull, s2)
      | Panic => (Panic, s1)
      | NoFuel => (NoFuel, s1)
      end
  end.

(** ** The frame *)

Definition set_fr (f : Frame) (s : IS) : IS := {| fr := f; api := api s |}.
Definition set_pc (n : Z) (s : IS) : IS :=
  set_fr {| fcode := fcode (fr s); pc := n; regs := regs (fr s) |} s.

(** Run a method of the api, or a pure update of it. *)
Definition on_api {A} (c : M S Trap A) : IM A := fun s =>
  let '(r, a) := c (api s) in (r, {| fr := fr s; api := a |}).
Definition upd_api (f : S -> S) : IM unit := modify (fun s => {| fr := fr s; api := f (api s) |}).
(** Read terms of the heap. *)
Definition on_mem {A} (f : mem -> res Trap A) : IM A := fun s => (f (hmem (heap_state (api s))), s).

Definition fr_u8 : IM Z :=
  f ← gets fr; v ← ok_or (lookupz (fcode f) (pc f)) BadCode; _ ← modify (set_pc (pc f + 1)); mret (b2z v).
Definition fr_u32 : IM Z :=
  f ← gets fr; v ← ok_or (slice (fcode f) (pc f) (pc f + 4)) BadCode; _ ← modify (set_pc (pc f + 4));
  mret (le_val v).
Definition fr_i32 : IM Z := v ← fr_u32; mret (swrap 32 v).
Definition fr_i64 : IM Z :=
  f ← gets fr; v ← ok_or (slice (fcode f) (pc f) (pc f + 8)) BadCode; _ ← modify (set_pc (pc f + 8));
  mret (swrap 64 (le_val v)).
Definition fr_bytes (n : Z) : IM (list byte) :=
  f ← gets fr; v ← ok_or (slice (fcode f) (pc f) (pc f + n)) BadCode; _ ← modify (set_pc (pc f + n)); mret v.
Definition fr_get (r : Z) : IM Term := f ← gets fr; ok_or (lookupz (regs f) r) Badarg.
Definition fr_set (r : Z) (v : Term) : IM unit :=
  f ← gets fr;
  _ ← ok_or (lookupz (regs f) r) Badarg;
  modify (set_fr {| fcode := fcode f; pc := pc f; regs := insertz r v (regs f) |}).

(** [fr.get(r)?.as_int().ok_or(Trap::Badarg)?] *)
Definition get_int (r : Z) : IM Z := t ← fr_get r; ok_or (as_int t) Badarg.
(** [for _ in 0..n { let r = fr.u8()?; v.push(fr.get(r)?); }] *)
Definition get_args (n : Z) : IM (list Term) := collect (Z.to_nat n) (r ← fr_u8; fr_get r).

Definition next : IM outcome := mret Next.
Definition done_with (t : Term) : IM outcome := mret (Return t).

Definition jump (off : Z) : IM unit :=
  _ ← (if bool_decide (off < 0) then upd_api safepoint else mret tt);
  f ← gets fr;
  let target := pc f + off in
  _ ← fail_if (bool_decide (target < 0) || bool_decide (target > zlen (fcode f))) BadCode;
  modify (set_pc target).

(** ** The arms *)

Definition i_nop : IM outcome := next.
Definition i_load_int : IM outcome :=
  rd ← fr_u8; v ← fr_i64; _ ← fr_set rd (term_int v); next.
Definition i_load_atom : IM outcome :=
  rd ← fr_u8; local ← fr_u32; g ← on_api (atom_global local); _ ← fr_set rd (term_atom g); next.
Definition i_load_nil : IM outcome := rd ← fr_u8; _ ← fr_set rd NIL; next.
Definition i_move : IM outcome := rd ← fr_u8; rs ← fr_u8; v ← fr_get rs; _ ← fr_set rd v; next.
Definition i_self_pid : IM outcome :=
  rd ← fr_u8; a ← gets api; _ ← fr_set rd (term_pid (self_pid a)); next.
Definition i_ticks : IM outcome := rd ← fr_u8; a ← gets api; _ ← fr_set rd (api_ticks a); next.
Definition i_make_tuple (fuel : nat) : IM outcome :=
  rd ← fr_u8; n ← fr_u8; elems ← get_args n;
  t ← on_api (alloc_term fuel (tuple elems)); _ ← fr_set rd t; next.
Definition i_get_elem : IM outcome :=
  rd ← fr_u8; rs ← fr_u8; idx ← fr_u8; t ← fr_get rs;
  v ← on_mem (fun mm =>
    k ← kind mm t;
    if negb (bool_decide (k = KTuple)) then Err Badarg
    else n ← tuple_arity mm t;
         if bool_decide (idx >= n) then Err Badarg else tuple_elem mm t idx);
  _ ← fr_set rd v; next.
Definition i_cons (fuel : nat) : IM outcome :=
  rd ← fr_u8; rh ← fr_u8; rt ← fr_u8; h ← fr_get rh; t ← fr_get rt;
  c ← on_api (alloc_term fuel (cons h t)); _ ← fr_set rd c; next.
Definition i_head_tail (opcode : Z) : IM outcome :=
  rd ← fr_u8; rs ← fr_u8; t ← fr_get rs;
  v ← on_mem (fun mm =>
    k ← kind mm t;
    if negb (bool_decide (k = KCons)) then Err Badarg
    else if bool_decide (opcode = op.HEAD) then head mm t else tail mm t);
  _ ← fr_set rd v; next.
Definition i_arith (opcode : Z) : IM outcome :=
  rd ← fr_u8; ra ← fr_u8; rb ← fr_u8; a ← get_int ra; b ← get_int rb;
  v ← ok_or (checked_i64 (if bool_decide (opcode = op.ADD) then a + b
                          else if bool_decide (opcode = op.SUB) then a - b else a * b)) Badarg;
  _ ← fr_set rd (term_int v); next.
Definition i_cmp_eq (fuel : nat) : IM outcome :=
  rd ← fr_u8; ra ← fr_u8; rb ← fr_u8; a ← fr_get ra; b ← fr_get rb;
  e ← on_mem (fun mm => eq_term fuel mm a b);
  _ ← fr_set rd (term_int (if e : bool then 1 else 0)); next.
Definition i_cmp_lt : IM outcome :=
  rd ← fr_u8; ra ← fr_u8; rb ← fr_u8; a ← get_int ra; b ← get_int rb;
  _ ← fr_set rd (term_int (if bool_decide (a < b) then 1 else 0)); next.
Definition i_jmp : IM outcome := off ← fr_i32; _ ← jump off; next.
Definition i_jmp_if : IM outcome :=
  rc ← fr_u8; off ← fr_i32; c ← get_int rc;
  _ ← (if negb (bool_decide (c = 0)) then jump off else mret tt); next.
Definition i_call (call : Z -> list Term -> M S Trap Term) : IM outcome :=
  rd ← fr_u8; callee ← fr_u32; n ← fr_u8; args ← get_args n;
  _ ← upd_api safepoint;
  v ← on_api (call callee args);
  if bool_decide (v = TAIL_SENTINEL) then done_with TAIL_SENTINEL
  else _ ← fr_set rd v; next.
Definition i_ret : IM outcome := rs ← fr_u8; v ← fr_get rs; done_with v.
Definition i_spawn : IM outcome :=
  rd ← fr_u8; callee ← fr_u32; ra ← fr_u8; arg ← fr_get ra;
  _ ← fail_if (is_boxed arg) Badarg;
  pid ← on_api (api_spawn callee arg); _ ← fr_set rd (term_pid pid); next.
Definition i_send : IM outcome :=
  rt ← fr_u8; rm ← fr_u8; to ← fr_get rt; msg ← fr_get rm; _ ← on_api (api_send to msg); next.
Definition i_recv : IM outcome := rd ← fr_u8; v ← on_api api_recv; _ ← fr_set rd v; next.
Definition i_print : IM outcome := rs ← fr_u8; v ← fr_get rs; _ ← upd_api (api_print v); next.
Definition i_exit_atom : IM outcome :=
  rs ← fr_u8; t ← fr_get rs; a ← ok_or (as_atom t) Badarg; throw (Exit a).
Definition i_port_open : IM outcome :=
  rd ← fr_u8; k ← fr_u8; p ← on_api (port_open k); _ ← fr_set rd p; next.
Definition i_port_submit : IM outcome :=
  rp ← fr_u8; o ← fr_u8; ra ← fr_u8; rt ← fr_u8;
  port ← fr_get rp; arg0 ← fr_get ra; tg ← fr_get rt; _ ← on_api (port_submit port o arg0 tg); next.
Definition i_buf_write : IM outcome :=
  rd ← fr_u8; rb ← fr_u8; ro ← fr_u8; rs ← fr_u8;
  buf ← fr_get rb; off ← fr_get ro; bin ← fr_get rs;
  v ← on_api (buf_write buf off bin); _ ← fr_set rd v; next.
Definition i_sleep_ms : IM outcome :=
  rm ← fr_u8; ms ← get_int rm;
  _ ← fail_if (bool_decide (ms < 0)) Badarg;
  _ ← upd_api safepoint; _ ← upd_api (sleep_ms ms); next.
Definition i_buf_new : IM outcome :=
  rd ← fr_u8; rs ← fr_u8; size ← fr_get rs; v ← on_api (buf_new size); _ ← fr_set rd v; next.
Definition i_buf_read : IM outcome :=
  rd ← fr_u8; rb ← fr_u8; ro ← fr_u8; rl ← fr_u8;
  buf ← fr_get rb; off ← fr_get ro; len ← fr_get rl;
  v ← on_api (buf_read buf off len); _ ← fr_set rd v; next.
Definition i_port_submit2 : IM outcome :=
  rp ← fr_u8; ro ← fr_u8; ra0 ← fr_u8; ra1 ← fr_u8; rt ← fr_u8;
  port ← fr_get rp; o ← fr_get ro; a0 ← fr_get ra0; a1 ← fr_get ra1; tg ← fr_get rt;
  _ ← on_api (port_submit2 port o a0 a1 tg); next.
Definition i_tail_call : IM outcome :=
  callee ← fr_u32; n ← fr_u8; args ← get_args n;
  _ ← upd_api safepoint; _ ← upd_api (tail_call_local callee args); done_with TAIL_SENTINEL.
Definition i_tail_call_ext : IM outcome :=
  mlocal ← fr_u32; flocal ← fr_u32; n ← fr_u8; args ← get_args n;
  mg ← on_api (atom_global mlocal); fg ← on_api (atom_global flocal);
  _ ← upd_api safepoint; _ ← upd_api (tail_call mg fg args); done_with TAIL_SENTINEL.
Definition i_call_ext : IM outcome :=
  rd ← fr_u8; mlocal ← fr_u32; flocal ← fr_u32; n ← fr_u8; args ← get_args n;
  mg ← on_api (atom_global mlocal); fg ← on_api (atom_global flocal);
  _ ← upd_api safepoint; v ← on_api (call_ext mg fg args); _ ← fr_set rd v; next.
Definition i_bitop (opcode : Z) : IM outcome :=
  rd ← fr_u8; ra ← fr_u8; rb ← fr_u8; a ← get_int ra; b ← get_int rb;
  let v := if bool_decide (opcode = op.BAND) then Z.land a b
           else if bool_decide (opcode = op.BOR) then Z.lor a b else Z.lxor a b in
  _ ← fr_set rd (term_int v); next.
Definition i_shift (opcode : Z) : IM outcome :=
  rd ← fr_u8; ra ← fr_u8; rb ← fr_u8; a ← get_int ra; b ← get_int rb;
  _ ← fail_if (negb (bool_decide (0 <= b <= 60))) Badarg;
  let v := if bool_decide (opcode = op.BSL) then swrap 64 (Z.shiftl a b) else Z.shiftr a b in
  _ ← fr_set rd (term_int (Z.shiftr (swrap 64 (Z.shiftl v 3)) 3)); next.
Definition i_bnot : IM outcome :=
  rd ← fr_u8; rs ← fr_u8; a ← get_int rs; _ ← fr_set rd (term_int (Z.lnot a)); next.
Definition i_bin_new (fuel : nat) : IM outcome :=
  rd ← fr_u8; len ← fr_u32; bytes ← fr_bytes len;
  b ← on_api (alloc_term fuel (binary bytes)); _ ← fr_set rd b; next.

(** The walk of [BIN_FROM_LIST]: the bytes and where the list ends. *)
Fixpoint list_bytes (fuel : nat) (mm : mem) (cur : Term) : res Trap (list byte * Term) :=
  match fuel with
  | O => NoFuel
  | Datatypes.S fuel' =>
      k ← kind mm cur;
      if bool_decide (k = KCons) then
        t ← head mm cur;
        match as_int t with
        | None => Err Badarg
        | Some h =>
            if negb (bool_decide (0 <= h <= 255)) then Err Badarg
            else nx ← tail mm cur; '(bs, last) ← list_bytes fuel' mm nx; Ok (z2b h :: bs, last)
        end
      else Ok ([], cur)
  end.

Definition i_bin_from_list (fuel : nat) : IM outcome :=
  rd ← fr_u8; rs ← fr_u8; cur ← fr_get rs;
  '(bytes, last) ← on_mem (fun mm => list_bytes fuel mm cur);
  _ ← fail_if (negb (is_nil last)) Badarg;
  b ← on_api (alloc_term fuel (binary bytes)); _ ← fr_set rd b; next.
Definition i_bin_to_list (fuel : nat) : IM outcome :=
  rd ← fr_u8; rs ← fr_u8; t ← fr_get rs;
  elems ← on_mem (fun mm =>
    k ← kind mm t;
    if negb (bool_decide (k = KBinary)) then Err Badarg
    else bs ← bin_bytes mm t; Ok (map (fun b => term_int (b2z b)) bs));
  l ← on_api (alloc_term fuel (list_term elems)); _ ← fr_set rd l; next.
Definition i_bin_size : IM outcome :=
  rd ← fr_u8; rs ← fr_u8; t ← fr_get rs;
  n ← on_mem (fun mm =>
    k ← kind mm t;
    if negb (bool_decide (k = KBinary)) then Err Badarg else bs ← bin_bytes mm t; Ok (zlen bs));
  _ ← fr_set rd (term_int n); next.
Definition i_buf_to_bin : IM outcome :=
  rd ← fr_u8; rs ← fr_u8; id ← get_int rs; b ← on_api (buf_to_bin id); _ ← fr_set rd b; next.
Definition i_bin_to_buf : IM outcome :=
  rd ← fr_u8; rs ← fr_u8; b ← fr_get rs; id ← on_api (bin_to_buf b); _ ← fr_set rd id; next.

(** [t.is_boxed() && t.kind() == Kind::Binary], and the same for maps. *)
Definition boxed_kind_is (mm : mem) (t : Term) (want : Kind) : res Trap bool :=
  if is_boxed t then k ← kind mm t; Ok (bool_decide (k = want)) else Ok false.

Definition i_is_binary : IM outcome :=
  rd ← fr_u8; rs ← fr_u8; t ← fr_get rs;
  b ← on_mem (fun mm => boxed_kind_is mm t KBinary);
  _ ← fr_set rd (term_int (if b : bool then 1 else 0)); next.
Definition i_bin_cat (fuel : nat) : IM outcome :=
  rd ← fr_u8; ra ← fr_u8; rb ← fr_u8; a ← fr_get ra; b ← fr_get rb;
  joined ← on_mem (fun mm =>
    ba ← boxed_kind_is mm a KBinary;
    if negb ba then Err Badarg
    else bb ← boxed_kind_is mm b KBinary;
         if negb bb then Err Badarg
         else x ← bin_bytes mm a; y ← bin_bytes mm b; Ok (x ++ y));
  out ← on_api (alloc_term fuel (binary joined)); _ ← fr_set rd out; next.

(** The walk of [LIST_CAT]. *)
Fixpoint list_elems (fuel : nat) (mm : mem) (cur : Term) : res Trap (list Term * Term) :=
  match fuel with
  | O => NoFuel
  | Datatypes.S fuel' =>
      c ← boxed_kind_is mm cur KCons;
      if c : bool then
        h ← head mm cur; nx ← tail mm cur; '(es, last) ← list_elems fuel' mm nx; Ok (h :: es, last)
      else Ok ([], cur)
  end.

Definition i_list_cat (fuel : nat) : IM outcome :=
  rd ← fr_u8; ra ← fr_u8; rb ← fr_u8; a ← fr_get ra; b ← fr_get rb;
  '(elems, last) ← on_mem (fun mm => list_elems fuel mm a);
  _ ← fail_if (negb (is_nil last)) Badarg;
  out ← on_api (alloc_term fuel (cons_all (rev elems) b)); _ ← fr_set rd out; next.
Definition i_bin_at : IM outcome :=
  rd ← fr_u8; rb ← fr_u8; ri ← fr_u8; b ← fr_get rb; idx ← get_int ri;
  x ← on_mem (fun mm =>
    k ← boxed_kind_is mm b KBinary;
    if negb k || bool_decide (idx < 0) then Err Badarg
    else bytes ← bin_bytes mm b;
         if bool_decide (idx >= zlen bytes) then Err Badarg
         else match lookupz bytes idx with Some x => Ok x | None => Panic end);
  _ ← fr_set rd (term_int (b2z x)); next.
Definition i_bin_part (fuel : nat) : IM outcome :=
  rd ← fr_u8; rb ← fr_u8; ro ← fr_u8; rl ← fr_u8; b ← fr_get rb; off ← get_int ro; len ← get_int rl;
  part ← on_mem (fun mm =>
    k ← boxed_kind_is mm b KBinary;
    if negb k || bool_decide (off < 0) || bool_decide (len < 0) then Err Badarg
    else bytes ← bin_bytes mm b;
         if bool_decide (off + len > zlen bytes) then Err Badarg
         else match slice bytes off (off + len) with Some x => Ok x | None => Panic end);
  out ← on_api (alloc_term fuel (binary part)); _ ← fr_set rd out; next.
Definition i_map_new (fuel : nat) : IM outcome :=
  rd ← fr_u8; n ← fr_u8;
  pairs ← collect (Z.to_nat n) (rk ← fr_u8; rv ← fr_u8; k ← fr_get rk; v ← fr_get rv; mret (k, v));
  t ← on_api (alloc_map fuel pairs); _ ← fr_set rd t; next.
Definition i_map_get : IM outcome :=
  rd ← fr_u8; rm ← fr_u8; rk ← fr_u8; t ← fr_get rm; k ← fr_get rk;
  v ← on_mem (fun mm =>
    b ← boxed_kind_is mm t KMap;
    if negb b then Err Badarg
    else r ← map_get mm t k; match r with Some v => Ok v | None => Err Badarg end);
  _ ← fr_set rd v; next.
Definition i_map_put (fuel : nat) : IM outcome :=
  rd ← fr_u8; rm ← fr_u8; rk ← fr_u8; rv ← fr_u8; t ← fr_get rm; k ← fr_get rk; v ← fr_get rv;
  b ← on_mem (fun mm => boxed_kind_is mm t KMap);
  _ ← fail_if (negb b) Badarg;
  out ← on_api (put_map fuel t k v); _ ← fr_set rd out; next.

(** The opcode match, in the order of the source. *)
Definition arms (fuel : nat) (call : Z -> list Term -> M S Trap Term) (opcode : Z) : list (list Z * IM outcome) :=
  [ ([op.NOP], i_nop); ([op.LOAD_INT], i_load_int); ([op.LOAD_ATOM], i_load_atom); ([op.LOAD_NIL], i_load_nil);
    ([op.MOVE], i_move); ([op.SELF_PID], i_self_pid); ([op.TICKS], i_ticks); ([op.MAKE_TUPLE], i_make_tuple fuel);
    ([op.GET_ELEM], i_get_elem); ([op.CONS], i_cons fuel); ([op.HEAD; op.TAIL], i_head_tail opcode);
    ([op.ADD; op.SUB; op.MUL], i_arith opcode); ([op.CMP_EQ], i_cmp_eq fuel); ([op.CMP_LT], i_cmp_lt);
    ([op.JMP], i_jmp); ([op.JMP_IF], i_jmp_if); ([op.CALL], i_call call); ([op.RET], i_ret);
    ([op.SPAWN], i_spawn); ([op.SEND], i_send); ([op.RECV], i_recv); ([op.PRINT], i_print);
    ([op.EXIT_ATOM], i_exit_atom); ([op.PORT_OPEN], i_port_open); ([op.PORT_SUBMIT], i_port_submit);
    ([op.BUF_WRITE], i_buf_write); ([op.SLEEP_MS], i_sleep_ms); ([op.BUF_NEW], i_buf_new);
    ([op.BUF_READ], i_buf_read); ([op.PORT_SUBMIT2], i_port_submit2); ([op.TAIL_CALL], i_tail_call);
    ([op.TAIL_CALL_EXT], i_tail_call_ext); ([op.CALL_EXT], i_call_ext); ([op.BAND; op.BOR; op.BXOR], i_bitop opcode);
    ([op.BSL; op.BSR], i_shift opcode); ([op.BNOT], i_bnot); ([op.BIN_NEW], i_bin_new fuel);
    ([op.BIN_FROM_LIST], i_bin_from_list fuel); ([op.BIN_TO_LIST], i_bin_to_list fuel); ([op.BIN_SIZE], i_bin_size);
    ([op.BUF_TO_BIN], i_buf_to_bin); ([op.BIN_TO_BUF], i_bin_to_buf); ([op.IS_BINARY], i_is_binary);
    ([op.BIN_CAT], i_bin_cat fuel); ([op.LIST_CAT], i_list_cat fuel); ([op.BIN_AT], i_bin_at);
    ([op.BIN_PART], i_bin_part fuel); ([op.MAP_NEW], i_map_new fuel); ([op.MAP_GET], i_map_get);
    ([op.MAP_PUT], i_map_put fuel) ].

Definition step (fuel : nat) (call : Z -> list Term -> M S Trap Term) : IM outcome :=
  opcode ← fr_u8; select_arm opcode (arms fuel call opcode) (throw BadCode).

(** Frame setup: [run_function] up to its loop. *)
Definition enter (fn_idx : Z) (args : list Term) : res Trap Frame :=
  match lookupz (functions m) fn_idx with
  | None => Err BadCode
  | Some f =>
      if negb (bool_decide (zlen args = arity f)) || bool_decide (nregs f < zlen args) then Err Badarg
      else Ok {| fcode := code f; pc := 0;
                 regs := args ++ drop (length args) (replicate (Z.to_nat (nregs f)) NIL) |}
  end.

Fixpoint exec (fuel : nat) (f : Frame) : M S Trap Term := fun a =>
  match fuel with
  | O => (NoFuel, a)
  | Datatypes.S fuel' =>
      let call idx args := (f' ← lift (enter idx args); exec fuel' f') in
      match step fuel' call {| fr := f; api := a |} with
      | (Ok Next, s) => exec fuel' (fr s) (api s)
      | (Ok (Return t), s) => (Ok t, api s)
      | (Err e, s) => (Err e, api s)
      | (Panic, s) => (Panic, api s)
      | (NoFuel, s) => (NoFuel, api s)
      end
  end.

Definition run_function (fuel : nat) (fn_idx : Z) (args : list Term) : M S Trap Term :=
  f ← lift (enter fn_idx args); exec fuel f.
End interpreter.

Arguments IS : clear implicits.
