(* ===== verification/InterpSafe.v ===== *)
(** * InterpSafe: verified bytecode is safe to interpret

    The contract the interpreter expects of its [SystemApi] ([ApiLaws]) and the
    invariant of a running frame.  Against that contract, the code of a verified
    module never decodes garbage, never leaves its frame, never touches memory
    outside live terms, and returns the tail sentinel only from the functions
    [sentinel_returners] names. *)

From S2P Require Import Prelude Term TermImm TermHeap TermVal TermCopy TermMap.
From S2P Require Import Bytecode BytecodeAnalysis Verify VerifySound Interp.

(** ** Live memory *)

(** The words that are not free in the current heap; a valid term denotes a
    value there. *)
Definition live (s : HS) : mem := filter (fun kv => ~ (ptop s <= kv.1 < pend s)) (hmem s).

Definition valid_in (s : HS) (t : Term) : Prop := exists v, repr (live s) v t.

Lemma live_source s : source (live s) s.
Proof.
  split; [apply map_filter_subseteq|]. intros x w Hx. unfold live in Hx.
  apply map_lookup_filter_Some in Hx as [_ Hx]. exact Hx.
Qed.

Lemma source_live m0 s : source m0 s -> m0 ⊆ live s.
Proof.
  intros [Hs Hd]. apply map_subseteq_spec. intros x w Hx. apply map_lookup_filter_Some.
  split; [by eapply lookup_weaken|by eapply Hd].
Qed.

Lemma valid_imm s w : imm_word w -> valid_in s w.
Proof. intros H. exists (VImm w). by constructor. Qed.

(** A heap operation keeps every valid term valid. *)
Definition heap_step (s s' : HS) : Prop :=
  heap_ok s' /\ same_arena s s' /\ writes (ptop s) (pend s) (hmem s) (hmem s') /\ top (hp s) <= top (hp s').

Lemma heap_step_live s s' : heap_step s s' -> live s ⊆ live s'.
Proof.
  intros (_ & [Hb Hc] & Hw & Ht). apply source_live. destruct (live_source s) as [Hs Hd].
  split; [by eapply writes_sub|]. intros x w Hx ?. apply (Hd x w Hx).
  unfold ptop, pend in *. rewrite Hb, Hc in *. lia.
Qed.

Lemma valid_step s s' t : heap_step s s' -> valid_in s t -> valid_in s' t.
Proof. intros Hs [v Hv]. exists v. eapply repr_mono; [by apply heap_step_live|done]. Qed.

(** What was just allocated is live. *)
Lemma region_live s s' : heap_step s s' -> region (ptop s) (ptop s') (hmem s') ⊆ live s'.
Proof.
  intros _. apply map_subseteq_spec. intros x w [Hx ?]%region_lookup. apply map_lookup_filter_Some.
  split; [done|]. cbn [fst]. lia.
Qed.

(** ** No operation lowers the top of the heap *)

Definition top_mono {E A} (c : M HS E A) : Prop := forall s, top (hp s) <= top (hp (c s).2).

Lemma top_mono_bind {E A B} (c : M HS E A) (k : A -> M HS E B) :
  top_mono c -> (forall x, top_mono (k x)) -> top_mono (x ← c; k x).
Proof.
  intros Hc Hk s. specialize (Hc s). unfold mbind, M_bind. destruct (c s) as [[x|e| |] s1]; try done.
  cbn [snd] in *. specialize (Hk x s1). lia.
Qed.

Lemma top_mono_same {E A} (c : M HS E A) : (forall s, hp (c s).2 = hp s) -> top_mono c.
Proof. intros H s. by rewrite H. Qed.

Lemma top_mono_alloc n : 0 <= n -> top_mono (heap_alloc n).
Proof. intros Hn s. unfold heap_alloc. case_bool_decide; simpl; lia. Qed.

Lemma top_mono_store {E} a v : top_mono (store (E:=E) a v).
Proof. apply top_mono_same. intros s. unfold store. by destruct (hmem s !! a). Qed.

Lemma top_mono_store_words {E} ws : forall a, top_mono (store_words (E:=E) a ws).
Proof.
  induction ws; intros; cbn [store_words]; [by apply top_mono_same|]. apply top_mono_bind; [apply top_mono_store|done].
Qed.

Lemma top_mono_store_bytes {E} bs : forall a i, top_mono (store_bytes (E:=E) a i bs).
Proof.
  induction bs; intros; cbn [store_bytes]; [by apply top_mono_same|]. apply top_mono_bind; [|done].
  apply top_mono_same. intros s. unfold store_byte. by destruct (hmem s !! _).
Qed.

Lemma top_mono_store_pairs {E} kvs : forall p n i, top_mono (store_pairs (E:=E) p n i kvs).
Proof.
  induction kvs as [|[k v] kvs IH]; intros; cbn [store_pairs]; [by apply top_mono_same|].
  repeat (apply top_mono_bind; [apply top_mono_store|intros _]). done.
Qed.

Lemma top_mono_map_err {E E' A} (g : E -> E') (c : M HS E A) : top_mono c -> top_mono (map_err g c).
Proof. intros Hc s. specialize (Hc s). unfold map_err. by destruct (c s) as [[?|?| |] ?]. Qed.

Lemma top_mono_tuple xs : top_mono (tuple xs).
Proof.
  pose proof (zlen_nonneg xs). apply top_mono_bind; [apply top_mono_alloc; lia|]. intros p.
  apply top_mono_bind; [apply top_mono_store|]. intros _.
  apply top_mono_bind; [apply top_mono_store_words|]. intros _. by apply top_mono_same.
Qed.

Lemma top_mono_cons h t : top_mono (cons h t).
Proof.
  apply top_mono_bind; [by apply top_mono_alloc|]. intros p.
  repeat (apply top_mono_bind; [apply top_mono_store|intros _]). by apply top_mono_same.
Qed.

Lemma top_mono_binary bs : top_mono (binary bs).
Proof.
  pose proof (div_ceil8_spec (zlen bs) (zlen_nonneg bs)). pose proof (zlen_nonneg bs).
  apply top_mono_bind; [apply top_mono_alloc; lia|]. intros p.
  apply top_mono_bind; [apply top_mono_store|]. intros _.
  apply top_mono_bind; [apply top_mono_store_bytes|]. intros _. by apply top_mono_same.
Qed.

Lemma top_mono_cons_all es : forall t, top_mono (cons_all es t).
Proof.
  induction es; intros; cbn [cons_all]; [by apply top_mono_same|]. apply top_mono_bind; [apply top_mono_cons|done].
Qed.

Lemma top_mono_map_from_pairs pairs : top_mono (map_from_pairs pairs).
Proof.
  unfold map_from_pairs. apply top_mono_bind; [by apply top_mono_same; intros s; destruct (existsb _ _)|]. intros _.
  destruct (kept_spec pairs) as (_ & _ & _ & _ & Hn). destruct (sorted_pairs pairs) as [n l]. cbn [fst] in Hn.
  pose proof (zlen_nonneg (kept pairs)).
  apply top_mono_bind; [apply top_mono_map_err, top_mono_alloc; lia|]. intros p.
  apply top_mono_bind; [apply top_mono_store|]. intros _.
  apply top_mono_bind; [apply top_mono_store_pairs|]. intros _. by apply top_mono_same.
Qed.

Lemma grown_step {E A} n (R : mem -> A -> Prop) s (r : res E A) s' :
  grown n R s r s' -> top (hp s) <= top (hp s') -> heap_step s s'.
Proof. intros (?&?&?&_) ?. done. Qed.

(** ** Constructors on valid terms *)

(** [c] is a heap operation that either yields a valid term or is out of space. *)
Definition makes {E} (c : M HS E Term) (s : HS) : Prop :=
  let '(r, s') := c s in heap_step s s' /\
  match r with Ok t => valid_in s' t | Err _ => True | _ => False end.

Lemma makes_grows {E} (c : M HS E Term) n (R : mem -> Term -> Prop) s :
  top_mono c -> grows c n R s ->
  (forall s' t, heap_step s s' -> R (region (ptop s) (ptop s') (hmem s')) t -> valid_in s' t) -> makes c s.
Proof.
  intros Hm Hg HR. specialize (Hm s). unfold makes. unfold grows, wp in Hg.
  destruct (c s) as [r s']. cbn [fst snd] in *. pose proof (grown_step _ _ _ _ _ Hg Hm) as Hst.
  split; [done|]. destruct Hg as (_ & _ & _ & Hr). destruct r; try done. by eapply HR, Hr.
Qed.

Lemma Forall_valid_reprs s xs : Forall (valid_in s) xs -> exists vs, Forall2 (repr (live s)) vs xs.
Proof.
  induction 1 as [|x xs [v Hv] _ [vs Hvs]]; [by exists []|]. exists (v :: vs). by constructor.
Qed.

Lemma makes_tuple xs s : heap_ok s -> Forall (valid_in s) xs -> makes (tuple xs) s.
Proof.
  intros Hok Hxs. eapply makes_grows; [apply top_mono_tuple|by apply grows_tuple|].
  intros s' t Hst Ht. destruct (Forall_valid_reprs s xs Hxs) as [vs Hvs]. exists (VTuple vs).
  apply (repr_tuple _ _ xs); [eapply tuple_at_mono; [by apply region_live|done]|].
  eapply Forall2_impl; [exact Hvs|]. intros v x. apply repr_mono. by apply heap_step_live.
Qed.

Lemma makes_cons h t s : heap_ok s -> valid_in s h -> valid_in s t -> makes (cons h t) s.
Proof.
  intros Hok [vh Hh] [vt Ht]. eapply makes_grows; [apply top_mono_cons|by apply grows_cons|].
  intros s' x Hst Hx. exists (VCons vh vt).
  apply (repr_cons _ _ _ h t); [eapply cons_at_mono; [by apply region_live|done]|..];
    (eapply repr_mono; [by apply heap_step_live|done]).
Qed.

Lemma makes_binary bs s : heap_ok s -> makes (binary bs) s.
Proof.
  intros Hok. eapply makes_grows; [apply top_mono_binary|by apply grows_binary|].
  intros s' t Hst Ht. exists (VBin bs). constructor. eapply bin_at_mono; [by apply region_live|done].
Qed.

Lemma heap_step_trans s1 s2 s3 : heap_step s1 s2 -> heap_step s2 s3 -> heap_step s1 s3.
Proof.
  intros (Hok1 & [Hb1 Hc1] & Hw1 & Ht1) (Hok2 & [Hb2 Hc2] & Hw2 & Ht2).
  split_and!; [done|split; congruence| |lia]. eapply writes_trans; [exact Hw1|].
  eapply writes_weaken; [exact Hw2|..]; unfold ptop, pend; rewrite Hb1, ?Hc1; lia.
Qed.

Lemma heap_step_refl s : heap_ok s -> heap_step s s.
Proof. intros. split_and!; [done|by split|apply writes_refl|lia]. Qed.

Lemma makes_cons_all es : forall t s,
  heap_ok s -> Forall (valid_in s) es -> valid_in s t -> makes (cons_all es t) s.
Proof.
  induction es as [|e es IH]; intros t s Hok Hes Ht; cbn [cons_all].
  { unfold makes. simpl. split; [by apply heap_step_refl|done]. }
  apply Forall_cons in Hes as [He Hes]. pose proof (makes_cons e t s Hok He Ht) as Hc.
  unfold makes in *. unfold mbind, M_bind. destruct (cons e t s) as [[t'|err| |] s1]; [|done..].
  destruct Hc as [Hst Hv]. specialize (IH t' s1 (proj1 Hst)).
  assert (Forall (valid_in s1) es) as Hes1.
  { eapply Forall_impl; [exact Hes|]. intros x. by apply valid_step. }
  specialize (IH Hes1 Hv). destruct (cons_all es t' s1) as [r s2]. destruct IH as [Hst2 Hr].
  split; [by eapply heap_step_trans|done].
Qed.

(** Keys are immediates and values valid terms: the map is a valid term. *)
Lemma map_denotes_valid s s' t M :
  heap_step s s' -> map_denotes (region (ptop s) (ptop s') (hmem s')) t M ->
  (forall k v, M !! k = Some v -> valid_in s k /\ valid_in s v) -> valid_in s' t.
Proof.
  intros Hst (kvs & Hm & Hs & Hb & HM) Hv.
  assert (Forall (fun kv => valid_in s kv.1 /\ valid_in s kv.2) kvs) as Hkv.
  { apply Forall_forall. intros [k v] Hin. apply Hv. rewrite <- HM.
    apply elem_of_list_to_map_1; [by apply sorted_lt_NoDup|done]. }
  destruct (Forall_valid_reprs s' kvs.*2) as [vs Hvs].
  { apply Forall_fmap. eapply Forall_impl; [exact Hkv|]. intros kv [_ ?]. by eapply valid_step. }
  exists (VMap kvs.*1 vs). apply (repr_map _ _ _ kvs.*2); [eapply map_at_mono; [by apply region_live|done]| |done].
  apply Forall_fmap. rewrite Forall_fmap in Hb. rewrite Forall_forall in *. intros kv Hin.
  destruct (Hkv kv Hin) as [[v Hr] _]. specialize (Hb kv Hin). cbn in Hb |- *.
  apply repr_header in Hr. destruct (vheader v) as [[k n]|]; [|apply Hr].
  destruct Hr as [Hbox%boxed_is_boxed _]. congruence.
Qed.

Lemma last_wins_elem l k v : last_wins l !! k = Some v -> (k, v) ∈ l.
Proof. unfold last_wins. intros H%elem_of_list_to_map_2. by rewrite reverse_Permutation in H. Qed.

Lemma makes_map_from_pairs pairs s :
  heap_ok s -> Forall (fun kv => valid_in s kv.1 /\ valid_in s kv.2) pairs -> makes (map_from_pairs pairs) s.
Proof.
  intros Hok Hp. destruct (existsb (fun kv => is_boxed kv.1) pairs) eqn:Hb.
  { unfold makes, map_from_pairs. rewrite Hb. simpl. split; [by apply heap_step_refl|done]. }
  eapply makes_grows; [apply top_mono_map_from_pairs|by apply map_from_pairs_spec|].
  intros s' t Hst Ht. eapply map_denotes_valid; [exact Hst|exact Ht|]. intros k v Hkv%last_wins_elem.
  rewrite Forall_forall in Hp. exact (Hp (k, v) Hkv).
Qed.

Lemma makes_map_put b k v s ks vs :
  heap_ok s -> repr (live s) (VMap ks vs) b -> valid_in s k -> valid_in s v -> makes (map_put b k v) s.
Proof.
  intros Hok Hr Hk Hv. apply repr_inv in Hr as (xs & Hm & Hks & Hall).
  unfold makes, map_put. destruct (is_boxed k) eqn:Hb.
  { simpl. split; [by apply heap_step_refl|done]. }
  pose proof (map_at_mono _ _ (proj1 (live_source s)) _ _ _ Hm) as Hm'.
  rewrite (bind_eval _ _ _ tt s), (bind_eval _ _ _ (hmem s) s) by done.
  rewrite (bind_eval _ _ _ (zlen ks) s) by (unfold lift; by rewrite (map_at_arity _ _ _ _ Hm')).
  pose proof Hm as (_ & Hl & _). 
  assert (zlen ks = zlen (zip ks xs)) as Hz by (unfold zlen; rewrite length_zip_with; lia).
  rewrite Hz, (bind_eval _ _ _ (zip ks xs) s).
  2: { unfold lift. rewrite (map_pairs_spec _ _ (zip ks xs) _ _ Hm'); [done|].
       intros i [k' v'] [? ?]%zip_lookup. by rewrite Z.add_0_l. }
  apply (makes_map_from_pairs (zip ks xs ++ [(k, v)]) s Hok). apply Forall_app. split; [|by repeat constructor].
  apply Forall_forall. intros [k' v'] Hin. split; cbn [fst snd].
  - apply elem_of_zip_l in Hin. rewrite Forall_forall in Hks. by apply valid_imm, Hks.
  - apply elem_of_zip_r, list_elem_of_lookup in Hin as [i Hi].
    destruct (Forall2_lookup_r _ _ _ _ _ Hall Hi) as (u & _ & Hu). by exists u.
Qed.

(** ** Reading valid terms *)

Section reading.
Context (s : HS).

Lemma live_sub : live s ⊆ hmem s.
Proof using Type. apply live_source. Qed.

Lemma valid_repr t : valid_in s t -> exists v, repr (hmem s) v t /\ repr (live s) v t.
Proof using Type. intros [v Hv]. exists v. split; [eapply repr_mono; [apply live_sub|done]|done]. Qed.

(** What [kind] returns tells the shape of a valid term. *)
Lemma valid_kind t : valid_in s t -> exists v k, repr (live s) v t /\ kind (E:=Trap) (hmem s) t = Ok k /\
  match k with
  | KTuple => exists vs, v = VTuple vs | KCons => exists h tl, v = VCons h tl
  | KBinary => exists bs, v = VBin bs | KMap => exists ks vs, v = VMap ks vs
  | _ => v = VImm t
  end.
Proof using Type.
  intros (v & Hv & Hl)%valid_repr. destruct (repr_kind (E:=Trap) _ _ _ Hv) as (k & Hk & Hkv).
  exists v, k. split_and!; [done|done|]. destruct v; try (subst k; eauto).
  apply repr_inv in Hl as [-> _]. destruct k; try done; set_solver.
Qed.

Lemma tuple_elem_valid vs t i :
  repr (live s) (VTuple vs) t ->
  tuple_arity (E:=Trap) (hmem s) t = Ok (zlen vs) /\
  (0 <= i < zlen vs -> exists x, tuple_elem (E:=Trap) (hmem s) t i = Ok x /\ valid_in s x).
Proof using Type.
  intros (xs & Ht & Hall)%repr_inv. pose proof (tuple_at_mono _ _ live_sub _ _ Ht) as Ht'.
  assert (zlen xs = zlen vs) as Hl by (apply zlen_inj; symmetry; by eapply Forall2_length).
  rewrite (tuple_at_arity _ _ _ Ht'), Hl. split; [done|]. intros Hi.
  destruct (lookupz_is_Some xs i) as [x Hx]; [lia|]. exists x. split; [by eapply tuple_at_elem|].
  apply lookupz_Some in Hx as [_ Hx]. destruct (Forall2_lookup_r _ _ _ _ _ Hall Hx) as (u & _ & Hu). by exists u.
Qed.

Lemma cons_valid h tl t :
  repr (live s) (VCons h tl) t -> exists x y,
    head (E:=Trap) (hmem s) t = Ok x /\ tail (E:=Trap) (hmem s) t = Ok y /\
    valid_in s x /\ repr (live s) tl y.
Proof using Type.
  intros (x & y & Hc & Hx & Hy)%repr_inv. pose proof (cons_at_mono _ _ live_sub _ _ _ Hc) as Hc'.
  exists x, y. split_and!; [by eapply cons_at_head|by eapply cons_at_tail|by exists h|done].
Qed.

Lemma bin_valid bs t : repr (live s) (VBin bs) t -> bin_bytes (E:=Trap) (hmem s) t = Ok bs.
Proof using Type. intros Hb%repr_inv. eapply bin_at_bytes, bin_at_mono, Hb. apply live_sub. Qed.

Lemma map_get_loop_safe t ks xs key : map_at (hmem s) t ks xs -> forall fuel lo hi,
  0 <= lo <= hi -> hi <= zlen ks -> hi - lo < Z.of_nat fuel -> exists r,
    map_get_loop (E:=Trap) fuel (hmem s) t key lo hi = Ok r /\ (forall v, r = Some v -> v ∈ xs).
Proof using Type.
  intros Hm. assert (zlen xs = zlen ks) as Hl by apply zlen_inj, Hm.
  induction fuel as [|fuel IH]; intros lo hi Hlo Hhi Hf; [lia|].
  cbn [map_get_loop]. case_bool_decide as Hlh; [|exists None; by split].
  assert (lo <= (lo + hi) / 2 < hi) as Hmid.
  { pose proof (Z.div_mod (lo + hi) 2 ltac:(lia)). pose proof (Z.mod_pos_bound (lo + hi) 2 ltac:(lia)). lia. }
  set (mid := (lo + hi) / 2) in *. destruct (lookupz_is_Some ks mid) as [k Hk]; [lia|].
  destruct (lookupz_is_Some xs mid) as [x Hx]; [lia|].
  rewrite (map_at_key _ _ _ _ _ _ Hm Hk). cbn [mbind res_bind]. case_bool_decide.
  - rewrite (map_at_val _ _ _ _ _ _ Hm Hx). exists (Some x). split; [done|]. intros v [= <-].
    apply lookupz_Some in Hx as [_ Hx]. by eapply list_elem_of_lookup_2.
  - case_bool_decide; apply IH; lia.
Qed.

Lemma map_get_safe ks vs t key :
  repr (live s) (VMap ks vs) t -> exists r,
    map_get (E:=Trap) (hmem s) t key = Ok r /\ (forall v, r = Some v -> valid_in s v).
Proof using Type.
  intros (xs & Hm & _ & Hall)%repr_inv. pose proof (map_at_mono _ _ live_sub _ _ _ Hm) as Hm'.
  unfold map_get. rewrite (map_at_arity _ _ _ _ Hm'). cbn [mbind res_bind]. pose proof (zlen_nonneg ks).
  destruct (map_get_loop_safe t ks xs key Hm' (S (Z.to_nat (zlen ks))) 0 (zlen ks)) as (r & -> & Hr); [lia..|].
  exists r. split; [done|]. intros v Hv. apply Hr, list_elem_of_lookup in Hv as [i Hi].
  destruct (Forall2_lookup_r _ _ _ _ _ Hall Hi) as (u & _ & Hu). by exists u.
Qed.

(** Equality never panics on valid terms; it may only run out of fuel. *)
Definition harmless {A} (Q : A -> Prop) (r : res Trap A) : Prop :=
  match r with Ok x => Q x | Err e => e <> BadCode | Panic => False | NoFuel => True end.

Lemma harmless_bind {A B} (r : res Trap A) (k : A -> res Trap B) (P : A -> Prop) (Q : B -> Prop) :
  harmless P r -> (forall x, P x -> harmless Q (k x)) -> harmless Q (x ← r; k x).
Proof using Type. destruct r; simpl; auto. Qed.

Lemma harmless_mono {A} (P Q : A -> Prop) r : harmless P r -> (forall x, P x -> Q x) -> harmless Q r.
Proof using Type. destruct r; simpl; auto. Qed.

Lemma all_range_harmless (g : Z -> res Trap bool) ix :
  (forall i, i ∈ ix -> harmless (fun _ => True) (g i)) -> harmless (fun _ => True) (all_range g ix).
Proof using Type.
  induction ix as [|i ix IH]; intros Hg; [done|]. cbn [all_range].
  eapply harmless_bind; [apply Hg; by left|]. intros [] _; [apply IH; intros; apply Hg; by right|done].
Qed.

Lemma eq_spine_harmless (eqt : Term -> Term -> res Trap bool) fuel :
  (forall x y, valid_in s x -> valid_in s y -> harmless (fun _ => True) (eqt x y)) ->
  forall a b h1 t1 h2 t2, repr (live s) (VCons h1 t1) a -> repr (live s) (VCons h2 t2) b ->
    harmless (fun _ => True) (eq_spine fuel eqt (hmem s) a b).
Proof using Type.
  intros He. induction fuel as [|fuel IH]; intros a b h1 t1 h2 t2 Ha Hb; [done|]. cbn [eq_spine].
  destruct (cons_valid _ _ _ Ha) as (x1 & y1 & -> & -> & Hx1 & Hy1).
  destruct (cons_valid _ _ _ Hb) as (x2 & y2 & -> & -> & Hx2 & Hy2). cbn [mbind res_bind].
  eapply harmless_bind; [by apply He|]. intros [] _; [|done]. cbn [negb].
  assert (valid_in s y1) as Hv1 by (by exists t1). assert (valid_in s y2) as Hv2 by (by exists t2).
  destruct (valid_kind y1 Hv1) as (v1 & k1 & Hr1 & -> & Hk1).
  destruct (valid_kind y2 Hv2) as (v2 & k2 & Hr2 & -> & Hk2). cbn [mbind res_bind].
  do 2 case_bool_decide; [|done|done|by apply He]. subst k1 k2.
  destruct Hk1 as (?&?&->), Hk2 as (?&?&->). by eapply IH.
Qed.

Lemma eq_term_harmless fuel : forall a b,
  valid_in s a -> valid_in s b -> harmless (fun _ => True) (eq_term fuel (hmem s) a b).
Proof using Type.
  induction fuel as [|fuel IH]; intros a b Ha Hb; [done|]. cbn [eq_term].
  case_bool_decide; [done|]. destruct (negb _); [done|].
  destruct (valid_kind a Ha) as (va & ka & Hra & -> & Hka).
  destruct (valid_kind b Hb) as (vb & kb & Hrb & -> & Hkb). cbn [mbind res_bind].
  destruct ka; try done; destruct kb; try done.
  - destruct Hka as [vs ->], Hkb as [ws ->].
    destruct (tuple_elem_valid vs a 0 Hra) as [-> _], (tuple_elem_valid ws b 0 Hrb) as [-> _].
    cbn [mbind res_bind]. case_bool_decide as Hn; [|done]. apply all_range_harmless. intros i Hi%elem_of_seqZ.
    destruct (tuple_elem_valid vs a i Hra) as [_ [x [-> Hx]]]; [lia|].
    destruct (tuple_elem_valid ws b i Hrb) as [_ [y [-> Hy]]]; [lia|]. by apply IH.
  - destruct Hka as (?&?&->), Hkb as (?&?&->). by eapply eq_spine_harmless.
  - destruct Hka as [vs ->], Hkb as [ws ->]. rewrite (bin_valid vs a Hra), (bin_valid ws b Hrb). done.
  - destruct Hka as (ks & vs & ->), Hkb as (ks2 & ws & ->).
    apply repr_inv in Hra as (xs & Hm & _ & Hall), Hrb as (ys & Hm2 & _ & Hall2).
    pose proof (map_at_mono _ _ live_sub _ _ _ Hm) as Hm'. pose proof (map_at_mono _ _ live_sub _ _ _ Hm2) as Hm2'.
    rewrite (map_at_arity _ _ _ _ Hm'), (map_at_arity _ _ _ _ Hm2'). cbn [mbind res_bind].
    case_bool_decide as Hn; [|done]. apply all_range_harmless. intros i Hi%elem_of_seqZ.
    assert (zlen xs = zlen ks) as Hl by apply zlen_inj, Hm. assert (zlen ys = zlen ks2) as Hl2 by apply zlen_inj, Hm2.
    destruct (lookupz_is_Some ks i) as [k Hk]; [lia|]. destruct (lookupz_is_Some ks2 i) as [k2 Hk2]; [lia|].
    destruct (lookupz_is_Some xs i) as [x Hx]; [lia|]. destruct (lookupz_is_Some ys i) as [y Hy]; [lia|].
    rewrite (map_at_key _ _ _ _ _ _ Hm' Hk), (map_at_key _ _ _ _ _ _ Hm2' Hk2). cbn [mbind res_bind].
    case_bool_decide; [|done].
    rewrite (map_at_val _ _ _ _ _ _ Hm' Hx), (map_at_val _ _ _ _ _ _ Hm2' Hy). cbn [mbind res_bind].
    apply lookupz_Some in Hx as [_ Hx], Hy as [_ Hy].
    destruct (Forall2_lookup_r _ _ _ _ _ Hall Hx) as (u & _ & Hu).
    destruct (Forall2_lookup_r _ _ _ _ _ Hall2 Hy) as (w & _ & Hw). apply IH; [by exists u|by exists w].
Qed.
End reading.

Section walks.
Context (s : HS).

Lemma boxed_kind_is_ok t want :
  valid_in s t -> exists b, boxed_kind_is (hmem s) t want = Ok b /\
    (b = true -> kind (E:=Trap) (hmem s) t = Ok want).
Proof using Type.
  intros Ht. unfold boxed_kind_is. destruct (is_boxed t); [|by exists false].
  destruct (valid_kind s t Ht) as (v & k & _ & -> & _). cbn [mbind res_bind].
  exists (bool_decide (k = want)). split; [done|]. rewrite bool_decide_eq_true. by intros ->.
Qed.

Lemma list_bytes_harmless fuel : forall t,
  valid_in s t -> harmless (fun _ => True) (list_bytes fuel (hmem s) t).
Proof using Type.
  induction fuel as [|fuel IH]; intros t Ht; [done|]. cbn [list_bytes].
  destruct (valid_kind s t Ht) as (v & k & Hr & -> & Hk). cbn [mbind res_bind].
  case_bool_decide; [|done]. subst k. destruct Hk as (h & tl & ->).
  destruct (cons_valid s h tl t Hr) as (x & y & -> & -> & Hx & Hy). cbn [mbind res_bind].
  destruct (as_int x); [|done]. destruct (negb _); [done|].
  eapply harmless_bind; [apply IH; by exists tl|]. by intros [bs last] _.
Qed.

Lemma list_elems_harmless fuel : forall t,
  valid_in s t -> harmless (fun p => Forall (valid_in s) p.1) (list_elems fuel (hmem s) t).
Proof using Type.
  induction fuel as [|fuel IH]; intros t Ht; [done|]. cbn [list_elems].
  destruct (boxed_kind_is_ok t KCons Ht) as (b & -> & Hb). cbn [mbind res_bind].
  destruct b; [|by constructor]. specialize (Hb eq_refl).
  destruct (valid_kind s t Ht) as (v & k & Hr & Hk & Hkv). rewrite Hb in Hk. injection Hk as <-.
  destruct Hkv as (h & tl & ->).
  destruct (cons_valid s h tl t Hr) as (x & y & -> & -> & Hx & Hy). cbn [mbind res_bind].
  eapply harmless_bind; [apply IH; by exists tl|]. intros [es last] Hes. by constructor.
Qed.
End walks.

(** ** The contract of the system interface *)

Definition valid {S} `{!SystemApi S} (s : S) (t : Term) : Prop := valid_in (heap_state s) t.

(** Existing terms keep the values they denote. *)
Definition extends {S} `{!SystemApi S} (s s' : S) : Prop := forall v t,
  repr (live (heap_state s)) v t -> repr (live (heap_state s')) v t.

(** A result that is within bounds: [Q] of what is returned, no [BadCode], and a panic only where [B] holds. *)
Definition contained {A} (B : Prop) (Q : A -> Prop) (r : res Trap A) : Prop :=
  match r with Ok x => Q x | Err e => e <> BadCode | Panic => B | NoFuel => True end.

Lemma contained_mono {A} (B : Prop) (P Q : A -> Prop) r : contained B P r -> (forall x, P x -> Q x) -> contained B Q r.
Proof. destruct r; simpl; auto. Qed.
Lemma harmless_contained {A} (B : Prop) (Q : A -> Prop) r : harmless Q r -> contained B Q r.
Proof. by destruct r. Qed.

(** A method call: the state stays good, terms keep their values, the result satisfies
    [Q], and the only failures are traps other than [BadCode], or panics in a state of [blame]. *)
Definition method {S A} `{!SystemApi S} (good blame : S -> Prop) (Q : S -> A -> Prop) (c : M S Trap A) (s : S) : Prop :=
  let '(r, s') := c s in good s' /\ extends s s' /\ contained (blame s') (Q s') r.

Definition update {S} `{!SystemApi S} (good : S -> Prop) (f : S -> S) (s : S) : Prop :=
  good (f s) /\ extends s (f s).

(** What the code of [m] may expect of its host.  [stashed s]: a tail-call target awaits the
    trampoline.  Receiving and spawning are promised to modules that do so.  A method may panic only in
    a state of [blame]: where the host itself fails. *)
Class ApiLawsUpTo (S : Type) `{!SystemApi S} (m : Module_) (blame : S -> Prop) := {
  good : S -> Prop;
  stashed : S -> Prop;
  heap_lens h (s : S) : heap_state (with_heap h s) = h;
  good_heap s : good s -> heap_ok (heap_state s);
  good_with_heap s h : good s -> heap_step (heap_state s) h -> good (with_heap h s);
  law_grow s : good s -> good (heap_grow s).2 /\ extends s (heap_grow s).2;
  law_safepoint s : good s -> update good safepoint s;
  law_print s t : good s -> valid s t -> update good (api_print t) s;
  law_sleep s ms : good s -> update good (sleep_ms ms) s;
  law_tail_call s mo fn args : good s -> Forall (valid s) args ->
    update good (tail_call mo fn args) s /\ stashed (tail_call mo fn args s);
  law_tail_call_local s i f args : good s -> Forall (valid s) args -> lookupz (functions m) i = Some f -> arity f = zlen args ->
    update good (tail_call_local i args) s /\ stashed (tail_call_local i args s);
  law_ticks s : good s -> valid s (api_ticks s);
  law_atom s l : good s -> method good blame (fun _ _ => True) (atom_global l) s;
  law_send s a b : good s -> valid s a -> valid s b -> method good blame (fun _ _ => True) (api_send a b) s;
  law_recv s : uses m op.RECV -> good s -> method good blame valid api_recv s;
  law_spawn s i f a : uses m op.SPAWN -> good s -> valid s a -> lookupz (functions m) i = Some f -> method good blame (fun _ _ => True) (api_spawn i a) s;
  law_port_open s k : good s -> method good blame valid (port_open k) s;
  law_port_submit s p o a t : good s -> valid s p -> valid s a -> valid s t ->
    method good blame (fun _ _ => True) (port_submit p o a t) s;
  law_port_submit2 s p o a b t : good s -> valid s p -> valid s o -> valid s a -> valid s b -> valid s t ->
    method good blame (fun _ _ => True) (port_submit2 p o a b t) s;
  law_call_ext s mo fn args : good s -> Forall (valid s) args -> method good blame valid (call_ext mo fn args) s;
  law_buf_to_bin s i : good s -> method good blame valid (buf_to_bin i) s;
  law_bin_to_buf s b : good s -> valid s b -> method good blame valid (bin_to_buf b) s;
  law_buf_write s a b c : good s -> valid s a -> valid s b -> valid s c -> method good blame valid (buf_write a b c) s;
  law_buf_new s a : good s -> valid s a -> method good blame valid (buf_new a) s;
  law_buf_read s a b c : good s -> valid s a -> valid s b -> valid s c -> method good blame valid (buf_read a b c) s;
}.

(** A host whose methods never panic. *)
Definition no_blame {S : Type} (_ : S) : Prop := False.
Abbreviation ApiLaws S m := (ApiLawsUpTo S m no_blame).

(** ** Allocation through the interface *)

Section alloc.
Context {S : Type} `{!SystemApi S} {m : Module_} {blame : S -> Prop} `{!ApiLawsUpTo S m blame}.

Lemma extends_refl (s : S) : extends s s.
Proof using Type. intros v t Ht. exact Ht. Qed.

Lemma extends_trans (s1 s2 s3 : S) : extends s1 s2 -> extends s2 s3 -> extends s1 s3.
Proof using Type. unfold extends. auto. Qed.

Lemma extends_heap (s : S) h : good s -> heap_step (heap_state s) h -> extends s (with_heap h s).
Proof using Type.
  intros Hg Hst v t Ht. rewrite heap_lens. eapply repr_mono; [by apply heap_step_live|done].
Qed.

Lemma extends_valid (s s' : S) t : extends s s' -> valid s t -> valid s' t.
Proof using Type. intros He [v Hv]. exists v. by apply He. Qed.

Lemma extends_Forall (s s' : S) ts : extends s s' -> Forall (valid s) ts -> Forall (valid s') ts.
Proof using Type. intros He Hts. eapply Forall_impl; [exact Hts|]. intros t. by apply extends_valid. Qed.

(** One attempt on the current heap, then growth if it was full. *)
Lemma attempt_ok {E} (c : M HS E Term) (s : S) :
  good s -> makes c (heap_state s) ->
  let '(r, h) := c (heap_state s) in
  good (with_heap h s) /\ extends s (with_heap h s) /\
  match r with Ok t => valid (with_heap h s) t | Err _ => True | _ => False end.
Proof using Type.
  intros Hg Hm. unfold makes in Hm. destruct (c (heap_state s)) as [r h]. destruct Hm as [Hst Hr].
  split_and!; [by apply good_with_heap|by apply extends_heap|].
  destruct r; try done. unfold valid. by rewrite heap_lens.
Qed.

Lemma alloc_term_ok (c : HM Term) fuel : forall s,
  good s -> (forall s', good s' -> extends s s' -> makes c (heap_state s')) ->
  method good blame valid (alloc_term fuel c) s.
Proof using Type.
  induction fuel as [|fuel IH]; intros s Hg Hm; [split_and!; [done|apply extends_refl|done]|]. unfold method. cbn [alloc_term].
  pose proof (attempt_ok c s Hg (Hm s Hg (extends_refl s))) as Ha.
  destruct (c (heap_state s)) as [r h]. destruct Ha as (Hg1 & He1 & Hr).
  destruct r as [t|[]| |]; [by split_and!| |done|done].
  destruct (law_grow (with_heap h s) Hg1) as [Hg2 He2]. destruct (heap_grow (with_heap h s)) as [b s2].
  cbn [snd] in *. pose proof (extends_trans _ _ _ He1 He2) as He. destruct b; [|by split_and!].
  specialize (IH s2 Hg2). unfold method in IH. destruct (alloc_term fuel c s2) as [r s3].
  destruct IH as (Hg3 & He3 & Hr3); [|split_and!; [done|by eapply extends_trans|done]].
  intros s' Hs' Hext. apply Hm; [done|]. by eapply extends_trans.
Qed.

Lemma sorted_pairs_incl pairs p : p ∈ (sorted_pairs pairs).2 -> p ∈ pairs.
Proof using Type.
  unfold sorted_pairs. rewrite dedup_spec. cbn [snd]. rewrite elem_of_app. intros [Hp|Hp].
  - apply keep_all_incl in Hp. by rewrite sort_by_key_Permutation in Hp.
  - rewrite <- (sort_by_key_Permutation pairs), <- (take_drop (length (keep_all (sort_by_key pairs))) (sort_by_key pairs)).
    set_solver.
Qed.

Lemma alloc_map_ok fuel : forall pairs s,
  good s -> Forall (fun kv => valid s kv.1 /\ valid s kv.2) pairs -> method good blame valid (alloc_map fuel pairs) s.
Proof using Type.
  induction fuel as [|fuel IH]; intros pairs s Hg Hp; [split_and!; [done|apply extends_refl|done]|]. unfold method. cbn [alloc_map].
  pose proof (attempt_ok (map_from_pairs pairs) s Hg (makes_map_from_pairs pairs _ (good_heap _ Hg) Hp)) as Ha.
  destruct (map_from_pairs pairs (heap_state s)) as [r h]. destruct Ha as (Hg1 & He1 & Hr).
  destruct r as [t|[[]|]| |]; [by split_and!| |by split_and!|done|done].
  destruct (law_grow (with_heap h s) Hg1) as [Hg2 He2]. destruct (heap_grow (with_heap h s)) as [b s2].
  cbn [snd] in *. pose proof (extends_trans _ _ _ He1 He2) as He. destruct b; [|by split_and!].
  specialize (IH (sorted_pairs pairs).2 s2 Hg2). unfold method in IH.
  destruct (alloc_map fuel _ s2) as [r s3].
  destruct IH as (Hg3 & He3 & Hr3); [|split_and!; [done|by eapply extends_trans|done]].
  rewrite Forall_forall in *. intros kv Hkv%sorted_pairs_incl. destruct (Hp kv Hkv). eauto using extends_valid.
Qed.

Lemma put_map_ok fuel b k v : forall s,
  good s -> (exists ks vs, repr (live (heap_state s)) (VMap ks vs) b) -> valid s k -> valid s v ->
  method good blame valid (put_map fuel b k v) s.
Proof using Type.
  induction fuel as [|fuel IH]; intros s Hg (ks & vs & Hb) Hk Hv; [split_and!; [done|apply extends_refl|done]|]. unfold method. cbn [put_map].
  pose proof (attempt_ok (map_put b k v) s Hg (makes_map_put b k v _ _ _ (good_heap _ Hg) Hb Hk Hv)) as Ha.
  destruct (map_put b k v (heap_state s)) as [r h]. destruct Ha as (Hg1 & He1 & Hr).
  destruct r as [t|[[]|]| |]; [by split_and!| |by split_and!|done|done].
  destruct (law_grow (with_heap h s) Hg1) as [Hg2 He2]. destruct (heap_grow (with_heap h s)) as [bb s2].
  cbn [snd] in *. pose proof (extends_trans _ _ _ He1 He2) as He. destruct bb; [|by split_and!].
  specialize (IH s2 Hg2). unfold method in IH. destruct (put_map fuel b k v s2) as [r s3].
  destruct IH as (Hg3 & He3 & Hr3); [by exists ks, vs; apply He|by eapply extends_valid..|].
  split_and!; [done|by eapply extends_trans|done].
Qed.
End alloc.
