(* ===== verification/InterpRun.v ===== *)
(** * InterpRun: the invariant of a running frame, arm by arm

    [safe] is the interpreter's program logic: a computation that keeps the
    system state good, keeps every existing term's value, reports no [BadCode]
    and panics only where its host does.  Each arm of the opcode match is proved safe from the
    operands the verifier has checked, and to leave the program counter on the
    next instruction or on a jump target. *)

From S2P Require Import Prelude Term TermImm TermHeap TermVal TermCopy TermMap.
From S2P Require Import Bytecode BytecodeAnalysis Verify VerifySound Interp InterpSafe.

Section logic.
Context {S : Type} `{!SystemApi S} {m : Module_} {blame : S -> Prop} `{!ApiLawsUpTo S m blame} (f : Function).

Record inv (p : Z) (s : IS S) : Prop := {
  inv_code : fcode (fr s) = code f;
  inv_pc : pc (fr s) = p;
  inv_len : zlen (regs (fr s)) = nregs f;
  inv_regs : Forall (valid (api s)) (regs (fr s));
  inv_good : good (api s);
}.

Definition safe {A} (c : M (IS S) Trap A) (Q : A -> IS S -> Prop) (s : IS S) : Prop :=
  let '(r, s') := c s in good (api s') /\ extends (api s) (api s') /\ contained (blame (api s')) (fun x => Q x s') r.

Lemma safe_bind {A B} (c : M (IS S) Trap A) (k : A -> M (IS S) Trap B) Q s :
  safe c (fun x s1 => extends (api s) (api s1) -> safe (k x) Q s1) s -> safe (x ← c; k x) Q s.
Proof using Type.
  unfold safe, mbind, M_bind. destruct (c s) as [[x|e| |] s1]; try done.
  intros (Hg & He & Hk). specialize (Hk He). destruct (k x s1) as [r s2]. destruct Hk as (Hg2 & He2 & Hr).
  split_and!; [done|by eapply extends_trans|done].
Qed.

Lemma safe_ret {A} (x : A) Q s : good (api s) -> Q x s -> safe (mret x) Q s.
Proof using Type. intros. split_and!; [done|apply extends_refl|done]. Qed.

Lemma safe_throw {A} e (Q : A -> IS S -> Prop) s : good (api s) -> e <> BadCode -> safe (throw e) Q s.
Proof using Type. intros. split_and!; [done|apply extends_refl|done]. Qed.

Lemma safe_mono {A} (c : M (IS S) Trap A) (Q Q' : A -> IS S -> Prop) s :
  safe c Q s -> (forall x s', Q x s' -> Q' x s') -> safe c Q' s.
Proof using Type.
  unfold safe. destruct (c s) as [r s']. intros (Hg & He & Hr) Himp. split_and!; [done|done|].
  eapply contained_mono; [exact Hr|auto].
Qed.

Lemma safe_fail_if b e Q s :
  good (api s) -> e <> BadCode -> (b = false -> Q tt s) -> safe (fail_if b e) Q s.
Proof using Type. intros. destruct b; [by apply safe_throw|apply safe_ret; auto]. Qed.

Lemma safe_gets {A} (g : IS S -> A) Q s : good (api s) -> Q (g s) s -> safe (gets g) Q s.
Proof using Type. intros. split_and!; [done|apply extends_refl|done]. Qed.

Lemma safe_ok_or {A} (o : option A) e Q s :
  good (api s) -> e <> BadCode -> (forall x, o = Some x -> Q x s) -> safe (ok_or o e) Q s.
Proof using Type. intros. destruct o; [apply safe_ret; auto|by apply safe_throw]. Qed.

(** *** Decoding *)

Lemma inv_set_pc p q s : inv p s -> inv q (set_pc q s).
Proof using Type. intros []. by split. Qed.

Lemma safe_u8 p b Q s :
  inv p s -> lookupz (code f) p = Some b -> Q (b2z b) (set_pc (p + 1) s) -> safe fr_u8 Q s.
Proof using Type.
  intros [Hc Hp _ _ Hg] Hb HQ. unfold safe, fr_u8, mbind, M_bind, gets, ok_or, modify. rewrite Hc, Hp, Hb.
  split_and!; [done|apply extends_refl|done].
Qed.

Lemma safe_u32 p v Q s :
  inv p s -> u32_operand (code f) p = Some v -> Q v (set_pc (p + 4) s) -> safe fr_u32 Q s.
Proof using Type.
  intros [Hc Hp _ _ Hg] (x & Hx & ->)%fmap_Some HQ. unfold safe, fr_u32, mbind, M_bind, gets, ok_or, modify.
  rewrite Hc, Hp, Hx. split_and!; [done|apply extends_refl|done].
Qed.

Lemma safe_i32 p v Q s :
  inv p s -> u32_operand (code f) p = Some v -> Q (swrap 32 v) (set_pc (p + 4) s) -> safe fr_i32 Q s.
Proof using Type.
  intros Hi Hv HQ. apply safe_bind. eapply safe_u32; [done|done|]. intros _. apply safe_ret; [apply Hi|done].
Qed.

Lemma slice_ok {A} (l : list A) a b : 0 <= a -> a <= b -> b <= zlen l -> exists x, slice l a b = Some x.
Proof using Type. intros. unfold slice. rewrite bool_decide_true by lia. eauto. Qed.

Lemma safe_i64 p Q s :
  inv p s -> 0 <= p -> p + 8 <= zlen (code f) -> (forall v, Q v (set_pc (p + 8) s)) -> safe fr_i64 Q s.
Proof using Type.
  intros [Hc Hp _ _ Hg] H0 H8 HQ. unfold safe, fr_i64, mbind, M_bind, gets, ok_or, modify. rewrite Hc, Hp.
  destruct (slice_ok (code f) p (p + 8)) as [x ->]; [lia..|]. split_and!; [done|apply extends_refl|apply HQ].
Qed.

Lemma safe_bytes p n Q s :
  inv p s -> 0 <= p -> 0 <= n -> p + n <= zlen (code f) -> (forall v, Q v (set_pc (p + n) s)) -> safe (fr_bytes n) Q s.
Proof using Type.
  intros [Hc Hp _ _ Hg] H0 Hn H8 HQ. unfold safe, fr_bytes, mbind, M_bind, gets, ok_or, modify. rewrite Hc, Hp.
  destruct (slice_ok (code f) p (p + n)) as [x ->]; [lia..|]. split_and!; [done|apply extends_refl|apply HQ].
Qed.

(** *** Registers *)

Lemma safe_get p r Q s :
  inv p s -> 0 <= r < nregs f -> (forall t, valid (api s) t -> Q t s) -> safe (fr_get r) Q s.
Proof using Type.
  intros [_ _ Hl Hv Hg] Hr HQ. unfold safe, fr_get, mbind, M_bind, gets, ok_or.
  destruct (lookupz_is_Some (regs (fr s)) r) as [t Ht]; [lia|]. rewrite Ht.
  split_and!; [done|apply extends_refl|]. apply HQ. rewrite Forall_forall in Hv. apply Hv.
  apply lookupz_Some in Ht as [_ Ht]. by eapply list_elem_of_lookup_2.
Qed.

Lemma Forall_insertz {A} (P : A -> Prop) i x l : Forall P l -> P x -> Forall P (insertz i x l).
Proof using Type. intros. unfold insertz. case_bool_decide; [by apply Forall_insert|done]. Qed.

Lemma safe_set p r v Q s :
  inv p s -> 0 <= r < nregs f -> valid (api s) v ->
  (forall s', api s' = api s -> inv p s' -> Q tt s') -> safe (fr_set r v) Q s.
Proof using Type.
  intros Hi Hr Hv HQ. pose proof Hi as [Hc Hp Hl Hrv Hg]. unfold safe, fr_set, mbind, M_bind, gets, ok_or, modify.
  destruct (lookupz_is_Some (regs (fr s)) r) as [t ->]; [lia|]. cbn.
  split_and!; [done|apply extends_refl|]. apply HQ; [done|]. split; cbn; [done|done| |by apply Forall_insertz|done].
  by rewrite zlen_insertz.
Qed.

Lemma safe_get_int p r Q s :
  inv p s -> 0 <= r < nregs f -> (forall v, Q v s) -> safe (get_int r) Q s.
Proof using Type.
  intros Hi Hr HQ. apply safe_bind. eapply safe_get; [done|done|]. intros t _ _.
  apply safe_ok_or; [apply Hi|done|auto].
Qed.

(** The register bytes of an argument list. *)
Lemma safe_get_args n : forall p Q s,
  inv p s -> (forall j, p <= j < p + Z.of_nat n -> reg_at f j) ->
  (forall ts s', Forall (valid (api s)) ts -> zlen ts = Z.of_nat n -> api s' = api s ->
     inv (p + Z.of_nat n) s' -> Q ts s') ->
  safe (collect n (r ← fr_u8; fr_get r)) Q s.
Proof using Type.
  induction n as [|n IH]; intros p Q s Hi Hr HQ; cbn [collect].
  { apply safe_ret; [apply Hi|]. apply HQ; [constructor|done|done|]. by rewrite Z.add_0_r. }
  destruct (Hr p) as (b & Hb & Hlt); [lia|]. pose proof (b2z_range b).
  apply safe_bind, safe_bind. eapply safe_u8; [done|done|]. intros _.
  eapply safe_get; [by eapply inv_set_pc|lia|]. intros t Ht _.
  apply safe_bind. eapply IH; [by eapply inv_set_pc|intros j Hj; apply Hr; lia|].
  intros ts s' Hts Hl Ha Hi' _. apply safe_ret; [apply Hi'|].
  apply HQ; [by constructor|rewrite zlen_cons; lia|done|].
  by replace (p + Z.of_nat (Datatypes.S n)) with (p + 1 + Z.of_nat n) by lia.
Qed.

(** *** The system interface *)

Lemma inv_api p s a : inv p s -> good a -> extends (api s) a -> inv p {| fr := fr s; api := a |}.
Proof using Type.
  intros [Hc Hp Hl Hv Hg] Hga He. split; cbn; [done|done|done| |done]. by eapply extends_Forall.
Qed.

Lemma safe_api {A} p (c : M S Trap A) (R : S -> A -> Prop) Q s :
  inv p s -> method good blame R c (api s) ->
  (forall x s', inv p s' -> extends (api s) (api s') -> R (api s') x -> Q x s') -> safe (on_api c) Q s.
Proof using Type.
  intros Hi Hm HQ. unfold safe, on_api, method in *. destruct (c (api s)) as [r a]. destruct Hm as (Hg & He & Hr).
  cbn. split_and!; [done|done|]. eapply contained_mono; [exact Hr|]. intros x Hx.
  apply HQ; [by apply inv_api|done|done].
Qed.

Lemma safe_upd p (g : S -> S) Q s :
  inv p s -> update good g (api s) ->
  (forall s', inv p s' -> extends (api s) (api s') -> Q tt s') -> safe (upd_api g) Q s.
Proof using Type.
  intros Hi [Hg He] HQ. unfold safe, upd_api, modify. cbn. split_and!; [done|done|].
  apply HQ; [by apply inv_api|done].
Qed.

Lemma safe_upd_eq p (g : S -> S) Q s :
  inv p s -> update good g (api s) -> (forall s', inv p s' -> api s' = g (api s) -> Q tt s') -> safe (upd_api g) Q s.
Proof using Type.
  intros Hi [Hg He] HQ. unfold safe, upd_api, modify. cbn. split_and!; [done|done|]. apply HQ; [by apply inv_api|done].
Qed.

Lemma safe_mem {A} p (g : mem -> res Trap A) (R : A -> Prop) Q s :
  inv p s -> harmless R (g (hmem (heap_state (api s)))) ->
  (forall x, R x -> Q x s) -> safe (on_mem g) Q s.
Proof using Type.
  intros Hi Hg HQ. unfold safe, on_mem. split_and!; [apply Hi|apply extends_refl|].
  apply harmless_contained. eapply harmless_mono; [exact Hg|done].
Qed.
End logic.
