(* ===== verification/InterpArms.v ===== *)
(** * InterpArms: every arm of the interpreter is safe on verified operands *)

From S2P Require Import Prelude Term TermImm TermHeap TermVal TermCopy TermMap.
From S2P Require Import Bytecode BytecodeAnalysis Verify VerifySound Interp InterpSafe InterpRun.

Lemma imm_header x g : 1 <= g <= 6 -> imm_word (header x g).
Proof.
  intros Hg. split; [apply header_range; lia|]. unfold tag. rewrite header_tag; lia.
Qed.

Section arms.
Context {S : Type} `{!SystemApi S} (m : Module_) {blame : S -> Prop} `{!ApiLawsUpTo S m blame} (f : Function).

(** After an instruction: control is at one of [nx], or a valid term or (when
    [sent] explains it) the tail sentinel is returned, with its target stashed. *)
Definition arm_post (nx : Z -> Prop) (sent : Prop) (o : outcome) (s : IS S) : Prop :=
  match o with
  | Next => exists p, nx p /\ inv f p s
  | Return t => (valid (api s) t \/ (t = TAIL_SENTINEL /\ sent /\ stashed (api s)))
  end.

Lemma valid_int (s : S) v : valid s (term_int v).
Proof using Type. apply valid_imm. rewrite term_int_header. by apply imm_header. Qed.
Lemma valid_atom (s : S) v : valid s (term_atom v).
Proof using Type. apply valid_imm. by apply imm_header. Qed.
Lemma valid_pid (s : S) v : valid s (term_pid v).
Proof using Type. apply valid_imm. by apply imm_header. Qed.
Lemma valid_nil (s : S) : valid s NIL.
Proof using Type. apply valid_imm. by vm_compute. Qed.

(** The sentinel's tag is no term's. *)
Lemma sentinel_invalid (s : S) : ~ valid s TAIL_SENTINEL.
Proof using Type.
  intros [u Hu%repr_header].
  destruct (vheader u) as [[??]|]; [destruct Hu as [(_&Htag&_) _]|destruct Hu as [_ [_ Htag]]];
    revert Htag; vm_compute; intuition congruence.
Qed.

(** Destructure the operands of an instruction. *)
Ltac flat := repeat match goal with
  | |- context [api (set_pc ?p ?x)] => change (api (set_pc p x)) with (api x)
  | H : context [api (set_pc ?p ?x)] |- _ => change (api (set_pc p x)) with (api x) in H
  end.

Ltac operands H :=
  cbn [items_ok item_ok] in H; unfold reg_at in H;
  repeat match goal with
    | H : exists _, _ |- _ => destruct H
    | H : _ /\ _ |- _ => destruct H
    end; subst.

Ltac sinv := first [eassumption | eapply inv_set_pc; sinv].
Ltac rng := first [assumption | split; [apply b2z_range|assumption]].
Ltac sval := first
  [ assumption | apply valid_int | apply valid_atom | apply valid_pid | apply valid_nil
  | eapply extends_valid; [eassumption|sval]
  | eapply extends_Forall; [eassumption|sval] ].
Ltac sgood := first [apply inv_good; sinv | match goal with H : inv _ ?p ?s |- good _ => exact (inv_good _ _ _ H) end].

Ltac u8 := apply safe_bind; eapply safe_u8; [sinv|eassumption|]; intros _.
Ltac u32 := apply safe_bind; eapply safe_u32; [sinv|eassumption|]; intros _.
Ltac i32 := apply safe_bind; eapply safe_i32; [sinv|eassumption|]; intros _.
Ltac getr t Ht := apply safe_bind; eapply safe_get; [sinv|rng|]; intros t Ht _.
Ltac geti v := apply safe_bind; eapply safe_get_int; [sinv|rng|]; intros v _.
Ltac apic Hlaw x s' Hi He Hx := apply safe_bind; eapply safe_api; [sinv|eapply Hlaw; [sgood|..]; try sval; try eassumption|];
  intros x s' Hi He Hx _.
Ltac fin := apply safe_ret; [sgood|]; eexists; split; [reflexivity|sinv].
Ltac setn := apply safe_bind; eapply safe_set; [sinv|rng|sval|];
  let s' := fresh "s'" in intros s' ? ? _; fin.

Context (s : IS S) (a : Z).

Lemma arm_load_int e :
  items_ok m f [IReg; IRaw 8] a e -> 0 <= a -> inv f a s -> safe i_load_int (arm_post (eq e) False) s.
Proof using Type.
  intros H Ha Hi. operands H. unfold i_load_int. u8.
  apply safe_bind. eapply safe_i64; [sinv|lia|done|]. intros v _. setn.
Qed.

Lemma arm_load_atom e :
  items_ok m f [IReg; IAtom] a e -> inv f a s -> safe i_load_atom (arm_post (eq e) False) s.
Proof using Type.
  intros H Hi. operands H. unfold i_load_atom. u8. u32. apic law_atom g s' Hi' He Hg. setn.
Qed.

Lemma arm_load_nil e :
  items_ok m f [IReg] a e -> inv f a s -> safe i_load_nil (arm_post (eq e) False) s.
Proof using Type. intros H Hi. operands H. unfold i_load_nil. u8. setn. Qed.

Lemma arm_move e :
  items_ok m f [IReg; IReg] a e -> inv f a s -> safe i_move (arm_post (eq e) False) s.
Proof using Type. intros H Hi. operands H. unfold i_move. u8. u8. getr t Ht. setn. Qed.

Lemma arm_self_pid e :
  items_ok m f [IReg] a e -> inv f a s -> safe i_self_pid (arm_post (eq e) False) s.
Proof using Type.
  intros H Hi. operands H. unfold i_self_pid. u8. apply safe_bind, safe_gets; [sgood|]. intros _. setn.
Qed.

Lemma arm_ticks e :
  items_ok m f [IReg] a e -> inv f a s -> safe i_ticks (arm_post (eq e) False) s.
Proof using Type.
  intros H Hi. operands H. unfold i_ticks. u8. apply safe_bind, safe_gets; [sgood|]. intros _.
  pose proof (law_ticks _ (inv_good _ _ _ Hi)). setn.
Qed.

(** A constructor on the current heap, whatever growth happened before it. *)
Ltac mk := apply safe_bind; eapply safe_api; [sinv|apply alloc_term_ok; [sgood|]|];
  [let s1 := fresh "s1" in let Hg1 := fresh "Hg1" in let He1 := fresh "He1" in intros s1 Hg1 He1|
   let t := fresh "t" in let s' := fresh "s'" in intros t s' ? ? ? _].
(** The memory reads of an arm. *)
Ltac memr R := apply safe_bind; eapply (safe_mem _ _ _ R); [sinv| |].

(** An argument list whose registers the verifier has checked. *)
Ltac args ts s1 Hts Hi1 :=
  match goal with
  | Hr : forall j, _ <= j < _ + b2z ?b -> _ |- _ =>
      let Hj := fresh in let Hl := fresh in let Ha := fresh in let Hv := fresh in
      apply safe_bind; eapply safe_get_args; [sinv| |];
      [intros ? Hj; rewrite Z2Nat.id in Hj by apply b2z_range; apply Hr; lia|];
      intros ts s1 Hv Hl Ha Hi1 _; rewrite Z2Nat.id in Hi1 by apply b2z_range;
      assert (Forall (valid (api s1)) ts) as Hts by (rewrite Ha; exact Hv);
      assert (extends (api s) (api s1)) by (rewrite Ha; apply extends_refl)
  end.

Lemma arm_make_tuple fuel e :
  items_ok m f [IReg; IRegs] a e -> inv f a s -> safe (i_make_tuple fuel) (arm_post (eq e) False) s.
Proof using Type.
  intros H Hi. operands H. unfold i_make_tuple. u8. u8. args ts s1 Hts1 Hi1.
  mk; [apply makes_tuple; [by apply good_heap|]|setn].
  exact (extends_Forall _ _ _ He1 Hts1).
Qed.

Lemma arm_get_elem e :
  items_ok m f [IReg; IReg; IRaw 1] a e -> inv f a s -> 0 <= a -> safe i_get_elem (arm_post (eq e) False) s.
Proof using Type.
  intros H Hi Ha. operands H. unfold i_get_elem. u8. u8.
  destruct (lookupz_is_Some (code f) (a + 1 + 1)) as [b Hb]; [lia|]. pose proof (b2z_range b).
  u8. getr t Ht. memr (valid (api s)); [|intros v Hv _; setn].
  destruct (valid_kind _ t Ht) as (v & k & Hr & Hk & Hkv). flat. rewrite Hk. cbn [mbind res_bind].
  case_bool_decide; [|done]. subst k. destruct Hkv as [vs ->].
  destruct (tuple_elem_valid _ vs t (b2z b) Hr) as [-> Hel]. cbn [mbind res_bind negb].
  case_bool_decide; [done|]. destruct Hel as (xv & -> & Hxv); [lia|]. exact Hxv.
Qed.

Lemma arm_cons fuel e :
  items_ok m f [IReg; IReg; IReg] a e -> inv f a s -> safe (i_cons fuel) (arm_post (eq e) False) s.
Proof using Type.
  intros H Hi. operands H. unfold i_cons. u8. u8. u8. getr h Hh. getr t Ht.
  mk; [apply makes_cons; [by apply good_heap|eapply extends_valid; eassumption..]|setn].
Qed.

Lemma arm_head_tail o e :
  items_ok m f [IReg; IReg] a e -> inv f a s -> safe (i_head_tail o) (arm_post (eq e) False) s.
Proof using Type.
  intros H Hi. operands H. unfold i_head_tail. u8. u8. getr t Ht.
  memr (valid (api s)); [|intros v Hv _; setn].
  destruct (valid_kind _ t Ht) as (v & k & Hr & Hk & Hkv). flat. rewrite Hk. cbn [mbind res_bind].
  case_bool_decide; [|done]. subst k. destruct Hkv as (h & tl & ->).
  destruct (cons_valid _ h tl t Hr) as (xv & y & -> & -> & Hx & Hy). cbn [negb].
  case_bool_decide; [exact Hx|by exists tl].
Qed.

Lemma arm_arith o e :
  items_ok m f [IReg; IReg; IReg] a e -> inv f a s -> safe (i_arith o) (arm_post (eq e) False) s.
Proof using Type.
  intros H Hi. operands H. unfold i_arith. u8. u8. u8. geti xv. geti y.
  apply safe_bind, safe_ok_or; [sgood|done|]. intros v _ _. setn.
Qed.

Lemma arm_cmp_eq fuel e :
  items_ok m f [IReg; IReg; IReg] a e -> inv f a s -> safe (i_cmp_eq fuel) (arm_post (eq e) False) s.
Proof using Type.
  intros H Hi. operands H. unfold i_cmp_eq. u8. u8. u8. getr xv Hx. getr y Hy.
  memr (fun _ : bool => True); [by apply eq_term_harmless|intros v _ _]. setn.
Qed.

Lemma arm_cmp_lt e :
  items_ok m f [IReg; IReg; IReg] a e -> inv f a s -> safe i_cmp_lt (arm_post (eq e) False) s.
Proof using Type. intros H Hi. operands H. unfold i_cmp_lt. u8. u8. u8. geti xv. geti y. setn. Qed.

Lemma arm_bitop o e :
  items_ok m f [IReg; IReg; IReg] a e -> inv f a s -> safe (i_bitop o) (arm_post (eq e) False) s.
Proof using Type. intros H Hi. operands H. unfold i_bitop. u8. u8. u8. geti xv. geti y. setn. Qed.

Lemma arm_shift o e :
  items_ok m f [IReg; IReg; IReg] a e -> inv f a s -> safe (i_shift o) (arm_post (eq e) False) s.
Proof using Type.
  intros H Hi. operands H. unfold i_shift. u8. u8. u8. geti xv. geti y.
  apply safe_bind, safe_fail_if; [sgood|done|]. intros _ _. setn.
Qed.

Lemma arm_bnot e :
  items_ok m f [IReg; IReg] a e -> inv f a s -> safe i_bnot (arm_post (eq e) False) s.
Proof using Type. intros H Hi. operands H. unfold i_bnot. u8. u8. geti xv. setn. Qed.

(** *** Control *)

Lemma safe_jump off p t (s0 : IS S) :
  inv f p s0 -> t = p + off -> 0 <= t <= zlen (code f) -> forall Q : unit -> IS S -> Prop,
  (forall s', inv f t s' -> extends (api s0) (api s') -> Q tt s') -> safe (jump off) Q s0.
Proof using Type.
  intros Hi -> Ht Q HQ. unfold jump. apply safe_bind.
  assert (forall s1, inv f p s1 -> extends (api s0) (api s1) -> safe (
    f0 ← gets fr; _ ← fail_if (bool_decide (pc f0 + off < 0) || bool_decide (pc f0 + off > zlen (fcode f0))) BadCode;
    modify (set_pc (pc f0 + off))) Q s1) as Hrest.
  { intros s1 Hi1 He1. apply safe_bind, safe_gets; [sgood|]. intros _.
    pose proof Hi1 as [Hc Hp _ _ _]. rewrite Hc, Hp. rewrite !bool_decide_false by lia. cbn [orb fail_if].
    apply safe_bind, safe_ret; [sgood|]. intros _. unfold safe, modify. split_and!; [exact (inv_good _ _ _ Hi1)| |].
    - apply extends_refl.
    - apply HQ; [by eapply inv_set_pc|exact He1]. }
  case_bool_decide.
  - eapply safe_upd; [exact Hi|apply law_safepoint; sgood|]. intros s' Hi' He' _. by apply Hrest.
  - apply safe_ret; [sgood|]. intros _. apply Hrest; [done|apply extends_refl].
Qed.

Lemma arm_jmp e :
  items_ok m f [IJump] a e -> inv f a s ->
  (forall t, jumps m f [IJump] a t -> 0 <= t <= zlen (code f)) ->
  safe i_jmp (arm_post (jumps m f [IJump] a) False) s.
Proof using Type.
  intros H Hi Hj. pose proof H as (a' & [[v Hv] ->] & ->). unfold i_jmp. i32.
  assert (jumps m f [IJump] a (a + 4 + swrap 32 v)) as Ht.
  { cbn [jumps item_ok]. exists (a + 4). split; [by split; [eexists|]|]. left. split; [done|]. by exists v. }
  apply safe_bind. eapply safe_jump; [sinv|reflexivity|by apply Hj|]. intros s' Hi' _ _.
  apply safe_ret; [sgood|]. by eexists.
Qed.

Lemma arm_jmp_if e :
  items_ok m f [IReg; IJump] a e -> inv f a s ->
  (forall t, jumps m f [IReg; IJump] a t -> 0 <= t <= zlen (code f)) ->
  safe i_jmp_if (arm_post (fun p => p = e \/ jumps m f [IReg; IJump] a p) False) s.
Proof using Type.
  intros H Hi Hj. pose proof H as (a1 & [(b & Hb & Hlt) ->] & a' & [[v Hv] ->] & ->). unfold i_jmp_if. u8. i32.
  assert (jumps m f [IReg; IJump] a (a + 1 + 4 + swrap 32 v)) as Ht.
  { cbn [jumps item_ok]. exists (a + 1). split; [split; [by exists b|done]|]. right.
    exists (a + 1 + 4). split; [by split; [eexists|]|]. left. split; [done|]. by exists v. }
  geti c. apply safe_bind. destruct (negb _).
  - eapply safe_jump; [sinv|reflexivity|by apply Hj|]. intros s' Hi' _ _.
    apply safe_ret; [sgood|]. eexists. split; [by right|done].
  - apply safe_ret; [sgood|]. intros _. apply safe_ret; [sgood|]. eexists. split; [by left|sinv].
Qed.

Lemma arm_call (call : Z -> list Term -> M S Trap Term) e :
  items_ok m f [IReg; ICall] a e -> inv f a s ->
  (forall idx g args (s' : S), lookupz (functions m) idx = Some g -> arity g = zlen args ->
     good s' -> Forall (valid s') args ->
     method good blame (fun s2 t => valid s2 t \/ (t = TAIL_SENTINEL /\ returner m idx /\ stashed s2)) (call idx args) s') ->
  safe (i_call call) (arm_post (eq e) (exists v, u32_operand (code f) (a + 1) = Some v /\ returner m v)) s.
Proof using Type.
  intros H Hi Hcall.
  pose proof H as (a1 & [(b1 & Hb1 & Hlt) ->] & a' & (v & g & b & Hv & Hg & Hb & Har & -> & Hregs) & ->).
  unfold i_call. u8. u32. u8. apply safe_bind.
  eapply safe_get_args; [sinv|intros j Hj; rewrite Z2Nat.id in Hj by apply b2z_range; apply Hregs; lia|].
  intros ts s1 Hts Hl Ha Hi1 _. rewrite Z2Nat.id in Hi1, Hl by apply b2z_range.
  apply safe_bind. eapply safe_upd; [exact Hi1|apply law_safepoint; sgood|]. intros s2 Hi2 He2 _.
  apply safe_bind. eapply safe_api; [exact Hi2|eapply (Hcall v g ts); [done|lia|sgood|]|].
  { eapply extends_Forall; [exact He2|]. rewrite Ha. exact Hts. }
  intros t s3 Hi3 He3 Ht _. case_bool_decide as Hs.
  - apply safe_ret; [sgood|]. right. split; [done|]. destruct Ht as [Ht|(_ & ? & ?)]; [|split; [by exists v|done]].
    subst t. by apply sentinel_invalid in Ht.
  - destruct Ht as [Ht|[-> _]]; [|done].
    replace (a + 1 + 4 + 1 + b2z b) with (a + 1 + 5 + b2z b) in Hi3 by lia. setn.
Qed.

Lemma arm_ret e :
  items_ok m f [IReg] a e -> inv f a s -> safe i_ret (arm_post (fun _ => False) False) s.
Proof using Type. intros H Hi. operands H. unfold i_ret. u8. getr t Ht. apply safe_ret; [sgood|]. by left. Qed.

Lemma arm_spawn e : uses m op.SPAWN ->
  items_ok m f [IReg; ISpawn; IReg] a e -> inv f a s -> safe i_spawn (arm_post (eq e) False) s.
Proof using Type.
  intros Hu H Hi. operands H. unfold i_spawn. u8. u32. u8. getr t Ht.
  apply safe_bind, safe_fail_if; [sgood|done|]. intros _ _. apic (fun s i g t => law_spawn s i g t Hu) p s' Hi' He Hp. setn.
Qed.

Lemma arm_send e :
  items_ok m f [IReg; IReg] a e -> inv f a s -> safe i_send (arm_post (eq e) False) s.
Proof using Type.
  intros H Hi. operands H. unfold i_send. u8. u8. getr t Ht. getr u Hu. apic law_send x3 s' Hi' He Hx. fin.
Qed.

Lemma arm_recv e : uses m op.RECV ->
  items_ok m f [IReg] a e -> inv f a s -> safe i_recv (arm_post (eq e) False) s.
Proof using Type. intros Hu H Hi. operands H. unfold i_recv. u8. apic (fun s => law_recv s Hu) v s' Hi' He Hv. setn. Qed.

Lemma arm_print e :
  items_ok m f [IReg] a e -> inv f a s -> safe i_print (arm_post (eq e) False) s.
Proof using Type.
  intros H Hi. operands H. unfold i_print. u8. getr t Ht. apply safe_bind.
  eapply safe_upd; [sinv|apply law_print; [sgood|exact Ht]|]. intros s' Hi' He _. fin.
Qed.

Lemma arm_exit_atom e :
  items_ok m f [IReg] a e -> inv f a s -> safe i_exit_atom (arm_post (fun _ => False) False) s.
Proof using Type.
  intros H Hi. operands H. unfold i_exit_atom. u8. getr t Ht. apply safe_bind, safe_ok_or; [sgood|done|].
  intros v _ _. by apply safe_throw; [sgood|].
Qed.

Lemma arm_port_open e :
  items_ok m f [IReg; IRaw 1] a e -> inv f a s -> 0 <= a -> safe i_port_open (arm_post (eq e) False) s.
Proof using Type.
  intros H Hi Ha. operands H. unfold i_port_open. u8.
  destruct (lookupz_is_Some (code f) (a + 1)) as [b Hb]; [lia|]. u8. apic law_port_open p s' Hi' He Hp. setn.
Qed.

Lemma arm_port_submit e :
  items_ok m f [IReg; IRaw 1; IReg; IReg] a e -> inv f a s -> 0 <= a -> safe i_port_submit (arm_post (eq e) False) s.
Proof using Type.
  intros H Hi Ha. operands H. unfold i_port_submit. u8.
  destruct (lookupz_is_Some (code f) (a + 1)) as [b Hb]; [lia|]. u8. u8. u8. getr t Ht. getr u Hu. getr w Hw.
  apic law_port_submit p s' Hi' He Hp. fin.
Qed.

Lemma arm_port_submit2 e :
  items_ok m f [IReg; IReg; IReg; IReg; IReg] a e -> inv f a s -> safe i_port_submit2 (arm_post (eq e) False) s.
Proof using Type.
  intros H Hi. operands H. unfold i_port_submit2. u8. u8. u8. u8. u8.
  getr t Ht. getr u Hu. getr w Hw. getr y Hy. getr z Hz. apic law_port_submit2 p s' Hi' He Hp. fin.
Qed.

Lemma arm_buf_write e :
  items_ok m f [IReg; IReg; IReg; IReg] a e -> inv f a s -> safe i_buf_write (arm_post (eq e) False) s.
Proof using Type.
  intros H Hi. operands H. unfold i_buf_write. u8. u8. u8. u8. getr t Ht. getr u Hu. getr w Hw.
  apic law_buf_write p s' Hi' He Hp. setn.
Qed.

Lemma arm_buf_read e :
  items_ok m f [IReg; IReg; IReg; IReg] a e -> inv f a s -> safe i_buf_read (arm_post (eq e) False) s.
Proof using Type.
  intros H Hi. operands H. unfold i_buf_read. u8. u8. u8. u8. getr t Ht. getr u Hu. getr w Hw.
  apic law_buf_read p s' Hi' He Hp. setn.
Qed.

Lemma arm_buf_new e :
  items_ok m f [IReg; IReg] a e -> inv f a s -> safe i_buf_new (arm_post (eq e) False) s.
Proof using Type.
  intros H Hi. operands H. unfold i_buf_new. u8. u8. getr t Ht. apic law_buf_new p s' Hi' He Hp. setn.
Qed.

Lemma arm_sleep_ms e :
  items_ok m f [IReg] a e -> inv f a s -> safe i_sleep_ms (arm_post (eq e) False) s.
Proof using Type.
  intros H Hi. operands H. unfold i_sleep_ms. u8. geti ms. apply safe_bind, safe_fail_if; [sgood|done|]. intros _ _.
  apply safe_bind. eapply safe_upd; [sinv|apply law_safepoint; sgood|]. intros s1 Hi1 He1 _.
  apply safe_bind. eapply safe_upd; [exact Hi1|apply law_sleep; sgood|]. intros s2 Hi2 He2 _. fin.
Qed.

Lemma arm_tail_call e :
  items_ok m f [ICall] a e -> inv f a s -> safe i_tail_call (arm_post (fun _ => False) True) s.
Proof using Type.
  intros H Hi. pose proof H as (a' & (v & g & b & Hv & Hg & Hb & Har & -> & Hregs) & ->).
  unfold i_tail_call. u32. u8. apply safe_bind.
  eapply safe_get_args; [sinv|intros j Hj; rewrite Z2Nat.id in Hj by apply b2z_range; apply Hregs; lia|].
  intros ts s1 Hts Hl Ha Hi1 _. apply safe_bind.
  eapply safe_upd; [exact Hi1|apply law_safepoint; sgood|]. intros s2 Hi2 He2 _. apply safe_bind.
  destruct (law_tail_call_local (api s2) v g ts) as [Hup Hst]; [sgood| |done|rewrite Har, Hl, Z2Nat.id by apply b2z_range; done|].
  { eapply extends_Forall; [exact He2|]. rewrite Ha. exact Hts. }
  eapply safe_upd_eq; [exact Hi2|exact Hup|].
  intros s3 Hi3 Heq _. apply safe_ret; [sgood|]. right. rewrite Heq. done.
Qed.

Lemma arm_tail_call_ext e :
  items_ok m f [IAtom; IAtom; IRegs] a e -> inv f a s -> safe i_tail_call_ext (arm_post (fun _ => False) True) s.
Proof using Type.
  intros H Hi. operands H. unfold i_tail_call_ext. u32. u32. u8. args ts s1 Hts Hi1.
  apic law_atom mg s2 Hi2 He2 Hm. apic law_atom fg s3 Hi3 He3 Hf. apply safe_bind.
  eapply safe_upd; [exact Hi3|apply law_safepoint; sgood|]. intros s4 Hi4 He4 _. apply safe_bind.
  destruct (law_tail_call (api s4) mg fg ts) as [Hup Hst]; [sgood|..].
  { eapply extends_Forall; [exact He4|]. eapply extends_Forall; [exact He3|]. by eapply extends_Forall. }
  eapply safe_upd_eq; [exact Hi4|exact Hup|].
  intros s5 Hi5 Heq _. apply safe_ret; [sgood|]. right. rewrite Heq. done.
Qed.

Lemma arm_call_ext e :
  items_ok m f [IReg; IAtom; IAtom; IRegs] a e -> inv f a s -> safe i_call_ext (arm_post (eq e) False) s.
Proof using Type.
  intros H Hi. operands H. unfold i_call_ext. u8. u32. u32. u8. args ts s1 Hts Hi1.
  apic law_atom mg s2 Hi2 He2 Hm. apic law_atom fg s3 Hi3 He3 Hf. apply safe_bind.
  eapply safe_upd; [exact Hi3|apply law_safepoint; sgood|]. intros s4 Hi4 He4 _. apply safe_bind.
  eapply safe_api; [exact Hi4|apply law_call_ext; [sgood|]|].
  { eapply extends_Forall; [exact He4|]. eapply extends_Forall; [exact He3|]. by eapply extends_Forall. }
  intros v s5 Hi5 He5 Hv _. setn.
Qed.

(** *** Binaries and lists *)

(** A term that passed [is_boxed() && kind() == want]. *)
Lemma kind_checked t want b :
  valid (api s) t -> boxed_kind_is (hmem (heap_state (api s))) t want = Ok b -> b = true ->
  exists v, repr (live (heap_state (api s))) v t /\
  match want with
  | KTuple => exists vs, v = VTuple vs | KCons => exists h tl, v = VCons h tl
  | KBinary => exists bs, v = VBin bs | KMap => exists ks vs, v = VMap ks vs
  | _ => v = VImm t
  end.
Proof using Type.
  intros Ht Hb ->. destruct (boxed_kind_is_ok _ t want Ht) as (b & Hb' & Hk). rewrite Hb in Hb'.
  injection Hb' as <-. specialize (Hk eq_refl). destruct (valid_kind _ t Ht) as (v & k & Hr & Hk' & Hkv).
  rewrite Hk in Hk'. injection Hk' as <-. eauto.
Qed.

Lemma arm_bin_new fuel e :
  items_ok m f [IReg; IBytes] a e -> inv f a s -> 0 <= a -> safe (i_bin_new fuel) (arm_post (eq e) False) s.
Proof using Type.
  intros H Hi Ha. pose proof H as (a1 & [(b1 & Hb1 & Hlt) ->] & a' & (v & Hv & -> & Hle) & ->).
  unfold i_bin_new. u8. u32. pose proof (u32_operand_bound _ _ _ Hv).
  apply safe_bind. eapply safe_bytes; [sinv|lia|lia|lia|]. intros bs _.
  mk; [apply makes_binary; by apply good_heap|setn].
Qed.

Lemma arm_bin_from_list fuel e :
  items_ok m f [IReg; IReg] a e -> inv f a s -> safe (i_bin_from_list fuel) (arm_post (eq e) False) s.
Proof using Type.
  intros H Hi. operands H. unfold i_bin_from_list. u8. u8. getr t Ht.
  memr (fun _ : list byte * Term => True); [by apply list_bytes_harmless|]. intros [bs last] _ _.
  apply safe_bind, safe_fail_if; [sgood|done|]. intros _ _. mk; [apply makes_binary; by apply good_heap|setn].
Qed.

Lemma arm_bin_to_list fuel e :
  items_ok m f [IReg; IReg] a e -> inv f a s -> safe (i_bin_to_list fuel) (arm_post (eq e) False) s.
Proof using Type.
  intros H Hi. operands H. unfold i_bin_to_list. u8. u8. getr t Ht.
  memr (fun es => exists bs, es = map (fun b => term_int (b2z b)) bs).
  - destruct (valid_kind _ t Ht) as (v & k & Hr & Hk & Hkv). flat. rewrite Hk. cbn [mbind res_bind].
    case_bool_decide; [|done]. subst k. destruct Hkv as [bs ->]. rewrite (bin_valid _ bs t Hr). by exists bs.
  - intros es [bs ->] _. mk; [|setn]. apply makes_cons_all; [by apply good_heap| |apply valid_nil].
    apply Forall_forall. intros x3 Hx. apply list_elem_of_In, in_rev, in_map_iff in Hx as (b & <- & _). apply valid_int.
Qed.

Lemma arm_bin_size e :
  items_ok m f [IReg; IReg] a e -> inv f a s -> safe i_bin_size (arm_post (eq e) False) s.
Proof using Type.
  intros H Hi. operands H. unfold i_bin_size. u8. u8. getr t Ht.
  memr (fun _ : Z => True); [|intros n _ _; setn].
  destruct (valid_kind _ t Ht) as (v & k & Hr & Hk & Hkv). flat. rewrite Hk. cbn [mbind res_bind].
  case_bool_decide; [|done]. subst k. destruct Hkv as [bs ->]. by rewrite (bin_valid _ bs t Hr).
Qed.

Lemma arm_buf_to_bin e :
  items_ok m f [IReg; IReg] a e -> inv f a s -> safe i_buf_to_bin (arm_post (eq e) False) s.
Proof using Type.
  intros H Hi. operands H. unfold i_buf_to_bin. u8. u8. geti i. apic law_buf_to_bin v s' Hi' He Hv. setn.
Qed.

Lemma arm_bin_to_buf e :
  items_ok m f [IReg; IReg] a e -> inv f a s -> safe i_bin_to_buf (arm_post (eq e) False) s.
Proof using Type.
  intros H Hi. operands H. unfold i_bin_to_buf. u8. u8. getr t Ht. apic law_bin_to_buf v s' Hi' He Hv. setn.
Qed.

Lemma arm_is_binary e :
  items_ok m f [IReg; IReg] a e -> inv f a s -> safe i_is_binary (arm_post (eq e) False) s.
Proof using Type.
  intros H Hi. operands H. unfold i_is_binary. u8. u8. getr t Ht.
  memr (fun _ : bool => True); [|intros n _ _; setn].
  destruct (boxed_kind_is_ok _ t KBinary Ht) as (b & Hb & _). flat. by rewrite Hb.
Qed.

Lemma arm_bin_cat fuel e :
  items_ok m f [IReg; IReg; IReg] a e -> inv f a s -> safe (i_bin_cat fuel) (arm_post (eq e) False) s.
Proof using Type.
  intros H Hi. operands H. unfold i_bin_cat. u8. u8. u8. getr t Ht. getr u Hu.
  memr (fun _ : list byte => True); [|intros bs _ _; mk; [apply makes_binary; by apply good_heap|setn]].
  flat. destruct (boxed_kind_is_ok _ t KBinary Ht) as ([] & Hb & _); rewrite Hb; [|done].
  destruct (boxed_kind_is_ok _ u KBinary Hu) as ([] & Hb2 & _); cbn [mbind res_bind negb]; rewrite Hb2; [|done].
  destruct (kind_checked t KBinary true Ht Hb eq_refl) as (v & Hr & bs & ->).
  destruct (kind_checked u KBinary true Hu Hb2 eq_refl) as (v2 & Hr2 & bs2 & ->).
  cbn [mbind res_bind negb]. rewrite (bin_valid _ bs t Hr), (bin_valid _ bs2 u Hr2). done.
Qed.

Lemma arm_list_cat fuel e :
  items_ok m f [IReg; IReg; IReg] a e -> inv f a s -> safe (i_list_cat fuel) (arm_post (eq e) False) s.
Proof using Type.
  intros H Hi. operands H. unfold i_list_cat. u8. u8. u8. getr t Ht. getr u Hu.
  memr (fun p : list Term * Term => Forall (valid (api s)) p.1); [by apply list_elems_harmless|].
  intros [es last] Hes _. apply safe_bind, safe_fail_if; [sgood|done|]. intros _ _. mk; [|setn].
  apply makes_cons_all; [by apply good_heap| |by eapply extends_valid].
  apply Forall_rev. eapply extends_Forall; [exact He1|exact Hes].
Qed.

Lemma arm_bin_at e :
  items_ok m f [IReg; IReg; IReg] a e -> inv f a s -> safe i_bin_at (arm_post (eq e) False) s.
Proof using Type.
  intros H Hi. operands H. unfold i_bin_at. u8. u8. u8. getr t Ht. geti i.
  memr (fun _ : byte => True); [|intros n _ _; setn]. flat.
  destruct (boxed_kind_is_ok _ t KBinary Ht) as ([] & Hb & _); rewrite Hb; [|done].
  destruct (kind_checked t KBinary true Ht Hb eq_refl) as (v & Hr & bs & ->). cbn [mbind res_bind negb orb].
  case_bool_decide; [done|]. rewrite (bin_valid _ bs t Hr). cbn [mbind res_bind]. case_bool_decide; [done|].
  destruct (lookupz_is_Some bs i) as [b ->]; [lia|done].
Qed.

Lemma arm_bin_part fuel e :
  items_ok m f [IReg; IReg; IReg; IReg] a e -> inv f a s -> safe (i_bin_part fuel) (arm_post (eq e) False) s.
Proof using Type.
  intros H Hi. operands H. unfold i_bin_part. u8. u8. u8. u8. getr t Ht. geti off. geti len.
  memr (fun _ : list byte => True); [|intros bs _ _; mk; [apply makes_binary; by apply good_heap|setn]].
  flat. destruct (boxed_kind_is_ok _ t KBinary Ht) as ([] & Hb & _); rewrite Hb; [|done].
  destruct (kind_checked t KBinary true Ht Hb eq_refl) as (v & Hr & bs & ->). cbn [mbind res_bind negb orb].
  do 2 (case_bool_decide; [done|]). rewrite (bin_valid _ bs t Hr). cbn [mbind res_bind orb]. case_bool_decide; [done|].
  destruct (slice_ok bs off (off + len)) as [b ->]; [lia..|done].
Qed.

(** *** Maps *)

Lemma safe_get_pairs n : forall p Q (s : IS S),
  inv f p s -> (forall j, p <= j < p + 2 * Z.of_nat n -> reg_at f j) ->
  (forall kvs s', Forall (fun kv => valid (api s) kv.1 /\ valid (api s) kv.2) kvs -> api s' = api s ->
     inv f (p + 2 * Z.of_nat n) s' -> Q kvs s') ->
  safe (collect n (rk ← fr_u8; rv ← fr_u8; k ← fr_get rk; v ← fr_get rv; mret (k, v))) Q s.
Proof using Type.
  clear s. induction n as [|n IH]; intros p Q s Hi Hr HQ; cbn [collect].
  { apply safe_ret; [sgood|]. apply HQ; [constructor|done|]. by rewrite Z.mul_0_r, Z.add_0_r. }
  destruct (Hr p) as (b & Hb & Hlt); [lia|]. destruct (Hr (p + 1)) as (b2 & Hb2 & Hlt2); [lia|].
  apply safe_bind. u8. u8. getr t Ht. getr u Hu. apply safe_ret; [sgood|]. intros _.
  apply safe_bind. eapply IH; [sinv|intros j Hj; apply Hr; lia|].
  intros kvs s' Hkv Ha Hi' _. apply safe_ret; [sgood|]. apply HQ; [by constructor|done|].
  by replace (p + 2 * Z.of_nat (Datatypes.S n)) with (p + 1 + 1 + 2 * Z.of_nat n) by lia.
Qed.

Lemma arm_map_new fuel e :
  items_ok m f [IReg; IPairs] a e -> inv f a s -> safe (i_map_new fuel) (arm_post (eq e) False) s.
Proof using Type.
  intros H Hi. pose proof H as (a1 & [(b1 & Hb1 & Hlt) ->] & a' & (b & Hb & -> & Hregs) & ->).
  unfold i_map_new. u8. u8. apply safe_bind.
  eapply safe_get_pairs; [sinv|intros j Hj; rewrite Z2Nat.id in Hj by apply b2z_range; apply Hregs; lia|].
  intros kvs s1 Hkv Ha Hi1 _. rewrite Z2Nat.id in Hi1 by apply b2z_range.
  apply safe_bind. eapply safe_api; [exact Hi1|apply alloc_map_ok; [sgood|rewrite Ha; exact Hkv]|].
  intros t s2 Hi2 He2 Ht _. setn.
Qed.

Lemma arm_map_get e :
  items_ok m f [IReg; IReg; IReg] a e -> inv f a s -> safe i_map_get (arm_post (eq e) False) s.
Proof using Type.
  intros H Hi. operands H. unfold i_map_get. u8. u8. u8. getr t Ht. getr k Hk.
  memr (valid (api s)); [|intros v Hv _; setn]. flat.
  destruct (boxed_kind_is_ok _ t KMap Ht) as ([] & Hb & _); rewrite Hb; [|done].
  destruct (kind_checked t KMap true Ht Hb eq_refl) as (v & Hr & ks & vs & ->). cbn [mbind res_bind negb].
  destruct (map_get_safe _ ks vs t k Hr) as ([v|] & -> & Hv); [by apply Hv|done].
Qed.

Lemma arm_map_put fuel e :
  items_ok m f [IReg; IReg; IReg; IReg] a e -> inv f a s -> safe (i_map_put fuel) (arm_post (eq e) False) s.
Proof using Type.
  intros H Hi. operands H. unfold i_map_put. u8. u8. u8. u8. getr t Ht. getr k Hk. getr v Hv.
  memr (fun b : bool => b = true -> exists ks vs, repr (live (heap_state (api s))) (VMap ks vs) t).
  - flat. destruct (boxed_kind_is_ok _ t KMap Ht) as (b & Hb & _). rewrite Hb.
    intros Hbt. destruct (kind_checked t KMap b Ht Hb Hbt) as (u & Hr & ks & vs & ->). eauto.
  - intros b Hb _. apply safe_bind, safe_fail_if; [sgood|done|]. intros Hnb _.
    apply safe_bind. eapply safe_api; [sinv|apply put_map_ok; [sgood| |exact Hk|exact Hv]|].
    { apply Hb. by destruct b. }
    intros o s2 Hi2 He2 Ho _. setn.
Qed.
End arms.
