(* ===== verification/InterpFuel.v ===== *)
(** * InterpFuel: fuel is only a bound

    A run that ends with some amount of fuel ends in the same way with any
    larger amount: what [run_function] returns does not depend on the fuel. *)

From S2P Require Import Prelude Term Bytecode Interp.

(** [r'] is [r] unless [r] ran out. *)
Definition rle {E A} (r r' : res E A) : Prop := r = NoFuel \/ r = r'.
Definition mle {S E A} (c c' : M S E A) : Prop := forall s, (c s).1 = NoFuel \/ c s = c' s.

Lemma rle_refl {E A} (r : res E A) : rle r r.
Proof. by right. Qed.
Lemma mle_refl {S E A} (c : M S E A) : mle c c.
Proof. by right. Qed.
Lemma mle_trans {S E A} (c1 c2 c3 : M S E A) : mle c1 c2 -> mle c2 c3 -> mle c1 c3.
Proof. intros H1 H2 s. destruct (H1 s) as [| ->]; [by left|apply H2]. Qed.

Lemma rle_bind {E A B} (r r' : res E A) (k k' : A -> res E B) :
  rle r r' -> (forall x, rle (k x) (k' x)) -> rle (x ← r; k x) (x ← r'; k' x).
Proof. intros [->| ->] Hk; [by left|]. destruct r'; [apply Hk|by right..]. Qed.

Lemma mle_bind {S E A B} (c c' : M S E A) (k k' : A -> M S E B) :
  mle c c' -> (forall x, mle (k x) (k' x)) -> mle (x ← c; k x) (x ← c'; k' x).
Proof.
  intros Hc Hk s. unfold mbind, M_bind. destruct (Hc s) as [H| <-].
  - left. destruct (c s) as [r s']. cbn in H. by subst.
  - destruct (c s) as [[x|?| |] s']; [apply Hk|by right..].
Qed.

#[export] Hint Resolve rle_refl mle_refl : fuel.

(** Descend through binds and matches that agree on both sides. *)
Ltac fuel_step := repeat first
  [ apply rle_refl | apply mle_refl
  | apply rle_bind; [|intros ?] | apply mle_bind; [|intros ?]
  | match goal with
    | |- rle (match ?x with _ => _ end) _ => destruct x
    | |- mle (match ?x with _ => _ end) _ => destruct x
    end ].

Section walks.
Context {E : Type}.

Lemma all_range_mono (p p' : Z -> res E bool) l :
  (forall i, rle (p i) (p' i)) -> rle (all_range p l) (all_range p' l).
Proof using Type. intros Hp. induction l; cbn [all_range]; fuel_step; auto. Qed.

Lemma eq_spine_mono fuel : forall fuel' (e e' : Term -> Term -> res E bool) mm a b,
  (fuel <= fuel')%nat -> (forall x y, rle (e x y) (e' x y)) -> rle (eq_spine fuel e mm a b) (eq_spine fuel' e' mm a b).
Proof using Type.
  induction fuel as [|fuel IH]; intros [|fuel'] e e' mm a b Hle He; try (by left); try lia. cbn [eq_spine].
  fuel_step; auto; try (apply IH; [lia|done]).
Qed.

Lemma eq_term_mono fuel : forall fuel' mm a b,
  (fuel <= fuel')%nat -> rle (eq_term (E:=E) fuel mm a b) (eq_term fuel' mm a b).
Proof using Type.
  induction fuel as [|fuel IH]; intros [|fuel'] mm a b Hle; try (by left); try lia. cbn [eq_term].
  fuel_step; try (apply all_range_mono; intros i; fuel_step; apply IH; lia).
  apply eq_spine_mono; [lia|]. intros x y. apply IH. lia.
Qed.
End walks.

Section exec.
Context {S : Type} `{!SystemApi S} (m : Module_).

Lemma list_bytes_mono fuel : forall fuel' mm t,
  (fuel <= fuel')%nat -> rle (list_bytes fuel mm t) (list_bytes fuel' mm t).
Proof using Type.
  induction fuel as [|fuel IH]; intros [|fuel'] mm t Hle; try (by left); try lia. cbn [list_bytes].
  fuel_step. apply IH. lia.
Qed.

Lemma list_elems_mono fuel : forall fuel' mm t,
  (fuel <= fuel')%nat -> rle (list_elems fuel mm t) (list_elems fuel' mm t).
Proof using Type.
  induction fuel as [|fuel IH]; intros [|fuel'] mm t Hle; try (by left); try lia. cbn [list_elems].
  fuel_step. apply IH. lia.
Qed.

Lemma alloc_term_mono fuel : forall fuel' (c : HM Term),
  (fuel <= fuel')%nat -> mle (S:=S) (alloc_term fuel c) (alloc_term fuel' c).
Proof using Type.
  induction fuel as [|fuel IH]; intros [|fuel'] c Hle s; try (by left); try lia. cbn [alloc_term].
  destruct (c (heap_state s)) as [[?|[]| |] h]; try (by right).
  destruct (heap_grow (with_heap h s)) as [[] s2]; [apply IH; lia|by right].
Qed.

Lemma alloc_map_mono fuel : forall fuel' ps,
  (fuel <= fuel')%nat -> mle (S:=S) (alloc_map fuel ps) (alloc_map fuel' ps).
Proof using Type.
  induction fuel as [|fuel IH]; intros [|fuel'] ps Hle s; try (by left); try lia. cbn [alloc_map].
  destruct (map_from_pairs ps (heap_state s)) as [[?|[]| |] h]; try (by right).
  destruct (heap_grow (with_heap h s)) as [[] s2]; [apply IH; lia|by right].
Qed.

Lemma put_map_mono fuel : forall fuel' b k v,
  (fuel <= fuel')%nat -> mle (S:=S) (put_map fuel b k v) (put_map fuel' b k v).
Proof using Type.
  induction fuel as [|fuel IH]; intros [|fuel'] b k v Hle s; try (by left); try lia. cbn [put_map].
  destruct (map_put b k v (heap_state s)) as [[?|[]| |] h]; try (by right).
  destruct (heap_grow (with_heap h s)) as [[] s2]; [apply IH; lia|by right].
Qed.

Lemma on_api_mono {A} (c c' : M S Trap A) : mle c c' -> mle (on_api c) (on_api c').
Proof using Type.
  intros Hc s. unfold on_api. destruct (Hc (api s)) as [H| ->]; [|by right]. left.
  destruct (c (api s)) as [r s']. cbn in *. by subst.
Qed.

Lemma on_mem_mono {A} (c c' : mem -> res Trap A) :
  (forall mm, rle (c mm) (c' mm)) -> mle (S:=IS S) (on_mem c) (on_mem c').
Proof using Type.
  intros Hc s. unfold on_mem. destruct (Hc (hmem (heap_state (api s)))) as [->| ->]; [by left|by right].
Qed.

Lemma select_arm_mono {A} o (l l' : list (list Z * M (IS S) Trap A)) d :
  Forall2 (fun x y => x.1 = y.1 /\ mle x.2 y.2) l l' -> mle (select_arm o l d) (select_arm o l' d).
Proof using Type.
  induction 1 as [|[os c] [os' c'] l l' [Ho Hc] _ IH]; cbn in *; [apply mle_refl|]. subst os'.
  by destruct (existsb _ os).
Qed.

Ltac arm_mono := first
  [ apply mle_refl
  | apply on_api_mono; first [by apply alloc_term_mono | by apply alloc_map_mono | by apply put_map_mono]
  | apply on_mem_mono; intros ?; first [by apply eq_term_mono | by apply list_bytes_mono | by apply list_elems_mono]
  | apply mle_bind; [arm_mono|intros ?; arm_mono]
  | match goal with |- mle (match ?x with _ => _ end) _ => destruct x; arm_mono end ].

Lemma step_mono fuel fuel' (call call' : Z -> list Term -> M S Trap Term) :
  (fuel <= fuel')%nat -> (forall i xs, mle (call i xs) (call' i xs)) -> mle (step fuel call) (step fuel' call').
Proof using Type.
  intros Hle Hcall. apply mle_bind; [apply mle_refl|]. intros o. apply select_arm_mono. unfold arms.
  repeat (apply Forall2_cons_2; [split; cbn [fst snd]; [reflexivity|]|]); [..|apply Forall2_nil_2].
  all: try apply mle_refl.
  all: unfold i_make_tuple, i_cons, i_cmp_eq, i_bin_new, i_bin_from_list, i_bin_to_list, i_bin_cat, i_list_cat,
    i_bin_part, i_map_new, i_map_put; try arm_mono.
  unfold i_call. do 5 (apply mle_bind; [apply mle_refl|intros ?]).
  apply mle_bind; [apply on_api_mono, Hcall|intros ?; apply mle_refl].
Qed.

Lemma exec_mono fuel : forall fuel' f, (fuel <= fuel')%nat -> mle (exec m fuel f) (exec m fuel' f).
Proof using Type.
  induction fuel as [|fuel IH]; intros [|fuel'] f Hle s; try (by left); try lia. cbn [exec].
  destruct (step_mono fuel fuel' (fun i xs => f' ← lift (enter m i xs); exec m fuel f')
    (fun i xs => f' ← lift (enter m i xs); exec m fuel' f')) with (s := {| fr := f; api := s |}) as [H| <-].
  - lia.
  - intros i xs. apply mle_bind; [apply mle_refl|]. intros f'. apply IH. lia.
  - left. destruct (step _ _ _) as [r s']. cbn in H. by subst.
  - destruct (step fuel _ _) as [[[]|?| |] s']; try (by right). apply IH. lia.
Qed.

Lemma run_function_mono fuel fuel' i xs :
  (fuel <= fuel')%nat -> mle (run_function m fuel i xs) (run_function m fuel' i xs).
Proof using Type.
  intros Hle. apply mle_bind; [apply mle_refl|]. intros f. by apply exec_mono.
Qed.
End exec.
