(* ===== verification/InterpExec.v ===== *)
(** * InterpExec: verified modules run without interpreter faults

    The arms of [InterpArms] assembled along the opcode match, then through the
    fetch loop and the recursion of [run_function]. *)

From S2P Require Import Prelude Term TermImm TermHeap TermVal TermCopy TermMap.
From S2P Require Import Bytecode BytecodeAnalysis Verify VerifySound Interp InterpSafe InterpRun InterpArms InterpFuel.

Section exec.
Context {S : Type} `{!SystemApi S} (m : Module_) {blame : S -> Prop} `{!ApiLawsUpTo S m blame}.

Lemma arm_post_mono f (nx nx' : Z -> Prop) (sent sent' : Prop) o (s : IS S) :
  (forall p, nx p -> nx' p) -> (sent -> sent') -> arm_post m f nx sent o s -> arm_post m f nx' sent' o s.
Proof using Type. intros Hn Hs. destruct o; cbn [arm_post]; [intros (p & ? & ?); eauto|tauto]. Qed.

(** What a call inside the running function may rely on. *)
Definition call_ok (call : Z -> list Term -> M S Trap Term) : Prop := forall idx g args (s : S),
  lookupz (functions m) idx = Some g -> arity g = zlen args -> good s -> Forall (valid s) args ->
  method good blame (fun s2 t => valid s2 t \/ (t = TAIL_SENTINEL /\ returner m idx /\ stashed s2)) (call idx args) s.

(** Why an instruction with opcode [o] and operands at [a] may yield the sentinel. *)
Definition sends (f : Function) (o a : Z) : Prop :=
  o ∈ [op.TAIL_CALL; op.TAIL_CALL_EXT] \/
  (o = op.CALL /\ exists v, u32_operand (code f) (a + 1) = Some v /\ returner m v).

Definition successor (f : Function) (is_ : list item) (term : bool) (a e p : Z) : Prop :=
  (term = false /\ p = e) \/ jumps m f is_ a p.

Ltac pick_arm := first
  [ simple eapply arm_load_int | simple eapply arm_load_atom | simple eapply arm_load_nil | simple eapply arm_move
  | simple eapply arm_self_pid | simple eapply arm_ticks | simple eapply arm_make_tuple | simple eapply arm_get_elem
  | simple eapply arm_cons | simple eapply arm_head_tail | simple eapply arm_arith | simple eapply arm_cmp_eq
  | simple eapply arm_cmp_lt | simple eapply arm_bitop | simple eapply arm_shift | simple eapply arm_bnot
  | simple eapply arm_jmp | simple eapply arm_jmp_if | simple eapply arm_call | simple eapply arm_ret
  | simple eapply arm_spawn | simple eapply arm_send | simple eapply arm_recv | simple eapply arm_print
  | simple eapply arm_exit_atom | simple eapply arm_port_open | simple eapply arm_port_submit
  | simple eapply arm_port_submit2 | simple eapply arm_buf_write | simple eapply arm_buf_read
  | simple eapply arm_buf_new | simple eapply arm_sleep_ms | simple eapply arm_tail_call
  | simple eapply arm_tail_call_ext | simple eapply arm_call_ext | simple eapply arm_bin_new
  | simple eapply arm_bin_from_list | simple eapply arm_bin_to_list | simple eapply arm_bin_size
  | simple eapply arm_buf_to_bin | simple eapply arm_bin_to_buf | simple eapply arm_is_binary
  | simple eapply arm_bin_cat | simple eapply arm_list_cat | simple eapply arm_bin_at | simple eapply arm_bin_part
  | simple eapply arm_map_new | simple eapply arm_map_get | simple eapply arm_map_put ].

Lemma arm_nop f s a e : items_ok m f [] a e -> inv f a s -> safe i_nop (arm_post m f (eq e) False) s.
Proof using Type.
  intros H Hi. cbn [items_ok] in H. subst e. apply safe_ret; [exact (inv_good _ _ _ Hi)|]. by exists a.
Qed.

Lemma arms_safe f fuel call o is_ term a e s :
  format o = Some (is_, term) -> items_ok m f is_ a e -> 0 <= a -> inv f a s -> call_ok call ->
  (forall t, jumps m f is_ a t -> 0 <= t <= zlen (code f)) -> uses m o ->
  safe (select_arm o (arms fuel call o) (throw BadCode)) (arm_post m f (successor f is_ term a e) (sends f o a)) s.
Proof using Type.
  intros Hf Hit Ha Hi Hcall Hj Hu.
  assert (o ∈ seqZ 0 56) as Ho.
  { apply elem_of_seqZ. destruct (decide (0 <= o < 0 + 56)) as [|Hno]; [done|].
    revert Hf. unfold format. rewrite select_arm_none; [done|].
    repeat constructor; cbn [fst]; rewrite !not_elem_of_cons; repeat split; try apply not_elem_of_nil.
    all: vm_compute; intros ->; lia. }
  revert o Ho Hf Hu.
  apply (proj1 (Forall_forall (fun o => format o = Some (is_, term) -> uses m o ->
    safe (select_arm o (arms fuel call o) (throw BadCode))
      (arm_post m f (successor f is_ term a e) (sends f o a)) s) _)).
  let l := eval vm_compute in (seqZ 0 56) in change (seqZ 0 56) with l.
  repeat first [apply Forall_nil_2 | apply Forall_cons_2]; unfold format, arms; op_eval; intros [= <- <-] Hu;
    (eapply safe_mono; [first [simple eapply arm_nop|pick_arm]; eassumption|]);
    intros ? ?; apply arm_post_mono; unfold successor, sends; try tauto; try (intros; subst; tauto).
  all: try (intros _; left; vm_compute; set_solver).
Qed.

Lemma safe_fetch f fuel call a is_ term e s :
  instr_at m f a is_ term e -> inv f a s -> call_ok call ->
  (forall t, jumps m f is_ (a + 1) t -> 0 <= t <= zlen (code f)) -> (forall b, lookupz (code f) a = Some b -> uses m (b2z b)) ->
  exists b, lookupz (code f) a = Some b /\
    safe (step fuel call) (arm_post m f (successor f is_ term (a + 1) e) (sends f (b2z b) (a + 1))) s.
Proof using Type.
  intros (b & Hb & Hf & Hit) Hi Hcall Hj Hu. exists b. split; [done|]. pose proof (lookupz_range _ _ _ Hb).
  unfold step. apply safe_bind. eapply safe_u8; [exact Hi|exact Hb|]. intros _.
  eapply arms_safe; [done|done|lia|by eapply inv_set_pc|done|done|by apply Hu].
Qed.

Lemma decoded_boundary f a : zlen (code f) < 2 ^ 64 -> decoded m f a -> boundary (code f) a.
Proof using Type.
  intros Hlen [Hr _]. eapply rtc_subrel; [|exact Hr]. intros x y (is_ & term & Hi). by eapply instr_at_step.
Qed.

Lemma decoded_range f a : decoded m f a -> 0 <= a <= zlen (code f).
Proof using Type.
  intros [Hr Ha]. split; [|lia].
  apply (rtc_ind_r (R:=next_instr m f) (fun x => 0 <= x) 0); [done| |exact Hr].
  intros y z _ (? & ? & Hyz) _. apply instr_at_bound in Hyz as ?. apply instr_at_end in Hyz. lia.
Qed.

Lemma sends_returner i f a b :
  lookupz (functions m) i = Some f -> boundary (code f) a -> lookupz (code f) a = Some b ->
  sends f (b2z b) (a + 1) -> returner m i.
Proof using Type.
  intros Hf Hbd Hb [Ho|(Ho & v & Hv & Hr)].
  - eapply returner_own; [done|done|]. exists b. split; [done|]. by left.
  - eapply returner_call; [done|done| |exact Hr]. exists b. split_and!; [done|done|].
    by replace (a + 2) with (a + 1 + 1) by lia.
Qed.

Context (Hver : module_verified m) (Hlen : forall i f, lookupz (functions m) i = Some f -> zlen (code f) < 2 ^ 64).

(** One round of the fetch loop. *)
Lemma step_safe i f fuel call a s :
  lookupz (functions m) i = Some f -> decoded m f a -> inv f a s -> call_ok call ->
  safe (step fuel call) (arm_post m f (decoded m f) (returner m i)) s.
Proof using Hver Hlen.
  intros Hf Hd Hi Hcall. destruct (fn_instr _ _ (Hver i f Hf) a Hd) as (is_ & term & e & Hin & Hfall & Hjmp).
  destruct (safe_fetch f fuel call a is_ term e s Hin Hi Hcall) as (b & Hb & Hs).
  { intros t Ht%Hjmp. by apply decoded_range. }
  { intros b Hb. by exists i, f, a, b. }
  eapply safe_mono; [exact Hs|]. intros o s'. apply arm_post_mono.
  - intros p [[Ht ->]|Hp]; auto.
  - intros Hse. eapply sends_returner; [done| |done|done].
    eapply decoded_boundary; [by eapply Hlen|done].
Qed.

Definition result_ok (i : Z) (s : S) (t : Term) : Prop := valid s t \/ (t = TAIL_SENTINEL /\ returner m i /\ stashed s).

Lemma enter_ok i f args (s : S) :
  lookupz (functions m) i = Some f -> arity f = zlen args -> good s -> Forall (valid s) args ->
  exists g, enter m i args = Ok g /\ inv f 0 {| fr := g; api := s |}.
Proof using Hver.
  intros Hf Har Hg Hargs. unfold enter. rewrite Hf, bool_decide_true by done. cbn [negb orb].
  pose proof (fn_arity _ _ (Hver i f Hf)). rewrite bool_decide_false by lia. eexists. split; [done|].
  split; cbn [fcode pc regs fr api]; [done|done| | |done].
  - unfold zlen in *. rewrite length_app, length_drop, length_replicate. lia.
  - apply Forall_app. split; [done|]. apply Forall_drop, Forall_replicate, valid_nil.
Qed.

Lemma exec_safe fuel : forall i f a g (s : S),
  lookupz (functions m) i = Some f -> decoded m f a -> inv f a {| fr := g; api := s |} ->
  method good blame (result_ok i) (exec m fuel g) s.
Proof using Hver Hlen.
  induction fuel as [|fuel IH]; intros i f a g s Hf Hd Hi.
  { split_and!; [exact (inv_good _ _ _ Hi)|apply extends_refl|done]. }
  assert (call_ok (fun idx args => f' ← lift (enter m idx args); exec m fuel f')) as Hcall.
  { intros j h args s1 Hh Har Hg1 Hargs. destruct (enter_ok j h args s1 Hh Har Hg1 Hargs) as (g1 & Hen & Hi1).
    unfold method, mbind, M_bind, lift. rewrite Hen.
    eapply (IH j h 0 g1 s1 Hh); [|done]. apply fn_entry. by eapply Hver. }
  pose proof (step_safe i f fuel _ a _ Hf Hd Hi Hcall) as Hs. unfold safe in Hs. unfold method. cbn [exec].
  destruct (step fuel _ _) as [r s1]. destruct Hs as (Hg1 & He1 & Hr). cbn [api] in He1.
  destruct r as [[|t]|e| |]; cbn [contained] in Hr; try done.
  destruct Hr as (p & Hp & Hip).
  specialize (IH i f p (fr s1) (api s1) Hf Hp). unfold method in IH.
  destruct (exec m fuel (fr s1) (api s1)) as [r2 s2]. destruct s1 as [g1 s1]. destruct (IH Hip) as (Hg2 & He2 & Hr2).
  split_and!; [done|by eapply extends_trans|done].
Qed.
End exec.

(** Code offsets fit the machine's address space. *)
Definition sized (m : Module_) : Prop := forall i f, lookupz (functions m) i = Some f -> zlen (code f) < 2 ^ 64.

Lemma run_function_safe {S} `{!SystemApi S} m {blame : S -> Prop} `{!ApiLawsUpTo S m blame} i f args (s : S) fuel :
  verify m = Ok tt -> sized m -> lookupz (functions m) i = Some f -> arity f = zlen args ->
  good s -> Forall (valid s) args -> method good blame (result_ok m i) (run_function m fuel i args) s.
Proof.
  intros Hv%verify_iff Hlen Hf Har Hg Hargs.
  destruct (enter_ok m Hv i f args s Hf Har Hg Hargs) as (g & Hen & Hi).
  unfold method, run_function, mbind, M_bind, lift. rewrite Hen.
  eapply (exec_safe m Hv Hlen fuel i f 0 g s Hf); [|done]. by eapply fn_entry, Hv.
Qed.

(** *** Back edges *)

Lemma jumps_opcode m f o is_ term a t :
  format o = Some (is_, term) -> jumps m f is_ a t -> o = op.JMP \/ o = op.JMP_IF.
Proof.
  unfold format. cbn [select_arm]. intros Hf Hj.
  repeat match type of Hf with
    | (if ?b then _ else _) = _ => destruct b eqn:?
    end; simplify_eq; cbn [jumps] in Hj; try (exfalso; naive_solver).
  all: cbn [existsb] in *; rewrite orb_false_r in *; rewrite Z.eqb_eq in *; auto.
Qed.

Section polls.
Context {S : Type} `{!SystemApi S}.

Lemma jump_polls off (s s' : IS S) :
  jump off s = (Ok tt, s') ->
  pc (fr s') = pc (fr s) + off /\ api s' = if bool_decide (off < 0) then safepoint (api s) else api s.
Proof using Type.
  unfold jump. intros H. case_bool_decide.
  - unfold mbind, M_bind, upd_api, modify, gets in H. cbn in H.
    destruct (_ || _); [done|]. injection H as <-. done.
  - unfold mbind, M_bind, gets in H. cbn in H. destruct (_ || _); [done|]. injection H as <-. done.
Qed.

Lemma fr_u8_quiet (s s' : IS S) v :
  fr_u8 s = (Ok v, s') -> api s' = api s /\ pc (fr s') = pc (fr s) + 1.
Proof using Type.
  unfold fr_u8, mbind, M_bind, gets, ok_or, modify. destruct (lookupz _ _); [|done]. by intros [= _ <-].
Qed.

Lemma fr_i32_quiet (s s' : IS S) v :
  fr_i32 s = (Ok v, s') -> api s' = api s /\ pc (fr s') = pc (fr s) + 4.
Proof using Type.
  unfold fr_i32, fr_u32, mbind, M_bind, gets, ok_or, modify. destruct (slice _ _ _); [|done]. by intros [= _ <-].
Qed.

Lemma get_int_quiet (s s' : IS S) r v : get_int r s = (Ok v, s') -> s' = s.
Proof using Type.
  unfold get_int, fr_get, mbind, M_bind, gets, ok_or. destruct (lookupz _ _) as [t|]; [|done]. cbn.
  destruct (as_int t); [|done]. by intros [= _ <-].
Qed.

Lemma i_jmp_polls (s s' : IS S) :
  i_jmp s = (Ok Next, s') -> pc (fr s) < pc (fr s') \/ api s' = safepoint (api s).
Proof using Type.
  unfold i_jmp. intros (off & s1 & [Ha1 Hp1]%fr_i32_quiet & H)%bind_ok.
  apply bind_ok in H as ([] & s2 & [Hp2 Ha2]%jump_polls & [= <-]).
  rewrite Ha2, Hp2, Ha1. case_bool_decide; [by right|left; lia].
Qed.

Lemma i_jmp_if_polls (s s' : IS S) :
  i_jmp_if s = (Ok Next, s') -> pc (fr s) < pc (fr s') \/ api s' = safepoint (api s).
Proof using Type.
  unfold i_jmp_if. intros (rc & s1 & [Ha1 Hp1]%fr_u8_quiet & H)%bind_ok.
  apply bind_ok in H as (off & s2 & [Ha2 Hp2]%fr_i32_quiet & H).
  apply bind_ok in H as (c & s3 & ->%get_int_quiet & H). apply bind_ok in H as ([] & s4 & Hj & [= <-]).
  destruct (negb _).
  - apply jump_polls in Hj as [Hp4 Ha4]. rewrite Ha4, Hp4, Ha2, Ha1. case_bool_decide; [by right|left; lia].
  - injection Hj as <-. left. lia.
Qed.

(** An instruction either moves forward or is a back edge, which polls. *)
Lemma step_polls m {blame : S -> Prop} `{!ApiLawsUpTo S m blame} i (f : Function) fuel call a (s s' : IS S) :
  lookupz (functions m) i = Some f -> fn_ok m f -> decoded m f a -> inv f a s -> call_ok m call ->
  step fuel call s = (Ok Next, s') -> a < pc (fr s') \/ api s' = safepoint (api s).
Proof using Type.
  intros Hfn Hok Hd Hi Hcall Hst. destruct (fn_instr _ _ Hok a Hd) as (is_ & term & e & Hin & _ & Hjmp).
  pose proof Hin as (b & Hb & Hf & _).
  destruct (safe_fetch m f fuel call a is_ term e s Hin Hi Hcall) as (b1 & Hb1 & Hs).
  { intros t Ht%Hjmp. by apply decoded_range in Ht. }
  { intros c Hc. by exists i, f, a, c. }
  unfold safe in Hs. rewrite Hst in Hs. destruct Hs as (_ & _ & p & Hp & Hinv).
  rewrite (inv_pc _ _ _ Hinv). destruct Hp as [[_ ->]|Hj]; [left; apply instr_at_end in Hin; lia|].
  rewrite <- (inv_pc _ _ _ Hinv).
  unfold step in Hst. apply bind_ok in Hst as (o & s1 & Hu & Hst).
  pose proof (fr_u8_quiet _ _ _ Hu) as [Ha1 Hp1].
  assert (o = b2z b) as ->.
  { revert Hu. unfold fr_u8, mbind, M_bind, gets, ok_or, modify.
    rewrite (inv_code _ _ _ Hi), (inv_pc _ _ _ Hi), Hb. by intros [= <- _]. }
  rewrite <- Ha1. rewrite (inv_pc _ _ _ Hi) in Hp1.
  assert (pc (fr s1) < pc (fr s') \/ api s' = safepoint (api s1)) as [|]; [|left; lia|by right].
  destruct (jumps_opcode _ _ _ _ _ _ _ Hf Hj) as [Ho|Ho]; rewrite Ho in Hst; revert Hst; unfold arms; op_eval.
  - apply i_jmp_polls.
  - apply i_jmp_if_polls.
Qed.
End polls.

(** ** A host that does nothing but own a heap

    The smallest implementation of the interface: the trait's default methods, and
    refusals or immediates for the others. *)
Definition bare_host : SystemApi HS := {|
  heap_state s := s;
  with_heap h _ := h;
  self_pid _ := 1;
  api_send _ _ := mret tt;
  api_recv := mret NIL;
  api_spawn _ _ := mret 2;
  safepoint s := s;
  atom_global l := mret l;
  api_print _ s := s;
  port_open _ := throw Badarg;
  port_submit _ _ _ _ := throw Badarg;
  call_ext _ _ _ := throw Badarg;
  buf_to_bin _ := throw Badarg;
  bin_to_buf _ := throw Badarg;
  heap_grow s := (false, s);
  tail_call _ _ _ s := s;
  tail_call_local _ _ s := s;
  buf_write _ _ _ := throw Badarg;
  buf_new _ := throw Badarg;
  buf_read _ _ _ := throw Badarg;
  sleep_ms _ s := s;
  api_ticks _ := term_int 0;
  port_submit2 _ _ _ _ _ := throw Badarg |}.

#[local] Existing Instance bare_host.

#[local] Instance bare_laws m : ApiLaws HS m.
Proof.
  unshelve econstructor; [exact heap_ok|exact (fun _ => True)|..].
  all: intros; unfold method, update; cbn.
  all: first [done | split_and!; try done; try apply extends_refl; try apply valid_nil; fail | idtac].
  - by match goal with H : heap_step _ _ |- _ => destruct H end.
  - apply (valid_int s 0).
Defined.

(** ** Properties *)

Definition loop_fn : Function := {| name_atom := 1; arity := 1; nregs := 2; code := loop_code |}.

Lemma demo_sized : sized demo_module.
Proof.
  intros i f Hf. assert (f ∈ functions demo_module) as Hel.
  { unfold lookupz in Hf. case_bool_decide; [|done]. by apply list_elem_of_lookup_2 in Hf. }
  clear Hf. revert f Hel. apply Forall_forall. repeat constructor.
Qed.

Lemma int_args (s : HS) v : Forall (valid s) [term_int v].
Proof. repeat constructor. apply valid_int. Qed.

(** C1: A verified module runs safely.  Called with as many arguments as the
    function takes, on any system that keeps its contract, [run_function] never
    panics and never traps with [BadCode], keeps the system state good and the
    value of every existing term, and returns a well-formed term or the tail-call
    sentinel; this holds at every fuel, so at every prefix of the run. *)
Theorem verified_run_safe {S} `{!SystemApi S} m `{!ApiLaws S m} i f args (s : S) fuel :
  verify m = Ok tt -> sized m -> lookupz (functions m) i = Some f -> arity f = zlen args ->
  good s -> Forall (valid s) args ->
  let '(r, s') := run_function m fuel i args s in
  good s' /\ (forall v t, repr (live (heap_state s)) v t -> repr (live (heap_state s')) v t) /\
  match r with
  | Ok t => valid s' t \/ t = TAIL_SENTINEL
  | Err e => e <> BadCode
  | Panic => False
  | NoFuel => True
  end.
Proof.
  intros Hv Hsz Hf Har Hg Ha. pose proof (run_function_safe m i f args s fuel Hv Hsz Hf Har Hg Ha) as H.
  unfold method in H. destruct (run_function m fuel i args s) as [r s']. destruct H as (Hg' & He & Hr).
  split_and!; [done|exact He|]. destruct r; try done. destruct Hr as [|[??]]; auto.
Qed.

Lemma verified_run_safe_witness :
  let '(r, s') := run_function demo_module 20 1 [term_int 3] (sample_heap 32) in
  r = Ok (term_int 0) /\ good (m:=demo_module) s' /\ valid s' (term_int 0).
Proof.
  pose proof (verified_run_safe demo_module 1 loop_fn [term_int 3] (sample_heap 32) 20 ltac:(by vm_compute)
    demo_sized eq_refl eq_refl sample_heap_ok (int_args _ 3)) as H.
  assert ((run_function demo_module 20 1 [term_int 3] (sample_heap 32)).1 = Ok (term_int 0)) as Hr by (by vm_compute).
  destruct (run_function _ _ _ _ _) as [r s']. cbn [fst] in Hr. subst r. destruct H as (Hg & _ & [Hv|Hs]).
  - by split_and!.
  - discriminate Hs.
Defined.

(** The sentinel analysis is sound for the interpreter: in a verified module, a
    function whose [sentinel_returners] bit is clear never returns the sentinel,
    so a caller need not test for it. *)
Theorem sentinel_bit_sound {S} `{!SystemApi S} m `{!ApiLaws S m} bits i f args (s s' : S) fuel t :
  verify m = Ok tt -> sized m -> sentinel_returners m = Ok bits -> lookupz bits i = Some false ->
  lookupz (functions m) i = Some f -> arity f = zlen args -> good s -> Forall (valid s) args ->
  run_function m fuel i args s = (Ok t, s') -> t <> TAIL_SENTINEL /\ valid s' t.
Proof.
  intros Hv Hsz Hb Hbit Hf Har Hg Ha Hr.
  pose proof (run_function_safe m i f args s fuel Hv Hsz Hf Har Hg Ha) as H. unfold method in H.
  rewrite Hr in H. destruct H as (_ & _ & [Ht|(_ & Hret & _)]).
  - split; [|done]. intros ->. by apply sentinel_invalid in Ht.
  - exfalso. destruct (sentinel_bits m) as (bits' & Hb' & _ & Hall).
    rewrite Hb in Hb'. injection Hb' as <-. apply (Hall i f Hf) in Hret. congruence.
Qed.

Lemma sentinel_bit_sound_witness :
  sentinel_returners demo_module = Ok [true; false] /\
  forall s', run_function demo_module 20 1 [term_int 3] (sample_heap 32) = (Ok (term_int 0), s') ->
    term_int 0 <> TAIL_SENTINEL /\ valid s' (term_int 0).
Proof.
  split; [by vm_compute|]. intros s' Hr.
  exact (sentinel_bit_sound demo_module [true; false] 1 loop_fn [term_int 3] (sample_heap 32) s' 20 (term_int 0)
    ltac:(by vm_compute) demo_sized ltac:(by vm_compute) eq_refl eq_refl eq_refl sample_heap_ok (int_args _ 3) Hr).
Defined.

(** The run came to its end within the fuel. *)
Definition ended {S A} (out : res Trap A * S) : Prop := out.1 <> NoFuel.

(** Fuel is a bound and nothing else: a run that ends ends with the same result
    and the same state at every larger fuel. *)
Theorem run_function_fuel {S} `{!SystemApi S} m i args (s : S) fuel fuel' :
  (fuel <= fuel')%nat -> ended (run_function m fuel i args s) ->
  run_function m fuel' i args s = run_function m fuel i args s.
Proof. intros Hle Hne. by destruct (run_function_mono m fuel fuel' i args Hle s). Qed.

Lemma run_function_fuel_witness :
  (run_function demo_module 1000 1 [term_int 3] (sample_heap 32)).1 = Ok (term_int 0).
Proof.
  rewrite (run_function_fuel demo_module 1 [term_int 3] (sample_heap 32) 20 1000); [by vm_compute|lia|by vm_compute].
Defined.

(** C37: Every back edge is a preemption point: an instruction of a verified function
    that does not move the program counter forward has called [safepoint], once,
    and has not touched the system state otherwise. *)
Theorem back_edges_poll {S} `{!SystemApi S} m `{!ApiLaws S m} i f fuel call a (s s' : IS S) :
  verify m = Ok tt -> lookupz (functions m) i = Some f -> decoded m f a -> inv f a s -> call_ok m call ->
  step fuel call s = (Ok Next, s') -> pc (fr s') <= a -> api s' = safepoint (api s).
Proof.
  intros Hv%verify_iff Hf Hd Hi Hcall Hst Hpc.
  destruct (step_polls m i f fuel call a s s' Hf (Hv i f Hf) Hd Hi Hcall Hst); [lia|done].
Qed.

(** At the loop's [JMP_IF] with a non-zero condition. *)
Definition at_back_edge : IS HS :=
  {| fr := {| fcode := loop_code; pc := 14; regs := [term_int 2; term_int 1] |}; api := sample_heap 32 |}.

Lemma at_back_edge_inv : inv (m:=demo_module) loop_fn 14 at_back_edge.
Proof.
  split; [done|done|done| |apply sample_heap_ok]. cbn. repeat constructor; apply valid_int.
Qed.

Lemma at_back_edge_decoded : decoded demo_module loop_fn 14.
Proof.
  split; [|by vm_compute]. eapply rtc_l; [|eapply rtc_l; [|apply rtc_refl]].
  - exists [IReg; IRaw 8], false, x01. split_and!; [done|done|].
    exists 2. split; [split; [exists x01; split; [done|by vm_compute]|done]|]. exists 10. split; [split; [done|by vm_compute]|done].
  - exists [IReg; IReg; IReg], false, x0c. split_and!; [done|done|].
    exists 12. split; [split; [exists x00; split; [done|by vm_compute]|done]|].
    exists 13. split; [split; [exists x00; split; [done|by vm_compute]|done]|].
    exists 14. split; [split; [exists x01; split; [done|by vm_compute]|done]|done].
Qed.

Lemma back_edges_poll_witness :
  let '(r, s') := step 1 (fun _ _ => throw Badarg) at_back_edge in
  r = Ok Next /\ pc (fr s') = 10 /\ api s' = safepoint (sample_heap 32).
Proof.
  assert (call_ok demo_module (fun _ _ => throw (S:=HS) Badarg)) as Hcall.
  { intros idx g xs s0 _ _ Hg _. split_and!; [exact Hg|apply extends_refl|done]. }
  pose proof (back_edges_poll demo_module 1 loop_fn 1 (fun _ _ => throw Badarg) 14 at_back_edge
    (set_pc 10 at_back_edge) ltac:(by vm_compute) eq_refl at_back_edge_decoded at_back_edge_inv Hcall) as H.
  split_and!; [done|done|]. apply H; [done|by vm_compute].
Defined.
