(* ===== verification/Clif.v ===== *)
(** * Clif: the intermediate representation the compiler emits

    The baseline compiler does not emit machine code itself: it drives the function builder of a
    third-party code generator, whose intermediate representation this file describes.  A
    function under construction is the record of the builder calls made so far ([IrFunc]);
    [ieval], [irun] run such a function.  What the arithmetic instructions compute is a parameter, the
    class [Clif], and [ClifLaws] states their documented behaviour on 64-bit values. *)

From S2P Require Import Prelude.

(** ** Instructions

    Blocks, values, variables, stack slots and imported functions are numbered in the order of
    their creation.  [UseVar] and [DefVar] are the builder's accesses to mutable variables. *)

Inductive IntCC := Equal | NotEqual | SignedLessThan | UnsignedLessThanOrEqual.

Inductive binop := iadd | isub | imul | band | bor | bxor | ishl | sshr.

Inductive inst :=
| Iconst (d imm : Z)
| Binary (o : binop) (d a b : Z)
| BinaryImm (o : binop) (d a imm : Z)
| Bnot (d a : Z)
| Icmp (cc : IntCC) (d a b : Z)
| IcmpImm (cc : IntCC) (d a imm : Z)
| Uextend (d a : Z)
| Call (d : option Z) (f : Z) (args : list Z)
| StackStore (v slot off : Z)
| StackAddr (d slot off : Z)
| UseVar (d x : Z)
| DefVar (x v : Z)
| Jump (b : Z)
| Brif (c b1 b2 : Z)
| Return_ (vs : list Z)
| TrapInst (code : Z).

Definition terminator (i : inst) : bool :=
  match i with Jump _ | Brif _ _ _ | Return_ _ | TrapInst _ => true | _ => false end.

(** An imported function: its name in a namespace and its signature. *)
Record ExtFunc := { namespace : Z; index : Z; nparams : Z; has_ret : bool; colocated : bool }.

Record IrFunc := {
  ir_params : Z;
  ir_vals : Z;
  ir_vars : Z;
  ir_blocks : Z;
  ir_cur : Z;
  ir_code : gmap Z (list inst);
  ir_slots : list Z;
  ir_funcs : list ExtFunc;
}.

Definition body (F : IrFunc) (b : Z) : list inst := default [] (ir_code F !! b).

(** ** The builder *)

(** A function with its entry block, whose parameters are the first values. *)
Definition new_func (params : Z) : IrFunc :=
  {| ir_params := params; ir_vals := params; ir_vars := 0; ir_blocks := 1; ir_cur := 0;
     ir_code := ∅; ir_slots := []; ir_funcs := [] |}.

Definition push_inst (i : inst) (F : IrFunc) : IrFunc :=
  {| ir_params := ir_params F; ir_vals := ir_vals F; ir_vars := ir_vars F; ir_blocks := ir_blocks F; ir_cur := ir_cur F;
     ir_code := <[ir_cur F := body F (ir_cur F) ++ [i]]> (ir_code F); ir_slots := ir_slots F; ir_funcs := ir_funcs F |}.
Definition new_val (F : IrFunc) : IrFunc :=
  {| ir_params := ir_params F; ir_vals := ir_vals F + 1; ir_vars := ir_vars F; ir_blocks := ir_blocks F; ir_cur := ir_cur F;
     ir_code := ir_code F; ir_slots := ir_slots F; ir_funcs := ir_funcs F |}.
Definition new_vars (n : Z) (F : IrFunc) : IrFunc :=
  {| ir_params := ir_params F; ir_vals := ir_vals F; ir_vars := ir_vars F + n; ir_blocks := ir_blocks F; ir_cur := ir_cur F;
     ir_code := ir_code F; ir_slots := ir_slots F; ir_funcs := ir_funcs F |}.
Definition new_block (F : IrFunc) : IrFunc :=
  {| ir_params := ir_params F; ir_vals := ir_vals F; ir_vars := ir_vars F; ir_blocks := ir_blocks F + 1; ir_cur := ir_cur F;
     ir_code := ir_code F; ir_slots := ir_slots F; ir_funcs := ir_funcs F |}.
Definition set_cur (b : Z) (F : IrFunc) : IrFunc :=
  {| ir_params := ir_params F; ir_vals := ir_vals F; ir_vars := ir_vars F; ir_blocks := ir_blocks F; ir_cur := b;
     ir_code := ir_code F; ir_slots := ir_slots F; ir_funcs := ir_funcs F |}.
Definition new_slot (size : Z) (F : IrFunc) : IrFunc :=
  {| ir_params := ir_params F; ir_vals := ir_vals F; ir_vars := ir_vars F; ir_blocks := ir_blocks F; ir_cur := ir_cur F;
     ir_code := ir_code F; ir_slots := ir_slots F ++ [size]; ir_funcs := ir_funcs F |}.
Definition new_import (x : ExtFunc) (F : IrFunc) : IrFunc :=
  {| ir_params := ir_params F; ir_vals := ir_vals F; ir_vars := ir_vars F; ir_blocks := ir_blocks F; ir_cur := ir_cur F;
     ir_code := ir_code F; ir_slots := ir_slots F; ir_funcs := ir_funcs F ++ [x] |}.

(** ** Execution *)

(** The values of the instructions, and where a frame places its stack slots. *)
Class Clif := {
  c_binary : binop -> Z -> Z -> Z;
  c_bnot : Z -> Z;
  c_icmp : IntCC -> Z -> Z -> bool;
  c_slot : Z -> Z;
}.

(** The documented values on 64-bit words: wrap-around arithmetic, shift amounts taken modulo
    64, an arithmetic right shift, signed and unsigned comparisons. *)
Class ClifLaws `{!Clif} := {
  law_iadd a b : c_binary iadd a b = wrap 64 (a + b);
  law_isub a b : c_binary isub a b = wrap 64 (a - b);
  law_imul a b : c_binary imul a b = wrap 64 (a * b);
  law_band a b : c_binary band a b = wrap 64 (Z.land a b);
  law_bor a b : c_binary bor a b = wrap 64 (Z.lor a b);
  law_bxor a b : c_binary bxor a b = wrap 64 (Z.lxor a b);
  law_ishl a b : c_binary ishl a b = wrap 64 (Z.shiftl a (b mod 64));
  law_sshr a b : c_binary sshr a b = wrap 64 (Z.shiftr (swrap 64 a) (b mod 64));
  law_bnot a : c_bnot a = wrap 64 (Z.lnot a);
  law_eq a b : c_icmp Equal a b = bool_decide (wrap 64 a = wrap 64 b);
  law_ne a b : c_icmp NotEqual a b = negb (bool_decide (wrap 64 a = wrap 64 b));
  law_slt a b : c_icmp SignedLessThan a b = bool_decide (swrap 64 a < swrap 64 b);
  law_ule a b : c_icmp UnsignedLessThanOrEqual a b = bool_decide (wrap 64 a <= wrap 64 b);
}.

(** A frame: instruction values, variables and the words of its stack slots by address. *)
Record env := { vals : gmap Z Z; vars : gmap Z Z; stack : gmap Z Z }.

Definition set_val (d x : Z) (e : env) : env := {| vals := <[d := x]> (vals e); vars := vars e; stack := stack e |}.
Definition set_var (x v : Z) (e : env) : env := {| vals := vals e; vars := <[x := v]> (vars e); stack := stack e |}.
Definition set_word (a w : Z) (e : env) : env := {| vals := vals e; vars := vars e; stack := <[a := w]> (stack e) |}.

(** Where control goes at the end of a block. *)
Inductive flow := Goto (b : Z) | Leave (v : Z).

Definition b2i (b : bool) : Z := if b then 1 else 0.

Section run.
Context `{!Clif} {S E : Type}.

(** How an imported function runs: it sees the stack of its caller and may return a value. *)
Abbreviation callee := (ExtFunc -> gmap Z Z -> list Z -> M S E (option Z)).

(** A slot's address when the access lies inside the slot. *)
Definition slot_word (F : IrFunc) (slot off : Z) : option Z :=
  size ← lookupz (ir_slots F) slot;
  if bool_decide (0 <= off /\ off + 8 <= size) then Some (c_slot slot + off) else None.

(** Every instruction but a call and a terminator. *)
Definition pure_step (F : IrFunc) (i : inst) (e : env) : option env :=
  match i with
  | Iconst d imm => Some (set_val d (wrap 64 imm) e)
  | Binary o d a b => x ← vals e !! a; y ← vals e !! b; Some (set_val d (c_binary o x y) e)
  | BinaryImm o d a imm => x ← vals e !! a; Some (set_val d (c_binary o x (wrap 64 imm)) e)
  | Bnot d a => x ← vals e !! a; Some (set_val d (c_bnot x) e)
  | Icmp cc d a b => x ← vals e !! a; y ← vals e !! b; Some (set_val d (b2i (c_icmp cc x y)) e)
  | IcmpImm cc d a imm => x ← vals e !! a; Some (set_val d (b2i (c_icmp cc x (wrap 64 imm))) e)
  | Uextend d a => x ← vals e !! a; Some (set_val d x e)
  | StackStore v slot off => x ← vals e !! v; a ← slot_word F slot off; Some (set_word a x e)
  | StackAddr d slot off => _ ← lookupz (ir_slots F) slot; Some (set_val d (c_slot slot + off) e)
  | UseVar d x => v ← vars e !! x; Some (set_val d v e)
  | DefVar x v => w ← vals e !! v; Some (set_var x w e)
  | _ => None
  end.

(** Run to the end of a block.  Anything the code generator would reject is [Panic], and so is
    a trap instruction that is reached. *)
Fixpoint ieval (call : callee) (F : IrFunc) (is_ : list inst) (e : env) : M S E (flow * env) :=
  match is_ with
  | [] => panic
  | Call d f args :: rest =>
      x ← unwrap (lookupz (ir_funcs F) f);
      xs ← unwrap (mapM (fun a => vals e !! a) args);
      _ ← massert (bool_decide (zlen xs = nparams x));
      o ← call x (stack e) xs;
      match d, o with
      | Some d, Some v => ieval call F rest (set_val d v e)
      | None, None => ieval call F rest e
      | _, _ => panic
      end
  | Jump b :: _ => mret (Goto b, e)
  | Brif c b1 b2 :: _ => x ← unwrap (vals e !! c); mret (Goto (if bool_decide (x = 0) then b2 else b1), e)
  | Return_ [v] :: _ => x ← unwrap (vals e !! v); mret (Leave x, e)
  | Return_ _ :: _ => panic
  | TrapInst _ :: _ => panic
  | i :: rest => e' ← unwrap (pure_step F i e); ieval call F rest e'
  end.

(** The parameters are the first values of a fresh frame. *)
Definition entry_env (args : list Z) : env :=
  {| vals := list_to_map (zip (seqZ 0 (zlen args)) args); vars := ∅; stack := ∅ |}.

(** A function with the addresses its imports of namespace 2 stand for. *)
Record CodeUnit := { u_func : IrFunc; u_addrs : list Z }.

(** [foreign] runs imports of the other namespaces; namespace 1 holds the siblings of the
    program.  Fuel bounds the blocks entered and the calls. *)
Context (foreign : nat -> list Z -> callee) (prog : list CodeUnit).

Fixpoint irun (fuel : nat) (U : CodeUnit) (b : Z) (e : env) : M S E Z :=
  match fuel with
  | O => nofuel
  | Datatypes.S n =>
      let call x st xs :=
        if bool_decide (namespace x = 1) then
          G ← unwrap (lookupz prog (index x));
          v ← irun n G 0 (entry_env xs);
          mret (Some v)
        else foreign n (u_addrs U) x st xs in
      '(fl, e') ← ieval call (u_func U) (body (u_func U) b) e;
      match fl with Goto b' => irun n U b' e' | Leave v => mret v end
  end.

Definition icall (fuel : nat) (idx : Z) (args : list Z) : M S E Z :=
  U ← unwrap (lookupz prog idx); irun fuel U 0 (entry_env args).
End run.
