(* ===== verification/Jit.v ===== *)
(** * Jit: the baseline compiler

    Models [crates/ygg-jit/src/lib.rs]: the helper table, the search for block leaders, the
    translation of bytecode to the intermediate representation of [Clif] (one definition per arm
    of the opcode match of [compile_fn]), and the translation of relocations.  The builder calls
    of the source are recorded in an [IrFunc]; the code generator itself is the class [Backend]. *)

From stdpp Require Import sorting.
From S2P Require Import Prelude Term Bytecode Clif.

(** ** Runtime helpers *)

Module Helper.
Inductive t :=
| SelfPid | Send | Recv | Spawn | Safepoint | Print | Eq | MakeTuple | GetElem | Cons | Head | Tail
| PortOpen | PortSubmit | CallExt | ExitAtom | TrapBadarg | BinConst | BinFromList | BinToList | BinSize
| BufToBin | BinToBuf | MapNew | MapGet | MapPut | IsBinary | BinCat | ListCat | BinPart | TailCallExt
| TailCallLocal | PortSubmit2 | BufWrite | SleepMs | BufNew | BufRead | Ticks | ResumeTail | BinAt.

(** [h as u32] *)
Definition idx (h : t) : Z :=
  match h with
  | SelfPid => 0 | Send => 1 | Recv => 2 | Spawn => 3 | Safepoint => 4 | Print => 5 | Eq => 6 | MakeTuple => 7
  | GetElem => 8 | Cons => 9 | Head => 10 | Tail => 11 | PortOpen => 12 | PortSubmit => 13 | CallExt => 14
  | ExitAtom => 15 | TrapBadarg => 16 | BinConst => 17 | BinFromList => 18 | BinToList => 19 | BinSize => 20
  | BufToBin => 21 | BinToBuf => 22 | MapNew => 23 | MapGet => 24 | MapPut => 25 | IsBinary => 26 | BinCat => 27
  | ListCat => 28 | BinPart => 29 | TailCallExt => 30 | TailCallLocal => 31 | PortSubmit2 => 32 | BufWrite => 33
  | SleepMs => 34 | BufNew => 35 | BufRead => 36 | Ticks => 37 | ResumeTail => 38 | BinAt => 39
  end.
End Helper.

Definition HELPER_COUNT : Z := 40.

Definition helper_nargs (h : Z) : Z :=
  select_arm h
    [ ([Helper.idx Helper.SelfPid], 0); ([Helper.idx Helper.Send], 2); ([Helper.idx Helper.Recv], 0);
      ([Helper.idx Helper.Spawn], 2); ([Helper.idx Helper.Safepoint], 0); ([Helper.idx Helper.Print], 1);
      ([Helper.idx Helper.Eq], 2); ([Helper.idx Helper.MakeTuple], 2); ([Helper.idx Helper.GetElem], 2);
      ([Helper.idx Helper.Cons], 2); ([Helper.idx Helper.Head], 1); ([Helper.idx Helper.Tail], 1);
      ([Helper.idx Helper.PortOpen], 1); ([Helper.idx Helper.PortSubmit], 4); ([Helper.idx Helper.CallExt], 4);
      ([Helper.idx Helper.ExitAtom], 1); ([Helper.idx Helper.BinConst], 2); ([Helper.idx Helper.BinFromList], 1);
      ([Helper.idx Helper.BinToList], 1); ([Helper.idx Helper.BinSize], 1); ([Helper.idx Helper.BufToBin], 1);
      ([Helper.idx Helper.BinToBuf], 1); ([Helper.idx Helper.MapNew], 2); ([Helper.idx Helper.MapGet], 2);
      ([Helper.idx Helper.MapPut], 3); ([Helper.idx Helper.IsBinary], 1); ([Helper.idx Helper.BinCat], 2);
      ([Helper.idx Helper.ListCat], 2); ([Helper.idx Helper.BinPart], 3); ([Helper.idx Helper.TailCallExt], 4);
      ([Helper.idx Helper.TailCallLocal], 3); ([Helper.idx Helper.PortSubmit2], 5); ([Helper.idx Helper.BufWrite], 3);
      ([Helper.idx Helper.SleepMs], 1); ([Helper.idx Helper.BufNew], 1); ([Helper.idx Helper.BufRead], 3);
      ([Helper.idx Helper.Ticks], 0); ([Helper.idx Helper.ResumeTail], 1); ([Helper.idx Helper.BinAt], 2) ]
    0.

Definition helper_has_ret (h : Z) : bool :=
  negb (existsb (Z.eqb h)
    (map Helper.idx [Helper.Safepoint; Helper.Print; Helper.ExitAtom; Helper.TrapBadarg; Helper.TailCallExt;
                     Helper.TailCallLocal; Helper.SleepMs])).

(** ** Output *)

Inductive RelocKind := Abs8 | PcRel4.
Inductive RelocTarget := RHelper (h : Z) | RFunction (i : Z) | RAddress (a : Z).
Record RelocEntry := { r_offset : Z; r_kind : RelocKind; r_target : RelocTarget; r_addend : Z }.

(** A direct-call target: a published function of a sealed module. *)
Record ExtTarget := { xt_addr : Z; xt_token : Z; xt_arity : Z; xt_may_tail : bool }.

Record CompiledFn := { c_code : list byte; c_relocs : list RelocEntry }.

Inductive JitError := JIsa | UnsupportedReloc | Codegen | BadBytecode.

(** ** The decoder *)

Section decoder.
Context (c : list byte).
Abbreviation DM := (M Z JitError).

Definition dec_u8 : DM Z :=
  p ← get; v ← ok_or (lookupz c p) BadBytecode; _ ← modify (fun p => p + 1); mret (b2z v).
Definition dec_u32 : DM Z :=
  p ← get; s ← ok_or (slice c p (p + 4)) BadBytecode; _ ← modify (fun p => p + 4); mret (le_val s).
Definition dec_i32 : DM Z := v ← dec_u32; mret (swrap 32 v).
Definition dec_i64 : DM Z :=
  p ← get; s ← ok_or (slice c p (p + 8)) BadBytecode; _ ← modify (fun p => p + 8); mret (swrap 64 (le_val s)).

(** [n] times [d.u8()?;] *)
Definition dec_u8s (n : Z) : DM unit := repeat_m (Z.to_nat n) (_ ← dec_u8; mret tt).
(** [let n = d.u8()?; for _ in 0..n { d.u8()?; }] *)
Definition dec_counted : DM unit := n ← dec_u8; dec_u8s n.

Definition dec_pool : DM unit :=
  _ ← dec_u8; len ← dec_u32; p ← get;
  _ ← fail_if (bool_decide (p + len > zlen c)) BadBytecode;
  modify (fun p => p + len).

(** [skip_insn], without the opcode it reads first. *)
Definition skip_arms : list (list Z * DM unit) :=
  [ ([op.NOP], mret tt);
    ([op.LOAD_INT], _ ← dec_u8; _ ← dec_i64; mret tt);
    ([op.LOAD_ATOM], _ ← dec_u8; _ ← dec_u32; mret tt);
    ([op.LOAD_NIL; op.SELF_PID; op.RECV; op.RET; op.EXIT_ATOM; op.PRINT; op.TICKS], dec_u8s 1);
    ([op.MOVE; op.HEAD; op.TAIL; op.SEND], dec_u8s 2);
    ([op.MAKE_TUPLE], _ ← dec_u8; dec_counted);
    ([op.GET_ELEM; op.CONS; op.ADD; op.SUB; op.MUL; op.CMP_EQ; op.CMP_LT; op.BAND; op.BOR; op.BXOR; op.BSL; op.BSR;
      op.BIN_CAT; op.LIST_CAT], dec_u8s 3);
    ([op.BNOT; op.BIN_FROM_LIST; op.BIN_TO_LIST; op.BIN_SIZE; op.BUF_TO_BIN; op.BIN_TO_BUF; op.IS_BINARY], dec_u8s 2);
    ([op.BIN_NEW], dec_pool);
    ([op.MAP_NEW], _ ← dec_u8; n ← dec_u8; repeat_m (Z.to_nat n) (dec_u8s 2));
    ([op.MAP_GET; op.BIN_AT], dec_u8s 3);
    ([op.MAP_PUT; op.BIN_PART], dec_u8s 4);
    ([op.JMP], _ ← dec_i32; mret tt);
    ([op.JMP_IF], _ ← dec_u8; _ ← dec_i32; mret tt);
    ([op.CALL], _ ← dec_u8; _ ← dec_u32; dec_counted);
    ([op.SPAWN], _ ← dec_u8; _ ← dec_u32; dec_u8s 1);
    ([op.PORT_OPEN], dec_u8s 2);
    ([op.PORT_SUBMIT], dec_u8s 4);
    ([op.PORT_SUBMIT2], dec_u8s 5);
    ([op.BUF_WRITE], dec_u8s 4);
    ([op.SLEEP_MS], dec_u8s 1);
    ([op.BUF_NEW], dec_u8s 2);
    ([op.BUF_READ], dec_u8s 4);
    ([op.CALL_EXT], _ ← dec_u8; _ ← dec_u32; _ ← dec_u32; dec_counted);
    ([op.TAIL_CALL_EXT], _ ← dec_u32; _ ← dec_u32; dec_counted);
    ([op.TAIL_CALL], _ ← dec_u32; dec_counted) ].

Definition skip_insn : DM unit := opcode ← dec_u8; select_arm opcode skip_arms (throw BadBytecode).

(** ** Block leaders *)

(** The position and the leaders found so far. *)
Abbreviation LM := (M (Z * gset Z) JitError).

Definition on_pos {A} (d : DM A) : LM A := fun s => let '(r, p) := d s.1 in (r, (p, s.2)).
Definition mark (p : Z) : LM unit := modify (fun s => (s.1, {[p]} ∪ s.2)).
Definition mark_here : LM unit := s ← get; mark s.1.
(** [leaders.insert((d.pc as i64 + off as i64) as usize)] *)
Definition mark_target (off : Z) : LM unit := s ← get; mark (wrap 64 (s.1 + off)).

Definition leader_arms (opcode : Z) : list (list Z * LM unit) :=
  [ ([op.NOP], mret tt);
    ([op.LOAD_INT], on_pos (_ ← dec_u8; _ ← dec_i64; mret tt));
    ([op.LOAD_ATOM], on_pos (_ ← dec_u8; _ ← dec_u32; mret tt));
    ([op.LOAD_NIL; op.SELF_PID; op.RECV; op.RET; op.EXIT_ATOM; op.PRINT; op.TICKS],
      _ ← on_pos (dec_u8s 1); if bool_decide (opcode = op.RET \/ opcode = op.EXIT_ATOM) then mark_here else mret tt);
    ([op.MOVE; op.HEAD; op.TAIL; op.SEND], on_pos (dec_u8s 2));
    ([op.MAKE_TUPLE], on_pos (_ ← dec_u8; dec_counted));
    ([op.GET_ELEM], on_pos (dec_u8s 3));
    ([op.CONS; op.ADD; op.SUB; op.MUL; op.CMP_EQ; op.CMP_LT; op.BAND; op.BOR; op.BXOR; op.BSL; op.BSR; op.BIN_CAT;
      op.LIST_CAT], on_pos (dec_u8s 3));
    ([op.BNOT; op.BIN_FROM_LIST; op.BIN_TO_LIST; op.BIN_SIZE; op.BUF_TO_BIN; op.BIN_TO_BUF; op.IS_BINARY], on_pos (dec_u8s 2));
    ([op.BIN_NEW], on_pos dec_pool);
    ([op.MAP_NEW], on_pos (_ ← dec_u8; n ← dec_u8; repeat_m (Z.to_nat n) (dec_u8s 2)));
    ([op.MAP_GET; op.BIN_AT], on_pos (dec_u8s 3));
    ([op.MAP_PUT; op.BIN_PART], on_pos (dec_u8s 4));
    ([op.JMP], off ← on_pos dec_i32; _ ← mark_target off; mark_here);
    ([op.JMP_IF], _ ← on_pos dec_u8; off ← on_pos dec_i32; _ ← mark_target off; mark_here);
    ([op.CALL], on_pos (_ ← dec_u8; _ ← dec_u32; dec_counted));
    ([op.SPAWN], on_pos (_ ← dec_u8; _ ← dec_u32; dec_u8s 1));
    ([op.PORT_OPEN], on_pos (dec_u8s 2));
    ([op.PORT_SUBMIT], on_pos (dec_u8s 4));
    ([op.PORT_SUBMIT2], on_pos (dec_u8s 5));
    ([op.BUF_WRITE], on_pos (dec_u8s 4));
    ([op.SLEEP_MS], on_pos (dec_u8s 1));
    ([op.BUF_NEW], on_pos (dec_u8s 2));
    ([op.BUF_READ], on_pos (dec_u8s 4));
    ([op.CALL_EXT], on_pos (_ ← dec_u8; _ ← dec_u32; _ ← dec_u32; dec_counted));
    ([op.TAIL_CALL_EXT], _ ← on_pos (_ ← dec_u32; _ ← dec_u32; dec_counted); mark_here);
    ([op.TAIL_CALL], _ ← on_pos (_ ← dec_u32; dec_counted); mark_here) ].

(** [while d.pc < code.len()]; every round consumes the opcode. *)
Fixpoint leader_loop (fuel : nat) : LM unit :=
  match fuel with
  | O => nofuel
  | S fuel' =>
      s ← get;
      if bool_decide (s.1 < zlen c) then
        opcode ← on_pos dec_u8;
        _ ← select_arm opcode (leader_arms opcode) (throw BadBytecode);
        leader_loop fuel'
      else mret tt
  end.

Definition find_leaders : res JitError (gset Z) :=
  match leader_loop (S (length c)) (0, {[0]}) with
  | (Ok _, s) => Ok (s.2 ∖ {[zlen c]})
  | (Err e, _) => Err e
  | (Panic, _) => Panic
  | (NoFuel, _) => NoFuel
  end.
End decoder.

(** ** The translator *)

(** [Tx], with the decoder's position, the flags of the loop and the resolver's state. *)
Record Tx (X : Type) := {
  tx_b : IrFunc;
  tx_pc : Z;
  tx_regs : list Z;
  tx_blocks : gmap Z Z;
  tx_trap : Z;
  tx_helpers : gmap Z Z;
  tx_siblings : gmap Z Z;
  tx_ext_funcs : gmap Z Z;
  tx_ext_addrs : list Z;
  tx_filled : bool;
  tx_in_block : bool;
  tx_env : X;
}.
Arguments tx_b {X} _.
Arguments tx_pc {X} _.
Arguments tx_regs {X} _.
Arguments tx_blocks {X} _.
Arguments tx_trap {X} _.
Arguments tx_helpers {X} _.
Arguments tx_siblings {X} _.
Arguments tx_ext_funcs {X} _.
Arguments tx_ext_addrs {X} _.
Arguments tx_filled {X} _.
Arguments tx_in_block {X} _.
Arguments tx_env {X} _.

Section translator.
Context {X : Type} (resolver : Z -> Z -> M X Empty_set (option ExtTarget)).
(** The module, its atoms in the global table, whether helpers are in reach of a relative call,
    the function and the address of its bytecode. *)
Context (m : Module_) (atom_map : list Z) (pcrel_helpers : bool) (f : Function) (code_ptr : Z).

Abbreviation TM := (M (Tx X) JitError).

Definition upd_b (g : IrFunc -> IrFunc) (t : Tx X) : Tx X :=
  {| tx_b := g (tx_b t); tx_pc := tx_pc t; tx_regs := tx_regs t; tx_blocks := tx_blocks t; tx_trap := tx_trap t;
     tx_helpers := tx_helpers t; tx_siblings := tx_siblings t; tx_ext_funcs := tx_ext_funcs t;
     tx_ext_addrs := tx_ext_addrs t; tx_filled := tx_filled t; tx_in_block := tx_in_block t; tx_env := tx_env t |}.
Definition set_pos (p : Z) (t : Tx X) : Tx X :=
  {| tx_b := tx_b t; tx_pc := p; tx_regs := tx_regs t; tx_blocks := tx_blocks t; tx_trap := tx_trap t;
     tx_helpers := tx_helpers t; tx_siblings := tx_siblings t; tx_ext_funcs := tx_ext_funcs t;
     tx_ext_addrs := tx_ext_addrs t; tx_filled := tx_filled t; tx_in_block := tx_in_block t; tx_env := tx_env t |}.
Definition set_flags (fl ib : bool) (t : Tx X) : Tx X :=
  {| tx_b := tx_b t; tx_pc := tx_pc t; tx_regs := tx_regs t; tx_blocks := tx_blocks t; tx_trap := tx_trap t;
     tx_helpers := tx_helpers t; tx_siblings := tx_siblings t; tx_ext_funcs := tx_ext_funcs t;
     tx_ext_addrs := tx_ext_addrs t; tx_filled := fl; tx_in_block := ib; tx_env := tx_env t |}.
Definition set_imports (hs ss es : gmap Z Z) (addrs : list Z) (t : Tx X) : Tx X :=
  {| tx_b := tx_b t; tx_pc := tx_pc t; tx_regs := tx_regs t; tx_blocks := tx_blocks t; tx_trap := tx_trap t;
     tx_helpers := hs; tx_siblings := ss; tx_ext_funcs := es;
     tx_ext_addrs := addrs; tx_filled := tx_filled t; tx_in_block := tx_in_block t; tx_env := tx_env t |}.
Definition set_frame (rs : list Z) (bs : gmap Z Z) (tr : Z) (t : Tx X) : Tx X :=
  {| tx_b := tx_b t; tx_pc := tx_pc t; tx_regs := rs; tx_blocks := bs; tx_trap := tr;
     tx_helpers := tx_helpers t; tx_siblings := tx_siblings t; tx_ext_funcs := tx_ext_funcs t;
     tx_ext_addrs := tx_ext_addrs t; tx_filled := tx_filled t; tx_in_block := tx_in_block t; tx_env := tx_env t |}.
Definition set_env (x : X) (t : Tx X) : Tx X :=
  {| tx_b := tx_b t; tx_pc := tx_pc t; tx_regs := tx_regs t; tx_blocks := tx_blocks t; tx_trap := tx_trap t;
     tx_helpers := tx_helpers t; tx_siblings := tx_siblings t; tx_ext_funcs := tx_ext_funcs t;
     tx_ext_addrs := tx_ext_addrs t; tx_filled := tx_filled t; tx_in_block := tx_in_block t; tx_env := x |}.

Definition on_dec {A} (d : M Z JitError A) : TM A := fun t => let '(r, p) := d (tx_pc t) in (r, set_pos p t).
Abbreviation t_u8 := (on_dec (dec_u8 (code f))).
Abbreviation t_u32 := (on_dec (dec_u32 (code f))).
Abbreviation t_i32 := (on_dec (dec_i32 (code f))).
Abbreviation t_i64 := (on_dec (dec_i64 (code f))).

(** *** Builder calls *)

(** [tx.b.ins().op(..)] for an instruction with a result, and for one without. *)
Definition ins (i : Z -> inst) : TM Z :=
  t ← get; let d := ir_vals (tx_b t) in
  _ ← modify (upd_b (fun F => new_val (push_inst (i d) F))); mret d.
Definition ins0 (i : inst) : TM unit := modify (upd_b (push_inst i)).

Definition iconst (v : Z) : TM Z := ins (fun d => Iconst d v).
Definition create_block : TM Z := t ← get; _ ← modify (upd_b new_block); mret (ir_blocks (tx_b t)).
Definition switch_to_block (b : Z) : TM unit := modify (upd_b (set_cur b)).
Definition import_function (x : ExtFunc) : TM Z :=
  t ← get; _ ← modify (upd_b (new_import x)); mret (zlen (ir_funcs (tx_b t))).
(** A call; its result when the signature has one. *)
Definition ins_call (fref : Z) (args : list Z) : TM (option Z) :=
  t ← get;
  x ← unwrap (lookupz (ir_funcs (tx_b t)) fref);
  if has_ret x then d ← ins (fun d => Call (Some d) fref args); mret (Some d)
  else _ ← ins0 (Call None fref args); mret None.

(** [tx.b.use_var(tx.regs[r])] and [tx.b.def_var(tx.regs[r], v)] *)
Definition use_reg (r : Z) : TM Z := t ← get; x ← unwrap (lookupz (tx_regs t) r); ins (fun d => UseVar d x).
Definition def_reg (r v : Z) : TM unit := t ← get; x ← unwrap (lookupz (tx_regs t) r); ins0 (DefVar x v).

Definition fill : TM unit := modify (fun t => set_flags true (tx_in_block t) t).

(** *** Methods of [Tx] *)

Definition helper (h : Helper.t) : TM Z :=
  let i := Helper.idx h in
  t ← get;
  match tx_helpers t !! i with
  | Some r => mret r
  | None =>
      r ← import_function {| namespace := 0; index := i; nparams := helper_nargs i;
                             has_ret := helper_has_ret i; colocated := pcrel_helpers |};
      _ ← modify (fun t => set_imports (<[i := r]> (tx_helpers t)) (tx_siblings t) (tx_ext_funcs t) (tx_ext_addrs t) t);
      mret r
  end.

(** [fn_signature]: one word per parameter, one result. *)
Definition fn_import (ns i ar : Z) : ExtFunc :=
  {| namespace := ns; index := i; nparams := ar; has_ret := true; colocated := true |}.

Definition ext_target (addr ar : Z) : TM Z :=
  t ← get;
  match tx_ext_funcs t !! addr with
  | Some r => mret r
  | None =>
      let i := wrap 32 (zlen (tx_ext_addrs t)) in
      _ ← modify (fun t => set_imports (tx_helpers t) (tx_siblings t) (tx_ext_funcs t) (tx_ext_addrs t ++ [addr]) t);
      r ← import_function (fn_import 2 i ar);
      _ ← modify (fun t => set_imports (tx_helpers t) (tx_siblings t) (<[addr := r]> (tx_ext_funcs t)) (tx_ext_addrs t) t);
      mret r
  end.

Definition sibling (fn_idx : Z) : TM Z :=
  t ← get;
  match tx_siblings t !! fn_idx with
  | Some r => mret r
  | None =>
      g ← unwrap (lookupz (functions m) fn_idx);
      r ← import_function (fn_import 1 fn_idx (arity g));
      _ ← modify (fun t => set_imports (tx_helpers t) (<[fn_idx := r]> (tx_siblings t)) (tx_ext_funcs t) (tx_ext_addrs t) t);
      mret r
  end.

Definition call_helper (h : Helper.t) (args : list Z) : TM (option Z) := r ← helper h; ins_call r args.
(** [tx.call_helper(h, args).unwrap()], and a call whose result is dropped. *)
Definition call_val (h : Helper.t) (args : list Z) : TM Z := o ← call_helper h args; unwrap o.
Definition call_unit (h : Helper.t) (args : list Z) : TM unit := _ ← call_helper h args; mret tt.

Definition expect_int (v : Z) : TM Z :=
  tg ← ins (fun d => BinaryImm band d v 7);
  ok ← ins (fun d => IcmpImm Equal d tg TAG_INT);
  cont ← create_block;
  t ← get;
  _ ← ins0 (Brif ok cont (tx_trap t));
  _ ← switch_to_block cont;
  ins (fun d => BinaryImm sshr d v 3).

Definition retag_int (raw : Z) : TM Z :=
  shifted ← ins (fun d => BinaryImm ishl d raw 3);
  ins (fun d => BinaryImm bor d shifted TAG_INT).

Definition atom_const (local : Z) : TM Z := g ← ok_or (lookupz atom_map local) BadBytecode; iconst (swrap 64 (term_atom g)).

Definition create_slot (size : Z) : TM Z := t ← get; _ ← modify (upd_b (new_slot size)); mret (zlen (ir_slots (tx_b t))).

Fixpoint spill_from (ss i : Z) (vs : list Z) : TM unit :=
  match vs with
  | [] => mret tt
  | v :: vs' => _ ← ins0 (StackStore v ss (i * 8)); spill_from ss (i + 1) vs'
  end.

Definition spill (vs : list Z) : TM Z :=
  ss ← create_slot (Z.max (zlen vs) 1 * 8);
  _ ← spill_from ss 0 vs;
  ins (fun d => StackAddr d ss 0).

(** [for _ in 0..n { let r = d.u8()? as usize; args.push(tx.b.use_var(tx.regs[r])); }] *)
Definition use_args (n : Z) : TM (list Z) := collect (Z.to_nat n) (r ← t_u8; use_reg r).

(** *** The arms *)

Definition j_nop : TM unit := mret tt.
Definition j_load_int : TM unit := rd ← t_u8; v ← t_i64; k ← iconst (swrap 64 (term_int v)); def_reg rd k.
Definition j_load_atom : TM unit := rd ← t_u8; a ← t_u32; k ← atom_const a; def_reg rd k.
Definition j_load_nil : TM unit := rd ← t_u8; k ← iconst (swrap 64 NIL); def_reg rd k.
Definition j_move : TM unit := rd ← t_u8; rs ← t_u8; v ← use_reg rs; def_reg rd v.
Definition j_self_pid : TM unit := rd ← t_u8; v ← call_val Helper.SelfPid []; def_reg rd v.
Definition j_ticks : TM unit := rd ← t_u8; v ← call_val Helper.Ticks []; def_reg rd v.
Definition j_make_tuple : TM unit :=
  rd ← t_u8; n ← t_u8; vs ← use_args n;
  ptr ← spill vs; nv ← iconst n; v ← call_val Helper.MakeTuple [ptr; nv]; def_reg rd v.
Definition j_get_elem : TM unit :=
  rd ← t_u8; rs ← t_u8; idx ← t_u8; t ← use_reg rs; iv ← iconst idx;
  v ← call_val Helper.GetElem [t; iv]; def_reg rd v.
Definition j_cons : TM unit :=
  rd ← t_u8; rh ← t_u8; rt ← t_u8; h ← use_reg rh; t ← use_reg rt; v ← call_val Helper.Cons [h; t]; def_reg rd v.
Definition j_head_tail (opcode : Z) : TM unit :=
  rd ← t_u8; rs ← t_u8; t ← use_reg rs;
  v ← call_val (if bool_decide (opcode = op.HEAD) then Helper.Head else Helper.Tail) [t]; def_reg rd v.
Definition j_arith (opcode : Z) : TM unit :=
  rd ← t_u8; ra ← t_u8; rb ← t_u8; a ← use_reg ra; b ← use_reg rb;
  ua ← expect_int a; ub ← expect_int b;
  raw ← ins (fun d => Binary (if bool_decide (opcode = op.ADD) then iadd
                              else if bool_decide (opcode = op.SUB) then isub else imul) d ua ub);
  v ← retag_int raw; def_reg rd v.
Definition j_cmp_eq : TM unit :=
  rd ← t_u8; ra ← t_u8; rb ← t_u8; a ← use_reg ra; b ← use_reg rb;
  raw ← call_val Helper.Eq [a; b]; v ← retag_int raw; def_reg rd v.
Definition j_cmp_lt : TM unit :=
  rd ← t_u8; ra ← t_u8; rb ← t_u8; a ← use_reg ra; b ← use_reg rb;
  ua ← expect_int a; ub ← expect_int b;
  c ← ins (fun d => Icmp SignedLessThan d ua ub); c64 ← ins (fun d => Uextend d c);
  v ← retag_int c64; def_reg rd v.

(** [(d.pc as i64 + off as i64) as usize] *)
Definition jump_target (off : Z) : TM Z := t ← get; mret (wrap 64 (tx_pc t + off)).
Definition block_at (p : Z) : TM Z := t ← get; ok_or (tx_blocks t !! p) BadBytecode.
Definition poll_if_back (off : Z) : TM unit := if bool_decide (off < 0) then call_unit Helper.Safepoint [] else mret tt.

Definition j_jmp : TM unit :=
  off ← t_i32; target ← jump_target off; _ ← poll_if_back off; blk ← block_at target; _ ← ins0 (Jump blk); fill.
Definition j_jmp_if : TM unit :=
  rc ← t_u8; off ← t_i32; target ← jump_target off; fall ← gets tx_pc;
  v ← use_reg rc; raw ← expect_int v; _ ← poll_if_back off;
  cond ← ins (fun d => IcmpImm NotEqual d raw 0);
  tblk ← block_at target; fblk ← block_at fall; _ ← ins0 (Brif cond tblk fblk); fill.
Definition j_call : TM unit :=
  rd ← t_u8; callee ← t_u32; n ← t_u8; args ← use_args n;
  _ ← call_unit Helper.Safepoint [];
  fref ← sibling callee; o ← ins_call fref args; v ← unwrap o;
  is_tail ← ins (fun d => IcmpImm Equal d v 7);
  cont ← create_block; unwind ← create_block;
  _ ← ins0 (Brif is_tail unwind cont);
  _ ← switch_to_block unwind;
  sent ← iconst 7; _ ← ins0 (Return_ [sent]);
  _ ← switch_to_block cont;
  def_reg rd v.
Definition j_ret : TM unit := rs ← t_u8; v ← use_reg rs; _ ← ins0 (Return_ [v]); fill.
Definition j_spawn : TM unit :=
  rd ← t_u8; callee ← t_u32; ra ← t_u8; arg ← use_reg ra; fi ← iconst callee;
  v ← call_val Helper.Spawn [fi; arg]; def_reg rd v.
Definition j_send : TM unit :=
  rt ← t_u8; rm ← t_u8; to ← use_reg rt; msg ← use_reg rm; call_unit Helper.Send [to; msg].
Definition j_recv : TM unit := rd ← t_u8; v ← call_val Helper.Recv []; def_reg rd v.
Definition j_print : TM unit := rs ← t_u8; v ← use_reg rs; call_unit Helper.Print [v].
Definition j_exit_atom : TM unit :=
  rs ← t_u8; v ← use_reg rs; _ ← call_unit Helper.ExitAtom [v]; _ ← ins0 (TrapInst 1); fill.
Definition j_port_open : TM unit := rd ← t_u8; kind ← t_u8; k ← iconst kind; v ← call_val Helper.PortOpen [k]; def_reg rd v.
Definition j_port_submit : TM unit :=
  rp ← t_u8; o ← t_u8; ra ← t_u8; rt ← t_u8;
  p ← use_reg rp; ov ← iconst o; a0 ← use_reg ra; tg ← use_reg rt; call_unit Helper.PortSubmit [p; ov; a0; tg].
Definition j_port_submit2 : TM unit :=
  rp ← t_u8; ro ← t_u8; ra0 ← t_u8; ra1 ← t_u8; rt ← t_u8;
  p ← use_reg rp; o ← use_reg ro; a0 ← use_reg ra0; a1 ← use_reg ra1; tg ← use_reg rt;
  call_unit Helper.PortSubmit2 [p; o; a0; a1; tg].
Definition j_buf_write : TM unit :=
  rd ← t_u8; rb ← t_u8; ro ← t_u8; rs ← t_u8; b ← use_reg rb; o ← use_reg ro; s ← use_reg rs;
  v ← call_val Helper.BufWrite [b; o; s]; def_reg rd v.
Definition j_sleep_ms : TM unit :=
  rm ← t_u8; ms ← use_reg rm; _ ← call_unit Helper.Safepoint []; call_unit Helper.SleepMs [ms].
Definition j_buf_new : TM unit := rd ← t_u8; rs ← t_u8; s ← use_reg rs; v ← call_val Helper.BufNew [s]; def_reg rd v.
Definition j_buf_read : TM unit :=
  rd ← t_u8; rb ← t_u8; ro ← t_u8; rl ← t_u8; b ← use_reg rb; o ← use_reg ro; l ← use_reg rl;
  v ← call_val Helper.BufRead [b; o; l]; def_reg rd v.

Definition ask_resolver (gm gf : Z) : TM (option ExtTarget) := fun t =>
  let '(r, x) := resolver gm gf (tx_env t) in
  (match r with Ok o => Ok o | Err e => match e with end | Panic => Panic | NoFuel => NoFuel end, set_env x t).

(** The direct call of a sealed callee. *)
Definition j_call_direct (rd : Z) (x : ExtTarget) (n : Z) (args : list Z) : TM unit :=
  fref ← ext_target (xt_addr x) n; o ← ins_call fref args; v ← unwrap o; _ ← def_reg rd v;
  if xt_may_tail x then
    is_sent ← ins (fun d => IcmpImm Equal d v 7);
    resume ← create_block; join ← create_block;
    _ ← ins0 (Brif is_sent resume join);
    _ ← switch_to_block resume;
    tok ← iconst (swrap 64 (xt_token x)); v2 ← call_val Helper.ResumeTail [tok]; _ ← def_reg rd v2; _ ← ins0 (Jump join);
    switch_to_block join
  else mret tt.

(** The dispatch through [Helper::CallExt]. *)
Definition j_call_dynamic (rd mlocal flocal n : Z) (args : list Z) : TM unit :=
  ma ← atom_const mlocal; fa ← atom_const flocal; ptr ← spill args; nv ← iconst n;
  _ ← call_unit Helper.Safepoint [];
  v ← call_val Helper.CallExt [ma; fa; ptr; nv]; def_reg rd v.

Definition j_call_ext : TM unit :=
  rd ← t_u8; mlocal ← t_u32; flocal ← t_u32; n ← t_u8; args ← use_args n;
  gm ← ok_or (lookupz atom_map mlocal) BadBytecode;
  gf ← ok_or (lookupz atom_map flocal) BadBytecode;
  o ← ask_resolver gm gf;
  match o with
  | Some x => if bool_decide (xt_arity x = n /\ n <= 16) then j_call_direct rd x n args
              else j_call_dynamic rd mlocal flocal n args
  | None => j_call_dynamic rd mlocal flocal n args
  end.
Definition j_tail_call_ext : TM unit :=
  mlocal ← t_u32; flocal ← t_u32; n ← t_u8; args ← use_args n;
  ma ← atom_const mlocal; fa ← atom_const flocal; ptr ← spill args; nv ← iconst n;
  _ ← call_unit Helper.Safepoint []; _ ← call_unit Helper.TailCallExt [ma; fa; ptr; nv];
  sent ← iconst 7; _ ← ins0 (Return_ [sent]); fill.
Definition j_tail_call : TM unit :=
  callee ← t_u32; n ← t_u8; args ← use_args n;
  fi ← iconst callee; ptr ← spill args; nv ← iconst n;
  _ ← call_unit Helper.Safepoint []; _ ← call_unit Helper.TailCallLocal [fi; ptr; nv];
  sent ← iconst 7; _ ← ins0 (Return_ [sent]); fill.
Definition j_bitop (opcode : Z) : TM unit :=
  rd ← t_u8; ra ← t_u8; rb ← t_u8; a ← use_reg ra; b ← use_reg rb;
  ua ← expect_int a; ub ← expect_int b;
  raw ← ins (fun d => Binary (if bool_decide (opcode = op.BAND) then band
                              else if bool_decide (opcode = op.BOR) then bor else bxor) d ua ub);
  v ← retag_int raw; def_reg rd v.
Definition j_shift (opcode : Z) : TM unit :=
  rd ← t_u8; ra ← t_u8; rb ← t_u8; a ← use_reg ra; b ← use_reg rb;
  ua ← expect_int a; ub ← expect_int b;
  in_range ← ins (fun d => IcmpImm UnsignedLessThanOrEqual d ub 60);
  cont ← create_block;
  t ← get;
  _ ← ins0 (Brif in_range cont (tx_trap t));
  _ ← switch_to_block cont;
  raw ← ins (fun d => Binary (if bool_decide (opcode = op.BSL) then ishl else sshr) d ua ub);
  v ← retag_int raw; def_reg rd v.
Definition j_bnot : TM unit :=
  rd ← t_u8; rs ← t_u8; a ← use_reg rs; ua ← expect_int a; raw ← ins (fun d => Bnot d ua); v ← retag_int raw; def_reg rd v.
Definition j_bin_new : TM unit :=
  rd ← t_u8; len ← t_u32; t ← get;
  _ ← fail_if (bool_decide (tx_pc t + len > zlen (code f))) BadBytecode;
  let ptr := swrap 64 (code_ptr + tx_pc t) in
  _ ← modify (set_pos (tx_pc t + len));
  pv ← iconst ptr; lv ← iconst len; v ← call_val Helper.BinConst [pv; lv]; def_reg rd v.
Definition j_map_new : TM unit :=
  rd ← t_u8; n ← t_u8;
  vss ← collect (Z.to_nat n) (rk ← t_u8; rv ← t_u8; k ← use_reg rk; v ← use_reg rv; mret [k; v]);
  ptr ← spill (concat vss); nv ← iconst n; v ← call_val Helper.MapNew [ptr; nv]; def_reg rd v.
Definition j_map_get : TM unit :=
  rd ← t_u8; rm ← t_u8; rk ← t_u8; mv ← use_reg rm; k ← use_reg rk; v ← call_val Helper.MapGet [mv; k]; def_reg rd v.
Definition j_map_put : TM unit :=
  rd ← t_u8; rm ← t_u8; rk ← t_u8; rv ← t_u8; mv ← use_reg rm; k ← use_reg rk; v0 ← use_reg rv;
  v ← call_val Helper.MapPut [mv; k; v0]; def_reg rd v.
Definition j_bin_unary (opcode : Z) : TM unit :=
  rd ← t_u8; rs ← t_u8; a ← use_reg rs;
  let h := if bool_decide (opcode = op.BIN_FROM_LIST) then Helper.BinFromList
           else if bool_decide (opcode = op.BIN_TO_LIST) then Helper.BinToList
           else if bool_decide (opcode = op.BIN_SIZE) then Helper.BinSize
           else if bool_decide (opcode = op.BUF_TO_BIN) then Helper.BufToBin else Helper.BinToBuf in
  v ← call_val h [a]; def_reg rd v.
Definition j_bin_at : TM unit :=
  rd ← t_u8; rb ← t_u8; ri ← t_u8; b ← use_reg rb; i ← use_reg ri; v ← call_val Helper.BinAt [b; i]; def_reg rd v.
Definition j_bin_part : TM unit :=
  rd ← t_u8; rb ← t_u8; ro ← t_u8; rl ← t_u8; b ← use_reg rb; o ← use_reg ro; l ← use_reg rl;
  v ← call_val Helper.BinPart [b; o; l]; def_reg rd v.
Definition j_is_binary : TM unit :=
  rd ← t_u8; rs ← t_u8; a ← use_reg rs; raw ← call_val Helper.IsBinary [a]; v ← retag_int raw; def_reg rd v.
Definition j_cat (opcode : Z) : TM unit :=
  rd ← t_u8; ra ← t_u8; rb ← t_u8; a ← use_reg ra; b ← use_reg rb;
  v ← call_val (if bool_decide (opcode = op.BIN_CAT) then Helper.BinCat else Helper.ListCat) [a; b]; def_reg rd v.

(** The opcode match of [compile_fn], in its order. *)
Definition jit_arms (opcode : Z) : list (list Z * TM unit) :=
  [ ([op.NOP], j_nop); ([op.LOAD_INT], j_load_int); ([op.LOAD_ATOM], j_load_atom); ([op.LOAD_NIL], j_load_nil);
    ([op.MOVE], j_move); ([op.SELF_PID], j_self_pid); ([op.TICKS], j_ticks); ([op.MAKE_TUPLE], j_make_tuple);
    ([op.GET_ELEM], j_get_elem); ([op.CONS], j_cons); ([op.HEAD; op.TAIL], j_head_tail opcode);
    ([op.ADD; op.SUB; op.MUL], j_arith opcode); ([op.CMP_EQ], j_cmp_eq); ([op.CMP_LT], j_cmp_lt);
    ([op.JMP], j_jmp); ([op.JMP_IF], j_jmp_if); ([op.CALL], j_call); ([op.RET], j_ret); ([op.SPAWN], j_spawn);
    ([op.SEND], j_send); ([op.RECV], j_recv); ([op.PRINT], j_print); ([op.EXIT_ATOM], j_exit_atom);
    ([op.PORT_OPEN], j_port_open); ([op.PORT_SUBMIT], j_port_submit); ([op.PORT_SUBMIT2], j_port_submit2);
    ([op.BUF_WRITE], j_buf_write); ([op.SLEEP_MS], j_sleep_ms); ([op.BUF_NEW], j_buf_new); ([op.BUF_READ], j_buf_read);
    ([op.CALL_EXT], j_call_ext); ([op.TAIL_CALL_EXT], j_tail_call_ext); ([op.TAIL_CALL], j_tail_call);
    ([op.BAND; op.BOR; op.BXOR], j_bitop opcode); ([op.BSL; op.BSR], j_shift opcode); ([op.BNOT], j_bnot);
    ([op.BIN_NEW], j_bin_new); ([op.MAP_NEW], j_map_new); ([op.MAP_GET], j_map_get); ([op.MAP_PUT], j_map_put);
    ([op.BIN_FROM_LIST; op.BIN_TO_LIST; op.BIN_SIZE; op.BUF_TO_BIN; op.BIN_TO_BUF], j_bin_unary opcode);
    ([op.BIN_AT], j_bin_at); ([op.BIN_PART], j_bin_part); ([op.IS_BINARY], j_is_binary);
    ([op.BIN_CAT; op.LIST_CAT], j_cat opcode) ].

(** *** The loop *)

(** At a leader the previous block falls through into a new one. *)
Definition enter_block : TM unit :=
  t ← get;
  match tx_blocks t !! tx_pc t with
  | None => mret tt
  | Some blk =>
      _ ← (if tx_in_block t && negb (tx_filled t) then ins0 (Jump blk) else mret tt);
      _ ← switch_to_block blk;
      modify (set_flags false true)
  end.

Fixpoint translate_loop (fuel : nat) : TM unit :=
  match fuel with
  | O => nofuel
  | S fuel' =>
      t ← get;
      if bool_decide (tx_pc t < zlen (code f)) then
        _ ← enter_block;
        t ← get;
        _ ← (if tx_filled t then on_dec (skip_insn (code f))
             else opcode ← t_u8; select_arm opcode (jit_arms opcode) (throw BadBytecode));
        translate_loop fuel'
      else mret tt
  end.

(** Registers: one variable each, the first ones defined by the parameters, the rest by [NIL]. *)
Fixpoint define_regs (nil : Z) (params : Z) (i : Z) (rs : list Z) : TM unit :=
  match rs with
  | [] => mret tt
  | x :: rs' => _ ← ins0 (DefVar x (if bool_decide (i < params) then i else nil)); define_regs nil params (i + 1) rs'
  end.

Fixpoint create_blocks (ls : list Z) : TM (gmap Z Z) :=
  match ls with
  | [] => mret ∅
  | l :: ls' => b ← create_block; bs ← create_blocks ls'; mret (<[l := b]> bs)
  end.

Definition prologue (leaders : gset Z) : TM unit :=
  let rs := seqZ 0 (nregs f) in
  _ ← modify (upd_b (new_vars (nregs f)));
  nil ← iconst (swrap 64 NIL);
  _ ← define_regs nil (arity f) 0 rs;
  trap_block ← create_block;
  blocks ← create_blocks (merge_sort Z.le (elements leaders));
  b0 ← unwrap (blocks !! 0);
  _ ← ins0 (Jump b0);
  modify (set_frame rs blocks trap_block).

Definition epilogue : TM unit :=
  t ← get; _ ← switch_to_block (tx_trap t); _ ← call_unit Helper.TrapBadarg []; ins0 (TrapInst 1).

Definition tx0 (x : X) : Tx X :=
  {| tx_b := new_func (arity f); tx_pc := 0; tx_regs := []; tx_blocks := ∅; tx_trap := 0; tx_helpers := ∅;
     tx_siblings := ∅; tx_ext_funcs := ∅; tx_ext_addrs := []; tx_filled := true; tx_in_block := false; tx_env := x |}.

(** [compile_fn] up to [finalize]. *)
Definition translate_fn : M X JitError CodeUnit := fun x =>
  match find_leaders (code f) with
  | Ok leaders =>
      let '(r, t) := (_ ← prologue leaders; _ ← translate_loop (S (length (code f))); epilogue) (tx0 x) in
      (match r with
       | Ok _ => Ok {| u_func := tx_b t; u_addrs := tx_ext_addrs t |}
       | Err e => Err e | Panic => Panic | NoFuel => NoFuel
       end, tx_env t)
  | Err e => (Err e, x)
  | Panic => (Panic, x)
  | NoFuel => (NoFuel, x)
  end.
End translator.

(** ** Code generation *)

(** Relocations as the code generator reports them. *)
Inductive Reloc := ClAbs8 | X86CallPCRel4 | OtherReloc.
Inductive FinalizedRelocTarget := UserName (nref : Z) | OtherTarget.
Record RawReloc := { raw_offset : Z; raw_kind : Reloc; raw_target : FinalizedRelocTarget; raw_addend : Z }.

(** The third-party code generator: whether the target is supported, and compilation. *)
Class Backend := { isa_found : bool; ctx_compile : IrFunc -> option (list byte * list RawReloc) }.

Section codegen.
Context `{!Backend}.

Definition reloc_kind (k : Reloc) : res JitError RelocKind :=
  match k with ClAbs8 => Ok Abs8 | X86CallPCRel4 => Ok PcRel4 | OtherReloc => Err UnsupportedReloc end.

Definition reloc_target (U : CodeUnit) (t : FinalizedRelocTarget) : res JitError RelocTarget :=
  match t with
  | OtherTarget => Err UnsupportedReloc
  | UserName nref =>
      match lookupz (ir_funcs (u_func U)) nref with
      | None => Panic
      | Some x =>
          if bool_decide (namespace x = 0) then Ok (RHelper (index x))
          else if bool_decide (namespace x = 1) then Ok (RFunction (index x))
          else if bool_decide (namespace x = 2) then
            match lookupz (u_addrs U) (index x) with Some a => Ok (RAddress a) | None => Err UnsupportedReloc end
          else Err UnsupportedReloc
      end
  end.

Fixpoint reloc_entries (U : CodeUnit) (rs : list RawReloc) : res JitError (list RelocEntry) :=
  match rs with
  | [] => Ok []
  | r :: rs' =>
      k ← reloc_kind (raw_kind r);
      t ← reloc_target U (raw_target r);
      es ← reloc_entries U rs';
      Ok ({| r_offset := raw_offset r; r_kind := k; r_target := t; r_addend := raw_addend r |} :: es)
  end.

(** [compile_fn] from [ctx.compile] on. *)
Definition finish_fn (U : CodeUnit) : res JitError CompiledFn :=
  match ctx_compile (u_func U) with
  | None => Err Codegen
  | Some (c, raw) => rs ← reloc_entries U raw; Ok {| c_code := c; c_relocs := rs |}
  end.

Section modules.
Context {X : Type} (resolver : Z -> Z -> M X Empty_set (option ExtTarget)).
Context (m : Module_) (atom_map : list Z) (pcrel_helpers : bool) (code_ptr : Z -> Z).

Definition compile_fn (fn_idx : Z) (f : Function) : M X JitError CompiledFn :=
  U ← translate_fn resolver m atom_map pcrel_helpers f (code_ptr fn_idx); lift (finish_fn U).

(** [for fn_idx in 0..m.functions.len()] *)
Fixpoint compile_from (fn_idx : Z) (fs : list Function) : M X JitError (list CompiledFn) :=
  match fs with
  | [] => mret []
  | f :: fs' => c ← compile_fn fn_idx f; cs ← compile_from (fn_idx + 1) fs'; mret (c :: cs)
  end.

Definition compile_module_linked : M X JitError (list CompiledFn) :=
  _ ← fail_if (negb isa_found) JIsa; compile_from 0 (functions m).
End modules.

Definition compile_module (m : Module_) (atom_map : list Z) (code_ptr : Z -> Z) : res JitError (list CompiledFn) :=
  (compile_module_linked (X:=unit) (fun _ _ => mret None) m atom_map false code_ptr tt).1.
End codegen.
