(* ===== verification/JitLogic.v ===== *)
(** * JitLogic: reasoning about emitted code

    The translator appends to the block it is in and to blocks it creates, so what a translator
    state describes stays a prefix of the finished function.  [grow] states this for the
    translator's steps, [evals] is the run of the rest of a block with enough fuel, and the rules
    of the second half step through emitted instructions. *)

From S2P Require Import Prelude Term Bytecode Interp Clif Jit.

(** ** Functions grow *)

Record ext (F G : IrFunc) : Prop := {
  ext_code b : body F b `prefix_of` body G b;
  ext_vals : ir_vals F <= ir_vals G;
  ext_blocks : ir_blocks F <= ir_blocks G;
  ext_funcs : ir_funcs F `prefix_of` ir_funcs G;
  ext_slots : ir_slots F `prefix_of` ir_slots G;
}.

#[export] Instance ext_preorder : PreOrder ext.
Proof.
  split.
  - intros F. by split.
  - intros F G H [] []. split; try lia; intros; etrans; eauto.
Qed.

Lemma prefix_lookupz {A} (l k : list A) i x : l `prefix_of` k -> lookupz l i = Some x -> lookupz k i = Some x.
Proof. intros [k' ->] Hx. rewrite lookupz_app_l; [done|]. apply lookupz_range in Hx. lia. Qed.

Lemma body_push i F b :
  body (push_inst i F) b = if decide (b = ir_cur F) then body F b ++ [i] else body F b.
Proof.
  unfold body at 1. cbn. case_decide as H; [subst; by rewrite lookup_insert_eq|by rewrite lookup_insert_ne].
Qed.

Lemma ext_push i F : ext F (push_inst i F).
Proof. split; cbn; try lia; [|done..]. intros b. rewrite body_push. case_decide; [by apply prefix_app_r|done]. Qed.

(** ** Translator states *)

Section states.
Context {X : Type}.
Implicit Types t : Tx X.

Definition hlp_import (pcrel : bool) (i : Z) : ExtFunc :=
  {| namespace := 0; index := i; nparams := helper_nargs i; has_ret := helper_has_ret i; colocated := pcrel |}.

(** An import names what it stands for, with its signature. *)
Inductive import_ok (m : Module_) (ar_of : Z -> Z) (pcrel : bool) (addrs : list Z) : ExtFunc -> Prop :=
| imp_helper h : import_ok m ar_of pcrel addrs (hlp_import pcrel (Helper.idx h))
| imp_sibling i g : lookupz (functions m) i = Some g -> import_ok m ar_of pcrel addrs (fn_import 1 i (arity g))
| imp_direct i a : (zlen addrs < 2 ^ 32 -> lookupz addrs i = Some a) -> import_ok m ar_of pcrel addrs (fn_import 2 i (ar_of a)).

Lemma import_ok_more m ar_of pcrel l k x : l `prefix_of` k -> import_ok m ar_of pcrel l x -> import_ok m ar_of pcrel k x.
Proof.
  intros Hp [h|i g Hg|i a Ha]; [constructor|by constructor|]. constructor. intros Hk. eapply prefix_lookupz; [done|]. apply Ha.
  apply prefix_length in Hp. unfold zlen in *. lia.
Qed.

(** What the caches and the numbering of a translator state mean; [ar_of] is the arity of the
    function published at an address. *)
Record wfT (m : Module_) (ar_of : Z -> Z) (pcrel : bool) t : Prop := {
  wf_helpers i r : tx_helpers t !! i = Some r -> lookupz (ir_funcs (tx_b t)) r = Some (hlp_import pcrel i);
  wf_siblings i r : tx_siblings t !! i = Some r ->
    exists g, lookupz (functions m) i = Some g /\ lookupz (ir_funcs (tx_b t)) r = Some (fn_import 1 i (arity g));
  wf_ext a r : tx_ext_funcs t !! a = Some r -> exists i,
    lookupz (ir_funcs (tx_b t)) r = Some (fn_import 2 i (ar_of a)) /\
    (zlen (tx_ext_addrs t) < 2 ^ 32 -> lookupz (tx_ext_addrs t) i = Some a);
  wf_imports : Forall (import_ok m ar_of pcrel (tx_ext_addrs t)) (ir_funcs (tx_b t));
  wf_fresh b : ir_blocks (tx_b t) <= b -> body (tx_b t) b = [];
  wf_cur : ir_cur (tx_b t) < ir_blocks (tx_b t);
}.

(** [t'] is reached from [t] by emitting into [t]'s block and into new blocks. *)
Record grow t t' : Prop := {
  grow_ext : ext (tx_b t) (tx_b t');
  grow_addrs : tx_ext_addrs t `prefix_of` tx_ext_addrs t';
  grow_regs : tx_regs t' = tx_regs t;
  grow_blocks : tx_blocks t' = tx_blocks t;
  grow_trap : tx_trap t' = tx_trap t;
  grow_flag : tx_in_block t' = tx_in_block t;
  grow_local b : b < ir_blocks (tx_b t) -> b <> ir_cur (tx_b t) -> body (tx_b t') b = body (tx_b t) b;
  grow_cur : ir_cur (tx_b t') = ir_cur (tx_b t) \/ ir_blocks (tx_b t) <= ir_cur (tx_b t');
}.

#[export] Instance grow_preorder : PreOrder grow.
Proof.
  split.
  - intros t. split; try done. by left.
  - intros t1 t2 t3 [E1 A1 R1 B1 T1 F1 L1 C1] [E2 A2 R2 B2 T2 F2 L2 C2].
    pose proof (ext_blocks _ _ E1). split; try congruence; [by etrans|by etrans| |].
    + intros b Hb Hc. rewrite L2; [by apply L1|lia|]. destruct C1; lia.
    + destruct C2 as [->|]; [done|right; lia].
Qed.
End states.

(** ** Every step of the translator grows its state *)

#[global] Typeclasses Opaque on_dec ins ins0 iconst create_block create_slot switch_to_block import_function ins_call
  use_reg def_reg fill helper ext_target sibling call_helper call_val call_unit expect_int retag_int atom_const
  spill_from spill use_args jump_target block_at poll_if_back ask_resolver
  mret mbind M_ret M_bind get gets modify unwrap ok_or fail_if collect throw panic.

Section grows.
Context {X : Type} (resolver : Z -> Z -> M X Empty_set (option ExtTarget)).
Context (m : Module_) (ar_of : Z -> Z) (atom_map : list Z) (pcrel : bool) (f : Function) (code_ptr : Z).
Abbreviation TM := (M (Tx X) JitError).
Abbreviation wf := (wfT (X:=X) m ar_of pcrel).

Definition keeps (t0 t : Tx X) : Prop := wf t /\ grow t0 t.

Class Grows {A} (c : TM A) : Prop := grows t a t' : wf t -> c t = (Ok a, t') -> keeps t t'.

Lemma keeps_refl t : wf t -> keeps t t.
Proof. by split. Qed.

Lemma keeps_trans t1 t2 t3 : keeps t1 t2 -> keeps t2 t3 -> keeps t1 t3.
Proof. intros [_ ?] [? ?]. split; [done|by etrans]. Qed.

#[export] Instance Grows_ret {A} (a : A) : Grows (mret a).
Proof. intros t b t' Hw H. minv. by apply keeps_refl. Qed.

#[export] Instance Grows_bind {A B} (c : TM A) (k : A -> TM B) : Grows c -> (forall a, Grows (k a)) -> Grows (c ≫= k).
Proof. intros Hc Hk t b t' Hw H. minv. eapply Hc in Hc0; [|done]. eapply keeps_trans; [done|]. eapply Hk; [apply Hc0|done]. Qed.

(** A step that does not change the state. *)
Lemma Grows_quiet {A} (c : TM A) : (forall t a t', c t = (Ok a, t') -> t' = t) -> Grows c.
Proof. intros H t a t' Hw Hc. apply H in Hc as ->. by apply keeps_refl. Qed.

#[export] Instance Grows_get : Grows get.
Proof. apply Grows_quiet. intros t a t' [=]. by subst. Qed.
#[export] Instance Grows_gets {A} (g : Tx X -> A) : Grows (gets g).
Proof. apply Grows_quiet. intros t a t' [=]. by subst. Qed.
#[export] Instance Grows_unwrap {A} (o : option A) : Grows (unwrap o).
Proof. apply Grows_quiet. intros t a t' H. destruct o; [|discriminate H]. by injection H. Qed.
#[export] Instance Grows_ok_or {A} (o : option A) e : Grows (ok_or o e).
Proof. apply Grows_quiet. intros t a t' H. destruct o; [|discriminate H]. by injection H. Qed.
#[export] Instance Grows_fail b e : Grows (fail_if b e).
Proof. apply Grows_quiet. intros t a t' H. destruct b; [discriminate H|]. by injection H. Qed.
#[export] Instance Grows_if {A} (b : bool) (c c' : TM A) : Grows c -> Grows c' -> Grows (if b then c else c').
Proof. by destruct b. Qed.

#[export] Instance Grows_collect {A} n (c : TM A) : Grows c -> Grows (collect n c).
Proof. intros Hc. induction n; cbn [collect]; apply _. Qed.

Lemma wf_set_pos p t : wf t -> wf (set_pos p t).
Proof. by intros []. Qed.

#[export] Instance Grows_on_dec {A} (d : M Z JitError A) : Grows (on_dec d).
Proof. intros t a t' Hw. unfold on_dec. destruct (d (tx_pc t)) as [r p]. intros [= -> <-]. split; [by destruct Hw|split; try done; by left]. Qed.

#[export] Instance Grows_set_pos p : Grows (modify (set_pos p)).
Proof. intros t a t' Hw [= <- <-]. split; [by destruct Hw|split; try done; by left]. Qed.

#[export] Instance Grows_fill : Grows fill.
Proof. intros t a t' Hw [= <- <-]. split; [by destruct Hw|split; try done; by left]. Qed.

#[export] Instance Grows_ask gm gf : Grows (ask_resolver resolver gm gf).
Proof.
  intros t a t' Hw. unfold ask_resolver. destruct (resolver gm gf (tx_env t)) as [[o|[]| |] x]; intros [=]; subst.
  split; [by destruct Hw|split; try done; by left].
Qed.

(** The steps below are stated from an earlier state [t0], so that a switch to a block created in between is one. *)
Lemma keeps_push t0 t i : keeps t0 t -> keeps t0 (upd_b (push_inst i) t).
Proof.
  intros [[] [E A R B T F L C]]. pose proof (ext_blocks _ _ E). split.
  - split; try done. cbn. intros b Hb. rewrite body_push, decide_False by lia. auto.
  - split; try done; [etrans; [exact E|apply ext_push]|]. cbn. intros b Hb Hc.
    rewrite body_push. case_decide as Hd; [subst b; destruct C; lia|auto].
Qed.

Lemma keeps_val t0 t : keeps t0 t -> keeps t0 (upd_b new_val t).
Proof.
  intros [[] [E A R B T F L C]]. split; [by split|]. split; try done. etrans; [exact E|]. split; cbn; try done; lia.
Qed.

Lemma keeps_ins t0 t i : keeps t0 t -> keeps t0 (upd_b (fun F => new_val (push_inst i F)) t).
Proof. intros H. apply (keeps_val _ (upd_b (push_inst i) t)). by apply keeps_push. Qed.

Lemma keeps_block t0 t : keeps t0 t -> keeps t0 (upd_b new_block t).
Proof.
  intros [[] [E A R B T F L C]]. split.
  - split; try done; cbn; [|lia]. intros b Hb. apply wf_fresh0. lia.
  - split; try done. etrans; [exact E|]. split; cbn; try done; lia.
Qed.

Lemma keeps_switch t0 t b :
  keeps t0 t -> ir_blocks (tx_b t0) <= b < ir_blocks (tx_b t) -> keeps t0 (upd_b (set_cur b) t).
Proof.
  intros [[] [E A R B T F L C]] Hb. split; [split; try done; cbn; lia|]. split; try done; [|cbn; lia].
  etrans; [exact E|]. by split.
Qed.

Lemma keeps_slot t0 t n : keeps t0 t -> keeps t0 (upd_b (new_slot n) t).
Proof.
  intros [[] [E A R B T F L C]]. split; [by split|]. split; try done. etrans; [exact E|]. split; cbn; try done; [lia..|].
  by apply prefix_app_r.
Qed.

Lemma wf_import t x : wf t -> import_ok m ar_of pcrel (tx_ext_addrs t) x -> wf (upd_b (new_import x) t).
Proof.
  intros [] Hx. split; try done; cbn.
  - intros i r H. rewrite lookupz_app_l; [auto|]. apply wf_helpers0, lookupz_range in H. lia.
  - intros i r H. destruct (wf_siblings0 _ _ H) as (g & Hg & Hr). exists g. split; [done|].
    rewrite lookupz_app_l; [done|]. apply lookupz_range in Hr. lia.
  - intros a r H. destruct (wf_ext0 _ _ H) as (i & Hr & Ha). exists i. split; [|done].
    rewrite lookupz_app_l; [done|]. apply lookupz_range in Hr. lia.
  - apply Forall_app. split; [done|by constructor].
Qed.

Lemma grow_import (t : Tx X) x hs ss es addrs :
  tx_ext_addrs t `prefix_of` addrs -> grow t (set_imports hs ss es addrs (upd_b (new_import x) t)).
Proof.
  intros Ha. split; try done; [|by left]. split; cbn; try done; [lia..|]. by apply prefix_app_r.
Qed.

#[export] Instance Grows_ins i : Grows (ins i).
Proof. intros t a t' Hw [= <- <-]. by apply keeps_ins, keeps_refl. Qed.
#[export] Instance Grows_ins0 i : Grows (ins0 i).
Proof. intros t a t' Hw [= <- <-]. by apply keeps_push, keeps_refl. Qed.
#[export] Instance Grows_create_block : Grows create_block.
Proof. intros t a t' Hw [= <- <-]. by apply keeps_block, keeps_refl. Qed.
#[export] Instance Grows_create_slot n : Grows (create_slot n).
Proof. intros t a t' Hw [= <- <-]. by apply keeps_slot, keeps_refl. Qed.

#[export] Instance Grows_ins_call r args : Grows (ins_call r args).
Proof. unfold ins_call. apply _. Qed.
#[export] Instance Grows_use_reg r : Grows (use_reg r).
Proof. unfold use_reg. apply _. Qed.
#[export] Instance Grows_def_reg r v : Grows (def_reg r v).
Proof. unfold def_reg. apply _. Qed.
#[export] Instance Grows_iconst k : Grows (iconst k).
Proof. unfold iconst. apply _. Qed.
#[export] Instance Grows_atom_const k : Grows (atom_const atom_map k).
Proof. unfold atom_const. apply _. Qed.
#[export] Instance Grows_spill_from ss i vs : Grows (spill_from ss i vs).
Proof. revert i. induction vs; intros i; cbn [spill_from]; apply _. Qed.
#[export] Instance Grows_spill vs : Grows (spill vs).
Proof. unfold spill. apply _. Qed.
#[export] Instance Grows_use_args n : Grows (use_args f n).
Proof. unfold use_args. apply _. Qed.
#[export] Instance Grows_retag v : Grows (retag_int v).
Proof. unfold retag_int. apply _. Qed.

(** A cache that gains the import just made. *)
Lemma wf_cached (t : Tx X) x (hs ss es : gmap Z Z) :
  let r := zlen (ir_funcs (tx_b t)) in
  wf t -> import_ok m ar_of pcrel (tx_ext_addrs t) x ->
  (hs = tx_helpers t \/ exists i, hs = <[i := r]> (tx_helpers t) /\ x = hlp_import pcrel i) ->
  (ss = tx_siblings t \/ exists i g, ss = <[i := r]> (tx_siblings t) /\ lookupz (functions m) i = Some g /\ x = fn_import 1 i (arity g)) ->
  (es = tx_ext_funcs t \/ exists a i, es = <[a := r]> (tx_ext_funcs t) /\ x = fn_import 2 i (ar_of a) /\
     (zlen (tx_ext_addrs t) < 2 ^ 32 -> lookupz (tx_ext_addrs t) i = Some a)) ->
  wf (set_imports hs ss es (tx_ext_addrs t) (upd_b (new_import x) t)).
Proof.
  intros r Hw Hx Hh Hs He. pose proof (wf_import t x Hw Hx) as [W1 W2 W3 W4 W5 W6].
  assert (Hlast : lookupz (ir_funcs (tx_b t) ++ [x]) r = Some x) by apply lookupz_app_r.
  split; cbn in *; try done.
  - intros i r'. destruct Hh as [->|(i' & -> & ->)]; [by apply W1|].
    intros [[<- <-]|[_ H]]%lookup_insert_Some; [done|by apply W1].
  - intros i r'. destruct Hs as [->|(i' & g & -> & Hg & ->)]; [by apply W2|].
    intros [[<- <-]|[_ H]]%lookup_insert_Some; [by eauto|by apply W2].
  - intros a r'. destruct He as [->|(a' & i' & -> & -> & Ha)]; [by apply W3|].
    intros [[<- <-]|[_ H]]%lookup_insert_Some; [exists i'; auto|by apply W3].
Qed.

#[export] Instance Grows_helper h : Grows (helper pcrel h).
Proof.
  intros t a t' Hw H. unfold helper in H. minv. injection Hc as <- <-.
  destruct (tx_helpers t !! _); minv; [by apply keeps_refl|]. injection Hc as <- <-. injection Hc0 as <- <-.
  split; [|by apply grow_import]. apply wf_cached; [done|by constructor|right|by left..]. eauto.
Qed.

#[export] Instance Grows_sibling i : Grows (sibling m i).
Proof.
  intros t a t' Hw H. unfold sibling in H. minv. injection Hc as <- <-.
  destruct (tx_siblings t !! _); minv; [by apply keeps_refl|].
  destruct (lookupz (functions m) i) as [g|] eqn:Hg; [|discriminate Hc]. injection Hc as <- <-.
  injection Hc0 as <- <-. injection Hc1 as <- <-.
  split; [|by apply grow_import]. apply wf_cached; [done|by constructor|by left|right|by left]. eauto.
Qed.

Lemma Grows_ext_target addr ar : ar_of addr = ar -> Grows (ext_target addr ar).
Proof.
  intros <- t a t' Hw H. unfold ext_target in H. minv. injection Hc as <- <-.
  destruct (tx_ext_funcs t !! _); minv; [by apply keeps_refl|].
  injection Hc as <- <-. injection Hc0 as <- <-. injection Hc1 as <- <-. cbn.
  set (t1 := set_imports (tx_helpers t) (tx_siblings t) (tx_ext_funcs t) (tx_ext_addrs t ++ [addr]) t).
  assert (Hp : tx_ext_addrs t `prefix_of` tx_ext_addrs t ++ [addr]) by by apply prefix_app_r.
  assert (W1 : wf t1).
  { destruct Hw. split; try done; cbn.
    - intros a r Hr. destruct (wf_ext0 a r Hr) as (i & Hi & Ha). exists i. split; [done|].
      rewrite zlen_app, zlen_cons, zlen_nil. intros Hl. eapply prefix_lookupz; [done|]. apply Ha. lia.
    - eapply Forall_impl; [done|]. intros x. by apply import_ok_more. }
  assert (Hlast : zlen (tx_ext_addrs t ++ [addr]) < 2 ^ 32 -> lookupz (tx_ext_addrs t ++ [addr]) (wrap 32 (zlen (tx_ext_addrs t))) = Some addr).
  { rewrite zlen_app, zlen_cons, zlen_nil. intros Hl.
    rewrite wrap_small by (pose proof (zlen_nonneg (tx_ext_addrs t)); lia). apply lookupz_app_r. }
  split; [|by apply (grow_import t)]. apply (wf_cached t1); [done|by constructor|by left..|right]. eexists _, _. done.
Qed.

#[export] Instance Grows_call_helper h args : Grows (call_helper pcrel h args).
Proof. unfold call_helper. apply _. Qed.
#[export] Instance Grows_call_val h args : Grows (call_val pcrel h args).
Proof. unfold call_val. apply _. Qed.
#[export] Instance Grows_call_unit h args : Grows (call_unit pcrel h args).
Proof. unfold call_unit. apply _. Qed.
#[export] Instance Grows_jump_target off : Grows (jump_target off).
Proof. unfold jump_target. apply _. Qed.
#[export] Instance Grows_block_at off : Grows (block_at off).
Proof. unfold block_at. apply _. Qed.
#[export] Instance Grows_poll off : Grows (poll_if_back pcrel off).
Proof. unfold poll_if_back. apply _. Qed.

(** A new block that control branches to. *)
Lemma Grows_branch {A} (i : Tx X -> Z -> inst) (k : TM A) :
  Grows k ->
  Grows (cont ← create_block; t ← get; _ ← ins0 (i t cont); _ ← switch_to_block cont; k).
Proof.
  intros Hk t a t' Hw H. minv. injection Hc as <- <-. injection Hc0 as <- <-. injection Hc1 as <- <-. injection Hc2 as <- <-.
  set (b := ir_blocks (tx_b t)) in *.
  assert (K : keeps t (upd_b (set_cur b) (upd_b (push_inst (i (upd_b new_block t) b)) (upd_b new_block t)))).
  { apply keeps_switch; [by apply keeps_push, keeps_block, keeps_refl|cbn; lia]. }
  eapply keeps_trans; [exact K|]. eapply Hk; [apply K|done].
Qed.

#[export] Instance Grows_trap_branch {A} ok (k : TM A) :
  Grows k ->
  Grows (cont ← create_block; t ← get; _ ← ins0 (Brif ok cont (tx_trap t)); _ ← switch_to_block cont; k) | 0.
Proof. apply (Grows_branch (fun t cont => Brif ok cont (tx_trap t))). Qed.

#[export] Instance Grows_expect_int v : Grows (expect_int v).
Proof. unfold expect_int. apply _. Qed.

Lemma Grows_ext {A} (c c' : TM A) : (forall t, c t = c' t) -> Grows c' -> Grows c.
Proof. intros He Hc t a t' Hw H. rewrite He in H. by eapply Hc. Qed.

(** Two new blocks: one side is emitted, then the other. *)
Lemma Grows_two {A} (i : Z -> Z -> inst) (mid : Z -> Z -> TM unit) (sel : bool) (k : TM A) :
  (forall a b, Grows (mid a b)) -> Grows k ->
  Grows (b1 ← create_block; b2 ← create_block; _ ← ins0 (i b1 b2); _ ← switch_to_block (if sel then b1 else b2);
         _ ← mid b1 b2; _ ← switch_to_block (if sel then b2 else b1); k).
Proof.
  intros Hm Hk t a t' Hw H. minv. injection Hc as <- <-. injection Hc0 as <- <-. injection Hc1 as <- <-. injection Hc2 as <- <-.
  injection Hc4 as <- <-. cbn in H, Hc3. set (b := ir_blocks (tx_b t)) in *.
  set (t3 := upd_b (set_cur _) _) in Hc3.
  assert (K3 : keeps t t3).
  { apply keeps_switch; [by apply keeps_push, keeps_block, keeps_block, keeps_refl|]. destruct sel; cbn; lia. }
  destruct (Hm _ _ _ _ _ (proj1 K3) Hc3) as [W4 G4]. assert (K4 : keeps t s3) by (eapply keeps_trans; [exact K3|by split]).
  pose proof (ext_blocks _ _ (grow_ext _ _ G4)) as Hle. cbn in Hle.
  assert (K5 : keeps t (upd_b (set_cur (if sel then b + 1 else b)) s3)) by (apply keeps_switch; [done|destruct sel; cbn; lia]).
  eapply keeps_trans; [exact K5|]. eapply Hk; [apply K5|done].
Qed.
End grows.
