(* ===== verification/JitScan.v ===== *)
(** * JitScan: the compiler's decoder on verified code

    On verified code the compiler's two linear scans, [skip_insn] and [find_leaders], advance
    by the verifier's instructions, and the leaders are exactly the entry, the jump targets and
    the instructions after the ones that end a block. *)

From S2P Require Import Prelude Bytecode BytecodeAnalysis Verify VerifySound Clif Jit.

(** Every opcode of the instruction set. *)
Lemma format_opcode o fmt : format o = Some fmt -> 0 <= o < 56.
Proof.
  intros Hf. destruct (decide (0 <= o < 56)) as [|Ho]; [done|]. revert Hf. unfold format. rewrite select_arm_none; [done|].
  repeat constructor; cbn [fst]; rewrite !not_elem_of_cons; repeat split; try apply not_elem_of_nil.
  all: vm_compute; intros ->; lia.
Qed.

(** Case analysis on the opcode of an instruction. *)
Ltac opcodes P o Hf :=
  let H := fresh in pose proof (format_opcode _ _ Hf) as H; revert Hf; revert o H;
  refine (fun o => seqZ_cases P 56 o _);
  let l := eval vm_compute in (seqZ 0 56) in change (seqZ 0 56) with l;
  repeat first [apply Forall_nil_2|apply Forall_cons_2].

(** The instructions after which the compiler starts a block. *)
Definition ends_block (o : Z) : bool := existsb (Z.eqb o) [op.JMP; op.JMP_IF; op.RET; op.EXIT_ATOM; op.TAIL_CALL; op.TAIL_CALL_EXT].

Lemma format_ends o is_ term : format o = Some (is_, term) -> term = true -> ends_block o = true.
Proof.
  intros Hf. opcodes (fun o => format o = Some (is_, term) -> term = true -> ends_block o = true) o Hf.
  all: unfold format; op_eval; intros [= <- <-]; done.
Qed.

Section scan.
Context (m : Module_) (f : Function).
Abbreviation DM := (M Z JitError).

Definition goes {A} (d : DM A) (a e : Z) : Prop := exists v, d a = (Ok v, e).

Lemma goes_bind {A B} (d : DM A) (k : A -> DM B) a x e :
  goes d a x -> (forall v, d a = (Ok v, x) -> goes (k v) x e) -> goes (v ← d; k v) a e.
Proof using Type. intros [v Hv] Hk. destruct (Hk v Hv) as [w Hw]. exists w. by erewrite bind_eval. Qed.
Lemma goes_ret {A} (v : A) a e : e = a -> goes (mret v) a e.
Proof using Type. intros ->. by exists v. Qed.
Lemma goes_u8 a e : 0 <= a < zlen (code f) -> e = a + 1 -> goes (dec_u8 (code f)) a e.
Proof using Type.
  intros Ha ->. destruct (lookupz_is_Some (code f) a Ha) as [b Hb]. exists (b2z b). unfold dec_u8. cbn.
  unfold mbind, M_bind. cbn. by rewrite Hb.
Qed.
Lemma goes_u32 a e : 0 <= a -> a + 4 <= zlen (code f) -> e = a + 4 -> goes (dec_u32 (code f)) a e.
Proof using Type.
  intros Ha Hl ->. unfold goes, dec_u32. unfold mbind, M_bind. cbn. unfold slice. rewrite bool_decide_true by lia. cbn. eauto.
Qed.
Lemma goes_i32 a e : 0 <= a -> a + 4 <= zlen (code f) -> e = a + 4 -> goes (dec_i32 (code f)) a e.
Proof using Type. intros. eapply goes_bind; [by apply goes_u32|]. intros v _. by apply goes_ret. Qed.
Lemma goes_i64 a e : 0 <= a -> a + 8 <= zlen (code f) -> e = a + 8 -> goes (dec_i64 (code f)) a e.
Proof using Type.
  intros Ha Hl ->. unfold goes, dec_i64. unfold mbind, M_bind. cbn. unfold slice. rewrite bool_decide_true by lia. cbn. eauto.
Qed.

Lemma goes_repeat n (d : DM unit) k : 0 <= k -> forall a e,
  (forall x, 0 <= x -> x + k <= zlen (code f) -> goes d x (x + k)) -> 0 <= a -> e = a + k * Z.of_nat n -> e <= zlen (code f) ->
  goes (repeat_m n d) a e.
Proof using Type.
  intros Hk. induction n as [|n IH]; intros a e Hd Ha -> He; cbn [repeat_m]; [apply goes_ret; lia|].
  eapply goes_bind; [apply Hd; nia|]. intros _ _. apply IH; [done|lia|lia|nia].
Qed.
Lemma goes_u8s n a e : 0 <= n -> 0 <= a -> a + n <= zlen (code f) -> e = a + n -> goes (dec_u8s (code f) n) a e.
Proof using Type.
  intros Hn Ha Hl ->. unfold dec_u8s. eapply (goes_repeat _ _ 1); [lia| |lia|lia|lia].
  intros x Hx Hxl. eapply goes_bind; [apply goes_u8; [lia|done]|]. intros _ _. by apply goes_ret.
Qed.
Lemma dec_u8_at a b v e : lookupz (code f) a = Some b -> dec_u8 (code f) a = (Ok v, e) -> v = b2z b.
Proof using Type.
  intros Hb H. unfold dec_u8 in H. unfold mbind, M_bind in H. cbn in H. rewrite Hb in H. by injection H.
Qed.
Lemma dec_u32_at a w v e : u32_operand (code f) a = Some w -> dec_u32 (code f) a = (Ok v, e) -> v = w.
Proof using Type.
  unfold u32_operand. intros Hb H. unfold dec_u32 in H. unfold mbind, M_bind in H. cbn in H.
  destruct (slice _ _ _); [|done]. injection Hb as <-. by injection H.
Qed.
Lemma goes_counted a b e :
  lookupz (code f) a = Some b -> e = a + 1 + b2z b -> e <= zlen (code f) -> goes (dec_counted (code f)) a e.
Proof using Type.
  intros Hb -> He. pose proof (lookupz_range _ _ _ Hb). pose proof (b2z_range b). eapply goes_bind; [apply goes_u8; [done|reflexivity]|].
  intros v Hv. rewrite (dec_u8_at _ _ _ _ Hb Hv). apply goes_u8s; lia.
Qed.
Lemma goes_pairs a b e :
  lookupz (code f) a = Some b -> e = a + 1 + 2 * b2z b -> e <= zlen (code f) ->
  goes (n ← dec_u8 (code f); repeat_m (Z.to_nat n) (dec_u8s (code f) 2)) a e.
Proof using Type.
  intros Hb -> He. pose proof (lookupz_range _ _ _ Hb). pose proof (b2z_range b). eapply goes_bind; [apply goes_u8; [done|reflexivity]|].
  intros v Hv. rewrite (dec_u8_at _ _ _ _ Hb Hv). apply (goes_repeat _ _ 2); [lia| |lia..].
  intros. apply goes_u8s; lia.
Qed.
Lemma goes_pool a v e :
  0 <= a < zlen (code f) -> u32_operand (code f) (a + 1) = Some v -> e = a + 5 + v -> e <= zlen (code f) -> goes (dec_pool (code f)) a e.
Proof using Type.
  intros Ha Hv -> He. pose proof (u32_operand_bound _ _ _ Hv). eapply goes_bind; [apply goes_u8; [done|reflexivity]|]. intros _ _.
  eapply goes_bind; [apply goes_u32; [lia|lia|reflexivity]|]. intros w Hw. rewrite (dec_u32_at _ _ _ _ Hv Hw).
  unfold goes. unfold mbind, M_bind. cbn. rewrite bool_decide_false by lia. cbn. exists tt. unfold modify. f_equal. lia.
Qed.

Ltac end_at := first [reflexivity|lia].
(** Read an instruction's operands. *)
Ltac decoding := repeat first
  [ eapply goes_pool; [lia|eassumption|end_at|lia]
  | eapply goes_u8s; [lia|lia|lia|end_at]
  | eapply goes_counted; [eassumption|end_at|lia]
  | eapply goes_pairs; [eassumption|end_at|lia]
  | eapply goes_ret; end_at
  | eapply goes_bind; [first [eapply goes_u8; [lia|reflexivity]|eapply goes_u32; [lia|lia|reflexivity]
      |eapply goes_i64; [lia|lia|reflexivity]|eapply goes_i32; [lia|lia|reflexivity]]|intros _ _] ].

Lemma reg_at_range a : reg_at f a -> 0 <= a < zlen (code f).
Proof using Type. intros (b & Hb & _). by eapply lookupz_range. Qed.

(** The operands of an instruction as facts on offsets. *)
Ltac operands H :=
  cbn [items_ok item_ok] in H;
  repeat match goal with
    | H : exists _, _ |- _ => destruct H
    | H : _ /\ _ |- _ => destruct H
    | H : is_Some _ |- _ => destruct H
    end; subst;
  repeat match goal with
    | H : reg_at f _ |- _ => apply reg_at_range in H
    | H : u32_operand (code f) ?a = Some _ |- _ =>
        match goal with _ : a + 4 <= zlen (code f) |- _ => fail 1 | _ => destruct (u32_operand_bound _ _ _ H) end
    end.

Lemma skip_arms_go o is_ term a e :
  0 <= a <= zlen (code f) -> format o = Some (is_, term) -> items_ok m f is_ a e -> goes (select_arm o (skip_arms (code f)) (throw BadBytecode)) a e.
Proof using Type.
  intros Ha Hf Hi. pose proof (items_ok_bound m f is_ a e (format_wf _ _ _ Hf) Hi (proj2 Ha)) as He.
  opcodes (fun o => format o = Some (is_, term) -> goes (select_arm o (skip_arms (code f)) (throw BadBytecode)) a e) o Hf.
  all: unfold format, skip_arms; op_eval; intros [= <- <-]; operands Hi; decoding.
Qed.

Lemma skip_insn_go a is_ term e : instr_at m f a is_ term e -> goes (skip_insn (code f)) a e.
Proof using Type.
  intros (b & Hb & Hf & Hi). pose proof (lookupz_range _ _ _ Hb). unfold skip_insn. eapply goes_bind; [apply goes_u8; [done|reflexivity]|].
  intros v Hv. rewrite (dec_u8_at _ _ _ _ Hb Hv). eapply skip_arms_go; [lia|done|done].
Qed.

(** ** Leaders *)

Abbreviation LM := (M (Z * gset Z) JitError).

Lemma on_pos_go {A B} (d : DM A) (k : A -> LM B) a e L r :
  goes d a e -> (forall v, d a = (Ok v, e) -> k v (e, L) = r) -> (v ← on_pos d; k v) (a, L) = r.
Proof using Type. intros [v Hv] Hk. unfold mbind, M_bind, on_pos. cbn. rewrite Hv. auto. Qed.

Lemma on_pos_last (d : DM unit) a e L : goes d a e -> on_pos d (a, L) = (Ok tt, (e, L)).
Proof using Type. intros [[] Hv]. unfold on_pos. cbn. by rewrite Hv. Qed.

(** What an instruction adds to the leaders. *)
Definition marks (o : Z) (is_ : list item) (a e : Z) (L L' : gset Z) : Prop :=
  forall p, p ∈ L' <-> p ∈ L \/ (ends_block o = true /\ p = e) \/ (exists t, jumps m f is_ a t /\ p = wrap 64 t).

Lemma marks_none o is_ a e L : ends_block o = false -> IJump ∉ is_ -> marks o is_ a e L L.
Proof using Type.
  intros He Hj p. rewrite He. split; [auto|]. intros [H|[[? _]|(t & H & _)]]; [done|done|].
  exfalso. revert a H. induction is_ as [|i is' IH]; intros a; [done|]. rewrite not_elem_of_cons in Hj. destruct Hj as [Hi Hj].
  cbn [jumps]. intros (a' & _ & [[-> _]|H]); [done|]. by eapply IH.
Qed.

Lemma marks_end o is_ a e L : ends_block o = true -> IJump ∉ is_ -> marks o is_ a e L ({[e]} ∪ L).
Proof using Type.
  intros He Hj p. pose proof (marks_none op.NOP is_ a e L eq_refl Hj p) as [_ H]. rewrite He, elem_of_union, elem_of_singleton.
  split; [intuition|]. intros [?|[[_ ?]|?]]; [auto|auto|]. right. apply H. auto.
Qed.

Lemma dec_i32_at a w v e : u32_operand (code f) a = Some w -> dec_i32 (code f) a = (Ok v, e) -> v = swrap 32 w.
Proof using Type.
  intros Hw H. unfold dec_i32 in H. apply bind_ok in H as (v' & e' & H & [= <- <-]). by rewrite (dec_u32_at _ _ _ _ Hw H).
Qed.

(** An operand list without a jump. *)
Ltac no_jump := apply (bool_decide_eq_false_1 (IJump ∈ _)); reflexivity.

(** The marks of a jump whose offset is at [a]. *)
Definition mark_jump (off : Z) : LM unit := _ ← mark_target off; mark_here.

Lemma jump_marks o is0 a0 a w L :
  ends_block o = true -> u32_operand (code f) a = Some w ->
  (forall t, jumps m f is0 a0 t <-> t = a + 4 + swrap 32 w) ->
  exists L', (off ← on_pos (dec_i32 (code f)); mark_jump off) (a, L) = (Ok tt, (a + 4, L')) /\ marks o is0 a0 (a + 4) L L'.
Proof using Type.
  intros Ho Hw Hj. pose proof (u32_operand_bound _ _ _ Hw) as [_ Hl]. assert (0 <= a).
  { unfold u32_operand, slice in Hw. destruct (bool_decide _) eqn:Hb; [|done]. apply bool_decide_eq_true in Hb. lia. }
  exists ({[a + 4]} ∪ ({[wrap 64 (a + 4 + swrap 32 w)]} ∪ L)). split.
  - eapply on_pos_go; [apply goes_i32; [lia|lia|reflexivity]|]. intros v Hv. by rewrite (dec_i32_at _ _ _ _ Hw Hv).
  - intros p. rewrite !elem_of_union, !elem_of_singleton, Ho. split.
    + intros [->|[->|?]]; [auto| |auto]. right. right. eexists. by rewrite Hj.
    + intros [?|[[_ ->]|(t & Ht & ->)]]; [auto|auto|]. apply Hj in Ht as ->. auto.
Qed.

Lemma leader_arms_go o is_ term a e L :
  0 <= a <= zlen (code f) -> format o = Some (is_, term) -> items_ok m f is_ a e ->
  exists L', select_arm o (leader_arms (code f) o) (throw BadBytecode) (a, L) = (Ok tt, (e, L')) /\ marks o is_ a e L L'.
Proof using Type.
  intros Ha Hf Hi. pose proof (items_ok_bound m f is_ a e (format_wf _ _ _ Hf) Hi (proj2 Ha)) as He. pose proof Hi as Hi0.
  opcodes (fun o => format o = Some (is_, term) -> exists L',
    select_arm o (leader_arms (code f) o) (throw BadBytecode) (a, L) = (Ok tt, (e, L')) /\ marks o is_ a e L L') o Hf.
  all: unfold format, leader_arms; op_eval; intros [= <- <-]; operands Hi.
  all: try (eexists; split; [first [apply on_pos_last; solve [decoding]|reflexivity]|apply marks_none; [done|no_jump]]).
  all: try (eexists; split; [match goal with |- _ = (_, (?e, _)) => eapply (on_pos_go _ _ _ e) end; [solve [decoding]|intros _ _; reflexivity]|first [apply marks_none; [done|no_jump]|apply marks_end; [done|no_jump]]]).
  - eapply jump_marks; [done|eassumption|]. intros t. cbn [jumps item_ok]. split.
    + intros (a' & [_ ->] & [(_ & v & Hv & ->)|[]]). congruence.
    + intros ->. exists (a + 4). split; [eauto|]. left. eauto.
  - edestruct (jump_marks 17 [IReg; IJump] a (a + 1)) as (L' & HL & HM); [done|eassumption| |].
    + intros t. cbn [jumps item_ok]. split.
      * intros (a' & [_ ->] & [[? _]|(a'' & [_ ->] & [(_ & v & Hv & ->)|[]])]); [done|]. congruence.
      * intros ->. cbn [items_ok item_ok] in Hi0. destruct Hi0 as (a' & [Hr ->] & _). exists (a + 1). split; [by split|]. right.
        exists (a + 1 + 4). split; [eauto|]. left. eauto.
    + exists L'. split; [|exact HM]. eapply on_pos_go; [apply goes_u8; [lia|reflexivity]|]. intros _ _. exact HL.
Qed.

(** The offsets an instruction at [x] makes leaders. *)
Definition marked_by (x p : Z) : Prop := exists b is_ term e,
  lookupz (code f) x = Some b /\ format (b2z b) = Some (is_, term) /\ items_ok m f is_ (x + 1) e /\
  ((ends_block (b2z b) = true /\ p = e) \/ exists t, jumps m f is_ (x + 1) t /\ p = wrap 64 t).

Context (Hok : fn_ok m f) (Hlen : zlen (code f) < 2 ^ 63).

Lemma leader_loop_go fuel : forall a L,
  rtc (next_instr m f) 0 a -> 0 <= a <= zlen (code f) -> zlen (code f) - a < Z.of_nat fuel ->
  exists L', leader_loop (code f) fuel (a, L) = (Ok tt, (zlen (code f), L')) /\
    forall p, p ∈ L' <-> p ∈ L \/ exists x, rtc (next_instr m f) a x /\ x < zlen (code f) /\ marked_by x p.
Proof using Hok.
  induction fuel as [|fuel IH]; intros a L Hr Ha Hfu; [lia|]. cbn [leader_loop]. unfold mbind at 1, M_bind at 1. cbn [get fst].
  case_bool_decide as Hlt.
  2:{ exists L. assert (a = zlen (code f)) as -> by lia. split; [done|]. intros p. split; [auto|]. intros [?|(x & Hx & Hxl & _)]; [done|].
      apply rtc_next_end in Hx; lia. }
  destruct (fn_instr _ _ Hok a (conj Hr Hlt)) as (is_ & term & e & Hin & _). pose proof Hin as (b & Hb & Hf & Hi).
  pose proof (instr_at_end _ _ _ _ _ _ Hin) as He.
  destruct (leader_arms_go (b2z b) is_ term (a + 1) e L ltac:(lia) Hf Hi) as (L1 & H1 & M1).
  destruct (IH e L1) as (L' & H' & M').
  { eapply rtc_r; [exact Hr|]. by exists is_, term. } { lia. } { lia. }
  exists L'. split.
  - eapply on_pos_go; [apply goes_u8; [lia|reflexivity]|]. intros v Hv. rewrite (dec_u8_at _ _ _ _ Hb Hv). by erewrite bind_eval by exact H1.
  - intros p. rewrite M', (M1 p). split.
    + intros [[?|Hm]|(x & Hx & Hxl & Hm)]; [auto| |].
      * right. exists a. split_and!; [done|done|]. exists b, is_, term, e. done.
      * right. exists x. split_and!; [|done|done]. eapply rtc_l; [|exact Hx]. by exists is_, term.
    + intros [?|(x & Hx & Hxl & Hm)]; [auto|]. apply (rtc_next_cases m f a is_ term e) in Hx as [->|Hx]; [|right; eauto|done].
      left. right. destruct Hm as (b' & is' & term' & e' & Hb' & Hf' & Hi' & Hm). simplify_eq.
      by rewrite (items_ok_det _ _ _ _ _ _ Hi Hi').
Qed.

Lemma decoded_end x is_ term e : decoded m f x -> instr_at m f x is_ term e -> e <> zlen (code f) -> decoded m f e.
Proof using Type.
  intros [Hr _] Hin He. pose proof (instr_at_end _ _ _ _ _ _ Hin). split; [|lia]. eapply rtc_r; [exact Hr|]. by exists is_, term.
Qed.

Lemma decoded_pos x : decoded m f x -> 0 <= x < zlen (code f).
Proof using Hok. intros Hd. destruct (fn_instr _ _ Hok x Hd) as (is_ & term & e & Hin & _). by eapply instr_at_bound. Qed.

(** What [find_leaders] finds. *)
Lemma find_leaders_spec : exists L, find_leaders (code f) = Ok L /\
  0 ∈ L /\
  (forall p, p ∈ L -> decoded m f p) /\
  (forall x is_ term e t, decoded m f x -> instr_at m f x is_ term e -> jumps m f is_ (x + 1) t -> t ∈ L) /\
  (forall x b is_ term e, decoded m f x -> lookupz (code f) x = Some b -> instr_at m f x is_ term e ->
     ends_block (b2z b) = true -> e <> zlen (code f) -> e ∈ L).
Proof using Hok Hlen.
  destruct (leader_loop_go (S (length (code f))) 0 {[0]}) as (L & HL & HM); [done|pose proof (zlen_nonneg (code f)); lia|unfold zlen; lia|].
  pose proof (decoded_pos _ (fn_entry _ _ Hok)). exists (L ∖ {[zlen (code f)]}). unfold find_leaders. rewrite HL. split; [done|]. cbn.
  assert (Hjd : forall x is_ term e t, decoded m f x -> instr_at m f x is_ term e -> jumps m f is_ (x + 1) t -> decoded m f t).
  { intros x is_ term e t Hx Hin Ht. destruct (fn_instr _ _ Hok x Hx) as (is' & term' & e' & Hin' & _ & Hj).
    destruct (instr_at_det _ _ _ _ _ _ _ _ _ Hin Hin') as (-> & _ & _). by apply Hj. }
  split_and!.
  - rewrite elem_of_difference, elem_of_singleton. split; [apply HM; left; set_solver|]. lia.
  - intros p. rewrite elem_of_difference, elem_of_singleton. intros [[->%elem_of_singleton|(x & Hx & Hxl & b & is_ & term & e & Hb & Hf & Hi & Hm)]%HM Hp].
    { exact (fn_entry _ _ Hok). }
    assert (Hd : decoded m f x) by by split. assert (Hin : instr_at m f x is_ term e) by by exists b.
    destruct Hm as [[_ ->]|(t & Ht & ->)]; [by eapply decoded_end|].
    specialize (Hjd _ _ _ _ _ Hd Hin Ht). pose proof (decoded_pos _ Hjd). by rewrite wrap_small by lia.
  - intros x is_ term e t Hx Hin Ht. pose proof (decoded_pos _ (Hjd _ _ _ _ _ Hx Hin Ht)) as Hr.
    rewrite elem_of_difference, elem_of_singleton. split; [|lia]. apply HM. right. exists x. split_and!; [apply Hx|apply Hx|].
    destruct Hin as (b & Hb & Hf & Hi). exists b, is_, term, e. split_and!; try done. right. exists t. by rewrite wrap_small by lia.
  - intros x b is_ term e Hx Hb Hin He Hne. rewrite elem_of_difference, elem_of_singleton. split; [|done]. apply HM. right.
    exists x. split_and!; [apply Hx|apply Hx|]. destruct Hin as (b' & Hb' & Hf & Hi). simplify_eq.
    exists b, is_, term, e. split_and!; try done. by left.
Qed.
End scan.
