(* ===== verification/JitSim.v ===== *)
(** * JitSim: running emitted code beside the interpreter

    [evals] is the outcome of the rest of a block with enough fuel.  [trl] relates a piece of the
    translator with a piece of the interpreter: if the translator succeeds, then running what it
    emitted does what the interpreter does.  The rules of this file compose such pieces. *)

From S2P Require Import Prelude Term TermImm Bytecode Interp Clif Jit JitLogic.

(** How imported functions run: the helpers by number, published code by address. *)
Class NativeApi (S : Type) := {
  run_helper : nat -> Z -> gmap Z Z -> list Z -> M S Trap (option Z);
  direct_call : nat -> Z -> list Term -> M S Trap Term;
}.

Definition run_foreign {S} `{!NativeApi S} (n : nat) (addrs : list Z) (x : ExtFunc) (st : gmap Z Z) (xs : list Z)
    : M S Trap (option Z) :=
  if bool_decide (namespace x = 0) then run_helper n (index x) st xs
  else if bool_decide (namespace x = 2) then
    a ← unwrap (lookupz addrs (index x)); v ← direct_call n a xs; mret (Some v)
  else panic.

(** A result or a trap: the program did not panic and the fuel was enough. *)
Definition ran {A} (r : res Trap A) : bool := match r with Ok _ | Err _ => true | _ => false end.

(** ** Enough fuel *)

Section evaluation.
Context {CI : Clif} {S : Type} `{!NativeApi S} (prog : list CodeUnit).

Definition icallee (n : nat) (U : CodeUnit) (x : ExtFunc) (st : gmap Z Z) (xs : list Z) : M S Trap (option Z) :=
  if bool_decide (namespace x = 1) then
    G ← unwrap (lookupz prog (index x)); v ← irun run_foreign prog n G 0 (entry_env xs); mret (Some v)
  else run_foreign n (u_addrs U) x st xs.

(** The rest of a block, and what follows it. *)
Definition iresume (n : nat) (U : CodeUnit) (is_ : list inst) (e : env) : M S Trap Z :=
  '(fl, e') ← ieval (icallee n U) (u_func U) is_ e;
  match fl with Goto b' => irun run_foreign prog n U b' e' | Leave v => mret v end.

Lemma irun_S n U b e s : irun run_foreign prog (Datatypes.S n) U b e s = iresume n U (body (u_func U) b) e s.
Proof. done. Qed.

Definition evals (U : CodeUnit) (is_ : list inst) (e : env) (s : S) (r : res Trap Z * S) : Prop :=
  exists N, forall n, (N <= n)%nat -> iresume n U is_ e s = r.

Lemma evals_next U is_ is' e e' s s' r :
  (exists N, forall n, (N <= n)%nat -> iresume n U is_ e s = iresume n U is' e' s') ->
  evals U is' e' s' r -> evals U is_ e s r.
Proof. intros [N1 H1] [N2 H2]. exists (N1 + N2)%nat. intros n Hn. rewrite H1, H2 by lia. done. Qed.

Lemma evals_pure U i rest e e' s r :
  pure_step (u_func U) i e = Some e' -> evals U rest e' s r -> evals U (i :: rest) e s r.
Proof.
  intros Hi. apply evals_next. exists 0%nat. intros n _. unfold iresume. destruct i; try discriminate Hi; cbn [ieval]; rewrite Hi; done.
Qed.

Lemma evals_goto U is_ e s b e' s' r :
  (exists N, forall n, (N <= n)%nat -> ieval (icallee n U) (u_func U) is_ e s = (Ok (Goto b, e'), s')) ->
  evals U (body (u_func U) b) e' s' r -> evals U is_ e s r.
Proof.
  intros [N1 H1] [N2 H2]. exists (Datatypes.S (N1 + N2)). intros n Hn. unfold iresume. unfold mbind, M_bind. rewrite H1 by lia.
  destruct n as [|n]; [lia|]. change (irun run_foreign prog (Datatypes.S n) U b e' s' = r). rewrite irun_S. apply H2. lia.
Qed.

Lemma evals_jump U b rest e s r : evals U (body (u_func U) b) e s r -> evals U (Jump b :: rest) e s r.
Proof. apply evals_goto. by exists 0%nat. Qed.

Lemma evals_brif U c b1 b2 rest e s r x :
  vals e !! c = Some x ->
  evals U (body (u_func U) (if bool_decide (x = 0) then b2 else b1)) e s r -> evals U (Brif c b1 b2 :: rest) e s r.
Proof. intros Hc. apply evals_goto. exists 0%nat. intros n _. cbn [ieval]. rewrite Hc. done. Qed.

Lemma evals_return U v rest e s x : vals e !! v = Some x -> evals U (Return_ [v] :: rest) e s (Ok x, s).
Proof. intros Hv. exists 0%nat. intros n _. unfold iresume. cbn [ieval]. rewrite Hv. done. Qed.

(** A call runs as [c] when enough fuel is given to it. *)
Definition calls_as (U : CodeUnit) (x : ExtFunc) (st : gmap Z Z) (xs : list Z) (s : S) (out : res Trap (option Z) * S) : Prop :=
  exists N, forall n, (N <= n)%nat -> icallee n U x st xs s = out.

Lemma evals_call U d fr args rest e s x xs o s' r :
  lookupz (ir_funcs (u_func U)) fr = Some x -> mapM (fun a => vals e !! a) args = Some xs -> zlen xs = nparams x ->
  calls_as U x (stack e) xs s (Ok o, s') ->
  match d, o with
  | Some d, Some v => evals U rest (set_val d v e) s' r
  | None, None => evals U rest e s' r
  | _, _ => False
  end ->
  evals U (Call d fr args :: rest) e s r.
Proof.
  intros Hx Hxs Hlen [N HN] Hr.
  assert (Hstep : forall n, (N <= n)%nat -> iresume n U (Call d fr args :: rest) e s =
    match d, o with Some d, Some v => iresume n U rest (set_val d v e) s' | None, None => iresume n U rest e s' | _, _ => (Panic, s') end).
  { intros n Hn. unfold iresume. cbn [ieval]. rewrite Hx, Hxs. unfold mbind, M_bind. cbn. rewrite bool_decide_true by done. cbn.
    rewrite HN by done. by destruct d, o. }
  destruct d, o; try done; (eapply evals_next; [|exact Hr]; exists N; intros n Hn; by rewrite Hstep).
Qed.

Lemma evals_call_err U d fr args rest e s x xs er s' :
  lookupz (ir_funcs (u_func U)) fr = Some x -> mapM (fun a => vals e !! a) args = Some xs -> zlen xs = nparams x ->
  calls_as U x (stack e) xs s (Err er, s') -> evals U (Call d fr args :: rest) e s (Err er, s').
Proof.
  intros Hx Hxs Hlen [N HN]. exists N. intros n Hn. unfold iresume. cbn [ieval]. rewrite Hx, Hxs. unfold mbind, M_bind. cbn.
  rewrite bool_decide_true by done. cbn. by rewrite HN.
Qed.
End evaluation.

(** ** Emitted code and the interpreter side by side *)

Section relation.
Context {CI : Clif} {CW : ClifLaws} {S X : Type} `{!NativeApi S} `{!SystemApi S} (prog : list CodeUnit).
Context (m : Module_) (ar_of : Z -> Z) (pcrel : bool) (f : Function) (U : CodeUnit) (trap : Z).
Abbreviation TM := (M (Tx X) JitError).
Abbreviation IM := (M (IS S) Trap).
Abbreviation wf := (wfT (X:=X) m ar_of pcrel).
Implicit Types (t : Tx X) (e : env) (s : IS S).

(** The finished function contains what [t] describes. *)
Definition below t : Prop := ext (tx_b t) (u_func U) /\ tx_ext_addrs t `prefix_of` u_addrs U.

(** What is still to run of the current block. *)
Definition rest_of t : list inst :=
  drop (length (body (tx_b t) (ir_cur (tx_b t)))) (body (u_func U) (ir_cur (tx_b t))).

(** The variables hold the registers. *)
Definition regs_in e (rs : list Term) : Prop := forall r x, lookupz rs r = Some x -> vars e !! r = Some x.

Record agrees t e s : Prop := {
  ag_code : fcode (fr s) = code f;
  ag_pc : tx_pc t = pc (fr s);
  ag_vars : tx_regs t = seqZ 0 (nregs f);
  ag_trap : tx_trap t = trap;
  ag_len : zlen (regs (fr s)) = nregs f;
  ag_regs : regs_in e (regs (fr s));
}.

(** Values emitted before keep their meaning. *)
Definition same_vals t e e' : Prop := forall v, v < ir_vals (tx_b t) -> vals e' !! v = vals e !! v.
Definition has t e v x : Prop := v < ir_vals (tx_b t) /\ vals e !! v = Some x.

(** Running from [t] comes down to running from [t']. *)
Definition leads t e (s : S) t' e' (s' : S) : Prop :=
  forall r, evals prog U (rest_of t') e' s' r -> evals prog U (rest_of t) e s r.

Definition trl {A B} t e s (c : TM A) (i : IM B) (Q : A -> B -> Tx X -> env -> Prop) : Prop :=
  forall a t', c t = (Ok a, t') -> wf t -> below t' -> agrees t e s ->
    match i s with
    | (Ok b, s') => exists e', agrees t' e' s' /\ same_vals t e e' /\ tx_filled t' = tx_filled t /\ leads t e (api s) t' e' (api s') /\ Q a b t' e'
    | (Err er, s') => evals prog U (rest_of t) e (api s) (Err er, api s')
    | _ => True
    end.

Lemma has_carry t t' e e' v x : grow t t' -> same_vals t e e' -> has t e v x -> has t' e' v x.
Proof using Type. intros [E] Hs [Hv Hx]. pose proof (ext_vals _ _ E). split; [lia|]. by rewrite Hs. Qed.

Lemma below_grow t t' : grow t t' -> below t' -> below t.
Proof using Type. intros [E A] [E' A']. split; by etrans. Qed.

Lemma trl_bind {A B A' B'} t e s (c : TM A) (k : A -> TM A') (i : IM B) (k' : B -> IM B') Q Q' :
  Grows m ar_of pcrel c -> (forall a, Grows m ar_of pcrel (k a)) ->
  trl t e s c i Q ->
  (forall a b t' e' s', grow t t' -> same_vals t e e' -> Q a b t' e' -> trl t' e' s' (k a) (k' b) Q') ->
  trl t e s (x ← c; k x) (x ← i; k' x) Q'.
Proof using Type.
  intros Gc Gk Hc Hk a' t2 H Hw Hb Ha. apply bind_ok in H as (a & t1 & H1 & H2).
  destruct (Gc _ _ _ Hw H1) as [W1 G1]. destruct (Gk _ _ _ _ W1 H2) as [W2 G2].
  specialize (Hc a t1 H1 Hw (below_grow _ _ G2 Hb) Ha). unfold mbind, M_bind.
  destruct (i s) as [[b|er| |] s1]; [|done..]. destruct Hc as (e1 & A1 & V1 & F1 & L1 & Q1).
  specialize (Hk a b t1 e1 s1 G1 V1 Q1 a' t2 H2 W1 Hb A1).
  destruct (k' b s1) as [[b'|er| |] s2]; [|by apply L1|done..].
  destruct Hk as (e2 & A2 & V2 & F2 & L2 & Q2). exists e2. split; [done|]. split.
  { intros v Hv. pose proof (ext_vals _ _ (grow_ext _ _ G1)). rewrite V2 by lia. by apply V1. }
  split; [congruence|]. split; [|done]. intros r Hr. by apply L1, L2.
Qed.

(** The translator alone, and the interpreter alone. *)
Lemma trl_left {A A' B'} t e s (c : TM A) (k : A -> TM A') (i : IM B') Q Q' :
  Grows m ar_of pcrel c -> (forall a, Grows m ar_of pcrel (k a)) ->
  trl t e s c (mret tt) Q ->
  (forall a t' e', grow t t' -> same_vals t e e' -> Q a tt t' e' -> trl t' e' s (k a) i Q') ->
  trl t e s (x ← c; k x) i Q'.
Proof using Type.
  intros Gc Gk Hc Hk a' t2 H Hw Hb Ha. apply bind_ok in H as (a & t1 & H1 & H2).
  destruct (Gc _ _ _ Hw H1) as [W1 G1]. destruct (Gk _ _ _ _ W1 H2) as [W2 G2].
  destruct (Hc a t1 H1 Hw (below_grow _ _ G2 Hb) Ha) as (e1 & A1 & V1 & F1 & L1 & Q1).
  specialize (Hk a t1 e1 G1 V1 Q1 a' t2 H2 W1 Hb A1).
  destruct (i s) as [[b'|er| |] s2]; [|by apply L1|done..].
  destruct Hk as (e2 & A2 & V2 & F2 & L2 & Q2). exists e2. split; [done|]. split.
  { intros v Hv. pose proof (ext_vals _ _ (grow_ext _ _ G1)). rewrite V2 by lia. by apply V1. }
  split; [congruence|]. split; [|done]. intros r Hr. by apply L1, L2.
Qed.

Lemma trl_ext {A B} t e s (c : TM A) (i i' : IM B) Q : i s = i' s -> trl t e s c i' Q -> trl t e s c i Q.
Proof using Type. intros Hi H a t' Hc Hw Hb Ha. rewrite Hi. by apply H. Qed.

(** The translator's own binds, regrouped. *)
Lemma trl_assoc {A B C D} t e s (c : TM A) (k : A -> TM B) (k' : B -> TM C) (i : IM D) Q :
  trl t e s (x ← c; y ← k x; k' y) i Q -> trl t e s (y ← (x ← c; k x); k' y) i Q.
Proof using Type. intros H a t' Hc. apply H. by rewrite <- bind_assoc. Qed.

(** What [trl] observes of an outcome: the frame matters only if the run goes on. *)
Definition obs {B} (o : res Trap B * IS S) : res Trap (B * Frame) * S :=
  match o with
  | (Ok b, s') => (Ok (b, fr s'), api s')
  | (Err er, s') => (Err er, api s')
  | (Panic, s') => (Panic, api s')
  | (NoFuel, s') => (NoFuel, api s')
  end.

Lemma trl_obs {A B} t e s (c : TM A) (i i' : IM B) Q : obs (i s) = obs (i' s) -> trl t e s c i' Q -> trl t e s c i Q.
Proof using Type.
  intros Ho H a t' Hc Hw Hb Ha. specialize (H a t' Hc Hw Hb Ha).
  destruct (i s) as [[] [f1 a1]], (i' s) as [[] [f2 a2]]; cbn in Ho; simplify_eq; exact H.
Qed.

Lemma trl_mono {A B} t e s (c : TM A) (i : IM B) (Q Q' : A -> B -> Tx X -> env -> Prop) :
  trl t e s c i Q -> (forall a b t' e', Q a b t' e' -> Q' a b t' e') -> trl t e s c i Q'.
Proof using Type.
  intros H HQ a t' Hc Hw Hb Ha. specialize (H a t' Hc Hw Hb Ha). destruct (i s) as [[b|er| |] s1]; try done.
  destruct H as (e1 & A1 & V1 & F1 & L1 & Q1). exists e1. split_and!; auto.
Qed.

Lemma trl_ret {A B} t e s (a : A) (b : B) (Q : A -> B -> Tx X -> env -> Prop) : Q a b t e -> trl t e s (mret a) (mret b) Q.
Proof using Type. intros HQ a' t' H Hw Hb Ha. minv. exists e. split_and!; try done. by intros r. Qed.

(** *** Pushing instructions *)

Lemma rest_push t i : below (upd_b (push_inst i) t) -> rest_of t = i :: rest_of (upd_b (push_inst i) t).
Proof using Type.
  intros [E _]. unfold rest_of. pose proof (ext_code _ _ E (ir_cur (tx_b t))) as [k Hk].
  cbn in *. rewrite body_push, decide_True in Hk by done. rewrite body_push, decide_True by done.
  rewrite Hk. rewrite <- app_assoc. rewrite drop_app_length, app_assoc, drop_app_length. done.
Qed.

Lemma rest_val t : rest_of (upd_b new_val t) = rest_of t.
Proof using Type. done. Qed.

Lemma agrees_set_val t e s g d x : agrees t e s -> (forall F, ir_cur (g F) = ir_cur F) -> agrees (upd_b g t) (set_val d x e) s.
Proof using Type. by intros [] _. Qed.

(** An instruction that computes a value. *)
Lemma trl_ins t e s (i : Z -> inst) x :
  (forall G d, ext (tx_b t) G -> pure_step G (i d) e = Some (set_val d x e)) ->
  trl t e s (ins i) (mret tt) (fun v _ t' e' => has t' e' v x /\ stack e' = stack e).
Proof using Type.
  intros Hi a t' [= <- <-] Hw Hb Ha. cbn. set (d := ir_vals (tx_b t)).
  exists (set_val d x e). split; [by destruct Ha|]. split.
  { intros v Hv. cbn. rewrite lookup_insert_ne; [done|]. unfold d in *. lia. }
  split; [done|]. split; [|split; [split; [cbn; lia|by apply lookup_insert_eq]|done]].
  intros r Hr. assert (Hb' : below (upd_b (push_inst (i d)) t)).
  { destruct Hb as [E A]. split; [|exact A]. etrans; [|exact E]. split; cbn; try done; lia. }
  rewrite (rest_push t (i d)) by done. eapply evals_pure; [|exact Hr]. apply Hi.
  destruct Hb' as [E _]. etrans; [|exact E]. apply ext_push.
Qed.

Lemma trl_iconst t e s k : trl t e s (iconst k) (mret tt) (fun v _ t' e' => has t' e' v (wrap 64 k) /\ stack e' = stack e).
Proof using Type. by apply trl_ins. Qed.

Lemma trl_binary t e s o a b x y :
  has t e a x -> has t e b y ->
  trl t e s (ins (fun d => Binary o d a b)) (mret tt) (fun v _ t' e' => has t' e' v (c_binary o x y) /\ stack e' = stack e).
Proof using Type. intros [_ Ha] [_ Hb]. apply trl_ins. intros G d _. cbn. by rewrite Ha, Hb. Qed.

Lemma trl_binary_imm t e s o a x k :
  has t e a x ->
  trl t e s (ins (fun d => BinaryImm o d a k)) (mret tt) (fun v _ t' e' => has t' e' v (c_binary o x (wrap 64 k)) /\ stack e' = stack e).
Proof using Type. intros [_ Ha]. apply trl_ins. intros G d _. cbn. by rewrite Ha. Qed.

Lemma trl_bnot t e s a x :
  has t e a x -> trl t e s (ins (fun d => Bnot d a)) (mret tt) (fun v _ t' e' => has t' e' v (c_bnot x) /\ stack e' = stack e).
Proof using Type. intros [_ Ha]. apply trl_ins. intros G d _. cbn. by rewrite Ha. Qed.

Lemma trl_icmp t e s cc a b x y :
  has t e a x -> has t e b y ->
  trl t e s (ins (fun d => Icmp cc d a b)) (mret tt) (fun v _ t' e' => has t' e' v (b2i (c_icmp cc x y)) /\ stack e' = stack e).
Proof using Type. intros [_ Ha] [_ Hb]. apply trl_ins. intros G d _. cbn. by rewrite Ha, Hb. Qed.

Lemma trl_icmp_imm t e s cc a x k :
  has t e a x ->
  trl t e s (ins (fun d => IcmpImm cc d a k)) (mret tt) (fun v _ t' e' => has t' e' v (b2i (c_icmp cc x (wrap 64 k))) /\ stack e' = stack e).
Proof using Type. intros [_ Ha]. apply trl_ins. intros G d _. cbn. by rewrite Ha. Qed.

Lemma trl_uextend t e s a x :
  has t e a x -> trl t e s (ins (fun d => Uextend d a)) (mret tt) (fun v _ t' e' => has t' e' v x /\ stack e' = stack e).
Proof using Type. intros [_ Ha]. apply trl_ins. intros G d _. cbn. by rewrite Ha. Qed.

(** *** Operands and registers *)

Lemma trl_dec_in {A} t e s (d : M Z JitError A) (i : IM A) (R : A -> Z -> Prop) :
  (forall p a p', d p = (Ok a, p') -> R a p') ->
  (forall p a p', d p = (Ok a, p') -> forall s0, fcode (fr s0) = code f -> pc (fr s0) = p -> i s0 = (Ok a, set_pc p' s0)) ->
  trl t e s (on_dec d) i (fun a b t' e' => a = b /\ R a (tx_pc t') /\ stack e' = stack e).
Proof using Type.
  intros HR Hd a t' H Hw Hb [A1 A2 A3 A4 A5 A6]. unfold on_dec in H. destruct (d (tx_pc t)) as [r p] eqn:Hr. injection H as -> <-.
  rewrite (Hd _ _ _ Hr s A1 (eq_sym A2)). exists e. split; [by split|]. split; [done|]. split; [done|]. split; [by intros r|]. eauto.
Qed.

Lemma trl_u8 t e s :
  trl t e s (on_dec (dec_u8 (code f))) fr_u8 (fun a b t' e' => a = b /\ 0 <= a < 256 /\ stack e' = stack e).
Proof using Type.
  apply trl_dec_in with (R := fun a _ => 0 <= a < 256).
  { intros p a p' H. unfold dec_u8 in H. minv. apply b2z_range. }
  unfold dec_u8, fr_u8. intros p a p' H s0 Hc <-. minv. injection Hc0 as <- <-.
  destruct (lookupz (code f) _) eqn:Hl; [|discriminate Hc1]. injection Hc1 as <- <-. injection Hc2 as <- <-.
  unfold mbind, M_bind. cbn. rewrite Hc, Hl. done.
Qed.

Lemma dec_u32_reads p v p' (s0 : IS S) :
  dec_u32 (code f) p = (Ok v, p') -> fcode (fr s0) = code f -> pc (fr s0) = p -> fr_u32 s0 = (Ok v, set_pc p' s0).
Proof using Type.
  unfold dec_u32, fr_u32. intros H Hc <-. minv. injection Hc0 as <- <-.
  destruct (slice (code f) _ _) eqn:Hl; [|discriminate Hc1]. injection Hc1 as <- <-. injection Hc2 as <- <-.
  unfold mbind, M_bind. cbn. rewrite Hc, Hl. done.
Qed.

Lemma trl_u32 t e s :
  trl t e s (on_dec (dec_u32 (code f))) fr_u32 (fun a b t' e' => a = b /\ (0 <= a < 2 ^ 32 /\ 0 <= tx_pc t') /\ stack e' = stack e).
Proof using Type.
  apply trl_dec_in with (R := fun a p => 0 <= a < 2 ^ 32 /\ 0 <= p); [|eauto using dec_u32_reads].
  intros p a p' H. unfold dec_u32 in H. minv. destruct (slice _ _ _) as [l|] eqn:Hl; [|discriminate Hc0]. injection Hc0 as <- <-. injection Hc as <- <-. injection Hc1 as <- <-.
  pose proof (le_val_range l). unfold slice in Hl. case_bool_decide; [|done]. replace (zlen l) with 4 in * by
    (injection Hl as <-; unfold zlen in *; rewrite length_take, length_drop; lia). lia.
Qed.

Lemma trl_i32 t e s : trl t e s (on_dec (dec_i32 (code f))) fr_i32 (fun a b t' e' => a = b /\ stack e' = stack e).
Proof using Type.
  eapply trl_mono; [apply trl_dec_in with (R := fun _ _ => True)|by intros a b t' e' (? & _ & ?)]; [done|].
  intros p a p' H s0 Hc Hp. unfold dec_i32 in H. apply bind_ok in H as (v & p1 & H & [= <- <-]).
  unfold fr_i32. by erewrite bind_eval by (by eapply dec_u32_reads).
Qed.

Lemma trl_i64 t e s : trl t e s (on_dec (dec_i64 (code f))) fr_i64 (fun a b t' e' => a = b /\ stack e' = stack e).
Proof using Type.
  eapply trl_mono; [apply trl_dec_in with (R := fun _ _ => True)|by intros a b t' e' (? & _ & ?)]; [done|].
  unfold dec_i64, fr_i64. intros p a p' H s0 Hc <-. minv. injection Hc0 as <- <-.
  destruct (slice (code f) _ _) eqn:Hl; [|discriminate Hc1]. injection Hc1 as <- <-. injection Hc2 as <- <-.
  unfold mbind, M_bind. cbn. rewrite Hc, Hl. done.
Qed.

Lemma reg_var t e s r x :
  agrees t e s -> lookupz (tx_regs t) r = Some x -> x = r /\ exists y, lookupz (regs (fr s)) r = Some y /\ vars e !! r = Some y.
Proof using Type.
  intros [A1 A2 A3 A3' A4 A5] Hx. rewrite A3 in Hx. pose proof (lookupz_range _ _ _ Hx) as Hr.
  unfold zlen in Hr. rewrite length_seqZ in Hr. apply lookupz_Some in Hx as [_ Hx]. apply lookup_seqZ in Hx as [-> _].
  split; [lia|]. destruct (lookupz_is_Some (regs (fr s)) r ltac:(unfold zlen in *; lia)) as [y Hy]. exists y. auto.
Qed.

Lemma trl_use t e s r : trl t e s (use_reg r) (fr_get r) (fun v x t' e' => has t' e' v x /\ stack e' = stack e).
Proof using Type.
  intros v t' H Hw Hb Ha. unfold use_reg in H. minv. injection Hc as <- <-.
  destruct (lookupz (tx_regs t) r) as [x|] eqn:Hx; [|discriminate Hc0]. injection Hc0 as <- <-.
  destruct (reg_var t e s r x Ha Hx) as (-> & y & Hy & Hv). unfold fr_get. unfold mbind, M_bind. cbn. rewrite Hy. cbn.
  refine (trl_ins t e s (fun d => UseVar d r) y _ v t' H Hw Hb Ha). intros G d _. cbn. by rewrite Hv.
Qed.

Lemma regs_in_insert e rs r x : regs_in e rs -> 0 <= r < zlen rs -> regs_in (set_var r x e) (insertz r x rs).
Proof using Type.
  intros H Hr q y. rewrite lookupz_insertz by done. cbn. case_decide as Hq.
  - subst. intros [= ->]. by rewrite lookup_insert_eq.
  - rewrite lookup_insert_ne by done. apply H.
Qed.

Lemma trl_def t e s r v x :
  has t e v x -> trl t e s (def_reg r v) (fr_set r x) (fun _ _ t' e' => stack e' = stack e).
Proof using Type.
  intros [_ Hv] a t' H Hw Hb Ha. unfold def_reg in H. minv. injection Hc as <- <-.
  destruct (lookupz (tx_regs t) r) as [z|] eqn:Hx; [|discriminate Hc0]. injection Hc0 as <- <-. injection H as <- <-.
  destruct (reg_var t e s r z Ha Hx) as (-> & y & Hy & _). unfold fr_set. unfold mbind, M_bind. cbn. rewrite Hy. cbn.
  exists (set_var r x e). destruct Ha. split.
  { split; cbn; try done; [by rewrite zlen_insertz|]. apply regs_in_insert; [done|by apply lookupz_range in Hy]. }
  split; [done|]. split; [done|]. split; [|done]. intros q Hq. rewrite (rest_push t (DefVar r v)) by done.
  eapply evals_pure; [|exact Hq]. cbn. by rewrite Hv.
Qed.

(** *** Several registers *)

Lemma Forall2_has_carry t t' e e' vs xs :
  grow t t' -> same_vals t e e' -> Forall2 (has t e) vs xs -> Forall2 (has t' e') vs xs.
Proof using Type. intros G V H. eapply Forall2_impl; [exact H|]. intros v x. by apply has_carry. Qed.

Lemma trl_args n : forall t e s,
  trl t e s (collect n (r ← on_dec (dec_u8 (code f)); use_reg r)) (collect n (r ← fr_u8; fr_get r))
    (fun vs xs t' e' => Forall2 (has t' e') vs xs /\ length xs = n /\ stack e' = stack e).
Proof using Type.
  induction n as [|n IH]; intros t e s; cbn [collect]; [by apply trl_ret|].
  eapply trl_bind with (Q := fun v x t' e' => has t' e' v x /\ stack e' = stack e); [apply _..| |].
  { eapply trl_bind; [apply _..|apply trl_u8|]. cbn. intros a b t1 e1 s1 _ _ (<- & _ & K1). eapply trl_mono; [apply trl_use|].
    cbn. intros v x t2 e2 [H2 K2]. split; [exact H2|congruence]. }
  intros v x t1 e1 s1 G1 V1 [H1 K1]. eapply trl_bind; [apply _..|apply IH|]. cbn. intros vs xs t2 e2 s2 G2 V2 (H2 & N2 & K2). apply trl_ret.
  split; [|split; [cbn; lia|congruence]]. constructor; [by eapply has_carry|done].
Qed.

(** *** Calls *)

Lemma has_values t e vs xs : Forall2 (has t e) vs xs -> mapM (fun a => vals e !! a) vs = Some xs.
Proof using Type. intros H. apply mapM_Some. eapply Forall2_impl; [exact H|]. by intros v x []. Qed.

Definition returns_ok (b : bool) {A} (r : res Trap (option A)) : Prop :=
  match r with Ok o => b = bool_decide (is_Some o) | _ => True end.

Lemma trl_ins_call t e s fref x vs xs (c : M S Trap (option Z)) :
  lookupz (ir_funcs (tx_b t)) fref = Some x -> Forall2 (has t e) vs xs -> zlen xs = nparams x ->
  (ran (c (api s)).1 = true -> calls_as prog U x (stack e) xs (api s) (c (api s))) ->
  returns_ok (has_ret x) (c (api s)).1 ->
  trl t e s (ins_call fref vs) (on_api c)
    (fun ov ox t' e' => stack e' = stack e /\
      match ov, ox with Some v, Some y => has t' e' v y | None, None => True | _, _ => False end).
Proof using Type.
  intros Hx Hvs Hn Hc Hret ov t' H Hw Hb Ha. unfold ins_call in H. minv. injection Hc0 as <- <-. rewrite Hx in Hc1. injection Hc1 as <- <-.
  apply has_values in Hvs.
  set (i := Call (if has_ret x then Some (ir_vals (tx_b t)) else None) fref vs).
  assert (ov = (if has_ret x then Some (ir_vals (tx_b t)) else None) /\
    t' = if has_ret x then upd_b (fun F => new_val (push_inst i F)) t else upd_b (push_inst i) t) as [Hov Ht'].
  { unfold i. destruct (has_ret x); apply bind_ok in H as (a & t1 & H1 & H2); injection H1 as <- <-; by injection H2 as <- <-. }
  assert (Hb' : below (upd_b (push_inst i) t)).
  { subst t'. destruct (has_ret x), Hb as [E A]; (split; [|exact A]); [|done]. etrans; [|exact E]. split; cbn; try done; lia. }
  assert (HU : lookupz (ir_funcs (u_func U)) fref = Some x).
  { eapply prefix_lookupz; [|exact Hx]. exact (ext_funcs _ _ (proj1 Hb')). }
  rewrite (rest_push t i Hb'). unfold on_api. destruct (c (api s)) as [r s'] eqn:Hcs. cbn [fst snd] in *.
  destruct r as [o|er| |]; [| |done..].
  2:{ eapply evals_call_err; eauto; by apply Hc. }
  specialize (Hc ltac:(done)). unfold returns_ok in Hret.
  exists (match o with Some v => set_val (ir_vals (tx_b t)) v e | None => e end).
  split; [subst t'; destruct Ha, (has_ret x), o; by split|]. split.
  { intros v Hv. destruct o; [|done]. cbn. rewrite lookup_insert_ne; [done|]. lia. }
  split; [subst t'; by destruct (has_ret x)|]. split.
  - intros q Hq. rewrite (rest_push t i Hb'). eapply evals_call; eauto. subst t'. rewrite Hret in *. destruct o; exact Hq.
  - subst ov t'. rewrite Hret in *. destruct o; cbn; split; try done. split; [cbn; lia|by apply lookup_insert_eq].
Qed.

(** A helper that runs as [c]. *)
Definition runs_as (h : Helper.t) (st : gmap Z Z) (xs : list Z) (c : M S Trap (option Z)) : Prop :=
  forall s : S, ran (c s).1 = true -> exists N, forall n, (N <= n)%nat -> run_helper n (Helper.idx h) st xs s = c s.

Definition yields (c : M S Trap Z) : M S Trap (option Z) := v ← c; mret (Some v).
Definition does (c : M S Trap unit) : M S Trap (option Z) := _ ← c; mret None.

Lemma trl_helper t e s h : trl t e s (helper pcrel h) (mret tt)
  (fun r _ t' e' => e' = e /\ lookupz (ir_funcs (tx_b t')) r = Some (hlp_import pcrel (Helper.idx h))).
Proof using Type.
  intros r t' H Hw Hb Ha. cbn. exists e. unfold helper in H. minv. injection Hc as <- <-.
  destruct (tx_helpers t !! _) as [r0|] eqn:Hr; minv.
  { split_and!; try done; [by intros q|]. by apply (wf_helpers _ _ _ _ Hw). }
  injection Hc as <- <-. injection Hc0 as <- <-. destruct Ha. split_and!; try done; [by intros q|]. apply lookupz_app_r.
Qed.

Lemma trl_call_helper t e s h vs xs (c : M S Trap (option Z)) :
  Forall2 (has t e) vs xs -> zlen xs = helper_nargs (Helper.idx h) ->
  runs_as h (stack e) xs c -> returns_ok (helper_has_ret (Helper.idx h)) (c (api s)).1 ->
  trl t e s (call_helper pcrel h vs) (on_api c)
    (fun ov ox t' e' => stack e' = stack e /\
      match ov, ox with Some v, Some y => has t' e' v y | None, None => True | _, _ => False end).
Proof using Type.
  intros Hvs Hn Hc Hret. unfold call_helper. eapply trl_left; [apply _..|apply trl_helper|].
  cbn. intros r t' e' G V [-> Hr]. eapply trl_ins_call; [exact Hr|by eapply Forall2_has_carry|done| |done].
  intros Hs. destruct (Hc _ Hs) as [N HN]. exists N. intros n Hle. unfold icallee, run_foreign. cbn. by apply HN.
Qed.

Lemma trl_call_val t e s h vs xs (c : M S Trap Z) :
  Forall2 (has t e) vs xs -> zlen xs = helper_nargs (Helper.idx h) -> helper_has_ret (Helper.idx h) = true ->
  runs_as h (stack e) xs (yields c) ->
  trl t e s (call_val pcrel h vs) (on_api c) (fun v y t' e' => has t' e' v y /\ stack e' = stack e).
Proof using Type.
  intros Hvs Hn Hret Hc. apply trl_ext with (i' := o ← on_api (yields c); unwrap o).
  { unfold on_api, yields, mbind, M_bind. by destruct (c (api s)) as [[]]. }
  unfold call_val. eapply trl_bind; [apply _..|eapply trl_call_helper; [done..|]|].
  { rewrite Hret. unfold yields, mbind, M_bind. by destruct (c (api s)) as [[]]. }
  cbn. intros [v|] [y|] t' e' s' G V [K H]; try done. by apply trl_ret.
Qed.

Lemma trl_call_unit t e s h vs xs (c : M S Trap unit) :
  Forall2 (has t e) vs xs -> zlen xs = helper_nargs (Helper.idx h) -> helper_has_ret (Helper.idx h) = false ->
  runs_as h (stack e) xs (does c) ->
  trl t e s (call_unit pcrel h vs) (on_api c) (fun _ _ t' e' => stack e' = stack e).
Proof using Type.
  intros Hvs Hn Hret Hc. apply trl_ext with (i' := _ ← on_api (does c); mret tt).
  { unfold on_api, does, mbind, M_bind. by destruct (c (api s)) as [[[]| | |]]. }
  unfold call_unit. eapply trl_bind; [apply _..|eapply trl_call_helper; [done..|]|].
  { rewrite Hret. unfold does, mbind, M_bind. by destruct (c (api s)) as [[]]. }
  cbn. intros ov oy t' e' s' G V [K H]. by apply trl_ret.
Qed.

(** The same for a helper whose result the code drops. *)
Lemma trl_call_drop t e s h vs xs (c : M S Trap unit) :
  Forall2 (has t e) vs xs -> zlen xs = helper_nargs (Helper.idx h) -> helper_has_ret (Helper.idx h) = true ->
  runs_as h (stack e) xs (yields (_ ← c; mret 0)) ->
  trl t e s (call_unit pcrel h vs) (on_api c) (fun _ _ t' e' => stack e' = stack e).
Proof using Type.
  intros Hvs Hn Hret Hc. apply trl_ext with (i' := _ ← on_api (yields (_ ← c; mret 0)); mret tt).
  { unfold on_api, yields, mbind, M_bind. by destruct (c (api s)) as [[[]| | |]]. }
  unfold call_unit. eapply trl_bind; [apply _..|eapply trl_call_helper; [done..|]|].
  { rewrite Hret. unfold yields, mbind, M_bind. by destruct (c (api s)) as [[]]. }
  cbn. intros ov oy t' e' s' G V [K H]. by apply trl_ret.
Qed.

(** *** Checks that branch to the trap block *)

Context (Htrap : forall e (s : S), evals prog U (body (u_func U) trap) e s (Err Badarg, s)).

(** A branch to a new block: what is emitted next is the start of that block. *)
Lemma rest_switched t t' b :
  wf t -> ir_blocks (tx_b t) <= b -> tx_b t' = set_cur b (tx_b t') -> body (tx_b t') b = body (tx_b t) b ->
  rest_of t' = body (u_func U) b.
Proof using Type.
  intros Hw Hb Hc He. unfold rest_of. assert (ir_cur (tx_b t') = b) as -> by by rewrite Hc.
  rewrite He, (wf_fresh _ _ _ _ Hw) by done. done.
Qed.

Lemma trl_check {A B} t e s ok (b : bool) (k : TM A) (i : IM B) Q :
  Grows m ar_of pcrel k -> has t e ok (b2i b) ->
  (b = true -> forall t', grow t t' -> trl t' e s k i Q) ->
  (b = false -> exists s', i s = (Err Badarg, s') /\ api s' = api s) ->
  trl t e s (cont ← create_block; t ← get; _ ← ins0 (Brif ok cont (tx_trap t)); _ ← switch_to_block cont; k) i Q.
Proof using Htrap.
  intros Gk [_ Hok] Hyes Hno a t' H Hw Hbel Ha. minv.
  injection Hc as <- <-. injection Hc0 as <- <-. injection Hc1 as <- <-. injection Hc2 as <- <-.
  set (cont := ir_blocks (tx_b t)) in *. cbn [upd_b tx_trap] in H. set (br := Brif ok cont (tx_trap t)) in *.
  set (t1 := upd_b (push_inst br) (upd_b new_block t)) in *. set (t2 := upd_b (set_cur cont) t1) in *.
  assert (K1 : keeps m ar_of pcrel t t1) by by apply keeps_push, keeps_block, keeps_refl.
  assert (K2 : keeps m ar_of pcrel t t2) by (apply keeps_switch; [done|cbn; lia]).
  destruct K1 as [W1 G1], K2 as [W2 G2]. destruct (Gk _ _ _ W2 H) as [W3 G3].
  pose proof (below_grow _ _ G3 Hbel) as B2. assert (B1 : below t1) by (destruct B2 as [[] ?]; by split).
  assert (Hr : rest_of t = br :: rest_of t1) by exact (rest_push (upd_b new_block t) br B1).
  assert (Hr2 : rest_of t2 = body (u_func U) cont).
  { apply (rest_switched t); [done|lia|done|].
    trans (body (push_inst br (new_block (tx_b t))) cont); [done|]. rewrite body_push, decide_False; [done|].
    pose proof (wf_cur _ _ _ _ Hw). unfold cont. cbn. lia. }
  assert (A2 : agrees t2 e s) by by destruct Ha.
  destruct b; [clear Hno|clear Hyes].
  - specialize (Hyes eq_refl t2 G2 a t' H W2 Hbel A2).
    assert (L : leads t e (api s) t2 e (api s)).
    { intros r Hq. rewrite Hr2 in Hq. rewrite Hr. unfold br. eapply evals_brif; [exact Hok|exact Hq]. }
    destruct (i s) as [[y|er| |] s1]; [|by apply L|done..]. destruct Hyes as (e1 & A1 & V1 & F1 & L1 & Q1).
    exists e1. split; [done|]. split; [done|]. split; [done|]. split; [|done]. intros r Hq. by apply L, L1.
  - destruct (Hno eq_refl) as (s1 & -> & <-). rewrite Hr. unfold br. eapply evals_brif; [exact Hok|].
    change (evals prog U (body (u_func U) (tx_trap t)) e (api s1) (Err Badarg, api s1)). rewrite (ag_trap _ _ _ Ha). apply Htrap.
Qed.

Lemma land7 x : 0 <= Z.land x 7 < 8.
Proof using Type. change 7 with (Z.ones 3). rewrite Z.land_ones by lia. apply Z.mod_pos_bound. lia. Qed.

Lemma as_int_range x a : as_int x = Some a -> - 2 ^ 60 <= a < 2 ^ 60.
Proof using Type.
  unfold as_int. case_bool_decide; [|done]. intros [= <-]. rewrite Z.shiftr_div_pow2 by lia.
  pose proof (swrap_range 64 x ltac:(lia)). split; [apply Z.div_le_lower_bound|apply Z.div_lt_upper_bound]; lia.
Qed.

Lemma trl_expect_int t e s v x :
  has t e v x ->
  trl t e s (expect_int v) (ok_or (as_int x) Badarg)
    (fun u a t' e' => has t' e' u (wrap 64 a) /\ - 2 ^ 60 <= a < 2 ^ 60).
Proof using CW Htrap.
  intros Hv. unfold expect_int. eapply trl_left; [apply _..|apply trl_binary_imm, Hv|].
  cbn. intros tg t1 e1 G1 V1 [H1 _]. eapply has_carry in Hv; [|done..].
  eapply trl_left; [apply _..|apply trl_icmp_imm, H1|].
  cbn. intros ok t2 e2 G2 V2 [H2 _]. eapply has_carry in Hv; [|done..]. clear H1.
  rewrite law_band, law_eq in H2. change (wrap 64 7) with 7 in H2. pose proof (land7 x) as Hl.
  change (wrap 64 (wrap 64 TAG_INT)) with TAG_INT in H2.
  rewrite 2!(wrap_small _ (Z.land x 7)) in H2 by lia. change (Z.land x 7) with (tag x) in H2.
  eapply trl_check; [apply _|exact H2| |].
  - intros Hb t3 G3. apply trl_ext with (i' := _ ← mret tt; mret (Z.shiftr (swrap 64 x) 3)).
    { unfold as_int. by rewrite Hb. }
    intros u t' Hc Hw Hb' Ha. destruct (trl_binary_imm t3 e2 s sshr v x 3 (has_carry _ _ _ _ _ _ G3 (fun _ _ => eq_refl) Hv) u t' Hc Hw Hb' Ha)
      as (e3 & A3 & V3 & F3 & L3 & H3 & _).
    cbn. exists e3. split_and!; try done.
    + rewrite law_sshr in H3. exact H3.
    + apply (as_int_range x). unfold as_int. by rewrite Hb.
    + apply (as_int_range x). unfold as_int. by rewrite Hb.
  - intros Hb. exists s. unfold as_int. by rewrite Hb.
Qed.

(** *** Tagging *)

Lemma tagged_word x g : 0 <= g < 8 -> 0 <= tagged x g < 2 ^ 64.
Proof using Type. intros. rewrite tagged_header. by apply header_range. Qed.

Lemma wrap_swrap x : wrap 64 (swrap 64 x) = wrap 64 x.
Proof using Type. unfold wrap, swrap. rewrite Zminus_mod_idemp_l. f_equal. lia. Qed.

(** A constant term. *)
Lemma trl_term_const t e s x g :
  0 <= g < 8 -> trl t e s (iconst (swrap 64 (tagged x g))) (mret tt) (fun v _ t' e' => has t' e' v (tagged x g) /\ stack e' = stack e).
Proof using Type.
  intros Hg. eapply trl_mono; [apply trl_iconst|]. cbn. intros v _ t' e'. by rewrite wrap_swrap, wrap_small by by apply tagged_word.
Qed.

Lemma trl_retag_raw t e s v x :
  has t e v x -> trl t e s (retag_int v) (mret tt) (fun u _ t' e' => has t' e' u (tagged x TAG_INT) /\ stack e' = stack e).
Proof using CW.
  intros Hv. unfold retag_int. eapply trl_left; [apply _..|apply trl_binary_imm, Hv|].
  cbn. intros sh t1 e1 G1 V1 [H1 K1]. eapply trl_mono; [apply trl_binary_imm, H1|].
  cbn. intros u _ t2 e2 [H2 K2]. split; [|congruence]. rewrite law_bor, law_ishl in H2.
  change (wrap 64 3 mod 64) with 3 in H2. change (wrap 64 TAG_INT) with TAG_INT in H2.
  rewrite wrap_small in H2; [exact H2|]. by apply (tagged_word x TAG_INT).
Qed.

Lemma trl_retag t e s v z :
  has t e v (wrap 64 z) -> trl t e s (retag_int v) (mret tt) (fun u _ t' e' => has t' e' u (term_int z) /\ stack e' = stack e).
Proof using CW. apply trl_retag_raw. Qed.

(** *** Spilling arguments *)

Definition stack_at (st : gmap Z Z) (p : Z) (xs : list Z) : Prop :=
  forall j x, xs !! j = Some x -> st !! (p + 8 * Z.of_nat j) = Some x.

Lemma trl_store t e s v slot off x size :
  has t e v x -> lookupz (ir_slots (tx_b t)) slot = Some size -> 0 <= off -> off + 8 <= size ->
  trl t e s (ins0 (StackStore v slot off)) (mret tt)
    (fun _ _ t' e' => stack e' = <[c_slot slot + off := x]> (stack e) /\ ir_slots (tx_b t') = ir_slots (tx_b t)).
Proof using Type.
  intros [_ Hv] Hs H0 H1 a t' [= <- <-] Hw Hb Ha. cbn. exists (set_word (c_slot slot + off) x e).
  split; [by destruct Ha|]. split; [done|]. split; [done|]. split; [|done]. intros r Hr.
  rewrite (rest_push t (StackStore v slot off)) by done. eapply evals_pure; [|exact Hr].
  cbn. rewrite Hv. cbn. unfold slot_word.
  rewrite (prefix_lookupz _ _ _ _ (ext_slots _ _ (proj1 Hb)) Hs). cbn. by rewrite bool_decide_true.
Qed.

Lemma trl_spill_from slot size xs : forall t e s vs i,
  Forall2 (has t e) vs xs -> lookupz (ir_slots (tx_b t)) slot = Some size -> 0 <= i -> (i + zlen vs) * 8 <= size ->
  trl t e s (spill_from slot i vs) (mret tt)
    (fun _ _ t' e' => stack_at (stack e') (c_slot slot + 8 * i) xs /\
       (forall a, a < c_slot slot + 8 * i -> stack e' !! a = stack e !! a) /\ ir_slots (tx_b t') = ir_slots (tx_b t)).
Proof using Type.
  induction xs as [|x xs IH]; intros t e s vs i Hvs Hs Hi Hn.
  { apply Forall2_nil_inv_r in Hvs as ->. by apply trl_ret. }
  apply Forall2_cons_inv_r in Hvs as (v & vs' & Hv & Hvs & ->). cbn [spill_from]. rewrite zlen_cons in Hn.
  pose proof (zlen_nonneg vs'). eapply trl_left; [apply _..|eapply trl_store; [exact Hv|exact Hs|lia..]|].
  cbn. intros _ t1 e1 G1 V1 [K1 S1].
  eapply trl_mono; [eapply (IH t1 e1 s vs' (i + 1)); [by eapply Forall2_has_carry|by rewrite S1|lia..]|].
  cbn. intros _ _ t2 e2 (K2 & P2 & S2). split_and!; [|intros a Ha; rewrite P2, K1 by lia; apply lookup_insert_ne; lia|congruence].
  intros [|j] y; cbn.
  - intros [= ->]. rewrite P2 by lia. rewrite K1. apply lookup_insert_Some. left. split; [lia|done].
  - intros Hy. rewrite <- (K2 j y Hy). f_equal. lia.
Qed.

Lemma trl_spill t e s vs xs :
  Forall2 (has t e) vs xs ->
  trl t e s (spill vs) (mret tt) (fun p _ t' e' => exists a, has t' e' p a /\ stack_at (stack e') a xs).
Proof using Type.
  intros Hvs. unfold spill. pose proof (zlen_nonneg vs).
  eapply trl_left with (Q := fun ss _ t' e' => e' = e /\ lookupz (ir_slots (tx_b t')) ss = Some (Z.max (zlen vs) 1 * 8)); [apply _..| |].
  { intros ss t' [= <- <-] Hw Hb Ha. cbn. exists e. split; [by destruct Ha|]. split_and!; try done; [by intros r|]. apply lookupz_app_r. }
  cbn. intros ss t1 e1 G1 V1 [-> S1].
  eapply trl_left; [apply _..|eapply trl_spill_from; [by eapply Forall2_has_carry|exact S1|lia..]|].
  cbn. intros _ t2 e2 G2 V2 (K2 & _ & S2). rewrite <- S2 in S1.
  eapply trl_mono; [apply (trl_ins t2 e2 s (fun d => StackAddr d ss 0) (c_slot ss + 0))|].
  { intros G d E. cbn. by rewrite (prefix_lookupz _ _ _ _ (ext_slots _ _ E) S1). }
  cbn. intros p _ t3 e3 [H3 K3]. exists (c_slot ss + 0). split; [done|]. by rewrite K3.
Qed.

End relation.
