(* ===== verification/JitRef.v ===== *)
(** * JitRef: what compiled code is to do

    The contract between compiled code and the kernel ([HelperLaws]: each helper does what the
    interpreter's arm does through [SystemApi]), and the reference the compiler is checked
    against: the interpreter with the arms replaced in which the compiler departs from it
    ([native_arms]).  [MUL] wraps instead of trapping, [CALL] tests its result as a 64-bit word, a backward [JMP_IF] polls even when it is
    not taken, [SLEEP_MS] polls before it checks its operand, and [CALL_EXT] calls a sealed
    function directly when the resolver found one. *)

From S2P Require Import Prelude Term TermImm Bytecode Verify VerifySound Interp Clif Jit JitLogic JitSim.

Section reference.
Context {S : Type} `{!SystemApi S}.
Abbreviation AM := (M S Trap).

(** ** What the helpers compute *)

Definition on_heap {A} (g : mem -> res Trap A) : AM A := fun s => (g (hmem (heap_state s)), s).

Definition a_self : AM Term := fun s => (Ok (term_pid (self_pid s)), s).
Definition a_ticks : AM Term := fun s => (Ok (api_ticks s), s).
Definition a_upd (g : S -> S) : AM unit := fun s => (Ok tt, g s).
Definition a_get_elem (t : Term) (idx : Z) : AM Term := on_heap (fun mm =>
  k ← kind mm t;
  if negb (bool_decide (k = KTuple)) then Err Badarg
  else n ← tuple_arity mm t; if bool_decide (idx >= n) then Err Badarg else tuple_elem mm t idx).
Definition a_head_tail (hd : bool) (t : Term) : AM Term := on_heap (fun mm =>
  k ← kind mm t; if negb (bool_decide (k = KCons)) then Err Badarg else if hd then head mm t else tail mm t).
Definition a_eq (fuel : nat) (a b : Term) : AM Z := e ← on_heap (fun mm => eq_term fuel mm a b); mret (b2i e).
Definition a_spawn (i : Z) (arg : Term) : AM Term :=
  _ ← fail_if (is_boxed arg) Badarg; pid ← api_spawn i arg; mret (term_pid pid).
Definition a_exit_atom (t : Term) : AM unit := a ← ok_or (as_atom t) Badarg; throw (Exit a).
Definition a_sleep (t : Term) : AM unit :=
  ms ← ok_or (as_int t) Badarg; _ ← fail_if (bool_decide (ms < 0)) Badarg; a_upd (sleep_ms ms).
Definition a_bin_from_list (fuel : nat) (t : Term) : AM Term :=
  '(bytes, last) ← on_heap (fun mm => list_bytes fuel mm t);
  _ ← fail_if (negb (is_nil last)) Badarg; alloc_term fuel (binary bytes).
Definition a_bin_to_list (fuel : nat) (t : Term) : AM Term :=
  elems ← on_heap (fun mm =>
    k ← kind mm t;
    if negb (bool_decide (k = KBinary)) then Err Badarg
    else bs ← bin_bytes mm t; Ok (map (fun b => term_int (b2z b)) bs));
  alloc_term fuel (list_term elems).
Definition a_bin_size (t : Term) : AM Term :=
  n ← on_heap (fun mm =>
    k ← kind mm t;
    if negb (bool_decide (k = KBinary)) then Err Badarg else bs ← bin_bytes mm t; Ok (zlen bs));
  mret (term_int n).
Definition a_buf_to_bin (t : Term) : AM Term := id ← ok_or (as_int t) Badarg; buf_to_bin id.
Definition a_is_binary (t : Term) : AM Z := b ← on_heap (fun mm => boxed_kind_is mm t KBinary); mret (b2i b).
Definition a_bin_cat (fuel : nat) (a b : Term) : AM Term :=
  joined ← on_heap (fun mm =>
    ba ← boxed_kind_is mm a KBinary;
    if negb ba then Err Badarg
    else bb ← boxed_kind_is mm b KBinary;
         if negb bb then Err Badarg else x ← bin_bytes mm a; y ← bin_bytes mm b; Ok (x ++ y));
  alloc_term fuel (binary joined).
Definition a_list_cat (fuel : nat) (a b : Term) : AM Term :=
  '(elems, last) ← on_heap (fun mm => list_elems fuel mm a);
  _ ← fail_if (negb (is_nil last)) Badarg; alloc_term fuel (cons_all (rev elems) b).
Definition a_bin_at (b it : Term) : AM Term :=
  idx ← ok_or (as_int it) Badarg;
  x ← on_heap (fun mm =>
    k ← boxed_kind_is mm b KBinary;
    if negb k || bool_decide (idx < 0) then Err Badarg
    else bytes ← bin_bytes mm b;
         if bool_decide (idx >= zlen bytes) then Err Badarg
         else match lookupz bytes idx with Some x => Ok x | None => Panic end);
  mret (term_int (b2z x)).
Definition a_bin_part (fuel : nat) (b ot lt : Term) : AM Term :=
  off ← ok_or (as_int ot) Badarg; len ← ok_or (as_int lt) Badarg;
  part ← on_heap (fun mm =>
    k ← boxed_kind_is mm b KBinary;
    if negb k || bool_decide (off < 0) || bool_decide (len < 0) then Err Badarg
    else bytes ← bin_bytes mm b;
         if bool_decide (off + len > zlen bytes) then Err Badarg
         else match slice bytes off (off + len) with Some x => Ok x | None => Panic end);
  alloc_term fuel (binary part).
Definition a_map_get (t k : Term) : AM Term := on_heap (fun mm =>
  b ← boxed_kind_is mm t KMap;
  if negb b then Err Badarg
  else r ← map_get mm t k; match r with Some v => Ok v | None => Err Badarg end).
Definition a_map_put (fuel : nat) (t k v : Term) : AM Term :=
  b ← on_heap (fun mm => boxed_kind_is mm t KMap);
  _ ← fail_if (negb b) Badarg; put_map fuel t k v.

(** ** The contract of the helpers *)

(** [k], [v] pairs as the generated code lays them out. *)
Definition flat (kvs : list (Term * Term)) : list Term := kvs ≫= fun kv => [kv.1; kv.2].

Class HelperLaws `{!NativeApi S} (resume_tail : nat -> Z -> AM Term) (m : Module_) (atom_map : list Z) (code_ptr : Z -> Z) := {
  h_self st : runs_as Helper.SelfPid st [] (yields a_self);
  h_ticks st : runs_as Helper.Ticks st [] (yields a_ticks);
  h_recv st : runs_as Helper.Recv st [] (yields api_recv);
  h_safepoint st : runs_as Helper.Safepoint st [] (does (a_upd safepoint));
  h_trap st : runs_as Helper.TrapBadarg st [] (does (throw Badarg));
  h_send st to msg : runs_as Helper.Send st [to; msg] (yields (_ ← api_send to msg; mret 0));
  h_spawn st i arg : 0 <= i < 2 ^ 32 -> runs_as Helper.Spawn st [i; arg] (yields (a_spawn i arg));
  h_print st t : runs_as Helper.Print st [t] (does (a_upd (api_print t)));
  h_exit st t : runs_as Helper.ExitAtom st [t] (does (a_exit_atom t));
  h_sleep st t : uses m op.SLEEP_MS -> runs_as Helper.SleepMs st [t] (does (a_sleep t));
  h_eq fuel st a b : runs_as Helper.Eq st [a; b] (yields (a_eq fuel a b));
  h_make_tuple fuel st p xs : stack_at st p xs -> runs_as Helper.MakeTuple st [p; zlen xs] (yields (alloc_term fuel (tuple xs)));
  h_get_elem st t i : 0 <= i < 256 -> runs_as Helper.GetElem st [t; i] (yields (a_get_elem t i));
  h_cons fuel st h t : runs_as Helper.Cons st [h; t] (yields (alloc_term fuel (cons h t)));
  h_head st t : runs_as Helper.Head st [t] (yields (a_head_tail true t));
  h_tail st t : runs_as Helper.Tail st [t] (yields (a_head_tail false t));
  h_port_open st k : 0 <= k < 256 -> runs_as Helper.PortOpen st [k] (yields (port_open k));
  h_port_submit st p o a t : 0 <= o < 256 -> runs_as Helper.PortSubmit st [p; o; a; t] (yields (_ ← port_submit p o a t; mret 0));
  h_port_submit2 st p o a b t : runs_as Helper.PortSubmit2 st [p; o; a; b; t] (yields (_ ← port_submit2 p o a b t; mret 0));
  h_buf_write st b o s : runs_as Helper.BufWrite st [b; o; s] (yields (buf_write b o s));
  h_buf_new st n : runs_as Helper.BufNew st [n] (yields (buf_new n));
  h_buf_read st b o l : runs_as Helper.BufRead st [b; o; l] (yields (buf_read b o l));
  h_call_ext st ma fa p xs : 0 <= ma < 2 ^ 32 -> 0 <= fa < 2 ^ 32 -> stack_at st p xs ->
    runs_as Helper.CallExt st [term_atom ma; term_atom fa; p; zlen xs] (yields (call_ext ma fa xs));
  h_tail_ext st ma fa p xs : 0 <= ma < 2 ^ 32 -> 0 <= fa < 2 ^ 32 -> stack_at st p xs ->
    runs_as Helper.TailCallExt st [term_atom ma; term_atom fa; p; zlen xs] (does (a_upd (tail_call ma fa xs)));
  h_tail_local st i p xs : 0 <= i < 2 ^ 32 -> stack_at st p xs ->
    runs_as Helper.TailCallLocal st [i; p; zlen xs] (does (a_upd (tail_call_local i xs)));
  h_resume fuel st tok : runs_as Helper.ResumeTail st [tok] (yields (resume_tail fuel tok));
  h_bin_const fuel st i g p bytes : lookupz (functions m) i = Some g -> slice (code g) p (p + zlen bytes) = Some bytes ->
    runs_as Helper.BinConst st [wrap 64 (code_ptr i + p); zlen bytes] (yields (alloc_term fuel (binary bytes)));
  h_bin_from_list fuel st t : runs_as Helper.BinFromList st [t] (yields (a_bin_from_list fuel t));
  h_bin_to_list fuel st t : runs_as Helper.BinToList st [t] (yields (a_bin_to_list fuel t));
  h_bin_size st t : runs_as Helper.BinSize st [t] (yields (a_bin_size t));
  h_buf_to_bin st t : runs_as Helper.BufToBin st [t] (yields (a_buf_to_bin t));
  h_bin_to_buf st t : runs_as Helper.BinToBuf st [t] (yields (bin_to_buf t));
  h_map_new fuel st p kvs : stack_at st p (flat kvs) -> runs_as Helper.MapNew st [p; zlen kvs] (yields (alloc_map fuel kvs));
  h_map_get st t k : runs_as Helper.MapGet st [t; k] (yields (a_map_get t k));
  h_map_put fuel st t k v : runs_as Helper.MapPut st [t; k; v] (yields (a_map_put fuel t k v));
  h_is_binary st t : runs_as Helper.IsBinary st [t] (yields (a_is_binary t));
  h_bin_cat fuel st a b : runs_as Helper.BinCat st [a; b] (yields (a_bin_cat fuel a b));
  h_list_cat fuel st a b : runs_as Helper.ListCat st [a; b] (yields (a_list_cat fuel a b));
  h_bin_at st b i : runs_as Helper.BinAt st [b; i] (yields (a_bin_at b i));
  h_bin_part fuel st b o l : runs_as Helper.BinPart st [b; o; l] (yields (a_bin_part fuel b o l));
  h_atom i g s : lookupz atom_map i = Some g -> 0 <= g < 2 ^ 32 /\ atom_global i s = (Ok g, s);
  h_direct fuel a xs s : ran (direct_call fuel a xs s).1 = true ->
    exists N, forall n, (N <= n)%nat -> direct_call n a xs s = direct_call fuel a xs s;
}.

(** ** The reference *)

Context `{!NativeApi S} (resume_tail : nat -> Z -> AM Term) (bound : Z -> Z -> option ExtTarget) (m : Module_).
Abbreviation IM := (M (IS S) Trap).

Definition n_mul : IM outcome :=
  rd ← fr_u8; ra ← fr_u8; rb ← fr_u8; a ← get_int ra; b ← get_int rb; _ ← fr_set rd (term_int (a * b)); next.

(** [jump] without its poll. *)
Definition goto (off : Z) : IM unit :=
  f ← gets fr;
  let target := pc f + off in
  _ ← fail_if (bool_decide (target < 0) || bool_decide (target > zlen (fcode f))) BadCode;
  modify (set_pc target).
Definition n_jmp_if : IM outcome :=
  rc ← fr_u8; off ← fr_i32; c ← get_int rc;
  _ ← (if bool_decide (off < 0) then upd_api safepoint else mret tt);
  _ ← (if negb (bool_decide (c = 0)) then goto off else mret tt); next.
Definition n_sleep_ms : IM outcome :=
  rm ← fr_u8; t ← fr_get rm; _ ← upd_api safepoint; _ ← on_api (a_sleep t); next.

(** Compiled code compares words. *)
Definition is_sentinel (v : Term) : bool := bool_decide (wrap 64 v = TAIL_SENTINEL).
Definition n_call (call : Z -> list Term -> AM Term) : IM outcome :=
  rd ← fr_u8; callee ← fr_u32; n ← fr_u8; args ← get_args n;
  _ ← upd_api safepoint;
  v ← on_api (call callee args);
  if is_sentinel v then done_with TAIL_SENTINEL else _ ← fr_set rd v; next.

Definition call_direct (fuel : nat) (x : ExtTarget) (args : list Term) : AM Term :=
  v ← direct_call fuel (xt_addr x) args;
  if xt_may_tail x && is_sentinel v then resume_tail fuel (wrap 64 (xt_token x)) else mret v.
Definition n_call_ext (fuel : nat) : IM outcome :=
  rd ← fr_u8; mlocal ← fr_u32; flocal ← fr_u32; n ← fr_u8; args ← get_args n;
  mg ← on_api (atom_global mlocal); fg ← on_api (atom_global flocal);
  v ← match bound mg fg with
      | Some x => if bool_decide (xt_arity x = n /\ n <= 16) then on_api (call_direct fuel x args)
                  else _ ← upd_api safepoint; on_api (call_ext mg fg args)
      | None => _ ← upd_api safepoint; on_api (call_ext mg fg args)
      end;
  _ ← fr_set rd v; next.

Definition native_arms (fuel : nat) (call : Z -> list Term -> AM Term) (opcode : Z) : list (list Z * IM outcome) :=
  [ ([op.MUL], n_mul); ([op.JMP_IF], n_jmp_if); ([op.CALL], n_call call); ([op.SLEEP_MS], n_sleep_ms); ([op.CALL_EXT], n_call_ext fuel) ]
  ++ arms fuel call opcode.

Definition native_step (fuel : nat) (call : Z -> list Term -> AM Term) : IM outcome :=
  opcode ← fr_u8; select_arm opcode (native_arms fuel call opcode) (throw BadCode).

Fixpoint native_exec (fuel : nat) (f : Frame) : AM Term := fun a =>
  match fuel with
  | O => (NoFuel, a)
  | Datatypes.S fuel' =>
      let call idx args := (f' ← lift (enter m idx args); native_exec fuel' f') in
      match native_step fuel' call {| fr := f; api := a |} with
      | (Ok Next, s) => native_exec fuel' (fr s) (api s)
      | (Ok (Return t), s) => (Ok t, api s)
      | (Err e, s) => (Err e, api s)
      | (Panic, s) => (Panic, api s)
      | (NoFuel, s) => (NoFuel, api s)
      end
  end.

Definition native_run (fuel : nat) (fn_idx : Z) (args : list Term) : AM Term :=
  f ← lift (enter m fn_idx args); native_exec fuel f.
End reference.
