(* ===== verification/JitArms.v ===== *)
(** * JitArms: every arm of the compiler against its arm of the reference *)

From S2P Require Import Prelude Term TermImm Bytecode Verify VerifySound Interp Clif Jit JitLogic JitSim JitRef.

(** Bring the facts about emitted values to the state after a step. *)
Ltac carry G V :=
  repeat match goal with
    | H : has ?t ?e _ _ |- _ => match type of G with grow t _ => apply (has_carry _ _ _ _ _ _ G V) in H end
    | H : Forall2 (has ?t ?e) _ _ |- _ => match type of G with grow t _ => apply (Forall2_has_carry _ _ _ _ _ _ G V) in H end
    end.

(** An operand or a register on both sides. *)
Ltac operand :=
  eapply trl_bind; [apply _..|first [apply trl_u8|apply trl_u32]|];
  let a := fresh "a" in let b := fresh "b" in let t := fresh "t" in let e := fresh "e" in let s := fresh "s" in
  let G := fresh "G" in let V := fresh "V" in let R := fresh "R" in let K := fresh "K" in
  cbn beta; intros a b t e s G V (<- & R & K); carry G V.
Ltac register :=
  eapply trl_bind; [apply _..|apply trl_use|];
  let v := fresh "v" in let x := fresh "x" in let t := fresh "t" in let e := fresh "e" in let s := fresh "s" in
  let G := fresh "G" in let V := fresh "V" in let H := fresh "Hv" in let K := fresh "K" in
  cbn beta; intros v x t e s G V [H K]; carry G V.
(** An emitted instruction of the compiler alone. *)
Ltac emitted tac :=
  eapply trl_left; [apply _..|tac|];
  let v := fresh "v" in let t := fresh "t" in let e := fresh "e" in
  let G := fresh "G" in let V := fresh "V" in let H := fresh "Hv" in let K := fresh "K" in
  cbn beta; intros v t e G V [H K]; carry G V.

(** The arguments of a call. *)
Ltac vals_in := repeat (apply Forall2_cons_2; [eassumption|]); apply Forall2_nil_2.
(** A helper that returns a value. *)
Ltac helper_val law :=
  eapply trl_bind; [apply _..|eapply trl_call_val; [vals_in|done|done|law]|];
  let v := fresh "v" in let x := fresh "x" in let t := fresh "t" in let e := fresh "e" in let s := fresh "s" in
  let G := fresh "G" in let V := fresh "V" in let H := fresh "Hv" in let K := fresh "K" in
  cbn beta; intros v x t e s G V [H K]; carry G V.

(** Comparisons of opcodes. *)
Ltac decide_ops := repeat (match goal with
  | |- context [bool_decide (?a = ?b)] => is_const a; is_const b; let r := eval vm_compute in (bool_decide (a = b)) in change (bool_decide (a = b)) with r
  | H : context [bool_decide (?a = ?b)] |- _ => is_const a; is_const b; let r := eval vm_compute in (bool_decide (a = b)) in change (bool_decide (a = b)) with r in H
  end; cbv iota in * ).

Section arms.
Context {CI : Clif} {CW : ClifLaws} {S X : Type} `{!NativeApi S} `{!SystemApi S} (prog : list CodeUnit).
Context (resolver : Z -> Z -> M X Empty_set (option ExtTarget)) (resume_tail : nat -> Z -> M S Trap Term).
Context (m : Module_) (ar_of : Z -> Z) (atom_map : list Z) (pcrel : bool) (fn_idx : Z) (f : Function) (code_ptr : Z -> Z) (U : CodeUnit) (trap : Z).
Context (Hf : lookupz (functions m) fn_idx = Some f).
Context (Htrap : forall e (s : S), evals prog U (body (u_func U) trap) e s (Err Badarg, s)).
Context {HL : HelperLaws resume_tail m atom_map code_ptr}.
Abbreviation TM := (M (Tx X) JitError).
Abbreviation IM := (M (IS S) Trap).
Abbreviation trl := (trl prog m ar_of pcrel f U trap).
Implicit Types (t : Tx X) (e : env) (s : IS S).

(** An arm after which both sides go on with the next instruction. *)
Definition straight t e s (c : TM unit) (i : IM outcome) : Prop := trl t e s c i (fun _ o _ _ => o = Next).

(** The last steps of most arms. *)
Lemma straight_def t e s rd v x : has t e v x -> straight t e s (def_reg rd v) (_ ← fr_set rd x; next).
Proof using Type.
  intros Hv. unfold straight. intros u t' Hc Hw Hb Ha.
  pose proof (trl_def prog m ar_of pcrel f U trap t e s rd v x Hv u t' Hc Hw Hb Ha) as H. unfold mbind, M_bind.
  destruct (fr_set rd x s) as [[b|er| |] s']; try done. destruct H as (e' & ? & ? & ? & ? & _). by exists e'.
Qed.

Lemma straight_unit t e s (c : TM unit) (i : IM unit) Q : trl t e s c i Q -> straight t e s c (_ ← i; next).
Proof using Type.
  intros H u t' Hc Hw Hb Ha. specialize (H u t' Hc Hw Hb Ha). unfold mbind, M_bind.
  destruct (i s) as [[b|er| |] s']; try done. destruct H as (e' & ? & ? & ? & ? & _). by exists e'.
Qed.

Lemma sim_nop t e s : straight t e s j_nop i_nop.
Proof using Type. by apply trl_ret. Qed.

Lemma sim_move t e s : straight t e s (j_move f) i_move.
Proof using Type. unfold j_move, i_move. do 2 operand. register. by apply straight_def. Qed.

Lemma sim_load_nil t e s : straight t e s (j_load_nil f) i_load_nil.
Proof using Type.
  unfold j_load_nil, i_load_nil. operand. emitted ltac:(apply trl_iconst).
  change (wrap 64 (swrap 64 NIL)) with NIL in *. by apply straight_def.
Qed.

Lemma sim_load_int t e s : straight t e s (j_load_int f) i_load_int.
Proof using Type.
  unfold j_load_int, i_load_int. operand. eapply trl_bind; [apply _..|apply trl_i64|].
  cbn. intros a' b t' e' s' G' V' [<- K']. emitted ltac:(apply trl_term_const; done). by apply straight_def.
Qed.

Lemma sim_self_pid t e s : straight t e s (j_self_pid pcrel f) i_self_pid.
Proof using HL.
  unfold j_self_pid, i_self_pid. operand.
  apply trl_ext with (i' := v ← on_api a_self; _ ← fr_set a v; next); [by destruct s0|].
  helper_val ltac:(apply h_self). by apply straight_def.
Qed.

Lemma sim_ticks t e s : straight t e s (j_ticks pcrel f) i_ticks.
Proof using HL.
  unfold j_ticks, i_ticks. operand.
  apply trl_ext with (i' := v ← on_api a_ticks; _ ← fr_set a v; next); [by destruct s0|].
  helper_val ltac:(apply h_ticks). by apply straight_def.
Qed.

Lemma sim_recv t e s : straight t e s (j_recv pcrel f) i_recv.
Proof using HL. unfold j_recv, i_recv. operand. helper_val ltac:(apply h_recv). by apply straight_def. Qed.

Lemma sim_cons fuel t e s : straight t e s (j_cons pcrel f) (i_cons fuel).
Proof using HL.
  unfold j_cons, i_cons. do 3 operand. do 2 register. helper_val ltac:(apply (h_cons fuel)). by apply straight_def.
Qed.

Lemma a_lift {A B C} (c : M S Trap A) (k : A -> M S Trap B) (k' : B -> IM C) s :
  (x ← on_api c; y ← on_api (k x); k' y) s = (y ← on_api (x ← c; k x); k' y) s.
Proof using Type. unfold on_api, mbind, M_bind. by destruct (c (api s)) as [[x| | |] a]. Qed.

Lemma mem_lift {A C} (g : mem -> res Trap A) (k' : A -> IM C) s : (x ← on_mem g; k' x) s = (x ← on_api (on_heap g); k' x) s.
Proof using Type. unfold on_mem, on_api, on_heap, mbind, M_bind. by destruct s. Qed.

Lemma ret_lift {A C} (x : A) (k' : A -> IM C) s : k' x s = (y ← on_api (mret x); k' y) s.
Proof using Type. unfold on_api, mbind, M_bind. by destruct s. Qed.

Lemma ok_lift {A C} (o : option A) er (k' : A -> IM C) s : (x ← ok_or o er; k' x) s = (x ← on_api (ok_or o er); k' x) s.
Proof using Type. unfold on_api, mbind, M_bind. by destruct s, o. Qed.

Lemma fail_lift {C} b er (k' : unit -> IM C) s : (x ← fail_if b er; k' x) s = (x ← on_api (fail_if b er); k' x) s.
Proof using Type. unfold on_api, mbind, M_bind. by destruct s, b. Qed.

Lemma upd_lift {C} g (k' : unit -> IM C) s : (x ← upd_api g; k' x) s = (x ← on_api (a_upd g); k' x) s.
Proof using Type. by destruct s. Qed.

Lemma sim_get_elem t e s : straight t e s (j_get_elem pcrel f) i_get_elem.
Proof using HL.
  unfold j_get_elem, i_get_elem. do 3 operand. register.
  emitted ltac:(apply trl_iconst). rewrite wrap_small in Hv0 by lia.
  eapply trl_ext; [apply mem_lift|]. helper_val ltac:(by apply h_get_elem). by apply straight_def.
Qed.

Lemma sim_head_tail o t e s : o = op.HEAD \/ o = op.TAIL -> straight t e s (j_head_tail pcrel f o) (i_head_tail o).
Proof using HL.
  intros Ho. unfold j_head_tail, i_head_tail. do 2 operand. register. eapply trl_ext; [apply mem_lift|].
  destruct Ho as [-> | ->]; decide_ops.
  - helper_val ltac:(apply h_head). by apply straight_def.
  - helper_val ltac:(apply h_tail). by apply straight_def.
Qed.

Lemma trl_get_args n t e s :
  0 <= n ->
  trl t e s (use_args f n) (get_args n) (fun vs xs t' e' => Forall2 (has t' e') vs xs /\ zlen xs = n /\ stack e' = stack e).
Proof using Type.
  intros Hn. eapply trl_mono; [apply trl_args|]. cbn. intros vs xs t' e' (H & L & K). split_and!; try done. unfold zlen. lia.
Qed.

Ltac arguments :=
  eapply trl_bind; [apply _..|apply trl_get_args; lia|];
  let vs := fresh "vs" in let xs := fresh "xs" in let t := fresh "t" in let e := fresh "e" in let s := fresh "s" in
  let G := fresh "G" in let V := fresh "V" in let H := fresh "Hvs" in let K := fresh "K" in
  cbn beta; intros vs xs t e s G V (H & ? & K); carry G V.

Ltac spilled :=
  eapply trl_left; [apply _..|apply trl_spill; eassumption|];
  let p := fresh "p" in let t := fresh "t" in let e := fresh "e" in
  let G := fresh "G" in let V := fresh "V" in let a := fresh "ad" in let H := fresh "Hp" in let K := fresh "Hst" in
  cbn beta; intros p t e G V (a & H & K); carry G V.

Lemma sim_make_tuple fuel t e s : straight t e s (j_make_tuple pcrel f) (i_make_tuple fuel).
Proof using HL.
  unfold j_make_tuple, i_make_tuple. do 2 operand. arguments. spilled.
  emitted ltac:(apply trl_iconst). rewrite wrap_small in Hv by lia. subst a0.
  helper_val ltac:(apply (h_make_tuple fuel); by rewrite K2). by apply straight_def.
Qed.

Lemma term_int_mod v w : v mod 2 ^ 61 = w mod 2 ^ 61 -> term_int v = term_int w.
Proof using Type. intros H. rewrite !term_int_header, !header_eq by done. by rewrite H. Qed.

Ltac checked :=
  eapply trl_bind; [apply _..|apply trl_expect_int; [done..|eassumption]|];
  let u := fresh "u" in let x := fresh "i" in let t := fresh "t" in let e := fresh "e" in let s := fresh "s" in
  let G := fresh "G" in let V := fresh "V" in let H := fresh "Hu" in let R := fresh "Hr" in
  cbn beta; intros u x t e s G V [H R]; carry G V.

Lemma use_reg_ok r t v t' : use_reg r t = (Ok v, t') -> is_Some (lookupz (tx_regs t) r) /\ tx_regs t' = tx_regs t.
Proof using Type.
  unfold use_reg, mbind, M_bind. cbn. destruct (lookupz (tx_regs t) r); [|discriminate]. cbn. intros [= <- <-]. by eauto.
Qed.

(** The compiler reads both registers before it checks them. *)
Lemma get_ints_early {A C} ra rb (c : Z -> Z -> TM A) (k : Z -> Z -> IM C) t e s Q :
  trl t e s (a ← use_reg ra; b ← use_reg rb; c a b)
    (x ← fr_get ra; y ← fr_get rb; a ← ok_or (as_int x) Badarg; b ← ok_or (as_int y) Badarg; k a b) Q ->
  trl t e s (a ← use_reg ra; b ← use_reg rb; c a b) (a ← get_int ra; b ← get_int rb; k a b) Q.
Proof using Type.
  intros H v t' Hc Hw Hb Ha. specialize (H v t' Hc Hw Hb Ha).
  assert (is_Some (lookupz (tx_regs t) ra) /\ is_Some (lookupz (tx_regs t) rb)) as [[x Hx] [y Hy]].
  { apply bind_ok in Hc as (va & t1 & H1 & Hc). apply bind_ok in Hc as (vb & t2 & H2 & _).
    apply use_reg_ok in H1 as [H1 E1]. apply use_reg_ok in H2 as [H2 _]. by rewrite E1 in H2. }
  destruct (reg_var f trap t e s ra x Ha Hx) as (_ & x' & Hx' & _).
  destruct (reg_var f trap t e s rb y Ha Hy) as (_ & y' & Hy' & _).
  unfold get_int, fr_get, mbind, M_bind in *. cbn in *.
  rewrite Hx' in H |- *. cbn in H |- *. rewrite Hy' in H. cbn in H.
  destruct (as_int x'); cbn in *; [rewrite Hy'; cbn|]; exact H.
Qed.

Lemma word_add_wrap a b : wrap 64 (wrap 64 a + wrap 64 b) = wrap 64 (a + b).
Proof using Type. unfold wrap. by rewrite <- Z.add_mod. Qed.
Lemma word_sub_wrap a b : wrap 64 (wrap 64 a - wrap 64 b) = wrap 64 (a - b).
Proof using Type. unfold wrap. by rewrite <- Zminus_mod. Qed.
Lemma word_mul_wrap a b : wrap 64 (wrap 64 a * wrap 64 b) = wrap 64 (a * b).
Proof using Type. unfold wrap. by rewrite <- Z.mul_mod. Qed.

Lemma sim_arith o t e s : o = op.ADD \/ o = op.SUB -> straight t e s (j_arith f o) (i_arith o).
Proof using CW Htrap.
  intros Ho. unfold j_arith, i_arith. do 3 operand. apply get_ints_early. do 2 register. do 2 checked.
  emitted ltac:(apply trl_binary; [exact Hu|exact Hu0]).
  destruct Ho as [-> | ->]; decide_ops; rewrite ?law_iadd, ?law_isub, ?word_add_wrap, ?word_sub_wrap in Hv1;
    unfold checked_i64; rewrite bool_decide_true by lia; emitted ltac:(apply trl_retag; exact Hv1); by apply straight_def.
Qed.

Lemma sim_mul t e s : straight t e s (j_arith f op.MUL) n_mul.
Proof using CW Htrap.
  unfold j_arith, n_mul. do 3 operand. apply get_ints_early. do 2 register. do 2 checked.
  emitted ltac:(apply trl_binary; [exact Hu|exact Hu0]). decide_ops. rewrite law_imul, word_mul_wrap in Hv1.
  emitted ltac:(apply trl_retag; exact Hv1). by apply straight_def.
Qed.

Lemma sim_cmp_lt t e s : straight t e s (j_cmp_lt f) i_cmp_lt.
Proof using CW Htrap.
  unfold j_cmp_lt, i_cmp_lt. do 3 operand. apply get_ints_early. do 2 register. do 2 checked.
  emitted ltac:(apply trl_icmp; [exact Hu|exact Hu0]). rewrite law_slt, !swrap_wrap, !swrap_small in Hv1 by lia.
  emitted ltac:(apply trl_uextend; exact Hv1).
  emitted ltac:(apply (trl_retag _ _ _ _ _ _ _ _ _ _ _ (if bool_decide (i < i0) then 1 else 0)); by case_bool_decide).
  by apply straight_def.
Qed.

Lemma wrap_testbit a n : 0 <= n -> Z.testbit (wrap 64 a) n = bool_decide (n < 64) && Z.testbit a n.
Proof using Type.
  intros Hn. unfold wrap. case_bool_decide; [rewrite Z.mod_pow2_bits_low by lia; done|by rewrite Z.mod_pow2_bits_high by lia].
Qed.

(** Bit operations commute with the wrap-around. *)
Lemma wrap_bitop (g : bool -> bool -> bool) (op2 : Z -> Z -> Z) a b :
  (forall x y n, Z.testbit (op2 x y) n = g (Z.testbit x n) (Z.testbit y n)) ->
  wrap 64 (op2 (wrap 64 a) (wrap 64 b)) = wrap 64 (op2 a b).
Proof using Type.
  intros Hg. apply Z.bits_inj'. intros n Hn. rewrite !wrap_testbit by done. rewrite !Hg, !wrap_testbit by done.
  by case_bool_decide.
Qed.

Lemma sim_bitop o t e s : o = op.BAND \/ o = op.BOR \/ o = op.BXOR -> straight t e s (j_bitop f o) (i_bitop o).
Proof using CW Htrap.
  intros Ho. unfold j_bitop, i_bitop. do 3 operand. apply get_ints_early. do 2 register. do 2 checked.
  emitted ltac:(apply trl_binary; [exact Hu|exact Hu0]).
  destruct Ho as [-> | [-> | ->]]; decide_ops.
  1: rewrite law_band, (wrap_bitop andb Z.land) in Hv1 by (intros; apply Z.land_spec).
  2: rewrite law_bor, (wrap_bitop orb Z.lor) in Hv1 by (intros; apply Z.lor_spec).
  3: rewrite law_bxor, (wrap_bitop xorb Z.lxor) in Hv1 by (intros; apply Z.lxor_spec).
  all: emitted ltac:(apply trl_retag; exact Hv1); by apply straight_def.
Qed.

Lemma sim_bnot t e s : straight t e s (j_bnot f) i_bnot.
Proof using CW Htrap.
  unfold j_bnot, i_bnot. do 2 operand. unfold get_int. eapply trl_ext; [apply bind_assoc|].
  register. checked. emitted ltac:(apply trl_bnot; exact Hu).
  rewrite law_bnot in Hv0. assert (wrap 64 (Z.lnot (wrap 64 i)) = wrap 64 (Z.lnot i)) as E.
  { unfold wrap. rewrite <- !Z.sub_1_r, <- !Z.opp_lnot || idtac.
    unfold Z.lnot. rewrite <- !Z.sub_1_r, <- !Z.sub_0_l. rewrite <- Zminus_mod_idemp_l, Zminus_mod_idemp_r, Zminus_mod_idemp_l. done. }
  rewrite E in Hv0. emitted ltac:(apply trl_retag; exact Hv0). by apply straight_def.
Qed.

Lemma sim_cmp_eq fuel t e s : straight t e s (j_cmp_eq pcrel f) (i_cmp_eq fuel).
Proof using CW HL.
  unfold j_cmp_eq, i_cmp_eq. do 3 operand. do 2 register.
  apply trl_ext with (i' := r ← on_api (a_eq fuel x x0); _ ← fr_set a (tagged r TAG_INT); next).
  { rewrite mem_lift. unfold a_eq, on_api, mbind, M_bind. by destruct (on_heap _ _) as [[[]| | |]]. }
  helper_val ltac:(apply (h_eq fuel)). emitted ltac:(apply trl_retag_raw; exact Hv1). by apply straight_def.
Qed.

Lemma sim_is_binary t e s : straight t e s (j_is_binary pcrel f) i_is_binary.
Proof using CW HL.
  unfold j_is_binary, i_is_binary. do 2 operand. register.
  apply trl_ext with (i' := r ← on_api (a_is_binary x); _ ← fr_set a (tagged r TAG_INT); next).
  { rewrite mem_lift. unfold a_is_binary, on_api, mbind, M_bind. by destruct (on_heap _ _) as [[[]| | |]]. }
  helper_val ltac:(apply h_is_binary). emitted ltac:(apply trl_retag_raw; exact Hv0). by apply straight_def.
Qed.

(** [term_int] keeps 61 bits. *)
Lemma mod61_of_wrap a b : wrap 64 a = wrap 64 b -> a mod 2 ^ 61 = b mod 2 ^ 61.
Proof using Type.
  unfold wrap. intros H. rewrite <- (Z.mod_mod_divide a (2 ^ 64) (2 ^ 61)), <- (Z.mod_mod_divide b (2 ^ 64) (2 ^ 61)), H by (by exists 8).
  done.
Qed.

Lemma wrap_shiftl a k : 0 <= k -> wrap 64 (Z.shiftl (wrap 64 a) k) = wrap 64 (Z.shiftl a k).
Proof using Type. intros Hk. rewrite !Z.shiftl_mul_pow2 by done. unfold wrap. by rewrite Z.mul_mod_idemp_l. Qed.

(** The normalisation of the interpreter's shifts drops bits [term_int] drops as well. *)
Lemma term_int_norm v : term_int (Z.shiftr (swrap 64 (Z.shiftl v 3)) 3) = term_int v.
Proof using Type.
  apply term_int_mod. rewrite Z.shiftr_div_pow2, Z.shiftl_mul_pow2 by lia. change (2 ^ 3) with 8.
  pose proof (Z.div_mod (v * 8 + 2 ^ 63) (2 ^ 64) ltac:(lia)) as H. unfold swrap. change (64 - 1) with 63.
  replace ((v * 8 + 2 ^ 63) mod 2 ^ 64 - 2 ^ 63) with (8 * (v - 2 ^ 61 * ((v * 8 + 2 ^ 63) / 2 ^ 64))) by lia.
  rewrite Z.mul_comm, Z.div_mul by lia. rewrite Zminus_mod, Z.mul_comm, Z.mod_mul, Z.sub_0_r, Z.mod_mod by lia. done.
Qed.

Lemma wrap_le60 b : - 2 ^ 60 <= b < 2 ^ 60 -> wrap 64 (wrap 64 b) <= 60 <-> 0 <= b <= 60.
Proof using Type.
  intros Hb. unfold wrap. rewrite Z.mod_mod by lia. destruct (decide (0 <= b)).
  - rewrite Z.mod_small by lia. lia.
  - replace (b mod 2 ^ 64) with (b + 2 ^ 64); [lia|]. symmetry. rewrite <- (Z_mod_plus_full b 1). apply Z.mod_small. lia.
Qed.

Lemma sim_shift o t e s : o = op.BSL \/ o = op.BSR -> straight t e s (j_shift f o) (i_shift o).
Proof using CW Htrap.
  intros Ho. unfold j_shift, i_shift. do 3 operand. apply get_ints_early. do 2 register. do 2 checked.
  emitted ltac:(apply trl_icmp_imm; exact Hu0). rewrite law_ule in Hv1.
  change (wrap 64 (wrap 64 60)) with 60 in Hv1. rewrite (bool_decide_ext _ _ (wrap_le60 i0 Hr0)) in Hv1.
  eapply trl_check; [done|apply _|exact Hv1| |].
  2:{ intros Hb. exists s6. unfold mbind, M_bind. by rewrite Hb. }
  intros Hb t8 G8. rewrite Hb. apply bool_decide_eq_true in Hb.
  carry G8 (fun (v : Z) (_ : v < ir_vals (tx_b t7)) => eq_refl (vals e7 !! v)). cbn [negb fail_if].
  emitted ltac:(apply trl_binary; [exact Hu|exact Hu0]).
  assert (Hm : wrap 64 i0 mod 64 = i0) by (rewrite wrap_small by lia; apply Z.mod_small; lia).
  set (z := if bool_decide (o = op.BSL) then swrap 64 (Z.shiftl i i0) else Z.shiftr i i0).
  assert (Hz : has t9 e8 v2 (wrap 64 z)).
  { unfold z. destruct Ho as [-> | ->]; decide_ops.
    - rewrite law_ishl, Hm, wrap_shiftl in Hv2 by lia. by rewrite wrap_swrap.
    - rewrite law_sshr, Hm, swrap_wrap, swrap_small in Hv2 by lia. done. }
  emitted ltac:(apply trl_retag; exact Hz). rewrite <- (term_int_norm z) in Hv3. by apply straight_def.
Qed.

(** *** Atoms, messages, ports and buffers *)

Lemma trl_atom a t e s :
  trl t e s (ok_or (lookupz atom_map a) BadBytecode) (on_api (atom_global a))
    (fun g g' t' e' => g = g' /\ lookupz atom_map a = Some g /\ 0 <= g < 2 ^ 32 /\ stack e' = stack e).
Proof using HL.
  intros g t' H Hw Hb Ha. destruct (lookupz atom_map a) as [g0|] eqn:Hg; [|discriminate H]. injection H as <- <-.
  destruct (h_atom a g0 (api s) Hg) as [Hr He]. unfold on_api. rewrite He. exists e. destruct s.
  split; [by destruct Ha|]. split; [done|]. split; [done|]. split; [by intros r|done].
Qed.

Lemma trl_atom_const a g t e s :
  lookupz atom_map a = Some g ->
  trl t e s (atom_const atom_map a) (mret tt) (fun v _ t' e' => has t' e' v (term_atom g) /\ stack e' = stack e).
Proof using Type. intros Hg. unfold atom_const. rewrite Hg. by apply trl_term_const. Qed.

Lemma sim_load_atom t e s : straight t e s (j_load_atom atom_map f) i_load_atom.
Proof using HL.
  unfold j_load_atom, i_load_atom. do 2 operand. unfold atom_const. apply trl_assoc.
  eapply trl_bind; [apply _..|apply trl_atom|]. cbn. intros g ? t2 e2 s2 G2 V2 (<- & _ & _ & K2).
  emitted ltac:(apply trl_term_const; done). by apply straight_def.
Qed.

Lemma sim_spawn t e s : straight t e s (j_spawn pcrel f) i_spawn.
Proof using HL.
  unfold j_spawn, i_spawn. do 3 operand. register. emitted ltac:(apply trl_iconst). rewrite wrap_small in Hv0 by lia.
  apply trl_ext with (i' := p ← on_api (a_spawn a0 x); _ ← fr_set a p; next).
  { rewrite fail_lift. unfold a_spawn, on_api, mbind, M_bind. destruct (is_boxed x); [done|]. cbn. by destruct (api_spawn _ _ _) as [[]]. }
  helper_val ltac:(apply h_spawn; lia). by apply straight_def.
Qed.

Lemma sim_send t e s : straight t e s (j_send pcrel f) i_send.
Proof using HL.
  unfold j_send, i_send. do 2 operand. do 2 register. eapply straight_unit, trl_call_drop; [vals_in|done|done|apply h_send].
Qed.

Lemma sim_print t e s : straight t e s (j_print pcrel f) i_print.
Proof using HL.
  unfold j_print, i_print. operand. register. eapply trl_ext; [apply upd_lift|].
  eapply straight_unit, trl_call_unit; [vals_in|done|done|apply h_print].
Qed.

Lemma sim_port_open t e s : straight t e s (j_port_open pcrel f) i_port_open.
Proof using HL.
  unfold j_port_open, i_port_open. do 2 operand. emitted ltac:(apply trl_iconst). rewrite wrap_small in Hv by lia.
  helper_val ltac:(by apply h_port_open). by apply straight_def.
Qed.

Lemma sim_port_submit t e s : straight t e s (j_port_submit pcrel f) i_port_submit.
Proof using HL.
  unfold j_port_submit, i_port_submit. do 4 operand. register. emitted ltac:(apply trl_iconst). rewrite wrap_small in Hv0 by lia.
  do 2 register. eapply straight_unit, trl_call_drop; [vals_in|done|done|by apply h_port_submit].
Qed.

Lemma sim_port_submit2 t e s : straight t e s (j_port_submit2 pcrel f) i_port_submit2.
Proof using HL.
  unfold j_port_submit2, i_port_submit2. do 5 operand. do 5 register.
  eapply straight_unit, trl_call_drop; [vals_in|done|done|apply h_port_submit2].
Qed.

Lemma sim_buf_write t e s : straight t e s (j_buf_write pcrel f) i_buf_write.
Proof using HL. unfold j_buf_write, i_buf_write. do 4 operand. do 3 register. helper_val ltac:(apply h_buf_write). by apply straight_def. Qed.

Lemma sim_buf_new t e s : straight t e s (j_buf_new pcrel f) i_buf_new.
Proof using HL. unfold j_buf_new, i_buf_new. do 2 operand. register. helper_val ltac:(apply h_buf_new). by apply straight_def. Qed.

Lemma sim_buf_read t e s : straight t e s (j_buf_read pcrel f) i_buf_read.
Proof using HL. unfold j_buf_read, i_buf_read. do 4 operand. do 3 register. helper_val ltac:(apply h_buf_read). by apply straight_def. Qed.

Lemma trl_poll t e s : trl t e s (call_unit pcrel Helper.Safepoint []) (upd_api safepoint) (fun _ _ t' e' => stack e' = stack e).
Proof using HL.
  apply trl_ext with (i' := on_api (a_upd safepoint)); [by destruct s|]. eapply trl_call_unit; [vals_in|done|done|apply h_safepoint].
Qed.

Ltac polled :=
  eapply trl_bind; [apply _..|apply trl_poll|];
  let t := fresh "t" in let e := fresh "e" in let s := fresh "s" in
  let G := fresh "G" in let V := fresh "V" in let K := fresh "K" in
  cbn beta; intros _ _ t e s G V K; carry G V.

Lemma sim_sleep_ms t e s : uses m op.SLEEP_MS -> straight t e s (j_sleep_ms pcrel f) n_sleep_ms.
Proof using HL.
  intros Hsl. unfold j_sleep_ms, n_sleep_ms. operand. register. polled. eapply straight_unit, trl_call_unit; [vals_in|done|done|by apply h_sleep].
Qed.

(** *** Binaries, lists and maps *)

(** Steps of the interpreter on the api or the heap are one step on the api. *)
Lemma lift_join {A B C} (c : M S Trap A) (k : A -> M S Trap B) (j : A -> IM C) (k' : B -> IM C) s :
  (forall x s', j x s' = (y ← on_api (k x); k' y) s') -> (x ← on_api c; j x) s = (y ← on_api (x ← c; k x); k' y) s.
Proof using Type. intros H. rewrite (bind_ext _ _ _ _ H). apply a_lift. Qed.

Ltac join_step := first [rewrite ok_lift | rewrite mem_lift | rewrite fail_lift | idtac];
  first [apply lift_join; intros ? ?; case_match_last | reflexivity | match goal with |- _ = _ ?s => by destruct s end]
with case_match_last := repeat match goal with p : (_ * _)%type |- _ => destruct p end.
Ltac same_run := repeat (join_step; try done).

Lemma sim_bin_at t e s : straight t e s (j_bin_at pcrel f) i_bin_at.
Proof using HL.
  unfold j_bin_at, i_bin_at. do 3 operand. register. unfold get_int. eapply trl_ext; [apply bind_assoc|]. register.
  apply trl_ext with (i' := v ← on_api (a_bin_at x x0); _ ← fr_set a v; next); [unfold a_bin_at; same_run|].
  helper_val ltac:(apply h_bin_at). by apply straight_def.
Qed.

Lemma sim_bin_unary fuel t e s :
  straight t e s (j_bin_unary pcrel f op.BIN_FROM_LIST) (i_bin_from_list fuel) /\
  straight t e s (j_bin_unary pcrel f op.BIN_TO_LIST) (i_bin_to_list fuel) /\
  straight t e s (j_bin_unary pcrel f op.BIN_SIZE) i_bin_size /\
  straight t e s (j_bin_unary pcrel f op.BUF_TO_BIN) i_buf_to_bin /\
  straight t e s (j_bin_unary pcrel f op.BIN_TO_BUF) i_bin_to_buf.
Proof using HL.
  unfold j_bin_unary, i_bin_from_list, i_bin_to_list, i_bin_size, i_buf_to_bin, i_bin_to_buf, get_int.
  split_and!; do 2 operand.
  - register. decide_ops.
    apply trl_ext with (i' := v ← on_api (a_bin_from_list fuel x); _ ← fr_set a v; next); [unfold a_bin_from_list; same_run|].
    helper_val ltac:(apply (h_bin_from_list fuel)). by apply straight_def.
  - register. decide_ops.
    apply trl_ext with (i' := v ← on_api (a_bin_to_list fuel x); _ ← fr_set a v; next); [unfold a_bin_to_list; same_run|].
    helper_val ltac:(apply (h_bin_to_list fuel)). by apply straight_def.
  - register. decide_ops.
    apply trl_ext with (i' := v ← on_api (a_bin_size x); _ ← fr_set a v; next); [unfold a_bin_size; same_run|].
    helper_val ltac:(apply h_bin_size). by apply straight_def.
  - eapply trl_ext; [apply bind_assoc|]. register. decide_ops.
    apply trl_ext with (i' := v ← on_api (a_buf_to_bin x); _ ← fr_set a v; next); [unfold a_buf_to_bin; same_run|].
    helper_val ltac:(apply h_buf_to_bin). by apply straight_def.
  - register. decide_ops. helper_val ltac:(apply h_bin_to_buf). by apply straight_def.
Qed.

Lemma sim_cat fuel t e s :
  straight t e s (j_cat pcrel f op.BIN_CAT) (i_bin_cat fuel) /\ straight t e s (j_cat pcrel f op.LIST_CAT) (i_list_cat fuel).
Proof using HL.
  unfold j_cat, i_bin_cat, i_list_cat. split; do 3 operand; do 2 register; decide_ops.
  - apply trl_ext with (i' := v ← on_api (a_bin_cat fuel x x0); _ ← fr_set a v; next); [unfold a_bin_cat; same_run|].
    helper_val ltac:(apply (h_bin_cat fuel)). by apply straight_def.
  - apply trl_ext with (i' := v ← on_api (a_list_cat fuel x x0); _ ← fr_set a v; next); [unfold a_list_cat; same_run|].
    helper_val ltac:(apply (h_list_cat fuel)). by apply straight_def.
Qed.

Lemma sim_bin_part fuel t e s : straight t e s (j_bin_part pcrel f) (i_bin_part fuel).
Proof using HL.
  unfold j_bin_part, i_bin_part. do 4 operand. register. apply get_ints_early. do 2 register.
  apply trl_ext with (i' := v ← on_api (a_bin_part fuel x x0 x1); _ ← fr_set a v; next); [unfold a_bin_part; same_run|].
  helper_val ltac:(apply (h_bin_part fuel)). by apply straight_def.
Qed.

Lemma sim_map_get t e s : straight t e s (j_map_get pcrel f) i_map_get.
Proof using HL.
  unfold j_map_get, i_map_get. do 3 operand. do 2 register. eapply trl_ext; [apply mem_lift|].
  helper_val ltac:(apply h_map_get). by apply straight_def.
Qed.

Lemma sim_map_put fuel t e s : straight t e s (j_map_put pcrel f) (i_map_put fuel).
Proof using HL.
  unfold j_map_put, i_map_put. do 4 operand. do 3 register.
  apply trl_ext with (i' := v ← on_api (a_map_put fuel x x0 x1); _ ← fr_set a v; next); [unfold a_map_put; same_run|].
  helper_val ltac:(apply (h_map_put fuel)). by apply straight_def.
Qed.

Lemma trl_pairs n : forall t e s,
  trl t e s (collect n (rk ← on_dec (dec_u8 (code f)); rv ← on_dec (dec_u8 (code f)); k ← use_reg rk; v ← use_reg rv; mret [k; v]))
    (collect n (rk ← fr_u8; rv ← fr_u8; k ← fr_get rk; v ← fr_get rv; mret (k, v)))
    (fun vss kvs t' e' => Forall2 (has t' e') (concat vss) (flat kvs) /\ length kvs = n).
Proof using Type.
  induction n as [|n IH]; intros t e s; cbn [collect]; [by apply trl_ret|].
  eapply trl_bind with (Q := fun vs kv t' e' => Forall2 (has t' e') vs [kv.1; kv.2]); [apply _..| |].
  { do 2 operand. do 2 register. apply trl_ret. vals_in. }
  intros vs kv t1 e1 s1 G1 V1 H1. eapply trl_bind; [apply _..|apply IH|].
  cbn. intros vss kvs t2 e2 s2 G2 V2 [H2 N2]. carry G2 V2. apply trl_ret. split; [|cbn; lia].
  change (flat (kv :: kvs)) with ([kv.1; kv.2] ++ flat kvs). by apply Forall2_app.
Qed.

Lemma sim_map_new fuel t e s : straight t e s (j_map_new pcrel f) (i_map_new fuel).
Proof using HL.
  unfold j_map_new, i_map_new. do 2 operand. eapply trl_bind; [apply _..|apply trl_pairs|].
  cbn beta. intros vss kvs t2 e2 s2 G2 V2 [Hvs Hn]. spilled. emitted ltac:(apply trl_iconst). rewrite wrap_small in Hv by lia.
  replace a0 with (zlen kvs) in Hv by (unfold zlen; lia).
  helper_val ltac:(apply (h_map_new fuel); by rewrite K1). by apply straight_def.
Qed.

(** The constant bytes of [BIN_NEW] stay in the bytecode; the code passes their address. *)
Lemma trl_pool {A B} len (k : Z -> TM A) (k' : list byte -> IM B) t e s Q :
  (forall p, Grows m ar_of pcrel (k p)) -> 0 <= len -> 0 <= tx_pc t ->
  (forall bytes t' s', slice (code f) (tx_pc t) (tx_pc t + zlen bytes) = Some bytes -> zlen bytes = len -> grow t t' ->
    trl t' e s' (k (tx_pc t)) (k' bytes) Q) ->
  trl t e s
    (t0 ← get; _ ← fail_if (bool_decide (tx_pc t0 + len > zlen (code f))) BadBytecode; _ ← modify (set_pos (tx_pc t0 + len)); k (tx_pc t0))
    (b ← fr_bytes len; k' b) Q.
Proof using Type.
  intros Gk Hl Hp Hk a t' H Hw Hb Ha. minv. injection Hc as <- <-. injection Hc1 as <- <-.
  apply bool_decide_eq_false in Hb0. destruct (slice (code f) (tx_pc t) (tx_pc t + len)) as [bytes|] eqn:Hs.
  2:{ unfold slice in Hs. case_bool_decide as Hn; [done|]. exfalso. apply Hn. lia. }
  assert (Hlen : zlen bytes = len).
  { unfold slice in Hs. case_bool_decide; [|done]. injection Hs as <-. unfold zlen in *. rewrite length_take, length_drop. lia. }
  set (t1 := set_pos (tx_pc t + len) t) in *.
  assert (K1 : keeps m ar_of pcrel t t1) by (split; [by destruct Hw|split; try done; by left]).
  specialize (Hk bytes t1 (set_pc (tx_pc t + len) s)). rewrite Hlen in Hk. specialize (Hk Hs eq_refl (proj2 K1)).
  destruct Ha as [A1 A2 A3 A4 A5 A6].
  assert (A' : agrees f trap t1 e (set_pc (tx_pc t + len) s)) by by split.
  specialize (Hk a t' H (proj1 K1) Hb A'). unfold fr_bytes. unfold mbind, M_bind in *. cbn. rewrite A1, <- A2, Hs. cbn. exact Hk.
Qed.

Lemma sim_bin_new fuel t e s : straight t e s (j_bin_new pcrel f (code_ptr fn_idx)) (i_bin_new fuel).
Proof using HL Hf.
  unfold j_bin_new, i_bin_new. do 2 operand. cbv zeta.
  apply (trl_pool a0 (fun p => pv ← iconst (swrap 64 (code_ptr fn_idx + p)); lv ← iconst a0;
    v ← call_val pcrel Helper.BinConst [pv; lv]; def_reg a v)); [apply _|lia..|].
  intros bytes t2 s2 Hs Hn G2. carry G2 (fun (v : Z) (_ : v < ir_vals (tx_b t1)) => eq_refl (vals e1 !! v)).
  emitted ltac:(apply trl_iconst). emitted ltac:(apply trl_iconst).
  rewrite wrap_swrap in Hv. rewrite (wrap_small _ a0), <- Hn in Hv0 by lia.
  helper_val ltac:(eapply (h_bin_const fuel); eassumption). by apply straight_def.
Qed.
End arms.
