(* ===== verification/JitControl.v ===== *)
(** * JitControl: the arms that transfer control

    Jumps, returns, calls and tail calls of the compiler against those of the reference. *)

From S2P Require Import Prelude Term TermImm Bytecode Interp Clif Jit JitLogic JitSim JitRef JitArms.

(** ** Steps that neither move the decoder nor end the block *)

Section still.
Context {X : Type}.
Abbreviation TM := (M (Tx X) JitError).

Class Still {A} (c : TM A) : Prop := still t a t' : c t = (Ok a, t') -> tx_pc t' = tx_pc t /\ tx_filled t' = tx_filled t.

#[export] Instance Still_ret {A} (a : A) : Still (mret a).
Proof. intros t b t' H. by minv. Qed.
#[export] Instance Still_bind {A B} (c : TM A) (k : A -> TM B) : Still c -> (forall a, Still (k a)) -> Still (c ≫= k).
Proof. intros Hc Hk t b t' H. minv. apply Hc in Hc0 as []. apply Hk in H as []. split; congruence. Qed.
#[export] Instance Still_get : Still get.
Proof. by intros t a t' [= <- <-]. Qed.
#[export] Instance Still_gets {A} (g : Tx X -> A) : Still (gets g).
Proof. by intros t a t' [= <- <-]. Qed.
#[export] Instance Still_unwrap {A} (o : option A) : Still (unwrap o).
Proof. intros t a t' H. destruct o; [|discriminate H]. by injection H as <- <-. Qed.
#[export] Instance Still_ok_or {A} (o : option A) e : Still (ok_or o e).
Proof. intros t a t' H. destruct o; [|discriminate H]. by injection H as <- <-. Qed.
#[export] Instance Still_ins i : Still (ins i).
Proof. by intros t a t' [= <- <-]. Qed.
#[export] Instance Still_ins0 i : Still (ins0 i).
Proof. by intros t a t' [= <- <-]. Qed.
#[export] Instance Still_create_block : Still create_block.
Proof. by intros t a t' [= <- <-]. Qed.
#[export] Instance Still_switch b : Still (switch_to_block b).
Proof. by intros t a t' [= <- <-]. Qed.
#[export] Instance Still_import x : Still (import_function x).
Proof. by intros t a t' [= <- <-]. Qed.
#[export] Instance Still_imports g1 g2 g3 g4 : Still (modify (fun t => set_imports (g1 t) (g2 t) (g3 t) (g4 t) t)).
Proof. by intros t a t' [= <- <-]. Qed.
#[export] Instance Still_match {A B} (o : option A) (k : A -> TM B) (k' : TM B) :
  (forall a, Still (k a)) -> Still k' -> Still (match o with Some a => k a | None => k' end).
Proof. by destruct o. Qed.
#[export] Instance Still_if {A} (b : bool) (c c' : TM A) : Still c -> Still c' -> Still (if b then c else c').
Proof. by destruct b. Qed.
#[export] Instance Still_helper pcrel h : Still (helper pcrel h).
Proof. unfold helper. apply _. Qed.
#[export] Instance Still_ins_call r args : Still (ins_call r args).
Proof. unfold ins_call. apply _. Qed.
#[export] Instance Still_call_unit pcrel h args : Still (call_unit pcrel h args).
Proof. unfold call_unit, call_helper. apply _. Qed.
#[export] Instance Still_poll pcrel off : Still (poll_if_back pcrel off).
Proof. unfold poll_if_back. apply _. Qed.
#[export] Instance Still_use_reg r : Still (use_reg r).
Proof. unfold use_reg. apply _. Qed.
#[export] Instance Still_expect_int v : Still (expect_int v).
Proof. unfold expect_int. apply _. Qed.
#[export] Instance Still_iconst k : Still (iconst k).
Proof. unfold iconst. apply _. Qed.
#[export] Instance Still_call_val pcrel h args : Still (call_val pcrel h args).
Proof. unfold call_val, call_helper. apply _. Qed.
#[export] Instance Still_def_reg r v : Still (def_reg r v).
Proof. unfold def_reg. apply _. Qed.
#[export] Instance Still_retag v : Still (retag_int v).
Proof. unfold retag_int. apply _. Qed.
#[export] Instance Still_slot n : Still (create_slot n).
Proof. by intros t a t' [= <- <-]. Qed.
#[export] Instance Still_spill_from ss vs i : Still (spill_from ss i vs).
Proof. revert i. induction vs; intros i; cbn [spill_from]; apply _. Qed.
#[export] Instance Still_spill vs : Still (spill vs).
Proof. unfold spill. apply _. Qed.
#[export] Instance Still_atom_const atom_map a : Still (atom_const atom_map a).
Proof. unfold atom_const. apply _. Qed.
#[export] Instance Still_jump_target off : Still (jump_target off).
Proof. unfold jump_target. apply _. Qed.
#[export] Instance Still_block_at p : Still (block_at p).
Proof. unfold block_at. apply _. Qed.
End still.

Section control.
Context {CI : Clif} {CW : ClifLaws} {S X : Type} `{!NativeApi S} `{!SystemApi S} (prog : list CodeUnit).
Context (resolver : Z -> Z -> M X Empty_set (option ExtTarget)) (resume_tail : nat -> Z -> M S Trap Term).
Context (m : Module_) (ar_of : Z -> Z) (atom_map : list Z) (pcrel : bool) (fn_idx : Z) (f : Function) (code_ptr : Z -> Z) (U : CodeUnit) (trap : Z).
Context (Htrap : forall e (s : S), evals prog U (body (u_func U) trap) e s (Err Badarg, s)).
Context {HL : HelperLaws resume_tail m atom_map code_ptr}.
Abbreviation TM := (M (Tx X) JitError).
Abbreviation IM := (M (IS S) Trap).
Abbreviation trl := (trl prog m ar_of pcrel f U trap).
Abbreviation wf := (wfT (X:=X) m ar_of pcrel).
Implicit Types (t : Tx X) (e : env) (s : IS S).

(** The frame a jump goes to. *)
Record frame_in e s : Prop := {
  fi_code : fcode (fr s) = code f;
  fi_len : zlen (regs (fr s)) = nregs f;
  fi_regs : regs_in e (regs (fr s));
}.

(** An arm: it goes on with the next instruction, at the block of a leader, or ends the run. *)
Definition arm_sim t e s (c : TM unit) (i : IM outcome) : Prop :=
  forall u t', c t = (Ok u, t') -> wf t -> below U t' -> agrees f trap t e s ->
    match i s with
    | (Ok Next, s') => exists e', frame_in e' s' /\
        ((tx_filled t' = tx_filled t /\ agrees f trap t' e' s' /\ leads prog U t e (api s) t' e' (api s')) \/
         (exists blk, tx_blocks t !! pc (fr s') = Some blk /\
            forall r, evals prog U (body (u_func U) blk) e' (api s') r -> evals prog U (rest_of U t) e (api s) r))
    | (Ok (Return v), s') => evals prog U (rest_of U t) e (api s) (Ok v, api s')
    | (Err er, s') => evals prog U (rest_of U t) e (api s) (Err er, api s')
    | _ => True
    end.

Lemma straight_arm t e s c i : straight prog m ar_of pcrel f U trap t e s c i -> arm_sim t e s c i.
Proof using Type.
  intros H u t' Hc Hw Hb Ha. specialize (H u t' Hc Hw Hb Ha). destruct (i s) as [[o|er| |] s']; try done.
  destruct H as (e' & A' & V' & F' & L' & ->). exists e'. split; [by destruct A'|]. by left.
Qed.

Lemma arm_bind {A B} t e s (c : TM A) (k : A -> TM unit) (i : IM B) (k' : B -> IM outcome) Q :
  Grows m ar_of pcrel c -> (forall a, Grows m ar_of pcrel (k a)) ->
  trl t e s c i Q ->
  (forall a b t' e' s', c t = (Ok a, t') -> grow t t' -> same_vals t e e' -> Q a b t' e' -> arm_sim t' e' s' (k a) (k' b)) ->
  arm_sim t e s (x ← c; k x) (x ← i; k' x).
Proof using Type.
  intros Gc Gk Hc Hk u t2 H Hw Hb Ha. apply bind_ok in H as (a & t1 & H1 & H2).
  destruct (Gc _ _ _ Hw H1) as [W1 G1]. destruct (Gk _ _ _ _ W1 H2) as [W2 G2].
  specialize (Hc a t1 H1 Hw (below_grow U _ _ G2 Hb) Ha). unfold mbind, M_bind.
  destruct (i s) as [[b|er| |] s1]; [|done..]. destruct Hc as (e1 & A1 & V1 & F1 & L1 & Q1).
  specialize (Hk a b t1 e1 s1 H1 G1 V1 Q1 u t2 H2 W1 Hb A1).
  destruct (k' b s1) as [[[|v]|er| |] s2]; [|by apply L1..|done|done].
  destruct Hk as (e2 & R2 & Hk). exists e2. split; [done|]. destruct Hk as [(F2 & A2 & L2)|(blk & B2 & L2)].
  - left. split_and!; [congruence|done|]. intros r Hr. by apply L1, L2.
  - right. exists blk. split; [by rewrite <- (grow_blocks _ _ G1)|]. intros r Hr. by apply L1, L2.
Qed.

Lemma arm_left {A} t e s (c : TM A) (k : A -> TM unit) (i : IM outcome) Q :
  Grows m ar_of pcrel c -> (forall a, Grows m ar_of pcrel (k a)) ->
  trl t e s c (mret tt) Q ->
  (forall a t' e', c t = (Ok a, t') -> grow t t' -> same_vals t e e' -> Q a tt t' e' -> arm_sim t' e' s (k a) i) ->
  arm_sim t e s (x ← c; k x) i.
Proof using Type.
  intros Gc Gk Hc Hk u t2 H Hw Hb Ha. apply bind_ok in H as (a & t1 & H1 & H2).
  destruct (Gc _ _ _ Hw H1) as [W1 G1]. destruct (Gk _ _ _ _ W1 H2) as [W2 G2].
  destruct (Hc a t1 H1 Hw (below_grow U _ _ G2 Hb) Ha) as (e1 & A1 & V1 & F1 & L1 & Q1).
  specialize (Hk a t1 e1 H1 G1 V1 Q1 u t2 H2 W1 Hb A1).
  destruct (i s) as [[[|v]|er| |] s2]; [|by apply L1..|done|done].
  destruct Hk as (e2 & R2 & Hk). exists e2. split; [done|]. destruct Hk as [(F2 & A2 & L2)|(blk & B2 & L2)].
  - left. split_and!; [congruence|done|]. intros r Hr. by apply L1, L2.
  - right. exists blk. split; [by rewrite <- (grow_blocks _ _ G1)|]. intros r Hr. by apply L1, L2.
Qed.

Lemma arm_ext t e s (c : TM unit) (i i' : IM outcome) : i s = i' s -> arm_sim t e s c i' -> arm_sim t e s c i.
Proof using Type. intros Hi H u t' Hc Hw Hb Ha. rewrite Hi. exact (H u t' Hc Hw Hb Ha). Qed.

Ltac c_operand :=
  eapply arm_bind; [apply _..|first [apply trl_u8|apply trl_u32]|];
  let a := fresh "a" in let b := fresh "b" in let t := fresh "t" in let e := fresh "e" in let s := fresh "s" in
  let G := fresh "G" in let V := fresh "V" in let R := fresh "R" in let K := fresh "K" in
  cbn beta; intros a b t e s _ G V (<- & R & K); carry G V.
Ltac c_register :=
  eapply arm_bind; [apply _..|apply trl_use|];
  let v := fresh "v" in let x := fresh "x" in let t := fresh "t" in let e := fresh "e" in let s := fresh "s" in
  let G := fresh "G" in let V := fresh "V" in let H := fresh "Hv" in let K := fresh "K" in let E := fresh "E" in
  cbn beta; intros v x t e s E G V [H K]; carry G V.
Ltac c_emitted tac :=
  eapply arm_left; [apply _..|tac|];
  let v := fresh "v" in let t := fresh "t" in let e := fresh "e" in
  let G := fresh "G" in let V := fresh "V" in let H := fresh "Hv" in let K := fresh "K" in let E := fresh "E" in
  cbn beta; intros v t e E G V [H K]; carry G V.

(** *** Returning *)

Lemma arm_return t e s v x : has t e v x -> arm_sim t e s (_ ← ins0 (Return_ [v]); fill) (done_with x).
Proof using Type.
  intros [_ Hv] u t' H Hw Hb Ha. minv. injection Hc as <- <-. injection H as <- <-. cbn.
  rewrite (rest_push U t (Return_ [v])) by (destruct Hb as [[] ?]; by split). by apply evals_return.
Qed.

Lemma sim_ret t e s : arm_sim t e s (j_ret f) i_ret.
Proof using Type. unfold j_ret, i_ret. c_operand. c_register. by apply arm_return. Qed.

Lemma sim_exit_atom t e s : arm_sim t e s (j_exit_atom pcrel f) i_exit_atom.
Proof using HL.
  unfold j_exit_atom, i_exit_atom. c_operand. c_register.
  apply arm_ext with (i' := _ ← on_api (a_exit_atom x); throw BadCode).
  { unfold a_exit_atom, on_api, mbind, M_bind. destruct s1. by destruct (as_atom x). }
  intros u t' H Hw Hb Ha. apply bind_ok in H as (u1 & t2 & H1 & H2). apply bind_ok in H2 as (u2 & t3 & H2 & H3).
  assert (Hb2 : below U t2). { injection H2 as <- <-. injection H3 as <- <-. destruct Hb as [Eb A]. split; [|exact A]. etrans; [apply (ext_push (TrapInst 1))|]. destruct Eb; by split. }
  pose proof (trl_call_unit prog m ar_of pcrel f U trap t1 e1 s1 Helper.ExitAtom [v] [x] (a_exit_atom x)
    ltac:(vals_in) eq_refl eq_refl (h_exit _ _) u1 t2 H1 Hw Hb2 Ha) as Hx.
  unfold mbind, M_bind. unfold a_exit_atom, on_api, mbind, M_bind in *. by destruct (as_atom x).
Qed.

(** *** Tail calls *)

Ltac c_arguments :=
  eapply arm_bind; [apply _..|apply trl_get_args; lia|];
  let vs := fresh "vs" in let xs := fresh "xs" in let t := fresh "t" in let e := fresh "e" in let s := fresh "s" in
  let G := fresh "G" in let V := fresh "V" in let H := fresh "Hvs" in let N := fresh "Hn" in let K := fresh "K" in
  cbn beta; intros vs xs t e s _ G V (H & N & K); carry G V.
Ltac c_spilled :=
  eapply arm_left; [apply _..|apply trl_spill; eassumption|];
  let p := fresh "p" in let t := fresh "t" in let e := fresh "e" in
  let G := fresh "G" in let V := fresh "V" in let a := fresh "ad" in let H := fresh "Hp" in let K := fresh "Hst" in
  cbn beta; intros p t e _ G V (a & H & K); carry G V.
Ltac c_polled :=
  eapply arm_bind; [apply _..|eapply trl_poll; eassumption|];
  let t := fresh "t" in let e := fresh "e" in let s := fresh "s" in
  let G := fresh "G" in let V := fresh "V" in let K := fresh "K" in
  cbn beta; intros _ _ t e s _ G V K; carry G V.
(** A helper without a result that updates the api. *)
Ltac c_update law :=
  eapply arm_ext; [apply upd_lift|];
  eapply arm_bind; [apply _..|eapply trl_call_unit; [vals_in|done|done|law]|];
  let t := fresh "t" in let e := fresh "e" in let s := fresh "s" in
  let G := fresh "G" in let V := fresh "V" in let K := fresh "K" in
  cbn beta; intros _ _ t e s _ G V K; carry G V.

Ltac stacked := repeat match goal with K : stack ?e = _ |- stack_at (stack ?e) _ _ => rewrite K end; eassumption.

Lemma sim_tail_call t e s : arm_sim t e s (j_tail_call pcrel f) i_tail_call.
Proof using HL.
  unfold j_tail_call, i_tail_call. do 2 c_operand. c_arguments.
  c_emitted ltac:(apply trl_iconst). rewrite wrap_small in Hv by lia. c_spilled.
  c_emitted ltac:(apply trl_iconst). rewrite (wrap_small _ a0) in Hv0 by lia. subst a0. c_polled.
  c_update ltac:(apply h_tail_local; [lia|stacked]).
  c_emitted ltac:(apply trl_iconst). by apply arm_return.
Qed.

Lemma trl_atom_value a t e s :
  trl t e s (atom_const atom_map a) (on_api (atom_global a))
    (fun v g t' e' => has t' e' v (term_atom g) /\ 0 <= g < 2 ^ 32 /\ stack e' = stack e).
Proof using HL.
  intros v t' H Hw Hb Ha. pose proof H as H'. unfold atom_const in H'. apply bind_ok in H' as (g & t1 & H1 & _).
  destruct (lookupz atom_map a) as [g0|] eqn:Hg; [|discriminate H1]. injection H1 as <- <-.
  destruct (h_atom a g0 (api s) Hg) as [Hr He].
  destruct (trl_atom_const prog m ar_of atom_map pcrel f U trap a g0 t e s Hg v t' H Hw Hb Ha) as (e' & A' & V' & F' & L' & Q' & K').
  unfold on_api. rewrite He. exists e'. destruct s.
  split; [exact A'|]. split; [exact V'|]. split; [exact F'|]. split; [exact L'|done].
Qed.

Lemma sim_tail_call_ext t e s : arm_sim t e s (j_tail_call_ext atom_map pcrel f) i_tail_call_ext.
Proof using HL.
  unfold j_tail_call_ext, i_tail_call_ext. do 3 c_operand. c_arguments.
  eapply arm_bind; [apply _..|apply trl_atom_value|]. cbn beta. intros ma mg t4 e4 s4 _ G4 V4 (Hma & Rm & K4). carry G4 V4.
  eapply arm_bind; [apply _..|apply trl_atom_value|]. cbn beta. intros fa fg t5 e5 s5 _ G5 V5 (Hfa & Rf & K5). carry G5 V5.
  c_spilled. c_emitted ltac:(apply trl_iconst). rewrite wrap_small, <- Hn in Hv by lia. c_polled.
  c_update ltac:(apply h_tail_ext; [lia..|stacked]).
  c_emitted ltac:(apply trl_iconst). by apply arm_return.
Qed.

(** *** Jumps *)

Context (bound : Z -> Z -> option ExtTarget).

(** Blocks exist for offsets of the code only. *)
Definition leaders_in t : Prop := forall p b, tx_blocks t !! p = Some b -> 0 <= p < zlen (code f).

Lemma trl_poll_back off t e s :
  trl t e s (poll_if_back pcrel off) (if bool_decide (off < 0) then upd_api safepoint else mret tt) (fun _ _ _ _ => True).
Proof using HL.
  unfold poll_if_back. case_bool_decide; [|by apply trl_ret]. eapply trl_mono; [by eapply trl_poll|done].
Qed.

Lemma trl_quiet {A} t e s (c : TM A) (P : A -> Prop) :
  (forall a t', c t = (Ok a, t') -> t' = t /\ P a) -> trl t e s c (mret tt) (fun a _ t' e' => P a /\ e' = e).
Proof using Type.
  intros H a t' Hc Hw Hb Ha. destruct (H a t' Hc) as [-> HP]. cbn. exists e. split_and!; try done. by intros r.
Qed.

(** The target of a jump is the offset the interpreter computes when a block starts there. *)
Lemma target_in_code p off q b (bl : gmap Z Z) :
  (forall p b, bl !! p = Some b -> 0 <= p < zlen (code f)) -> zlen (code f) < 2 ^ 63 ->
  0 <= p <= zlen (code f) -> - 2 ^ 31 <= off < 2 ^ 31 -> q = wrap 64 (p + off) -> bl !! q = Some b -> q = p + off.
Proof using Type.
  intros Hl Hlen Hp Ho -> Hb. apply Hl in Hb. unfold wrap in *. destruct (decide (0 <= p + off)); [apply Z.mod_small; lia|].
  rewrite <- (Z_mod_plus_full _ 1), Z.mod_small in Hb; lia.
Qed.

Lemma arm_jump t e s off blk :
  tx_blocks t !! (tx_pc t + off) = Some blk -> leaders_in t ->
  arm_sim t e s (_ ← ins0 (Jump blk); fill) (_ ← goto off; next).
Proof using Type.
  intros Hblk Hl u t' H Hw Hb [A1 A2 A3 A4 A5 A6]. minv. injection Hc as <- <-. injection H as <- <-.
  unfold goto. unfold mbind, M_bind. cbn. rewrite <- A2, A1. pose proof (Hl _ _ Hblk) as Hr.
  rewrite !bool_decide_false by lia. cbn. exists e. split; [by split|]. right. exists blk. split; [exact Hblk|].
  intros r Hq. rewrite (rest_push U t (Jump blk)) by (destruct Hb as [[] ?]; by split). by apply evals_jump.
Qed.

Lemma dec_i32_bounds t off t' :
  on_dec (X:=X) (dec_i32 (code f)) t = (Ok off, t') ->
  0 <= tx_pc t' <= zlen (code f) /\ - 2 ^ 31 <= off < 2 ^ 31 /\ tx_blocks t' = tx_blocks t.
Proof using Type.
  unfold on_dec. destruct (dec_i32 (code f) (tx_pc t)) as [r p] eqn:H. intros [= -> <-]. cbn.
  unfold dec_i32, dec_u32 in H. minv. injection Hc0 as <- <-. destruct (slice _ _ _) as [l|] eqn:Hs; [|discriminate Hc1].
  injection Hc1 as <- <-. injection Hc2 as <- <-. unfold slice in Hs. case_bool_decide; [|done]. split; [lia|]. split; [|done].
  exact (swrap_range 32 (le_val l) eq_refl).
Qed.

Lemma block_at_ok p t blk t' : block_at p t = (Ok blk, t') -> t' = t /\ tx_blocks t !! p = Some blk.
Proof using Type.
  intros H. unfold block_at in H. apply bind_ok in H as (? & ? & [= <- <-] & H).
  destruct (tx_blocks t !! p); [|discriminate H]. by injection H as <- <-.
Qed.

Lemma sim_jmp t e s : leaders_in t -> zlen (code f) < 2 ^ 63 -> arm_sim t e s (j_jmp pcrel f) i_jmp.
Proof using HL.
  intros Hl Hlen. unfold j_jmp, i_jmp. eapply arm_bind; [apply _..|apply trl_i32|].
  cbn beta. intros off ? t1 e1 s1 E1 G1 V1 [<- K1]. apply dec_i32_bounds in E1 as (Hp & Ho & B1).
  eapply arm_ext; [apply bind_assoc|].
  eapply arm_left; [apply _..|apply (trl_quiet _ _ _ _ (fun q => q = wrap 64 (tx_pc t1 + off))); by intros q t' [= <- <-]|].
  cbn beta. intros q t2 e2 E2 G2 V2 [Hq ->]. injection E2 as _ <-.
  eapply arm_bind; [apply _..|apply trl_poll_back|]. cbn beta. intros u3 w3 t3 e3 s3 E3 G3 V3 _.
  apply (still (c := poll_if_back pcrel off)) in E3 as [E3 _].
  eapply arm_left; [apply _..|apply (trl_quiet _ _ _ _ (fun blk => tx_blocks t3 !! q = Some blk)); intros ? ?; apply block_at_ok|].
  cbn beta. intros blk t4 e4 E4 G4 V4 [Hb ->].
  assert (HB : tx_blocks t4 = tx_blocks t) by (rewrite (grow_blocks _ _ G4), (grow_blocks _ _ G3); exact B1).
  assert (Hq' : q = tx_pc t1 + off).
  { eapply (target_in_code _ _ _ blk (tx_blocks t)); try done. by rewrite <- B1, <- (grow_blocks _ _ G3). }
  apply (still (c := block_at q)) in E4 as [E4 _]. apply arm_jump.
  - rewrite E4, E3, <- Hq', (grow_blocks _ _ G4). exact Hb.
  - intros p b. rewrite HB. apply Hl.
Qed.

Lemma arm_brif t e s cond c off tblk fblk :
  has t e cond (b2i (negb (bool_decide (c = 0)))) ->
  tx_blocks t !! (tx_pc t + off) = Some tblk -> tx_blocks t !! tx_pc t = Some fblk -> leaders_in t ->
  arm_sim t e s (_ ← ins0 (Brif cond tblk fblk); fill) (_ ← (if negb (bool_decide (c = 0)) then goto off else mret tt); next).
Proof using Type.
  intros [_ Hc] Ht Hfall Hl u t' H Hw Hb [A1 A2 A3 A4 A5 A6]. minv. injection Hc0 as <- <-. injection H as <- <-.
  assert (Hr : rest_of U t = Brif cond tblk fblk :: rest_of U (upd_b (push_inst (Brif cond tblk fblk)) t)).
  { apply (rest_push U t). destruct Hb as [[] ?]; by split. }
  case_bool_decide as Hz; cbn [negb] in *.
  - exists e. split; [by split|]. right. exists fblk. split; [by rewrite <- A2|].
    intros r Hq. rewrite Hr. eapply evals_brif; [exact Hc|exact Hq].
  - unfold goto. unfold mbind, M_bind. cbn. rewrite <- A2, A1. pose proof (Hl _ _ Ht) as Hp.
    rewrite !bool_decide_false by lia. cbn. exists e. split; [by split|]. right. exists tblk. split; [exact Ht|].
    intros r Hq. rewrite Hr. eapply evals_brif; [exact Hc|exact Hq].
Qed.

Lemma sim_jmp_if t e s : leaders_in t -> zlen (code f) < 2 ^ 63 -> arm_sim t e s (j_jmp_if pcrel f) n_jmp_if.
Proof using HL CW Htrap.
  intros Hl Hlen. unfold j_jmp_if, n_jmp_if. eapply arm_bind; [apply _..|apply trl_u8|].
  cbn beta. intros rc ? t0 e0 s0 E0 G0 V0 (<- & R0 & K0).
  eapply arm_bind; [apply _..|apply trl_i32|].
  cbn beta. intros off ? t1 e1 s1 E1 G1 V1 [<- K1]. apply dec_i32_bounds in E1 as (Hp & Ho & B1). rewrite (grow_blocks _ _ G0) in B1.
  eapply arm_left; [apply _..|apply (trl_quiet _ _ _ _ (fun q => q = wrap 64 (tx_pc t1 + off))); by intros q t' [= <- <-]|].
  cbn beta. intros q t2 e2 E2 G2 V2 [Hq ->]. injection E2 as _ <-.
  eapply arm_left; [apply _..|apply (trl_quiet _ _ _ _ (fun q => q = tx_pc t1)); by intros ? t' [= <- <-]|].
  cbn beta. intros fall t2 e2 E2 G2' V2' [-> ->]. injection E2 as <-.
  unfold get_int. eapply arm_ext; [apply bind_assoc|].
  eapply arm_bind; [apply _..|apply trl_use|]. cbn beta. intros v x t2 e2 s2 E2 G3 V3 [Hv K3]. apply (still (c := use_reg rc)) in E2 as [E2 _].
  eapply arm_bind; [apply _..|by eapply trl_expect_int|]. cbn beta. intros raw c t3 e3 s3 E3 G4 V4 [Hraw Rc].
  apply (still (c := expect_int v)) in E3 as [E3 _]. clear Hv.
  eapply arm_bind; [apply _..|apply trl_poll_back|]. cbn beta. intros u4 w4 t4 e4 s4 E4 G5 V5 _.
  apply (still (c := poll_if_back pcrel off)) in E4 as [E4 _]. carry G5 V5.
  c_emitted ltac:(apply trl_icmp_imm; exact Hraw).
  assert (Hcond : has t5 e5 v0 (b2i (negb (bool_decide (c = 0))))).
  { rewrite law_ne in Hv. change (wrap 64 (wrap 64 0)) with 0 in Hv.
    assert (bool_decide (wrap 64 (wrap 64 c) = 0) = bool_decide (c = 0)) as Hbd; [|by rewrite Hbd in Hv].
    apply bool_decide_ext. unfold wrap. rewrite Z.mod_mod by lia. split; [|by intros ->].
    destruct (decide (0 <= c)); [by rewrite Z.mod_small by lia|].
    rewrite <- (Z_mod_plus_full c 1), Z.mod_small by lia. lia. }
  clear Hv. apply (still (c := ins (fun d => IcmpImm NotEqual d raw 0))) in E as [E _].
  eapply arm_left; [apply _..|apply (trl_quiet _ _ _ _ (fun blk => tx_blocks t5 !! q = Some blk)); intros ? ?; apply block_at_ok|].
  cbn beta. intros tblk t6 e6 E6 G6 V6 [Ht ->]. apply block_at_ok in E6 as [-> _].
  eapply arm_left; [apply _..|apply (trl_quiet _ _ _ _ (fun blk => tx_blocks t5 !! tx_pc t1 = Some blk)); intros ? ?; apply block_at_ok|].
  cbn beta. intros fblk t7 e7 E7 G7 V7 [Hfb ->]. apply block_at_ok in E7 as [-> _].
  assert (HB : tx_blocks t5 = tx_blocks t).
  { rewrite (grow_blocks _ _ G), (grow_blocks _ _ G5), (grow_blocks _ _ G4), (grow_blocks _ _ G3). exact B1. }
  assert (HP : tx_pc t5 = tx_pc t1) by congruence.
  assert (Hq' : q = tx_pc t1 + off).
  { eapply (target_in_code _ _ _ tblk (tx_blocks t)); try done. by rewrite <- HB. }
  apply arm_brif; [exact Hcond|rewrite HP, <- Hq'; exact Ht|by rewrite HP|]. intros p b. rewrite HB. apply Hl.
Qed.

(** *** Calls of siblings *)

(** The test of a call's result for the sentinel. *)
Definition call_tail (is_tail : Z) (rd v : Z) : TM unit :=
  cont ← create_block; unwind ← create_block;
  _ ← ins0 (Brif is_tail unwind cont);
  _ ← switch_to_block unwind;
  sent ← iconst 7; _ ← ins0 (Return_ [sent]);
  _ ← switch_to_block cont;
  def_reg rd v.

#[export] Instance Grows_call_tail is_tail rd v : Grows m ar_of pcrel (call_tail is_tail rd v).
Proof using Type.
  eapply Grows_ext; [|apply (Grows_two m ar_of pcrel (fun c u => Brif is_tail u c)
    (fun _ _ => sent ← iconst 7; ins0 (Return_ [sent])) false (def_reg rd v)); [apply _|apply _]].
  intros t. unfold call_tail. do 4 (apply bind_ext; intros ? ?). symmetry. apply bind_assoc.
Qed.

(** Two new blocks [p], [q]: the branch to them ends the current block, [mid] fills [p], and [q] comes next. *)
Lemma two_blocks {A} t (br : inst) (sel : bool) (mid : TM A) a t5 :
  let b := ir_blocks (tx_b t) in
  let p := if sel then b else b + 1 in
  let q := if sel then b + 1 else b in
  let t2 := upd_b (push_inst br) (upd_b new_block (upd_b new_block t)) in
  let t3 := upd_b (set_cur p) t2 in
  let t6 := upd_b (set_cur q) t5 in
  wf t -> Grows m ar_of pcrel mid -> mid t3 = (Ok a, t5) ->
  keeps m ar_of pcrel t t3 /\ keeps m ar_of pcrel t t6 /\
  (below U t6 -> below U t5 /\ below U t3 /\ rest_of U t = br :: rest_of U t2 /\ rest_of U t3 = body (u_func U) p /\ rest_of U t6 = body (u_func U) q).
Proof using Type.
  intros b p q t2 t3 t6 Hw Gm H. pose proof (wf_cur _ _ _ _ Hw) as Hcur. fold b in Hcur.
  assert (K2 : keeps m ar_of pcrel t t2) by by apply keeps_push, keeps_block, keeps_block, keeps_refl.
  assert (K3 : keeps m ar_of pcrel t t3) by (apply keeps_switch; [done|unfold p; destruct sel; cbn; lia]).
  destruct (Gm _ _ _ (proj1 K3) H) as [W5 G5]. pose proof (ext_blocks _ _ (grow_ext _ _ G5)) as Hle. cbn in Hle. fold b in Hle.
  assert (K6 : keeps m ar_of pcrel t t6).
  { apply keeps_switch; [eapply keeps_trans; [exact K3|by split]|unfold q; fold b; destruct sel; lia]. }
  assert (Hn : forall x, b <= x -> body (tx_b t3) x = []).
  { intros x Hx. trans (body (push_inst br (new_block (new_block (tx_b t)))) x); [done|].
    rewrite body_push, decide_False by (cbn; lia). exact (wf_fresh _ _ _ _ Hw x Hx). }
  assert (Hb : b <= p /\ b <= q /\ q < b + 2 /\ q <> p) by (unfold p, q; destruct sel; lia).
  split; [done|]. split; [done|]. intros B6. assert (B5 : below U t5) by (destruct B6 as [[] ?]; by split).
  pose proof (below_grow U _ _ G5 B5) as B3. assert (B2 : below U t2) by (destruct B3 as [[] ?]; by split).
  split; [done|]. split; [done|]. split; [exact (rest_push U (upd_b new_block (upd_b new_block t)) br B2)|]. split.
  - apply (rest_switched m ar_of pcrel U t); [done|lia|done|]. rewrite Hn by lia. symmetry. apply (wf_fresh _ _ _ _ Hw). fold b. lia.
  - apply (rest_switched m ar_of pcrel U t); [done|lia|done|]. trans (body (tx_b t5) q); [done|].
    rewrite (grow_local _ _ G5), Hn; [|lia|cbn; fold b; lia|cbn; lia]. symmetry. apply (wf_fresh _ _ _ _ Hw). fold b. lia.
Qed.

Lemma arm_sentinel t e s : arm_sim t e s (sent ← iconst 7; _ ← ins0 (Return_ [sent]); fill) (done_with TAIL_SENTINEL).
Proof using Type. c_emitted ltac:(apply trl_iconst). by apply arm_return. Qed.

Lemma arm_call_tail t e s is_tail rd v x :
  has t e v x -> has t e is_tail (b2i (is_sentinel x)) ->
  arm_sim t e s (call_tail is_tail rd v) (if is_sentinel x then done_with TAIL_SENTINEL else _ ← fr_set rd x; next).
Proof using Type.
  intros Hv [_ Ht] u t' H Hw Hb Ha.
  unfold call_tail in H. apply bind_ok in H as (cont & t1 & [= <- <-] & H). apply bind_ok in H as (unwind & t2 & [= <- <-] & H).
  apply bind_ok in H as (u3 & t3 & [= <- <-] & H). apply bind_ok in H as (u4 & t4 & [= <- <-] & H).
  apply bind_ok in H as (sent & t5 & H5 & H). apply bind_ok in H as (u6 & t6 & H6 & H).
  apply bind_ok in H as (u7 & t7 & [= <- <-] & H). cbn in H. set (b := ir_blocks (tx_b t)) in *.
  destruct (two_blocks t (Brif is_tail (b + 1) b) false (sent ← iconst 7; ins0 (Return_ [sent])) u6 t6 Hw _
    ltac:(by erewrite bind_eval by exact H5)) as (K3 & K6 & Hrest).
  fold b in K3, K6, Hrest. destruct (Grows_def_reg m ar_of pcrel rd v _ _ _ (proj1 K6) H) as [W7 G7].
  destruct (Hrest (below_grow U _ _ G7 Hb)) as (B5 & B3 & Hr & Hru & Hrc).
  destruct (is_sentinel x); cbn [b2i] in Ht.
  - rewrite Hr. eapply evals_brif; [exact Ht|]. change (evals prog U (body (u_func U) (b + 1)) e (api s) (Ok TAIL_SENTINEL, api s)).
    rewrite <- Hru. eapply (arm_sentinel _ e s tt (set_flags true (tx_in_block t6) t6)); [|apply K3|done|by destruct Ha].
    erewrite bind_eval by exact H5. by erewrite bind_eval by exact H6.
  - assert (L : forall r, evals prog U (body (u_func U) b) e (api s) r -> evals prog U (rest_of U t) e (api s) r).
    { intros r Hq. rewrite Hr. by eapply evals_brif. }
    rewrite <- Hrc in L.
    assert (Hv6 : has (upd_b (set_cur b) t6) e v x) by (apply (has_carry t _ e e); [apply K6|done|done]).
    assert (A6 : agrees f trap (upd_b (set_cur b) t6) e s).
    { destruct Ha, K6 as [_ [_ _ R6 _ T6 _]]. injection H5 as <- <-. injection H6 as <- <-. by split. }
    pose proof (straight_def prog m ar_of pcrel f U trap _ e s rd v x Hv6 u t' H (proj1 K6) Hb A6) as Hd.
    destruct ((_ ← fr_set rd x; next) s) as [[o|er| |] s']; [|by apply L|done..].
    destruct Hd as (e' & A' & V' & F' & L' & ->). exists e'. split; [by destruct A'|]. left. split_and!; [|done|].
    + rewrite F'. injection H5 as <- <-. by injection H6 as <- <-.
    + intros r Hq. by apply L, L'.
Qed.

Definition call_site : TM unit :=
  rd ← on_dec (dec_u8 (code f)); callee ← on_dec (dec_u32 (code f)); n ← on_dec (dec_u8 (code f)); args ← use_args f n;
  _ ← call_unit pcrel Helper.Safepoint [];
  fref ← sibling m callee; o ← ins_call fref args; v ← unwrap o;
  is_tail ← ins (fun d => IcmpImm Equal d v 7); call_tail is_tail rd v.

Lemma call_site_eq : j_call m pcrel f = call_site.
Proof using Type. reflexivity. Qed.

Lemma trl_sibling t e s i : trl t e s (sibling m i) (mret tt)
  (fun r _ t' e' => e' = e /\ exists g, lookupz (functions m) i = Some g /\ lookupz (ir_funcs (tx_b t')) r = Some (fn_import 1 i (arity g))).
Proof using Type.
  intros r t' H Hw Hb Ha. cbn. exists e. unfold sibling in H. minv. injection Hc as <- <-.
  destruct (tx_siblings t !! i) as [r0|] eqn:Hr; minv.
  { split_and!; try done; [by intros q|]. by apply (wf_siblings _ _ _ _ Hw). }
  destruct (lookupz (functions m) i) as [g|] eqn:Hg; [|discriminate Hc]. injection Hc as <- <-.
  injection Hc0 as <- <-. injection Hc1 as <- <-. destruct Ha. split_and!; try done; [by intros q|]. exists g. split; [done|]. apply lookupz_app_r.
Qed.

(** The number of arguments at a call site is the callee's arity. *)
Definition site_ok (at_ : Z) : Prop := forall callee n g,
  u32_operand (code f) (at_ + 1) = Some callee -> byte_operand (code f) (at_ + 5) = Some n ->
  lookupz (functions m) callee = Some g -> arity g = n.

Lemma tx_u8_at t a t' : on_dec (X:=X) (dec_u8 (code f)) t = (Ok a, t') -> byte_operand (code f) (tx_pc t) = Some a /\ tx_pc t' = tx_pc t + 1.
Proof using Type.
  unfold on_dec, dec_u8. destruct ((p ← get; _) (tx_pc t)) as [r p] eqn:H. intros [= -> <-]. minv. injection Hc as <- <-.
  unfold byte_operand. destruct (lookupz (code f) _); [|discriminate Hc0]. injection Hc0 as <- <-. by injection Hc1 as <- <-.
Qed.

Lemma tx_u32_at t a t' : on_dec (X:=X) (dec_u32 (code f)) t = (Ok a, t') -> u32_operand (code f) (tx_pc t) = Some a /\ tx_pc t' = tx_pc t + 4.
Proof using Type.
  unfold on_dec, dec_u32. destruct ((p ← get; _) (tx_pc t)) as [r p] eqn:H. intros [= -> <-]. minv. injection Hc as <- <-.
  unfold u32_operand. destruct (slice (code f) _ _); [|discriminate Hc0]. injection Hc0 as <- <-. by injection Hc1 as <- <-.
Qed.

Lemma sim_call call t e s :
  site_ok (tx_pc t) ->
  (forall i g xs (a : S), lookupz (functions m) i = Some g -> zlen xs = arity g -> ran (call i xs a).1 = true ->
    exists N, forall n, (N <= n)%nat -> icallee prog n U (fn_import 1 i (arity g)) ∅ xs a = yields (call i xs) a) ->
  arm_sim t e s (j_call m pcrel f) (n_call call).
Proof using HL CW.
  intros Hsite Hcall. rewrite call_site_eq. unfold call_site, n_call.
  eapply arm_bind; [apply _..|apply trl_u8|]. cbn beta. intros rd ? t0 e0 s0 E0 G0 V0 (<- & R0 & K0). apply tx_u8_at in E0 as [_ P0].
  eapply arm_bind; [apply _..|apply trl_u32|]. cbn beta. intros callee ? t1 e1 s1 E1 G1 V1 (<- & R1 & K1). apply tx_u32_at in E1 as [D1 P1].
  eapply arm_bind; [apply _..|apply trl_u8|]. cbn beta. intros n ? t2 e2 s2 E2 G2 V2 (<- & R2 & K2). apply tx_u8_at in E2 as [D2 P2].
  c_arguments. c_polled.
  eapply arm_left; [apply _..|apply trl_sibling|]. cbn beta. intros fref t5 e5 E5 G5 V5 (-> & g & Hg & Hf). carry G5 V5.
  assert (Har : arity g = n) by (eapply Hsite; [|by rewrite <- D2, P1, P0; f_equal; lia|done]; by rewrite <- D1, P0).
  apply arm_ext with (i' := o ← on_api (yields (call callee xs)); v ← unwrap o; _ ← mret tt;
    if is_sentinel v then done_with TAIL_SENTINEL else _ ← fr_set rd v; next).
  { unfold on_api, yields, mbind, M_bind. by destruct (call callee xs _) as [[]]. }
  eapply arm_bind; [apply _..|eapply trl_ins_call; [exact Hf|exact Hvs|cbn; lia| |]|].
  { intros Hs. destruct (Hcall callee g xs (api s4) Hg ltac:(lia)) as [N HN].
    { unfold yields, mbind, M_bind in Hs. by destruct (call callee xs (api s4)) as [[]]. }
    exists N. intros k Hk. exact (HN k Hk). }
  { unfold yields, mbind, M_bind. by destruct (call callee xs (api s4)) as [[]]. }
  cbn beta. intros ov ox t6 e6 s6 _ G6 V6 [K6 H6]. destruct ov as [v|], ox as [x|]; try done.
  eapply arm_bind; [apply _..|eapply trl_ret with (Q := fun v x t' e' => has t' e' v x); exact H6|].
  cbn beta. intros v' x' t7 e7 s7 _ G7 V7 H7. cbn beta.
  eapply arm_bind; [apply _..|apply trl_icmp_imm; exact H7|].
  cbn beta. intros is_tail _ t8 e8 s8 _ G8 V8 [H8 _]. carry G8 V8.
  apply arm_call_tail; [done|]. rewrite law_eq in H8. exact H8.
Qed.
End control.
