(* ===== verification/JitExtCall.v ===== *)
(** * JitExtCall: calls of other modules

    [CALL_EXT] asks the resolver for a published function of a sealed module and calls it
    directly, or dispatches through a helper. *)

From S2P Require Import Prelude Term TermImm Bytecode Interp Clif Jit JitLogic JitSim JitRef JitArms JitControl.

#[global] Typeclasses Opaque j_call_direct j_call_dynamic.

Section ext_call.
Context {CI : Clif} {CW : ClifLaws} {S X : Type} `{!NativeApi S} `{!SystemApi S} (prog : list CodeUnit).
Context (resolver : Z -> Z -> M X Empty_set (option ExtTarget)) (resume_tail : nat -> Z -> M S Trap Term).
Context (m : Module_) (ar_of : Z -> Z) (atom_map : list Z) (pcrel : bool) (f : Function) (code_ptr : Z -> Z) (U : CodeUnit) (trap : Z).
Context {HL : HelperLaws resume_tail m atom_map code_ptr}.
(** What the resolver answers, and that an address has one arity. *)
Context (bound : Z -> Z -> option ExtTarget).
Context (Hres : forall gm gf x o x', resolver gm gf x = (Ok o, x') -> o = bound gm gf).
Context (Har : forall gm gf x, bound gm gf = Some x -> ar_of (xt_addr x) = xt_arity x).
Abbreviation TM := (M (Tx X) JitError).
Abbreviation IM := (M (IS S) Trap).
Abbreviation trl := (trl prog m ar_of pcrel f U trap).
Abbreviation straight := (straight prog m ar_of pcrel f U trap).
Implicit Types (t : Tx X) (e : env) (s : IS S).

(** ** The resolver's answer *)

Lemma ask_ok gm gf t o t' :
  ask_resolver resolver gm gf t = (Ok o, t') -> o = bound gm gf /\ exists x, t' = set_env x t.
Proof using Hres.
  unfold ask_resolver. destruct (resolver gm gf (tx_env t)) as [[q|[]| |] x] eqn:Hq; intros [=]; subst. eauto.
Qed.

#[local] Instance Grows_ask_bind {A} gm gf (k : option ExtTarget -> TM A) :
  Grows m ar_of pcrel (k (bound gm gf)) -> Grows m ar_of pcrel (o ← ask_resolver resolver gm gf; k o) | 0.
Proof using Hres.
  intros Hk t a t' Hw H. apply bind_ok in H as (o & t1 & H1 & H2). destruct (Grows_ask resolver m ar_of pcrel _ _ _ _ _ Hw H1) as [W1 G1].
  apply ask_ok in H1 as [-> _]. eapply keeps_trans; [by split|]. by eapply Hk.
Qed.

Lemma trl_ask {A B} gm gf (k : option ExtTarget -> TM A) (i : IM B) t e s Q :
  (forall t', grow t t' -> trl t' e s (k (bound gm gf)) i Q) -> trl t e s (o ← ask_resolver resolver gm gf; k o) i Q.
Proof using Hres.
  intros Hk a t' H Hw Hb Ha. apply bind_ok in H as (o & t1 & H1 & H2).
  destruct (Grows_ask resolver m ar_of pcrel _ _ _ _ _ Hw H1) as [W1 G1]. apply ask_ok in H1 as [-> [x ->]].
  exact (Hk _ G1 a t' H2 W1 Hb ltac:(by destruct Ha)).
Qed.

(** ** The resumption of a pending tail call *)

Definition resume_tail_call (rd : Z) (x : ExtTarget) (is_sent : Z) : TM unit :=
  resume ← create_block; join ← create_block;
  _ ← ins0 (Brif is_sent resume join);
  _ ← switch_to_block resume;
  _ ← (tok ← iconst (swrap 64 (xt_token x)); v2 ← call_val pcrel Helper.ResumeTail [tok]; _ ← def_reg rd v2; ins0 (Jump join));
  _ ← switch_to_block join; mret tt.

#[export] Instance Grows_resume rd x is_sent : Grows m ar_of pcrel (resume_tail_call rd x is_sent).
Proof using Type.
  apply (Grows_two m ar_of pcrel (fun b1 b2 => Brif is_sent b1 b2)
    (fun _ b2 => tok ← iconst (swrap 64 (xt_token x)); v2 ← call_val pcrel Helper.ResumeTail [tok]; _ ← def_reg rd v2; ins0 (Jump b2)) true (mret tt)); apply _.
Qed.

Lemma call_direct_eq rd x n args t :
  j_call_direct pcrel rd x n args t =
  (fref ← ext_target (xt_addr x) n; o ← ins_call fref args; v ← unwrap o; _ ← def_reg rd v;
   if xt_may_tail x then is_sent ← ins (fun d => IcmpImm Equal d v 7); resume_tail_call rd x is_sent else mret tt) t.
Proof using Type.
  unfold j_call_direct. do 4 (apply bind_ext; intros ? ?). destruct (xt_may_tail x); [|done].
  unfold resume_tail_call. do 5 (apply bind_ext; intros ? ?).
  unfold mbind, M_bind. cbn. repeat (match goal with |- context [match ?c ?t with _ => _ end] => destruct (c t) as [[]] end; try done).
Qed.

Lemma trl_resume rd x is_sent fuel (b : bool) t e s :
  has t e is_sent (b2i b) ->
  trl t e s (resume_tail_call rd x is_sent)
    (if b then v ← on_api (resume_tail fuel (wrap 64 (xt_token x))); fr_set rd v else mret tt) (fun _ _ _ _ => True).
Proof using HL.
  intros [_ Hs] u t6 H Hw Hb Ha. unfold resume_tail_call in H.
  apply bind_ok in H as (resume & t1 & [= <- <-] & H). apply bind_ok in H as (join & t2 & [= <- <-] & H).
  apply bind_ok in H as (u3 & t3 & [= <- <-] & H). apply bind_ok in H as (u4 & t4 & [= <- <-] & H).
  apply bind_ok in H as (u5 & t5 & H5 & H). apply bind_ok in H as (u7 & t7 & [= <- <-] & [= <- <-]). cbn in H5.
  set (bl := ir_blocks (tx_b t)) in *. set (br := Brif is_sent bl (bl + 1)) in *.
  destruct (two_blocks m ar_of pcrel U t br true _ u5 t5 Hw _ H5) as (K3 & K6 & Hrest). fold bl in K3, K6, Hrest.
  destruct (Hrest Hb) as (B5 & B3 & Hr & Hr3 & Hr6). clear Hrest. set (t3 := upd_b (set_cur bl) _) in *.
  set (mid := (tok ← iconst (swrap 64 (xt_token x)); v2 ← call_val pcrel Helper.ResumeTail [tok]; def_reg rd v2) : TM unit).
  assert (H5' : (_ ← mid; ins0 (Jump (bl + 1))) t3 = (Ok u5, t5)).
  { rewrite <- H5. unfold mid. rewrite bind_assoc. apply bind_ext. intros ? ?. by rewrite bind_assoc. }
  apply bind_ok in H5' as (u1 & t4 & H4 & [= <- <-]). clear H5.
  assert (Gm : Grows m ar_of pcrel mid) by apply _. destruct (Gm _ _ _ (proj1 K3) H4) as [W4 G4].
  assert (B4 : below U t4) by (destruct B5 as [EB AB]; split; [etrans; [apply ext_push|exact EB]|exact AB]).
  assert (A3 : agrees f trap t3 e s) by by destruct Ha. 
  pose proof (still (c := mid) _ _ _ H4) as [P4 F4]. destruct b; cbn [b2i] in Hs.
  - assert (Hm : trl t3 e s mid (v ← on_api (resume_tail fuel (wrap 64 (xt_token x))); fr_set rd v) (fun _ _ _ _ => True)).
    { unfold mid. emitted ltac:(apply trl_iconst). rewrite wrap_swrap in Hv. helper_val ltac:(apply (h_resume fuel)).
      eapply trl_mono; [by apply trl_def|done]. }
    specialize (Hm u1 t4 H4 (proj1 K3) B4 A3).
    assert (L : forall r, evals prog U (rest_of U t3) e (api s) r -> evals prog U (rest_of U t) e (api s) r).
    { intros r Hq. rewrite Hr. eapply evals_brif; [exact Hs|]. by rewrite Hr3 in Hq. }
    destruct ((v ← _; fr_set rd v) s) as [[y|er| |] s']; [|by apply L|done..].
    destruct Hm as (e' & A' & V' & F' & L' & _). exists e'. split; [by destruct A'|]. split.
    { intros v Hv. apply V'. exact Hv. }
    split; [exact F'|]. split; [|done]. intros r Hq. apply L, L'. rewrite (rest_push U t4 (Jump (bl + 1)) B5). apply evals_jump.
    by rewrite Hr6 in Hq.
  - cbn. exists e. split.
    { destruct A3, G4. split; cbn in *; first [done|congruence]. }
    split; [done|]. split; [exact F4|split; [|done]].
    intros r Hq. rewrite Hr. eapply evals_brif; [exact Hs|]. by rewrite Hr6 in Hq.
Qed.

(** ** The direct call *)

Context (Hsmall : zlen (u_addrs U) < 2 ^ 32).

Lemma trl_ext_target addr t e s :
  trl t e s (ext_target addr (ar_of addr)) (mret tt) (fun r _ t' e' => e' = e /\ exists i,
    lookupz (u_addrs U) i = Some addr /\ lookupz (ir_funcs (tx_b t')) r = Some (fn_import 2 i (ar_of addr))).
Proof using Hsmall.
  intros r t' H Hw Hb Ha. cbn. exists e.
  destruct (Grows_ext_target m ar_of pcrel addr _ eq_refl _ _ _ Hw H) as [W' G'].
  assert (Hr : tx_ext_funcs t' !! addr = Some r /\ rest_of U t' = rest_of U t /\ tx_pc t' = tx_pc t /\ tx_filled t' = tx_filled t).
  { clear -H. unfold ext_target in H. apply bind_ok in H as (? & ? & [= <- <-] & H). destruct (tx_ext_funcs t !! addr) eqn:He.
    - by injection H as <- <-.
    - apply bind_ok in H as (? & ? & [= <- <-] & H). apply bind_ok in H as (? & ? & [= <- <-] & H).
      apply bind_ok in H as (? & ? & [= <- <-] & [= <- <-]). cbn. by rewrite lookup_insert_eq. }
  destruct Hr as (Hr & Hrest & Hp & Hf). pose proof (proj2 Hb) as Hpre.
  assert (Hl : zlen (tx_ext_addrs t') < 2 ^ 32) by (apply prefix_length in Hpre; unfold zlen in *; lia).
  destruct (wf_ext _ _ _ _ W' addr r Hr) as (i & Hx & Hi). specialize (Hi Hl).
  split; [destruct Ha, G'; split; first [done|congruence]|]. split_and!; try done; [intros q; by rewrite Hrest|].
  exists i. split; [by eapply prefix_lookupz|done].
Qed.

Lemma trl_published fuel addr i fref vs xs t e s :
  lookupz (u_addrs U) i = Some addr -> lookupz (ir_funcs (tx_b t)) fref = Some (fn_import 2 i (ar_of addr)) ->
  Forall2 (has t e) vs xs -> zlen xs = ar_of addr ->
  trl t e s (o ← ins_call fref vs; unwrap o) (on_api (direct_call fuel addr xs)) (fun v x t' e' => has t' e' v x).
Proof using HL.
  intros Hi Hx Hvs Hn. set (c := direct_call fuel addr xs). apply trl_ext with (i' := o ← on_api (yields c); unwrap o).
  { unfold on_api, yields, mbind, M_bind. by destruct (c (api s)) as [[]]. }
  eapply trl_bind; [apply _..|eapply trl_ins_call; [exact Hx|exact Hvs|exact Hn| |]|].
  - intros Hs. destruct (h_direct fuel addr xs (api s)) as [N HN].
    { unfold yields, mbind, M_bind in Hs. unfold c in *. by destruct (direct_call fuel addr xs (api s)) as [[]]. }
    exists N. intros n Hle. unfold icallee, run_foreign, yields. cbn. rewrite !bool_decide_false, bool_decide_true by done. rewrite Hi. unfold mbind, M_bind, c. cbn. by rewrite (HN n Hle).
  - unfold yields, mbind, M_bind. by destruct (c (api s)) as [[]].
  - cbn. intros [v|] [y|] t' e' s' G V [K H]; try done. by apply trl_ret.
Qed.

Lemma Grows_direct rd x args : ar_of (xt_addr x) = xt_arity x -> Grows (X:=X) m ar_of pcrel (j_call_direct pcrel rd x (xt_arity x) args).
Proof using Type.
  intros Hx. eapply Grows_ext; [apply call_direct_eq|]. apply Grows_bind; [by apply Grows_ext_target|]. apply _.
Qed.

Lemma insertz_twice {A} i (x y : A) l : insertz i x (insertz i y l) = insertz i x l.
Proof using Type.
  unfold insertz at 1 3. rewrite zlen_insertz. case_bool_decide as H; [|by unfold insertz; rewrite bool_decide_false].
  unfold insertz. rewrite bool_decide_true by done. by rewrite list_insert_insert_eq.
Qed.

(** The destination is set before the callee's result is known to be a pending tail call. *)
Lemma call_direct_obs fuel x rd args s :
  is_Some (lookupz (regs (fr s)) rd) ->
  obs ((v ← on_api (call_direct resume_tail fuel x args); _ ← fr_set rd v; next) s) =
  obs ((v ← on_api (direct_call fuel (xt_addr x) args); _ ← fr_set rd v;
        _ ← (if xt_may_tail x && is_sentinel v then v2 ← on_api (resume_tail fuel (wrap 64 (xt_token x))); fr_set rd v2 else mret tt);
        next) s).
Proof using Type.
  intros [w Hw]. unfold call_direct, on_api, mbind, M_bind. destruct (direct_call _ _ _ _) as [[v| | |] a]; try done.
  unfold fr_set. unfold mbind, M_bind. cbn. rewrite Hw. cbn. destruct (xt_may_tail x && is_sentinel v); cbn.
  - destruct (resume_tail _ _ a) as [[v2| | |] a2]; cbn; try done. rewrite Hw. cbn.
    rewrite lookupz_insertz by by apply lookupz_range in Hw. rewrite decide_True by done. cbn. by rewrite insertz_twice.
  - by rewrite Hw.
Qed.

Lemma sim_direct fuel rd x vs xs t e s :
  ar_of (xt_addr x) = xt_arity x -> Forall2 (has t e) vs xs -> zlen xs = xt_arity x ->
  straight t e s (j_call_direct pcrel rd x (xt_arity x) vs) (v ← on_api (call_direct resume_tail fuel x xs); _ ← fr_set rd v; next).
Proof using HL CW Hsmall.
  intros Hx Hvs Hn u t' H Hw Hb Ha.
  assert (Hrd : is_Some (lookupz (regs (fr s)) rd)).
  { rewrite call_direct_eq in H. apply bind_ok in H as (r & t1 & H1 & H). apply bind_ok in H as (o & t2 & H2 & H).
    apply bind_ok in H as (v & t3 & H3 & H). apply bind_ok in H as (u4 & t4 & H4 & _).
    destruct (Grows_ext_target m ar_of pcrel (xt_addr x) _ Hx _ _ _ Hw H1) as [W1 G1].
    destruct (Grows_ins_call m ar_of pcrel r vs _ _ _ W1 H2) as [W2 G2]. destruct (Grows_unwrap m ar_of pcrel o _ _ _ W2 H3) as [W3 G3].
    unfold def_reg in H4. apply bind_ok in H4 as (? & ? & [= <- <-] & H4).
    rewrite (grow_regs _ _ G3), (grow_regs _ _ G2), (grow_regs _ _ G1) in H4.
    destruct (lookupz (tx_regs t) rd) as [z|] eqn:Hz; [|discriminate H4].
    destruct (reg_var f trap t e s rd z Ha Hz) as (_ & y & -> & _). eauto. }
  refine (trl_obs prog m ar_of pcrel f U trap t e s _ _ _ _ (call_direct_obs fuel x rd xs s Hrd) _ u t' H Hw Hb Ha).
  clear u t' H Hw Hb Ha Hrd. intros u t'. rewrite call_direct_eq. revert u t'. change (trl t e s
    (fref ← ext_target (xt_addr x) (xt_arity x); o ← ins_call fref vs; v ← unwrap o; _ ← def_reg rd v;
     if xt_may_tail x then is_sent ← ins (fun d => IcmpImm Equal d v 7); resume_tail_call rd x is_sent else mret tt)
    (v ← on_api (direct_call fuel (xt_addr x) xs); _ ← fr_set rd v;
        _ ← (if xt_may_tail x && is_sentinel v then v2 ← on_api (resume_tail fuel (wrap 64 (xt_token x))); fr_set rd v2 else mret tt);
        next) (fun _ o _ _ => o = Next)).
  rewrite <- Hx. eapply trl_left; [by apply Grows_ext_target|apply _|apply trl_ext_target|].
  cbn beta. intros fref t1 e1 G1 V1 (-> & i & Hi & Hr). carry G1 V1. rewrite <- Hx in Hn.
  intros u t'. rewrite <- bind_assoc. revert u t'. eapply trl_bind; [apply _..|by eapply trl_published|].
  cbn beta. intros v y t2 e2 s2 G2 V2 Hv. eapply trl_bind; [apply _..|by apply trl_def|].
  cbn beta. intros _ _ t3 e3 s3 G3 V3 _. carry G3 V3. eapply straight_unit. destruct (xt_may_tail x); cbn [andb].
  - emitted ltac:(apply trl_icmp_imm; exact Hv). apply trl_resume. by rewrite law_eq in Hv0.
  - by apply trl_ret with (Q := fun _ _ _ _ => True).
Qed.

(** ** The dispatch through the kernel *)

#[export] Instance Grows_dynamic rd mlocal flocal n args : Grows (X:=X) m ar_of pcrel (j_call_dynamic atom_map pcrel rd mlocal flocal n args).
Proof using Type. unfold j_call_dynamic. apply _. Qed.

Lemma sim_dynamic rd ml fl mg fg n vs xs t e s :
  lookupz atom_map ml = Some mg -> lookupz atom_map fl = Some fg -> 0 <= n < 256 ->
  Forall2 (has t e) vs xs -> zlen xs = n ->
  straight t e s (j_call_dynamic atom_map pcrel rd ml fl n vs)
    (_ ← upd_api safepoint; v ← on_api (call_ext mg fg xs); _ ← fr_set rd v; next).
Proof using HL.
  intros Hm Hfn Hn Hvs Hlen. unfold j_call_dynamic.
  destruct (h_atom ml mg (api s) Hm) as [Rm _], (h_atom fl fg (api s) Hfn) as [Rf _].
  emitted ltac:(by eapply trl_atom_const). emitted ltac:(by eapply trl_atom_const).
  eapply trl_left; [apply _..|apply trl_spill; eassumption|]. cbn beta. intros p t2 e2 G2 V2 (ad & Hp & Hst). carry G2 V2.
  emitted ltac:(apply trl_iconst). rewrite wrap_small, <- Hlen in Hv1 by lia.
  eapply trl_bind; [apply _..|eapply trl_poll; eassumption|]. cbn beta. intros _ _ t4 e4 s4 G4 V4 K4. carry G4 V4.
  helper_val ltac:(apply h_call_ext; [lia..|by rewrite K4, K1]). by apply straight_def.
Qed.

(** An atom operand, read on both sides. *)
Lemma trl_atom_operand a t e s :
  trl t e s (ok_or (lookupz atom_map a) BadBytecode) (on_api (atom_global a))
    (fun g g' _ e' => g = g' /\ lookupz atom_map a = Some g /\ e' = e).
Proof using HL.
  intros g t' H Hw Hb Ha. destruct (lookupz atom_map a) as [g0|] eqn:Hg; [|discriminate H]. injection H as <- <-.
  destruct (h_atom a g0 (api s) Hg) as [_ He]. unfold on_api. rewrite He. exists e. destruct s. split_and!; try done. by intros r.
Qed.

#[local] Instance Grows_chosen gm gf rd ml fl n args :
  Grows (X:=X) m ar_of pcrel (match bound gm gf with
    | Some x => if bool_decide (xt_arity x = n /\ n <= 16) then j_call_direct pcrel rd x n args
                else j_call_dynamic atom_map pcrel rd ml fl n args
    | None => j_call_dynamic atom_map pcrel rd ml fl n args
    end).
Proof using Har.
  destruct (bound gm gf) as [x|] eqn:Hx; [|apply _]. case_bool_decide as Hn; [|apply _].
  destruct Hn as [<- _]. apply Grows_direct. by eapply Har.
Qed.

#[export] Instance Grows_call_ext : Grows (X:=X) m ar_of pcrel (j_call_ext resolver atom_map pcrel f).
Proof using Har Hres.
  unfold j_call_ext. apply _.
Qed.

Lemma sim_call_ext fuel t e s : straight t e s (j_call_ext resolver atom_map pcrel f) (n_call_ext resume_tail bound fuel).
Proof using HL CW Hsmall Har Hres.
  unfold j_call_ext, n_call_ext. do 4 operand.
  eapply trl_bind; [apply _..|apply trl_get_args; lia|]. cbn beta. intros vs xs t4 e4 s4 G4 V4 (Hvs & Hn & K4).
  eapply trl_bind; [apply _..|apply trl_atom_operand|]. cbn beta. intros mg ? t5 e5 s5 G5 V5 (<- & Hm & ->). carry G5 V5.
  eapply trl_bind; [apply _..|apply trl_atom_operand|]. cbn beta. intros fg ? t6 e6 s6 G6 V6 (<- & Hfn & ->). carry G6 V6.
  apply trl_ask. intros t7 G7. assert (V7 : same_vals t6 e4 e4) by done. carry G7 V7.
  destruct (bound mg fg) as [x|] eqn:Hx; [case_bool_decide as Hd|].
  - destruct Hd as [<- _]. apply sim_direct; [by eapply Har|done..].
  - eapply trl_ext; [apply bind_assoc|]. by apply sim_dynamic.
  - eapply trl_ext; [apply bind_assoc|]. by apply sim_dynamic.
Qed.
End ext_call.
