(* ===== verification/JitTotal.v ===== *)
(** * JitTotal: verified code is translated

    On a verified function every arm of the compiler succeeds, ends at the next instruction and
    ends its block exactly when the instruction transfers control. *)

From S2P Require Import Prelude Term TermImm Bytecode BytecodeAnalysis Verify VerifySound Interp Clif Jit JitLogic JitScan JitSim JitRef JitArms JitControl JitExtCall.

(** A helper with a result. *)
Class Returns (h : Helper.t) : Prop := returns : helper_has_ret (Helper.idx h) = true.
#[export] Hint Extern 0 (Returns _) => reflexivity : typeclass_instances.

Section total.
Context {X : Type} (resolver : Z -> Z -> M X Empty_set (option ExtTarget)).
Context (m : Module_) (ar_of : Z -> Z) (atom_map : list Z) (pcrel : bool) (f : Function) (code_ptr : Z) (B : gmap Z Z).
Abbreviation TM := (M (Tx X) JitError).
Abbreviation wf := (wfT (X:=X) m ar_of pcrel).
Abbreviation Grows := (Grows (X:=X) m ar_of pcrel).
Implicit Types t : Tx X.

Record ready t : Prop := { ready_wf : wf t; ready_regs : tx_regs t = seqZ 0 (nregs f); ready_blocks : tx_blocks t = B }.

Lemma ready_grow t t' : ready t -> keeps m ar_of pcrel t t' -> ready t'.
Proof using Type. intros [] [? []]. split; congruence. Qed.

(** ** Steps that succeed *)

Class Succ {A} (c : TM A) : Prop := succ t : ready t -> exists a t', c t = (Ok a, t').

Class InRange (r : Z) : Prop := in_range : 0 <= r < nregs f.
Class HasAtom (a : Z) : Prop := has_atom : is_Some (lookupz atom_map a).
Class HasBlock (p : Z) : Prop := has_block : is_Some (B !! p).

#[local] Instance Succ_ret {A} (a : A) : Succ (mret a).
Proof using Type. intros t _. by exists a, t. Qed.
#[local] Instance Succ_bind {A C} (c : TM A) (k : A -> TM C) : Succ c -> Grows c -> (forall a, Succ (k a)) -> Succ (c ≫= k).
Proof using Type.
  intros Hc Gc Hk t Hr. destruct (Hc t Hr) as (a & t1 & H1). destruct (Hk a t1) as (b & t2 & H2).
  { eapply ready_grow; [done|]. by eapply Gc; [apply Hr|]. }
  exists b, t2. by erewrite bind_eval.
Qed.
#[local] Instance Succ_get : Succ get.
Proof using Type. intros t _. by exists t, t. Qed.
#[local] Instance Succ_ins i : Succ (ins i).
Proof using Type. intros t _. unfold ins. unfold mbind, M_bind. cbn. eexists _, _; reflexivity. Qed.
#[local] Instance Succ_ins0 i : Succ (ins0 i).
Proof using Type. intros t _. unfold ins0. unfold mbind, M_bind. cbn. eexists _, _; reflexivity. Qed.
#[local] Instance Succ_create_slot n : Succ (create_slot n).
Proof using Type. intros t _. unfold create_slot. unfold mbind, M_bind. cbn. eexists _, _; reflexivity. Qed.
#[local] Instance Succ_iconst k : Succ (iconst k).
Proof using Type. unfold iconst. apply _. Qed.
#[local] Instance Succ_if {A} (b : bool) (c c' : TM A) : Succ c -> Succ c' -> Succ (if b then c else c').
Proof using Type. by destruct b. Qed.

Lemma reg_exists t r : ready t -> InRange r -> is_Some (lookupz (tx_regs t) r).
Proof using Type.
  intros [_ -> _] Hr. unfold InRange in Hr. apply lookupz_is_Some. unfold zlen. rewrite length_seqZ. lia.
Qed.
#[local] Instance Succ_use_reg r : InRange r -> Succ (use_reg r).
Proof using Type.
  intros Hr t Ht. destruct (reg_exists t r Ht Hr) as [x Hx]. unfold use_reg. unfold mbind, M_bind. cbn. rewrite Hx. by apply Succ_ins.
Qed.
#[local] Instance Succ_def_reg r v : InRange r -> Succ (def_reg r v).
Proof using Type.
  intros Hr t Ht. destruct (reg_exists t r Ht Hr) as [x Hx]. unfold def_reg. unfold mbind, M_bind. cbn. rewrite Hx. by apply Succ_ins0.
Qed.
#[local] Instance Succ_retag v : Succ (retag_int v).
Proof using Type. unfold retag_int. apply _. Qed.
(** A check that branches to the trap block. *)
#[local] Instance Succ_check {A} ok (k : TM A) :
  Succ k -> Succ (cont ← create_block; t ← get; _ ← ins0 (Brif ok cont (tx_trap t)); _ ← switch_to_block cont; k) | 0.
Proof using Type.
  intros Hk t Hr. destruct (Hk (upd_b (set_cur (ir_blocks (tx_b t))) (upd_b (push_inst (Brif ok (ir_blocks (tx_b t)) (tx_trap t))) (upd_b new_block t)))) as (a & t' & H).
  { eapply ready_grow; [exact Hr|]. by apply (Grows_trap_branch m ar_of pcrel ok (mret tt) _ t tt _ (ready_wf _ Hr)). }
  exists a, t'. exact H.
Qed.

#[local] Instance Succ_expect v : Succ (expect_int v).
Proof using Type. unfold expect_int. apply _. Qed.
#[local] Instance Succ_spill_from ss vs i : Succ (spill_from ss i vs).
Proof using Type. revert i. induction vs; intros i; cbn [spill_from]; apply _. Qed.
#[local] Instance Succ_spill vs : Succ (spill vs).
Proof using Type. unfold spill. apply _. Qed.
#[local] Instance Succ_atom a : HasAtom a -> Succ (atom_const atom_map a).
Proof using Type. intros [g Hg] t Ht. unfold atom_const. rewrite Hg. exact (Succ_iconst _ t Ht). Qed.
#[local] Instance Succ_block p : HasBlock p -> Succ (block_at p).
Proof using Type. intros [b Hb] t [_ _ Ht]. unfold block_at. unfold mbind, M_bind. cbn. rewrite Ht, Hb. by exists b, t. Qed.

(** A helper is imported with its signature. *)
Lemma helper_ok h t : ready t -> exists r t', helper pcrel h t = (Ok r, t') /\ lookupz (ir_funcs (tx_b t')) r = Some (hlp_import pcrel (Helper.idx h)).
Proof using Type.
  intros [Hw _ _]. unfold helper. unfold mbind, M_bind. cbn. destruct (tx_helpers t !! _) as [r|] eqn:Hr.
  - exists r, t. split; [done|]. by apply (wf_helpers _ _ _ _ Hw).
  - eexists _, _. split; [reflexivity|]. apply lookupz_app_r.
Qed.
Lemma call_helper_ok h args t : ready t -> exists o t', call_helper pcrel h args t = (Ok o, t') /\ bool_decide (is_Some o) = helper_has_ret (Helper.idx h).
Proof using Type.
  intros Hr. destruct (helper_ok h t Hr) as (r & t1 & H1 & Hx). unfold call_helper. erewrite bind_eval by exact H1.
  unfold ins_call. unfold mbind, M_bind. cbn. rewrite Hx. cbn. destruct (helper_has_ret _); eexists _, _; (split; [reflexivity|done]).
Qed.
#[local] Instance Succ_call_val h args : Returns h -> Succ (call_val pcrel h args).
Proof using Type.
  intros Hh t Hr. destruct (call_helper_ok h args t Hr) as (o & t' & H & Ho). unfold call_val. erewrite bind_eval by exact H.
  rewrite Hh in Ho. apply bool_decide_eq_true in Ho as [v ->]. by exists v, t'.
Qed.
#[local] Instance Succ_call_unit h args : Succ (call_unit pcrel h args).
Proof using Type.
  intros t Hr. destruct (call_helper_ok h args t Hr) as (o & t' & H & Ho). unfold call_unit. erewrite bind_eval by exact H. by exists tt, t'.
Qed.
#[local] Instance Succ_poll off : Succ (poll_if_back pcrel off).
Proof using Type. unfold poll_if_back. apply _. Qed.

(** ** Steps with the decoder's position *)

Record at_ (p : Z) (fl : bool) t : Prop := { at_ready : ready t; at_pc : tx_pc t = p; at_flag : tx_filled t = fl }.

(** From an open block at [p], [c] succeeds and leads to [p']; [ends] tells whether it closes the block. *)
Definition steps {A} (c : TM A) (p p' : Z) (ends : bool) (P : A -> Prop) : Prop :=
  forall t, at_ p false t -> exists a t', c t = (Ok a, t') /\ P a /\ at_ p' ends t'.

Lemma st_bind {A C} (c : TM A) (k : A -> TM C) p x p' ends P Q :
  steps c p x false P -> (forall a, P a -> steps (k a) x p' ends Q) -> steps (a ← c; k a) p p' ends Q.
Proof using Type.
  intros Hc Hk t Ht. destruct (Hc t Ht) as (a & t1 & H1 & Pa & A1). destruct (Hk a Pa t1 A1) as (b & t2 & H2 & Pb & A2).
  exists b, t2. by erewrite bind_eval.
Qed.

Lemma st_still {A} (c : TM A) p : Still c -> Grows c -> Succ c -> steps c p p false (fun _ => True).
Proof using Type.
  intros Sc Gc Uc t [Hr Hp Hf]. destruct (Uc t Hr) as (a & t' & H). exists a, t'. split; [done|]. split; [done|].
  destruct (Sc _ _ _ H) as [S1 S2]. split; [|congruence..]. eapply ready_grow; [done|]. by eapply Gc; [apply Hr|].
Qed.

Lemma st_quiet {A} (c : TM A) p (P : A -> Prop) :
  (forall t, at_ p false t -> exists a, c t = (Ok a, t) /\ P a) -> steps c p p false P.
Proof using Type. intros Hc t Ht. destruct (Hc t Ht) as (a & H & Pa). by exists a, t. Qed.

Lemma st_ret p e : e = p -> steps (mret tt) p e false (fun _ => True).
Proof using Type. intros ->. apply st_quiet. intros t _. by exists tt. Qed.

Lemma st_fill p : steps fill p p true (fun _ => True).
Proof using Type.
  intros t [Hr Hp Hf]. eexists _, _. split; [reflexivity|]. split; [done|]. split; [|done..].
  eapply ready_grow; [done|]. by eapply Grows_fill; [apply Hr|].
Qed.

Lemma st_dec {A} (d : M Z JitError A) p e : goes d p e -> steps (on_dec d) p e false (fun v => d p = (Ok v, e)).
Proof using Type.
  intros [v Hv] t [Hr Hp Hf]. exists v, (set_pos e t). unfold on_dec. rewrite Hp, Hv. split; [done|]. split; [done|].
  split; [|done..]. destruct Hr. split; [by apply wf_set_pos|done..].
Qed.

Lemma st_reg p : reg_at f p -> steps (on_dec (dec_u8 (code f))) p (p + 1) false InRange.
Proof using Type.
  intros (b & Hb & Hn) t Ht. pose proof (lookupz_range _ _ _ Hb) as H.
  destruct (st_dec (dec_u8 (code f)) p (p + 1) (goes_u8 f p (p + 1) H eq_refl) t Ht) as (v & t' & H1 & H2 & H3). exists v, t'.
  split; [done|]. split; [|done]. rewrite (dec_u8_at _ _ _ _ _ Hb H2). pose proof (b2z_range b). unfold InRange. lia.
Qed.

Lemma st_regs n : forall p, (forall j, p <= j < p + Z.of_nat n -> reg_at f j) ->
  steps (collect n (r ← on_dec (dec_u8 (code f)); use_reg r)) p (p + Z.of_nat n) false (fun _ => True).
Proof using Type.
  induction n as [|n IH]; intros p Hj; cbn [collect].
  { rewrite Z.add_0_r. apply st_still; apply _. }
  eapply st_bind; [eapply st_bind; [apply st_reg, Hj; lia|]|].
  { intros r Hr. apply st_still; apply _. }
  intros v _. eapply st_bind; [apply IH; intros j ?; apply Hj; lia|]. intros vs _. cbn beta.
  replace (p + 1 + Z.of_nat n) with (p + Z.of_nat (S n)) by lia. apply st_still; apply _.
Qed.

Lemma st_args p b e :
  lookupz (code f) p = Some b -> e = p + 1 + b2z b -> (forall j, p + 1 <= j < e -> reg_at f j) ->
  forall A (k : Z -> list Z -> TM A) p' ends Q, (forall vs, steps (k (b2z b) vs) e p' ends Q) ->
  steps (n ← on_dec (dec_u8 (code f)); vs ← use_args f n; k n vs) p p' ends Q.
Proof using Type.
  intros Hb -> Hj A k p' ends Q Hk. pose proof (lookupz_range _ _ _ Hb). pose proof (b2z_range b).
  eapply st_bind; [apply st_dec, goes_u8; [lia|reflexivity]|]. intros n Hn. rewrite (dec_u8_at _ _ _ _ _ Hb Hn).
  eapply st_bind with (P := fun _ => True); [|intros; apply Hk]. unfold use_args.
  replace (p + 1 + b2z b) with (p + 1 + Z.of_nat (Z.to_nat (b2z b))) by lia. apply st_regs. intros j ?. apply Hj. lia.
Qed.

(** ** Calls *)

Lemma st_import {A} (c : TM Z) args (k : Z -> TM A) p p' ends Q :
  Still c -> Grows c ->
  (forall t, ready t -> exists r t' x, c t = (Ok r, t') /\ lookupz (ir_funcs (tx_b t')) r = Some x /\ has_ret x = true) ->
  (forall v, steps (k v) p p' ends Q) ->
  steps (fref ← c; o ← ins_call fref args; v ← unwrap o; k v) p p' ends Q.
Proof using Type.
  intros Sc Gc Hc Hk t [Hr Hp Hf]. destruct (Hc t Hr) as (r & t1 & x & H1 & Hx & Hret).
  destruct (Sc _ _ _ H1) as [P1 F1]. assert (R1 : ready t1) by (eapply ready_grow; [done|]; by eapply Gc; [apply Hr|]).
  set (t2 := upd_b (fun F => new_val (push_inst (Call (Some (ir_vals (tx_b t1))) r args) F)) t1).
  assert (H2 : ins_call r args t1 = (Ok (Some (ir_vals (tx_b t1))), t2)).
  { unfold ins_call. unfold mbind, M_bind. cbn. rewrite Hx. cbn. by rewrite Hret. }
  destruct (Still_ins_call _ _ _ _ _ H2) as [P2 F2].
  assert (R2 : ready t2) by (eapply ready_grow; [done|]; by eapply Grows_ins_call; [apply R1|]).
  destruct (Hk (ir_vals (tx_b t1)) t2) as (a & t3 & H3 & H4); [split; [done|congruence..]|].
  exists a, t3. split; [|done]. erewrite bind_eval by exact H1. by erewrite bind_eval by exact H2.
Qed.

#[local] Instance Still_sibling i : Still (X:=X) (sibling m i).
Proof using Type. unfold sibling. apply _. Qed.
#[local] Instance Still_ext_target addr ar : Still (X:=X) (ext_target addr ar).
Proof using Type. unfold ext_target. apply _. Qed.
#[local] Instance Still_ask gm gf : Still (ask_resolver resolver gm gf).
Proof using Type. intros t a t'. unfold ask_resolver. destruct (resolver gm gf _) as [[o|[]| |] x]; intros [=]; by subst. Qed.

Lemma sibling_ok i g t : lookupz (functions m) i = Some g -> ready t ->
  exists r t' x, sibling m i t = (Ok r, t') /\ lookupz (ir_funcs (tx_b t')) r = Some x /\ has_ret x = true.
Proof using Type.
  intros Hg [Hw _ _]. unfold sibling. unfold mbind, M_bind. cbn. destruct (tx_siblings t !! i) as [r|] eqn:Hr.
  - destruct (wf_siblings _ _ _ _ Hw _ _ Hr) as (g' & _ & Hx). exists r, t, (fn_import 1 i (arity g')). done.
  - rewrite Hg. eexists _, _, _. split; [reflexivity|]. split; [apply lookupz_app_r|done].
Qed.

(** Imports of published code have a result. *)
Lemma ext_target_ok addr ar t : ready t ->
  exists r t' x, ext_target addr ar t = (Ok r, t') /\ lookupz (ir_funcs (tx_b t')) r = Some x /\ has_ret x = true.
Proof using Type.
  intros [Hw _ _]. unfold ext_target. unfold mbind, M_bind. cbn. destruct (tx_ext_funcs t !! addr) as [r|] eqn:Hr.
  - destruct (wf_ext _ _ _ _ Hw _ _ Hr) as (i & Hx & _). exists r, t. by eexists.
  - eexists _, _, _. split; [reflexivity|]. split; [apply lookupz_app_r|done].
Qed.

Lemma st_pairs n : forall p, (forall j, p <= j < p + 2 * Z.of_nat n -> reg_at f j) ->
  steps (collect n (rk ← on_dec (dec_u8 (code f)); rv ← on_dec (dec_u8 (code f)); k ← use_reg rk; v ← use_reg rv; mret [k; v]))
    p (p + 2 * Z.of_nat n) false (fun _ => True).
Proof using Type.
  induction n as [|n IH]; intros p Hj; cbn [collect].
  { rewrite Z.add_0_r. apply st_still; apply _. }
  eapply st_bind with (P := fun _ => True); [eapply st_bind; [apply st_reg, Hj; lia|]|].
  { intros rk Hk. eapply st_bind; [apply st_reg, Hj; lia|]. intros rv Hv. apply st_still; apply _. }
  intros v _. eapply st_bind; [apply IH; intros j ?; apply Hj; lia|]. intros vs _. cbn beta.
  replace (p + 1 + 1 + 2 * Z.of_nat n) with (p + 2 * Z.of_nat (S n)) by lia. apply st_still; apply _.
Qed.

(** ** The arms *)

Context (bound : Z -> Z -> option ExtTarget).
Context (Hres : forall gm gf x o x', resolver gm gf x = (Ok o, x') -> o = bound gm gf).
Context (Har : forall gm gf x, bound gm gf = Some x -> ar_of (xt_addr x) = xt_arity x).
Context (Htot : forall gm gf x, exists o x', resolver gm gf x = (Ok o, x')).
Context (Hatoms : zlen (atoms m) <= zlen atom_map).

Lemma has_atom_at a v : u32_operand (code f) a = Some v -> v < zlen (atoms m) -> HasAtom v.
Proof using Hatoms. intros H Hv. apply u32_operand_bound in H as [? _]. apply lookupz_is_Some. lia. Qed.

Ltac operand :=
  first [ eapply st_reg; eassumption
        | eapply st_dec, goes_u8; [lia|reflexivity]
        | eapply st_dec, goes_u32; [lia|lia|reflexivity]
        | eapply st_dec, goes_i64; [lia|lia|reflexivity]
        | apply st_still; apply _ ].
Ltac step_on := first
  [ apply st_fill | solve [apply st_still; apply _] | apply st_ret; lia
  | eapply st_args; [eassumption|reflexivity|assumption|intros ?vs]
  | eapply st_bind; [operand|intros ?a ?Ha; cbn beta in *] ].
(** The operands of an instruction as facts on offsets. *)
Ltac offsets H :=
  cbn [items_ok item_ok] in H;
  repeat match goal with
    | H : exists _, _ |- _ => destruct H
    | H : _ /\ _ |- _ => destruct H
    | H : is_Some _ |- _ => destruct H
    end; subst;
  repeat match goal with
    | H : reg_at f ?a |- _ => match goal with _ : 0 <= a < zlen (code f) |- _ => fail 1 | _ => pose proof (reg_at_range _ _ H) end
    | H : u32_operand (code f) ?a = Some _ |- _ =>
        match goal with _ : a + 4 <= zlen (code f) |- _ => fail 1 | _ => destruct (u32_operand_bound _ _ _ H) end
    | H : lookupz (code f) ?a = Some ?b |- _ =>
        match goal with _ : 0 <= a < zlen (code f) |- _ => fail 1 | _ => pose proof (lookupz_range _ _ _ H); pose proof (b2z_range b) end
    end.

Definition arm_steps (o : Z) (is_ : list item) (p e : Z) : Prop :=
  steps (select_arm o (jit_arms resolver m atom_map pcrel f code_ptr o) (throw BadBytecode)) p e (ends_block o) (fun _ => True).

(** The arms without calls, jumps and pooled bytes. *)
Definition plain (o : Z) : bool :=
  negb (existsb (Z.eqb o) [op.LOAD_ATOM; op.MAP_NEW; op.JMP; op.JMP_IF; op.CALL; op.TAIL_CALL; op.CALL_EXT; op.TAIL_CALL_EXT; op.BIN_NEW]).

Lemma plain_arms o is_ term p e :
  0 <= p <= zlen (code f) -> format o = Some (is_, term) -> items_ok m f is_ p e -> plain o = true -> arm_steps o is_ p e.
Proof using Type.
  intros Hp Hf Hi. pose proof (items_ok_bound m f is_ p e (format_wf _ _ _ Hf) Hi (proj2 Hp)) as He.
  opcodes (fun o => format o = Some (is_, term) -> plain o = true -> arm_steps o is_ p e) o Hf.
  all: unfold format, arm_steps, jit_arms; op_eval; intros [= <- <-] Hpl; try discriminate Hpl; clear Hpl; offsets Hi.
  all: unfold j_nop, j_load_int, j_load_nil, j_move, j_self_pid, j_ticks, j_make_tuple, j_get_elem, j_cons, j_head_tail, j_arith,
    j_cmp_eq, j_cmp_lt, j_ret, j_spawn, j_send, j_recv, j_print, j_exit_atom, j_port_open, j_port_submit, j_port_submit2,
    j_buf_write, j_sleep_ms, j_buf_new, j_buf_read, j_bitop, j_shift, j_bnot, j_map_get, j_map_put, j_bin_unary, j_bin_at,
    j_bin_part, j_is_binary, j_cat; decide_ops.
  all: do 6 try step_on.
Qed.

Lemma st_u32 p v : u32_operand (code f) p = Some v -> 0 <= p -> steps (on_dec (dec_u32 (code f))) p (p + 4) false (fun a => a = v).
Proof using Type.
  intros Hv Hp t Ht. destruct (u32_operand_bound _ _ _ Hv) as [_ Hl].
  destruct (st_dec (dec_u32 (code f)) p (p + 4) (goes_u32 f p (p + 4) Hp Hl eq_refl) t Ht) as (w & t' & H1 & H2 & H3). exists w, t'.
  split; [done|]. split; [|done]. exact (dec_u32_at _ _ _ _ _ Hv H2).
Qed.
Lemma st_i32 p v : u32_operand (code f) p = Some v -> 0 <= p -> steps (on_dec (dec_i32 (code f))) p (p + 4) false (fun a => a = swrap 32 v).
Proof using Type.
  intros Hv Hp t Ht. destruct (u32_operand_bound _ _ _ Hv) as [_ Hl].
  destruct (st_dec (dec_i32 (code f)) p (p + 4) (goes_i32 f p (p + 4) Hp Hl eq_refl) t Ht) as (w & t' & H1 & H2 & H3). exists w, t'.
  split; [done|]. split; [|done]. exact (dec_i32_at _ _ _ _ _ Hv H2).
Qed.

Ltac word := eapply st_bind; [eapply st_u32; [eassumption|lia]|intros ? ->].
Ltac atom_operands := repeat match goal with
  | H : u32_operand (code f) ?a = Some ?v |- _ => lazymatch goal with _ : HasAtom v |- _ => fail | _ => assert (HasAtom v) by (apply (has_atom_at a v H); lia) end
  end.
Ltac still := eapply st_bind; [apply st_still; apply _|intros ? _].

Lemma load_atom_steps p e : items_ok m f [IReg; IAtom] p e -> steps (j_load_atom atom_map f) p e false (fun _ => True).
Proof using Hatoms.
  intros Hi. unfold j_load_atom. offsets Hi. step_on. word.
  atom_operands. apply st_still; apply _.
Qed.

Lemma map_new_steps p e : items_ok m f [IReg; IPairs] p e -> steps (j_map_new pcrel f) p e false (fun _ => True).
Proof using Type.
  intros Hi. unfold j_map_new. offsets Hi. step_on.
  eapply st_bind; [eapply st_dec, goes_u8; [lia|reflexivity]|]. cbn beta. intros n Hn.
  rewrite (JitScan.dec_u8_at _ _ _ _ _ ltac:(eassumption) Hn). eapply st_bind; [eapply st_pairs|].
  { intros j Hj. match goal with H : forall j, _ -> reg_at f j |- _ => apply H end. lia. }
  intros vs _. cbn beta. rewrite Z2Nat.id by lia. apply st_still; apply _.
Qed.

Lemma tail_call_steps p e : items_ok m f [ICall] p e -> 0 <= p -> steps (j_tail_call pcrel f) p e true (fun _ => True).
Proof using Type.
  intros Hi Hp. unfold j_tail_call. offsets Hi. word. 
  match goal with H : lookupz _ _ = Some ?b |- _ => eapply st_args with (e := p + 5 + b2z b); [exact H|lia| |intros vs] end.
  { intros j Hj. match goal with H : forall j, _ -> reg_at f j |- _ => apply H end. lia. }
  repeat still. apply st_fill.
Qed.

Lemma tail_call_ext_steps p e : items_ok m f [IAtom; IAtom; IRegs] p e -> 0 <= p -> steps (j_tail_call_ext atom_map pcrel f) p e true (fun _ => True).
Proof using Hatoms.
  intros Hi Hp. unfold j_tail_call_ext. offsets Hi. do 2 word. eapply st_args; [eassumption|reflexivity|assumption|intros vs].
  atom_operands.
  repeat still. apply st_fill.
Qed.

Lemma bin_new_steps p e : items_ok m f [IReg; IBytes] p e -> 0 <= p -> steps (j_bin_new pcrel f code_ptr) p e false (fun _ => True).
Proof using Type.
  intros Hi Hp. unfold j_bin_new. destruct Hi as (q & [Hq ->] & q' & (v & Hv & -> & He) & ->).
  set (e := p + 1 + 4 + v) in *. pose proof (reg_at_range _ _ Hq). step_on. word.
  eapply st_bind; [apply st_quiet with (P := fun t => tx_pc t = p + 1 + 4); intros t []; by exists t|]. cbn beta. intros t Ht.
  eapply st_bind; [apply st_quiet with (P := fun _ => True); intros t' _; exists tt; by rewrite bool_decide_false by lia|].
  intros ? _. eapply st_bind with (P := fun _ => True) (x := e).
  { intros t' [Hr _ Hfl]. eexists _, _. split; [reflexivity|]. split; [done|]. rewrite Ht. split; [|done..]. destruct Hr. by split; [apply wf_set_pos|..]. }
  intros ? _. apply st_still; apply _.
Qed.

Lemma st_target p off : steps (jump_target off) p p false (fun q => q = wrap 64 (p + off)).
Proof using Type. apply st_quiet. intros t [_ Hp _]. exists (wrap 64 (p + off)). unfold jump_target, mbind, M_bind. cbn. by rewrite Hp. Qed.

Lemma jmp_steps p e :
  items_ok m f [IJump] p e -> 0 <= p -> (forall q, jumps m f [IJump] p q -> 0 <= q < 2 ^ 64 /\ is_Some (B !! q)) ->
  steps (j_jmp pcrel f) p e true (fun _ => True).
Proof using Type.
  intros (q & [[v Hv] ->] & ->) Hp Hj. unfold j_jmp.
  destruct (Hj (p + 4 + swrap 32 v)) as [Hr Hblk]. { exists (p + 4). split; [by eauto|]. left. eauto. }
  eapply st_bind; [by apply (st_i32 p v)|]. intros ? ->. eapply st_bind; [apply st_target|]. intros ? ->.
  rewrite wrap_small by lia. assert (HasBlock (p + 4 + swrap 32 v)) by done. repeat still. apply st_fill.
Qed.

Lemma jmp_if_steps p e :
  items_ok m f [IReg; IJump] p e -> 0 <= p -> (forall q, jumps m f [IReg; IJump] p q -> 0 <= q < 2 ^ 64 /\ is_Some (B !! q)) ->
  is_Some (B !! e) -> steps (j_jmp_if pcrel f) p e true (fun _ => True).
Proof using Type.
  intros (q & [Hq ->] & q' & [[v Hv] ->] & ->) Hp Hj Hfall. unfold j_jmp_if.
  destruct (Hj (p + 1 + 4 + swrap 32 v)) as [Hr Hblk].
  { exists (p + 1). split; [done|]. right. exists (p + 1 + 4). split; [by eauto|]. left. eauto. }
  step_on. eapply st_bind; [apply (st_i32 (p + 1) v); [done|lia]|]. intros ? ->. eapply st_bind; [apply st_target|]. intros ? ->.
  eapply st_bind; [apply st_quiet with (P := fun q => q = p + 1 + 4); intros t []; by eexists|]. intros ? ->.
  rewrite wrap_small by lia. assert (HasBlock (p + 1 + 4 + swrap 32 v)) by done. assert (HasBlock (p + 1 + 4)) by done.
  repeat still. apply st_fill.
Qed.

#[local] Instance Succ_call_tail is_tail rd v : InRange rd -> Succ (call_tail is_tail rd v).
Proof using Type.
  intros Hr t Ht. set (b := ir_blocks (tx_b t)).
  set (t3 := upd_b (set_cur (b + 1)) (upd_b (push_inst (Brif is_tail (b + 1) b)) (upd_b new_block (upd_b new_block t)))).
  set (t4 := upd_b (fun F => new_val (push_inst (Iconst (ir_vals (tx_b t)) 7) F)) t3).
  destruct (Succ_def_reg rd v Hr (upd_b (set_cur b) (upd_b (push_inst (Return_ [ir_vals (tx_b t)])) t4))) as (a & t' & H).
  { destruct Ht as [Hw Hregs Hblk]. split; [|done..]. apply (keeps_switch m ar_of pcrel t); [|cbn; unfold b; lia].
    apply keeps_push, keeps_ins, keeps_switch; [by apply keeps_push, keeps_block, keeps_block, keeps_refl|cbn; unfold b; lia]. }
  exists a, t'. exact H.
Qed.
#[local] Instance Still_call_tail is_tail rd v : Still (X:=X) (call_tail is_tail rd v).
Proof using Type. unfold call_tail. apply _. Qed.

Lemma call_steps p e : items_ok m f [IReg; ICall] p e -> 0 <= p -> steps (j_call m pcrel f) p e false (fun _ => True).
Proof using Type.
  intros Hi Hp. rewrite call_site_eq. unfold call_site. offsets Hi. step_on. word.
  match goal with H : lookupz (code f) _ = Some ?b |- _ => eapply st_args with (e := p + 1 + 5 + b2z b); [exact H|lia| |intros vs] end.
  { intros j Hj. match goal with H : forall j, _ -> reg_at f j |- _ => apply H end. lia. }
  still. eapply st_import; [apply _|apply _|intros t; by eapply sibling_ok|]. intros v. apply st_still; apply _.
Qed.

Lemma st_ask gm gf p : steps (ask_resolver resolver gm gf) p p false (fun o => o = bound gm gf).
Proof using Htot Hres.
  intros t [Hr Hp Hf]. destruct (Htot gm gf (tx_env t)) as (o & x' & Ho). exists o, (set_env x' t). unfold ask_resolver. rewrite Ho.
  split; [done|]. split; [by eapply Hres|]. destruct Hr as [[] ? ?]. by split; [split; [split|..]|..].
Qed.

#[local] Instance Succ_resume rd x is_sent : InRange rd -> Succ (resume_tail_call pcrel rd x is_sent).
Proof using Type.
  intros Hr t Ht. unfold resume_tail_call.
  set (mid := fun b2 => (tok ← iconst (swrap 64 (xt_token x)); v2 ← call_val pcrel Helper.ResumeTail [tok]; _ ← def_reg rd v2; ins0 (Jump b2)) : TM unit).
  assert (Hm : forall b, Succ (mid b)) by apply _.
  set (b := ir_blocks (tx_b t)).
  destruct (Hm (b + 1) (upd_b (set_cur b) (upd_b (push_inst (Brif is_sent b (b + 1))) (upd_b new_block (upd_b new_block t))))) as (a & t' & H).
  { destruct Ht as [Hw Hregs Hblk]. split; [|done..]. apply (keeps_switch m ar_of pcrel t); [by apply keeps_push, keeps_block, keeps_block, keeps_refl|cbn; unfold b; lia]. }
  exists tt, (upd_b (set_cur (b + 1)) t'). 
  trans ((_ ← mid (b + 1); _ ← switch_to_block (b + 1); mret tt)
    (upd_b (set_cur b) (upd_b (push_inst (Brif is_sent b (b + 1))) (upd_b new_block (upd_b new_block t))))); [reflexivity|].
  by erewrite bind_eval by exact H.
Qed.
#[local] Instance Still_resume rd x is_sent : Still (X:=X) (resume_tail_call pcrel rd x is_sent).
Proof using Type. unfold resume_tail_call. apply _. Qed.

Lemma direct_steps rd x args p :
  InRange rd -> ar_of (xt_addr x) = xt_arity x -> steps (j_call_direct pcrel rd x (xt_arity x) args) p p false (fun _ => True).
Proof using Type.
  intros Hrd Hx t Ht. rewrite call_direct_eq. revert t Ht.
  eapply (st_import (ext_target (xt_addr x) (xt_arity x))); [apply _|by apply Grows_ext_target|intros t; by eapply ext_target_ok|].
  intros v. apply st_still; apply _.
Qed.

Lemma dynamic_steps rd ml fl n args p :
  InRange rd -> HasAtom ml -> HasAtom fl -> steps (j_call_dynamic atom_map pcrel rd ml fl n args) p p false (fun _ => True).
Proof using Type. intros. unfold j_call_dynamic. apply st_still; apply _. Qed.

Lemma call_ext_steps p e :
  items_ok m f [IReg; IAtom; IAtom; IRegs] p e -> 0 <= p -> steps (j_call_ext resolver atom_map pcrel f) p e false (fun _ => True).
Proof using Hatoms Har Hres Htot.
  intros Hi Hp. unfold j_call_ext. offsets Hi. step_on. do 2 word. eapply st_args; [eassumption|reflexivity|assumption|intros vs].
  atom_operands.
  do 2 (eapply st_bind; [eapply st_quiet with (P := fun _ => True);
    match goal with H : HasAtom ?v |- forall t, _ -> exists a, ok_or (lookupz atom_map ?v) _ _ = _ /\ _ => destruct H as [? ->] end; intros t _; by eexists|intros ? _]).
  eapply st_bind; [apply st_ask|]. intros ? ->. destruct (bound _ _) as [x|] eqn:Hx; [case_bool_decide as Hd|]; [|by apply dynamic_steps..].
  destruct Hd as [<- _]. apply direct_steps; [done|by eapply Har].
Qed.

(** On verified code every arm succeeds. *)
Lemma arms_step o is_ term p e :
  0 <= p <= zlen (code f) -> format o = Some (is_, term) -> items_ok m f is_ p e ->
  (forall q, jumps m f is_ p q -> 0 <= q < 2 ^ 64 /\ is_Some (B !! q)) -> (o = op.JMP_IF -> is_Some (B !! e)) ->
  arm_steps o is_ p e.
Proof using Hatoms Har Hres Htot.
  intros Hp Hf Hi Hj Hfall. destruct (plain o) eqn:Hpl; [by eapply plain_arms|].
  apply negb_false_iff, existsb_exists in Hpl as (o' & Ho & ->%Z.eqb_eq). apply list_elem_of_In in Ho.
  revert Hf. unfold format, arm_steps, jit_arms.
  repeat (apply elem_of_cons in Ho as [->|Ho]; [op_eval; intros [= <- <-]|]); [..|by apply not_elem_of_nil in Ho].
  - by apply load_atom_steps.
  - by apply map_new_steps.
  - apply jmp_steps; [done|lia|done].
  - apply jmp_if_steps; auto. lia.
  - apply call_steps; [done|lia].
  - apply tail_call_steps; [done|lia].
  - apply call_ext_steps; [done|lia].
  - apply tail_call_ext_steps; [done|lia].
  - apply bin_new_steps; [done|lia].
Qed.
End total.
