(* ===== verification/JitLoop.v ===== *)
(** * JitLoop: the translation of a whole function

    The prologue, the loop over the instructions and the trap block of [translate_fn] on a
    verified function: the loop visits every instruction with an open block, every leader's block
    stays empty until it is entered, and the translation succeeds. *)

From stdpp Require Import sorting.
From S2P Require Import Prelude Term TermImm Bytecode BytecodeAnalysis Verify VerifySound Interp Clif Jit JitLogic JitScan JitSim JitRef JitArms JitControl JitExtCall JitTotal.

(** The function under construction and its list of addresses grow. *)
Definition le {X} (t t' : Tx X) : Prop := ext (tx_b t) (tx_b t') /\ tx_ext_addrs t `prefix_of` tx_ext_addrs t'.

#[export] Instance le_preorder {X} : PreOrder (le (X:=X)).
Proof. split; [by intros t|]. intros t1 t2 t3 [] []. split; by etrans. Qed.

Lemma le_grow {X} (t t' : Tx X) : grow t t' -> le t t'.
Proof. intros []. by split. Qed.

(** ** Every arm grows the translator's state *)

Section arms_grow.
Context {X : Type} (resolver : Z -> Z -> M X Empty_set (option ExtTarget)).
Context (m : Module_) (ar_of : Z -> Z) (atom_map : list Z) (pcrel : bool) (f : Function) (code_ptr : Z).
Context (bound : Z -> Z -> option ExtTarget).
Context (Hres : forall gm gf x o x', resolver gm gf x = (Ok o, x') -> o = bound gm gf).
Context (Har : forall gm gf x, bound gm gf = Some x -> ar_of (xt_addr x) = xt_arity x).

#[export] Instance Grows_throw {A} e : Grows (X:=X) m ar_of pcrel (throw (A:=A) e).
Proof. by intros t a t' _ ?. Qed.

Lemma Grows_select {A} o (arms : list (list Z * M (Tx X) JitError A)) d :
  Forall (fun a => Grows m ar_of pcrel a.2) arms -> Grows m ar_of pcrel d -> Grows m ar_of pcrel (select_arm o arms d).
Proof. intros Ha Hd. induction Ha as [|[pats c] arms Hc _ IH]; cbn [select_arm]; [done|]. by destruct (existsb _ pats). Qed.

Lemma Grows_arms o : Grows m ar_of pcrel (select_arm o (jit_arms resolver m atom_map pcrel f code_ptr o) (throw BadBytecode)).
Proof using Hres Har.
  apply Grows_select; [|apply _]. unfold jit_arms.
  repeat first [apply Forall_nil_2|apply Forall_cons_2]; cbn [snd]; try rewrite call_site_eq; try by eapply Grows_call_ext.
  all: unfold j_nop, j_load_int, j_load_atom, j_load_nil, j_move, j_self_pid, j_ticks, j_make_tuple, j_get_elem, j_cons, j_head_tail,
    j_arith, j_cmp_eq, j_cmp_lt, j_jmp, j_jmp_if, call_site, j_ret, j_spawn, j_send, j_recv, j_print, j_exit_atom, j_port_open, j_port_submit,
    j_port_submit2, j_buf_write, j_sleep_ms, j_buf_new, j_buf_read, j_tail_call_ext, j_tail_call, j_bitop, j_shift, j_bnot,
    j_bin_new, j_map_new, j_map_get, j_map_put, j_bin_unary, j_bin_at, j_bin_part, j_is_binary, j_cat.
  all: apply _.
Qed.

Definition one_instr : M (Tx X) JitError unit :=
  opcode ← on_dec (dec_u8 (code f)); select_arm opcode (jit_arms resolver m atom_map pcrel f code_ptr opcode) (throw BadBytecode).

#[export] Instance Grows_instr : Grows m ar_of pcrel one_instr.
Proof using Hres Har. unfold one_instr. apply Grows_bind; [apply _|]. intros o. apply Grows_arms. Qed.
End arms_grow.

(** ** The prologue *)

Section prologue.
Context {X : Type} (f : Function).
Implicit Types t : Tx X.

Fixpoint reg_defs (nil params i : Z) (rs : list Z) : list inst :=
  match rs with
  | [] => []
  | x :: rs' => DefVar x (if bool_decide (i < params) then i else nil) :: reg_defs nil params (i + 1) rs'
  end.

(** [F'] is [F] with [is_] at the end of its current block. *)
Record pushed (is_ : list inst) (F F' : IrFunc) : Prop := {
  pushed_body b : body F' b = if decide (b = ir_cur F) then body F b ++ is_ else body F b;
  pushed_rest : (ir_vals F', ir_blocks F', ir_cur F', ir_slots F', ir_funcs F') = (ir_vals F, ir_blocks F, ir_cur F, ir_slots F, ir_funcs F);
}.

Lemma define_regs_run nil params rs : forall i t, exists F',
  define_regs nil params i rs t = (Ok tt, upd_b (fun _ => F') t) /\ pushed (reg_defs nil params i rs) (tx_b t) F'.
Proof.
  induction rs as [|x rs IH]; intros i t; cbn [define_regs reg_defs].
  { exists (tx_b t). split; [by destruct t|]. split; [|done]. intros b. rewrite app_nil_r. by case_decide. }
  set (i0 := DefVar x _). destruct (IH (i + 1) (upd_b (push_inst i0) t)) as (F' & H & [P1 P2]).
  exists F'. unfold mbind, M_bind. cbn [ins0 modify]. rewrite H. split; [done|]. split; [|exact P2].
  intros b. rewrite P1. cbn [upd_b tx_b]. rewrite body_push. cbn. case_decide; [|done]. by rewrite <- app_assoc.
Qed.

Definition new_blocks (n : Z) (F : IrFunc) : IrFunc :=
  {| ir_params := ir_params F; ir_vals := ir_vals F; ir_vars := ir_vars F; ir_blocks := ir_blocks F + n; ir_cur := ir_cur F;
     ir_code := ir_code F; ir_slots := ir_slots F; ir_funcs := ir_funcs F |}.

Lemma create_blocks_run ls : forall t, NoDup ls -> exists bs,
  create_blocks ls t = (Ok bs, upd_b (new_blocks (zlen ls)) t) /\
  (forall l, is_Some (bs !! l) <-> l ∈ ls) /\
  (forall l b, bs !! l = Some b -> ir_blocks (tx_b t) <= b < ir_blocks (tx_b t) + zlen ls) /\
  (forall l l' b, bs !! l = Some b -> bs !! l' = Some b -> l = l').
Proof.
  induction ls as [|l ls IH]; intros t Hnd.
  { exists ∅. split_and!; try done; [|intros l; rewrite lookup_empty; split; [by intros []|by intros ?%not_elem_of_nil]].
    cbn [create_blocks]. unfold mret, M_ret, upd_b, new_blocks. do 2 f_equal. destruct t as [[]]. cbn. do 2 f_equal. unfold zlen. cbn. lia. }
  apply NoDup_cons in Hnd as [Hl Hnd]. destruct (IH (upd_b new_block t) Hnd) as (bs & H & Hd & Hr & Hi). cbn in Hr.
  exists (<[l := ir_blocks (tx_b t)]> bs). rewrite zlen_cons. split_and!.
  - cbn [create_blocks]. unfold create_block. unfold mbind, M_bind. cbn [get modify mret M_ret]. rewrite H. unfold mret, M_ret.
    f_equal. unfold upd_b, new_blocks. cbn. do 2 f_equal. lia.
  - intros l'. rewrite elem_of_cons, <- Hd. destruct (decide (l' = l)) as [->|Hne].
    + rewrite lookup_insert_eq. split; [auto|by eauto].
    + rewrite lookup_insert_ne by done. split; [auto|by intros [?|?]].
  - intros l' b [[<- <-]|[_ Hb]]%lookup_insert_Some; [pose proof (zlen_nonneg ls); lia|]. apply Hr in Hb. lia.
  - intros l1 l2 b [[<- <-]|[_ H1]]%lookup_insert_Some [[<- Hb]|[_ H2]]%lookup_insert_Some; subst; try done.
    + apply Hr in H2. lia.
    + apply Hr in H1. lia.
    + by eapply Hi.
Qed.

Record after_prologue (L : gset Z) (x : X) t (b0 : Z) : Prop := {
  ap_pc : tx_pc t = 0;
  ap_filled : tx_filled t = true;
  ap_in : tx_in_block t = false;
  ap_regs : tx_regs t = seqZ 0 (nregs f);
  ap_trap : tx_trap t = 1;
  ap_env : tx_env t = x;
  ap_caches : tx_helpers t = ∅ /\ tx_siblings t = ∅ /\ tx_ext_funcs t = ∅ /\ ir_funcs (tx_b t) = [];
  ap_dom p : is_Some (tx_blocks t !! p) <-> p ∈ L;
  ap_range p b : tx_blocks t !! p = Some b -> 2 <= b < ir_blocks (tx_b t);
  ap_inj p q b : tx_blocks t !! p = Some b -> tx_blocks t !! q = Some b -> p = q;
  ap_zero : tx_blocks t !! 0 = Some b0;
  ap_cur : ir_cur (tx_b t) = 0;
  ap_count : 2 <= ir_blocks (tx_b t);
  ap_entry : body (tx_b t) 0 = Iconst (arity f) (swrap 64 NIL) :: reg_defs (arity f) (arity f) 0 (seqZ 0 (nregs f)) ++ [Jump b0];
  ap_others b : b <> 0 -> body (tx_b t) b = [];
}.

Lemma prologue_run L x : 0 ∈ L -> exists t b0, prologue f L (tx0 f x) = (Ok tt, t) /\ after_prologue L x t b0.
Proof.
  intros H0. unfold prologue.
  set (t1 := upd_b (fun F => new_val (push_inst (Iconst (arity f) (swrap 64 NIL)) F)) (upd_b (new_vars (nregs f)) (tx0 f x))).
  destruct (define_regs_run (arity f) (arity f) (seqZ 0 (nregs f)) 0 t1) as (F2 & H2 & [P2 Q2]). set (t2 := upd_b (fun _ => F2) t1) in *.
  assert (Hnd : NoDup (merge_sort Z.le (elements L))).
  { eapply NoDup_Permutation_proper; [apply merge_sort_Permutation|]. apply NoDup_elements. }
  destruct (create_blocks_run (merge_sort Z.le (elements L)) (upd_b new_block t2) Hnd) as (bs & H3 & Hdom & Hrange & Hinj).
  assert (Hd : forall p, is_Some (bs !! p) <-> p ∈ L).
  { intros p. rewrite Hdom, merge_sort_Permutation. apply elem_of_elements. }
  destruct (proj2 (Hd 0) H0) as [b0 Hb0]. injection Q2 as V2 N2 C2 S2 U2.
  eexists _, b0. split.
  { trans ((_ ← define_regs (arity f) (arity f) 0 (seqZ 0 (nregs f)); trap_block ← create_block;
      blocks ← create_blocks (merge_sort Z.le (elements L)); b0 ← unwrap (blocks !! 0); _ ← ins0 (Jump b0);
      modify (set_frame (seqZ 0 (nregs f)) blocks trap_block)) t1); [reflexivity|].
    erewrite bind_eval by exact H2. trans ((blocks ← create_blocks (merge_sort Z.le (elements L)); b0 ← unwrap (blocks !! 0); _ ← ins0 (Jump b0);
      modify (set_frame (seqZ 0 (nregs f)) blocks (ir_blocks F2))) (upd_b new_block t2)); [reflexivity|].
    erewrite bind_eval by exact H3. rewrite Hb0. reflexivity. }
  assert (HN : ir_blocks F2 = 1) by exact N2. assert (HC : ir_cur F2 = 0) by exact C2.
  assert (Hb : forall b, body F2 b = if decide (b = 0) then Iconst (arity f) (swrap 64 NIL) :: reg_defs (arity f) (arity f) 0 (seqZ 0 (nregs f)) else []).
  { intros b. rewrite P2. cbn. case_decide; subst; [done|]. unfold body. cbn. by rewrite lookup_insert_ne. }
  pose proof (zlen_nonneg (merge_sort Z.le (elements L))) as Hz.
  set (k := zlen (merge_sort Z.le (elements L))) in *.
  assert (HB : forall b, body (push_inst (Jump b0) (new_blocks k (new_block F2))) b = if decide (b = 0) then body F2 b ++ [Jump b0] else body F2 b).
  { intros b. rewrite body_push. cbn. by rewrite HC. }
  split; try done.
  - intros p b Hp. apply Hrange in Hp. cbn in *. lia.
  - cbn. lia.
  - etrans; [apply (HB 0)|]. by rewrite Hb.
  - intros b Hne. etrans; [apply (HB b)|]. by rewrite Hb, !decide_False by done.
Qed.
End prologue.

(** ** The loop *)

Section loop.
Context {X : Type} (resolver : Z -> Z -> M X Empty_set (option ExtTarget)).
Context (m : Module_) (ar_of : Z -> Z) (atom_map : list Z) (pcrel : bool) (f : Function) (code_ptr : Z).
Context (bound : Z -> Z -> option ExtTarget).
Context (Hres : forall gm gf x o x', resolver gm gf x = (Ok o, x') -> o = bound gm gf).
Context (Har : forall gm gf x, bound gm gf = Some x -> ar_of (xt_addr x) = xt_arity x).
Context (Htot : forall gm gf x, exists o x', resolver gm gf x = (Ok o, x')).
Context (Hatoms : zlen (atoms m) <= zlen atom_map).
Context (Hok : fn_ok m f) (Hlen : zlen (code f) < 2 ^ 63).
Abbreviation TM := (M (Tx X) JitError).
Abbreviation wf := (wfT (X:=X) m ar_of pcrel).
Abbreviation instr := (one_instr resolver m atom_map pcrel f code_ptr).
Implicit Types t : Tx X.

(** The blocks of the leaders, as the prologue creates them. *)
Context (B : gmap Z Z).
Record leader_blocks : Prop := {
  lb_dom p : is_Some (B !! p) -> decoded m f p;
  lb_zero : is_Some (B !! 0);
  lb_jump x is_ term e q : decoded m f x -> instr_at m f x is_ term e -> jumps m f is_ (x + 1) q -> is_Some (B !! q);
  lb_next x b is_ term e : decoded m f x -> lookupz (code f) x = Some b -> instr_at m f x is_ term e ->
    ends_block (b2z b) = true -> e <> zlen (code f) -> is_Some (B !! e);
  lb_inj p q b : B !! p = Some b -> B !! q = Some b -> p = q;
}.
Context (HB : leader_blocks).

(** The state at the head of the loop. *)
Record linv t : Prop := {
  li_wf : wf t;
  li_regs : tx_regs t = seqZ 0 (nregs f);
  li_blocks : tx_blocks t = B;
  li_trap : tx_trap t = 1;
  li_pc : rtc (next_instr m f) 0 (tx_pc t);
  li_end : tx_pc t <= zlen (code f);
  li_range p b : B !! p = Some b -> 2 <= b < ir_blocks (tx_b t);
  li_empty p b : B !! p = Some b -> tx_pc t <= p -> body (tx_b t) b = [] /\ ir_cur (tx_b t) <> b;
  li_trap_empty : body (tx_b t) 1 = [] /\ ir_cur (tx_b t) <> 1;
  li_open : tx_filled t = false -> tx_in_block t = true;
  li_closed : tx_filled t = true -> is_Some (B !! tx_pc t) \/ tx_pc t = zlen (code f);
}.

(** Entering the block of an instruction. *)
Record entered t t1 : Prop := {
  en_run : enter_block t = (Ok tt, t1);
  en_le : le t t1;
  en_at : at_ m ar_of pcrel f B (tx_pc t) false t1;
  en_flag : tx_in_block t1 = true;
  en_trap : tx_trap t1 = 1;
  en_size : ir_blocks (tx_b t1) = ir_blocks (tx_b t);
  en_cur p b : B !! p = Some b -> tx_pc t < p -> body (tx_b t1) b = [] /\ ir_cur (tx_b t1) <> b;
  en_trap_empty : body (tx_b t1) 1 = [] /\ ir_cur (tx_b t1) <> 1;
  en_leader b : B !! tx_pc t = Some b -> ir_cur (tx_b t1) = b /\ body (tx_b t1) b = [];
  en_fall b : B !! tx_pc t = Some b -> tx_filled t = false -> le (upd_b (push_inst (Jump b)) t) t1;
  en_same : B !! tx_pc t = None -> t1 = t;
}.

Lemma enter_block_ok t : linv t -> tx_pc t < zlen (code f) -> exists t1, entered t t1.
Proof using HB.
  intros [W R Bl Tr Pc En Ra Em Te Op Cl] Hlt.
  destruct (B !! tx_pc t) as [blk|] eqn:Hblk.
  - set (t0 := if negb (tx_filled t) then upd_b (push_inst (Jump blk)) t else t).
    pose proof (Ra _ _ Hblk) as Hr. destruct (Em _ _ Hblk ltac:(lia)) as [He Hc].
    assert (L0 : le t t0) by (unfold t0; destruct (tx_filled t); [done|split; [apply ext_push|done]]).
    assert (W0 : wf t0) by (unfold t0; destruct (tx_filled t); [done|by apply (keeps_push m ar_of pcrel t), keeps_refl]).
    assert (Hbody : forall b, b <> ir_cur (tx_b t) -> body (tx_b t0) b = body (tx_b t) b).
    { intros b Hb. unfold t0. destruct (tx_filled t); [done|]. cbn. by rewrite body_push, decide_False. }
    exists (set_flags false true (upd_b (set_cur blk) t0)).
    assert (Hn : ir_blocks (tx_b t0) = ir_blocks (tx_b t)) by (unfold t0; by destruct (tx_filled t)).
    split.
    + unfold enter_block. unfold mbind, M_bind. cbn [get]. rewrite Bl, Hblk. unfold t0.
      destruct (tx_filled t) eqn:Hf; cbn [negb]; [by rewrite andb_false_r|]. by rewrite (Op eq_refl).
    + etrans; [exact L0|]. by split; [split|].
    + split; [|unfold t0; by destruct (tx_filled t)|done]. split; [|unfold t0; by destruct (tx_filled t)..].
      destruct W0. split; try done. cbn. lia.
    + done.
    + unfold t0. by destruct (tx_filled t).
    + done.
    + intros p b Hp Hlt'. cbn. assert (b <> blk) by (intros ->; pose proof (lb_inj HB _ _ _ Hp Hblk); lia).
      destruct (Em p b Hp ltac:(lia)) as [E1 E2]. split; [|done]. by etrans; [apply (Hbody b); auto|].
    + cbn. split; [|lia]. etrans; [apply (Hbody 1); destruct Te; auto|apply Te].
    + intros b Hb. simplify_eq. split; [done|]. etrans; [apply Hbody; auto|done].
    + intros b Hb Hf. simplify_eq. unfold t0. rewrite Hf. by split; [split|].
    + by rewrite Hblk.
  - assert (Hf : tx_filled t = false).
    { destruct (tx_filled t); [|done]. destruct (Cl eq_refl) as [[? ?]|?]; [congruence|lia]. }
    exists t. split; try done.
    + unfold enter_block. unfold mbind, M_bind. cbn [get]. by rewrite Bl, Hblk.
    + by apply Op.
    + intros p b Hp Hlt'. apply (Em p b Hp). lia.
    + by rewrite Hblk.
    + by rewrite Hblk.
Qed.

(** One instruction: from the entered block the compiler translates it and reaches the next one. *)
Record round t t1 t2 : Prop := {
  ro_enter : entered t t1;
  ro_run : instr t1 = (Ok tt, t2);
  ro_grow : keeps m ar_of pcrel t1 t2;
  ro_next : linv t2;
  ro_instr : exists b is_ term, lookupz (code f) (tx_pc t) = Some b /\ format (b2z b) = Some (is_, term) /\
    items_ok m f is_ (tx_pc t + 1) (tx_pc t2) /\ tx_filled t2 = ends_block (b2z b) /\ (tx_filled t2 = false -> decoded m f (tx_pc t2));
}.

Lemma jumps_range x is_ term e q : decoded m f x -> instr_at m f x is_ term e -> jumps m f is_ (x + 1) q -> 0 <= q < 2 ^ 64 /\ is_Some (B !! q).
Proof using HB Hok Hlen.
  intros Hx Hin Hq. pose proof (lb_jump HB _ _ _ _ _ Hx Hin Hq) as Hb. split; [|done].
  apply (lb_dom HB), (decoded_pos m f Hok) in Hb. lia.
Qed.

Lemma instr_steps x b is_ term e :
  decoded m f x -> lookupz (code f) x = Some b -> instr_at m f x is_ term e ->
  steps m ar_of pcrel f B instr x e (ends_block (b2z b)) (fun _ => True).
Proof using HB Hok Hlen Hatoms Har Hres Htot.
  intros Hx Hb Hin. pose proof (decoded_pos m f Hok _ Hx) as Hr. pose proof Hin as (b' & Hb' & Hf & Hi). simplify_eq.
  unfold one_instr. eapply st_bind; [apply st_dec, goes_u8; [done|reflexivity]|]. cbn beta. intros o Ho.
  rewrite (JitScan.dec_u8_at _ _ _ _ _ Hb Ho). eapply arms_step; [eauto..|lia|done|done| |].
  - intros q. by apply (jumps_range x is_ term e).
  - intros Hjif. destruct (fn_instr _ _ Hok x Hx) as (is' & term' & e' & Hin' & Hfall & _).
    destruct (instr_at_det _ _ _ _ _ _ _ _ _ Hin Hin') as (<- & <- & <-).
    rewrite Hjif in Hf. assert (term = false) as Ht by (revert Hf; unfold format; op_eval; by intros [= _ <-]).
    apply (lb_next HB x b is_ term e); [done..|by rewrite Hjif|]. destruct (Hfall Ht). lia.
Qed.

Lemma jit_round_ok t : linv t -> tx_pc t < zlen (code f) -> exists t1 t2, round t t1 t2.
Proof using HB Hok Hlen Hatoms Har Hres Htot.
  intros Hi Hlt. destruct (enter_block_ok t Hi Hlt) as [t1 He]. assert (Hd : decoded m f (tx_pc t)) by (split; [apply Hi|done]).
  destruct (fn_instr _ _ Hok _ Hd) as (is_ & term & e & Hin & Hfall & _). pose proof Hin as (b & Hb & Hf & Hit).
  pose proof (instr_at_end _ _ _ _ _ _ Hin) as Hend.
  destruct (instr_steps _ b is_ term e Hd Hb Hin t1 (en_at _ _ He)) as ([] & t2 & H2 & _ & [[W2 R2 B2] P2 F2]).
  pose proof (Grows_instr resolver m ar_of atom_map pcrel f code_ptr bound Hres Har t1 tt t2 (ready_wf _ _ _ _ _ _ (at_ready _ _ _ _ _ _ _ _ (en_at _ _ He))) H2) as [_ G2].
  assert (Hcl : tx_filled t2 = true -> is_Some (B !! tx_pc t2) \/ tx_pc t2 = zlen (code f)).
  { rewrite F2, P2. intros Hen. destruct (decide (e = zlen (code f))) as [|Hne]; [by right|left]. by eapply (lb_next HB). }
  assert (Hop : tx_filled t2 = false -> decoded m f (tx_pc t2)).
  { rewrite F2, P2. intros Hop. apply Hfall. destruct term; [|done]. by rewrite (format_ends _ _ _ Hf eq_refl) in Hop. }
  exists t1, t2. split; [done|done|by split| |].
  - destruct G2 as [E2 A2 R2' B2' T2 I2 L2 C2]. destruct He. pose proof (ext_blocks _ _ E2) as Hsz.
    assert (Hkeep : forall b0, b0 < ir_blocks (tx_b t) -> body (tx_b t1) b0 = [] /\ ir_cur (tx_b t1) <> b0 ->
      body (tx_b t2) b0 = [] /\ ir_cur (tx_b t2) <> b0).
    { intros b0 Hb0 [? ?]. rewrite L2 by (first [lia|done]). split; [done|]. destruct C2; lia. }
    split; try done.
    + congruence.
    + rewrite P2. eapply rtc_r; [apply Hi|]. by exists is_, term.
    + lia.
    + intros p b0 Hp. pose proof (li_range _ Hi _ _ Hp). lia.
    + intros p b0 Hp Hle. rewrite P2 in Hle. apply Hkeep; [apply (li_range _ Hi) in Hp; lia|]. apply (en_cur0 p); [done|lia].
    + apply Hkeep; [|done]. destruct (lb_zero HB) as [b1 H1]. apply (li_range _ Hi) in H1. lia.
    + congruence.
  - exists b, is_, term. rewrite P2 in *. by split_and!.
Qed.

(** [translate_loop] on such states. *)
Abbreviation loop := (translate_loop resolver m atom_map pcrel f code_ptr).

Lemma loop_round fuel t t1 t2 : round t t1 t2 -> tx_pc t < zlen (code f) -> loop (S fuel) t = loop fuel t2.
Proof using Type.
  intros [He Hrun _ _ _] Hlt. cbn [translate_loop]. unfold mbind at 1, M_bind at 1. cbn [get]. rewrite bool_decide_true by done.
  erewrite bind_eval by exact (en_run _ _ He). unfold mbind at 1, M_bind at 1. cbn [get].
  rewrite (at_flag _ _ _ _ _ _ _ _ (en_at _ _ He)). erewrite bind_eval by exact Hrun. done.
Qed.

Lemma loop_end fuel t : tx_pc t = zlen (code f) -> loop (S fuel) t = (Ok tt, t).
Proof using Type. intros Hp. cbn [translate_loop]. unfold mbind, M_bind. cbn [get]. by rewrite bool_decide_false by lia. Qed.

Lemma round_forward t t1 t2 : round t t1 t2 -> tx_pc t < tx_pc t2.
Proof using Type.
  intros [_ _ _ _ (b & is_ & term & Hb & Hf & Hi & _)]. apply (instr_at_end m f (tx_pc t) is_ term). by exists b.
Qed.

Lemma round_le t t1 t2 : round t t1 t2 -> le t t2.
Proof using Type. intros [He _ [_ G] _ _]. etrans; [apply (en_le _ _ He)|by apply le_grow]. Qed.

Lemma loop_total fuel : forall t, linv t -> zlen (code f) - tx_pc t < Z.of_nat fuel ->
  exists tF, loop fuel t = (Ok tt, tF) /\ linv tF /\ tx_pc tF = zlen (code f).
Proof using HB Hok Hlen Hatoms Har Hres Htot.
  induction fuel as [|fuel IH]; intros t Hi Hfu; [pose proof (li_end _ Hi); lia|].
  destruct (decide (tx_pc t < zlen (code f))) as [Hlt|Hge].
  - destruct (jit_round_ok t Hi Hlt) as (t1 & t2 & Hr). rewrite (loop_round fuel _ _ _ Hr Hlt). apply IH; [apply Hr|].
    apply round_forward in Hr. lia.
  - pose proof (li_end _ Hi). exists t. split_and!; [apply loop_end; lia|done|lia].
Qed.

(** The states the loop passes on its way to [tF]. *)
Definition visited tF t : Prop := linv t /\ exists fuel, loop fuel t = (Ok tt, tF).

Lemma visited_round tF t : visited tF t -> tx_pc t < zlen (code f) -> exists t1 t2, round t t1 t2 /\ visited tF t2.
Proof using HB Hok Hlen Hatoms Har Hres Htot.
  intros [Hi [[|fuel] Hl]] Hlt; [discriminate Hl|]. destruct (jit_round_ok t Hi Hlt) as (t1 & t2 & Hr). exists t1, t2. split; [done|].
  split; [apply Hr|]. exists fuel. by rewrite <- (loop_round fuel _ _ _ Hr Hlt).
Qed.

Lemma visited_le tF t : visited tF t -> le t tF.
Proof using HB Hok Hlen Hatoms Har Hres Htot.
  intros [Hi [fuel Hl]]. revert t Hi Hl. induction fuel as [|fuel IH]; intros t Hi Hl; [discriminate Hl|].
  destruct (decide (tx_pc t < zlen (code f))) as [Hlt|Hge].
  - destruct (jit_round_ok t Hi Hlt) as (t1 & t2 & Hr). rewrite (loop_round fuel _ _ _ Hr Hlt) in Hl.
    etrans; [by eapply round_le|]. apply IH; [apply Hr|done].
  - pose proof (li_end _ Hi). rewrite loop_end in Hl by lia. injection Hl as <-. done.
Qed.

Lemma visited_all tF t p : visited tF t -> rtc (next_instr m f) (tx_pc t) p -> exists t', visited tF t' /\ tx_pc t' = p.
Proof using HB Hok Hlen Hatoms Har Hres Htot.
  intros Hv Hp. remember (tx_pc t) as a eqn:Ha. revert t Hv Ha.
  induction Hp as [a|a e p (is_ & term & Hin) Hp IH]; intros t Hv ->; [by exists t|].
  pose proof (instr_at_bound _ _ _ _ _ _ Hin) as Hb. destruct (visited_round tF t Hv ltac:(lia)) as (t1 & t2 & Hr & Hv2).
  apply (IH t2 Hv2). destruct (ro_instr _ _ _ Hr) as (b & is' & term' & Hb' & Hf & Hi & _).
  by destruct (instr_at_det m f (tx_pc t) is_ term e is' term' (tx_pc t2) Hin ltac:(by exists b)) as (_ & _ & ->).
Qed.
End loop.

(** ** Whole functions *)

Section whole.
Context {X : Type} (resolver : Z -> Z -> M X Empty_set (option ExtTarget)).
Context (m : Module_) (ar_of : Z -> Z) (atom_map : list Z) (pcrel : bool) (f : Function) (code_ptr : Z).
Context (bound : Z -> Z -> option ExtTarget).
Context (Hres : forall gm gf x o x', resolver gm gf x = (Ok o, x') -> o = bound gm gf).
Context (Har : forall gm gf x, bound gm gf = Some x -> ar_of (xt_addr x) = xt_arity x).
Context (Htot : forall gm gf x, exists o x', resolver gm gf x = (Ok o, x')).
Context (Hatoms : zlen (atoms m) <= zlen atom_map).
Context (Hok : fn_ok m f) (Hlen : zlen (code f) < 2 ^ 63).
Implicit Types t : Tx X.

(** What a translated function consists of. *)
Record translation (U : CodeUnit) (B : gmap Z Z) (tF : Tx X) (b0 : Z) : Prop := {
  tr_blocks : leader_blocks m f B;
  tr_visited p : decoded m f p -> exists t, visited resolver m ar_of atom_map pcrel f code_ptr B tF t /\ tx_pc t = p;
  tr_below : ext (tx_b tF) (u_func U) /\ tx_ext_addrs tF `prefix_of` u_addrs U;
  tr_zero : B !! 0 = Some b0;
  tr_entry : Iconst (arity f) (swrap 64 NIL) :: reg_defs (arity f) (arity f) 0 (seqZ 0 (nregs f)) ++ [Jump b0] `prefix_of` body (u_func U) 0;
  tr_trap : exists r, body (u_func U) 1 = [Call None r []; TrapInst 1] /\
    lookupz (ir_funcs (u_func U)) r = Some (hlp_import pcrel (Helper.idx Helper.TrapBadarg));
  tr_imports : Forall (import_ok m ar_of pcrel (u_addrs U)) (ir_funcs (u_func U));
}.

Lemma epilogue_run t : wfT m ar_of pcrel t -> tx_trap t = 1 -> body (tx_b t) 1 = [] -> 1 < ir_blocks (tx_b t) -> exists t' r,
  epilogue pcrel t = (Ok tt, t') /\ le t t' /\ body (tx_b t') 1 = [Call None r []; TrapInst 1] /\
  lookupz (ir_funcs (tx_b t')) r = Some (hlp_import pcrel (Helper.idx Helper.TrapBadarg)) /\ wfT m ar_of pcrel t'.
Proof using Type.
  intros Hw Ht Hb Hn. set (t1 := upd_b (set_cur 1) t).
  assert (W1 : wfT m ar_of pcrel t1) by (destruct Hw; split; try done; cbn; lia).
  assert (L1 : le t t1) by by split; [split|].
  assert (exists r t2, helper pcrel Helper.TrapBadarg t1 = (Ok r, t2) /\ le t1 t2 /\ body (tx_b t2) 1 = [] /\ ir_cur (tx_b t2) = 1 /\
    lookupz (ir_funcs (tx_b t2)) r = Some (hlp_import pcrel (Helper.idx Helper.TrapBadarg))) as (r & t2 & H2 & L2 & B2 & C2 & X2).
  { unfold helper. unfold mbind, M_bind. cbn [get]. destruct (tx_helpers t1 !! _) as [r|] eqn:Hr.
    - exists r, t1. split_and!; try done. by apply (wf_helpers _ _ _ _ W1).
    - eexists _, _. split; [reflexivity|]. split_and!; try done; [|apply lookupz_app_r]. split; [|done]. split; cbn; try done. by apply prefix_app_r. }
  set (t3 := upd_b (push_inst (Call None r [])) t2).
  assert (H3 : (_ ← call_unit pcrel Helper.TrapBadarg []; ins0 (TrapInst 1)) t1 = (Ok tt, upd_b (push_inst (TrapInst 1)) t3)).
  { erewrite (bind_eval _ _ _ tt t3); [reflexivity|]. unfold call_unit, call_helper. rewrite bind_assoc. erewrite bind_eval by exact H2.
    unfold ins_call. unfold mbind, M_bind. cbn [get]. rewrite X2. reflexivity. }
  exists (upd_b (push_inst (TrapInst 1)) t3), r. split_and!.
  - unfold epilogue. unfold mbind at 1, M_bind at 1. cbn [get]. rewrite Ht. erewrite bind_eval by reflexivity. exact H3.
  - etrans; [exact L1|]. etrans; [exact L2|]. split; [|done]. cbn. etrans; apply ext_push.
  - cbn. rewrite !body_push. cbn. by rewrite C2, decide_True, B2.
  - exact X2.
  - assert (HG : Grows (X:=X) m ar_of pcrel (_ ← call_unit pcrel Helper.TrapBadarg []; ins0 (TrapInst 1))) by apply _. by destruct (HG _ _ _ W1 H3).
Qed.

Lemma prologue_linv L x t b0 :
  after_prologue f L x t b0 -> leader_blocks m f (tx_blocks t) -> linv m ar_of pcrel f (tx_blocks t) t.
Proof using Hok Hlen.
  intros [P F I R T E C D Ra Inj Z0 Cu N En Ot] HB. pose proof (decoded_pos m f Hok _ (fn_entry _ _ Hok)) as Hpos. destruct C as (C1 & C2 & C3 & C4).
  split; try done.
  - split.
    + intros i r. by rewrite C1, lookup_empty.
    + intros i r. by rewrite C2, lookup_empty.
    + intros a r. by rewrite C3, lookup_empty.
    + rewrite C4. constructor.
    + intros b Hb. apply Ot. lia.
    + lia.
  - rewrite P. done.
  - lia.
  - intros p b Hp _. apply Ra in Hp. split; [apply Ot; lia|lia].
  - rewrite Ot by done. split; [done|lia].
  - intros ?. congruence.
  - intros _. left. rewrite P. by exists b0.
Qed.

Lemma translate_fn_ok x : exists U x' B tF b0,
  translate_fn resolver m atom_map pcrel f code_ptr x = (Ok U, x') /\ translation U B tF b0.
Proof using Hres Har Htot Hatoms Hok Hlen.
  destruct (find_leaders_spec m f Hok Hlen) as (L & HL & L0 & Ldec & Ljump & Lnext).
  destruct (prologue_run f L x L0) as (tP & b0 & HP & AP).
  assert (HB : leader_blocks m f (tx_blocks tP)).
  { pose proof (ap_dom _ _ _ _ _ AP) as D. split.
    - intros p Hp. by apply Ldec, D.
    - by apply D.
    - intros. apply D. by eapply Ljump.
    - intros. apply D. by eapply Lnext.
    - apply (ap_inj _ _ _ _ _ AP). }
  pose proof (prologue_linv L x tP b0 AP HB) as HI.
  destruct (loop_total resolver m ar_of atom_map pcrel f code_ptr bound Hres Har Htot Hatoms Hok Hlen _ HB (S (length (code f))) tP HI)
    as (tF & HF & IF & PF).
  { rewrite (ap_pc _ _ _ _ _ AP). unfold zlen. lia. }
  assert (VP : visited resolver m ar_of atom_map pcrel f code_ptr (tx_blocks tP) tF tP) by by split; [|eexists].
  pose proof (visited_le resolver m ar_of atom_map pcrel f code_ptr bound Hres Har Htot Hatoms Hok Hlen _ HB tF tP VP) as LP.
  destruct (epilogue_run tF (li_wf _ _ _ _ _ _ IF) (li_trap _ _ _ _ _ _ IF) (proj1 (li_trap_empty _ _ _ _ _ _ IF))) as (tE & r & HE & LE & BE & XE & WE).
  { pose proof (li_range _ _ _ _ _ _ IF _ _ (ap_zero _ _ _ _ _ AP)). lia. }
  exists {| u_func := tx_b tE; u_addrs := tx_ext_addrs tE |}, (tx_env tE), (tx_blocks tP), tF, b0. split.
  - unfold translate_fn. rewrite HL. erewrite bind_eval by exact HP. erewrite bind_eval by exact HF. by rewrite HE.
  - split; cbn; try done.
    + intros p [Hp _]. rewrite <- (ap_pc _ _ _ _ _ AP) in Hp. by eapply visited_all.
    + apply (ap_zero _ _ _ _ _ AP).
    + rewrite <- (ap_entry _ _ _ _ _ AP). etrans; [apply (ext_code _ _ (proj1 LP))|apply (ext_code _ _ (proj1 LE))].
    + by exists r.
    + apply (wf_imports _ _ _ _ WE).
Qed.
End whole.
