(* ===== verification/JitRefine.v ===== *)
(** * JitRefine: compiled modules run as the reference says

    The arms assembled along the opcode match, then through the blocks of a function and the calls
    between the functions of a module: whatever the reference [native_run] computes, running the
    compiled module computes. *)

From S2P Require Import Prelude Term TermImm Bytecode BytecodeAnalysis Verify VerifySound Interp Clif Jit JitLogic JitScan JitSim JitRef JitArms JitControl JitExtCall JitTotal JitLoop.

Section refine.
Context {CI : Clif} {CW : ClifLaws} {S X : Type} `{!NativeApi S} `{!SystemApi S}.
Context (resolver : Z -> Z -> M X Empty_set (option ExtTarget)) (resume_tail : nat -> Z -> M S Trap Term).
Context (m : Module_) (ar_of : Z -> Z) (atom_map : list Z) (pcrel : bool) (code_ptr : Z -> Z).
Context {HL : HelperLaws resume_tail m atom_map code_ptr}.
Context (bound : Z -> Z -> option ExtTarget).
Context (Hres : forall gm gf x o x', resolver gm gf x = (Ok o, x') -> o = bound gm gf).
Context (Har : forall gm gf x, bound gm gf = Some x -> ar_of (xt_addr x) = xt_arity x).
Implicit Types (t : Tx X) (e : env) (s : IS S).

(** ** The opcode match *)

Section arms_sim.
Context (prog : list CodeUnit) (fn_idx : Z) (f : Function) (U : CodeUnit) (trap : Z).
Context (Hf : lookupz (functions m) fn_idx = Some f) (Hlen : zlen (code f) < 2 ^ 63) (Hsmall : zlen (u_addrs U) < 2 ^ 32).
Context (Htrap : forall e (s : S), evals prog U (body (u_func U) trap) e s (Err Badarg, s)).

(** The simulation of an arm, chosen by the compiler's side. *)
Ltac pick_sim := lazymatch goal with |- arm_sim _ _ _ _ _ _ _ _ _ _ ?c _ =>
  lazymatch c with
  | j_nop => apply straight_arm; eapply sim_nop
  | j_load_int _ => apply straight_arm; eapply sim_load_int
  | j_load_atom _ _ => apply straight_arm; eapply sim_load_atom
  | j_load_nil _ => apply straight_arm; eapply sim_load_nil
  | j_move _ => apply straight_arm; eapply sim_move
  | j_self_pid _ _ => apply straight_arm; eapply sim_self_pid
  | j_ticks _ _ => apply straight_arm; eapply sim_ticks
  | j_make_tuple _ _ => apply straight_arm; eapply sim_make_tuple
  | j_get_elem _ _ => apply straight_arm; eapply sim_get_elem
  | j_cons _ _ => apply straight_arm; eapply sim_cons
  | j_head_tail _ _ _ => apply straight_arm; eapply sim_head_tail
  | j_cmp_eq _ _ => apply straight_arm; eapply sim_cmp_eq
  | j_cmp_lt _ => apply straight_arm; eapply sim_cmp_lt
  | j_spawn _ _ => apply straight_arm; eapply sim_spawn
  | j_send _ _ => apply straight_arm; eapply sim_send
  | j_recv _ _ => apply straight_arm; eapply sim_recv
  | j_print _ _ => apply straight_arm; eapply sim_print
  | j_port_open _ _ => apply straight_arm; eapply sim_port_open
  | j_port_submit _ _ => apply straight_arm; eapply sim_port_submit
  | j_port_submit2 _ _ => apply straight_arm; eapply sim_port_submit2
  | j_buf_write _ _ => apply straight_arm; eapply sim_buf_write
  | j_sleep_ms _ _ => apply straight_arm; eapply sim_sleep_ms
  | j_buf_new _ _ => apply straight_arm; eapply sim_buf_new
  | j_buf_read _ _ => apply straight_arm; eapply sim_buf_read
  | j_call_ext _ _ _ _ => apply straight_arm; eapply sim_call_ext
  | j_bitop _ _ => apply straight_arm; eapply sim_bitop
  | j_shift _ _ => apply straight_arm; eapply sim_shift
  | j_bnot _ => apply straight_arm; eapply sim_bnot
  | j_bin_new _ _ _ => apply straight_arm; eapply sim_bin_new
  | j_map_new _ _ => apply straight_arm; eapply sim_map_new
  | j_map_get _ _ => apply straight_arm; eapply sim_map_get
  | j_map_put _ _ => apply straight_arm; eapply sim_map_put
  | j_bin_at _ _ => apply straight_arm; eapply sim_bin_at
  | j_bin_part _ _ => apply straight_arm; eapply sim_bin_part
  | j_is_binary _ _ => apply straight_arm; eapply sim_is_binary
  | j_arith _ _ => apply straight_arm; first [eapply sim_arith; [..|solve [auto]]|eapply sim_mul]
  | j_bin_unary _ _ _ => apply straight_arm; assumption
  | j_cat _ _ _ => apply straight_arm; assumption
  | j_ret _ => eapply sim_ret
  | j_exit_atom _ _ => eapply sim_exit_atom
  | j_tail_call _ _ => eapply sim_tail_call
  | j_tail_call_ext _ _ _ => eapply sim_tail_call_ext
  | j_jmp _ _ => eapply sim_jmp
  | j_jmp_if _ _ => eapply sim_jmp_if
  | j_call _ _ _ => eapply sim_call
  end end.

Lemma arms_sim fuel call o fmt t e s :
  format o = Some fmt -> leaders_in f t -> (o = op.CALL -> site_ok m f (tx_pc t)) -> (o = op.SLEEP_MS -> uses m op.SLEEP_MS) ->
  (forall i g xs (a : S), lookupz (functions m) i = Some g -> zlen xs = arity g -> ran (call i xs a).1 = true ->
    exists N, forall n, (N <= n)%nat -> icallee prog n U (fn_import 1 i (arity g)) ∅ xs a = yields (call i xs) a) ->
  arm_sim prog m ar_of pcrel f U trap t e s
    (select_arm o (jit_arms resolver m atom_map pcrel f (code_ptr fn_idx) o) (throw BadBytecode))
    (select_arm o (native_arms resume_tail bound fuel call o) (throw BadCode)).
Proof using All.
  intros Hfm Hl Hs Hsl Hc.
  destruct (sim_bin_unary prog resume_tail m ar_of atom_map pcrel f code_ptr U trap fuel t e s) as (U1 & U2 & U3 & U4 & U5).
  destruct (sim_cat prog resume_tail m ar_of atom_map pcrel f code_ptr U trap fuel t e s) as (U6 & U7).
  unfold op.BIN_FROM_LIST, op.BIN_TO_LIST, op.BIN_SIZE, op.BUF_TO_BIN, op.BIN_TO_BUF, op.BIN_CAT, op.LIST_CAT in U1, U2, U3, U4, U5, U6, U7.
  revert Hs Hsl.
  opcodes (fun o => format o = Some fmt -> (o = op.CALL -> site_ok m f (tx_pc t)) -> (o = op.SLEEP_MS -> uses m op.SLEEP_MS) -> arm_sim prog m ar_of pcrel f U trap t e s
    (select_arm o (jit_arms resolver m atom_map pcrel f (code_ptr fn_idx) o) (throw BadBytecode))
    (select_arm o (native_arms resume_tail bound fuel call o) (throw BadCode))) o Hfm.
  all: intros _; unfold jit_arms, native_arms, arms; cbn [app]; op_eval; intros Hs Hsl.
  all: pick_sim; eauto.
Qed.
End arms_sim.

(** ** Function entry *)

Section entry.
Context (prog : list CodeUnit).

(** What the entry block leaves in the variables. *)
Definition reg_value (xs : list Term) (j : Z) : Term := default NIL (lookupz xs j).

Lemma reg_defs_run U (xs : list Term) rest (a : S) r k : forall i e,
  0 <= i ->
  (forall j x, lookupz xs j = Some x -> vals e !! j = Some x) -> vals e !! zlen xs = Some NIL ->
  (forall e', vals e' = vals e -> (forall j, j < i -> vars e' !! j = vars e !! j) ->
     (forall j, i <= j < i + Z.of_nat k -> vars e' !! j = Some (reg_value xs j)) -> evals prog U rest e' a r) ->
  evals prog U (reg_defs (zlen xs) (zlen xs) i (seqZ i (Z.of_nat k)) ++ rest) e a r.
Proof using Type.
  induction k as [|k IH]; intros i e Hi Hxs Hnil Hrest.
  { cbn. apply Hrest; [done|done|lia]. }
  rewrite seqZ_cons by lia. cbn [reg_defs app]. replace (Z.pred (Z.of_nat (Datatypes.S k))) with (Z.of_nat k) by lia.
  change (Z.succ i) with (i + 1). set (e1 := set_var i (reg_value xs i) e). eapply (evals_pure _ _ _ _ _ e1).
  { cbn. case_bool_decide as Hlt.
    - destruct (lookupz_is_Some xs i ltac:(lia)) as [x Hx]. rewrite (Hxs _ _ Hx). unfold e1, reg_value. by rewrite Hx.
    - rewrite Hnil. unfold e1, reg_value. cbn. destruct (lookupz xs i) eqn:Hx; [apply lookupz_range in Hx; lia|done]. }
  apply (IH (i + 1) e1); [lia|done|done|]. intros e' V' Hlow Hhigh. apply Hrest; [done| |].
  - intros j Hj. rewrite Hlow by lia. cbn. rewrite lookup_insert_ne by lia. done.
  - intros j Hj. destruct (decide (j = i)) as [->|Hne]; [|apply Hhigh; lia].
    rewrite Hlow by lia. apply lookup_insert_eq.
Qed.

Lemma entry_vals (xs : list Term) j x : lookupz xs j = Some x -> vals (entry_env xs) !! j = Some x.
Proof using Type.
  intros Hx. pose proof (lookupz_range _ _ _ Hx) as Hr. apply lookupz_Some in Hx as [_ Hx]. cbn.
  apply elem_of_list_to_map_1.
  - rewrite fst_zip; [apply NoDup_seqZ|]. rewrite length_seqZ. unfold zlen. lia.
  - apply list_elem_of_lookup. exists (Z.to_nat j). rewrite lookup_zip_with, Hx, lookup_seqZ_lt by lia. cbn. do 2 f_equal. lia.
Qed.

Lemma entry_sim f U b0 (xs : list Term) (a : S) r :
  Iconst (arity f) (swrap 64 NIL) :: reg_defs (arity f) (arity f) 0 (seqZ 0 (nregs f)) ++ [Jump b0] `prefix_of` body (u_func U) 0 ->
  zlen xs = arity f -> arity f <= nregs f ->
  (forall e, frame_in f e {| fr := {| fcode := code f; pc := 0; regs := xs ++ drop (length xs) (replicate (Z.to_nat (nregs f)) NIL) |}; api := a |} ->
     evals prog U (body (u_func U) b0) e a r) ->
  evals prog U (body (u_func U) 0) (entry_env xs) a r.
Proof using Type.
  intros [more ->] Hn Hle Hk. cbn [app]. pose proof (zlen_nonneg xs).
  eapply (evals_pure _ _ _ _ _ (set_val (arity f) NIL (entry_env xs))); [done|]. rewrite <- app_assoc, <- Hn. cbn [app].
  replace (nregs f) with (Z.of_nat (Z.to_nat (nregs f))) at 1 by lia. apply reg_defs_run; [lia| | |].
  - intros j x Hx. pose proof (lookupz_range _ _ _ Hx). cbn. rewrite lookup_insert_ne by lia. by apply entry_vals.
  - cbn. rewrite Hn. apply lookup_insert_eq.
  - intros e' _ _ Hv. apply evals_jump, Hk. split; cbn; [done| |].
    + unfold zlen in *. rewrite length_app, length_drop, length_replicate. lia.
    + intros j x Hx. pose proof (lookupz_range _ _ _ Hx) as Hr. unfold zlen in Hr. rewrite length_app, length_drop, length_replicate in Hr.
      rewrite Hv by (unfold zlen in *; lia). unfold reg_value. destruct (decide (j < zlen xs)) as [Hlt|Hge].
      * rewrite lookupz_app_l in Hx by lia. by rewrite Hx.
      * assert (lookupz xs j = None) as -> by (unfold lookupz; by rewrite bool_decide_false by lia). cbn.
        apply lookupz_Some in Hx as [_ Hx]. rewrite lookup_app_r in Hx by (unfold zlen in *; lia).
        rewrite lookup_drop in Hx. apply lookup_replicate in Hx as [-> _]. done.
Qed.
End entry.

(** ** Blocks, functions, modules *)

Section modules.
Context (prog : list CodeUnit).
Context (Htot : forall gm gf x, exists o x', resolver gm gf x = (Ok o, x')).
Context (Hatoms : zlen (atoms m) <= zlen atom_map).
Context (Hver : module_verified m) (Hsized : forall i f, lookupz (functions m) i = Some f -> zlen (code f) < 2 ^ 63).

(** The program holds the translation of every function. *)
Definition compiled : Prop := forall i f, lookupz (functions m) i = Some f -> exists U x x',
  lookupz prog i = Some U /\ translate_fn resolver m atom_map pcrel f (code_ptr i) x = (Ok U, x') /\ zlen (u_addrs U) < 2 ^ 32.
Context (Hprog : compiled).

Abbreviation nexec := (native_exec resume_tail bound m).
Abbreviation visited_in f i B := (visited resolver m ar_of atom_map pcrel f (code_ptr i) B).

Definition unit_ok (i : Z) (f : Function) (U : CodeUnit) B tF b0 : Prop :=
  lookupz (functions m) i = Some f /\ lookupz prog i = Some U /\ zlen (u_addrs U) < 2 ^ 32 /\
  translation resolver m ar_of atom_map pcrel f (code_ptr i) U B tF b0.

Lemma units i f : lookupz (functions m) i = Some f -> exists U B tF b0, unit_ok i f U B tF b0.
Proof using Hprog Hver Hsized Hres Har Htot Hatoms.
  intros Hf. destruct (Hprog i f Hf) as (U & x & x' & HU & Ht & Hs).
  destruct (translate_fn_ok resolver m ar_of atom_map pcrel f (code_ptr i) bound Hres Har Htot Hatoms (Hver i f Hf) (Hsized i f Hf) x)
    as (U' & x'' & B & tF & b0 & Ht' & Htr).
  rewrite Ht in Ht'. injection Ht' as <- <-. exists U, B, tF, b0. by split_and!.
Qed.

Lemma unit_trap i f U B tF b0 e (s : S) : unit_ok i f U B tF b0 -> evals prog U (body (u_func U) 1) e s (Err Badarg, s).
Proof using HL.
  intros (_ & _ & _ & Htr). destruct Htr as [_ _ _ _ _ (r & -> & Hr)].
  eapply evals_call_err; [exact Hr|done|done|]. destruct (h_trap (stack e) s) as [N HN]; [done|]. exists N. intros n Hle.
  unfold icallee, run_foreign. cbn. by apply HN.
Qed.

(** What a call of a sibling must do. *)
Definition calls_run (U : CodeUnit) (call : Z -> list Term -> M S Trap Term) : Prop :=
  forall i g xs (a : S), lookupz (functions m) i = Some g -> zlen xs = arity g -> ran (call i xs a).1 = true ->
    exists N, forall n, (N <= n)%nat -> icallee prog n U (fn_import 1 i (arity g)) ∅ xs a = yields (call i xs) a.

Lemma call_site_ok f p q : items_ok m f [IReg; ICall] p q -> site_ok m f p.
Proof using Type.
  intros (p1 & [_ ->] & p2 & (v & g & b & Hv & Hg & Hb & Har' & _) & _) callee n g' Hc Hn Hg'. rewrite Hc in Hv. injection Hv as ->.
  unfold byte_operand in Hn. replace (p + 1 + 4) with (p + 5) in Hb by lia. rewrite Hb in Hn. injection Hn as <-. congruence.
Qed.

Lemma instr_sim i f U B tF b0 fuel call p b is_ term q t e s :
  unit_ok i f U B tF b0 -> decoded m f p -> lookupz (code f) p = Some b -> format (b2z b) = Some (is_, term) -> items_ok m f is_ (p + 1) q ->
  at_ m ar_of pcrel f B p false t -> calls_run U call ->
  arm_sim prog m ar_of pcrel f U 1 t e s (one_instr resolver m atom_map pcrel f (code_ptr i)) (native_step resume_tail bound fuel call).
Proof using HL CW Hres Har Hsized Hver.
  intros Hu Hd Hb Hfm Hit [Hr Hp _] Hcall. pose proof Hu as (Hf & HU & Hs & Htr). unfold one_instr, native_step.
  eapply arm_bind; [apply _|intros o; by eapply Grows_arms|apply trl_u8|].
  cbn beta. intros o ? t1 e1 s1 E1 G1 V1 (<- & _ & _). apply tx_u8_at in E1 as [Ho P1].
  assert (o = b2z b) as -> by (unfold byte_operand in Ho; rewrite Hp, Hb in Ho; by injection Ho).
  eapply arms_sim; [exact Hf|by eapply Hsized|done|intros e' s'; by eapply unit_trap|exact Hfm| | | |exact Hcall].
  - intros p' blk Hq. rewrite (grow_blocks _ _ G1), (ready_blocks _ _ _ _ _ _ Hr) in Hq.
    eapply (decoded_pos m f (Hver i f Hf)), (lb_dom _ _ _ (tr_blocks _ _ _ _ _ _ _ _ _ _ _ Htr)). by exists blk.
  - intros Hcl. rewrite Hcl in Hfm. assert (is_ = [IReg; ICall]) as -> by (revert Hfm; unfold format; op_eval; by intros [= <- _]).
    rewrite P1, Hp. by eapply call_site_ok.
  - intros Hsl. by exists i, f, p, b.
Qed.

(** Outcomes with enough fuel. *)
Definition runs_in (U : CodeUnit) (is_ : list inst) (e : env) (fuel : nat) s : Prop :=
  ran (nexec fuel (fr s) (api s)).1 = true -> evals prog U is_ e (api s) (nexec fuel (fr s) (api s)).

(** From a block's leader, and from the middle of a block. *)
Definition sim_blocks (fuel : nat) : Prop := forall i f U B tF b0 p blk e s,
  unit_ok i f U B tF b0 -> B !! p = Some blk -> pc (fr s) = p -> frame_in f e s -> runs_in U (body (u_func U) blk) e fuel s.
Definition sim_open (fuel : nat) : Prop := forall i f U B tF b0 t e s,
  unit_ok i f U B tF b0 -> visited_in f i B tF t -> decoded m f (tx_pc t) -> tx_filled t = false -> agrees f 1 t e s ->
  runs_in U (rest_of U t) e fuel s.

Lemma below_visited i f U B tF b0 t : unit_ok i f U B tF b0 -> visited_in f i B tF t -> below U t.
Proof using Hver Hsized Hres Har Htot Hatoms.
  intros (Hf & _ & _ & Htr) Hv. destruct (tr_below _ _ _ _ _ _ _ _ _ _ _ Htr) as [E A].
  eapply visited_le in Hv as [E' A']; [|done|done|done|done|by eapply Hver|by eapply Hsized|apply Htr]. split; by etrans.
Qed.

(** The callees of a run with less fuel. *)
Lemma calls_ok fuel U : sim_blocks fuel -> calls_run U (fun idx args => f' ← lift (enter m idx args); nexec fuel f').
Proof using HL CW Hprog Hver Hsized Hres Har Htot Hatoms.
  intros IH i g xs a Hg Hn Hnf. destruct (units i g Hg) as (G & B & tF & b0 & Hu). pose proof Hu as (_ & HG & _ & Htr).
  set (f0 := {| fcode := code g; pc := 0; regs := xs ++ drop (length xs) (replicate (Z.to_nat (nregs g)) NIL) |}).
  assert (Hle : arity g <= nregs g) by apply (Hver i g Hg).
  assert (He : enter m i xs = Ok f0) by (unfold enter; rewrite Hg, Hn, bool_decide_true, bool_decide_false by lia; done).
  rewrite He in Hnf |- *. change (ran (nexec fuel f0 a).1 = true) in Hnf.
  destruct (entry_sim prog g G b0 xs a (nexec fuel f0 a) (tr_entry _ _ _ _ _ _ _ _ _ _ _ Htr) Hn Hle) as [N HN].
  { intros e Hfr. exact (IH i g G B tF b0 0 b0 e {| fr := f0; api := a |} Hu (tr_zero _ _ _ _ _ _ _ _ _ _ _ Htr) eq_refl Hfr Hnf). }
  exists (Datatypes.S N). intros [|n] Hle'; [lia|]. unfold icallee. cbn [namespace fn_import]. rewrite bool_decide_true by done.
  erewrite bind_eval by (cbn [index fn_import]; by rewrite HG).
  assert (Hi : irun run_foreign prog (Datatypes.S n) G 0 (entry_env xs) a = nexec fuel f0 a) by (rewrite irun_S; apply HN; lia).
  unfold yields. unfold mbind, M_bind. by rewrite Hi.
Qed.

(** One instruction of a block, then the rest with less fuel. *)
Lemma step_on fuel i f U B tF b0 t t1 t2 e s :
  sim_blocks fuel -> sim_open fuel -> unit_ok i f U B tF b0 ->
  round resolver m ar_of atom_map pcrel f (code_ptr i) B t t1 t2 -> decoded m f (tx_pc t) -> visited_in f i B tF t2 -> agrees f 1 t1 e s ->
  runs_in U (rest_of U t1) e (Datatypes.S fuel) s.
Proof using HL CW Hprog Hver Hsized Hres Har Htot Hatoms.
  intros HB HO Hu [Hen Hrun [W2 G2] I2 (b & is_ & term & Hb & Hfm & Hit & Hfl & Hdec)] Hd Hv2 Ha Hnf. pose proof (en_at _ _ _ _ _ _ _ Hen) as Hat.
  pose proof (instr_sim i f U B tF b0 fuel _ (tx_pc t) b is_ term (tx_pc t2) t1 e s Hu Hd Hb Hfm Hit Hat (calls_ok fuel U HB) tt t2 Hrun
    (ready_wf _ _ _ _ _ _ (at_ready _ _ _ _ _ _ _ _ Hat)) (below_visited i f U B tF b0 t2 Hu Hv2) Ha) as Hsim.
  cbn [native_exec] in Hnf |- *. assert (Hs : {| fr := fr s; api := api s |} = s) by by destruct s. rewrite Hs in Hnf |- *.
  destruct (native_step _ _ _ _ s) as [[[|v]|er| |] s']; [|done..].
  destruct Hsim as (e' & Hfi & [(F2 & A2 & L2)|(blk & Hblk & L2)]); apply L2.
  - rewrite (at_flag _ _ _ _ _ _ _ _ Hat) in F2. by apply (HO i f U B tF b0 t2 e' s' Hu Hv2 (Hdec F2) F2 A2).
  - rewrite (ready_blocks _ _ _ _ _ _ (at_ready _ _ _ _ _ _ _ _ Hat)) in Hblk. by apply (HB i f U B tF b0 _ blk e' s' Hu Hblk eq_refl Hfi).
Qed.

Lemma sim_all fuel : sim_blocks fuel /\ sim_open fuel.
Proof using HL CW Hprog Hver Hsized Hres Har Htot Hatoms.
  induction fuel as [|fuel [HB HO]]; [split; repeat intro; discriminate|].
  assert (HB' : sim_blocks (Datatypes.S fuel)).
  { intros i f U B tF b0 p blk e s Hu Hblk Hpc [F1 F2 F3]. pose proof Hu as (Hf & _ & _ & Htr). pose proof (tr_blocks _ _ _ _ _ _ _ _ _ _ _ Htr) as HLB.
    assert (Hd : decoded m f p) by by eapply lb_dom. destruct (tr_visited _ _ _ _ _ _ _ _ _ _ _ Htr p Hd) as (t & Hv & Hp).
    edestruct (visited_round resolver m ar_of atom_map pcrel f (code_ptr i)) as (t1 & t2 & Hr & Hv2); [exact Hres|done|done|done|by eapply Hver|by eapply Hsized|exact HLB|exact Hv|rewrite Hp; apply Hd|].
    pose proof (ro_enter _ _ _ _ _ _ _ _ _ _ _ Hr) as Hen. rewrite <- Hp in Hblk. destruct (en_leader _ _ _ _ _ _ _ Hen blk Hblk) as [C1 E1].
    destruct (en_at _ _ _ _ _ _ _ Hen) as [[W1 R1 B1] P1 Fl1].
    assert (Hrest : rest_of U t1 = body (u_func U) blk) by (unfold rest_of; by rewrite C1, E1).
    rewrite <- Hrest. eapply step_on; [done|done|exact Hu|exact Hr|by rewrite Hp|done|]. split; try done; [congruence|]. apply (en_trap _ _ _ _ _ _ _ Hen). }
  split; [done|]. intros i f U B tF b0 t e s Hu Hv Hd Hop Ha. pose proof Hu as (Hf & _ & _ & Htr).
  pose proof (tr_blocks _ _ _ _ _ _ _ _ _ _ _ Htr) as HLB.
  edestruct (visited_round resolver m ar_of atom_map pcrel f (code_ptr i)) as (t1 & t2 & Hr & Hv2); [exact Hres|done|done|done|by eapply Hver|by eapply Hsized|exact HLB|exact Hv|apply Hd|].
  pose proof (ro_enter _ _ _ _ _ _ _ _ _ _ _ Hr) as Hen. destruct (B !! tx_pc t) as [blk|] eqn:Hblk.
  - intros Hnf. assert (Hb1 : below U t1).
    { eapply below_grow; [apply (ro_grow _ _ _ _ _ _ _ _ _ _ _ Hr)|]. by eapply below_visited. }
    assert (Hbj : below U (upd_b (push_inst (Jump blk)) t)).
    { destruct (en_fall _ _ _ _ _ _ _ Hen blk Hblk Hop) as [E A], Hb1 as [E1 A1]. split; by etrans. }
    rewrite (rest_push U t (Jump blk) Hbj). apply evals_jump.
    destruct Ha. by eapply (HB' i f U B tF b0 (tx_pc t) blk e s Hu Hblk); [|split|].
  - rewrite (en_same _ _ _ _ _ _ _ Hen Hblk) in *. by eapply step_on.
Qed.

(** Running a compiled function. *)
Lemma icall_sim fuel i f xs (a : S) :
  lookupz (functions m) i = Some f -> zlen xs = arity f ->
  ran (native_run resume_tail bound m fuel i xs a).1 = true ->
  exists N, forall n, (N <= n)%nat -> icall run_foreign prog n i xs a = native_run resume_tail bound m fuel i xs a.
Proof using HL CW Hprog Hver Hsized Hres Har Htot Hatoms.
  intros Hf Hn Hnf. destruct (units i f Hf) as (U & _ & _ & _ & (_ & HU & _ & _)).
  destruct (calls_ok fuel U (proj1 (sim_all fuel)) i f xs a Hf Hn Hnf) as [N HN]. exists N. intros n Hle.
  specialize (HN n Hle). unfold icallee in HN. cbn [namespace fn_import index] in HN. rewrite bool_decide_true in HN by done.
  rewrite (bind_eval _ _ _ U a) in HN by by rewrite HU. unfold icall. rewrite (bind_eval _ _ _ U a) by by rewrite HU.
  unfold yields in HN. cbn beta in HN.
  change (f' ← lift (enter m i xs); nexec fuel f') with (native_run resume_tail bound m fuel i xs) in HN. unfold mbind, M_bind in HN.
  destruct (irun run_foreign prog n U 0 (entry_env xs) a) as [r1 a1], (native_run resume_tail bound m fuel i xs a) as [r2 a2].
  destruct r1, r2; cbn in HN; simplify_eq; done.
Qed.
End modules.
End refine.
