(* ===== verification/JitInterp.v ===== *)
(** * JitInterp: the two engines agree

    The reference of the compiler departs from the interpreter in five instructions.  On a run
    that the interpreter ends with a result the difference does not show, except through
    the polls: where polling has no effect, the reference returns the same result with the same
    effects. *)

From S2P Require Import Prelude Term TermImm TermVal Bytecode BytecodeAnalysis Verify VerifySound Interp.
From S2P Require Import InterpSafe InterpRun InterpArms InterpExec Clif Jit JitLogic JitSim JitRef.

(** [c'] returns what [c] returns. *)
Definition oks {S E A} (c c' : M S E A) : Prop := forall s x s', c s = (Ok x, s') -> c' s = (Ok x, s').

Lemma oks_refl {S E A} (c : M S E A) : oks c c.
Proof. by intros s x s'. Qed.
Lemma oks_bind {S E A B} (c c' : M S E A) (k k' : A -> M S E B) : oks c c' -> (forall x, oks (k x) (k' x)) -> oks (x ← c; k x) (x ← c'; k' x).
Proof. intros Hc Hk s y s' (x & s1 & H1 & H2)%bind_ok. erewrite bind_eval by by apply Hc. by apply Hk. Qed.

Lemma select_arm_ext {A} o (l l' : list (list Z * A)) d :
  Forall2 (fun x y => x.1 = y.1 /\ (existsb (Z.eqb o) x.1 = true -> x.2 = y.2)) l l' -> select_arm o l d = select_arm o l' d.
Proof.
  induction 1 as [|[os c] [os' c'] l l' [Ho Hc] _ IH]; cbn in *; [done|]. subst os'. destruct (existsb _ os); auto.
Qed.

Section agree.
Context {S : Type} `{!SystemApi S} `{!NativeApi S} (resume_tail : nat -> Z -> M S Trap Term) (m : Module_) {blame : S -> Prop} `{!ApiLawsUpTo S m blame}.
Context (Hpoll : forall s : S, safepoint s = s).
Abbreviation unbound := (fun _ _ : Z => @None ExtTarget).

Lemma poll_quiet (s : IS S) : upd_api safepoint s = (Ok tt, s).
Proof using Hpoll. unfold upd_api, modify. rewrite Hpoll. by destruct s. Qed.

Lemma mul_oks : oks (i_arith (S:=S) op.MUL) n_mul.
Proof using Type.
  unfold i_arith, n_mul. do 5 (apply oks_bind; [apply oks_refl|intros ?]). rewrite !bool_decide_false by done.
  unfold checked_i64. case_bool_decide; [apply oks_refl|]. by intros s y s'.
Qed.

Lemma jmp_if_oks : oks (i_jmp_if (S:=S)) n_jmp_if.
Proof using Hpoll.
  unfold i_jmp_if, n_jmp_if. apply oks_bind; [apply oks_refl|intros rc]. apply oks_bind; [apply oks_refl|intros off].
  apply oks_bind; [apply oks_refl|intros c]. intros s x s' H. unfold jump in H. unfold goto.
  assert (Hp : (if bool_decide (off < 0) then upd_api safepoint else mret tt) s = (Ok tt, s)) by (destruct (bool_decide (off < 0)); [apply poll_quiet|done]).
  erewrite bind_eval by exact Hp. destruct (negb _); [|done]. rewrite bind_assoc in H. by erewrite bind_eval in H by exact Hp.
Qed.

Lemma sleep_oks : oks (i_sleep_ms (S:=S)) n_sleep_ms.
Proof using Hpoll.
  unfold i_sleep_ms, n_sleep_ms, get_int. apply oks_bind; [apply oks_refl|]. intros rm s x s' H. rewrite bind_assoc in H. revert s x s' H.
  apply oks_bind; [apply oks_refl|]. intros t s x s' H. erewrite bind_eval by apply poll_quiet. unfold a_sleep.
  destruct (as_int t) as [ms|]; [|discriminate H]. cbn [ok_or] in *. minv. rewrite poll_quiet in *. simplify_eq.
  unfold on_api, fail_if, mbind, M_bind. cbn. rewrite Hb. injection Hc2 as _ <-. done.
Qed.

Lemma call_ext_oks fuel : oks (i_call_ext (S:=S)) (n_call_ext resume_tail unbound fuel).
Proof using Type.
  unfold i_call_ext, n_call_ext. do 7 (apply oks_bind; [apply oks_refl|intros ?]). intros s y s' H. by rewrite bind_assoc.
Qed.

(** A term's word is not the sentinel. *)
Lemma valid_no_sentinel (s : S) v : valid s v -> is_sentinel v = false.
Proof using Type.
  intros [u Hu%repr_header]. unfold is_sentinel. apply bool_decide_eq_false_2. intros Hw.
  assert (Ht : tag v = 7).
  { rewrite tag_mod. replace (v mod 8) with (wrap 64 v mod 8); [by rewrite Hw|]. unfold wrap. apply Z.mod_mod_divide. by exists (2 ^ 61). }
  destruct (vheader u) as [[??]|]; [destruct Hu as [(_&Htag&_) _]|destruct Hu as [_ [_ Htag]]]; revert Htag; rewrite ?Ht; vm_compute; intuition congruence.
Qed.

(** Reading operands moves the program counter and nothing else. *)
Lemma fr_u8_read (s s' : IS S) v : fr_u8 s = (Ok v, s') ->
  s' = set_pc (pc (fr s) + 1) s /\ exists b, lookupz (fcode (fr s)) (pc (fr s)) = Some b /\ v = b2z b.
Proof using Type.
  unfold fr_u8, mbind, M_bind, gets, ok_or, modify. destruct (lookupz _ _) as [b|]; [|done]. intros [= <- <-]. eauto.
Qed.
Lemma fr_u32_read (s s' : IS S) v : fr_u32 s = (Ok v, s') ->
  s' = set_pc (pc (fr s) + 4) s /\ u32_operand (fcode (fr s)) (pc (fr s)) = Some v.
Proof using Type.
  unfold fr_u32, mbind, M_bind, gets, ok_or, modify, u32_operand. destruct (slice _ _ _) as [b|]; [|done]. by intros [= <- <-].
Qed.
Lemma fr_get_read (s s' : IS S) r v : fr_get r s = (Ok v, s') -> s' = s /\ lookupz (regs (fr s)) r = Some v.
Proof using Type. unfold fr_get, mbind, M_bind, gets, ok_or. destruct (lookupz _ _); [|done]. by intros [= <- <-]. Qed.

Lemma lookupz_elem {A} (l : list A) i x : lookupz l i = Some x -> x ∈ l.
Proof using Type. intros [_ H]%lookupz_Some. by eapply list_elem_of_lookup_2. Qed.

(** The operands of a call: registers, read in order. *)
Lemma get_args_facts n : forall (s : IS S) args s', collect n (r ← fr_u8; fr_get r) s = (Ok args, s') ->
  zlen args = Z.of_nat n /\ api s' = api s /\ fcode (fr s') = fcode (fr s) /\ Forall (fun x => x ∈ regs (fr s)) args.
Proof using Type.
  induction n as [|n IH]; intros s args s' H; cbn [collect] in H; minv; [done|].
  apply fr_u8_read in Hc1 as [-> _]. apply fr_get_read in Hc as [-> Hx%lookupz_elem].
  apply IH in Hc0 as (H1 & H2 & H3 & H4). rewrite zlen_cons. split_and!; [lia|done|done|by constructor].
Qed.

(** What a call of a function of the module may rely on, and agreement there. *)
Definition calls_agree (call call' : Z -> list Term -> M S Trap Term) : Prop := forall idx g args (s : S) v s',
  lookupz (functions m) idx = Some g -> arity g = zlen args -> good s -> Forall (valid s) args ->
  call idx args s = (Ok v, s') -> call' idx args s = (Ok v, s') /\ (v = TAIL_SENTINEL \/ valid s' v).

Lemma call_agrees f call call' p e (s s' : IS S) o :
  inv f p s -> items_ok m f [IReg; ICall] p e -> calls_agree call call' ->
  i_call call s = (Ok o, s') -> n_call call' s = (Ok o, s').
Proof using Hpoll.
  intros Hi (p1 & [_ ->] & p2 & (v & g & b & Hv & Hg & Hb & Har & _) & _) Hcall H. unfold i_call in H. unfold n_call. minv.
  erewrite bind_eval by exact Hc. erewrite bind_eval by exact Hc0. erewrite bind_eval by exact Hc1. erewrite bind_eval by exact Hc2.
  erewrite bind_eval by exact Hc3. rewrite poll_quiet in Hc3. injection Hc3 as _ <-.
  apply fr_u8_read in Hc as [-> _]. apply fr_u32_read in Hc0 as [-> Hv']. apply fr_u8_read in Hc1 as [-> (b' & Hb' & ->)].
  pose proof (get_args_facts _ _ _ _ Hc2) as (Hn & Ha & _ & Hin). cbn in Hv', Hb', Ha, Hin.
  rewrite (inv_code _ _ _ Hi), (inv_pc _ _ _ Hi) in Hv', Hb'.
  assert (a0 = v) as -> by congruence. replace (p + 1 + 4) with (p + 5) in * by lia.
  assert (b' = b) as -> by congruence. pose proof (b2z_range b).
  unfold on_api in Hc4. destruct (call v a2 (api s3)) as [r a'] eqn:Hr. injection Hc4 as -> <-.
  destruct (Hcall v g a2 (api s3) a4 a' Hg) as [Hc' Hs].
  - rewrite Hn. lia.
  - rewrite Ha. apply Hi.
  - rewrite Ha. eapply Forall_impl; [exact Hin|]. intros x Hx. by eapply Forall_forall in Hx; [|apply Hi].
  - exact Hr.
  - erewrite bind_eval by (unfold on_api; by rewrite Hc').
    case_bool_decide as Ht; [subst; exact H|]. destruct Hs as [|Hs]; [done|]. rewrite (valid_no_sentinel _ _ Hs).
    apply bind_ok in H as (u & s5 & H1 & H2). by erewrite bind_eval.
Qed.

Lemma arms_agree f fuel call call' o is_ term p e :
  format o = Some (is_, term) -> items_ok m f is_ p e -> calls_agree call call' -> forall s, inv f p s -> forall x s',
  select_arm o (arms fuel call o) (throw BadCode) s = (Ok x, s') ->
  select_arm o (native_arms resume_tail unbound fuel call' o) (throw BadCode) s = (Ok x, s').
Proof using Hpoll.
  intros Hf Hi Hcall s Hinv x s'.
  destruct (decide (o ∈ [op.MUL; op.JMP_IF; op.CALL; op.SLEEP_MS; op.CALL_EXT])) as [Ho|Ho].
  - assert (Hcl : o = op.CALL -> is_ = [IReg; ICall]) by (intros ->; revert Hf; unfold format; op_eval; by intros [= <- _]).
    clear Hf. unfold native_arms, arms. cbn [app]. rewrite !elem_of_cons in Ho.
    destruct Ho as [->|[->|[->|[->|[->|[]%elem_of_nil]]]]]; op_eval.
    + exact (mul_oks s x s').
    + exact (jmp_if_oks s x s').
    + rewrite (Hcl eq_refl) in Hi. exact (call_agrees f call call' p e s s' x Hinv Hi Hcall).
    + exact (sleep_oks s x s').
    + exact (call_ext_oks fuel s x s').
  - rewrite !not_elem_of_cons in Ho. destruct Ho as (H1 & H2 & H3 & H4 & H5 & _).
    assert (Hne : forall k, o <> k -> (o =? k) = false) by (intros k; apply Z.eqb_neq).
    assert (E : select_arm o (arms fuel call' o) (throw BadCode) = select_arm o (arms fuel call o) (throw BadCode)).
    { apply select_arm_ext. unfold arms.
      repeat (apply Forall2_cons_2; [split; cbn [fst snd]; [reflexivity|]|]); [..|apply Forall2_nil_2]; try reflexivity.
      cbn [existsb]. by rewrite (Hne op.CALL) by done. }
    rewrite <- E. unfold native_arms. cbn [app select_arm existsb]. rewrite !Hne by done. done.
Qed.

Context (Hver : module_verified m) (Hlen : forall i f, lookupz (functions m) i = Some f -> zlen (code f) < 2 ^ 64).

Lemma step_agrees i f fuel call call' a s x s' :
  lookupz (functions m) i = Some f -> decoded m f a -> inv f a s -> calls_agree call call' ->
  step fuel call s = (Ok x, s') -> native_step resume_tail unbound fuel call' s = (Ok x, s').
Proof using Hpoll Hver.
  intros Hf Hd Hi Hcall H. destruct (fn_instr _ _ (Hver i f Hf) a Hd) as (is_ & term & e & (b & Hb & Hfm & Hit) & _).
  unfold step in H. apply bind_ok in H as (o & s1 & Hu & H). unfold native_step. erewrite bind_eval by exact Hu.
  apply fr_u8_read in Hu as [-> (b' & Hb' & ->)]. rewrite (inv_code _ _ _ Hi), (inv_pc _ _ _ Hi) in Hb'. assert (b' = b) as -> by congruence.
  eapply arms_agree; [exact Hfm|exact Hit|exact Hcall| |exact H]. rewrite (inv_pc _ _ _ Hi). by eapply inv_set_pc.
Qed.

Lemma exec_agrees fuel : forall i f a g (s : S) v s',
  lookupz (functions m) i = Some f -> decoded m f a -> inv f a {| fr := g; api := s |} ->
  exec m fuel g s = (Ok v, s') -> native_exec resume_tail unbound m fuel g s = (Ok v, s').
Proof using Hpoll Hver Hlen.
  induction fuel as [|fuel IH]; intros i f a g s v s' Hf Hd Hi H; [discriminate H|].
  set (call := fun idx args => f' ← lift (enter m idx args); exec m fuel f').
  assert (Hsafe : call_ok m call).
  { intros j h args s1 Hh Har Hg1 Hargs. destruct (enter_ok m Hver j h args s1 Hh Har Hg1 Hargs) as (g1 & Hen & Hi1).
    unfold call, method, mbind, M_bind, lift. rewrite Hen. eapply (exec_safe m Hver Hlen fuel j h 0 g1 s1 Hh); [|done]. by eapply fn_entry, Hver. }
  assert (Hcall : calls_agree call (fun idx args => f' ← lift (enter m idx args); native_exec resume_tail unbound m fuel f')).
  { intros j h args s1 w s2 Hh Har Hg1 Hargs Hc. pose proof (Hsafe j h args s1 Hh Har Hg1 Hargs) as Hs. unfold method in Hs. rewrite Hc in Hs.
    destruct Hs as (_ & _ & Hw). split; [|destruct Hw as [|[? _]]; auto].
    destruct (enter_ok m Hver j h args s1 Hh Har Hg1 Hargs) as (g1 & Hen & Hi1). unfold call, mbind, M_bind, lift in Hc |- *. rewrite Hen in Hc |- *.
    eapply (IH j h 0); [done|by eapply fn_entry, Hver|done|done]. }
  cbn [exec] in H. cbn [native_exec]. fold call in H. pose proof (step_safe m Hver Hlen i f fuel call a _ Hf Hd Hi Hsafe) as Hs. unfold safe in Hs.
  destruct (step fuel call {| fr := g; api := s |}) as [[x|?| |] s1] eqn:Hst; [|discriminate H..].
  rewrite (step_agrees i f fuel call _ a _ x s1 Hf Hd Hi Hcall Hst). destruct x as [|t]; [|exact H].
  destruct Hs as (_ & _ & p & Hp & Hip). destruct s1 as [g1 a1]. by eapply (IH i f p).
Qed.

Lemma native_run_agrees fuel i f xs s v s' :
  lookupz (functions m) i = Some f -> arity f = zlen xs -> good s -> Forall (valid s) xs ->
  run_function m fuel i xs s = (Ok v, s') -> native_run resume_tail unbound m fuel i xs s = (Ok v, s').
Proof using Hpoll Hver Hlen.
  intros Hf Har Hg Hxs. destruct (enter_ok m Hver i f xs s Hf Har Hg Hxs) as (g & Hen & Hi). unfold run_function, native_run, mbind, M_bind, lift.
  rewrite Hen. apply (exec_agrees fuel i f 0 g s v s' Hf); [|done]. by eapply fn_entry, Hver.
Qed.
End agree.
