(* ===== verification/ApiSim.v ===== *)
(** * ApiSim: one program on two systems

    The interpreter is parametric in its [SystemApi].  When two implementations are related by a
    simulation on every method a module uses, a run of a verified module that returns on the first
    returns the same term on the second, in related states.  The comparison of the compiled with
    the interpreted engines rests on it: the helpers of compiled code are another implementation
    of the same services. *)

From S2P Require Import Prelude Term TermVal Bytecode BytecodeAnalysis Verify VerifySound Interp InterpSafe InterpRun InterpArms InterpExec JitInterp.

(** [c2] follows every returning run of [c1]. *)
Definition osim {T1 T2 E A} (P : T1 -> T2 -> Prop) (c1 : M T1 E A) (c2 : M T2 E A) : Prop := forall s1 s2 x s1',
  P s1 s2 -> c1 s1 = (Ok x, s1') -> exists s2', c2 s2 = (Ok x, s2') /\ P s1' s2'.

Section generic.
Context {T1 T2 E : Type} (P : T1 -> T2 -> Prop).

Lemma osim_bind {A B} (c1 : M T1 E A) (c2 : M T2 E A) (k1 : A -> M T1 E B) (k2 : A -> M T2 E B) :
  osim P c1 c2 -> (forall x, osim P (k1 x) (k2 x)) -> osim P (x ← c1; k1 x) (x ← c2; k2 x).
Proof using Type.
  intros Hc Hk s1 s2 y s1' HP (x & t1 & H1 & H2)%bind_ok. destruct (Hc s1 s2 x t1 HP H1) as (t2 & Ht & HP').
  destruct (Hk x t1 t2 y s1' HP' H2) as (s2' & Hs & HP''). exists s2'. split; [|done]. by erewrite bind_eval.
Qed.
Lemma osim_ret {A} (x : A) : osim P (mret x : M T1 E A) (mret x).
Proof using Type. intros s1 s2 y s1' HP [= <- <-]. by exists s2. Qed.
Lemma osim_throw {A} e (c2 : M T2 E A) : osim P (throw e) c2.
Proof using Type. by intros s1 s2 x s1' _. Qed.
Lemma osim_lift {A} (r : res E A) : osim P (lift r) (lift r).
Proof using Type. intros s1 s2 x s1' HP [= -> <-]. by exists s2. Qed.
Lemma osim_ok_or {A} (o : option A) (e : E) : osim P (ok_or o e) (ok_or o e).
Proof using Type. destruct o; [apply osim_ret|apply osim_throw]. Qed.
Lemma osim_unwrap {A} (o : option A) : osim P (unwrap o : M T1 E A) (unwrap o).
Proof using Type. destruct o; [apply osim_ret|by intros s1 s2 x s1' _]. Qed.
Lemma osim_fail_if b e : osim P (fail_if b (e : E)) (fail_if b e).
Proof using Type. destruct b; [apply osim_throw|apply osim_ret]. Qed.
Lemma osim_modify (f1 : T1 -> T1) (f2 : T2 -> T2) : (forall s1 s2, P s1 s2 -> P (f1 s1) (f2 s2)) -> osim P (modify f1 : M T1 E unit) (modify f2).
Proof using Type. intros Hf s1 s2 x s1' HP [= <- <-]. eexists. split; [done|]. by apply Hf. Qed.
Lemma osim_collect {A} n (c1 : M T1 E A) (c2 : M T2 E A) : osim P c1 c2 -> osim P (collect n c1) (collect n c2).
Proof using Type.
  intros Hc. induction n as [|n IH]; cbn [collect]; [apply osim_ret|]. do 2 (apply osim_bind; [done|intros ?]). apply osim_ret.
Qed.
Lemma osim_select {A} o (l1 : list (list Z * M T1 E A)) (l2 : list (list Z * M T2 E A)) e :
  Forall2 (fun x y => x.1 = y.1 /\ (existsb (Z.eqb o) x.1 = true -> osim P x.2 y.2)) l1 l2 ->
  osim P (select_arm o l1 (throw e)) (select_arm o l2 (throw e)).
Proof using Type.
  induction 1 as [|[os c] [os' c'] l l' [Ho Hc] _ IH]; cbn in *; [apply osim_throw|]. subst os'. destruct (existsb _ os); auto.
Qed.
End generic.

(** ** Two systems *)

(** Every method [m] may use is followed; the heaps are the same. *)
Record ApiSim {S1 S2 : Type} (A1 : SystemApi S1) (A2 : SystemApi S2) (m : Module_) (R : S1 -> S2 -> Prop) : Prop := {
  sim_heap s1 s2 : R s1 s2 -> heap_state s1 = heap_state s2;
  sim_with_heap h s1 s2 : R s1 s2 -> R (with_heap h s1) (with_heap h s2);
  sim_grow s1 s2 : R s1 s2 -> (heap_grow s1).1 = (heap_grow s2).1 /\ R (heap_grow s1).2 (heap_grow s2).2;
  sim_pid s1 s2 : R s1 s2 -> self_pid s1 = self_pid s2;
  sim_ticks s1 s2 : R s1 s2 -> api_ticks s1 = api_ticks s2;
  sim_safepoint s1 s2 : R s1 s2 -> R (safepoint s1) (safepoint s2);
  sim_print t s1 s2 : R s1 s2 -> R (api_print t s1) (api_print t s2);
  sim_sleep n s1 s2 : uses m op.SLEEP_MS -> R s1 s2 -> R (sleep_ms n s1) (sleep_ms n s2);
  sim_tail ma fa xs s1 s2 : R s1 s2 -> R (tail_call ma fa xs s1) (tail_call ma fa xs s2);
  sim_tail_local i xs s1 s2 : R s1 s2 -> R (tail_call_local i xs s1) (tail_call_local i xs s2);
  sim_atom l : osim R (atom_global l) (atom_global l);
  sim_send a b : osim R (api_send a b) (api_send a b);
  sim_recv : uses m op.RECV -> osim R api_recv api_recv;
  sim_spawn i a : uses m op.SPAWN -> osim R (api_spawn i a) (api_spawn i a);
  sim_open k : osim R (port_open k) (port_open k);
  sim_submit p o a t : osim R (port_submit p o a t) (port_submit p o a t);
  sim_submit2 p o a b t : osim R (port_submit2 p o a b t) (port_submit2 p o a b t);
  sim_call ma fa xs : uses m op.CALL_EXT -> osim R (call_ext ma fa xs) (call_ext ma fa xs);
  sim_buf_to_bin i : uses m op.BUF_TO_BIN -> osim R (buf_to_bin i) (buf_to_bin i);
  sim_bin_to_buf b : uses m op.BIN_TO_BUF -> osim R (bin_to_buf b) (bin_to_buf b);
  sim_buf_write a b c : uses m op.BUF_WRITE -> osim R (buf_write a b c) (buf_write a b c);
  sim_buf_new a : uses m op.BUF_NEW -> osim R (buf_new a) (buf_new a);
  sim_buf_read a b c : uses m op.BUF_READ -> osim R (buf_read a b c) (buf_read a b c);
}.

Section sim.
Context {S1 S2 : Type} {A1 : SystemApi S1} {A2 : SystemApi S2} (m : Module_) (R : S1 -> S2 -> Prop) (HS : ApiSim A1 A2 m R).

(** The interpreter's states: the same frame over related systems. *)
Definition framed (s1 : IS S1) (s2 : IS S2) : Prop := fr s1 = fr s2 /\ R (api s1) (api s2).
Abbreviation isim := (osim framed).

Lemma sim_gets_fr : isim (gets (E:=Trap) fr) (gets fr).
Proof using Type. intros [f1 a1] [f2 a2] x s1' [Hf Ha] [= <- <-]. cbn in *. subst f2. eexists. by split. Qed.
Lemma sim_set_pc n : isim (modify (E:=Trap) (set_pc n)) (modify (set_pc n)).
Proof using Type. apply osim_modify. intros [f1 a1] [f2 a2] [Hf Ha]. cbn in *. by subst f2. Qed.
Lemma sim_set_fr f : isim (modify (E:=Trap) (set_fr f)) (modify (set_fr f)).
Proof using Type. apply osim_modify. by intros [f1 a1] [f2 a2] [Hf Ha]. Qed.
Lemma sim_on_api {A} (c1 : M S1 Trap A) (c2 : M S2 Trap A) : osim R c1 c2 -> isim (on_api c1) (on_api c2).
Proof using Type.
  intros Hc [f1 a1] [f2 a2] x s1' [Hf Ha] H. cbn in *. subst f2. unfold on_api in *. cbn in *. destruct (c1 a1) as [r a1'] eqn:H1.
  injection H as -> <-. destruct (Hc a1 a2 x a1' Ha H1) as (a2' & H2 & Ha'). rewrite H2. eexists. by split.
Qed.
Lemma sim_upd_api f1 f2 : (forall s1 s2, R s1 s2 -> R (f1 s1) (f2 s2)) -> isim (upd_api f1) (upd_api f2).
Proof using Type. intros Hf. apply osim_modify. intros [g1 a1] [g2 a2] [Hg Ha]. cbn in *. split; cbn; auto. Qed.
Lemma sim_on_mem {A} (g : mem -> res Trap A) : isim (on_mem g) (on_mem g).
Proof using HS.
  intros s1 s2 x s1' HP [= H <-]. exists s2. split; [|done]. unfold on_mem. by rewrite <- (sim_heap _ _ _ _ HS _ _ (proj2 HP)), H.
Qed.

(** The three loops around an allocation. *)
Lemma sim_alloc fuel (c : HM Term) : osim R (alloc_term fuel c) (alloc_term fuel c).
Proof using HS.
  induction fuel as [|fuel IH]; intros s1 s2 x s1' HR H; [discriminate H|]. cbn [alloc_term] in *.
  rewrite <- (sim_heap _ _ _ _ HS _ _ HR). destruct (c (heap_state s1)) as [r h]. pose proof (sim_with_heap _ _ _ _ HS h _ _ HR) as HR1.
  destruct r as [t|[]| |]; try discriminate H; [injection H as <- <-; eexists; by split|].
  destruct (sim_grow _ _ _ _ HS _ _ HR1) as [Hb HR2]. destruct (heap_grow (with_heap h s1)) as [b1 t1], (heap_grow (with_heap h s2)) as [b2 t2].
  cbn in Hb, HR2. subst b2. destruct b1; [|discriminate H]. by eapply IH.
Qed.
Lemma sim_alloc_map fuel : forall ps, osim R (alloc_map fuel ps) (alloc_map fuel ps).
Proof using HS.
  induction fuel as [|fuel IH]; intros ps s1 s2 x s1' HR H; [discriminate H|]. cbn [alloc_map] in *.
  rewrite <- (sim_heap _ _ _ _ HS _ _ HR). destruct (map_from_pairs ps (heap_state s1)) as [r h]. pose proof (sim_with_heap _ _ _ _ HS h _ _ HR) as HR1.
  destruct r as [t|[|]| |]; try discriminate H; [injection H as <- <-; eexists; by split|].
  destruct (sim_grow _ _ _ _ HS _ _ HR1) as [Hb HR2]. destruct (heap_grow (with_heap h s1)) as [b1 t1], (heap_grow (with_heap h s2)) as [b2 t2].
  cbn in Hb, HR2. subst b2. destruct b1; [|discriminate H]. by eapply IH.
Qed.
Lemma sim_put_map fuel b k v : osim R (put_map fuel b k v) (put_map fuel b k v).
Proof using HS.
  induction fuel as [|fuel IH]; intros s1 s2 x s1' HR H; [discriminate H|]. cbn [put_map] in *.
  rewrite <- (sim_heap _ _ _ _ HS _ _ HR). destruct (map_put b k v (heap_state s1)) as [r h]. pose proof (sim_with_heap _ _ _ _ HS h _ _ HR) as HR1.
  destruct r as [t|[|]| |]; try discriminate H; [injection H as <- <-; eexists; by split|].
  destruct (sim_grow _ _ _ _ HS _ _ HR1) as [Hb HR2]. destruct (heap_grow (with_heap h s1)) as [b1 t1], (heap_grow (with_heap h s2)) as [b2 t2].
  cbn in Hb, HR2. subst b2. destruct b1; [|discriminate H]. by eapply IH.
Qed.

(** Descend through an arm: the frame, the memory, then the methods. *)
Ltac sim_arm := repeat first
  [ apply sim_gets_fr | apply sim_set_pc | apply sim_set_fr | apply sim_on_mem | apply osim_ret | apply osim_throw | apply osim_ok_or | apply osim_fail_if
  | apply osim_collect | apply osim_bind; [|intros ?]
  | progress unfold fr_u8, fr_u32, fr_i32, fr_i64, fr_bytes, fr_get, fr_set, get_int, get_args, next, done_with
  | match goal with |- isim (match ?x with _ => _ end) _ => destruct x end ].
Ltac sim_method := first
  [ apply sim_alloc | apply sim_alloc_map | apply sim_put_map
  | apply (sim_atom _ _ _ _ HS) | apply (sim_send _ _ _ _ HS) | apply (sim_open _ _ _ _ HS) | apply (sim_submit _ _ _ _ HS) | apply (sim_submit2 _ _ _ _ HS)
  | by apply (sim_recv _ _ _ _ HS) | by apply (sim_spawn _ _ _ _ HS) | by apply (sim_call _ _ _ _ HS) | by apply (sim_buf_to_bin _ _ _ _ HS)
  | by apply (sim_bin_to_buf _ _ _ _ HS) | by apply (sim_buf_write _ _ _ _ HS) | by apply (sim_buf_new _ _ _ _ HS) | by apply (sim_buf_read _ _ _ _ HS) ].
Ltac sim_update := first
  [ by apply (sim_safepoint _ _ _ _ HS) | by apply (sim_print _ _ _ _ HS) | by apply (sim_sleep _ _ _ _ HS)
  | by apply (sim_tail _ _ _ _ HS) | by apply (sim_tail_local _ _ _ _ HS) ].
Ltac sim_api := repeat first [ progress sim_arm | apply sim_on_api; sim_method | apply sim_upd_api; intros ? ? ?; sim_update ].

Lemma sim_jump off : isim (jump off) (jump off).
Proof using HS. unfold jump. sim_api. Qed.

Lemma sim_i_self_pid : isim i_self_pid i_self_pid.
Proof using HS.
  unfold i_self_pid. apply osim_bind; [sim_arm|]. intros rd [f1 a1] [f2 a2] x s1' [Hf Ha] H. cbn in Hf, Ha. subst f2.
  rewrite (bind_eval (gets api) _ {| fr := f1; api := a1 |} a1 _ eq_refl) in H. rewrite (bind_eval (gets api) _ {| fr := f1; api := a2 |} a2 _ eq_refl).
  rewrite <- (sim_pid _ _ _ _ HS _ _ Ha). revert H. by apply (osim_bind framed _ _ (fun _ => next) (fun _ => next)); [sim_arm|intros ?; sim_arm|].
Qed.
Lemma sim_i_ticks : isim i_ticks i_ticks.
Proof using HS.
  unfold i_ticks. apply osim_bind; [sim_arm|]. intros rd [f1 a1] [f2 a2] x s1' [Hf Ha] H. cbn in Hf, Ha. subst f2.
  rewrite (bind_eval (gets api) _ {| fr := f1; api := a1 |} a1 _ eq_refl) in H. rewrite (bind_eval (gets api) _ {| fr := f1; api := a2 |} a2 _ eq_refl).
  rewrite <- (sim_ticks _ _ _ _ HS _ _ Ha). revert H. by apply (osim_bind framed _ _ (fun _ => next) (fun _ => next)); [sim_arm|intros ?; sim_arm|].
Qed.

(** Every arm but the call of a sibling. *)
Lemma sim_select o fuel call1 call2 : uses m o -> o <> op.CALL ->
  isim (select_arm o (arms fuel call1 o) (throw BadCode)) (select_arm o (arms fuel call2 o) (throw BadCode)).
Proof using HS.
  intros Hu Hc. apply osim_select. unfold arms.
  repeat (apply Forall2_cons_2; [split; cbn [fst snd existsb]; [reflexivity|]|]); [..|apply Forall2_nil_2].
  all: intros Ho; rewrite ?orb_false_r in Ho; try (apply Z.eqb_eq in Ho; subst o).
  all: try (by destruct Hc).
  all: try first [apply sim_i_self_pid | apply sim_i_ticks].
  all: unfold i_nop, i_load_int, i_load_atom, i_load_nil, i_move, i_make_tuple, i_get_elem, i_cons, i_head_tail, i_arith, i_cmp_eq, i_cmp_lt,
    i_ret, i_spawn, i_send, i_recv, i_print, i_exit_atom, i_port_open, i_port_submit, i_buf_write, i_sleep_ms, i_buf_new, i_buf_read, i_port_submit2,
    i_tail_call, i_tail_call_ext, i_call_ext, i_bitop, i_shift, i_bnot, i_bin_new, i_bin_from_list, i_bin_to_list, i_bin_size, i_buf_to_bin, i_bin_to_buf,
    i_is_binary, i_bin_cat, i_list_cat, i_bin_at, i_bin_part, i_map_new, i_map_get, i_map_put; try (sim_api; fail).
  all: unfold i_jmp, i_jmp_if; sim_api; try apply sim_jump.
Qed.

(** ** Whole runs *)

Context {blame : S1 -> Prop} `{!ApiLawsUpTo S1 m blame}.

(** What a call of a function of the module may rely on, and that it is followed there. *)
Definition calls_sim (call1 : Z -> list Term -> M S1 Trap Term) (call2 : Z -> list Term -> M S2 Trap Term) : Prop :=
  forall idx g args s1 s2 v s1', lookupz (functions m) idx = Some g -> arity g = zlen args -> good s1 -> Forall (valid s1) args ->
  R s1 s2 -> call1 idx args s1 = (Ok v, s1') -> exists s2', call2 idx args s2 = (Ok v, s2') /\ R s1' s2'.

(** The operands of a call. *)
Definition call_header {S} `{!SystemApi S} : M (IS S) Trap (Z * Z * Z * list Term) :=
  rd ← fr_u8; callee ← fr_u32; n ← fr_u8; args ← get_args n; mret (rd, callee, n, args).

Lemma call_operands f p e (s s' : IS S1) rd callee n args :
  inv f p s -> items_ok m f [IReg; ICall] p e -> call_header s = (Ok (rd, callee, n, args), s') ->
  exists g, lookupz (functions m) callee = Some g /\ arity g = zlen args /\ Forall (valid (api s')) args /\ api s' = api s.
Proof using Type.
  intros Hi (p1 & [_ ->] & p2 & (v & g & b & Hv & Hg & Hb & Har & _) & _) H. unfold call_header in H. minv.
  apply fr_u8_read in Hc as [-> _]. apply fr_u32_read in Hc0 as [-> Hv']. apply fr_u8_read in Hc1 as [-> (b' & Hb' & ->)].
  pose proof (get_args_facts _ _ _ _ Hc2) as (Hn & Ha & _ & Hin). cbn in Hv', Hb', Ha, Hin.
  rewrite (inv_code _ _ _ Hi), (inv_pc _ _ _ Hi) in Hv', Hb'.
  assert (callee = v) as -> by congruence. replace (p + 1 + 4) with (p + 5) in * by lia.
  assert (b' = b) as -> by congruence. pose proof (b2z_range b). exists g. rewrite Hn, Ha. split_and!; [done|lia| |done].
  eapply Forall_impl; [exact Hin|]. intros x Hx. by eapply Forall_forall in Hx; [|apply Hi].
Qed.

Lemma sim_call_arm f call1 call2 p e (s1 s1' : IS S1) (s2 : IS S2) o :
  inv f p s1 -> items_ok m f [IReg; ICall] p e -> calls_sim call1 call2 -> framed s1 s2 ->
  i_call call1 s1 = (Ok o, s1') -> exists s2', i_call call2 s2 = (Ok o, s2') /\ framed s1' s2'.
Proof using HS.
  intros Hi Hit Hcall HR H. unfold i_call in H. minv.
  assert (Hops : call_header s1 = (Ok (a, a0, a1, a2), s4)).
  { unfold call_header. do 4 (erewrite bind_eval by eassumption). done. }
  destruct (call_operands f p e s1 s4 a a0 a1 a2 Hi Hit Hops) as (g & Hg & Har & Hva & Hap).
  assert (Hs : isim call_header call_header) by (unfold call_header; sim_arm).
  destruct (Hs _ _ _ _ HR Hops) as (t & Ht & HR3). clear Hs. unfold call_header in Ht. apply bind_ok in Ht as (b1 & t1 & T1 & Ht). apply bind_ok in Ht as (b2 & t2 & T2 & Ht).
  apply bind_ok in Ht as (b3 & t3 & T3 & Ht). apply bind_ok in Ht as (b4 & t4 & T4 & Ht). injection Ht as -> -> -> -> ->.
  unfold i_call. do 4 (erewrite bind_eval by eassumption). injection Hc3 as _ <-. destruct s4 as [g3 p3], t as [g4 p4]. destruct HR3 as [E3 HR3]. cbn in E3, HR3, Hva, Hap. subst g4.
  unfold on_api in Hc4. cbn in Hc4. destruct (call1 a0 a2 (safepoint p3)) as [r q] eqn:Hr. injection Hc4 as -> <-.
  assert (good p3) as Hgood by (rewrite Hap; apply Hi).
  destruct (law_safepoint p3 Hgood) as [Hg2 He2].
  destruct (Hcall a0 g a2 (safepoint p3) (safepoint p4) a4 q Hg Har Hg2) as (q2 & Hq & HRq); [by eapply extends_Forall|by apply (sim_safepoint _ _ _ _ HS)|exact Hr|].
  erewrite bind_eval by reflexivity. erewrite bind_eval by (unfold on_api; cbn; by rewrite Hq).
  revert H. case_bool_decide.
  - intros [= <- <-]. eexists. by split.
  - intros H1. eapply (osim_bind framed (fr_set a a4) (fr_set a a4) (fun _ => next) (fun _ => next)); [sim_arm|intros ?; sim_arm| |exact H1]. by split.
Qed.

Context (Hver : module_verified m) (Hlen : forall i f, lookupz (functions m) i = Some f -> zlen (code f) < 2 ^ 64).

Lemma sim_step i f fuel call1 call2 a (s1 s1' : IS S1) (s2 : IS S2) x :
  lookupz (functions m) i = Some f -> decoded m f a -> inv f a s1 -> calls_sim call1 call2 -> framed s1 s2 ->
  step fuel call1 s1 = (Ok x, s1') -> exists s2', step fuel call2 s2 = (Ok x, s2') /\ framed s1' s2'.
Proof using HS Hver.
  intros Hf Hd Hi Hcall HR H. destruct (fn_instr _ _ (Hver i f Hf) a Hd) as (is_ & term & e & (b & Hb & Hfm & Hit) & _).
  unfold step in H. apply bind_ok in H as (o & t1 & Hu & H). assert (Hs : isim fr_u8 fr_u8) by sim_arm.
  destruct (Hs _ _ _ _ HR Hu) as (t2 & Hu2 & HR2). unfold step. erewrite bind_eval by exact Hu2.
  apply fr_u8_read in Hu as [-> (b' & Hb' & ->)]. rewrite (inv_code _ _ _ Hi), (inv_pc _ _ _ Hi) in Hb'. assert (b' = b) as -> by congruence.
  destruct (decide (b2z b = op.CALL)) as [Ho|Ho].
  - rewrite Ho in *. assert (is_ = [IReg; ICall]) as -> by (revert Hfm; unfold format; op_eval; by intros [= <- _]).
    revert H. unfold arms. op_eval. intros H. eapply sim_call_arm; [|exact Hit|exact Hcall|exact HR2|exact H]. rewrite (inv_pc _ _ _ Hi). by eapply inv_set_pc.
  - eapply sim_select; [by exists i, f, a, b|done|exact HR2|exact H].
Qed.

Lemma sim_exec fuel : forall i f a g (s1 s1' : S1) (s2 : S2) v,
  lookupz (functions m) i = Some f -> decoded m f a -> inv f a {| fr := g; api := s1 |} -> R s1 s2 ->
  exec m fuel g s1 = (Ok v, s1') -> exists s2', exec m fuel g s2 = (Ok v, s2') /\ R s1' s2'.
Proof using HS Hver Hlen.
  induction fuel as [|fuel IH]; intros i f a g s1 s1' s2 v Hf Hd Hi HR H; [discriminate H|].
  set (call1 := fun idx args => f' ← lift (enter m idx args); exec (S:=S1) m fuel f').
  assert (Hsafe : call_ok m call1).
  { intros j h args s Hh Har Hg1 Hargs. destruct (enter_ok m Hver j h args s Hh Har Hg1 Hargs) as (g1 & Hen & Hi1).
    unfold call1, method, mbind, M_bind, lift. rewrite Hen. eapply (exec_safe m Hver Hlen fuel j h 0 g1 s Hh); [|done]. by eapply fn_entry, Hver. }
  assert (Hcall : calls_sim call1 (fun idx args => f' ← lift (enter m idx args); exec (S:=S2) m fuel f')).
  { intros j h args t1 t2 w t1' Hh Har Hg1 Hargs HRt Hc. destruct (enter_ok m Hver j h args t1 Hh Har Hg1 Hargs) as (g1 & Hen & Hi1).
    unfold call1, mbind, M_bind, lift in Hc |- *. rewrite Hen in Hc |- *. eapply (IH j h 0); [done|by eapply fn_entry, Hver|done|done|done]. }
  cbn [exec] in H |- *. fold call1 in H. pose proof (step_safe m Hver Hlen i f fuel call1 a _ Hf Hd Hi Hsafe) as Hs. unfold safe in Hs.
  destruct (step fuel call1 {| fr := g; api := s1 |}) as [[x|?| |] t1] eqn:Hst; [|discriminate H..].
  destruct (sim_step i f fuel call1 _ a _ t1 {| fr := g; api := s2 |} x Hf Hd Hi Hcall (conj eq_refl HR) Hst) as (t2 & -> & HRt).
  destruct HRt as [Ef HRt]. destruct x as [|t]; [|injection H as <- <-; eexists; by split].
  destruct Hs as (_ & _ & p & Hp & Hip). rewrite <- Ef. destruct t1 as [g1 a1]. by eapply (IH i f p).
Qed.

Lemma sim_run fuel i f xs (s1 s1' : S1) (s2 : S2) v :
  lookupz (functions m) i = Some f -> arity f = zlen xs -> good s1 -> Forall (valid s1) xs -> R s1 s2 ->
  run_function m fuel i xs s1 = (Ok v, s1') -> exists s2', run_function m fuel i xs s2 = (Ok v, s2') /\ R s1' s2'.
Proof using HS Hver Hlen.
  intros Hf Har Hg Hxs HR. destruct (enter_ok m Hver i f xs s1 Hf Har Hg Hxs) as (g & Hen & Hi). unfold run_function, mbind, M_bind, lift.
  rewrite Hen. apply (sim_exec fuel i f 0 g s1 s1' s2 v Hf); [|done|done]. by eapply fn_entry, Hver.
Qed.
End sim.
