(* ===== verification/Atoms.v ===== *)
(** * Atoms: the global atom table

    Models [kernel/src/atoms.rs].  Names are byte strings.  The table is a vector
    of names with an index; an atom is its position in the vector. *)

From S2P Require Import Prelude Term.

Record AtomTable := { names : list (list byte); index : gmap (list byte) Z }.

Definition ATOMS : AtomTable := {| names := []; index := ∅ |}.

(** [t.names.len() as u32]: the index is truncated to 32 bits. *)
Definition intern {E} (name : list byte) : M AtomTable E Z :=
  t ← get;
  match index t !! name with
  | Some i => mret i
  | None =>
      let i := wrap 32 (zlen (names t)) in
      _ ← modify (fun t => {| names := names t ++ [name]; index := <[name := i]> (index t) |});
      mret i
  end.

Definition bad_atom : list byte := [x3f; x62; x61; x64; x61; x74; x6f; x6d].   (* "?badatom" *)

Definition name (t : AtomTable) (idx : Z) : list byte := default bad_atom (lookupz (names t) idx).

Definition atom {E} (s : list byte) : M AtomTable E Term := i ← intern s; mret (term_atom i).

(** [atoms.iter().map(|a| intern(a)).collect()] *)
Fixpoint intern_all {E} (l : list (list byte)) : M AtomTable E (list Z) :=
  match l with
  | [] => mret []
  | a :: l' => i ← intern a; is_ ← intern_all l'; mret (i :: is_)
  end.

(** ** Specification *)

(** The index is exactly the inverse of the vector. *)
Record atoms_ok (t : AtomTable) : Prop := {
  ok_index s i : index t !! s = Some i <-> lookupz (names t) i = Some s;
  ok_size : zlen (names t) < 2 ^ 32;
}.

(** The atoms of [t] keep their numbers in [t']. *)
Definition atoms_extend (t t' : AtomTable) : Prop := forall i s, lookupz (names t) i = Some s -> lookupz (names t') i = Some s.

Lemma ATOMS_ok : atoms_ok ATOMS.
Proof. split; [|by vm_compute]. intros s i. cbn [ATOMS index names]. rewrite lookup_empty. split; [done|]. by rewrite lookupz_nil. Qed.

(** [intern] gives back the number of a known name, or appends a new one. *)
Lemma intern_spec {E} t s :
  atoms_ok t -> zlen (names t) + 1 < 2 ^ 32 -> exists i t',
    intern (E:=E) s t = (Ok i, t') /\ atoms_ok t' /\ atoms_extend t t' /\ lookupz (names t') i = Some s /\
    zlen (names t') <= zlen (names t) + 1.
Proof.
  intros [Hix Hsz] Hroom. unfold intern, mbind, M_bind, get. cbn beta iota.
  destruct (index t !! s) as [i|] eqn:Hs.
  { exists i, t. split_and!; [done|done|by intros ?|by apply Hix|lia]. }
  unfold modify. eexists _, _. split; [done|]. cbn [names index]. pose proof (zlen_nonneg (names t)).
  rewrite wrap_small by lia. split_and!.
  - split; cbn [names index]; [|rewrite zlen_app, zlen_cons, zlen_nil; lia]. intros s' i'.
    destruct (decide (s = s')) as [<-|Hne].
    + rewrite lookup_insert_eq, lookupz_snoc. split.
      * intros [= <-]. by rewrite decide_True.
      * case_decide; [by subst|]. intros Hi%Hix. congruence.
    + rewrite lookup_insert_ne by done. rewrite lookupz_snoc. rewrite Hix. case_decide; [|done]. subst i'.
      split; [|congruence]. intros Hi%lookupz_range. lia.
  - intros i' s' Hi. cbn [names]. rewrite lookupz_snoc. case_decide; [|done]. apply lookupz_range in Hi. lia.
  - rewrite lookupz_snoc. by rewrite decide_True.
  - rewrite zlen_app, zlen_cons, zlen_nil. lia.
Qed.

Lemma atoms_extend_trans t1 t2 t3 : atoms_extend t1 t2 -> atoms_extend t2 t3 -> atoms_extend t1 t3.
Proof. unfold atoms_extend. auto. Qed.

Lemma intern_all_spec {E} l : forall t,
  atoms_ok t -> zlen (names t) + zlen l < 2 ^ 32 -> exists is_ t',
    intern_all (E:=E) l t = (Ok is_, t') /\ atoms_ok t' /\ atoms_extend t t' /\
    Forall2 (fun i s => lookupz (names t') i = Some s) is_ l /\ zlen (names t') <= zlen (names t) + zlen l.
Proof.
  induction l as [|a l IH]; intros t Hok Hroom; cbn [intern_all].
  { exists [], t. split_and!; [done|done|by intros ?|constructor|rewrite zlen_nil; lia]. }
  rewrite zlen_cons in Hroom. pose proof (zlen_nonneg l).
  destruct (intern_spec (E:=E) t a) as (i & t1 & Hi & Hok1 & Hx1 & Hn1 & Hl1); [done|lia|].
  destruct (IH t1) as (is_ & t2 & His & Hok2 & Hx2 & Hn2 & Hl2); [done|lia|].
  exists (i :: is_), t2. rewrite (bind_eval _ _ _ _ _ Hi), (bind_eval _ _ _ _ _ His).
  split_and!; [done|done|by eapply atoms_extend_trans| |rewrite zlen_cons; lia].
  constructor; [by apply Hx2|done].
Qed.

(** ** Property *)

(** Interning is canonical.  Interning a module's atoms into a table with room
    for them gives each atom a number under which [name] finds it, gives two
    atoms the same number exactly when they are the same name, and leaves every
    atom interned before where it was. *)
Theorem intern_canonical {E} t l :
  atoms_ok t -> zlen (names t) + zlen l < 2 ^ 32 -> exists is_ t',
    intern_all (E:=E) l t = (Ok is_, t') /\ atoms_ok t' /\ map (name t') is_ = l /\
    (forall j k i i' a a', lookupz is_ j = Some i -> lookupz is_ k = Some i' ->
       lookupz l j = Some a -> lookupz l k = Some a' -> (i = i' <-> a = a')) /\
    (forall i s, lookupz (names t) i = Some s -> name t' i = s).
Proof.
  intros Hok Hroom. destruct (intern_all_spec (E:=E) l t Hok Hroom) as (is_ & t' & His & Hok' & Hx & Hall & _).
  exists is_, t'. split_and!; [done|done| | |intros i s Hi; unfold name; by rewrite (Hx i s Hi)].
  - clear His. induction Hall as [|i s is_ l Hi _ IH]; [done|]. cbn. f_equal; [unfold name; by rewrite Hi|].
    apply IH. rewrite zlen_cons in Hroom. lia.
  - intros j k i i' a a' Hj Hk Ha Ha'.
    assert (forall j i a, lookupz is_ j = Some i -> lookupz l j = Some a -> index t' !! a = Some i) as Hlk.
    { intros j0 i0 a0 [? Hi0]%lookupz_Some [? Ha0]%lookupz_Some. apply ok_index; [done|].
      by destruct (Forall2_lookup_lr _ _ _ _ _ _ Hall Hi0 Ha0). }
    pose proof (Hlk j i a Hj Ha) as H1. pose proof (Hlk k i' a' Hk Ha') as H2. split; [|intros ->; congruence].
    intros ->. apply ok_index in H1, H2; [|done..]. congruence.
Qed.

Lemma intern_canonical_witness : exists is_ t',
  intern_all (E:=Empty_set) [[x61]; [x62]; [x61]] ATOMS = (Ok is_, t') /\ map (name t') is_ = [[x61]; [x62]; [x61]].
Proof.
  destruct (intern_canonical (E:=Empty_set) ATOMS [[x61]; [x62]; [x61]] ATOMS_ok ltac:(by vm_compute))
    as (is_ & t' & H & _ & Hn & _). by exists is_, t'.
Defined.
