(* ===== verification/Proc.v ===== *)
(** * Proc: processes and the scheduler

    Models [kernel/src/proc.rs], the per-CPU scheduler state of
    [kernel/src/percpu.rs] and the timer interrupt of [kernel/src/irq.rs].

    Every critical section of the code (one hold of the [TABLE], [WHEEL], [MONITOR_AT_SPAWN]
    or a run-queue lock) is one atomic operation on the kernel state; a core's [pc] says
    between which of its critical sections it is, so that the operations of
    different cores interleave as they do in the code.  A saved machine context
    ([rsp] and the stack) is not modelled beyond the deadline a blocked receive
    keeps on it.  The wake-up IPI of [enqueue] and the [idle], [phase] and
    [switches] fields are hints and statistics that no decision reads. *)

From S2P Require Import Prelude Term Atoms.

Abbreviation Pid := Z (only parsing).

Inductive State := Runnable | Running | Waiting | Dead.

#[export] Instance State_eq_dec : EqDecision State.
Proof. solve_decision. Defined.

Definition DEFAULT_HEAP_PAGES : Z := 64.
Definition INITIAL_PAGES : Z := 16.

(** Exit reasons and atom names. *)
Definition str_normal : list byte := [x6e; x6f; x72; x6d; x61; x6c].
Definition str_noproc : list byte := [x6e; x6f; x70; x72; x6f; x63].
Definition str_DOWN : list byte := [x44; x4f; x57; x4e].
Definition str_quota : list byte :=
  [x68; x65; x61; x70; x20; x71; x75; x6f; x74; x61; x20; x65; x78; x63; x65; x65; x64; x65; x64].

(** What the scheduler calls: the memory of processes ([G] is the memory, the frame
    allocator and the stack zone; [H] a process heap; [F] a message fragment)
    and the teardown of ports. *)
Class Services (G H F : Type) := {
  heap_new : Z -> Z -> M G Empty_set H;            (* ProcHeap::new *)
  heap_copy_in : F -> M (G * H) heap_full Term;    (* copy_term(frag.root, &mut heap.cur) *)
  heap_grow : M (G * H) Empty_set bool;            (* ProcHeap::grow *)
  heap_used : H -> Z;                              (* heap.cur.used_bytes() *)
  heap_truncate : Z -> H -> H;                     (* heap.cur.truncate_to *)
  heap_spans : H -> list (Z * Z);                  (* ProcHeap::take_spans *)
  free_spans : list (Z * Z) -> M G Empty_set unit;
  fragment_copy : Term -> M G Empty_set F;         (* Fragment::copy_from *)
  fragment_tuple : list Term -> M G Empty_set F;   (* Fragment::build(|h| h.tuple(..)) *)
  map_stack : M G Empty_set Z;
  unmap_stack : Z -> M G Empty_set unit;
  close_owned_by : Pid -> M G Empty_set unit;      (* ports::close_owned_by *)
}.

Section kernel.
Context {G H F : Type} `{!Services G H F}.

(** ** State *)

Record Process := {
  state : State;
  stack_slot : Z;
  heap : H;
  mailbox : list F;
  kill_pending : bool;
  links : list Pid;
  monitors : list (Z * Pid);
  exit_reason : list byte;
  saved_deadline : option Z;   (* of the receive its saved context is blocked in *)
}.

Record Finalize := { fin_pid : Pid; fin_stack_slot : Z; fin_heap_spans : list (Z * Z) }.

(** Where a core is.  [PcEnq child back]: [child] is in the table and is about to be
    queued, on behalf of the process [back] or of the boot code; [PcPost pid]: the
    process has switched out, its deferred transition is still to be performed;
    [PcStart pid]: the process is marked running, its heap is still to be looked up. *)
Inductive Pc :=
| PcSched
| PcDue (now : Z) (due : list Pid)
| PcPicked (pid : Pid)
| PcFinal (fin : Finalize)
| PcProc (pid : Pid)
| PcSpawn (pid : Pid)
| PcEnq (child : Pid) (back : option Pid)
| PcBlock (pid : Pid) (deadline : option Z)
| PcPost (pid : Pid)
| PcStart (pid : Pid).

Record Cpu := { pc : Pc; current : Pid; runq : list Pid; post_switch : Z; preempt : bool }.

Record Kernel := {
  table : gmap Pid Process;
  wheel : list (Z * list Pid);        (* BTreeMap: sorted by deadline *)
  next_pid : Z;
  next_ref : Z;
  monitor_at_spawn : option (Z * Pid);
  ticks : Z;
  atoms : AtomTable;
  cpus : list Cpu;
  rest : G;
}.

Abbreviation KM := (M Kernel Empty_set).

Definition set_table (t : gmap Pid Process) (k : Kernel) : Kernel :=
  {| table := t; wheel := wheel k; next_pid := next_pid k; next_ref := next_ref k;
     monitor_at_spawn := monitor_at_spawn k; ticks := ticks k; atoms := atoms k; cpus := cpus k; rest := rest k |}.
Definition set_wheel (w : list (Z * list Pid)) (k : Kernel) : Kernel :=
  {| table := table k; wheel := w; next_pid := next_pid k; next_ref := next_ref k;
     monitor_at_spawn := monitor_at_spawn k; ticks := ticks k; atoms := atoms k; cpus := cpus k; rest := rest k |}.
Definition set_counters (np nr : Z) (ms : option (Z * Pid)) (k : Kernel) : Kernel :=
  {| table := table k; wheel := wheel k; next_pid := np; next_ref := nr;
     monitor_at_spawn := ms; ticks := ticks k; atoms := atoms k; cpus := cpus k; rest := rest k |}.
Definition set_ticks (n : Z) (k : Kernel) : Kernel :=
  {| table := table k; wheel := wheel k; next_pid := next_pid k; next_ref := next_ref k;
     monitor_at_spawn := monitor_at_spawn k; ticks := n; atoms := atoms k; cpus := cpus k; rest := rest k |}.
Definition set_rest (a : AtomTable) (g : G) (k : Kernel) : Kernel :=
  {| table := table k; wheel := wheel k; next_pid := next_pid k; next_ref := next_ref k;
     monitor_at_spawn := monitor_at_spawn k; ticks := ticks k; atoms := a; cpus := cpus k; rest := g |}.
Definition set_cpus (cs : list Cpu) (k : Kernel) : Kernel :=
  {| table := table k; wheel := wheel k; next_pid := next_pid k; next_ref := next_ref k;
     monitor_at_spawn := monitor_at_spawn k; ticks := ticks k; atoms := atoms k; cpus := cs; rest := rest k |}.

Definition set_pc (n : Pc) (x : Cpu) : Cpu :=
  {| pc := n; current := current x; runq := runq x; post_switch := post_switch x; preempt := preempt x |}.
Definition set_current (p : Pid) (x : Cpu) : Cpu :=
  {| pc := pc x; current := p; runq := runq x; post_switch := post_switch x; preempt := preempt x |}.
Definition set_runq (q : list Pid) (x : Cpu) : Cpu :=
  {| pc := pc x; current := current x; runq := q; post_switch := post_switch x; preempt := preempt x |}.
Definition set_post (n : Z) (x : Cpu) : Cpu :=
  {| pc := pc x; current := current x; runq := runq x; post_switch := n; preempt := preempt x |}.
Definition set_preempt (b : bool) (x : Cpu) : Cpu :=
  {| pc := pc x; current := current x; runq := runq x; post_switch := post_switch x; preempt := b |}.

Definition with_state (s : State) (p : Process) : Process :=
  {| state := s; stack_slot := stack_slot p; heap := heap p; mailbox := mailbox p; kill_pending := kill_pending p;
     links := links p; monitors := monitors p; exit_reason := exit_reason p; saved_deadline := saved_deadline p |}.
Definition with_reason (r : list byte) (p : Process) : Process :=
  {| state := state p; stack_slot := stack_slot p; heap := heap p; mailbox := mailbox p; kill_pending := kill_pending p;
     links := links p; monitors := monitors p; exit_reason := r; saved_deadline := saved_deadline p |}.
Definition with_kill (r : list byte) (p : Process) : Process :=
  {| state := state p; stack_slot := stack_slot p; heap := heap p; mailbox := mailbox p; kill_pending := true;
     links := links p; monitors := monitors p; exit_reason := r; saved_deadline := saved_deadline p |}.
Definition with_mail (h : H) (m : list F) (p : Process) : Process :=
  {| state := state p; stack_slot := stack_slot p; heap := h; mailbox := m; kill_pending := kill_pending p;
     links := links p; monitors := monitors p; exit_reason := exit_reason p; saved_deadline := saved_deadline p |}.
Definition with_links (l : list Pid) (p : Process) : Process :=
  {| state := state p; stack_slot := stack_slot p; heap := heap p; mailbox := mailbox p; kill_pending := kill_pending p;
     links := l; monitors := monitors p; exit_reason := exit_reason p; saved_deadline := saved_deadline p |}.
Definition with_monitors (l : list (Z * Pid)) (p : Process) : Process :=
  {| state := state p; stack_slot := stack_slot p; heap := heap p; mailbox := mailbox p; kill_pending := kill_pending p;
     links := links p; monitors := l; exit_reason := exit_reason p; saved_deadline := saved_deadline p |}.
Definition with_deadline (d : option Z) (p : Process) : Process :=
  {| state := state p; stack_slot := stack_slot p; heap := heap p; mailbox := mailbox p; kill_pending := kill_pending p;
     links := links p; monitors := monitors p; exit_reason := exit_reason p; saved_deadline := d |}.

(** ** Access *)

Definition upd_cpu (c : nat) (f : Cpu -> Cpu) : KM unit := modify (fun k => set_cpus (alter f c (cpus k)) k).
Definition the_cpu (c : nat) : KM Cpu := k ← get; unwrap (cpus k !! c).
Definition put (pid : Pid) (p : Process) : KM unit := modify (fun k => set_table (<[pid := p]> (table k)) k).
Definition on_rest {A} (f : M G Empty_set A) : KM A := fun k =>
  let '(r, g) := f (rest k) in (r, set_rest (atoms k) g k).
Definition on_atoms {A} (f : M AtomTable Empty_set A) : KM A := fun k =>
  let '(r, a) := f (atoms k) in (r, set_rest a (rest k) k).

(** [proc::current()] *)
Definition me (c : nat) : KM Pid := x ← the_cpu c; mret (current x).

(** [TABLE.lock().get_mut(&pid).unwrap()] *)
Definition the_process (pid : Pid) : KM Process := k ← get; unwrap (table k !! pid).

Definition enqueue (c : nat) (pid : Pid) : KM unit := upd_cpu c (fun x => set_runq (runq x ++ [pid]) x).

Definition is_alive (pid : Pid) (k : Kernel) : bool :=
  match table k !! pid with Some p => bool_decide (state p <> Dead) | None => false end.

(** ** Spawning *)

Definition fetch_next_pid : KM Pid :=
  k ← get; _ ← modify (set_counters (wrap 64 (next_pid k + 1)) (next_ref k) (monitor_at_spawn k)); mret (next_pid k).
Definition fetch_next_ref : KM Z :=
  k ← get; _ ← modify (set_counters (next_pid k) (wrap 64 (next_ref k + 1)) (monitor_at_spawn k)); mret (next_ref k).
Definition take_monitor_at_spawn : KM (option (Z * Pid)) :=
  k ← get; _ ← modify (set_counters (next_pid k) (next_ref k) None); mret (monitor_at_spawn k).

(** The process on whose behalf a core spawns. *)
Definition spawner (x : Cpu) : option Pid :=
  match pc x with PcProc p | PcSpawn p => Some p | _ => None end.

(** [spawn_inner] up to the end of its [TABLE] section, and its call of [enqueue] after it.
    The pid and the monitor are drawn just before the section; no other operation
    depends on when, except another spawn. *)
Definition spawn_inner (c : nat) (link_to : option Pid) (heap_pages : Z) : KM Pid :=
  slot ← on_rest map_stack;
  h ← on_rest (heap_new INITIAL_PAGES heap_pages);
  pid ← fetch_next_pid;
  ms ← take_monitor_at_spawn;
  k ← get;
  ls ← match link_to with
       | Some parent =>
           match table k !! parent with
           | Some pp => _ ← put parent (with_links (links pp ++ [pid]) pp); mret [parent]
           | None => mret []
           end
       | None => mret []
       end;
  _ ← put pid {| state := Runnable; stack_slot := slot; heap := h; mailbox := []; kill_pending := false;
                 links := ls; monitors := option_list ms; exit_reason := str_normal; saved_deadline := None |};
  _ ← upd_cpu c (fun x => set_pc (PcEnq pid (spawner x)) x);
  mret pid.

Definition spawn_enqueue (c : nat) : KM unit :=
  x ← the_cpu c;
  match pc x with
  | PcEnq child back =>
      _ ← enqueue c child;
      upd_cpu c (set_pc (match back with Some p => PcProc p | None => PcSched end))
  | _ => mret tt
  end.

Definition spawn (c : nat) : KM Pid := spawn_inner c None DEFAULT_HEAP_PAGES.
Definition spawn_with_heap (c : nat) (pages : Z) : KM Pid := spawn_inner c None pages.
Definition spawn_link (c : nat) : KM Pid := p ← me c; spawn_inner c (Some p) DEFAULT_HEAP_PAGES.

(** [spawn_monitor] up to its call of [spawn_inner], and that call. *)
Definition spawn_monitor_begin (c : nat) : KM Z :=
  r ← fetch_next_ref; p ← me c; k ← get;
  _ ← modify (set_counters (next_pid k) (next_ref k) (Some (r, p)));
  _ ← upd_cpu c (set_pc (PcSpawn p));
  mret r.
Definition spawn_monitor_end (c : nat) : KM Pid :=
  spawn c.

(** ** Delivery *)

Definition deliver_fragment (c : nat) (to : Pid) (frag : F) : KM bool :=
  k ← get;
  match table k !! to with
  | None => mret false
  | Some p =>
      if bool_decide (state p = Dead) then mret false
      else
        let p := with_mail (heap p) (mailbox p ++ [frag]) p in
        if bool_decide (state p = Waiting)
        then _ ← put to (with_state Runnable p); _ ← enqueue c to; mret true
        else _ ← put to p; mret true
  end.

Definition send (c : nat) (to : Pid) (msg : Term) : KM bool :=
  frag ← on_rest (fragment_copy msg); deliver_fragment c to frag.

(** [send_built] for the tuples the kernel sends. *)
Definition send_built (c : nat) (to : Pid) (elems : list Term) : KM bool :=
  frag ← on_rest (fragment_tuple elems); deliver_fragment c to frag.

Definition deliver_down (c : nat) (watcher : Pid) (r : Z) (dead : Pid) (reason : list byte) : KM unit :=
  down ← on_atoms (intern str_DOWN);
  why ← on_atoms (intern reason);
  _ ← send_built c watcher [term_atom down; term_reference r; term_pid dead; term_atom why];
  mret tt.

Definition monitor (c : nat) (target : Pid) : KM Z :=
  m ← me c; r ← fetch_next_ref; k ← get;
  _ ← match table k !! target with
      | Some p =>
          if bool_decide (state p <> Dead) then put target (with_monitors (monitors p ++ [(r, m)]) p)
          else deliver_down c m r target str_noproc
      | None => deliver_down c m r target str_noproc
      end;
  mret r.

(** ** Death *)

Definition mark_dead (c : nat) (pid : Pid) (reason : list byte) : KM unit :=
  k ← get;
  match table k !! pid with
  | None => mret tt
  | Some p =>
      match state p with
      | Dead => mret tt
      | Running => if kill_pending p then mret tt else put pid (with_kill reason p)
      | Runnable | Waiting => _ ← put pid (with_reason reason (with_state Dead p)); enqueue c pid
      end
  end.

Definition kill (c : nat) (pid : Pid) (reason : list byte) : KM unit := mark_dead c pid reason.

(** [exit], also [exit_current] and [fatal_current], which differ in the stack they abandon. *)
Definition exit (c : nat) (reason : list byte) : KM unit :=
  pid ← me c; p ← the_process pid;
  _ ← put pid (with_reason reason (with_state Dead p));
  upd_cpu c (set_pc (PcPost pid)).

Definition reap (c : nat) (pid : Pid) : KM Finalize :=
  p ← the_process pid;
  _ ← modify (fun k => set_table (delete pid (table k)) k);
  _ ← for_each (monitors p) (fun rw => deliver_down c rw.2 rw.1 pid (exit_reason p));
  _ ← (if bool_decide (exit_reason p <> str_normal)
       then for_each (links p) (fun linked => mark_dead c linked (exit_reason p))
       else mret tt);
  mret {| fin_pid := pid; fin_stack_slot := stack_slot p; fin_heap_spans := heap_spans (heap p) |}.

Definition finalize (fin : Finalize) : KM unit :=
  _ ← on_rest (unmap_stack (fin_stack_slot fin));
  _ ← on_rest (free_spans (fin_heap_spans fin));
  on_rest (close_owned_by (fin_pid fin)).

(** ** Yielding *)

Definition yield_now (c : nat) : KM unit :=
  pid ← me c; _ ← the_process pid;
  upd_cpu c (fun x => set_pc (PcPost pid) (set_post (Z.lor (wrap 64 (Z.shiftl pid 2)) 1) x)).

Definition safepoint (c : nat) : KM unit :=
  x ← the_cpu c;
  _ ← upd_cpu c (set_preempt false);
  if preempt x && bool_decide (current x <> 0) then yield_now c else mret tt.

(** ** Selective receive *)

Inductive scan_result := ScanMatch (i : nat) (t : Term) | ScanNone | ScanQuota.

(** The loop over the mailbox; [i] is the position of the head of [todo].  After a successful
    growth the loop goes on with the next message. *)
Fixpoint scan_mailbox (pred : Term -> G * H -> bool) (i : nat) (todo : list F) : M (G * H) Empty_set scan_result :=
  match todo with
  | [] => mret ScanNone
  | frag :: rest_ => fun gh =>
      let watermark := heap_used gh.2 in
      match heap_copy_in frag gh with
      | (Ok copied, gh1) =>
          if pred copied gh1 then (Ok (ScanMatch i copied), gh1)
          else scan_mailbox pred (S i) rest_ (gh1.1, heap_truncate watermark gh1.2)
      | (Err HeapFull, gh1) =>
          match heap_grow gh1 with
          | (Ok true, gh2) => scan_mailbox pred (S i) rest_ gh2
          | (Ok false, gh2) => (Ok ScanQuota, gh2)
          | (Err e, gh2) => (Err e, gh2)
          | (Panic, gh2) => (Panic, gh2)
          | (NoFuel, gh2) => (NoFuel, gh2)
          end
      | (Panic, gh1) => (Panic, gh1)
      | (NoFuel, gh1) => (NoFuel, gh1)
      end
  end.

Inductive recv_outcome := RecvDead | RecvQuota | RecvMatched (t : Term) | RecvTimeout | RecvBlock.

(** [timeout_ms.map(|ms| ticks() + ms)] *)
Definition recv_deadline (timeout_ms : option Z) (k : Kernel) : option Z :=
  (fun ms => wrap 64 (ticks k + ms)) <$> timeout_ms.

(** The critical section of one round of [recv_where]. *)
Definition recv_pass (c : nat) (pred : Term -> G * H -> bool) (deadline : option Z) : KM recv_outcome :=
  pid ← me c; p0 ← the_process pid;
  let p := if kill_pending p0 then with_state Dead p0 else p0 in
  if bool_decide (state p = Dead) then
    _ ← put pid p; _ ← upd_cpu c (set_pc (PcPost pid)); mret RecvDead
  else fun k =>
    match scan_mailbox pred 0 (mailbox p) (rest k, heap p) with
    | (Ok res_, (g, h)) =>
        let k1 := set_rest (atoms k) g k in
        match res_ with
        | ScanMatch i t => (_ ← put pid (with_mail h (delete i (mailbox p)) p); mret (RecvMatched t)) k1
        | ScanQuota => (_ ← put pid (with_mail h (mailbox p) p); mret RecvQuota) k1
        | ScanNone =>
            (_ ← put pid (with_mail h (mailbox p) p);
             match deadline with
             | Some d => if bool_decide (d <= ticks k) then mret RecvTimeout
                         else _ ← upd_cpu c (set_pc (PcBlock pid deadline)); mret RecvBlock
             | None => _ ← upd_cpu c (set_pc (PcBlock pid deadline)); mret RecvBlock
             end) k1
        end
    | (Err e, _) => (Err e, k)
    | (Panic, _) => (Panic, k)
    | (NoFuel, _) => (NoFuel, k)
    end.

(** [w.entry(d).or_default().push(pid)] *)
Fixpoint wheel_push (d : Z) (pid : Pid) (w : list (Z * list Pid)) : list (Z * list Pid) :=
  match w with
  | [] => [(d, [pid])]
  | (d', ps) :: w' =>
      if bool_decide (d < d') then (d, [pid]) :: w
      else if bool_decide (d = d') then (d', ps ++ [pid]) :: w'
      else (d', ps) :: wheel_push d pid w'
  end.

(** The rest of the round when nothing matched: register the timeout, then switch out. *)
Definition recv_block (c : nat) : KM unit :=
  x ← the_cpu c;
  match pc x with
  | PcBlock pid deadline =>
      _ ← match deadline with
          | Some d => modify (fun k => set_wheel (wheel_push d pid (wheel k)) k)
          | None => mret tt
          end;
      p ← the_process pid;
      _ ← put pid (with_deadline deadline p);
      upd_cpu c (fun x => set_pc (PcPost pid) (set_post (Z.lor (wrap 64 (Z.shiftl pid 2)) 2) x))
  | _ => mret tt
  end.

(** ** The timer wheel *)

Fixpoint wheel_due (now : Z) (w : list (Z * list Pid)) : list Pid * list (Z * list Pid) :=
  match w with
  | [] => ([], [])
  | (d, ps) :: w' =>
      if bool_decide (now < d) then ([], w)
      else let '(due, rest_) := wheel_due now w' in (ps ++ due, rest_)
  end.

(** [check_wheel]: its [WHEEL] section and its [TABLE] section. *)
Definition check_wheel_due (c : nat) : KM unit :=
  k ← get;
  let '(due, w) := wheel_due (ticks k) (wheel k) in
  _ ← modify (set_wheel w);
  upd_cpu c (set_pc (PcDue (ticks k) due)).

Definition wake_one (c : nat) (now : Z) (pid : Pid) : KM unit :=
  k ← get;
  match table k !! pid with
  | Some p =>
      match state p with
      | Waiting => _ ← put pid (with_state Runnable p); enqueue c pid
      | Running => modify (fun k => set_wheel (wheel_push (wrap 64 (now + 1)) pid (wheel k)) k)
      | _ => mret tt
      end
  | None => mret tt
  end.

Definition check_wheel_wake (c : nat) : KM unit :=
  x ← the_cpu c;
  match pc x with
  | PcDue now due => _ ← upd_cpu c (set_pc PcSched); for_each due (wake_one c now)
  | _ => mret tt
  end.

(** ** The scheduler loop *)

(** [me.runq.lock().pop_front()] *)
Definition pop_own (c : nat) : KM unit :=
  x ← the_cpu c;
  match runq x with
  | pid :: q => upd_cpu c (fun x => set_pc (PcPicked pid) (set_runq q x))
  | [] => mret tt
  end.

(** One probe of the steal loop: [c.runq.lock().pop_back()] of another core [i]. *)
Definition steal_from (c i : nat) : KM unit :=
  y ← the_cpu i;
  match last (runq y) with
  | Some pid =>
      _ ← upd_cpu i (fun y => set_runq (removelast (runq y)) y);
      upd_cpu c (set_pc (PcPicked pid))
  | None => mret tt
  end.

(** The [TABLE] section that decides what to do with the picked process. *)
Definition start (c : nat) : KM unit :=
  x ← the_cpu c; k ← get;
  match pc x with
  | PcPicked pid =>
      match table k !! pid with
      | Some p =>
          match state p with
          | Runnable =>
              _ ← put pid (with_state Running p);
              upd_cpu c (set_pc (PcStart pid))
          | Dead =>
              fin ← reap c pid;
              upd_cpu c (set_pc (PcFinal fin))
          | _ => upd_cpu c (set_pc PcSched)
          end
      | None => upd_cpu c (set_pc PcSched)
      end
  | _ => mret tt
  end.

(** The [TABLE] section after it, which looks the heap up with [unwrap], and the switch. *)
Definition switch_to (c : nat) : KM unit :=
  x ← the_cpu c;
  match pc x with
  | PcStart pid => _ ← the_process pid; upd_cpu c (fun x => set_current pid (set_pc (PcProc pid) x))
  | _ => mret tt
  end.

(** The deferred transition of a process that asked for [kind]. *)
Definition post_action (c : nat) (kind : Z) (apid : Pid) : KM unit :=
  k ← get;
  match table k !! apid with
  | None => mret tt
  | Some p0 =>
      let p := if kill_pending p0 then with_state Dead p0 else p0 in
      if bool_decide (state p = Running) then
        if bool_decide (kind = 1) || negb (bool_decide (mailbox p = []))
        then _ ← put apid (with_state Runnable p); enqueue c apid
        else put apid (with_state Waiting p)
      else put apid p
  end.

(** What follows the switch back to the scheduler. *)
Definition after_switch (c : nat) : KM unit :=
  x ← the_cpu c;
  match pc x with
  | PcPost pid =>
      let action := post_switch x in
      _ ← upd_cpu c (fun x => set_pc PcSched (set_post 0 (set_current 0 x)));
      let kind := Z.land action 3 in
      _ ← (if bool_decide (kind = 1) || bool_decide (kind = 2)
           then post_action c kind (Z.shiftr action 2) else mret tt);
      k ← get;
      match table k !! pid with
      | Some p =>
          if bool_decide (state p = Dead)
          then fin ← reap c pid; upd_cpu c (set_pc (PcFinal fin))
          else mret tt
      | None => mret tt
      end
  | _ => mret tt
  end.

Definition run_finalize (c : nat) : KM unit :=
  x ← the_cpu c;
  match pc x with
  | PcFinal fin => _ ← finalize fin; upd_cpu c (set_pc PcSched)
  | _ => mret tt
  end.

(** [irq::timer_interrupt] *)
Definition timer_interrupt (c : nat) : KM unit :=
  _ ← (if bool_decide (c = 0%nat) then modify (fun k => set_ticks (wrap 64 (ticks k + 1)) k) else mret tt);
  upd_cpu c (set_preempt true).

(** ** Interleaving *)

(** The operations of a core [c].  What a process does between them is up to it. *)
Inductive action :=
| ATimer (c : nat)
| AWheelDue (c : nat) | AWheelWake (c : nat)
| APop (c : nat) | ASteal (c i : nat) | AStart (c : nat) | ASwitch (c : nat) | AFinalize (c : nat) | AAfterSwitch (c : nat)
| ADeliver (c : nat) (to : Pid) (elems : list Term)
| ASpawn (c : nat) (pages : Z) | ASpawnLink (c : nat) | ASpawnMonitor (c : nat) | ASpawnMonitor2 (c : nat) | AEnqueue (c : nat)
| AMonitor (c : nat) (target : Pid) | ASend (c : nat) (to : Pid) (msg : Term)
| AKill (c : nat) (pid : Pid) (reason : list byte)
| ASafepoint (c : nat) | AYield (c : nat) | AExit (c : nat) (reason : list byte)
| ARecv (c : nat) (pred : Term -> G * H -> bool) (deadline : option Z) | ABlock (c : nat).

Definition act (a : action) : KM unit :=
  match a with
  | ATimer c => timer_interrupt c
  | AWheelDue c => check_wheel_due c
  | AWheelWake c => check_wheel_wake c
  | APop c => pop_own c
  | ASteal c i => steal_from c i
  | AStart c => start c
  | ASwitch c => switch_to c
  | AFinalize c => run_finalize c
  | AAfterSwitch c => after_switch c
  | ADeliver c to elems => _ ← send_built c to elems; mret tt
  | ASpawn c pages => _ ← spawn_with_heap c pages; mret tt
  | ASpawnLink c => _ ← spawn_link c; mret tt
  | ASpawnMonitor c => _ ← spawn_monitor_begin c; mret tt
  | ASpawnMonitor2 c => _ ← spawn_monitor_end c; mret tt
  | AEnqueue c => spawn_enqueue c
  | AMonitor c t => _ ← monitor c t; mret tt
  | ASend c to msg => _ ← send c to msg; mret tt
  | AKill c pid reason => kill c pid reason
  | ASafepoint c => safepoint c
  | AYield c => yield_now c
  | AExit c reason => exit c reason
  | ARecv c pred d => _ ← recv_pass c pred d; mret tt
  | ABlock c => recv_block c
  end.

Definition in_sched (x : Cpu) : bool := match pc x with PcSched => true | _ => false end.
Definition in_proc (x : Cpu) : bool := match pc x with PcProc _ => true | _ => false end.

(** When a core can perform an operation.  The wheel belongs to core 0; a core steals when
    its own queue is empty; the boot code spawns from the scheduler's stack; pids stay below 2^62 so that [pid << 2] keeps them. *)
Definition enabled_at (a : action) (k : Kernel) (x : Cpu) : bool :=
  match a with
  | ATimer _ => true
  | AWheelDue c => in_sched x && bool_decide (c = 0%nat)
  | AWheelWake _ => match pc x with PcDue _ _ => true | _ => false end
  | APop _ => in_sched x
  | ASteal c i => in_sched x && bool_decide (runq x = []) && bool_decide (i <> c) && bool_decide (i < length (cpus k))%nat
  | AStart _ => match pc x with PcPicked _ => true | _ => false end
  | ASwitch _ => match pc x with PcStart _ => true | _ => false end
  | AFinalize _ => match pc x with PcFinal _ => true | _ => false end
  | AAfterSwitch _ => match pc x with PcPost _ => true | _ => false end
  | ADeliver _ _ _ => in_sched x || in_proc x
  | ASpawn _ _ => (in_sched x || in_proc x) && bool_decide (next_pid k < 2 ^ 62)
  | ASpawnLink _ => in_proc x && bool_decide (next_pid k < 2 ^ 62)
  | ASpawnMonitor2 _ => match pc x with PcSpawn _ => bool_decide (next_pid k < 2 ^ 62) | _ => false end
  | AEnqueue _ => match pc x with PcEnq _ _ => true | _ => false end
  | ABlock _ => match pc x with PcBlock _ _ => true | _ => false end
  | _ => in_proc x
  end.

Definition actor (a : action) : nat :=
  match a with
  | ATimer c | AWheelDue c | AWheelWake c | APop c | ASteal c _ | AStart c | ASwitch c | AFinalize c | AAfterSwitch c
  | ADeliver c _ _ | ASpawn c _ | ASpawnLink c | ASpawnMonitor c | ASpawnMonitor2 c | AEnqueue c | AMonitor c _ | ASend c _ _
  | AKill c _ _ | ASafepoint c | AYield c | AExit c _ | ARecv c _ _ | ABlock c => c
  end.

Definition enabled (a : action) (k : Kernel) : bool :=
  match cpus k !! actor a with Some x => enabled_at a k x | None => false end.

Definition kstep (k k' : Kernel) : Prop := exists a, enabled a k = true /\ act a k = (Ok tt, k').

Definition idle_cpu : Cpu := {| pc := PcSched; current := 0; runq := []; post_switch := 0; preempt := false |}.

(** Boot: no process, [ncpu] idle cores. *)
Definition boot (ncpu : nat) (g : G) : Kernel :=
  {| table := ∅; wheel := []; next_pid := 1; next_ref := 1; monitor_at_spawn := None; ticks := 0;
     atoms := ATOMS; cpus := replicate ncpu idle_cpu; rest := g |}.
End kernel.
