(* ===== verification/ProcInv.v ===== *)
(** * ProcInv: the scheduler's invariant

    Each process is in exactly one place: in one run queue (or just popped from
    it, or about to be put into it) when it is runnable, held by one core when it runs, nowhere when it
    waits, and a dead process is either still held by its core or queued for
    reaping.  The counts [qn] and [hn] make this a condition on each pid alone. *)

From S2P Require Import Prelude Term Atoms Proc.

Section inv.
Context {G H F : Type} `{!Services G H F}.
Implicit Types (k : @Kernel G H F) (p : @Process H F) (x : Cpu) (pid : Pid).

(** ** Counting *)

Definition sumc (f : Cpu -> Z) (cs : list Cpu) : Z := foldr (fun x n => f x + n) 0 cs.

Definition queued pid x : Z :=
  zlen (filter (fun q => q = pid) (runq x)) + (match pc x with PcPicked q | PcEnq q _ => if decide (q = pid) then 1 else 0 | _ => 0 end).
Definition held pid x : Z :=
  match pc x with
  | PcProc q | PcSpawn q | PcBlock q _ | PcPost q | PcStart q | PcEnq _ (Some q) => if decide (q = pid) then 1 else 0
  | _ => 0
  end.

Definition qn k pid : Z := sumc (queued pid) (cpus k).
Definition hn k pid : Z := sumc (held pid) (cpus k).

Lemma sumc_alter f g cs c x :
  cs !! c = Some x -> sumc f (alter g c cs) = sumc f cs - f x + f (g x).
Proof using Type.
  revert c. induction cs as [|y cs IH]; intros [|c] Hc; try done.
  - cbn in *. injection Hc as ->. lia.
  - change (f y + sumc f (alter g c cs) = f y + sumc f cs - f x + f (g x)). rewrite (IH c Hc). lia.
Qed.

Lemma sumc_nonneg f cs : (forall x, 0 <= f x) -> 0 <= sumc f cs.
Proof using Type. intros Hf. unfold sumc. induction cs as [|x cs IH]; cbn [foldr]; [lia|]. specialize (Hf x). lia. Qed.

Lemma sumc_ge f cs c x : (forall x, 0 <= f x) -> cs !! c = Some x -> f x <= sumc f cs.
Proof using Type.
  intros Hf. revert c. induction cs as [|y cs IH]; intros [|c] Hc; try done; change (sumc f (y :: cs)) with (f y + sumc f cs).
  - injection Hc as ->. pose proof (sumc_nonneg f cs Hf). lia.
  - specialize (IH c Hc). specialize (Hf y). lia.
Qed.

Lemma sumc_two f cs c c' x y :
  (forall x, 0 <= f x) -> c' <> c -> cs !! c = Some x -> cs !! c' = Some y -> f x + f y <= sumc f cs.
Proof using Type.
  intros Hf. revert c c'. induction cs as [|z cs IH]; intros [|c] [|c'] Hne Hx Hy; try done;
    change (sumc f (z :: cs)) with (f z + sumc f cs).
  - injection Hx as ->. pose proof (sumc_ge f cs c' y Hf Hy). lia.
  - injection Hy as ->. pose proof (sumc_ge f cs c x Hf Hx). lia.
  - specialize (IH c c' ltac:(congruence) Hx Hy). specialize (Hf z). lia.
Qed.

Lemma queued_nonneg pid x : 0 <= queued pid x.
Proof using Type.
  unfold queued. pose proof (zlen_nonneg (filter (fun q => q = pid) (runq x))). destruct (pc x); try lia;
  case_decide; lia.
Qed.

Lemma held_nonneg pid x : 0 <= held pid x.
Proof using Type. unfold held. destruct (pc x) as [| | | | | |? [?|]| | |]; try lia; case_decide; lia. Qed.

(** ** The invariant *)

Definition place (o : option (@Process H F)) (q h : Z) : Prop :=
  match o with
  | None => h = 0
  | Some p =>
      match state p with
      | Runnable => q = 1 /\ h = 0
      | Waiting => q = 0 /\ h = 0 /\ mailbox p = []
      | Running => q = 0 /\ h = 1
      | Dead => (q = 0 /\ h = 1) \/ (1 <= q /\ h = 0)
      end
  end.

Definition has_state k pid (s : State) : Prop := exists p, table k !! pid = Some p /\ state p = s.

Definition request pid (kind : Z) : Z := Z.lor (wrap 64 (Z.shiftl pid 2)) kind.

Definition cpu_ok k x : Prop :=
  match pc x with
  | PcProc pid | PcSpawn pid | PcBlock pid _ | PcEnq _ (Some pid) => current x = pid /\ post_switch x = 0 /\ has_state k pid Running
  | PcStart pid => post_switch x = 0 /\ has_state k pid Running
  | PcPost pid =>
      (post_switch x = 0 /\ has_state k pid Dead) \/
      ((post_switch x = request pid 1 \/ post_switch x = request pid 2) /\ has_state k pid Running)
  | _ => post_switch x = 0
  end.

Record Inv k : Prop := {
  inv_place pid : place (table k !! pid) (qn k pid) (hn k pid);
  inv_cpu c x : cpus k !! c = Some x -> cpu_ok k x;
  inv_fresh pid : next_pid k <= pid -> table k !! pid = None /\ qn k pid = 0;
  inv_pos pid p : table k !! pid = Some p -> 1 <= pid;
  inv_next : 1 <= next_pid k <= 2 ^ 62;
}.

(** The invariant speaks of the table, the cores and the pid counter only. *)
Lemma Inv_ext k k' :
  table k' = table k -> cpus k' = cpus k -> next_pid k' = next_pid k -> Inv k -> Inv k'.
Proof using Type.
  intros Ht Hc Hn [Hp Hcpu Hf Hpos Hnx]. unfold qn, hn in *.
  split; unfold qn, hn in *; rewrite ?Ht, ?Hc, ?Hn; auto.
  intros c x Hx. specialize (Hcpu c x Hx). unfold cpu_ok, has_state in *. rewrite Ht. exact Hcpu.
Qed.

(** What a core says of the process it holds. *)
Lemma cpu_ok_frame k k' pid x :
  held pid x = 0 -> (forall q, q <> pid -> table k' !! q = table k !! q) -> cpu_ok k x -> cpu_ok k' x.
Proof using Type.
  unfold held, cpu_ok, has_state. intros Hh Ht.
  destruct (pc x) as [| | | |q|q|q' [q|]|q d|q|q]; try done; case_decide; try done; by rewrite Ht.
Qed.

Lemma cpu_ok_same k k' x :
  (forall q s, has_state k q s -> has_state k' q s) -> cpu_ok k x -> cpu_ok k' x.
Proof using Type. unfold cpu_ok. intros Hs. destruct (pc x) as [| | | | | |? [?|]| | |]; naive_solver. Qed.

(** The change of one process and one core. *)
Lemma Inv_change k k' pid c x g (o : option Process) :
  Inv k -> cpus k !! c = Some x -> cpus k' = alter g c (cpus k) ->
  table k' = partial_alter (fun _ => o) pid (table k) -> next_pid k' = next_pid k ->
  pid < next_pid k -> (is_Some o -> 1 <= pid) ->
  (forall q, q <> pid -> queued q (g x) = queued q x /\ held q (g x) = held q x) ->
  place o (qn k pid - queued pid x + queued pid (g x)) (hn k pid - held pid x + held pid (g x)) ->
  (hn k pid = held pid x \/ exists p p', table k !! pid = Some p /\ o = Some p' /\ state p' = state p) ->
  cpu_ok k' (g x) -> Inv k'.
Proof using Type.
  intros [Hp Hcpu Hf Hpos Hnx] Hx Hc Ht Hn Hpid Hpid1 Hother Hplace Hhold Hok.
  assert (forall f, sumc f (cpus k') = sumc f (cpus k) - f x + f (g x)) as Hsum.
  { intros f. rewrite Hc. by apply sumc_alter. }
  assert (forall q, q <> pid -> table k' !! q = table k !! q) as Htq.
  { intros q Hq. rewrite Ht. by apply lookup_partial_alter_ne. }
  split.
  - intros q. unfold qn, hn in *. rewrite !Hsum. destruct (decide (q = pid)) as [->|Hq].
    + rewrite Ht, lookup_partial_alter_eq. exact Hplace.
    + destruct (Hother q Hq) as [-> ->]. rewrite (Htq q Hq). rewrite !Z.sub_add. apply Hp.
  - intros c' y Hy. rewrite Hc in Hy. destruct (decide (c' = c)) as [->|Hne].
    { rewrite list_lookup_alter_eq, Hx in Hy. injection Hy as <-. exact Hok. }
    rewrite list_lookup_alter_ne in Hy by done. specialize (Hcpu c' y Hy).
    destruct Hhold as [Hh|(p & p' & Hpp & -> & Hst)].
    + eapply cpu_ok_frame; [|exact Htq|exact Hcpu].
      assert (held pid x + held pid y <= hn k pid) as Hle by (eapply sumc_two; eauto using held_nonneg).
      pose proof (held_nonneg pid y). lia.
    + eapply cpu_ok_same; [|exact Hcpu]. intros q s (r & Hr & Hs). unfold has_state.
      destruct (decide (q = pid)) as [->|Hq]; [|rewrite (Htq q Hq); eauto].
      rewrite Ht, lookup_partial_alter_eq. exists p'. split; [done|]. congruence.
  - intros q Hq. rewrite Hn in Hq. destruct (Hf q Hq) as [Hfq Hqq].
    rewrite Htq by lia. split; [done|]. unfold qn in *. rewrite Hsum. destruct (Hother q) as [-> _]; lia.
  - intros q r Hr. destruct (decide (q = pid)) as [->|Hq]; [|rewrite (Htq q Hq) in Hr; eauto].
    rewrite Ht, lookup_partial_alter_eq in Hr. eauto.
  - rewrite Hn. exact Hnx.
Qed.

(** ** Program logic *)

(** The services answer whatever they are asked. *)
Definition total_services : Prop :=
  (forall a b (g : G), exists h g', heap_new a b g = (Ok h, g')) /\
  (forall frag (gh : G * H), exists r gh', heap_copy_in (F:=F) frag gh = (r, gh') /\ (r = Err HeapFull \/ exists t, r = Ok t)) /\
  (forall gh : G * H, exists b gh', heap_grow (F:=F) gh = (Ok b, gh')) /\
  (forall sp (g : G), exists g', free_spans (H:=H) (F:=F) sp g = (Ok tt, g')) /\
  (forall t (g : G), exists frag g', fragment_copy (H:=H) (F:=F) t g = (Ok frag, g')) /\
  (forall ts (g : G), exists frag g', fragment_tuple (H:=H) (F:=F) ts g = (Ok frag, g')) /\
  (forall g : G, exists s g', map_stack (H:=H) (F:=F) g = (Ok s, g')) /\
  (forall s (g : G), exists g', unmap_stack (H:=H) (F:=F) s g = (Ok tt, g')) /\
  (forall s (g : G), exists g', close_owned_by (H:=H) (F:=F) s g = (Ok tt, g')).

(** The operation ends in [Q]; only a service can make it panic. *)
Definition kwp {A} (m : M (@Kernel G H F) Empty_set A) (Q : A -> Kernel -> Prop) k : Prop :=
  match m k with
  | (Ok a, k') => Q a k'
  | (Err e, _) => True
  | _ => ~ total_services
  end.

Lemma kwp_bind {A B} (m : M Kernel Empty_set A) (f : A -> M Kernel Empty_set B) Q k :
  kwp m (fun a k' => kwp (f a) Q k') k -> kwp (x ← m; f x) Q k.
Proof using Type. unfold kwp, mbind, M_bind. by destruct (m k) as [[?|?| |] ?]. Qed.

Lemma kwp_mono {A} (m : M Kernel Empty_set A) (Q Q' : A -> Kernel -> Prop) k :
  kwp m Q k -> (forall a k', Q a k' -> Q' a k') -> kwp m Q' k.
Proof using Type. unfold kwp. destruct (m k) as [[?|?| |] ?]; auto. Qed.

Lemma kwp_ret {A} (a : A) Q k : Q a k -> kwp (mret a) Q k.
Proof using Type. done. Qed.
Lemma kwp_get Q k : Q k k -> kwp get Q k.
Proof using Type. done. Qed.
Lemma kwp_modify f (Q : unit -> Kernel -> Prop) k : Q tt (f k) -> kwp (modify f) Q k.
Proof using Type. done. Qed.
Lemma kwp_upd_cpu c f (Q : unit -> Kernel -> Prop) k :
  Q tt (set_cpus (alter f c (cpus k)) k) -> kwp (upd_cpu c f) Q k.
Proof using Type. done. Qed.
Lemma kwp_put pid p (Q : unit -> Kernel -> Prop) k :
  Q tt (set_table (<[pid := p]> (table k)) k) -> kwp (put pid p) Q k.
Proof using Type. done. Qed.

Lemma kwp_the_cpu c x (Q : Cpu -> Kernel -> Prop) k : cpus k !! c = Some x -> Q x k -> kwp (the_cpu c) Q k.
Proof using Type. intros Hx HQ. unfold kwp, the_cpu, mbind, M_bind, get. by rewrite Hx. Qed.

Lemma kwp_the_process pid p (Q : Process -> Kernel -> Prop) k :
  table k !! pid = Some p -> Q p k -> kwp (the_process pid) Q k.
Proof using Type. intros Hx HQ. unfold kwp, the_process, mbind, M_bind, get. by rewrite Hx. Qed.

Lemma kwp_me c x (Q : Pid -> Kernel -> Prop) k : cpus k !! c = Some x -> Q (current x) k -> kwp (me c) Q k.
Proof using Type. intros Hx HQ. apply kwp_bind. eapply kwp_the_cpu; [exact Hx|]. by apply kwp_ret. Qed.

Lemma kwp_on_rest {A} (f : M G Empty_set A) (Q : A -> Kernel -> Prop) k :
  (total_services -> exists a g, f (rest k) = (Ok a, g)) ->
  (forall a g, Q a (set_rest (atoms k) g k)) -> kwp (on_rest f) Q k.
Proof using Type.
  intros Ht HQ. unfold kwp, on_rest. destruct (f (rest k)) as [[a|[]| |] g]; [apply HQ|..];
    intros Hall; destruct (Ht Hall) as (? & ? & [=]).
Qed.

Lemma kwp_on_atoms {A} (f : M AtomTable Empty_set A) (Q : A -> Kernel -> Prop) k :
  (exists a t, f (atoms k) = (Ok a, t)) -> (forall a t, Q a (set_rest t (rest k) k)) -> kwp (on_atoms f) Q k.
Proof using Type. intros (a & t & Hf) HQ. unfold kwp, on_atoms. rewrite Hf. apply HQ. Qed.

Lemma intern_total s t : exists a t', intern (E:=Empty_set) s t = (Ok a, t').
Proof using Type.
  unfold intern, mbind, M_bind, get, modify, mret, M_ret. cbn beta iota. destruct (index t !! s); eauto.
Qed.

(** Operations that leave every core's control state alone. *)
Definition ctl (cs : list Cpu) : list (Pc * Pid * Z * bool) :=
  (fun x => (pc x, current x, post_switch x, preempt x)) <$> cs.

Definition calm k k' : Prop :=
  Inv k' /\ ctl (cpus k') = ctl (cpus k) /\ next_pid k' = next_pid k /\
  forall q, table k !! q = None -> table k' !! q = None.
Definition quiet {A} (c : nat) (m : M Kernel Empty_set A) : Prop := forall k,
  Inv k -> is_Some (cpus k !! c) -> kwp m (fun _ k' => calm k k') k.

Lemma calm_trans k1 k2 k3 : calm k1 k2 -> calm k2 k3 -> calm k1 k3.
Proof using Type. intros (? & ? & ? & ?) (? & ? & ? & ?). split_and!; [done|congruence|congruence|auto]. Qed.

Lemma calm_ext k k' :
  Inv k -> table k' = table k -> cpus k' = cpus k -> next_pid k' = next_pid k -> calm k k'.
Proof using Type. intros Hi Ht Hc Hn. split_and!; [by eapply Inv_ext|congruence|congruence|by rewrite Ht]. Qed.

Lemma calm_cpu k k' c : calm k k' -> is_Some (cpus k !! c) -> is_Some (cpus k' !! c).
Proof using Type.
  intros (_ & Hctl & _). rewrite <- !(fmap_is_Some (fun x => (pc x, current x, post_switch x, preempt x))).
  rewrite <- !list_lookup_fmap. unfold ctl in Hctl. by rewrite Hctl.
Qed.

Lemma quiet_bind {A B} c (m : M Kernel Empty_set A) (f : A -> M Kernel Empty_set B) :
  quiet c m -> (forall a, quiet c (f a)) -> quiet c (x ← m; f x).
Proof using Type.
  intros Hm Hf k Hi Hc. apply kwp_bind. eapply kwp_mono; [by apply Hm|]. intros a k1 Hk1. cbn beta.
  pose proof (calm_cpu _ _ _ Hk1 Hc). eapply kwp_mono; [apply Hf; [apply Hk1|done]|]. intros b k2 Hk2.
  exact (calm_trans _ _ _ Hk1 Hk2).
Qed.

Lemma quiet_ret {A} c (a : A) : quiet c (mret a).
Proof using Type. intros k Hi _. by apply calm_ext. Qed.

Lemma quiet_for_each {A} c (l : list A) body : (forall a, quiet c (body a)) -> quiet c (for_each l body).
Proof using Type.
  intros Hb. induction l as [|a l IH]; cbn [for_each]; [apply quiet_ret|]. by apply quiet_bind.
Qed.

Lemma quiet_on_rest {A} c (f : M G Empty_set A) :
  (forall g, total_services -> exists a g', f g = (Ok a, g')) -> quiet c (on_rest f).
Proof using Type. intros Hf k Hi _. apply kwp_on_rest; [auto|]. intros a g. by apply calm_ext. Qed.

Lemma quiet_intern c s : quiet c (on_atoms (intern s)).
Proof using Type.
  intros k Hi _. apply kwp_on_atoms; [apply intern_total|]. intros a t. by apply calm_ext.
Qed.

Lemma list_alter_fmap_same {A B} (f : A -> B) (g : A -> A) (c : nat) (l : list A) :
  (forall y, f (g y) = f y) -> f <$> alter g c l = f <$> l.
Proof using Type. intros Hg. apply list_eq. intros i. rewrite !list_lookup_fmap, list_lookup_alter.
  case_decide; [|done]. subst. destruct (l !! i); cbn; [by rewrite Hg|done]. Qed.

Lemma insert_None_2 (t : gmap Pid (@Process H F)) pid p q :
  t !! q = None -> q <> pid -> <[pid := p]> t !! q = None.
Proof using Type. intros. by rewrite lookup_insert_ne. Qed.

(** ** The transitions *)

Lemma table_range k pid p : Inv k -> table k !! pid = Some p -> 1 <= pid < next_pid k.
Proof using Type.
  intros Hi Hp. split; [by eapply inv_pos|]. destruct (decide (next_pid k <= pid)) as [Hle|]; [|lia].
  apply inv_fresh in Hle as [Hn _]; [|done]. congruence.
Qed.

(** A change of a process that keeps its state. *)
Lemma Inv_put_same k c pid p p' :
  Inv k -> is_Some (cpus k !! c) -> table k !! pid = Some p -> state p' = state p ->
  (state p = Waiting -> mailbox p' = mailbox p) -> calm k (set_table (<[pid := p']> (table k)) k).
Proof using Type.
  intros Hi [x Hx] Hp Hs Hm. split_and!; [|done|done|by intros; apply insert_None_2; congruence].
  apply (Inv_change k _ pid c x id (Some p')); try done.
  - cbn. symmetry. by apply list_alter_id.
  - by eapply table_range.
  - intros _. by eapply table_range.
  - pose proof (inv_place k Hi pid) as Hpl. rewrite Hp in Hpl. rewrite !Z.sub_add.
    cbn [place] in *. rewrite Hs. destruct (state p) eqn:Hst; try done. rewrite Hm by done. done.
  - right. eauto.
  - eapply (cpu_ok_same k); [|by eapply inv_cpu]. intros q s (r & Hr & Hrs). unfold has_state. cbn.
    destruct (decide (q = pid)) as [->|Hq]; [rewrite lookup_insert_eq|rewrite lookup_insert_ne by done]; eauto.
    exists p'. split; [done|]. congruence.
Qed.

Lemma queued_push q pid x :
  queued q (set_runq (runq x ++ [pid]) x) = queued q x + (if decide (q = pid) then 1 else 0).
Proof using Type.
  unfold queued. cbn [runq pc set_runq]. rewrite filter_app, filter_cons, filter_nil, zlen_app.
  destruct (decide (q = pid)) as [->|Hne]; [rewrite decide_True by done|rewrite decide_False by congruence];
    rewrite ?zlen_cons, zlen_nil; lia.
Qed.

Lemma held_push q pid x : held q (set_runq (runq x ++ [pid]) x) = held q x.
Proof using Type. done. Qed.

(** A process nobody holds becomes runnable, or dead, and is queued. *)
Lemma Inv_enqueue k c pid p p' :
  Inv k -> is_Some (cpus k !! c) -> table k !! pid = Some p ->
  (state p = Waiting /\ state p' = Runnable \/ (state p = Waiting \/ state p = Runnable) /\ state p' = Dead) ->
  calm k (set_cpus (alter (fun x => set_runq (runq x ++ [pid]) x) c (cpus k)) (set_table (<[pid := p']> (table k)) k)).
Proof using Type.
  intros Hi [x Hx] Hp Hst. pose proof (inv_place k Hi pid) as Hpl. rewrite Hp in Hpl. cbn [place] in Hpl.
  pose proof (sumc_ge (held pid) _ _ _ (held_nonneg pid) Hx) as Hge. fold (hn k pid) in Hge.
  pose proof (held_nonneg pid x).
  assert (hn k pid = 0) as Hh0 by (destruct (state p); naive_solver).
  split_and!; [|cbn; unfold ctl; by apply list_alter_fmap_same|done|by intros; apply insert_None_2; congruence].
  apply (Inv_change k _ pid c x (fun x => set_runq (runq x ++ [pid]) x) (Some p')); try done.
  - by eapply table_range.
  - intros _. by eapply table_range.
  - intros q Hq. rewrite queued_push, held_push, decide_False by done. lia.
  - rewrite queued_push, held_push, decide_True by done. cbn [place].
    destruct Hst as [[Hw ->]|[[Hw|Hw] ->]]; rewrite Hw in Hpl; lia.
  - left. lia.
  - eapply (cpu_ok_frame k _ pid); [rewrite held_push; lia| |].
    + intros q Hq. cbn. by rewrite lookup_insert_ne.
    + exact (inv_cpu k Hi c x Hx).
Qed.

Lemma quiet_deliver_fragment c to frag : quiet c (deliver_fragment c to frag).
Proof using Type.
  intros k Hi Hc. unfold deliver_fragment. apply kwp_bind, kwp_get.
  destruct (table k !! to) as [p|] eqn:Hp; [|by apply kwp_ret, calm_ext].
  case_bool_decide as Hd; [by apply kwp_ret, calm_ext|]. case_bool_decide as Hw.
  - apply kwp_bind, kwp_put. apply kwp_bind, kwp_upd_cpu, kwp_ret. cbn [cpus set_table set_cpus].
    eapply (Inv_enqueue k c to p); [done|done|done|left; done].
  - apply kwp_bind, kwp_put, kwp_ret. eapply Inv_put_same; [done|done|done|done|done].
Qed.

Lemma quiet_mark_dead c pid reason : quiet c (mark_dead c pid reason).
Proof using Type.
  intros k Hi Hc. unfold mark_dead. apply kwp_bind, kwp_get.
  destruct (table k !! pid) as [p|] eqn:Hp; [|by apply kwp_ret, calm_ext].
  destruct (state p) eqn:Hst.
  - apply kwp_bind, kwp_put, kwp_upd_cpu. eapply (Inv_enqueue k c pid p); [done|done|done|right; auto].
  - destruct (kill_pending p); [by apply kwp_ret, calm_ext|]. apply kwp_put.
    eapply Inv_put_same; [done|done|done|done|by intros Hw; congruence].
  - apply kwp_bind, kwp_put, kwp_upd_cpu. eapply (Inv_enqueue k c pid p); [done|done|done|right; auto].
  - by apply kwp_ret, calm_ext.
Qed.

Lemma quiet_send_built c to elems : quiet c (send_built c to elems).
Proof using Type.
  apply quiet_bind; [|intros; apply quiet_deliver_fragment].
  apply quiet_on_rest. intros g (_ & _ & _ & _ & _ & Ht & _). apply Ht.
Qed.

Lemma quiet_send c to msg : quiet c (send c to msg).
Proof using Type.
  apply quiet_bind; [|intros; apply quiet_deliver_fragment].
  apply quiet_on_rest. intros g (_ & _ & _ & _ & Ht & _). apply Ht.
Qed.

Lemma quiet_deliver_down c w r d reason : quiet c (deliver_down c w r d reason).
Proof using Type.
  apply quiet_bind; [apply quiet_intern|intros a]. apply quiet_bind; [apply quiet_intern|intros b].
  apply quiet_bind; [apply quiet_send_built|intros _; apply quiet_ret].
Qed.

Lemma quiet_fetch_next_ref c : quiet c fetch_next_ref.
Proof using Type. intros k Hi Hc. by apply kwp_bind, kwp_get, kwp_bind, kwp_modify, kwp_ret, calm_ext. Qed.

(** *** Changes of the cores alone *)

Lemma Inv_cpus k k' :
  Inv k -> table k' = table k -> next_pid k' = next_pid k ->
  (forall q, qn k' q = qn k q /\ hn k' q = hn k q) -> (forall c x, cpus k' !! c = Some x -> cpu_ok k x) -> Inv k'.
Proof using Type.
  intros [Hp Hcpu Hf Hpos Hnx] Ht Hn Hsum Hok. split; rewrite ?Ht, ?Hn; auto.
  - intros q. destruct (Hsum q) as [-> ->]. apply Hp.
  - intros c x Hx. specialize (Hok c x Hx). eapply cpu_ok_same; [|exact Hok].
    unfold has_state. by rewrite Ht.
  - intros q Hq. destruct (Hsum q) as [-> _]. auto.
Qed.

Lemma Inv_cpu_neutral k c x g :
  Inv k -> cpus k !! c = Some x ->
  (forall q, queued q (g x) = queued q x /\ held q (g x) = held q x) -> cpu_ok k (g x) ->
  Inv (set_cpus (alter g c (cpus k)) k).
Proof using Type.
  intros Hi Hx Hg Hok. apply (Inv_cpus k); [done|done|done| |].
  - intros q. unfold qn, hn. cbn [cpus set_cpus]. rewrite !(sumc_alter _ g _ c x) by done.
    destruct (Hg q) as [-> ->]. lia.
  - intros c' y Hy. cbn in Hy. destruct (decide (c' = c)) as [->|Hne].
    + rewrite list_lookup_alter_eq, Hx in Hy. by injection Hy as <-.
    + rewrite list_lookup_alter_ne in Hy by done. by eapply inv_cpu.
Qed.

(** Taking from the end of another core's queue. *)
Lemma queued_removelast q pid x :
  last (runq x) = Some pid ->
  queued q (set_runq (removelast (runq x)) x) = queued q x - (if decide (q = pid) then 1 else 0).
Proof using Type.
  intros Hl. assert (runq x = removelast (runq x) ++ [pid]) as Heq.
  { destruct (runq x) as [|y l] eqn:Hr using rev_ind; [done|]. rewrite last_snoc in Hl. injection Hl as ->.
    by rewrite removelast_last. }
  pose proof (queued_push q pid (set_runq (removelast (runq x)) x)) as Hq. cbn [runq set_runq] in Hq.
  rewrite <- Heq in Hq. unfold queued in *. cbn [runq set_runq pc] in *. lia.
Qed.

Lemma Inv_steal k c i x y pid :
  Inv k -> i <> c -> cpus k !! c = Some x -> pc x = PcSched -> cpus k !! i = Some y -> last (runq y) = Some pid ->
  Inv (set_cpus (alter (set_pc (PcPicked pid)) c (alter (fun y => set_runq (removelast (runq y)) y) i (cpus k))) k).
Proof using Type.
  intros Hi Hne Hx Hpc Hy Hl. apply (Inv_cpus k); [done|done|done| |].
  - intros q. unfold qn, hn. cbn [cpus set_cpus].
    assert (alter (fun y => set_runq (removelast (runq y)) y) i (cpus k) !! c = Some x) as Hx'
      by (by rewrite list_lookup_alter_ne).
    rewrite !(sumc_alter _ _ _ c x Hx'), !(sumc_alter _ _ _ i y Hy).
    rewrite (queued_removelast q pid y Hl). unfold held, queued. cbn [pc set_pc set_runq runq]. rewrite Hpc.
    destruct (decide (q = pid)) as [->|Hq]; [rewrite decide_True by done|rewrite decide_False by congruence]; lia.
  - intros c' z Hz. cbn in Hz. destruct (decide (c' = c)) as [->|Hne'].
    + rewrite list_lookup_alter_eq, list_lookup_alter_ne, Hx in Hz by done. injection Hz as <-.
      pose proof (inv_cpu k Hi c x Hx) as Hok. unfold cpu_ok in *. rewrite Hpc in Hok. exact Hok.
    + rewrite list_lookup_alter_ne in Hz by done. destruct (decide (c' = i)) as [->|Hni].
      * rewrite list_lookup_alter_eq, Hy in Hz. injection Hz as <-. exact (inv_cpu k Hi i y Hy).
      * rewrite list_lookup_alter_ne in Hz by done. by eapply inv_cpu.
Qed.

(** *** Birth *)

(** A core that may spawn, and the same core with a child to queue. *)
Definition may_spawn x : Prop := pc x = PcSched \/ exists pid, pc x = PcProc pid \/ pc x = PcSpawn pid.

Lemma spawner_spec x pid :
  may_spawn x -> let x' := set_pc (PcEnq pid (spawner x)) x in
  (forall q, queued q x' = queued q x + (if decide (q = pid) then 1 else 0) /\ held q x' = held q x) /\
  forall k, cpu_ok k x -> cpu_ok k x'.
Proof using Type.
  intros [Hpc|(p & [Hpc|Hpc])]; cbn; unfold queued, held, cpu_ok, spawner; cbn; rewrite Hpc;
    (split; [|done]); intros q; (split; [|done]); repeat case_decide; try congruence; lia.
Qed.

Lemma Inv_spawn k k' c x pid p :
  Inv k -> cpus k !! c = Some x -> may_spawn x -> pid = next_pid k -> next_pid k < 2 ^ 62 -> state p = Runnable ->
  table k' = <[pid := p]> (table k) -> next_pid k' = pid + 1 ->
  cpus k' = alter (fun x => set_pc (PcEnq pid (spawner x)) x) c (cpus k) -> Inv k'.
Proof using Type.
  intros Hi Hx Hmay -> Hlt Hst Ht Hn Hc. pose proof Hi as [Hp Hcpu Hf Hpos Hnx].
  destruct (Hf (next_pid k)) as [Hnone Hq0]; [lia|]. destruct (spawner_spec x (next_pid k) Hmay) as [Hcount Hcok].
  pose proof (Hp (next_pid k)) as Hpl. rewrite Hnone in Hpl. cbn [place] in Hpl.
  assert (forall q, qn k' q = qn k q + (if decide (q = next_pid k) then 1 else 0) /\ hn k' q = hn k q) as Hsum.
  { intros q. unfold qn, hn. rewrite Hc, !(sumc_alter _ _ _ c x Hx). destruct (Hcount q) as [-> ->]. lia. }
  split; rewrite ?Hn.
  - intros q. destruct (Hsum q) as [-> ->]. rewrite Ht. destruct (decide (q = next_pid k)) as [->|Hq].
    + rewrite lookup_insert_eq. cbn [place]. rewrite Hst. lia.
    + rewrite lookup_insert_ne by done. rewrite Z.add_0_r. apply Hp.
  - intros c' y Hy. assert (cpu_ok k y) as Hok.
    { rewrite Hc in Hy. destruct (decide (c' = c)) as [->|Hne].
      - rewrite list_lookup_alter_eq, Hx in Hy. injection Hy as <-. apply Hcok. by eapply Hcpu.
      - rewrite list_lookup_alter_ne in Hy by done. by eapply Hcpu. }
    eapply cpu_ok_same; [|exact Hok]. intros q s (r & Hr & Hs). unfold has_state. rewrite Ht.
    rewrite lookup_insert_ne; [eauto|]. intros Heq. rewrite Heq in Hnone. congruence.
  - intros q Hq. destruct (Hsum q) as [-> _]. rewrite Ht, lookup_insert_ne, decide_False by lia.
    destruct (Hf q) as [? ?]; [lia|]. split; [done|lia].
  - intros q r Hr. rewrite Ht in Hr. destruct (decide (q = next_pid k)) as [->|Hq]; [lia|].
    rewrite lookup_insert_ne in Hr by done. eauto.
  - lia.
Qed.
End inv.
