(* ===== verification/ProcSafe.v ===== *)
(** * ProcSafe: every operation of every core preserves the scheduler's invariant *)

From S2P Require Import Prelude Term Atoms Proc ProcInv.

Section safe.
Context {G H F : Type} `{!Services G H F}.
Implicit Types (k : @Kernel G H F) (p : @Process H F) (x : Cpu) (pid : Pid).

(** The operation keeps the invariant, and only a service can make it panic. *)
Definition keeps {A} (m : M (@Kernel G H F) Empty_set A) k : Prop := kwp m (fun _ k' => Inv k') k.

Lemma quiet_keeps {A} c (m : M Kernel Empty_set A) k :
  quiet c m -> Inv k -> is_Some (cpus k !! c) -> keeps m k.
Proof using Type. intros Hq Hi Hc. eapply kwp_mono; [by apply Hq|]. by intros a k' [? _]. Qed.

Lemma keeps_drop {A B} (m : M Kernel Empty_set A) (b : B) k : keeps m k -> keeps (_ ← m; mret b) k.
Proof using Type. intros Hm. apply kwp_bind. eapply kwp_mono; [exact Hm|]. intros a k' Hk'. exact Hk'. Qed.

(** The process a core is executing. *)
Lemma running_process k c x pid :
  Inv k -> cpus k !! c = Some x -> (pc x = PcProc pid \/ pc x = PcSpawn pid \/ exists d, pc x = PcBlock pid d) ->
  current x = pid /\ post_switch x = 0 /\ hn k pid = held pid x /\ held pid x = 1 /\ qn k pid = 0 /\
  exists p, table k !! pid = Some p /\ state p = Running.
Proof using Type.
  intros Hi Hx Hpc. pose proof (inv_cpu k Hi c x Hx) as Hok. unfold cpu_ok in Hok.
  assert (held pid x = 1) as Hh.
  { unfold held. destruct Hpc as [->|[->|[d ->]]]; by rewrite decide_True. }
  assert (current x = pid /\ post_switch x = 0 /\ has_state k pid Running) as (Hcur & Hpost & p & Hp & Hst).
  { destruct Hpc as [E|[E|[d E]]]; rewrite E in Hok; exact Hok. }
  pose proof (inv_place k Hi pid) as Hpl. rewrite Hp in Hpl. cbn [place] in Hpl. rewrite Hst in Hpl.
  split_and!; [done|done|lia|done|lia|eauto].
Qed.

Lemma keeps_timer k c : Inv k -> is_Some (cpus k !! c) -> keeps (timer_interrupt c) k.
Proof using Type.
  intros Hi [x Hx].
  assert (forall k1, Inv k1 -> cpus k1 = cpus k -> keeps (upd_cpu c (set_preempt true)) k1) as Hset.
  { intros k1 Hi1 Hc. apply kwp_upd_cpu. eapply Inv_cpu_neutral; [done|by rewrite Hc|done|].
    pose proof (inv_cpu k1 Hi1 c x ltac:(by rewrite Hc)) as Hok. exact Hok. }
  unfold timer_interrupt. apply kwp_bind. case_bool_decide.
  - apply kwp_modify, Hset; [|done]. by apply (Inv_ext k).
  - by apply kwp_ret, Hset.
Qed.

Lemma keeps_wheel_due k c x : Inv k -> cpus k !! c = Some x -> pc x = PcSched -> keeps (check_wheel_due c) k.
Proof using Type.
  intros Hi Hx Hpc. unfold check_wheel_due. apply kwp_bind, kwp_get. destruct (wheel_due _ _) as [due w].
  apply kwp_bind, kwp_modify, kwp_upd_cpu.
  assert (Inv (set_wheel w k)) as Hi' by (by apply (Inv_ext k)).
  eapply Inv_cpu_neutral; [exact Hi'|exact Hx| |].
  - intros q. unfold queued, held. cbn. by rewrite Hpc.
  - pose proof (inv_cpu _ Hi' c x Hx) as Hok. unfold cpu_ok in *. rewrite Hpc in Hok. exact Hok.
Qed.

Lemma quiet_wake_one c now pid : quiet c (wake_one c now pid).
Proof using Type.
  intros k Hi Hc. unfold wake_one. apply kwp_bind, kwp_get.
  destruct (table k !! pid) as [p|] eqn:Hp; [|by apply kwp_ret, calm_ext].
  destruct (state p) eqn:Hst; try (by apply kwp_ret, calm_ext).
  apply kwp_bind, kwp_put, kwp_upd_cpu. eapply (Inv_enqueue k c pid p); [done|done|done|left; done].
Qed.

Lemma keeps_wheel_wake k c x now due : Inv k -> cpus k !! c = Some x -> pc x = PcDue now due -> keeps (check_wheel_wake c) k.
Proof using Type.
  intros Hi Hx Hpc. unfold check_wheel_wake. apply kwp_bind. eapply kwp_the_cpu; [exact Hx|].
  rewrite Hpc. apply kwp_bind, kwp_upd_cpu.
  eapply quiet_keeps; [apply quiet_for_each; intros; apply quiet_wake_one| |].
  - eapply Inv_cpu_neutral; [exact Hi|exact Hx| |].
    + intros q. unfold queued, held. cbn. by rewrite Hpc.
    + pose proof (inv_cpu _ Hi c x Hx) as Hok. unfold cpu_ok in *. rewrite Hpc in Hok. exact Hok.
  - cbn. rewrite list_lookup_alter_eq, Hx. by eexists.
Qed.

Lemma keeps_pop k c x : Inv k -> cpus k !! c = Some x -> pc x = PcSched -> keeps (pop_own c) k.
Proof using Type.
  intros Hi Hx Hpc. unfold pop_own. apply kwp_bind. eapply kwp_the_cpu; [exact Hx|].
  destruct (runq x) as [|pid q] eqn:Hq; [by apply kwp_ret|]. apply kwp_upd_cpu.
  eapply Inv_cpu_neutral; [exact Hi|exact Hx| |].
  - intros q'. unfold queued, held. cbn [pc runq set_pc set_runq]. rewrite Hpc, Hq, filter_cons. split; [|done].
    destruct (decide (pid = q')); rewrite ?zlen_cons; lia.
  - pose proof (inv_cpu _ Hi c x Hx) as Hok. unfold cpu_ok in *. rewrite Hpc in Hok. exact Hok.
Qed.

Lemma keeps_steal k c i x :
  Inv k -> cpus k !! c = Some x -> pc x = PcSched -> i <> c -> is_Some (cpus k !! i) -> keeps (steal_from c i) k.
Proof using Type.
  intros Hi Hx Hpc Hne [y Hy]. unfold steal_from. apply kwp_bind. eapply kwp_the_cpu; [exact Hy|].
  destruct (last (runq y)) as [pid|] eqn:Hl; [|by apply kwp_ret].
  apply kwp_bind, kwp_upd_cpu, kwp_upd_cpu. cbn [cpus set_cpus]. by eapply (Inv_steal k c i x y).
Qed.

Lemma quiet_finalize c fin : quiet c (finalize fin).
Proof using Type.
  apply quiet_bind.
  - apply quiet_on_rest. intros g (_ & _ & _ & _ & _ & _ & _ & Ht & _). destruct (Ht (fin_stack_slot fin) g). eauto.
  - intros _. apply quiet_bind.
    + apply quiet_on_rest. intros g (_ & _ & _ & Ht & _). destruct (Ht (fin_heap_spans fin) g). eauto.
    + intros _. apply quiet_on_rest. intros g (_ & _ & _ & _ & _ & _ & _ & _ & Ht). destruct (Ht (fin_pid fin) g). eauto.
Qed.

(** A core whose control state a quiet operation has left alone. *)
Lemma calm_core k k' c x :
  calm k k' -> cpus k !! c = Some x -> exists x', cpus k' !! c = Some x' /\ pc x' = pc x /\ current x' = current x /\
    post_switch x' = post_switch x.
Proof using Type.
  intros Hk Hx. destruct (calm_cpu k k' c Hk ltac:(eauto)) as [x' Hx']. exists x'. split; [done|].
  destruct Hk as (_ & Hctl & _). unfold ctl in Hctl.
  assert ((fun x => (pc x, current x, post_switch x, preempt x)) <$> (cpus k' !! c) =
          (fun x => (pc x, current x, post_switch x, preempt x)) <$> (cpus k !! c)) as Heq.
  { rewrite <- !list_lookup_fmap. by rewrite Hctl. }
  rewrite Hx, Hx' in Heq. cbn in Heq. by simplify_eq.
Qed.

(** Moving between two places of the scheduler loop. *)
Lemma keeps_move k c x n :
  Inv k -> cpus k !! c = Some x -> (forall q, queued q (set_pc n x) = queued q x /\ held q (set_pc n x) = held q x) ->
  cpu_ok k (set_pc n x) -> keeps (upd_cpu c (set_pc n)) k.
Proof using Type. intros Hi Hx Hn Hok. apply kwp_upd_cpu. by eapply Inv_cpu_neutral. Qed.

Lemma keeps_finalize k c x fin : Inv k -> cpus k !! c = Some x -> pc x = PcFinal fin -> keeps (run_finalize c) k.
Proof using Type.
  intros Hi Hx Hpc. unfold run_finalize. apply kwp_bind. eapply kwp_the_cpu; [exact Hx|]. rewrite Hpc.
  apply kwp_bind. eapply kwp_mono; [apply (quiet_finalize c); eauto|]. cbn beta. intros _ k1 Hk1.
  destruct (calm_core _ _ _ _ Hk1 Hx) as (x1 & Hx1 & Hpc1 & _ & Hpost1).
  pose proof (inv_cpu _ Hi c x Hx) as Hok. unfold cpu_ok in Hok. rewrite Hpc in Hok, Hpc1.
  eapply (keeps_move k1 c x1); [apply Hk1|done| |].
  - intros q. unfold queued, held. cbn. by rewrite Hpc1.
  - unfold cpu_ok. cbn. congruence.
Qed.

(** *** What the running process does *)

Lemma keeps_yield k c x pid : Inv k -> cpus k !! c = Some x -> pc x = PcProc pid -> keeps (yield_now c) k.
Proof using Type.
  intros Hi Hx Hpc. destruct (running_process k c x pid Hi Hx) as (Hcur & Hpost & Hhn & Hh & Hq & p & Hp & Hst); [auto|].
  unfold yield_now. apply kwp_bind. eapply kwp_me; [exact Hx|]. rewrite Hcur.
  apply kwp_bind. eapply kwp_the_process; [exact Hp|]. apply kwp_upd_cpu.
  eapply Inv_cpu_neutral; [exact Hi|exact Hx| |].
  - intros q. unfold queued, held. cbn. by rewrite Hpc.
  - unfold cpu_ok. cbn. right. split; [by left|]. by exists p.
Qed.

Lemma keeps_safepoint k c x pid : Inv k -> cpus k !! c = Some x -> pc x = PcProc pid -> keeps (safepoint c) k.
Proof using Type.
  intros Hi Hx Hpc. unfold safepoint. apply kwp_bind. eapply kwp_the_cpu; [exact Hx|].
  apply kwp_bind, kwp_upd_cpu. set (k1 := set_cpus _ k).
  assert (Inv k1) as Hi1 by (eapply Inv_cpu_neutral; [exact Hi|exact Hx|done|exact (inv_cpu _ Hi c x Hx)]).
  assert (cpus k1 !! c = Some (set_preempt false x)) as Hx1 by (cbn; by rewrite list_lookup_alter_eq, Hx).
  destruct (preempt x && _); [by eapply keeps_yield|by apply kwp_ret].
Qed.

(** The running process dies. *)
Lemma Inv_die k c x pid p p' :
  Inv k -> cpus k !! c = Some x -> (pc x = PcProc pid) -> table k !! pid = Some p -> state p' = Dead ->
  Inv (set_cpus (alter (set_pc (PcPost pid)) c (cpus k)) (set_table (<[pid := p']> (table k)) k)).
Proof using Type.
  intros Hi Hx Hpc Hp Hst. destruct (running_process k c x pid Hi Hx) as (Hcur & Hpost & Hhn & Hh & Hq & _); [auto|].
  assert (forall q, queued q (set_pc (PcPost pid) x) = queued q x) as Hqq by (intros q; unfold queued; cbn; by rewrite Hpc).
  assert (forall q, held q (set_pc (PcPost pid) x) = held q x) as Hhh by (intros q; unfold held; cbn; by rewrite Hpc).
  apply (Inv_change k _ pid c x (set_pc (PcPost pid)) (Some p')); try done.
  - by eapply table_range.
  - intros _. by eapply table_range.
  - rewrite Hqq, Hhh. cbn [place]. rewrite Hst. left. lia.
  - by left.
  - unfold cpu_ok. cbn. left. split; [done|]. exists p'. split; [apply lookup_insert_eq|done].
Qed.

Lemma keeps_exit k c x pid reason : Inv k -> cpus k !! c = Some x -> pc x = PcProc pid -> keeps (exit c reason) k.
Proof using Type.
  intros Hi Hx Hpc. destruct (running_process k c x pid Hi Hx) as (Hcur & _ & _ & _ & _ & p & Hp & Hst); [auto|].
  unfold exit. apply kwp_bind. eapply kwp_me; [exact Hx|]. rewrite Hcur.
  apply kwp_bind. eapply kwp_the_process; [exact Hp|]. apply kwp_bind, kwp_put, kwp_upd_cpu.
  by eapply (Inv_die k c x pid p).
Qed.

Lemma scan_mailbox_ends pred todo : forall i gh,
  match scan_mailbox pred i todo gh with
  | (Ok _, _) => True
  | (Err _, _) => True
  | _ => ~ total_services (G:=G) (H:=H) (F:=F)
  end.
Proof using Type.
  induction todo as [|frag todo IH]; intros i gh; cbn [scan_mailbox]; [done|].
  destruct (heap_copy_in frag gh) as [r gh1] eqn:Hcp.
  assert (total_services (G:=G) (H:=H) (F:=F) -> r = Err HeapFull \/ exists t, r = Ok t) as Htot.
  { intros (_ & Ht & _). destruct (Ht frag gh) as (r' & gh' & Hr & Hcase). rewrite Hcp in Hr. by injection Hr as -> _. }
  destruct r as [t|[]| |]; [destruct (pred t gh1); [done|apply IH]| |naive_solver..].
  destruct (heap_grow gh1) as [[[]|[]| |] gh2] eqn:Hgr; try done; try apply IH;
    intros (_ & _ & Ht & _); destruct (Ht gh1) as (? & ? & Heq); congruence.
Qed.

Lemma keeps_block_pc k c x pid d :
  Inv k -> cpus k !! c = Some x -> pc x = PcProc pid -> keeps (upd_cpu c (set_pc (PcBlock pid d))) k.
Proof using Type.
  intros Hi Hx Hpc. apply kwp_upd_cpu. eapply Inv_cpu_neutral; [exact Hi|exact Hx| |].
  - intros q. unfold queued, held. cbn. by rewrite Hpc.
  - pose proof (inv_cpu _ Hi c x Hx) as Hok. unfold cpu_ok in *. rewrite Hpc in Hok. exact Hok.
Qed.

Lemma keeps_recv k c x pid pred d : Inv k -> cpus k !! c = Some x -> pc x = PcProc pid -> keeps (recv_pass c pred d) k.
Proof using Type.
  intros Hi Hx Hpc. destruct (running_process k c x pid Hi Hx) as (Hcur & _ & _ & _ & _ & p & Hp & Hst); [auto|].
  unfold recv_pass. apply kwp_bind. eapply kwp_me; [exact Hx|]. rewrite Hcur.
  apply kwp_bind. eapply kwp_the_process; [exact Hp|]. set (p1 := if kill_pending p then with_state Dead p else p).
  cbv zeta. fold p1. case_bool_decide as Hd.
  { apply kwp_bind, kwp_put, kwp_bind, kwp_upd_cpu, kwp_ret. by eapply (Inv_die k c x pid p). }
  assert (p1 = p) as Hp1 by (unfold p1 in *; by destruct (kill_pending p)). rewrite Hp1 in *. clear p1 Hp1.
  pose proof (scan_mailbox_ends pred (mailbox p) 0 (rest k, heap p)) as Hend.
  unfold keeps, kwp. destruct (scan_mailbox pred 0 (mailbox p) (rest k, heap p)) as [[res_|e| |] [g h]]; try done.
  assert (forall h' m, Inv (set_table (<[pid := with_mail h' m p]> (table k)) (set_rest (atoms k) g k))) as Hput.
  { intros h' m. apply (Inv_put_same (set_rest (atoms k) g k) c pid p); [by apply (Inv_ext k)|by eauto|done|done|].
    intros Hw. congruence. }
  destruct res_ as [i t| |]; [exact (Hput h (delete i (mailbox p)))| |exact (Hput h (mailbox p))].
  set (k1 := set_table (<[pid := with_mail h (mailbox p) p]> (table k)) (set_rest (atoms k) g k)).
  specialize (Hput h (mailbox p)). fold k1 in Hput.
  destruct d as [d|]; [destruct (bool_decide (d <= ticks k)) eqn:Hdl|].
  - exact Hput.
  - pose proof (keeps_block_pc k1 c x pid (Some d) Hput Hx Hpc) as Hb.
    exact Hb.
  - exact (keeps_block_pc k1 c x pid None Hput Hx Hpc).
Qed.

Lemma keeps_recv_block k c x pid d : Inv k -> cpus k !! c = Some x -> pc x = PcBlock pid d -> keeps (recv_block c) k.
Proof using Type.
  intros Hi Hx Hpc. destruct (running_process k c x pid Hi Hx) as (Hcur & _ & _ & _ & _ & p & Hp & Hst); [eauto|].
  unfold recv_block. apply kwp_bind. eapply kwp_the_cpu; [exact Hx|]. rewrite Hpc.
  assert (forall k1, Inv k1 -> cpus k1 = cpus k -> table k1 = table k -> keeps (p ← the_process pid;
     _ ← put pid (with_deadline d p);
     upd_cpu c (fun x => set_pc (PcPost pid) (set_post (Z.lor (wrap 64 (Z.shiftl pid 2)) 2) x))) k1) as Hrest.
  { intros k1 Hi1 Hc1 Ht1. apply kwp_bind. eapply kwp_the_process; [by rewrite Ht1|]. apply kwp_bind, kwp_put, kwp_upd_cpu.
    set (k2 := set_table _ k1). assert (cpus k1 !! c = Some x) as Hx1 by (by rewrite Hc1).
    assert (Inv k2) as Hi2.
    { apply (Inv_put_same k1 c pid p); [done|by eauto|by rewrite Ht1|done|by intros; congruence]. }
    eapply Inv_cpu_neutral; [exact Hi2|exact Hx1| |].
    - intros q. unfold queued, held. cbn. by rewrite Hpc.
    - unfold cpu_ok. cbn. right. split; [by right|]. exists (with_deadline d p). split; [apply lookup_insert_eq|done]. }
  apply kwp_bind. destruct d as [d|].
  - apply kwp_modify, Hrest; [by apply (Inv_ext k)|done|done].
  - by apply kwp_ret, Hrest.
Qed.

(** *** Birth *)

Lemma keeps_spawn_inner k c x link_to pages (Q : Pid -> Kernel -> Prop) :
  Inv k -> cpus k !! c = Some x -> may_spawn x -> next_pid k < 2 ^ 62 -> (forall pid k', Inv k' -> Q pid k') ->
  kwp (spawn_inner c link_to pages) Q k.
Proof using Type.
  intros Hi Hx Hmay Hlt HQ. unfold spawn_inner.
  apply kwp_bind, kwp_on_rest; [intros (_ & _ & _ & _ & _ & _ & Ht & _); apply Ht|]. intros slot g1.
  apply kwp_bind, kwp_on_rest; [intros (Ht & _); apply Ht|]. intros h g2.
  apply kwp_bind, kwp_bind, kwp_get, kwp_bind, kwp_modify, kwp_ret.
  apply kwp_bind, kwp_bind, kwp_get, kwp_bind, kwp_modify, kwp_ret. apply kwp_bind, kwp_get.
  cbn [set_rest set_counters next_pid next_ref monitor_at_spawn].
  set (k1 := set_counters _ _ None _).
  pose proof (inv_next k Hi) as Hnx.
  assert (table k !! next_pid k = None) as Hnone by (apply (inv_fresh k Hi); lia).
  assert (next_pid k1 = next_pid k + 1) as Hn1 by (cbn; apply wrap_small; lia).
  (** the parent's new link keeps the parent's state *)
  assert (forall k2 ls pr, Inv (set_table (table k2) k) -> cpus k2 = cpus k -> next_pid k2 = next_pid k + 1 ->
    table k2 !! next_pid k = None ->
    kwp (_ ← put (next_pid k) {| state := Runnable; stack_slot := slot; heap := h; mailbox := []; kill_pending := false;
                 links := ls; monitors := pr; exit_reason := str_normal; saved_deadline := None |};
         _ ← upd_cpu c (fun x => set_pc (PcEnq (next_pid k) (spawner x)) x); mret (next_pid k)) Q k2) as Hend.
  { intros k2 ls pr Hi2 Hc2 Hn2 Hno2. apply kwp_bind, kwp_put, kwp_bind, kwp_upd_cpu, kwp_ret. apply HQ.
    eapply (Inv_spawn (set_table (table k2) k) _ c x (next_pid k)); [done|done|done|done|done| |done|done|]; [done|].
    cbn. by rewrite Hc2. }
  apply kwp_bind. destruct link_to as [parent|]; [destruct (table k1 !! parent) as [pp|] eqn:Hpp|].
  - apply kwp_bind, kwp_put, kwp_ret. apply Hend; [|done|done|].
    + apply (Inv_put_same k c parent pp); [done|by eauto|done|done|done].
    + cbn. rewrite lookup_insert_ne; [done|]. intros ->. cbn in Hpp. congruence.
  - apply kwp_ret, Hend; [by apply (Inv_ext k)|done|done|done].
  - apply kwp_ret, Hend; [by apply (Inv_ext k)|done|done|done].
Qed.

Lemma keeps_spawn_enqueue k c x child back :
  Inv k -> cpus k !! c = Some x -> pc x = PcEnq child back -> keeps (spawn_enqueue c) k.
Proof using Type.
  intros Hi Hx Hpc. unfold spawn_enqueue. apply kwp_bind. eapply kwp_the_cpu; [exact Hx|]. rewrite Hpc.
  apply kwp_bind, kwp_upd_cpu, kwp_upd_cpu. cbn [cpus set_cpus]. rewrite list_alter_alter_eq.
  set (n := match back with Some p => PcProc p | None => PcSched end).
  apply (Inv_cpu_neutral k c x (fun x => set_pc n (set_runq (runq x ++ [child]) x)) Hi Hx).
  - intros q. assert (queued q (set_pc n (set_runq (runq x ++ [child]) x)) =
      zlen (filter (fun r => r = q) (runq x ++ [child]))) as ->.
    { unfold queued, n. cbn [pc set_pc runq set_runq]. destruct back; cbn; lia. }
    unfold queued, held. rewrite Hpc. rewrite filter_app, filter_cons, filter_nil, zlen_app. cbn [pc set_pc]. unfold n.
    split; [|by destruct back]. destruct (decide (child = q)); rewrite ?zlen_cons, zlen_nil; lia.
  - pose proof (inv_cpu k Hi c x Hx) as Hok. unfold cpu_ok in *. rewrite Hpc in Hok. cbn [pc set_pc]. unfold n. destruct back; exact Hok.
Qed.

Lemma keeps_spawn_monitor_begin k c x pid :
  Inv k -> cpus k !! c = Some x -> pc x = PcProc pid -> keeps (spawn_monitor_begin c) k.
Proof using Type.
  intros Hi Hx Hpc. destruct (running_process k c x pid Hi Hx) as (Hcur & _); [auto|].
  unfold spawn_monitor_begin. apply kwp_bind, kwp_bind, kwp_get, kwp_bind, kwp_modify, kwp_ret.
  apply kwp_bind. eapply kwp_me; [exact Hx|]. apply kwp_bind, kwp_get, kwp_bind, kwp_modify, kwp_bind, kwp_upd_cpu, kwp_ret.
  set (k1 := set_counters _ _ (Some _) _). rewrite Hcur.
  assert (Inv k1) as Hi1 by (by apply (Inv_ext k)).
  eapply Inv_cpu_neutral; [exact Hi1|exact Hx| |].
  - intros q. unfold queued, held. cbn. by rewrite Hpc.
  - pose proof (inv_cpu _ Hi1 c x Hx) as Hok. unfold cpu_ok in *. rewrite Hpc in Hok. exact Hok.
Qed.

Lemma keeps_spawn_monitor_end k c x pid :
  Inv k -> cpus k !! c = Some x -> pc x = PcSpawn pid -> next_pid k < 2 ^ 62 -> keeps (spawn_monitor_end c) k.
Proof using Type.
  intros Hi Hx Hpc Hlt. unfold spawn_monitor_end, spawn. eapply keeps_spawn_inner; [done|done| |done|done].
  right. eauto.
Qed.

Lemma quiet_monitor c target : quiet c (monitor c target).
Proof using Type.
  intros k Hi [x Hx]. unfold monitor. apply kwp_bind. eapply kwp_me; [exact Hx|].
  apply kwp_bind, kwp_bind, kwp_get, kwp_bind, kwp_modify, kwp_ret. apply kwp_bind, kwp_get.
  set (r := next_ref k). set (k1 := set_counters _ _ _ k).
  assert (calm k k1) as Hk1 by (by apply calm_ext).
  apply kwp_bind. eapply kwp_mono with (Q := fun _ k2 => calm k k2); [|intros u2 k2 Hk2; exact Hk2].
  assert (kwp (deliver_down c (current x) r target str_noproc) (fun _ k2 => calm k k2) k1) as Hdown.
  { eapply kwp_mono; [apply (quiet_deliver_down c); [apply Hk1|by eauto]|]. intros u2 k2 Hk2. exact (calm_trans _ _ _ Hk1 Hk2). }
  destruct (table k1 !! target) as [p|] eqn:Hp; [|exact Hdown]. case_bool_decide; [|exact Hdown].
  apply kwp_put. eapply calm_trans; [exact Hk1|]. eapply Inv_put_same; [apply Hk1|by eauto|done|done|done].
Qed.

(** *** Death *)

Lemma kwp_reap k c pid p (Q : Finalize -> Kernel -> Prop) :
  table k !! pid = Some p -> is_Some (cpus k !! c) -> Inv (set_table (delete pid (table k)) k) ->
  (forall fin k', calm (set_table (delete pid (table k)) k) k' -> Q fin k') -> kwp (reap c pid) Q k.
Proof using Type.
  intros Hp Hc Hi HQ. unfold reap. apply kwp_bind. eapply kwp_the_process; [exact Hp|]. apply kwp_bind, kwp_modify.
  set (k1 := set_table _ k) in *. apply kwp_bind.
  eapply kwp_mono; [apply (quiet_for_each c); [intros rw; apply quiet_deliver_down|exact Hi|exact Hc]|].
  intros u2 k2 Hk2. cbn beta in *. apply kwp_bind. pose proof (calm_cpu _ _ _ Hk2 Hc) as Hc2.
  eapply kwp_mono with (Q := fun _ k3 => calm k1 k3); [|intros u3 k3 Hk3; by apply kwp_ret, HQ].
  case_bool_decide; [|by apply kwp_ret].
  eapply kwp_mono; [apply (quiet_for_each c); [intros rw; apply quiet_mark_dead|apply Hk2|exact Hc2]|].
  intros u3 k3 Hk3. exact (calm_trans _ _ _ Hk2 Hk3).
Qed.

(** A core drops what it picked, or goes on to release what the reaped process owned. *)
Lemma keeps_drop_picked k c x n :
  Inv k -> cpus k !! c = Some x -> post_switch x = 0 -> (forall q, held q x = 0) ->
  (forall q, pc x = PcPicked q -> table k !! q = None) -> (forall q b, pc x <> PcEnq q b) -> (n = PcSched \/ exists fin, n = PcFinal fin) ->
  keeps (upd_cpu c (set_pc n)) k.
Proof using Type.
  intros Hi Hx Hpost Hh Hpk Henq Hn. apply kwp_upd_cpu.
  assert (forall q, queued q (set_pc n x) = zlen (filter (fun r => r = q) (runq x)) /\ held q (set_pc n x) = 0 /\
    forall k0, cpu_ok k0 (set_pc n x)) as Hnew.
  { intros q. unfold queued, held, cpu_ok. destruct Hn as [->|[fin ->]]; cbn; by rewrite ?Z.add_0_r. }
  destruct (pc x) as [| |q| | | |? ?| | |] eqn:Hpc; try (by exfalso; eapply Henq); try (eapply Inv_cpu_neutral;
    [exact Hi|exact Hx|intros q'; destruct (Hnew q') as (-> & -> & _); rewrite Hh; unfold queued; rewrite Hpc; lia|apply (Hnew 0)]).
  specialize (Hpk q eq_refl).
  assert (q < next_pid k) as Hr.
  { destruct (decide (next_pid k <= q)) as [Hle|Hlt]; [|lia].
    destruct (inv_fresh k Hi q Hle) as [_ Hq0]. pose proof (sumc_ge (queued q) _ _ _ (queued_nonneg q) Hx) as Hge.
    fold (qn k q) in Hge. unfold queued in Hge. rewrite Hpc, decide_True in Hge by done.
    pose proof (zlen_nonneg (filter (fun q0 => q0 = q) (runq x))). lia. }
  apply (Inv_change k _ q c x (set_pc n) None); try done.
  - change (table k = delete q (table k)). by rewrite delete_id.
  - intros q' Hne. destruct (Hnew q') as (-> & -> & _). rewrite Hh. unfold queued. rewrite Hpc, decide_False by congruence. lia.
  - cbn [place]. pose proof (inv_place k Hi q) as Hpl. rewrite Hpk in Hpl. cbn [place] in Hpl.
    destruct (Hnew q) as (_ & -> & _). rewrite (Hh q). lia.
  - left. pose proof (inv_place k Hi q) as Hpl. rewrite Hpk in Hpl. cbn [place] in Hpl. rewrite (Hh q). lia.
  - apply (Hnew 0).
Qed.

Lemma keeps_start k c x pid : Inv k -> cpus k !! c = Some x -> pc x = PcPicked pid -> keeps (start c) k.
Proof using Type.
  intros Hi Hx Hpc. pose proof (inv_cpu k Hi c x Hx) as Hok. unfold cpu_ok in Hok. rewrite Hpc in Hok.
  assert (forall q, held q x = 0) as Hh by (intros q; unfold held; by rewrite Hpc).
  pose proof (sumc_ge (queued pid) _ _ _ (queued_nonneg pid) Hx) as Hge. fold (qn k pid) in Hge.
  assert (queued pid x = zlen (filter (fun r => r = pid) (runq x)) + 1) as Hqx
    by (unfold queued; by rewrite Hpc, decide_True).
  pose proof (zlen_nonneg (filter (fun r => r = pid) (runq x))) as Hz.
  pose proof (inv_place k Hi pid) as Hpl.
  unfold start. apply kwp_bind. eapply kwp_the_cpu; [exact Hx|]. apply kwp_bind, kwp_get. rewrite Hpc.
  destruct (table k !! pid) as [p|] eqn:Hp; cbn [place] in Hpl.
  2: { eapply keeps_drop_picked; eauto; intros q; rewrite Hpc; [by intros [= <-]|done]. }
  destruct (state p) eqn:Hst; try lia.
  - apply kwp_bind, kwp_put, kwp_upd_cpu. cbn [cpus set_table].
    set (g := set_pc (PcStart pid)).
    apply (Inv_change k _ pid c x g (Some (with_state Running p))); try done.
    + by eapply table_range.
    + intros _. by eapply table_range.
    + intros q Hq. unfold queued, held, g. cbn. rewrite Hpc. rewrite !decide_False by congruence. split; [lia|done].
    + unfold place. cbn. unfold queued, held, g in *. cbn. rewrite Hpc, decide_True in * by done. cbn in *. lia.
    + left. rewrite Hh. lia.
    + unfold cpu_ok. cbn. split; [done|]. exists (with_state Running p). split; [apply lookup_insert_eq|done].
  - apply kwp_bind. eapply (kwp_reap k c pid p); [done|by eauto| |].
    + apply (Inv_change k _ pid c x id None); try done.
      * cbn. symmetry. by apply list_alter_id.
      * by eapply table_range.
      * cbn [place]. unfold id. lia.
      * left. rewrite Hh. lia.
      * unfold cpu_ok, id. by rewrite Hpc.
    + intros fin k' Hk'. destruct (calm_core _ _ c x Hk' Hx) as (x' & Hx' & Hpc' & _ & Hpost').
      eapply (keeps_drop_picked k' c x'); [apply Hk'|done|congruence| | |by rewrite Hpc', Hpc|by eauto].
      * intros q. unfold held. by rewrite Hpc', Hpc.
      * intros q. rewrite Hpc', Hpc. intros [= <-]. apply Hk'. cbn. apply lookup_delete_eq.
Qed.

Lemma keeps_switch_to k c x pid : Inv k -> cpus k !! c = Some x -> pc x = PcStart pid -> keeps (switch_to c) k.
Proof using Type.
  intros Hi Hx Hpc. pose proof (inv_cpu k Hi c x Hx) as Hok. unfold cpu_ok in Hok. rewrite Hpc in Hok.
  destruct Hok as [Hpost (p & Hp & Hst)]. unfold switch_to. apply kwp_bind. eapply kwp_the_cpu; [exact Hx|]. rewrite Hpc.
  apply kwp_bind. eapply kwp_the_process; [exact Hp|]. apply kwp_upd_cpu. eapply Inv_cpu_neutral; [exact Hi|exact Hx| |].
  - intros q. unfold queued, held. cbn. by rewrite Hpc.
  - unfold cpu_ok. cbn. split_and!; [done|done|]. by exists p.
Qed.

(** *** The deferred transition *)

Lemma request_decode pid kind : 0 <= pid < 2 ^ 62 -> 0 <= kind < 4 ->
  Z.land (request pid kind) 3 = kind /\ Z.shiftr (request pid kind) 2 = pid.
Proof using Type.
  intros Hp Hk. unfold request. rewrite wrap_small by (rewrite Z.shiftl_mul_pow2 by lia; lia).
  assert (Z.lor (Z.shiftl pid 2) kind = pid * 4 + kind) as ->.
  { rewrite Z.shiftl_mul_pow2 by lia. change (2 ^ 2) with 4.
    rewrite <- Z.lxor_lor, <- Z.add_nocarry_lxor; [done|..];
      (replace (pid * 4) with (Z.shiftl pid 2) by (rewrite Z.shiftl_mul_pow2 by lia; lia));
      apply Z.bits_inj_0; intros n; rewrite Z.land_spec;
      (destruct (decide (n < 0)) as [Hn|Hn]; [by rewrite Z.testbit_neg_r by lia|]);
      rewrite Z.shiftl_spec by lia;
      (destruct (decide (n < 2)) as [Hn2|Hn2]; [by rewrite (Z.testbit_neg_r pid) by lia|]);
      rewrite (Z.bits_above_log2 kind), andb_false_r; [done|lia|..];
      (assert (Z.log2 kind <= Z.log2 3) by (apply Z.log2_le_mono; lia); change (Z.log2 3) with 1 in *; lia). }
  split.
  - change 3 with (Z.ones 2). rewrite Z.land_ones by lia. change (2 ^ 2) with 4.
    rewrite Z.add_comm, Z.mod_add by lia. by apply Z.mod_small.
  - rewrite Z.shiftr_div_pow2 by lia. change (2 ^ 2) with 4. rewrite Z.add_comm, Z.div_add by lia.
    rewrite Z.div_small by lia. lia.
Qed.

Definition release x : Cpu := set_pc PcSched (set_post 0 (set_current 0 x)).

(** The end of [after_switch]: reap the process if it has died. *)
Definition reap_if_dead (c : nat) (pid : Pid) : M (@Kernel G H F) Empty_set unit :=
  k ← get;
  match table k !! pid with
  | Some p => if bool_decide (state p = Dead) then fin ← reap c pid; upd_cpu c (set_pc (PcFinal fin)) else mret tt
  | None => mret tt
  end.

Section post.
Context k (c : nat) x pid (Hi : Inv k) (Hx : cpus k !! c = Some x) (Hpc : pc x = PcPost pid).

Lemma post_held : held pid x = 1 /\ hn k pid = 1 /\ qn k pid = 0 /\ exists p, table k !! pid = Some p /\
  1 <= pid < 2 ^ 62 /\ ((post_switch x = 0 /\ state p = Dead) \/
    ((post_switch x = request pid 1 \/ post_switch x = request pid 2) /\ state p = Running)).
Proof using Hi Hx Hpc.
  assert (held pid x = 1) as Hh by (unfold held; by rewrite Hpc, decide_True).
  pose proof (inv_cpu k Hi c x Hx) as Hok. unfold cpu_ok in Hok. rewrite Hpc in Hok.
  pose proof (sumc_ge (held pid) _ _ _ (held_nonneg pid) Hx) as Hge. fold (hn k pid) in Hge.
  pose proof (inv_place k Hi pid) as Hpl.
  assert (exists p, table k !! pid = Some p /\ ((post_switch x = 0 /\ state p = Dead) \/
    ((post_switch x = request pid 1 \/ post_switch x = request pid 2) /\ state p = Running))) as (p & Hp & Hcase).
  { destruct Hok as [[? (p & ? & ?)]|[? (p & ? & ?)]]; exists p; eauto. }
  rewrite Hp in Hpl. cbn [place] in Hpl. pose proof (table_range k pid p Hi Hp). pose proof (inv_next k Hi).
  split_and!; [done|..|exists p; split_and!; [done|lia|lia|done]].
  all: destruct Hcase as [[_ Hs]|[_ Hs]]; rewrite Hs in Hpl; lia.
Qed.

Lemma release_counts q : queued q (release x) = queued q x /\ held q (release x) = 0 /\ (q <> pid -> held q x = 0).
Proof using Hpc.
  unfold queued, held, release. cbn. rewrite Hpc. split_and!; [done|done|]. intros Hq. by rewrite decide_False by congruence.
Qed.

(** The process is removed as its core lets go of it. *)
Lemma keeps_release_dead k2 p :
  cpus k2 = alter release c (cpus k) -> next_pid k2 = next_pid k ->
  delete pid (table k2) = delete pid (table k) -> table k2 !! pid = Some p -> state p = Dead ->
  keeps (reap_if_dead c pid) k2.
Proof using Hi Hx Hpc.
  intros Hc2 Hn2 Ht2 Hp2 Hst. destruct post_held as (Hh & Hhn & Hqn & p0 & Hp0 & Hr & _).
  unfold reap_if_dead. apply kwp_bind, kwp_get. rewrite Hp2, bool_decide_true by done. apply kwp_bind.
  assert (cpus k2 !! c = Some (release x)) as Hx2 by (by rewrite Hc2, list_lookup_alter_eq, Hx).
  eapply (kwp_reap k2 c pid p); [done|by eauto| |].
  - apply (Inv_change k _ pid c x release None); try done.
    + by eapply table_range.
    + intros q Hq. destruct (release_counts q) as (-> & -> & Hq0). rewrite Hq0 by done. done.
    + cbn [place]. destruct (release_counts pid) as (_ & -> & _). lia.
    + left. lia.
  - intros fin k' Hk'. destruct (calm_core _ _ c _ Hk' Hx2) as (x' & Hx' & Hpc' & _ & Hpost').
    eapply (keeps_drop_picked k' c x'); [apply Hk'|done|done| | |by rewrite Hpc'|by eauto].
    + intros q. unfold held. by rewrite Hpc'.
    + intros q. by rewrite Hpc'.
Qed.

(** The process is let go alive. *)
Lemma keeps_release_live k2 p2 f :
  cpus k2 = alter (fun x => f (release x)) c (cpus k) -> next_pid k2 = next_pid k ->
  table k2 = <[pid := p2]> (table k) ->
  (state p2 = Runnable /\ f = (fun x => set_runq (runq x ++ [pid]) x) \/
   state p2 = Waiting /\ mailbox p2 = [] /\ f = id) -> keeps (reap_if_dead c pid) k2.
Proof using Hi Hx Hpc.
  intros Hc2 Hn2 Ht2 Hcase. destruct post_held as (Hh & Hhn & Hqn & p0 & Hp0 & Hr & _).
  unfold reap_if_dead. apply kwp_bind, kwp_get. rewrite Ht2, lookup_insert_eq.
  rewrite bool_decide_false by (destruct Hcase as [[-> _]|[-> _]]; done). apply kwp_ret.
  apply (Inv_change k _ pid c x (fun x => f (release x)) (Some p2)); try done.
  - by eapply table_range.
  - intros _. lia.
  - intros q Hq. destruct (release_counts q) as (Hq1 & Hq2 & Hq0).
    destruct Hcase as [[_ ->]|(_ & _ & ->)]; unfold id; rewrite ?queued_push, ?held_push, ?decide_False by done; lia.
  - destruct (release_counts pid) as (Hq1 & Hq2 & _). cbn [place].
    destruct Hcase as [[-> ->]|(-> & Hm & ->)]; unfold id; rewrite ?queued_push, ?held_push, ?decide_True by done;
      split_and?; (exact Hm || lia).
  - left. lia.
  - destruct Hcase as [[_ ->]|(_ & _ & ->)]; done.
Qed.

Lemma keeps_after_switch : keeps (after_switch c) k.
Proof using Hi Hx Hpc.
  destruct post_held as (Hh & Hhn & Hqn & p & Hp & Hr & Hcase).
  unfold after_switch. apply kwp_bind. eapply kwp_the_cpu; [exact Hx|]. rewrite Hpc. cbv zeta.
  apply kwp_bind, kwp_upd_cpu. fold (reap_if_dead c pid). set (k1 := set_cpus _ k).
  destruct Hcase as [[Hpost Hst]|[Hpost Hst]].
  { rewrite Hpost. change (Z.land 0 3) with 0. apply kwp_bind, kwp_ret. by eapply (keeps_release_dead k1 p). }
  assert (exists kind, (kind = 1 \/ kind = 2) /\ post_switch x = request pid kind) as (kind & Hkind & Hreq)
    by (destruct Hpost; eauto).
  destruct (request_decode pid kind) as [Hland Hshift]; [lia|lia|]. rewrite Hreq, Hland, Hshift. apply kwp_bind.
  assert (bool_decide (kind = 1) || bool_decide (kind = 2) = true) as ->
    by (destruct Hkind as [-> | ->]; done).
  unfold post_action. apply kwp_bind, kwp_get. change (table k1 !! pid) with (table k !! pid). rewrite Hp.
  destruct (kill_pending p) eqn:Hkill; cbv zeta.
  { apply kwp_put. eapply (keeps_release_dead _ (with_state Dead p)); [done|done| |apply lookup_insert_eq|done].
    apply delete_insert_eq. }
  rewrite bool_decide_true by done. destruct (bool_decide (kind = 1) || negb (bool_decide (mailbox p = []))) eqn:Hb.
  - apply kwp_bind, kwp_put, kwp_upd_cpu.
    eapply (keeps_release_live _ (with_state Runnable p)); [|done|done|by left].
    cbn [cpus set_cpus set_table k1]. by rewrite list_alter_alter_eq.
  - apply orb_false_iff in Hb as [_ Hm]. apply negb_false_iff, bool_decide_eq_true in Hm.
    apply kwp_put. eapply (keeps_release_live _ (with_state Waiting p) id); [done|done|done|by right].
Qed.
End post.
End safe.
