(* ===== verification/ProcThms.v ===== *)
(** * ProcThms: what the scheduler guarantees

    Theorems about every state the kernel of [Proc] can reach from boot, with any number
    of cores and any interleaving of their operations, and about the effect of
    the single operations. *)

From S2P Require Import Prelude Term Atoms Proc ProcInv ProcSafe.

Section thms.
Context {G H F : Type} `{!Services G H F}.
Implicit Types (k : @Kernel G H F) (p : @Process H F) (x : Cpu) (pid : Pid).

(** ** Reachable states *)

Definition reachable (ncpu : nat) (g : G) k : Prop := rtc kstep (boot ncpu g) k.

Lemma sumc_idle f n : f idle_cpu = 0 -> sumc f (replicate n idle_cpu) = 0.
Proof using Type. intros Hf. induction n as [|n IH]; [done|]. change (f idle_cpu + sumc f (replicate n idle_cpu) = 0). lia. Qed.

Lemma Inv_boot ncpu (g : G) : Inv (boot (H:=H) (F:=F) ncpu g).
Proof using Type.
  split; unfold qn, hn; cbn [boot table cpus next_pid].
  - intros pid. rewrite lookup_empty. cbn [place]. by apply sumc_idle.
  - intros c x Hx. apply lookup_replicate in Hx as [-> _]. done.
  - intros pid _. split; [by rewrite lookup_empty|by apply sumc_idle].
  - intros pid p. by rewrite lookup_empty.
  - lia.
Qed.

(** Every operation a core can perform keeps the invariant, and panics only if a service does. *)
Lemma act_keeps k a : Inv k -> enabled a k = true -> keeps (act a) k.
Proof using Type.
  intros Hi He. unfold enabled in He. destruct (cpus k !! actor a) as [x|] eqn:Hx; [|done].
  assert (in_proc x = true -> exists pid, pc x = PcProc pid) as Hproc by (unfold in_proc; destruct (pc x); eauto; done).
  assert (in_sched x = true -> pc x = PcSched) as Hsched by (unfold in_sched; destruct (pc x); done).
  destruct a; cbn [actor] in Hx; cbn [enabled_at] in He; cbn [act]; cbv beta;
    repeat match goal with
    | He : _ && _ = true |- _ => apply andb_true_iff in He as [He ?]
    | Hb : bool_decide _ = true |- _ => apply bool_decide_eq_true in Hb
    end;
    try (destruct (Hproc He) as [pid Hpc]); try (specialize (Hsched He));
    try (destruct (pc x) eqn:Hpc0; try done; []); try apply keeps_drop;
    try (by eapply quiet_keeps; eauto using quiet_send, quiet_send_built, quiet_mark_dead, quiet_monitor);
    try (by eauto using keeps_timer, keeps_wheel_due, keeps_wheel_wake, keeps_pop, keeps_steal, keeps_start, keeps_switch_to, keeps_finalize,
      keeps_after_switch, keeps_spawn_monitor_begin, keeps_spawn_monitor_end, keeps_spawn_enqueue, keeps_safepoint, keeps_yield, keeps_exit,
      keeps_recv, keeps_recv_block).
  - destruct (lookup_lt_is_Some_2 (cpus k) i) as [y Hy]; [done|]. eapply keeps_steal; eauto.
  - eapply keeps_spawn_inner; [done|done| |done|by intros]. unfold may_spawn. apply orb_true_iff in He as [He|He]; [auto|].
    right. destruct (Hproc He). eauto.
  - unfold spawn_link. apply kwp_bind. eapply kwp_me; [exact Hx|]. eapply keeps_spawn_inner; [done|done|unfold may_spawn; eauto|done|by intros].
  - eapply keeps_spawn_monitor_end; [done|done|done|]. by apply bool_decide_eq_true in He.
Qed.

Lemma reachable_Inv ncpu g k : reachable ncpu g k -> Inv k.
Proof using Type.
  intros Hr. eapply (rtc_preserves kstep Inv); [|exact Hr|apply Inv_boot].
  intros k1 k2 Hi (a & He & Ha). pose proof (act_keeps k1 a Hi He) as Hk. unfold keeps, kwp in Hk. by rewrite Ha in Hk.
Qed.

(** C4: In every reachable state of the kernel each process is in exactly one place.  A
    running process is held by exactly one core and is in no run queue; a runnable one
    is in exactly one run queue, once, or on a core that carries it to or from one, and held by no core; a waiting one is in no
    queue and has an empty mailbox, so no wake-up was lost; a dead one that is
    still in the table is held by one core or queued for reaping, never both.
    No two cores ever run the same process, and a core only runs processes
    that are still in the table: none is reaped under it. *)
Theorem scheduler_places ncpu g k :
  reachable ncpu g k ->
  (forall pid p, table k !! pid = Some p ->
     match state p with
     | Runnable => qn k pid = 1 /\ hn k pid = 0
     | Running => qn k pid = 0 /\ hn k pid = 1
     | Waiting => qn k pid = 0 /\ hn k pid = 0 /\ mailbox p = []
     | Dead => (qn k pid = 0 /\ hn k pid = 1) \/ (1 <= qn k pid /\ hn k pid = 0)
     end) /\
  (forall c c' x y pid, cpus k !! c = Some x -> cpus k !! c' = Some y -> held pid x = 1 -> held pid y = 1 -> c = c') /\
  (forall c x pid, cpus k !! c = Some x -> held pid x = 1 -> has_state k pid Running \/ has_state k pid Dead).
Proof using Type.
  intros Hi%reachable_Inv. split_and!.
  - intros pid p Hp. pose proof (inv_place k Hi pid) as Hpl. by rewrite Hp in Hpl.
  - intros c c' x y pid Hx Hy Hhx Hhy. destruct (decide (c' = c)) as [->|Hne]; [done|].
    pose proof (sumc_two (held pid) _ _ _ _ _ (held_nonneg pid) Hne Hx Hy) as Hle. fold (hn k pid) in Hle.
    pose proof (inv_place k Hi pid) as Hpl. destruct (table k !! pid) as [p|]; cbn [place] in Hpl; [destruct (state p)|]; lia.
  - intros c x pid Hx Hh. pose proof (sumc_ge (held pid) _ _ _ (held_nonneg pid) Hx) as Hge. fold (hn k pid) in Hge.
    pose proof (inv_place k Hi pid) as Hpl. unfold has_state.
    destruct (table k !! pid) as [p|]; cbn [place] in Hpl; [|lia]. destruct (state p) eqn:Hs; try lia; eauto.
Qed.

(** C32: The scheduler never panics.  In every reachable state every operation
    that a core can perform ends normally, provided the memory, stack and port
    services do: no process that a core looks up with [unwrap] is missing. *)
Theorem scheduler_never_panics ncpu g k a :
  total_services (G:=G) (H:=H) (F:=F) -> reachable ncpu g k -> enabled a k = true -> exists k', act a k = (Ok tt, k').
Proof using Type.
  intros Ht Hr He. pose proof (act_keeps k a (reachable_Inv _ _ _ Hr) He) as Hk. unfold keeps, kwp in Hk.
  destruct (act a k) as [[[]|[]| |] k']; try done. by exists k'.
Qed.

(** ** Monitoring at spawn *)

(** The operations that go through [spawn_inner], and the one that fills [MONITOR_AT_SPAWN]. *)
Definition spawns (a : @action G H) : bool :=
  match a with ASpawn _ _ | ASpawnLink _ | ASpawnMonitor _ | ASpawnMonitor2 _ => true | _ => false end.

Definition slot_kept {A} (m : M Kernel Empty_set A) : Prop := forall k, monitor_at_spawn (m k).2 = monitor_at_spawn k.

Lemma slot_bind {A B} (m : M Kernel Empty_set A) (f : A -> M Kernel Empty_set B) :
  slot_kept m -> (forall a, slot_kept (f a)) -> slot_kept (x ← m; f x).
Proof using Type.
  intros Hm Hf k. unfold mbind, M_bind. specialize (Hm k). destruct (m k) as [[a|e| |] k1]; [|done..].
  rewrite (Hf a k1). exact Hm.
Qed.

Lemma slot_modify f : (forall k, monitor_at_spawn (f k) = monitor_at_spawn k) -> slot_kept (modify f).
Proof using Type. intros Hf k. apply Hf. Qed.
Lemma slot_ret {A} (a : A) : slot_kept (mret a).
Proof using Type. done. Qed.
Lemma slot_unwrap {A} (o : option A) : slot_kept (unwrap o).
Proof using Type. by destruct o. Qed.
Lemma slot_on_rest {A} (f : M G Empty_set A) : slot_kept (on_rest f).
Proof using Type. intros k. unfold on_rest. by destruct (f (rest k)) as [? ?]. Qed.
Lemma slot_on_atoms {A} (f : M AtomTable Empty_set A) : slot_kept (on_atoms f).
Proof using Type. intros k. unfold on_atoms. by destruct (f (atoms k)) as [? ?]. Qed.
Lemma slot_for_each {A} (l : list A) body : (forall a, slot_kept (body a)) -> slot_kept (for_each l body).
Proof using Type. intros Hb. induction l as [|a l IH]; [done|]. by apply slot_bind. Qed.

#[local] Ltac slot := repeat first
  [ apply slot_ret | apply slot_unwrap | apply slot_on_rest | apply slot_on_atoms
  | apply slot_modify; done | apply slot_for_each; intros ?
  | match goal with
    | |- slot_kept (mbind _ _) => apply slot_bind; [|intros ?]
    | |- slot_kept get => done
    | |- slot_kept (match ?e with _ => _ end) => destruct e
    | |- slot_kept (if ?b then _ else _) => destruct b
    | |- slot_kept (let '(_, _) := ?e in _) => destruct e
    end ].

Lemma slot_recv_pass c pred d : slot_kept (recv_pass c pred d).
Proof using Type.
  unfold recv_pass, me, the_cpu, the_process, put, upd_cpu. slot. cbv zeta. slot.
  intros k. destruct (scan_mailbox pred 0 _ _) as [[[i t| |]|[]| |] [g h]]; try done.
  destruct d; [case_bool_decide|]; done.
Qed.

Lemma slot_act a : spawns a = false -> slot_kept (act a).
Proof using Type.
  intros Hs. destruct a; try done; cbn [act]; try (by slot; apply slot_recv_pass);
    unfold monitor, timer_interrupt, check_wheel_due, check_wheel_wake, wake_one, pop_own, steal_from, start, switch_to, run_finalize, finalize,
      after_switch, post_action, reap, deliver_down, send_built, fetch_next_ref, send, kill, mark_dead, safepoint,
      yield_now, exit, recv_block, deliver_fragment, spawn_enqueue, enqueue, me, the_cpu, the_process, put, upd_cpu;
    slot; cbv zeta; slot.
Qed.

(** Steps of the kernel in which no core spawns. *)
Definition calm_step k k' : Prop := exists a, enabled a k = true /\ spawns a = false /\ act a k = (Ok tt, k').

Lemma spawn_inner_monitors c link_to pages k pid k' :
  spawn_inner c link_to pages k = (Ok pid, k') -> exists p, table k' !! pid = Some p /\
    state p = Runnable /\ mailbox p = [] /\ monitors p = option_list (monitor_at_spawn k).
Proof using Type.
  intros Hs. unfold spawn_inner in Hs.
  apply bind_ok in Hs as (slot & k1 & H1 & Hs). pose proof (slot_on_rest map_stack k) as E1. rewrite H1 in E1. cbn in E1.
  apply bind_ok in Hs as (h & k2 & H2 & Hs). pose proof (slot_on_rest (heap_new INITIAL_PAGES pages) k1) as E2.
  rewrite H2 in E2. cbn in E2.
  apply bind_ok in Hs as (pid' & k3 & H3 & Hs). injection H3 as <- <-.
  apply bind_ok in Hs as (ms & k4 & H4 & Hs). injection H4 as <- <-. cbn in Hs.
  apply bind_ok in Hs as (k5 & k5' & [= -> ->] & Hs).
  apply bind_ok in Hs as (ls & k6 & H6 & Hs).
  apply bind_ok in Hs as (u7 & k7 & [= <- <-] & Hs). apply bind_ok in Hs as (u8 & k8 & [= <- <-] & Hs).
  injection Hs as <- <-. cbn. rewrite lookup_insert_eq. eexists. split; [done|]. cbn. by rewrite E2, E1.
Qed.

(** A process that calls [spawn_monitor] monitors the process it gets, with the
    reference it gets, whatever the other cores do in between, as long as none of them spawns:
    the child is new, runnable, and has exactly this monitor, so that its death
    cannot be missed. *)
Theorem spawn_monitor_attaches c k r k1 k2 child k3 :
  spawn_monitor_begin c k = (Ok r, k1) -> rtc calm_step k1 k2 -> spawn_monitor_end c k2 = (Ok child, k3) ->
  exists x p, cpus k !! c = Some x /\ table k3 !! child = Some p /\ state p = Runnable /\ mailbox p = [] /\
    monitors p = [(r, current x)].
Proof using Type.
  intros Hb Hr He.
  assert (exists x, cpus k !! c = Some x /\ monitor_at_spawn k1 = Some (r, current x)) as (x & Hx & Hm).
  { unfold spawn_monitor_begin in Hb. apply bind_ok in Hb as (r' & k0 & [= <- <-] & Hb).
    apply bind_ok in Hb as (p & k0 & Hp & Hb). apply bind_ok in Hp as (x & k0' & Hx & Hp).
    injection Hp as <- <-. unfold the_cpu, mbind, M_bind, get in Hx. cbn in Hx.
    destruct (cpus k !! c) as [x'|] eqn:Hxx; [|done]. injection Hx as <- <-. exists x'. split; [done|].
    cbn in Hb. by injection Hb as <- <-. }
  assert (monitor_at_spawn k2 = Some (r, current x)) as Hm2.
  { apply (rtc_preserves calm_step (fun k => monitor_at_spawn k = Some (r, current x)) k1); [|done|done].
    intros k' k'' Hk' (a & _ & Ha & Hact). pose proof (slot_act a Ha k') as Hs. rewrite Hact in Hs. cbn in Hs. congruence. }
  unfold spawn_monitor_end, spawn in He.
  apply spawn_inner_monitors in He as (p0 & Hp0 & Hst & Hmail & Hmon). exists x, p0. rewrite Hm2 in Hmon. done.
Qed.
End thms.

(** ** A kernel with simple services *)

Module Demo.

(** Heaps that hold a given number of terms, with one growth step; a message is its first element. *)
#[export] Instance demo_services : Services unit (Z * Z) Term := {|
  heap_new a b := mret (2, 0);
  heap_copy_in t := fun gh => if bool_decide (gh.2.2 < gh.2.1) then (Ok t, (gh.1, (gh.2.1, gh.2.2 + 1))) else (Err HeapFull, gh);
  heap_grow := fun gh => if bool_decide (gh.2.1 = 2) then (Ok true, (gh.1, (8, 0))) else (Ok false, gh);
  heap_used h := h.2;
  heap_truncate w h := (h.1, w);
  heap_spans h := [];
  free_spans sp := mret tt;
  fragment_copy t := mret t;
  fragment_tuple ts := mret (List.hd (term_int 0) ts);
  map_stack := mret 0;
  unmap_stack s := mret tt;
  close_owned_by p := mret tt
|}.

Abbreviation K := (@Kernel unit (Z * Z) Term).

Lemma demo_total : total_services (G:=unit) (H:=Z * Z) (F:=Term).
Proof.
  unfold total_services. split_and!; cbn; intros; repeat case_bool_decide; eauto 8.
Qed.

(** A sequence of operations, each of them enabled. *)
Fixpoint run_from (k : K) (l : list (@action unit (Z * Z))) : option K :=
  match l with
  | [] => Some k
  | a :: l' => if enabled a k then match act a k with (Ok tt, k') => run_from k' l' | _ => None end else None
  end.

Lemma run_from_rtc l : forall k k', run_from k l = Some k' -> rtc kstep k k'.
Proof.
  induction l as [|a l IH]; intros k k' Hrun; cbn in Hrun; [by injection Hrun as ->|].
  destruct (enabled a k) eqn:He; [|done]. destruct (act a k) as [[[]|?| |] k1] eqn:Ha; try done.
  eapply rtc_l; [by exists a|by apply IH].
Qed.

(** Two cores: core 0 runs process 1, core 1 runs process 2, which core 0 had queued. *)
Definition two_running : list (@action unit (Z * Z)) :=
  [ASpawn 0 64; AEnqueue 0; ASpawn 0 64; AEnqueue 0; APop 0; AStart 0; ASwitch 0; ASteal 1 0; AStart 1; ASwitch 1].

Definition two_running_k : K := default (boot 2 tt) (run_from (boot 2 tt) two_running).

Lemma two_running_reachable : reachable 2 tt two_running_k.
Proof. apply (run_from_rtc two_running). by vm_compute. Qed.

Lemma scheduler_places_witness : exists p, table two_running_k !! 2 = Some p /\ state p = Running /\
  qn two_running_k 2 = 0 /\ hn two_running_k 2 = 1.
Proof.
  destruct (scheduler_places 2 tt two_running_k two_running_reachable) as (Hpl & _ & _).
  assert (bool_decide (state <$> table two_running_k !! 2 = Some Running) = true) as Hst by (by vm_compute).
  apply bool_decide_eq_true in Hst. destruct (table two_running_k !! 2) as [p|] eqn:Hp; [|done].
  injection Hst as Hst. exists p. specialize (Hpl 2 p Hp). rewrite Hst in Hpl. split_and!; [done|done|apply Hpl|apply Hpl].
Defined.

Lemma scheduler_never_panics_witness : exists k', act (AExit 1 str_quota) two_running_k = (Ok tt, k').
Proof. apply (scheduler_never_panics 2 tt); [apply demo_total|apply two_running_reachable|by vm_compute]. Defined.

Lemma spawn_monitor_attaches_witness : exists r k1 child k3 p,
  spawn_monitor_begin 0 two_running_k = (Ok r, k1) /\ spawn_monitor_end 0 k1 = (Ok child, k3) /\
  table k3 !! child = Some p /\ monitors p = [(r, 1)].
Proof.
  destruct (spawn_monitor_begin 0 two_running_k) as [[r|?| |] k1] eqn:Hb; try (exfalso; by vm_compute in Hb).
  destruct (spawn_monitor_end 0 k1) as [[child|?| |] k3] eqn:He;
    try (exfalso; vm_compute in Hb; injection Hb as _ <-; by vm_compute in He).
  destruct (spawn_monitor_attaches 0 two_running_k r k1 k1 child k3) as (x & p & Hx & Hp & _ & _ & Hm); [done|done|done|].
  exists r, k1, child, k3, p. vm_compute in Hx. injection Hx as <-. split_and!; [done|done|done|exact Hm].
Defined.

(** What a process table shows of a process. *)
Definition shown (k : K) (pid : Z) : option (State * list (Z * Z)) := (fun p => (state p, monitors p)) <$> table k !! pid.

(** The slot [MONITOR_AT_SPAWN] is shared by all cores.  When another core spawns between
    the moment [spawn_monitor] fills the slot and the moment its own [spawn_inner] takes it, the
    other core's child gets the monitor and the monitored child gets none: here
    process 1 asks to monitor its child, process 2 spawns in between, and the
    monitor of process 1 ends up on process 3, the child of process 2. *)
Theorem spawn_monitor_race : exists k,
  run_from two_running_k [ASpawnMonitor 0; ASpawn 1 64; ASpawnMonitor2 0] = Some k /\
  shown k 3 = Some (Runnable, [(1, 1)]) /\ shown k 4 = Some (Runnable, []).
Proof. eexists. split; [by vm_compute|by vm_compute]. Qed.
(** A message that did not fit is passed over once the heap has grown: the second one is received first. *)
Example recv_passes_over :
  (scan_mailbox (fun _ _ => true) 0 [term_int 1; term_int 2] (tt, (2, 2))).1 = Ok (ScanMatch 1 (term_int 2)).
Proof. reflexivity. Qed.
End Demo.
