(* ===== verification/ProcSignals.v ===== *)
(** * ProcSignals: delivery and exit signals

    The exact effect of delivering a message and of reaping a dead process on
    the process table: [DOWN] messages to its monitors and, if the exit was not
    normal, death to its links. *)

From S2P Require Import Prelude Term Atoms Proc ProcInv ProcSafe ProcThms.

Section signals.
Context {G H F : Type} `{!Services G H F}.
Implicit Types (k : @Kernel G H F) (p : @Process H F) (x : Cpu) (pid : Pid).
Context (Hall : total_services (G:=G) (H:=H) (F:=F)).

(** ** Specification *)

(** A live process after [frags] have arrived, in this order. *)
Definition delivered (frags : list F) p : Process :=
  match state p with
  | Dead => p
  | s => with_state (if bool_decide (s = Waiting /\ frags <> []) then Runnable else s) (with_mail (heap p) (mailbox p ++ frags) p)
  end.

(** A process after an exit signal: dead, or to die when its core next looks. *)
Definition condemned (reason : list byte) p : Process :=
  match state p with
  | Dead => p
  | Running => if kill_pending p then p else with_kill reason p
  | _ => with_reason reason (with_state Dead p)
  end.

(** The atom table in which ['DOWN'] and the reason are interned. *)
Definition down_atoms (reason : list byte) (t : AtomTable) : AtomTable :=
  (intern (E:=Empty_set) reason (intern (E:=Empty_set) str_DOWN t).2).2.

(** [downs dead reason t refs g frags g']: the fragments hold the messages [{'DOWN', r, dead, reason}] for the
    references in turn, with the atoms of [t], and building them takes the other services from [g] to [g']. *)
Inductive downs (dead : Pid) (reason : list byte) (t : AtomTable) : list Z -> G -> list F -> G -> Prop :=
| downs_nil g : downs dead reason t [] g [] g
| downs_cons r refs g frag g1 frags g2 down why :
    index t !! str_DOWN = Some down -> index t !! reason = Some why ->
    fragment_tuple (H:=H) [term_atom down; term_reference r; term_pid dead; term_atom why] g = (Ok frag, g1) ->
    downs dead reason t refs g1 frags g2 -> downs dead reason t (r :: refs) g (frag :: frags) g2.

(** The fragments meant for [q] among those built for the monitors [l]. *)
Definition frags_for (q : Pid) (l : list (Z * Pid)) (frags : list F) : list F :=
  (filter (fun wf => wf.1.2 = q) (zip l frags)).*2.

Definition waits (t : gmap Pid (@Process H F)) (q : Pid) : Prop := state <$> t !! q = Some Waiting.
Definition idles (t : gmap Pid (@Process H F)) (q : Pid) : Prop :=
  state <$> t !! q = Some Waiting \/ state <$> t !! q = Some Runnable.

#[export] Instance waits_dec t q : Decision (waits t q).
Proof using Type. unfold waits. apply _. Defined.
#[export] Instance idles_dec t q : Decision (idles t q).
Proof using Type. unfold idles. apply _. Defined.

(** The elements of a list, each where it first occurs. *)
Fixpoint first_seen (l : list Pid) : list Pid :=
  match l with [] => [] | q :: l' => q :: filter (fun q' => q' <> q) (first_seen l') end.

(** [k] with [l] appended to the run queue of the core [c]. *)
Definition push (l : list Pid) x : Cpu := set_runq (runq x ++ l) x.
Definition queueing (c : nat) (l : list Pid) k : Kernel := set_cpus (alter (push l) c (cpus k)) k.

(** Whom the death of [p] makes ready to run or to be reaped, with the table [t] of the others: its watchers
    that wait, in the order of its monitors, then, unless it ended normally, its links that do not run. *)
Definition woken (t : gmap Pid (@Process H F)) p : list Pid :=
  filter (waits t) (first_seen (monitors p).*2) ++
  (if decide (exit_reason p <> str_normal) then filter (idles t) (first_seen (links p)) else []).

Lemma delivered_nil p : delivered [] p = p.
Proof using Type.
  destruct p as [s ? ? ? ? ? ? ? ?]. unfold delivered, with_state, with_mail. cbn. rewrite app_nil_r.
  destruct s; [..|done]; by rewrite bool_decide_false by naive_solver.
Qed.

Lemma delivered_app f1 f2 p : delivered f2 (delivered f1 p) = delivered (f1 ++ f2) p.
Proof using Type.
  destruct p as [s ? ? ? ? ? ? ? ?]. unfold delivered, with_state, with_mail. cbn.
  destruct s; [..|done]; cbn; repeat case_bool_decide; cbn; rewrite ?app_assoc; try done;
    destruct f1, f2; naive_solver.
Qed.

Lemma condemned_twice reason p : condemned reason (condemned reason p) = condemned reason p.
Proof using Type.
  unfold condemned at 2 3. destruct (state p) eqn:Hs; unfold condemned; rewrite ?Hs; try done.
  destruct (kill_pending p) eqn:Hk; [by rewrite Hs, Hk|]. cbn. by rewrite Hs.
Qed.

(** ** Run queues and atoms *)

Lemma queueing_nil c k : queueing c [] k = k.
Proof using Type.
  destruct k. unfold queueing, set_cpus. cbn. f_equal. apply list_alter_id. intros x. destruct x. unfold push, set_runq. cbn.
  by rewrite app_nil_r.
Qed.

Lemma queueing_app c l1 l2 k : queueing c l2 (queueing c l1 k) = queueing c (l1 ++ l2) k.
Proof using Type.
  unfold queueing, set_cpus. cbn. f_equal. rewrite list_alter_alter_eq. apply list_alter_ext; [|done]. intros x _.
  unfold push, set_runq. cbn. by rewrite app_assoc.
Qed.

(** Once [w] has been queued it is not queued again. *)
Lemma first_seen_cons (P P' : Pid -> Prop) `{!forall q, Decision (P q), !forall q, Decision (P' q)} w l :
  (forall q, P' q <-> P q /\ q <> w) ->
  filter P (first_seen (w :: l)) = (if decide (P w) then [w] else []) ++ filter P' (first_seen l).
Proof using Type.
  intros HP. cbn [first_seen]. rewrite filter_cons, list_filter_filter.
  rewrite (list_filter_iff (fun q => P q /\ q <> w) P') by (intros q; by rewrite HP). by case_decide.
Qed.

Lemma intern_known s t i : index t !! s = Some i -> intern (E:=Empty_set) s t = (Ok i, t).
Proof using Type. intros Hs. unfold intern, mbind, M_bind, get. cbn beta iota. by rewrite Hs. Qed.

Lemma intern_index s t i t' : intern (E:=Empty_set) s t = (Ok i, t') -> index t' !! s = Some i /\ index t ⊆ index t'.
Proof using Type.
  unfold intern, mbind, M_bind, get, modify, mret, M_ret. cbn beta iota. destruct (index t !! s) as [j|] eqn:Hs.
  - intros [= <- <-]. done.
  - cbn. intros [= <- <-]. cbn. rewrite lookup_insert_eq. split; [done|]. by apply insert_subseteq.
Qed.

Lemma down_atoms_spec reason t : exists t1 down why,
  intern (E:=Empty_set) str_DOWN t = (Ok down, t1) /\ intern (E:=Empty_set) reason t1 = (Ok why, down_atoms reason t) /\
  index (down_atoms reason t) !! str_DOWN = Some down /\ index (down_atoms reason t) !! reason = Some why /\
  down_atoms reason (down_atoms reason t) = down_atoms reason t.
Proof using Type.
  destruct (intern_total str_DOWN t) as (down & t1 & H1). destruct (intern_total reason t1) as (why & t2 & H2).
  assert (down_atoms reason t = t2) as -> by (unfold down_atoms; rewrite H1; cbn [snd]; by rewrite H2).
  pose proof (intern_index _ _ _ _ H1) as [Hi1 _]. pose proof (intern_index _ _ _ _ H2) as [Hi2 Hs2].
  assert (index t2 !! str_DOWN = Some down) as Hi3 by (by eapply lookup_weaken).
  exists t1, down, why. split_and!; [done..|]. unfold down_atoms. rewrite (intern_known _ _ _ Hi3). cbn [snd].
  by rewrite (intern_known _ _ _ Hi2).
Qed.

(** ** The operations *)

Lemma set_table_same k : set_table (table k) k = k.
Proof using Type. by destruct k. Qed.

Lemma alter_some (f : Process -> Process) (t : gmap Pid (@Process H F)) q p : t !! q = Some p -> alter f q t = <[q := f p]> t.
Proof using Type.
  intros Hp. apply map_eq. intros r. rewrite lookup_alter, lookup_insert. case_decide; [|done]. subst. by rewrite Hp.
Qed.

Lemma alter_none (f : Process -> Process) (t : gmap Pid (@Process H F)) q : t !! q = None -> alter f q t = t.
Proof using Type. intros Hp. apply map_eq. intros r. rewrite lookup_alter. case_decide; [|done]. subst. by rewrite Hp. Qed.

Lemma deliver_fragment_effect c to frag k :
  deliver_fragment c to frag k = (Ok (is_alive to k), queueing c (if decide (waits (table k) to) then [to] else [])
    (set_table (alter (delivered [frag]) to (table k)) k)).
Proof using Type.
  unfold deliver_fragment, is_alive, mbind, M_bind, get. cbn beta iota.
  destruct (table k !! to) as [p|] eqn:Hp.
  2: { rewrite (alter_none _ _ _ Hp), decide_False by (unfold waits; by rewrite Hp). by rewrite set_table_same, queueing_nil. }
  rewrite (alter_some _ _ _ _ Hp).
  assert (delivered [frag] p = match state p with Dead => p
    | Waiting => with_state Runnable (with_mail (heap p) (mailbox p ++ [frag]) p)
    | _ => with_mail (heap p) (mailbox p ++ [frag]) p end) as ->.
  { unfold delivered. destruct p as [s ? ? ? ? ? ? ? ?]. cbn. destruct s; try done; case_bool_decide; naive_solver. }
  destruct (state p) eqn:Hs;
    first [rewrite (decide_True (P := waits _ _)) by (unfold waits; rewrite Hp; cbn; by rewrite Hs)
          |rewrite (decide_False (P := waits _ _)) by (unfold waits; rewrite Hp; cbn; by rewrite Hs)];
    cbn; rewrite ?Hs; cbn; rewrite ?queueing_nil; try done.
  rewrite insert_id by done. by rewrite set_table_same.
Qed.

Lemma send_built_effect c to elems k : exists frag g',
  fragment_tuple (H:=H) elems (rest k) = (Ok frag, g') /\
  send_built c to elems k = (Ok (is_alive to k), queueing c (if decide (waits (table k) to) then [to] else [])
    (set_table (alter (delivered [frag]) to (table k)) (set_rest (atoms k) g' k))).
Proof using Hall.
  destruct Hall as (_ & _ & _ & _ & _ & Ht & _). destruct (Ht elems (rest k)) as (frag & g' & Hf).
  exists frag, g'. split; [done|]. unfold send_built, mbind, M_bind, on_rest. rewrite Hf.
  by rewrite deliver_fragment_effect.
Qed.

Lemma deliver_down_effect c w r dead reason k : exists down why frag g',
  index (down_atoms reason (atoms k)) !! str_DOWN = Some down /\ index (down_atoms reason (atoms k)) !! reason = Some why /\
  fragment_tuple (H:=H) [term_atom down; term_reference r; term_pid dead; term_atom why] (rest k) = (Ok frag, g') /\
  deliver_down c w r dead reason k = (Ok tt, queueing c (if decide (waits (table k) w) then [w] else [])
    (set_table (alter (delivered [frag]) w (table k)) (set_rest (down_atoms reason (atoms k)) g' k))).
Proof using Hall.
  destruct (down_atoms_spec reason (atoms k)) as (t1 & down & why & H1 & H2 & Hi1 & Hi2 & _).
  set (t2 := down_atoms reason (atoms k)) in *. set (k2 := set_rest t2 (rest k) k).
  destruct (send_built_effect c w [term_atom down; term_reference r; term_pid dead; term_atom why] k2)
    as (frag & g' & Hf & H3).
  exists down, why, frag, g'. split_and!; [done|done|done|].
  assert (on_atoms (intern str_DOWN) k = (Ok down, set_rest t1 (rest k) k)) as E1 by (unfold on_atoms; by rewrite H1).
  assert (on_atoms (intern reason) (set_rest t1 (rest k) k) = (Ok why, k2)) as E2
    by (unfold on_atoms; cbn [atoms set_rest]; by rewrite H2).
  unfold deliver_down. by rewrite (bind_eval _ _ _ _ _ E1), (bind_eval _ _ _ _ _ E2), (bind_eval _ _ _ _ _ H3).
Qed.

Lemma mark_dead_effect c pid reason k :
  mark_dead c pid reason k = (Ok tt, queueing c (if decide (idles (table k) pid) then [pid] else [])
    (set_table (alter (condemned reason) pid (table k)) k)).
Proof using Type.
  unfold mark_dead, mbind, M_bind, get. cbn beta iota. destruct (table k !! pid) as [p|] eqn:Hp.
  2: { rewrite (alter_none _ _ _ Hp), decide_False by (unfold idles; rewrite Hp; by intros [?|?]).
       by rewrite set_table_same, queueing_nil. }
  rewrite (alter_some _ _ _ _ Hp). unfold condemned.
  destruct (state p) eqn:Hs;
    first [rewrite decide_True by (unfold idles; rewrite Hp; cbn; rewrite Hs; auto)
          |rewrite decide_False by (unfold idles; rewrite Hp; cbn; rewrite Hs; intros [?|?]; done)];
    rewrite ?queueing_nil; try done; [destruct (kill_pending p); [|done]|]; by rewrite insert_id, set_table_same.
Qed.

(** ** The loops of [reap] *)

Lemma waits_delivered t w frag q :
  waits (alter (delivered [frag]) w t) q <-> waits t q /\ q <> w.
Proof using Type.
  unfold waits. rewrite lookup_alter. case_decide as Hw; [|naive_solver]. subst. destruct (t !! q) as [p|]; [|naive_solver].
  cbn. unfold delivered. destruct p as [s ? ? ? ? ? ? ? ?]. cbn. destruct s; cbn; try case_bool_decide; naive_solver.
Qed.

Lemma idles_condemned t w reason q :
  idles (alter (condemned reason) w t) q <-> idles t q /\ q <> w.
Proof using Type.
  unfold idles. rewrite lookup_alter. case_decide as Hw; [|naive_solver]. subst. destruct (t !! q) as [p|]; [|naive_solver].
  cbn. unfold condemned. destruct p as [s ? ? ? b ? ? ? ?]. cbn. destruct s; cbn; try destruct b; naive_solver.
Qed.

Lemma notify_monitors c dead reason l : forall k, exists frags k',
  for_each l (fun rw => deliver_down c rw.2 rw.1 dead reason) k = (Ok tt, k') /\
  downs dead reason (down_atoms reason (atoms k)) l.*1 (rest k) frags (rest k') /\
  k' = set_rest (match l with [] => atoms k | _ => down_atoms reason (atoms k) end) (rest k')
         (queueing c (filter (waits (table k)) (first_seen l.*2)) (set_table (table k') k)) /\
  forall q, table k' !! q = delivered (frags_for q l frags) <$> table k !! q.
Proof using Hall.
  induction l as [|[r w] l IH]; intros k.
  { exists [], k. split_and!; [done|constructor|cbn; rewrite queueing_nil; by destruct k|].
    intros q. destruct (table k !! q); cbn; [|done]. by rewrite delivered_nil. }
  destruct (deliver_down_effect c w r dead reason k) as (down & why & frag & g1 & Hi1 & Hi2 & Hf & H1).
  destruct (down_atoms_spec reason (atoms k)) as (_ & _ & _ & _ & _ & _ & _ & Hidem).
  set (t := down_atoms reason (atoms k)) in *. set (tb := alter (delivered [frag]) w (table k)) in *.
  set (k1 := queueing _ _ _) in H1. destruct (IH k1) as (frags & k2 & H2 & Hd & Hk2 & Hq).
  change (atoms k1) with t in Hd, Hk2. rewrite Hidem in Hd, Hk2. change (rest k1) with g1 in Hd. change (table k1) with tb in Hk2, Hq.
  exists (frag :: frags), k2. split_and!.
  - cbn [for_each]. by rewrite (bind_eval _ _ _ _ _ H1).
  - by econstructor.
  - rewrite Hk2 at 1. cbn [fmap list_fmap fst snd].
    rewrite (first_seen_cons (waits (table k)) (waits tb)) by apply waits_delivered. rewrite <- queueing_app. by destruct l.
  - intros q. rewrite Hq. unfold tb. rewrite lookup_alter. unfold frags_for. cbn [zip zip_with]. rewrite filter_cons. cbn [fst snd].
    destruct (decide (w = q)) as [->|Hne]; [|done]. destruct (table k !! q) as [p|]; cbn; [|done]. by rewrite delivered_app.
Qed.

Lemma notify_links c reason l : forall k, exists k',
  for_each l (fun linked => mark_dead c linked reason) k = (Ok tt, k') /\
  k' = queueing c (filter (idles (table k)) (first_seen l)) (set_table (table k') k) /\
  forall q, table k' !! q = (if decide (q ∈ l) then condemned reason else id) <$> table k !! q.
Proof using Type.
  induction l as [|w l IH]; intros k.
  { exists k. split_and!; [done|cbn; by rewrite queueing_nil, set_table_same|].
    intros q. rewrite decide_False by apply not_elem_of_nil. by rewrite option_fmap_id. }
  pose proof (mark_dead_effect c w reason k) as H1. set (k1 := queueing _ _ _) in H1.
  destruct (IH k1) as (k2 & H2 & Hk2 & Hq). exists k2. split_and!.
  - cbn [for_each]. by rewrite (bind_eval _ _ _ _ _ H1).
  - rewrite Hk2 at 1. rewrite (first_seen_cons (idles (table k)) (idles (table k1))) by apply idles_condemned.
    by rewrite <- queueing_app.
  - intros q. rewrite (Hq q). change (table k1) with (alter (condemned reason) w (table k)). rewrite lookup_alter.
    destruct (decide (w = q)) as [->|Hne].
    + rewrite (decide_True (P := q ∈ q :: l)) by apply list_elem_of_here. destruct (table k !! q) as [p|]; [|done]. cbn.
      case_decide; [|done]. by rewrite condemned_twice.
    + destruct (decide (q ∈ l)) as [Hin|Hnin].
      * by rewrite (decide_True (P := q ∈ w :: l)) by (by apply list_elem_of_further).
      * by rewrite (decide_False (P := q ∈ w :: l)) by (rewrite elem_of_cons; naive_solver).
Qed.

(** The links are told only if the reason is not normal. *)
Lemma notify_links_if c p k : exists k',
  (if bool_decide (exit_reason p <> str_normal)
   then for_each (links p) (fun linked => mark_dead c linked (exit_reason p)) else mret tt) k = (Ok tt, k') /\
  k' = queueing c (if decide (exit_reason p <> str_normal) then filter (idles (table k)) (first_seen (links p)) else [])
         (set_table (table k') k) /\
  forall q, table k' !! q = (if decide (exit_reason p <> str_normal /\ q ∈ links p) then condemned (exit_reason p) else id)
    <$> table k !! q.
Proof using Type.
  destruct (decide (exit_reason p <> str_normal)) as [Hr|Hr]; [rewrite bool_decide_true by done|rewrite bool_decide_false by done].
  - destruct (notify_links c (exit_reason p) (links p) k) as (k2 & H2 & Hk2 & Hq2). exists k2. split_and!; [done|exact Hk2|].
    intros q. rewrite (Hq2 q). destruct (decide (q ∈ links p)); [by rewrite decide_True|by rewrite decide_False by naive_solver].
  - exists k. split_and!; [done|by rewrite queueing_nil, set_table_same|]. intros q. rewrite decide_False by naive_solver.
    by destruct (table k !! q).
Qed.

(** A delivery does not change who does not run. *)
Lemma idles_delivered t t' (f : Pid -> list F) :
  (forall q, t' !! q = delivered (f q) <$> t !! q) -> forall q, idles t' q <-> idles t q.
Proof using Type.
  intros Ht q. unfold idles. rewrite Ht. destruct (t !! q) as [p|]; [|done]. cbn. unfold delivered.
  destruct p as [s ? ? ? ? ? ? ? ?]. cbn. destruct s; cbn; try case_bool_decide; naive_solver.
Qed.

(** C10: The death of a process is signalled exactly, whenever the kernel's services (the building of
    message fragments among them) end normally, [total_services].  Reaping a dead process removes it from the
    table and hands over its stack slot and heap spans; every process that
    monitors it and is alive gets one [DOWN] message per monitor, in order, at
    the end of its mailbox, with the monitor's reference, the pid and the reason, and
    is made runnable if it waits; every process linked to it dies of the same reason,
    exactly when the reason is not normal; no other process changes.  The reaping core's run queue
    gets, at its end, each watcher that was waiting, once, in the order of the monitors,
    and then, unless the reason is normal, each linked process that was waiting or
    runnable, once, in the order of the links.  Nothing else of the kernel changes:
    not the other run queues or cores, the timer wheel, the counters or the clock; ['DOWN'] and the reason are interned
    if there is a monitor, and the other services see only the building of
    those messages. *)
Theorem reap_signals c pid k p :
  table k !! pid = Some p -> exists fin frags k', reap c pid k = (Ok fin, k') /\
    fin = {| fin_pid := pid; fin_stack_slot := stack_slot p; fin_heap_spans := heap_spans (heap p) |} /\
    table k' !! pid = None /\
    downs pid (exit_reason p) (down_atoms (exit_reason p) (atoms k)) (monitors p).*1 (rest k) frags (rest k') /\
    (forall q, q <> pid ->
      table k' !! q = (fun p0 => (if decide (exit_reason p <> str_normal /\ q ∈ links p) then condemned (exit_reason p) else id)
                         (delivered (frags_for q (monitors p) frags) p0)) <$> table k !! q) /\
    k' = set_rest (match monitors p with [] => atoms k | _ => down_atoms (exit_reason p) (atoms k) end) (rest k')
           (queueing c (woken (delete pid (table k)) p) (set_table (table k') k)).
Proof using Hall.
  intros Hp. set (k0 := set_table (delete pid (table k)) k).
  destruct (notify_monitors c pid (exit_reason p) (monitors p) k0) as (frags & k1 & H1 & Hd1 & Hk1 & Hq1).
  destruct (notify_links_if c p k1) as (k2 & H2 & Hk2 & Hq2).
  assert (rest k2 = rest k1) as Hr2 by (by rewrite Hk2).
  eexists _, frags, k2. split_and!; [|done| | | |].
  - unfold reap, the_process. rewrite bind_assoc. unfold mbind at 1, M_bind at 1, get. cbn beta iota. rewrite Hp.
    unfold mbind at 1, M_bind at 1. cbn [unwrap]. unfold mret at 1, M_ret at 1. cbn beta iota.
    unfold mbind at 1, M_bind at 1, modify. cbn beta iota. fold k0.
    rewrite (bind_eval _ _ _ _ _ H1), (bind_eval _ _ _ _ _ H2). done.
  - rewrite Hq2, Hq1. unfold k0. cbn. by rewrite lookup_delete_eq.
  - by rewrite Hr2.
  - intros q Hq. rewrite Hq2, Hq1. unfold k0. cbn. rewrite lookup_delete_ne by done. by destruct (table k !! q).
  - rewrite Hk2 at 1. rewrite Hr2. unfold woken. rewrite <- queueing_app. change (delete pid (table k)) with (table k0).
    rewrite (list_filter_iff (idles (table k1)) (idles (table k0)) (first_seen (links p))) by (by apply (idles_delivered _ _ _ Hq1)).
    rewrite Hk1 at 1. done.
Qed.
End signals.

Import Demo.

(** Process 1 monitors process 2, which dies. *)
Definition monitored_death : K :=
  default (boot 2 tt) (Demo.run_from Demo.two_running_k [AMonitor 0 2; AExit 1 str_quota]).

Lemma reap_signals_witness : exists p fin frags (k' : K), table monitored_death !! 2 = Some p /\
  reap 1 2 monitored_death = (Ok fin, k') /\
  downs (G:=unit) (H:=Z * Z) 2 str_quota (down_atoms str_quota (atoms monitored_death)) [1] tt frags tt /\
  table k' !! 1 = delivered frags <$> table monitored_death !! 1.
Proof.
  assert (bool_decide ((fun p => (exit_reason p, monitors p, links p)) <$> table monitored_death !! 2 =
    Some (str_quota, [(1, 1)], [])) = true) as Hsh by (by vm_compute).
  apply bool_decide_eq_true in Hsh. destruct (table monitored_death !! 2) as [p|] eqn:Hp; [|done].
  injection Hsh as E1 E2 E3.
  destruct (reap_signals Demo.demo_total 1 2 monitored_death p Hp) as (fin & frags & k' & Hr & _ & _ & Hd & Hq & _).
  exists p, fin, frags, k'. rewrite E1, E2 in Hd. destruct (rest k'), (rest monitored_death). split_and!; [done|exact Hr|exact Hd|].
  rewrite (Hq 1 ltac:(done)), E1, E2, E3. rewrite decide_False by (intros [_ Hin]; by apply not_elem_of_nil in Hin).
  inversion Hd; subst. match goal with Hn : downs _ _ _ [] _ _ _ |- _ => inversion Hn; subst end. done.
Defined.
