(* ===== verification/Ports.v ===== *)
(** * Ports: the port runtime

    Models [kernel/src/ports.rs] and the device wrappers of [kernel/src/virtio.rs] and
    [kernel/src/serial.rs].  The drivers of the crate [virtio-drivers] and the
    UART's registers are the class [Devices].  Each hold of the [PORTS] lock is one
    operation; [pump] returns what it hands to [deliver]. *)

From S2P Require Import Prelude Rings Term Atoms Proc.

Definition KIND_SERIAL : Z := 0.
Definition KIND_BLK : Z := 1.
Definition KIND_NET : Z := 2.
Definition KIND_GPU : Z := 3.
Definition KIND_RNG : Z := 4.
Definition RNG_MAX_REQUEST : Z := 4096.
Definition OP_WRITE : Z := 1.
Definition OP_READ : Z := 2.
Definition OP_FLUSH : Z := 3.
Definition OP_TRY_READ : Z := 4.
Definition OP_CTRL : Z := 1.
Definition OP_CTRL_ATTACH : Z := 2.
Definition SECTOR_SIZE : Z := 512.

(** ** Devices *)

(** The drivers: [D] is the state of all devices; [unit] is a driver error.  An operation that
    fills a slice takes its contents and returns the new ones. *)
Class Devices (D : Type) := {
  blk_up : D -> bool;                                       (* BLK.lock().is_some() *)
  net_up : D -> bool;
  rng_up : D -> bool;
  gpu_up : D -> bool;
  read_blocks : Z -> list byte -> M D unit (list byte);
  write_blocks : Z -> list byte -> M D unit unit;
  blk_flush : M D unit unit;
  request_entropy : list byte -> M D unit (Z * list byte);
  net_transmit : list byte -> M D unit unit;                (* new_tx_buffer, copy, send *)
  net_can_recv : D -> bool;
  net_receive : M D unit (list byte);                       (* receive, to_vec, recycle *)
  ctrl_wait_pop : list byte -> list byte -> M D unit (Z * list byte);
  uart_in : Z -> M D Empty_set Z;                           (* port read of COM1 + offset *)
  uart_write_byte : Z -> M D Empty_set unit;
  buffer_phys : Z -> D -> Z;                                (* virt_to_phys(data.as_ptr()) of a buffer *)
}.

Section devices.
Context {D : Type} `{!Devices D}.

Definition has_blk (d : D) : bool := blk_up d.
Definition has_net (d : D) : bool := net_up d.
Definition has_rng (d : D) : bool := rng_up d.
Definition has_gpu (d : D) : bool := gpu_up d.

(** The loop of [random_bytes]: [done_] are the bytes filled so far, [todo] the rest of the buffer. *)
Fixpoint fill_random (fuel : nat) (done_ todo : list byte) : M D unit (list byte) :=
  match todo with
  | [] => mret done_
  | _ =>
      match fuel with
      | O => nofuel
      | S fuel' =>
          '(received, todo') ← request_entropy todo;
          _ ← fail_if (bool_decide (received = 0) || bool_decide (zlen todo < received)) tt;
          fill_random fuel' (done_ ++ take (Z.to_nat received) todo') (drop (Z.to_nat received) todo')
      end
  end.

Definition random_bytes (length : Z) : M D unit (list byte) :=
  d ← get;
  _ ← fail_if (negb (rng_up d)) tt;
  fill_random (Z.to_nat length) [] (replicate (Z.to_nat length) x00).

Definition gpu_ctrl (cmd : list byte) (resp_len : Z) : M D unit (list byte) :=
  d ← get;
  _ ← fail_if (negb (gpu_up d)) tt;
  '(n, resp) ← ctrl_wait_pop cmd (replicate (Z.to_nat (Z.min (Z.max resp_len 24) (2 ^ 20))) x00);
  mret (take (Z.to_nat n) resp).

Definition blk_read (sector : Z) : M D unit (list byte) :=
  d ← get;
  _ ← fail_if (negb (blk_up d)) tt;
  read_blocks sector (replicate (Z.to_nat SECTOR_SIZE) x00).

Definition blk_write (sector : Z) (data : list byte) : M D unit unit :=
  d ← get;
  _ ← fail_if (negb (blk_up d)) tt;
  _ ← write_blocks sector data;
  blk_flush.

Definition net_send (frame : list byte) : M D unit unit :=
  d ← get; _ ← fail_if (negb (net_up d)) tt; net_transmit frame.

(** [Option] results: an error of the driver is [None]. *)
Definition net_try_recv : M D Empty_set (option (list byte)) := fun d =>
  if negb (net_up d) then (Ok None, d)
  else if negb (net_can_recv d) then (Ok None, d)
  else match net_receive d with
       | (Ok frame, d') => (Ok (Some frame), d')
       | (Err _, d') => (Ok None, d')
       | (Panic, d') => (Panic, d')
       | (NoFuel, d') => (NoFuel, d')
       end.

(** [serial::try_read_byte] and [serial::raw_write_byte]. *)
Definition try_read_byte : M D Empty_set (option Z) :=
  lsr ← uart_in 5;
  if bool_decide (Z.land lsr 1 <> 0) then b ← uart_in 0; mret (Some b) else mret None.
Definition raw_write_byte (b : Z) : M D Empty_set unit := uart_write_byte b.

(** ** Ports *)

Record Port := { owner : Z; kind : Z; sq : Ring Sqe; cq : Ring Cqe; pending_reads : Ring Sqe }.

Definition set_sq (r : Ring Sqe) (p : Port) : Port :=
  {| owner := owner p; kind := kind p; sq := r; cq := cq p; pending_reads := pending_reads p |}.
Definition set_cq (r : Ring Cqe) (p : Port) : Port :=
  {| owner := owner p; kind := kind p; sq := sq p; cq := r; pending_reads := pending_reads p |}.
Definition set_reads (r : Ring Sqe) (p : Port) : Port :=
  {| owner := owner p; kind := kind p; sq := sq p; cq := cq p; pending_reads := r |}.

Record Sys := {
  ports : list (Z * Port);              (* BTreeMap: sorted by id *)
  next_port : Z;
  pending : bool;
  serial_rx : Ring Z;
  buffers : gmap Z (list byte);
  next_buf : Z;
  pinned : gset Z;
  dev : D;
}.

Abbreviation SM := (M Sys Empty_set).

Definition set_ports (l : list (Z * Port)) (np : Z) (s : Sys) : Sys :=
  {| ports := l; next_port := np; pending := pending s; serial_rx := serial_rx s; buffers := buffers s;
     next_buf := next_buf s; pinned := pinned s; dev := dev s |}.
Definition set_rx (b : bool) (r : Ring Z) (s : Sys) : Sys :=
  {| ports := ports s; next_port := next_port s; pending := b; serial_rx := r; buffers := buffers s;
     next_buf := next_buf s; pinned := pinned s; dev := dev s |}.
Definition set_bufs (b : gmap Z (list byte)) (nb : Z) (pn : gset Z) (s : Sys) : Sys :=
  {| ports := ports s; next_port := next_port s; pending := pending s; serial_rx := serial_rx s; buffers := b;
     next_buf := nb; pinned := pn; dev := dev s |}.
Definition set_dev (d : D) (s : Sys) : Sys :=
  {| ports := ports s; next_port := next_port s; pending := pending s; serial_rx := serial_rx s; buffers := buffers s;
     next_buf := next_buf s; pinned := pinned s; dev := d |}.

(** A device operation whose errors the caller matches on. *)
Definition on_dev {E A} (m : M D E A) : SM (E + A) := fun s =>
  match m (dev s) with
  | (Ok a, d) => (Ok (inr a), set_dev d s)
  | (Err e, d) => (Ok (inl e), set_dev d s)
  | (Panic, d) => (Panic, set_dev d s)
  | (NoFuel, d) => (NoFuel, set_dev d s)
  end.

(** A ring operation on a field; [let _ = r.push(v)] ignores a full ring. *)
Definition push_ignore {T} (n : Z) (v : T) (r : Ring T) : SM (Ring T) := fun s =>
  match push n v r with
  | (Ok _, r') | (Err _, r') => (Ok r', s)
  | (Panic, _) => (Panic, s)
  | (NoFuel, _) => (NoFuel, s)
  end.
Definition pop_ring {T} (n : Z) (r : Ring T) : SM (option T * Ring T) := fun s =>
  match pop n r with
  | (Ok o, r') => (Ok (o, r'), s)
  | (Err e, _) => (Err e, s)
  | (Panic, _) => (Panic, s)
  | (NoFuel, _) => (NoFuel, s)
  end.

(** *** The buffer table *)

(** [BUFFERS], [PINNED] and [NEXT_BUF] have locks of their own: a function that uses two of them is the sequence of
    its critical sections.  The operations on ports call these functions whole; [PortsBuffers] interleaves the
    sections of several cores. *)

(** [NEXT_BUF.fetch_add(1)], then [BUFFERS.lock().insert(id, data)] *)
Definition buf_draw : SM Z :=
  s ← get; _ ← modify (set_bufs (buffers s) (wrap 64 (next_buf s + 1)) (pinned s)); mret (next_buf s).
Definition buf_insert (id : Z) (data : list byte) : SM unit :=
  modify (fun s => set_bufs (<[id := data]> (buffers s)) (next_buf s) (pinned s) s).
Definition buf_create (data : list byte) : SM Z := id ← buf_draw; _ ← buf_insert id data; mret id.

(** [PINNED.lock().contains(&id)], then [BUFFERS.lock().remove(&id)] *)
Definition buf_is_pinned (id : Z) : SM bool := s ← get; mret (bool_decide (id ∈ pinned s)).
Definition buf_remove (id : Z) : SM (option (list byte)) :=
  s ← get; _ ← modify (set_bufs (delete id (buffers s)) (next_buf s) (pinned s)); mret (buffers s !! id).
Definition buf_take (id : Z) : SM (option (list byte)) :=
  b ← buf_is_pinned id; if b : bool then mret None else buf_remove id.

Definition buf_write (id offset : Z) (data : list byte) : SM bool :=
  s ← get;
  match buffers s !! id with
  | None => mret false
  | Some buf =>
      match checked_add_usize offset (zlen data) with
      | None => mret false
      | Some e =>
          if bool_decide (zlen buf < e) then mret false
          else
            _ ← modify (set_bufs (<[id := take (Z.to_nat offset) buf ++ data ++ drop (Z.to_nat e) buf]> (buffers s))
                          (next_buf s) (pinned s));
            mret true
      end
  end.

Definition buf_read (id offset len : Z) (s : Sys) : option (list byte) :=
  buf ← buffers s !! id;
  e ← checked_add_usize offset len;
  if bool_decide (zlen buf < e) then None else slice buf offset e.

(** The address and the length under [BUFFERS.lock()], then [PINNED.lock().insert(id)] *)
Definition buf_look (id : Z) : SM (option (Z * Z)) :=
  s ← get; mret ((fun data => (buffer_phys id (dev s), zlen data)) <$> buffers s !! id).
Definition buf_mark (id : Z) : SM unit := modify (fun s => set_bufs (buffers s) (next_buf s) ({[id]} ∪ pinned s) s).
Definition buf_pin (id : Z) : SM (option (Z * Z)) :=
  o ← buf_look id;
  match o with None => mret None | Some r => _ ← buf_mark id; mret (Some r) end.

Definition buf_get (id : Z) (s : Sys) : option (list byte) := buffers s !! id.

(** *** Completion and submission *)

(** [if sqe.tag != SKIP_CQE { let _ = p.cq.push(Cqe { tag, result }) }] *)
Definition complete (sqe : Sqe) (result : Z) (p : Port) : SM Port :=
  if bool_decide (sqe_tag sqe <> SKIP_CQE)
  then r ← push_ignore 64 {| cqe_tag := sqe_tag sqe; cqe_result := result |} (cq p); mret (set_cq r p)
  else mret p.

(** [let _ = p.pending_reads.push(sqe)] *)
Definition park (sqe : Sqe) (p : Port) : SM Port :=
  r ← push_ignore 64 sqe (pending_reads p); mret (set_reads r p).

(** [SERIAL_RX.pop()] *)
Definition rx_pop : SM (option Z) :=
  s ← get; '(o, r) ← pop_ring 256 (serial_rx s); _ ← modify (set_rx (pending s) r); mret o.

Definition serial_op (sqe : Sqe) (p : Port) : SM Port :=
  if bool_decide (sqe_op sqe = OP_WRITE) then
    _ ← on_dev (raw_write_byte (wrap 8 (sqe_arg0 sqe))); complete sqe 0 p
  else if bool_decide (sqe_op sqe = OP_READ) then park sqe p
  else if bool_decide (sqe_op sqe = OP_TRY_READ) then o ← rx_pop; complete sqe (default (-1) o) p
  else complete sqe (-1) p.

(** [result as i64] of a buffer id. *)
Definition as_i64 (id : Z) : Z := swrap 64 id.

Definition blk_op (sqe : Sqe) (p : Port) : SM Port :=
  result ←
    (if bool_decide (sqe_op sqe = OP_WRITE) then
       s ← get;
       match buf_get (sqe_arg1 sqe) s with
       | Some data => r ← on_dev (blk_write (sqe_arg0 sqe) data); mret (match r with inr _ => 0 | inl _ => -1 end)
       | None => mret (-1)
       end
     else if bool_decide (sqe_op sqe = OP_READ) then
       r ← on_dev (blk_read (sqe_arg0 sqe));
       match r with inr data => id ← buf_create data; mret (as_i64 id) | inl _ => mret (-1) end
     else if bool_decide (sqe_op sqe = OP_FLUSH) then mret 0
     else mret (-1));
  complete sqe result p.

Definition rng_op (sqe : Sqe) (p : Port) : SM Port :=
  result ←
    (if bool_decide (sqe_op sqe <> OP_READ) || bool_decide (sqe_arg0 sqe = 0) || bool_decide (RNG_MAX_REQUEST < sqe_arg0 sqe)
     then mret (-1)
     else
       r ← on_dev (random_bytes (sqe_arg0 sqe));
       match r with inr bytes => id ← buf_create bytes; mret (as_i64 id) | inl _ => mret (-1) end);
  complete sqe result p.

Definition net_op (sqe : Sqe) (p : Port) : SM Port :=
  if bool_decide (sqe_op sqe = OP_WRITE) then
    o ← buf_take (sqe_arg1 sqe);
    result ← match o with
             | Some frame => r ← on_dev (net_send frame); mret (match r with inr _ => 0 | inl _ => -1 end)
             | None => mret (-1)
             end;
    complete sqe result p
  else if bool_decide (sqe_op sqe = OP_READ) then park sqe p
  else complete sqe (-1) p.

Definition gpu_op (sqe : Sqe) (p : Port) : SM Port :=
  result ←
    (if bool_decide (sqe_op sqe = OP_CTRL) then
       o ← buf_take (sqe_arg0 sqe);
       match o with
       | Some cmd =>
           r ← on_dev (gpu_ctrl cmd (sqe_arg1 sqe));
           match r with inr resp => id ← buf_create resp; mret (as_i64 id) | inl _ => mret (-1) end
       | None => mret (-2)
       end
     else if bool_decide (sqe_op sqe = OP_CTRL_ATTACH) then
       o ← buf_take (sqe_arg0 sqe); b ← buf_pin (sqe_arg1 sqe);
       match o, b with
       | Some cmd, Some (phys, len) =>
           r ← on_dev (gpu_ctrl (cmd ++ le_bytes 8 phys ++ le_bytes 4 len ++ le_bytes 4 0) 24);
           match r with inr resp => id ← buf_create resp; mret (as_i64 id) | inl _ => mret (-1) end
       | _, _ => mret (-2)
       end
     else mret (-1));
  complete sqe result p.

(** [while let Some(sqe) = p.sq.pop()]: each round takes one of at most 64 entries, and the body adds none. *)
Fixpoint drain_sq (fuel : nat) (body : Sqe -> Port -> SM Port) (p : Port) : SM Port :=
  match fuel with
  | O => nofuel
  | S fuel' =>
      '(o, r) ← pop_ring 64 (sq p);
      match o with
      | None => mret (set_sq r p)
      | Some sqe => p' ← body sqe (set_sq r p); drain_sq fuel' body p'
      end
  end.

Definition serial_drain_sq (p : Port) : SM Port := drain_sq 65 serial_op p.
Definition blk_drain_sq (p : Port) : SM Port := drain_sq 65 blk_op p.
Definition rng_drain_sq (p : Port) : SM Port := drain_sq 65 rng_op p.
Definition net_drain_sq (p : Port) : SM Port := drain_sq 65 net_op p.
Definition gpu_drain_sq (p : Port) : SM Port := drain_sq 65 gpu_op p.

(** The port table. *)
Definition get_port (id : Z) (l : list (Z * Port)) : option Port := snd <$> find (fun ip => bool_decide (ip.1 = id)) l.
Definition put_port (id : Z) (p : Port) (l : list (Z * Port)) : list (Z * Port) :=
  map (fun ip => if bool_decide (ip.1 = id) then (id, p) else ip) l.
Fixpoint insert_port (id : Z) (p : Port) (l : list (Z * Port)) : list (Z * Port) :=
  match l with
  | [] => [(id, p)]
  | (i, q) :: l' =>
      if bool_decide (id < i) then (id, p) :: l
      else if bool_decide (id = i) then (id, p) :: l'
      else (i, q) :: insert_port id p l'
  end.

Definition open (me kind_ : Z) : SM (option Term) :=
  s ← get;
  if bool_decide (kind_ = KIND_SERIAL) || bool_decide (kind_ = KIND_BLK) && has_blk (dev s)
     || bool_decide (kind_ = KIND_NET) && has_net (dev s) || bool_decide (kind_ = KIND_GPU) && has_gpu (dev s)
     || bool_decide (kind_ = KIND_RNG) && has_rng (dev s)
  then
    let id := next_port s in
    _ ← modify (set_ports (insert_port id {| owner := me; kind := kind_; sq := new 64 Sqe_DEFAULT;
                                             cq := new 64 Cqe_DEFAULT; pending_reads := new 64 Sqe_DEFAULT |} (ports s))
                          (wrap 64 (id + 1)));
    mret (Some (term_port id))
  else mret None.

(** [submit] up to the call of [pump]. *)
Definition submit (port_id : Z) (sqe : Sqe) : SM bool := fun s =>
  match get_port port_id (ports s) with
  | None => (Ok false, s)
  | Some p =>
      match push 64 sqe (sq p) with
      | (Err _, _) => (Ok false, s)
      | (Ok _, r) =>
          (p' ← (if bool_decide (kind p = KIND_SERIAL) then serial_drain_sq (set_sq r p)
                 else if bool_decide (kind p = KIND_BLK) then blk_drain_sq (set_sq r p)
                 else if bool_decide (kind p = KIND_NET) then net_drain_sq (set_sq r p)
                 else if bool_decide (kind p = KIND_GPU) then gpu_drain_sq (set_sq r p)
                 else if bool_decide (kind p = KIND_RNG) then rng_drain_sq (set_sq r p)
                 else panic);
           _ ← modify (fun s => set_ports (put_port port_id p' (ports s)) (next_port s) s);
           mret true) s
      | (Panic, _) => (Panic, s)
      | (NoFuel, _) => (NoFuel, s)
      end
  end.

(** *** The bottom half *)

(** [while !SERIAL_RX.is_empty() && !p.pending_reads.is_empty()] *)
Fixpoint pump_serial (fuel : nat) (p : Port) : SM Port :=
  match fuel with
  | O => nofuel
  | S fuel' =>
      s ← get;
      if negb (is_empty (serial_rx s)) && negb (is_empty (pending_reads p)) then
        '(o, r) ← pop_ring 64 (pending_reads p);
        sqe ← unwrap o;
        ob ← rx_pop;
        b ← unwrap ob;
        c ← push_ignore 64 {| cqe_tag := sqe_tag sqe; cqe_result := b |} (cq p);
        pump_serial fuel' (set_cq c (set_reads r p))
      else mret p
  end.

Fixpoint pump_net (fuel : nat) (p : Port) : SM Port :=
  match fuel with
  | O => nofuel
  | S fuel' =>
      if negb (is_empty (pending_reads p)) then
        f ← on_dev net_try_recv;
        match f with
        | inr (Some frame) =>
            '(o, r) ← pop_ring 64 (pending_reads p);
            sqe ← unwrap o;
            id ← buf_create frame;
            c ← push_ignore 64 {| cqe_tag := sqe_tag sqe; cqe_result := as_i64 id |} (cq p);
            pump_net fuel' (set_cq c (set_reads r p))
        | _ => mret p
        end
      else mret p
  end.

(** [while let Some(cqe) = p.cq.pop()] *)
Fixpoint drain_cq (fuel : nat) (p : Port) : SM (Port * list Cqe) :=
  match fuel with
  | O => nofuel
  | S fuel' =>
      '(o, r) ← pop_ring 64 (cq p);
      match o with
      | None => mret (set_cq r p, [])
      | Some cqe => '(p', l) ← drain_cq fuel' (set_cq r p); mret (p', cqe :: l)
      end
  end.

Definition pump_port (p : Port) : SM (Port * list Cqe) :=
  p1 ← (if bool_decide (kind p = KIND_SERIAL) then pump_serial 65 p
        else if bool_decide (kind p = KIND_NET) then pump_net 65 p
        else mret p);
  drain_cq 65 p1.

Fixpoint pump_ports (l : list (Z * Port)) : SM (list (Z * Port) * list (Z * Z * Cqe)) :=
  match l with
  | [] => mret ([], [])
  | (id, p) :: l' =>
      '(p', cqes) ← pump_port p;
      '(l1, ds) ← pump_ports l';
      mret ((id, p') :: l1, map (fun c => (owner p', id, c)) cqes ++ ds)
  end.

(** [pump] up to its calls of [deliver]: the deliveries. *)
Definition pump : SM (list (Z * Z * Cqe)) :=
  _ ← modify (fun s => set_rx false (serial_rx s) s);
  s ← get;
  '(l, ds) ← pump_ports (ports s);
  _ ← modify (set_ports l (next_port s));
  mret ds.

(** The UART interrupt; [fuel] bounds how many bytes arrive before the FIFO runs dry. *)
Fixpoint serial_rx_irq (fuel : nat) : SM unit :=
  match fuel with
  | O => nofuel
  | S fuel' =>
      o ← on_dev try_read_byte;
      match o with
      | inr (Some b) => s ← get; r ← push_ignore 256 b (serial_rx s); _ ← modify (set_rx (pending s) r); serial_rx_irq fuel'
      | _ => modify (fun s => set_rx true (serial_rx s) s)
      end
  end.

(** [close_owned_by]: [retain(|_, p| p.owner != pid)] *)
Definition close_owned_by (pid : Z) : SM unit :=
  modify (fun s => set_ports (filter (fun ip => owner ip.2 <> pid) (ports s)) (next_port s) s).

(** The state at boot. *)
Definition ports_init (d : D) : Sys :=
  {| ports := []; next_port := 1; pending := false; serial_rx := new 256 0; buffers := ∅; next_buf := 1;
     pinned := ∅; dev := d |}.
End devices.

(** ** Delivery *)

Definition str_port_reply : list byte := [x70; x6f; x72; x74; x5f; x72; x65; x70; x6c; x79].

Definition deliver {G H F} `{!Services G H F} (c : nat) (owner_ port_id : Z) (cqe : Cqe) : M (@Kernel G H F) Empty_set unit :=
  reply ← on_atoms (intern str_port_reply);
  _ ← send_built c owner_ [term_atom reply; term_port port_id; term_int (cqe_tag cqe); term_int (cqe_result cqe)];
  mret tt.
