(* ===== verification/PortsProofs.v ===== *)
(** * PortsProofs: completion of port requests

    Every accepted request is answered once or parked, parked reads are
    answered in order, buffers that a device holds stay where they are, and random bytes
    come from the device in full or not at all. *)

From S2P Require Import Prelude Rings Term Atoms Proc Ports.

#[export] Instance Capacity_64 : Capacity 64.
Proof. exists 6. done. Qed.
#[export] Instance Capacity_256 : Capacity 256.
Proof. exists 8. done. Qed.

(** What a ring of capacity [n] holds after an attempt to push. *)
Definition offer {T} (n : Z) (v : T) (l : list T) : list T := if bool_decide (zlen l < n) then l ++ [v] else l.

Section proofs.
Context {D : Type} `{!Devices D}.
Implicit Types (s : @Sys D) (p : Port).

(** ** Program logic *)

Definition swp {A} (m : M (@Sys D) Empty_set A) (Q : A -> Sys -> Prop) s : Prop :=
  match m s with (Ok a, s') => Q a s' | (Err e, _) => True | _ => False end.

Lemma swp_bind {A B} (m : M Sys Empty_set A) (f : A -> M Sys Empty_set B) Q s :
  swp m (fun a s' => swp (f a) Q s') s -> swp (x ← m; f x) Q s.
Proof using Type. unfold swp, mbind, M_bind. by destruct (m s) as [[?|?| |] ?]. Qed.
Lemma swp_mono {A} (m : M Sys Empty_set A) (Q Q' : A -> Sys -> Prop) s :
  swp m Q s -> (forall a s', Q a s' -> Q' a s') -> swp m Q' s.
Proof using Type. unfold swp. destruct (m s) as [[?|?| |] ?]; auto. Qed.
Lemma swp_ret {A} (a : A) (Q : A -> Sys -> Prop) s : Q a s -> swp (mret a) Q s.
Proof using Type. done. Qed.
Lemma swp_get (Q : Sys -> Sys -> Prop) s : Q s s -> swp get Q s.
Proof using Type. done. Qed.
Lemma swp_modify f (Q : unit -> Sys -> Prop) s : Q tt (f s) -> swp (modify f) Q s.
Proof using Type. done. Qed.
Lemma swp_elim {A} (m : M Sys Empty_set A) (Q : A -> Sys -> Prop) s : swp m Q s -> exists a s', m s = (Ok a, s') /\ Q a s'.
Proof using Type. unfold swp. destruct (m s) as [[a|[]| |] s']; try done. eauto. Qed.

Lemma swp_push {T} n `{!Capacity n} (v : T) (r : Ring T) (Q : Ring T -> Sys -> Prop) s :
  wf n r -> (forall r', wf n r' -> contents n r' = offer n v (contents n r) -> Q r' s) -> swp (push_ignore n v r) Q s.
Proof using Type.
  intros Hwf HQ. unfold swp, push_ignore. rewrite push_run by done.
  pose proof (length_contents r Hwf) as Hl. pose proof (wf_len n r Hwf). unfold offer in HQ. rewrite Hl in HQ.
  destruct (decide (len r = n)) as [Hn|Hn]; [rewrite bool_decide_true by done|rewrite bool_decide_false by done]; apply HQ.
  - done.
  - by rewrite bool_decide_false by lia.
  - by apply after_push_wf.
  - rewrite bool_decide_true by lia. by apply contents_after_push.
Qed.

Lemma swp_pop {T} n `{!Capacity n} (r : Ring T) (Q : option T * Ring T -> Sys -> Prop) s :
  wf n r ->
  (forall r', wf n r' -> contents n r = [] -> contents n r' = [] -> Q (None, r') s) ->
  (forall v l r', wf n r' -> contents n r = v :: l -> contents n r' = l -> Q (Some v, r') s) -> swp (pop_ring n r) Q s.
Proof using Type.
  intros Hwf HN HS. unfold swp, pop_ring. rewrite pop_run by done. pose proof (length_contents r Hwf) as Hl.
  destruct (contents n r) as [|v l] eqn:Hc; [by apply HN|]. rewrite zlen_cons in Hl. pose proof (zlen_nonneg l).
  assert (len r <> 0) by lia. apply (HS v l); [by apply after_pop_wf|done|]. by rewrite contents_after_pop, Hc.
Qed.

(** The drivers answer: they return or report an error, and keep the length of the slice they
    fill.  [write_blocks] is documented to panic unless the data is a positive
    number of whole sectors. *)
Definition answers {E A} (m : M D E A) (Q : A -> Prop) : Prop :=
  forall d, match m d with (Ok a, _) => Q a | (Err _, _) => True | _ => False end.

Record devices_ok : Prop := {
  ok_read n b : answers (read_blocks n b) (fun b' => length b' = length b);
  ok_write n b : 0 < zlen b -> zlen b mod SECTOR_SIZE = 0 -> answers (write_blocks n b) (fun _ => True);
  ok_flush : answers blk_flush (fun _ => True);
  ok_entropy b : answers (request_entropy b) (fun nb => 0 <= nb.1 /\ length nb.2 = length b);
  ok_transmit b : answers (net_transmit b) (fun _ => True);
  ok_receive : answers net_receive (fun _ => True);
  ok_ctrl a b : answers (ctrl_wait_pop a b) (fun nb => length nb.2 = length b);
  ok_uart_in n : answers (uart_in n) (fun _ => True);
  ok_uart_write n : answers (uart_write_byte n) (fun _ => True);
}.

Lemma swp_on_dev {E A} (m : M D E A) P (Q : E + A -> Sys -> Prop) s :
  answers m P -> (forall r d, match r with inr a => P a | inl _ => True end -> Q r (set_dev d s)) -> swp (on_dev m) Q s.
Proof using Type.
  intros Hm HQ. unfold swp, on_dev. specialize (Hm (dev s)). destruct (m (dev s)) as [[a|e| |] d]; try done.
  - by apply (HQ (inr a)).
  - by apply (HQ (inl e)).
Qed.



Lemma answers_bind {E A B} (m : M D E A) (f : A -> M D E B) P Q :
  answers m P -> (forall a, P a -> answers (f a) Q) -> answers (x ← m; f x) Q.
Proof using Type.
  intros Hm Hf d. unfold mbind, M_bind. specialize (Hm d). destruct (m d) as [[a|e| |] d1]; try done. by apply Hf.
Qed.
Lemma answers_weaken {E A} (m : M D E A) (P Q : A -> Prop) : answers m P -> (forall a, P a -> Q a) -> answers m Q.
Proof using Type. intros Hm HPQ d. specialize (Hm d). destruct (m d) as [[a|e| |] d1]; auto. Qed.
Lemma answers_get {E} : answers (E:=E) get (fun _ => True).
Proof using Type. done. Qed.
Lemma answers_fail_if {E} b (e : E) : answers (fail_if b e) (fun _ => b = false).
Proof using Type. by destruct b. Qed.

(** ** The device wrappers *)

Section ok.
Context (Hdev : devices_ok).

Lemma fill_random_answers todo : forall done_ fuel,
  (length todo <= fuel)%nat -> answers (fill_random fuel done_ todo) (fun b => length b = (length done_ + length todo)%nat).
Proof using Hdev.
  intros done_ fuel. revert done_ todo. induction fuel as [|fuel IH]; intros done_ todo Hl;
    (destruct todo as [|b todo]; [by intros d; cbn; rewrite Nat.add_0_r|]); [cbn in Hl; lia|].
  cbn [fill_random]. eapply answers_bind; [apply (ok_entropy Hdev)|]. intros [received todo'] [Hr Hlen]. cbn [fst snd] in *.
  eapply answers_bind; [apply answers_fail_if|]. intros u Hb. apply orb_false_iff in Hb as [Hb1 Hb2].
  apply bool_decide_eq_false in Hb1, Hb2. unfold zlen in Hb2. cbn [length] in *.
  eapply answers_weaken; [apply IH; rewrite length_drop; lia|].
  intros b' ->. rewrite length_app, length_take, length_drop. lia.
Qed.

Lemma random_bytes_answers n : 0 <= n -> answers (random_bytes n) (fun b => zlen b = n).
Proof using Hdev.
  intros Hn. eapply answers_bind; [apply answers_get|]. intros d _. eapply answers_bind; [apply answers_fail_if|].
  intros u _. eapply answers_weaken; [apply fill_random_answers; by rewrite length_replicate|].
  intros b Hb. unfold zlen. rewrite Hb. cbn [length]. rewrite length_replicate. lia.
Qed.





Lemma net_try_recv_answers : answers net_try_recv (fun _ => True).
Proof using Hdev.
  intros d. unfold net_try_recv. destruct (net_up d); [|done]. destruct (net_can_recv d); [|done]. cbn.
  pose proof (ok_receive Hdev d) as Hr. by destruct (net_receive d) as [[?|?| |] ?].
Qed.

Lemma try_read_byte_answers : answers try_read_byte (fun _ => True).
Proof using Hdev.
  eapply answers_bind; [apply (ok_uart_in Hdev)|]. intros lsr _. case_bool_decide; [|done].
  eapply answers_bind; [apply (ok_uart_in Hdev)|]. done.
Qed.

(** ** Requests *)




Definition reply (sqe : Sqe) (result : Z) : Cqe := {| cqe_tag := sqe_tag sqe; cqe_result := result |}.







(** What a driver leaves alone. *)
Definition frame s s' : Prop :=
  ports s' = ports s /\ next_port s' = next_port s /\ (wf 256 (serial_rx s) -> wf 256 (serial_rx s')).

Lemma frame_refl s : frame s s.
Proof using Type. done. Qed.
Lemma frame_dev d s s' : frame s s' -> frame s (set_dev d s').
Proof using Type. done. Qed.
Lemma frame_bufs b nb pn s s' : frame s s' -> frame s (set_bufs b nb pn s').
Proof using Type. done. Qed.
Hint Resolve frame_refl frame_dev frame_bufs : core.



Lemma swp_rx_pop (Q : option Z -> Sys -> Prop) s :
  wf 256 (serial_rx s) ->
  (forall r, wf 256 r -> contents 256 (serial_rx s) = [] -> contents 256 r = [] -> Q None (set_rx (pending s) r s)) ->
  (forall b l r, wf 256 r -> contents 256 (serial_rx s) = b :: l -> contents 256 r = l -> Q (Some b) (set_rx (pending s) r s)) ->
  swp rx_pop Q s.
Proof using Type.
  intros Hwf HN HS. unfold rx_pop. apply swp_bind, swp_get, swp_bind. eapply swp_pop; [apply _|done|..].
  - intros r' Hr H1 H2. apply swp_bind, swp_modify, swp_ret. by apply HN.
  - intros v l r' Hr H1 H2. apply swp_bind, swp_modify, swp_ret. by eapply HS.
Qed.


Section op.
Context (s : @Sys D) (sqe : Sqe) (p : Port) (Hcq : wf 64 (cq p)) (Hrd : wf 64 (pending_reads p)) (Hrx : wf 256 (serial_rx s)).









End op.

(** ** The system *)

Definition port_ok p : Prop :=
  wf 64 (sq p) /\ contents 64 (sq p) = [] /\ wf 64 (cq p) /\ wf 64 (pending_reads p) /\ 0 <= kind p <= 4.

Record sys_ok s : Prop := {
  sys_ports id p : (id, p) ∈ ports s -> port_ok p;
  sys_ids : NoDup (ports s).*1;
  sys_rx : wf 256 (serial_rx s);
}.





End ok.



(** ** The bottom half *)

(** What [pump] does with one port that finds [rx] in the receive ring and leaves [rx'], with
    the results [rs] for its parked reads: a serial port takes one byte per parked
    read as long as there are both, in order; only a network port has other results. *)
Definition port_pumped p p' (rx rx' rs : list Z) : Prop :=
  owner p' = owner p /\ kind p' = kind p /\ port_ok p' /\ contents 64 (cq p') = [] /\
  contents 64 (pending_reads p') = drop (length rs) (contents 64 (pending_reads p)) /\
  (length rs <= length (contents 64 (pending_reads p)))%nat /\
  if decide (kind p = KIND_SERIAL) then rs = take (length (contents 64 (pending_reads p))) rx /\ rx' = drop (length (contents 64 (pending_reads p))) rx
  else rx' = rx /\ (kind p <> KIND_NET -> rs = []).

(** The completions that a port hands out. *)
Definition replies p (rs : list Z) : list Cqe :=
  take 64 (contents 64 (cq p) ++ zip_with reply (contents 64 (pending_reads p)) rs).

(** The ports in order of their ids. *)
Inductive pump_spec : list (Z * Port) -> list Z -> list (Z * Port) -> list Z -> list (Z * Z * Cqe) -> Prop :=
| pump_spec_nil rx : pump_spec [] rx [] rx []
| pump_spec_cons id p p' l l' rx rx1 rx' rs ds :
    port_pumped p p' rx rx1 rs -> pump_spec l rx1 l' rx' ds ->
    pump_spec ((id, p) :: l) rx ((id, p') :: l') rx' (map (fun c => (owner p, id, c)) (replies p rs) ++ ds).

Lemma offer_take {T} (v : T) l k : offer 64 v (take 64 (l ++ k)) = take 64 (l ++ k ++ [v]).
Proof using Type.
  unfold offer, zlen. rewrite app_assoc. set (x := l ++ k). case_bool_decide as Hl; rewrite length_take in Hl.
  - rewrite (take_ge x), take_ge; rewrite ?length_app; cbn; [done|lia|lia].
  - rewrite (take_app_le x) by lia. done.
Qed.

Lemma is_empty_contents {T} n `{!Capacity n} (r : Ring T) : wf n r -> is_empty r = bool_decide (contents n r = []).
Proof using Type.
  intros Hwf. unfold is_empty. pose proof (length_contents r Hwf) as Hl. apply bool_decide_ext.
  rewrite <- Hl. unfold zlen. rewrite <- length_zero_iff_nil. lia.
Qed.

Section pump.
Context (Hdev : devices_ok).

Lemma pump_serial_spec fuel : forall p s k,
  wf 64 (cq p) -> wf 64 (pending_reads p) -> wf 256 (serial_rx s) -> (length (contents 64 (pending_reads p)) < fuel)%nat ->
  contents 64 (cq p) = take 64 k ->
  swp (pump_serial fuel p) (fun p' s' =>
    let R := contents 64 (pending_reads p) in let X := contents 256 (serial_rx s) in
    exists c r x, p' = set_cq c (set_reads r p) /\ s' = set_rx (pending s) x s /\ wf 64 c /\ wf 64 r /\ wf 256 x /\
      contents 64 c = take 64 (k ++ zip_with reply R X) /\ contents 64 r = drop (length X) R /\ contents 256 x = drop (length R) X) s.
Proof using Type.
  induction fuel as [|fuel IH]; intros p s k Hc Hr Hx Hf Hk; [lia|]. cbn [pump_serial]. cbv zeta.
  apply swp_bind, swp_get. rewrite (is_empty_contents 256 (serial_rx s)), (is_empty_contents 64 (pending_reads p)) by done.
  destruct (contents 256 (serial_rx s)) as [|b X] eqn:HX.
  { rewrite bool_decide_true by done. cbn [negb andb]. apply swp_ret. exists (cq p), (pending_reads p), (serial_rx s).
    rewrite zip_with_nil_r, app_nil_r, drop_nil. split_and!; try done; [by destruct p|by destruct s]. }
  destruct (contents 64 (pending_reads p)) as [|q R] eqn:HR.
  { rewrite (bool_decide_true ([] = [])) by done. rewrite andb_false_r. apply swp_ret.
    exists (cq p), (pending_reads p), (serial_rx s). cbn [zip_with]. rewrite app_nil_r, drop_nil.
    split_and!; try done; [by destruct p|by destruct s]. }
  rewrite !bool_decide_false by done. cbn [negb andb]. apply swp_bind.
  eapply swp_pop; [apply _|done|intros; congruence|]. intros q' R' r Hwr Hq Hcr. rewrite HR in Hq. injection Hq as <- <-.
  apply swp_bind, swp_ret. apply swp_bind, swp_rx_pop; [done|intros; congruence|]. intros b' X' x Hwx Hb Hcx.
  rewrite HX in Hb. injection Hb as <- <-. apply swp_bind, swp_ret. apply swp_bind.
  eapply swp_push; [apply _|done|]. intros c Hwc Hcc.
  eapply swp_mono; [apply (IH _ _ (k ++ [reply q b]))|].
  - done.
  - done.
  - done.
  - cbn. rewrite Hcr. cbn in Hf. lia.
  - cbn. rewrite Hcc, Hk. pose proof (offer_take (reply q b) k []) as Ho. by rewrite app_nil_r in Ho.
  - cbv zeta. intros p' s' (c' & r' & x' & -> & -> & H1 & H2 & H3 & H4 & H5 & H6). exists c', r', x'.
    cbn in H4, H5, H6. rewrite Hcr, Hcx in *. cbn. rewrite <- app_assoc in H4. done.
Qed.

Lemma pump_net_spec fuel : forall p s k,
  wf 64 (cq p) -> wf 64 (pending_reads p) -> (length (contents 64 (pending_reads p)) < fuel)%nat ->
  contents 64 (cq p) = take 64 k ->
  swp (pump_net fuel p) (fun p' s' =>
    let R := contents 64 (pending_reads p) in
    exists c r rs, p' = set_cq c (set_reads r p) /\ ports s' = ports s /\ serial_rx s' = serial_rx s /\ wf 64 c /\ wf 64 r /\
      (length rs <= length R)%nat /\ contents 64 c = take 64 (k ++ zip_with reply R rs) /\ contents 64 r = drop (length rs) R) s.
Proof using Hdev.
  induction fuel as [|fuel IH]; intros p s k Hc Hr Hf Hk; [lia|]. cbn [pump_net]. cbv zeta.
  assert (forall s', ports s' = ports s -> serial_rx s' = serial_rx s -> exists c r (rs : list Z), p = set_cq c (set_reads r p) /\
    ports s' = ports s /\ serial_rx s' = serial_rx s /\ wf 64 c /\ wf 64 r /\ (length rs <= length (contents 64 (pending_reads p)))%nat /\
    contents 64 c = take 64 (k ++ zip_with reply (contents 64 (pending_reads p)) rs) /\
    contents 64 r = drop (length rs) (contents 64 (pending_reads p))) as Hstop.
  { intros s' H1 H2. exists (cq p), (pending_reads p), []. rewrite zip_with_nil_r, app_nil_r. cbn [length drop].
    split_and!; try done; [by destruct p|lia]. }
  rewrite (is_empty_contents 64 (pending_reads p)) by done. case_bool_decide as He; cbn [negb]; [by apply swp_ret, Hstop|].
  apply swp_bind. eapply swp_on_dev; [by apply net_try_recv_answers|]. intros [e|[frame_|]] d _; try (by apply swp_ret, Hstop).
  apply swp_bind. eapply swp_pop; [apply _|done|intros; congruence|]. intros q R r Hwr HR Hcr.
  apply swp_bind, swp_ret. apply swp_bind, swp_bind, swp_bind, swp_get, swp_bind, swp_modify, swp_ret, swp_bind, swp_modify, swp_ret. apply swp_bind.
  eapply swp_push; [apply _|done|]. intros c Hwc Hcc. set (id := as_i64 _) in *. fold (reply q id) in Hcc.
  eapply swp_mono; [apply (IH _ _ (k ++ [reply q id]))|].
  - done.
  - done.
  - cbn. rewrite Hcr. rewrite HR in Hf. cbn in Hf. lia.
  - cbn. rewrite Hcc, Hk. pose proof (offer_take (reply q id) k []) as Ho. by rewrite app_nil_r in Ho.
  - cbv zeta. intros p' s' (c' & r' & rs & -> & H1 & H2 & H3 & H4 & H5 & H6 & H7). exists c', r', (id :: rs).
    cbn in H5, H6, H7. rewrite Hcr in *. rewrite HR. cbn. rewrite <- app_assoc in H6. split_and!; try done. lia.
Qed.

Lemma drain_cq_spec fuel : forall p s, wf 64 (cq p) -> (length (contents 64 (cq p)) < fuel)%nat ->
  swp (drain_cq fuel p) (fun pl s' => s' = s /\ pl.2 = contents 64 (cq p) /\ exists c, pl.1 = set_cq c p /\ wf 64 c /\ contents 64 c = []) s.
Proof using Type.
  induction fuel as [|fuel IH]; intros p s Hc Hf; [lia|]. cbn [drain_cq]. apply swp_bind. eapply swp_pop; [apply _|done|..].
  - intros c Hwc H1 H2. apply swp_ret. cbn. split_and!; [done|by rewrite H1|eauto].
  - intros v l c Hwc H1 H2. apply swp_bind. eapply swp_mono; [apply IH|].
    + done.
    + cbn. rewrite H2. rewrite H1 in Hf. cbn in Hf. lia.
    + intros [p' l'] s' (-> & Hl & c' & Hp & Hw & He). apply swp_ret. cbn in *. rewrite H1, Hl, H2. split_and!; [done|done|]. exists c'. by rewrite Hp.
Qed.

Lemma contents_bound {T} n `{!Capacity n} (r : Ring T) : wf n r -> (length (contents n r) <= Z.to_nat n)%nat.
Proof using Type. intros Hwf. pose proof (length_contents r Hwf) as Hl. pose proof (wf_len n r Hwf). unfold zlen in Hl. lia. Qed.

Lemma pump_port_spec p s :
  port_ok p -> wf 256 (serial_rx s) ->
  swp (pump_port p) (fun pl s' => ports s' = ports s /\ wf 256 (serial_rx s') /\ exists rs,
    port_pumped p pl.1 (contents 256 (serial_rx s)) (contents 256 (serial_rx s')) rs /\ pl.2 = replies p rs) s.
Proof using Hdev.
  intros (Hs & Hse & Hc & Hr & Hk) Hx. pose proof (contents_bound 64 _ Hc) as Hcb. pose proof (contents_bound 64 _ Hr) as Hrb.
  assert (contents 64 (cq p) = take 64 (contents 64 (cq p))) as Hk64 by (rewrite take_ge; [done|lia]).
  (** after the parked reads, the completion queue is handed out *)
  assert (forall c r s' rs, wf 64 c -> wf 64 r -> contents 64 c = replies p rs ->
    contents 64 r = drop (length rs) (contents 64 (pending_reads p)) -> (length rs <= length (contents 64 (pending_reads p)))%nat ->
    ports s' = ports s -> wf 256 (serial_rx s') ->
    (if decide (kind p = KIND_SERIAL) then rs = take (length (contents 64 (pending_reads p))) (contents 256 (serial_rx s)) /\
        contents 256 (serial_rx s') = drop (length (contents 64 (pending_reads p))) (contents 256 (serial_rx s))
     else contents 256 (serial_rx s') = contents 256 (serial_rx s) /\ (kind p <> KIND_NET -> rs = [])) ->
    swp (drain_cq 65 (set_cq c (set_reads r p))) (fun pl s' => ports s' = ports s /\ wf 256 (serial_rx s') /\ exists rs,
      port_pumped p pl.1 (contents 256 (serial_rx s)) (contents 256 (serial_rx s')) rs /\ pl.2 = replies p rs) s') as Hend.
  { intros c r s' rs Hwc Hwr Hcc Hcr Hlen Hps Hx' Hrx. eapply swp_mono; [apply (drain_cq_spec 65)|].
    - done.
    - pose proof (contents_bound 64 c Hwc). cbn. lia.
    - intros [p' l] s2 (-> & Hl & c' & Hp & Hwc' & He). cbn in Hl, Hp. split_and!; [done|done|]. exists rs. cbn [fst snd].
      split; [|congruence]. subst p'. unfold port_pumped, port_ok. cbn. split_and!; try done; lia. }
  unfold pump_port. apply swp_bind. case_bool_decide as HS; [|case_bool_decide as HN].
  - eapply swp_mono; [apply (pump_serial_spec 65 p s (contents 64 (cq p))); try done; lia|]. cbv zeta.
    intros p' s' (c & r & x & -> & -> & H1 & H2 & H3 & H4 & H5 & H6).
    set (X := contents 256 (serial_rx s)) in *. set (R := contents 64 (pending_reads p)) in *.
    apply (Hend c r _ (take (length R) X)); try done.
    + unfold replies. fold R. rewrite H4. f_equal. f_equal. symmetry. by apply zip_with_take_r.
    + rewrite H5, length_take. destruct (decide (length R <= length X)%nat).
      * rewrite !drop_ge by lia. done.
      * by rewrite Nat.min_r by lia.
    + rewrite length_take. lia.
    + by rewrite decide_True.
  - eapply swp_mono; [apply (pump_net_spec 65 p s (contents 64 (cq p))); (done || lia)|]. cbv zeta.
    intros p' s' (c & r & rs & -> & Hps & Hrx & H1 & H2 & H3 & H4 & H5).
    apply (Hend c r s' rs); try done; [by rewrite Hrx|]. rewrite decide_False by done. by rewrite Hrx.
  - apply swp_ret. pose proof (Hend (cq p) (pending_reads p) s []) as He.
    replace (set_cq (cq p) (set_reads (pending_reads p) p)) with p in He by (by destruct p).
    apply He; try done; [|cbn; lia|by rewrite decide_False].
    unfold replies. by rewrite zip_with_nil_r, app_nil_r.
Qed.

Lemma pump_ports_spec l : forall s,
  Forall (fun ip => port_ok ip.2) l -> wf 256 (serial_rx s) ->
  swp (pump_ports l) (fun ld s' => ports s' = ports s /\ wf 256 (serial_rx s') /\
    pump_spec l (contents 256 (serial_rx s)) ld.1 (contents 256 (serial_rx s')) ld.2) s.
Proof using Hdev.
  induction l as [|[id p] l IH]; intros s Hl Hx; cbn [pump_ports]; [by apply swp_ret; split_and!; [..|constructor]|].
  apply Forall_cons in Hl as [Hp Hl]. apply swp_bind. eapply swp_mono; [by apply pump_port_spec|].
  intros [p' cqes] s1 (Hps1 & Hx1 & rs & Hpp & Hc). cbn [fst snd] in *. apply swp_bind. eapply swp_mono; [by apply IH|].
  intros [l1 ds] s2 (Hps2 & Hx2 & Hspec). cbn [fst snd] in *. apply swp_ret. split_and!; [congruence|done|]. cbn [fst snd].
  rewrite Hc. replace (owner p') with (owner p) by (symmetry; apply Hpp). by econstructor.
Qed.

Lemma pump_spec_ok l rx l' rx' ds :
  pump_spec l rx l' rx' ds -> l'.*1 = l.*1 /\ Forall (fun ip => port_ok ip.2 /\ contents 64 (cq ip.2) = []) l'.
Proof using Type.
  induction 1 as [|id p p' l l' rx rx1 rx' rs ds Hp _ [IH1 IH2]]; [by split|]. cbn. rewrite IH1. split; [done|].
  constructor; [|done]. destruct Hp as (_ & _ & ? & ? & _). done.
Qed.
End pump.

(** C27: The bottom half delivers every completion.  [pump] ends on every well-formed system; it goes
    through the ports in order of their ids and hands out, for each, the
    completions it held followed by one reply per parked read it could answer, to
    the port's owner and in order; serial reads are answered oldest first with the
    received bytes in the order of arrival, and bytes without a read stay in the
    receive ring.  Afterwards every completion queue is empty. *)
Theorem pump_delivers s :
  devices_ok -> sys_ok s -> exists ds s', pump s = (Ok ds, s') /\ sys_ok s' /\
    pump_spec (ports s) (contents 256 (serial_rx s)) (ports s') (contents 256 (serial_rx s')) ds /\
    (forall id p, (id, p) ∈ ports s' -> contents 64 (cq p) = []).
Proof using Type.
  intros Hdev Hok. destruct (swp_elim pump (fun ds s' => sys_ok s' /\
    pump_spec (ports s) (contents 256 (serial_rx s)) (ports s') (contents 256 (serial_rx s')) ds /\
    (forall id p, (id, p) ∈ ports s' -> contents 64 (cq p) = [])) s) as (ds & s' & H1 & H2); [|by eauto].
  unfold pump. apply swp_bind, swp_modify, swp_bind, swp_get, swp_bind.
  eapply swp_mono; [apply (pump_ports_spec Hdev)|].
  - apply Forall_forall. intros [id p] Hin. by eapply sys_ports.
  - apply Hok.
  - intros [l ds] s1 (Hps & Hx & Hspec). apply swp_bind, swp_modify, swp_ret. cbn [fst snd] in *.
    destruct (pump_spec_ok _ _ _ _ _ Hspec) as [Hids Hall]. rewrite Forall_forall in Hall. split_and!.
    + split; cbn; [intros id p Hin; by apply (Hall (id, p))|rewrite Hids; by apply (sys_ids s)|done].
    + exact Hspec.
    + intros id p Hin. by apply (Hall (id, p)).
Qed.

(** Random bytes are complete.  [random_bytes] ends for every length: it returns exactly that many bytes, or
    an error, however the device splits the request, and never a partially filled buffer. *)
Theorem random_bytes_complete n d :
  devices_ok -> 0 <= n -> exists r d', random_bytes n d = (r, d') /\
    ((exists b, r = Ok b /\ zlen b = n) \/ r = Err tt) /\ (rng_up d = false -> r = Err tt).
Proof using Type.
  intros Hdev Hn. pose proof (random_bytes_answers Hdev n Hn d) as Ha.
  destruct (random_bytes n d) as [r d'] eqn:Hr. exists r, d'. split_and!; [done| |].
  - destruct r as [b|[]| |]; try done; eauto.
  - intros Hup. unfold random_bytes, mbind, M_bind, get in Hr. rewrite Hup in Hr. by injection Hr as <- _.
Qed.


(** ** Buffers *)

(** Writing into a buffer and reading the same range back gives the data; the buffer keeps
    its length and all its other bytes, and every other buffer is untouched.  A range that leaves the buffer is refused and changes nothing. *)
Theorem buf_write_read s id off data buf :
  buffers s !! id = Some buf -> 0 <= off < 2 ^ 64 -> zlen buf < 2 ^ 64 -> exists s',
    buf_write id off data s = (Ok (bool_decide (off + zlen data <= zlen buf)), s') /\
    if decide (off + zlen data <= zlen buf) then
      buf_read id off (zlen data) s' = Some data /\
      (exists buf', buffers s' !! id = Some buf' /\ length buf' = length buf /\
         forall i, ~ (off <= Z.of_nat i < off + zlen data) -> buf' !! i = buf !! i) /\
      forall id', id' <> id -> buffers s' !! id' = buffers s !! id'
    else s' = s.
Proof using Type.
  intros Hb Ho Hlb. pose proof (zlen_nonneg data). unfold buf_write, mbind, M_bind, get. cbn beta iota. rewrite Hb.
  unfold checked_add_usize. destruct (decide (off + zlen data <= zlen buf)) as [Hle|Hgt].
  2: { exists s. split; [|done]. rewrite (bool_decide_false (off + zlen data <= _)) by done. case_bool_decide; [|done].
       by rewrite bool_decide_true by lia. }
  rewrite (bool_decide_true (off + zlen data <= _)), (bool_decide_true (off + zlen data < _)),
    (bool_decide_false (zlen buf < _)) by lia.
  set (buf' := take (Z.to_nat off) buf ++ data ++ drop (Z.to_nat (off + zlen data)) buf).
  assert (length buf' = length buf) as Hlen'.
  { unfold buf'. rewrite !length_app, length_take, length_drop. unfold zlen in *. lia. }
  eexists. split; [done|]. cbn. split_and!.
  - unfold buf_read. cbn. rewrite lookup_insert_eq. cbn. unfold checked_add_usize. rewrite bool_decide_true by lia. cbn.
    rewrite bool_decide_false by (unfold zlen in *; lia).
    unfold slice. rewrite bool_decide_true by (unfold zlen in *; lia). f_equal. unfold buf'.
    rewrite drop_app_length' by (rewrite length_take; unfold zlen in *; lia).
    rewrite take_app_length' by (unfold zlen; lia). done.
  - exists buf'. rewrite lookup_insert_eq. split_and!; [done|done|]. intros i Hi. unfold buf'.
    destruct (decide (Z.of_nat i < off)).
    + rewrite lookup_app_l by (rewrite length_take; unfold zlen in *; lia). by rewrite lookup_take_lt by lia.
    + rewrite lookup_app_r by (rewrite length_take; unfold zlen in *; lia).
      rewrite lookup_app_r by (rewrite length_take; unfold zlen in *; lia).
      rewrite lookup_drop, length_take. f_equal. unfold zlen in *. lia.
  - intros id' Hne. by rewrite lookup_insert_ne.
Qed.

(** *** Pinned buffers *)

Definition fresh_ids s : Prop := 0 <= next_buf s /\ forall id, is_Some (buffers s !! id) -> id < next_buf s.

(** From [s] to [s'], [n] buffers were created; unless the ids wrapped around, the pinned ones are
    still there, with their length. *)
Definition pins n s s' : Prop :=
  0 <= n /\ next_buf s' = wrap 64 (next_buf s + n) /\
  (fresh_ids s -> next_buf s + n < 2 ^ 64 -> fresh_ids s' /\ pinned s ⊆ pinned s' /\
     forall id buf, id ∈ pinned s -> buffers s !! id = Some buf -> exists buf', buffers s' !! id = Some buf' /\ length buf' = length buf).

Lemma pins_same s s' : next_buf s = wrap 64 (next_buf s) -> next_buf s' = next_buf s -> buffers s' = buffers s -> pinned s' = pinned s -> pins 0 s s'.
Proof using Type.
  intros Hw Hn Hb Hp. split_and!; [lia|by rewrite Z.add_0_r, Hn|]. unfold fresh_ids. rewrite Hn, Hb, Hp. eauto.
Qed.

Lemma pins_trans n m s1 s2 s3 : pins n s1 s2 -> pins m s2 s3 -> pins (n + m) s1 s3.
Proof using Type.
  intros (Hn & H1 & H2) (Hm & H3 & H4). split_and!; [lia| |].
  - rewrite H3, H1. unfold wrap. rewrite Zplus_mod_idemp_l. f_equal. lia.
  - intros Hf Hlt. destruct H2 as (Hf2 & Hs2 & Hb2); [done|lia|].
    assert (next_buf s2 = next_buf s1 + n) as E by (rewrite H1; apply wrap_small; destruct Hf; lia).
    destruct H4 as (Hf3 & Hs3 & Hb3); [done|lia|]. split_and!; [done|set_solver|].
    intros id buf Hid Hb. destruct (Hb2 id buf Hid Hb) as (b2 & Hb2' & Hl2). destruct (Hb3 id b2) as (b3 & Hb3' & Hl3); [set_solver|done|].
    exists b3. split; [done|congruence].
Qed.

(** Computations that keep pinned buffers, whatever their outcome. *)
Definition pinning {A} (m : M (@Sys D) Empty_set A) : Prop := forall s,
  next_buf s = wrap 64 (next_buf s) -> exists n, pins n s (m s).2.

Lemma pins_wrapped n s s' : pins n s s' -> next_buf s' = wrap 64 (next_buf s').
Proof using Type. intros (_ & -> & _). unfold wrap. by rewrite Z.mod_mod. Qed.

Lemma pinning_bind {A B} (m : M Sys Empty_set A) (f : A -> M Sys Empty_set B) :
  pinning m -> (forall a, pinning (f a)) -> pinning (x ← m; f x).
Proof using Type.
  intros Hm Hf s Hw. destruct (Hm s Hw) as [n Hn]. unfold mbind, M_bind. destruct (m s) as [[a|e| |] s1]; eauto.
  cbn in Hn. destruct (Hf a s1) as [n' Hn']; [by eapply pins_wrapped|]. exists (n + n'). by eapply pins_trans.
Qed.
Lemma pinning_same {A} (m : M Sys Empty_set A) :
  (forall s, next_buf (m s).2 = next_buf s /\ buffers (m s).2 = buffers s /\ pinned (m s).2 = pinned s) -> pinning m.
Proof using Type. intros Hm s Hw. exists 0. destruct (Hm s) as (? & ? & ?). by apply pins_same. Qed.

Lemma pinning_on_dev {E A} (m : M D E A) : pinning (on_dev m).
Proof using Type. apply pinning_same. intros s. unfold on_dev. by destruct (m (dev s)) as [[?|?| |] ?]. Qed.
Lemma pinning_push {T} n (v : T) r : pinning (push_ignore n v r).
Proof using Type. apply pinning_same. intros s. unfold push_ignore. by destruct (push n v r) as [[?|?| |] ?]. Qed.
Lemma pinning_pop {T} n (r : Ring T) : pinning (pop_ring n r).
Proof using Type. apply pinning_same. intros s. unfold pop_ring. by destruct (pop n r) as [[?|?| |] ?]. Qed.

Lemma pinning_buf_create data : pinning (buf_create data).
Proof using Type.
  intros s Hw. exists 1. unfold buf_create, buf_draw, buf_insert, mbind, M_bind, get, modify, mret, M_ret. cbn. split_and!; [lia|done|].
  intros [H0 Hf] Hlt. cbn in *. split_and!.
  - unfold fresh_ids. cbn. rewrite wrap_small by lia. split; [lia|]. intros id [b Hb]. apply lookup_insert_Some in Hb as [[<- _]|[_ Hb]]; [lia|].
    specialize (Hf id ltac:(eauto)). lia.
  - done.
  - intros id buf Hid Hb. exists buf. split; [|done]. rewrite lookup_insert_ne; [done|]. intros <-. specialize (Hf (next_buf s) ltac:(eauto)). lia.
Qed.

Lemma pinning_buf_take id : pinning (buf_take id).
Proof using Type.
  intros s Hw. exists 0. unfold buf_take, buf_is_pinned, buf_remove, mbind, M_bind, get, modify, mret, M_ret. cbn. case_bool_decide as Hp; [by apply pins_same|].
  cbn. split_and!; [lia|by rewrite Z.add_0_r|]. intros [H0 Hf] _. cbn. split_and!.
  - split; [done|]. cbn. intros i [b Hb]. apply lookup_delete_Some in Hb as [_ Hb]. eauto.
  - done.
  - intros i buf Hi Hb. exists buf. split; [|done]. rewrite lookup_delete_ne; [done|]. by intros ->.
Qed.

Lemma pinning_buf_pin id : pinning (buf_pin id).
Proof using Type.
  intros s Hw. exists 0. unfold buf_pin, buf_look, buf_mark, mbind, M_bind, get, modify, mret, M_ret. cbn. destruct (buffers s !! id); [|by apply pins_same].
  cbn. split_and!; [lia|by rewrite Z.add_0_r|]. intros Hf _. split_and!; [done|set_solver|eauto].
Qed.

Lemma pinning_buf_write id off data : 0 <= off -> pinning (buf_write id off data).
Proof using Type.
  intros Ho s Hw. exists 0. unfold buf_write, mbind, M_bind, get. cbn beta iota. destruct (buffers s !! id) as [buf|] eqn:Hb; [|by apply pins_same].
  unfold checked_add_usize. case_bool_decide as Hc; [|by apply pins_same]. case_bool_decide as Hl; [by apply pins_same|].
  cbn. split_and!; [lia|by rewrite Z.add_0_r|]. intros [H0 Hf] _. cbn. split_and!.
  - split; [done|]. cbn. intros i [b Hi]. apply lookup_insert_Some in Hi as [[<- _]|[_ Hi]]; eauto.
  - done.
  - intros i buf0 Hi Hb0. destruct (decide (i = id)) as [->|Hne]; [|rewrite lookup_insert_ne by done; eauto].
    rewrite lookup_insert_eq. eexists. split; [done|]. rewrite Hb in Hb0. injection Hb0 as ->.
    rewrite !length_app, length_take, length_drop. unfold zlen in *. lia.
Qed.

(** What processes, interrupts and the kernel do with ports and buffers. *)
Inductive port_op :=
| POpen (me kind_ : Z) | PSubmit (id : Z) (sqe : Sqe) | PPump | PIrq (n : nat) | PClose (pid : Z)
| PCreate (data : list byte) | PTake (id : Z) | PWrite (id off : Z) (data : list byte).

Definition port_act (o : port_op) : M (@Sys D) Empty_set unit :=
  match o with
  | POpen me kind_ => _ ← open me kind_; mret tt
  | PSubmit id sqe => _ ← submit id sqe; mret tt
  | PPump => _ ← pump; mret tt
  | PIrq n => serial_rx_irq n
  | PClose pid => close_owned_by pid
  | PCreate data => _ ← buf_create data; mret tt
  | PTake id => _ ← buf_take id; mret tt
  | PWrite id off data => _ ← buf_write id (wrap 64 off) data; mret tt
  end.

#[local] Ltac pinning := repeat first
  [ apply pinning_on_dev | apply pinning_push | apply pinning_pop | apply pinning_buf_create | apply pinning_buf_take
  | apply pinning_buf_pin | apply pinning_buf_write; apply wrap_range; done
  | match goal with
    | |- pinning (mbind _ _) => apply pinning_bind; [|intros ?]
    | |- pinning (match ?e with _ => _ end) => destruct e
    | |- pinning (if ?b then _ else _) => destruct b
    | |- pinning (let '(_, _) := ?e in _) => destruct e
    | |- pinning (drain_sq _ _ _) => fail 1
    end
  | apply pinning_same; done
  | progress unfold complete, park, rx_pop, unwrap ].

Lemma pinning_drain_sq body n : forall p, (forall sqe p, pinning (body sqe p)) -> pinning (drain_sq n body p).
Proof using Type. induction n as [|n IH]; intros p Hb; cbn [drain_sq]; pinning; [apply Hb|by apply IH]. Qed.
Lemma pinning_serial_op sqe p : pinning (serial_op sqe p).
Proof using Type. unfold serial_op. pinning. Qed.
Lemma pinning_blk_op sqe p : pinning (blk_op sqe p).
Proof using Type. unfold blk_op. pinning. Qed.
Lemma pinning_net_op sqe p : pinning (net_op sqe p).
Proof using Type. unfold net_op. pinning. Qed.
Lemma pinning_gpu_op sqe p : pinning (gpu_op sqe p).
Proof using Type. unfold gpu_op. pinning. Qed.
Lemma pinning_rng_op sqe p : pinning (rng_op sqe p).
Proof using Type. unfold rng_op. pinning. Qed.

Lemma pinning_submit id sqe : pinning (submit id sqe).
Proof using Type.
  intros s. unfold submit. destruct (get_port id (ports s)) as [p|]; [|intros Hw; exists 0; by apply pins_same].
  destruct (push 64 sqe (sq p)) as [[u|e| |] r]; try (intros Hw; exists 0; by apply pins_same).
  revert s. change (pinning (p' ← (if bool_decide (kind p = KIND_SERIAL) then serial_drain_sq (set_sq r p)
                 else if bool_decide (kind p = KIND_BLK) then blk_drain_sq (set_sq r p)
                 else if bool_decide (kind p = KIND_NET) then net_drain_sq (set_sq r p)
                 else if bool_decide (kind p = KIND_GPU) then gpu_drain_sq (set_sq r p)
                 else if bool_decide (kind p = KIND_RNG) then rng_drain_sq (set_sq r p)
                 else panic);
           _ ← modify (fun s => set_ports (put_port id p' (ports s)) (next_port s) s); mret true)).
  pinning; apply pinning_drain_sq; intros; auto using pinning_serial_op, pinning_blk_op, pinning_net_op, pinning_gpu_op, pinning_rng_op.
Qed.

Lemma pinning_pump_serial n : forall p, pinning (pump_serial n p).
Proof using Type. induction n as [|n IH]; intros p; cbn [pump_serial]; pinning. apply IH. Qed.
Lemma pinning_pump_net n : forall p, pinning (pump_net n p).
Proof using Type. induction n as [|n IH]; intros p; cbn [pump_net]; pinning. apply IH. Qed.
Lemma pinning_drain_cq n : forall p, pinning (drain_cq n p).
Proof using Type. induction n as [|n IH]; intros p; cbn [drain_cq]; pinning. apply IH. Qed.
Lemma pinning_pump_ports l : pinning (pump_ports l).
Proof using Type.
  induction l as [|[id p] l IH]; cbn [pump_ports]; unfold pump_port; pinning;
    auto using pinning_pump_serial, pinning_pump_net, pinning_drain_cq.
Qed.
Lemma pinning_irq n : pinning (serial_rx_irq n).
Proof using Type. induction n as [|n IH]; cbn [serial_rx_irq]; pinning. apply IH. Qed.

Lemma pinning_act o : pinning (port_act o).
Proof using Type.
  destruct o; cbn [port_act]; unfold open, pump; pinning; auto using pinning_submit, pinning_pump_ports, pinning_irq.
Qed.

(** Without interference from another core, a buffer that a device holds never moves.  Whatever sequence of port
    operations, interrupts, bottom halves and buffer operations runs, one after the other, however it ends, and unless
    2^64 buffers have been created, every pinned buffer is still in the table with the length it had, and still pinned. *)
Theorem pinned_stays_alone ops s :
  fresh_ids s -> next_buf s < 2 ^ 64 -> exists n s' r, for_each ops port_act s = (r, s') /\ 0 <= n /\
    next_buf s' = wrap 64 (next_buf s + n) /\
    (next_buf s + n < 2 ^ 64 -> fresh_ids s' /\ pinned s ⊆ pinned s' /\
       forall id buf, id ∈ pinned s -> buffers s !! id = Some buf -> exists buf', buffers s' !! id = Some buf' /\ length buf' = length buf).
Proof using Type.
  intros Hf Hlt. assert (pinning (for_each ops port_act)) as Hp.
  { induction ops as [|o ops IH]; cbn [for_each]; [by apply pinning_same|]. apply pinning_bind; [apply pinning_act|done]. }
  destruct (Hp s) as [n (Hn & Hnb & Hpin)]; [symmetry; apply wrap_small; destruct Hf; lia|].
  destruct (for_each ops port_act s) as [r s'] eqn:Hr. exists n, s', r. auto.
Qed.
End proofs.

(** ** A machine with an entropy source *)

Module PortsDemo.

(** The entropy source gives one byte per request; there is no disk, network or display. *)
#[export] Instance demo_devices : Devices unit := {|
  blk_up d := false; net_up d := false; rng_up d := true; gpu_up d := false;
  read_blocks n b := throw tt; write_blocks n b := throw tt; blk_flush := throw tt;
  request_entropy b := match b with [] => mret (0, []) | _ :: t => mret (1, x2a :: t) end;
  net_transmit b := throw tt; net_can_recv d := false; net_receive := throw tt;
  ctrl_wait_pop a b := throw tt; uart_in n := mret 0; uart_write_byte b := mret tt; buffer_phys id d := 4096
|}.

Abbreviation S := (@Sys unit).

Lemma demo_devices_ok : devices_ok (D:=unit).
Proof. split; intros; intros d; try done. by destruct b. Qed.

(** The state after [ops], starting at boot. *)
Definition after (ops : list port_op) : S := (for_each ops port_act (ports_init tt)).2.

Definition read_req (tag : Z) : Sqe := {| sqe_op := OP_READ; sqe_tag := tag; sqe_arg0 := 0; sqe_arg1 := 0 |}.

(** Process 7 opens the serial port. *)
Definition serial_open : S := after [POpen 7 KIND_SERIAL].
Definition serial_port : Port :=
  {| owner := 7; kind := KIND_SERIAL; sq := new 64 Sqe_DEFAULT; cq := new 64 Cqe_DEFAULT; pending_reads := new 64 Sqe_DEFAULT |}.

Lemma serial_open_ok : sys_ok serial_open.
Proof.
  split.
  - intros id p Hin. change (ports serial_open) with [(1, serial_port)] in Hin. apply list_elem_of_singleton in Hin as [= -> ->].
    unfold port_ok. cbn [serial_port sq cq pending_reads kind]. unfold KIND_SERIAL. split_and!; [apply new_wf|done|apply new_wf|apply new_wf|lia|lia].
  - change (ports serial_open) with [(1, serial_port)]. cbn. apply NoDup_singleton.
  - apply (new_wf (N:=256)).
Qed.


Lemma pump_delivers_witness : exists ds s', pump serial_open = (Ok ds, s') /\
  forall id p, (id, p) ∈ ports s' -> contents 64 (cq p) = [].
Proof.
  destruct (pump_delivers serial_open demo_devices_ok serial_open_ok) as (ds & s' & H1 & _ & _ & H2). by exists ds, s'.
Defined.

Lemma random_bytes_complete_witness : exists r d', random_bytes 3 tt = (r, d') /\
  ((exists b, r = Ok b /\ zlen b = 3) \/ r = Err tt).
Proof.
  destruct (random_bytes_complete 3 tt demo_devices_ok ltac:(lia)) as (r & d' & H1 & H2 & _). by exists r, d'.
Defined.

(** A buffer of four bytes, pinned. *)
Definition pinned_buffer : S := (buf_pin 1 (after [PCreate [x00; x00; x00; x00]])).2.

Lemma buf_write_read_witness : exists s', buf_write 1 1 [x61; x62] pinned_buffer = (Ok true, s') /\ buf_read 1 1 2 s' = Some [x61; x62].
Proof.
  destruct (buf_write_read pinned_buffer 1 1 [x61; x62] [x00; x00; x00; x00]) as (s' & H1 & H2); [done|lia|done|].
  exists s'. split; [exact H1|]. rewrite decide_True in H2 by done. apply H2.
Defined.

Lemma pinned_stays_alone_witness : exists n s' r, for_each [PTake 1; PWrite 1 0 [x61]; PPump] port_act pinned_buffer = (r, s') /\
  (next_buf pinned_buffer + n < 2 ^ 64 -> exists buf', buffers s' !! 1 = Some buf' /\ length buf' = 4%nat).
Proof.
  destruct (pinned_stays_alone [PTake 1; PWrite 1 0 [x61]; PPump] pinned_buffer) as (n & s' & r & H1 & _ & _ & H2); [|done|].
  - split; [done|]. intros id [b Hb]. change (buffers pinned_buffer) with ({[1 := [x00; x00; x00; x00]]} : gmap Z (list byte)) in Hb.
    apply lookup_singleton_Some in Hb as [<- _]. done.
  - exists n, s', r. split; [exact H1|]. intros Hlt. destruct (H2 Hlt) as (_ & _ & H3). apply (H3 1 [x00; x00; x00; x00]).
    + change (pinned pinned_buffer) with ({[1]} ∪ ∅ : gset Z). set_solver.
    + done.
Defined.

(** The sixty-fifth parked read is lost.  A process that submits 65 reads to its serial port has
    all of them accepted, but only 64 are parked: the last one is in no queue and will never be answered. *)
Theorem parked_read_dropped :
  let reads := map (fun n => PSubmit 1 (read_req (Z.of_nat n))) (seq 0 65) in
  (exists s', submit 1 (read_req 64) (after (POpen 7 KIND_SERIAL :: take 64 reads)) = (Ok true, s')) /\
  (fun p => (map sqe_tag (contents 64 (pending_reads p)), contents 64 (cq p))) <$> get_port 1 (ports (after (POpen 7 KIND_SERIAL :: reads))) =
    Some (map Z.of_nat (seq 0 64), []).
Proof. split; [eexists; vm_compute; done|by vm_compute]. Qed.

(** A parked read is answered even if its tag asks for no completion: a serial read submitted with
    [SKIP_CQE] is completed with that tag when a byte arrives, unlike every other request. *)
Theorem parked_read_ignores_skip :
  let s := after [POpen 7 KIND_SERIAL; PSubmit 1 (read_req SKIP_CQE)] in
  let s := set_rx true (match push 256 97 (serial_rx s) with (_, r) => r end) s in
  (pump s).1 = Ok [(7, 1, {| cqe_tag := SKIP_CQE; cqe_result := 97 |})].
Proof. by vm_compute. Qed.
End PortsDemo.
