(* ===== verification/PortsBuffers.v ===== *)
(** * PortsBuffers: the buffer table under all cores

    [BUFFERS], [PINNED] and [NEXT_BUF] of [kernel/src/ports.rs] are locked one at a time, so [buf_create], [buf_take]
    and [buf_pin] are two critical sections each, and any core may run between them: processes call the buffer
    operations without the lock of the ports.  Here every core runs any calls, one section per step. *)

From S2P Require Import Prelude Rings Ports PortsProofs.

Section cores.
Context {D : Type} `{!Devices D}.

(** ** Calls and their sections *)

Inductive buf_call := BCreate (data : list byte) | BTake (id : Z) | BWrite (id off : Z) (data : list byte) | BPin (id : Z).

(** Between the sections of a call. *)
Inductive in_flight := Drawn (id : Z) (data : list byte) | Checked (id : Z) | Looked (id : Z) (range : Z * Z).

(** The first section; [None]: the call is over. *)
Definition buf_first (c : buf_call) : M (@Sys D) Empty_set (option in_flight) :=
  match c with
  | BCreate data => id ← buf_draw; mret (Some (Drawn id data))
  | BTake id => b ← buf_is_pinned id; mret (if b : bool then None else Some (Checked id))
  | BWrite id off data => _ ← buf_write id (wrap 64 off) data; mret None
  | BPin id => o ← buf_look id; mret (Looked id <$> o)
  end.

Definition buf_second (f : in_flight) : M (@Sys D) Empty_set unit :=
  match f with
  | Drawn id data => buf_insert id data
  | Checked id => _ ← buf_remove id; mret tt
  | Looked id _ => buf_mark id
  end.

(** The sections of a call one after the other are the call. *)
Definition buf_whole (c : buf_call) : M (@Sys D) Empty_set unit :=
  match c with
  | BCreate data => _ ← buf_create data; mret tt
  | BTake id => _ ← buf_take id; mret tt
  | BWrite id off data => _ ← buf_write id (wrap 64 off) data; mret tt
  | BPin id => _ ← buf_pin id; mret tt
  end.

Lemma sections_whole c s : (o ← buf_first c; match o with Some f => buf_second f | None => mret tt end) s = buf_whole c s.
Proof using Type.
  destruct c as [data|id|id off data|id]; cbn [buf_first buf_whole].
  - done.
  - unfold buf_take, buf_is_pinned, mbind, M_bind, get, mret, M_ret. by case_bool_decide.
  - unfold mbind, M_bind. by destruct (buf_write id (wrap 64 off) data s) as [[?|?| |] ?].
  - unfold buf_pin, buf_look, mbind, M_bind, get, mret, M_ret. by destruct (buffers s !! id).
Qed.

(** ** Cores *)

(** A core that is not in the map is between calls. *)
Record Cores := { bs_sys : @Sys D; bs_at : gmap nat in_flight }.

(** [bs_other]: whatever else the kernel does leaves the table alone. *)
Inductive bstep : Cores -> Cores -> Prop :=
| bs_call n c s s' o m : m !! n = None -> buf_first c s = (Ok o, s') ->
    bstep {| bs_sys := s; bs_at := m |} {| bs_sys := s'; bs_at := match o with Some f => <[n := f]> m | None => m end |}
| bs_resume n f s s' m : m !! n = Some f -> buf_second f s = (Ok tt, s') ->
    bstep {| bs_sys := s; bs_at := m |} {| bs_sys := s'; bs_at := delete n m |}
| bs_other s s' m : buffers s' = buffers s -> next_buf s' = next_buf s -> pinned s' = pinned s ->
    bstep {| bs_sys := s; bs_at := m |} {| bs_sys := s'; bs_at := m |}.

(** Every id handed out so far is below the counter. *)
Record ids_below (b : Cores) : Prop := {
  ib_next : 0 <= next_buf (bs_sys b);
  ib_table id : is_Some (buffers (bs_sys b) !! id) -> id < next_buf (bs_sys b);
  ib_drawn n id data : bs_at b !! n = Some (Drawn id data) -> id < next_buf (bs_sys b);
}.

(** The buffer is in the table with [len] bytes and pinned, and no core is about to remove it or to store it anew. *)
Record held (id : Z) (len : nat) (b : Cores) : Prop := {
  hd_there : exists buf, buffers (bs_sys b) !! id = Some buf /\ length buf = len;
  hd_pinned : id ∈ pinned (bs_sys b);
  hd_taker n : bs_at b !! n <> Some (Checked id);
  hd_maker n data : bs_at b !! n <> Some (Drawn id data);
}.

(** What a write does to the table. *)
Lemma buf_write_table id off data (s s' : @Sys D) x : 0 <= off -> buf_write id off data s = (Ok x, s') ->
  next_buf s' = next_buf s /\ pinned s' = pinned s /\
  forall i, option_map length (buffers s' !! i) = option_map length (buffers s !! i).
Proof using Type.
  intros Ho. unfold buf_write, mbind, M_bind, get. cbn beta iota. destruct (buffers s !! id) as [buf|] eqn:Hb; [|by intros [= <- <-]].
  unfold checked_add_usize. case_bool_decide; [|by intros [= <- <-]]. case_bool_decide as Hl; [by intros [= <- <-]|].
  intros [= <- <-]. split_and!; [done|done|]. intros i. cbn. destruct (decide (i = id)) as [->|Hne]; [|by rewrite lookup_insert_ne].
  rewrite lookup_insert_eq, Hb. cbn. f_equal. rewrite !length_app, length_take, length_drop. unfold zlen in *. lia.
Qed.

Lemma write_there id off data (s s' : @Sys D) x i len : 0 <= off -> buf_write id off data s = (Ok x, s') ->
  (exists buf, buffers s !! i = Some buf /\ length buf = len) -> exists buf, buffers s' !! i = Some buf /\ length buf = len.
Proof using Type.
  intros Ho Hw (buf & Hb & Hl). destruct (buf_write_table _ _ _ _ _ _ Ho Hw) as (_ & _ & H). specialize (H i). rewrite Hb in H.
  destruct (buffers s' !! i) as [buf'|]; [|done]. cbn in H. injection H as H. exists buf'. split; [done|congruence].
Qed.

(** ** Steps *)

Lemma bstep_below b b' : bstep b b' -> ids_below b -> next_buf (bs_sys b) + 1 < 2 ^ 64 ->
  ids_below b' /\ next_buf (bs_sys b) <= next_buf (bs_sys b') <= next_buf (bs_sys b) + 1.
Proof using Type.
  intros H [H0 Ht Hd] Hlt. destruct H as [n c s s' o m Hn Hc|n f s s' m Hn Hf|s s' m Hb Hnx Hp]; cbn [bs_sys bs_at] in *.
  - destruct c as [data|id|id off data|id]; cbn [buf_first] in Hc.
    + injection Hc as <- <-. cbn. rewrite wrap_small by lia. split; [|lia]. split; cbn; [lia|intros i Hi; specialize (Ht i Hi); lia|].
      intros k i d Hk. apply lookup_insert_Some in Hk as [[<- [= <- _]]|[_ Hk]]; [lia|]. specialize (Hd k i d Hk). lia.
    + injection Hc as <- <-. split; [|lia]. split; cbn; [done|done|]. case_bool_decide; [done|].
      intros k i d Hk. apply lookup_insert_Some in Hk as [[_ [=]]|[_ Hk]]. by eapply Hd.
    + apply bind_ok in Hc as (x & s1 & Hw & [= <- <-]). destruct (buf_write_table id (wrap 64 off) data s s1 x) as (E1 & _ & E2); [apply wrap_range; done|done|].
      rewrite E1. split; [|lia]. split; cbn; rewrite ?E1; [done| |done]. intros i [b Hb]. apply Ht. specialize (E2 i). rewrite Hb in E2.
      destruct (buffers s !! i); [by eexists|done].
    + injection Hc as <- <-. split; [|lia]. split; cbn; [done|done|]. destruct (buffers s !! id); cbn; [|done].
      intros k i d Hk. apply lookup_insert_Some in Hk as [[_ [=]]|[_ Hk]]. by eapply Hd.
  - assert (forall k i d, delete n m !! k = Some (Drawn i d) -> i < next_buf s) as Hd' by (intros k i d [_ Hk]%lookup_delete_Some; by eapply Hd).
    destruct f as [id data|id|id r]; cbn [buf_second] in Hf; injection Hf as <-; cbn; (split; [|lia]); split; cbn; try done.
    + intros i [b Hb]. apply lookup_insert_Some in Hb as [[<- _]|[_ Hb]]; [by eapply Hd|by apply Ht].
    + intros i [b Hb]. apply lookup_delete_Some in Hb as [_ Hb]. by apply Ht.
  - rewrite Hnx. split; [|lia]. by split; cbn; rewrite ?Hb, ?Hnx.
Qed.

Lemma bstep_held id len b b' : bstep b b' -> ids_below b -> next_buf (bs_sys b) + 1 < 2 ^ 64 -> held id len b -> held id len b'.
Proof using Type.
  intros H [H0 Ht Hd] Hlt [Hb Hp Hk Hm]. destruct H as [n c s s' o m Hn Hc|n f s s' m Hn Hf|s s' m Eb Hnx Ep]; cbn [bs_sys bs_at] in *.
  - destruct c as [data|i|i off data|i]; cbn [buf_first] in Hc.
    + injection Hc as <- <-. split; cbn; [done|done| |].
      * intros k Hk'. apply lookup_insert_Some in Hk' as [[_ [=]]|[_ Hk']]. by eapply Hk.
      * intros k d Hk'. apply lookup_insert_Some in Hk' as [[_ [= E _]]|[_ Hk']]; [|by eapply Hm]. destruct Hb as (buf & Hb & _).
        specialize (Ht id ltac:(eauto)). lia.
    + injection Hc as <- <-. case_bool_decide as Hi; [by split|]. split; cbn; [done|done| |].
      * intros k Hk'. apply lookup_insert_Some in Hk' as [[_ [= ->]]|[_ Hk']]; [done|by eapply Hk].
      * intros k d Hk'. apply lookup_insert_Some in Hk' as [[_ [=]]|[_ Hk']]. by eapply Hm.
    + apply bind_ok in Hc as (x & s1 & Hw & [= <- <-]). destruct (buf_write_table i (wrap 64 off) data s s1 x) as (_ & E1 & _); [apply wrap_range; done|done|].
      split; cbn; [|by rewrite E1|done|done]. eapply write_there; [|exact Hw|exact Hb]. by apply wrap_range.
    + injection Hc as <- <-. destruct (buffers s !! i); cbn [fmap option_fmap option_map]; [|by split]. split; cbn; [done|done| |].
      * intros k Hk'. apply lookup_insert_Some in Hk' as [[_ [=]]|[_ Hk']]. by eapply Hk.
      * intros k d Hk'. apply lookup_insert_Some in Hk' as [[_ [=]]|[_ Hk']]. by eapply Hm.
  - assert (forall k f', delete n m !! k = Some f' -> m !! k = Some f') as Hdel by (by intros k f' [_ ?]%lookup_delete_Some).
    destruct f as [i data|i|i r]; cbn [buf_second] in Hf; injection Hf as <-; split; cbn; try done; try (intros; intros ?%Hdel; by eapply Hk); try (intros; intros ?%Hdel; by eapply Hm).
    + destruct (decide (i = id)) as [->|Hne]; [by destruct (Hm n data)|]. by rewrite lookup_insert_ne.
    + destruct (decide (i = id)) as [->|Hne]; [by destruct (Hk n)|]. by rewrite lookup_delete_ne.
    + set_solver.
  - split; cbn; rewrite ?Eb, ?Ep; done.
Qed.

(** C33: A buffer that a device holds never moves, whatever the cores do.  Take a buffer that is in the table and
    pinned, while no core is inside a take of it that has passed its check: then in every
    interleaving of the critical sections of creations, takes, writes and pins on any number of cores, it stays in the table
    with its length, stays pinned, and no later take gets past its check, as long as fewer than 2^64 buffers are
    created. *)
Theorem pinned_stays id len n (b b' : Cores) :
  nsteps bstep n b b' -> ids_below b -> next_buf (bs_sys b) + Z.of_nat n < 2 ^ 64 -> held id len b -> held id len b'.
Proof using Type.
  intros H. induction H as [b|n b1 b2 b3 H1 H2 IH]; intros Hi Hlt Hh; [done|].
  destruct (bstep_below _ _ H1 Hi) as [Hi2 Hn]; [lia|]. apply IH; [done|lia|]. eapply bstep_held; [exact H1|done|lia|done].
Qed.
End cores.

(** ** Two cores *)

Module BuffersDemo.
Import PortsDemo.

(** The pinned buffer of four bytes; core 1 tries to take it. *)
Definition idle_cores : Cores := {| bs_sys := pinned_buffer; bs_at := ∅ |}.

Lemma pinned_stays_witness : held 1 4 {| bs_sys := pinned_buffer; bs_at := ∅ |} /\
  held 1 4 {| bs_sys := (buf_first (BTake 1) pinned_buffer).2; bs_at := ∅ |}.
Proof.
  assert (held 1 4 idle_cores) as Hh.
  { split; cbn [idle_cores bs_sys bs_at]; [by exists [x00; x00; x00; x00]| |done|done].
    change (pinned pinned_buffer) with ({[1]} ∪ ∅ : gset Z). set_solver. }
  split; [exact Hh|]. apply (pinned_stays 1 4 1 idle_cores); [| | |exact Hh].
  - apply nsteps_once. apply (bs_call 1 (BTake 1) pinned_buffer _ None ∅); by vm_compute.
  - split; cbn [idle_cores bs_sys bs_at]; [done| |done]. intros i [buf Hb].
    change (buffers pinned_buffer) with ({[1 := [x00; x00; x00; x00]]} : gmap Z (list byte)) in Hb. by apply lookup_singleton_Some in Hb as [<- _].
  - by vm_compute.
Defined.

(** The race: core 1 has passed the check of its take when core 0 pins the buffer; then core 1 removes it, and
    the device holds the address of a buffer that is gone. *)
Definition one_buffer : S := after [PCreate [x00; x00; x00; x00]].
Definition raced : S := (buf_second (Checked 1) pinned_buffer).2.

Example pinned_buffer_removed :
  rtc bstep {| bs_sys := one_buffer; bs_at := ∅ |} {| bs_sys := raced; bs_at := ∅ |} /\
  1 ∈ pinned raced /\ buffers raced !! 1 = None.
Proof.
  split; [|split; [change (pinned raced) with ({[1]} ∪ ∅ : gset Z); set_solver|by vm_compute]].
  set (m1 := {[1%nat := Checked 1]} : gmap nat in_flight). set (m2 := <[0%nat := Looked 1 (4096, 4)]> m1).
  apply (rtc_l _ _ {| bs_sys := one_buffer; bs_at := m1 |}); [apply (bs_call 1 (BTake 1) one_buffer _ (Some (Checked 1)) ∅); by vm_compute|].
  apply (rtc_l _ _ {| bs_sys := one_buffer; bs_at := m2 |}); [apply (bs_call 0 (BPin 1) one_buffer _ (Some (Looked 1 (4096, 4))) m1); by vm_compute|].
  apply (rtc_l _ _ {| bs_sys := pinned_buffer; bs_at := m1 |}).
  { apply (bs_resume 0 (Looked 1 (4096, 4)) one_buffer pinned_buffer m2); by vm_compute. }
  apply rtc_once. apply (bs_resume 1 (Checked 1) pinned_buffer raced m1); by vm_compute.
Qed.
End BuffersDemo.
