(* ===== verification/Memory.v ===== *)
(** * Memory: physical memory, stacks and process heaps

    Models [kernel/src/mm.rs] (the boot-time set-up of the frame allocator and the two
    direct address translations), the stack and code zones of [kernel/src/vmm.rs] and [ProcHeap] of
    [kernel/src/proc.rs], on top of the frame bitmap of [FrameAlloc].  The page
    tables proper belong to the crate [x86_64]: they are the class [Mapper]. *)

From S2P Require Import Prelude Rings FrameAlloc Term.

(** ** Boot: the frame bitmap *)

Record Region := { r_base : Z; r_length : Z; usable : bool }.

(** [.map(|e| e.base + e.length).max()] *)
Definition region_top (es : list Region) : option Z :=
  match map (fun e => wrap 64 (r_base e + r_length e)) es with
  | [] => None
  | x :: l => Some (foldl Z.max x l)
  end.

Definition mm_init (entries_ : list Region) : res Empty_set FrameBitmap :=
  let us := filter (fun e => usable e = true) entries_ in
  match region_top us with
  | None => Panic
  | Some top_ =>
      let n := top_ / FRAME_SIZE in
      let words := storage_words n in
      let storage_bytes := words * 8 in
      match find (fun e => bool_decide (storage_bytes <= r_length e)) us with
      | None => Panic
      | Some host =>
          match new 0 n (replicate (Z.to_nat words) 0) with
          | Ok bitmap =>
              ((_ ← for_each us (fun e => mark_free_range (r_base e) (r_length e));
               _ ← mark_used_range (r_base host) storage_bytes;
               _ ← (if bool_decide (0 < n) then mark_used_range 0 FRAME_SIZE else mret tt);
               get) bitmap).1
          | Err e => Err e
          | Panic => Panic
          | NoFuel => NoFuel
          end
      end
  end.

(** ** Process heaps *)

Section heap.
Context (hhdm_offset : Z).

Definition phys_to_virt (phys : Z) : Z := wrap 64 (phys + hhdm_offset).

Record ProcHeap := { cur : Heap; spans : list (Z * Z); max_pages : Z; total_pages : Z }.

Definition proc_heap_new (initial_pages max_pages_ : Z) : FM ProcHeap :=
  let pages := Z.max (Z.min initial_pages max_pages_) 1 in
  o ← alloc_contig pages 1;
  phys ← unwrap o;
  mret {| cur := Heap_new (phys_to_virt phys) (pages * 4096); spans := [(phys, pages)];
          max_pages := max_pages_; total_pages := pages |}.

Definition grow (ph : ProcHeap) : FM (bool * ProcHeap) :=
  if bool_decide (max_pages ph <= total_pages ph) then mret (false, ph)
  else
    let next := Z.min (total_pages ph) (max_pages ph - total_pages ph) in
    o ← alloc_contig next 1;
    match o with
    | None => mret (false, ph)
    | Some phys =>
        mret (true, {| cur := Heap_new (phys_to_virt phys) (next * 4096); spans := spans ph ++ [(phys, next)];
                       max_pages := max_pages ph; total_pages := total_pages ph + next |})
    end.

(** [clamp] panics when its bounds are out of order. *)
Definition clamp (lo hi v : Z) : FM Z := _ ← massert (bool_decide (lo <= hi)); mret (Z.min (Z.max v lo) hi).

Definition begin_compact (live_words : Z) (ph : ProcHeap) : FM (option (list (Z * Z)) * ProcHeap) :=
  pages ← clamp 4 (max_pages ph) (div_ceil (live_words * 8) 4096);
  o ← alloc_contig pages 1;
  match o with
  | None => mret (None, ph)
  | Some phys =>
      mret (Some (spans ph), {| cur := Heap_new (phys_to_virt phys) (pages * 4096); spans := [(phys, pages)];
                                max_pages := max_pages ph; total_pages := pages |})
  end.

Definition free_spans (l : list (Z * Z)) : FM unit := for_each l (fun sp => free_frames sp.1 sp.2).

Definition take_spans (ph : ProcHeap) : list (Z * Z) := spans ph.

(** What happens to a heap between its creation and its end: growth, and compaction with the
    old spans freed after evacuation. *)
Inductive heap_op := HGrow | HCompact (live_words : Z).

Definition heap_act (o : heap_op) (ph : ProcHeap) : FM ProcHeap :=
  match o with
  | HGrow => '(_, ph') ← grow ph; mret ph'
  | HCompact w =>
      '(old, ph') ← begin_compact w ph;
      match old with Some l => _ ← free_spans l; mret ph' | None => mret ph' end
  end.

Fixpoint heap_run (ops : list heap_op) (ph : ProcHeap) : FM ProcHeap :=
  match ops with
  | [] => mret ph
  | o :: ops' => ph' ← heap_act o ph; heap_run ops' ph'
  end.
End heap.

(** ** Stacks *)

Definition STACK_ZONE_BASE : Z := 0xffff900000000000.
Definition SLOT_STRIDE : Z := 64 * 4096.
Definition STACK_PAGES : Z := 56.
Definition MAX_SLOTS : Z := 65536.
Definition CODE_ZONE_BASE : Z := 0xffffffff70000000.

Definition in_stack_zone (addr : Z) : bool :=
  bool_decide (STACK_ZONE_BASE <= addr /\ addr < STACK_ZONE_BASE + MAX_SLOTS * SLOT_STRIDE).

Record SlotAllocator := { next : Z; freed : list Z }.

Definition slots_new : SlotAllocator := {| next := 0; freed := [] |}.

(** [freed.pop().unwrap_or_else(..)] *)
Definition slot_alloc : M SlotAllocator Empty_set Z :=
  a ← get;
  match last (freed a) with
  | Some s => _ ← modify (fun a => {| next := next a; freed := removelast (freed a) |}); mret s
  | None =>
      _ ← modify (fun a => {| next := next a + 1; freed := freed a |});
      _ ← massert (bool_decide (next a < MAX_SLOTS));
      mret (next a)
  end.

Inductive prot := StackRW | CodeRX.

(** The page tables: [map_to] takes frames for its tables from the frame allocator. *)
Class Mapper (P : Type) := {
  map_to : Z -> Z -> prot -> M (P * FrameBitmap) unit unit;
  unmap : Z -> M P unit Z;
  translate_page : P -> Z -> option (Z * prot);
}.

Section vmm.
Context {P : Type} `{!Mapper P}.

Record Vm := { slots : SlotAllocator; tables : P; pmm : FrameBitmap; code_next : Z }.

Abbreviation VM := (M Vm Empty_set).

Definition set_slots (a : SlotAllocator) (v : Vm) : Vm := {| slots := a; tables := tables v; pmm := pmm v; code_next := code_next v |}.
Definition set_tables (t : P) (b : FrameBitmap) (v : Vm) : Vm := {| slots := slots v; tables := t; pmm := b; code_next := code_next v |}.
Definition set_code (n : Z) (v : Vm) : Vm := {| slots := slots v; tables := tables v; pmm := pmm v; code_next := n |}.

Definition on_slots {A} (m : M SlotAllocator Empty_set A) : VM A := fun v =>
  let '(r, a) := m (slots v) in (r, set_slots a v).
Definition on_pmm {A} (m : M FrameBitmap Empty_set A) : VM A := fun v =>
  let '(r, b) := m (pmm v) in (r, set_tables (tables v) b v).

(** [mapper.map_to(..).expect(..).flush()] *)
Definition map_page (va pa : Z) (f : prot) : VM unit := fun v =>
  match map_to va pa f (tables v, pmm v) with
  | (Ok _, (t, b)) => (Ok tt, set_tables t b v)
  | (NoFuel, (t, b)) => (NoFuel, set_tables t b v)
  | (_, (t, b)) => (Panic, set_tables t b v)
  end.
(** [mapper.unmap(page).expect(..)] *)
Definition unmap_page (va : Z) : VM Z := fun v =>
  match unmap va (tables v) with
  | (Ok frame, t) => (Ok frame, set_tables t (pmm v) v)
  | (NoFuel, t) => (NoFuel, set_tables t (pmm v) v)
  | (_, t) => (Panic, set_tables t (pmm v) v)
  end.

Definition slot_base (slot : Z) : Z := STACK_ZONE_BASE + slot * SLOT_STRIDE.
Definition stack_base (slot : Z) : Z := slot_base slot + SLOT_STRIDE - STACK_PAGES * 4096.

Definition map_stack : VM (Z * Z) :=
  slot ← on_slots slot_alloc;
  o ← on_pmm (alloc_contig STACK_PAGES 1);
  span ← unwrap o;
  _ ← for_each (seqZ 0 STACK_PAGES) (fun i => map_page (stack_base slot + i * 4096) (span + i * 4096) StackRW);
  mret (slot, slot_base slot + SLOT_STRIDE).

Fixpoint unmap_pages (vas : list Z) : VM (list Z) :=
  match vas with
  | [] => mret []
  | va :: vas' => f ← unmap_page va; fs ← unmap_pages vas'; mret (f :: fs)
  end.

(** The broadcast between unmapping and freeing has no state here; see the model of the translation caches. *)
Definition unmap_stack (slot : Z) : VM unit :=
  frames_ ← unmap_pages (map (fun i => stack_base slot + i * 4096) (seqZ 0 STACK_PAGES));
  _ ← for_each frames_ (fun f => on_pmm (free_frames f 1));
  on_slots (modify (fun a => {| next := next a; freed := freed a ++ [slot] |})).

Definition map_code (span_phys pages : Z) : VM Z :=
  v ← get;
  let va := code_next v in
  _ ← modify (set_code (wrap 64 (va + (pages + 1) * 4096)));
  _ ← for_each (seqZ 0 pages) (fun i => map_page (va + i * 4096) (span_phys + i * 4096) CodeRX);
  mret va.
End vmm.
