(* ===== verification/MemoryProofs.v ===== *)
(** * MemoryProofs: no frame is lost or handed out twice

    The frames that boot puts into the allocator, the conservation of frames
    over a process heap's life, and the separation of process stacks. *)

From S2P Require Import Prelude Rings FrameAlloc Term Memory.

(** ** Boot *)

Lemma new_bitmap_wf n words :
  0 <= n -> n * FRAME_SIZE < 2 ^ 64 -> words = storage_words n -> exists b,
    new 0 n (replicate (Z.to_nat words) 0) = Ok b /\ wf b /\ base b = 0 /\ nframes b = n /\ free_set b = ∅.
Proof.
  intros Hn Hlt ->. assert (0 <= storage_words n /\ n <= storage_words n * 64) as [Hw0 Hw].
  { unfold storage_words, div_ceil. pose proof (Z.div_mod (n + 64 - 1) 64). pose proof (Z.mod_pos_bound (n + 64 - 1) 64). lia. }
  unfold new, zlen. rewrite length_replicate, bool_decide_true by lia. cbn [andb bool_decide]. eexists. split; [done|].
  set (b := {| bits := _ |}).
  assert (forall i, 0 <= i < n -> used_bit b i = true) as Hused.
  { intros i Hi. unfold used_bit. cbn [bits b]. destruct (lookupz _ (i / 64)) as [w|] eqn:Hl; [|done].
    apply lookupz_Some in Hl as [_ Hl]. apply lookup_replicate in Hl as [-> _].
    change (2 ^ 64 - 1) with (Z.ones 64). apply Z.ones_spec_low. pose proof (Z.mod_pos_bound i 64). lia. }
  assert (free_set b = ∅) as Hfs.
  { apply set_eq. intros i. rewrite elem_of_free_set. split; [|set_solver]. intros [Hi Hu]. by rewrite Hused in Hu. }
  split_and!; [|done|done|done]. split; cbn; rewrite ?Hfs; try done; try lia.
  - unfold zlen. rewrite length_replicate. lia.
  - apply Forall_replicate. lia.
Qed.

(** A region of whole frames. *)
Definition aligned (e : Region) : Prop :=
  0 <= r_base e /\ r_base e mod FRAME_SIZE = 0 /\ 0 <= r_length e /\ r_length e mod FRAME_SIZE = 0 /\ r_base e + r_length e < 2 ^ 64.

Definition in_region (k : Z) (e : Region) : Prop := r_base e / FRAME_SIZE <= k < (r_base e + r_length e) / FRAME_SIZE.

Lemma index_base0 b addr : base b = 0 -> 0 <= addr < 2 ^ 64 -> index_of b addr = addr / FRAME_SIZE.
Proof. intros Hb Ha. unfold index_of. rewrite Hb, Z.sub_0_r, wrap_small; [done|lia]. Qed.

Lemma mark_region b e :
  wf b -> base b = 0 -> aligned e -> exists b', mark_free_range (r_base e) (r_length e) b = (Ok tt, b') /\ wf b' /\ same_shape b b' /\
    forall k, k ∈ free_set b' <-> k ∈ free_set b \/ (in_region k e /\ k < nframes b).
Proof.
  intros Hwf Hb (H1 & H2 & H3 & H4 & H5). unfold mark_free_range, mbind, M_bind, get. cbn beta iota.
  rewrite (index_base0 b (r_base e) Hb) by lia.
  destruct (range_run false b (r_base e / FRAME_SIZE) (r_length e / FRAME_SIZE) Hwf) as (b' & Hrun & Hwf' & Hs & Hk).
  { apply Z.div_pos; [lia|done]. }
  exists b'. split_and!; [done|done|done|]. intros k. rewrite Hk. unfold in_region, FRAME_SIZE in *.
  replace ((r_base e + r_length e) / 4096) with (r_base e / 4096 + r_length e / 4096).
  - done.
  - pose proof (Z.div_mod (r_base e) 4096). pose proof (Z.div_mod (r_length e) 4096).
    apply (Z.div_unique _ 4096 _ 0); lia.
Qed.

Lemma mark_regions us : forall b,
  wf b -> base b = 0 -> Forall aligned us -> exists b',
    for_each us (fun e => mark_free_range (r_base e) (r_length e)) b = (Ok tt, b') /\ wf b' /\ same_shape b b' /\
    forall k, k ∈ free_set b' <-> k ∈ free_set b \/ (Exists (in_region k) us /\ k < nframes b).
Proof.
  induction us as [|e us IH]; intros b Hwf Hb Hal.
  { exists b. split_and!; [done|done|done|]. intros k. rewrite Exists_nil. tauto. }
  apply Forall_cons in Hal as [He Hal]. destruct (mark_region b e Hwf Hb He) as (b1 & H1 & Hwf1 & Hs1 & Hk1).
  pose proof Hs1 as (Hb1 & Hn1 & _). destruct (IH b1 Hwf1 ltac:(congruence) Hal) as (b2 & H2 & Hwf2 & Hs2 & Hk2).
  exists b2. split_and!; [cbn [for_each]; by rewrite (bind_eval _ _ _ _ _ H1)|done|by etrans|].
  intros k. rewrite Hk2, Hk1, Exists_cons, Hn1. tauto.
Qed.

(** Boot puts exactly the usable memory into the allocator.  For a memory map of whole frames with a usable region that can hold the
    bitmap, [init] succeeds and the free frames are exactly the frames of the usable
    regions, less the frames that hold the bitmap itself and frame 0. *)
Theorem mm_init_exact entries_ top_ host :
  Forall aligned entries_ ->
  region_top (filter (fun e => usable e = true) entries_) = Some top_ -> 0 <= top_ ->
  find (fun e => bool_decide (storage_words (top_ / FRAME_SIZE) * 8 <= r_length e)) (filter (fun e => usable e = true) entries_) = Some host ->
  exists b, mm_init entries_ = Ok b /\ wf b /\ base b = 0 /\ nframes b = top_ / FRAME_SIZE /\
    forall k, k ∈ free_set b <->
      k <> 0 /\ k < top_ / FRAME_SIZE /\ Exists (in_region k) (filter (fun e => usable e = true) entries_) /\
      ~ r_base host / FRAME_SIZE <= k < r_base host / FRAME_SIZE + div_ceil (storage_words (top_ / FRAME_SIZE) * 8) FRAME_SIZE.
Proof.
  intros Hal Htop Ht0 Hfind. unfold mm_init. set (us := filter _ entries_) in *. rewrite Htop, Hfind.
  set (n := top_ / FRAME_SIZE) in *.
  assert (Forall aligned us) as Hus.
  { apply Forall_forall. intros e [_ He]%list_elem_of_filter. rewrite Forall_forall in Hal. auto. }
  assert (top_ < 2 ^ 64) as Ht64.
  { unfold region_top in Htop. destruct us as [|e us']; [done|]. cbn in Htop. injection Htop as <-.
    assert (forall l x, x < 2 ^ 64 -> foldl Z.max x (map (fun e => wrap 64 (r_base e + r_length e)) l) < 2 ^ 64) as Hm.
    { induction l as [|e' l IH]; intros x Hx; [done|]. cbn. apply IH. pose proof (wrap_range 64 (r_base e' + r_length e')). lia. }
    apply Hm. apply wrap_range. lia. }
  assert (0 <= n /\ n * FRAME_SIZE < 2 ^ 64) as [Hn0 Hn].
  { unfold n, FRAME_SIZE. pose proof (Z.div_mod top_ 4096). pose proof (Z.mod_pos_bound top_ 4096). split; [apply Z.div_pos|]; lia. }
  destruct (new_bitmap_wf n (storage_words n) Hn0 Hn eq_refl) as (b & -> & Hwf & Hb & Hnf & Hfs).
  destruct (mark_regions us b Hwf Hb Hus) as (b1 & H1 & Hwf1 & (Hb1 & Hn1 & _) & Hk1).
  assert (0 <= r_base host < 2 ^ 64) as Hhb.
  { rewrite Forall_forall in Hus. destruct (Hus host) as (? & _ & ? & _ & ?); [|lia].
    apply list_elem_of_In. apply find_some in Hfind. apply Hfind. }
  assert (0 <= div_ceil (storage_words n * 8) FRAME_SIZE) as Hdc.
  { unfold div_ceil, storage_words, FRAME_SIZE. apply Z.div_pos; [|done]. unfold div_ceil. pose proof (Z.div_pos (n + 64 - 1) 64). lia. }
  destruct (range_run true b1 (r_base host / FRAME_SIZE) (div_ceil (storage_words n * 8) FRAME_SIZE) Hwf1)
    as (b2 & H2 & Hwf2 & (Hb2 & Hn2 & _) & Hk2); [apply Z.div_pos; [lia|done]|].
  assert (mark_used_range (r_base host) (storage_words n * 8) b1 = (Ok tt, b2)) as H2'.
  { unfold mark_used_range, mbind, M_bind, get. cbn beta iota. rewrite index_base0 by (done || congruence). exact H2. }
  rewrite (bind_eval _ _ _ _ _ H1), (bind_eval _ _ _ _ _ H2').
  destruct (range_run true b2 0 (div_ceil FRAME_SIZE FRAME_SIZE) Hwf2) as (b3 & H3 & Hwf3 & (Hb3 & Hn3 & _) & Hk3); [lia|].
  change (div_ceil FRAME_SIZE FRAME_SIZE) with 1 in *.
  case_bool_decide as Hpos.
  - assert (mark_used_range 0 FRAME_SIZE b2 = (Ok tt, b3)) as H3'.
    { unfold mark_used_range, mbind, M_bind, get. cbn beta iota. rewrite index_base0 by (done || congruence). exact H3. }
    rewrite (bind_eval _ _ _ _ _ H3'). exists b3. split_and!; [done|done|congruence|congruence|].
    intros k. rewrite Hk3, Hk2, Hk1, Hfs, Hnf. pose proof (elem_of_empty (C:=gset Z) k).
    assert (Exists (in_region k) us -> 0 <= k) as Hge.
    { rewrite Exists_exists. intros (e & He & Hin & _). rewrite Forall_forall in Hus. destruct (Hus e He) as (? & _).
      pose proof (Z.div_pos (r_base e) FRAME_SIZE). unfold FRAME_SIZE in *. lia. }
    split; [|naive_solver lia]. intros [[[?|?] ?] ?]; [done|]. split_and!; naive_solver lia.
  - exists b2. split_and!; [done|done|congruence|congruence|]. intros k. rewrite Hk2, Hk1, Hfs, Hnf.
    pose proof (elem_of_empty (C:=gset Z) k). split; [|naive_solver lia]. intros [[?|[He ?]] ?]; [done|].
    exfalso. apply Exists_exists in He as (e & He & Hin & _). rewrite Forall_forall in Hus. destruct (Hus e He) as (? & _).
    pose proof (Z.div_pos (r_base e) FRAME_SIZE). unfold FRAME_SIZE in *. lia.
Qed.

Definition sample_map : list Region :=
  [{| r_base := 0; r_length := 40960; usable := true |}; {| r_base := 40960; r_length := 4096; usable := false |};
   {| r_base := 45056; r_length := 8192; usable := true |}].

Lemma mm_init_exact_witness : exists b, mm_init sample_map = Ok b /\ 1 ∈ free_set b /\ 10 ∉ free_set b.
Proof.
  destruct (mm_init_exact sample_map 53248 {| r_base := 0; r_length := 40960; usable := true |}) as (b & H1 & _ & _ & _ & Hk).
  - unfold sample_map, aligned. repeat constructor; done.
  - done.
  - done.
  - done.
  - exists b. split; [exact H1|]. split.
    + apply Hk. change (53248 / FRAME_SIZE) with 13. split_and!; [lia|lia| |intros [_ Hlt]; by vm_compute in Hlt].
      apply Exists_cons_hd. split; by vm_compute.
    + rewrite Hk. intros (_ & _ & He & _). apply Exists_exists in He as (e & [Hu He]%list_elem_of_filter & Hin).
      clear H1 Hk b. unfold sample_map in He. rewrite !elem_of_cons in He. destruct Hin as [Hlo Hhi].
      destruct He as [->|[->|[->|He]]]; [..|by apply not_elem_of_nil in He]; vm_compute in Hlo, Hhi, Hu; congruence.
Defined.

(** ** Process heaps *)

Definition span_frames (sp : Z * Z) : gset Z := frames (sp.1 / FRAME_SIZE) sp.2.
Definition all_frames (l : list (Z * Z)) : gset Z := ⋃ (span_frames <$> l).

(** A span that was allocated: whole frames that the allocator tracks. *)
Definition span_ok (b : FrameBitmap) (sp : Z * Z) : Prop :=
  sp.1 = sp.1 / FRAME_SIZE * FRAME_SIZE /\ 0 <= sp.1 /\ 0 < sp.2 /\ sp.1 / FRAME_SIZE + sp.2 <= nframes b.

(** The spans are allocated, and no two of them share a frame. *)
Fixpoint owned (b : FrameBitmap) (l : list (Z * Z)) : Prop :=
  match l with
  | [] => True
  | sp :: l' => span_ok b sp /\ span_frames sp ## free_set b /\ span_frames sp ## all_frames l' /\ owned b l'
  end.

Lemma all_frames_app l k : all_frames (l ++ k) = all_frames l ∪ all_frames k.
Proof. unfold all_frames. by rewrite fmap_app, union_list_app_L. Qed.
Lemma all_frames_one sp : all_frames [sp] = span_frames sp.
Proof. unfold all_frames. cbn. by rewrite union_empty_r_L. Qed.
Lemma all_frames_cons sp l : all_frames (sp :: l) = span_frames sp ∪ all_frames l.
Proof. done. Qed.

Lemma owned_weaken b b' l : same_shape b b' -> free_set b' ⊆ free_set b -> owned b l -> owned b' l.
Proof.
  intros (Hb & Hn & _) Hf. induction l as [|sp l IH]; [done|]. cbn [owned]. intros (Hok & Hd & Hd' & Ho).
  split_and!; [|set_solver|done|auto]. unfold span_ok in *. by rewrite Hn.
Qed.

Lemma owned_disjoint b l : owned b l -> all_frames l ## free_set b.
Proof. induction l as [|sp l IH]; [by cbn|]. cbn [owned]. intros (_ & Hd & _ & Ho). rewrite all_frames_cons. specialize (IH Ho). set_solver. Qed.

Lemma owned_snoc b l sp : owned b l -> span_ok b sp -> span_frames sp ## free_set b -> span_frames sp ## all_frames l -> owned b (l ++ [sp]).
Proof.
  intros Ho Hok Hd Hd'. induction l as [|sp' l IH]; [cbn; split_and!; [done|done| |done]; unfold all_frames; cbn; set_solver|].
  cbn [owned app] in Ho |- *. destruct Ho as (H1 & H2 & H3 & H4). rewrite all_frames_cons in Hd'.
  split_and!; [done|done| |apply IH; [done|set_solver]]. rewrite all_frames_app, all_frames_one. set_solver.
Qed.

(** A successful [alloc_contig] moves a span from the free frames to its caller. *)
Lemma alloc_span b n :
  wf b -> base b = 0 -> 0 < n -> exists r b', alloc_contig n 1 b = (Ok r, b') /\ wf b' /\ same_shape b b' /\
    match r with
    | None => b' = b
    | Some phys => span_ok b' (phys, n) /\ span_frames (phys, n) ⊆ free_set b /\ free_set b' = free_set b ∖ span_frames (phys, n)
    end.
Proof.
  intros Hwf Hb Hn. destruct (alloc_contig_run b n 1 Hwf Hn eq_refl) as (r & b' & Hr & Hwf' & Hc). exists r, b'.
  split; [done|]. split; [done|]. destruct Hc as [(-> & -> & _)|(i & -> & (Hi & Hin & _ & Hfree) & _ & Hfs & Hs)]; [done|].
  pose proof (wf_nframes b Hwf) as [_ Hmax]. rewrite Hb in Hmax. unfold FRAME_SIZE in *.
  assert (addr_of b i = i * 4096) as Ha by (unfold addr_of, FRAME_SIZE; rewrite Hb, wrap_small; lia).
  assert (span_frames (addr_of b i, n) = frames i n) as Hsf.
  { unfold span_frames. cbn. rewrite Ha. unfold FRAME_SIZE. by rewrite Z.div_mul. }
  split; [done|]. rewrite Hsf. split_and!; [| |done].
  - unfold span_ok. cbn. rewrite Ha. unfold FRAME_SIZE. rewrite Z.div_mul by done. destruct Hs as (_ & -> & _). lia.
  - intros k Hk%elem_of_frames. replace k with (i + (k - i)) by lia. apply Hfree. lia.
Qed.

Lemma free_span b sp :
  wf b -> base b = 0 -> span_ok b sp -> span_frames sp ## free_set b -> exists b',
    free_frames sp.1 sp.2 b = (Ok tt, b') /\ wf b' /\ same_shape b b' /\ free_set b' = free_set b ∪ span_frames sp.
Proof.
  intros Hwf Hb (H1 & H2 & H3 & H4) Hd. pose proof (wf_nframes b Hwf) as [_ Hmax]. rewrite Hb in Hmax.
  unfold free_frames, mbind at 1, M_bind at 1, get. cbn beta iota. rewrite index_base0 by (done || unfold FRAME_SIZE in *; lia).
  apply (free_frames_run b (seqZ (sp.1 / FRAME_SIZE) sp.2)); [done|apply NoDup_seqZ| |].
  - intros i Hi%elem_of_seqZ. pose proof (Z.div_pos sp.1 FRAME_SIZE). unfold FRAME_SIZE in *. lia.
  - intros i Hi Hf. apply (Hd i); [|done]. unfold span_frames, frames. by apply elem_of_list_to_set.
Qed.

Lemma free_owned l : forall b,
  wf b -> base b = 0 -> owned b l -> exists b', free_spans l b = (Ok tt, b') /\ wf b' /\ same_shape b b' /\
    free_set b' = free_set b ∪ all_frames l.
Proof.
  induction l as [|sp l IH]; intros b Hwf Hb Ho.
  { exists b. split_and!; [done|done|done|]. unfold all_frames. cbn. set_solver. }
  destruct Ho as (Hok & Hd & Hd' & Ho). destruct (free_span b sp Hwf Hb Hok Hd) as (b1 & H1 & Hwf1 & Hs1 & Hf1).
  destruct (IH b1) as (b2 & H2 & Hwf2 & Hs2 & Hf2); [done|destruct Hs1; congruence| |].
  { revert Ho Hd'. clear - Hs1 Hf1. induction l as [|sp' l IH]; [done|]. cbn [owned]. rewrite all_frames_cons.
    intros (H1 & H2 & H3 & H4) Hd. split_and!; [|rewrite Hf1; set_solver|done|apply IH; [done|set_solver]].
    unfold span_ok in *. by destruct Hs1 as (_ & -> & _). }
  exists b2. split_and!; [unfold free_spans in *; cbn [for_each]; by rewrite (bind_eval _ _ _ _ _ H1)|done|by etrans|].
  rewrite Hf2, Hf1, all_frames_cons. set_solver.
Qed.

Section heap.
Context (hhdm : Z).

Definition pages_of (l : list (Z * Z)) : Z := foldr (fun sp n => sp.2 + n) 0 l.

(** A heap that was created when the frames [F0] were free, with the quota [m]. *)
Record heap_inv (F0 : gset Z) (m : Z) (ph : ProcHeap) (b : FrameBitmap) : Prop := {
  hi_wf : wf b;
  hi_base : base b = 0;
  hi_owned : owned b (spans ph);
  hi_frames : free_set b ∪ all_frames (spans ph) = F0;
  hi_total : total_pages ph = pages_of (spans ph);
  hi_quota : 1 <= total_pages ph <= Z.max m 1;
  hi_max : max_pages ph = m;
  hi_cur : exists phys pages, last (spans ph) = Some (phys, pages) /\
    hbase (cur ph) = phys_to_virt hhdm phys /\ cap_words (cur ph) = pages * 512;
}.

Lemma pages_of_app l k : pages_of (l ++ k) = pages_of l + pages_of k.
Proof. unfold pages_of. induction l as [|sp l IH]; cbn in *; lia. Qed.

(** A new heap, or a heap replaced by one fresh span. *)
Lemma fresh_heap b phys pages m F0 :
  wf b -> base b = 0 -> span_ok b (phys, pages) -> span_frames (phys, pages) ## free_set b ->
  free_set b ∪ span_frames (phys, pages) = F0 -> 1 <= pages <= Z.max m 1 ->
  heap_inv F0 m {| cur := Heap_new (phys_to_virt hhdm phys) (pages * 4096); spans := [(phys, pages)]; max_pages := m; total_pages := pages |} b.
Proof.
  intros Hwf Hb Hok Hd Hf Hq. split; cbn [spans total_pages max_pages cur]; try done.
  - by rewrite all_frames_one.
  - cbn. lia.
  - exists phys, pages. split_and!; [done|done|]. cbn. replace (pages * 4096) with (pages * 512 * 8) by lia. apply Z.div_mul. lia.
Qed.

Lemma heap_new_inv i m b ph b1 :
  wf b -> base b = 0 -> proc_heap_new hhdm i m b = (Ok ph, b1) -> heap_inv (free_set b) m ph b1.
Proof.
  intros Hwf Hb Hrun. unfold proc_heap_new in Hrun. set (pages := Z.max (Z.min i m) 1) in *.
  destruct (alloc_span b pages Hwf Hb ltac:(lia)) as (r & b' & Hr & Hwf' & Hs & Hc).
  rewrite (bind_eval _ _ _ _ _ Hr) in Hrun. destruct r as [phys|]; [|done]. cbn in Hrun. injection Hrun as <- <-.
  destruct Hc as (Hok & Hsub & Hf). apply fresh_heap; try done; [by destruct Hs as [-> _]|set_solver| |lia].
  rewrite Hf. apply set_eq. intros k. destruct (decide (k ∈ span_frames (phys, pages))); set_solver.
Qed.

Lemma grow_inv F0 m ph b : heap_inv F0 m ph b -> exists ok ph' b', grow hhdm ph b = (Ok (ok, ph'), b') /\ heap_inv F0 m ph' b'.
Proof.
  intros Hi. pose proof Hi as [Hwf Hb Ho Hf Ht Hq Hm Hc]. unfold grow. case_bool_decide as Hcap; [by eauto|].
  set (n := Z.min _ _). rewrite Hm in *. destruct (alloc_span b n Hwf Hb ltac:(lia)) as (r & b' & Hr & Hwf' & Hs & Hcase).
  rewrite (bind_eval _ _ _ _ _ Hr). destruct r as [phys|]; [|subst b'; by eauto]. destruct Hcase as (Hok & Hsub & Hf').
  eexists true, _, b'. split; [done|]. pose proof (owned_disjoint b _ Ho) as Hdis. split; cbn [spans total_pages max_pages cur]; try done.
  - by destruct Hs as [-> _].
  - apply owned_snoc; [apply (owned_weaken b); [done|set_solver|done]|done|set_solver|set_solver].
  - rewrite all_frames_app, all_frames_one, Hf', <- Hf. apply set_eq. intros k. destruct (decide (k ∈ span_frames (phys, n))); set_solver.
  - rewrite pages_of_app, Ht. cbn. lia.
  - lia.
  - exists phys, n. rewrite last_snoc. split_and!; [done|done|]. cbn. replace (n * 4096) with (n * 512 * 8) by lia. apply Z.div_mul. lia.
Qed.

(** The target of a compaction: a fresh span, after which the old spans can be given back. *)
Definition compact_heap (phys n m : Z) : ProcHeap :=
  {| cur := Heap_new (phys_to_virt hhdm phys) (n * 4096); spans := [(phys, n)]; max_pages := m; total_pages := n |}.

Lemma begin_compact_inv F0 m w ph b : 4 <= m -> heap_inv F0 m ph b -> exists r b', begin_compact hhdm w ph b = (Ok r, b') /\
  match r with
  | (None, ph') => ph' = ph /\ b' = b
  | (Some old, ph') => old = spans ph /\ same_shape b b' /\
      exists phys n, n = Z.min (Z.max (div_ceil (w * 8) 4096) 4) m /\ ph' = compact_heap phys n m /\
        span_ok b' (phys, n) /\ span_frames (phys, n) ## all_frames (spans ph) /\
        exists b2, free_spans old b' = (Ok tt, b2) /\ heap_inv F0 m ph' b2 /\ same_shape b' b2
  end.
Proof using Type.
  intros H4 [Hwf Hb Ho Hf Ht Hq Hm Hc]. set (n := Z.min (Z.max (div_ceil (w * 8) 4096) 4) m).
  destruct (alloc_span b n Hwf Hb ltac:(lia)) as (r & b' & Hr & Hwf' & Hs & Hcase).
  exists (match r with Some phys => (Some (spans ph), compact_heap phys n m) | None => (None, ph) end), b'. split.
  { unfold begin_compact, clamp, massert, mbind, M_bind. rewrite Hm, bool_decide_true by done. cbn. fold n. rewrite Hr. by destruct r. }
  destruct r as [phys|]; [|done]. destruct Hcase as (Hok & Hsub & Hf'). pose proof (owned_disjoint b _ Ho) as Hdis.
  split_and!; [done|done|]. exists phys, n. split_and!; [done|done|done|set_solver|].
  destruct (free_owned (spans ph) b' Hwf') as (b2 & H2 & Hwf2 & Hs2 & Hf2); [by destruct Hs as [-> _]|apply (owned_weaken b); [done|set_solver|done]|].
  exists b2. split; [done|]. split; [|done]. apply fresh_heap; [done| | | | |lia].
  - destruct Hs2 as [-> _], Hs as [-> _]. done.
  - unfold span_ok in *. by destruct Hs2 as (_ & -> & _).
  - rewrite Hf2, Hf'. set_solver.
  - rewrite Hf2, Hf', <- Hf. apply set_eq. intros k. destruct (decide (k ∈ span_frames (phys, n))); set_solver.
Qed.

Lemma compact_inv F0 m w ph b : 4 <= m -> heap_inv F0 m ph b -> exists ph' b', heap_act hhdm (HCompact w) ph b = (Ok ph', b') /\ heap_inv F0 m ph' b'.
Proof using Type.
  intros H4 Hi. destruct (begin_compact_inv F0 m w ph b H4 Hi) as ([[old|] ph'] & b' & Hbc & Hc); cbn [heap_act]; rewrite (bind_eval _ _ _ _ _ Hbc).
  - destruct Hc as (-> & _ & phys & n & _ & _ & _ & _ & b2 & H2 & Hi2 & _). rewrite (bind_eval _ _ _ _ _ H2). by exists ph', b2.
  - destruct Hc as [-> ->]. by exists ph, b.
Qed.

Lemma heap_run_inv F0 m ops : forall ph b, 4 <= m -> heap_inv F0 m ph b -> exists ph' b', heap_run hhdm ops ph b = (Ok ph', b') /\ heap_inv F0 m ph' b'.
Proof.
  induction ops as [|o ops IH]; intros ph b H4 Hi; [by exists ph, b|]. cbn [heap_run].
  assert (exists ph1 b1, heap_act hhdm o ph b = (Ok ph1, b1) /\ heap_inv F0 m ph1 b1) as (ph1 & b1 & H1 & Hi1).
  { destruct o as [|w]; [|by apply compact_inv]. destruct (grow_inv F0 m ph b Hi) as (ok & ph1 & b1 & H1 & Hi1).
    exists ph1, b1. split; [|done]. cbn [heap_act]. by rewrite (bind_eval _ _ _ _ _ H1). }
  rewrite (bind_eval _ _ _ _ _ H1). by apply IH.
Qed.
End heap.

(** C25: A process heap never leaks or shares a frame.  Whatever sequence of growths and compactions a heap goes through,
    none panics; the heap's spans are pairwise disjoint, allocated frames, they and the free frames
    together are exactly the frames that were free before the heap was created, their
    pages add up to [total_pages], which stays within the quota, and the bump area is the last span.
    Freeing the spans at the end gives back every frame. *)
Theorem heap_conserves hhdm initial quota ops b ph b1 :
  wf b -> base b = 0 -> 4 <= quota -> proc_heap_new hhdm initial quota b = (Ok ph, b1) ->
  exists ph' b', heap_run hhdm ops ph b1 = (Ok ph', b') /\ owned b' (spans ph') /\
    free_set b' ∪ all_frames (spans ph') = free_set b /\ total_pages ph' = pages_of (spans ph') /\ total_pages ph' <= quota /\
    (exists phys pages, last (spans ph') = Some (phys, pages) /\ hbase (cur ph') = phys_to_virt hhdm phys /\ cap_words (cur ph') = pages * 512) /\
    exists b'', free_spans (take_spans ph') b' = (Ok tt, b'') /\ free_set b'' = free_set b.
Proof.
  intros Hwf Hb Hq Hnew. pose proof (heap_new_inv hhdm initial quota b ph b1 Hwf Hb Hnew) as Hi.
  destruct (heap_run_inv hhdm _ quota ops ph b1 Hq Hi) as (ph' & b' & Hrun & [Hwf' Hb' Ho Hf Ht Hqu Hm Hc]).
  exists ph', b'. split_and!; [done|done|done|done|lia|done|].
  destruct (free_owned (spans ph') b' Hwf' Hb' Ho) as (b'' & Hfr & _ & _ & Hfs). exists b''. split; [done|]. by rewrite Hfs.
Qed.

(** Frames 3 to 14 of sixteen are free. *)
Definition sample_pmm : FrameBitmap :=
  {| bits := [2 ^ 64 - 1 - 32760]; base := 0; nframes := 16; cursor := 0; free := 12 |}.

Lemma sample_pmm_wf : wf sample_pmm.
Proof.
  split; cbn [sample_pmm bits base nframes cursor free].
  - done.
  - repeat constructor; lia.
  - done.
  - unfold FRAME_SIZE. lia.
  - lia.
  - vm_compute. reflexivity.
Qed.

Lemma heap_conserves_witness : exists ph b1 ph' b', proc_heap_new 0 1 4 sample_pmm = (Ok ph, b1) /\
  heap_run 0 [HGrow; HCompact 10] ph b1 = (Ok ph', b') /\ free_set b' ∪ all_frames (spans ph') = free_set sample_pmm.
Proof.
  pose proof sample_pmm_wf as Hwf. assert (base sample_pmm = 0) as Hb by done.
  destruct (proc_heap_new 0 1 4 sample_pmm) as [[ph|?| |] b1] eqn:Hnew; try (exfalso; by vm_compute in Hnew).
  destruct (heap_conserves 0 1 4 [HGrow; HCompact 10] sample_pmm ph b1 Hwf Hb ltac:(lia) Hnew) as (ph' & b' & Hrun & _ & Hf & _).
  exists ph, b1, ph', b'. split; [reflexivity|]. split; [exact Hrun|exact Hf].
Defined.
