(* ===== verification/Compact.v ===== *)
(** * Compact: the collection of a process heap

    Models [maybe_compact] of [kernel/src/proc.rs], which puts together the frame allocator,
    the spans of a process heap and the collector: under pressure the live terms move to a fresh
    span and the old spans are given back. *)

From S2P Require Import Prelude Rings FrameAlloc Term TermImm TermHeap TermVal Evac EvacInv EvacSteps EvacProofs Memory MemoryProofs.

(** The frames, the memory and the heap of the current process. *)
Record CS := { c_pmm : FrameBitmap; c_mem : mem; c_heap : ProcHeap }.

Abbreviation CM := (M CS Empty_set).

Definition on_frames {A} (c : FM A) : CM A := fun s =>
  let '(r, b) := c (c_pmm s) in (r, {| c_pmm := b; c_mem := c_mem s; c_heap := c_heap s |}).

Definition set_heap (ph : ProcHeap) (s : CS) : CS := {| c_pmm := c_pmm s; c_mem := c_mem s; c_heap := ph |}.

(** A heap operation on [p.heap.cur], with [.expect(..)]. *)
Definition on_cur {A} (c : HM A) : CM A := fun s =>
  let ph := c_heap s in
  let '(r, hs) := c {| hmem := c_mem s; hp := cur ph |} in
  (match r with Ok x => Ok x | NoFuel => NoFuel | Err _ | Panic => Panic end,
   {| c_pmm := c_pmm s; c_mem := hmem hs;
      c_heap := {| cur := hp hs; spans := spans ph; max_pages := max_pages ph; total_pages := total_pages ph |} |}).

(** The sum of [term_size_words] over the roots. *)
Fixpoint roots_size (fuel : nat) (m : mem) (roots : list Term) : res Empty_set Z :=
  match roots with
  | [] => Ok 0
  | r :: rs => n ← term_size_words fuel m r; k ← roots_size fuel m rs; Ok (n + k)
  end.

Definition pressured (ph : ProcHeap) : bool :=
  bool_decide (1 < zlen (spans ph)) || bool_decide (capacity_bytes (cur ph) < used_bytes (cur ph) * 2).

Section compact.
Context (hhdm : Z).

Definition maybe_compact (fuel : nat) (roots : list Term) : CM (list Term) :=
  s ← get;
  if negb (pressured (c_heap s)) then mret roots
  else
    n ← lift (roots_size fuel (c_mem s) roots);
    let live_words := n + zlen roots + 32 in
    '(old, ph) ← on_frames (begin_compact hhdm live_words (c_heap s));
    match old with
    | None => mret roots
    | Some old =>
        _ ← modify (set_heap ph);
        roots' ← on_cur (evacuate roots);
        _ ← on_frames (free_spans old);
        mret roots'
    end.

(** The state of a process between two operations: its heap's spans, the direct map of the
    physical memory, and [roots], whose values are [vs] and whose objects do not overlap and lie
    in the spans. *)
Record proc_ok (F0 : gset Z) (quota : Z) (roots : list Z) (vs : list val) (s : CS) : Prop := {
  po_heap : heap_inv hhdm F0 quota (c_heap s) (c_pmm s);
  po_quota : 4 <= quota;
  po_hhdm : 0 < hhdm /\ hhdm mod 8 = 0 /\ hhdm + 4096 * nframes (c_pmm s) <= 2 ^ 64 /\ 4096 * nframes (c_pmm s) < 2 ^ 61;
  po_mapped i : 0 <= i < 512 * nframes (c_pmm s) -> is_Some (c_mem s !! (hhdm + 8 * i));
  po_vals : Forall2 (repr (c_mem s)) vs roots;
  po_apart a b : let h := {| hmem := c_mem s; hp := cur (c_heap s) |} in
    reachable h roots a -> reachable h roots b -> a <> b -> a + 8 * osize h a <= b \/ b + 8 * osize h b <= a;
  po_spans a : let h := {| hmem := c_mem s; hp := cur (c_heap s) |} in
    reachable h roots a -> exists phys n, (phys, n) ∈ spans (c_heap s) /\ hhdm + phys <= a /\ a + 8 * osize h a <= hhdm + phys + n * 4096;
}.
End compact.

(** ** Packing *)

Section packing.
Context (h : HS).

Definition words (a : Z) : list Z := map (fun i => a + 8 * i) (seqZ 0 (osize h a)).
Definition span_words (hhdm : Z) (sp : Z * Z) : list Z := map (fun i => hhdm + sp.1 + 8 * i) (seqZ 0 (sp.2 * 512)).

Lemma elem_of_run x b n : x ∈ map (fun i => b + 8 * i) (seqZ 0 n) <-> exists i, 0 <= i < n /\ x = b + 8 * i.
Proof using Type.
  rewrite list_elem_of_In, in_map_iff. setoid_rewrite <- list_elem_of_In. setoid_rewrite elem_of_seqZ. naive_solver.
Qed.

Lemma NoDup_run b n : NoDup (map (fun i => b + 8 * i) (seqZ 0 n)).
Proof using Type.
  assert (forall l : list Z, NoDup l -> NoDup (map (fun i => b + 8 * i) l)) as H; [|apply H, NoDup_seqZ].
  induction 1 as [|x l Hx _ IH]; cbn [map]; constructor; [|done].
  rewrite list_elem_of_In, in_map_iff. intros (y & He & Hy). apply Hx, list_elem_of_In. by replace x with y by lia.
Qed.

Lemma concat_words_NoDup o : NoDup o ->
  (forall a b, a ∈ o -> b ∈ o -> a <> b -> a + 8 * osize h a <= b \/ b + 8 * osize h b <= a) ->
  NoDup (concat (map words o)).
Proof using Type.
  induction 1 as [|a o Ha _ IH]; intros Hap; [constructor|]. cbn [map concat]. apply NoDup_app.
  split_and!; [apply NoDup_run| |apply IH; intros; apply Hap; set_solver].
  intros x (i & Hi & ->)%elem_of_run Hin. apply list_elem_of_In, in_concat in Hin as (l & Hl & Hx).
  apply in_map_iff in Hl as (b & <- & Hb). apply list_elem_of_In, elem_of_run in Hx as (j & Hj & He). apply list_elem_of_In in Hb.
  destruct (Hap a b); [set_solver|set_solver|by intros ->|lia|lia].
Qed.

Lemma length_concat_words o : (forall a, a ∈ o -> 0 <= osize h a) -> zlen (concat (map words o)) = total h o.
Proof using Type.
  induction o as [|a o IH]; intros Hp; [done|]. cbn [map concat]. rewrite zlen_app, total_cons, IH by (intros; apply Hp; set_solver).
  f_equal. unfold zlen, words. rewrite length_map, length_seqZ. specialize (Hp a). rewrite Z2Nat.id; [done|]. apply Hp. set_solver.
Qed.

Lemma length_concat_spans hhdm l : Forall (fun sp => 0 <= sp.2) l -> zlen (concat (map (span_words hhdm) l)) = pages_of l * 512.
Proof using Type.
  induction 1 as [|sp l Hp _ IH]; [done|]. cbn [map concat pages_of foldr] in *. rewrite zlen_app, IH.
  unfold zlen at 1, span_words. rewrite length_map, length_seqZ, Z2Nat.id by lia. unfold pages_of. lia.
Qed.

(** Objects that do not overlap take no more words than the spans they lie in. *)
Lemma packing hhdm o l : NoDup o -> (forall a, a ∈ o -> 0 <= osize h a /\ a mod 8 = 0) ->
  (forall a b, a ∈ o -> b ∈ o -> a <> b -> a + 8 * osize h a <= b \/ b + 8 * osize h b <= a) ->
  hhdm mod 8 = 0 -> Forall (fun sp => 0 <= sp.2 /\ sp.1 mod 8 = 0) l ->
  (forall a, a ∈ o -> exists phys n, (phys, n) ∈ l /\ hhdm + phys <= a /\ a + 8 * osize h a <= hhdm + phys + n * 4096) ->
  total h o <= pages_of l * 512.
Proof using Type.
  intros Hn Ho Hap Hh Hl Hin. rewrite <- length_concat_words by naive_solver.
  rewrite <- (length_concat_spans hhdm) by (eapply Forall_impl; [exact Hl|]; naive_solver).
  unfold zlen. apply inj_le, submseteq_length, NoDup_submseteq; [by apply concat_words_NoDup|].
  intros x Hx. apply list_elem_of_In, in_concat in Hx as (k & Hk & Hx). apply in_map_iff in Hk as (a & <- & Ha).
  apply list_elem_of_In in Ha. apply list_elem_of_In, elem_of_run in Hx as (i & Hi & ->).
  destruct (Hin a Ha) as (phys & n & Hsp & Hlo & Hhi). destruct (Ho a Ha) as [_ Ha8]. rewrite Forall_forall in Hl.
  destruct (Hl _ Hsp) as [_ Hp8]. cbn in Hp8. apply list_elem_of_In, in_concat. exists (span_words hhdm (phys, n)).
  split; [by apply in_map, list_elem_of_In|]. apply list_elem_of_In, elem_of_run. cbn [fst snd].
  exists ((a - hhdm - phys) / 8 + i).
  pose proof (Z.div_mod a 8 ltac:(lia)). pose proof (Z.div_mod hhdm 8 ltac:(lia)). pose proof (Z.div_mod phys 8 ltac:(lia)).
  replace (a - hhdm - phys) with ((a / 8 - hhdm / 8 - phys / 8) * 8) by lia. rewrite Z.div_mul by lia. lia.
Qed.
End packing.

(** ** The target span *)

(** Spans without a common frame are apart. *)
Lemma spans_apart b sp sp' : span_ok b sp -> span_ok b sp' -> span_frames sp ## span_frames sp' ->
  sp.1 + sp.2 * 4096 <= sp'.1 \/ sp'.1 + sp'.2 * 4096 <= sp.1.
Proof.
  intros (H1 & H2 & H3 & H4) (H1' & H2' & H3' & H4') Hd. unfold FRAME_SIZE in *.
  destruct (decide (sp.1 + sp.2 * 4096 <= sp'.1 \/ sp'.1 + sp'.2 * 4096 <= sp.1)) as [|Hn]; [done|exfalso].
  apply (Hd (Z.max (sp.1 / 4096) (sp'.1 / 4096))); apply elem_of_frames; unfold FRAME_SIZE; lia.
Qed.

Lemma owned_spans b l sp : owned b l -> sp ∈ l -> span_ok b sp /\ span_frames sp ⊆ all_frames l.
Proof.
  induction l as [|sp' l IH]; [by intros _ H%not_elem_of_nil|]. cbn [owned]. rewrite all_frames_cons, elem_of_cons.
  intros (Hok & _ & _ & Ho) [->|Hin]; [set_solver|]. destruct (IH Ho Hin). set_solver.
Qed.

Lemma span_ok_shape b b' sp : same_shape b b' -> span_ok b sp -> span_ok b' sp.
Proof. intros (_ & Hn & _). unfold span_ok. by rewrite Hn. Qed.

Section target.
Context (hhdm : Z) (F0 : gset Z) (quota : Z) (roots : list Z) (vs : list val) (s : CS).
Context (Hok : proc_ok hhdm F0 quota roots vs s).
Context (b' : FrameBitmap) (phys n : Z) (Hsh : same_shape (c_pmm s) b') (Hsp : span_ok b' (phys, n)).
Context (Hdis : span_frames (phys, n) ## all_frames (spans (c_heap s))).
Local Abbreviation hs := {| hmem := c_mem s; hp := cur (compact_heap hhdm phys n quota) |}.

Lemma target_virt : phys_to_virt hhdm phys = hhdm + phys /\ phys mod 8 = 0 /\ 0 <= phys /\ 0 < n /\ phys + n * 4096 <= 4096 * nframes (c_pmm s).
Proof using Hok Hsh Hsp.
  destruct Hsp as (H1 & H2 & H3 & H4). cbn [fst snd] in *. destruct Hsh as (_ & Hn & _). rewrite Hn in H4.
  destruct (po_hhdm _ _ _ _ _ _ Hok) as (Hh & _ & Hend & _). unfold FRAME_SIZE in *.
  split_and!; [|rewrite H1; replace (phys / 4096 * 4096) with (phys / 4096 * 512 * 8) by lia; apply Z.mod_mul; lia|lia|lia|lia].
  unfold phys_to_virt. rewrite wrap_small; lia.
Qed.

Lemma target_top : ptop hs = hhdm + phys /\ pend hs = hhdm + phys + n * 4096 /\ cap_words (hp hs) = n * 512 /\ top (hp hs) = 0.
Proof using Hok Hsh Hsp.
  destruct target_virt as (Hv & _). unfold ptop, pend. cbn [compact_heap cur Heap_new hp hbase top cap_words]. rewrite Hv.
  replace (n * 4096) with (n * 512 * 8) by lia. rewrite Z.div_mul by lia. lia.
Qed.

Lemma target_heap_ok : heap_ok hs.
Proof using Hok Hsh Hsp.
  destruct target_virt as (Hv & Hp & Hp0 & Hn & Hle), target_top as (_ & _ & Hc & Ht).
  destruct (po_hhdm _ _ _ _ _ _ Hok) as (Hh & Hh8 & Hend & Hsm).
  assert (hbase (hp hs) = hhdm + phys) as Hb by exact Hv. split; rewrite ?Hb, ?Hc, ?Ht.
  - split; [lia|]. rewrite Z.add_mod, Hh8, Hp by lia. done.
  - lia.
  - lia.
  - intros i Hi. cbn [hmem]. pose proof (Z.div_mod phys 8 ltac:(lia)). replace (hhdm + phys + 8 * i) with (hhdm + 8 * (phys / 8 + i)) by lia.
    apply (po_mapped _ _ _ _ _ _ Hok). pose proof (Z.div_pos phys 8). lia.
Qed.

Lemma target_reachable a : reachable hs roots a ->
  reachable {| hmem := c_mem s; hp := cur (c_heap s) |} roots a /\ osize hs a = osize {| hmem := c_mem s; hp := cur (c_heap s) |} a.
Proof using Type. intros Ha. split; [|done]. by eapply reachable_mem; [|exact Ha]. Qed.

Lemma target_from_space : from_space hs roots.
Proof using All.
  destruct target_top as (Ht & He & _). split.
  - intros a [Ha Hsz]%target_reachable. destruct (po_spans _ _ _ _ _ _ Hok a Ha) as (q & k & Hin & Hlo & Hhi).
    destruct (po_heap _ _ _ _ _ _ Hok) as [_ _ Ho _ _ _ _ _]. destruct (owned_spans _ _ _ Ho Hin) as [Hso Hsub].
    rewrite Ht, He, Hsz. destruct (spans_apart b' (phys, n) (q, k)) as [H|H]; [done|by eapply span_ok_shape|set_solver|..]; cbn [fst snd] in H; [|lia].
    right. lia.
  - intros a b [Ha Hsz]%target_reachable [Hb Hsz']%target_reachable Hne. rewrite Hsz, Hsz'. by apply (po_apart _ _ _ _ _ _ Hok).
Qed.

(** The span takes everything that is live: either it was sized from the estimate, or it has
    the size of the quota, which the old spans did not exceed. *)
Lemma target_capacity objs w : NoDup objs -> (forall a, a ∈ objs <-> reachable hs roots a) ->
  total hs objs <= zsum (map vsize vs) -> zsum (map vsize vs) <= w ->
  n = Z.min (Z.max (div_ceil (w * 8) 4096) 4) quota -> total hs objs <= n * 512.
Proof using All.
  intros Hnd Hob Htot Hw Hn. destruct (po_heap _ _ _ _ _ _ Hok) as [_ _ Ho _ Htp Hq _ _]. pose proof (po_quota _ _ _ _ _ _ Hok).
  assert (total hs objs <= pages_of (spans (c_heap s)) * 512) as Hpack.
  { apply (packing hs hhdm); [done| | | | |].
    - intros a Ha%Hob. pose proof (reachable_object hs roots vs a (po_vals _ _ _ _ _ _ Hok) Ha) as [[_ Ht] (h & Hh & Hh0 & _) _].
      unfold osize. cbn [hmem] in *. rewrite Hh. pose proof (hwords_pos h Hh0). cbn [from_option id]. rewrite tag_mod in Ht. split; [unfold id; lia|done].
    - intros a b Ha%Hob Hb%Hob. by apply (from_apart _ _ target_from_space).
    - apply (po_hhdm _ _ _ _ _ _ Hok).
    - apply Forall_forall. intros sp Hin. destruct (owned_spans _ _ _ Ho Hin) as [(H1 & H2 & H3 & H4) _]. split; [lia|].
      rewrite H1. unfold FRAME_SIZE. replace (sp.1 / 4096 * 4096) with (sp.1 / 4096 * 512 * 8) by lia. apply Z.mod_mul. lia.
    - intros a [Ha Hsz]%Hob%target_reachable. rewrite Hsz. by apply (po_spans _ _ _ _ _ _ Hok). }
  destruct (Z.le_gt_cases (div_ceil (w * 8) 4096) quota).
  - assert (w <= div_ceil (w * 8) 4096 * 512); [|lia]. unfold div_ceil. pose proof (Z.div_mod (w * 8 + 4096 - 1) 4096 ltac:(lia)).
    pose proof (Z.mod_pos_bound (w * 8 + 4096 - 1) 4096 ltac:(lia)). lia.
  - lia.
Qed.
End target.

(** ** The collection *)

Lemma roots_size_ok fuel m vs roots : Forall2 (repr m) vs roots -> Forall (fun v => (vfuel v <= fuel)%nat) vs ->
  roots_size fuel m roots = Ok (zsum (map vsize vs)).
Proof.
  induction 1 as [|v t vs roots Hv _ IH]; intros Hf; [done|]. inversion Hf; subst. cbn [roots_size].
  rewrite (term_size_repr _ v) by done. cbn. by rewrite IH.
Qed.

(** A span with its copies, once the old spans are free. *)
Lemma compacted_ok hhdm F0 quota roots vs s b' phys n b2 roots' hs' :
  proc_ok hhdm F0 quota roots vs s -> same_shape (c_pmm s) b' -> span_ok b' (phys, n) -> same_shape b' b2 ->
  heap_inv hhdm F0 quota (compact_heap hhdm phys n quota) b2 ->
  let hs := {| hmem := c_mem s; hp := cur (compact_heap hhdm phys n quota) |} in
  heap_ok hs' -> same_arena hs hs' -> (forall x, is_Some (hmem hs !! x) -> is_Some (hmem hs' !! x)) ->
  Forall2 (repr (region (ptop hs) (ptop hs') (hmem hs'))) vs roots' ->
  (forall y, reachable hs' roots' y -> ptop hs <= y /\ y + 8 * osize hs' y <= ptop hs') ->
  (forall y z, reachable hs' roots' y -> reachable hs' roots' z -> y <> z -> y + 8 * osize hs' y <= z \/ z + 8 * osize hs' z <= y) ->
  proc_ok hhdm F0 quota roots' vs
    {| c_pmm := b2; c_mem := hmem hs';
       c_heap := {| cur := hp hs'; spans := [(phys, n)]; max_pages := quota; total_pages := n |} |}.
Proof.
  intros Hok Hsh Hsp Hsh2 [Hwf Hb Ho Hf Ht Hq Hm Hc] hs Hhs [Har1 Har2] Hdom Hvs Hin Hap.
  destruct (target_top _ _ _ _ _ _ Hok _ _ _ Hsh Hsp) as (Htop & Hend & Hcap & _). fold hs in Htop, Hend, Hcap.
  assert (nframes b2 = nframes (c_pmm s)) as Hnf by (destruct Hsh2 as (_ & -> & _), Hsh as (_ & -> & _); done).
  assert (ptop hs' <= pend hs) as Hle.
  { destruct (ok_top _ Hhs). unfold ptop, pend. rewrite Har1, <- Har2. lia. }
  assert ({| hmem := hmem hs'; hp := hp hs' |} = hs') as Heta by (by destruct hs').
  split; cbn [c_pmm c_mem c_heap spans]; rewrite ?Hnf, ?Heta.
  - split; try done. destruct Hc as (q & k & Hl & H1 & H2). exists q, k. split_and!; [done|by rewrite <- H1|by rewrite <- H2].
  - exact (po_quota _ _ _ _ _ _ Hok).
  - exact (po_hhdm _ _ _ _ _ _ Hok).
  - intros i Hi. apply Hdom. by apply (po_mapped _ _ _ _ _ _ Hok).
  - eapply Forall2_impl; [exact Hvs|]. intros v t. apply repr_mono, region_sub.
  - cbn [cur]. rewrite Heta. exact Hap.
  - cbn [cur]. rewrite Heta. intros a Ha. apply Hin in Ha. exists phys, n. split; [by apply list_elem_of_singleton|]. lia.
Qed.

(** C8: The trampoline's collection never fails and loses nothing.  A process whose roots
    denote [vs] runs [maybe_compact] to its end without a panic: the evacuation always fits its target, whether that was
    sized from the estimate of the live words or clamped to the quota.  Afterwards the roots
    denote the same values, the heap's invariant holds again with the quota and the frames it
    had, and under pressure either no span could be allocated and nothing changed, or the heap
    is one span and the values lie within its used part. *)
Theorem maybe_compact_keeps hhdm F0 quota roots vs s fuel :
  proc_ok hhdm F0 quota roots vs s -> Forall (fun v => (vfuel v <= fuel)%nat) vs ->
  exists roots' s', maybe_compact hhdm fuel roots s = (Ok roots', s') /\ proc_ok hhdm F0 quota roots' vs s' /\
    ((roots' = roots /\ s' = s) \/
     (zlen (spans (c_heap s')) = 1 /\
      let h := cur (c_heap s') in Forall2 (repr (region (hbase h) (hbase h + 8 * top h) (c_mem s'))) vs roots' /\
      top h <= zsum (map vsize vs))).
Proof.
  intros Hok Hfuel. unfold maybe_compact. rewrite (bind_eval get _ s s s eq_refl).
  destruct (pressured (c_heap s)); cbn [negb]; [|exists roots, s; split_and!; [done|done|by left]].
  set (w := zsum (map vsize vs) + zlen roots + 32).
  assert (lift (roots_size fuel (c_mem s) roots) s = (Ok (zsum (map vsize vs)), s)) as Hsz.
  { unfold lift. by rewrite (roots_size_ok _ _ vs) by (done || apply (po_vals _ _ _ _ _ _ Hok)). }
  rewrite (bind_eval _ _ _ _ _ Hsz). cbn zeta. fold w.
  destruct (begin_compact_inv hhdm F0 quota w (c_heap s) (c_pmm s)) as ([[old|] ph] & b' & Hbc & Hc);
    [apply (po_quota _ _ _ _ _ _ Hok)|apply (po_heap _ _ _ _ _ _ Hok)|..].
  2: { destruct Hc as [-> ->]. exists roots, s. split_and!; [|done|by left].
       erewrite bind_eval; [|unfold on_frames; rewrite Hbc; done]. by destruct s. }
  destruct Hc as (-> & Hsh & phys & n & Hn & -> & Hsp & Hdis & b2 & Hfree & Hinv & Hsh2).
  set (hs := {| hmem := c_mem s; hp := cur (compact_heap hhdm phys n quota) |}).
  pose proof (target_heap_ok _ _ _ _ _ _ Hok _ _ _ Hsh Hsp) as Hhs. fold hs in Hhs.
  destruct (evacuate_run hs roots vs Hhs (po_vals _ _ _ _ _ _ Hok)) as (objs & Hnd & Hob & Htot & Hwp).
  { by eapply target_from_space. }
  assert (total hs objs <= n * 512) as Hcap.
  { eapply (target_capacity _ _ _ _ _ _ Hok b' phys n Hsh Hsp Hdis objs w); try done. pose proof (zlen_nonneg roots). unfold w. lia. }
  destruct (target_top _ _ _ _ _ _ Hok _ _ _ Hsh Hsp) as (Htop & Hend & Hcw & Ht0). fold hs in Htop, Hend, Hcw, Ht0.
  unfold wp in Hwp. destruct (evacuate roots hs) as [[roots'|[]| |] hs'] eqn:He; cbn [fst snd] in Hwp; [|lia|done|done].
  destruct Hwp as (Hhs' & Har & Ht' & Hvs & _ & Hdom & Hin & Hap).
  eexists roots', {| c_pmm := b2; c_mem := hmem hs';
       c_heap := {| cur := hp hs'; spans := [(phys, n)]; max_pages := quota; total_pages := n |} |}. split_and!.
  - erewrite bind_eval; [|unfold on_frames; rewrite Hbc; reflexivity]. cbn beta iota.
    erewrite bind_eval; [|reflexivity]. erewrite bind_eval; [|unfold on_cur, set_heap; cbn [c_heap c_mem c_pmm]; fold hs; rewrite He; reflexivity].
    erewrite bind_eval; [|unfold on_frames; cbn [c_pmm]; rewrite Hfree; reflexivity]. done.
  - by eapply (compacted_ok hhdm F0 quota roots vs s b' phys n b2).
  - right. split; [done|]. cbn [c_heap c_mem cur]. split; [|lia].
    assert (hbase (hp hs') + 8 * top (hp hs') = ptop hs') as -> by done.
    assert (hbase (hp hs') = ptop hs) as -> by (destruct Har as [-> _]; unfold ptop; rewrite Ht0; lia). done.
Qed.

(** A heap of two spans whose only root is a pair of twice the same cell. *)
Definition demo_hhdm : Z := 65536.
Definition demo_pmm : FrameBitmap := {| bits := [2 ^ 64 - 1 - 254]; base := 0; nframes := 8; cursor := 0; free := 7 |}.
Definition demo_root : Z := demo_hhdm + 4096.

Definition demo_mem : mem :=
  put_words demo_root [header 2 KIND_TUPLE; demo_root + 32; demo_root + 32; 0; KIND_CONS; term_int 1; NIL]
    (list_to_map (map (fun i => (demo_hhdm + 8 * i, 0)) (seqZ 0 4096))).

Definition demo_heap : ProcHeap :=
  {| cur := Heap_new (demo_hhdm + 8192) 4096; spans := [(4096, 1); (8192, 1)]; max_pages := 4; total_pages := 2 |}.

Definition demo_state : CS :=
  {| c_pmm := {| bits := [2 ^ 64 - 1 - 248]; base := 0; nframes := 8; cursor := 0; free := 5 |}; c_mem := demo_mem; c_heap := demo_heap |}.

Lemma demo_pmm_wf : wf demo_pmm.
Proof.
  split; cbn [demo_pmm bits base nframes cursor free].
  - done.
  - repeat constructor; lia.
  - done.
  - unfold FRAME_SIZE. lia.
  - lia.
  - vm_compute. reflexivity.
Qed.

Lemma demo_heap_inv : heap_inv demo_hhdm (free_set demo_pmm) 4 demo_heap (c_pmm demo_state).
Proof.
  destruct (proc_heap_new demo_hhdm 1 4 demo_pmm) as [[ph|e| |] b1] eqn:Hn; try by vm_compute in Hn.
  pose proof (heap_new_inv _ _ _ _ _ _ demo_pmm_wf eq_refl Hn) as Hi.
  destruct (grow_inv _ _ _ _ _ Hi) as (ok & ph' & b' & Hg & Hi').
  vm_compute in Hn. injection Hn as <- <-. vm_compute in Hg. injection Hg as _ <- <-. exact Hi'.
Qed.

Lemma put_words_slots a ws m : slots_at (put_words a ws m) a ws.
Proof.
  unfold put_words.
  enough (forall j, slots_at (foldr (fun iw m => <[a + 8 * iw.1 := iw.2]> m) m (zip (seqZ j (zlen ws)) ws)) (a + 8 * j) ws) as H.
  { specialize (H 0). by rewrite Z.mul_0_r, Z.add_0_r in H. }
  induction ws as [|w ws IH]; intros j; [done|]. rewrite seqZ_walk. cbn [zip zip_with foldr slots_at fst snd].
  rewrite lookup_insert_eq. split; [done|]. replace (a + 8 * j + 8) with (a + 8 * Z.succ j) by lia.
  specialize (IH (Z.succ j)). revert IH. rewrite !slots_at_lookup. intros IH i x Hx. pose proof (lookupz_range _ _ _ Hx).
  rewrite lookup_insert_ne by lia. by apply IH.
Qed.

Lemma demo_words i w : lookupz [header 2 KIND_TUPLE; demo_root + 32; demo_root + 32; 0; KIND_CONS; term_int 1; NIL] i = Some w ->
  demo_mem !! (demo_root + 8 * i) = Some w.
Proof. apply slots_at_lookup. apply put_words_slots. Qed.

Lemma demo_cell : repr demo_mem (VCons (VImm (term_int 1)) (VImm NIL)) (demo_root + 32).
Proof.
  eapply repr_cons with (x := term_int 1) (y := NIL); [|constructor..].
  - split_and!; [|exact (demo_words 5 _ eq_refl)|exact (demo_words 6 _ eq_refl)].
    split; [by vm_compute|]. split; [by vm_compute|]. split; [by vm_compute|]. exact (demo_words 4 _ eq_refl).
  - apply sample_imm. lia.
  - split_and!; by vm_compute.
Qed.

Lemma demo_repr : repr demo_mem shared_val demo_root.
Proof.
  eapply repr_tuple with (xs := [demo_root + 32; demo_root + 32]).
  - split; [|split; [exact (demo_words 1 _ eq_refl)|split; [exact (demo_words 2 _ eq_refl)|exact Logic.I]]].
    split; [by vm_compute|]. split; [by vm_compute|]. split; [by vm_compute|]. exact (demo_words 0 _ eq_refl).
  - constructor; [exact demo_cell|]. constructor; [exact demo_cell|constructor].
Qed.

Lemma demo_reachable h a : hmem h = demo_mem -> reachable h [demo_root] a ->
  (a = demo_root \/ a = demo_root + 32) /\ osize h a = 3.
Proof.
  intros Hm Ha.
  assert (forall i w, lookupz [header 2 KIND_TUPLE; demo_root + 32; demo_root + 32; 0; KIND_CONS; term_int 1; NIL] i = Some w ->
    hmem h !! (demo_root + 8 * i) = Some w) as Hws by (rewrite Hm; exact demo_words). clear Hm.
  pose proof (Hws 0 _ eq_refl : hmem h !! demo_root = _) as M0. pose proof (Hws 4 _ eq_refl : hmem h !! (demo_root + 32) = _) as M4.
  assert (osize h demo_root = 3 /\ ofields h demo_root = [1; 2]) as [S0 F0] by (unfold osize, ofields; rewrite M0; split; reflexivity).
  assert (osize h (demo_root + 32) = 3 /\ ofields h (demo_root + 32) = [1; 2]) as [S4 F4] by (unfold osize, ofields; rewrite M4; split; reflexivity).
  enough (a = demo_root \/ a = demo_root + 32) as [-> | ->] by auto.
  induction Ha as [t Ht _|a i w _ IH Hi Hw Hb]; [left; by apply list_elem_of_singleton|].
  assert (i = 1 \/ i = 2) as Hi2.
  { destruct IH as [-> | ->]; [rewrite F0 in Hi|rewrite F4 in Hi]; rewrite !elem_of_cons in Hi; destruct Hi as [?|[?|Hn%not_elem_of_nil]]; auto; done. }
  destruct IH as [-> | ->], Hi2 as [-> | ->].
  - rewrite (Hws 1 _ eq_refl) in Hw. injection Hw as <-. by right.
  - rewrite (Hws 2 _ eq_refl) in Hw. injection Hw as <-. by right.
  - rewrite (Hws 5 _ eq_refl : hmem h !! (demo_root + 32 + 8 * 1) = _) in Hw. injection Hw as <-. discriminate Hb.
  - rewrite (Hws 6 _ eq_refl : hmem h !! (demo_root + 32 + 8 * 2) = _) in Hw. injection Hw as <-. discriminate Hb.
Qed.

Lemma put_words_dom a ws : forall m x, is_Some (m !! x) -> is_Some (put_words a ws m !! x).
Proof.
  unfold put_words. intros m x. generalize (zip (seqZ 0 (zlen ws)) ws). intros l. revert m.
  induction l as [|[i w] l IH]; intros m Hx; [done|]. cbn.
  match goal with |- is_Some (<[?k:=_]> _ !! _) => destruct (decide (k = x)) as [->|] end.
  - rewrite lookup_insert_eq. eauto.
  - rewrite lookup_insert_ne by done. auto.
Qed.

Lemma run_dom b n i : 0 <= i < n -> is_Some ((list_to_map (map (fun i => (b + 8 * i, 0)) (seqZ 0 n)) : mem) !! (b + 8 * i)).
Proof.
  intros Hi. destruct (list_to_map _ !! _) eqn:He; [eauto|].
  exfalso. apply not_elem_of_list_to_map_2 in He. apply He. apply list_elem_of_fmap. exists (b + 8 * i, 0). split; [done|].
  apply list_elem_of_In, in_map_iff. exists i. split; [done|]. by apply list_elem_of_In, elem_of_seqZ.
Qed.

Lemma demo_mapped i : 0 <= i < 4096 -> is_Some (demo_mem !! (demo_hhdm + 8 * i)).
Proof. intros Hi. apply put_words_dom, run_dom, Hi. Qed.

Lemma demo_ok : proc_ok demo_hhdm (free_set demo_pmm) 4 [demo_root] [shared_val] demo_state.
Proof.
  split.
  - exact demo_heap_inv.
  - lia.
  - by vm_compute.
  - exact demo_mapped.
  - constructor; [exact demo_repr|constructor].
  - intros a b h [Ha Hsa]%demo_reachable [Hb Hsb]%demo_reachable Hne; [|done..]. rewrite Hsa, Hsb. lia.
  - intros a h [Ha Hsa]%demo_reachable; [|done]. rewrite Hsa. exists 4096, 1. split; [apply elem_of_cons; by left|].
    unfold demo_root in Ha. lia.
Qed.

Lemma maybe_compact_keeps_witness : pressured (c_heap demo_state) = true /\
  exists roots' s', maybe_compact demo_hhdm 8 [demo_root] demo_state = (Ok roots', s') /\ Forall2 (repr (c_mem s')) [shared_val] roots'.
Proof.
  split; [reflexivity|].
  destruct (maybe_compact_keeps demo_hhdm (free_set demo_pmm) 4 [demo_root] [shared_val] demo_state 8 demo_ok) as (roots' & s' & Hrun & Hok & _).
  - repeat constructor.
  - exists roots', s'. split; [exact Hrun|]. exact (po_vals _ _ _ _ _ _ Hok).
Defined.
