(* ===== verification/StackProofs.v ===== *)
(** * StackProofs: process stacks are separate

    Each live stack slot maps its 56 pages to frames of its own; everything else
    in the stack zone, the guard pages below each stack in particular, is unmapped. *)

From S2P Require Import Prelude Rings FrameAlloc Term Memory MemoryProofs.

Section stacks.
Context {P : Type} `{!Mapper P}.
Implicit Types (v : @Vm P) (t : P).

(** The documented behaviour of the page tables: mapping a page that is not mapped fails for want of a
    table frame, or maps it and nothing else, with frames for tables taken from the allocator; unmapping a mapped
    page returns its frame and unmaps only it. *)
Record mapper_ok : Prop := {
  map_ok va pa f t b : wf b -> translate_page t va = None -> exists r t' b',
    map_to va pa f (t, b) = (r, (t', b')) /\ wf b' /\ same_shape b b' /\ free_set b' ⊆ free_set b /\
    (r = Err tt \/ (r = Ok tt /\ translate_page t' va = Some (pa, f) /\ forall va', va' <> va -> translate_page t' va' = translate_page t va'));
  unmap_ok va t pa f : translate_page t va = Some (pa, f) -> exists t', unmap va t = (Ok pa, t') /\
    translate_page t' va = None /\ forall va', va' <> va -> translate_page t' va' = translate_page t va';
}.

(** [L] gives the first frame of each live stack. *)
Definition stack_page (L : gmap Z Z) (va pa : Z) : Prop :=
  exists s f i, L !! s = Some f /\ 0 <= i < STACK_PAGES /\ va = stack_base s + i * 4096 /\ pa = (f + i) * 4096.

Record stacks_ok (L : gmap Z Z) v : Prop := {
  st_wf : wf (pmm v);
  st_base : base (pmm v) = 0;
  st_next : 0 <= next (slots v) <= MAX_SLOTS;
  st_freed : NoDup (freed (slots v));
  st_live s : is_Some (L !! s) <-> 0 <= s < next (slots v) /\ s ∉ freed (slots v);
  st_freed_range s : s ∈ freed (slots v) -> 0 <= s < next (slots v);
  st_frames s f : L !! s = Some f -> 0 <= f /\ f + STACK_PAGES <= nframes (pmm v) /\ frames f STACK_PAGES ## free_set (pmm v);
  st_apart s s' f f' : s <> s' -> L !! s = Some f -> L !! s' = Some f' -> frames f STACK_PAGES ## frames f' STACK_PAGES;
  st_pages va pa fl : in_stack_zone va = true -> translate_page (tables v) va = Some (pa, fl) <-> fl = StackRW /\ stack_page L va pa;
}.

Context (Hmap : mapper_ok).

(** ** Addresses *)

Lemma slot_alloc_spec a : 0 <= next a -> match slot_alloc a with
  | (Ok s, a') => (last (freed a) = Some s /\ a' = {| next := next a; freed := removelast (freed a) |}) \/
      (freed a = [] /\ s = next a /\ next a < MAX_SLOTS /\ a' = {| next := next a + 1; freed := [] |})
  | (Panic, _) => freed a = [] /\ MAX_SLOTS <= next a
  | _ => False
  end.
Proof using Type.
  intros Hn. unfold slot_alloc, mbind, M_bind, get. cbn beta iota. destruct (last (freed a)) as [s|] eqn:Hl; [by left|].
  apply last_None in Hl. cbn. unfold massert. case_bool_decide; cbn; rewrite Hl; [right|]; split_and!; try done; lia.
Qed.

Lemma stack_addr_inj s s' i i' : 0 <= i < STACK_PAGES -> 0 <= i' < STACK_PAGES ->
  stack_base s + i * 4096 = stack_base s' + i' * 4096 -> s = s' /\ i = i'.
Proof using Type. unfold stack_base, slot_base, SLOT_STRIDE, STACK_PAGES. lia. Qed.

Lemma stack_addr_zone s i : 0 <= s < MAX_SLOTS -> 0 <= i < STACK_PAGES -> in_stack_zone (stack_base s + i * 4096) = true.
Proof using Type.
  intros Hs Hi. unfold in_stack_zone, stack_base, slot_base, SLOT_STRIDE, STACK_PAGES, MAX_SLOTS, STACK_ZONE_BASE in *.
  apply bool_decide_eq_true. lia.
Qed.

(** ** Mapping and unmapping a run of pages *)

Lemma map_pages_spec va pa fl (l : list Z) : forall v,
  NoDup l -> wf (pmm v) -> (forall i, i ∈ l -> translate_page (tables v) (va + i * 4096) = None) ->
  match for_each l (fun i => map_page (va + i * 4096) (pa + i * 4096) fl) v with
  | (Ok _, v') => slots v' = slots v /\ wf (pmm v') /\ same_shape (pmm v) (pmm v') /\ free_set (pmm v') ⊆ free_set (pmm v) /\
      (forall i, i ∈ l -> translate_page (tables v') (va + i * 4096) = Some (pa + i * 4096, fl)) /\
      (forall a, (forall i, i ∈ l -> a <> va + i * 4096) -> translate_page (tables v') a = translate_page (tables v) a)
  | (Panic, _) => True
  | _ => False
  end.
Proof using Hmap.
  induction l as [|i l IH]; intros v Hnd Hwf Hnone; [by split_and!; [..|intros ? ?%not_elem_of_nil|]|].
  apply NoDup_cons in Hnd as [Hi Hnd]. cbn [for_each].
  destruct (map_ok Hmap (va + i * 4096) (pa + i * 4096) fl (tables v) (pmm v) Hwf) as (r & t' & b' & Hr & Hwf' & Hs & Hf & Hcase);
    [apply Hnone, list_elem_of_here|].
  unfold mbind, M_bind, map_page. rewrite Hr. destruct Hcase as [->|(-> & Ht & Hother)]; [done|].
  specialize (IH (set_tables t' b' v) Hnd Hwf'). unfold map_page in IH. cbn [tables set_tables pmm slots] in IH.
  lapply IH; clear IH.
  2: { intros j Hj. rewrite Hother; [by apply Hnone, list_elem_of_further|]. intros Heq. assert (i = j) as -> by lia. done. }
  destruct (for_each l _ (set_tables t' b' v)) as [[[]|[]| |] v']; try done. intros (H1 & H2 & H3 & H4 & H5 & H6).
  split_and!; [done|done|by etrans|set_solver| |].
  - intros j [->|Hj]%elem_of_cons; [|by apply H5]. rewrite H6; [done|]. intros k Hk Heq. assert (i = k) as <- by lia. done.
  - intros a Ha. rewrite H6; [apply Hother, Ha, list_elem_of_here|]. intros k Hk. by apply Ha, list_elem_of_further.
Qed.

Lemma unmap_pages_spec va (pa : Z -> Z) fl (l : list Z) : forall v,
  NoDup l -> (forall i, i ∈ l -> translate_page (tables v) (va + i * 4096) = Some (pa i, fl)) -> exists v',
  unmap_pages (map (fun i => va + i * 4096) l) v = (Ok (map pa l), v') /\ slots v' = slots v /\ pmm v' = pmm v /\ code_next v' = code_next v /\
  (forall i, i ∈ l -> translate_page (tables v') (va + i * 4096) = None) /\
  (forall a, (forall i, i ∈ l -> a <> va + i * 4096) -> translate_page (tables v') a = translate_page (tables v) a).
Proof using Hmap.
  induction l as [|i l IH]; intros v Hnd Hall.
  { exists v. split_and!; try done. by intros ? ?%not_elem_of_nil. }
  apply NoDup_cons in Hnd as [Hi Hnd].
  destruct (unmap_ok Hmap (va + i * 4096) (tables v) (pa i) fl) as (t' & Hu & Hn & Hother); [apply Hall, list_elem_of_here|].
  set (v1 := set_tables t' (pmm v) v).
  assert (unmap_page (va + i * 4096) v = (Ok (pa i), v1)) as H1 by (unfold unmap_page; by rewrite Hu).
  destruct (IH v1 Hnd) as (v2 & H2 & Hs & Hp & Hc & Hgone & Hrest).
  { intros j Hj. cbn. rewrite Hother; [by apply Hall, list_elem_of_further|]. intros Heq. assert (i = j) as -> by lia. done. }
  exists v2. split_and!; [cbn; by rewrite (bind_eval _ _ _ _ _ H1), (bind_eval _ _ _ _ _ H2)|done|done|done| |].
  - intros j [->|Hj]%elem_of_cons; [|by apply Hgone]. rewrite Hrest; [done|]. intros k Hk Heq. assert (i = k) as <- by lia. done.
  - intros a Ha. rewrite Hrest; [apply Hother, Ha, list_elem_of_here|]. intros k Hk. by apply Ha, list_elem_of_further.
Qed.

(** ** A stack comes *)

Lemma stack_page_insert L slot f va pa :
  L !! slot = None -> stack_page (<[slot := f]> L) va pa <->
    stack_page L va pa \/ exists i, 0 <= i < STACK_PAGES /\ va = stack_base slot + i * 4096 /\ pa = (f + i) * 4096.
Proof using Type.
  intros Hn. unfold stack_page. split.
  - intros (s & f' & i & Hs & Hi & Hva & Hpa). apply lookup_insert_Some in Hs as [[<- <-]|[Hne Hs]]; [right; by exists i|left; by exists s, f', i].
  - intros [(s & f' & i & Hs & Hi & Hva & Hpa)|(i & Hi & Hva & Hpa)].
    + exists s, f', i. rewrite lookup_insert_ne by congruence. done.
    + exists slot, f, i. rewrite lookup_insert_eq. done.
Qed.

(** The slot that is handed out is not in use, and the slots in use are then the old ones and this one. *)
Lemma slot_taken L v slot a' :
  stacks_ok L v -> slot_alloc (slots v) = (Ok slot, a') ->
  L !! slot = None /\ 0 <= slot < MAX_SLOTS /\ 0 <= next a' <= MAX_SLOTS /\ NoDup (freed a') /\
  (forall s f, is_Some (<[slot := f]> L !! s) <-> 0 <= s < next a' /\ s ∉ freed a') /\ (forall s, s ∈ freed a' -> 0 <= s < next a').
Proof using Hmap.
  intros Hok Ha. pose proof (slot_alloc_spec (slots v)) as Hs. rewrite Ha in Hs. pose proof (st_next L v Hok) as Hn.
  destruct Hs as [[Hl ->]|(Hfr & -> & Hlt & ->)]; [lia|..]; cbn [next freed].
  - assert (freed (slots v) = removelast (freed (slots v)) ++ [slot]) as Heq.
    { destruct (freed (slots v)) as [|y l] eqn:Hr using rev_ind; [done|]. rewrite last_snoc in Hl. injection Hl as ->. by rewrite removelast_last. }
    pose proof (st_freed L v Hok) as Hnd. rewrite Heq in Hnd. apply NoDup_app in Hnd as (Hnd & Hout & _).
    assert (slot ∈ freed (slots v)) as Hin by (rewrite Heq; set_solver).
    assert (slot ∉ removelast (freed (slots v))) as Hni by (intros Hx; apply (Hout slot Hx); set_solver).
    assert (forall s, s ∈ removelast (freed (slots v)) <-> s ∈ freed (slots v) /\ s <> slot) as Hrl.
    { intros s. rewrite Heq at 2. rewrite elem_of_app, list_elem_of_singleton. split; [intros Hx|naive_solver].
      split; [by left|]. intros ->. done. }
    pose proof (st_freed_range L v Hok slot Hin) as Hr.
    split_and!; try done; try lia.
    + destruct (L !! slot) eqn:HL; [|done]. destruct (proj1 (st_live L v Hok slot)) as [_ Hx]; [by eauto|done].
    + intros s f. rewrite Hrl. destruct (decide (s = slot)) as [->|Hne].
      * rewrite lookup_insert_eq. split; [intros _; split; [done|naive_solver]|by eauto].
      * rewrite lookup_insert_ne by done. rewrite (st_live L v Hok s). naive_solver.
    + intros s Hx. apply Hrl in Hx as [Hx _]. by apply (st_freed_range L v Hok).
  - pose proof (st_live L v Hok) as Hlive. rewrite Hfr in Hlive. split_and!; try done; try lia; try apply NoDup_nil_2.
    + destruct (L !! next (slots v)) eqn:HL; [|done]. destruct (proj1 (Hlive (next (slots v)))) as [Hx _]; [by eauto|lia].
    + intros s f. destruct (decide (s = next (slots v))) as [->|Hne].
      * rewrite lookup_insert_eq. split; [intros _; split; [lia|by apply not_elem_of_nil]|by eauto].
      * rewrite lookup_insert_ne by done. rewrite (Hlive s). split; intros [? ?]; (split; [lia|done]).
    + by intros s Hx%not_elem_of_nil.
Qed.

Lemma map_stack_ok L v slot top_ v' :
  stacks_ok L v -> map_stack v = (Ok (slot, top_), v') -> exists f, L !! slot = None /\ top_ = slot_base slot + SLOT_STRIDE /\
    stacks_ok (<[slot := f]> L) v' /\ free_set (pmm v') ⊆ free_set (pmm v) ∖ frames f STACK_PAGES /\ frames f STACK_PAGES ⊆ free_set (pmm v).
Proof using Hmap.
  intros Hok Hrun. unfold map_stack in Hrun.
  apply bind_ok in Hrun as (sl & v1 & H1 & Hrun). unfold on_slots in H1. destruct (slot_alloc (slots v)) as [[s|?| |] a'] eqn:Ha; try done.
  injection H1 as <- <-. destruct (slot_taken L v s a' Hok Ha) as (HL & Hsr & Hnx & Hnd & Hlive & Hfrr).
  pose proof Hok as [Hwf Hb _ _ _ _ Hfr Hap Hpg].
  destruct (alloc_span (pmm v) STACK_PAGES Hwf Hb ltac:(done)) as (r & b1 & Hr & Hwf1 & Hs1 & Hcase).
  apply bind_ok in Hrun as (o & v2 & H2 & Hrun). unfold on_pmm in H2. cbn [pmm set_slots] in H2. rewrite Hr in H2. injection H2 as <- <-.
  destruct r as [span|]; [|done]. apply bind_ok in Hrun as (sp & v3 & [= <- <-] & Hrun).
  destruct Hcase as ((Hsp & Hsp0 & _ & Hspn) & Hsub & Hfs). cbn [fst snd] in *. unfold span_frames in Hsub, Hfs. cbn [fst snd] in Hsub, Hfs.
  set (f := span / FRAME_SIZE) in *. apply bind_ok in Hrun as (u & v4 & H4 & Hrun). injection Hrun as <- <- <-.
  set (v3 := set_tables _ b1 _) in H4.
  assert (0 <= f) as Hf0 by (unfold f; apply Z.div_pos; [lia|done]).
  pose proof (map_pages_spec (stack_base s) span StackRW (seqZ 0 STACK_PAGES) v3 ltac:(apply NoDup_seqZ) Hwf1) as Hm.
  rewrite H4 in Hm. lapply Hm; clear Hm.
  2: { intros i Hi%elem_of_seqZ. cbn. destruct (translate_page (tables v) (stack_base s + i * 4096)) as [[pa fl]|] eqn:Ht; [|done].
       apply Hpg in Ht as [_ (s' & f' & i' & Hs' & Hi' & Heq & _)]; [|by apply stack_addr_zone; [|lia]].
       apply stack_addr_inj in Heq as [<- _]; [|lia|done]. congruence. }
  intros (Hsl & Hwf4 & Hs4 & Hf4 & Hin4 & Hout4). cbn in Hsl. destruct Hs1 as (Hb1 & Hn1 & _), Hs4 as (Hb4 & Hn4 & _). cbn in Hn4, Hb4, Hf4.
  assert (free_set (pmm v4) ⊆ free_set (pmm v) ∖ frames f STACK_PAGES) as Hfree by set_solver.
  assert (forall s' f', L !! s' = Some f' -> frames f STACK_PAGES ## frames f' STACK_PAGES) as Hdis.
  { intros s' f' Hs'. destruct (Hfr s' f' Hs') as (_ & _ & Hd). set_solver. }
  exists f. split_and!; [done|done| |done|done]. split; rewrite ?Hsl; try done; try congruence.
  - intros s' f' Hs'. rewrite Hn4, Hn1. apply lookup_insert_Some in Hs' as [[<- <-]|[_ Hs']]; [split_and!; [done|congruence|set_solver]|].
    destruct (Hfr s' f' Hs') as (? & ? & ?). split_and!; [done|done|set_solver].
  - intros s1 s2 f1 f2 Hne H1 H2. apply lookup_insert_Some in H1 as [[<- <-]|[_ H1]], H2 as [[<- <-]|[_ H2]]; try done; eauto.
    symmetry. eauto.
  - intros va pa fl Hz. rewrite stack_page_insert by done.
    destruct (decide (Exists (fun i => va = stack_base s + i * 4096) (seqZ 0 STACK_PAGES))) as [(i & Hi & ->)%Exists_exists|Hno].
    + rewrite (Hin4 i Hi). apply elem_of_seqZ in Hi. assert (span + i * 4096 = (f + i) * 4096) as ->.
      { unfold FRAME_SIZE in *. lia. }
      split; [intros [= <- <-]; split; [done|right; exists i; done || (split_and!; [lia|done|done])]|].
      intros [-> [(s' & f' & i' & Hs' & Hi' & Heq & _)|(i' & Hi' & Heq & ->)]].
      * apply stack_addr_inj in Heq as [<- _]; [congruence|lia|done].
      * apply stack_addr_inj in Heq as [_ <-]; [done|lia|done].
    + rewrite Hout4; [|intros i Hi ->; apply Hno, Exists_exists; eauto]. cbn. rewrite (Hpg va pa fl Hz).
      split; [naive_solver|]. intros [-> [Hsp'|(i & Hi & -> & _)]]; [done|]. exfalso. apply Hno, Exists_exists. exists i. split; [|done].
      apply elem_of_seqZ. lia.
Qed.

(** ** A stack goes *)

Lemma stack_page_delete L slot va pa :
  stack_page (delete slot L) va pa <-> stack_page L va pa /\ (forall i, 0 <= i < STACK_PAGES -> va <> stack_base slot + i * 4096).
Proof using Type.
  unfold stack_page. split.
  - intros (s & f & i & Hs & Hi & -> & ->). apply lookup_delete_Some in Hs as [Hne Hs]. split; [by exists s, f, i|].
    intros i' Hi' Heq. apply stack_addr_inj in Heq as [<- _]; done.
  - intros [(s & f & i & Hs & Hi & -> & ->) Hno]. exists s, f, i. rewrite lookup_delete_ne; [done|]. intros ->. by eapply Hno.
Qed.

(** Frames that are freed one by one. *)
Lemma free_each l : forall v f0,
  wf (pmm v) -> base (pmm v) = 0 -> NoDup l -> (forall i, i ∈ l -> 0 <= f0 + i < nframes (pmm v) /\ f0 + i ∉ free_set (pmm v)) ->
  exists v', for_each (map (fun i => (f0 + i) * 4096) l) (fun f => on_pmm (free_frames f 1)) v = (Ok tt, v') /\
    slots v' = slots v /\ tables v' = tables v /\ wf (pmm v') /\ same_shape (pmm v) (pmm v') /\
    forall k, k ∈ free_set (pmm v') <-> k ∈ free_set (pmm v) \/ exists i, i ∈ l /\ k = f0 + i.
Proof using Type.
  induction l as [|i l IH]; intros v f0 Hwf Hb Hnd Hall.
  { exists v. split_and!; try done. intros k. split; [by left|]. intros [?|(i & Hi%not_elem_of_nil & _)]; done. }
  apply NoDup_cons in Hnd as [Hi Hnd]. destruct (Hall i) as [Hr Hu]; [apply list_elem_of_here|].
  assert ((f0 + i) * 4096 / FRAME_SIZE = f0 + i) as Hd by (unfold FRAME_SIZE; by rewrite Z.div_mul).
  destruct (free_span (pmm v) ((f0 + i) * 4096, 1) Hwf Hb) as (b1 & H1 & Hwf1 & Hs1 & Hf1).
  - unfold span_ok. cbn [fst snd]. rewrite Hd. unfold FRAME_SIZE. lia.
  - unfold span_frames. cbn [fst snd]. rewrite Hd. intros k Hk%elem_of_frames. assert (k = f0 + i) as -> by lia. done.
  - cbn [fst snd] in H1. unfold span_frames in Hf1. cbn [fst snd] in Hf1. rewrite Hd in Hf1. pose proof Hs1 as (Hb1 & Hn1 & _).
    set (v1 := set_tables (tables v) b1 v).
    assert (on_pmm (free_frames ((f0 + i) * 4096) 1) v = (Ok tt, v1)) as E1 by (unfold on_pmm; by rewrite H1).
    destruct (IH v1 f0) as (v2 & H2 & Hsl & Ht & Hwf2 & Hs2 & Hk2); [done|cbn; congruence|done| |].
    { intros j Hj. cbn. rewrite Hn1, Hf1. destruct (Hall j) as [? ?]; [by apply list_elem_of_further|]. split; [done|].
      rewrite elem_of_union, elem_of_frames. intros [?|?]; [done|]. assert (i = j) as -> by lia. done. }
    exists v2. split_and!; [cbn [map for_each]; by rewrite (bind_eval _ _ _ _ _ E1)|done|done|done|by etrans|].
    intros k. rewrite Hk2. cbn [pmm v1 set_tables]. rewrite Hf1, elem_of_union, elem_of_frames. split.
    + intros [[?|?]|(j & ? & ?)]; [by left| |].
      * right. exists i. split; [apply list_elem_of_here|lia].
      * right. exists j. split; [by apply list_elem_of_further|done].
    + intros [?|(j & [->|?]%elem_of_cons & ->)]; [by left; left|left; right; lia|right; by exists j].
Qed.

Lemma unmap_stack_ok L v slot f :
  stacks_ok L v -> L !! slot = Some f -> exists v', unmap_stack slot v = (Ok tt, v') /\ stacks_ok (delete slot L) v' /\
    free_set (pmm v') = free_set (pmm v) ∪ frames f STACK_PAGES.
Proof using Hmap.
  intros Hok HL. pose proof Hok as [Hwf Hb Hnx Hnd Hlive Hfrr Hfr Hap Hpg].
  destruct (proj1 (Hlive slot)) as [Hsr Hnf]; [by eauto|]. destruct (Hfr slot f HL) as (Hf0 & Hfn & Hfd).
  destruct (unmap_pages_spec (stack_base slot) (fun i => (f + i) * 4096) StackRW (seqZ 0 STACK_PAGES) v)
    as (v1 & H1 & Hsl1 & Hp1 & _ & Hgone & Hrest); [apply NoDup_seqZ| |].
  { intros i Hi%elem_of_seqZ. apply Hpg; [apply stack_addr_zone; lia|]. split; [done|]. exists slot, f, i. split_and!; [done|lia|lia|done|done]. }
  destruct (free_each (seqZ 0 STACK_PAGES) v1 f) as (v2 & H2 & Hsl2 & Ht2 & Hwf2 & Hs2 & Hk2);
    [by rewrite Hp1|by rewrite Hp1|apply NoDup_seqZ| |].
  { intros i Hi%elem_of_seqZ. rewrite Hp1. split; [lia|]. intros Hx. apply (Hfd (f + i)); [|done]. apply elem_of_frames. lia. }
  assert (free_set (pmm v2) = free_set (pmm v) ∪ frames f STACK_PAGES) as Hfree.
  { apply set_eq. intros k. rewrite Hk2, Hp1, elem_of_union, elem_of_frames. split.
    - intros [?|(i & Hi%elem_of_seqZ & ->)]; [by left|right; lia].
    - intros [?|?]; [by left|right]. exists (k - f). split; [apply elem_of_seqZ; lia|lia]. }
  set (v3 := set_slots {| next := next (slots v2); freed := freed (slots v2) ++ [slot] |} v2).
  exists v3. split_and!; [unfold unmap_stack; by rewrite (bind_eval _ _ _ _ _ H1), (bind_eval _ _ _ _ _ H2)| |exact Hfree].
  destruct Hs2 as (Hb2 & Hn2 & _). rewrite Hp1 in Hb2, Hn2. split; cbn [v3 set_slots slots pmm tables next freed]; rewrite ?Hsl2, ?Hsl1.
  - done.
  - congruence.
  - done.
  - apply NoDup_app. split_and!; [done| |apply NoDup_singleton]. intros s Hs ->%list_elem_of_singleton. done.
  - intros s. rewrite elem_of_app, list_elem_of_singleton. destruct (decide (s = slot)) as [->|Hne].
    + rewrite lookup_delete_eq. split; [by intros [? ?]|naive_solver].
    + rewrite lookup_delete_ne by done. rewrite Hlive. naive_solver.
  - intros s [Hs| ->%list_elem_of_singleton]%elem_of_app; [by apply Hfrr|done].
  - intros s f' [Hne Hs]%lookup_delete_Some. destruct (Hfr s f' Hs) as (? & ? & ?). rewrite Hn2, Hfree. split_and!; [done|done|].
    pose proof (Hap s slot f' f ltac:(congruence) Hs HL). set_solver.
  - intros s s' f1 f2 Hne [_ Hs]%lookup_delete_Some [_ Hs']%lookup_delete_Some. by eapply (Hap s s').
  - intros va pa fl Hz. rewrite Ht2, stack_page_delete.
    destruct (decide (Exists (fun i => va = stack_base slot + i * 4096) (seqZ 0 STACK_PAGES))) as [(i & Hi & ->)%Exists_exists|Hno].
    + rewrite (Hgone i Hi). split; [done|]. intros (_ & _ & Hx). exfalso. apply (Hx i); [apply elem_of_seqZ in Hi; lia|done].
    + rewrite Hrest; [|intros i Hi ->; apply Hno, Exists_exists; eauto]. rewrite (Hpg va pa fl Hz). split; [|naive_solver].
      intros [-> Hsp]. split_and!; [done|done|]. intros i Hi ->. apply Hno, Exists_exists. exists i. split; [apply elem_of_seqZ; lia|done].
Qed.

(** No stack page lies below the stack of a slot: the guard area. *)
Lemma guard_unmapped L v slot a :
  stacks_ok L v -> 0 <= slot < MAX_SLOTS -> slot_base slot <= a < stack_base slot -> translate_page (tables v) a = None.
Proof using Type.
  intros Hok Hs Ha. destruct (translate_page (tables v) a) as [[pa fl]|] eqn:Ht; [|done]. exfalso.
  apply (st_pages L v Hok) in Ht as [_ (s & f & i & HL & Hi & -> & _)].
  - assert (0 <= s) by (destruct (proj1 (st_live L v Hok s)) as [? _]; [eauto|lia]).
    unfold stack_base, slot_base, SLOT_STRIDE, STACK_PAGES in *. lia.
  - unfold in_stack_zone, stack_base, slot_base, SLOT_STRIDE, STACK_PAGES, MAX_SLOTS, STACK_ZONE_BASE in *. apply bool_decide_eq_true. lia.
Qed.
End stacks.

(** C14: Process stacks are separate.  As long as every live stack slot maps its own pages and
    nothing else in the stack zone is mapped, a new stack gets a slot that is not in use, with frames that were
    free, and a dead process's stack is unmapped without a panic and gives back exactly its
    frames; both keep the separation.  The area below each stack is never mapped,
    so running off a stack faults instead of touching another stack. *)
Theorem stacks_separate {P : Type} `{!Mapper P} (L : gmap Z Z) (v : @Vm P) :
  mapper_ok (P:=P) -> stacks_ok L v ->
  (forall slot top_ v', map_stack v = (Ok (slot, top_), v') -> exists f, L !! slot = None /\ top_ = slot_base slot + SLOT_STRIDE /\
     stacks_ok (<[slot := f]> L) v' /\ frames f STACK_PAGES ⊆ free_set (pmm v) /\ free_set (pmm v') ⊆ free_set (pmm v) ∖ frames f STACK_PAGES) /\
  (forall slot f, L !! slot = Some f -> exists v', unmap_stack slot v = (Ok tt, v') /\ stacks_ok (delete slot L) v' /\
     free_set (pmm v') = free_set (pmm v) ∪ frames f STACK_PAGES) /\
  (forall slot a, 0 <= slot < MAX_SLOTS -> slot_base slot <= a < stack_base slot -> translate_page (tables v) a = None).
Proof.
  intros Hm Hok. split_and!.
  - intros slot top_ v' Hrun. destruct (map_stack_ok Hm L v slot top_ v' Hok Hrun) as (f & ? & ? & ? & ? & ?). by exists f.
  - intros slot f HL. by apply unmap_stack_ok.
  - intros slot a. by eapply guard_unmapped.
Qed.

(** ** A flat page table *)

Module FlatTables.
#[export] Instance flat_mapper : Mapper (gmap Z (Z * prot)) := {|
  map_to va pa f := fun tb => match tb.1 !! va with
                              | Some _ => (Err tt, tb)
                              | None => (Ok tt, (<[va := (pa, f)]> tb.1, tb.2))
                              end;
  unmap va := fun t => match t !! va with Some (pa, _) => (Ok pa, delete va t) | None => (Err tt, t) end;
  translate_page t va := t !! va
|}.

Lemma flat_mapper_ok : mapper_ok (P := gmap Z (Z * prot)).
Proof.
  split; cbn.
  - intros va pa f t b Hwf Hn. rewrite Hn. eexists _, _, _. split; [done|]. split_and!; [done|done|done|]. right.
    split_and!; [done|by rewrite lookup_insert_eq|]. intros va' Hne. by rewrite lookup_insert_ne.
  - intros va t pa f Ht. rewrite Ht. eexists. split_and!; [done|by rewrite lookup_delete_eq|]. intros va' Hne. by rewrite lookup_delete_ne.
Qed.

Definition boot_vm : @Vm (gmap Z (Z * prot)) :=
  {| slots := slots_new; tables := ∅; pmm := {| bits := [0]; base := 0; nframes := 64; cursor := 0; free := 64 |}; code_next := CODE_ZONE_BASE |}.

Lemma boot_vm_ok : stacks_ok ∅ boot_vm.
Proof.
  split; cbn; try done.
  - split; cbn [bits base nframes cursor free].
    + done.
    + repeat constructor; lia.
    + done.
    + unfold FRAME_SIZE. lia.
    + lia.
    + vm_compute. reflexivity.
  - apply NoDup_nil_2.
  - intros s. rewrite lookup_empty. split; [by intros [? ?]|lia].
  - by intros s Hs%not_elem_of_nil.
  - intros va pa fl _. rewrite lookup_empty. split; [done|]. intros [_ (s & f & i & Hs & _)]. by rewrite lookup_empty in Hs.
Qed.

Lemma stacks_separate_witness : exists v1 f v2, map_stack boot_vm = (Ok (0, slot_base 0 + SLOT_STRIDE), v1) /\ stacks_ok {[0 := f]} v1 /\
  unmap_stack 0 v1 = (Ok tt, v2) /\ free_set (pmm v2) = free_set (pmm v1) ∪ frames f STACK_PAGES.
Proof.
  destruct (map_stack boot_vm) as [r v1] eqn:Hrun.
  assert (r = Ok (0, slot_base 0 + SLOT_STRIDE)) as -> by (apply (f_equal fst) in Hrun; cbn [fst] in Hrun; rewrite <- Hrun; vm_compute; reflexivity).
  destruct (stacks_separate ∅ boot_vm flat_mapper_ok boot_vm_ok) as (Hmap & _ & _).
  destruct (Hmap 0 _ v1 Hrun) as (f & _ & _ & Hok & _ & _).
  destruct (stacks_separate (<[0 := f]> ∅) v1 flat_mapper_ok Hok) as (_ & Hunmap & _).
  destruct (Hunmap 0 f) as (v2 & Hu & _ & Hf); [apply lookup_insert_eq|]. exists v1, f, v2. split_and!; [done|exact Hok|exact Hu|exact Hf].
Defined.
End FlatTables.
