(* ===== verification/Messages.v ===== *)
(** * Messages: from the sender's heap to the receiver's

    Models [Fragment] of [kernel/src/proc.rs], the backing a message travels in, and puts the services
    the scheduler uses for messages ([Services] of the process model) on real heaps: sending
    copies the term into memory of the kernel, receiving copies candidates into the
    receiver's heap and takes the bump pointer back when the predicate misses.  The kernel's
    allocator is the class [KernelVec]. *)

From S2P Require Import Prelude Rings FrameAlloc Term TermImm TermHeap TermVal TermCopy Memory Proc.

(** Where [vec![0u64; n]] lies, given the words in use; [None]: out of memory. *)
Class KernelVec := { vec_at : mem -> Z -> option Z }.

(** An allocation is aligned, lies in the address space and overlaps nothing. *)
Class KernelVecLaws `{!KernelVec} := {
  vec_law m n b : 0 < n -> vec_at m n = Some b ->
    0 < b /\ b mod 8 = 0 /\ b + 8 * n <= 2 ^ 64 /\ 8 * n < 2 ^ 61 /\ forall x, b <= x < b + 8 * n -> m !! x = None;
}.

(** ** Fragments *)

Record Fragment := { f_base : Z; f_words : Z; f_root : Term }.

(** Zeroed words at an address. *)
Definition zeroed (b n : Z) : mem := list_to_map (map (fun i => (b + 8 * i, 0)) (seqZ 0 n)).

Section fragments.
Context `{!KernelVec}.
Abbreviation VM := (M mem Empty_set).

Definition vec_zeroed (n : Z) : VM Z := fun m =>
  match vec_at m n with Some b => (Ok b, zeroed b n ∪ m) | None => (Panic, m) end.
Definition vec_drop (b n : Z) : VM unit := modify (filter (fun kv => ~ b <= kv.1 < b + 8 * n)).

(** An operation on [Heap::new(backing.as_mut_ptr(), words * 8)]. *)
Definition in_backing {A} (b words : Z) (c : HM A) : M mem heap_full A := fun m =>
  let '(r, s) := c {| hmem := m; hp := Heap_new b (words * 8) |} in (r, hmem s).

(** [.ok()]: [None] is [HeapFull]. *)
Definition attempt {A} (c : M mem heap_full A) : VM (option A) := fun m =>
  let '(r, m') := c m in (match r with Ok x => Ok (Some x) | Err _ => Ok None | Panic => Panic | NoFuel => NoFuel end, m').

Definition copy_from (fuel : nat) (term : Term) : VM Fragment :=
  m ← get;
  n ← lift (term_size_words fuel m term);
  let words := Z.max n 1 in
  b ← vec_zeroed words;
  o ← attempt (in_backing b words (copy_term fuel term));
  root ← unwrap o;
  mret {| f_base := b; f_words := words; f_root := root |}.

(** The loop of [build]: twice the words after each failure. *)
Fixpoint build_loop (fuel : nat) (words : Z) (build : HM Term) : VM Fragment :=
  match fuel with
  | O => nofuel
  | S fuel' =>
      b ← vec_zeroed words;
      o ← attempt (in_backing b words build);
      match o with
      | Some root => mret {| f_base := b; f_words := words; f_root := root |}
      | None => _ ← vec_drop b words; build_loop fuel' (wrap 64 (words * 2)) build
      end
  end.

Definition fragment_build (fuel : nat) (build : HM Term) : VM Fragment := build_loop fuel 32 build.
End fragments.

(** ** The services *)

(** The memory and the frames; the rest of the kernel's state is [R]. *)
Record Ram (R : Type) := { g_mem : mem; g_pmm : FrameBitmap; g_rest : R }.
Arguments g_mem {R} _.
Arguments g_pmm {R} _.
Arguments g_rest {R} _.
Arguments Build_Ram {R} _ _ _.

Section services.
Context `{!KernelVec} {R : Type} (hhdm : Z) (fuel : nat).
(** Stacks and ports, which messages do not touch. *)
Context (smap : M (Ram R) Empty_set Z) (sunmap : Z -> M (Ram R) Empty_set unit) (close : Z -> M (Ram R) Empty_set unit).

Definition on_mem {A} (c : M mem Empty_set A) : M (Ram R) Empty_set A := fun g =>
  let '(r, m) := c (g_mem g) in (r, {| g_mem := m; g_pmm := g_pmm g; g_rest := g_rest g |}).
Definition on_pmm {A} (c : FM A) : M (Ram R) Empty_set A := fun g =>
  let '(r, b) := c (g_pmm g) in (r, {| g_mem := g_mem g; g_pmm := b; g_rest := g_rest g |}).

Definition with_cur (c : Heap) (h : ProcHeap) : ProcHeap :=
  {| cur := c; spans := spans h; max_pages := max_pages h; total_pages := total_pages h |}.

(** [copy_term(frag.root, &mut p.heap.cur)] *)
Definition copy_in (f : Fragment) : M (Ram R * ProcHeap) heap_full Term := fun gh =>
  let '(r, s) := copy_term fuel (f_root f) {| hmem := g_mem gh.1; hp := cur gh.2 |} in
  (r, ({| g_mem := hmem s; g_pmm := g_pmm gh.1; g_rest := g_rest gh.1 |}, with_cur (hp s) gh.2)).

Definition grow_in : M (Ram R * ProcHeap) Empty_set bool := fun gh =>
  let '(r, g) := on_pmm (grow hhdm gh.2) gh.1 in
  match r with Ok (b, h) => (Ok b, (g, h)) | Err e => (Err e, (g, gh.2)) | Panic => (Panic, (g, gh.2)) | NoFuel => (NoFuel, (g, gh.2)) end.

Definition ram_services : Services (Ram R) ProcHeap Fragment := {|
  heap_new a b := on_pmm (proc_heap_new hhdm a b);
  heap_copy_in := copy_in;
  heap_grow := grow_in;
  heap_used h := used_bytes (cur h);
  heap_truncate w h := with_cur (truncate_to w (cur h)) h;
  heap_spans := take_spans;
  Proc.free_spans l := on_pmm (Memory.free_spans l);
  fragment_copy t := on_mem (copy_from fuel t);
  fragment_tuple ts := on_mem (fragment_build fuel (tuple ts));
  Proc.map_stack := smap;
  Proc.unmap_stack := sunmap;
  Proc.close_owned_by := close;
|}.
End services.
