(* ===== verification/MessagesThms.v ===== *)
(** * MessagesThms: messages arrive

    A fragment holds the value that was sent, in words of its own; the selective receive finds the first
    message its predicate accepts, as a term of the receiver's heap with that value, and leaves no
    trace of the candidates it refused. *)

From S2P Require Import Prelude Rings FrameAlloc Term TermImm TermHeap TermVal TermCopy Memory Proc Messages.

(** ** Fresh words *)

Lemma zeroed_lookup b n x w : zeroed b n !! x = Some w <-> w = 0 /\ exists i, 0 <= i < n /\ x = b + 8 * i.
Proof.
  unfold zeroed. assert (NoDup (map (fun i => (b + 8 * i, 0)) (seqZ 0 n)).*1) as Hnd.
  { rewrite <- list_fmap_compose. apply NoDup_fmap_2; [intros i j; cbn; lia|apply NoDup_seqZ]. }
  rewrite <- elem_of_list_to_map by done. rewrite list_elem_of_fmap. setoid_rewrite elem_of_seqZ. split.
  - intros (i & [= -> ->] & Hi). split; [done|]. exists i. split; [lia|done].
  - intros (-> & i & Hi & ->). exists i. split; [done|lia].
Qed.

Definition backing (f : Fragment) (m : mem) : mem := region (f_base f) (f_base f + 8 * f_words f) m.
(** The message is in the fragment's words alone. *)
Definition carries (m : mem) (f : Fragment) (v : val) : Prop := repr (backing f m) v (f_root f).

Section fragments.
Context {KV : KernelVec} {KL : KernelVecLaws}.

(** The state in which a fresh backing is filled. *)
Lemma fresh_ok m n b : 0 < n -> vec_at m n = Some b ->
  let s := {| hmem := zeroed b n ∪ m; hp := Heap_new b (n * 8) |} in
  heap_ok s /\ m ⊆ hmem s /\ (forall x w, m !! x = Some w -> ~ ptop s <= x < pend s) /\ ptop s = b /\ pend s = b + 8 * n.
Proof using KL.
  intros Hn Hb. destruct (vec_law m n b Hn Hb) as (H1 & H2 & H3 & H4 & H5). cbn zeta.
  assert (cap_words (Heap_new b (n * 8)) = n) as Hc by (cbn; by rewrite Z.div_mul).
  assert (forall x w, m !! x = Some w -> ~ b <= x < b + 8 * n) as Hd by (intros x w Hx Hin; rewrite H5 in Hx by done; done).
  split_and!.
  - split; cbn [hp hmem]; rewrite ?Hc; cbn [hbase top Heap_new]; [done|lia|done|].
    intros i Hi. apply lookup_union_is_Some. left. exists 0. apply zeroed_lookup. split; [done|]. by exists i.
  - cbn. apply map_union_subseteq_r. apply map_disjoint_spec. intros x w w' (_ & i & Hi & ->)%zeroed_lookup Hx. apply (Hd _ _ Hx). lia.
  - unfold ptop, pend. cbn [hp]. rewrite Hc. cbn. intros x w Hx. rewrite Z.add_0_r. by eapply Hd.
  - unfold ptop. cbn. lia.
  - unfold pend. cbn [hp]. by rewrite Hc.
Qed.

Lemma fresh_outside m n b x : ~ b <= x < b + 8 * n -> (zeroed b n ∪ m) !! x = m !! x.
Proof using Type.
  intros Hx. apply lookup_union_r. destruct (zeroed b n !! x) as [w|] eqn:Hz; [|done].
  apply zeroed_lookup in Hz as (_ & i & Hi & ->). destruct Hx. lia.
Qed.

(** An operation that takes [k] words of a fresh backing. *)
Lemma in_backing_grows {A} (c : HM A) k (Q : mem -> A -> Prop) m n b : 0 < n -> vec_at m n = Some b ->
  grows c k Q {| hmem := zeroed b n ∪ m; hp := Heap_new b (n * 8) |} ->
  let '(r, m') := in_backing b n c (zeroed b n ∪ m) in
  (forall x, ~ b <= x < b + 8 * n -> m' !! x = m !! x) /\
  match r with Ok x => k <= n /\ Q (region b (b + 8 * k) m') x | Err _ => n < k | _ => False end.
Proof using KL.
  intros Hn Hb Hg. destruct (fresh_ok m n b Hn Hb) as (Hok & _ & _ & Ht & He). unfold in_backing.
  set (s := {| hmem := _ |}) in *. unfold grows, wp in Hg. destruct (c s) as [r s'] eqn:Hc.
  cbn [fst snd] in Hg. destruct Hg as (Hok' & [Ha1 Ha2] & [Hw _] & Hr). rewrite Ht, He in Hw.
  assert (cap_words (hp s) = n) as Hcap by (cbn; by rewrite Z.div_mul).
  split; [intros x Hx; rewrite Hw by done; by apply fresh_outside|]. destruct r as [x|e| |]; try done.
  - destruct Hr as [Htop Hq]. split.
    + pose proof (ok_top _ Hok') as Hot. rewrite Htop, Ha2, Hcap in Hot. cbn in Hot. lia.
    + rewrite Ht in Hq. replace (b + 8 * k) with (ptop s'); [done|]. unfold ptop. rewrite Ha1, Htop. cbn. lia.
  - rewrite Hcap in Hr. cbn in Hr. lia.
Qed.

(** ** Sending *)

Lemma copy_from_ok fuel m v t : repr m v t -> (vfuel v <= fuel)%nat -> is_Some (vec_at m (Z.max (vsize v) 1)) ->
  exists f m', copy_from fuel t m = (Ok f, m') /\ vec_at m (f_words f) = Some (f_base f) /\ 0 < f_words f /\ carries m' f v /\
    (forall x, ~ f_base f <= x < f_base f + 8 * f_words f -> m' !! x = m !! x).
Proof using KL.
  intros Hr Hf [b Hb]. pose proof (vsize_nonneg v) as Hsz. set (n := Z.max (vsize v) 1) in *. assert (0 < n) as Hn by lia.
  unfold copy_from. rewrite (bind_eval get _ m m m eq_refl).
  rewrite (bind_eval (lift (term_size_words fuel m t)) _ m (vsize v) m) by (unfold lift; by erewrite term_size_repr). fold n.
  rewrite (bind_eval (vec_zeroed n) _ m b (zeroed b n ∪ m)) by (unfold vec_zeroed; by rewrite Hb).
  destruct (fresh_ok m n b Hn Hb) as (Hok & Hsub & Hd & _).
  pose proof (in_backing_grows (copy_term fuel t) (vsize v) (fun m x => repr m v x) m n b Hn Hb) as Hg.
  destruct (in_backing b n (copy_term fuel t) (zeroed b n ∪ m)) as [r m'] eqn:Hin.
  destruct Hg as [Hout Hres]; [apply (proj1 (copied_all v) fuel Hf m); [done|done|by split]|].
  destruct r as [root|e| |]; [|lia|done|done]. destruct Hres as [Hle Hrep].
  exists {| f_base := b; f_words := n; f_root := root |}, m'. split.
  - rewrite (bind_eval (attempt _) _ _ (Some root) m') by (unfold attempt; by rewrite Hin). done.
  - split_and!; [done|done| |done]. unfold carries, backing. cbn. eapply repr_mono; [|exact Hrep]. apply region_mono; [lia|lia|done].
Qed.

(** A dropped backing leaves no trace. *)
Lemma dropped m m' n b : 0 < n -> vec_at m n = Some b -> (forall x, ~ b <= x < b + 8 * n -> m' !! x = m !! x) ->
  filter (fun kv => ~ b <= kv.1 < b + 8 * n) m' = m.
Proof using KL.
  intros Hn Hb Hout. destruct (vec_law m n b Hn Hb) as (_ & _ & _ & _ & Hno). apply map_eq. intros x. apply option_eq. intros w.
  rewrite map_lookup_filter_Some. cbn. split; [intros [Hx Hr]; by rewrite Hout in Hx|]. intros Hx.
  assert (~ b <= x < b + 8 * n) as Hr by (intros Hr; by rewrite Hno in Hx). by rewrite Hout.
Qed.

(** [build] ends as soon as the backing is large enough. *)
Lemma build_loop_ok (c : HM Term) k (Q : mem -> Term -> Prop) m : (forall s, heap_ok s -> grows c k Q s) -> forall fuel words,
  let most := words * 2 ^ (Z.of_nat fuel - 1) in
  0 < words -> (0 < fuel)%nat -> k <= most -> most < 2 ^ 63 -> (forall n, 0 < n <= most -> is_Some (vec_at m n)) ->
  exists f m', build_loop fuel words c m = (Ok f, m') /\ Q (region (f_base f) (f_base f + 8 * k) m') (f_root f) /\ k <= f_words f /\
    (forall x, is_Some (m !! x) -> m' !! x = m !! x).
Proof using KL.
  intros Hc. induction fuel as [|fuel IH]; intros words most Hw Hfuel Hk Hmax Hmem; [lia|]. cbn [build_loop].
  assert (words <= most) as Hle by (assert (0 < 2 ^ (Z.of_nat (S fuel) - 1)) by (apply Z.pow_pos_nonneg; lia); unfold most; nia).
  destruct (Hmem words ltac:(lia)) as [b Hb]. rewrite (bind_eval (vec_zeroed words) _ m b (zeroed b words ∪ m)) by (unfold vec_zeroed; by rewrite Hb).
  destruct (fresh_ok m words b Hw Hb) as (Hok & _).
  pose proof (in_backing_grows c k Q m words b Hw Hb (Hc _ Hok)) as Hg.
  destruct (in_backing b words c (zeroed b words ∪ m)) as [r m'] eqn:Hin. destruct Hg as [Hout Hres].
  destruct r as [root|e| |]; [| |done|done].
  - exists {| f_base := b; f_words := words; f_root := root |}, m'. destruct Hres. split_and!; [|done|done|].
    + rewrite (bind_eval (attempt _) _ _ (Some root) m') by (unfold attempt; by rewrite Hin). done.
    + intros x [w Hx]. apply Hout. intros Hr. destruct (vec_law m words b Hw Hb) as (_ & _ & _ & _ & Hno). by rewrite Hno in Hx.
  - rewrite (bind_eval (attempt _) _ _ None m') by (unfold attempt; by rewrite Hin).
    rewrite (bind_eval (vec_drop b words) _ _ tt m) by (unfold vec_drop, modify; by rewrite (dropped m m' words b)).
    destruct fuel as [|fuel]; [unfold most in Hk; cbn in Hk; lia|].
    assert (words * 2 * 2 ^ (Z.of_nat (S fuel) - 1) = most) as Hm.
    { unfold most. replace (Z.of_nat (S (S fuel)) - 1) with (Z.of_nat (S fuel) - 1 + 1) by lia. rewrite Z.pow_add_r by lia. lia. }
    assert (0 < 2 ^ (Z.of_nat (S fuel) - 1)) by (apply Z.pow_pos_nonneg; lia).
    rewrite wrap_small by nia. apply (IH (words * 2)); rewrite ?Hm; [lia|lia|done|done|done].
Qed.

(** So a message built by the kernel, such as a DOWN, carries its tuple. *)
Lemma tuple_carried fuel es m : let most := 32 * 2 ^ (Z.of_nat fuel - 1) in
  Forall imm_word es -> (0 < fuel)%nat -> 1 + zlen es <= most -> most < 2 ^ 63 -> (forall n, 0 < n <= most -> is_Some (vec_at m n)) ->
  exists f m', fragment_build fuel (tuple es) m = (Ok f, m') /\ carries m' f (VTuple (map VImm es)) /\ (forall x, is_Some (m !! x) -> m' !! x = m !! x).
Proof using KL.
  intros most Hes Hf Hk Hmax Hmem.
  destruct (build_loop_ok (tuple es) (1 + zlen es) (fun m t => tuple_at m t es) m (fun s => grows_tuple es s) fuel 32) as (f & m' & H1 & H2 & H3 & H4);
    [lia|done|done|done|done|].
  exists f, m'. split_and!; [done| |done]. apply (repr_tuple _ _ es).
  - eapply (tuple_at_mono (region (f_base f) (f_base f + 8 * (1 + zlen es)) m')); [|exact H2]. apply region_mono; [lia|lia|done].
  - apply Forall2_fmap_l, Forall_Forall2_diag. eapply Forall_impl; [exact Hes|]. intros w Hw. by constructor.
Qed.
End fragments.

(** ** Receiving *)

Section receiving.
Context {KV : KernelVec} {KL : KernelVecLaws} {R : Type} (hhdm : Z) (fuel : nat).
Context (smap : M (Ram R) Empty_set Z) (sunmap : Z -> M (Ram R) Empty_set unit) (close : Z -> M (Ram R) Empty_set unit).
#[local] Instance ram : Services (Ram R) ProcHeap Fragment := ram_services hhdm fuel smap sunmap close.

(** The receiver's heap. *)
Definition hs (gh : Ram R * ProcHeap) : HS := {| hmem := g_mem gh.1; hp := cur gh.2 |}.

(** The words of a fragment are not words the receiver may allocate. *)
Definition apart (gh : Ram R * ProcHeap) (f : Fragment) : Prop :=
  forall x, f_base f <= x < f_base f + 8 * f_words f -> ~ ptop (hs gh) <= x < pend (hs gh).

(** A message as it waits in the mailbox, and one that there is room for. *)
Definition waiting (gh : Ram R * ProcHeap) (f : Fragment) (v : val) : Prop :=
  carries (g_mem gh.1) f v /\ apart gh f /\ (vfuel v <= fuel)%nat /\ top (cur gh.2) + vsize v <= cap_words (cur gh.2).

(** Only free words of the heap differ, and how much of it is used. *)
Definition only_free (gh gh' : Ram R * ProcHeap) : Prop :=
  writes (ptop (hs gh)) (pend (hs gh)) (g_mem gh.1) (g_mem gh'.1) /\ g_pmm gh'.1 = g_pmm gh.1 /\ g_rest gh'.1 = g_rest gh.1 /\
  same_arena (hs gh) (hs gh') /\ spans gh'.2 = spans gh.2 /\ max_pages gh'.2 = max_pages gh.2 /\ total_pages gh'.2 = total_pages gh.2.

Lemma backing_kept gh gh' f : only_free gh gh' -> apart gh f -> backing f (g_mem gh'.1) = backing f (g_mem gh.1).
Proof using Type.
  intros [[Hw _] _] Ha. apply map_eq. intros x. apply option_eq. intros w. unfold backing. rewrite !region_lookup.
  split; intros [Hx Hr]; (split; [|done]); [rewrite Hw in Hx by (by apply Ha); done|rewrite Hw by (by apply Ha); done].
Qed.

Lemma copy_in_ok gh f v : heap_ok (hs gh) -> waiting gh f v -> exists t gh', copy_in fuel f gh = (Ok t, gh') /\ heap_ok (hs gh') /\
  only_free gh gh' /\ top (cur gh'.2) = top (cur gh.2) + vsize v /\ repr (region (ptop (hs gh)) (ptop (hs gh')) (g_mem gh'.1)) v t.
Proof using Type.
  intros Hok (Hc & Ha & Hf & Hfit).
  assert (source (backing f (g_mem gh.1)) (hs gh)) as Hsrc.
  { split; [apply region_sub|]. intros x w [_ Hr]%region_lookup. by apply Ha. }
  pose proof (proj1 (copied_all v) fuel Hf _ _ (hs gh) Hc Hok Hsrc) as Hg. unfold grows, wp in Hg. unfold copy_in. fold (hs gh).
  destruct (copy_term fuel (f_root f) (hs gh)) as [r s']. cbn [fst snd] in Hg. destruct Hg as (Hok' & Har & Hw & Hr).
  destruct r as [t|e| |]; [|cbn in Hr; lia|done|done]. destruct Hr as [Htop Hrep]. eexists t, _. split; [done|]. cbn. unfold hs. cbn.
  assert ({| hmem := hmem s'; hp := hp s' |} = s') as -> by (by destruct s'). split_and!; [done| |done|done]. unfold only_free, hs. cbn.
  assert ({| hmem := hmem s'; hp := hp s' |} = s') as -> by (by destruct s'). by split_and!.
Qed.

(** A candidate that is refused leaves the heap as full as it was. *)
Definition roll_back (gh gh' : Ram R * ProcHeap) : Ram R * ProcHeap :=
  (gh'.1, Messages.with_cur (truncate_to (used_bytes (cur gh.2)) (cur gh'.2)) gh'.2).

Lemma roll_back_ok gh gh' : heap_ok (hs gh) -> only_free gh gh' -> heap_ok (hs gh') ->
  heap_ok (hs (roll_back gh gh')) /\ only_free gh (roll_back gh gh') /\ cur (roll_back gh gh').2 = cur gh.2.
Proof using Type.
  intros [B1 B2 B3 B4] (Hw & Hp & Hrest & [Ha1 Ha2] & Hs1 & Hs2 & Hs3) Hok'. unfold hs in *. cbn in *.
  assert (truncate_to (used_bytes (cur gh.2)) (cur gh'.2) = cur gh.2) as Hcur.
  { unfold truncate_to, used_bytes. rewrite Z.div_mul by lia. rewrite Ha1, Ha2. by destruct (cur gh.2). }
  rewrite Hcur. split_and!; [|unfold only_free, hs; cbn; rewrite Hcur; by split_and!|done].
  split; cbn; [done|done|done|]. intros i Hi. destruct (B4 i Hi) as [w Hx]. destruct Hw as [_ Hdom]. eauto.
Qed.

(** What the predicate sees of a term is its value. *)
Definition judges (pred : Term -> Ram R * ProcHeap -> bool) (P : val -> bool) : Prop :=
  forall gh t v, repr (g_mem gh.1) v t -> pred t gh = P v.

Lemma waiting_same gh gh' f v : only_free gh gh' -> cur gh'.2 = cur gh.2 -> waiting gh f v -> waiting gh' f v.
Proof using Type.
  intros Ho Hc (H1 & H2 & H3 & H4). unfold waiting, carries, apart, hs, ptop, pend in *. cbn in *. rewrite Hc.
  split_and!; [|done..]. erewrite backing_kept; [exact H1|exact Ho|exact H2].
Qed.

Lemma only_free_trans g1 g2 g3 : only_free g1 g2 -> cur g2.2 = cur g1.2 -> only_free g2 g3 -> only_free g1 g3.
Proof using Type.
  unfold only_free, hs, ptop, pend, same_arena. cbn. intros ([W1 D1] & P1 & R1 & A1 & S1 & M1 & T1) Hc ([W2 D2] & P2 & R2 & A2 & S2 & M2 & T2).
  rewrite Hc in *. split_and!; try congruence; [|by destruct A2..]. split; [intros x Hx; rewrite W2, W1 by done; done|auto].
Qed.

Lemma scan_refused pred P before vs : judges pred P -> Forall2 (fun f v => P v = false) before vs -> forall i rest_ gh,
  heap_ok (hs gh) -> Forall2 (waiting gh) before vs -> exists gh', heap_ok (hs gh') /\ only_free gh gh' /\ cur gh'.2 = cur gh.2 /\
    scan_mailbox pred i (before ++ rest_) gh = scan_mailbox pred (length before + i) rest_ gh'.
Proof using Type.
  intros Hj Hno. induction Hno as [|f v before vs Hv Hno IH]; intros i rest_ gh Hok Hw.
  { exists gh. split_and!; try done. }
  apply Forall2_cons in Hw as [Hf Hw]. destruct (copy_in_ok gh f v Hok Hf) as (t & gh1 & Hcp & Hok1 & Ho1 & _ & Hrep).
  destruct (roll_back_ok gh gh1 Hok Ho1 Hok1) as (Hok2 & Ho2 & Hc2).
  destruct (IH (S i) rest_ (roll_back gh gh1) Hok2) as (gh' & Hok' & Ho' & Hc' & Hscan).
  { eapply Forall2_impl; [exact Hw|]. intros f' v'. by apply waiting_same. }
  exists gh'. split_and!; [done|by eapply only_free_trans|congruence|]. cbn [app scan_mailbox]. cbn [heap_copy_in ram ram_services]. rewrite Hcp.
  assert (pred t gh1 = false) as ->.
  { rewrite (Hj gh1 t v); [done|]. eapply repr_mono; [|exact Hrep]. apply region_sub. }
  change (gh1.1, _) with (roll_back gh gh1). rewrite Hscan. f_equal. cbn. lia.
Qed.

Lemma scan_accepted pred P f v rest_ i gh : judges pred P -> P v = true -> heap_ok (hs gh) -> waiting gh f v -> exists t gh',
  scan_mailbox pred i (f :: rest_) gh = (Ok (ScanMatch i t), gh') /\ heap_ok (hs gh') /\ only_free gh gh' /\
  top (cur gh'.2) = top (cur gh.2) + vsize v /\ repr (region (ptop (hs gh)) (ptop (hs gh')) (g_mem gh'.1)) v t.
Proof using Type.
  intros Hj Hv Hok Hf. destruct (copy_in_ok gh f v Hok Hf) as (t & gh1 & Hcp & Hok1 & Ho1 & Htop & Hrep).
  exists t, gh1. split_and!; try done. cbn [scan_mailbox heap_copy_in ram ram_services]. rewrite Hcp.
  rewrite (Hj gh1 t v); [by rewrite Hv|]. eapply repr_mono; [apply region_sub|exact Hrep].
Qed.

(** ** Properties *)

(** C11: A message arrives.  Sending a term whose value is [v] puts a copy into a fragment, disturbing no word in
    use; it fails only for want of memory.  From then on, whatever becomes of the sender's heap, as long as the
    fragment's words are left alone: when the receiver scans its mailbox, finds that its predicate refuses
    the messages before this one and accepts [v], and each of them and this one fits, by itself, in what is free of
    the receiver's current span (so that the heap need not grow, after which the scan passes a message over), the scan
    ends at this message with a term of the receiver's heap whose value is [v], has used
    exactly the words of [v], and nothing but free words of the receiver's heap has changed. *)
Theorem message_arrives g v t : repr (g_mem g) v t -> (vfuel v <= fuel)%nat -> is_Some (vec_at (g_mem g) (Z.max (vsize v) 1)) ->
  exists f g1, fragment_copy t g = (Ok f, g1) /\ (forall x, is_Some (g_mem g !! x) -> g_mem g1 !! x = g_mem g !! x) /\
  forall pred P before vs after gh, backing f (g_mem gh.1) = backing f (g_mem g1) -> heap_ok (hs gh) -> apart gh f ->
    top (cur gh.2) + vsize v <= cap_words (cur gh.2) -> judges pred P -> P v = true ->
    Forall2 (fun _ u => P u = false) before vs -> Forall2 (waiting gh) before vs ->
    exists t' gh', scan_mailbox pred 0 (before ++ f :: after) gh = (Ok (ScanMatch (length before) t'), gh') /\
      heap_ok (hs gh') /\ only_free gh gh' /\ top (cur gh'.2) = top (cur gh.2) + vsize v /\
      repr (region (ptop (hs gh)) (ptop (hs gh')) (g_mem gh'.1)) v t'.
Proof using KL.
  intros Hr Hf Hmem. destruct (copy_from_ok fuel (g_mem g) v t Hr Hf Hmem) as (f & m' & Hcp & Hat & Hpos & Hcar & Hout).
  exists f, {| g_mem := m'; g_pmm := g_pmm g; g_rest := g_rest g |}. split_and!.
  - cbn. unfold on_mem. by rewrite Hcp.
  - intros x [w Hx]. cbn. apply Hout. intros Hin. destruct (vec_law _ _ _ Hpos Hat) as (_ & _ & _ & _ & Hno). rewrite Hno in Hx by done. done.
  - intros pred P before vs after gh Hb Hok Ha Hfit Hj Hv Hno Hw.
    destruct (scan_refused pred P before vs Hj Hno 0 (f :: after) gh Hok Hw) as (gh1 & Hok1 & Ho1 & Hc1 & Hscan).
    assert (waiting gh f v) as Hwf by (split_and!; [unfold carries; by rewrite Hb|done..]).
    destruct (scan_accepted pred P f v after (length before + 0) gh1 Hj Hv Hok1 (waiting_same _ _ _ _ Ho1 Hc1 Hwf)) as (t' & gh2 & Hm & Hok2 & Ho2 & Htop & Hrep).
    exists t', gh2. rewrite Hscan, Hm, Nat.add_0_r. split_and!; [done|done|by eapply only_free_trans|congruence|].
    replace (ptop (hs gh)) with (ptop (hs gh1)) by (unfold ptop, hs; cbn; by rewrite Hc1). exact Hrep.
Qed.
End receiving.

(** *** Witness: memory is handed out above everything in use *)

Definition highest (m : mem) : Z := map_fold (fun k _ acc => Z.max k acc) 0 m.

Lemma highest_spec m : 0 <= highest m /\ forall k w, m !! k = Some w -> k <= highest m.
Proof.
  unfold highest. apply (map_fold_weak_ind (fun acc m => 0 <= acc /\ forall k w, m !! k = Some w -> k <= acc)); [done|].
  intros i x m' acc Hi [H0 H]. split; [lia|]. intros k w [[<- _]|[_ Hk]]%lookup_insert_Some; [lia|]. specialize (H k w Hk). lia.
Qed.

#[local] Instance above : KernelVec := {|
  vec_at m n := let b := 8 * (highest m / 8 + 1) in
    if bool_decide (b + 8 * n <= 2 ^ 64) && bool_decide (8 * n < 2 ^ 61) then Some b else None |}.
#[local] Instance above_laws : KernelVecLaws.
Proof.
  split. intros m n b Hn Hb. cbn in Hb. destruct (highest_spec m) as [H0 Hk]. pose proof (Z.div_mod (highest m) 8 ltac:(lia)).
  pose proof (Z.mod_pos_bound (highest m) 8 ltac:(lia)). pose proof (Z.div_pos (highest m) 8 ltac:(lia) ltac:(lia)).
  destruct (bool_decide _) eqn:E1; [|done]. apply bool_decide_eq_true in E1. destruct (bool_decide (8 * n < 2 ^ 61)) eqn:E2; [|done].
  apply bool_decide_eq_true in E2. injection Hb as <-. split_and!; [lia| |lia|done|].
  - rewrite Z.mul_comm. apply Z.mod_mul. lia.
  - intros x Hx. destruct (m !! x) as [w|] eqn:Hm; [|done]. specialize (Hk x w Hm). lia.
Qed.

Definition demo_ram : Ram unit :=
  {| g_mem := hmem (sample_heap 32); g_pmm := {| bits := []; base := 0; nframes := 0; cursor := 0; free := 0 |}; g_rest := tt |}.
Definition demo_heap : ProcHeap := {| cur := {| hbase := 65536; cap_words := 32; top := 0 |}; spans := [(0, 1)]; max_pages := 1; total_pages := 1 |}.
Abbreviation demo_svc := (ram_services (R := unit) 0 10 (mret 0) (fun _ => mret tt) (fun _ => mret tt)).

(** Boxed terms are wanted; an atom-sized message is in front of the tuple. *)
Definition wanted (t : Term) (gh : Ram unit * ProcHeap) : bool := is_boxed t.
Definition wanted_val (v : val) : bool := bool_decide (is_Some (vheader v)).
Definition nil_fragment : Fragment := {| f_base := 2 ^ 40; f_words := 1; f_root := NIL |}.

Lemma wanted_judges : judges wanted wanted_val.
Proof. intros gh t v Hr. by apply (repr_boxed (g_mem gh.1)). Qed.

Lemma nil_carried m : carries m nil_fragment (VImm NIL).
Proof. apply (repr_imm _ NIL). by vm_compute. Qed.

Lemma demo_sent : exists f g1, fragment_copy (Services := demo_svc) 4096 demo_ram = (Ok f, g1) /\ 65792 <= f_base f /\
  g_mem g1 !! 65536 = Some 0 /\ Forall (fun i => is_Some (g_mem g1 !! (65536 + 8 * i))) (seqZ 0 32).
Proof.
  destruct (fragment_copy (Services := demo_svc) 4096 demo_ram) as [[f|e| |] g1] eqn:E; vm_compute in E; try done.
  injection E as <- <-. eexists _, _. split_and!; [vm_compute; reflexivity|vm_compute; congruence|by vm_compute|].
  apply (bool_decide_unpack _). by vm_compute.
Qed.

Lemma message_arrives_witness : exists f g1 t' gh', fragment_copy (Services := demo_svc) 4096 demo_ram = (Ok f, g1) /\
  scan_mailbox (Services0 := demo_svc) wanted 0 [nil_fragment; f] (g1, demo_heap) = (Ok (ScanMatch 1 t'), gh') /\ repr (g_mem gh'.1) sample_val t'.
Proof.
  destruct (message_arrives (R := unit) 0 10 (mret 0) (fun _ => mret tt) (fun _ => mret tt) demo_ram sample_val 4096) as (f & g1 & Hsend & Hkeep & Hrecv).
  - eapply repr_mono; [apply (proj1 sample_source)|]. apply sample_repr. by left.
  - vm_compute. lia.
  - eexists; vm_compute; reflexivity.
  - destruct demo_sent as (f' & g1' & Hs & Hlow & _ & Hmap).
    pose proof (eq_trans (eq_sym Hs) Hsend) as [= -> ->].
    destruct (Hrecv wanted wanted_val [nil_fragment] [VImm NIL] [] (g1, demo_heap)) as (t' & gh' & Hscan & _ & _ & _ & Hr).
    + done.
    + split; cbn; [split; [lia|reflexivity]|lia|lia|]. intros i Hi. rewrite Forall_forall in Hmap. apply Hmap, elem_of_seqZ. cbn in Hi. lia.
    + intros x Hx. unfold ptop, pend. cbn. lia.
    + vm_compute. congruence.
    + exact wanted_judges.
    + done.
    + by repeat constructor.
    + apply Forall2_cons_2; [|apply Forall2_nil_2]. split; [apply nil_carried|]. split; [|split; cbn; lia]. intros x Hx. unfold ptop, pend. cbn in Hx |- *. lia.
    + exists f, g1, t', gh'. split_and!; [exact Hsend|exact Hscan|]. eapply repr_mono; [apply region_sub|exact Hr].
Defined.
