(* ===== verification/Shootdown.v ===== *)
(** * Shootdown: stacks, translation caches and the cores that share them

    Processes die on any core, and other cores may still cache translations of their
    stacks.  Models, one access of shared state at a time, [map_stack] and
    [unmap_stack] of [kernel/src/vmm.rs], [flush_broadcast] of [kernel/src/smp.rs] and
    the interrupt it waits for ([tlb_flush_interrupt] of [kernel/src/irq.rs]), run by
    the cores in any interleaving.  The page tables are a map of pages; a core caches
    any entry that is present and drops cached entries when it likes.  Frames come from
    a pool that the rest of the kernel uses too.  All cores are online: the boot core
    waits for the others before it starts the first process.  Atomics are taken as
    sequentially consistent. *)

From stdpp Require Import functions.
From S2P Require Import Prelude FrameAlloc Memory.

(** ** State *)

Record Pte := { pte_frame : Z; pte_global : bool }.

(** Inside [flush_broadcast]. *)
Inductive FlushPc :=
| FEnter            (* about to read the number of cores *)
| FLock             (* waiting for SHOOTDOWN *)
| FReset            (* about to clear TLB_ACKS *)
| FIpi              (* about to send the interrupt *)
| FWait (spins : Z) (* in the loop *)
| FUnlock.          (* about to drop the guard *)

(** Where a core is in [map_stack] or [unmap_stack], with the locals. *)
Inductive Pc :=
| Idle
| MapAlloc (slot : Z)
| MapLock (slot span : Z)
| MapPages (slot span i : Z)
| UnLock (slot : Z)
| UnPages (slot : Z) (fs : list Z)
| Flush (slot : Z) (fs : list Z) (ph : FlushPc)
| UnFree (slot : Z) (fs : list Z)
| UnPush (slot : Z).

Inductive Why := NoSlot | NoFrames | AlreadyMapped | NotMapped | TimedOut.

Record Sys := {
  ptab : gmap Z Pte;
  tlb : nat -> gmap Z Pte;
  acks : Z;                 (* TLB_ACKS *)
  pending : gset nat;       (* cores whose flush interrupt is raised *)
  mapper : option nat;      (* MAPPER *)
  shootdown : option nat;   (* SHOOTDOWN *)
  slots : SlotAllocator;    (* STACK_SLOTS *)
  live : gset Z;            (* slots of processes *)
  pool : gset Z;            (* free frames *)
  other : gset Z;           (* frames in use elsewhere *)
  pc : nat -> Pc;
  panicked : option Why;
}.

Definition set_pc (c : nat) (p : Pc) (s : Sys) : Sys :=
  {| ptab := ptab s; tlb := tlb s; acks := acks s; pending := pending s; mapper := mapper s; shootdown := shootdown s;
     slots := slots s; live := live s; pool := pool s; other := other s; pc := <[c := p]> (pc s); panicked := panicked s |}.
Definition set_ptab (t : gmap Z Pte) (s : Sys) : Sys :=
  {| ptab := t; tlb := tlb s; acks := acks s; pending := pending s; mapper := mapper s; shootdown := shootdown s;
     slots := slots s; live := live s; pool := pool s; other := other s; pc := pc s; panicked := panicked s |}.
Definition set_tlb (c : nat) (t : gmap Z Pte) (s : Sys) : Sys :=
  {| ptab := ptab s; tlb := <[c := t]> (tlb s); acks := acks s; pending := pending s; mapper := mapper s; shootdown := shootdown s;
     slots := slots s; live := live s; pool := pool s; other := other s; pc := pc s; panicked := panicked s |}.
Definition set_acks (a : Z) (s : Sys) : Sys :=
  {| ptab := ptab s; tlb := tlb s; acks := a; pending := pending s; mapper := mapper s; shootdown := shootdown s;
     slots := slots s; live := live s; pool := pool s; other := other s; pc := pc s; panicked := panicked s |}.
Definition set_pending (p : gset nat) (s : Sys) : Sys :=
  {| ptab := ptab s; tlb := tlb s; acks := acks s; pending := p; mapper := mapper s; shootdown := shootdown s;
     slots := slots s; live := live s; pool := pool s; other := other s; pc := pc s; panicked := panicked s |}.
Definition set_mapper (o : option nat) (s : Sys) : Sys :=
  {| ptab := ptab s; tlb := tlb s; acks := acks s; pending := pending s; mapper := o; shootdown := shootdown s;
     slots := slots s; live := live s; pool := pool s; other := other s; pc := pc s; panicked := panicked s |}.
Definition set_shootdown (o : option nat) (s : Sys) : Sys :=
  {| ptab := ptab s; tlb := tlb s; acks := acks s; pending := pending s; mapper := mapper s; shootdown := o;
     slots := slots s; live := live s; pool := pool s; other := other s; pc := pc s; panicked := panicked s |}.
Definition set_slots_live (a : SlotAllocator) (l : gset Z) (s : Sys) : Sys :=
  {| ptab := ptab s; tlb := tlb s; acks := acks s; pending := pending s; mapper := mapper s; shootdown := shootdown s;
     slots := a; live := l; pool := pool s; other := other s; pc := pc s; panicked := panicked s |}.
Definition set_frames (p o : gset Z) (s : Sys) : Sys :=
  {| ptab := ptab s; tlb := tlb s; acks := acks s; pending := pending s; mapper := mapper s; shootdown := shootdown s;
     slots := slots s; live := live s; pool := p; other := o; pc := pc s; panicked := panicked s |}.
Definition sys_panic (w : Why) (s : Sys) : Sys :=
  {| ptab := ptab s; tlb := tlb s; acks := acks s; pending := pending s; mapper := mapper s; shootdown := shootdown s;
     slots := slots s; live := live s; pool := pool s; other := other s; pc := pc s; panicked := Some w |}.

(** ** The code of a core *)

(** The page of a stack, and the frame of a span, at an index. *)
Definition page (slot i : Z) : Z := stack_base slot + i * 4096.
Definition frame_at (span i : Z) : Z := span + i * 4096.
Definition span_from (span i : Z) : list Z := map (frame_at span) (seqZ i (STACK_PAGES - i)).

(** [invlpg]: the entry for one page. *)
Definition invlpg (c : nat) (va : Z) (s : Sys) : Sys := set_tlb c (delete va (tlb s c)) s.

Section cores.
(** The number of cores. *)
Context (ncpu : nat).

Definition all_cores : gset nat := list_to_set (seq 0 ncpu).

(** [x86 ICR], all excluding self. *)
Definition ipi_all_others (c : nat) (s : Sys) : Sys := set_pending (pending s ∪ (all_cores ∖ {[c]})) s.

Definition SPIN_LIMIT : Z := 4000000000.

(** One step of [flush_broadcast]; [None]: the lock is taken. *)
Definition flush_step (c : nat) (slot : Z) (fs : list Z) (ph : FlushPc) (s : Sys) : option Sys :=
  let others := Z.of_nat ncpu - 1 in
  match ph with
  | FEnter => Some (if bool_decide (others = 0) then set_pc c (UnFree slot fs) s else set_pc c (Flush slot fs FLock) s)
  | FLock => match shootdown s with
             | Some _ => None
             | None => Some (set_pc c (Flush slot fs FReset) (set_shootdown (Some c) s))
             end
  | FReset => Some (set_pc c (Flush slot fs FIpi) (set_acks 0 s))
  | FIpi => Some (set_pc c (Flush slot fs (FWait 0)) (ipi_all_others c s))
  | FWait spins =>
      Some (if bool_decide (acks s < others)
            then if bool_decide (spins + 1 > SPIN_LIMIT) then sys_panic TimedOut s
                 else set_pc c (Flush slot fs (FWait (spins + 1))) s
            else set_pc c (Flush slot fs FUnlock) s)
  | FUnlock => Some (set_pc c (UnFree slot fs) (set_shootdown None s))
  end.

(** [MAPPER.lock()] *)
Definition lock_mapper (c : nat) (p : Pc) (s : Sys) : option Sys :=
  match mapper s with Some _ => None | None => Some (set_pc c p (set_mapper (Some c) s)) end.

(** One round of the loop of [map_stack], or its end. *)
Definition map_round (c : nat) (slot span i : Z) (s : Sys) : Sys :=
  if bool_decide (i < STACK_PAGES) then
    match ptab s !! page slot i with
    | Some _ => sys_panic AlreadyMapped s
    | None => set_pc c (MapPages slot span (i + 1)) (invlpg c (page slot i)
                (set_ptab (<[page slot i := {| pte_frame := frame_at span i; pte_global := false |}]> (ptab s)) s))
    end
  else set_pc c Idle (set_mapper None (set_slots_live (slots s) (live s ∪ {[slot]}) s)).

(** One round of the first loop of [unmap_stack], or its end. *)
Definition unmap_round (c : nat) (slot : Z) (fs : list Z) (s : Sys) : Sys :=
  if bool_decide (zlen fs < STACK_PAGES) then
    match ptab s !! page slot (zlen fs) with
    | None => sys_panic NotMapped s
    | Some e => set_pc c (UnPages slot (fs ++ [pte_frame e])) (invlpg c (page slot (zlen fs))
                  (set_ptab (delete (page slot (zlen fs)) (ptab s)) s))
    end
  else set_pc c (Flush slot fs FEnter) s.

(** The loop that frees, and what follows it. *)
Definition free_round (c : nat) (slot : Z) (fs : list Z) (s : Sys) : Sys :=
  match fs with
  | f :: fs' => set_pc c (UnFree slot fs') (set_frames (pool s ∪ {[f]}) (other s) s)
  | [] => set_pc c (UnPush slot) s
  end.

Definition push_slot (c : nat) (slot : Z) (s : Sys) : Sys :=
  set_pc c Idle (set_mapper None
    (set_slots_live {| next := next (slots s); freed := freed (slots s) ++ [slot] |} (live s) s)).

Definition core_step (c : nat) (s : Sys) : option Sys :=
  match pc s c with
  | Idle | MapAlloc _ => None
  | MapLock slot span => lock_mapper c (MapPages slot span 0) s
  | MapPages slot span i => Some (map_round c slot span i s)
  | UnLock slot => lock_mapper c (UnPages slot []) s
  | UnPages slot fs => Some (unmap_round c slot fs s)
  | Flush slot fs ph => flush_step c slot fs ph s
  | UnFree slot fs => Some (free_round c slot fs s)
  | UnPush slot => Some (push_slot c slot s)
  end.

(** [map_stack] is called: the slot. *)
Definition map_start (c : nat) (s : Sys) : Sys :=
  match slot_alloc (slots s) with
  | (Ok slot, a) => set_pc c (MapAlloc slot) (set_slots_live a (live s) s)
  | (_, a) => sys_panic NoSlot (set_slots_live a (live s) s)
  end.

(** The interrupt: reload CR3, which keeps global entries, and count. *)
Definition tlb_flush_interrupt (c : nat) (s : Sys) : Sys :=
  set_acks (acks s + 1) (set_tlb c (filter (fun e => pte_global e.2 = true) (tlb s c)) (set_pending (pending s ∖ {[c]}) s)).

(** ** All the steps of the machine *)

Inductive sys_step (s : Sys) : Sys -> Prop :=
| S_code c s' : (c < ncpu)%nat -> core_step c s = Some s' -> sys_step s s'
| S_map c : (c < ncpu)%nat -> pc s c = Idle -> sys_step s (map_start c s)
(** [alloc_contig] hands out free frames in a row, or finds none. *)
| S_span c slot span : (c < ncpu)%nat -> pc s c = MapAlloc slot -> (forall f, f ∈ span_from span 0 -> f ∈ pool s) ->
    sys_step s (set_pc c (MapLock slot span) (set_frames (pool s ∖ list_to_set (span_from span 0)) (other s) s))
| S_no_span c slot : (c < ncpu)%nat -> pc s c = MapAlloc slot -> sys_step s (sys_panic NoFrames s)
(** [map_to] finds no frame for a table. *)
| S_no_table c slot span i : (c < ncpu)%nat -> pc s c = MapPages slot span i -> sys_step s (sys_panic NoFrames s)
| S_unmap c slot : (c < ncpu)%nat -> pc s c = Idle -> slot ∈ live s ->
    sys_step s (set_pc c (UnLock slot) (set_slots_live (slots s) (live s ∖ {[slot]}) s))
| S_fill c va e : (c < ncpu)%nat -> ptab s !! va = Some e -> sys_step s (set_tlb c (<[va := e]> (tlb s c)) s)
| S_evict c va : sys_step s (invlpg c va s)
| S_irq c : c ∈ pending s -> sys_step s (tlb_flush_interrupt c s)
| S_take f : f ∈ pool s -> sys_step s (set_frames (pool s ∖ {[f]}) (other s ∪ {[f]}) s)
| S_give f : f ∈ other s -> sys_step s (set_frames (pool s ∪ {[f]}) (other s ∖ {[f]}) s).

(** Nothing runs after a panic: the other cores are halted. *)
Inductive sys_next (s s' : Sys) : Prop := next_of : panicked s = None -> sys_step s s' -> sys_next s s'.

(** Before the first process: no stack is mapped, nothing is in flight. *)
Record sys_init (s : Sys) : Prop := {
  in_pages slot i : 0 <= i < STACK_PAGES -> ptab s !! page slot i = None;
  in_tlb c va e : tlb s c !! va = Some e -> ptab s !! va = Some e;
  in_pending : pending s = ∅;
  in_mapper : mapper s = None;
  in_shoot : shootdown s = None;
  in_slots : slots s = slots_new;
  in_live : live s = ∅;
  in_frames : pool s ## other s;
  in_pc c : pc s c = Idle;
  in_panic : panicked s = None;
}.

Definition reachable (s : Sys) : Prop := exists s0, sys_init s0 /\ rtc sys_next s0 s.
End cores.
