(* ===== verification/ShootdownProofs.v ===== *)
(** * ShootdownProofs: no core reaches a freed frame

    The invariant of the machine of [Shootdown]: every slot and every frame has one
    owner, the page tables map exactly the stacks of processes and of operations in
    flight, and a cached translation is either in the page tables or belongs to an
    unmapping whose shootdown the caching core has still to answer. *)

From stdpp Require Import functions.
From S2P Require Import Prelude FrameAlloc Memory StackProofs Shootdown.

(** ** Who has what *)

Definition slot_of (p : Pc) : option Z :=
  match p with
  | Idle => None
  | MapAlloc k | MapLock k _ | MapPages k _ _ | UnLock k | UnPages k _ | Flush k _ _ | UnFree k _ | UnPush k => Some k
  end.

Definition held (p : Pc) : list Z :=
  match p with
  | MapLock _ span => span_from span 0
  | MapPages _ span i => span_from span i
  | UnPages _ fs | Flush _ fs _ | UnFree _ fs => fs
  | _ => []
  end.

(** Pages of its slot that are mapped while a core is at [p]. *)
Definition has_page (p : Pc) (k i : Z) : Prop :=
  match p with
  | MapPages k' _ j => k = k' /\ i < j
  | UnLock k' => k = k'
  | UnPages k' fs => k = k' /\ zlen fs <= i
  | _ => False
  end.

Definition locks (p : Pc) : bool :=
  match p with MapPages _ _ _ | UnPages _ _ | Flush _ _ _ | UnFree _ _ | UnPush _ => true | _ => false end.

(** The slot and the frames of an unmapping whose shootdown has not ended. *)
Definition unmapping (p : Pc) : option (Z * list Z) :=
  match p with UnPages k fs | Flush k fs _ => Some (k, fs) | _ => None end.

Definition shooting (ph : FlushPc) : bool := match ph with FEnter | FLock => false | _ => true end.

(** Core [c] has still to answer the shootdown of a core at [p]. *)
Definition lags (p : Pc) (irqs : gset nat) (c : nat) : Prop :=
  match p with
  | UnPages _ _ | Flush _ _ FEnter | Flush _ _ FLock | Flush _ _ FReset | Flush _ _ FIpi => True
  | Flush _ _ (FWait _) => c ∈ irqs
  | _ => False
  end.
Definition may_lag (s : Sys) (c c' : nat) : Prop := c <> c' /\ lags (pc s c') (pending s) c.

(** Core [c] still caches page [i] of a stack that [c'] is unmapping. *)
Definition stale (s : Sys) (c : nat) (va : Z) (e : Pte) (c' : nat) : Prop :=
  exists k fs i, unmapping (pc s c') = Some (k, fs) /\ va = page k i /\ lookupz fs i = Some (pte_frame e) /\ may_lag s c c'.

Inductive sowner := SFreed | SFresh | SLive | SCore (c : nat).
Definition sowns (s : Sys) (o : sowner) (k : Z) : Prop :=
  match o with
  | SFreed => k ∈ freed (slots s)
  | SFresh => next (slots s) <= k
  | SLive => k ∈ live s
  | SCore c => slot_of (pc s c) = Some k
  end.

Definition stack_page_va (va : Z) : Prop := exists k i, 0 <= i < STACK_PAGES /\ va = page k i.

Inductive fowner := OPool | OOther | OPage (va : Z) | OHeld (c : nat).
Definition fowns (s : Sys) (o : fowner) (f : Z) : Prop :=
  match o with
  | OPool => f ∈ pool s
  | OOther => f ∈ other s
  | OPage va => stack_page_va va /\ exists e, ptab s !! va = Some e /\ pte_frame e = f
  | OHeld c => f ∈ held (pc s c)
  end.

Definition one_owner {O} (R : O -> Z -> Prop) : Prop := forall o o' x, R o x -> R o' x -> o = o'.

(** Things [X] move to [b]; everything else stays where it was or is lost. *)
Lemma one_owner_move {O} (R R' : O -> Z -> Prop) (X : Z -> Prop) b :
  one_owner R -> (forall x, X x \/ ~ X x) -> (forall o x, R' o x -> (X x -> o = b) /\ (~ X x -> R o x)) -> one_owner R'.
Proof.
  intros Hu HX Hm o o' x H1 H2. destruct (Hm _ _ H1) as [A1 B1], (Hm _ _ H2) as [A2 B2].
  destruct (HX x) as [HX'|HX']; [by rewrite A1, A2|by apply (Hu o o' x); auto].
Qed.

(** [x0] moves from [a] to [b]. *)
Lemma one_owner_take {O} (R R' : O -> Z -> Prop) x0 a b :
  one_owner R -> R a x0 -> (forall o x, R' o x -> (x = x0 /\ o = b) \/ (R o x /\ (x = x0 -> o <> a))) -> one_owner R'.
Proof.
  intros Hu Ha Hm. assert (forall o x, R' o x -> (x = x0 -> o = b) /\ (x <> x0 -> R o x)) as Hm'.
  { intros o x Hx. destruct (Hm o x Hx) as [[-> ->]|[Hr Hne]]; (split; [|done]); [done|].
    intros ->. by destruct (Hne eq_refl (Hu _ _ _ Hr Ha)). }
  apply (one_owner_move R R' (fun x => x = x0) b Hu); [intros x; destruct (decide (x = x0)); auto|done].
Qed.

Lemma one_owner_sub {O} (R R' : O -> Z -> Prop) : one_owner R -> (forall o x, R' o x -> R o x) -> one_owner R'.
Proof. intros Hu Hs o o' x H1 H2. by apply (Hu o o' x); apply Hs. Qed.

(** Split on whether [c'] is the core that moves. *)
Ltac case_core c c' :=
  destruct (decide (c = c')) as [<-|?];
  [rewrite ?fn_lookup_insert in *|rewrite ?fn_lookup_insert_ne in * by done].

Section inv.
Context (ncpu : nat).

(** The cores, their locks and the interrupts. *)
Record Ctl (s : Sys) : Prop := {
  i_core c : pc s c <> Idle -> (c < ncpu)%nat;
  i_mapper c : locks (pc s c) = true -> mapper s = Some c;
  i_range c : match pc s c with MapPages _ _ i => 0 <= i <= STACK_PAGES | UnPages _ fs | Flush _ fs _ => zlen fs <= STACK_PAGES | _ => True end;
  i_pending : pending s = ∅ \/ exists c k fs w, pc s c = Flush k fs (FWait w);
  i_wait c k fs w : pc s c = Flush k fs (FWait w) -> c ∉ pending s /\ acks s + Z.of_nat (size (pending s)) = Z.of_nat ncpu - 1;
  i_ipi c k fs : pc s c = Flush k fs FIpi -> acks s = 0;
  i_shoot c : shootdown s = Some c -> exists k fs ph, pc s c = Flush k fs ph /\ shooting ph = true;
  i_panic : panicked s <> Some AlreadyMapped /\ panicked s <> Some NotMapped;
}.

Record Inv (s : Sys) : Prop := {
  i_ctl :> Ctl s;
  i_slot : one_owner (sowns s);
  i_freed : NoDup (freed (slots s)) /\ 0 <= next (slots s);
  i_frame : one_owner (fowns s);
  i_held c : NoDup (held (pc s c));
  i_pages k i : 0 <= i < STACK_PAGES ->
    is_Some (ptab s !! page k i) <-> k ∈ live s \/ exists c, has_page (pc s c) k i;
  i_local k i e : 0 <= i < STACK_PAGES -> ptab s !! page k i = Some e -> pte_global e = false;
  i_tlb c va e : stack_page_va va -> tlb s c !! va = Some e ->
    (c < ncpu)%nat /\ pte_global e = false /\ (ptab s !! va = Some e \/ exists c', stale s c va e c');
}.

Lemma sys_init_inv s : sys_init s -> Inv s.
Proof.
  intros [Hpg Htlb Hpe Hma Hsh Hsl Hli Hfr Hpc Hpn]. split; [split|..].
  1-3: intros c; rewrite ?Hpc; done.
  - by left.
  - intros c k fs w H. by rewrite Hpc in H.
  - intros c k fs H. by rewrite Hpc in H.
  - intros c H. by rewrite Hsh in H.
  - by rewrite Hpn.
  - intros [| | |c] [| | |c'] x; cbn; rewrite ?Hsl, ?Hli, ?Hpc; cbn; first [done|clear; set_solver].
  - rewrite Hsl. cbn. split; [constructor|lia].
  - intros o o' x. destruct o as [| |va|c], o' as [| |va'|c']; cbn; rewrite ?Hpc; cbn; try first [done|clear -Hfr; set_solver].
    all: intros H1 H2; repeat match goal with H : stack_page_va _ /\ _ |- _ => destruct H as ((?&?&?&->)&?&Hl&?); by rewrite Hpg in Hl end.
  - intros c. rewrite Hpc. constructor.
  - intros k i Hi. rewrite Hpg, Hli by done. split; [by intros []|]. intros [?|[c Hc]]; [set_solver|by rewrite Hpc in Hc].
  - intros k i e Hi He. by rewrite Hpg in He.
  - intros c va e (k&i&Hi&->) He. apply Htlb in He. by rewrite Hpg in He.
Qed.

(** *** Who holds MAPPER *)

Lemma locks_unique s c c' : Inv s -> locks (pc s c) = true -> locks (pc s c') = true -> c = c'.
Proof. intros H H1 H2. apply (i_mapper s H) in H1, H2. congruence. Qed.

Lemma unmapping_locks p k fs : unmapping p = Some (k, fs) -> locks p = true.
Proof. by destruct p. Qed.

Lemma stale_lock s c va e c' : stale s c va e c' -> locks (pc s c') = true.
Proof. intros (k&fs&i&Hu&_). by eapply unmapping_locks. Qed.

(** A core that has no part in it can move. *)
Lemma stale_frame s s' c va e c' :
  stale s c va e c' -> pc s' c' = pc s c' -> (pending s ⊆ pending s') -> stale s' c va e c'.
Proof.
  intros (k&fs&i&Hu&Hva&Hf&Hne&Hl) Hpc Hpe. exists k, fs, i. rewrite Hpc. split_and!; try done. split; [done|].
  rewrite Hpc. destruct (pc s c'); try done. destruct ph; try done. by apply Hpe.
Qed.

(** The unmapping goes on. *)
Lemma stale_phase s s' c va e c' :
  unmapping (pc s' c') = unmapping (pc s c') ->
  (c <> c' -> lags (pc s c') (pending s) c -> lags (pc s' c') (pending s') c) -> stale s c va e c' -> stale s' c va e c'.
Proof. intros Hu Hm (k&fs&i&Hu'&Hva&Hf&Hne&Hl). exists k, fs, i. rewrite Hu. split_and!; try done. split; [done|by apply Hm]. Qed.

Lemma lock_other s c c' : Inv s -> locks (pc s c) = true -> c <> c' -> locks (pc s c') = false.
Proof. intros H Hc Hne. destruct (locks (pc s c')) eqn:E; [|done]. by apply (locks_unique s c c' H Hc) in E. Qed.

Lemma flush_other s c c' k fs ph : Inv s -> locks (pc s c) = true -> c <> c' -> pc s c' = Flush k fs ph -> False.
Proof. intros H Hc Hne Hf. pose proof (lock_other s c c' H Hc Hne) as E. by rewrite Hf in E. Qed.

(** *** Steps of the shootdown: only the phase of one core changes *)

Record phase_step (s s' : Sys) (c : nat) (p' : Pc) : Prop := {
  ph_ptab : ptab s' = ptab s; ph_tlb : tlb s' = tlb s; ph_mapper : mapper s' = mapper s; ph_slots : slots s' = slots s;
  ph_live : live s' = live s; ph_pool : pool s' = pool s; ph_other : other s' = other s; ph_panic : panicked s' = panicked s;
  ph_pc : pc s' = <[c := p']> (pc s);
  ph_locks : locks (pc s c) = true; ph_locks' : locks p' = true;
  ph_slot : slot_of p' = slot_of (pc s c); ph_held : held p' = held (pc s c);
  ph_has k i : 0 <= i < STACK_PAGES -> has_page p' k i <-> has_page (pc s c) k i;
  ph_range : match p' with MapPages _ _ i => 0 <= i <= STACK_PAGES | UnPages _ fs | Flush _ fs _ => zlen fs <= STACK_PAGES | _ => True end;
  ph_stale c1 va e : (c1 < ncpu)%nat -> stale s c1 va e c -> stale s' c1 va e c;
  ph_pending : pending s' = ∅ \/ exists k fs w, p' = Flush k fs (FWait w);
  ph_wait k fs w : p' = Flush k fs (FWait w) -> c ∉ pending s' /\ acks s' + Z.of_nat (size (pending s')) = Z.of_nat ncpu - 1;
  ph_ipi k fs : p' = Flush k fs FIpi -> acks s' = 0;
  ph_shoot c1 : shootdown s' = Some c1 -> c1 = c /\ exists k fs ph, p' = Flush k fs ph /\ shooting ph = true;
}.

Lemma phase_ctl s s' c p' : Inv s -> (c < ncpu)%nat -> phase_step s s' c p' -> Ctl s'.
Proof.
  intros H Hc []. pose proof (fun c' => flush_other s c c') as Hfo. split.
  - intros c'. rewrite ph_pc0. case_core c c'; [done|apply (i_core s H)].
  - intros c'. rewrite ph_pc0, ph_mapper0. case_core c c'; [intros _; by apply (i_mapper s H)|apply (i_mapper s H)].
  - intros c'. rewrite ph_pc0. case_core c c'; [done|apply (i_range s H)].
  - destruct ph_pending0 as [Hn|(k&fs&w&Hw)]; [by left|]. right. exists c, k, fs, w. by rewrite ph_pc0, fn_lookup_insert.
  - intros c' k fs w. rewrite ph_pc0. case_core c c'; [apply ph_wait0|]. intros Hf. by edestruct Hfo.
  - intros c' k fs. rewrite ph_pc0. case_core c c'; [apply ph_ipi0|]. intros Hf. by edestruct Hfo.
  - intros c' Hs. destruct (ph_shoot0 c' Hs) as [-> ?]. by rewrite ph_pc0, fn_lookup_insert.
  - rewrite ph_panic0. apply (i_panic s H).
Qed.

Lemma phase_inv s s' c p' : Inv s -> (c < ncpu)%nat -> phase_step s s' c p' -> Inv s'.
Proof.
  intros H Hc Hph. pose proof (phase_ctl s s' c p' H Hc Hph) as Hctl. destruct Hph.
  pose proof (fun c' => lock_other s c c' H ph_locks0) as Hlo. split; [done|..].
  - apply (one_owner_sub (sowns s)); [apply (i_slot s H)|]. intros [| | |c'] x; cbn; rewrite ?ph_slots0, ?ph_live0; [done..|].
    rewrite ph_pc0. case_core c c'; [by rewrite ph_slot0|done].
  - rewrite ph_slots0. apply (i_freed s H).
  - apply (one_owner_sub (fowns s)); [apply (i_frame s H)|]. intros [| |va|c'] x; cbn; rewrite ?ph_pool0, ?ph_other0, ?ph_ptab0; [done..|].
    rewrite ph_pc0. case_core c c'; [by rewrite ph_held0|done].
  - intros c'. rewrite ph_pc0. case_core c c'; [rewrite ph_held0|]; apply (i_held s H).
  - intros k i Hi. rewrite ph_ptab0, ph_live0, (i_pages s H) by done. f_equiv. split; intros [c' Hc']; exists c'; revert Hc'; rewrite ph_pc0;
      case_core c c'; try done; by rewrite ph_has0.
  - intros k i e. rewrite ph_ptab0. apply (i_local s H).
  - intros c1 va e Hva. rewrite ph_tlb0, ph_ptab0. intros He. destruct (i_tlb s H c1 va e Hva He) as (Hc1 & Hg & [Ht|[c' Hst]]); (split_and!; [done..|]); [by left|].
    right. exists c'. destruct (decide (c = c')) as [<-|Hne]; [by apply ph_stale0|].
    apply stale_lock in Hst. by rewrite (Hlo c' Hne) in Hst.
Qed.

Definition waiting (p : Pc) : bool := match p with Flush _ _ (FWait _) => true | _ => false end.

Lemma no_pending s c : Inv s -> locks (pc s c) = true -> waiting (pc s c) = false -> pending s = ∅.
Proof.
  intros H Hl Hw. destruct (i_pending s H) as [|(c'&k&fs&w&Hc')]; [done|]. exfalso.
  assert (c = c') as <- by (apply (locks_unique s c c' H Hl); by rewrite Hc'). by rewrite Hc' in Hw.
Qed.

Lemma shoot_holder s c c' : Inv s -> locks (pc s c) = true -> shootdown s = Some c' -> c' = c.
Proof.
  intros H Hl Hs. destruct (i_shoot s H c' Hs) as (k&fs&ph&Hc'&_). symmetry. apply (locks_unique s c c' H Hl). by rewrite Hc'.
Qed.

Lemma panic_inv s w : Inv s -> w <> AlreadyMapped -> w <> NotMapped -> Inv (sys_panic w s).
Proof. intros [[]] H1 H2. split; [split|..]; try assumption. cbn. split; congruence. Qed.

Lemma size_others c : (c < ncpu)%nat -> Z.of_nat (size (all_cores ncpu ∖ {[c]})) = Z.of_nat ncpu - 1.
Proof.
  intros Hc. unfold all_cores. rewrite size_difference by (intros x ->%elem_of_singleton; apply elem_of_list_to_set, elem_of_seq; lia).
  rewrite size_singleton, size_list_to_set by apply NoDup_seq. rewrite length_seq. lia.
Qed.

(** What stays the same when only the phase moves on. *)
Ltac phase Hpc := split; cbn; rewrite ?Hpc; cbn; try done.

Lemma flush_step_inv s s' c k fs ph :
  Inv s -> (c < ncpu)%nat -> pc s c = Flush k fs ph -> flush_step ncpu c k fs ph s = Some s' -> Inv s'.
Proof.
  intros H Hc Hpc Hst. assert (locks (pc s c) = true) as Hl by (by rewrite Hpc).
  assert (forall c1, shootdown s = Some c1 -> c1 = c) as Hsh by (intros c1; by apply shoot_holder).
  pose proof (i_range s H c) as Hr. rewrite Hpc in Hr.
  assert (ph = FEnter \/ ph = FLock -> shootdown s = None) as Hns.
  { intros Hph. destruct (shootdown s) as [c1|] eqn:E; [|done]. pose proof (Hsh c1 eq_refl) as ->.
    destruct (i_shoot s H c E) as (?&?&ph'&Hp&Hsn). rewrite Hpc in Hp. injection Hp as <- <- <-. by destruct Hph as [-> | ->]. }
  assert (waiting (pc s c) = false -> pending s = ∅) as Hnp by (by apply no_pending).
  destruct ph; cbn in Hst.
  - case_bool_decide; injection Hst as <-.
    + apply (phase_inv s _ c (UnFree k fs) H Hc). phase Hpc.
      * intros c1 va e Hc1 (?&?&?&_&_&_&Hne&_). lia.
      * left. apply Hnp. by rewrite Hpc.
      * by rewrite Hns by auto.
    + apply (phase_inv s _ c (Flush k fs FLock) H Hc). phase Hpc.
      * intros c1 va e _. apply stale_phase; cbn; by rewrite ?fn_lookup_insert, ?Hpc.
      * left. apply Hnp. by rewrite Hpc.
      * by rewrite Hns by auto.
  - rewrite Hns in Hst by auto. injection Hst as <-. apply (phase_inv s _ c (Flush k fs FReset) H Hc). phase Hpc.
    + intros c1 va e _. apply stale_phase; cbn; by rewrite ?fn_lookup_insert, ?Hpc.
    + left. apply Hnp. by rewrite Hpc.
    + intros c1 [= <-]. split; [done|]. by eexists _, _, _.
  - injection Hst as <-. apply (phase_inv s _ c (Flush k fs FIpi) H Hc). phase Hpc.
    + intros c1 va e _. apply stale_phase; cbn; by rewrite ?fn_lookup_insert, ?Hpc.
    + left. apply Hnp. by rewrite Hpc.
    + intros c1 Hs. split; [by apply Hsh|]. by eexists _, _, _.
  - injection Hst as <-. assert (pending s = ∅) as Hp0 by (apply Hnp; by rewrite Hpc).
    apply (phase_inv s _ c (Flush k fs (FWait 0)) H Hc). phase Hpc.
    + intros c1 va e Hc1. apply stale_phase; cbn; rewrite ?fn_lookup_insert, ?Hpc; try done.
      rewrite Hp0. intros Hne _. apply elem_of_union_r, elem_of_difference. split; [apply elem_of_list_to_set, elem_of_seq; lia|].
      by rewrite elem_of_singleton.
    + right. by eexists _, _, _.
    + intros k' fs' w _. rewrite Hp0, (union_empty_l_L _), size_others by done. split; [|rewrite (i_ipi s H c k fs Hpc); lia].
      set_solver.
    + intros c1 Hs. split; [by apply Hsh|]. by eexists _, _, _.
  - destruct (i_wait s H c k fs _ Hpc) as [Hnin Hacks]. case_bool_decide.
    + case_bool_decide; injection Hst as <-; [by apply panic_inv|].
      apply (phase_inv s _ c (Flush k fs (FWait (spins + 1))) H Hc). phase Hpc.
      * intros c1 va e _. apply stale_phase; cbn; by rewrite ?fn_lookup_insert, ?Hpc.
      * right. by eexists _, _, _.
      * intros c1 Hs. split; [by apply Hsh|]. by eexists _, _, _.
    + injection Hst as <-. assert (pending s = ∅) as Hp0 by (apply leibniz_equiv, size_empty_iff; lia).
      apply (phase_inv s _ c (Flush k fs FUnlock) H Hc). phase Hpc.
      * intros c1 va e _ (?&?&?&_&_&_&Hne&Hl'). rewrite Hpc, Hp0 in Hl'. set_solver.
      * by left.
      * intros c1 Hs. split; [by apply Hsh|]. by eexists _, _, _.
  - injection Hst as <-. apply (phase_inv s _ c (UnFree k fs) H Hc). phase Hpc.
    + intros c1 va e _ (?&?&?&_&_&_&Hne&Hl'). by rewrite Hpc in Hl'.
    + left. apply Hnp. by rewrite Hpc.
Qed.

(** *** Taking MAPPER *)

Lemma unlocked s c : Inv s -> mapper s = None -> locks (pc s c) = false.
Proof. intros H Hm. destruct (locks (pc s c)) eqn:E; [|done]. apply (i_mapper s H) in E. congruence. Qed.

(** A core outside the shootdown moves. *)
Definition is_flush (p : Pc) : bool := match p with Flush _ _ _ => true | _ => false end.

Lemma move_ctl s s' c p' : Inv s -> (c < ncpu)%nat ->
  acks s' = acks s -> pending s' = pending s -> shootdown s' = shootdown s -> panicked s' = panicked s -> pc s' = <[c := p']> (pc s) ->
  is_flush (pc s c) = false -> is_flush p' = false -> (locks p' = true -> mapper s' = Some c) ->
  (forall c', c <> c' -> locks (pc s c') = true -> mapper s' = Some c') ->
  match p' with MapPages _ _ i => 0 <= i <= STACK_PAGES | UnPages _ fs => zlen fs <= STACK_PAGES | _ => True end -> Ctl s'.
Proof.
  intros H Hc Hac Hpe Hsh Hpn Hpc Hf Hf' Hl Hlo Hr. split.
  - intros c'. rewrite Hpc. case_core c c'; [done|apply (i_core s H)].
  - intros c'. rewrite Hpc. case_core c c'; [done|by apply Hlo].
  - intros c'. rewrite Hpc. case_core c c'; [by destruct p'|apply (i_range s H)].
  - rewrite Hpe. destruct (i_pending s H) as [|(c'&k&fs&w&E)]; [by left|]. right. exists c', k, fs, w. rewrite Hpc.
    case_core c c'; [by rewrite E in Hf|done].
  - intros c' k fs w. rewrite Hpc, Hac, Hpe. case_core c c'; [by intros ->|apply (i_wait s H)].
  - intros c' k fs. rewrite Hpc, Hac. case_core c c'; [by intros ->|apply (i_ipi s H)].
  - intros c'. rewrite Hsh. intros (k&fs&ph&E&?)%(i_shoot s H). rewrite Hpc. case_core c c'; [by rewrite E in Hf|eauto].
  - rewrite Hpn. apply (i_panic s H).
Qed.

Lemma lock_inv s c p' : Inv s -> (c < ncpu)%nat -> mapper s = None ->
  slot_of p' = slot_of (pc s c) -> held p' = held (pc s c) ->
  (forall k i, 0 <= i < STACK_PAGES -> has_page p' k i <-> has_page (pc s c) k i) ->
  match p' with MapPages _ _ i => i = 0 | UnPages _ fs => fs = [] | _ => False end ->
  Inv (set_pc c p' (set_mapper (Some c) s)).
Proof.
  intros H Hc Hm Hsl Hh Hhas Hp'. pose proof (fun c' => unlocked s c' H Hm) as Hlo. split; cbn.
  - apply (move_ctl s _ c p'); try done.
    + specialize (Hlo c). by destruct (pc s c).
    + by destruct p'.
    + intros c' _. by rewrite Hlo.
    + destruct p'; try done; subst; unfold STACK_PAGES, zlen; cbn; lia.
  - apply (one_owner_sub (sowns s)); [apply (i_slot s H)|]. intros [| | |c'] x; cbn; [done..|]. case_core c c'; [by rewrite Hsl|done].
  - apply (i_freed s H).
  - apply (one_owner_sub (fowns s)); [apply (i_frame s H)|]. intros [| |va|c'] x; cbn; [done..|]. case_core c c'; [by rewrite Hh|done].
  - intros c'. case_core c c'; [rewrite Hh|]; apply (i_held s H).
  - intros k i Hi. rewrite (i_pages s H) by done. f_equiv. split; intros [c' Hc']; exists c'; revert Hc';
      case_core c c'; try done; by rewrite Hhas.
  - apply (i_local s H).
  - intros c1 va e Hva He. destruct (i_tlb s H c1 va e Hva He) as (Hc1 & Hg & [Ht|[c' Hst]]); (split_and!; [done..|]); [by left|].
    apply stale_lock in Hst. by rewrite Hlo in Hst.
Qed.

(** *** Mapping a page *)

Lemma page_inj k i k' i' : 0 <= i < STACK_PAGES -> 0 <= i' < STACK_PAGES -> page k i = page k' i' -> k = k' /\ i = i'.
Proof. apply stack_addr_inj. Qed.

Lemma page_stack k i : 0 <= i < STACK_PAGES -> stack_page_va (page k i).
Proof. intros Hi. by exists k, i. Qed.

Lemma span_from_cons span i : i < STACK_PAGES -> span_from span i = frame_at span i :: span_from span (i + 1).
Proof.
  intros Hi. unfold span_from. rewrite seqZ_cons by lia. cbn.
  by replace (STACK_PAGES - (i + 1)) with (Z.pred (STACK_PAGES - i)) by lia.
Qed.

Lemma span_from_nil span : span_from span STACK_PAGES = [].
Proof. unfold span_from. by rewrite Z.sub_diag. Qed.

Lemma span_nodup span i : NoDup (span_from span i).
Proof. unfold span_from. apply (NoDup_fmap_2_strong _); [intros x y _ _; unfold frame_at; lia|apply NoDup_seqZ]. Qed.

(** While a core maps, nothing is stale. *)
Lemma nothing_stale s c c1 va e c' : Inv s -> locks (pc s c) = true -> unmapping (pc s c) = None -> stale s c1 va e c' -> False.
Proof.
  intros H Hl Hu Hst. pose proof (stale_lock _ _ _ _ _ Hst) as Hl'. destruct (locks_unique s c c' H Hl Hl').
  destruct Hst as (?&?&?&E&_). congruence.
Qed.

(** A core that holds MAPPER and keeps it moves. *)
Lemma hold_ctl s s' c p' : Inv s -> (c < ncpu)%nat ->
  acks s' = acks s -> pending s' = pending s -> shootdown s' = shootdown s -> panicked s' = panicked s -> pc s' = <[c := p']> (pc s) ->
  mapper s' = mapper s -> locks (pc s c) = true -> is_flush (pc s c) = false -> is_flush p' = false ->
  match p' with MapPages _ _ i => 0 <= i <= STACK_PAGES | UnPages _ fs => zlen fs <= STACK_PAGES | _ => True end -> Ctl s'.
Proof.
  intros H Hc ????? Hm Hl ???. apply (move_ctl s s' c p'); try done; rewrite Hm.
  - intros _. by apply (i_mapper s H).
  - intros c' _. apply (i_mapper s H).
Qed.

Lemma map_page_inv s c k span i : Inv s -> (c < ncpu)%nat -> pc s c = MapPages k span i -> i < STACK_PAGES ->
  ptab s !! page k i = None ->
  Inv (set_pc c (MapPages k span (i + 1)) (invlpg c (page k i)
        (set_ptab (<[page k i := {| pte_frame := frame_at span i; pte_global := false |}]> (ptab s)) s))).
Proof.
  intros H Hc Hpc Hi Hn. assert (locks (pc s c) = true) as Hl by (by rewrite Hpc).
  pose proof (i_range s H c) as Hr. rewrite Hpc in Hr. assert (0 <= i < STACK_PAGES) as Hi' by lia. split; cbn.
  - eapply (hold_ctl s _ c); try done; rewrite ?Hpc; cbn; [done|lia].
  - apply (one_owner_sub (sowns s)); [apply (i_slot s H)|]. intros [| | |c'] x; cbn; [done..|]. case_core c c'; [by rewrite Hpc|done].
  - apply (i_freed s H).
  - pose proof (i_held s H c) as Hnd. rewrite Hpc in Hnd. cbn in Hnd. rewrite span_from_cons, NoDup_cons in Hnd by done.
    apply (one_owner_take (fowns s) _ (frame_at span i) (OHeld c) (OPage (page k i)) (i_frame s H)).
    { cbn. rewrite Hpc. cbn. rewrite span_from_cons by done. by left. }
    intros [| |va|c'] f; cbn; [by right..| |].
    + intros (Hva & e & He & <-). destruct (decide (va = page k i)) as [-> |Hne].
      { rewrite lookup_insert_eq in He. injection He as <-. by left. }
      rewrite lookup_insert_ne in He by done. right. split; [by eauto|done].
    + case_core c c'; cbn; [|right; split; congruence]. intros Hf. right. rewrite Hpc. cbn. rewrite span_from_cons by done.
      split; [by right|]. intros ->. by destruct Hnd.
  - intros c'. case_core c c'; [apply span_nodup|apply (i_held s H)].
  - intros k' i' Hi1. destruct (decide (page k i = page k' i')) as [E|E].
    + apply page_inj in E as [<- <-]; [|done..]. rewrite lookup_insert_eq. split; [|by eexists].
      intros _. right. exists c. rewrite fn_lookup_insert. cbn. lia.
    + rewrite lookup_insert_ne, (i_pages s H) by done. f_equiv. split; intros [c' Hc']; exists c'; revert Hc'; case_core c c'; try done.
      * rewrite Hpc. cbn. lia.
      * rewrite Hpc. cbn. intros [<- Hle]. split; [done|]. assert (i' <> i) by (by intros ->). lia.
  - intros k' i' e Hi1. destruct (decide (page k i = page k' i')) as [E|E].
    + rewrite <- E, lookup_insert_eq. by intros [= <-].
    + rewrite lookup_insert_ne by done. by apply (i_local s H).
  - intros c1 va e Hva He. assert (tlb s c1 !! va = Some e) as He0 by (revert He; case_core c c1; [by intros [_ ?]%lookup_delete_Some|done]).
    destruct (i_tlb s H c1 va e Hva He0) as (Hc1 & Hg & [Ht|[c' Hst]]).
    + split_and!; [done..|]. left. rewrite lookup_insert_ne; [done|]. intros <-. congruence.
    + exfalso. eapply (nothing_stale s c); eauto. by rewrite Hpc.
Qed.

(** The stack is complete. *)
Lemma map_end_inv s c k span i : Inv s -> (c < ncpu)%nat -> pc s c = MapPages k span i -> STACK_PAGES <= i ->
  Inv (set_pc c Idle (set_mapper None (set_slots_live (slots s) (live s ∪ {[k]}) s))).
Proof.
  intros H Hc Hpc Hi. assert (locks (pc s c) = true) as Hl by (by rewrite Hpc).
  pose proof (i_range s H c) as Hr. rewrite Hpc in Hr. split; cbn.
  - eapply (move_ctl s _ c Idle); try done; [by rewrite Hpc|]. intros c' Hne Hl'. by destruct (locks_unique s c c' H Hl Hl').
  - apply (one_owner_take (sowns s) _ k (SCore c) SLive (i_slot s H)); [cbn; by rewrite Hpc|].
    intros [| | |c'] x; cbn; [by right..| |case_core c c'; [done|right; split; congruence]].
    rewrite elem_of_union, elem_of_singleton. intros [?| ->]; [by right|by left].
  - apply (i_freed s H).
  - apply (one_owner_sub (fowns s)); [apply (i_frame s H)|]. intros [| |va|c'] x; cbn; [done..|]. case_core c c'; [set_solver|done].
  - intros c'. case_core c c'; [constructor|apply (i_held s H)].
  - intros k' i' Hi1. rewrite (i_pages s H), elem_of_union, elem_of_singleton by done. split.
    + intros [?|[c' Hc']]; [by auto|]. case_core c c'; [rewrite Hpc in Hc'; cbn in Hc'; naive_solver|].
      right. exists c'. by rewrite fn_lookup_insert_ne.
    + intros [[?| ->]|[c' Hc']]; [by left|right; exists c; rewrite Hpc; cbn; lia|]. case_core c c'; [done|eauto].
  - apply (i_local s H).
  - intros c1 va e Hva He. destruct (i_tlb s H c1 va e Hva He) as (Hc1 & Hg & [Ht|[c' Hst]]); (split_and!; [done..|]); [by left|].
    exfalso. eapply (nothing_stale s c); eauto. by rewrite Hpc.
Qed.

(** *** Unmapping a page *)

Lemma unmap_page_inv s c k fs e : Inv s -> (c < ncpu)%nat -> pc s c = UnPages k fs -> zlen fs < STACK_PAGES ->
  ptab s !! page k (zlen fs) = Some e ->
  Inv (set_pc c (UnPages k (fs ++ [pte_frame e])) (invlpg c (page k (zlen fs)) (set_ptab (delete (page k (zlen fs)) (ptab s)) s))).
Proof.
  intros H Hc Hpc Hi He0. assert (locks (pc s c) = true) as Hl by (by rewrite Hpc). pose proof (zlen_nonneg fs) as Hz.
  assert (0 <= zlen fs < STACK_PAGES) as Hi' by lia. assert (zlen (fs ++ [pte_frame e]) = zlen fs + 1) as Hlen by (rewrite zlen_app; done).
  assert (fowns s (OPage (page k (zlen fs))) (pte_frame e)) as Hown by (split; [by apply page_stack|eauto]). split; cbn.
  - eapply (hold_ctl s _ c); try done; rewrite ?Hpc; cbn; [done|lia].
  - apply (one_owner_sub (sowns s)); [apply (i_slot s H)|]. intros [| | |c'] x; cbn; [done..|]. case_core c c'; [by rewrite Hpc|done].
  - apply (i_freed s H).
  - apply (one_owner_take (fowns s) _ _ _ (OHeld c) (i_frame s H) Hown). intros [| |va|c'] f; cbn; [by right..| |].
    + intros (Hva & e1 & [Hne He1]%lookup_delete_Some & Hf). right. split; [by eauto|congruence].
    + case_core c c'; cbn; [|by right]. rewrite elem_of_app, list_elem_of_singleton, Hpc. intros [?| ->]; [by right|by left].
  - intros c'. case_core c c'; [|apply (i_held s H)]. cbn. apply NoDup_app. split_and!; [|intros f Hf ->%list_elem_of_singleton|apply NoDup_singleton].
    + pose proof (i_held s H c) as Hnd. by rewrite Hpc in Hnd.
    + by pose proof (i_frame s H (OHeld c) _ _ ltac:(cbn; rewrite Hpc; exact Hf) Hown).
  - intros k' i' Hi1. destruct (decide (page k (zlen fs) = page k' i')) as [E|E].
    + apply page_inj in E as [<- <-]; [|done..]. rewrite lookup_delete_eq. split; [by intros []|].
      intros Hcase. exfalso. pose proof (i_slot s H) as Hu. destruct Hcase as [Hlv|[c' Hc']].
      { by pose proof (Hu SLive (SCore c) k Hlv ltac:(cbn; by rewrite Hpc)). }
      case_core c c'; [cbn in Hc'; lia|].
      assert (slot_of (pc s c') = Some k) as Hs' by (destruct (pc s c'); cbn in *; naive_solver).
      pose proof (Hu (SCore c') (SCore c) k Hs' ltac:(cbn; by rewrite Hpc)). congruence.
    + rewrite lookup_delete_ne, (i_pages s H) by done. f_equiv. split; intros [c' Hc']; exists c'; revert Hc'; case_core c c'; try done.
      * rewrite Hpc. cbn. intros [<- Hle]. split; [done|]. assert (i' <> zlen fs) by (by intros ->). lia.
      * rewrite Hpc. cbn. lia.
  - intros k' i' e1 Hi1 [_ ?]%lookup_delete_Some. by eapply (i_local s H).
  - intros c1 va e1 Hva Htl. assert (tlb s c1 !! va = Some e1 /\ (c1 = c -> va <> page k (zlen fs))) as [Htl0 Hself].
    { revert Htl. case_core c c1; [intros [? ?]%lookup_delete_Some; naive_solver|]. intros ?. split; congruence. }
    destruct (i_tlb s H c1 va e1 Hva Htl0) as (Hc1 & Hg & [Ht|[c' Hst]]); (split_and!; [done..|]).
    + destruct (decide (va = page k (zlen fs))) as [-> |Hne]; [|left; by rewrite lookup_delete_ne].
      right. exists c, k, (fs ++ [pte_frame e]), (zlen fs). cbn. rewrite fn_lookup_insert. split_and!; try done.
      * rewrite lookupz_app_r. congruence.
      * split; [naive_solver|]. cbn. by rewrite fn_lookup_insert.
    + right. exists c'. pose proof (locks_unique s c c' H Hl (stale_lock _ _ _ _ _ Hst)) as <-.
      destruct Hst as (k1&fs1&i1&Hu&Hva1&Hf&Hne&_). rewrite Hpc in Hu. injection Hu as <- <-. exists k, (fs ++ [pte_frame e]), i1. cbn.
      rewrite fn_lookup_insert. split_and!; try done.
      * rewrite lookupz_app_l; [done|]. apply lookupz_range in Hf. lia.
      * split; [done|]. cbn. by rewrite fn_lookup_insert.
Qed.

Lemma unmap_round_inv s c k fs : Inv s -> (c < ncpu)%nat -> pc s c = UnPages k fs -> Inv (unmap_round c k fs s).
Proof.
  intros H Hc Hpc. unfold unmap_round. pose proof (zlen_nonneg fs). pose proof (i_range s H c) as Hr. rewrite Hpc in Hr. case_bool_decide.
  - destruct (ptab s !! page k (zlen fs)) as [e|] eqn:He; [by apply unmap_page_inv|]. exfalso.
    assert (is_Some (ptab s !! page k (zlen fs))) as [? ?]; [|congruence].
    apply (i_pages s H); [lia|]. right. exists c. rewrite Hpc. cbn. lia.
  - assert (locks (pc s c) = true) as Hl by (by rewrite Hpc).
    apply (phase_inv s _ c (Flush k fs FEnter) H Hc). phase Hpc.
    + cbn. lia.
    + intros c1 va e _. apply stale_phase; cbn; by rewrite ?fn_lookup_insert, ?Hpc.
    + left. apply (no_pending s c H Hl). by rewrite Hpc.
    + intros c1 Hs. pose proof (shoot_holder s c c1 H Hl Hs) as ->.
      destruct (i_shoot s H c Hs) as (?&?&?&E&_). congruence.
Qed.

(** *** Freeing *)

Lemma free_round_inv s c k fs : Inv s -> (c < ncpu)%nat -> pc s c = UnFree k fs -> Inv (free_round c k fs s).
Proof.
  intros H Hc Hpc. assert (locks (pc s c) = true) as Hl by (by rewrite Hpc). destruct fs as [|f fs]; cbn [free_round].
  - apply (phase_inv s _ c (UnPush k) H Hc). phase Hpc.
    + intros c1 va e _ Hst. edestruct (nothing_stale s c); eauto. by rewrite Hpc.
    + left. apply (no_pending s c H Hl). by rewrite Hpc.
    + intros c1 Hs. pose proof (shoot_holder s c c1 H Hl Hs) as ->. destruct (i_shoot s H c Hs) as (?&?&?&E&_). congruence.
  - pose proof (i_held s H c) as Hnd. rewrite Hpc in Hnd. cbn in Hnd. apply NoDup_cons in Hnd as [Hnin Hnd]. split; cbn.
    + eapply (hold_ctl s _ c); try done; by rewrite Hpc.
    + apply (one_owner_sub (sowns s)); [apply (i_slot s H)|]. intros [| | |c'] x; cbn; [done..|]. case_core c c'; [by rewrite Hpc|done].
    + apply (i_freed s H).
    + apply (one_owner_take (fowns s) _ f (OHeld c) OPool (i_frame s H)); [cbn; rewrite Hpc; by left|].
      intros [| |va|c'] x; cbn; [|by right..|].
      * rewrite elem_of_union, elem_of_singleton. intros [?| ->]; [by right|by left].
      * case_core c c'; cbn; [|right; split; congruence]. intros Hx. right. rewrite Hpc. split; [by right|]. by intros ->.
    + intros c'. case_core c c'; [done|apply (i_held s H)].
    + intros k' i' Hi1. rewrite (i_pages s H) by done. f_equiv. split; intros [c' Hc']; exists c'; revert Hc'; case_core c c'; try done; by rewrite Hpc.
    + apply (i_local s H).
    + intros c1 va e Hva He. destruct (i_tlb s H c1 va e Hva He) as (Hc1 & Hg & [Ht|[c' Hst]]); (split_and!; [done..|]); [by left|].
      edestruct (nothing_stale s c); eauto. by rewrite Hpc.
Qed.

Lemma push_slot_inv s c k : Inv s -> (c < ncpu)%nat -> pc s c = UnPush k -> Inv (push_slot c k s).
Proof.
  intros H Hc Hpc. assert (locks (pc s c) = true) as Hl by (by rewrite Hpc).
  assert (sowns s (SCore c) k) as Hown by (cbn; by rewrite Hpc). split; cbn.
  - eapply (move_ctl s _ c Idle); try done; [by rewrite Hpc|]. intros c' Hne Hl'. by destruct (locks_unique s c c' H Hl Hl').
  - apply (one_owner_take (sowns s) _ k (SCore c) SFreed (i_slot s H) Hown).
    intros [| | |c'] x; cbn; [|by right..|case_core c c'; [done|right; split; congruence]].
    rewrite elem_of_app, list_elem_of_singleton. intros [?| ->]; [by right|by left].
  - destruct (i_freed s H) as [Hnd Hn]. split; [|done]. apply NoDup_app. split_and!; [done|intros x Hx ->%list_elem_of_singleton|apply NoDup_singleton].
    by pose proof (i_slot s H SFreed (SCore c) k Hx Hown).
  - apply (one_owner_sub (fowns s)); [apply (i_frame s H)|]. intros [| |va|c'] x; cbn; [done..|]. case_core c c'; [set_solver|done].
  - intros c'. case_core c c'; [constructor|apply (i_held s H)].
  - intros k' i' Hi1. rewrite (i_pages s H) by done. f_equiv. split; intros [c' Hc']; exists c'; revert Hc'; case_core c c'; try done; by rewrite Hpc.
  - apply (i_local s H).
  - intros c1 va e Hva He. destruct (i_tlb s H c1 va e Hva He) as (Hc1 & Hg & [Ht|[c' Hst]]); (split_and!; [done..|]); [by left|].
    edestruct (nothing_stale s c); eauto. by rewrite Hpc.
Qed.

(** *** Steps outside MAPPER *)

(** A core that does not hold MAPPER moves without taking it. *)
Lemma free_move_ctl s s' c p' : Inv s -> (c < ncpu)%nat ->
  acks s' = acks s -> pending s' = pending s -> shootdown s' = shootdown s -> panicked s' = panicked s -> pc s' = <[c := p']> (pc s) ->
  mapper s' = mapper s -> locks (pc s c) = false -> locks p' = false -> Ctl s'.
Proof.
  intros H Hc ????? Hm Hl Hl'. apply (move_ctl s s' c p'); try done.
  - by destruct (pc s c).
  - by destruct p'.
  - by rewrite Hl'.
  - intros c' _. rewrite Hm. apply (i_mapper s H).
  - by destruct p'.
Qed.

Lemma free_move_tlb s s' c p' : Inv s -> tlb s' = tlb s -> ptab s' = ptab s -> pending s' = pending s -> pc s' = <[c := p']> (pc s) ->
  locks (pc s c) = false -> forall c1 va e, stack_page_va va -> tlb s' c1 !! va = Some e ->
  (c1 < ncpu)%nat /\ pte_global e = false /\ (ptab s' !! va = Some e \/ exists c', stale s' c1 va e c').
Proof.
  intros H Ht Hp Hpe Hpc Hl c1 va e Hva. rewrite Ht, Hp. intros He.
  destruct (i_tlb s H c1 va e Hva He) as (Hc1 & Hg & [Hp'|[c' Hst]]); (split_and!; [done..|]); [by left|]. right. exists c'.
  apply (stale_frame s); [done| |by rewrite Hpe]. rewrite Hpc. apply fn_lookup_insert_ne. intros <-.
  apply stale_lock in Hst. congruence.
Qed.

(** The slot handed out was free or fresh, and is neither any more. *)
Lemma slot_alloc_owner s a r : Inv s -> slot_alloc (slots s) = (r, a) ->
  NoDup (freed a) /\ 0 <= next a /\ (forall x, x ∈ freed a -> x ∈ freed (slots s)) /\ (forall x, next a <= x -> next (slots s) <= x) /\
  match r with Ok k => (sowns s SFreed k \/ sowns s SFresh k) /\ k ∉ freed a /\ k < next a | _ => True end.
Proof.
  intros H Ha. destruct (i_freed s H) as [Hnd Hn]. unfold slot_alloc, get, modify, mbind, M_bind in Ha. cbn in Ha.
  destruct (last (freed (slots s))) as [k|] eqn:El; cbn in Ha.
  - injection Ha as <- <-. apply last_Some in El as (l & E). cbn. rewrite E in Hnd |- *. rewrite removelast_last.
    apply NoDup_app in Hnd as (Hl & Hd & _). split_and!; try done; [set_solver|left; set_solver|..].
    + intros Hin. by destruct (Hd k Hin); left.
    + destruct (decide (k < next (slots s))) as [|Hge]; [done|].
      assert (sowns s SFreed k) as A by (cbn; rewrite E; set_solver). by pose proof (i_slot s H SFreed SFresh k A ltac:(cbn; lia)).
  - apply last_None in El. unfold massert in Ha. case_bool_decide; cbn in Ha; injection Ha as <- <-; cbn; rewrite El.
    + split_and!; [constructor|lia|done|lia|right; lia|set_solver|lia].
    + split_and!; [constructor|lia|done|lia|done].
Qed.

Lemma no_slot_inv s r a : Inv s -> slot_alloc (slots s) = (r, a) -> Inv (sys_panic NoSlot (set_slots_live a (live s) s)).
Proof.
  intros H (Hnd & Hn & Hfr & Hnx & _)%slot_alloc_owner; [|done]. split; [split|..]; try apply H; cbn; try done.
  apply (one_owner_sub (sowns s)); [apply (i_slot s H)|]. intros [| | |c'] x; cbn; auto.
Qed.

Lemma map_start_inv s c : Inv s -> (c < ncpu)%nat -> pc s c = Idle -> Inv (map_start c s).
Proof.
  intros H Hc Hpc. unfold map_start. destruct (slot_alloc (slots s)) as [r a] eqn:Ha.
  destruct r as [k|[]| |]; [|by eapply no_slot_inv..].
  apply slot_alloc_owner in Ha as (Hnd & Hn & Hfr & Hnx & Hown & Hnin & Hlt); [|done].
  assert (locks (pc s c) = false) as Hl by (by rewrite Hpc). split; cbn.
  - by apply (free_move_ctl s _ c (MapAlloc k)).
  - assert (exists o, (o = SFreed \/ o = SFresh) /\ sowns s o k) as (o & Ho & Hok) by (destruct Hown; eauto).
    apply (one_owner_take (sowns s) _ k o (SCore c) (i_slot s H) Hok). intros [| | |c'] x; cbn.
    + intros Hx. right. split; [by apply Hfr|]. by intros ->.
    + intros Hx. right. split; [by apply Hnx|]. intros ->. lia.
    + intros Hx. right. split; [done|]. destruct Ho; congruence.
    + case_core c c'; [intros [= ->]; by left|]. right. split; [done|]. destruct Ho; congruence.
  - done.
  - apply (one_owner_sub (fowns s)); [apply (i_frame s H)|]. intros [| |va|c'] x; cbn; [done..|]. case_core c c'; [set_solver|done].
  - intros c'. case_core c c'; [constructor|apply (i_held s H)].
  - intros k' i' Hi1. rewrite (i_pages s H) by done. f_equiv. split; intros [c' Hc']; exists c'; revert Hc'; case_core c c'; try done; by rewrite Hpc.
  - apply (i_local s H).
  - by apply (free_move_tlb s (set_pc c (MapAlloc k) (set_slots_live a (live s) s)) c (MapAlloc k)).
Qed.

Lemma span_inv s c k span : Inv s -> (c < ncpu)%nat -> pc s c = MapAlloc k -> (forall f, f ∈ span_from span 0 -> f ∈ pool s) ->
  Inv (set_pc c (MapLock k span) (set_frames (pool s ∖ list_to_set (span_from span 0)) (other s) s)).
Proof.
  intros H Hc Hpc Hsp. assert (locks (pc s c) = false) as Hl by (by rewrite Hpc). split; cbn.
  - by apply (free_move_ctl s _ c (MapLock k span)).
  - apply (one_owner_sub (sowns s)); [apply (i_slot s H)|]. intros [| | |c'] x; cbn; [done..|]. case_core c c'; [by rewrite Hpc|done].
  - apply (i_freed s H).
  - apply (one_owner_move (fowns s) _ (fun f => f ∈ span_from span 0) (OHeld c) (i_frame s H));
      [intros x; destruct (decide (x ∈ span_from span 0)); auto|].
    intros o f. assert (f ∈ span_from span 0 -> fowns s o f -> o = OPool) as Hu by (intros Hf Ho; by apply (i_frame s H o OPool f Ho), Hsp).
    destruct o as [| |va|c']; cbn; [|intros Hf; split; [|done]; intros Hs; by discriminate (Hu Hs Hf)..|].
    + rewrite elem_of_difference, elem_of_list_to_set. tauto.
    + case_core c c'; [done|]. intros Hf. split; [|done]. intros Hs. by discriminate (Hu Hs Hf).
  - intros c'. case_core c c'; [apply span_nodup|apply (i_held s H)].
  - intros k' i' Hi1. rewrite (i_pages s H) by done. f_equiv. split; intros [c' Hc']; exists c'; revert Hc'; case_core c c'; try done; by rewrite Hpc.
  - apply (i_local s H).
  - by apply (free_move_tlb s (set_pc c (MapLock k span) (set_frames (pool s ∖ list_to_set (span_from span 0)) (other s) s)) c (MapLock k span)).
Qed.

Lemma unmap_start_inv s c k : Inv s -> (c < ncpu)%nat -> pc s c = Idle -> k ∈ live s ->
  Inv (set_pc c (UnLock k) (set_slots_live (slots s) (live s ∖ {[k]}) s)).
Proof.
  intros H Hc Hpc Hk. assert (locks (pc s c) = false) as Hl by (by rewrite Hpc). split; cbn.
  - by apply (free_move_ctl s _ c (UnLock k)).
  - apply (one_owner_take (sowns s) _ k SLive (SCore c) (i_slot s H) Hk). intros [| | |c'] x; cbn; [by right..| |].
    + rewrite elem_of_difference, elem_of_singleton. intros [? ?]. right. by split.
    + case_core c c'; [intros [= ->]; by left|by right].
  - apply (i_freed s H).
  - apply (one_owner_sub (fowns s)); [apply (i_frame s H)|]. intros [| |va|c'] x; cbn; [done..|]. case_core c c'; [set_solver|done].
  - intros c'. case_core c c'; [constructor|apply (i_held s H)].
  - intros k' i' Hi1. rewrite (i_pages s H), elem_of_difference, elem_of_singleton by done. split.
    + intros [Hlv|[c' Hc']].
      * destruct (decide (k' = k)) as [-> |]; [|by left]. right. exists c. by rewrite fn_lookup_insert.
      * right. exists c'. case_core c c'; [by rewrite Hpc in Hc'|done].
    + intros [[Hlv _]|[c' Hc']]; [by left|]. case_core c c'; [left; by rewrite Hc'|by eauto].
  - apply (i_local s H).
  - by apply (free_move_tlb s (set_pc c (UnLock k) (set_slots_live (slots s) (live s ∖ {[k]}) s)) c (UnLock k)).
Qed.

(** *** The caches, the interrupt and the rest of the kernel *)

Lemma fill_inv s c va e : Inv s -> (c < ncpu)%nat -> ptab s !! va = Some e -> Inv (set_tlb c (<[va := e]> (tlb s c)) s).
Proof.
  intros H Hc He. split; try apply H; [split; apply H|]. cbn. intros c1 va1 e1 Hva. case_core c c1; [|by apply (i_tlb s H)].
  destruct (decide (va = va1)) as [<-|Hne]; [|rewrite lookup_insert_ne by done; by apply (i_tlb s H)].
  rewrite lookup_insert_eq. intros [= <-]. destruct Hva as (k&i&Hi&->). split_and!; [done|by eapply (i_local s H)|by left].
Qed.

Lemma evict_inv s c va : Inv s -> Inv (invlpg c va s).
Proof.
  intros H. split; try apply H; [split; apply H|]. cbn. intros c1 va1 e1 Hva. case_core c c1; [|by apply (i_tlb s H)].
  intros [_ ?]%lookup_delete_Some. by apply (i_tlb s H).
Qed.

Lemma irq_ctl s c : Inv s -> c ∈ pending s -> Ctl (tlb_flush_interrupt c s).
Proof.
  intros H Hp. destruct (i_pending s H) as [E|(c0&k&fs&w&E)]; [set_solver|]. split; try apply H; cbn.
  - right. eauto.
  - intros c' k' fs' w' E'. destruct (i_wait s H c' k' fs' w' E') as [Hn Ha]. split; [set_solver|].
    assert ({[c]} ⊆ pending s) as Hsub by set_solver.
    pose proof (subseteq_size _ _ Hsub) as Hsz. rewrite size_difference, size_singleton in * by done. lia.
  - intros c' k' fs' E'. assert (c' = c0) as -> by (apply (locks_unique s c' c0 H); by rewrite ?E, ?E'). congruence.
Qed.

Lemma irq_inv s c : Inv s -> c ∈ pending s -> Inv (tlb_flush_interrupt c s).
Proof.
  intros H Hp. split; try apply H; [by apply irq_ctl|]. cbn. intros c1 va e Hva. case_core c c1.
  - intros [He Hg]%map_lookup_filter_Some. destruct (i_tlb s H c va e Hva He) as (_ & Hg' & _). cbn in Hg. congruence.
  - intros He. destruct (i_tlb s H c1 va e Hva He) as (Hc1 & Hg & [Ht|[c' Hst]]); (split_and!; [done..|]); [by left|].
    right. exists c'. revert Hst. apply stale_phase; cbn; [done|]. intros _. destruct (pc s c'); try done. destruct ph; try done. cbn. set_solver.
Qed.

Lemma take_inv s f : Inv s -> f ∈ pool s -> Inv (set_frames (pool s ∖ {[f]}) (other s ∪ {[f]}) s).
Proof.
  intros H Hf. split; try apply H; [split; apply H|]. apply (one_owner_take (fowns s) _ f OPool OOther (i_frame s H) Hf).
  intros [| |va|c'] x; cbn; rewrite ?elem_of_union, ?elem_of_difference, ?elem_of_singleton; [naive_solver|naive_solver|by right..].
Qed.

Lemma give_inv s f : Inv s -> f ∈ other s -> Inv (set_frames (pool s ∪ {[f]}) (other s ∖ {[f]}) s).
Proof.
  intros H Hf. split; try apply H; [split; apply H|]. apply (one_owner_take (fowns s) _ f OOther OPool (i_frame s H) Hf).
  intros [| |va|c'] x; cbn; rewrite ?elem_of_union, ?elem_of_difference, ?elem_of_singleton; [naive_solver|naive_solver|by right..].
Qed.

(** *** Every step *)

Lemma map_round_inv s c k span i : Inv s -> (c < ncpu)%nat -> pc s c = MapPages k span i -> Inv (map_round c k span i s).
Proof.
  intros H Hc Hpc. unfold map_round. pose proof (i_range s H c) as Hr. rewrite Hpc in Hr. case_bool_decide; [|eapply map_end_inv; eauto; lia].
  destruct (ptab s !! page k i) as [e|] eqn:He; [|by apply map_page_inv]. exfalso.
  assert (sowns s (SCore c) k) as Hown by (cbn; by rewrite Hpc).
  assert (is_Some (ptab s !! page k i)) as Hs by (by eexists). apply (i_pages s H) in Hs as [Hlv|[c' Hc']]; [| |lia].
  - by pose proof (i_slot s H SLive (SCore c) k Hlv Hown).
  - assert (slot_of (pc s c') = Some k) as Hs' by (destruct (pc s c'); cbn in *; naive_solver).
    pose proof (i_slot s H (SCore c') (SCore c) k Hs' Hown) as [= ->]. rewrite Hpc in Hc'. cbn in Hc'. lia.
Qed.

Lemma core_step_inv s s' c : Inv s -> (c < ncpu)%nat -> core_step ncpu c s = Some s' -> Inv s'.
Proof.
  intros H Hc. unfold core_step. destruct (pc s c) eqn:Hpc; try done.
  - unfold lock_mapper. destruct (mapper s) eqn:Hm; [done|]. intros [= <-]. apply lock_inv; rewrite ?Hpc; try done. cbn. lia.
  - intros [= <-]. by apply map_round_inv.
  - unfold lock_mapper. destruct (mapper s) eqn:Hm; [done|]. intros [= <-]. apply lock_inv; rewrite ?Hpc; try done. cbn. unfold zlen. cbn. lia.
  - intros [= <-]. by apply unmap_round_inv.
  - by apply flush_step_inv.
  - intros [= <-]. by apply free_round_inv.
  - intros [= <-]. by apply push_slot_inv.
Qed.

Lemma step_inv s s' : Inv s -> sys_step ncpu s s' -> Inv s'.
Proof.
  intros H [].
  - by eapply core_step_inv.
  - by apply map_start_inv.
  - by apply span_inv.
  - by apply panic_inv.
  - by apply panic_inv.
  - by apply unmap_start_inv.
  - by apply fill_inv.
  - by apply evict_inv.
  - by apply irq_inv.
  - by apply take_inv.
  - by apply give_inv.
Qed.

Lemma sys_reachable_inv s : reachable ncpu s -> Inv s.
Proof. intros (s0 & H0 & Hr). apply sys_init_inv in H0. induction Hr as [|s1 s2 s3 [_ Hst] _ IH]; [done|]. by eapply IH, step_inv. Qed.
End inv.

(** ** Handling the interrupts *)

Definition take_irqs (l : list nat) (s : Sys) : Sys := foldl (fun s c => tlb_flush_interrupt c s) s l.

Lemma take_irqs_pc l : forall s, pc (take_irqs l s) = pc s /\ panicked (take_irqs l s) = panicked s.
Proof. induction l as [|c l IH]; intros s; [done|]. apply (IH (tlb_flush_interrupt c s)). Qed.

Lemma take_irqs_steps ncpu l : forall s, NoDup l -> (forall c, c ∈ l -> c ∈ pending s) -> panicked s = None ->
  rtc (sys_next ncpu) s (take_irqs l s) /\ acks (take_irqs l s) = acks s + zlen l.
Proof.
  induction l as [|c l IH]; intros s Hnd Hin Hp; [split; [done|unfold zlen; cbn; lia]|]. apply NoDup_cons in Hnd as [Hc Hnd].
  assert (c ∈ pending s) as Hcp by (apply Hin; by left). cbn [take_irqs foldl].
  destruct (IH (tlb_flush_interrupt c s) Hnd) as [Hr Ha]; [|done|].
  - intros c' Hc'. cbn. apply elem_of_difference. split; [apply Hin; by right|]. intros ->%elem_of_singleton. done.
  - split; [|fold (take_irqs l (tlb_flush_interrupt c s)); rewrite Ha; cbn [acks tlb_flush_interrupt set_acks]; rewrite zlen_cons; lia].
    eapply rtc_l; [|exact Hr]. split; [done|by constructor].
Qed.

(** ** Properties *)

(** C9: under every interleaving of the cores, no core can reach a freed stack frame
    through its translation cache.  A cached translation of a stack page names a frame
    that is neither free nor given to anything else, and it is the one in the page tables
    unless another core is still unmapping that stack and holds the frame; every page of
    a live process's stack is mapped and no core caches anything else for it; and the
    page-table operations of mapping and unmapping stacks never fail because a page is
    already mapped or is missing. *)
Theorem shootdown_safe ncpu s : reachable ncpu s ->
  (forall c va e, stack_page_va va -> tlb s c !! va = Some e ->
     pte_frame e ∉ pool s /\ pte_frame e ∉ other s /\
     (ptab s !! va = Some e \/ exists c' k fs, c' <> c /\ unmapping (pc s c') = Some (k, fs) /\ pte_frame e ∈ fs)) /\
  (forall k i, k ∈ live s -> 0 <= i < STACK_PAGES -> exists e,
     ptab s !! page k i = Some e /\ forall c e', tlb s c !! page k i = Some e' -> e' = e) /\
  panicked s <> Some AlreadyMapped /\ panicked s <> Some NotMapped.
Proof.
  intros H%sys_reachable_inv. split_and!; [| |apply (i_panic _ s H)..].
  - intros c va e Hva He. pose proof (i_frame _ s H) as Hu. destruct (i_tlb _ s H c va e Hva He) as (_ & _ & [Ht|(c'&Hst)]).
    + assert (fowns s (OPage va) (pte_frame e)) as Hown by (split; eauto). split_and!; [..|by left].
      * intros Hf. by pose proof (Hu OPool (OPage va) _ Hf Hown).
      * intros Hf. by pose proof (Hu OOther (OPage va) _ Hf Hown).
    + destruct Hst as (k&fs&i&Hun&_&Hf&Hne&_). apply lookupz_Some in Hf as [_ Hf%list_elem_of_lookup_2].
      assert (fowns s (OHeld c') (pte_frame e)) as Hown by (cbn; destruct (pc s c'); try done; by injection Hun as <- <-).
      split_and!; [| |right; by exists c', k, fs].
      * intros Hp. by pose proof (Hu OPool (OHeld c') _ Hp Hown).
      * intros Hp. by pose proof (Hu OOther (OHeld c') _ Hp Hown).
  - intros k i Hk Hi. destruct (proj2 (i_pages _ s H k i Hi)) as [e He]; [by left|]. exists e. split; [done|]. intros c e' He'.
    destruct (i_tlb _ s H c _ e' (page_stack k i Hi) He') as (_ & _ & [Ht|(c'&k'&fs&i'&Hun&Hva&Hf&_)]); [congruence|].
    exfalso. assert (unmapping (pc s c') = Some (k', fs) -> zlen fs <= STACK_PAGES /\ slot_of (pc s c') = Some k') as Hr.
    { pose proof (i_range _ s H c') as Hr. destruct (pc s c'); try done; by intros [= <- <-]. }
    destruct (Hr Hun) as [Hlen Hs]. apply lookupz_range in Hf. destruct (page_inj k i k' i') as [-> ->]; [lia|lia|done|].
    by pose proof (i_slot _ s H SLive (SCore c') k' Hk Hs).
Qed.

(** C21: a shootdown ends.  The lock is free when [flush_broadcast] asks for it, and
    while it waits, once the cores whose interrupt is still raised have taken it, in any
    order, the wait is over at the next look at the counter. *)
Theorem shootdown_ends ncpu s c k fs ph : reachable ncpu s -> panicked s = None -> pc s c = Flush k fs ph ->
  match ph with
  | FLock => exists s', core_step ncpu c s = Some s' /\ pc s' c = Flush k fs FReset
  | FWait w => forall l, NoDup l -> (forall c', c' ∈ l <-> c' ∈ pending s) ->
      rtc (sys_next ncpu) s (take_irqs l s) /\
      exists s', core_step ncpu c (take_irqs l s) = Some s' /\ pc s' c = Flush k fs FUnlock
  | _ => True
  end.
Proof.
  intros H%sys_reachable_inv Hp Hpc. destruct ph; try done.
  - destruct (shootdown s) as [c'|] eqn:Hs.
    + exfalso. pose proof (shoot_holder _ s c c' H ltac:(by rewrite Hpc) Hs) as ->.
      destruct (i_shoot _ s H c Hs) as (?&?&ph&E&Hsh). rewrite Hpc in E. by injection E as <- <- <-.
    + unfold core_step. rewrite Hpc. cbn. rewrite Hs. eexists. split; [done|]. cbn. by rewrite fn_lookup_insert.
  - intros l Hnd Hl. destruct (i_wait _ s H c k fs spins Hpc) as [_ Ha].
    destruct (take_irqs_steps ncpu l s Hnd ltac:(by intros c' ?%Hl) Hp) as [Hr Hacks]. split; [done|].
    assert (Z.of_nat (size (pending s)) = zlen l) as Hsz.
    { assert (pending s = list_to_set l) as -> by (apply set_eq; intros x; by rewrite elem_of_list_to_set, Hl). unfold zlen. by rewrite size_list_to_set. }
    unfold core_step. rewrite (proj1 (take_irqs_pc l s)), Hpc. cbn. rewrite bool_decide_false by lia. eexists. split; [done|].
    cbn. by rewrite fn_lookup_insert.
Qed.

(** *** Witnesses: two cores, one stack *)

(** [n] steps of one core's code. *)
Fixpoint run_code (ncpu : nat) (n : nat) (c : nat) (s : Sys) : option Sys :=
  match n with
  | O => Some s
  | S n' => match panicked s with Some _ => None | None => core_step ncpu c s ≫= run_code ncpu n' c end
  end.

Lemma run_code_reachable ncpu n c s s' :
  (c < ncpu)%nat -> reachable ncpu s -> run_code ncpu n c s = Some s' -> reachable ncpu s'.
Proof.
  intros Hc. revert s. induction n as [|n IH]; intros s Hs; cbn; [by intros [= <-]|].
  destruct (panicked s) eqn:Hp; [done|]. destruct (core_step ncpu c s) as [s1|] eqn:Hst; [|done]. cbn. apply IH.
  destruct Hs as (s0 & H0 & Hr). exists s0. split; [done|]. eapply rtc_r; [exact Hr|]. split; [done|]. by eapply S_code.
Qed.

Lemma step_reachable ncpu s s' : reachable ncpu s -> panicked s = None -> sys_step ncpu s s' -> reachable ncpu s'.
Proof. intros (s0 & H0 & Hr) Hp Hst. exists s0. split; [done|]. eapply rtc_r; [exact Hr|]. by split. Qed.

Definition sys_boot : Sys :=
  {| ptab := ∅; tlb := fun _ => ∅; acks := 0; pending := ∅; mapper := None; shootdown := None; slots := slots_new; live := ∅;
     pool := list_to_set (span_from 0 0); other := ∅; pc := fun _ => Idle; panicked := None |}.

(** Core 0 maps a stack; core 1 caches its first page; core 0 unmaps it and waits. *)
Definition demo_mapped : Sys := set_pc 0 (MapLock 0 0) (set_frames (pool (map_start 0 sys_boot) ∖ list_to_set (span_from 0 0)) ∅ (map_start 0 sys_boot)).
Definition demo_live : Sys := default sys_boot (run_code 2 58 0 demo_mapped).
Definition demo_cached : Sys := set_tlb 1 (<[page 0 0 := {| pte_frame := 0; pte_global := false |}]> (tlb demo_live 1)) demo_live.
Definition demo_dead : Sys := set_pc 0 (UnLock 0) (set_slots_live (slots demo_cached) (live demo_cached ∖ {[0]}) demo_cached).
Definition demo_waiting : Sys := default sys_boot (run_code 2 62 0 demo_dead).

Lemma sys_demo_reachable : reachable 2 demo_waiting.
Proof.
  assert (reachable 2 sys_boot) as H0 by (exists sys_boot; split; [by split|done]).
  assert (reachable 2 (map_start 0 sys_boot)) as H0' by (apply (step_reachable _ _ _ H0); [done|apply S_map; [lia|done]]).
  assert (reachable 2 demo_mapped) as H1.
  { apply (step_reachable _ _ _ H0'); [done|]. apply (S_span 2 (map_start 0 sys_boot) 0 0 0); [lia|done|]. intros f Hf. by apply elem_of_list_to_set. }
  assert (exists s, run_code 2 58 0 demo_mapped = Some s) as [s2 Hs2].
  { destruct (run_code 2 58 0 demo_mapped) eqn:E; [by eexists|]. by vm_compute in E. }
  assert (reachable 2 demo_live) as H2 by (unfold demo_live; rewrite Hs2; eapply run_code_reachable; [|exact H1|exact Hs2]; lia).
  assert (reachable 2 demo_cached) as H2' by (apply (step_reachable _ _ _ H2); [by vm_compute|apply S_fill; [lia|by vm_compute]]).
  assert (reachable 2 demo_dead) as H3
    by (apply (step_reachable _ _ _ H2'); [by vm_compute|apply S_unmap; [lia|by vm_compute|by vm_compute]]).
  assert (exists s, run_code 2 62 0 demo_dead = Some s) as [s4 Hs4].
  { destruct (run_code 2 62 0 demo_dead) eqn:E; [by eexists|]. by vm_compute in E. }
  unfold demo_waiting. rewrite Hs4. eapply run_code_reachable; [|exact H3|exact Hs4]. lia.
Qed.

(** Core 1 still caches the unmapped page, and its frame is not free. *)
Lemma shootdown_safe_witness : tlb demo_waiting 1 !! page 0 0 = Some {| pte_frame := 0; pte_global := false |} /\
  ptab demo_waiting !! page 0 0 = None /\ 0 ∉ pool demo_waiting.
Proof.
  assert (tlb demo_waiting 1 !! page 0 0 = Some {| pte_frame := 0; pte_global := false |}) as Ht by (by vm_compute).
  split_and!; [exact Ht|by vm_compute|].
  destruct (shootdown_safe 2 demo_waiting sys_demo_reachable) as [Hs _].
  apply (Hs 1%nat (page 0 0) {| pte_frame := 0; pte_global := false |}); [exists 0, 0; split; [unfold STACK_PAGES; lia|done]|exact Ht].
Defined.

(** Once core 1 has taken the interrupt the wait is over. *)
Lemma shootdown_ends_witness : exists w fs s', pc demo_waiting 0 = Flush 0 fs (FWait w) /\
  core_step 2 0 (take_irqs [1%nat] demo_waiting) = Some s' /\ pc s' 0 = Flush 0 fs FUnlock.
Proof.
  destruct (pc demo_waiting 0) as [| | | | | |k fs ph| |] eqn:Hpc; try (by vm_compute in Hpc).
  assert (k = 0) as -> by (vm_compute in Hpc; congruence).
  destruct ph as [| | | |w|]; try (by vm_compute in Hpc).
  destruct (shootdown_ends 2 demo_waiting 0 0 fs (FWait w) sys_demo_reachable ltac:(by vm_compute) Hpc [1%nat]) as (_ & s' & H1 & H2).
  - apply NoDup_singleton.
  - intros c'. assert (pending demo_waiting = {[1%nat]}) as -> by (by vm_compute). by rewrite list_elem_of_singleton, elem_of_singleton.
  - exists w, fs, s'. split; [reflexivity|split; [exact H1|exact H2]].
Defined.
