(* ===== verification/Paging.v ===== *)
(** * Paging: the kernel's own page tables

    Models [init] of [kernel/src/vmm.rs], which builds the single address space at boot: all physical
    memory at the direct-map offset in 2 MiB pages, and the kernel image in 4 KiB pages with the
    permissions of its sections; and [virt_to_phys] of [kernel/src/mm.rs], which undoes both without
    looking at them.  The tables belong to the crate [x86_64]: they are the class [BootMapper]. *)

From S2P Require Import Prelude Rings FrameAlloc Memory StackProofs.

Record Flags := { fl_write : bool; fl_noexec : bool; fl_global : bool }.

Definition HUGE : Z := 2 * 1024 * 1024.
Definition PAGE : Z := 4096.
Definition page_size (huge : bool) : Z := if huge then HUGE else PAGE.

(** [map_sized huge page frame flags] takes frames for its tables from the allocator;
    [walk] translates an address. *)
Class BootMapper (P : Type) := {
  zero_table : Z -> P;
  map_sized : bool -> Z -> Z -> Flags -> M (P * FrameBitmap) unit unit;
  walk : P -> Z -> option (Z * Flags);
}.

(** The symbols of the linker script, and where the loader put the image. *)
Record Image := { i_start : Z; i_text : Z; i_rodata : Z; i_data : Z; i_end : Z; i_vbase : Z; i_pbase : Z }.

(** [VirtAddr::new] and [PhysAddr::new] panic on anything else. *)
Definition canonical (a : Z) : bool := bool_decide (0 <= a < 2 ^ 47) || bool_decide (2 ^ 64 - 2 ^ 47 <= a < 2 ^ 64).
Definition phys_ok (a : Z) : bool := bool_decide (0 <= a < 2 ^ 52).
(** [containing_address] *)
Definition align_down (a n : Z) : Z := a - a mod n.

(** [(lo..hi).step_by(n)] *)
Definition step_by (lo hi n : Z) : list Z := map (fun i => lo + i * n) (seqZ 0 (div_ceil (hi - lo) n)).

Definition hhdm_flags : Flags := {| fl_write := true; fl_noexec := true; fl_global := true |}.
Definition ro_flags : Flags := {| fl_write := false; fl_noexec := true; fl_global := true |}.
Definition rx_flags : Flags := {| fl_write := false; fl_noexec := false; fl_global := true |}.

Definition image_ranges (im : Image) : list (Z * Z * Flags) :=
  [(i_start im, i_text im, ro_flags); (i_text im, i_rodata im, rx_flags);
   (i_rodata im, i_data im, ro_flags); (i_data im, i_end im, hhdm_flags)].

(** The end of the direct map: all of RAM and at least 4 GiB. *)
Definition hhdm_top (entries_ : list Region) : Z :=
  let ram_top := default 0 (region_top (filter (fun e => usable e = true) entries_)) in
  div_ceil (Z.max ram_top (4 * 1024 * 1024 * 1024)) HUGE * HUGE.

Section init.
Context {P : Type} `{!BootMapper P}.
Abbreviation PM := (M (P * FrameBitmap) Empty_set).

(** [mapper.map_to(page, frame, flags, &mut PmmFrames).expect(..).ignore()] *)
Definition map_expect (huge : bool) (page frame : Z) (fl : Flags) : PM unit := fun s =>
  let '(r, s') := map_sized huge page frame fl s in
  (match r with Ok _ => Ok tt | NoFuel => NoFuel | _ => Panic end, s').
Definition map_one (huge : bool) (va pa : Z) (fl : Flags) : PM unit :=
  _ ← massert (canonical va);
  _ ← massert (phys_ok pa);
  map_expect huge (align_down va (page_size huge)) (align_down pa (page_size huge)) fl.

Definition map_hhdm (hhdm top_ : Z) : PM unit :=
  for_each (step_by 0 top_ HUGE) (fun phys => map_one true (wrap 64 (hhdm + phys)) phys hhdm_flags).

Definition map_range (im : Image) (r : Z * Z * Flags) : PM unit :=
  let '(start, stop, flags) := r in
  for_each (step_by start stop PAGE) (fun va => map_one false va (wrap 64 (i_pbase im + wrap 64 (va - i_vbase im))) flags).

(** The tables, and the frame of the root that every core loads. *)
Definition vmm_init (hhdm : Z) (entries_ : list Region) (im : Image) : M FrameBitmap Empty_set (P * Z) := fun b =>
  match alloc b with
  | (Ok (Some pml4), b1) =>
      let '(r, (t, b2)) := (_ ← map_hhdm hhdm (hhdm_top entries_); for_each (image_ranges im) (map_range im)) (zero_table pml4, b1) in
      (match r with Ok _ => Ok (t, pml4) | Err e => Err e | Panic => Panic | NoFuel => NoFuel end, b2)
  | (Ok None, b1) => (Panic, b1)
  | (Err e, b1) => (Err e, b1)
  | (Panic, b1) => (Panic, b1)
  | (NoFuel, b1) => (NoFuel, b1)
  end.

(** [translate] is the walk of the tables, for stacks. *)
Definition IMAGE_BASE : Z := 0xffffffff80000000.
Definition virt_to_phys (hhdm : Z) (im : Image) (t : P) (virt : Z) : option Z :=
  if bool_decide (IMAGE_BASE <= virt) then Some (wrap 64 (i_pbase im + wrap 64 (virt - i_vbase im)))
  else if in_stack_zone virt then fst <$> walk t virt
  else Some (wrap 64 (virt - hhdm)).
End init.

(** ** What the tables are to contain *)

Definition image_flags (im : Image) (a : Z) : Flags :=
  if bool_decide (a < i_text im) then ro_flags else if bool_decide (a < i_rodata im) then rx_flags
  else if bool_decide (a < i_data im) then ro_flags else hhdm_flags.

Definition address_space (hhdm top_ : Z) (im : Image) (a : Z) : option (Z * Flags) :=
  if bool_decide (hhdm <= a < hhdm + top_) then Some (a - hhdm, hhdm_flags)
  else if bool_decide (i_start im <= a < i_end im) then Some (i_pbase im + (a - i_vbase im), image_flags im a)
  else None.

(** The documented behaviour of the tables: a fresh table maps nothing; mapping a page none of which is
    mapped either runs out of frames or maps exactly that page. *)
Record boot_mapper_ok (P : Type) `{!BootMapper P} : Prop := {
  zero_ok f a : walk (zero_table f) a = None;
  map_sized_ok huge page frame fl t b : wf b -> page mod page_size huge = 0 -> frame mod page_size huge = 0 ->
    (forall a, page <= a < page + page_size huge -> walk t a = None) -> exists r t' b',
    map_sized huge page frame fl (t, b) = (r, (t', b')) /\ wf b' /\ free_set b' ⊆ free_set b /\
    ((r = Err tt /\ free_set b' = ∅) \/
     (r = Ok tt /\ forall a, walk t' a = if bool_decide (page <= a < page + page_size huge) then Some (frame + (a - page), fl) else walk t a));
}.

(** The image is laid out in pages in the top 2 GiB, above the direct map, which starts on a huge page of
    the upper half. *)
Record layout_ok (hhdm top_ : Z) (im : Image) : Prop := {
  lo_hhdm : hhdm mod HUGE = 0 /\ 2 ^ 64 - 2 ^ 47 <= hhdm;
  lo_top : 0 <= top_ /\ top_ mod HUGE = 0 /\ hhdm + top_ <= IMAGE_BASE /\ top_ < 2 ^ 52;
  lo_order : IMAGE_BASE <= i_vbase im <= i_start im /\ i_start im <= i_text im <= i_rodata im /\ i_rodata im <= i_data im <= i_end im /\ i_end im < 2 ^ 64;
  lo_align : i_start im mod PAGE = 0 /\ i_text im mod PAGE = 0 /\ i_rodata im mod PAGE = 0 /\ i_data im mod PAGE = 0 /\ i_end im mod PAGE = 0 /\
    i_vbase im mod PAGE = 0 /\ i_pbase im mod PAGE = 0;
  lo_phys : 0 <= i_pbase im /\ i_pbase im + (i_end im - i_vbase im) < 2 ^ 52;
  lo_stacks : hhdm + top_ <= STACK_ZONE_BASE \/ STACK_ZONE_BASE + MAX_SLOTS * SLOT_STRIDE <= hhdm;
}.

(** ** Proofs *)

Section proofs.
Context {P : Type} `{!BootMapper P} (Hmap : boot_mapper_ok P).
Implicit Types (t : P).

(** How a step of [init] ends: out of frames, or with [g] in the tables. *)
Definition maps (c : M (P * FrameBitmap) Empty_set unit) (t : P) (b : FrameBitmap) (g : Z -> option (Z * Flags)) : Prop :=
  exists r t' b', c (t, b) = (r, (t', b')) /\ wf b' /\ ((r = Panic /\ free_set b' = ∅) \/ (r = Ok tt /\ forall a, walk t' a = g a)).

Lemma maps_bind c d t b g h : maps c t b g ->
  (forall t' b', wf b' -> (forall a, walk t' a = g a) -> maps d t' b' h) -> maps (_ ← c; d) t b h.
Proof using Type.
  intros (r & t1 & b1 & Hc & Hw & [[-> Hf]|[-> Hg]]) Hd.
  - exists Panic, t1, b1. unfold mbind, M_bind. rewrite Hc. split_and!; [done|done|by left].
  - destruct (Hd t1 b1 Hw Hg) as (r & t2 & b2 & H2 & ?). exists r, t2, b2. unfold mbind, M_bind. by rewrite Hc, H2.
Qed.

Lemma maps_ext c t b g h : maps c t b g -> (forall a, g a = h a) -> maps c t b h.
Proof using Type.
  intros (r & t1 & b1 & Hc & Hw & Hr) He. exists r, t1, b1. split_and!; [done|done|].
  destruct Hr as [?|[? Hg]]; [by left|right]. split; [done|]. intros a. by rewrite Hg.
Qed.

(** One page. *)
Lemma map_one_maps huge va d fl t b : wf b -> va mod page_size huge = 0 -> (va + d) mod page_size huge = 0 ->
  canonical va = true -> phys_ok (va + d) = true -> (forall a, va <= a < va + page_size huge -> walk t a = None) ->
  maps (map_one huge va (va + d) fl) t b
    (fun a => if bool_decide (va <= a < va + page_size huge) then Some (a + d, fl) else walk t a).
Proof using Hmap.
  intros Hw Hva Hpa Hcn Hph Hn. unfold maps, map_one, massert, mbind, M_bind. rewrite Hcn, Hph. cbn.
  unfold map_expect, align_down. rewrite Hva, Hpa, !Z.sub_0_r.
  destruct (map_sized_ok P Hmap huge va (va + d) fl t b Hw Hva Hpa Hn) as (r & t' & b' & -> & Hw' & _ & [[-> Hf]|[-> Hr]]).
  - exists Panic, t', b'. split_and!; [done|done|by left].
  - exists (Ok tt), t', b'. split_and!; [done|done|right]. split; [done|]. intros a. rewrite Hr. case_bool_decide; [|done]. do 2 f_equal. lia.
Qed.

(** Pages in a row. *)
Lemma map_row huge lo d fl b : lo mod page_size huge = 0 -> (lo + d) mod page_size huge = 0 -> forall k j t (f : Z -> M (P * FrameBitmap) Empty_set unit), wf b ->
  0 <= j -> (forall i, j <= i < j + Z.of_nat k -> f (lo + i * page_size huge) = map_one huge (lo + i * page_size huge) (lo + i * page_size huge + d) fl /\
    canonical (lo + i * page_size huge) = true /\ phys_ok (lo + i * page_size huge + d) = true) ->
  (forall a, lo + j * page_size huge <= a < lo + (j + Z.of_nat k) * page_size huge -> walk t a = None) ->
  maps (for_each (map (fun i => lo + i * page_size huge) (seqZ j (Z.of_nat k))) f) t b
    (fun a => if bool_decide (lo + j * page_size huge <= a < lo + (j + Z.of_nat k) * page_size huge) then Some (a + d, fl) else walk t a).
Proof using Hmap.
  intros Hlo Hpo k. assert (0 < page_size huge) as Hsz by (destruct huge; done). set (sz := page_size huge) in *.
  assert (forall i, (lo + i * sz) mod sz = 0 /\ (lo + i * sz + d) mod sz = 0) as Hal.
  { intros i. replace (lo + i * sz + d) with (lo + d + i * sz) by lia. rewrite !Z.mod_add by lia. done. }
  revert b. induction k as [|k IH]; intros b j t f Hw Hj Hf Hn.
  - exists (Ok tt), t, b. split_and!; [done|done|right]. split; [done|]. intros a. rewrite bool_decide_false by lia. done.
  - rewrite seqZ_cons by lia. cbn [map for_each]. replace (Z.pred (Z.of_nat (S k))) with (Z.of_nat k) by lia.
    destruct (Hf j ltac:(lia)) as (-> & Hcn & Hph). destruct (Hal j) as [A1 A2].
    eapply maps_bind; [apply map_one_maps; try done; intros a Ha; apply Hn; subst sz; nia|].
    intros t' b' Hw' Ht'. eapply maps_ext; [apply IH; [done|lia|intros i Hi; apply Hf; lia|]|].
    + intros a Ha. rewrite Ht', bool_decide_false by (subst sz; nia). apply Hn. subst sz. nia.
    + intros a. cbn beta. rewrite Ht'. subst sz. repeat case_bool_decide; try done; nia.
Qed.

Lemma for_each_map_ext {A B C E St} (g1 : A -> B) (g2 : A -> C) (f1 : B -> M St E unit) (f2 : C -> M St E unit) l :
  (forall x, x ∈ l -> f1 (g1 x) = f2 (g2 x)) -> for_each (map g1 l) f1 = for_each (map g2 l) f2.
Proof using Type.
  induction l as [|x l IH]; intros H; [done|]. cbn [map for_each]. rewrite H by left. by rewrite IH by (intros y Hy; apply H; by right).
Qed.

Lemma rows n sz : 0 < sz -> 0 <= n -> n mod sz = 0 -> div_ceil n sz = Z.of_nat (Z.to_nat (n / sz)) /\ Z.of_nat (Z.to_nat (n / sz)) * sz = n.
Proof using Type.
  intros Hs Hn Hm. pose proof (Z.div_pos n sz Hn Hs). rewrite Z2Nat.id by done. pose proof (Z.div_mod n sz ltac:(lia)).
  split; [|lia]. unfold div_ceil. replace (n + sz - 1) with (sz - 1 + n / sz * sz) by lia. rewrite Z.div_add, Z.div_small by lia. done.
Qed.

Section with_layout.
Context (hhdm top_ : Z) (im : Image) (Hl : layout_ok hhdm top_ im).

Lemma map_hhdm_maps t b : wf b -> (forall a, walk t a = None) ->
  maps (map_hhdm hhdm top_) t b (fun a => if bool_decide (hhdm <= a < hhdm + top_) then Some (a - hhdm, hhdm_flags) else None).
Proof using Hmap Hl.
  intros Hw Hn. destruct (lo_hhdm _ _ _ Hl) as [Ha Hlow], (lo_top _ _ _ Hl) as (H0 & Hta & Hti & Htp).
  destruct (rows top_ HUGE ltac:(done) H0 Hta) as [Hrow Hprod]. unfold IMAGE_BASE in Hti.
  assert (forall i, 0 <= i < Z.of_nat (Z.to_nat (top_ / HUGE)) -> 0 <= i * HUGE < top_) as Hi by (intros i Hi; unfold HUGE in *; nia).
  unfold map_hhdm, step_by. rewrite Z.sub_0_r, Hrow.
  rewrite (for_each_map_ext _ (fun i => hhdm + i * page_size true) _ (fun va => map_one true va (va + - hhdm) hhdm_flags)).
  2: { intros i [? ?]%elem_of_seqZ. specialize (Hi i ltac:(lia)). cbn [page_size]. rewrite wrap_small by lia.
       by replace (hhdm + i * HUGE + - hhdm) with (0 + i * HUGE) by lia. }
  eapply maps_ext; [apply (map_row true hhdm (- hhdm) hhdm_flags b Ha); [by rewrite Z.add_opp_diag_r|done|lia| |done]|].
  - intros i Hr. specialize (Hi i ltac:(lia)). cbn [page_size]. split_and!; [done| |].
    + apply orb_true_intro. right. apply bool_decide_eq_true. lia.
    + apply bool_decide_eq_true. lia.
  - intros a. cbn [page_size]. rewrite Hn. repeat case_bool_decide; try lia; [|done]. do 2 f_equal; lia.
Qed.

Lemma map_range_maps lo hi fl t b : wf b -> lo mod PAGE = 0 -> hi mod PAGE = 0 -> i_start im <= lo -> lo <= hi <= i_end im ->
  (forall a, lo <= a < hi -> walk t a = None) ->
  maps (map_range im (lo, hi, fl)) t b (fun a => if bool_decide (lo <= a < hi) then Some (i_pbase im + (a - i_vbase im), fl) else walk t a).
Proof using Hmap Hl.
  intros Hw Hlo Hhi Hs Hle Hn. destruct (lo_order _ _ _ Hl) as (Hv & ? & ? & Hend), (lo_align _ _ _ Hl) as (_ & _ & _ & _ & _ & Hva & Hpa), (lo_phys _ _ _ Hl) as [Hp Hpe].
  apply Z.mod_divide in Hva as [z Ez], Hpa as [w Ew]; [|done..]. pose proof Hlo as [x Ex]%Z.mod_divide; [|done]. apply Z.mod_divide in Hhi as [y Ey]; [|done].
  destruct (rows (hi - lo) PAGE ltac:(done) ltac:(lia)) as [Hrow Hprod].
  { replace (hi - lo) with ((y - x) * PAGE) by lia. by apply Z.mod_mul. }
  unfold IMAGE_BASE in Hv. unfold map_range, step_by. rewrite Hrow.
  assert (forall i, 0 <= i < Z.of_nat (Z.to_nat ((hi - lo) / PAGE)) -> lo <= lo + i * PAGE < hi) as Hi by (intros i Hi; unfold PAGE in *; nia).
  eapply maps_ext; [apply (map_row false lo (i_pbase im - i_vbase im) fl b Hlo); [|done|lia| |]|].
  - replace (lo + (i_pbase im - i_vbase im)) with ((x + w - z) * PAGE) by lia. by apply Z.mod_mul.
  - intros i Hr. specialize (Hi i ltac:(lia)). cbn [page_size]. split_and!.
    + rewrite (wrap_small 64 (lo + i * PAGE - i_vbase im)), wrap_small by lia. f_equal. lia.
    + apply orb_true_intro. right. apply bool_decide_eq_true. lia.
    + apply bool_decide_eq_true. lia.
  - intros a. cbn [page_size]. intros Ha. apply Hn. lia.
  - intros a. cbn [page_size]. repeat case_bool_decide; try lia; [|done]. do 2 f_equal. lia.
Qed.

Lemma map_image_maps t b : wf b -> (forall a, i_start im <= a < i_end im -> walk t a = None) ->
  maps (for_each (image_ranges im) (map_range im)) t b
    (fun a => if bool_decide (i_start im <= a < i_end im) then Some (i_pbase im + (a - i_vbase im), image_flags im a) else walk t a).
Proof using Hmap Hl.
  intros Hw Hn. destruct (lo_order _ _ _ Hl) as (Hv & ? & ? & Hend), (lo_align _ _ _ Hl) as (A1 & A2 & A3 & A4 & A5 & _ & _).
  cbn [image_ranges for_each].
  eapply maps_bind; [apply map_range_maps; try done; try lia; intros a Ha; apply Hn; lia|]. intros t1 b1 W1 E1.
  eapply maps_bind; [apply map_range_maps; try done; try lia; intros a Ha; rewrite E1, bool_decide_false by lia; apply Hn; lia|]. intros t2 b2 W2 E2.
  eapply maps_bind; [apply map_range_maps; try done; try lia; intros a Ha; rewrite E2, bool_decide_false, E1, bool_decide_false by lia; apply Hn; lia|].
  intros t3 b3 W3 E3.
  eapply maps_bind; [apply map_range_maps; try done; try lia; intros a Ha; rewrite E3, bool_decide_false, E2, bool_decide_false, E1, bool_decide_false by lia; apply Hn; lia|].
  intros t4 b4 W4 E4. exists (Ok tt), t4, b4. split_and!; [done|done|right]. split; [done|]. intros a.
  rewrite E4, E3, E2, E1. unfold image_flags. repeat case_bool_decide; try done; lia.
Qed.

Lemma vmm_tables_maps pml4 b : wf b ->
  maps (_ ← map_hhdm hhdm top_; for_each (image_ranges im) (map_range im)) (zero_table pml4) b (address_space hhdm top_ im).
Proof using Hmap Hl.
  intros Hw. destruct (lo_order _ _ _ Hl) as (Hv & _), (lo_top _ _ _ Hl) as (_ & _ & Ht & _).
  eapply maps_bind; [apply map_hhdm_maps; [done|apply (zero_ok P Hmap)]|]. intros t b1 W1 E1.
  eapply maps_ext; [apply map_image_maps; [done|]|].
  - intros a Ha. rewrite E1, bool_decide_false by lia. done.
  - intros a. cbn beta. rewrite E1. unfold address_space. repeat case_bool_decide; try done; lia.
Qed.

Lemma address_space_phys t a pa fl : address_space hhdm top_ im a = Some (pa, fl) ->
  (fl_write fl = false \/ fl_noexec fl = true) /\ virt_to_phys hhdm im t a = Some pa.
Proof using Hl.
  destruct (lo_hhdm _ _ _ Hl) as [_ Hlow], (lo_top _ _ _ Hl) as (H0 & _ & Ht & Htp), (lo_order _ _ _ Hl) as (Hv & _ & _ & Hend), (lo_phys _ _ _ Hl) as [Hp Hpe].
  unfold address_space, virt_to_phys. case_bool_decide as Ha; [|case_bool_decide as Hb; [|done]].
  - intros [= <- <-]. split; [by right|]. rewrite bool_decide_false by lia.
    assert (in_stack_zone a = false) as -> by (apply bool_decide_eq_false; destruct (lo_stacks _ _ _ Hl); lia).
    by rewrite wrap_small by lia.
  - intros [= <- <-]. split; [unfold image_flags; repeat case_bool_decide; cbn; auto|]. rewrite bool_decide_true by lia. unfold IMAGE_BASE in Hv.
    by rewrite (wrap_small 64 (a - i_vbase im)), wrap_small by lia.
Qed.
End with_layout.
End proofs.

(** ** Properties *)

(** C22: The address space built at boot.  Unless the frames run out, building it ends with tables that map
    exactly all of physical memory at the direct-map offset and the kernel image at its link addresses,
    section by section; no address is both writable and executable; and [virt_to_phys] gives for every
    mapped address the physical address the tables give. *)
Theorem vmm_init_wx {P} `{!BootMapper P} hhdm entries_ im (b : FrameBitmap) :
  boot_mapper_ok P -> wf b -> layout_ok hhdm (hhdm_top entries_) im ->
  let '(r, b') := vmm_init (P := P) hhdm entries_ im b in wf b' /\
  match r with
  | Ok (t, _) =>
      (forall a, walk t a = address_space hhdm (hhdm_top entries_) im a) /\
      (forall a pa fl, walk t a = Some (pa, fl) -> fl_write fl = false \/ fl_noexec fl = true) /\
      (forall a pa fl, walk t a = Some (pa, fl) -> virt_to_phys hhdm im t a = Some pa)
  | Panic => free_set b' = ∅
  | _ => False
  end.
Proof.
  intros Hmap Hw Hl. unfold vmm_init. destruct (alloc_run b Hw) as (o & b1 & -> & Hw1 & Ho).
  destruct o as [pml4|].
  2: { split; [done|]. destruct Ho as [(_ & -> & Hf)|(k & _ & [=] & _)]. done. }
  destruct (vmm_tables_maps Hmap hhdm _ im Hl pml4 b1 Hw1) as (r & t & b2 & -> & Hw2 & [[-> Hf]|[-> He]]); [done|].
  split; [done|]. split_and!; [done|..]; intros a pa fl; rewrite He; intros Ha; by eapply address_space_phys.
Qed.

(** *** Witness: tables as a list of pages *)

#[local] Instance list_mapper : BootMapper (list (bool * Z * Z * Flags)) := {|
  zero_table _ := [];
  map_sized huge page frame fl '(t, b) := (Ok tt, ((huge, page, frame, fl) :: t, b));
  walk t a :=
    match find (fun '(huge, page, _, _) => bool_decide (page <= a < page + page_size huge)) t with
    | Some (_, page, frame, fl) => Some (frame + (a - page), fl)
    | None => None
    end |}.

Lemma list_mapper_ok : boot_mapper_ok (list (bool * Z * Z * Flags)).
Proof.
  split; [done|]. intros huge page frame fl t b Hw _ _ Hn. eexists _, _, _. split; [done|]. split_and!; [done|done|]. right.
  split; [done|]. intros a. cbn. by case_bool_decide.
Qed.

Definition demo_image : Image :=
  {| i_start := IMAGE_BASE; i_text := IMAGE_BASE + 4096; i_rodata := IMAGE_BASE + 3 * 4096; i_data := IMAGE_BASE + 4 * 4096; i_end := IMAGE_BASE + 6 * 4096;
     i_vbase := IMAGE_BASE; i_pbase := 2 ^ 24 |}.
Definition demo_hhdm : Z := 2 ^ 64 - 2 ^ 47.
Definition demo_frames : FrameBitmap := pmm FlatTables.boot_vm.

Lemma demo_layout : layout_ok demo_hhdm (hhdm_top []) demo_image.
Proof. split; vm_compute; try (by left); repeat split; congruence. Qed.

(** Text is executable and not writable; the same page in the direct map is writable and not executable. *)
Lemma vmm_init_wx_witness : match (vmm_init demo_hhdm [] demo_image demo_frames).1 with
  | Ok (t, _) => walk t (IMAGE_BASE + 5000) = Some (2 ^ 24 + 5000, rx_flags) /\ walk t (demo_hhdm + 2 ^ 24 + 5000) = Some (2 ^ 24 + 5000, hhdm_flags)
  | _ => False
  end.
Proof.
  pose proof (vmm_init_wx demo_hhdm [] demo_image demo_frames list_mapper_ok (st_wf _ _ FlatTables.boot_vm_ok) demo_layout) as H.
  destruct (vmm_init demo_hhdm [] demo_image demo_frames) as [r b'] eqn:Hrun. cbn [fst]. destruct H as [_ H].
  destruct r as [[t pml4]|[]| |]; [|exfalso..].
  - destruct H as (H & _ & _). rewrite !H. split; vm_compute; reflexivity.
  - apply (f_equal fst) in Hrun. vm_compute in Hrun. discriminate Hrun.
  - apply (f_equal fst) in Hrun. vm_compute in Hrun. discriminate Hrun.
Defined.
