(* ===== verification/Modload.v ===== *)
(** * Modload: loading modules and running them

    Models [kernel/src/modload.rs], with the tail-call stash of [kernel/src/proc.rs] and
    [kernel/src/percpu.rs]: the two-version module table, the registry of which version each
    process runs, the trampoline, dynamic external calls, purging, and the kernel's
    implementation of the interpreter's [SystemApi].  What the module loader uses of the rest of
    the kernel is the class [Runtime]; the baseline compiler and the machine code it publishes
    are the class [Engine]. *)

From stdpp Require Import sorting.
From S2P Require Import Prelude Rings Term Bytecode Verify Interp Atoms Jit.

(** ** Data *)

(** An [Arc<LoadedModule>]: [lm_ptr] is its address. *)
Record LoadedModule := {
  lm_ptr : Z;
  lm_name : list byte;
  lm_version : Z;
  lm_module : Module_;
  lm_atom_map : list Z;
  lm_jit : option (list Z);
  lm_sealed : bool;
  lm_tailers : list bool;
}.

Record Slot := { current : LoadedModule; old : option LoadedModule }.

Inductive LoadError := LDecode (e : DecodeError) | LVerify (e : VerifyError).

Inductive TailTarget := Ext (module_atom fname_atom : Z) (args : list Term) | Local (fn_idx : Z) (args : list Term).

Record SpawnInfo := { si_module : LoadedModule; si_fn_idx : Z; si_arg : Term }.

(** [MODULES], [RUNNING], the atom table, the running core's stash, the binding counters and
    the next address of an allocation. *)
Record Mods := {
  slots : gmap (list byte) Slot;
  running : gmap Z (list byte * Z);
  atab : AtomTable;
  tail_target : option TailTarget;
  ext_hits : Z;
  ext_misses : Z;
  next_arc : Z;
}.

Definition with_slots (x : gmap (list byte) Slot) (d : Mods) : Mods :=
  {| slots := x; running := running d; atab := atab d; tail_target := tail_target d; ext_hits := ext_hits d; ext_misses := ext_misses d; next_arc := next_arc d |}.
Definition with_running (x : gmap Z (list byte * Z)) (d : Mods) : Mods :=
  {| slots := slots d; running := x; atab := atab d; tail_target := tail_target d; ext_hits := ext_hits d; ext_misses := ext_misses d; next_arc := next_arc d |}.
Definition with_atab (x : AtomTable) (d : Mods) : Mods :=
  {| slots := slots d; running := running d; atab := x; tail_target := tail_target d; ext_hits := ext_hits d; ext_misses := ext_misses d; next_arc := next_arc d |}.
Definition with_stash (x : option TailTarget) (d : Mods) : Mods :=
  {| slots := slots d; running := running d; atab := atab d; tail_target := x; ext_hits := ext_hits d; ext_misses := ext_misses d; next_arc := next_arc d |}.
Definition with_stats (h m : Z) (d : Mods) : Mods :=
  {| slots := slots d; running := running d; atab := atab d; tail_target := tail_target d; ext_hits := h; ext_misses := m; next_arc := next_arc d |}.
Definition with_arc (x : Z) (d : Mods) : Mods :=
  {| slots := slots d; running := running d; atab := atab d; tail_target := tail_target d; ext_hits := ext_hits d; ext_misses := ext_misses d; next_arc := x |}.

Definition str_unknown : list byte := [x3f].   (* "?" *)

(** ** What the loader uses of the kernel *)

(** Process heap, scheduling, messages, ports and buffers of the running process. *)
Class Runtime (K : Type) := {
  rt_heap : K -> HS;
  rt_with_heap : HS -> K -> K;
  rt_current : K -> Z;
  rt_send : Z -> Term -> K -> K;
  rt_recv : M K Empty_set Term;
  rt_spawn : SpawnInfo -> M K Empty_set Z;
  rt_safepoint : K -> K;
  rt_print : Term -> K -> K;
  rt_open : Z -> M K Empty_set (option Term);
  rt_submit : Z -> Sqe -> M K Empty_set bool;
  rt_buf_write : Z -> Z -> list byte -> M K Empty_set bool;
  rt_buf_create : list byte -> M K Empty_set Z;
  rt_buf_read : Z -> Z -> Z -> M K Empty_set (option (list byte));
  rt_buf_take : Z -> M K Empty_set (option (list byte));
  rt_sleep : Z -> K -> K;
  rt_ticks : K -> Z;
  rt_grow : K -> bool * K;
  rt_compact : list Term -> M K Empty_set (list Term);
  rt_is_alive : K -> Z -> bool;
  rt_kill : Z -> K -> K;
}.

(** The state of the running process's core. *)
Record KS (K : Type) := { ks : K; ms : Mods }.
Arguments ks {K} _.
Arguments ms {K} _.
Arguments Build_KS {K} _ _.

(** The baseline compiler: [compile] asks its resolver for the target of an external call and publishes
    one entry address per function; [native] runs published code. *)
Class Engine (K : Type) := {
  compile : Module_ -> list Z -> (Z -> Z -> M (KS K) Empty_set (option ExtTarget)) -> M (KS K) Empty_set (option (list Z));
  native : Z -> list Term -> M (KS K) Trap Term;
}.

Section modload.
Context {K : Type} `{!Runtime K} `{!Engine K}.

Abbreviation KM := (M (KS K) Trap).
Abbreviation TM := (M (KS K) Empty_set).

(** A kernel call or an update of the module tables; neither returns an error.  A service that panics stops
    the machine: the state shown is the one it was called in. *)
Definition on_k {E A} (c : M K Empty_set A) : M (KS K) E A := fun s =>
  let '(r, k) := c (ks s) in
  match r with
  | Ok x => (Ok x, {| ks := k; ms := ms s |})
  | Err e => match e with end
  | Panic => (Panic, s)
  | NoFuel => (NoFuel, {| ks := k; ms := ms s |})
  end.
Definition upd_k (f : K -> K) (s : KS K) : KS K := {| ks := f (ks s); ms := ms s |}.
Definition upd_m (f : Mods -> Mods) (s : KS K) : KS K := {| ks := ks s; ms := f (ms s) |}.
Definition on_atoms {E A} (c : M AtomTable E A) : M (KS K) E A := fun s =>
  let '(r, t) := c (atab (ms s)) in (r, upd_m (with_atab t) s).

(** ** The tables *)

Definition current_module (d : Mods) (name : list byte) : option LoadedModule := current <$> slots d !! name.

Definition note_running (pid : Z) (name : list byte) (version : Z) (s : KS K) : KS K :=
  upd_m (fun d => with_running (<[pid := (name, version)]> (running d)) d) s.

Definition set_tail_target (ma fa : Z) (args : list Term) : KS K -> KS K := upd_m (with_stash (Some (Ext ma fa args))).
Definition set_tail_target_local (i : Z) (args : list Term) : KS K -> KS K := upd_m (with_stash (Some (Local i args))).
Definition take_tail_target : KM (option TailTarget) :=
  s ← get; _ ← modify (upd_m (with_stash None)); mret (tail_target (ms s)).

(** The closure of [resolve_ext_direct]. *)
Definition resolve (d : Mods) (ma fa : Z) : res Empty_set (option ExtTarget) :=
  match slots d !! Atoms.name (atab d) ma with
  | None => Ok None
  | Some slot =>
      let m := current slot in
      if negb (lm_sealed m) then Ok None
      else
        match lm_jit m, function_named (lm_module m) (Atoms.name (atab d) fa) with
        | Some addrs, Some idx =>
            match lookupz (functions (lm_module m)) idx with
            | None => Panic
            | Some f =>
                if bool_decide (16 < arity f) then Ok None
                else
                  match lookupz addrs idx with
                  | None => Panic
                  | Some addr =>
                      Ok (Some {| xt_addr := addr; xt_token := lm_ptr m; xt_arity := arity f;
                                  xt_may_tail := default true (lookupz (lm_tailers m) idx) |})
                  end
            end
        | _, _ => Ok None
        end
  end.

Definition resolve_ext_direct (ma fa : Z) : TM (option ExtTarget) :=
  s ← get;
  r ← lift (resolve (ms s) ma fa);
  _ ← modify (upd_m (fun d => match r with
                              | Some _ => with_stats (wrap 64 (ext_hits d + 1)) (ext_misses d) d
                              | None => with_stats (ext_hits d) (wrap 64 (ext_misses d + 1)) d
                              end));
  mret r.

(** ** Loading *)

Definition no_err {E A} (c : TM A) : M (KS K) E A := map_err (fun e : Empty_set => match e with end) c.
Definition lift_err {E E' A} (f : E -> E') (r : res E A) : M (KS K) E' A := map_err f (lift r).

Definition load_full (name : list byte) (bytes : list byte) (use_jit sealed : bool) : M (KS K) LoadError LoadedModule :=
  module ← lift_err LDecode (decode bytes);
  _ ← lift_err LVerify (verify module);
  atom_map ← on_atoms (intern_all (atoms module));
  tailers ← no_err (lift (sentinel_returners module));
  jit ← no_err (if use_jit : bool then compile module atom_map resolve_ext_direct else mret None);
  s ← get;
  let d := ms s in
  let version := match slots d !! name with Some sl => wrap 64 (lm_version (current sl) + 1) | None => 1 end in
  let loaded := {| lm_ptr := next_arc d; lm_name := name; lm_version := version; lm_module := module;
                   lm_atom_map := atom_map; lm_jit := jit; lm_sealed := sealed; lm_tailers := tailers |} in
  _ ← modify (upd_m (with_arc (next_arc d + 1)));
  match slots d !! name with
  | Some sl =>
      if lm_sealed (current sl) then mret (current sl)
      else
        _ ← modify (upd_m (fun d => with_slots (<[name := {| current := loaded; old := Some (current sl) |}]> (slots d)) d));
        mret loaded
  | None =>
      _ ← modify (upd_m (fun d => with_slots (<[name := {| current := loaded; old := None |}]> (slots d)) d));
      mret loaded
  end.

Definition load (name bytes : list byte) : M (KS K) LoadError LoadedModule := load_full name bytes true false.
Definition load_with_engine (name bytes : list byte) (use_jit : bool) := load_full name bytes use_jit false.

Definition load_sealed (name bytes : list byte) (use_jit : bool) : M (KS K) LoadError LoadedModule :=
  s ← get;
  match slots (ms s) !! name with
  | Some sl => if lm_sealed (current sl) then mret (current sl) else load_full name bytes use_jit true
  | None => load_full name bytes use_jit true
  end.

Definition current_process_module (s : KS K) : option LoadedModule :=
  '(name, version) ← running (ms s) !! rt_current (ks s);
  sl ← slots (ms s) !! name;
  if bool_decide (lm_version (current sl) = version) then Some (current sl)
  else match old sl with
       | Some o => if bool_decide (lm_version o = version) then Some o else Some (current sl)
       | None => Some (current sl)
       end.

(** Drop the old version and kill every process registered at an outdated one. *)
Definition purge (name : list byte) : TM Z :=
  s ← get;
  match slots (ms s) !! name with
  | None => mret 0
  | Some sl =>
      _ ← modify (upd_m (fun d => with_slots (<[name := {| current := current sl; old := None |}]> (slots d)) d));
      let cv := lm_version (current sl) in
      let live_ := filter (fun kv => rt_is_alive (ks s) kv.1 = true) (running (ms s)) in
      _ ← modify (upd_m (with_running live_));
      let holdouts := merge_sort Z.le (map_to_list (filter (fun kv => kv.2.1 = name /\ kv.2.2 < cv) live_)).*1 in
      _ ← for_each holdouts (fun pid => modify (upd_k (rt_kill pid)));
      mret (zlen holdouts)
  end.

(** ** The trampoline *)

Definition next_tail_target (lm : LoadedModule) : KM (LoadedModule * Z * list Term) :=
  o ← take_tail_target;
  t ← ok_or o BadCode;
  match t with
  | Ext ma fa targs =>
      s ← get;
      target ← ok_or (current_module (ms s) (Atoms.name (atab (ms s)) ma)) Badarg;
      idx ← ok_or (function_named (lm_module target) (Atoms.name (atab (ms s)) fa)) Badarg;
      f ← unwrap (lookupz (functions (lm_module target)) idx);
      _ ← fail_if (negb (bool_decide (arity f = zlen targs))) Badarg;
      _ ← modify (note_running (rt_current (ks s)) (lm_name target) (lm_version target));
      mret (target, idx, targs)
  | Local idx targs => mret (lm, idx, targs)
  end.

(** How an engine runs one function: [once] below. *)
Abbreviation Once := (LoadedModule -> Z -> list Term -> KM Term).

Fixpoint invoke_inner (once : Once) (gc : bool) (hops : nat) (lm : LoadedModule) (fn_idx : Z) (args : list Term) : KM Term :=
  match hops with
  | O => nofuel
  | S hops' =>
      r ← once lm fn_idx args;
      if negb (bool_decide (r = TAIL_SENTINEL)) then mret r
      else
        '(lm', idx', args') ← next_tail_target lm;
        args'' ← (if gc then on_k (rt_compact args') else mret args');
        invoke_inner once gc hops' lm' idx' args''
  end.

(** The instance a token points to, as long as the module table holds it. *)
Definition arc_deref (d : Mods) (token : Z) : option LoadedModule :=
  let all := map_to_list (slots d) ≫= fun kv => current kv.2 :: option_list (old kv.2) in
  find (fun lm => bool_decide (lm_ptr lm = token)) all.

Definition resume_tail_from (once : Once) (hops : nat) (token : Z) : KM Term :=
  s ← get;
  lm ← unwrap (arc_deref (ms s) token);
  '(lm', idx, args) ← next_tail_target lm;
  invoke_inner once false hops lm' idx args.

(** ** Spawning *)

Definition spawn_fn (lm : LoadedModule) (fn_idx : Z) (arg : Term) : KM Z :=
  pid ← on_k (rt_spawn {| si_module := lm; si_fn_idx := fn_idx; si_arg := arg |});
  _ ← modify (note_running pid (lm_name lm) (lm_version lm));
  mret pid.

Definition spawn (lm : LoadedModule) (fname : list byte) (arg : Term) : KM (option Z) :=
  _ ← massert (negb (is_boxed arg));
  match function_named (lm_module lm) fname with
  | None => mret None
  | Some i => pid ← spawn_fn lm (wrap 32 i) arg; mret (Some pid)
  end.

(** ** The kernel's [SystemApi] *)

Definition k_heap (s : KS K) : HS := rt_heap (ks s).
Definition k_with_heap (h : HS) : KS K -> KS K := upd_k (rt_with_heap h).
Definition k_grow (s : KS K) : bool * KS K := let '(b, k) := rt_grow (ks s) in (b, {| ks := k; ms := ms s |}).

Definition k_send (to msg : Term) : KM unit := pid ← ok_or (as_pid to) Badarg; modify (upd_k (rt_send pid msg)).

Definition k_spawn (lm : LoadedModule) (fn_idx : Z) (arg : Term) : KM Z :=
  _ ← ok_or (lookupz (functions (lm_module lm)) fn_idx) BadCode;
  spawn_fn lm fn_idx arg.

Definition k_atom_global (lm : LoadedModule) (local : Z) : KM Z :=
  match lookupz (lm_atom_map lm) local with
  | Some g => mret g
  | None => on_atoms (intern str_unknown)
  end.

Definition k_port_open (kind_ : Z) : KM Term := o ← on_k (rt_open kind_); ok_or o Badarg.

Definition k_submit (id op_ arg0 arg1 tag_ : Z) : KM unit :=
  b ← on_k (rt_submit id {| sqe_op := op_; sqe_tag := tag_; sqe_arg0 := arg0; sqe_arg1 := arg1 |});
  if b : bool then mret tt else throw Badarg.

Definition k_port_submit (port : Term) (op_ : Z) (arg0 tag_ : Term) : KM unit :=
  id ← ok_or (as_port port) Badarg;
  a0 ← ok_or (as_int arg0) Badarg;
  tg ← ok_or (as_int tag_) Badarg;
  k_submit id op_ (wrap 64 a0) 0 tg.

Definition k_port_submit2 (port op_ arg0 arg1 tag_ : Term) : KM unit :=
  id ← ok_or (as_port port) Badarg;
  o ← ok_or (as_int op_) Badarg;
  tg ← ok_or (as_int tag_) Badarg;
  a0 ← ok_or (as_int arg0) Badarg;
  a1 ← ok_or (as_int arg1) Badarg;
  k_submit id (wrap 32 o) (wrap 64 a0) (wrap 64 a1) tg.

(** [bin.bin_bytes()] when the term is a binary. *)
Definition binary_of (t : Term) : KM (list byte) := fun s =>
  (b ← boxed_kind_is (hmem (k_heap s)) t KBinary;
   if b : bool then bin_bytes (hmem (k_heap s)) t else Err Badarg, s).

Definition k_buf_write (buf off bin : Term) : KM Term :=
  id ← ok_or (as_int buf) Badarg;
  o ← ok_or (as_int off) Badarg;
  bytes ← binary_of bin;
  _ ← fail_if (bool_decide (o < 0)) Badarg;
  b ← on_k (rt_buf_write (wrap 64 id) o bytes);
  if b : bool then mret (term_int 0) else throw Badarg.

Definition k_buf_new (size : Term) : KM Term :=
  n ← ok_or (as_int size) Badarg;
  _ ← fail_if (bool_decide (n < 0) || bool_decide (Z.shiftl 64 20 < n)) Badarg;
  id ← on_k (rt_buf_create (replicate (Z.to_nat n) x00));
  mret (term_int (swrap 64 id)).

(** [proc::alloc_retry]: a heap at its quota ends the process with the reason of [Trap::HeapFull]. *)
Fixpoint alloc_retry (fuel : nat) (c : HM Term) : KM Term := fun s =>
  match fuel with
  | O => (NoFuel, s)
  | S fuel' =>
      let '(r, h) := c (k_heap s) in
      let s1 := k_with_heap h s in
      match r with
      | Ok t => (Ok t, s1)
      | Err HeapFull => let '(b, s2) := k_grow s1 in if b : bool then alloc_retry fuel' c s2 else (Err TrapHeapFull, s2)
      | Panic => (Panic, s1)
      | NoFuel => (NoFuel, s1)
      end
  end.

Definition k_buf_read (fuel : nat) (buf off len : Term) : KM Term :=
  id ← ok_or (as_int buf) Badarg;
  o ← ok_or (as_int off) Badarg;
  n ← ok_or (as_int len) Badarg;
  _ ← fail_if (bool_decide (o < 0) || bool_decide (n < 0)) Badarg;
  r ← on_k (rt_buf_read (wrap 64 id) o n);
  data ← ok_or r Badarg;
  alloc_retry fuel (binary data).

Definition k_buf_to_bin (fuel : nat) (id : Z) : KM Term :=
  r ← on_k (rt_buf_take (wrap 64 id));
  data ← ok_or r Badarg;
  alloc_retry fuel (binary data).

Definition k_bin_to_buf (bin : Term) : KM Term :=
  data ← binary_of bin;
  id ← on_k (rt_buf_create data);
  mret (term_int (swrap 64 id)).

(** The result of the call is returned after the caller's version was noted again. *)
Definition k_call_ext (lm : LoadedModule) (call : Z -> Z -> list Term -> KM Term) (ma fa : Z) (args : list Term) : KM Term := fun s =>
  let '(r, s1) := call ma fa args s in
  (r, note_running (rt_current (ks s1)) (lm_name lm) (lm_version lm) s1).

Definition KernelApi (fuel : nat) (call : Z -> Z -> list Term -> KM Term) (lm : LoadedModule) : SystemApi (KS K) := {|
  heap_state := k_heap;
  with_heap := k_with_heap;
  self_pid s := rt_current (ks s);
  api_send := k_send;
  api_recv := on_k rt_recv;
  api_spawn := k_spawn lm;
  safepoint := upd_k rt_safepoint;
  atom_global := k_atom_global lm;
  api_print t := upd_k (rt_print t);
  port_open := k_port_open;
  port_submit := k_port_submit;
  call_ext := k_call_ext lm call;
  buf_to_bin := k_buf_to_bin fuel;
  bin_to_buf := k_bin_to_buf;
  heap_grow := k_grow;
  tail_call := set_tail_target;
  tail_call_local := set_tail_target_local;
  buf_write := k_buf_write;
  buf_new := k_buf_new;
  buf_read := k_buf_read fuel;
  sleep_ms n := upd_k (rt_sleep n);
  api_ticks s := term_int (swrap 64 (rt_ticks (ks s)));
  port_submit2 := k_port_submit2;
|}.

(** ** Running *)

(** [invoke_once]: native code where there is some and the arity has an ABI, else the interpreter. *)
Definition invoke_once (fuel : nat) (call : Z -> Z -> list Term -> KM Term) (lm : LoadedModule) (fn_idx : Z) (args : list Term) : KM Term :=
  let interp := run_function (SystemApi0 := KernelApi fuel call lm) (lm_module lm) fuel fn_idx args in
  match lm_jit lm with
  | Some addrs =>
      if bool_decide (zlen args <= 16) then addr ← unwrap (lookupz addrs fn_idx); native addr args
      else interp
  | None => interp
  end.

(** Nested external calls recurse through the interpreter; [depth] bounds their nesting. *)
Fixpoint call_ext_dynamic (depth fuel : nat) (ma fa : Z) (args : list Term) : KM Term :=
  match depth with
  | O => nofuel
  | S depth' =>
      s ← get;
      target ← ok_or (current_module (ms s) (Atoms.name (atab (ms s)) ma)) Badarg;
      fn_idx ← ok_or (function_named (lm_module target) (Atoms.name (atab (ms s)) fa)) Badarg;
      f ← unwrap (lookupz (functions (lm_module target)) fn_idx);
      _ ← fail_if (negb (bool_decide (arity f = zlen args))) Badarg;
      _ ← modify (note_running (rt_current (ks s)) (lm_name target) (lm_version target));
      invoke_inner (invoke_once fuel (call_ext_dynamic depth' fuel)) false fuel target fn_idx args
  end.

Definition engine (depth fuel : nat) : Once := invoke_once fuel (call_ext_dynamic depth fuel).

Definition invoke (depth fuel : nat) (lm : LoadedModule) (fn_idx : Z) (args : list Term) : KM Term :=
  invoke_inner (engine depth fuel) false fuel lm fn_idx args.
Definition invoke_gc (depth fuel : nat) (lm : LoadedModule) (fn_idx : Z) (args : list Term) : KM Term :=
  invoke_inner (engine depth fuel) true fuel lm fn_idx args.

(** The reason a process exits with for a trap. *)
Definition trap_reason (t : AtomTable) (e : Trap) : list byte :=
  match e with
  | Exit a => Atoms.name t a
  | Badarg => [x62; x61; x64; x61; x72; x67]                                   (* "badarg" *)
  | BadCode => [x62; x61; x64; x63; x6f; x64; x65]                             (* "badcode" *)
  | TrapHeapFull => [x68; x65; x61; x70; x20; x71; x75; x6f; x74; x61; x20; x65; x78; x63; x65; x65; x64; x65; x64]   (* "heap quota exceeded" *)
  end.

(** The entry of a bytecode process: how it ends, [None] for a normal return. *)
Definition bytecode_entry (depth fuel : nat) (info : SpawnInfo) : TM (option (list byte)) := fun s =>
  let lm := si_module info in
  match lookupz (functions (lm_module lm)) (si_fn_idx info) with
  | None => (Panic, s)
  | Some f =>
      let args := if bool_decide (arity f = 0) then [] else [si_arg info] in
      let '(r, s1) := invoke_gc depth fuel lm (si_fn_idx info) args s in
      (match r with
       | Ok _ => Ok None
       | Err e => Ok (Some (trap_reason (atab (ms s1)) e))
       | Panic => Panic
       | NoFuel => NoFuel
       end, s1)
  end.
End modload.
