(* ===== verification/ModloadProofs.v ===== *)
(** * ModloadProofs: only verified code runs, and it runs safely

    The contract the module loader expects of the rest of the kernel ([RuntimeLaws]) and of the
    baseline compiler ([EngineLaws]), the invariant of the module tables, and the proof that the
    kernel's [SystemApi] keeps the interpreter's contract, nested external calls included. *)

From stdpp Require Import sorting.
From S2P Require Import Prelude Rings Term TermImm TermHeap TermVal TermCopy TermMap.
From S2P Require Import Bytecode BytecodeFormat BytecodeAnalysis Verify VerifySound Interp InterpSafe InterpRun InterpArms InterpFuel InterpExec.
From S2P Require Import Atoms Modload.

Section laws.
Context {K : Type} `{!Runtime K}.

Definition kvalid (k : K) (t : Term) : Prop := valid_in (rt_heap k) t.

(** Existing terms keep the values they denote. *)
Definition kextends (k k' : K) : Prop := forall v t, repr (InterpSafe.live (rt_heap k)) v t -> repr (InterpSafe.live (rt_heap k')) v t.

Definition kupdate (kgood : K -> Prop) (f : K -> K) (k : K) : Prop := kgood (f k) /\ kextends k (f k).

(** A service that may panic, and otherwise keeps the kernel good and the terms of the process. *)
Definition kcall {A} (kgood : K -> Prop) (Q : K -> A -> Prop) (c : M K Empty_set A) (k : K) : Prop :=
  let '(r, k') := c k in
  match r with
  | Ok x => (kgood k' /\ kextends k k') /\ Q k' x
  | NoFuel => kgood k' /\ kextends k k'
  | Panic => True
  | Err e => match e with end
  end.

(** Some service of the rest of the kernel panics when it is called in this state. *)
Inductive service_panics (k : K) : Prop :=
| sp_recv : (rt_recv k).1 = Panic -> service_panics k
| sp_spawn i : (rt_spawn i k).1 = Panic -> service_panics k
| sp_open n : (rt_open n k).1 = Panic -> service_panics k
| sp_submit i q : (rt_submit i q k).1 = Panic -> service_panics k
| sp_buf_write i o bs : (rt_buf_write i o bs k).1 = Panic -> service_panics k
| sp_buf_create bs : (rt_buf_create bs k).1 = Panic -> service_panics k
| sp_buf_read i o n : (rt_buf_read i o n k).1 = Panic -> service_panics k
| sp_buf_take i : (rt_buf_take i k).1 = Panic -> service_panics k
| sp_compact roots : (rt_compact roots k).1 = Panic -> service_panics k.
End laws.

(** What the loader expects of the rest of the kernel: services keep the process's heap well formed and its terms
    as they are; any of those that can fail may also panic. *)
Class RuntimeLaws (K : Type) `{!Runtime K} := {
  kgood : K -> Prop;
  rt_lens h k : rt_heap (rt_with_heap h k) = h;
  kgood_heap k : kgood k -> heap_ok (rt_heap k);
  kgood_with_heap k h : kgood k -> heap_step (rt_heap k) h -> kgood (rt_with_heap h k);
  rt_law_grow k : kgood k -> kgood (rt_grow k).2 /\ kextends k (rt_grow k).2;
  rt_law_safepoint k : kgood k -> kupdate kgood rt_safepoint k;
  rt_law_send k p t : kgood k -> kvalid k t -> kupdate kgood (rt_send p t) k;
  rt_law_print k t : kgood k -> kvalid k t -> kupdate kgood (rt_print t) k;
  rt_law_sleep k n : kgood k -> kupdate kgood (rt_sleep n) k;
  rt_law_kill k p : kgood k -> kupdate kgood (rt_kill p) k;
  rt_law_recv k : kgood k -> kcall kgood kvalid rt_recv k;
  rt_law_spawn k i : kgood k -> kcall kgood (fun _ _ => True) (rt_spawn i) k;
  rt_law_open k n : kgood k -> kcall kgood (fun k' o => forall t, o = Some t -> kvalid k' t) (rt_open n) k;
  rt_law_submit k i q : kgood k -> kcall kgood (fun _ _ => True) (rt_submit i q) k;
  rt_law_buf_write k i o bs : kgood k -> kcall kgood (fun _ _ => True) (rt_buf_write i o bs) k;
  rt_law_buf_create k bs : kgood k -> kcall kgood (fun _ _ => True) (rt_buf_create bs) k;
  rt_law_buf_read k i o n : kgood k -> kcall kgood (fun _ _ => True) (rt_buf_read i o n) k;
  rt_law_buf_take k i : kgood k -> kcall kgood (fun _ _ => True) (rt_buf_take i) k;
  rt_law_compact k roots : kgood k -> Forall (kvalid k) roots ->
    let '(r, k') := rt_compact roots k in
    match r with
    | Ok roots' => kgood k' /\ Forall (kvalid k') roots' /\ length roots' = length roots
    | NoFuel => kgood k'
    | Panic => True
    | Err e => match e with end
    end;
}.

(** ** The invariant of the tables *)

Section tables.
Context {K : Type} `{!Runtime K} `{!RuntimeLaws K} `{!Engine K}.
Context (published : Module_ -> list Z -> Prop).

(** Everything in the module table was verified, and native code has an entry per function. *)
Definition lm_ok (lm : LoadedModule) : Prop :=
  verify (lm_module lm) = Ok tt /\ sized (lm_module lm) /\
  match lm_jit lm with
  | Some addrs => published (lm_module lm) addrs /\ zlen addrs = zlen (functions (lm_module lm))
  | None => True
  end.

Definition in_table (d : Mods) (lm : LoadedModule) : Prop :=
  exists n sl, slots d !! n = Some sl /\ (lm = current sl \/ old sl = Some lm).

Record mods_ok (d : Mods) : Prop := {
  mo_verified lm : in_table d lm -> lm_ok lm;
  mo_ptr lm : in_table d lm -> lm_ptr lm < next_arc d;
  mo_unique lm lm' : in_table d lm -> in_table d lm' -> lm_ptr lm = lm_ptr lm' -> lm = lm';
  mo_version n sl o : slots d !! n = Some sl -> old sl = Some o -> lm_sealed o = false;
}.

Definition target_args (t : TailTarget) : list Term := match t with Ext _ _ a => a | Local _ a => a end.

Record sgood (s : KS K) : Prop := {
  sg_k : kgood (ks s);
  sg_mods : mods_ok (ms s);
  sg_stash t : tail_target (ms s) = Some t -> Forall (kvalid (ks s)) (target_args t);
}.

(** A stashed target: a local one names a function of [m]. *)
Definition has_target (m : Module_) (s : KS K) : Prop :=
  match tail_target (ms s) with
  | Some (Ext _ _ _) => True
  | Some (Local i args) => exists f, lookupz (functions m) i = Some f /\ arity f = zlen args
  | None => False
  end.

(** A computation that keeps the state good and the terms, fails only by traps other than [BadCode], and panics
    only where a service of the kernel does. *)
Definition keeps {A} (Q : KS K -> A -> Prop) (c : M (KS K) Trap A) (s : KS K) : Prop :=
  let '(r, s') := c s in sgood s' /\ kextends (ks s) (ks s') /\ contained (service_panics (ks s')) (Q s') r.

Lemma kextends_refl (k : K) : kextends k k.
Proof using Type. intros v t H. exact H. Qed.
Lemma kextends_trans (k1 k2 k3 : K) : kextends k1 k2 -> kextends k2 k3 -> kextends k1 k3.
Proof using Type. unfold kextends. auto. Qed.
Lemma kextends_valid (k k' : K) t : kextends k k' -> kvalid k t -> kvalid k' t.
Proof using Type. intros He [v Hv]. exists v. by apply He. Qed.
Lemma kextends_Forall (k k' : K) ts : kextends k k' -> Forall (kvalid k) ts -> Forall (kvalid k') ts.
Proof using Type. intros He Hts. eapply Forall_impl; [exact Hts|]. intros t. by apply kextends_valid. Qed.

(** The kernel side of a good state changes. *)
Lemma sgood_k s k : sgood s -> kgood k -> kextends (ks s) k -> sgood {| ks := k; ms := ms s |}.
Proof using Type. intros [Hk Hm Hs] Hg He. split; [done|done|]. intros t Ht. cbn. eapply kextends_Forall; [exact He|by apply Hs]. Qed.

(** The tables change, modules and stash apart. *)
Lemma sgood_m s (f : Mods -> Mods) : sgood s -> slots (f (ms s)) = slots (ms s) -> next_arc (f (ms s)) = next_arc (ms s) ->
  (forall t, tail_target (f (ms s)) = Some t -> Forall (kvalid (ks s)) (target_args t)) -> sgood (upd_m f s).
Proof using Type.
  intros [Hk [Hv Hp Hu Hver] Hs] Hsl Ha Ht. split; [done| |done]. unfold upd_m. cbn [ms].
  split; unfold in_table in *; rewrite ?Hsl, ?Ha; done.
Qed.

Lemma sgood_running s f : sgood s -> sgood (upd_m (fun d => with_running (f d) d) s).
Proof using Type. intros Hs. apply sgood_m; [done|done|done|]. exact (sg_stash s Hs). Qed.
Lemma sgood_atab s t : sgood s -> sgood (upd_m (with_atab t) s).
Proof using Type. intros Hs. apply sgood_m; [done|done|done|]. exact (sg_stash s Hs). Qed.
Lemma sgood_stash s t : sgood s -> (forall t', t = Some t' -> Forall (kvalid (ks s)) (target_args t')) -> sgood (upd_m (with_stash t) s).
Proof using Type. intros Hs Ht. by apply sgood_m. Qed.

Lemma keeps_bind {A B} (c : M (KS K) Trap A) (k : A -> M (KS K) Trap B) (P : KS K -> A -> Prop) (Q : KS K -> B -> Prop) s :
  keeps P c s -> (forall x s', sgood s' -> kextends (ks s) (ks s') -> P s' x -> keeps Q (k x) s') -> keeps Q (x ← c; k x) s.
Proof using Type.
  intros Hc Hk. unfold keeps, mbind, M_bind in *. destruct (c s) as [[x|e| |] s1]; destruct Hc as (Hg & He & Hr); try (by split_and!).
  specialize (Hk x s1 Hg He Hr). destruct (k x s1) as [r s2]. destruct Hk as (Hg2 & He2 & Hr2).
  split_and!; [done|by eapply kextends_trans|done].
Qed.

Lemma keeps_ret {A} (x : A) (Q : KS K -> A -> Prop) s : sgood s -> Q s x -> keeps Q (mret x) s.
Proof using Type. intros Hs HQ. split_and!; [done|apply kextends_refl|done]. Qed.

Lemma keeps_throw {A} e (Q : KS K -> A -> Prop) s : sgood s -> e <> BadCode -> keeps Q (throw e) s.
Proof using Type. intros Hs He. split_and!; [done|apply kextends_refl|done]. Qed.

Lemma keeps_mono {A} (P Q : KS K -> A -> Prop) (c : M (KS K) Trap A) s : keeps P c s -> (forall s' x, P s' x -> Q s' x) -> keeps Q c s.
Proof using Type. unfold keeps. destruct (c s) as [r s']. intros (? & ? & Hr) HPQ. split_and!; [done|done|]. eapply contained_mono; [exact Hr|auto]. Qed.

Lemma keeps_ok_or {A} (o : option A) e s : sgood s -> e <> BadCode -> keeps (fun s' x => s' = s /\ o = Some x) (ok_or o e) s.
Proof using Type. intros Hs He. destruct o; [by apply keeps_ret|by apply keeps_throw]. Qed.

Lemma keeps_fail_if b e s : sgood s -> e <> BadCode -> keeps (fun s' _ => s' = s /\ b = false) (fail_if b e) s.
Proof using Type. intros Hs He. destruct b; [by apply keeps_throw|by apply keeps_ret]. Qed.

Lemma keeps_upd (f : KS K -> KS K) s : sgood (f s) -> kextends (ks s) (ks (f s)) -> keeps (fun s' _ => s' = f s) (modify f) s.
Proof using Type. intros Hs He. by split_and!. Qed.

Lemma keeps_on_k {A} (c : M K Empty_set A) (P : K -> A -> Prop) s :
  sgood s -> kcall kgood P c (ks s) -> ((c (ks s)).1 = Panic -> service_panics (ks s)) ->
  keeps (fun s' x => P (ks s') x /\ ms s' = ms s) (on_k c) s.
Proof using Type.
  intros Hs Hc Hp. unfold keeps, on_k, kcall in *. destruct (c (ks s)) as [r k]. destruct r as [x|[]| |].
  - destruct Hc as [[Hg He] Hr]. split_and!; [by apply sgood_k|done|done].
  - split_and!; [done|apply kextends_refl|by apply Hp].
  - destruct Hc as [Hg He]. split_and!; [by apply sgood_k|done|done].
Qed.

Lemma keeps_upd_k (f : K -> K) s : sgood s -> kupdate kgood f (ks s) -> sgood (upd_k f s) /\ kextends (ks s) (ks (upd_k f s)).
Proof using Type. intros Hs [Hg He]. split; [by apply sgood_k|done]. Qed.
End tables.

(** ** The kernel's [SystemApi] keeps the interpreter's contract *)

Section api.
Context {K : Type} `{!Runtime K} `{!RuntimeLaws K} `{!Engine K}.
Context (published : Module_ -> list Z -> Prop).
Local Abbreviation sgood := (sgood published).
Local Abbreviation keeps := (keeps published).
Local Abbreviation svalid := (fun s : KS K => kvalid (ks s)).
Local Abbreviation triv := (fun (_ : KS K) _ => True).

Lemma svalid_int (s : KS K) v : svalid s (term_int v).
Proof using Type. apply valid_imm. rewrite term_int_header. by apply imm_header. Qed.

Lemma keeps_get (s : KS K) : sgood s -> keeps (fun s' x => s' = s /\ x = s) get s.
Proof using Type. intros Hs. split_and!; [done|apply kextends_refl|done]. Qed.

Lemma keeps_on_atoms {A} (c : M AtomTable Trap A) s : (forall t, exists x t', c t = (Ok x, t')) -> sgood s -> keeps triv (on_atoms c) s.
Proof using Type.
  intros Hc Hs. unfold keeps, on_atoms. destruct (Hc (atab (ms s))) as (x & t' & ->). split_and!; [by apply sgood_atab|apply kextends_refl|done].
Qed.

Lemma note_running_good pid n v s : sgood s -> sgood (note_running pid n v s) /\ kextends (ks s) (ks (note_running pid n v s)).
Proof using Type. intros Hs. split; [by apply sgood_running|apply kextends_refl]. Qed.

Lemma keeps_note pid n v s : sgood s -> keeps (fun s' _ => s' = note_running pid n v s) (modify (note_running pid n v)) s.
Proof using Type. intros Hs. destruct (note_running_good pid n v s Hs). by apply keeps_upd. Qed.

Lemma k_send_ok a b s : sgood s -> svalid s b -> keeps triv (k_send a b) s.
Proof using Type.
  intros Hs Hb. eapply keeps_bind; [by apply keeps_ok_or|]. intros p s' Hs' _ [-> _].
  destruct (keeps_upd_k published (rt_send p b) s Hs') as [Hg He]; [apply rt_law_send; [apply Hs'|done]|].
  eapply keeps_mono; [by apply keeps_upd|done].
Qed.

Lemma spawn_fn_ok lm i a s : sgood s -> keeps triv (spawn_fn lm i a) s.
Proof using Type.
  intros Hs. eapply keeps_bind; [apply keeps_on_k; [done|apply rt_law_spawn, Hs|apply sp_spawn]|]. intros p s1 Hs1 _ _.
  eapply keeps_bind; [by apply keeps_note|]. intros [] s2 Hs2 _ _. by apply keeps_ret.
Qed.

Lemma k_spawn_ok lm i f a s : sgood s -> lookupz (functions (lm_module lm)) i = Some f -> keeps triv (k_spawn lm i a) s.
Proof using Type. intros Hs Hf. unfold k_spawn. rewrite Hf. cbn. eapply keeps_bind; [by apply (keeps_ret published f (fun s' _ => s' = s))|]. intros _ s' Hs' _ _. by apply spawn_fn_ok. Qed.

Lemma k_atom_ok lm l s : sgood s -> keeps triv (k_atom_global lm l) s.
Proof using Type.
  intros Hs. unfold k_atom_global. destruct (lookupz _ _); [by apply keeps_ret|]. apply keeps_on_atoms; [|done]. intros t.
  unfold intern, mbind, M_bind, get. destruct (index t !! _); [by eauto|]. unfold modify. eauto.
Qed.

Lemma k_port_open_ok n s : sgood s -> keeps svalid (k_port_open n) s.
Proof using Type.
  intros Hs. eapply keeps_bind; [apply keeps_on_k; [done|apply rt_law_open, Hs|apply sp_open]|]. intros o s1 Hs1 _ [Ho _].
  eapply keeps_mono; [by apply keeps_ok_or|]. intros s2 t [-> ->]. by apply Ho.
Qed.

Lemma k_submit_ok i o a0 a1 tg s : sgood s -> keeps triv (k_submit i o a0 a1 tg) s.
Proof using Type.
  intros Hs. eapply keeps_bind; [apply keeps_on_k; [done|apply rt_law_submit, Hs|apply sp_submit]|]. intros [] s1 Hs1 _ _; [by apply keeps_ret|by apply keeps_throw].
Qed.

Lemma k_port_submit_ok p o a t s : sgood s -> keeps triv (k_port_submit p o a t) s.
Proof using Type.
  intros Hs. do 3 (eapply keeps_bind; [by apply keeps_ok_or|intros ? ? ? _ [-> _]]). by apply k_submit_ok.
Qed.

Lemma k_port_submit2_ok p o a b t s : sgood s -> keeps triv (k_port_submit2 p o a b t) s.
Proof using Type.
  intros Hs. do 5 (eapply keeps_bind; [by apply keeps_ok_or|intros ? ? ? _ [-> _]]). by apply k_submit_ok.
Qed.

Lemma binary_of_ok t s : sgood s -> svalid s t -> keeps (fun s' _ => s' = s) (binary_of t) s.
Proof using Type.
  intros Hs Ht. unfold keeps, binary_of. split_and!; [done|apply kextends_refl|].
  destruct (boxed_kind_is_ok (k_heap s) t KBinary Ht) as (b & -> & Hb). cbn [mbind res_bind]. destruct b; [|done]. specialize (Hb eq_refl).
  destruct (valid_kind _ t Ht) as (v & k & Hr & Hk & Hkv). unfold k_heap in *. rewrite Hb in Hk. injection Hk as <-. destruct Hkv as [bs ->].
  rewrite (bin_valid _ bs t Hr). done.
Qed.

Lemma k_buf_write_ok a b c s : sgood s -> svalid s c -> keeps svalid (k_buf_write a b c) s.
Proof using Type.
  intros Hs Hc. do 2 (eapply keeps_bind; [by apply keeps_ok_or|intros ? ? ? _ [-> _]]).
  eapply keeps_bind; [by apply binary_of_ok|]. intros bs s1 Hs1 _ ->. eapply keeps_bind; [by apply keeps_fail_if|]. intros _ s2 Hs2 _ [-> _].
  eapply keeps_bind; [apply keeps_on_k; [done|apply rt_law_buf_write, Hs|apply sp_buf_write]|]. intros [] s3 Hs3 _ _; [|by apply keeps_throw].
  apply keeps_ret; [done|apply svalid_int].
Qed.

Lemma k_buf_new_ok a s : sgood s -> keeps svalid (k_buf_new a) s.
Proof using Type.
  intros Hs. eapply keeps_bind; [by apply keeps_ok_or|]. intros n s1 Hs1 _ [-> _]. eapply keeps_bind; [by apply keeps_fail_if|]. intros _ s2 Hs2 _ [-> _].
  eapply keeps_bind; [apply keeps_on_k; [done|apply rt_law_buf_create, Hs|apply sp_buf_create]|]. intros i s3 Hs3 _ _. apply keeps_ret; [done|apply svalid_int].
Qed.

Lemma k_bin_to_buf_ok a s : sgood s -> svalid s a -> keeps svalid (k_bin_to_buf a) s.
Proof using Type.
  intros Hs Ha. eapply keeps_bind; [by apply binary_of_ok|]. intros bs s1 Hs1 _ ->.
  eapply keeps_bind; [apply keeps_on_k; [done|apply rt_law_buf_create, Hs|apply sp_buf_create]|]. intros i s3 Hs3 _ _. apply keeps_ret; [done|apply svalid_int].
Qed.

Lemma k_with_heap_ok h s : sgood s -> heap_step (k_heap s) h -> sgood (k_with_heap h s) /\ kextends (ks s) (ks (k_with_heap h s)).
Proof using Type.
  intros Hs Hst. assert (kextends (ks s) (rt_with_heap h (ks s))) as He.
  { intros v t Ht. rewrite rt_lens. eapply repr_mono; [by apply heap_step_live|done]. }
  split; [|done]. apply sgood_k; [done|apply kgood_with_heap; [apply Hs|done]|done].
Qed.

Lemma k_grow_ok s : sgood s -> sgood (k_grow s).2 /\ kextends (ks s) (ks (k_grow s).2).
Proof using Type.
  intros Hs. destruct (rt_law_grow (ks s) (sg_k _ _ Hs)) as [Hg He]. unfold k_grow. destruct (rt_grow (ks s)) as [b k]. split; [by apply sgood_k|done].
Qed.

Lemma alloc_retry_ok fuel bs : forall s, sgood s -> keeps svalid (alloc_retry fuel (binary bs)) s.
Proof using Type.
  induction fuel as [|fuel IH]; intros s Hs; [split_and!; [done|apply kextends_refl|done]|]. unfold keeps. cbn [alloc_retry].
  pose proof (makes_binary bs (k_heap s) (kgood_heap _ (sg_k _ _ Hs))) as Hm. unfold makes in Hm.
  destruct (binary bs (k_heap s)) as [r h]. destruct Hm as [Hst Hr]. destruct (k_with_heap_ok h s Hs Hst) as [Hs1 He1].
  destruct r as [t|[]| |]; [|..|done|done].
  - split_and!; [done|done|]. cbn. unfold kvalid. by rewrite rt_lens.
  - destruct (k_grow_ok _ Hs1) as [Hs2 He2]. destruct (k_grow (k_with_heap h s)) as [b s2]. cbn [snd] in *.
    pose proof (kextends_trans _ _ _ He1 He2) as He. destruct b; [|by split_and!].
    specialize (IH s2 Hs2). unfold keeps in IH. destruct (alloc_retry fuel (binary bs) s2) as [r s3]. destruct IH as (Hs3 & He3 & Hr3).
    split_and!; [done|by eapply kextends_trans|done].
Qed.

Lemma k_buf_read_ok fuel a b c s : sgood s -> keeps svalid (k_buf_read fuel a b c) s.
Proof using Type.
  intros Hs. do 3 (eapply keeps_bind; [by apply keeps_ok_or|intros ? ? ? _ [-> _]]). eapply keeps_bind; [by apply keeps_fail_if|]. intros _ s2 Hs2 _ [-> _].
  eapply keeps_bind; [apply keeps_on_k; [done|apply rt_law_buf_read, Hs|apply sp_buf_read]|]. intros o s3 Hs3 _ _.
  eapply keeps_bind; [by apply keeps_ok_or|]. intros bs s4 Hs4 _ [-> _]. by apply alloc_retry_ok.
Qed.

Lemma k_buf_to_bin_ok fuel i s : sgood s -> keeps svalid (k_buf_to_bin fuel i) s.
Proof using Type.
  intros Hs. eapply keeps_bind; [apply keeps_on_k; [done|apply rt_law_buf_take, Hs|apply sp_buf_take]|]. intros o s3 Hs3 _ _.
  eapply keeps_bind; [by apply keeps_ok_or|]. intros bs s4 Hs4 _ [-> _]. by apply alloc_retry_ok.
Qed.

Lemma set_tail_ok t s : sgood s -> Forall (kvalid (ks s)) (target_args t) ->
  sgood (upd_m (with_stash (Some t)) s) /\ kextends (ks s) (ks (upd_m (with_stash (Some t)) s)).
Proof using Type. intros Hs Ht. split; [|apply kextends_refl]. apply sgood_stash; [done|]. by intros t' [= <-]. Qed.

(** A dynamic call that keeps the contract. *)
Definition calls_ok (call : Z -> Z -> list Term -> M (KS K) Trap Term) : Prop := forall ma fa args s,
  sgood s -> Forall (kvalid (ks s)) args -> keeps svalid (call ma fa args) s.

#[local] Instance kernel_laws fuel call lm (Hcall : calls_ok call) :
  @ApiLawsUpTo (KS K) (KernelApi fuel call lm) (lm_module lm) (fun s => service_panics (ks s)).
Proof using All.
  unshelve econstructor; [exact sgood|exact (has_target (lm_module lm))|..]; cbn; unfold method, update, valid; cbn.
  - intros h s. apply rt_lens.
  - intros s Hs. apply (kgood_heap (ks s)), Hs.
  - intros s h Hs Hst. by apply k_with_heap_ok.
  - apply k_grow_ok.
  - intros s Hs. apply keeps_upd_k; [done|]. apply rt_law_safepoint, Hs.
  - intros s t Hs Ht. apply keeps_upd_k; [done|]. by apply rt_law_print; [apply Hs|].
  - intros s n Hs. apply keeps_upd_k; [done|]. by apply rt_law_sleep, Hs.
  - intros s mo fn args Hs Ha. split; [by apply (set_tail_ok (Ext mo fn args))|done].
  - intros s i f args Hs Ha Hf Har. split; [by apply (set_tail_ok (Local i args))|]. unfold has_target, set_tail_target_local. cbn. eauto.
  - intros s Hs. apply svalid_int.
  - intros s l Hs. exact (k_atom_ok lm l s Hs).
  - intros s a b Hs _ Hb. exact (k_send_ok a b s Hs Hb).
  - intros s _ Hs. eapply (keeps_mono _ (fun s' x => kvalid (ks s') x /\ ms s' = ms s)); [|by intros s' x [H _]].
    apply keeps_on_k; [done|apply rt_law_recv, Hs|apply sp_recv].
  - intros s i f a _ Hs _ Hf. exact (k_spawn_ok lm i f a s Hs Hf).
  - intros s n Hs. exact (k_port_open_ok n s Hs).
  - intros s p o a t Hs _ _ _. exact (k_port_submit_ok p o a t s Hs).
  - intros s p o a b t Hs _ _ _ _ _. exact (k_port_submit2_ok p o a b t s Hs).
  - intros s ma fa args Hs Ha. unfold k_call_ext. specialize (Hcall ma fa args s Hs Ha). unfold keeps in Hcall.
    destruct (call ma fa args s) as [r s1]. destruct Hcall as (Hs1 & He1 & Hr).
    destruct (note_running_good (rt_current (ks s1)) (lm_name lm) (lm_version lm) s1 Hs1). by split_and!.
  - intros s i Hs. exact (k_buf_to_bin_ok fuel i s Hs).
  - intros s b Hs Hb. exact (k_bin_to_buf_ok b s Hs Hb).
  - intros s a b c Hs _ _ Hc. exact (k_buf_write_ok a b c s Hs Hc).
  - intros s a Hs _. exact (k_buf_new_ok a s Hs).
  - intros s a b c Hs _ _ _. exact (k_buf_read_ok fuel a b c s Hs).
Defined.
End api.
