(* ===== verification/ModloadRun.v ===== *)
(** * ModloadRun: the trampoline

    Running a function of a loaded module through tail calls, external calls and compactions, and
    loading and purging modules, keep the invariant of [ModloadProofs]. *)

From stdpp Require Import sorting.
From S2P Require Import Prelude Rings Term TermImm TermHeap TermVal TermCopy TermMap.
From S2P Require Import Bytecode BytecodeFormat BytecodeAnalysis Verify VerifySound Interp InterpSafe InterpRun InterpArms InterpFuel InterpExec.
From S2P Require Import Atoms Modload ModloadProofs.

(** What the baseline compiler promises: the code it publishes for a verified module behaves within the
    interpreter's contract, and compiling touches nothing but the binding counters. *)
Class EngineLaws (K : Type) `{!Runtime K} `{!RuntimeLaws K} `{!Engine K} := {
  published : Module_ -> list Z -> Prop;
  law_compile m am (s : KS K) : verify m = Ok tt -> sgood published s ->
    let '(r, s') := compile m am resolve_ext_direct s in
    kgood (ks s') /\ kextends (ks s) (ks s') /\ (exists h n, ms s' = with_stats h n (ms s)) /\
    match r with
    | Ok (Some addrs) => published m addrs /\ zlen addrs = zlen (functions m)
    | Ok None => True
    | _ => False
    end;
  law_native m addrs i f a args (s : KS K) : published m addrs -> verify m = Ok tt -> lookupz (functions m) i = Some f ->
    lookupz addrs i = Some a -> arity f = zlen args -> sgood published s -> Forall (kvalid (ks s)) args ->
    keeps published (fun s' t => kvalid (ks s') t \/ (t = TAIL_SENTINEL /\ has_target m s')) (native a args) s;
}.

Section run.
Context {K : Type} `{!Runtime K} `{!RuntimeLaws K} `{!Engine K} `{!EngineLaws K}.
Local Abbreviation sgood := (sgood (K:=K) published).
Local Abbreviation keeps := (keeps (K:=K) published).
Local Abbreviation lm_ok := (lm_ok published).
Local Abbreviation svalid := (fun s : KS K => kvalid (ks s)).

(** A function that may be entered: it exists and takes these arguments. *)
Definition entry_ok (s : KS K) (lm : LoadedModule) (i : Z) (args : list Term) : Prop :=
  lm_ok lm /\ Forall (kvalid (ks s)) args /\ exists f, lookupz (functions (lm_module lm)) i = Some f /\ arity f = zlen args.

Definition once_ok (once : LoadedModule -> Z -> list Term -> M (KS K) Trap Term) : Prop := forall lm i args s,
  sgood s -> entry_ok s lm i args ->
  keeps (fun s' t => svalid s' t \/ (t = TAIL_SENTINEL /\ has_target (lm_module lm) s')) (once lm i args) s.

Lemma invoke_once_ok fuel call : calls_ok published call -> once_ok (invoke_once fuel call).
Proof using Type.
  intros Hcall lm i args s Hs ((Hv & Hsz & Hj) & Ha & f & Hf & Har). unfold invoke_once.
  assert (keeps (fun s' t => svalid s' t \/ (t = TAIL_SENTINEL /\ has_target (lm_module lm) s'))
    (run_function (SystemApi0 := KernelApi fuel call lm) (lm_module lm) fuel i args) s) as Hint.
  { pose proof (@run_function_safe (KS K) (KernelApi fuel call lm) (lm_module lm) _ (kernel_laws published fuel call lm Hcall)
      i f args s fuel Hv Hsz Hf Har Hs Ha) as H.
    eapply keeps_mono; [exact H|]. intros s' t [Ht|(Ht & _ & Hst)]; [by left|by right]. }
  destruct (lm_jit lm) as [addrs|]; [|done]. case_bool_decide; [|done]. destruct Hj as [Hpub Hlen].
  destruct (lookupz_is_Some addrs i) as [addr Haddr]; [rewrite Hlen; by eapply lookupz_range|]. rewrite Haddr. cbn.
  eapply keeps_bind; [by apply (keeps_ret published addr (fun s' x => s' = s /\ x = addr))|]. intros x s' Hs' _ [-> ->].
  by eapply law_native.
Qed.

Lemma current_ok d n lm : mods_ok published d -> current_module d n = Some lm -> lm_ok lm.
Proof using Type.
  intros Hd Hc. unfold current_module in Hc. apply fmap_Some in Hc as (sl & Hsl & ->).
  apply (mo_verified _ _ Hd). exists n, sl. auto.
Qed.

Lemma function_named_some m n i : function_named m n = Some i -> is_Some (lookupz (functions m) i).
Proof using Type.
  unfold function_named. intros H. apply lookupz_is_Some. revert H.
  assert (forall (l : list Function) j, position (fun f => bool_decide (lookupz (atoms m) (name_atom f) = Some n)) j l = Some i -> j <= i < j + zlen l) as Hp.
  { induction l as [|x l IH]; intros j; cbn [position]; [done|]. rewrite zlen_cons. pose proof (zlen_nonneg l).
    case_bool_decide; [intros [= ->]; lia|]. intros H'%IH. lia. }
  intros H%Hp. lia.
Qed.

Lemma next_tail_target_ok lm s : sgood s -> lm_ok lm -> has_target (lm_module lm) s ->
  keeps (fun s' x => let '(lm', i, args) := x in entry_ok s' lm' i args /\ tail_target (ms s') = None) (next_tail_target lm) s.
Proof using Type.
  intros Hs Hlm Ht. unfold next_tail_target, take_tail_target.
  eapply (keeps_bind published _ _ (fun s' x => s' = upd_m (with_stash None) s /\ x = tail_target (ms s))).
  { eapply keeps_bind; [by apply keeps_get|]. intros ? ? _ _ [-> ->].
    eapply keeps_bind; [apply keeps_upd; [by apply sgood_stash|apply kextends_refl]|]. intros [] s1 Hs1 _ ->. by apply keeps_ret. }
  intros o s1 Hs1 _ [-> ->]. unfold has_target in Ht. pose proof (sg_stash _ _ Hs) as Hst.
  destruct (tail_target (ms s)) as [t|]; [|done]. specialize (Hst t eq_refl).
  eapply keeps_bind; [by apply (keeps_ret published t (fun s' x => s' = upd_m (with_stash None) s /\ x = t))|]. intros ? ? _ _ [-> ->].
  destruct t as [ma fa targs|i targs]; cbn [target_args] in Hst.
  - eapply keeps_bind; [by apply keeps_get|]. intros ? ? _ _ [-> ->].
    eapply keeps_bind; [by apply keeps_ok_or|]. intros target ? _ _ [-> Hcur]. eapply keeps_bind; [by apply keeps_ok_or|].
    intros idx ? _ _ [-> Hidx]. destruct (function_named_some _ _ _ Hidx) as [f Hf]. rewrite Hf. cbn [unwrap].
    eapply keeps_bind; [by apply (keeps_ret published f (fun s' x => s' = upd_m (with_stash None) s /\ x = f))|]. intros ? ? _ _ [-> ->].
    eapply keeps_bind; [by apply keeps_fail_if|]. intros _ ? _ _ [-> Har].
    eapply keeps_bind; [by apply keeps_note|]. intros [] s2 Hs2 _ ->. apply keeps_ret; [done|]. split; [|done].
    split_and!; [eapply current_ok; [exact (sg_mods _ _ Hs1)|exact Hcur]|exact Hst|]. exists f. split; [done|].
    apply negb_false_iff, bool_decide_eq_true in Har. done.
  - apply keeps_ret; [done|]. split; [|done]. split_and!; [done|exact Hst|exact Ht].
Qed.

Lemma sentinel_kvalid (k : K) : ~ kvalid k TAIL_SENTINEL.
Proof using Type.
  intros [v Hv%repr_header].
  destruct (vheader v) as [[??]|]; [destruct Hv as [(_&Htag&_) _]|destruct Hv as [_ [_ Htag]]];
    revert Htag; vm_compute; intuition congruence.
Qed.

Lemma invoke_inner_ok once hops : once_ok once -> forall lm i args s,
  sgood s -> entry_ok s lm i args -> keeps svalid (invoke_inner once false hops lm i args) s.
Proof using Type.
  intros Ho. induction hops as [|hops IH]; intros lm i args s Hs He; [split_and!; [done|apply kextends_refl|done]|]. cbn [invoke_inner].
  eapply keeps_bind; [by apply Ho|]. intros r s1 Hs1 _ Hr. case_bool_decide as Hsent; cbn [negb].
  - destruct Hr as [Hr|[_ Ht]]; [subst r; by apply sentinel_kvalid in Hr|].
    eapply keeps_bind; [by apply next_tail_target_ok; [..|apply He|]|]. intros [[lm' i'] args'] s2 Hs2 _ [He2 _].
    eapply keeps_bind; [by apply (keeps_ret published args' (fun s' x => s' = s2 /\ x = args'))|]. intros ? ? _ _ [-> ->]. by apply IH.
  - destruct Hr as [Hr|[-> _]]; [|done]. by apply keeps_ret.
Qed.

Lemma call_ext_dynamic_ok depth fuel : calls_ok published (call_ext_dynamic (K:=K) depth fuel).
Proof using Type.
  induction depth as [|depth IH]; intros ma fa args s Hs Ha; [split_and!; [done|apply kextends_refl|done]|]. cbn [call_ext_dynamic].
  eapply keeps_bind; [by apply keeps_get|]. intros ? ? _ _ [-> ->].
  eapply keeps_bind; [by apply keeps_ok_or|]. intros target ? _ _ [-> Hcur]. eapply keeps_bind; [by apply keeps_ok_or|].
  intros idx ? _ _ [-> Hidx]. destruct (function_named_some _ _ _ Hidx) as [f Hf]. rewrite Hf. cbn [unwrap].
  eapply keeps_bind; [by apply (keeps_ret published f (fun s' x => s' = s /\ x = f))|]. intros ? ? _ _ [-> ->].
  eapply keeps_bind; [by apply keeps_fail_if|]. intros _ ? _ _ [-> Har].
  eapply keeps_bind; [by apply keeps_note|]. intros [] s2 Hs2 _ ->. apply invoke_inner_ok; [by apply invoke_once_ok|done|].
  split_and!; [eapply current_ok; [exact (sg_mods _ _ Hs)|exact Hcur]|exact Ha|]. exists f. split; [done|].
  apply negb_false_iff, bool_decide_eq_true in Har. done.
Qed.

Lemma engine_ok depth fuel : once_ok (engine (K:=K) depth fuel).
Proof using Type. apply invoke_once_ok, call_ext_dynamic_ok. Qed.

(** With compaction at every hop, only the values of the arguments survive, so the terms that
    existed before are not claimed. *)
Lemma invoke_gc_ok once hops : once_ok once -> forall lm i args s,
  sgood s -> entry_ok s lm i args ->
  let '(r, s') := invoke_inner once true hops lm i args s in sgood s' /\ contained (service_panics (ks s')) (svalid s') r.
Proof using Type.
  intros Ho. induction hops as [|hops IH]; intros lm i args s Hs He; [by split_and!|]. cbn [invoke_inner].
  pose proof (Ho lm i args s Hs He) as H1. unfold keeps, mbind, M_bind in *. destruct (once lm i args s) as [[r|e| |] s1]; destruct H1 as (Hs1 & _ & Hr); try (by split).
  cbn [contained] in Hr. case_bool_decide as Hsent; cbn [negb].
  2: { destruct Hr as [Hr|[-> _]]; [|done]. by split. }
  destruct Hr as [Hr|[_ Ht]]; [subst r; by apply sentinel_kvalid in Hr|].
  pose proof (next_tail_target_ok lm s1 Hs1 (proj1 He) Ht) as H2. unfold keeps in H2.
  destruct (next_tail_target lm s1) as [[[[lm' i'] args']|e| |] s2] eqn:Hn; destruct H2 as (Hs2 & _ & Hr2); try (by split).
  cbn [contained] in Hr2. destruct Hr2 as [(Hlm' & Ha' & f & Hf & Har) Hnone].
  pose proof (rt_law_compact (ks s2) args' (sg_k _ _ Hs2) Ha') as H3. pose proof (sp_compact (ks s2) args') as H4.
  unfold on_k. destruct (rt_compact args' (ks s2)) as [r3 k].
  assert (forall k', kgood k' -> sgood {| ks := k'; ms := ms s2 |}) as Hs3.
  { intros k' Hk. split; [done|exact (sg_mods _ _ Hs2)|]. cbn [ms]. intros t Htt. congruence. }
  destruct r3 as [args''|[]| |]; [|split; [done|by apply H4]|by split; [apply Hs3|]]. destruct H3 as (Hg & Hv & Hlen).
  apply IH; [by apply Hs3|]. split_and!; [done|done|]. exists f. split; [done|]. rewrite Har. by apply zlen_inj.
Qed.

(** ** Loading *)

Lemma intern_names_total {E} n t : exists i t', intern (E:=E) n t = (Ok i, t').
Proof using Type. unfold intern, mbind, M_bind, get, modify. destruct (index t !! n); eauto. Qed.

Lemma intern_all_total {E} l : forall t, exists is_ t', intern_all (E:=E) l t = (Ok is_, t').
Proof using Type.
  induction l as [|a l IH]; intros t; [by eexists _, _|]. cbn [intern_all]. destruct (intern_names_total (E:=E) a t) as (i & t1 & H1).
  destruct (IH t1) as (is_ & t2 & H2). exists (i :: is_), t2. by rewrite (bind_eval _ _ _ _ _ H1), (bind_eval _ _ _ _ _ H2).
Qed.

Lemma decode_sized bytes m : decode bytes = Ok m -> sized m.
Proof using Type.
  intros ((_ & _ & _ & Hf) & _)%decode_prefix i f Hi. apply lookupz_Some in Hi as [_ Hi]. rewrite Forall_forall in Hf.
  destruct (Hf f) as (_ & _ & _ & Hc); [by eapply list_elem_of_lookup_2|]. lia.
Qed.

(** One slot is replaced by a new instance in front of at most the instance it had. *)
Lemma mods_ok_insert d name lm o :
  mods_ok published d -> lm_ok lm -> lm_ptr lm = next_arc d ->
  (forall x, o = Some x -> lm_sealed x = false /\ exists sl, slots d !! name = Some sl /\ x = current sl) ->
  mods_ok published (with_slots (<[name := {| current := lm; old := o |}]> (slots d)) (with_arc (next_arc d + 1) d)).
Proof using Type.
  intros [Hv Hp Hu Hver] Hlm Hptr Ho.
  assert (forall x, in_table (with_slots (<[name := {| current := lm; old := o |}]> (slots d)) (with_arc (next_arc d + 1) d)) x -> x = lm \/ in_table d x) as Hin.
  { intros x (n & sl & Hsl & Hx). cbn in Hsl. apply lookup_insert_Some in Hsl as [[<- <-]|[_ Hsl]]; [|right; by exists n, sl].
    destruct Hx as [->|Hx]; [by left|]. cbn in Hx. destruct (Ho x Hx) as (_ & sl & Hsl & ->). right. exists name, sl. auto. }
  split.
  - intros x [->|Hx]%Hin; [done|auto].
  - cbn. intros x [->|Hx]%Hin; [lia|]. specialize (Hp x Hx). lia.
  - intros x y [->|Hx]%Hin [->|Hy]%Hin He; [done|specialize (Hp y Hy); lia|specialize (Hp x Hx); lia|auto].
  - cbn. intros n sl x Hsl Hx. apply lookup_insert_Some in Hsl as [[<- <-]|[_ Hsl]]; [by apply Ho|by eapply Hver].
Qed.

(** What a load does to the slot of its name. *)
Definition loaded_slot (d : Mods) (name : list byte) (sealed : bool) (m : Module_) (lm : LoadedModule) (d' : Mods) : Prop :=
  match slots d !! name with
  | Some sl =>
      if lm_sealed (current sl) then lm = current sl /\ slots d' = slots d
      else slots d' = <[name := {| current := lm; old := Some (current sl) |}]> (slots d) /\
           lm_version lm = wrap 64 (lm_version (current sl) + 1) /\ lm_module lm = m /\ lm_sealed lm = sealed
  | None => slots d' = <[name := {| current := lm; old := None |}]> (slots d) /\ lm_version lm = 1 /\ lm_module lm = m /\ lm_sealed lm = sealed
  end.

Lemma load_jit_ok (use_jit : bool) m am s : verify m = Ok tt -> sgood s -> exists jit s',
  (no_err (E:=LoadError) (if use_jit then compile m am resolve_ext_direct else mret None) : M (KS K) LoadError _) s = (Ok jit, s') /\
  kgood (ks s') /\ kextends (ks s) (ks s') /\ (exists h n, ms s' = with_stats h n (ms s)) /\
  match jit with Some addrs => published m addrs /\ zlen addrs = zlen (functions m) | None => True end.
Proof using Type.
  intros Hv Hs. unfold no_err, map_err. destruct use_jit.
  - pose proof (law_compile m am s Hv Hs) as Hc. destruct (compile m am resolve_ext_direct s) as [[o|[]| |] s']; destruct Hc as (? & ? & ? & Ho); [|done|done].
    exists o, s'. split_and!; try done.
  - exists None, s. split_and!; [done|exact (sg_k _ _ Hs)|apply kextends_refl| |done]. exists (ext_hits (ms s)), (ext_misses (ms s)). by destruct (ms s).
Qed.

Lemma load_full_ok name bytes use_jit sealed m s : sgood s -> decode bytes = Ok m -> verify m = Ok tt ->
  exists lm s', load_full name bytes use_jit sealed s = (Ok lm, s') /\ sgood s' /\ kextends (ks s) (ks s') /\ in_table (ms s') lm /\
    running (ms s') = running (ms s) /\ tail_target (ms s') = tail_target (ms s) /\ loaded_slot (ms s) name sealed m lm (ms s').
Proof using Type.
  intros Hs Hd Hv. unfold load_full. rewrite (bind_eval _ _ s m s) by (unfold lift_err, map_err, lift; by rewrite Hd).
  rewrite (bind_eval _ _ s tt s) by (unfold lift_err, map_err, lift; by rewrite Hv).
  destruct (intern_all_total (E:=LoadError) (atoms m) (atab (ms s))) as (am & t' & Hi).
  destruct (sentinel_bits m) as (bits & Hbits & _). set (s1 := upd_m (with_atab t') s). assert (sgood s1) as Hs1 by by apply sgood_atab.
  destruct (load_jit_ok use_jit m am s1 Hv Hs1) as (jit & s2 & Hj & Hk2 & He2 & (h & n & Hm2) & Hjit).
  rewrite (bind_eval _ _ s am s1) by (unfold on_atoms; by rewrite Hi).
  rewrite (bind_eval _ _ s1 bits s1) by (unfold no_err, map_err; by rewrite Hbits). rewrite (bind_eval _ _ _ _ _ Hj).
  erewrite bind_eval; [|reflexivity]. cbn zeta.
  assert (slots (ms s2) = slots (ms s) /\ next_arc (ms s2) = next_arc (ms s) /\ running (ms s2) = running (ms s) /\ tail_target (ms s2) = tail_target (ms s)) as (Esl & Earc & Erun & Est) by (rewrite Hm2; done).
  set (lm := {| lm_ptr := next_arc (ms s2) |}).
  erewrite bind_eval; [|reflexivity].
  assert (mods_ok published (ms s2)) as Hmo2 by (rewrite Hm2; destruct Hs as [_ [] _]; split; done).
  assert (forall t, tail_target (ms s2) = Some t -> Forall (kvalid (ks s2)) (target_args t)) as Hst2.
  { intros t Ht. rewrite Est in Ht. eapply kextends_Forall; [exact He2|]. by apply (sg_stash _ _ Hs). }
  assert (lm_ok lm) as Hlm by (split_and!; [done|by eapply decode_sized|exact Hjit]).
  unfold loaded_slot. rewrite <- Esl. destruct (slots (ms s2) !! name) as [sl|] eqn:Hsl; [destruct (lm_sealed (current sl)) eqn:Hse|].
  - exists (current sl), (upd_m (with_arc (next_arc (ms s2) + 1)) s2). split_and!; try done.
    + split; [done| |exact Hst2]. destruct Hmo2 as [Hv0 Hp0 Hu0 Hve0]. split; [done| |done|done]. cbn. intros x Hx. specialize (Hp0 x Hx). lia.
    + exists name, sl. split; [exact Hsl|by left].
  - exists lm, (upd_m (fun d => with_slots (<[name := {| current := lm; old := Some (current sl) |}]> (slots d)) d) (upd_m (with_arc (next_arc (ms s2) + 1)) s2)).
    split_and!; try done.
    + split; [done| |exact Hst2]. apply (mods_ok_insert (ms s2) name lm (Some (current sl))); [done|done|done|]. intros x [= <-]. eauto.
    + exists name, {| current := lm; old := Some (current sl) |}. split; [apply lookup_insert_eq|by left].
  - exists lm, (upd_m (fun d => with_slots (<[name := {| current := lm; old := None |}]> (slots d)) d) (upd_m (with_arc (next_arc (ms s2) + 1)) s2)).
    split_and!; try done.
    + split; [done| |exact Hst2]. by apply (mods_ok_insert (ms s2) name lm None).
    + exists name, {| current := lm; old := None |}. split; [apply lookup_insert_eq|by left].
Qed.
End run.
