(* ===== verification/ModloadThms.v ===== *)
(** * ModloadThms: what loading, running and purging modules promise

    The theorems over the contracts of [ModloadProofs] and [ModloadRun], a minimal kernel that
    keeps those contracts, and the programs that show where the code departs from its comments. *)

From stdpp Require Import sorting.
From S2P Require Import Prelude Rings Term TermImm TermHeap TermVal TermCopy TermMap.
From S2P Require Import Bytecode BytecodeFormat BytecodeAnalysis Verify VerifySound Interp InterpSafe InterpRun InterpArms InterpFuel InterpExec.
From S2P Require Import Atoms Modload ModloadProofs ModloadRun.

Section tables.
Context {K : Type} `{!Runtime K} `{!RuntimeLaws K} `{!Engine K} `{!EngineLaws K}.
Local Abbreviation sgood := (sgood (K:=K) published).

(** ** Purging *)

Lemma kills_good l : forall s : KS K, sgood s -> exists s', for_each l (fun pid => modify (upd_k (rt_kill pid))) s = ((Ok tt : res Empty_set unit), s') /\
  sgood s' /\ ks s' = foldl (fun k pid => rt_kill pid k) (ks s) l /\ ms s' = ms s.
Proof using Type.
  induction l as [|p l IH]; intros s Hs; [by exists s|]. cbn [for_each foldl].
  destruct (keeps_upd_k published (rt_kill p) s Hs) as [Hs1 _]; [apply rt_law_kill, Hs|].
  destruct (IH _ Hs1) as (s' & H & Hs' & Hk & Hm). exists s'. split_and!; [|done|done|done]. by erewrite bind_eval.
Qed.

Lemma mods_ok_drop_old d name sl : mods_ok published d -> slots d !! name = Some sl ->
  mods_ok published (with_slots (<[name := {| current := current sl; old := None |}]> (slots d)) d).
Proof using Type.
  intros [Hv Hp Hu Hver] Hsl.
  assert (forall x, in_table (with_slots (<[name := {| current := current sl; old := None |}]> (slots d)) d) x -> in_table d x) as Hin.
  { intros x (n & sl' & Hs' & Hx). cbn in Hs'. apply lookup_insert_Some in Hs' as [[<- <-]|[_ Hs']]; [|by exists n, sl'].
    destruct Hx as [->|Hx]; [|done]. exists name, sl. auto. }
  split; [auto|auto|auto|]. cbn. intros n sl' o Hs' Ho. apply lookup_insert_Some in Hs' as [[<- <-]|[_ Hs']]; [done|by eapply Hver].
Qed.

(** The processes a purge of [name] kills. *)
Definition outdated (s : KS K) (name : list byte) (cv pid : Z) : Prop :=
  rt_is_alive (ks s) pid = true /\ exists v, running (ms s) !! pid = Some (name, v) /\ v < cv.

Lemma purge_run name s sl : sgood s -> slots (ms s) !! name = Some sl ->
  exists killed s', purge name s = (Ok (zlen killed), s') /\ sgood s' /\
    NoDup killed /\ Sorted Z.le killed /\ (forall pid, pid ∈ killed <-> outdated s name (lm_version (current sl)) pid) /\
    ks s' = foldl (fun k pid => rt_kill pid k) (ks s) killed /\
    slots (ms s') = <[name := {| current := current sl; old := None |}]> (slots (ms s)) /\
    running (ms s') = filter (fun kv => rt_is_alive (ks s) kv.1 = true) (running (ms s)).
Proof using Type.
  intros Hs Hsl. unfold purge. rewrite (bind_eval get _ s s s eq_refl), Hsl.
  erewrite bind_eval; [|reflexivity]. erewrite bind_eval; [|reflexivity].
  set (alive := filter (fun kv => rt_is_alive (ks s) kv.1 = true) (running (ms s))).
  set (late := filter (fun kv => kv.2.1 = name /\ kv.2.2 < lm_version (current sl)) alive).
  set (killed := merge_sort Z.le (map_to_list late).*1). set (s1 := upd_m _ (upd_m _ s)).
  assert (sgood s1) as Hs1.
  { apply sgood_running with (f := fun _ => alive). destruct Hs as [Hk Hm Hst]. split; [done| |done]. by apply mods_ok_drop_old. }
  assert (killed ≡ₚ (map_to_list late).*1) as Hperm by apply merge_sort_Permutation.
  destruct (kills_good killed s1 Hs1) as (s' & Hrun & Hs' & Hk & Hm). exists killed, s'. split_and!.
  - by rewrite (bind_eval _ _ _ _ _ Hrun).
  - done.
  - rewrite Hperm. apply NoDup_fst_map_to_list.
  - apply (Sorted_merge_sort Z.le).
  - intros pid. rewrite Hperm, list_elem_of_fmap. split.
    + intros ([p [n v]] & -> & Hin). apply elem_of_map_to_list, map_lookup_filter_Some in Hin as [Hin [Hn Hv]].
      apply map_lookup_filter_Some in Hin as [Hin Hal]. cbn in *. subst n. split; [done|]. eauto.
    + intros [Hal (v & Hr & Hv)]. exists (pid, (name, v)). split; [done|]. apply elem_of_map_to_list, map_lookup_filter_Some.
      split; [|done]. by apply map_lookup_filter_Some.
  - done.
  - by rewrite Hm.
  - by rewrite Hm.
Qed.

(** ** Sequences of loads and purges *)

Inductive mod_op := OpLoad (name bytes : list byte) (use_jit sealed : bool) | OpLoadSealed (name bytes : list byte) (use_jit : bool) | OpPurge (name : list byte).

Definition mod_act (o : mod_op) (s : KS K) : KS K :=
  match o with
  | OpLoad n b j sealed => (load_full n b j sealed s).2
  | OpLoadSealed n b j => (load_sealed n b j s).2
  | OpPurge n => (purge n s).2
  end.

Definition holds_sealed (n : list byte) (lm : LoadedModule) (s : KS K) : Prop :=
  sgood s /\ lm_sealed lm = true /\ exists sl, slots (ms s) !! n = Some sl /\ current sl = lm.

Lemma load_fails n b j sealed (s : KS K) : (forall m, decode b = Ok m -> verify m <> Ok tt) -> (load_full n b j sealed s).2 = s.
Proof using Type.
  intros Hno. pose proof (decode_total b) as Ht. unfold load_full. destruct (decode b) as [m|e| |] eqn:Hd; [|done|done|done].
  rewrite (bind_eval _ _ s m s) by (unfold lift_err, map_err, lift; done).
  destruct (verify_total m) as [Hv|[e He]]; [by edestruct Hno|]. unfold mbind, M_bind, lift_err, map_err, lift. by rewrite He.
Qed.

Lemma loads_or_not b : (exists m, decode b = Ok m /\ verify m = Ok tt) \/ (forall m, decode b = Ok m -> verify m <> Ok tt).
Proof using Type.
  destruct (decode b) as [m|e| |]; [|by right..]. destruct (verify_total m) as [Hv|[e He]]; [left; eauto|].
  right. intros m' [= <-]. by rewrite He.
Qed.

Lemma load_keeps_sealed n lm n' b j sealed s : holds_sealed n lm s -> holds_sealed n lm (load_full n' b j sealed s).2.
Proof using Type.
  intros (Hs & Hse & sl & Hsl & Hcur).
  destruct (loads_or_not b) as [(m & Hd & Hv)|Hno].
  - destruct (load_full_ok n' b j sealed m s Hs Hd Hv) as (lm' & s' & -> & Hs' & _ & _ & _ & _ & Hslot). cbn [snd].
    split_and!; [done|done|]. unfold loaded_slot in Hslot. destruct (decide (n' = n)) as [->|Hne].
    + rewrite Hsl, Hcur, Hse in Hslot. destruct Hslot as [_ ->]. eauto.
    + exists sl. split; [|done]. destruct (slots (ms s) !! n') as [sl'|]; [destruct (lm_sealed (current sl'))|]; destruct Hslot as [? Hslot].
      * by rewrite Hslot.
      * by rewrite H, lookup_insert_ne.
      * by rewrite H, lookup_insert_ne.
  - rewrite load_fails by done. split_and!; eauto.
Qed.

Lemma act_keeps_sealed n lm o s : holds_sealed n lm s -> holds_sealed n lm (mod_act o s).
Proof using Type.
  intros H. destruct o as [n' b j sealed|n' b j|n']; cbn [mod_act]; [by apply load_keeps_sealed|..].
  - unfold load_sealed. rewrite (bind_eval get _ s s s eq_refl).
    destruct (slots (ms s) !! n') as [sl'|]; [destruct (lm_sealed (current sl')); [done|]|]; by apply load_keeps_sealed.
  - destruct H as (Hs & Hse & sl & Hsl & Hcur). destruct (slots (ms s) !! n') as [sl'|] eqn:Hsl'.
    2: { unfold purge. rewrite (bind_eval get _ s s s eq_refl), Hsl'. by split_and!; eauto. }
    destruct (purge_run n' s sl' Hs Hsl') as (killed & s' & -> & Hs' & _ & _ & _ & _ & Hslots & _). cbn [snd].
    split_and!; [done|done|]. rewrite Hslots. destruct (decide (n' = n)) as [->|Hne].
    + rewrite lookup_insert_eq. assert (sl' = sl) as -> by congruence. eauto.
    + rewrite lookup_insert_ne by done. eauto.
Qed.

Lemma deref_current d lm : mods_ok published d -> in_table d lm -> arc_deref d (lm_ptr lm) = Some lm.
Proof using Type.
  intros Hd Hin. unfold arc_deref. set (all := map_to_list (slots d) ≫= _).
  assert (forall x, In x all <-> in_table d x) as Hall.
  { intros x. rewrite <- list_elem_of_In. unfold all. rewrite list_elem_of_bind. split.
    - intros ([n sl] & Hx & Hsl%elem_of_map_to_list). exists n, sl. split; [done|]. cbn in Hx. apply elem_of_cons in Hx as [->|Hx]; [by left|].
      right. destruct (old sl); [|by apply not_elem_of_nil in Hx]. apply list_elem_of_singleton in Hx. by subst.
    - intros (n & sl & Hsl & Hx). exists (n, sl). split; [|by apply elem_of_map_to_list]. cbn. apply elem_of_cons.
      destruct Hx as [->|Hx]; [by left|]. right. rewrite Hx. by apply list_elem_of_singleton. }
  destruct (find _ all) as [x|] eqn:Hf.
  - apply find_some in Hf as [Hx He%bool_decide_eq_true]. f_equal. apply (mo_unique _ _ Hd); [by apply Hall|done|done].
  - exfalso. pose proof (find_none _ _ Hf lm (proj2 (Hall lm) Hin)) as Hn. cbn in Hn. by rewrite bool_decide_eq_false in Hn.
Qed.

Lemma acts_keep_sealed n lm ops : forall s, holds_sealed n lm s -> holds_sealed n lm (foldl (fun s o => mod_act o s) s ops).
Proof using Type. induction ops as [|o ops IH]; intros s H; cbn [foldl]; [done|]. by apply IH, act_keeps_sealed. Qed.
End tables.

(** A state of a core whose module tables, heap and stash are well formed. *)
Definition well_formed {K} `{!Runtime K} `{!RuntimeLaws K} `{!Engine K} `{!EngineLaws K} (s : KS K) : Prop := sgood published s.

(** ** A minimal kernel

    A process heap and nothing else: sends are dropped, nothing is received, ports and buffers
    are refused, and there is no compiler. *)

#[local] Instance bare_runtime : Runtime HS := {|
  rt_heap s := s;
  rt_with_heap h _ := h;
  rt_current _ := 1;
  rt_send _ _ s := s;
  rt_recv := mret NIL;
  rt_spawn _ := mret 2;
  rt_safepoint s := s;
  rt_print _ s := s;
  rt_open _ := mret None;
  rt_submit _ _ := mret false;
  rt_buf_write _ _ _ := mret false;
  rt_buf_create _ := mret 0;
  rt_buf_read _ _ _ := mret None;
  rt_buf_take _ := mret None;
  rt_sleep _ s := s;
  rt_ticks _ := 0;
  rt_grow s := (false, s);
  rt_compact roots := mret roots;
  rt_is_alive _ _ := true;
  rt_kill _ s := s |}.

#[local] Instance bare_runtime_laws : RuntimeLaws HS.
Proof.
  unshelve econstructor; [exact heap_ok|..].
  all: intros; unfold kcall, kupdate; cbn; repeat match goal with |- _ /\ _ => split end; try done; try apply kextends_refl.
  - by match goal with H : heap_step _ _ |- _ => destruct H end.
  - apply valid_imm. split_and!; by vm_compute.
Defined.

#[local] Instance no_engine : Engine HS := {| compile _ _ _ := mret None; native _ _ := throw Badarg |}.

#[local] Instance no_engine_laws : EngineLaws HS.
Proof.
  unshelve econstructor; [exact (fun _ _ => False)|..].
  - intros m am s Hv Hs. cbn. split_and!; [apply Hs|apply kextends_refl| |done]. exists (ext_hits (ms s)), (ext_misses (ms s)). by destruct (ms s).
  - done.
Defined.

Definition boot_state : KS HS :=
  {| ks := sample_heap 32;
     ms := {| slots := ∅; running := ∅; atab := ATOMS; tail_target := None; ext_hits := 0; ext_misses := 0; next_arc := 1 |} |}.

Lemma boot_good : sgood published boot_state.
Proof.
  assert (forall n sl, slots (ms boot_state) !! n = Some sl -> False) as H by (intros n sl; cbn [boot_state ms slots]; by rewrite lookup_empty).
  split; [exact sample_heap_ok| |done]. split.
  - intros lm (n & sl & Hsl & _). by apply H in Hsl.
  - intros lm (n & sl & Hsl & _). by apply H in Hsl.
  - intros lm lm' (n & sl & Hsl & _). by apply H in Hsl.
  - intros n sl o Hsl. by apply H in Hsl.
Qed.

(** The name under which the sample module is loaded, its bytes, and the state afterwards. *)
Definition mod_a : list byte := [x61].
Definition demo_bytes : list byte := encode demo_module.
Definition loaded_state : KS HS := (load_full mod_a demo_bytes true false boot_state).2.

Lemma demo_decodes : decode demo_bytes = Ok demo_module.
Proof. by vm_compute. Qed.

Lemma demo_verifies : verify demo_module = Ok tt.
Proof. by vm_compute. Qed.

(** ** Properties *)

(** C13: Loading decides what may run and keeps two versions.  Bytes that do not decode or do
    not verify are refused and change nothing.  Anything else is installed under its name with the version
    after the one it replaces, which becomes the old version and was not sealed; a sealed
    name keeps its instance, which is returned instead.  Everything in the table stays verified, and
    neither the running processes' versions nor a stashed tail call are touched. *)
Theorem load_two_versions {K} `{!Runtime K} `{!RuntimeLaws K} `{!Engine K} `{!EngineLaws K} name bytes use_jit sealed (s : KS K) :
  well_formed s ->
  match decode bytes with
  | Ok m =>
      match verify m with
      | Ok _ =>
          exists lm s', load_full name bytes use_jit sealed s = (Ok lm, s') /\ well_formed s' /\ in_table (ms s') lm /\
            running (ms s') = running (ms s) /\ tail_target (ms s') = tail_target (ms s) /\ loaded_slot (ms s) name sealed m lm (ms s')
      | Err e => load_full name bytes use_jit sealed s = (Err (LVerify e), s)
      | _ => False
      end
  | Err e => load_full name bytes use_jit sealed s = (Err (LDecode e), s)
  | _ => False
  end.
Proof.
  intros Hs. pose proof (decode_total bytes) as Ht. destruct (decode bytes) as [m|e| |] eqn:Hd; try done.
  - destruct (verify_total m) as [Hv|[e He]].
    + rewrite Hv. destruct (load_full_ok name bytes use_jit sealed m s Hs Hd Hv) as (lm & s' & ? & ? & _ & ? & ? & ? & ?). eauto 10.
    + rewrite He. unfold load_full. rewrite (bind_eval _ _ s m s) by (unfold lift_err, map_err, lift; by rewrite Hd).
      unfold mbind, M_bind, lift_err, map_err, lift. by rewrite He.
  - unfold load_full, mbind, M_bind, lift_err, map_err, lift. by rewrite Hd.
Qed.

Lemma load_two_versions_witness : exists lm s', load_full mod_a demo_bytes true false boot_state = (Ok lm, s') /\
  lm_version lm = 1 /\ lm_module lm = demo_module /\ sgood published s'.
Proof.
  pose proof (load_two_versions mod_a demo_bytes true false boot_state boot_good) as H. rewrite demo_decodes, demo_verifies in H.
  destruct H as (lm & s' & Hrun & Hs' & _ & _ & _ & Hsl). unfold loaded_slot in Hsl. cbn [boot_state ms slots] in Hsl.
  rewrite lookup_empty in Hsl. destruct Hsl as (_ & Hv & Hm & _). eauto 10.
Defined.

Lemma loaded_good : sgood published loaded_state.
Proof.
  destruct (load_full_ok mod_a demo_bytes true false demo_module boot_state boot_good demo_decodes demo_verifies) as (lm & s' & Hrun & Hs' & _).
  unfold loaded_state. by rewrite Hrun.
Qed.

(** C40: A sealed module is immortal: whatever is loaded or purged afterwards, its name still
    names the same instance, and the token that direct-bound callers hold still points to it. *)
Theorem sealed_immortal {K} `{!Runtime K} `{!RuntimeLaws K} `{!Engine K} `{!EngineLaws K} ops n sl (s : KS K) :
  sgood published s -> slots (ms s) !! n = Some sl -> lm_sealed (current sl) = true ->
  let s' := foldl (fun s o => mod_act o s) s ops in
  current_module (ms s') n = Some (current sl) /\ arc_deref (ms s') (lm_ptr (current sl)) = Some (current sl).
Proof.
  intros Hs Hsl Hse. destruct (acts_keep_sealed n (current sl) ops s) as (Hs' & _ & sl' & Hsl' & Hcur); [by split_and!; eauto|].
  unfold current_module. rewrite Hsl'. cbn [fmap option_fmap option_map]. split; [by rewrite Hcur|].
  apply deref_current; [apply Hs'|]. exists n, sl'. auto.
Qed.

Definition sealed_state : KS HS := (load_full mod_a demo_bytes false true boot_state).2.

Lemma sealed_immortal_witness : exists lm, lm_version lm = 1 /\
  let s' := foldl (fun s o => mod_act o s) sealed_state [OpLoad mod_a demo_bytes true false; OpPurge mod_a; OpLoad [x62] demo_bytes false false] in
  current_module (ms s') mod_a = Some lm /\ arc_deref (ms s') (lm_ptr lm) = Some lm.
Proof.
  destruct (load_full_ok mod_a demo_bytes false true demo_module boot_state boot_good demo_decodes demo_verifies) as (lm & s1 & Hrun & Hs1 & _ & _ & _ & _ & Hsl).
  unfold loaded_slot in Hsl. cbn [boot_state ms slots] in Hsl. rewrite lookup_empty in Hsl. destruct Hsl as (Hsl & Hv & _ & Hse).
  assert (s1 = sealed_state) as -> by (unfold sealed_state; by rewrite Hrun).
  exists lm. split; [exact Hv|]. apply (sealed_immortal _ mod_a {| current := lm; old := None |}); [exact Hs1|rewrite Hsl; apply lookup_insert_eq|exact Hse].
Defined.

(** A purge kills exactly the live processes registered at an outdated version of the
    module, each once and in the order of their pids, returns their number, drops the old
    version and the entries of dead processes, and changes no other slot. *)
Theorem purge_exact {K} `{!Runtime K} `{!RuntimeLaws K} `{!Engine K} `{!EngineLaws K} name (s : KS K) sl :
  sgood published s -> slots (ms s) !! name = Some sl ->
  exists killed s', purge name s = (Ok (zlen killed), s') /\ sgood published s' /\
    NoDup killed /\ Sorted Z.le killed /\ (forall pid, pid ∈ killed <-> outdated s name (lm_version (current sl)) pid) /\
    ks s' = foldl (fun k pid => rt_kill pid k) (ks s) killed /\
    slots (ms s') = <[name := {| current := current sl; old := None |}]> (slots (ms s)) /\
    running (ms s') = filter (fun kv => rt_is_alive (ks s) kv.1 = true) (running (ms s)).
Proof. apply purge_run. Qed.

(** A process at version 1 of a module that was loaded twice. *)
Definition reloaded_state : KS HS := (load_full mod_a demo_bytes true false (note_running 1 mod_a 1 loaded_state)).2.

Lemma purge_exact_witness : exists killed s', purge mod_a reloaded_state = (Ok (zlen killed), s') /\ sgood published s' /\ 1 ∈ killed.
Proof.
  assert (sgood published (note_running 1 mod_a 1 loaded_state)) as Hs by (apply sgood_running, loaded_good).
  destruct (load_full_ok mod_a demo_bytes true false demo_module _ Hs demo_decodes demo_verifies) as (lm & s1 & Hrun & Hs1 & _ & (n & sl & Hsl & Hin) & Hr & _).
  assert (s1 = reloaded_state) as -> by (unfold reloaded_state; by rewrite Hrun).
  assert ((fun sl => lm_version (current sl)) <$> slots (ms reloaded_state) !! mod_a = Some 2) as Hv by (vm_compute; reflexivity).
  apply fmap_Some in Hv as (sl2 & Hsl2 & Hv2).
  destruct (purge_exact mod_a reloaded_state sl2 Hs1 Hsl2) as (killed & s' & H1 & H2 & _ & _ & H3 & _).
  exists killed, s'. split; [exact H1|]. split; [exact H2|]. apply H3. split; [reflexivity|]. exists 1. split; [|rewrite <- Hv2; lia].
  rewrite Hr. vm_compute. reflexivity.
Defined.

(** C12: The trampoline is safe end to end.  A function of a module from the table, called
    with valid arguments, through any number of tail calls, version changes and nested
    external calls: no run traps with [BadCode], existing terms keep their values, the tables stay well formed, and
    what is returned is a term, never the sentinel.  The loader and the interpreter never panic: a
    panic can only be that of a service of the rest of the kernel, in the state it was called in.  Modules that
    were compiled are assumed to run within the same contract ([EngineLaws]). *)
Theorem invoke_safe {K} `{!Runtime K} `{!RuntimeLaws K} `{!Engine K} `{!EngineLaws K} depth fuel n lm i f args (s : KS K) :
  well_formed s -> current_module (ms s) n = Some lm -> lookupz (functions (lm_module lm)) i = Some f -> arity f = zlen args ->
  Forall (kvalid (ks s)) args ->
  let '(r, s') := invoke depth fuel lm i args s in
  well_formed s' /\ kextends (ks s) (ks s') /\
  match r with
  | Ok t => kvalid (ks s') t /\ t <> TAIL_SENTINEL
  | Err e => e <> BadCode
  | Panic => service_panics (ks s')
  | NoFuel => True
  end.
Proof.
  intros Hs Hcur Hf Har Ha. pose proof (invoke_inner_ok (engine depth fuel) fuel (engine_ok depth fuel) lm i args s Hs) as H.
  unfold invoke, keeps in *. destruct (invoke_inner _ _ _ _ _ _ _) as [r s']. destruct H as (Hs' & He & Hr).
  { split_and!; [eapply current_ok; [exact (sg_mods _ _ Hs)|exact Hcur]|done|eauto]. }
  split_and!; [done|done|]. destruct r; try done. split; [exact Hr|]. intros ->. by eapply sentinel_kvalid.
Qed.

Definition demo_lm : LoadedModule :=
  {| lm_ptr := 1; lm_name := mod_a; lm_version := 1; lm_module := demo_module; lm_atom_map := [0; 1]; lm_jit := None;
     lm_sealed := false; lm_tailers := [true; false] |}.

Lemma invoke_safe_witness : (invoke 1 20 demo_lm 1 [term_int 3] loaded_state).1 = Ok (term_int 0) /\
  sgood published (invoke 1 20 demo_lm 1 [term_int 3] loaded_state).2.
Proof.
  split; [vm_compute; reflexivity|].
  assert (current_module (ms loaded_state) mod_a = Some demo_lm) as Hc by (vm_compute; reflexivity).
  pose proof (invoke_safe 1 20 mod_a demo_lm 1 loop_fn [term_int 3] loaded_state loaded_good Hc eq_refl eq_refl) as H.
  destruct (invoke 1 20 demo_lm 1 [term_int 3] loaded_state) as [r s']. apply H. constructor; [|constructor]. apply svalid_int.
Defined.

(** A spawned process cannot bring the kernel down by itself: its entry ends normally or with the reason
    of a trap other than [BadCode], unless a service of the kernel panics. *)
Theorem bytecode_entry_safe {K} `{!Runtime K} `{!RuntimeLaws K} `{!Engine K} `{!EngineLaws K} depth fuel info f (s : KS K) :
  sgood published s -> lm_ok published (si_module info) -> lookupz (functions (lm_module (si_module info))) (si_fn_idx info) = Some f ->
  0 <= arity f <= 1 -> kvalid (ks s) (si_arg info) ->
  let '(r, s') := bytecode_entry depth fuel info s in
  sgood published s' /\
  match r with
  | Ok None | NoFuel => True
  | Ok (Some reason) => exists e, e <> BadCode /\ reason = trap_reason (atab (ms s')) e
  | Panic => service_panics (ks s')
  | _ => False
  end.
Proof.
  intros Hs Hlm Hf Har Ha. unfold bytecode_entry, invoke_gc. rewrite Hf. set (args := if bool_decide (arity f = 0) then [] else [si_arg info]).
  assert (entry_ok s (si_module info) (si_fn_idx info) args) as He.
  { split_and!; [done| |exists f; split; [done|]]; unfold args; case_bool_decide; [constructor|by repeat constructor|done|]. cbn. unfold zlen. cbn. lia. }
  pose proof (invoke_gc_ok (engine depth fuel) fuel (engine_ok depth fuel) _ _ args s Hs He) as H.
  destruct (invoke_inner _ _ _ _ _ _ _) as [[t|e| |] s']; destruct H as [Hs' Hr]; cbn [contained] in Hr; try done. split; [done|]. eauto.
Qed.

(** ** A kernel whose ports panic *)

(** [blk_drain_sq] panics on a write that is not a whole number of sectors; here every submission does. *)
Definition fragile_runtime : Runtime HS := {|
  rt_heap s := s;
  rt_with_heap h _ := h;
  rt_current _ := 1;
  rt_send _ _ s := s;
  rt_recv := mret NIL;
  rt_spawn _ := mret 2;
  rt_safepoint s := s;
  rt_print _ s := s;
  rt_open _ := mret (Some (term_port 1));
  rt_submit _ _ := panic;
  rt_buf_write _ _ _ := mret false;
  rt_buf_create _ := mret 0;
  rt_buf_read _ _ _ := mret None;
  rt_buf_take _ := mret None;
  rt_sleep _ s := s;
  rt_ticks _ := 0;
  rt_grow s := (false, s);
  rt_compact roots := mret roots;
  rt_is_alive _ _ := true;
  rt_kill _ s := s |}.

Lemma fragile_runtime_laws : @RuntimeLaws HS fragile_runtime.
Proof.
  unshelve econstructor; [exact heap_ok|..].
  all: intros; unfold kcall, kupdate; cbn; repeat match goal with |- _ /\ _ => split end; try done; try apply kextends_refl.
  - by match goal with H : heap_step _ _ |- _ => destruct H end.
  - apply valid_imm. split_and!; by vm_compute.
  - intros t [= <-]. apply valid_imm. split_and!; by vm_compute.
Qed.

(** PORT_OPEN r0; LOAD_INT r1 0; PORT_SUBMIT r0 2 r1 r1; RET r1 *)
Definition submitting_lm : LoadedModule :=
  {| lm_ptr := 1; lm_name := mod_a; lm_version := 1;
     lm_module := {| atoms := [[x61]]; functions := [{| name_atom := 0; arity := 0; nregs := 2;
       code := [x19; x00; x00; x01; x01; x00; x00; x00; x00; x00; x00; x00; x00; x1a; x00; x02; x01; x01; x13; x01] |}] |};
     lm_atom_map := [0]; lm_jit := None; lm_sealed := false; lm_tailers := [false] |}.

(** The verified program reaches the panic of the service. *)
Example port_panic_is_reached : verify (lm_module submitting_lm) = Ok tt /\
  (invoke (Runtime0 := fragile_runtime) (Engine0 := no_engine) 1 20 submitting_lm 0 [] boot_state).1 = Panic.
Proof. split; by vm_compute. Qed.

(** ** Where the code departs from its comments *)

Definition int_code (v : byte) : list byte := [x01; x00; v; x00; x00; x00; x00; x00; x00; x00; x13; x00].   (* LOAD_INT r0 v; RET r0 *)

(** [f0] calls [f1] and then returns 1; [f1] tail-calls [f2], which returns 7. *)
Definition unwinding_module : Module_ :=
  {| atoms := [[x61]];
     functions := [ {| name_atom := 0; arity := 0; nregs := 1; code := [x12; x00; x01; x00; x00; x00; x00] ++ int_code x01 |};
                    {| name_atom := 0; arity := 0; nregs := 1; code := [x31; x02; x00; x00; x00; x00] |};
                    {| name_atom := 0; arity := 0; nregs := 1; code := int_code x07 |} ] |}.

(** A tail call in a callee discards its callers: [f0] returns what [f2] returns, and the rest of [f0] never runs. *)
Definition unwinding_lm : LoadedModule :=
  {| lm_ptr := 1; lm_name := mod_a; lm_version := 1; lm_module := unwinding_module; lm_atom_map := [0]; lm_jit := None;
     lm_sealed := false; lm_tailers := [true; true; false] |}.

Lemma tail_call_drops_caller :
  (load_full mod_a (encode unwinding_module) false false boot_state).1 = Ok unwinding_lm /\
  (invoke 1 20 unwinding_lm 0 [] (load_full mod_a (encode unwinding_module) false false boot_state).2).1 = Ok (term_int 7).
Proof. split; vm_compute; reflexivity. Qed.

(** A process still at version 1 after two more loads is taken for one of version 3. *)
Lemma stale_process_module :
  let s := (load_full mod_a demo_bytes true false reloaded_state).2 in
  running (ms s) !! 1 = Some (mod_a, 1) /\ lm_version <$> current_process_module s = Some 3.
Proof. split; vm_compute; reflexivity. Qed.

(** A child that has moved to version 2 before its spawner registers it at version 1 is killed by a purge. *)
Lemma late_registration_kills :
  (purge mod_a (note_running 2 mod_a 1 (note_running 2 mod_a 2 (load_full mod_a demo_bytes true false loaded_state).2))).1 = Ok 1.
Proof. vm_compute. reflexivity. Qed.
