(* ===== verification/Luxpack.v ===== *)
(** * Luxpack: building a pack of modules and loading it

    A luxpack is the blob in which the build tool hands the compiled Lux modules to
    the kernel: the name of the entry module, the modules, and the source names that
    stand for them.  Models the writer ([build_luxpack] of [tools/xtask/src/main.rs])
    and the kernel's reader ([load_luxpack] and [lux_call] of
    [kernel/src/selftest.rs]), which loads every module sealed as it goes. *)

From S2P Require Import Prelude Term Bytecode Verify Interp Atoms Modload.

(** ** The writer *)

Record Pack := {
  p_entry : list byte;
  p_modules : list (list byte * list byte);
  p_aliases : list (list byte * list byte);
}.

(** What one program's manifest lists: modules with their files, and aliases. *)
Record Manifest := { mf_modules : list (list byte * list byte); mf_aliases : list (list byte * list byte) }.

(** A module already listed under its name keeps its first file. *)
Definition add_module (l : list (list byte * list byte)) (m : list byte * list byte) : list (list byte * list byte) :=
  if existsb (fun e => bool_decide (e.1 = m.1)) l then l else l ++ [m].

(** An alias already listed is redirected in place. *)
Fixpoint add_alias (l : list (list byte * list byte)) (a : list byte * list byte) : list (list byte * list byte) :=
  match l with
  | [] => [a]
  | e :: l' => if bool_decide (e.1 = a.1) then (e.1, a.2) :: l' else e :: add_alias l' a
  end.

Definition collect_manifest (acc : list (list byte * list byte) * list (list byte * list byte)) (mf : Manifest) :=
  (foldl add_module acc.1 (mf_modules mf), foldl add_alias acc.2 (mf_aliases mf)).

(** [read] is the content of an artifact. *)
Definition build_pack (entry : list byte) (manifests : list Manifest) (read : list byte -> list byte) : Pack :=
  let '(mods, als) := foldl collect_manifest ([], []) manifests in
  {| p_entry := entry; p_modules := map (fun m => (m.1, read m.2)) mods; p_aliases := als |}.

(** [b"LUXPK1\n"] *)
Definition LUX_MAGIC : list byte := [x4c; x55; x58; x50; x4b; x31; x0a].

(** A length as [u32], then the bytes. *)
Definition field (bs : list byte) : list byte := le_bytes 4 (zlen bs) ++ bs.
Definition field_pair (e : list byte * list byte) : list byte := field e.1 ++ field e.2.

Definition write_pack (p : Pack) : list byte :=
  LUX_MAGIC ++ field (p_entry p) ++
  le_bytes 4 (zlen (p_modules p)) ++ concat (map field_pair (p_modules p)) ++
  le_bytes 4 (zlen (p_aliases p)) ++ concat (map field_pair (p_aliases p)).

(** ** The reader *)

(** A cursor over the bytes, and the state behind it. *)
Record Cursor (S : Type) := { c_at : Z; c_st : S }.
Arguments c_at {S} _.
Arguments c_st {S} _.
Arguments Build_Cursor {S} _ _.

Section cursor.
Context {S : Type} (bytes : list byte).
Abbreviation CM := (M (Cursor S) unit).

Definition take (n : Z) : CM (list byte) := fun c =>
  match slice bytes (c_at c) (c_at c + n) with
  | None => (Err tt, c)
  | Some x => (Ok x, {| c_at := c_at c + n; c_st := c_st c |})
  end.

Definition u32at : CM Z := x ← take 4; mret (le_val x).

Definition strat : CM (list byte) :=
  n ← u32at;
  x ← take n;
  _ ← fail_if (negb (valid_utf8 x)) tt;
  mret x.

(** A step of the state behind the cursor; its error ends the parse. *)
Definition on_state {E A} (c : M S E A) : CM A := fun cur =>
  let '(r, s) := c (c_st cur) in
  (match r with Ok a => Ok a | Err _ => Err tt | Panic => Panic | NoFuel => NoFuel end, {| c_at := c_at cur; c_st := s |}).

(** A name, the bytes of its module, and what is done with them. *)
Definition read_entry {E} (install : list byte -> list byte -> M S E unit) : CM unit :=
  name ← strat;
  dlen ← u32at;
  data ← take dlen;
  on_state (install name data).
End cursor.

Section loader.
Context {K : Type} `{!Runtime K} `{!Engine K}.

(** The kernel and [LUX_ALIASES]. *)
Record LuxState := { lx_k : KS K; lx_aliases : gmap (list byte) (list byte) }.

Definition LUX_USE_JIT : bool := true.

Definition lux_load (name data : list byte) : M LuxState LoadError LoadedModule := fun s =>
  let '(r, k) := load_sealed name data LUX_USE_JIT (lx_k s) in (r, {| lx_k := k; lx_aliases := lx_aliases s |}).

Definition lux_alias (name hash : list byte) (s : LuxState) : LuxState :=
  {| lx_k := lx_k s; lx_aliases := <[name := hash]> (lx_aliases s) |}.

Abbreviation LM := (M (Cursor LuxState) unit).

Definition load_module_entry (bytes : list byte) : LM unit :=
  read_entry bytes (fun name data => _ ← lux_load name data; mret tt).

Definition load_alias_entry (bytes : list byte) : LM unit :=
  name ← strat bytes;
  hash ← strat bytes;
  on_state (E := unit) (modify (lux_alias name hash)).

Definition load_luxpack_m (bytes : list byte) : LM (list byte) :=
  magic ← take bytes 7;
  _ ← fail_if (negb (bool_decide (magic = LUX_MAGIC))) tt;
  entry ← strat bytes;
  count ← u32at bytes;
  _ ← repeat_m (Z.to_nat count) (load_module_entry bytes);
  alias_count ← u32at bytes;
  _ ← repeat_m (Z.to_nat alias_count) (load_alias_entry bytes);
  mret entry.

(** [None] is the error. *)
Definition load_luxpack (bytes : list byte) : M LuxState unit (list byte) := fun s =>
  let '(r, c) := load_luxpack_m bytes {| c_at := 0; c_st := s |} in (r, c_st c).

(** Invoke the [apply] function of the module an alias stands for; anything
    missing, and a trap, is a panic. *)
Definition str_apply : list byte := [x61; x70; x70; x6c; x79].

Definition lux_call (depth fuel : nat) (name : list byte) (args : list Term) : M LuxState Empty_set Term := fun s =>
  match lx_aliases s !! name with
  | None => (Panic, s)
  | Some hash =>
      match current_module (ms (lx_k s)) hash with
      | None => (Panic, s)
      | Some lm =>
          match function_named (lm_module lm) str_apply with
          | None => (Panic, s)
          | Some fn_idx =>
              let '(r, k) := invoke depth fuel lm fn_idx args (lx_k s) in
              (match r with Ok t => Ok t | Err _ => Panic | Panic => Panic | NoFuel => NoFuel end,
               {| lx_k := k; lx_aliases := lx_aliases s |})
          end
      end
  end.
End loader.
