(* ===== verification/LuxpackThms.v ===== *)
(** * LuxpackThms: a pack written by the build tool installs its modules

    The kernel reads back exactly what the writer wrote; arbitrary bytes neither
    panic the loader nor leave the module table ill-formed; and after a pack of
    good modules with new names has been loaded, every one of them is installed
    sealed and every alias leads to the module it was given. *)

From stdpp Require Import sorting.
From S2P Require Import Prelude Term TermImm TermHeap TermVal Bytecode BytecodeFormat BytecodeAnalysis Verify VerifySound.
From S2P Require Import Interp InterpSafe InterpRun Atoms Modload ModloadProofs ModloadRun ModloadThms Luxpack.

(** ** Reading fields *)

Definition fits (bs : list byte) : Prop := zlen bs < 2 ^ 32.
Definition name_ok (bs : list byte) : Prop := fits bs /\ valid_utf8 bs = true.

Section reading.
Context {S : Type}.
Abbreviation at_ pre st := {| c_at := zlen pre; c_st := st |}.

Lemma take_at pre x rest (st : S) : take (pre ++ x ++ rest) (zlen x) (at_ pre st) = (Ok x, at_ (pre ++ x) st).
Proof. unfold take. cbn [c_at c_st]. rewrite slice_mid. by rewrite zlen_app. Qed.

Lemma u32_at pre v rest (st : S) : 0 <= v < 2 ^ 32 ->
  u32at (pre ++ le_bytes 4 v ++ rest) (at_ pre st) = (Ok v, at_ (pre ++ le_bytes 4 v) st).
Proof.
  intros Hv. unfold u32at. pose proof (take_at pre (le_bytes 4 v) rest st) as H.
  change (zlen (le_bytes 4 v)) with 4 in H. rewrite (bind_eval _ _ _ _ _ H). unfold mret, M_ret.
  rewrite le_val_bytes, Z.mod_small by (cbn; lia). done.
Qed.

Lemma strat_at pre x rest (st : S) : name_ok x -> strat (pre ++ field x ++ rest) (at_ pre st) = (Ok x, at_ (pre ++ field x) st).
Proof.
  intros [Hf Hu]. unfold strat, field. rewrite <- app_assoc. pose proof (zlen_nonneg x).
  rewrite (bind_eval _ _ _ _ _ (u32_at pre (zlen x) (x ++ rest) st ltac:(unfold fits in Hf; lia))).
  rewrite app_assoc. rewrite (bind_eval _ _ _ _ _ (take_at (pre ++ le_bytes 4 (zlen x)) x rest st)).
  rewrite Hu. unfold mret, M_ret. by rewrite <- app_assoc.
Qed.

(** An entry of a pack hands its name and its bytes on. *)
Context {E : Type} (f : list byte -> list byte -> M S E unit).
Definition installing (e : list byte * list byte) : M S unit unit := map_err (fun _ => tt) (f e.1 e.2).

Lemma read_entry_at pre e rest st : name_ok e.1 -> fits e.2 ->
  read_entry (pre ++ field_pair e ++ rest) f (at_ pre st) = ((installing e st).1, at_ (pre ++ field_pair e) (installing e st).2).
Proof.
  intros Hn Hd. unfold read_entry. replace (pre ++ field_pair e ++ rest) with (pre ++ field e.1 ++ field e.2 ++ rest)
    by (unfold field_pair; by rewrite <- app_assoc).
  rewrite (bind_eval _ _ _ _ _ (strat_at pre e.1 (field e.2 ++ rest) st Hn)). pose proof (zlen_nonneg e.2).
  replace (pre ++ field e.1 ++ field e.2 ++ rest) with ((pre ++ field e.1) ++ le_bytes 4 (zlen e.2) ++ e.2 ++ rest)
    by (unfold field; by rewrite <- !app_assoc).
  rewrite (bind_eval _ _ _ _ _ (u32_at (pre ++ field e.1) (zlen e.2) (e.2 ++ rest) st ltac:(unfold fits in Hd; lia))).
  rewrite app_assoc.
  rewrite (bind_eval _ _ _ _ _ (take_at ((pre ++ field e.1) ++ le_bytes 4 (zlen e.2)) e.2 rest st)).
  replace (((pre ++ field e.1) ++ le_bytes 4 (zlen e.2)) ++ e.2) with (pre ++ field_pair e)
    by (unfold field_pair, field; by rewrite <- !app_assoc).
  unfold installing, on_state, map_err. cbn [c_st c_at]. by destruct (f e.1 e.2 st) as [[] st'].
Qed.

Lemma read_entries_at bytes es : forall pre rest st,
  bytes = pre ++ concat (map field_pair es) ++ rest -> Forall (fun e => name_ok e.1 /\ fits e.2) es ->
  let '(r, st') := for_each es installing st in
  exists c, repeat_m (length es) (read_entry bytes f) (at_ pre st) = (r, c) /\ c_st c = st' /\
    (r = Ok tt -> c = at_ (pre ++ concat (map field_pair es)) st').
Proof.
  induction es as [|e es IH]; intros pre rest st Hb HF; cbn [for_each length repeat_m map concat].
  { eexists. split; [done|]. split; [done|]. by rewrite app_nil_r. }
  apply Forall_cons in HF as [[Hn Hd] HF]. cbn [map concat] in Hb. rewrite <- app_assoc in Hb.
  pose proof (read_entry_at pre e (concat (map field_pair es) ++ rest) st Hn Hd) as He. rewrite <- Hb in He.
  unfold mbind at 1 2, M_bind. rewrite He. destruct (installing e st) as [[[]| | |] st1]; cbn [fst snd]; [|by eexists..].
  specialize (IH (pre ++ field_pair e) rest st1). rewrite <- app_assoc in IH. specialize (IH Hb HF).
  destruct (for_each es installing st1) as [r st']. by rewrite <- app_assoc in IH.
Qed.
End reading.

Section steps.
Context {S : Type} (G : S -> Prop).

(** Parsing steps: good states stay good, failures are errors. *)
Definition step_ok {A} (c : M (Cursor S) unit A) : Prop := forall cur, G (c_st cur) ->
  G (c_st (c cur).2) /\ (c cur).1 <> Panic /\ (c cur).1 <> NoFuel.

Lemma step_bind {A B} (c : M (Cursor S) unit A) (k : A -> M (Cursor S) unit B) :
  step_ok c -> (forall a, step_ok (k a)) -> step_ok (x ← c; k x).
Proof.
  intros Hc Hk cur H. specialize (Hc cur H). unfold mbind, M_bind. destruct (c cur) as [[a|e| |] cur']; cbn in *; try naive_solver.
  apply Hk, Hc.
Qed.

Lemma step_ret {A} (a : A) : step_ok (mret a).
Proof. done. Qed.
Lemma step_fail b : step_ok (fail_if b tt).
Proof. by destruct b. Qed.
Lemma step_take bytes n : step_ok (take bytes n).
Proof. intros cur H. unfold take. by destruct (slice _ _ _). Qed.
Lemma step_u32 bytes : step_ok (u32at bytes).
Proof. apply step_bind; [apply step_take|intros a; apply step_ret]. Qed.
Lemma step_strat bytes : step_ok (strat bytes).
Proof.
  apply step_bind; [apply step_u32|intros n]. apply step_bind; [apply step_take|intros x].
  apply step_bind; [apply step_fail|intros ?; apply step_ret].
Qed.
Lemma step_entry {E} bytes (f : list byte -> list byte -> M S E unit) : (forall n d, step_ok (on_state (f n d))) -> step_ok (read_entry bytes f).
Proof.
  intros Hf. apply step_bind; [apply step_strat|intros n]. apply step_bind; [apply step_u32|intros l]. apply step_bind; [apply step_take|intros d; apply Hf].
Qed.
Lemma step_repeat n (c : M (Cursor S) unit unit) : step_ok c -> step_ok (repeat_m n c).
Proof. intros Hc. induction n as [|n IH]; [apply step_ret|]. cbn [repeat_m]. by apply step_bind. Qed.
End steps.

(** A computation that fails ends the sequence. *)
Lemma bind_stop {S E A B} (c : M S E A) (k : A -> M S E B) s r s1 : c s = (r, s1) -> (forall a, r <> Ok a) ->
  (x ← c; k x) s = (match r with Ok _ => Panic | Err e => Err e | Panic => Panic | NoFuel => NoFuel end, s1).
Proof. unfold mbind, M_bind. intros -> Hr. destruct r; try done. by destruct (Hr a). Qed.

Section packs.
Context {K : Type} `{!Runtime K} `{!Engine K}.
Abbreviation LS := (LuxState (K := K)).
Abbreviation at_ pre st := {| c_at := zlen pre; c_st := st |}.

(** What loading a pack means. *)
Definition install : list byte * list byte -> M LS unit unit := installing (fun name data => _ ← lux_load name data; mret tt).
Definition apply_aliases (als : list (list byte * list byte)) (s : LS) : LS := foldl (fun s a => lux_alias a.1 a.2 s) s als.
Definition apply_pack (p : Pack) : M LS unit (list byte) :=
  _ ← for_each (p_modules p) install;
  _ ← modify (apply_aliases (p_aliases p));
  mret (p_entry p).

Record pack_ok (p : Pack) : Prop := {
  po_entry : name_ok (p_entry p);
  po_modules : Forall (fun e => name_ok e.1 /\ fits e.2) (p_modules p);
  po_aliases : Forall (fun e => name_ok e.1 /\ name_ok e.2) (p_aliases p);
  po_counts : zlen (p_modules p) < 2 ^ 32 /\ zlen (p_aliases p) < 2 ^ 32;
}.

Lemma alias_entry_at pre e rest (st : LS) : name_ok e.1 -> name_ok e.2 ->
  load_alias_entry (pre ++ field_pair e ++ rest) (at_ pre st) = (Ok tt, at_ (pre ++ field_pair e) (lux_alias e.1 e.2 st)).
Proof.
  intros H1 H2. unfold load_alias_entry. replace (pre ++ field_pair e ++ rest) with (pre ++ field e.1 ++ field e.2 ++ rest)
    by (unfold field_pair; by rewrite <- app_assoc).
  rewrite (bind_eval _ _ _ _ _ (strat_at pre e.1 (field e.2 ++ rest) st H1)). rewrite app_assoc.
  rewrite (bind_eval _ _ _ _ _ (strat_at (pre ++ field e.1) e.2 rest st H2)). rewrite <- app_assoc. done.
Qed.

Lemma alias_entries_at bytes es : forall pre rest (st : LS),
  bytes = pre ++ concat (map field_pair es) ++ rest -> Forall (fun e => name_ok e.1 /\ name_ok e.2) es ->
  repeat_m (length es) (load_alias_entry bytes) (at_ pre st) =
  (Ok tt, at_ (pre ++ concat (map field_pair es)) (apply_aliases es st)).
Proof.
  induction es as [|e es IH]; intros pre rest st Hb HF; cbn [length repeat_m map concat].
  { by rewrite app_nil_r. }
  apply Forall_cons in HF as [[Hn Hd] HF]. cbn [map concat] in Hb. rewrite <- app_assoc in Hb.
  pose proof (alias_entry_at pre e (concat (map field_pair es) ++ rest) st Hn Hd) as He. rewrite <- Hb in He.
  rewrite (bind_eval _ _ _ _ _ He), (IH (pre ++ field_pair e) rest); [|by rewrite <- app_assoc|done].
  by rewrite <- app_assoc.
Qed.

(** The reader undoes the writer, on every state and whatever follows the pack. *)
Lemma load_written p rest st : pack_ok p -> load_luxpack (write_pack p ++ rest) st = apply_pack p st.
Proof.
  intros [He Hm Ha [Hcm Hca]]. unfold load_luxpack, load_luxpack_m. set (bytes := write_pack p ++ rest).
  pose proof (zlen_nonneg (p_modules p)). pose proof (zlen_nonneg (p_aliases p)).
  set (mods := concat (map field_pair (p_modules p))). set (als := concat (map field_pair (p_aliases p))).
  assert (bytes = LUX_MAGIC ++ field (p_entry p) ++ le_bytes 4 (zlen (p_modules p)) ++ mods ++
    le_bytes 4 (zlen (p_aliases p)) ++ als ++ rest) as Hb by (unfold bytes, write_pack; by rewrite <- !app_assoc).
  pose proof (take_at [] LUX_MAGIC (field (p_entry p) ++ le_bytes 4 (zlen (p_modules p)) ++ mods ++
    le_bytes 4 (zlen (p_aliases p)) ++ als ++ rest) st) as H1. cbn [app] in H1. rewrite <- Hb in H1.
  change (zlen LUX_MAGIC) with 7 in H1. change (zlen (@nil byte)) with 0 in H1. rewrite (bind_eval _ _ _ _ _ H1).
  rewrite bool_decide_true by done. cbn [negb]. rewrite (bind_eval (fail_if false tt) _ _ tt (at_ LUX_MAGIC st) eq_refl).
  pose proof (strat_at LUX_MAGIC (p_entry p) (le_bytes 4 (zlen (p_modules p)) ++ mods ++
    le_bytes 4 (zlen (p_aliases p)) ++ als ++ rest) st He) as H2. rewrite <- Hb in H2. rewrite (bind_eval _ _ _ _ _ H2).
  set (pre2 := LUX_MAGIC ++ field (p_entry p)).
  pose proof (u32_at pre2 (zlen (p_modules p)) (mods ++ le_bytes 4 (zlen (p_aliases p)) ++ als ++ rest) st ltac:(lia)) as H3.
  unfold pre2 in H3. rewrite <- app_assoc, <- Hb in H3. rewrite (bind_eval _ _ _ _ _ H3). clear H1 H2 H3.
  set (pre3 := (LUX_MAGIC ++ field (p_entry p)) ++ le_bytes 4 (zlen (p_modules p))).
  pose proof (read_entries_at (fun name data => _ ← lux_load name data; mret tt) bytes (p_modules p) pre3 (le_bytes 4 (zlen (p_aliases p)) ++ als ++ rest) st) as H4.
  replace (Z.to_nat (zlen (p_modules p))) with (length (p_modules p)) by (unfold zlen; lia). unfold apply_pack.
  fold install in H4. destruct (for_each (p_modules p) install st) as [r st'] eqn:Hfor. destruct H4 as (c & Hc & Hst & Hok); [|done|].
  { unfold pre3. rewrite Hb. by rewrite <- !app_assoc. }
  destruct r as [[]|[]| |].
  2-4: rewrite (bind_stop _ _ _ _ _ Hc), (bind_stop _ _ _ _ _ Hfor) by done; by rewrite <- Hst.
  rewrite (bind_eval _ _ _ _ _ Hc), (bind_eval _ _ _ _ _ Hfor), (Hok eq_refl). clear Hc Hok Hst c.
  fold mods. set (pre4 := pre3 ++ mods).
  pose proof (u32_at pre4 (zlen (p_aliases p)) (als ++ rest) st' ltac:(lia)) as H5.
  assert (bytes = pre4 ++ le_bytes 4 (zlen (p_aliases p)) ++ als ++ rest) as Hb4.
  { unfold pre4, pre3. rewrite Hb. by rewrite <- !app_assoc. }
  rewrite <- Hb4 in H5. rewrite (bind_eval _ _ _ _ _ H5).
  replace (Z.to_nat (zlen (p_aliases p))) with (length (p_aliases p)) by (unfold zlen; lia).
  assert (bytes = (pre4 ++ le_bytes 4 (zlen (p_aliases p))) ++ concat (map field_pair (p_aliases p)) ++ rest) as Hb5.
  { rewrite Hb4. by rewrite <- !app_assoc. }
  by rewrite (bind_eval _ _ _ _ _ (alias_entries_at bytes (p_aliases p) _ rest st' Hb5 Ha)).
Qed.
End packs.

(** ** Arbitrary bytes *)

Section safety.
Context {K : Type} `{!Runtime K} `{!RuntimeLaws K} `{!Engine K} `{!EngineLaws K}.
Abbreviation LS := (LuxState (K := K)).

(** A load fails without a trace or leaves a well-formed table. *)
Lemma load_sealed_ok n b j (s : KS K) : well_formed s ->
  match load_sealed n b j s with
  | (Ok lm, s') => well_formed s'
  | (Err _, s') => s' = s
  | _ => False
  end.
Proof.
  intros Hs. assert (match load_full n b j true s with (Ok lm, s') => well_formed s' | (Err _, s') => s' = s | _ => False end) as H.
  { destruct (loads_or_not b) as [(m & Hd & Hv)|Hno].
    - by destruct (load_full_ok n b j true m s Hs Hd Hv) as (lm & s' & -> & Hs' & _).
    - pose proof (load_fails n b j true s Hno) as Hsame. pose proof (decode_total b) as Ht.
      unfold load_full in *. unfold mbind at 1, M_bind at 1, lift_err at 1, map_err at 1, lift at 1.
      destruct (decode b) as [m|e| |] eqn:Hd; try done.
      unfold mbind at 1, M_bind at 1, lift_err at 1, map_err at 1, lift at 1.
      destruct (verify_total m) as [Hv|[e He]]; [by edestruct Hno|]. by rewrite He. }
  unfold load_sealed. rewrite (bind_eval get _ s s s eq_refl).
  destruct (slots (ms s) !! n) as [sl|]; [|exact H]. by destruct (lm_sealed (current sl)).
Qed.

Definition lux_ok (s : LS) : Prop := well_formed (lx_k s).

Lemma step_load name data : step_ok lux_ok (on_state (_ ← lux_load name data; mret tt)).
Proof.
  intros cur H. unfold on_state, mbind, M_bind, lux_load. pose proof (load_sealed_ok name data LUX_USE_JIT (lx_k (c_st cur)) H) as Hl.
  unfold lux_ok in *. destruct (load_sealed _ _ _ _) as [[lm|e| |] s']; cbn; try done. by rewrite Hl.
Qed.

Ltac steps := repeat first [ apply step_entry; intros ? ? | apply step_bind; [|intros ?] | apply step_ret | apply step_fail | apply step_take | apply step_u32
                           | apply step_strat | apply step_load | apply step_repeat ].

Lemma load_luxpack_ok bytes : step_ok lux_ok (load_luxpack_m bytes).
Proof. unfold load_luxpack_m, load_module_entry, load_alias_entry. steps. by intros cur H. Qed.

(** ** Packs of good modules *)

Definition good_module (d : list byte) : Prop := exists m, decode d = Ok m /\ verify m = Ok tt.

(** The instance a name of the pack got. *)
Definition installed (s : LS) (e : list byte * list byte) : Prop := exists lm,
  holds_sealed e.1 lm (lx_k s) /\ decode e.2 = Ok (lm_module lm).

Lemma install_good e (s : LS) : lux_ok s -> slots (ms (lx_k s)) !! e.1 = None -> good_module e.2 ->
  exists s', install e s = (Ok tt, s') /\ lux_ok s' /\ installed s' e /\ lx_aliases s' = lx_aliases s /\
    (forall n, n <> e.1 -> slots (ms (lx_k s')) !! n = slots (ms (lx_k s)) !! n) /\
    (forall e', installed s e' -> installed s' e').
Proof.
  intros Hs Hn (m & Hd & Hv).
  assert (forall n lm, holds_sealed n lm (lx_k s) -> holds_sealed n lm (load_sealed e.1 e.2 LUX_USE_JIT (lx_k s)).2) as Hkeep.
  { intros n lm. apply (act_keeps_sealed n lm (OpLoadSealed e.1 e.2 LUX_USE_JIT)). }
  destruct (load_full_ok e.1 e.2 LUX_USE_JIT true m (lx_k s) Hs Hd Hv) as (lm & k' & Hrun & Hs' & _ & _ & _ & _ & Hslot).
  unfold loaded_slot in Hslot. rewrite Hn in Hslot. destruct Hslot as (Hslots & _ & Hm & Hse).
  assert (load_sealed e.1 e.2 LUX_USE_JIT (lx_k s) = (Ok lm, k')) as Hload.
  { unfold load_sealed. rewrite (bind_eval get _ _ _ _ eq_refl), Hn. exact Hrun. }
  rewrite Hload in Hkeep. exists {| lx_k := k'; lx_aliases := lx_aliases s |}. split_and!.
  - unfold install, installing, mbind, M_bind, map_err, lux_load. by rewrite Hload.
  - done.
  - exists lm. cbn. split; [|by rewrite Hm]. split_and!; [done|done|]. exists {| current := lm; old := None |}.
    split; [|done]. rewrite Hslots. apply lookup_insert_eq.
  - done.
  - intros n Hne. cbn. rewrite Hslots. by rewrite lookup_insert_ne.
  - intros e' (lm' & Hh & Hd'). exists lm'. split; [by apply Hkeep|done].
Qed.

Lemma install_all es : forall s : LS, lux_ok s -> NoDup es.*1 -> (forall e, e ∈ es -> slots (ms (lx_k s)) !! e.1 = None /\ good_module e.2) ->
  exists s', for_each es install s = (Ok tt, s') /\ lux_ok s' /\ lx_aliases s' = lx_aliases s /\
    (forall e, e ∈ es -> installed s' e) /\ (forall e, installed s e -> installed s' e).
Proof.
  induction es as [|e es IH]; intros s Hs Hnd Hes; cbn [for_each].
  { exists s. split_and!; try done. intros e He. by apply elem_of_nil in He. }
  cbn in Hnd. apply NoDup_cons in Hnd as [Hnin Hnd].
  destruct (install_good e s Hs) as (s1 & H1 & Hs1 & Hi1 & Ha1 & Hsl1 & Hk1); [apply Hes; by left|apply Hes; by left|].
  destruct (IH s1 Hs1 Hnd) as (s2 & H2 & Hs2 & Ha2 & Hi2 & Hk2).
  { intros e' He'. rewrite Hsl1; [apply Hes; by right|]. intros Heq. apply Hnin. rewrite <- Heq. by apply list_elem_of_fmap_2. }
  exists s2. split_and!; [by rewrite (bind_eval _ _ _ _ _ H1)|done|congruence| |auto].
  intros e' [-> |He']%elem_of_cons; [by apply Hk2|by apply Hi2].
Qed.

Lemma apply_aliases_spec als : forall s : LS, NoDup als.*1 ->
  lx_k (apply_aliases als s) = lx_k s /\ (forall a h, (a, h) ∈ als -> lx_aliases (apply_aliases als s) !! a = Some h) /\
  (forall a, a ∉ als.*1 -> lx_aliases (apply_aliases als s) !! a = lx_aliases s !! a).
Proof.
  induction als as [|[a h] als IH]; intros s Hnd; cbn.
  { split_and!; try done. intros a h H. by apply elem_of_nil in H. }
  cbn in Hnd. apply NoDup_cons in Hnd as [Hnin Hnd]. destruct (IH (lux_alias a h s) Hnd) as (Hk & Hin & Hout). split_and!.
  - exact Hk.
  - intros a' h' [[= -> ->]|H]%elem_of_cons; [|by apply Hin]. rewrite Hout by done. cbn. apply lookup_insert_eq.
  - intros a' H. rewrite not_elem_of_cons in H. destruct H as [Hne H]. rewrite Hout by done. cbn. by rewrite lookup_insert_ne.
Qed.
End safety.

(** ** What the build tool packs *)

Lemma add_module_nodup l m : NoDup l.*1 -> NoDup (add_module l m).*1.
Proof.
  intros H. unfold add_module. destruct (existsb _ l) eqn:E; [done|]. rewrite fmap_app. cbn. apply NoDup_app. split_and!; [done| |].
  - intros n Hn. rewrite list_elem_of_singleton. intros ->. apply list_elem_of_fmap in Hn as (e & He & Hin).
    assert (existsb (fun e => bool_decide (e.1 = m.1)) l = true); [|congruence].
    apply existsb_exists. exists e. split; [by apply list_elem_of_In|]. by apply bool_decide_eq_true.
  - apply NoDup_singleton.
Qed.

Lemma add_alias_names l a : (forall n, n ∈ (add_alias l a).*1 <-> n = a.1 \/ n ∈ l.*1) /\ (NoDup l.*1 -> NoDup (add_alias l a).*1).
Proof.
  induction l as [|e l [IH1 IH2]]; cbn [add_alias fmap list_fmap fst].
  { split; [intros n; cbn; set_solver|intros _; apply NoDup_singleton]. }
  case_bool_decide as He; cbn [fmap list_fmap fst].
  - split; [|done]. intros n. rewrite !elem_of_cons. rewrite He. naive_solver.
  - split.
    + intros n. rewrite !elem_of_cons, IH1. naive_solver.
    + intros [Hn Hnd]%NoDup_cons. apply NoDup_cons. split; [|auto]. rewrite IH1. naive_solver.
Qed.

Lemma build_pack_nodup entry mfs read :
  NoDup (p_modules (build_pack entry mfs read)).*1 /\ NoDup (p_aliases (build_pack entry mfs read)).*1.
Proof.
  unfold build_pack. assert (forall acc, NoDup acc.1.*1 -> NoDup acc.2.*1 ->
    NoDup (foldl collect_manifest acc mfs).1.*1 /\ NoDup (foldl collect_manifest acc mfs).2.*1) as H.
  { induction mfs as [|mf mfs IH]; intros acc H1 H2; [done|]. cbn [foldl]. apply IH; cbn.
    - revert H1. generalize acc.1. induction (mf_modules mf) as [|x l IHl]; intros a Ha; [done|]. cbn [foldl]. by apply IHl, add_module_nodup.
    - revert H2. generalize acc.2. induction (mf_aliases mf) as [|x l IHl]; intros a Ha; [done|]. cbn [foldl]. by apply IHl, add_alias_names. }
  destruct (H ([], [])) as [H1 H2]; [apply NoDup_nil_2..|]. destruct (foldl collect_manifest ([], []) mfs) as [mods als]. cbn in *.
  split; [|done]. rewrite <- list_fmap_compose. done.
Qed.

(** What the manifests say, in their order: the first file of a module, the last target of an alias. *)
Definition first_given (n : list byte) (l : list (list byte * list byte)) : option (list byte) := snd <$> find (fun e => bool_decide (e.1 = n)) l.
Definition last_given (n : list byte) (l : list (list byte * list byte)) : option (list byte) := first_given n (rev l).

Lemma first_given_app n l l' : first_given n (l ++ l') = match first_given n l with Some x => Some x | None => first_given n l' end.
Proof. unfold first_given. induction l as [|e l IH]; [done|]. cbn. by case_bool_decide. Qed.
Lemma first_given_in n x l : first_given n l = Some x -> (n, x) ∈ l.
Proof.
  unfold first_given. induction l as [|[a b] l IH]; [done|]. cbn. case_bool_decide as Ha; cbn.
  - cbn in Ha. intros [= <-]. subst a. left.
  - intros H. right. by apply IH.
Qed.

Lemma add_module_first n ms : forall l, first_given n (foldl add_module l ms) = first_given n (l ++ ms).
Proof.
  induction ms as [|m ms IH]; intros l; cbn [foldl]; [by rewrite app_nil_r|]. rewrite IH. unfold add_module.
  destruct (existsb (fun e => bool_decide (e.1 = m.1)) l) eqn:E; [|by rewrite <- app_assoc].
  rewrite !first_given_app. destruct (first_given n l) eqn:Hl; [done|]. unfold first_given at 2. cbn. case_bool_decide as Hm; [exfalso|done].
  apply existsb_exists in E as (e & Hin%list_elem_of_In & He%bool_decide_eq_true). rewrite Hm in He. revert Hl Hin He. clear.
  unfold first_given. induction l as [|e' l IH]; cbn; intros Hl Hin He; [by apply elem_of_nil in Hin|]. case_bool_decide as Hd; [done|].
  apply elem_of_cons in Hin as [->|Hin]; [done|]. by apply IH.
Qed.

Lemma add_alias_given n l a : first_given n (add_alias l a) = if bool_decide (a.1 = n) then Some a.2 else first_given n l.
Proof.
  unfold first_given. induction l as [|e l IH]; cbn [add_alias]; [cbn; by case_bool_decide|]. destruct (bool_decide (e.1 = a.1)) eqn:He; cbn.
  - apply bool_decide_eq_true in He. rewrite He. by case_bool_decide.
  - apply bool_decide_eq_false in He. destruct (bool_decide (e.1 = n)) eqn:Hn; cbn; [|done]. apply bool_decide_eq_true in Hn.
    rewrite bool_decide_false by congruence. done.
Qed.

Lemma add_alias_last n als : forall l, first_given n (foldl add_alias l als) = first_given n (rev als ++ l).
Proof.
  induction als as [|a als IH]; intros l; cbn [foldl rev]; [done|]. rewrite IH, <- app_assoc, !first_given_app.
  destruct (first_given n (rev als)); [done|]. rewrite add_alias_given. unfold first_given at 2. cbn. by case_bool_decide.
Qed.

Lemma build_pack_given entry mfs read n x :
  (first_given n (concat (map mf_modules mfs)) = Some x -> (n, read x) ∈ p_modules (build_pack entry mfs read)) /\
  (last_given n (concat (map mf_aliases mfs)) = Some x -> (n, x) ∈ p_aliases (build_pack entry mfs read)).
Proof.
  assert (forall acc, first_given n (foldl collect_manifest acc mfs).1 = first_given n (acc.1 ++ concat (map mf_modules mfs)) /\
    first_given n (foldl collect_manifest acc mfs).2 = first_given n (rev (concat (map mf_aliases mfs)) ++ acc.2)) as H.
  { induction mfs as [|mf mfs IH]; intros acc; cbn [foldl map concat]; [by rewrite app_nil_r|].
    destruct (IH (collect_manifest acc mf)) as [-> ->]. cbn [collect_manifest fst snd]. split.
    - by rewrite app_assoc, (first_given_app n (foldl _ _ _)), (first_given_app n (_ ++ _)), add_module_first.
    - rewrite rev_app_distr, <- app_assoc, !(first_given_app n (rev (concat _))), add_alias_last. done. }
  unfold build_pack, last_given. destruct (H ([], [])) as [H1 H2]. destruct (foldl collect_manifest ([], []) mfs) as [mods als]. cbn [fst snd app p_modules p_aliases] in *.
  rewrite app_nil_r in H2. rewrite <- H1, <- H2. split; intros Hx%first_given_in; [|done].
  apply list_elem_of_fmap. by exists (n, x).
Qed.

(** ** Properties *)

(** C20: a pack that the build tool makes of the programs' manifests installs what
    was packed.  If its parts fit the format, the table has none of the names listed and
    every artifact decodes and verifies, the load succeeds and returns the entry
    module's name; every module the manifests list is the current, sealed instance of its name
    and has the content of the first artifact given for it; every alias stands for the
    module it was last given; the tables stay well formed. *)
Theorem pack_installs {K} `{!Runtime K} `{!RuntimeLaws K} `{!Engine K} `{!EngineLaws K} entry mfs read rest (s : LuxState (K := K)) :
  let p := build_pack entry mfs read in
  lux_ok s -> pack_ok p -> (forall e, e ∈ p_modules p -> slots (ms (lx_k s)) !! e.1 = None /\ good_module e.2) ->
  exists s', load_luxpack (write_pack p ++ rest) s = (Ok entry, s') /\ lux_ok s' /\
    (forall n file, first_given n (concat (map mf_modules mfs)) = Some file -> exists lm,
       current_module (ms (lx_k s')) n = Some lm /\ lm_sealed lm = true /\ decode (read file) = Ok (lm_module lm)) /\
    (forall a h, last_given a (concat (map mf_aliases mfs)) = Some h -> lx_aliases s' !! a = Some h).
Proof.
  intros p Hs Hp Hfresh. destruct (build_pack_nodup entry mfs read) as [Hnm Hna]. fold p in Hnm, Hna.
  rewrite load_written by done. unfold apply_pack.
  destruct (install_all (p_modules p) s Hs Hnm Hfresh) as (s1 & H1 & Hs1 & _ & Hi & _).
  destruct (apply_aliases_spec (p_aliases p) s1 Hna) as (Hk & Hal & _).
  exists (apply_aliases (p_aliases p) s1). split_and!.
  - rewrite (bind_eval _ _ _ _ _ H1). unfold p, build_pack. by destruct (foldl collect_manifest ([], []) mfs).
  - unfold lux_ok. by rewrite Hk.
  - intros n file Hin%(build_pack_given entry mfs read). destruct (Hi _ Hin) as (lm & (_ & Hse & sl & Hsl & Hcur) & Hd). exists lm. rewrite Hk.
    unfold current_module. cbn in Hsl. rewrite Hsl. cbn. by rewrite Hcur.
  - intros a h Hin%(build_pack_given entry mfs read). by apply Hal.
Qed.

(** whatever bytes the kernel is given as a pack, the loader neither panics nor
    leaves the module table ill-formed: it returns the entry's name or
    reports failure. *)
Theorem luxpack_any_bytes {K} `{!Runtime K} `{!RuntimeLaws K} `{!Engine K} `{!EngineLaws K} bytes (s : LuxState (K := K)) :
  lux_ok s -> let '(r, s') := load_luxpack bytes s in
  lux_ok s' /\ match r with Ok _ | Err _ => True | _ => False end.
Proof.
  intros Hs. unfold load_luxpack. destruct (load_luxpack_ok bytes {| c_at := 0; c_st := s |} Hs) as (H1 & H2 & H3).
  destruct (load_luxpack_m bytes _) as [r c]. cbn in *. split; [done|]. by destruct r.
Qed.

(** *** Witnesses, on the minimal kernel *)

#[local] Existing Instance ModloadThms.bare_runtime.
#[local] Existing Instance ModloadThms.bare_runtime_laws.
#[local] Existing Instance ModloadThms.no_engine.
#[local] Existing Instance ModloadThms.no_engine_laws.

Definition lux_boot : LuxState (K := HS) := {| lx_k := boot_state; lx_aliases := ∅ |}.

(** Two programs that share the module [a]; the second redirects an alias. *)
Definition demo_manifests : list Manifest :=
  [ {| mf_modules := [([x61], [x31])]; mf_aliases := [([x66], [x61])] |};
    {| mf_modules := [([x61], [x32]); ([x62], [x32])]; mf_aliases := [([x66], [x62]); ([x67], [x61])] |} ].
Definition demo_pack : Pack := build_pack [x61] demo_manifests (fun _ => demo_bytes).

Lemma demo_pack_ok : pack_ok demo_pack.
Proof. split; cbn; repeat first [constructor | by vm_compute]. Qed.

Lemma pack_installs_witness : exists s', load_luxpack (write_pack demo_pack ++ []) lux_boot = (Ok [x61], s') /\ lux_ok s' /\
  lx_aliases s' !! [x66] = Some [x62].
Proof.
  destruct (pack_installs [x61] demo_manifests (fun _ => demo_bytes) [] lux_boot) as (s' & H1 & H2 & _ & H4).
  - exact boot_good.
  - exact demo_pack_ok.
  - intros e He. split; [by vm_compute|]. exists demo_module.
    assert (e.2 = demo_bytes) as ->; [|split; [apply demo_decodes|apply demo_verifies]].
    revert e He. apply Forall_forall. vm_compute. repeat constructor.
  - exists s'. split_and!; [exact H1|exact H2|]. apply H4. by vm_compute.
Defined.

Lemma luxpack_any_bytes_witness :
  let '(r, s') := load_luxpack (write_pack demo_pack ++ []) lux_boot in lux_ok s' /\ match r with Ok _ | Err _ => True | _ => False end.
Proof. exact (luxpack_any_bytes (write_pack demo_pack ++ []) lux_boot boot_good). Defined.
