(* ===== verification/JitRt.v ===== *)
(** * JitRt: the runtime helpers of compiled code and the publisher

    Models [kernel/src/jit.rs]: the [rt_] functions generated code calls ([Module Rt]), the helper
    table, and [publish], which lays the compiled functions out, copies them and patches their
    relocations.  A helper that fails exits the process; this is the trap whose exit reason
    [exit_for_trap] gives. *)

From S2P Require Import Prelude Rings Term Bytecode Verify Interp Atoms Clif Jit JitLogic JitSim Modload.

(** ** The runtime helpers *)

Module Rt.
Section helpers.
Context {K : Type} `{!Runtime K} `{!Engine K}.
(** The memory that holds bytecode: the bytes at an address. *)
Context (text : Z -> Z -> option (list byte)).
(** [modload::call_ext_dynamic] and the engine of [modload::resume_tail_from]. *)
Context (call : Z -> Z -> list Term -> M (KS K) Trap Term).
Context (once : LoadedModule -> Z -> list Term -> M (KS K) Trap Term) (hops : nat).
Abbreviation KM := (M (KS K) Trap).

Definition badarg {A} : KM A := throw Badarg.

(** Read terms of the heap. *)
Definition peek {A} (g : mem -> res Trap A) : KM A := fun s => (g (hmem (k_heap s)), s).

(** [core::slice::from_raw_parts(ptr, n)] into the frame of the generated code. *)
Definition raw_slice (st : gmap Z Z) (ptr n : Z) : KM (list Term) := unwrap (mapM (fun i => st !! (ptr + 8 * i)) (seqZ 0 n)).

Definition rt_self : KM Z := s ← get; mret (term_pid (rt_current (ks s))).
Definition rt_send (to msg : Z) : KM Z :=
  match as_pid to with
  | Some p => _ ← modify (upd_k (Modload.rt_send p msg)); mret 0
  | None => badarg
  end.
Definition rt_recv : KM Z := on_k Modload.rt_recv.
Definition rt_spawn (fn_idx arg : Z) : KM Z :=
  _ ← fail_if (is_boxed arg) Badarg;
  s ← get; lm ← ok_or (current_process_module s) Badarg;
  _ ← ok_or (lookupz (functions (lm_module lm)) fn_idx) Badarg;
  pid ← spawn_fn lm (wrap 32 fn_idx) arg; mret (term_pid pid).
Definition rt_safepoint : KM unit := modify (upd_k Modload.rt_safepoint).
Definition rt_print (t : Z) : KM unit := modify (upd_k (Modload.rt_print t)).
Definition rt_eq (fuel : nat) (a b : Z) : KM Z := e ← peek (fun mm => eq_term fuel mm a b); mret (b2i e).
Definition rt_make_tuple (fuel : nat) (st : gmap Z Z) (ptr n : Z) : KM Z :=
  elems ← raw_slice st ptr n; alloc_retry fuel (tuple elems).
Definition rt_get_elem (t idx : Z) : KM Z := peek (fun mm =>
  b ← boxed_kind_is mm t KTuple;
  if b : bool then n ← tuple_arity mm t; if bool_decide (idx < n) then tuple_elem mm t idx else Err Badarg else Err Badarg).
Definition rt_cons (fuel : nat) (h t : Z) : KM Z := alloc_retry fuel (cons h t).
Definition rt_head (t : Z) : KM Z := peek (fun mm => b ← boxed_kind_is mm t KCons; if b : bool then head mm t else Err Badarg).
Definition rt_tail (t : Z) : KM Z := peek (fun mm => b ← boxed_kind_is mm t KCons; if b : bool then tail mm t else Err Badarg).
Definition rt_port_open (kind_ : Z) : KM Z := o ← on_k (rt_open (wrap 8 kind_)); ok_or o Badarg.
Definition rt_port_submit (port o arg0 tag_ : Z) : KM Z :=
  match as_port port, as_int arg0, as_int tag_ with
  | Some id, Some a0, Some tg =>
      b ← on_k (rt_submit id {| sqe_op := wrap 32 o; sqe_tag := tg; sqe_arg0 := wrap 64 a0; sqe_arg1 := 0 |});
      if b : bool then mret 0 else badarg
  | _, _, _ => badarg
  end.
Definition rt_port_submit2 (port o arg0 arg1 tag_ : Z) : KM Z :=
  match as_port port, as_int o, as_int arg0, as_int arg1, as_int tag_ with
  | Some id, Some o, Some a0, Some a1, Some tg =>
      b ← on_k (rt_submit id {| sqe_op := wrap 32 o; sqe_tag := tg; sqe_arg0 := wrap 64 a0; sqe_arg1 := wrap 64 a1 |});
      if b : bool then mret 0 else badarg
  | _, _, _, _, _ => badarg
  end.
Definition rt_buf_write (buf off bin : Z) : KM Z :=
  match as_int buf, as_int off with
  | Some id, Some off =>
      bytes ← peek (fun mm =>
        b ← boxed_kind_is mm bin KBinary;
        if negb b || bool_decide (off < 0) then Err Badarg else bin_bytes mm bin);
      b ← on_k (Modload.rt_buf_write (wrap 64 id) off bytes);
      if b : bool then mret (term_int 0) else badarg
  | _, _ => badarg
  end.
Definition rt_buf_new (size : Z) : KM Z :=
  size ← ok_or (as_int size) Badarg;
  _ ← fail_if (bool_decide (size < 0) || bool_decide (Z.shiftl 64 20 < size)) Badarg;
  id ← on_k (rt_buf_create (replicate (Z.to_nat size) x00)); mret (term_int (swrap 64 id)).
Definition rt_buf_read (fuel : nat) (buf off len : Z) : KM Z :=
  match as_int buf, as_int off, as_int len with
  | Some id, Some off, Some len =>
      _ ← fail_if (bool_decide (off < 0) || bool_decide (len < 0)) Badarg;
      o ← on_k (Modload.rt_buf_read (wrap 64 id) off len);
      data ← ok_or o Badarg; alloc_retry fuel (binary data)
  | _, _, _ => badarg
  end.
Definition rt_sleep_ms (ms : Z) : KM unit :=
  ms ← ok_or (as_int ms) Badarg; _ ← fail_if (bool_decide (ms < 0)) Badarg; modify (upd_k (rt_sleep ms)).
Definition rt_ticks : KM Z := s ← get; mret (term_int (swrap 64 (Modload.rt_ticks (ks s)))).

(** The caller's version is noted again when the call returns. *)
Definition back_to (caller : option LoadedModule) : KM unit :=
  match caller with
  | Some c => s ← get; modify (note_running (rt_current (ks s)) (lm_name c) (lm_version c))
  | None => mret tt
  end.
Definition rt_call_ext (st : gmap Z Z) (matom fatom ptr n : Z) : KM Z :=
  match as_atom matom, as_atom fatom with
  | Some ma, Some fa =>
      args ← raw_slice st ptr n;
      s ← get; let caller := current_process_module s in
      t ← call ma fa args; _ ← back_to caller; mret t
  | _, _ => badarg
  end.
Definition rt_resume_tail (token : Z) : KM Z :=
  s ← get; let caller := current_process_module s in
  t ← resume_tail_from once hops token; _ ← back_to caller; mret t.
Definition rt_exit_atom (a : Z) : KM unit := idx ← ok_or (as_atom a) Badarg; throw (Exit idx).
Definition rt_trap_badarg : KM unit := badarg.
Definition rt_bin_const (fuel : nat) (ptr len : Z) : KM Z :=
  bytes ← unwrap (text ptr len); alloc_retry fuel (binary bytes).

(** [while cur.is_boxed() && cur.kind() == Kind::Cons] of [rt_bin_from_list]. *)
Fixpoint collect_bytes (fuel : nat) (mm : mem) (cur : Term) : res Trap (list byte * Term) :=
  match fuel with
  | O => NoFuel
  | S fuel' =>
      c ← boxed_kind_is mm cur KCons;
      if c : bool then
        h ← head mm cur;
        match as_int h with
        | None => Err Badarg
        | Some v =>
            if negb (bool_decide (0 <= v <= 255)) then Err Badarg
            else nx ← tail mm cur; '(bs, last) ← collect_bytes fuel' mm nx; Ok (z2b v :: bs, last)
        end
      else Ok ([], cur)
  end.
Definition rt_bin_from_list (fuel : nat) (l : Z) : KM Z :=
  '(bytes, cur) ← peek (fun mm => collect_bytes fuel mm l);
  _ ← fail_if (negb (is_nil cur)) Badarg; alloc_retry fuel (binary bytes).
Definition rt_bin_to_list (fuel : nat) (t : Z) : KM Z :=
  elems ← peek (fun mm =>
    b ← boxed_kind_is mm t KBinary;
    if negb b then Err Badarg else bs ← bin_bytes mm t; Ok (map (fun b => term_int (b2z b)) bs));
  alloc_retry fuel (list_term elems).
Definition rt_bin_size (t : Z) : KM Z := peek (fun mm =>
  b ← boxed_kind_is mm t KBinary;
  if negb b then Err Badarg else bs ← bin_bytes mm t; Ok (term_int (zlen bs))).
Definition rt_buf_to_bin (fuel : nat) (id : Z) : KM Z :=
  id ← ok_or (as_int id) Badarg; o ← on_k (rt_buf_take (wrap 64 id)); data ← ok_or o Badarg; alloc_retry fuel (binary data).
Definition rt_bin_to_buf (t : Z) : KM Z :=
  data ← peek (fun mm => b ← boxed_kind_is mm t KBinary; if negb b then Err Badarg else bin_bytes mm t);
  id ← on_k (rt_buf_create data); mret (term_int (swrap 64 id)).

Fixpoint map_retry (fuel : nat) (c : M HS MapError Term) : KM Z := fun s =>
  match fuel with
  | O => (NoFuel, s)
  | S fuel' =>
      let '(r, h) := c (k_heap s) in
      let s1 := k_with_heap h s in
      match r with
      | Ok t => (Ok t, s1)
      | Err NonImmediateKey => (Err Badarg, s1)
      | Err (MapHeap _) => let '(b, s2) := k_grow s1 in if b : bool then map_retry fuel' c s2 else (Err TrapHeapFull, s2)
      | Panic => (Panic, s1)
      | NoFuel => (NoFuel, s1)
      end
  end.

(** [flat.chunks_exact(2).map(|c| (c[0], c[1]))] *)
Fixpoint chunks2 (l : list Term) : list (Term * Term) :=
  match l with k :: v :: l' => (k, v) :: chunks2 l' | _ => [] end.
Definition rt_map_new (fuel : nat) (st : gmap Z Z) (ptr n_pairs : Z) : KM Z :=
  flat ← raw_slice st ptr (2 * n_pairs); map_retry fuel (map_from_pairs (chunks2 flat)).
Definition rt_map_get (t k : Z) : KM Z := peek (fun mm =>
  b ← boxed_kind_is mm t KMap;
  if negb b then Err Badarg else r ← map_get mm t k; match r with Some v => Ok v | None => Err Badarg end).
Definition rt_map_put (fuel : nat) (t k v : Z) : KM Z :=
  b ← peek (fun mm => boxed_kind_is mm t KMap); _ ← fail_if (negb b) Badarg; map_retry fuel (map_put t k v).
Definition rt_is_binary (t : Z) : KM Z := b ← peek (fun mm => boxed_kind_is mm t KBinary); mret (b2i b).
Definition rt_bin_cat (fuel : nat) (a b : Z) : KM Z :=
  joined ← peek (fun mm =>
    ka ← boxed_kind_is mm a KBinary;
    if negb ka then Err Badarg
    else kb ← boxed_kind_is mm b KBinary;
         if negb kb then Err Badarg else x ← bin_bytes mm a; y ← bin_bytes mm b; Ok (x ++ y));
  alloc_retry fuel (binary joined).
Definition rt_list_cat (fuel : nat) (a b : Z) : KM Z :=
  '(elems, cur) ← peek (fun mm => list_elems fuel mm a);
  _ ← fail_if (negb (is_nil cur)) Badarg; alloc_retry fuel (cons_all (rev elems) b).
Definition rt_bin_at (b idx : Z) : KM Z :=
  idx ← ok_or (as_int idx) Badarg;
  peek (fun mm =>
    k ← boxed_kind_is mm b KBinary;
    if negb k || bool_decide (idx < 0) then Err Badarg
    else bytes ← bin_bytes mm b;
         if bool_decide (idx >= zlen bytes) then Err Badarg
         else match lookupz bytes idx with Some x => Ok (term_int (b2z x)) | None => Panic end).
Definition rt_bin_part (fuel : nat) (b off len : Z) : KM Z :=
  match as_int off, as_int len with
  | Some off, Some len =>
      part ← peek (fun mm =>
        k ← boxed_kind_is mm b KBinary;
        if negb k || bool_decide (off < 0) || bool_decide (len < 0) then Err Badarg
        else bytes ← bin_bytes mm b;
             if bool_decide (off + len > zlen bytes) then Err Badarg
             else match slice bytes off (off + len) with Some x => Ok x | None => Panic end);
      alloc_retry fuel (binary part)
  | _, _ => badarg
  end.
Definition rt_tail_call_ext (st : gmap Z Z) (matom fatom ptr n : Z) : KM unit :=
  match as_atom matom, as_atom fatom with
  | Some ma, Some fa => args ← raw_slice st ptr n; modify (set_tail_target ma fa args)
  | _, _ => badarg
  end.
Definition rt_tail_call_local (st : gmap Z Z) (fn_idx ptr n : Z) : KM unit :=
  args ← raw_slice st ptr n; modify (set_tail_target_local (wrap 32 fn_idx) args).
End helpers.
End Rt.

(** ** The helper table *)

Definition all_helpers : list Helper.t :=
  [ Helper.SelfPid; Helper.Send; Helper.Recv; Helper.Spawn; Helper.Safepoint; Helper.Print; Helper.Eq; Helper.MakeTuple;
    Helper.GetElem; Helper.Cons; Helper.Head; Helper.Tail; Helper.PortOpen; Helper.PortSubmit; Helper.CallExt; Helper.ExitAtom;
    Helper.TrapBadarg; Helper.BinConst; Helper.BinFromList; Helper.BinToList; Helper.BinSize; Helper.BufToBin; Helper.BinToBuf;
    Helper.MapNew; Helper.MapGet; Helper.MapPut; Helper.IsBinary; Helper.BinCat; Helper.ListCat; Helper.BinPart; Helper.TailCallExt;
    Helper.TailCallLocal; Helper.PortSubmit2; Helper.BufWrite; Helper.SleepMs; Helper.BufNew; Helper.BufRead; Helper.Ticks;
    Helper.ResumeTail; Helper.BinAt ].

Section table.
Context {K : Type} `{!Runtime K} `{!Engine K}.
Context (text : Z -> Z -> option (list byte)) (call : Z -> Z -> list Term -> M (KS K) Trap Term).
Context (once : LoadedModule -> Z -> list Term -> M (KS K) Trap Term) (hops : nat).

(** The function each helper's entry points to; generated code passes exactly the arguments of its signature. *)
Definition helper_table (fuel : nat) (st : gmap Z Z) (h : Helper.t) (xs : list Z) : M (KS K) Trap (option Z) :=
  match h, xs with
  | Helper.SelfPid, [] => yields Rt.rt_self
  | Helper.Send, [to; msg] => yields (Rt.rt_send to msg)
  | Helper.Recv, [] => yields Rt.rt_recv
  | Helper.Spawn, [i; arg] => yields (Rt.rt_spawn i arg)
  | Helper.Safepoint, [] => does Rt.rt_safepoint
  | Helper.Print, [t] => does (Rt.rt_print t)
  | Helper.Eq, [a; b] => yields (Rt.rt_eq fuel a b)
  | Helper.MakeTuple, [p; n] => yields (Rt.rt_make_tuple fuel st p n)
  | Helper.GetElem, [t; i] => yields (Rt.rt_get_elem t i)
  | Helper.Cons, [h; t] => yields (Rt.rt_cons fuel h t)
  | Helper.Head, [t] => yields (Rt.rt_head t)
  | Helper.Tail, [t] => yields (Rt.rt_tail t)
  | Helper.PortOpen, [k] => yields (Rt.rt_port_open k)
  | Helper.PortSubmit, [p; o; a; t] => yields (Rt.rt_port_submit p o a t)
  | Helper.CallExt, [ma; fa; p; n] => yields (Rt.rt_call_ext call st ma fa p n)
  | Helper.ExitAtom, [a] => does (Rt.rt_exit_atom a)
  | Helper.TrapBadarg, [] => does Rt.rt_trap_badarg
  | Helper.BinConst, [p; n] => yields (Rt.rt_bin_const text fuel p n)
  | Helper.BinFromList, [t] => yields (Rt.rt_bin_from_list fuel t)
  | Helper.BinToList, [t] => yields (Rt.rt_bin_to_list fuel t)
  | Helper.BinSize, [t] => yields (Rt.rt_bin_size t)
  | Helper.BufToBin, [t] => yields (Rt.rt_buf_to_bin fuel t)
  | Helper.BinToBuf, [t] => yields (Rt.rt_bin_to_buf t)
  | Helper.MapNew, [p; n] => yields (Rt.rt_map_new fuel st p n)
  | Helper.MapGet, [t; k] => yields (Rt.rt_map_get t k)
  | Helper.MapPut, [t; k; v] => yields (Rt.rt_map_put fuel t k v)
  | Helper.IsBinary, [t] => yields (Rt.rt_is_binary t)
  | Helper.BinCat, [a; b] => yields (Rt.rt_bin_cat fuel a b)
  | Helper.ListCat, [a; b] => yields (Rt.rt_list_cat fuel a b)
  | Helper.BinPart, [b; o; l] => yields (Rt.rt_bin_part fuel b o l)
  | Helper.TailCallExt, [ma; fa; p; n] => does (Rt.rt_tail_call_ext st ma fa p n)
  | Helper.TailCallLocal, [i; p; n] => does (Rt.rt_tail_call_local st i p n)
  | Helper.PortSubmit2, [p; o; a; b; t] => yields (Rt.rt_port_submit2 p o a b t)
  | Helper.BufWrite, [b; o; s] => yields (Rt.rt_buf_write b o s)
  | Helper.SleepMs, [ms] => does (Rt.rt_sleep_ms ms)
  | Helper.BufNew, [n] => yields (Rt.rt_buf_new n)
  | Helper.BufRead, [b; o; l] => yields (Rt.rt_buf_read fuel b o l)
  | Helper.Ticks, [] => yields Rt.rt_ticks
  | Helper.ResumeTail, [tok] => yields (Rt.rt_resume_tail once hops tok)
  | Helper.BinAt, [b; i] => yields (Rt.rt_bin_at b i)
  | _, _ => panic
  end.

(** Calls by number, and direct calls of published code. *)
Definition RtNative : NativeApi (KS K) := {|
  run_helper fuel i st xs :=
    match find (fun h => bool_decide (Helper.idx h = i)) all_helpers with Some h => helper_table fuel st h xs | None => panic end;
  direct_call _ a xs := native a xs;
|}.
End table.

Lemma helper_found h : find (fun h' => bool_decide (Helper.idx h' = Helper.idx h)) all_helpers = Some h.
Proof. by destruct h. Qed.

(** ** The api compiled code sees

    What the helpers do, stated as an implementation of the interpreter's interface: [KernelApi] but for
    spawning and external calls, which go through the module the process is registered with.  The
    kernel's interpreter runs on [KernelApi] itself; this one is the reference compiled code is compared with. *)

Section api.
Context {K : Type} `{!Runtime K} `{!Engine K}.
Abbreviation KM := (M (KS K) Trap).

Definition native_spawn (fn_idx : Z) (arg : Term) : KM Z :=
  s ← get; lm ← ok_or (current_process_module s) Badarg;
  _ ← ok_or (lookupz (functions (lm_module lm)) fn_idx) Badarg;
  spawn_fn lm fn_idx arg.
Definition native_call_ext (call : Z -> Z -> list Term -> KM Term) (ma fa : Z) (args : list Term) : KM Term :=
  s ← get; let caller := current_process_module s in t ← call ma fa args; _ ← Rt.back_to caller; mret t.

Definition NativeKernelApi (fuel : nat) (call : Z -> Z -> list Term -> KM Term) (lm : LoadedModule) : SystemApi (KS K) := {|
  heap_state := k_heap;
  with_heap := k_with_heap;
  self_pid s := rt_current (ks s);
  api_send := k_send;
  api_recv := on_k rt_recv;
  api_spawn := native_spawn;
  safepoint := upd_k rt_safepoint;
  atom_global := k_atom_global lm;
  api_print t := upd_k (rt_print t);
  port_open := k_port_open;
  port_submit := k_port_submit;
  call_ext := native_call_ext call;
  buf_to_bin := k_buf_to_bin fuel;
  bin_to_buf := k_bin_to_buf;
  heap_grow := k_grow;
  tail_call := set_tail_target;
  tail_call_local := set_tail_target_local;
  buf_write := k_buf_write;
  buf_new := k_buf_new;
  buf_read := k_buf_read fuel;
  sleep_ms n := upd_k (rt_sleep n);
  api_ticks s := term_int (swrap 64 (rt_ticks (ks s)));
  port_submit2 := k_port_submit2;
|}.
End api.
