(* ===== verification/JitRtLaws.v ===== *)
(** * JitRtLaws: the kernel's helpers do what compiled code expects

    Each [rt_] helper computes what the interpreter's arm computes through [SystemApi], so the helper
    table satisfies the contract [HelperLaws] the compiler was verified against. *)

From Stdlib Require Import Sorted.
From S2P Require Import Prelude Rings Term TermImm TermMap Bytecode Verify Interp InterpFuel Atoms Clif Jit JitLogic JitSim JitRef Modload JitRt.

(** ** Agreement where the specification gives a result or a trap *)

Definition mref {S A} (c c' : M S Trap A) : Prop := forall s, ran (c s).1 = true -> c' s = c s.
Definition rref {A} (r r' : res Trap A) : Prop := ran r = true -> r' = r.

Section refines.
Context {S : Type}.

Lemma mref_refl {A} (c : M S Trap A) : mref c c.
Proof using Type. done. Qed.
Lemma mref_ext {A} (c c' : M S Trap A) : (forall s, c' s = c s) -> mref c c'.
Proof using Type. by intros H s _. Qed.
Lemma mref_bind {A B} (c c' : M S Trap A) (k k' : A -> M S Trap B) :
  mref c c' -> (forall x, mref (k x) (k' x)) -> mref (x ← c; k x) (x ← c'; k' x).
Proof using Type.
  intros Hc Hk s. unfold mbind, M_bind. specialize (Hc s). destruct (c s) as [[x|e| |] s1]; cbn in Hc |- *; intros H; try done.
  - rewrite Hc by done. by apply Hk.
  - by rewrite Hc.
Qed.
Lemma mref_ret {A B} (x : A) (k : A -> M S Trap B) c : mref (k x) c -> mref (y ← mret x; k y) c.
Proof using Type. done. Qed.
Lemma mref_trans {A} (c1 c2 c3 : M S Trap A) : mref c1 c2 -> mref c2 c3 -> mref c1 c3.
Proof using Type. intros H1 H2 s Hs. rewrite <- (H1 s Hs). apply H2. by rewrite (H1 s Hs). Qed.
Lemma mref_mle {A} (c c' : M S Trap A) : mle c c' -> mref c c'.
Proof using Type. intros H s Hs. destruct (H s) as [Hn|Hn]; [by rewrite Hn in Hs|done]. Qed.

Lemma rref_bind {A B} (r r' : res Trap A) (k k' : A -> res Trap B) :
  rref r r' -> (forall x, rref (k x) (k' x)) -> rref (x ← r; k x) (x ← r'; k' x).
Proof using Type.
  intros Hr Hk. unfold rref in *. destruct r as [x|e| |]; cbn in *; intros H; try done; rewrite Hr by done; [by apply Hk|done].
Qed.
Lemma rref_rle {A} (r r' : res Trap A) : rle r r' -> rref r r'.
Proof using Type. intros [->| ->]; by intros ?. Qed.
End refines.

(** A term that is not boxed has no header to look at. *)
Lemma kind_boxed (mm : mem) t k : k = KTuple \/ k = KCons \/ k = KBinary ->
  rref (x ← kind mm t; Ok (bool_decide (x = k))) (boxed_kind_is mm t k).
Proof.
  intros Hk. unfold boxed_kind_is, is_boxed. case_bool_decide as Hb; [by intros ?|]. unfold kind.
  repeat case_bool_decide; try done; by destruct Hk as [->|[->| ->]].
Qed.

(** Reading a binary has no error of its own. *)
Lemma bin_bytes_no_err (mm : mem) t e : bin_bytes (E:=Trap) mm t <> Err e.
Proof.
  unfold bin_bytes, Term.load, mbind, res_bind. destruct (mm !! t) as [h|]; [|congruence]. generalize (seqZ 0 (Z.shiftr h 3)). intros l.
  induction l as [|i l IH]; [done|]. cbn. unfold load_byte, Term.load, mbind, res_bind. destruct (mm !! _); [|congruence].
  destruct (load_bytes mm (t + 8) l); congruence.
Qed.

(** ** Building a map again *)

(** A failed attempt leaves other pairs in the slice the interpreter tries again with: they make the same map. *)
Lemma strictly_sorted_unique (l l' : list (Z * Z)) : StronglySorted Z.lt l.*1 -> StronglySorted Z.lt l'.*1 ->
  (list_to_map l : gmap Z Z) = list_to_map l' -> l = l'.
Proof.
  intros Hs Hs' Hm. apply list_to_map_inj in Hm; [|by apply sorted_lt_NoDup..].
  revert l' Hs Hs' Hm. induction l as [|[k v] l IH]; intros [|[k' v'] l'] Hs Hs' Hp; try done.
  { by apply Permutation_nil_cons in Hp. }
  { symmetry in Hp. by apply Permutation_nil_cons in Hp. }
  cbn in Hs, Hs'. apply StronglySorted_inv in Hs as [Hs Hk], Hs' as [Hs' Hk'].
  assert ((k, v) = (k', v')) as [= -> ->].
  { assert ((k, v) ∈ (k', v') :: l') as H1 by (rewrite <- Hp; left). assert ((k', v') ∈ (k, v) :: l) as H2 by (rewrite Hp; left).
    apply elem_of_cons in H1 as [H1|H1]; [done|]. apply elem_of_cons in H2 as [H2|H2]; [done|].
    rewrite Forall_forall in Hk, Hk'. apply (list_elem_of_fmap_2 fst) in H1, H2. apply Hk in H2. apply Hk' in H1. cbn in *. lia. }
  f_equal. apply IH; [done..|]. by apply Permutation_cons_inv in Hp.
Qed.

Lemma last_wins_key l k : is_Some (last_wins l !! k) <-> k ∈ l.*1.
Proof.
  unfold last_wins. rewrite <- elem_of_dom, dom_list_to_map_L, elem_of_list_to_set, fmap_reverse, elem_of_reverse. done.
Qed.

Lemma map_from_pairs_ext ps ps' s : last_wins ps = last_wins ps' -> map_from_pairs ps s = map_from_pairs ps' s.
Proof.
  intros Hw. unfold map_from_pairs. destruct (kept_spec ps) as (Hs & Hm & _ & Ht & Hn), (kept_spec ps') as (Hs' & Hm' & _ & Ht' & Hn').
  assert (kept ps = kept ps') as Hk by (apply strictly_sorted_unique; [done..|congruence]).
  destruct (sorted_pairs ps) as [n l], (sorted_pairs ps') as [n' l']. cbn in *. rewrite Ht, Ht', Hn, Hn', Hk.
  assert (existsb (fun kv => is_boxed kv.1) ps = existsb (fun kv => is_boxed kv.1) ps') as ->; [|done].
  apply Bool.eq_true_iff_eq. rewrite !existsb_exists. setoid_rewrite <- list_elem_of_In.
  enough (H : forall l1 l2 : list (Z * Z), last_wins l1 = last_wins l2 -> (exists x, x ∈ l1 /\ is_boxed x.1 = true) -> exists x, x ∈ l2 /\ is_boxed x.1 = true)
    by (split; apply H; congruence).
  intros l1 l2 Hl ([k v] & Hin & Hb). assert (k ∈ l2.*1) as Hk2.
  { apply last_wins_key. rewrite <- Hl. apply last_wins_key. by apply (list_elem_of_fmap_2 fst) in Hin. }
  apply list_elem_of_fmap in Hk2 as ([k' v'] & -> & Hin'). by exists (k', v').
Qed.

(** ** The laws *)

Section laws.
Context {K : Type} `{!Runtime K} `{!Engine K}.
Context (text : Z -> Z -> option (list byte)) (call : Z -> Z -> list Term -> M (KS K) Trap Term).
Context (once : LoadedModule -> Z -> list Term -> M (KS K) Trap Term) (hops F : nat) (lm : LoadedModule) (code_ptr : Z -> Z).
#[local] Existing Instance RtNative.
#[local] Instance napi : NativeApi (KS K) := RtNative text call once hops.
#[local] Instance kapi : SystemApi (KS K) := NativeKernelApi F call lm.
Abbreviation KM := (M (KS K) Trap).

Lemma runs_helper h st xs (c : KM (option Z)) N :
  (forall n, (N <= n)%nat -> mref c (helper_table text call once hops n st h xs)) -> runs_as h st xs c.
Proof using Type.
  intros H s Hs. exists N. intros n Hle. cbn [run_helper napi RtNative]. rewrite helper_found. by apply H.
Qed.

Lemma mref_yields (c c' : KM Z) : mref c c' -> mref (yields c) (yields c').
Proof using Type. intros H. by apply mref_bind. Qed.
Lemma mref_does (c c' : KM unit) : mref c c' -> mref (does c) (does c').
Proof using Type. intros H. by apply mref_bind. Qed.

Lemma alloc_same fuel c : forall s, alloc_retry fuel c s = alloc_term fuel c s.
Proof using Type.
  induction fuel as [|fuel IH]; intros s; [done|]. cbn. by destruct (c (k_heap s)) as [[t|[]| |] h].
Qed.
Lemma mref_alloc n fuel c : (fuel <= n)%nat -> mref (alloc_term fuel c) (alloc_retry n c).
Proof using Type. intros Hle. eapply mref_trans; [by apply mref_mle, alloc_term_mono|]. apply mref_ext. apply alloc_same. Qed.
Lemma mref_retry n fuel c : (fuel <= n)%nat -> mref (alloc_retry fuel c) (alloc_retry n c).
Proof using F call lm. intros Hle s Hs. rewrite !alloc_same in *. eapply mref_mle; [by apply alloc_term_mono|]. done. Qed.

Lemma mref_peek {A} (g g' : mem -> res Trap A) : (forall mm, rref (g mm) (g' mm)) -> mref (on_heap g) (Rt.peek g').
Proof using Type. intros H s Hs. unfold Rt.peek, on_heap in *. cbn in *. by rewrite H. Qed.

Lemma raw_slice_ok st p xs (s : KS K) : stack_at st p xs -> Rt.raw_slice st p (zlen xs) s = (Ok xs, s).
Proof using Type.
  intros H. unfold Rt.raw_slice. assert (mapM (fun i => st !! (p + 8 * i)) (seqZ 0 (zlen xs)) = Some xs) as ->; [|done].
  apply mapM_Some, Forall2_same_length_lookup. unfold zlen. rewrite length_seqZ, Nat2Z.id. split; [done|].
  intros i a x Ha Hx. apply lookup_seqZ in Ha as [-> _]. by rewrite <- (H i x Hx).
Qed.
Lemma mref_slice {A} st p xs (c : KM A) k : stack_at st p xs -> mref c (k xs) -> mref c (l ← Rt.raw_slice st p (zlen xs); k l).
Proof using Type. intros H Hk s Hs. unfold mbind, M_bind. rewrite raw_slice_ok by done. by apply Hk. Qed.


Lemma mref_map n fuel ps : (fuel <= n)%nat -> mref (alloc_map fuel ps) (Rt.map_retry n (map_from_pairs ps)).
Proof using Type.
  intros Hle. eapply mref_trans; [by apply mref_mle, alloc_map_mono|]. apply mref_ext. clear Hle.
  enough (H : forall ps', last_wins ps' = last_wins ps -> forall s, Rt.map_retry n (map_from_pairs ps) s = alloc_map n ps' s) by by apply H.
  induction n as [|n IH]; intros ps' Hw s; [done|]. cbn. rewrite (map_from_pairs_ext ps' ps) by done.
  destruct (map_from_pairs ps (k_heap s)) as [[t|[]| |] h]; try done.
  destruct (k_grow _) as [[] s2]; [|done]. apply IH. by rewrite last_wins_retry.
Qed.
Lemma mref_put n fuel t k v : (fuel <= n)%nat -> mref (put_map fuel t k v) (Rt.map_retry n (map_put t k v)).
Proof using Type.
  intros Hle. eapply mref_trans; [by apply mref_mle, put_map_mono|]. apply mref_ext. clear Hle.
  induction n as [|n IH]; intros s; [done|]. cbn. destruct (map_put t k v (k_heap s)) as [[?|[]| |] h]; try done.
  destruct (k_grow _) as [[] s2]; [apply IH|done].
Qed.

Lemma chunks2_flat kvs : Rt.chunks2 (flat kvs) = kvs.
Proof using Type. induction kvs as [|[k v] kvs IH]; [done|]. cbn. by f_equal. Qed.
Lemma zlen_flat kvs : zlen (flat kvs) = 2 * zlen kvs.
Proof using Type. unfold zlen. induction kvs as [|[k v] kvs IH]; [done|]. cbn [flat mbind list_bind app length] in *. fold (flat kvs). lia. Qed.

(** The kind of a term, read first by the interpreter and after the test for a box by the helper. *)
Lemma rref_kind {A} mm t k (r r' : res Trap A) : k = KTuple \/ k = KCons \/ k = KBinary -> rref r r' ->
  rref (x ← kind mm t; if negb (bool_decide (x = k)) then Err Badarg else r) (b ← boxed_kind_is mm t k; if b : bool then r' else Err Badarg).
Proof using Type.
  intros Hk Hr H. pose proof (kind_boxed mm t k Hk) as Hb. unfold rref in *. destruct (kind mm t) as [x|e| |]; cbn in *; try done.
  - rewrite Hb by done. cbn. case_bool_decide; cbn in *; [by apply Hr|done].
  - by rewrite Hb.
Qed.
Lemma rref_kind' {A} mm t k (r r' : res Trap A) : k = KTuple \/ k = KCons \/ k = KBinary -> rref r r' ->
  rref (x ← kind mm t; if negb (bool_decide (x = k)) then Err Badarg else r) (b ← boxed_kind_is mm t k; if negb b then Err Badarg else r').
Proof using Type.
  intros Hk Hr H. rewrite <- (rref_kind mm t k r r' Hk Hr H). unfold mbind, res_bind. by destruct (boxed_kind_is mm t k) as [[]|?| |].
Qed.
Lemma rref_refl {A} (r : res Trap A) : rref r r.
Proof using Type. done. Qed.

Lemma collect_bytes_ref fuel : forall n mm t, (fuel <= n)%nat -> rref (list_bytes fuel mm t) (Rt.collect_bytes n mm t).
Proof using Type.
  induction fuel as [|fuel IH]; intros [|n] mm t Hle; try (by intros ?); try lia. cbn [list_bytes Rt.collect_bytes].
  assert (k : KCons = KTuple \/ KCons = KCons \/ KCons = KBinary) by auto.
  intros H. pose proof (kind_boxed mm t KCons k) as Hb. unfold rref in Hb. destruct (kind mm t) as [x|e| |]; cbn in *; try done;
    [|by rewrite Hb]. rewrite Hb by done. cbn. case_bool_decide; [|done]. revert H. apply rref_bind; [apply rref_refl|].
  intros h. destruct (as_int h) as [v|]; [|apply rref_refl]. destruct (negb _); [apply rref_refl|].
  apply rref_bind; [apply rref_refl|]. intros nx. apply rref_bind; [apply IH; lia|]. intros [? ?]. apply rref_refl.
Qed.

(** What the helper laws rest on: interned atoms have 32-bit ids, and the text section holds the module's bytecode. *)
Context (Hatoms : Forall (fun g => 0 <= g < 2 ^ 32) (lm_atom_map lm)).
Context (Htext : forall i g p bytes, lookupz (functions (lm_module lm)) i = Some g -> slice (code g) p (p + zlen bytes) = Some bytes ->
  text (wrap 64 (code_ptr i + p)) (zlen bytes) = Some bytes).

(** The helper runs with at least the fuel [N]. *)
Ltac law N := apply (runs_helper _ _ _ _ N); intros n Hn; cbn [helper_table]; first [apply mref_yields | apply mref_does].
(** Case analysis on the operands and on what the kernel answers. *)
Ltac cases := repeat (unfold mbind, M_bind, ok_or, fail_if, on_k; cbn; match goal with
  | |- context [match ?o with Some _ => _ | None => _ end] => destruct o
  | |- context [if ?b then _ else _] => destruct b
  | |- context [let '(_, _) := ?c (ks ?s) in _] => destruct (c (ks s)) as [[?|[]| |] ?]
  end); cbn; try done.

Lemma law_send st to msg : runs_as Helper.Send st [to; msg] (yields (_ ← api_send to msg; mret 0)).
Proof using Type. law F. apply mref_ext. intros s. unfold Rt.rt_send, api_send, kapi, NativeKernelApi, k_send. cases. Qed.
Lemma law_spawn st i arg : 0 <= i < 2 ^ 32 -> runs_as Helper.Spawn st [i; arg] (yields (a_spawn i arg)).
Proof using Type.
  intros Hi. law F. unfold Rt.rt_spawn, a_spawn. rewrite wrap_small by lia. unfold api_spawn, kapi, NativeKernelApi, native_spawn.
  apply mref_ext. intros s. unfold mbind, M_bind, fail_if. destruct (is_boxed arg); [done|]. cbn. unfold gets, get.
  cbn. destruct (current_process_module s); [|done]. cbn. by destruct (lookupz _ i).
Qed.
Lemma law_port_open st k : 0 <= k < 256 -> runs_as Helper.PortOpen st [k] (yields (port_open k)).
Proof using Type. intros Hk. law F. unfold Rt.rt_port_open. rewrite wrap_small by lia. apply mref_refl. Qed.
Lemma law_port_submit st p o a t : 0 <= o < 256 -> runs_as Helper.PortSubmit st [p; o; a; t] (yields (_ ← port_submit p o a t; mret 0)).
Proof using Type.
  intros Ho. law F. unfold Rt.rt_port_submit. rewrite (wrap_small 32 o) by lia. apply mref_ext. intros s.
  unfold port_submit, kapi, NativeKernelApi, k_port_submit, k_submit. cases.
Qed.
Lemma law_port_submit2 st p o a b t : runs_as Helper.PortSubmit2 st [p; o; a; b; t] (yields (_ ← port_submit2 p o a b t; mret 0)).
Proof using Type.
  law F. unfold Rt.rt_port_submit2. apply mref_ext. intros s.
  unfold port_submit2, kapi, NativeKernelApi, k_port_submit2, k_submit. cases.
Qed.
Lemma law_buf_write st b o t : runs_as Helper.BufWrite st [b; o; t] (yields (buf_write b o t)).
Proof using Type.
  law F. unfold Rt.rt_buf_write, buf_write, kapi, NativeKernelApi, k_buf_write. intros s Hs. revert Hs. unfold Rt.peek, binary_of.
  destruct (as_int b) as [id|]; [|done]. destruct (as_int o) as [off|]; [|done]. cbn. unfold mbind, M_bind, res_bind. cbn.
  destruct (boxed_kind_is _ t KBinary) as [[]|?| |]; cbn; try done.
  pose proof (bin_bytes_no_err (hmem (k_heap s)) t) as Hb. case_bool_decide; cbn; destruct (bin_bytes _ t) as [|e| |]; try done; by destruct (Hb e).
Qed.
Lemma law_buf_new st t : runs_as Helper.BufNew st [t] (yields (buf_new t)).
Proof using Type. law F. apply mref_refl. Qed.
Lemma law_buf_read st b o l : runs_as Helper.BufRead st [b; o; l] (yields (buf_read b o l)).
Proof using Type.
  law F. unfold Rt.rt_buf_read, buf_read, kapi, NativeKernelApi, k_buf_read.
  destruct (as_int b); [|done]. destruct (as_int o); [|done]. destruct (as_int l); [|done]. cbn [ok_or].
  do 3 apply mref_ret. repeat (apply mref_bind; [apply mref_refl|intros ?]). by apply mref_retry.
Qed.
Lemma law_buf_to_bin st t : runs_as Helper.BufToBin st [t] (yields (a_buf_to_bin t)).
Proof using Type.
  law F. unfold Rt.rt_buf_to_bin, a_buf_to_bin, buf_to_bin, kapi, NativeKernelApi, k_buf_to_bin.
  repeat (apply mref_bind; [apply mref_refl|intros ?]). by apply mref_retry.
Qed.
Lemma law_bin_to_buf st t : runs_as Helper.BinToBuf st [t] (yields (bin_to_buf t)).
Proof using Type.
  law F. unfold Rt.rt_bin_to_buf, bin_to_buf, kapi, NativeKernelApi, k_bin_to_buf. apply mref_bind; [|done].
  apply mref_ext. intros s. unfold Rt.peek, binary_of, mbind, res_bind. by destruct (boxed_kind_is _ t KBinary) as [[]|?| |].
Qed.

Lemma as_atom_word a : 0 <= a < 2 ^ 32 -> as_atom (term_atom a) = Some a.
Proof using Type.
  intros Ha. unfold as_atom, term_atom. rewrite tagged_header. unfold tag. rewrite header_tag by (unfold TAG_ATOM; lia).
  rewrite bool_decide_true by done. rewrite header_arity by (unfold TAG_ATOM; lia). f_equal. by apply wrap_small.
Qed.
Lemma law_call_ext st ma fa p xs : 0 <= ma < 2 ^ 32 -> 0 <= fa < 2 ^ 32 -> stack_at st p xs ->
  runs_as Helper.CallExt st [term_atom ma; term_atom fa; p; zlen xs] (yields (call_ext ma fa xs)).
Proof using Type. intros Hm Hf Hs. law F. unfold Rt.rt_call_ext. rewrite !as_atom_word by done. by apply mref_slice. Qed.
Lemma law_tail_ext st ma fa p xs : 0 <= ma < 2 ^ 32 -> 0 <= fa < 2 ^ 32 -> stack_at st p xs ->
  runs_as Helper.TailCallExt st [term_atom ma; term_atom fa; p; zlen xs] (does (a_upd (tail_call ma fa xs))).
Proof using Type. intros Hm Hf Hs. law F. unfold Rt.rt_tail_call_ext. rewrite !as_atom_word by done. by apply mref_slice. Qed.
Lemma law_tail_local st i p xs : 0 <= i < 2 ^ 32 -> stack_at st p xs ->
  runs_as Helper.TailCallLocal st [i; p; zlen xs] (does (a_upd (tail_call_local i xs))).
Proof using Type. intros Hi Hs. law F. unfold Rt.rt_tail_call_local. rewrite wrap_small by lia. by apply mref_slice. Qed.

Lemma law_eq fuel st a b : runs_as Helper.Eq st [a; b] (yields (a_eq fuel a b)).
Proof using Type. law fuel. apply mref_bind; [|done]. apply mref_peek. intros mm. by apply rref_rle, eq_term_mono. Qed.
Lemma law_make_tuple fuel st p xs : stack_at st p xs -> runs_as Helper.MakeTuple st [p; zlen xs] (yields (alloc_term fuel (tuple xs))).
Proof using Type. intros Hs. law fuel. apply mref_slice; [done|]. by apply mref_alloc. Qed.
Lemma law_cons fuel st h t : runs_as Helper.Cons st [h; t] (yields (alloc_term fuel (cons h t))).
Proof using Type. law fuel. by apply mref_alloc. Qed.
Lemma law_get_elem st t i : 0 <= i < 256 -> runs_as Helper.GetElem st [t; i] (yields (a_get_elem t i)).
Proof using Type.
  intros Hi. law F. apply mref_peek. intros mm. apply rref_kind; [by left|]. apply rref_bind; [done|]. intros k.
  unfold rref. repeat case_bool_decide; by try lia.
Qed.
Lemma law_head st t : runs_as Helper.Head st [t] (yields (a_head_tail true t)).
Proof using Type. law F. apply mref_peek. intros mm. apply rref_kind; [auto|done]. Qed.
Lemma law_tail st t : runs_as Helper.Tail st [t] (yields (a_head_tail false t)).
Proof using Type. law F. apply mref_peek. intros mm. apply rref_kind; [auto|done]. Qed.
Lemma law_bin_const fuel st i g p bytes : lookupz (functions (lm_module lm)) i = Some g -> slice (code g) p (p + zlen bytes) = Some bytes ->
  runs_as Helper.BinConst st [wrap 64 (code_ptr i + p); zlen bytes] (yields (alloc_term fuel (binary bytes))).
Proof using Htext. intros Hg Hp. law fuel. unfold Rt.rt_bin_const. erewrite Htext by done. by apply mref_alloc. Qed.
Lemma law_bin_from_list fuel st t : runs_as Helper.BinFromList st [t] (yields (a_bin_from_list fuel t)).
Proof using Type.
  law fuel. apply mref_bind; [apply mref_peek; intros mm; by apply collect_bytes_ref|]. intros [bs last].
  apply mref_bind; [done|]. intros _. by apply mref_alloc.
Qed.
Lemma law_bin_to_list fuel st t : runs_as Helper.BinToList st [t] (yields (a_bin_to_list fuel t)).
Proof using Type.
  law fuel. apply mref_bind; [|intros ?; by apply mref_alloc]. apply mref_peek. intros mm. apply rref_kind'; [auto|done].
Qed.
Lemma law_bin_size st t : runs_as Helper.BinSize st [t] (yields (a_bin_size t)).
Proof using Type.
  law F. eapply mref_trans.
  - apply mref_bind; [|intros ?; apply mref_refl]. apply mref_peek. intros mm. apply rref_kind'; [auto|apply rref_refl].
  - apply mref_ext. intros s. unfold Rt.rt_bin_size, Rt.peek, mbind, M_bind, res_bind. cbn.
    destruct (boxed_kind_is _ t KBinary) as [[]|?| |]; cbn; try done. by destruct (bin_bytes _ t).
Qed.
Lemma law_map_new fuel st p kvs : stack_at st p (flat kvs) -> runs_as Helper.MapNew st [p; zlen kvs] (yields (alloc_map fuel kvs)).
Proof using Type.
  intros Hs. law fuel. unfold Rt.rt_map_new. rewrite <- zlen_flat. apply mref_slice; [done|]. rewrite chunks2_flat. by apply mref_map.
Qed.
Lemma law_map_put fuel st t k v : runs_as Helper.MapPut st [t; k; v] (yields (a_map_put fuel t k v)).
Proof using Type. law fuel. do 2 (apply mref_bind; [done|intros ?]). by apply mref_put. Qed.
Lemma law_bin_cat fuel st a b : runs_as Helper.BinCat st [a; b] (yields (a_bin_cat fuel a b)).
Proof using Type. law fuel. apply mref_bind; [done|]. intros ?. by apply mref_alloc. Qed.
Lemma law_list_cat fuel st a b : runs_as Helper.ListCat st [a; b] (yields (a_list_cat fuel a b)).
Proof using Type.
  law fuel. apply mref_bind; [apply mref_peek; intros mm; by apply rref_rle, list_elems_mono|]. intros [es last].
  apply mref_bind; [done|]. intros _. by apply mref_alloc.
Qed.
Lemma law_bin_at st b i : runs_as Helper.BinAt st [b; i] (yields (a_bin_at b i)).
Proof using Type.
  law F. apply mref_bind; [done|]. intros idx. apply mref_ext. intros s. unfold Rt.peek, on_heap, mbind, M_bind, res_bind. cbn.
  destruct (boxed_kind_is _ b KBinary) as [k|?| |]; cbn; try done. destruct (_ || _); [done|].
  destruct (bin_bytes _ b) as [bs|?| |]; cbn; try done. case_bool_decide; [done|]. by destruct (lookupz bs idx).
Qed.
Lemma law_bin_part fuel st b o l : runs_as Helper.BinPart st [b; o; l] (yields (a_bin_part fuel b o l)).
Proof using Type.
  law fuel. unfold Rt.rt_bin_part, a_bin_part. destruct (as_int o) as [off|]; [|done]. destruct (as_int l) as [len|]; [|done].
  cbn [ok_or]. do 2 apply mref_ret. apply mref_bind; [done|]. intros ?. by apply mref_alloc.
Qed.

Lemma helper_laws : HelperLaws (fun _ tok => Rt.rt_resume_tail once hops tok) (lm_module lm) (lm_atom_map lm) code_ptr.
Proof using Hatoms Htext.
  constructor; auto using law_send, law_spawn, law_port_open, law_port_submit, law_port_submit2, law_buf_write, law_buf_new,
    law_buf_read, law_buf_to_bin, law_bin_to_buf, law_call_ext, law_tail_ext, law_tail_local, law_eq, law_make_tuple, law_cons,
    law_get_elem, law_head, law_tail, law_bin_from_list, law_bin_to_list, law_bin_size, law_map_new, law_map_put, law_bin_cat,
    law_list_cat, law_bin_at, law_bin_part.
  all: try (intros; by eapply law_bin_const).
  all: try (intros; law F; apply mref_refl).
  - intros i g s Hg. split; [apply lookupz_Some in Hg as [Hi Hl]; by apply (Forall_lookup_1 _ _ _ _ Hatoms Hl)|]. cbn. unfold k_atom_global. by rewrite Hg.
  - intros fuel a xs s _. by exists 0%nat.
Qed.
End laws.
