(* ===== verification/JitPublish.v ===== *)
(** * JitPublish: placing compiled code

    Models [publish] and [compile_and_publish] of [kernel/src/jit.rs]: the layout of the compiled
    functions in one span, the copy, and the relocations.  The span is taken from the frame
    allocator of [FrameAlloc] and mapped by [map_code] of [Memory]; its bytes are a value. *)

From S2P Require Import Prelude FrameAlloc Bytecode BytecodeAnalysis Memory Clif Jit.

(** ** The publisher *)

Record JitModule := { fn_addrs : list Z; jit_span : Z * Z }.

(** The offset of each function and the end of the last one. *)
Fixpoint layout (total : Z) (fns : list CompiledFn) : list Z * Z :=
  match fns with
  | [] => ([], total)
  | f :: fns' =>
      let off := Z.land (total + 15) (Z.lnot 15) in
      let '(offsets, end_) := layout (off + zlen (c_code f)) fns' in (off :: offsets, end_)
  end.

Definition code_pages (total : Z) : Z := Z.max (div_ceil total 4096) 1.

(** [copy_nonoverlapping] for each function; no write leaves the span. *)
Fixpoint copy_code (fns : list CompiledFn) (offsets : list Z) (img : list byte) : option (list byte) :=
  match fns, offsets with
  | f :: fns', off :: offsets' => img' ← patch off (c_code f) img; copy_code fns' offsets' img'
  | _, _ => Some img
  end.

Section linking.
Context (helper_addrs addrs : list Z) (base_exec : Z).

Definition reloc_addr (t : RelocTarget) : option Z :=
  match t with
  | RHelper h => lookupz helper_addrs h
  | RFunction i => lookupz addrs i
  | RAddress a => Some a
  end.

(** The bytes of the field: [write_unaligned] of a [u64], or of the distance as an [i32]. *)
Definition reloc_bytes (off : Z) (r : RelocEntry) (target : Z) : list byte :=
  let exec_at := base_exec + off + r_offset r in
  match r_kind r with
  | Abs8 => le_bytes 8 (target + r_addend r)
  | PcRel4 => le_bytes 4 (target + r_addend r - exec_at)
  end.

Fixpoint write_relocs (off : Z) (rs : list RelocEntry) (img : list byte) : option (list byte) :=
  match rs with
  | [] => Some img
  | r :: rs' =>
      target ← reloc_addr (r_target r);
      img' ← patch (off + r_offset r) (reloc_bytes off r target) img;
      write_relocs off rs' img'
  end.

Fixpoint link_code (fns : list CompiledFn) (offsets : list Z) (img : list byte) : option (list byte) :=
  match fns, offsets with
  | f :: fns', off :: offsets' => img' ← write_relocs off (c_relocs f) img; link_code fns' offsets' img'
  | _, _ => Some img
  end.
End linking.

Section publisher.
Context {P : Type} `{!Mapper P} (helper_addrs : list Z).

(** The published module with the bytes of its span. *)
Definition publish (fns : list CompiledFn) : M (Vm (P:=P)) Empty_set (JitModule * list byte) :=
  let '(offsets, total) := layout 0 fns in
  let pages := code_pages total in
  o ← on_pmm (alloc_contig pages 1);
  span ← unwrap o;
  base_exec ← map_code span pages;
  let img := replicate (Z.to_nat (pages * 4096)) (z2b 0xCC) in
  img1 ← unwrap (copy_code fns offsets img);
  let addrs := map (fun o => base_exec + o) offsets in
  img2 ← unwrap (link_code helper_addrs addrs base_exec fns offsets img1);
  mret ({| fn_addrs := addrs; jit_span := (span, pages) |}, img2).

Context `{!Backend} {X : Type} (resolver : Z -> Z -> M X Empty_set (option ExtTarget)) (code_ptr : Z -> Z).

(** A failed compilation leaves the module to the interpreter. *)
Definition compile_and_publish (m : Module_) (atom_map : list Z) : M (X * Vm (P:=P)) Empty_set (option (JitModule * list byte)) :=
  fun '(x, v) =>
    match compile_module_linked resolver m atom_map true code_ptr x with
    | (Ok fns, x') =>
        let '(r, v') := publish fns v in
        (match r with Ok jm => Ok (Some jm) | Err e => Err e | Panic => Panic | NoFuel => NoFuel end, (x', v'))
    | (Err _, x') => (Ok None, (x', v))
    | (Panic, x') => (Panic, (x', v))
    | (NoFuel, x') => (NoFuel, (x', v))
    end.
End publisher.

(** ** The layout *)

(** Rounding up to a multiple of 16. *)
Lemma align16 t : 0 <= t -> let o := Z.land (t + 15) (Z.lnot 15) in t <= o < t + 16 /\ o mod 16 = 0.
Proof.
  intros Ht o. assert (o = (t + 15) / 16 * 16) as ->.
  { subst o. rewrite <- Z.ldiff_land. change 15 with (Z.ones 4) at 2. rewrite Z.ldiff_ones_r by lia.
    by rewrite Z.shiftl_mul_pow2, Z.shiftr_div_pow2 by lia. }
  pose proof (Z.div_mod (t + 15) 16). pose proof (Z.mod_pos_bound (t + 15) 16). rewrite Z.mod_mul by lia. lia.
Qed.

(** The functions lie one after the other in [lo, hi), each at a multiple of 16. *)
Inductive chain : Z -> list CompiledFn -> list Z -> Z -> Prop :=
| chain_nil lo hi : lo <= hi -> chain lo [] [] hi
| chain_cons lo f o fns offs hi :
    lo <= o -> o mod 16 = 0 -> chain (o + zlen (c_code f)) fns offs hi -> chain lo (f :: fns) (o :: offs) hi.

Lemma layout_chain fns : forall t, 0 <= t -> chain t fns (layout t fns).1 (layout t fns).2.
Proof.
  induction fns as [|f fns IH]; intros t Ht; cbn [layout]; [by constructor|].
  destruct (align16 t Ht) as [Ho Ha]. set (off := Z.land _ _) in *. pose proof (zlen_nonneg (c_code f)).
  specialize (IH (off + zlen (c_code f)) ltac:(lia)). destruct (layout _ fns) as [offs e]. by constructor; [lia|..].
Qed.

Lemma chain_le lo fns offs hi : chain lo fns offs hi -> lo <= hi.
Proof. induction 1 as [|lo f ???? H1 H2 H3 IH]; [done|]. pose proof (zlen_nonneg (c_code f)). lia. Qed.
Lemma chain_inside lo fns offs hi f o : chain lo fns offs hi -> (f, o) ∈ zip fns offs -> lo <= o /\ o mod 16 = 0 /\ o + zlen (c_code f) <= hi.
Proof.
  induction 1 as [|lo g o' fns offs hi H1 H2 H3 IH]; cbn; [by intros []%elem_of_nil|]. pose proof (zlen_nonneg (c_code g)).
  intros [[= -> ->]|Hin]%elem_of_cons; [apply chain_le in H3; lia|]. destruct (IH Hin) as (? & ? & ?). lia.
Qed.
(** Two functions do not overlap. *)
Lemma chain_apart lo fns offs hi i j p p' : chain lo fns offs hi -> zip fns offs !! i = Some p -> zip fns offs !! j = Some p' -> (i < j)%nat ->
  p.2 + zlen (c_code p.1) <= p'.2.
Proof.
  intros H. revert i j. induction H as [|lo g o' fns offs hi H1 H2 H3 IH]; intros [|i] [|j] Hi Hj Hij; try done; try lia.
  - injection Hi as <-. destruct p' as [f o]. change (zip fns offs !! j = Some (f, o)) in Hj. apply list_elem_of_lookup_2 in Hj. by destruct (chain_inside _ _ _ _ _ _ H3 Hj) as [? _].
  - eapply (IH i j); try eassumption. lia.
Qed.

(** ** Copying and linking *)

Definition field_len (r : RelocEntry) : Z := match r_kind r with Abs8 => 8 | PcRel4 => 4 end.
(** Byte [k] of the function belongs to the field of [r]. *)
Definition in_field (r : RelocEntry) (k : Z) : Prop := r_offset r <= k < r_offset r + field_len r.

Lemma zlen_reloc_bytes base off r t : zlen (reloc_bytes base off r t) = field_len r.
Proof. unfold reloc_bytes, field_len. by destruct (r_kind r). Qed.

(** What the code generator reports about a function: its fields lie in its code and do not
    overlap; and its targets are helpers and functions that exist. *)
Record relocs_ok (helpers fns : Z) (f : CompiledFn) : Prop := {
  ro_inside : Forall (fun r => 0 <= r_offset r /\ r_offset r + field_len r <= zlen (c_code f)) (c_relocs f);
  ro_apart : forall i j r r' k, c_relocs f !! i = Some r -> c_relocs f !! j = Some r' -> in_field r k -> in_field r' k -> i = j;
  ro_target : Forall (fun r => match r_target r with RHelper h => 0 <= h < helpers | RFunction i => 0 <= i < fns | RAddress _ => True end) (c_relocs f);
}.

Lemma patch_in pos bs img : 0 <= pos -> pos + zlen bs <= zlen img -> exists img', patch pos bs img = Some img'.
Proof. intros Hp Hl. unfold patch. rewrite bool_decide_true by done. eauto. Qed.

(** Bytes of the image that hold [bs] from [pos] on. *)
Definition holds_at (img : list byte) (pos : Z) (bs : list byte) : Prop :=
  forall k, 0 <= k < zlen bs -> lookupz img (pos + k) = lookupz bs k.

Lemma holds_patch pos bs img img' : patch pos bs img = Some img' -> holds_at img' pos bs.
Proof.
  intros H k Hk. destruct (lookupz_patch _ _ _ _ (pos + k) H) as [_ ->]. rewrite decide_True by lia. f_equal. lia.
Qed.

Section linked.
Context (helper_addrs addrs : list Z) (base : Z).
Abbreviation target r := (reloc_addr helper_addrs addrs (r_target r)).

(** The fields of a list of relocations: all written, nothing else touched. *)
Lemma write_relocs_spec off n rs : forall img,
  0 <= off -> off + n <= zlen img ->
  Forall (fun r => 0 <= r_offset r /\ r_offset r + field_len r <= n) rs ->
  (forall i j r r' k, rs !! i = Some r -> rs !! j = Some r' -> in_field r k -> in_field r' k -> i = j) ->
  Forall (fun r => is_Some (target r)) rs ->
  exists img', write_relocs helper_addrs addrs base off rs img = Some img' /\ zlen img' = zlen img /\
    (forall p, (forall r, r ∈ rs -> ~ in_field r (p - off)) -> lookupz img' p = lookupz img p) /\
    (forall r, r ∈ rs -> exists t, target r = Some t /\ holds_at img' (off + r_offset r) (reloc_bytes base off r t)).
Proof using Type.
  induction rs as [|r rs IH]; intros img H0 Hn Hin Hap Htg.
  { exists img. split_and!; [done..|]. intros r Hr. by apply elem_of_nil in Hr. }
  apply Forall_cons in Hin as [[Hr1 Hr2] Hin], Htg as [[t Ht] Htg]. cbn [write_relocs]. rewrite Ht. cbn.
  destruct (patch_in (off + r_offset r) (reloc_bytes base off r t) img) as [img1 H1];
    [lia|rewrite zlen_reloc_bytes; lia|]. rewrite H1. cbn.
  destruct (lookupz_patch _ _ _ _ 0 H1) as [Hl1 _].
  destruct (IH img1) as (img' & Hw & Hl & Hout & Hf); [done|lia|done| |done|].
  { intros i j r1 r2 k Hi Hj ? ?. enough (S i = S j) by lia. by eapply (Hap (S i) (S j)). }
  exists img'. split_and!; [done|lia| |].
  - intros p Hp. rewrite Hout by (intros r' Hr'; apply Hp; by right). destruct (lookupz_patch _ _ _ _ p H1) as [_ ->].
    rewrite zlen_reloc_bytes, decide_False; [done|]. intros Hk. apply (Hp r); [left|]. unfold in_field. lia.
  - intros r' Hr'. apply elem_of_cons in Hr' as [->|Hr']; [|by apply Hf]. exists t. split; [done|].
    intros k Hk. rewrite Hout; [by apply (holds_patch _ _ _ _ H1)|]. intros r' Hr' Hk'.
    apply list_elem_of_lookup in Hr' as [j Hj]. enough (0%nat = S j) by done. rewrite zlen_reloc_bytes in Hk.
    eapply (Hap 0%nat (S j) r r'); [done|done| |exact Hk']. unfold in_field. lia.
Qed.
End linked.

(** ** The image *)

Definition inside (fo : CompiledFn * Z) (p : Z) : Prop := fo.2 <= p < fo.2 + zlen (c_code fo.1).

Lemma copy_code_spec lo fns offs hi : chain lo fns offs hi -> forall img, 0 <= lo -> hi <= zlen img ->
  exists img', copy_code fns offs img = Some img' /\ zlen img' = zlen img /\
    (forall p, (forall fo, fo ∈ zip fns offs -> ~ inside fo p) -> lookupz img' p = lookupz img p) /\
    (forall fo, fo ∈ zip fns offs -> holds_at img' fo.2 (c_code fo.1)).
Proof.
  induction 1 as [lo hi Hh|lo f o fns offs hi H1 H2 H3 IH]; intros img H0 Hl; cbn [copy_code zip zip_with].
  { exists img. split_and!; [done..|]. intros fo Hr. by apply elem_of_nil in Hr. }
  pose proof (chain_le _ _ _ _ H3). destruct (patch_in o (c_code f) img) as [img1 Hp]; [lia..|]. rewrite Hp. cbn.
  destruct (lookupz_patch _ _ _ _ 0 Hp) as [Hl1 _]. pose proof (zlen_nonneg (c_code f)).
  destruct (IH img1) as (img' & Hc & Hl' & Hout & Hin); [lia..|]. exists img'. split_and!; [done|lia| |].
  - intros p Hno. rewrite Hout by (intros fo Hfo; apply Hno; by right). destruct (lookupz_patch _ _ _ _ p Hp) as [_ ->].
    rewrite decide_False; [done|]. intros Hk. apply (Hno (f, o)); [left|done].
  - intros fo [->|Hfo]%elem_of_cons; [|by apply Hin]. intros k Hk. cbn in *.
    rewrite Hout; [by apply (holds_patch _ _ _ _ Hp)|]. intros [g o'] Hg Hi. unfold inside in Hi. cbn in Hi.
    destruct (chain_inside _ _ _ _ _ _ H3 Hg) as (? & _). lia.
Qed.

Section image.
Context (helper_addrs addrs : list Z) (base : Z).
Abbreviation target r := (reloc_addr helper_addrs addrs (r_target r)).

(** The function at [o] as it will run: its code, with every field filled. *)
Definition linked (img : list byte) (fo : CompiledFn * Z) : Prop :=
  (forall k, 0 <= k < zlen (c_code fo.1) -> (forall r, r ∈ c_relocs fo.1 -> ~ in_field r k) ->
     lookupz img (fo.2 + k) = lookupz (c_code fo.1) k) /\
  (forall r, r ∈ c_relocs fo.1 -> exists t, target r = Some t /\ holds_at img (fo.2 + r_offset r) (reloc_bytes base fo.2 r t)).

Lemma target_found f : relocs_ok (zlen helper_addrs) (zlen addrs) f -> Forall (fun r => is_Some (target r)) (c_relocs f).
Proof using Type.
  intros H. eapply Forall_impl; [apply (ro_target _ _ _ H)|]. intros r. unfold reloc_addr.
  destruct (r_target r); intros Hr; [by apply lookupz_is_Some..|eauto].
Qed.

Lemma link_code_spec lo fns offs hi : chain lo fns offs hi -> forall img, 0 <= lo -> hi <= zlen img ->
  Forall (relocs_ok (zlen helper_addrs) (zlen addrs)) fns ->
  (forall fo, fo ∈ zip fns offs -> holds_at img fo.2 (c_code fo.1)) ->
  exists img', link_code helper_addrs addrs base fns offs img = Some img' /\ zlen img' = zlen img /\
    (forall p, (forall fo, fo ∈ zip fns offs -> ~ inside fo p) -> lookupz img' p = lookupz img p) /\
    (forall fo, fo ∈ zip fns offs -> linked img' fo).
Proof using Type.
  induction 1 as [lo hi Hh|lo f o fns offs hi H1 H2 H3 IH]; intros img H0 Hl Hok Hcode; cbn [link_code zip zip_with].
  { exists img. split_and!; [done..|]. intros fo Hr. by apply elem_of_nil in Hr. }
  apply Forall_cons in Hok as [Hf Hok]. pose proof (chain_le _ _ _ _ H3). pose proof (zlen_nonneg (c_code f)).
  destruct (write_relocs_spec helper_addrs addrs base o (zlen (c_code f)) (c_relocs f) img) as (img1 & Hw & Hl1 & Ho1 & Hf1);
    [lia|lia|apply Hf|apply (ro_apart _ _ _ Hf)|by apply target_found|]. rewrite Hw. cbn.
  (* the fields of [f] lie in [f] *)
  assert (Hfar : forall p, ~ inside (f, o) p -> lookupz img1 p = lookupz img p).
  { intros p Hp. apply Ho1. intros r Hr Hk. apply Hp. unfold inside, in_field in *. cbn.
    eapply Forall_forall in Hr; [|exact (ro_inside _ _ _ Hf)]. cbn in Hr. lia. }
  destruct (IH img1) as (img' & Hc & Hl' & Hout & Hin); [lia|lia|done| |].
  { intros [g o'] Hg k Hk. cbn in *. destruct (chain_inside _ _ _ _ _ _ H3 Hg) as (? & _). rewrite Hfar by (unfold inside; cbn; lia).
    by apply (Hcode (g, o')); [right|]. }
  exists img'. split_and!; [done|lia| |].
  { intros p Hno. rewrite Hout by (intros fo Hfo; apply Hno; by right). apply Hfar. apply Hno. left. }
  intros fo [->|Hfo]%elem_of_cons; [|by apply Hin].
  assert (Hkeep : forall k, 0 <= k < zlen (c_code f) -> lookupz img' (o + k) = lookupz img1 (o + k)).
  { intros k Hk. apply Hout. intros [g o'] Hg Hi. destruct (chain_inside _ _ _ _ _ _ H3 Hg) as (? & _). unfold inside in Hi. cbn in Hi. lia. }
  split; cbn.
  - intros k Hk Hnf. rewrite Hkeep by done. rewrite Ho1; [by apply (Hcode (f, o)); [left|]|].
    intros r Hr. replace (o + k - o) with k by lia. by apply Hnf.
  - intros r Hr. destruct (Hf1 r Hr) as (t & Ht & Hh). exists t. split; [done|]. intros k Hk. rewrite <- (Hh k Hk).
    rewrite zlen_reloc_bytes in Hk. eapply Forall_forall in Hr; [|exact (ro_inside _ _ _ Hf)]. cbn in Hr.
    rewrite <- Z.add_assoc. apply Hkeep. lia.
Qed.
End image.

(** ** Publishing *)

Section published.
Context {P : Type} `{!Mapper P} (helper_addrs : list Z).

Lemma pages_cover t : 0 <= t -> t <= code_pages t * 4096.
Proof using Type. intros Ht. unfold code_pages, div_ceil. pose proof (Z.div_mod (t + 4096 - 1) 4096). pose proof (Z.mod_pos_bound (t + 4096 - 1) 4096). lia. Qed.

(** The functions as they lie in the span whose executable alias starts at [base]. *)
Record placed (fns : list CompiledFn) (offs : list Z) (base size : Z) (img : list byte) : Prop := {
  pl_all : length offs = length fns;
  pl_size : zlen img = size;
  pl_inside fo : fo ∈ zip fns offs -> 0 <= fo.2 /\ fo.2 mod 16 = 0 /\ fo.2 + zlen (c_code fo.1) <= size;
  pl_apart i j p p' : zip fns offs !! i = Some p -> zip fns offs !! j = Some p' -> (i < j)%nat -> p.2 + zlen (c_code p.1) <= p'.2;
  pl_linked fo : fo ∈ zip fns offs -> linked helper_addrs (map (fun o => base + o) offs) base img fo;
  pl_padding p : 0 <= p < size -> (forall fo, fo ∈ zip fns offs -> ~ inside fo p) -> lookupz img p = Some (z2b 0xCC);
}.

Lemma chain_length lo fns offs hi : chain lo fns offs hi -> length offs = length fns.
Proof using Type. induction 1; cbn; lia. Qed.

Lemma zlen_map {A B} (g : A -> B) l : zlen (map g l) = zlen l.
Proof using Type. unfold zlen. by rewrite length_map. Qed.

Lemma image_ok fns base : Forall (relocs_ok (zlen helper_addrs) (zlen fns)) fns ->
  let offs := (layout 0 fns).1 in let size := code_pages (layout 0 fns).2 * 4096 in
  exists img1 img, copy_code fns offs (replicate (Z.to_nat size) (z2b 0xCC)) = Some img1 /\
    link_code helper_addrs (map (fun o => base + o) offs) base fns offs img1 = Some img /\ placed fns offs base size img.
Proof using Type.
  intros Hok offs size. pose proof (layout_chain fns 0 ltac:(lia)) as Hch. fold offs in Hch. pose proof (chain_le _ _ _ _ Hch) as H0.
  pose proof (chain_length _ _ _ _ Hch) as Hlen. pose proof (pages_cover _ H0) as Hp. fold size in Hp.
  assert (Hz : zlen (replicate (Z.to_nat size) (z2b 0xCC)) = size) by (unfold zlen; rewrite length_replicate; lia).
  destruct (copy_code_spec _ _ _ _ Hch (replicate (Z.to_nat size) (z2b 0xCC))) as (img1 & Hc & Hl1 & Ho1 & Hi1); [lia..|].
  assert (Hza : zlen (map (fun o => base + o) offs) = zlen fns) by (rewrite zlen_map; unfold zlen; by rewrite Hlen).
  destruct (link_code_spec helper_addrs (map (fun o => base + o) offs) base _ _ _ _ Hch img1) as (img & Hk & Hl2 & Ho2 & Hi2);
    [lia|lia|by rewrite Hza|done|]. exists img1, img. split_and!; [done..|]. split; [done|lia| | |done|].
  - intros [f o] Hfo. destruct (chain_inside _ _ _ _ _ _ Hch Hfo) as (? & ? & ?). cbn. lia.
  - intros i j p p'. by apply (chain_apart _ _ _ _ _ _ _ _ Hch).
  - intros p Hin Hno. rewrite Ho2, Ho1 by done. apply lookupz_Some. split; [lia|]. apply lookup_replicate. split; [done|lia].
Qed.

(** With a span of frames and its mapping at hand [publish] always succeeds. *)
Lemma publish_ok fns v span v1 base v2 :
  Forall (relocs_ok (zlen helper_addrs) (zlen fns)) fns ->
  on_pmm (alloc_contig (code_pages (layout 0 fns).2) 1) v = (Ok (Some span), v1) ->
  map_code span (code_pages (layout 0 fns).2) v1 = (Ok base, v2) ->
  exists img, publish helper_addrs fns v =
      (Ok ({| fn_addrs := map (fun o => base + o) (layout 0 fns).1; jit_span := (span, code_pages (layout 0 fns).2) |}, img), v2) /\
    placed fns (layout 0 fns).1 base (code_pages (layout 0 fns).2 * 4096) img.
Proof using Type.
  intros Hok Ha Hm. destruct (image_ok fns base Hok) as (img1 & img & Hc & Hk & Hp). exists img. split; [|done].
  unfold publish. destruct (layout 0 fns) as [offs total]. cbn [fst snd] in *. unfold mbind, M_bind.
  rewrite Ha. cbn [unwrap mret M_ret]. rewrite Hm, Hc. cbn [unwrap mret M_ret]. by rewrite Hk.
Qed.

(** What the processor reads in a field of four bytes: a signed distance from the field. *)
Definition call_lands (base : Z) (img : list byte) (o : Z) (r : RelocEntry) (t : Z) : Prop :=
  exists bs, slice img (o + r_offset r) (o + r_offset r + 4) = Some bs /\
    base + o + r_offset r + swrap 32 (le_val bs) = t + r_addend r.

Lemma rel_exact d : - 2 ^ 31 <= d < 2 ^ 31 -> swrap 32 (le_val (le_bytes 4 d)) = d.
Proof using Type.
  intros Hd. rewrite le_val_bytes. change (d mod 256 ^ Z.of_nat 4) with (wrap 32 d). rewrite swrap_wrap by lia. by apply swrap_small.
Qed.

(** C39: A relative call of a published function reaches the function it names: as long as the
    span is shorter than 1 GiB and the addend small, the distance fits its four bytes and
    leads from the field to the callee's address. *)
Theorem sibling_calls_reach fns base img f o r i :
  placed fns (layout 0 fns).1 base (code_pages (layout 0 fns).2 * 4096) img -> code_pages (layout 0 fns).2 * 4096 <= 2 ^ 30 ->
  Forall (relocs_ok (zlen helper_addrs) (zlen fns)) fns ->
  (f, o) ∈ zip fns (layout 0 fns).1 -> r ∈ c_relocs f -> r_kind r = PcRel4 -> r_target r = RFunction i -> - 2 ^ 30 <= r_addend r < 2 ^ 30 ->
  exists t, lookupz (map (fun o => base + o) (layout 0 fns).1) i = Some t /\ call_lands base img o r t.
Proof using Type.
  intros Hp Hsz Hok Hfo Hr Hk Ht Had. destruct (pl_linked _ _ _ _ _ Hp _ Hfo) as [_ Hl]. destruct (Hl r Hr) as (t & Htg & Hh). cbn in Hh.
  exists t. unfold reloc_addr in Htg. rewrite Ht in Htg. split; [done|]. apply lookupz_Some in Htg as [Hi0 Hi].
  rewrite list_lookup_fmap in Hi. destruct ((layout 0 fns).1 !! Z.to_nat i) as [o'|] eqn:Ho'; [|done]. injection Hi as <-.
  destruct (pl_inside _ _ _ _ _ Hp _ Hfo) as (? & _ & ?). cbn in *.
  assert (exists g, fns !! Z.to_nat i = Some g) as [g Hg].
  { apply lookup_lt_is_Some. rewrite <- (pl_all _ _ _ _ _ Hp). apply lookup_lt_is_Some. eauto. }
  assert ((g, o') ∈ zip fns (layout 0 fns).1) as Hgo by (apply (list_elem_of_lookup_2 _ (Z.to_nat i)), lookup_zip_with_Some; eauto).
  destruct (pl_inside _ _ _ _ _ Hp _ Hgo) as (? & _ & ?). cbn in *. pose proof (zlen_nonneg (c_code g)).
  assert (f ∈ fns) as Hf by by apply elem_of_zip_l in Hfo. eapply Forall_forall in Hf; [|exact Hok].
  eapply Forall_forall in Hr; [|exact (ro_inside _ _ _ Hf)]. cbn in Hr. pose proof (zlen_reloc_bytes base o r (base + o')) as Hn.
  unfold field_len in *. rewrite Hk in *. exists (reloc_bytes base o r (base + o')). split.
  - rewrite <- Hn. apply slice_lookupz; [lia|rewrite (pl_size _ _ _ _ _ Hp), Hn; lia|]. exact Hh.
  - unfold reloc_bytes. rewrite Hk. rewrite rel_exact by lia. lia.
Qed.
End published.
