(* ===== verification/KernelSim.v ===== *)
(** * KernelSim: the services of compiled code follow the interpreter's

    Compiled code spawns in, and returns from external calls to, the module the process is
    registered with ([current_process_module]); the interpreter uses the module it is running.
    While the process is registered at the version it runs, the two agree. *)

From S2P Require Import Prelude Rings Term Bytecode Verify VerifySound Interp Atoms Clif Jit Modload JitRt ApiSim.

(** ** The running process stays the running process

    A service that suspends the caller returns when it runs again. *)
Record SameProcess (K : Type) `{!Runtime K} : Prop := {
  cur_heap h (k : K) : rt_current (rt_with_heap h k) = rt_current k;
  cur_send p t (k : K) : rt_current (rt_send p t k) = rt_current k;
  cur_recv (k : K) : rt_current (rt_recv k).2 = rt_current k;
  cur_spawn i (k : K) : rt_current (rt_spawn i k).2 = rt_current k;
  cur_safepoint (k : K) : rt_current (rt_safepoint k) = rt_current k;
  cur_print t (k : K) : rt_current (rt_print t k) = rt_current k;
  cur_open n (k : K) : rt_current (rt_open n k).2 = rt_current k;
  cur_submit i q (k : K) : rt_current (rt_submit i q k).2 = rt_current k;
  cur_buf_write i o bs (k : K) : rt_current (rt_buf_write i o bs k).2 = rt_current k;
  cur_buf_create bs (k : K) : rt_current (rt_buf_create bs k).2 = rt_current k;
  cur_buf_read i o n (k : K) : rt_current (rt_buf_read i o n k).2 = rt_current k;
  cur_buf_take i (k : K) : rt_current (rt_buf_take i k).2 = rt_current k;
  cur_sleep n (k : K) : rt_current (rt_sleep n k) = rt_current k;
  cur_grow (k : K) : rt_current (rt_grow k).2 = rt_current k;
}.

Section sim.
Context {K : Type} `{!Runtime K} `{!Engine K} (HC : SameProcess K).
Context (F : nat) (call : Z -> Z -> list Term -> M (KS K) Trap Term) (lm : LoadedModule).

(** The table holds [lm] as the instance of its version. *)
Definition holds (d : Mods) : Prop := exists sl, slots d !! lm_name lm = Some sl /\
  (current sl = lm \/ (lm_version (current sl) <> lm_version lm /\ old sl = Some lm)).

(** The running process is registered at [lm]. *)
Definition registered (s : KS K) : Prop :=
  running (ms s) !! rt_current (ks s) = Some (lm_name lm, lm_version lm) /\ holds (ms s).

(** An external call returns to the process that made it, and [lm] is still there. *)
Definition calls_return : Prop := forall ma fa args s t s', call ma fa args s = (Ok t, s') ->
  rt_current (ks s') = rt_current (ks s) /\ (holds (ms s) -> holds (ms s')).

Lemma registered_module s : registered s -> current_process_module s = Some lm.
Proof using Type.
  intros [Hr (sl & Hsl & Hlm)]. unfold current_process_module. rewrite Hr. cbn. rewrite Hsl. cbn.
  destruct Hlm as [->|[Hne ->]]; [by rewrite bool_decide_true|]. by rewrite bool_decide_false, bool_decide_true.
Qed.

Definition same (s s' : KS K) : Prop := s = s' /\ registered s.
Abbreviation ksim := (osim (E:=Trap) same).

(** A computation that keeps the registration follows itself. *)
Lemma same_refl {A} (c : M (KS K) Trap A) : (forall s x s', registered s -> c s = (Ok x, s') -> registered s') -> ksim c c.
Proof using Type. intros H s1 s2 x s1' [<- Hr] Hc. exists s1'. split; [done|]. split; [done|]. by eapply H. Qed.

Lemma registered_k s k : registered s -> rt_current k = rt_current (ks s) -> registered {| ks := k; ms := ms s |}.
Proof using Type. intros [H1 H2] He. split; [|done]. cbn. by rewrite He. Qed.
Lemma registered_m s d : registered s -> running d = running (ms s) -> slots d = slots (ms s) -> registered {| ks := ks s; ms := d |}.
Proof using Type. intros [H1 H2] Hr Hs. split; cbn; [by rewrite Hr|]. unfold holds. by rewrite Hs. Qed.

Lemma sim_on_k {A} (c : M K Empty_set A) : (forall k, rt_current (c k).2 = rt_current k) -> ksim (on_k c) (on_k c).
Proof using Type.
  intros Hc. apply same_refl. intros s x s' Hr H. unfold on_k in H. specialize (Hc (ks s)). destruct (c (ks s)) as [[y|[]| |] k]; try discriminate H.
  injection H as _ <-. by apply registered_k.
Qed.
Lemma sim_upd_k (f : K -> K) : (forall k, rt_current (f k) = rt_current k) -> forall s1 s2, same s1 s2 -> same (upd_k f s1) (upd_k f s2).
Proof using Type. intros Hf s1 s2 [<- Hr]. split; [done|]. by apply registered_k. Qed.
Lemma sim_binary_of t : ksim (binary_of t) (binary_of t).
Proof using Type. apply same_refl. by intros s x s' Hr [= _ <-]. Qed.
Lemma sim_on_atoms {A} (c : M AtomTable Trap A) : ksim (on_atoms c) (on_atoms c).
Proof using Type.
  apply same_refl. intros s x s' Hr H. unfold on_atoms in H. destruct (c (atab (ms s))) as [r t]. injection H as _ <-. by apply registered_m.
Qed.
Lemma sim_retry fuel c : ksim (alloc_retry fuel c) (alloc_retry fuel c).
Proof using HC.
  apply same_refl. induction fuel as [|fuel IH]; intros s x s' Hr H; [discriminate H|]. cbn [alloc_retry] in H.
  destruct (c (k_heap s)) as [r h]. assert (registered (k_with_heap h s)) as Hr1 by (apply registered_k; [done|apply (cur_heap _ HC)]).
  destruct r as [t|[]| |]; try discriminate H; [by injection H as _ <-|]. unfold k_grow in H. pose proof (cur_grow _ HC (ks (k_with_heap h s))) as Hg.
  destruct (rt_grow (ks (k_with_heap h s))) as [b k]. destruct b; [|discriminate H]. eapply IH; [|exact H]. by apply registered_k.
Qed.

(** ** The two methods that differ *)

Lemma sim_spawn_fn i a : ksim (spawn_fn lm i a) (spawn_fn lm i a).
Proof using HC.
  apply osim_bind; [apply sim_on_k, (cur_spawn _ HC)|]. intros pid. apply osim_bind; [|intros ?; apply osim_ret].
  apply osim_modify. intros s1 s2 [<- [H1 H2]]. split; [done|]. split; [|exact H2]. cbn.
  destruct (decide (rt_current (ks s1) = pid)) as [->|Hne]; [by rewrite lookup_insert_eq|by rewrite lookup_insert_ne].
Qed.
Lemma sim_native_spawn i a : ksim (k_spawn lm i a) (native_spawn i a).
Proof using HC.
  intros s1 s2 x s1' HR H. pose proof HR as [<- Hr]. unfold k_spawn in H. unfold native_spawn.
  rewrite (bind_eval get _ s1 s1 s1 eq_refl), (registered_module s1 Hr), (bind_eval (ok_or (Some lm) _) _ s1 lm s1 eq_refl).
  destruct (lookupz (functions (lm_module lm)) i) as [f|]; [|discriminate H]. rewrite (bind_eval (ok_or (Some f) BadCode) _ s1 f s1 eq_refl) in H.
  rewrite (bind_eval (ok_or (Some f) Badarg) _ s1 f s1 eq_refl).
  exact (sim_spawn_fn i a s1 s1 x s1' HR H).
Qed.
Lemma sim_native_call : calls_return -> forall ma fa xs, ksim (k_call_ext lm call ma fa xs) (native_call_ext call ma fa xs).
Proof using Type.
  intros Hcall ma fa xs s1 s2 t s1' [<- Hr] H. unfold k_call_ext in H. destruct (call ma fa xs s1) as [r s'] eqn:Hc. injection H as -> <-.
  destruct (Hcall _ _ _ _ _ _ Hc) as [Hcur Hh]. unfold native_call_ext. rewrite (bind_eval get _ s1 s1 s1 eq_refl), (registered_module s1 Hr). cbn zeta.
  erewrite bind_eval by exact Hc. eexists. split; [reflexivity|]. split; [done|]. split; cbn; [by rewrite lookup_insert_eq|]. by apply Hh, Hr.
Qed.

Ltac ksteps := repeat first
  [ apply osim_ret | apply osim_throw | apply osim_ok_or | apply osim_fail_if | apply sim_binary_of | apply sim_on_atoms | apply sim_retry
  | apply osim_bind; [|intros ?] | match goal with |- ksim (match ?x with _ => _ end) _ => destruct x end ].

Lemma kernel_sim : calls_return -> ApiSim (KernelApi F call lm) (NativeKernelApi F call lm) (lm_module lm) same.
Proof using HC.
  intros Hcall. split; cbn.
  - by intros s1 s2 [<- _].
  - intros h. apply sim_upd_k, (cur_heap _ HC).
  - intros s1 s2 [<- Hr]. unfold k_grow. pose proof (cur_grow _ HC (ks s1)). destruct (rt_grow (ks s1)) as [b k]. split; [done|]. split; [done|].
    by apply registered_k.
  - by intros s1 s2 [<- _].
  - by intros s1 s2 [<- _].
  - apply sim_upd_k, (cur_safepoint _ HC).
  - intros t. apply sim_upd_k, (cur_print _ HC).
  - intros n s1 s2 _. apply sim_upd_k, (cur_sleep _ HC).
  - intros ma fa xs s1 s2 [<- Hr]. split; [done|]. by apply registered_m.
  - intros i xs s1 s2 [<- Hr]. split; [done|]. by apply registered_m.
  - intros l. unfold k_atom_global. ksteps.
  - intros a b. unfold k_send. ksteps. apply osim_modify, sim_upd_k, (cur_send _ HC).
  - intros _. apply sim_on_k, (cur_recv _ HC).
  - intros i a _. apply sim_native_spawn.
  - intros n. unfold k_port_open. ksteps. apply sim_on_k, (cur_open _ HC).
  - intros p o a t. unfold k_port_submit, k_submit. ksteps. apply sim_on_k, (cur_submit _ HC).
  - intros p o a b t. unfold k_port_submit2, k_submit. ksteps. apply sim_on_k, (cur_submit _ HC).
  - intros ma fa xs _. by apply sim_native_call.
  - intros i _. unfold k_buf_to_bin. ksteps. apply sim_on_k, (cur_buf_take _ HC).
  - intros b _. unfold k_bin_to_buf. ksteps. apply sim_on_k, (cur_buf_create _ HC).
  - intros a b c _. unfold k_buf_write. ksteps. apply sim_on_k, (cur_buf_write _ HC).
  - intros a _. unfold k_buf_new. ksteps. apply sim_on_k, (cur_buf_create _ HC).
  - intros a b c _. unfold k_buf_read. ksteps. apply sim_on_k, (cur_buf_read _ HC).
Qed.
End sim.
