(* ===== verification/JitThms.v ===== *)
(** * JitThms: the compiler and the publisher put together

    From a verified module to published code: translation never fails and declares well-typed
    imports, the compiled module runs as the reference says on the kernel's own helpers, and
    what is published is the compiled code, linked. *)

From S2P Require Import Prelude Rings FrameAlloc Term Bytecode Verify VerifySound Interp Memory StackProofs InterpSafe InterpExec Clif Jit.
From S2P Require Import JitLogic JitScan JitSim JitRef JitTotal JitLoop JitRefine JitInterp ApiSim Modload ModloadProofs ModloadRun ModloadThms JitRt JitRtLaws JitPublish KernelSim.

(** The resolver answers for every pair of atoms, always the same, and with the arity of the code at the address. *)
Record resolver_ok {X} (resolver : Z -> Z -> M X Empty_set (option ExtTarget)) (bound : Z -> Z -> option ExtTarget) (ar_of : Z -> Z) : Prop := {
  rs_same gm gf x o x' : resolver gm gf x = (Ok o, x') -> o = bound gm gf;
  rs_arity gm gf t : bound gm gf = Some t -> ar_of (xt_addr t) = xt_arity t;
  rs_total gm gf x : exists o x', resolver gm gf x = (Ok o, x');
}.

(** A module the compiler may be given: verified, its atoms interned, its functions of representable length. *)
Record compilable (m : Module_) (atom_map : list Z) : Prop := {
  cp_verified : verify m = Ok tt;
  cp_atoms : zlen (atoms m) <= zlen atom_map;
  cp_sized i f : lookupz (functions m) i = Some f -> zlen (code f) < 2 ^ 63;
}.

(** ** Translation *)

Section translation.
Context {X : Type} (resolver : Z -> Z -> M X Empty_set (option ExtTarget)) (bound : Z -> Z -> option ExtTarget) (ar_of : Z -> Z).
Context (m : Module_) (atom_map : list Z) (pcrel : bool) (code_ptr : Z -> Z).

Lemma translate_ok i f x : resolver_ok resolver bound ar_of -> compilable m atom_map -> lookupz (functions m) i = Some f ->
  exists U x', translate_fn resolver m atom_map pcrel f (code_ptr i) x = (Ok U, x') /\
    Forall (import_ok m ar_of pcrel (u_addrs U)) (ir_funcs (u_func U)).
Proof using Type.
  intros [R1 R2 R3] [C1 C2 C3] Hf. apply verify_iff in C1.
  destruct (translate_fn_ok resolver m ar_of atom_map pcrel f (code_ptr i) bound R1 R2 R3 C2 (C1 i f Hf) (C3 i f Hf) x)
    as (U & x' & B & tF & b0 & Ht & Htr). exists U, x'. split; [done|]. apply Htr.
Qed.
End translation.

(** ** Code generation *)

Definition raw_len (k : Reloc) : Z := match k with ClAbs8 => 8 | X86CallPCRel4 => 4 | OtherReloc => 0 end.

(** What the code generator reports: names declared in the function, fields inside the code
    that do not overlap. *)
Class BackendLaws `{!Backend} := {
  be_names F c raw r n : ctx_compile F = Some (c, raw) -> r ∈ raw -> raw_target r = UserName n -> 0 <= n < zlen (ir_funcs F);
  be_inside F c raw r : ctx_compile F = Some (c, raw) -> r ∈ raw -> 0 <= raw_offset r /\ raw_offset r + raw_len (raw_kind r) <= zlen c;
  be_apart F c raw i j r r' k : ctx_compile F = Some (c, raw) -> raw !! i = Some r -> raw !! j = Some r' ->
    raw_offset r <= k < raw_offset r + raw_len (raw_kind r) -> raw_offset r' <= k < raw_offset r' + raw_len (raw_kind r') -> i = j;
}.

Section generation.
Context {BE : Backend} {BL : BackendLaws}.

(** One relocation and its translation. *)
Definition same_field (raw : RawReloc) (r : RelocEntry) : Prop := r_offset r = raw_offset raw /\ field_len r = raw_len (raw_kind raw).
Definition target_ok (fns : Z) (r : RelocEntry) : Prop :=
  match r_target r with RHelper h => 0 <= h < HELPER_COUNT | RFunction i => 0 <= i < fns | RAddress _ => True end.

Lemma helper_in_table h : 0 <= Helper.idx h < HELPER_COUNT.
Proof using Type. unfold HELPER_COUNT. destruct h; cbn; lia. Qed.

Lemma reloc_target_ok m ar_of pcrel U t :
  Forall (import_ok m ar_of pcrel (u_addrs U)) (ir_funcs (u_func U)) -> (forall n, t = UserName n -> 0 <= n < zlen (ir_funcs (u_func U))) ->
  match reloc_target U t with Ok t' => forall r, r_target r = t' -> target_ok (zlen (functions m)) r | Err _ => True | _ => False end.
Proof using Type.
  intros Hi Hn. destruct t as [n|]; cbn; [|done]. destruct (lookupz_is_Some _ _ (Hn n eq_refl)) as [x Hx].
  rewrite Hx. apply lookupz_Some in Hx as [_ Hx]. eapply Forall_lookup_1 in Hx; [|exact Hi].
  destruct Hx as [h|i g Hg|i a Ha]; cbn [hlp_import fn_import namespace index].
  - rewrite bool_decide_true by done. intros r Hr. unfold target_ok. rewrite Hr. apply helper_in_table.
  - rewrite bool_decide_false, bool_decide_true by done. intros r Hr. unfold target_ok. rewrite Hr. by apply lookupz_range in Hg.
  - rewrite !bool_decide_false, bool_decide_true by done. destruct (lookupz (u_addrs U) i); [|done].
    intros r Hr. unfold target_ok. by rewrite Hr.
Qed.

Lemma reloc_entries_ok m ar_of pcrel U raw :
  Forall (import_ok m ar_of pcrel (u_addrs U)) (ir_funcs (u_func U)) ->
  Forall (fun r => forall n, raw_target r = UserName n -> 0 <= n < zlen (ir_funcs (u_func U))) raw ->
  match reloc_entries U raw with Ok rs => Forall2 same_field raw rs /\ Forall (target_ok (zlen (functions m))) rs | Err _ => True | _ => False end.
Proof using Type.
  intros Hi. induction raw as [|r raw IH]; intros Hn; cbn [reloc_entries]; [by repeat constructor|].
  apply Forall_cons in Hn as [Hr Hn]. specialize (IH Hn). unfold mbind, res_bind, reloc_kind.
  pose proof (reloc_target_ok m ar_of pcrel U (raw_target r) Hi Hr) as Ht.
  destruct (raw_kind r) eqn:Hk; [..|done]; (destruct (reloc_target U (raw_target r)) as [t|?| |]; [|done..]);
    (destruct (reloc_entries U raw) as [rs|?| |]; [|done..]); destruct IH as [I1 I2];
    (split; constructor; [|done|by apply Ht|done]); unfold same_field, field_len; cbn; by rewrite Hk.
Qed.

Lemma finish_ok m ar_of pcrel U : Forall (import_ok m ar_of pcrel (u_addrs U)) (ir_funcs (u_func U)) ->
  match finish_fn U with Ok c => relocs_ok HELPER_COUNT (zlen (functions m)) c | Err _ => True | _ => False end.
Proof using BL.
  intros Hi. unfold finish_fn. destruct (ctx_compile (u_func U)) as [[c raw]|] eqn:Hc; [|done].
  pose proof (reloc_entries_ok m ar_of pcrel U raw Hi) as H. unfold mbind, res_bind.
  destruct (reloc_entries U raw) as [rs|e| |]; [|done| |]; (destruct H as [H1 H2]||destruct H);
    try (apply Forall_forall; intros r Hr n Hn; by eapply be_names).
  split; cbn [c_code c_relocs].
  - apply Forall_forall. intros r Hr. apply list_elem_of_lookup in Hr as [j Hj].
    destruct (Forall2_lookup_r _ _ _ _ _ H1 Hj) as (r' & Hr' & -> & ->). eapply be_inside; [exact Hc|]. by eapply list_elem_of_lookup_2.
  - intros i j r r' k Hri Hrj Hk Hk'. unfold in_field in Hk, Hk'.
    destruct (Forall2_lookup_r _ _ _ _ _ H1 Hri) as (r1 & Hr1 & E1 & E2), (Forall2_lookup_r _ _ _ _ _ H1 Hrj) as (r2 & Hr2 & E3 & E4).
    rewrite E1, E2 in Hk. rewrite E3, E4 in Hk'. by eapply be_apart.
  - exact H2.
Qed.

Section linked_modules.
Context {X : Type} (resolver : Z -> Z -> M X Empty_set (option ExtTarget)) (bound : Z -> Z -> option ExtTarget) (ar_of : Z -> Z).
Context (m : Module_) (atom_map : list Z) (code_ptr : Z -> Z).
Context (Hr : resolver_ok resolver bound ar_of) (Hm : compilable m atom_map).

(** What compiling a list of functions gives: all of them, linkable, or an error. *)
Definition compiles (r : res JitError (list CompiledFn)) (fs : list Function) : Prop :=
  match r with
  | Ok cs => length cs = length fs /\ Forall (relocs_ok HELPER_COUNT (zlen (functions m))) cs
  | Err _ => True
  | _ => False
  end.

Lemma compile_from_ok pcrel fs : forall i x, (forall j f, fs !! j = Some f -> lookupz (functions m) (i + Z.of_nat j) = Some f) ->
  compiles (compile_from resolver m atom_map pcrel code_ptr i fs x).1 fs.
Proof using BL Hr Hm.
  induction fs as [|f fs IH]; intros i x Hfs; cbn [compile_from]; [by repeat constructor|].
  assert (Hf : lookupz (functions m) i = Some f) by (rewrite <- (Hfs 0%nat f eq_refl); f_equal; lia).
  destruct (translate_ok resolver bound ar_of m atom_map pcrel code_ptr i f x Hr Hm Hf) as (U & x1 & Ht & Hi).
  pose proof (finish_ok m ar_of pcrel U Hi) as Hfin. unfold compile_fn. rewrite bind_assoc. erewrite bind_eval by exact Ht.
  unfold mbind, M_bind, lift. destruct (finish_fn U) as [c|e| |]; [|done..].
  specialize (IH (i + 1) x1). destruct (compile_from _ _ _ _ _ (i + 1) fs x1) as [[cs|e| |] x2]; cbn in *; [|done| |];
    try (apply IH; intros j g Hg; rewrite <- (Hfs (S j) g Hg); f_equal; lia).
  destruct IH as [I1 I2]; [intros j g Hg; rewrite <- (Hfs (S j) g Hg); f_equal; lia|]. split; [by f_equal|by constructor].
Qed.

Lemma compile_module_ok pcrel x : compiles (compile_module_linked resolver m atom_map pcrel code_ptr x).1 (functions m).
Proof using BL Hr Hm.
  unfold compile_module_linked, fail_if. unfold mbind, M_bind. destruct isa_found; [|done]. cbn.
  apply compile_from_ok. intros j f Hf. apply lookupz_Some. split; [lia|]. by replace (Z.to_nat (0 + Z.of_nat j)) with j by lia.
Qed.

(** ** Publishing *)

Context {P : Type} `{!Mapper P} (helper_addrs : list Z).

(** The frame allocator has no span for the code, or the page tables refuse it. *)
Definition no_room (fns : list CompiledFn) (v : Vm (P:=P)) : Prop :=
  ~ exists span v1 base v2, on_pmm (alloc_contig (code_pages (layout 0 fns).2) 1) v = (Ok (Some span), v1) /\
      map_code span (code_pages (layout 0 fns).2) v1 = (Ok base, v2).

Lemma room_dec fns v :
  (exists span v1 base v2, on_pmm (alloc_contig (code_pages (layout 0 fns).2) 1) v = (Ok (Some span), v1) /\
      map_code span (code_pages (layout 0 fns).2) v1 = (Ok base, v2)) \/
  (no_room fns v /\ ((publish helper_addrs fns v).1 = Panic \/ (publish helper_addrs fns v).1 = NoFuel)).
Proof using Type.
  unfold no_room, publish. destruct (layout 0 fns) as [offs total]. cbn [fst snd]. set (pages := code_pages total).
  unfold mbind, M_bind. destruct (on_pmm (alloc_contig pages 1) v) as [r v1] eqn:Ha.
  destruct r as [[span|]|[]| |]; cbn [unwrap mret M_ret panic].
  2-4: right; split; [by intros (? & ? & ? & ? & ? & _)|auto].
  destruct (map_code span pages v1) as [r v2] eqn:Hc. destruct r as [base|[]| |].
  { left. by exists span, v1, base, v2. }
  all: right; split; [|auto]; intros (span' & v1' & base & v2' & E & Hc'); injection E as <- <-; congruence.
Qed.

(** C15: Compiling and publishing a verified module never goes wrong.  Either the compiler
    reports an error and the kernel's memory is untouched, so the module is interpreted; or
    every function of the module is published: at a multiple of 16, apart from the others, byte
    for byte as compiled outside the fields of its relocations, each field with the address of
    its target (or the distance to it), and breakpoints everywhere else.  The kernel stops only
    when there is no room for the code. *)
Theorem compile_and_publish_links x v :
  zlen helper_addrs = HELPER_COUNT ->
  match compile_and_publish helper_addrs resolver code_ptr m atom_map (x, v) with
  | (Ok None, (_, v')) => v' = v
  | (Ok (Some (jm, img)), _) => exists fns base,
      (compile_module_linked resolver m atom_map true code_ptr x).1 = Ok fns /\ length fns = length (functions m) /\
      fn_addrs jm = map (fun o => base + o) (layout 0 fns).1 /\
      placed helper_addrs fns (layout 0 fns).1 base (code_pages (layout 0 fns).2 * 4096) img
  | (Err e, _) => False
  | _ => exists fns, (compile_module_linked resolver m atom_map true code_ptr x).1 = Ok fns /\ no_room fns v
  end.
Proof using BL Hr Hm.
  intros Hh. unfold compile_and_publish. pose proof (compile_module_ok true x) as Hc.
  destruct (compile_module_linked resolver m atom_map true code_ptr x) as [[fns|e| |] x']; cbn in Hc; [|done..].
  destruct Hc as [Hl Hok]. destruct (room_dec fns v) as [(span & v1 & base & v2 & Ha & Hm')|[Hno Hp]].
  - destruct (publish_ok helper_addrs fns v span v1 base v2) as (img & -> & Hpl); [|done..|].
    { rewrite Hh. replace (zlen fns) with (zlen (functions m)) by (unfold zlen; by rewrite Hl). done. }
    by exists fns, base.
  - destruct (publish helper_addrs fns v) as [r v']. cbn in Hp. destruct Hp as [->| ->]; by exists fns.
Qed.
End linked_modules.
End generation.

(** ** Running compiled code in the kernel *)

(** Where the bytecode of a module lies in memory. *)
Definition text_of (text : Z -> Z -> option (list byte)) (m : Module_) (code_ptr : Z -> Z) : Prop :=
  forall i g p bytes, lookupz (functions m) i = Some g -> slice (code g) p (p + zlen bytes) = Some bytes ->
    text (wrap 64 (code_ptr i + p)) (zlen bytes) = Some bytes.

Section kernel.
Context {CI : Clif} {CW : ClifLaws} {K X : Type} `{!Runtime K} `{!Engine K}.
Context (resolver : Z -> Z -> M X Empty_set (option ExtTarget)) (bound : Z -> Z -> option ExtTarget) (ar_of : Z -> Z).
Context (text : Z -> Z -> option (list byte)) (call : Z -> Z -> list Term -> M (KS K) Trap Term).
Context (once : LoadedModule -> Z -> list Term -> M (KS K) Trap Term) (hops F : nat) (lm : LoadedModule) (code_ptr : Z -> Z).

(** What the kernel is to compute: the reference, with the kernel's api and its trampoline. *)
Definition kernel_reference (fuel : nat) : Z -> list Term -> M (KS K) Trap Term :=
  native_run (SystemApi0 := NativeKernelApi F call lm) (NativeApi0 := RtNative text call once hops)
    (fun _ tok => Rt.rt_resume_tail once hops tok) bound (lm_module lm) fuel.
(** Running the compiled functions on the helper table of the kernel. *)
Definition run_compiled (prog : list CodeUnit) (fuel : nat) : Z -> list Term -> M (KS K) Trap Term :=
  icall (run_foreign (NativeApi0 := RtNative text call once hops)) prog fuel.

(** C2: Compiled code does what the reference says.  Take the translations of the functions of a
    verified module and run one of them on arguments, with every call of a helper served by the
    kernel's [rt_] functions and every call of a sibling by its translation: whenever the
    reference ends with a result or a trap, the compiled code ends in the same way, with the
    same effects on the kernel. *)
Theorem compiled_code_refines pcrel prog fuel i f xs s :
  resolver_ok resolver bound ar_of -> compilable (lm_module lm) (lm_atom_map lm) ->
  Forall (fun g => 0 <= g < 2 ^ 32) (lm_atom_map lm) -> text_of text (lm_module lm) code_ptr ->
  compiled resolver (lm_module lm) (lm_atom_map lm) pcrel code_ptr prog ->
  lookupz (functions (lm_module lm)) i = Some f -> zlen xs = arity f ->
  ran (kernel_reference fuel i xs s).1 = true ->
  exists N, forall n, (N <= n)%nat -> run_compiled prog n i xs s = kernel_reference fuel i xs s.
Proof using CW.
  intros [R1 R2 R3] [C1 C2 C3] Ha Ht Hp Hf Hn Hran. apply verify_iff in C1.
  pose proof (helper_laws text call once hops F lm code_ptr Ha Ht) as HL.
  by eapply (icall_sim (HL := HL) resolver _ (lm_module lm) ar_of (lm_atom_map lm) pcrel code_ptr).
Qed.

(** C16: The translator accepts every verified function and declares each callee with its type:
    a helper with the arguments and result of its table entry, a sibling with its arity, a
    direct target with the arity of the published code. *)
Theorem translate_well_typed pcrel m atom_map i f (x : X) :
  resolver_ok resolver bound ar_of -> compilable m atom_map -> lookupz (functions m) i = Some f ->
  exists U x', translate_fn resolver m atom_map pcrel f (code_ptr i) x = (Ok U, x') /\
    Forall (import_ok m ar_of pcrel (u_addrs U)) (ir_funcs (u_func U)).
Proof using Type. apply translate_ok. Qed.
End kernel.

(** *** The two engines *)

Section engines.
Context {CI : Clif} {CW : ClifLaws} {K X : Type} `{!Runtime K} `{!RuntimeLaws K} `{!Engine K} `{!EngineLaws K}.
Context (text : Z -> Z -> option (list byte)) (call : Z -> Z -> list Term -> M (KS K) Trap Term).
Context (once : LoadedModule -> Z -> list Term -> M (KS K) Trap Term) (hops F : nat) (lm : LoadedModule) (code_ptr : Z -> Z).

Lemma native_spawn_ok i a (s : KS K) : well_formed s -> keeps published (fun _ _ => True) (native_spawn i a) s.
Proof using Type.
  intros Hs. eapply keeps_bind; [by apply keeps_get|]. intros s1 s2 Hs2 _ [-> ->].
  eapply keeps_bind; [by apply keeps_ok_or|]. intros lm' s3 Hs3 _ [-> _].
  eapply keeps_bind; [by apply keeps_ok_or|]. intros f s4 Hs4 _ [-> _]. by apply spawn_fn_ok.
Qed.

Lemma native_call_ext_ok ma fa args (s : KS K) : calls_ok published call -> well_formed s -> Forall (kvalid (ks s)) args ->
  keeps published (fun s' t => kvalid (ks s') t) (native_call_ext call ma fa args) s.
Proof using Type.
  intros Hcall Hs Ha. unfold native_call_ext. specialize (Hcall ma fa args s Hs Ha). unfold keeps in *. unfold mbind, M_bind. cbn.
  destruct (call ma fa args s) as [[t|e| |] s1]; try done. destruct Hcall as (Hs1 & He1 & Hr).
  destruct (current_process_module s) as [c|]; cbn; [|done].
  destruct (note_running_good published (rt_current (ks s1)) (lm_name c) (lm_version c) s1 Hs1). by split_and!.
Qed.

(** The api compiled code sees keeps the kernel well formed. *)
Lemma native_kernel_laws : calls_ok published call ->
  @ApiLawsUpTo (KS K) (NativeKernelApi F call lm) (lm_module lm) (fun s => service_panics (ks s)).
Proof using Type.
  intros Hcall. pose (L := kernel_laws published F call lm Hcall).
  unshelve econstructor; [exact (sgood published)|exact (has_target (lm_module lm))|..].
  all: try first [exact (@InterpSafe.heap_lens _ _ _ _ L) | exact (@InterpSafe.good_heap _ _ _ _ L) | exact (@InterpSafe.good_with_heap _ _ _ _ L) | exact (@InterpSafe.law_grow _ _ _ _ L)
    | exact (@InterpSafe.law_safepoint _ _ _ _ L) | exact (@InterpSafe.law_print _ _ _ _ L) | exact (@InterpSafe.law_sleep _ _ _ _ L) | exact (@InterpSafe.law_tail_call _ _ _ _ L)
    | exact (@InterpSafe.law_tail_call_local _ _ _ _ L) | exact (@InterpSafe.law_ticks _ _ _ _ L) | exact (@InterpSafe.law_atom _ _ _ _ L) | exact (@InterpSafe.law_send _ _ _ _ L)
    | exact (@InterpSafe.law_recv _ _ _ _ L) | exact (@InterpSafe.law_port_open _ _ _ _ L) | exact (@InterpSafe.law_port_submit _ _ _ _ L) | exact (@InterpSafe.law_port_submit2 _ _ _ _ L)
    | exact (@InterpSafe.law_buf_to_bin _ _ _ _ L) | exact (@InterpSafe.law_bin_to_buf _ _ _ _ L) | exact (@InterpSafe.law_buf_write _ _ _ _ L) | exact (@InterpSafe.law_buf_new _ _ _ _ L)
    | exact (@InterpSafe.law_buf_read _ _ _ _ L)].
  - intros s i f a _ Hs _ _. exact (native_spawn_ok i a s Hs).
  - intros s ma fa args Hs Ha. exact (native_call_ext_ok ma fa args s Hcall Hs Ha).
Defined.

(** C3: Compiled code and the interpreter give the same results.  Interpret a function of a
    verified module with the kernel's own services ([KernelApi]), for a process that is registered at
    the version it runs, in a kernel whose polls have no effect: if the interpreter returns, the
    compiled function, translated with no call site bound directly, returns the same term and
    leaves the kernel in the same state.  The kernel's services give control back to the process that called
    them, and calls into other modules keep the running version in the module table. *)
Theorem engines_agree pcrel resolver ar_of prog fuel i f xs (s : KS K) v s' :
  SameProcess K -> calls_ok published call -> calls_return call lm -> (forall k : K, rt_safepoint k = k) ->
  resolver_ok (X:=X) resolver (fun _ _ => None) ar_of -> compilable (lm_module lm) (lm_atom_map lm) ->
  Forall (fun g => 0 <= g < 2 ^ 32) (lm_atom_map lm) -> text_of text (lm_module lm) code_ptr ->
  compiled resolver (lm_module lm) (lm_atom_map lm) pcrel code_ptr prog ->
  lookupz (functions (lm_module lm)) i = Some f -> zlen xs = arity f -> well_formed s -> registered lm s -> Forall (kvalid (ks s)) xs ->
  run_function (SystemApi0 := KernelApi F call lm) (lm_module lm) fuel i xs s = (Ok v, s') ->
  exists N, forall n, (N <= n)%nat -> run_compiled text call once hops prog n i xs s = (Ok v, s').
Proof using CW.
  intros HC Hcall Hret Hpoll [R1 R2 R3] [C1 C2 C3] Ha Ht Hp Hf Hn Hs Hr Hxs Hint. apply verify_iff in C1.
  assert (Hlen : forall j g, lookupz (functions (lm_module lm)) j = Some g -> zlen (code g) < 2 ^ 64) by (intros j g Hg; specialize (C3 j g Hg); lia).
  destruct (@sim_run _ _ (KernelApi F call lm) (NativeKernelApi F call lm) _ (same lm) (kernel_sim HC F call lm Hret) _
    (kernel_laws published F call lm Hcall) C1 Hlen fuel i f xs s s' s v Hf (eq_sym Hn) Hs Hxs (conj eq_refl Hr) Hint) as (s2 & Hrun & [<- _]).
  pose proof (helper_laws text call once hops F lm code_ptr Ha Ht) as HL. pose (AL := native_kernel_laws Hcall).
  assert (Hrun' : native_run (SystemApi0 := NativeKernelApi F call lm) (NativeApi0 := RtNative text call once hops)
    (fun _ tok => Rt.rt_resume_tail once hops tok) (fun _ _ => None) (lm_module lm) fuel i xs s = (Ok v, s')).
  { eapply (@native_run_agrees _ (NativeKernelApi F call lm) (RtNative text call once hops) _ _ _ AL); [|done..].
    intros [k d]. cbn. unfold upd_k. cbn. by rewrite Hpoll. }
  rewrite <- Hrun'. eapply (icall_sim (HL := HL) resolver _ (lm_module lm) ar_of (lm_atom_map lm) pcrel code_ptr); try done. exact (f_equal (fun x => ran x.1) Hrun').
Qed.
End engines.

(** What a set of block leaders is: instruction boundaries, among them the entry, the target
    of every jump, and the instruction behind every instruction that ends a block. *)
Record block_leaders (m : Module_) (f : Function) (L : gset Z) : Prop := {
  bl_entry : 0 ∈ L;
  bl_boundary p : p ∈ L -> decoded m f p;
  bl_jump x is_ term e t : decoded m f x -> instr_at m f x is_ term e -> jumps m f is_ (x + 1) t -> t ∈ L;
  bl_next x b is_ term e : decoded m f x -> lookupz (code f) x = Some b -> instr_at m f x is_ term e ->
    ends_block (b2z b) = true -> e <> zlen (code f) -> e ∈ L;
}.

(** [find_leaders] succeeds on every verified function and finds its basic blocks: only
    instruction boundaries, among them the entry, the target of every jump, and the instruction
    behind every instruction that ends a block. *)
Theorem leaders_found m f :
  fn_ok m f -> zlen (code f) < 2 ^ 63 -> exists L, find_leaders (code f) = Ok L /\ block_leaders m f L.
Proof.
  intros Hf Hl. destruct (find_leaders_spec m f Hf Hl) as (L & HL & H0 & H1 & H2 & H3). exists L. by split.
Qed.

(** ** A concrete machine *)

Definition word_clif : Clif := {|
  c_binary o a b :=
    wrap 64 match o with
    | iadd => a + b | isub => a - b | imul => a * b | band => Z.land a b | bor => Z.lor a b | bxor => Z.lxor a b
    | ishl => Z.shiftl a (b mod 64) | sshr => Z.shiftr (swrap 64 a) (b mod 64)
    end;
  c_bnot a := wrap 64 (Z.lnot a);
  c_icmp cc a b :=
    match cc with
    | Equal => bool_decide (wrap 64 a = wrap 64 b) | NotEqual => negb (bool_decide (wrap 64 a = wrap 64 b))
    | SignedLessThan => bool_decide (swrap 64 a < swrap 64 b) | UnsignedLessThanOrEqual => bool_decide (wrap 64 a <= wrap 64 b)
    end;
  c_slot n := 2 ^ 40 + 4096 * n |}.
Lemma word_clif_laws : @ClifLaws word_clif.
Proof. by split. Qed.

(** The sample module at fixed addresses, compiled without direct calls. *)
Definition demo_ptr (i : Z) : Z := 65536 * (i + 1).
Definition demo_text (a n : Z) : option (list byte) :=
  f ← lookupz (functions demo_module) (a / 65536 - 1); slice (code f) (a mod 65536) (a mod 65536 + n).
Definition no_resolver (gm gf : Z) : M unit Empty_set (option ExtTarget) := mret None.
Definition demo_unit (i : Z) (f : Function) : CodeUnit :=
  match translate_fn no_resolver demo_module [0; 1] true f (demo_ptr i) tt with
  | (Ok U, _) => U
  | _ => {| u_func := new_func 0; u_addrs := [] |}
  end.
Definition demo_prog : list CodeUnit := imap (fun i f => demo_unit (Z.of_nat i) f) (functions demo_module).

Lemma no_resolver_ok : resolver_ok no_resolver (fun _ _ => None) (fun _ => 0).
Proof. split; [intros gm gf x o x' [=]; by subst|done|]. intros gm gf x. by exists None, x. Qed.

Lemma demo_fn i f : lookupz (functions demo_module) i = Some f ->
  (i = 0 /\ f = {| name_atom := 0; arity := 1; nregs := 1; code := main_code |}) \/
  (i = 1 /\ f = {| name_atom := 1; arity := 1; nregs := 2; code := loop_code |}).
Proof.
  intros H. pose proof (lookupz_range _ _ _ H) as Hr. change (zlen (functions demo_module)) with 2 in Hr.
  assert (i = 0 \/ i = 1) as [->| ->] by lia; vm_compute in H; injection H as <-; [by left|by right].
Qed.

Lemma demo_compilable : compilable demo_module [0; 1].
Proof.
  split; [by vm_compute|by vm_compute|]. intros i f Hf. destruct (demo_fn i f Hf) as [[_ ->]|[_ ->]]; by vm_compute.
Qed.

Lemma demo_text_of : text_of demo_text demo_module demo_ptr.
Proof.
  intros i g p bytes Hg Hs. pose proof (zlen_nonneg bytes).
  assert (0 <= i <= 1 /\ 0 <= p <= 65535) as [Hi Hp].
  { unfold slice in Hs. case_bool_decide as Hb; [|done].
    destruct (demo_fn i g Hg) as [[-> ->]|[-> ->]]; cbn [code] in Hb;
      [change (zlen main_code) with 15 in Hb|change (zlen loop_code) with 22 in Hb]; lia. }
  unfold demo_text, demo_ptr. rewrite wrap_small by lia.
  replace (65536 * (i + 1) + p) with (p + (i + 1) * 65536) by lia. rewrite Z.div_add, Z.mod_add by lia.
  rewrite Z.div_small, Z.mod_small by lia. replace (0 + (i + 1) - 1) with i by lia. rewrite Hg. cbn. exact Hs.
Qed.

Lemma demo_compiled : compiled no_resolver demo_module [0; 1] true demo_ptr demo_prog.
Proof.
  intros i f Hf. exists (demo_unit i f), tt, tt. destruct (demo_fn i f Hf) as [[-> ->]|[-> ->]]; split_and!; vm_compute; reflexivity.
Qed.

#[local] Existing Instance word_clif.
#[local] Existing Instance word_clif_laws.
#[local] Existing Instance bare_runtime.
#[local] Existing Instance no_engine.

Definition no_call (ma fa : Z) (args : list Term) : M (KS HS) Trap Term := throw Badarg.
Definition no_once (lm : LoadedModule) (i : Z) (args : list Term) : M (KS HS) Trap Term := throw Badarg.

Lemma compiled_code_refines_witness : exists N, forall n, (N <= n)%nat ->
  (run_compiled demo_text no_call no_once 1 demo_prog n 1 [term_int 3] boot_state).1 = Ok (term_int 0).
Proof.
  destruct (compiled_code_refines no_resolver (fun _ _ => None) (fun _ => 0) demo_text no_call no_once 1 1 demo_lm demo_ptr true demo_prog 20
    1 {| name_atom := 1; arity := 1; nregs := 2; code := loop_code |} [term_int 3] boot_state) as [N HN].
  - apply no_resolver_ok.
  - apply demo_compilable.
  - repeat constructor; lia.
  - apply demo_text_of.
  - apply demo_compiled.
  - by vm_compute.
  - by vm_compute.
  - by vm_compute.
  - exists N. intros n Hle. rewrite (HN n Hle). by vm_compute.
Defined.

#[local] Existing Instance bare_runtime_laws.
#[local] Existing Instance no_engine_laws.

Lemma bare_same_process : SameProcess HS.
Proof. by split. Qed.

(** The sample module loaded, and the running process registered at it. *)
Definition running_state : KS HS := note_running 1 mod_a 1 loaded_state.

Lemma running_registered : registered demo_lm running_state.
Proof.
  split; [by vm_compute|]. exists {| current := demo_lm; old := None |}. split; [by vm_compute|by left].
Qed.

Lemma engines_agree_witness : exists N, forall n, (N <= n)%nat ->
  run_compiled demo_text no_call no_once 1 demo_prog n 1 [term_int 3] running_state = (Ok (term_int 0), running_state).
Proof.
  apply (engines_agree demo_text no_call no_once 1 1 demo_lm demo_ptr true no_resolver (fun _ => 0) demo_prog 20
    1 {| name_atom := 1; arity := 1; nregs := 2; code := loop_code |} [term_int 3] running_state).
  - exact bare_same_process.
  - intros ma fa args s Hs _. by apply keeps_throw.
  - by intros ma fa args s t s'.
  - done.
  - apply no_resolver_ok.
  - apply demo_compilable.
  - repeat constructor; lia.
  - apply demo_text_of.
  - apply demo_compiled.
  - by vm_compute.
  - by vm_compute.
  - apply sgood_running, loaded_good.
  - exact running_registered.
  - constructor; [|constructor]. apply svalid_int.
  - vm_compute. reflexivity.
Defined.

Lemma translate_well_typed_witness : exists U x',
  translate_fn no_resolver demo_module [0; 1] true {| name_atom := 0; arity := 1; nregs := 1; code := main_code |} (demo_ptr 0) tt = (Ok U, x') /\
  Forall (import_ok demo_module (fun _ => 0) true (u_addrs U)) (ir_funcs (u_func U)).
Proof.
  apply (translate_well_typed no_resolver (fun _ _ => None) (fun _ => 0) demo_ptr true demo_module [0; 1] 0).
  - apply no_resolver_ok.
  - apply demo_compilable.
  - by vm_compute.
Defined.

Lemma leaders_found_witness : exists L, find_leaders loop_code = Ok L /\ 10 ∈ L.
Proof.
  destruct (leaders_found demo_module {| name_atom := 1; arity := 1; nregs := 2; code := loop_code |}) as (L & HL & _).
  - by apply (proj1 (verify_iff demo_module) demo_verifies 1).
  - by vm_compute.
  - exists L. split; [exact HL|]. assert (match find_leaders loop_code with Ok L' => bool_decide (10 ∈ L') | _ => false end = true) as H by (vm_compute; reflexivity).
    cbn [code] in HL. rewrite HL in H. by apply bool_decide_eq_true in H.
Defined.

(** A code generator that emits one call for each import. *)
Definition toy_reloc (k : nat) : RawReloc :=
  {| raw_offset := 5 * Z.of_nat k + 1; raw_kind := X86CallPCRel4; raw_target := UserName (Z.of_nat k); raw_addend := -4 |}.
Definition toy_backend : Backend := {|
  isa_found := true;
  ctx_compile F := Some (concat (replicate (length (ir_funcs F)) [xe8; x00; x00; x00; x00]) ++ [xc3], map toy_reloc (seq 0 (length (ir_funcs F)))) |}.

Lemma toy_length n : zlen (concat (replicate n [xe8; x00; x00; x00; x00]) ++ [xc3]) = 5 * Z.of_nat n + 1.
Proof. unfold zlen. rewrite length_app. induction n as [|n IH]; cbn [replicate concat length app] in *; [done|]. rewrite !Nat2Z.inj_succ in *. lia. Qed.

Lemma toy_relocs n j r : map toy_reloc (seq 0 n) !! j = Some r -> (j < n)%nat /\ r = toy_reloc j.
Proof.
  rewrite list_lookup_fmap. intros (k & Hk & ->)%fmap_Some. apply lookup_seq in Hk as [-> Hlt]. done.
Qed.

Lemma toy_laws : @BackendLaws toy_backend.
Proof.
  split; cbn; intros F c raw.
  - intros r n [= <- <-] Hr Hn. apply list_elem_of_lookup in Hr as [j Hj]. apply toy_relocs in Hj as [Hj ->].
    injection Hn as <-. unfold zlen. lia.
  - intros r [= <- <-] Hr. apply list_elem_of_lookup in Hr as [j Hj]. apply toy_relocs in Hj as [Hj ->].
    rewrite toy_length. cbn. lia.
  - intros i j r r' k [= <- <-] Hi Hj. apply toy_relocs in Hi as [_ ->], Hj as [_ ->]. cbn. lia.
Qed.

#[local] Existing Instance toy_backend.
#[local] Existing Instance toy_laws.
Import FlatTables.

Definition demo_helpers : list Z := map (fun i => 0xffffffff80000000 + 64 * i) (seqZ 0 40).

Lemma compile_and_publish_links_witness : exists jm img s fns base,
  compile_and_publish demo_helpers no_resolver demo_ptr demo_module [0; 1] (tt, boot_vm) = (Ok (Some (jm, img)), s) /\
  length fns = 2%nat /\ placed demo_helpers fns (layout 0 fns).1 base (code_pages (layout 0 fns).2 * 4096) img.
Proof.
  pose proof (compile_and_publish_links no_resolver (fun _ _ => None) (fun _ => 0) demo_module [0; 1] demo_ptr no_resolver_ok demo_compilable
    demo_helpers tt boot_vm ltac:(by vm_compute)) as H.
  assert (match (compile_and_publish demo_helpers no_resolver demo_ptr demo_module [0; 1] (tt, boot_vm)).1 with
          | Ok (Some _) => true | _ => false end = true) as Hs by (vm_compute; reflexivity).
  destruct (compile_and_publish _ _ _ _ _ (tt, boot_vm)) as [[[[jm img]|]|?| |] s]; try discriminate Hs.
  destruct s as [x v]. destruct H as (fns & base & _ & Hl & _ & Hp). by exists jm, img, (x, v), fns, base.
Defined.

(** Two functions, the first of which calls the second. *)
Definition caller_fns : list CompiledFn :=
  [ {| c_code := [xe8; x00; x00; x00; x00; xc3];
       c_relocs := [{| r_offset := 1; r_kind := PcRel4; r_target := RFunction 1; r_addend := -4 |}] |};
    {| c_code := [xc3]; c_relocs := [] |} ].
Lemma caller_relocs : Forall (relocs_ok (zlen demo_helpers) (zlen caller_fns)) caller_fns.
Proof.
  constructor; [|constructor; [|constructor]]; split; cbn [c_code c_relocs].
  - constructor; [|constructor]. by vm_compute.
  - intros [|i] [|j] r r' k Hi Hj _ _; done.
  - constructor; [|constructor]. by vm_compute.
  - constructor.
  - intros i j r r' k Hi. done.
  - constructor.
Qed.

Lemma sibling_calls_reach_witness : exists img, call_lands CODE_ZONE_BASE img 0
  {| r_offset := 1; r_kind := PcRel4; r_target := RFunction 1; r_addend := -4 |} (CODE_ZONE_BASE + 16).
Proof.
  destruct (image_ok demo_helpers caller_fns CODE_ZONE_BASE caller_relocs) as (img1 & img & _ & _ & Hp).
  destruct (sibling_calls_reach demo_helpers caller_fns CODE_ZONE_BASE img
    {| c_code := [xe8; x00; x00; x00; x00; xc3]; c_relocs := [{| r_offset := 1; r_kind := PcRel4; r_target := RFunction 1; r_addend := -4 |}] |} 0
    {| r_offset := 1; r_kind := PcRel4; r_target := RFunction 1; r_addend := -4 |} 1) as (t & Ht & Hl).
  - exact Hp.
  - by vm_compute.
  - exact caller_relocs.
  - left.
  - left.
  - done.
  - done.
  - cbn. lia.
  - vm_compute in Ht. injection Ht as <-. by exists img.
Defined.
