(* ===== verification/HostJit.v ===== *)
(** * HostJit: compiled code on the development host

    Models the JIT mode of [tools/ygg-run/src/main.rs] ([mod jit_host] and [run_jit]): the world the
    generated code runs in, the helpers it calls, their table, the trampoline, and the loader that
    places the code.  Where the host prints a message and exits ([die]) the model ends with the trap the
    interpreter reports there.  The world has no processes, ports or buffers; standard output is the
    list of the terms printed. *)

From S2P Require Import Prelude Term TermFmt Bytecode Verify Interp Atoms Clif Jit JitLogic JitSim JitPublish JitRt Luxpack.

(** ** The world *)

(** [struct Atoms]: the names in order, and the number of each. *)
Record HAtoms := { ha_names : list (list byte); ha_index : gmap (list byte) Z }.

Definition hatoms_new : HAtoms := {| ha_names := []; ha_index := ∅ |}.
Definition ha_intern (s : list byte) (a : HAtoms) : Z * HAtoms :=
  match ha_index a !! s with
  | Some i => (i, a)
  | None => let i := wrap 32 (zlen (ha_names a)) in (i, {| ha_names := ha_names a ++ [s]; ha_index := <[s := i]> (ha_index a) |})
  end.
Definition str_question : list byte := [x3f].
Definition ha_name (a : HAtoms) (i : Z) : list byte := default str_question (lookupz (ha_names a) i).

(** A stashed tail call. *)
Inductive HostTail :=
| HExt (ma fa : Z) (args : list Term)
| HLocal (fn_idx : Z) (args : list Term).

Record JMod := { jm_module : Module_; jm_atom_map : list Z; jm_fn_addrs : list Z }.

Record JWorld := {
  jw_atoms : HAtoms;
  jw_modules : gmap (list byte) JMod;
  jw_heap : HS;
  jw_stack : list (list byte * list byte * option Z);   (* module, function and arity of the calls in progress *)
  jw_tail : option HostTail;
  jw_out : list Term;
  jw_clock : Z;
}.

Definition jw_with_heap (h : HS) (w : JWorld) : JWorld :=
  {| jw_atoms := jw_atoms w; jw_modules := jw_modules w; jw_heap := h; jw_stack := jw_stack w; jw_tail := jw_tail w; jw_out := jw_out w; jw_clock := jw_clock w |}.
Definition jw_with_tail (o : option HostTail) (w : JWorld) : JWorld :=
  {| jw_atoms := jw_atoms w; jw_modules := jw_modules w; jw_heap := jw_heap w; jw_stack := jw_stack w; jw_tail := o; jw_out := jw_out w; jw_clock := jw_clock w |}.
Definition jw_with_stack (l : list (list byte * list byte * option Z)) (w : JWorld) : JWorld :=
  {| jw_atoms := jw_atoms w; jw_modules := jw_modules w; jw_heap := jw_heap w; jw_stack := l; jw_tail := jw_tail w; jw_out := jw_out w; jw_clock := jw_clock w |}.
Definition jw_printed (t : Term) (w : JWorld) : JWorld :=
  {| jw_atoms := jw_atoms w; jw_modules := jw_modules w; jw_heap := jw_heap w; jw_stack := jw_stack w; jw_tail := jw_tail w; jw_out := jw_out w ++ [t]; jw_clock := jw_clock w |}.

(** ** The helpers *)

Module Host.
Section helpers.
(** The processor running the code at an address, and the memory that holds bytecode. *)
Context (exec : Z -> list Term -> M JWorld Trap Term) (hops : nat) (text : Z -> Z -> option (list byte)).
Abbreviation JM := (M JWorld Trap).

Definition die {A} (t : Trap) : JM A := throw t.
Definition peek {A} (g : mem -> res Trap A) : JM A := fun w => (g (hmem (jw_heap w)), w).
Definition raw_slice (st : gmap Z Z) (ptr n : Z) : JM (list Term) := unwrap (mapM (fun i => st !! (ptr + 8 * i)) (seqZ 0 n)).

(** [heap().f(..).unwrap_or_else(|_| die(..))] *)
Definition alloc (c : HM Term) : JM Z := fun w =>
  let '(r, h) := c (jw_heap w) in
  (match r with Ok t => Ok t | Err HeapFull => Err TrapHeapFull | Panic => Panic | NoFuel => NoFuel end, jw_with_heap h w).
Definition alloc_map (c : M HS MapError Term) : JM Z := fun w =>
  let '(r, h) := c (jw_heap w) in
  (match r with Ok t => Ok t | Err NonImmediateKey => Err Badarg | Err (MapHeap _) => Err TrapHeapFull | Panic => Panic | NoFuel => NoFuel end, jw_with_heap h w).

(** The generated code takes at most sixteen arguments. *)
Definition invoke (addr : Z) (args : list Term) : JM Term :=
  if bool_decide (zlen args <= 16) then exec addr args else die Badarg.

Definition SENTINEL : Z := 7.

Definition take_tail : JM HostTail :=
  w ← get; _ ← modify (jw_with_tail None);
  match jw_tail w with Some t => mret t | None => die BadCode end.

(** The module and the function a stashed call goes to. *)
Definition tail_dest (m : JMod) (t : HostTail) : JM (JMod * Z * list Term) :=
  match t with
  | HExt ma fa targs =>
      w ← get;
      match jw_modules w !! ha_name (jw_atoms w) ma with
      | None => die Badarg
      | Some next =>
          match function_named (jm_module next) (ha_name (jw_atoms w) fa) with
          | None => die Badarg
          | Some idx => mret (next, idx, targs)
          end
      end
  | HLocal idx targs => mret (m, idx, targs)
  end.

Fixpoint trampoline (hops : nat) (m : JMod) (fn_idx : Z) (args : list Term) : JM Term :=
  match hops with
  | O => nofuel
  | S hops' =>
      addr ← unwrap (lookupz (jm_fn_addrs m) fn_idx);
      r ← invoke addr args;
      if negb (bool_decide (r = SENTINEL)) then mret r
      else t ← take_tail; '(m', idx, targs) ← tail_dest m t; trampoline hops' m' idx targs
  end.

Definition push_call (mname fname : list byte) (n : option Z) : JM unit := modify (fun w => jw_with_stack (jw_stack w ++ [(mname, fname, n)]) w).
Definition pop_call : JM unit := modify (fun w => jw_with_stack (removelast (jw_stack w)) w).

Definition run (entry fname : list byte) (args : list Term) : JM Term :=
  w ← get;
  match jw_modules w !! entry with
  | None => die Badarg
  | Some m =>
      match function_named (jm_module m) fname with
      | None => die Badarg
      | Some fn_idx => _ ← push_call entry fname None; trampoline hops m fn_idx args
      end
  end.

Definition U32_MAX : Z := 2 ^ 32 - 1.

Definition call_ext (ma fa : Z) (args : list Term) : JM Term :=
  w ← get;
  let mname := ha_name (jw_atoms w) ma in
  let fname := ha_name (jw_atoms w) fa in
  match jw_modules w !! mname with
  | None => die Badarg
  | Some m =>
      match function_named (jm_module m) fname with
      | None => die Badarg
      | Some fn_idx =>
          f ← unwrap (lookupz (functions (jm_module m)) fn_idx);
          _ ← fail_if (negb (bool_decide (arity f = zlen args))) Badarg;
          _ ← push_call mname fname (Some (zlen args));
          r ← trampoline hops m fn_idx args;
          _ ← pop_call;
          mret r
      end
  end.

Definition h_self : JM Z := mret (term_pid 1).
Definition h_send (to msg : Z) : JM Z := mret 0.
Definition h_recv : JM Z := die Badarg.
Definition h_spawn (f a : Z) : JM Z := die Badarg.
Definition h_safepoint : JM unit := mret tt.
Definition h_print (t : Z) : JM unit := modify (jw_printed t).
Definition h_eq (fuel : nat) (a b : Z) : JM Z := e ← peek (fun mm => eq_term fuel mm a b); mret (b2i e).
Definition h_make_tuple (st : gmap Z Z) (ptr n : Z) : JM Z := elems ← raw_slice st ptr n; alloc (tuple elems).
Definition h_get_elem (t idx : Z) : JM Z := peek (fun mm =>
  b ← boxed_kind_is mm t KTuple;
  if b : bool then n ← tuple_arity mm t; if bool_decide (idx < n) then tuple_elem mm t idx else Err Badarg else Err Badarg).
Definition h_cons (h t : Z) : JM Z := alloc (cons h t).
Definition h_head (t : Z) : JM Z := peek (fun mm => b ← boxed_kind_is mm t KCons; if b : bool then head mm t else Err Badarg).
Definition h_tail (t : Z) : JM Z := peek (fun mm => b ← boxed_kind_is mm t KCons; if b : bool then tail mm t else Err Badarg).
Definition h_port_open (k : Z) : JM Z := die Badarg.
Definition h_port_submit (p o a t : Z) : JM Z := die Badarg.
Definition h_port_submit2 (p o a0 a1 t : Z) : JM Z := die Badarg.
Definition h_buf_write (b o s : Z) : JM Z := die Badarg.
Definition h_buf_new (s : Z) : JM Z := die Badarg.
Definition h_buf_read (b o l : Z) : JM Z := die Badarg.
(** [thread::sleep] for an integer; anything else is ignored. *)
Definition h_sleep_ms (ms : Z) : JM unit := mret tt.
Definition h_ticks : JM Z := w ← get; mret (term_int (swrap 64 (jw_clock w))).
Definition h_resume_tail (token : Z) : JM Z := die Badarg.
Definition h_bin_at (bin idx : Z) : JM Z :=
  match as_int idx with
  | None => die Badarg
  | Some idx => peek (fun mm =>
      k ← boxed_kind_is mm bin KBinary;
      if negb k || bool_decide (idx < 0) then Err Badarg
      else bytes ← bin_bytes mm bin;
           if bool_decide (idx >= zlen bytes) then Err Badarg
           else match lookupz bytes idx with Some x => Ok (term_int (b2z x)) | None => Panic end)
  end.
Definition h_call_ext (st : gmap Z Z) (ma fa ptr n : Z) : JM Z :=
  args ← raw_slice st ptr n;
  call_ext (default U32_MAX (as_atom ma)) (default U32_MAX (as_atom fa)) args.
Definition h_exit_atom (a : Z) : JM unit := match as_atom a with Some i => die (Exit i) | None => die Badarg end.
Definition h_trap_badarg : JM unit := die Badarg.
Definition h_tail_call_ext (st : gmap Z Z) (ma fa ptr n : Z) : JM unit :=
  args ← raw_slice st ptr n;
  match as_atom ma, as_atom fa with
  | Some ma, Some fa => modify (jw_with_tail (Some (HExt ma fa args)))
  | _, _ => die Badarg
  end.
Definition h_tail_call_local (st : gmap Z Z) (fn_idx ptr n : Z) : JM unit :=
  args ← raw_slice st ptr n; modify (jw_with_tail (Some (HLocal (wrap 32 fn_idx) args))).
Definition h_bin_const (ptr len : Z) : JM Z := bytes ← unwrap (text ptr len); alloc (binary bytes).
Definition h_bin_from_list (fuel : nat) (l : Z) : JM Z :=
  '(bytes, cur) ← peek (fun mm => Rt.collect_bytes fuel mm l);
  _ ← fail_if (negb (is_nil cur)) Badarg; alloc (binary bytes).
Definition h_bin_to_list (bin : Z) : JM Z :=
  elems ← peek (fun mm =>
    b ← boxed_kind_is mm bin KBinary;
    if negb b then Err Badarg else bs ← bin_bytes mm bin; Ok (map (fun b => term_int (b2z b)) bs));
  alloc (list_term elems).
Definition h_bin_size (bin : Z) : JM Z := peek (fun mm =>
  b ← boxed_kind_is mm bin KBinary;
  if negb b then Err Badarg else bs ← bin_bytes mm bin; Ok (term_int (zlen bs))).
Definition h_buf_to_bin (id : Z) : JM Z := die Badarg.
Definition h_bin_to_buf (b : Z) : JM Z := die Badarg.
Definition h_map_new (st : gmap Z Z) (ptr n_pairs : Z) : JM Z :=
  flat ← raw_slice st ptr (2 * n_pairs); alloc_map (map_from_pairs (Rt.chunks2 flat)).
Definition h_map_get (t k : Z) : JM Z := peek (fun mm =>
  b ← boxed_kind_is mm t KMap;
  if negb b then Err Badarg else r ← map_get mm t k; match r with Some v => Ok v | None => Err Badarg end).
Definition h_map_put (t k v : Z) : JM Z :=
  b ← peek (fun mm => boxed_kind_is mm t KMap); _ ← fail_if (negb b) Badarg; alloc_map (map_put t k v).
Definition h_is_binary (t : Z) : JM Z := b ← peek (fun mm => boxed_kind_is mm t KBinary); mret (b2i b).
Definition h_bin_cat (a b : Z) : JM Z :=
  joined ← peek (fun mm =>
    ka ← boxed_kind_is mm a KBinary;
    if negb ka then Err Badarg
    else kb ← boxed_kind_is mm b KBinary;
         if negb kb then Err Badarg else x ← bin_bytes mm a; y ← bin_bytes mm b; Ok (x ++ y));
  alloc (binary joined).
(** The cells are made one after the other, from the last. *)
Definition h_list_cat (fuel : nat) (a b : Z) : JM Z :=
  '(elems, cur) ← peek (fun mm => list_elems fuel mm a);
  _ ← fail_if (negb (is_nil cur)) Badarg; alloc (cons_all (rev elems) b).
Definition h_bin_part (bin off len : Z) : JM Z :=
  match as_int off, as_int len with
  | Some off, Some len =>
      part ← peek (fun mm =>
        k ← boxed_kind_is mm bin KBinary;
        if negb k || bool_decide (off < 0) || bool_decide (len < 0) then Err Badarg
        else bytes ← bin_bytes mm bin;
             if bool_decide (off + len > zlen bytes) then Err Badarg
             else match slice bytes off (off + len) with Some x => Ok x | None => Panic end);
      alloc (binary part)
  | _, _ => die Badarg
  end.
End helpers.
End Host.

(** ** The helper table *)

Section table.
Context (exec : Z -> list Term -> M JWorld Trap Term) (hops : nat) (text : Z -> Z -> option (list byte)).

Definition host_table (fuel : nat) (st : gmap Z Z) (h : Helper.t) (xs : list Z) : M JWorld Trap (option Z) :=
  match h, xs with
  | Helper.SelfPid, [] => yields Host.h_self
  | Helper.Send, [to; msg] => yields (Host.h_send to msg)
  | Helper.Recv, [] => yields Host.h_recv
  | Helper.Spawn, [i; arg] => yields (Host.h_spawn i arg)
  | Helper.Safepoint, [] => does Host.h_safepoint
  | Helper.Print, [t] => does (Host.h_print t)
  | Helper.Eq, [a; b] => yields (Host.h_eq fuel a b)
  | Helper.MakeTuple, [p; n] => yields (Host.h_make_tuple st p n)
  | Helper.GetElem, [t; i] => yields (Host.h_get_elem t i)
  | Helper.Cons, [h; t] => yields (Host.h_cons h t)
  | Helper.Head, [t] => yields (Host.h_head t)
  | Helper.Tail, [t] => yields (Host.h_tail t)
  | Helper.PortOpen, [k] => yields (Host.h_port_open k)
  | Helper.PortSubmit, [p; o; a; t] => yields (Host.h_port_submit p o a t)
  | Helper.CallExt, [ma; fa; p; n] => yields (Host.h_call_ext exec hops st ma fa p n)
  | Helper.ExitAtom, [a] => does (Host.h_exit_atom a)
  | Helper.TrapBadarg, [] => does Host.h_trap_badarg
  | Helper.BinConst, [p; n] => yields (Host.h_bin_const text p n)
  | Helper.BinFromList, [t] => yields (Host.h_bin_from_list fuel t)
  | Helper.BinToList, [t] => yields (Host.h_bin_to_list t)
  | Helper.BinSize, [t] => yields (Host.h_bin_size t)
  | Helper.BufToBin, [t] => yields (Host.h_buf_to_bin t)
  | Helper.BinToBuf, [t] => yields (Host.h_bin_to_buf t)
  | Helper.MapNew, [p; n] => yields (Host.h_map_new st p n)
  | Helper.MapGet, [t; k] => yields (Host.h_map_get t k)
  | Helper.MapPut, [t; k; v] => yields (Host.h_map_put t k v)
  | Helper.IsBinary, [t] => yields (Host.h_is_binary t)
  | Helper.BinCat, [a; b] => yields (Host.h_bin_cat a b)
  | Helper.ListCat, [a; b] => yields (Host.h_list_cat fuel a b)
  | Helper.BinPart, [b; o; l] => yields (Host.h_bin_part b o l)
  | Helper.TailCallExt, [ma; fa; p; n] => does (Host.h_tail_call_ext st ma fa p n)
  | Helper.TailCallLocal, [i; p; n] => does (Host.h_tail_call_local st i p n)
  | Helper.PortSubmit2, [p; o; a; b; t] => yields (Host.h_port_submit2 p o a b t)
  | Helper.BufWrite, [b; o; s] => yields (Host.h_buf_write b o s)
  | Helper.SleepMs, [ms] => does (Host.h_sleep_ms ms)
  | Helper.BufNew, [n] => yields (Host.h_buf_new n)
  | Helper.BufRead, [b; o; l] => yields (Host.h_buf_read b o l)
  | Helper.Ticks, [] => yields Host.h_ticks
  | Helper.ResumeTail, [tok] => yields (Host.h_resume_tail tok)
  | Helper.BinAt, [b; i] => yields (Host.h_bin_at b i)
  | _, _ => panic
  end.

(** Calls by number; the host passes no resolver, so there are no direct calls. *)
Definition HostNative : NativeApi JWorld := {|
  run_helper fuel i st xs :=
    match find (fun h => bool_decide (Helper.idx h = i)) all_helpers with Some h => host_table fuel st h xs | None => panic end;
  direct_call _ _ _ := panic;
|}.

(** What the helpers do, stated as an implementation of the interpreter's interface.  The host has no such
    implementation: its interpreter runs on [HostApi] of [HostRun]. *)
Definition JitHostApi (jm : JMod) : SystemApi JWorld := {|
  heap_state := jw_heap;
  with_heap := jw_with_heap;
  self_pid _ := 1;
  api_send _ _ := mret tt;
  api_recv := throw Badarg;
  api_spawn _ _ := throw Badarg;
  safepoint w := w;
  atom_global local := mret (default 0 (lookupz (jm_atom_map jm) local));
  api_print := jw_printed;
  port_open _ := throw Badarg;
  port_submit _ _ _ _ := throw Badarg;
  call_ext := Host.call_ext exec hops;
  buf_to_bin _ := throw Badarg;
  bin_to_buf _ := throw Badarg;
  heap_grow w := (false, w);
  tail_call ma fa args := jw_with_tail (Some (HExt ma fa args));
  tail_call_local i args := jw_with_tail (Some (HLocal i args));
  buf_write _ _ _ := throw Badarg;
  buf_new _ := throw Badarg;
  buf_read _ _ _ := throw Badarg;
  sleep_ms _ w := w;
  api_ticks w := term_int (swrap 64 (jw_clock w));
  port_submit2 _ _ _ _ _ := throw Badarg;
|}.
End table.

(** ** Placing the code *)

(** [load_exec]: fresh zeroed memory at [base], writable and executable; the bytes and the entry addresses. *)
Definition load_exec (helper_addrs : list Z) (base : Z) (fns : list CompiledFn) : option (list Z * list byte) :=
  let '(offsets, total) := layout 0 fns in
  let size := div_ceil (Z.max total 1) 4096 * 4096 in
  let addrs := map (fun o => base + o) offsets in
  img1 ← copy_code fns offsets (replicate (Z.to_nat size) x00);
  img2 ← link_code helper_addrs addrs base fns offsets img1;
  Some (addrs, img2).
