(* ===== verification/HostJitLaws.v ===== *)
(** * HostJitLaws: the host's helpers do what compiled code expects

    The helper table of [HostJit] satisfies the contract [HelperLaws] the compiler was verified against,
    for modules that do not use [SLEEP_MS]: that helper ignores an operand that is not a
    non-negative integer, where the interpreter traps.  [JitHostApi], which states what the helpers do as an
    implementation of the interpreter's interface, keeps that interface's contract. *)

From S2P Require Import Prelude Term TermImm TermHeap TermVal TermCopy TermMap Bytecode Verify VerifySound Interp InterpSafe InterpArms InterpFuel Atoms Clif Jit JitLogic JitSim JitRef JitRefine JitInterp InterpExec Modload ModloadProofs ModloadRun ModloadThms JitRt JitRtLaws JitThms Luxpack HostJit.

Section laws.
Context (exec : Z -> list Term -> M JWorld Trap Term) (hops : nat) (text : Z -> Z -> option (list byte)) (jm : JMod) (code_ptr : Z -> Z).
#[local] Instance hnative : NativeApi JWorld := HostNative exec hops text.
#[local] Instance hostapi : SystemApi JWorld := JitHostApi exec hops jm.
Abbreviation JM := (M JWorld Trap).

Lemma runs_host h st xs (c : JM (option Z)) N :
  (forall n, (N <= n)%nat -> mref c (host_table exec hops text n st h xs)) -> runs_as h st xs c.
Proof using Type.
  intros H s Hs. exists N. intros n Hle. cbn [run_helper hnative HostNative]. rewrite helper_found. by apply H.
Qed.

Lemma mref_host_yields (c c' : JM Z) : mref c c' -> mref (yields c) (yields c').
Proof using Type. intros H. by apply mref_bind. Qed.
Lemma mref_host_does (c c' : JM unit) : mref c c' -> mref (does c) (does c').
Proof using Type. intros H. by apply mref_bind. Qed.

Lemma mref_host_peek {A} (g g' : mem -> res Trap A) : (forall mm, rref (g mm) (g' mm)) -> mref (on_heap g) (Host.peek g').
Proof using Type. intros H s Hs. unfold Host.peek, on_heap in *. cbn in *. by rewrite H. Qed.

Lemma host_slice_ok st p xs (w : JWorld) : stack_at st p xs -> Host.raw_slice st p (zlen xs) w = (Ok xs, w).
Proof using Type.
  intros H. unfold Host.raw_slice. assert (mapM (fun i => st !! (p + 8 * i)) (seqZ 0 (zlen xs)) = Some xs) as ->; [|done].
  apply mapM_Some, Forall2_same_length_lookup. unfold zlen. rewrite length_seqZ, Nat2Z.id. split; [done|].
  intros i a x Ha Hx. apply lookup_seqZ in Ha as [-> _]. by rewrite <- (H i x Hx).
Qed.
Lemma mref_host_slice {A} st p xs (c : JM A) k : stack_at st p xs -> mref c (k xs) -> mref c (l ← Host.raw_slice st p (zlen xs); k l).
Proof using Type. intros H Hk s Hs. unfold mbind, M_bind. rewrite host_slice_ok by done. by apply Hk. Qed.

(** The host's heap does not grow: the first attempt decides. *)
Lemma mref_host_alloc fuel c : mref (alloc_term fuel c) (Host.alloc c).
Proof using Type.
  destruct fuel as [|fuel]; intros w; [done|]. cbn. unfold Host.alloc. by destruct (c (jw_heap w)) as [[t|[]| |] h].
Qed.
Lemma mref_host_map fuel ps : mref (alloc_map fuel ps) (Host.alloc_map (map_from_pairs ps)).
Proof using Type.
  destruct fuel as [|fuel]; intros w; [done|]. cbn. unfold Host.alloc_map. by destruct (map_from_pairs ps (jw_heap w)) as [[t|[|]| |] h].
Qed.
Lemma mref_host_put fuel t k v : mref (put_map fuel t k v) (Host.alloc_map (map_put t k v)).
Proof using Type.
  destruct fuel as [|fuel]; intros w; [done|]. cbn. unfold Host.alloc_map. by destruct (map_put t k v (jw_heap w)) as [[r|[|]| |] h].
Qed.

(** ** The contract *)

Context (Hatoms : Forall (fun g => 0 <= g < 2 ^ 32) (jm_atom_map jm)) (Hsleep : ~ uses (jm_module jm) op.SLEEP_MS).
Context (Htext : text_of text (jm_module jm) code_ptr).

Ltac law N := apply (runs_host _ _ _ _ N); intros ? ?; cbn [host_table]; first [apply mref_host_yields | apply mref_host_does].

Lemma host_spawn st i arg : runs_as Helper.Spawn st [i; arg] (yields (a_spawn i arg)).
Proof using Type. law 0%nat. apply mref_ext. intros w. unfold Host.h_spawn, a_spawn, mbind, M_bind, fail_if. by destruct (is_boxed arg). Qed.
Lemma host_exit st t : runs_as Helper.ExitAtom st [t] (does (a_exit_atom t)).
Proof using Type. law 0%nat. apply mref_ext. intros w. unfold Host.h_exit_atom, a_exit_atom. by destruct (as_atom t). Qed.
Lemma host_buf_to_bin st t : runs_as Helper.BufToBin st [t] (yields (a_buf_to_bin t)).
Proof using Type. law 0%nat. apply mref_ext. intros w. unfold Host.h_buf_to_bin, a_buf_to_bin. by destruct (as_int t). Qed.
Lemma host_call_ext st ma fa p xs : 0 <= ma < 2 ^ 32 -> 0 <= fa < 2 ^ 32 -> stack_at st p xs ->
  runs_as Helper.CallExt st [term_atom ma; term_atom fa; p; zlen xs] (yields (call_ext ma fa xs)).
Proof using Type. intros Hm Hf Hs. law 0%nat. unfold Host.h_call_ext. rewrite !as_atom_word by done. by apply mref_host_slice. Qed.
Lemma host_tail_ext st ma fa p xs : 0 <= ma < 2 ^ 32 -> 0 <= fa < 2 ^ 32 -> stack_at st p xs ->
  runs_as Helper.TailCallExt st [term_atom ma; term_atom fa; p; zlen xs] (does (a_upd (tail_call ma fa xs))).
Proof using Type. intros Hm Hf Hs. law 0%nat. unfold Host.h_tail_call_ext. rewrite !as_atom_word by done. by apply mref_host_slice. Qed.
Lemma host_tail_local st i p xs : 0 <= i < 2 ^ 32 -> stack_at st p xs ->
  runs_as Helper.TailCallLocal st [i; p; zlen xs] (does (a_upd (tail_call_local i xs))).
Proof using Type. intros Hi Hs. law 0%nat. unfold Host.h_tail_call_local. rewrite wrap_small by lia. by apply mref_host_slice. Qed.

Lemma host_eq fuel st a b : runs_as Helper.Eq st [a; b] (yields (a_eq fuel a b)).
Proof using Type. law fuel. apply mref_bind; [|done]. apply mref_host_peek. intros mm. by apply rref_rle, eq_term_mono. Qed.
Lemma host_make_tuple fuel st p xs : stack_at st p xs -> runs_as Helper.MakeTuple st [p; zlen xs] (yields (alloc_term fuel (tuple xs))).
Proof using Type. intros Hs. law 0%nat. apply mref_host_slice; [done|]. by apply mref_host_alloc. Qed.
Lemma host_cons fuel st h t : runs_as Helper.Cons st [h; t] (yields (alloc_term fuel (cons h t))).
Proof using Type. law 0%nat. by apply mref_host_alloc. Qed.
Lemma host_get_elem st t i : 0 <= i < 256 -> runs_as Helper.GetElem st [t; i] (yields (a_get_elem t i)).
Proof using Type.
  intros Hi. law 0%nat. apply mref_host_peek. intros mm. apply rref_kind; [by left|]. apply rref_bind; [done|]. intros k.
  unfold rref. repeat case_bool_decide; by try lia.
Qed.
Lemma host_head st t : runs_as Helper.Head st [t] (yields (a_head_tail true t)).
Proof using Type. law 0%nat. apply mref_host_peek. intros mm. apply rref_kind; [auto|done]. Qed.
Lemma host_tail st t : runs_as Helper.Tail st [t] (yields (a_head_tail false t)).
Proof using Type. law 0%nat. apply mref_host_peek. intros mm. apply rref_kind; [auto|done]. Qed.
Lemma host_bin_const fuel st i g p bytes : lookupz (functions (jm_module jm)) i = Some g -> slice (code g) p (p + zlen bytes) = Some bytes ->
  runs_as Helper.BinConst st [wrap 64 (code_ptr i + p); zlen bytes] (yields (alloc_term fuel (binary bytes))).
Proof using Htext. intros Hg Hp. law 0%nat. unfold Host.h_bin_const. erewrite Htext by done. by apply mref_host_alloc. Qed.
Lemma host_bin_from_list fuel st t : runs_as Helper.BinFromList st [t] (yields (a_bin_from_list fuel t)).
Proof using Type.
  law fuel. apply mref_bind; [apply mref_host_peek; intros mm; by apply collect_bytes_ref|]. intros [bs last].
  apply mref_bind; [done|]. intros _. by apply mref_host_alloc.
Qed.
Lemma host_bin_to_list fuel st t : runs_as Helper.BinToList st [t] (yields (a_bin_to_list fuel t)).
Proof using Type.
  law 0%nat. apply mref_bind; [|intros ?; by apply mref_host_alloc]. apply mref_host_peek. intros mm. apply rref_kind'; [auto|done].
Qed.
Lemma host_bin_size st t : runs_as Helper.BinSize st [t] (yields (a_bin_size t)).
Proof using Type.
  law 0%nat. eapply mref_trans.
  - apply mref_bind; [|intros ?; apply mref_refl]. apply mref_host_peek. intros mm. apply rref_kind'; [auto|apply rref_refl].
  - apply mref_ext. intros s. unfold Host.h_bin_size, Host.peek, mbind, M_bind, res_bind. cbn.
    destruct (boxed_kind_is _ t KBinary) as [[]|?| |]; cbn; try done. by destruct (bin_bytes _ t).
Qed.
Lemma host_map_new fuel st p kvs : stack_at st p (flat kvs) -> runs_as Helper.MapNew st [p; zlen kvs] (yields (alloc_map fuel kvs)).
Proof using Type.
  intros Hs. law 0%nat. unfold Host.h_map_new. rewrite <- zlen_flat. apply mref_host_slice; [done|]. rewrite chunks2_flat. by apply mref_host_map.
Qed.
Lemma host_map_put fuel st t k v : runs_as Helper.MapPut st [t; k; v] (yields (a_map_put fuel t k v)).
Proof using Type. law 0%nat. do 2 (apply mref_bind; [done|intros ?]). by apply mref_host_put. Qed.
Lemma host_bin_cat fuel st a b : runs_as Helper.BinCat st [a; b] (yields (a_bin_cat fuel a b)).
Proof using Type. law 0%nat. apply mref_bind; [done|]. intros ?. by apply mref_host_alloc. Qed.
Lemma host_list_cat fuel st a b : runs_as Helper.ListCat st [a; b] (yields (a_list_cat fuel a b)).
Proof using Type.
  law fuel. apply mref_bind; [apply mref_host_peek; intros mm; by apply rref_rle, list_elems_mono|]. intros [es last].
  apply mref_bind; [done|]. intros _. by apply mref_host_alloc.
Qed.
Lemma host_bin_at st b i : runs_as Helper.BinAt st [b; i] (yields (a_bin_at b i)).
Proof using Type.
  law 0%nat. unfold Host.h_bin_at, a_bin_at. destruct (as_int i) as [idx|]; [|done]. cbn [ok_or]. apply mref_ret.
  apply mref_ext. intros s. unfold Host.peek, on_heap, mbind, M_bind, res_bind. cbn.
  destruct (boxed_kind_is _ b KBinary) as [k|?| |]; cbn; try done. destruct (_ || _); [done|].
  destruct (bin_bytes _ b) as [bs|?| |]; cbn; try done. case_bool_decide; [done|]. by destruct (lookupz bs idx).
Qed.
Lemma host_bin_part fuel st b o l : runs_as Helper.BinPart st [b; o; l] (yields (a_bin_part fuel b o l)).
Proof using Type.
  law 0%nat. unfold Host.h_bin_part, a_bin_part. destruct (as_int o) as [off|]; [|done]. destruct (as_int l) as [len|]; [|done].
  cbn [ok_or]. do 2 apply mref_ret. apply mref_bind; [done|]. intros ?. by apply mref_host_alloc.
Qed.

Lemma host_helper_laws : HelperLaws (fun _ _ => throw Badarg) (jm_module jm) (jm_atom_map jm) code_ptr.
Proof using Hatoms Htext Hsleep.
  constructor; auto using host_spawn, host_exit, host_buf_to_bin, host_call_ext, host_tail_ext, host_tail_local, host_eq, host_make_tuple,
    host_cons, host_get_elem, host_head, host_tail, host_bin_from_list, host_bin_to_list, host_bin_size, host_map_new, host_map_put,
    host_bin_cat, host_list_cat, host_bin_at, host_bin_part.
  all: try (intros; by eapply host_bin_const).
  all: try (intros; by destruct Hsleep).
  all: try (intros; law 0%nat; apply mref_refl).
  intros i g s Hg. split; [apply lookupz_Some in Hg as [Hi Hl]; by apply (Forall_lookup_1 _ _ _ _ Hatoms Hl)|]. cbn. by rewrite Hg.
Qed.
End laws.

(** ** The world as the interpreter's host *)

Section api.
Context (exec : Z -> list Term -> M JWorld Trap Term) (hops : nat) (jm : JMod).
#[local] Instance apiH : SystemApi JWorld := JitHostApi exec hops jm.

Record world_ok (w : JWorld) : Prop := {
  wo_heap : heap_ok (jw_heap w);
  wo_addrs n m : jw_modules w !! n = Some m -> zlen (jm_fn_addrs m) = zlen (functions (jm_module m));
}.

(** Calls into other modules keep the world well formed. *)
Definition host_calls_ok : Prop := forall ma fa args w, world_ok w -> Forall (valid w) args ->
  method world_ok no_blame valid (Host.call_ext exec hops ma fa args) w.

Lemma host_same w w' : world_ok w -> jw_heap w' = jw_heap w -> jw_modules w' = jw_modules w -> world_ok w' /\ extends w w'.
Proof using Type. intros [H1 H2] He Hm. unfold extends. cbn. rewrite He. split; [|done]. split; by rewrite ?He, ?Hm. Qed.

Lemma host_throws {A} (Q : JWorld -> A -> Prop) w : world_ok w -> method world_ok no_blame Q (throw Badarg) w.
Proof using Type. intros Hw. unfold method. cbn. split_and!; [done|by intros ?|done]. Qed.

Lemma host_api_laws : host_calls_ok -> ApiLaws JWorld (jm_module jm).
Proof using Type.
  intros Hcall. refine {| good := world_ok; stashed := fun w => is_Some (jw_tail w) |}; try (intros; by apply host_throws).
  - done.
  - by intros s [].
  - intros s h [H1 H2] Hst. split; [exact (proj1 Hst)|done].
  - intros s Hs. by apply host_same.
  - intros s Hs. by apply host_same.
  - intros s t Hs Ht. by apply host_same.
  - intros s ms Hs. by apply host_same.
  - intros s mo fn args Hs _. split; [by apply host_same|by eexists].
  - intros s i f args Hs _ _ _. split; [by apply host_same|by eexists].
  - intros s Hs. eexists. constructor. cbn. rewrite term_int_header. by apply imm_header.
  - intros s l Hs. unfold method. cbn. split_and!; [done|by intros ?|done].
  - intros s a b Hs _ _. unfold method. cbn. split_and!; [done|by intros ?|done].
  - intros s mo fn args Hs Ha. by apply Hcall.
Defined.
End api.

(** ** The sample module, alone in the world *)

Lemma not_used m o : forallb (fun f => forallb (fun b => negb (Z.eqb (b2z b) o)) (code f)) (functions m) = true -> ~ uses m o.
Proof.
  intros H (i & f & p & b & Hf & _ & Hb & Ho). rewrite forallb_forall in H.
  apply lookupz_Some in Hf as [_ Hf%list_elem_of_lookup_2%list_elem_of_In]. specialize (H f Hf). rewrite forallb_forall in H.
  apply lookupz_Some in Hb as [_ Hb%list_elem_of_lookup_2%list_elem_of_In]. specialize (H b Hb). rewrite Ho, Z.eqb_refl in H. done.
Qed.

Definition demo_jm : JMod := {| jm_module := demo_module; jm_atom_map := [0; 1]; jm_fn_addrs := [0; 16] |}.
Definition demo_world : JWorld :=
  {| jw_atoms := hatoms_new; jw_modules := ∅; jw_heap := sample_heap 32; jw_stack := []; jw_tail := None; jw_out := []; jw_clock := 0 |}.
Definition no_exec (a : Z) (args : list Term) : M JWorld Trap Term := throw Badarg.

Lemma no_exec_calls : host_calls_ok no_exec 1 demo_jm.
Proof.
  intros ma fa args w Hw Ha. pose proof (host_throws no_exec 1 demo_jm (fun _ (_ : unit) => True) w Hw) as Hth. unfold method in Hth. cbn in Hth.
  unfold method, Host.call_ext. unfold mbind at 1, M_bind at 1. cbn. set (mname := ha_name _ ma). set (fname := ha_name _ fa).
  destruct (jw_modules w !! mname) as [m|] eqn:Hm; [|exact Hth]. destruct (function_named (jm_module m) fname) as [i|] eqn:Hi; [|exact Hth].
  destruct (function_named_some _ _ _ Hi) as [f Hf]. destruct (lookupz_is_Some (jm_fn_addrs m) i) as [a Ha'].
  { rewrite (wo_addrs w Hw _ _ Hm). by apply lookupz_range in Hf. }
  unfold unwrap, mbind, M_bind. rewrite Hf. cbn. unfold fail_if. destruct (negb _); cbn; [exact Hth|]. unfold unwrap, mbind, M_bind. rewrite Ha'. cbn.
  unfold Host.invoke. destruct (host_same no_exec 1 demo_jm w (jw_with_stack (jw_stack w ++ [(mname, fname, Some (zlen args))]) w) Hw) as [H1 H2]; [done..|].
  case_bool_decide; cbn; by split_and!.
Qed.

Lemma demo_world_ok : world_ok demo_world.
Proof. split; [exact sample_heap_ok|done]. Qed.

(** *** Where the host departs from the system *)

(** An operand that is not a non-negative integer: the interpreter traps, the host's helper goes on. *)
Example host_sleep_goes_on :
  (a_sleep (SystemApi0 := JitHostApi no_exec 1 demo_jm) NIL demo_world).1 = Err Badarg /\
  host_table no_exec 1 demo_text 1 ∅ Helper.SleepMs [NIL] demo_world = (Ok None, demo_world).
Proof. by split. Qed.

(** A stashed external call is entered with however many arguments it has: here none for a function of one. *)
Example host_tail_unchecked :
  let w := {| jw_atoms := {| ha_names := atoms demo_module; ha_index := ∅ |}; jw_modules := {[default [] (lookupz (atoms demo_module) 0) := demo_jm]};
              jw_heap := sample_heap 32; jw_stack := []; jw_tail := None; jw_out := []; jw_clock := 0 |} in
  (Host.tail_dest demo_jm (HExt 0 0 []) w).1 = Ok (demo_jm, 0, []) /\
  fmap arity (lookupz (functions demo_module) 0) = Some 1.
Proof. split; vm_compute; reflexivity. Qed.
