(* ===== verification/HostRun.v ===== *)
(** * HostRun: packs on the development host

    Models the rest of [tools/ygg-run/src/main.rs]: reading a pack, the interpreter mode with its
    services ([HostApi], where receiving and spawning panic) and its trampoline, and the start of
    both modes.  Unless said otherwise the tool is built with [--release], without debug assertions.  Reading the file, the texts of messages and the command line are not
    modelled; where the program reports a failure the model has an error. *)

From S2P Require Import Prelude Term TermFmt Bytecode Verify Interp Atoms Clif Jit JitPublish Luxpack HostJit.

(** ** The world *)

Record Loaded := { hl_module : Module_; hl_atom_map : list Z }.

Record World := {
  w_atoms : HAtoms;
  w_modules : gmap (list byte) Loaded;
  w_heap : HS;
  w_buffers : gmap Z (list byte);
  w_next_buf : Z;
  w_call_depth : Z;
  w_tail : option HostTail;
  w_out : list Term;   (* what print was given *)
  w_clock : Z;         (* milliseconds since the start *)
}.

Definition w_with_atoms (a : HAtoms) (w : World) : World :=
  {| w_atoms := a; w_modules := w_modules w; w_heap := w_heap w; w_buffers := w_buffers w; w_next_buf := w_next_buf w;
     w_call_depth := w_call_depth w; w_tail := w_tail w; w_out := w_out w; w_clock := w_clock w |}.
Definition w_with_modules (ms : gmap (list byte) Loaded) (w : World) : World :=
  {| w_atoms := w_atoms w; w_modules := ms; w_heap := w_heap w; w_buffers := w_buffers w; w_next_buf := w_next_buf w;
     w_call_depth := w_call_depth w; w_tail := w_tail w; w_out := w_out w; w_clock := w_clock w |}.
Definition w_with_heap (h : HS) (w : World) : World :=
  {| w_atoms := w_atoms w; w_modules := w_modules w; w_heap := h; w_buffers := w_buffers w; w_next_buf := w_next_buf w;
     w_call_depth := w_call_depth w; w_tail := w_tail w; w_out := w_out w; w_clock := w_clock w |}.
Definition w_with_buffers (bs : gmap Z (list byte)) (n : Z) (w : World) : World :=
  {| w_atoms := w_atoms w; w_modules := w_modules w; w_heap := w_heap w; w_buffers := bs; w_next_buf := n;
     w_call_depth := w_call_depth w; w_tail := w_tail w; w_out := w_out w; w_clock := w_clock w |}.
Definition w_with_depth (d : Z) (w : World) : World :=
  {| w_atoms := w_atoms w; w_modules := w_modules w; w_heap := w_heap w; w_buffers := w_buffers w; w_next_buf := w_next_buf w;
     w_call_depth := d; w_tail := w_tail w; w_out := w_out w; w_clock := w_clock w |}.
Definition w_with_tail (t : option HostTail) (w : World) : World :=
  {| w_atoms := w_atoms w; w_modules := w_modules w; w_heap := w_heap w; w_buffers := w_buffers w; w_next_buf := w_next_buf w;
     w_call_depth := w_call_depth w; w_tail := t; w_out := w_out w; w_clock := w_clock w |}.
Definition w_printed (t : Term) (w : World) : World :=
  {| w_atoms := w_atoms w; w_modules := w_modules w; w_heap := w_heap w; w_buffers := w_buffers w; w_next_buf := w_next_buf w;
     w_call_depth := w_call_depth w; w_tail := w_tail w; w_out := w_out w ++ [t]; w_clock := w_clock w |}.

(** The world [main] starts with, on the heap it allocated. *)
Definition world_new (heap : HS) (clock : Z) : World :=
  {| w_atoms := hatoms_new; w_modules := ∅; w_heap := heap; w_buffers := ∅; w_next_buf := 1; w_call_depth := 0;
     w_tail := None; w_out := []; w_clock := clock |}.

(** ** The services *)

Abbreviation WM := (M World Trap).

Definition host_alloc (c : HM Term) : WM Term := fun w =>
  let '(r, h) := c (w_heap w) in
  (match r with Ok t => Ok t | Err HeapFull => Err TrapHeapFull | Panic => Panic | NoFuel => NoFuel end, w_with_heap h w).

(** [bin.bin_bytes()] of a binary. *)
Definition host_bytes (t : Term) : WM (list byte) := fun w =>
  (b ← boxed_kind_is (hmem (w_heap w)) t KBinary; if b : bool then bin_bytes (hmem (w_heap w)) t else Err Badarg, w).

(** [off.checked_add(n)] in [usize], and the end within [len] bytes. *)
Definition buf_end (off n len : Z) : WM Z :=
  _ ← fail_if (bool_decide (2 ^ 64 <= off + n)) Badarg;
  _ ← fail_if (bool_decide (len < off + n)) Badarg;
  mret (off + n).

(** The next id, for a new buffer. *)
Definition buf_store (data : list byte) : WM Term :=
  w ← get;
  let id := w_next_buf w in
  _ ← modify (w_with_buffers (<[id := data]> (w_buffers w)) (swrap 64 (id + 1)));
  mret (term_int id).

Definition host_buf_to_bin (id : Z) : WM Term :=
  w ← get;
  data ← ok_or (w_buffers w !! id) Badarg;
  _ ← modify (w_with_buffers (delete id (w_buffers w)) (w_next_buf w));
  host_alloc (binary data).

Definition host_buf_new (size : Term) : WM Term :=
  size ← ok_or (as_int size) Badarg;
  _ ← fail_if (bool_decide (size < 0) || bool_decide (Z.shiftl 64 20 < size)) Badarg;
  buf_store (replicate (Z.to_nat size) x00).

Definition host_buf_read (buf off len : Term) : WM Term :=
  id ← ok_or (as_int buf) Badarg;
  off ← ok_or (as_int off) Badarg;
  len ← ok_or (as_int len) Badarg;
  w ← get;
  data ← ok_or (w_buffers w !! id) Badarg;
  stop ← buf_end (wrap 64 off) (wrap 64 len) (zlen data);
  part ← unwrap (slice data (wrap 64 off) stop);
  host_alloc (binary part).

Definition host_buf_write (buf off bin : Term) : WM Term :=
  id ← ok_or (as_int buf) Badarg;
  off ← ok_or (as_int off) Badarg;
  bytes ← host_bytes bin;
  w ← get;
  data ← ok_or (w_buffers w !! id) Badarg;
  stop ← buf_end (wrap 64 off) (zlen bytes) (zlen data);
  before ← unwrap (slice data 0 (wrap 64 off));
  after_ ← unwrap (slice data stop (zlen data));
  _ ← modify (w_with_buffers (<[id := before ++ bytes ++ after_]> (w_buffers w)) (w_next_buf w));
  mret (term_int 0).

Definition host_bin_to_buf (bin : Term) : WM Term := bytes ← host_bytes bin; buf_store bytes.

Definition host_tail_call (ma fa : Z) (args : list Term) : World -> World := w_with_tail (Some (HExt ma fa args)).
Definition host_tail_call_local (i : Z) (args : list Term) : World -> World := w_with_tail (Some (HLocal i args)).

(** [call] runs a function of another module; a heap does not grow, and [port_submit2] is the trait's. *)
Definition HostApi (call : Z -> Z -> list Term -> WM Term) (l : Loaded) : SystemApi World := {|
  heap_state := w_heap;
  with_heap := w_with_heap;
  self_pid _ := 1;
  api_send _ _ := mret tt;
  api_recv := panic;
  api_spawn _ _ := panic;
  safepoint w := w;
  atom_global local := mret (default 0 (lookupz (hl_atom_map l) local));
  api_print := w_printed;
  port_open _ := throw Badarg;
  port_submit _ _ _ _ := throw Badarg;
  call_ext := call;
  buf_to_bin := host_buf_to_bin;
  bin_to_buf := host_bin_to_buf;
  heap_grow w := (false, w);
  tail_call := host_tail_call;
  tail_call_local := host_tail_call_local;
  buf_write := host_buf_write;
  buf_new := host_buf_new;
  buf_read := host_buf_read;
  sleep_ms _ w := w;
  api_ticks w := term_int (swrap 64 (w_clock w));
  port_submit2 _ _ _ _ _ := throw Badarg;
|}.

(** ** The trampoline *)

(** The target of a stashed call; [target]: the module that was running. *)
Definition host_tail_target (target : Loaded) : WM (Loaded * Z * list Term) :=
  w ← get;
  _ ← modify (w_with_tail None);
  stashed ← ok_or (w_tail w) BadCode;
  match stashed with
  | HExt ma fa targs =>
      next ← ok_or (w_modules w !! ha_name (w_atoms w) ma) Badarg;
      idx ← ok_or (function_named (hl_module next) (ha_name (w_atoms w) fa)) Badarg;
      mret (next, idx, targs)
  | HLocal idx targs => mret (target, idx, targs)
  end.

Fixpoint host_trampoline (call : Z -> Z -> list Term -> WM Term) (fuel hops : nat) (target : Loaded) (fn_idx : Z) (args : list Term) : WM Term :=
  match hops with
  | O => nofuel
  | S hops' =>
      r ← run_function (SystemApi0 := HostApi call target) (hl_module target) fuel fn_idx args;
      if negb (bool_decide (r = TAIL_SENTINEL)) then mret r
      else '(target', idx, targs) ← host_tail_target target; host_trampoline call fuel hops' target' idx targs
  end.

(** [call_ext]: the depth goes up before the target is looked up and down after the call, whether it
    succeeded or not. *)
Definition ext_target (ma fa : Z) : WM (Loaded * Z) :=
  _ ← modify (fun w => w_with_depth (w_call_depth w + 1) w);
  w ← get;
  target ← ok_or (w_modules w !! ha_name (w_atoms w) ma) Badarg;
  fn_idx ← ok_or (function_named (hl_module target) (ha_name (w_atoms w) fa)) Badarg;
  mret (target, fn_idx).
Definition leave_call (c : WM Term) : WM Term := fun w =>
  let '(r, w1) := c w in (r, w_with_depth (w_call_depth w1 - 1) w1).

(** [depth] bounds the nesting of calls between modules, [fuel] the run and the hops of each. *)
Fixpoint host_call_ext (depth fuel : nat) (ma fa : Z) (args : list Term) : WM Term :=
  match depth with
  | O => nofuel
  | S depth' =>
      '(target, fn_idx) ← ext_target ma fa;
      leave_call (host_trampoline (host_call_ext depth' fuel) fuel fuel target fn_idx args)
  end.

(** ** Reading a pack *)

Fixpoint ha_intern_all (names : list (list byte)) (a : HAtoms) : list Z * HAtoms :=
  match names with
  | [] => ([], a)
  | s :: names' => let '(i, a1) := ha_intern s a in let '(is_, a2) := ha_intern_all names' a1 in (i :: is_, a2)
  end.

(** [Module::decode(data)?] and [verify(&module)?] *)
Definition checked {S} (data : list byte) : M S unit Module_ :=
  module ← map_err (fun _ => tt) (lift (decode data));
  _ ← map_err (fun _ => tt) (lift (verify module));
  mret module.

(** The header, then the entries; [install] takes a name and the bytes of its module. *)
Definition read_pack {S} (install : list byte -> list byte -> M S unit unit) (bytes : list byte) : M S unit (list byte) := fun s =>
  let '(r, c) := (
    magic ← take bytes 7;
    _ ← fail_if (negb (bool_decide (magic = LUX_MAGIC))) tt;
    entry ← strat bytes;
    count ← u32at bytes;
    _ ← repeat_m (Z.to_nat count) (read_entry bytes install);
    mret entry) {| c_at := 0; c_st := s |} in (r, c_st c).

Definition host_install (name data : list byte) : M World unit unit :=
  module ← checked data;
  w ← get;
  let '(atom_map, a) := ha_intern_all (atoms module) (w_atoms w) in
  modify (fun w => w_with_modules (<[name := {| hl_module := module; hl_atom_map := atom_map |}]> (w_modules w)) (w_with_atoms a w)).

(** ** The interpreter mode *)

Inductive HostError := BadPack | NoEntry | Trapped (t : Trap).

(** [entry] and [fname] override what the pack says. *)
Definition run_entry (depth fuel : nat) (entry fname : list byte) (args : list Term) : M World HostError Term :=
  w ← get;
  target ← ok_or (w_modules w !! entry) NoEntry;
  fn_idx ← ok_or (function_named (hl_module target) fname) NoEntry;
  map_err Trapped (host_trampoline (host_call_ext depth fuel) fuel fuel target fn_idx args).

(** [.map(Term::int)] over the parsed arguments: with debug assertions, an integer outside 61 bits panics. *)
Definition int_args {S E} (debug : bool) (args : list Z) : M S E (list Term) :=
  _ ← massert (negb debug || forallb (fun v => bool_decide (- 2 ^ 60 <= v < 2 ^ 60)) args);
  mret (map term_int args).

(** The arguments are converted before the pack is read.  [debug]: built with debug assertions, as without
    [--release]; those of the interpreter are not modelled, so a whole run is described for [false] only. *)
Definition host_main (debug : bool) (depth fuel : nat) (bytes : list byte) (entry fname : option (list byte)) (args : list Z) : M World HostError Term :=
  ts ← int_args debug args;
  e ← map_err (fun _ => BadPack) (read_pack host_install bytes);
  run_entry depth fuel (default e entry) (default str_apply fname) ts.

(** [true] as the text of the result is success. *)
Definition str_true : list byte := [x74; x72; x75; x65].
Definition host_succeeds (fuel : nat) (w : World) (t : Term) : bool :=
  match fmt_term (E := Empty_set) (hmem (w_heap w)) (ha_name (w_atoms w)) fuel t with Ok s => bool_decide (s = str_true) | _ => false end.

(** ** The compiled mode *)

Section jit.
Context `{!Backend}.
(** The addresses of the helpers, of bytecode, and of the memory the system maps for code. *)
Context (helper_addrs : list Z) (code_ptr : list byte -> Z -> Z) (mmap : JWorld -> Z -> option Z).
(** The processor running the code at an address. *)
Context (exec : Z -> list Term -> M JWorld Trap Term).

Definition jw_installed (name : list byte) (m : JMod) (a : HAtoms) (w : JWorld) : JWorld :=
  {| jw_atoms := a; jw_modules := <[name := m]> (jw_modules w); jw_heap := jw_heap w; jw_stack := jw_stack w; jw_tail := jw_tail w;
     jw_out := jw_out w; jw_clock := jw_clock w |}.

Definition code_size (fns : list CompiledFn) : Z := div_ceil (Z.max (layout 0 fns).2 1) 4096 * 4096.

Definition jit_install (name data : list byte) : M JWorld unit unit :=
  module ← checked data;
  w ← get;
  let '(atom_map, a) := ha_intern_all (atoms module) (jw_atoms w) in
  fns ← map_err (fun _ => tt) (lift (compile_module module atom_map (code_ptr name)));
  base ← unwrap (mmap w (code_size fns));
  '(fn_addrs, _) ← unwrap (load_exec helper_addrs base fns);
  modify (jw_installed name {| jm_module := module; jm_atom_map := atom_map; jm_fn_addrs := fn_addrs |} a).

Definition jworld_new (heap : HS) (clock : Z) : JWorld :=
  {| jw_atoms := hatoms_new; jw_modules := ∅; jw_heap := heap; jw_stack := []; jw_tail := None; jw_out := []; jw_clock := clock |}.

(** Success is the atom [true] as the result. *)
Definition run_jit (hops : nat) (bytes : list byte) (entry fname : option (list byte)) (args : list Z) : M JWorld HostError bool :=
  e ← map_err (fun _ => BadPack) (read_pack jit_install bytes);
  r ← map_err Trapped (Host.run exec hops (default e entry) (default str_apply fname) (map term_int args));
  w ← get;
  mret (match ha_index (jw_atoms w) !! str_true with Some t => bool_decide (r = term_atom t) | None => false end).
End jit.
