(* ===== verification/HostRunThms.v ===== *)
(** * HostRunThms: whatever the pack, the host interprets it safely

    Any bytes given as a pack are read without a panic, and what was read is verified.  Running a
    function of it never reaches the interpreter's own faults; receiving and spawning, which the
    host does not offer, are excluded by asking that no module does so. *)

From S2P Require Import Prelude Term TermImm TermHeap TermVal TermCopy TermMap Bytecode BytecodeFormat BytecodeAnalysis Verify VerifySound.
From S2P Require Import Interp InterpSafe InterpRun InterpArms InterpFuel InterpExec Atoms Modload ModloadProofs ModloadRun ModloadThms.
From S2P Require Import Clif Jit JitPublish Luxpack LuxpackThms HostJit HostJitLaws HostRun.

(** ** Good worlds *)

Definition wvalid (w : World) (t : Term) : Prop := valid_in (w_heap w) t.
Definition wextends (w w' : World) : Prop := forall v t, repr (live (w_heap w)) v t -> repr (live (w_heap w')) v t.
Definition tail_args (t : HostTail) : list Term := match t with HExt _ _ a => a | HLocal _ a => a end.

(** Neither receives nor spawns. *)
Definition quiet (m : Module_) : Prop := ~ uses m op.RECV /\ ~ uses m op.SPAWN.
Definition runnable (l : Loaded) : Prop := verify (hl_module l) = Ok tt /\ sized (hl_module l).

Record wgood (w : World) : Prop := {
  wg_heap : heap_ok (w_heap w);
  wg_mods n l : w_modules w !! n = Some l -> runnable l /\ quiet (hl_module l);
  wg_stash t : w_tail w = Some t -> Forall (wvalid w) (tail_args t);
}.

(** A stashed target: a local one names a function of [m]. *)
Definition host_target (m : Module_) (w : World) : Prop :=
  match w_tail w with
  | Some (HExt _ _ _) => True
  | Some (HLocal i args) => exists f, lookupz (functions m) i = Some f /\ arity f = zlen args
  | None => False
  end.

Definition hkeeps {A} (Q : World -> A -> Prop) (c : M World Trap A) (w : World) : Prop :=
  let '(r, w') := c w in wgood w' /\ wextends w w' /\ contained (no_blame w') (Q w') r.

Lemma wvalid_int w v : wvalid w (term_int v).
Proof. apply valid_imm. rewrite term_int_header. by apply imm_header. Qed.
Lemma wextends_refl w : wextends w w.
Proof. intros v t H. exact H. Qed.
Lemma wextends_Forall w w' ts : wextends w w' -> Forall (wvalid w) ts -> Forall (wvalid w') ts.
Proof. intros He Hts. eapply Forall_impl; [exact Hts|]. intros t [v Hv]. exists v. by apply He. Qed.

(** Everything but the heap, the modules and the stash may change. *)
Lemma wgood_same w w' : wgood w -> w_heap w' = w_heap w -> w_modules w' = w_modules w -> w_tail w' = w_tail w -> wgood w' /\ wextends w w'.
Proof.
  intros [H1 H2 H3] Hh Hm Ht. unfold wextends, wvalid in *. rewrite Hh. split; [|done]. split; unfold wvalid; rewrite ?Hh, ?Hm, ?Ht; auto.
Qed.
Lemma wgood_stash w o : wgood w -> (forall t, o = Some t -> Forall (wvalid w) (tail_args t)) -> wgood (w_with_tail o w) /\ wextends w (w_with_tail o w).
Proof. intros [H1 H2 H3] Ho. split; [by split|by intros v t H]. Qed.
Lemma wgood_heap w h : wgood w -> heap_step (w_heap w) h -> wgood (w_with_heap h w) /\ wextends w (w_with_heap h w).
Proof.
  intros [H1 H2 H3] Hst. assert (wextends w (w_with_heap h w)) as He.
  { intros v t Ht. eapply repr_mono; [by apply heap_step_live|exact Ht]. }
  split; [|done]. split; [exact (proj1 Hst)|done|]. intros t Ht. eapply wextends_Forall; [exact He|]. by apply H3.
Qed.

Lemma hkeeps_bind {A B} (c : M World Trap A) (k : A -> M World Trap B) (P : World -> A -> Prop) (Q : World -> B -> Prop) w :
  hkeeps P c w -> (forall x w', wgood w' -> wextends w w' -> P w' x -> hkeeps Q (k x) w') -> hkeeps Q (x ← c; k x) w.
Proof.
  intros Hc Hk. unfold hkeeps, mbind, M_bind in *. destruct (c w) as [[x|e| |] w1]; destruct Hc as (Hg & He & Hr); try (by split_and!).
  specialize (Hk x w1 Hg He Hr). destruct (k x w1) as [r w2]. destruct Hk as (Hg2 & He2 & Hr2).
  split_and!; [done|unfold wextends in *; auto|done].
Qed.
Lemma hkeeps_ret {A} (x : A) (Q : World -> A -> Prop) w : wgood w -> Q w x -> hkeeps Q (mret x) w.
Proof. intros Hw Hq. split_and!; [done|apply wextends_refl|done]. Qed.
Lemma hkeeps_throw {A} (Q : World -> A -> Prop) w : wgood w -> hkeeps Q (throw Badarg) w.
Proof. intros Hw. split_and!; [done|apply wextends_refl|done]. Qed.
Lemma hkeeps_get w : wgood w -> hkeeps (fun w' x => w' = w /\ x = w) get w.
Proof. intros Hw. split_and!; [done|apply wextends_refl|done]. Qed.
Lemma hkeeps_ok_or {A} (o : option A) w : wgood w -> hkeeps (fun w' x => w' = w /\ o = Some x) (ok_or o Badarg) w.
Proof. intros Hw. destruct o; [by apply hkeeps_ret|by apply hkeeps_throw]. Qed.
Lemma hkeeps_fail_if b w : wgood w -> hkeeps (fun w' _ => w' = w /\ b = false) (fail_if b Badarg) w.
Proof. intros Hw. destruct b; [by apply hkeeps_throw|by apply hkeeps_ret]. Qed.
Lemma hkeeps_upd (f : World -> World) w : wgood (f w) /\ wextends w (f w) -> hkeeps (fun w' _ => w' = f w) (modify f) w.
Proof. intros [H1 H2]. by split_and!. Qed.
Lemma hkeeps_mono {A} (P Q : World -> A -> Prop) c w : hkeeps P c w -> (forall w' x, P w' x -> Q w' x) -> hkeeps Q c w.
Proof. unfold hkeeps. destruct (c w) as [r w']. intros (?&?&Hr) Hpq. split_and!; [done|done|]. eapply contained_mono; eauto. Qed.

(** ** The services *)

Lemma host_alloc_ok c w : wgood w -> makes c (w_heap w) -> hkeeps wvalid (host_alloc c) w.
Proof.
  intros Hw Hm. unfold hkeeps, host_alloc. unfold makes in Hm. destruct (c (w_heap w)) as [r h]. destruct Hm as [Hst Hr].
  destruct (wgood_heap w h Hw Hst) as [H1 H2]. by destruct r as [t|[]| |]; split_and!.
Qed.

Lemma host_binary_ok bs w : wgood w -> hkeeps wvalid (host_alloc (binary bs)) w.
Proof. intros Hw. apply host_alloc_ok; [done|]. apply makes_binary, Hw. Qed.

Lemma host_bytes_ok t w : wgood w -> wvalid w t -> hkeeps (fun w' _ => w' = w) (host_bytes t) w.
Proof.
  intros Hw Ht. unfold hkeeps, host_bytes. split_and!; [done|apply wextends_refl|].
  destruct (boxed_kind_is_ok (w_heap w) t KBinary Ht) as (b & -> & Hb). cbn [mbind res_bind]. destruct b; [|done]. specialize (Hb eq_refl).
  destruct (valid_kind _ t Ht) as (v & k & Hr & Hk & Hkv). rewrite Hb in Hk. injection Hk as <-. destruct Hkv as [bs ->].
  by rewrite (bin_valid _ bs t Hr).
Qed.

Lemma buf_end_ok off n len w : wgood w -> hkeeps (fun w' e => w' = w /\ e = off + n /\ off + n <= len) (buf_end off n len) w.
Proof.
  intros Hw. eapply hkeeps_bind; [by apply hkeeps_fail_if|]. intros _ w1 _ _ [-> _].
  eapply hkeeps_bind; [by apply hkeeps_fail_if|]. intros _ w1 _ _ [-> Hle%bool_decide_eq_false]. apply hkeeps_ret; [done|]. split_and!; [done..|lia].
Qed.

Lemma buf_store_ok data w : wgood w -> hkeeps wvalid (buf_store data) w.
Proof.
  intros Hw. eapply hkeeps_bind; [by apply hkeeps_get|]. intros ? ? _ _ [-> ->].
  eapply hkeeps_bind; [by apply hkeeps_upd, wgood_same|]. intros [] w1 Hw1 _ _. apply hkeeps_ret; [done|apply wvalid_int].
Qed.

Lemma slice_in_range {A} (l : list A) a b w : wgood w -> 0 <= a <= b -> b <= zlen l -> hkeeps (fun w' _ => w' = w) (unwrap (slice l a b)) w.
Proof. intros Hw Hab Hb. unfold slice. rewrite bool_decide_true by lia. by apply hkeeps_ret. Qed.

Lemma host_buf_to_bin_ok id w : wgood w -> hkeeps wvalid (host_buf_to_bin id) w.
Proof.
  intros Hw. eapply hkeeps_bind; [by apply hkeeps_get|]. intros ? ? _ _ [-> ->].
  eapply hkeeps_bind; [by apply hkeeps_ok_or|]. intros data ? _ _ [-> _].
  eapply hkeeps_bind; [by apply hkeeps_upd, wgood_same|]. intros [] w1 Hw1 _ _. by apply host_binary_ok.
Qed.

Lemma host_buf_new_ok t w : wgood w -> hkeeps wvalid (host_buf_new t) w.
Proof.
  intros Hw. eapply hkeeps_bind; [by apply hkeeps_ok_or|]. intros n ? _ _ [-> _].
  eapply hkeeps_bind; [by apply hkeeps_fail_if|]. intros _ ? _ _ [-> _]. by apply buf_store_ok.
Qed.

Lemma host_buf_read_ok a b c w : wgood w -> hkeeps wvalid (host_buf_read a b c) w.
Proof.
  intros Hw. do 3 (eapply hkeeps_bind; [by apply hkeeps_ok_or|intros ? ? _ _ [-> _]]).
  eapply hkeeps_bind; [by apply hkeeps_get|]. intros ? ? _ _ [-> ->]. eapply hkeeps_bind; [by apply hkeeps_ok_or|]. intros data ? _ _ [-> _].
  eapply hkeeps_bind; [by apply buf_end_ok|]. intros e ? _ _ (-> & -> & He). pose proof (wrap_range 64 x0). pose proof (wrap_range 64 x1).
  eapply hkeeps_bind; [apply slice_in_range; [done|lia..]|]. intros part ? _ _ ->. by apply host_binary_ok.
Qed.

Lemma host_buf_write_ok a b c w : wgood w -> wvalid w c -> hkeeps wvalid (host_buf_write a b c) w.
Proof.
  intros Hw Hc. do 2 (eapply hkeeps_bind; [by apply hkeeps_ok_or|intros ? ? _ _ [-> _]]).
  eapply hkeeps_bind; [by apply host_bytes_ok|]. intros bs ? _ _ ->.
  eapply hkeeps_bind; [by apply hkeeps_get|]. intros ? ? _ _ [-> ->]. eapply hkeeps_bind; [by apply hkeeps_ok_or|]. intros data ? _ _ [-> _].
  eapply hkeeps_bind; [by apply buf_end_ok|]. intros e ? _ _ (-> & -> & He). pose proof (wrap_range 64 x0). pose proof (zlen_nonneg bs).
  eapply hkeeps_bind; [apply slice_in_range; [done|lia..]|]. intros before ? _ _ ->.
  eapply hkeeps_bind; [apply slice_in_range; [done|lia..]|]. intros after_ ? _ _ ->.
  eapply hkeeps_bind; [by apply hkeeps_upd, wgood_same|]. intros [] w1 Hw1 _ _. apply hkeeps_ret; [done|apply wvalid_int].
Qed.

Lemma host_bin_to_buf_ok t w : wgood w -> wvalid w t -> hkeeps wvalid (host_bin_to_buf t) w.
Proof. intros Hw Ht. eapply hkeeps_bind; [by apply host_bytes_ok|]. intros bs ? _ _ ->. by apply buf_store_ok. Qed.

(** ** The contract of the interpreter *)

Definition host_calls (call : Z -> Z -> list Term -> M World Trap Term) : Prop := forall ma fa args w,
  wgood w -> Forall (wvalid w) args -> hkeeps wvalid (call ma fa args) w.

Lemma host_laws call l : host_calls call -> quiet (hl_module l) -> @ApiLawsUpTo World (HostApi call l) (hl_module l) no_blame.
Proof.
  intros Hcall Hq. unshelve econstructor; [exact wgood|exact (host_target (hl_module l))|..].
  all: try (intros; by apply hkeeps_throw).
  - done.
  - by intros w [].
  - intros w h Hw Hst. by apply wgood_heap.
  - intros w Hw. by apply wgood_same.
  - intros w Hw. by apply wgood_same.
  - intros w t Hw _. by apply wgood_same.
  - intros w n Hw. by apply wgood_same.
  - intros w ma fa args Hw Ha. split; [|done]. apply wgood_stash; [done|]. by intros t [= <-].
  - intros w i f args Hw Ha Hf Har. split; [apply wgood_stash; [done|by intros t [= <-]]|]. by exists f.
  - intros w Hw. apply wvalid_int.
  - intros w a Hw. by apply hkeeps_ret.
  - intros w a b Hw _ _. by apply hkeeps_ret.
  - intros w Hu. by destruct (proj1 Hq).
  - intros w i f a Hu. by destruct (proj2 Hq).
  - intros w ma fa args Hw Ha. by apply Hcall.
  - intros w i Hw. by apply host_buf_to_bin_ok.
  - intros w t Hw Ht. by apply host_bin_to_buf_ok.
  - intros w a b c Hw _ _ Hc. by apply host_buf_write_ok.
  - intros w a Hw _. by apply host_buf_new_ok.
  - intros w a b c Hw _ _ _. by apply host_buf_read_ok.
Defined.

(** ** Running *)

Lemma host_sentinel w : ~ wvalid w TAIL_SENTINEL.
Proof. exact (sentinel_invalid (SystemApi0 := HostApi (fun _ _ _ => throw Badarg) {| hl_module := demo_module; hl_atom_map := [] |}) (w : World)). Qed.

(** A function of a good module; a wrong number of arguments is refused. *)
Lemma host_run_ok call fuel l i args w : host_calls call -> wgood w -> runnable l -> quiet (hl_module l) ->
  is_Some (lookupz (functions (hl_module l)) i) -> Forall (wvalid w) args ->
  hkeeps (fun w' t => wvalid w' t \/ (t = TAIL_SENTINEL /\ host_target (hl_module l) w'))
    (run_function (SystemApi0 := HostApi call l) (hl_module l) fuel i args) w.
Proof.
  intros Hcall Hw [Hv Hsz] Hq [f Hf] Ha. destruct (decide (arity f = zlen args)) as [Har|Hne].
  - pose proof (@run_function_safe World (HostApi call l) (hl_module l) no_blame (host_laws call l Hcall Hq) i f args w fuel Hv Hsz Hf Har Hw Ha) as H.
    eapply hkeeps_mono; [exact H|]. intros w' t [Ht|(Ht & _ & Hst)]; [by left|by right].
  - unfold run_function, enter. rewrite Hf, bool_decide_false by congruence. by apply hkeeps_throw.
Qed.

Lemma host_tail_ok l w : wgood w -> runnable l -> quiet (hl_module l) -> host_target (hl_module l) w ->
  hkeeps (fun w' x => let '(l', i, args) := x in runnable l' /\ quiet (hl_module l') /\
    is_Some (lookupz (functions (hl_module l')) i) /\ Forall (wvalid w') args) (host_tail_target l) w.
Proof.
  intros Hw Hl Hq Ht. unfold host_tail_target, host_target in *. pose proof (wg_stash w Hw) as Hst.
  eapply hkeeps_bind; [by apply hkeeps_get|]. intros ? ? _ _ [-> ->].
  eapply hkeeps_bind; [apply hkeeps_upd, wgood_stash; [done|by intros t]|]. intros [] w1 Hw1 He1 ->.
  destruct (w_tail w) as [t|]; [|done]. specialize (Hst t eq_refl).
  eapply hkeeps_bind; [by apply (hkeeps_ret t (fun w' x => w' = w_with_tail None w /\ x = t))|]. intros ? ? _ _ [-> ->].
  destruct t as [ma fa targs|i targs]; cbn [tail_args] in Hst.
  - eapply hkeeps_bind; [by apply hkeeps_ok_or|]. intros next ? _ _ [-> Hn]. eapply hkeeps_bind; [by apply hkeeps_ok_or|].
    intros idx ? _ _ [-> Hi]. destruct (wg_mods w Hw _ _ Hn). apply hkeeps_ret; [done|]. split_and!; [done|done| |exact Hst].
    by apply (function_named_some _ _ _ Hi).
  - apply hkeeps_ret; [done|]. split_and!; [done|done| |exact Hst]. destruct Ht as (f & Hf & _). by exists f.
Qed.

Lemma host_trampoline_ok call fuel hops : host_calls call -> forall l i args w, wgood w -> runnable l -> quiet (hl_module l) ->
  is_Some (lookupz (functions (hl_module l)) i) -> Forall (wvalid w) args -> hkeeps wvalid (host_trampoline call fuel hops l i args) w.
Proof.
  intros Hcall. induction hops as [|hops IH]; intros l i args w Hw Hl Hq Hi Ha; [split_and!; [done|apply wextends_refl|done]|]. cbn [host_trampoline].
  eapply hkeeps_bind; [by apply host_run_ok|]. intros r w1 Hw1 _ Hr. case_bool_decide as Hsent; cbn [negb].
  - destruct Hr as [Hr|[_ Ht]]; [subst r; by apply host_sentinel in Hr|].
    eapply hkeeps_bind; [by apply host_tail_ok|]. intros [[l' i'] args'] w2 Hw2 _ (H1 & H2 & H3 & H4). by apply IH.
  - destruct Hr as [Hr|[-> _]]; [|done]. by apply hkeeps_ret.
Qed.

Lemma host_call_ext_ok depth fuel : host_calls (host_call_ext depth fuel).
Proof.
  induction depth as [|depth IH]; intros ma fa args w Hw Ha; [split_and!; [done|apply wextends_refl|done]|]. cbn [host_call_ext].
  eapply (hkeeps_bind _ _ (fun w' x => runnable x.1 /\ quiet (hl_module x.1) /\ is_Some (lookupz (functions (hl_module x.1)) x.2))).
  - eapply hkeeps_bind; [by apply hkeeps_upd, wgood_same|]. intros [] w1 Hw1 _ ->.
    eapply hkeeps_bind; [by apply hkeeps_get|]. intros ? ? _ _ [-> ->]. eapply hkeeps_bind; [by apply hkeeps_ok_or|]. intros l ? _ _ [-> Hl].
    eapply hkeeps_bind; [by apply hkeeps_ok_or|]. intros i ? _ _ [-> Hi]. destruct (wg_mods w Hw _ _ Hl). apply hkeeps_ret; [done|].
    split_and!; [done|done|]. by apply (function_named_some _ _ _ Hi).
  - intros [l i] w1 Hw1 He1 (H1 & H2 & H3). cbn [fst snd] in *. unfold leave_call, hkeeps.
    pose proof (host_trampoline_ok _ fuel fuel IH l i args w1 Hw1 H1 H2 H3 (wextends_Forall _ _ _ He1 Ha)) as Hr. unfold hkeeps in Hr.
    destruct (host_trampoline _ fuel fuel l i args w1) as [r w2]. destruct Hr as (Hw2 & He2 & Hr2).
    by destruct (wgood_same w2 (w_with_depth (w_call_depth w2 - 1) w2) Hw2) as [? _].
Qed.

(** ** Reading *)

Record loaded_ok (w : World) : Prop := {
  lo_heap : heap_ok (w_heap w);
  lo_mods n l : w_modules w !! n = Some l -> runnable l;
  lo_tail : w_tail w = None;
}.

Lemma loaded_wgood w : loaded_ok w -> (forall n l, w_modules w !! n = Some l -> quiet (hl_module l)) -> wgood w.
Proof. intros [H1 H2 H3] Hq. split; [done|eauto|]. intros t. by rewrite H3. Qed.

Lemma checked_ok {S} data (s : S) : let '(r, s') := checked data s in
  s' = s /\ match r with Ok m => decode data = Ok m /\ verify m = Ok tt | Err _ => True | _ => False end.
Proof.
  unfold checked, mbind, M_bind, map_err, lift. pose proof (decode_total data) as Hd. destruct (decode data) as [m|e| |]; try done.
  by destruct (verify_total m) as [Hv|[e Hv]]; rewrite Hv.
Qed.

Lemma host_install_ok name data w : loaded_ok w -> let '(r, w') := host_install name data w in
  loaded_ok w' /\ match r with Ok _ | Err _ => True | _ => False end.
Proof.
  intros Hw. pose proof Hw as [H1 H2 H3]. unfold host_install. unfold mbind at 1, M_bind at 1. pose proof (checked_ok data w) as Hc.
  destruct (checked data w) as [r s]. destruct Hc as [-> Hr]. destruct r as [m|e| |]; [|by split|done..]. destruct Hr as [Hd Hv].
  rewrite (bind_eval get _ w w w eq_refl). destruct (ha_intern_all (atoms m) (w_atoms w)) as [am a]. split; [|done]. split; cbn; [done| |done].
  intros n l Hl. apply lookup_insert_Some in Hl as [[_ <-]|[_ Hl]]; [|by eapply H2]. split; [done|]. by eapply decode_sized.
Qed.

Lemma step_host_install name data : step_ok loaded_ok (on_state (host_install name data)).
Proof.
  intros cur Hw. unfold on_state. pose proof (host_install_ok name data (c_st cur) Hw) as H.
  destruct (host_install name data (c_st cur)) as [[] w']; destruct H as [H1 H2]; done.
Qed.

Lemma read_pack_ok bytes w : loaded_ok w -> let '(r, w') := read_pack host_install bytes w in
  loaded_ok w' /\ r <> Panic /\ r <> NoFuel.
Proof.
  intros Hw. unfold read_pack. match goal with |- context [?c {| c_at := 0; c_st := w |}] => assert (step_ok loaded_ok c) as Hs end.
  { apply step_bind; [apply step_take|intros ?]. apply step_bind; [apply step_fail|intros ?]. apply step_bind; [apply step_strat|intros ?].
    apply step_bind; [apply step_u32|intros ?]. apply step_bind; [|intros ?; apply step_ret].
    apply step_repeat, step_entry. intros n d. apply step_host_install. }
  specialize (Hs {| c_at := 0; c_st := w |} Hw). match goal with |- context [?c {| c_at := 0; c_st := w |}] => by destruct (c {| c_at := 0; c_st := w |}) end.
Qed.

(** ** Properties *)

(** C24: The host interprets any pack safely.  Whatever bytes it is given, reading them ends without a panic,
    with the name of an entry or a report, and every module it kept is verified.  If none of
    these receives or spawns, then calling any function of the pack by name with any integers, through
    any number of tail calls and calls between modules, never panics the tool, built without debug assertions
    ([--release]), nor traps with [BadCode]: it reports a missing function or a trap, or gives a well-formed term. *)
Theorem host_main_safe depth fuel bytes entry fname args heap clock : heap_ok heap ->
  let '(r, w) := read_pack host_install bytes (world_new heap clock) in
  (loaded_ok w /\ match r with Ok _ | Err _ => True | _ => False end) /\
  ((forall n l, w_modules w !! n = Some l -> quiet (hl_module l)) ->
   let '(r', w') := host_main false depth fuel bytes entry fname args (world_new heap clock) in
   match r' with Ok t => wvalid w' t | Err (Trapped e) => e <> BadCode | Err _ => True | Panic => False | NoFuel => True end).
Proof.
  intros Hh. assert (loaded_ok (world_new heap clock)) as H0 by (by split).
  pose proof (read_pack_ok bytes (world_new heap clock) H0) as Hr. unfold host_main.
  rewrite (bind_eval (int_args false args) _ _ (map term_int args) (world_new heap clock) eq_refl). unfold mbind at 1, M_bind at 1, map_err at 1.
  destruct (read_pack host_install bytes (world_new heap clock)) as [r w]. destruct Hr as (Hw & Hnp & Hnf).
  split; [split; [done|by destruct r]|]. intros Hq. pose proof (loaded_wgood w Hw Hq) as Hg. destruct r as [e|[]| |]; [|done..].
  unfold run_entry, mbind, M_bind, map_err. cbn.
  destruct (w_modules w !! default e entry) as [l|] eqn:Hl; cbn; [|done].
  destruct (function_named (hl_module l) (default str_apply fname)) as [i|] eqn:Hi; cbn; [|done]. destruct (wg_mods w Hg _ _ Hl) as [Hrun Hquiet].
  pose proof (host_trampoline_ok _ fuel fuel (host_call_ext_ok depth fuel) l i (map term_int args) w Hg Hrun Hquiet
    (function_named_some _ _ _ Hi)) as Ht. unfold hkeeps in Ht.
  destruct (host_trampoline _ fuel fuel l i (map term_int args) w) as [r' w']. destruct Ht as (_ & _ & Hr); [|by destruct r'].
  apply Forall_forall. intros t (v & -> & _)%list_elem_of_fmap. apply wvalid_int.
Qed.

(** *** Witness: the sample pack, its loop counted down from 3 *)

Definition host_boot : World := world_new (sample_heap 32) 0.
Definition loop_name : list byte := default [] (lookupz (atoms demo_module) 1).

Lemma demo_quiet : quiet demo_module.
Proof. split; apply not_used; by vm_compute. Qed.

Lemma demo_pack_read : exists w, read_pack host_install (write_pack demo_pack) host_boot = (Ok [x61], w) /\
  w_modules w = {[ [x61] := {| hl_module := demo_module; hl_atom_map := [0; 1] |}; [x62] := {| hl_module := demo_module; hl_atom_map := [0; 1] |} ]}.
Proof. eexists. split; [vm_compute; reflexivity|]. vm_compute. reflexivity. Qed.

Lemma host_main_safe_witness :
  let '(r, w) := host_main false 2 20 (write_pack demo_pack) (Some [x62]) (Some loop_name) [3] host_boot in r = Ok (term_int 0) /\ wvalid w (term_int 0).
Proof.
  pose proof (host_main_safe 2 20 (write_pack demo_pack) (Some [x62]) (Some loop_name) [3] (sample_heap 32) 0 sample_heap_ok) as H.
  change (world_new (sample_heap 32) 0) with host_boot in H. destruct demo_pack_read as (w & Hread & Hmods). rewrite Hread in H.
  destruct H as [_ H]. assert ((host_main false 2 20 (write_pack demo_pack) (Some [x62]) (Some loop_name) [3] host_boot).1 = Ok (term_int 0)) as Hr by (by vm_compute).
  destruct (host_main _ _ _ _ _ _ _ _) as [r w']. cbn [fst] in Hr. subst r. split; [done|]. apply H. intros n l Hl. rewrite Hmods in Hl.
  apply lookup_insert_Some in Hl as [[_ <-]|[_ Hl]]; [exact demo_quiet|]. apply lookup_singleton_Some in Hl as [_ <-]. exact demo_quiet.
Defined.

(** A call to a module that is not there leaves the depth one higher. *)
Example host_depth_leaks :
  w_call_depth (host_call_ext 1 1 0 0 [] host_boot).2 = 1 /\ (host_call_ext 1 1 0 0 [] host_boot).1 = Err Badarg.
Proof. by split. Qed.

(** Built with debug assertions, an argument of 2^60 panics before the pack is read; without them it is taken for -2^60. *)
Example debug_build_panics :
  (host_main true 2 20 (write_pack demo_pack) None None [2 ^ 60] host_boot).1 = Panic /\ as_int (term_int (2 ^ 60)) = Some (- 2 ^ 60).
Proof. split; by vm_compute. Qed.
