(* ===== verification/HostAgree.v ===== *)
(** * HostAgree: the two modes of the development host agree

    [ygg-run] interprets a pack on [HostApi], or compiles it and runs it on the helpers of [jit_host].  The
    helpers follow [HostApi] for modules that use neither buffers nor [SLEEP_MS], so on such a module
    compiled code computes what the interpreter does. *)

From S2P Require Import Prelude Term TermImm TermHeap TermVal TermCopy TermMap Bytecode Verify VerifySound Interp InterpSafe InterpExec JitInterp ApiSim Clif Jit JitLogic JitSim JitRef JitRefine.
From S2P Require Import Modload ModloadProofs ModloadRun ModloadThms JitRt JitRtLaws JitThms Luxpack HostJit HostJitLaws HostRun HostRunThms.

(** ** The two worlds *)

Definition loaded_of (jm : JMod) : Loaded := {| hl_module := jm_module jm; hl_atom_map := jm_atom_map jm |}.

(** The same program at the same point: the compiled world has code addresses and a call stack for messages, the
    interpreted one buffers and a call depth. *)
Record same_world (w : World) (j : JWorld) : Prop := {
  sw_atoms : w_atoms w = jw_atoms j;
  sw_modules : w_modules w = loaded_of <$> jw_modules j;
  sw_heap : w_heap w = jw_heap j;
  sw_tail : w_tail w = jw_tail j;
  sw_out : w_out w = jw_out j;
  sw_clock : w_clock w = jw_clock j;
}.

(** The module makes no use of buffers, which only the interpreter's mode has. *)
Definition no_buffers (m : Module_) : Prop :=
  Forall (fun o => ~ uses m o) [op.BUF_NEW; op.BUF_READ; op.BUF_WRITE; op.BUF_TO_BIN; op.BIN_TO_BUF].

Section sim.
Context (exec : Z -> list Term -> M JWorld Trap Term) (hops : nat) (call : Z -> Z -> list Term -> M World Trap Term) (jm : JMod).

(** Calls into other modules are followed: the induction hypothesis over the depth of such calls. *)
Definition calls_follow : Prop := forall ma fa xs, osim same_world (call ma fa xs) (Host.call_ext exec hops ma fa xs).

Lemma host_sim : no_buffers (jm_module jm) -> (uses (jm_module jm) op.CALL_EXT -> calls_follow) ->
  ApiSim (HostApi call (loaded_of jm)) (JitHostApi exec hops jm) (jm_module jm) same_world.
Proof using Type.
  intros Hb Hcall. unfold no_buffers in Hb. rewrite !Forall_cons in Hb. destruct Hb as (B1 & B2 & B3 & B4 & B5 & _).
  split; cbn; try (intros; by apply osim_throw); try (intros; by apply osim_ret); try done.
  - by intros w j [].
  - intros h w j []. by split.
  - intros w j []. by rewrite sw_clock0.
  - intros t w j []. split; cbn; congruence.
  - intros ma fa xs w j []. by split.
  - intros i xs w j []. by split.
  - intros ma fa xs Hu. by apply Hcall.
Qed.
End sim.

(** ** Properties *)

Section agree.
Context {CI : Clif} {CW : ClifLaws} {X : Type}.
Context (exec : Z -> list Term -> M JWorld Trap Term) (hops : nat) (text : Z -> Z -> option (list byte)) (jm : JMod) (code_ptr : Z -> Z).

(** The compiled functions on the host's helper table. *)
Definition run_on_host (prog : list CodeUnit) (fuel : nat) : Z -> list Term -> M JWorld Trap Term :=
  icall (run_foreign (NativeApi0 := HostNative exec hops text)) prog fuel.

(** C23: The two modes of the development host agree.  Take a verified module that uses no buffers and
    neither sleeps, receives nor spawns, and interpret one of its functions with the services of the
    interpreter mode ([HostApi]): if that returns a term, then the compiled function, run in the same world with
    every helper served by the table of the compiled mode and every sibling call by the sibling's translation,
    returns the same term and ends in the same world: the same heap, atoms, modules, output and stashed tail
    call.  If the module calls other modules, those calls are assumed to agree and to keep the
    worlds well formed. *)
Theorem host_jit_agrees pcrel resolver ar_of prog depth fuel i f xs (w w' : World) (j : JWorld) v :
  host_calls_ok exec hops jm -> (uses (jm_module jm) op.CALL_EXT -> calls_follow exec hops (host_call_ext depth fuel)) ->
  resolver_ok (X:=X) resolver (fun _ _ => None) ar_of -> compilable (jm_module jm) (jm_atom_map jm) ->
  Forall (fun g => 0 <= g < 2 ^ 32) (jm_atom_map jm) -> text_of text (jm_module jm) code_ptr ->
  ~ uses (jm_module jm) op.SLEEP_MS -> no_buffers (jm_module jm) -> quiet (jm_module jm) ->
  compiled resolver (jm_module jm) (jm_atom_map jm) pcrel code_ptr prog ->
  lookupz (functions (jm_module jm)) i = Some f -> zlen xs = arity f ->
  wgood w -> world_ok j -> same_world w j -> Forall (wvalid w) xs ->
  run_function (SystemApi0 := HostApi (host_call_ext depth fuel) (loaded_of jm)) (jm_module jm) fuel i xs w = (Ok v, w') ->
  exists j', same_world w' j' /\ exists N, forall n, (N <= n)%nat -> run_on_host prog n i xs j = (Ok v, j').
Proof using CW.
  intros Hcalls Hfol [R1 R2 R3] [C1 C2 C3] Ha Ht Hns Hnb Hq Hp Hf Hn Hw Hj Hsame Hxs Hint. apply verify_iff in C1.
  assert (Hlen : forall k g, lookupz (functions (jm_module jm)) k = Some g -> zlen (code g) < 2 ^ 64) by (intros k g Hg; specialize (C3 k g Hg); lia).
  destruct (@sim_run _ _ (HostApi (host_call_ext depth fuel) (loaded_of jm)) (JitHostApi exec hops jm) _ same_world
    (host_sim exec hops _ jm Hnb Hfol) _ (host_laws _ (loaded_of jm) (host_call_ext_ok depth fuel) Hq) C1 Hlen fuel i f xs w w' j v Hf (eq_sym Hn) Hw Hxs Hsame Hint)
    as (j' & Hrun & Hsame').
  exists j'. split; [done|]. pose proof (host_helper_laws exec hops text jm code_ptr Ha Hns Ht) as HL. pose (AL := host_api_laws exec hops jm Hcalls).
  assert (Hxs' : Forall (valid_in (jw_heap j)) xs) by (rewrite <- (sw_heap _ _ Hsame); exact Hxs).
  assert (Hrun' : native_run (SystemApi0 := JitHostApi exec hops jm) (NativeApi0 := HostNative exec hops text)
    (fun _ _ => throw Badarg) (fun _ _ => None) (jm_module jm) fuel i xs j = (Ok v, j')).
  { by eapply (@native_run_agrees _ (JitHostApi exec hops jm) (HostNative exec hops text) _ _ _ AL). }
  rewrite <- Hrun'. eapply (icall_sim (HL := HL) resolver _ (jm_module jm) ar_of (jm_atom_map jm) pcrel code_ptr); try done.
  exact (f_equal (fun x => ran x.1) Hrun').
Qed.
End agree.

(** *** Witness: the sample module, alone in the world *)

Lemma demo_same_world : same_world host_boot demo_world.
Proof. by split. Qed.

Lemma host_boot_good : wgood host_boot.
Proof. split; [exact sample_heap_ok|done|done]. Qed.

Lemma host_jit_agrees_witness : exists j', same_world host_boot j' /\ exists N, forall n, (N <= n)%nat ->
  run_on_host (CI := word_clif) no_exec 1 demo_text demo_prog n 1 [term_int 3] demo_world = (Ok (term_int 0), j').
Proof.
  apply (host_jit_agrees (CI := word_clif) (CW := word_clif_laws) no_exec 1 demo_text demo_jm demo_ptr true no_resolver (fun _ => 0) demo_prog 1 20
    1 {| name_atom := 1; arity := 1; nregs := 2; code := loop_code |} [term_int 3] host_boot host_boot demo_world).
  - exact no_exec_calls.
  - intros Hu. exfalso. revert Hu. apply not_used. by vm_compute.
  - apply no_resolver_ok.
  - apply demo_compilable.
  - repeat constructor; lia.
  - apply demo_text_of.
  - apply not_used. by vm_compute.
  - repeat (apply Forall_cons_2; [apply not_used; by vm_compute|]). apply Forall_nil_2.
  - exact demo_quiet.
  - apply demo_compiled.
  - by vm_compute.
  - by vm_compute.
  - exact host_boot_good.
  - exact demo_world_ok.
  - exact demo_same_world.
  - constructor; [|constructor]. apply wvalid_int.
  - vm_compute. reflexivity.
Defined.

(** *** Where the modes differ *)

(** A buffer of eight bytes: the interpreter mode makes one, the compiled mode's helper ends the program. *)
Example compiled_mode_has_no_buffers :
  (buf_new (SystemApi := HostApi (host_call_ext 1 1) (loaded_of demo_jm)) (term_int 8) host_boot).1 = Ok (term_int 1) /\
  (host_table no_exec 1 demo_text 1 ∅ Helper.BufNew [term_int 8] demo_world).1 = Err Badarg.
Proof. by split. Qed.
