(* ===== verification/Asm.v ===== *)
(** * Asm: the text assembler

    Models [tools/ygg-asm/src/main.rs].  A [&str] is its list of Unicode scalar
    values; the [String]s that reach the module are its UTF-8 bytes.  The
    assembler makes one pass over the lines of a function, with the code
    builder, the label names, the next label id and the atom table as state;
    indexing the operand list past its end panics, everything else that goes
    wrong is an error value. *)

From stdpp Require Import strings.
From S2P Require Import Prelude Bytecode.

(** ** Text *)

Abbreviation str := (list Z) (only parsing).

(** A string literal of the source. *)
Fixpoint lit (s : string) : str :=
  match s with
  | EmptyString => []
  | String a s' => Z.of_N (Ascii.N_of_ascii a) :: lit s'
  end.

(** [char::is_whitespace]: the code points with the White_Space property. *)
Definition is_whitespace (c : Z) : bool :=
  bool_decide (9 <= c <= 13) || bool_decide (c = 32) || bool_decide (c = 133) || bool_decide (c = 160) ||
  bool_decide (c = 5760) || bool_decide (8192 <= c <= 8202) || bool_decide (c = 8232) ||
  bool_decide (c = 8233) || bool_decide (c = 8239) || bool_decide (c = 8287) || bool_decide (c = 12288).

Fixpoint trim_start_by (p : Z -> bool) (s : str) : str :=
  match s with
  | [] => []
  | c :: s' => if p c then trim_start_by p s' else s
  end.
Definition trim_end_by (p : Z -> bool) (s : str) : str := reverse (trim_start_by p (reverse s)).
(** [str::trim] *)
Definition trim (s : str) : str := trim_end_by is_whitespace (trim_start_by is_whitespace s).
(** [str::trim_end_matches(c)] *)
Definition trim_end_matches (c : Z) : str -> str := trim_end_by (Z.eqb c).

(** [str::split_once]: around the first character the pattern accepts. *)
Fixpoint split_once (p : Z -> bool) (s : str) : option (str * str) :=
  match s with
  | [] => None
  | c :: s' => if p c then Some ([], s') else prod_map (cons c) id <$> split_once p s'
  end.

(** [str::split]: the pieces between separators, never empty. *)
Fixpoint split_on (p : Z -> bool) (s : str) : list str :=
  match s with
  | [] => [[]]
  | c :: s' =>
      if p c then [] :: split_on p s'
      else match split_on p s' with
           | [] => [[c]]
           | piece :: pieces => (c :: piece) :: pieces
           end
  end.

Fixpoint strip_prefix (p s : str) : option str :=
  match p, s with
  | [], _ => Some s
  | _ :: _, [] => None
  | a :: p', b :: s' => if Z.eqb a b then strip_prefix p' s' else None
  end.
(** [str::strip_suffix(c)] *)
Definition strip_suffix (c : Z) (s : str) : option str :=
  match reverse s with
  | d :: s' => if Z.eqb c d then Some (reverse s') else None
  | [] => None
  end.

(** [str::lines]: a final line feed does not open another line, and a carriage
    return before a line feed belongs to the line ending. *)
Definition lines (s : str) : list str :=
  let pieces := split_on (Z.eqb 10) s in
  let closed := map (fun l => default l (strip_suffix 13 l)) (removelast pieces) in
  match list.last pieces with
  | None | Some [] => closed
  | Some l => closed ++ [l]
  end.

(** The UTF-8 bytes of a [String]. *)
Definition utf8_char (c : Z) : list byte :=
  if bool_decide (c < 128) then [z2b c]
  else if bool_decide (c < 2048) then [z2b (192 + c / 64); z2b (128 + c mod 64)]
  else if bool_decide (c < 65536) then [z2b (224 + c / 4096); z2b (128 + c / 64 mod 64); z2b (128 + c mod 64)]
  else [z2b (240 + c / 262144); z2b (128 + c / 4096 mod 64); z2b (128 + c / 64 mod 64); z2b (128 + c mod 64)].
Definition utf8 (s : str) : list byte := concat (map utf8_char s).

(** ** Numbers *)

Inductive IntErrorKind := EmptyInt | InvalidDigit | PosOverflow | NegOverflow.

Definition to_digit (c : Z) : option Z := if bool_decide (48 <= c <= 57) then Some (c - 48) else None.

(** The digit loop of [from_str_radix]; [neg] subtracts the digits. *)
Fixpoint parse_digits (lo hi : Z) (neg : bool) (acc : Z) (s : str) : res IntErrorKind Z :=
  match s with
  | [] => Ok acc
  | c :: s' =>
      match to_digit c with
      | None => Err InvalidDigit
      | Some d =>
          let acc' := if neg then acc * 10 - d else acc * 10 + d in
          if bool_decide (lo <= acc * 10 <= hi /\ lo <= acc' <= hi) then parse_digits lo hi neg acc' s'
          else Err (if neg then NegOverflow else PosOverflow)
      end
  end.

(** [str::parse] at the integer type with the bounds [lo] and [hi]: a plus sign
    is accepted at every type, a minus sign at the signed ones. *)
Definition parse_int (lo hi : Z) (s : str) : res IntErrorKind Z :=
  match s with
  | [] => Err EmptyInt
  | [c] => if bool_decide (c = 43 \/ c = 45) then Err InvalidDigit else parse_digits lo hi false 0 s
  | c :: rest =>
      if bool_decide (c = 43) then parse_digits lo hi false 0 rest
      else if bool_decide (c = 45 /\ lo < 0) then parse_digits lo hi true 0 rest
      else parse_digits lo hi false 0 s
  end.
Definition parse_u8 : str -> res IntErrorKind Z := parse_int 0 255.
Definition parse_i64 : str -> res IntErrorKind Z := parse_int (- 2 ^ 63) (2 ^ 63 - 1).

(** [format!("{}", n)] of a [u8]. *)
Definition show_u8 (n : Z) : str :=
  if bool_decide (n < 10) then [48 + n]
  else if bool_decide (n < 100) then [48 + n / 10; 48 + n mod 10]
  else [48 + n / 100; 48 + n / 10 mod 10; 48 + n mod 10].

(** ** Errors, atoms and declarations *)

Inductive AsmError :=
| NestedFn (ln : Z)
| NeedsRegs
| NeedsArity
| ExpectedRegs
| ParseInt (k : IntErrorKind)
| StrayBrace
| CodeOutsideFn (ln : Z) (line : str)
| UnclosedFn
| DuplicateFunction (key : str)
| BadRegisterName (ln : Z) (s : str)
| UnknownFn (ln : Z) (s : str)
| UnknownMnemonic (ln : Z) (mnem : str)
| UnboundLabel (id : Z)
| InFn (name : str) (arity : Z) (e : AsmError).

(** [Atoms]: the names in order and their indices. *)
Record AtomTab := { at_names : list str; at_index : gmap str Z }.
Definition AtomTab_default : AtomTab := {| at_names := []; at_index := ∅ |}.

(** [Atoms::intern] *)
Definition asm_intern (s : str) (t : AtomTab) : Z * AtomTab :=
  match at_index t !! s with
  | Some i => (i, t)
  | None =>
      let i := u32w (zlen (at_names t)) in
      (i, {| at_names := at_names t ++ [s]; at_index := <[s := i]> (at_index t) |})
  end.

Record FnDecl := { d_name : str; d_arity : Z; d_nregs : Z; d_body : list (Z * str) }.

(** [with_context] on an option, and [?] on a parse. *)
Definition parsed {S A} (r : res IntErrorKind A) : M S AsmError A :=
  map_err ParseInt (lift r).

(** ** Splitting the text into functions *)

Record ScanState := { decls : list FnDecl; cur : option FnDecl }.
Definition set_cur (c : option FnDecl) (s : ScanState) : ScanState := {| decls := decls s; cur := c |}.
Abbreviation SM := (M ScanState AsmError).

(** A [fn] header, its keyword stripped. *)
Definition fn_header (ln : Z) (rest : str) : SM unit :=
  s ← get;
  _ ← fail_if (bool_decide (is_Some (cur s))) (NestedFn (ln + 1));
  let rest := trim (trim_end_matches 123 rest) in
  '(sig, regs) ← ok_or (split_once (Z.eqb 32) rest) NeedsRegs;
  '(name, ar) ← ok_or (split_once (Z.eqb 47) sig) NeedsArity;
  n ← ok_or (strip_prefix (lit "regs=") regs) ExpectedRegs;
  nregs ← parsed (parse_u8 n);
  ar ← parsed (parse_u8 ar);
  modify (set_cur (Some {| d_name := name; d_arity := ar; d_nregs := nregs; d_body := [] |})).

(** A [}] closes the current function. *)
Definition close_fn : SM unit :=
  s ← get;
  d ← ok_or (cur s) StrayBrace;
  modify (fun s => {| decls := decls s ++ [d]; cur := None |}).

(** Any other line belongs to the current function. *)
Definition body_line (ln : Z) (line : str) : SM unit :=
  s ← get;
  d ← ok_or (cur s) (CodeOutsideFn (ln + 1) line);
  modify (set_cur (Some {| d_name := d_name d; d_arity := d_arity d; d_nregs := d_nregs d;
                           d_body := d_body d ++ [(ln + 1, line)] |})).

Definition scan_line (l : Z * str) : SM unit :=
  let '(ln, raw) := l in
  let line := trim (default [] (list.head (split_on (Z.eqb 59) raw))) in
  if bool_decide (line = []) || bool_decide (is_Some (strip_prefix (lit "module ") line)) then mret tt
  else match strip_prefix (lit "fn ") line with
       | Some rest => fn_header ln rest
       | None => if bool_decide (line = lit "}") then close_fn else body_line ln line
       end.

(** [iter().enumerate()] *)
Fixpoint enumerate {A} (i : Z) (l : list A) : list (Z * A) :=
  match l with [] => [] | x :: l' => (i, x) :: enumerate (i + 1) l' end.

Definition scan_source (src : str) : SM (list FnDecl) :=
  _ ← for_each (enumerate 0 (lines src)) scan_line;
  s ← get;
  _ ← fail_if (bool_decide (is_Some (cur s))) UnclosedFn;
  mret (decls s).

Definition scan_decls (src : str) : res AsmError (list FnDecl) :=
  (scan_source src {| decls := []; cur := None |}).1.

(** ** Resolution of function names *)

Definition fn_key (d : FnDecl) : str := d_name d ++ lit "/" ++ show_u8 (d_arity d).

Abbreviation fn_map := (gmap str (Z * Z)).

Fixpoint index_fns (i : Z) (ds : list FnDecl) (fns : fn_map) : res AsmError fn_map :=
  match ds with
  | [] => Ok fns
  | d :: ds' =>
      match fns !! fn_key d with
      | Some _ => Err (DuplicateFunction (fn_key d))
      | None => index_fns (i + 1) ds' (<[fn_key d := (u32w i, d_arity d)]> fns)
      end
  end.

(** ** Assembling one function *)

Record FnState := { fs_b : CodeBuilder; fs_labels : gmap str Z; fs_next : Z; fs_atoms : AtomTab }.
Abbreviation FM := (M FnState AsmError).

Definition on_builder (g : CodeBuilder -> CodeBuilder) : FM unit :=
  modify (fun s => {| fs_b := g (fs_b s); fs_labels := fs_labels s; fs_next := fs_next s; fs_atoms := fs_atoms s |}).
Definition e8 (v : Z) : FM unit := on_builder (emit_u8 v).
Definition e32 (v : Z) : FM unit := on_builder (emit_u32 v).
Definition e64 (v : Z) : FM unit := on_builder (emit_i64 v).

(** The [label_id] closure; the tool is built with overflow checks. *)
Definition label_id (name : str) : FM Z := fun s =>
  match fs_labels s !! name with
  | Some i => (Ok i, s)
  | None =>
      if bool_decide (fs_next s + 1 < 2 ^ 32) then
        (Ok (fs_next s), {| fs_b := fs_b s; fs_labels := <[name := fs_next s]> (fs_labels s);
                            fs_next := fs_next s + 1; fs_atoms := fs_atoms s |})
      else (Panic, s)
  end.

(** [atoms.intern(..)] *)
Definition intern_m (name : str) : FM Z := fun s =>
  let '(i, t) := asm_intern name (fs_atoms s) in
  (Ok i, {| fs_b := fs_b s; fs_labels := fs_labels s; fs_next := fs_next s; fs_atoms := t |}).

(** The value the [reg] closure parses. *)
Definition reg_of (s : str) : option Z :=
  match strip_prefix (lit "r") s with
  | Some n => match parse_u8 n with Ok r => Some r | _ => None end
  | None => None
  end.

Section line.
Context (fns : fn_map) (ln : Z) (ops : list str).

(** [ops[i]] *)
Definition opn (i : nat) : FM str := unwrap (ops !! i).
Definition reg (s : str) : FM Z := ok_or (reg_of s) (BadRegisterName ln s).
Definition fnref (s : str) : FM Z := ok_or (fst <$> fns !! s) (UnknownFn ln s).

(** [.u8(reg(ops[i])?)] *)
Definition e_reg (i : nat) : FM unit := s ← opn i; r ← reg s; e8 r.
(** [.u8(ops[i].parse()?)] *)
Definition e_byte (i : nat) : FM unit := s ← opn i; v ← parsed (parse_u8 s); e8 v.
(** [.u32(fnref(ops[i])?)] *)
Definition e_fnref (i : nat) : FM unit := s ← opn i; v ← fnref s; e32 v.
(** [for r in &ops[k..] { b.u8(reg(r)?); }] *)
Definition e_regs_from (k : nat) : FM unit := for_each (drop k ops) (fun s => r ← reg s; e8 r).

(** *** The arms *)

Definition a_nop : FM unit := e8 op.NOP.
Definition a_load_int : FM unit :=
  _ ← e8 op.LOAD_INT; _ ← e_reg 0; s ← opn 1; v ← parsed (parse_i64 s); e64 v.
Definition a_load_atom : FM unit :=
  s ← opn 1; a ← intern_m s; _ ← e8 op.LOAD_ATOM; _ ← e_reg 0; e32 a.
Definition a_reg1 (o : Z) : FM unit := _ ← e8 o; e_reg 0.
Definition a_reg2 (o : Z) : FM unit := _ ← e8 o; _ ← e_reg 0; e_reg 1.
Definition a_reg3 (o : Z) : FM unit := _ ← e8 o; _ ← e_reg 0; _ ← e_reg 1; e_reg 2.
Definition a_make_tuple : FM unit :=
  _ ← e8 op.MAKE_TUPLE; _ ← e_reg 0; _ ← e8 (zlen ops - 1); e_regs_from 1.
Definition a_get_elem : FM unit := _ ← e8 op.GET_ELEM; _ ← e_reg 0; _ ← e_reg 1; e_byte 2.
Definition a_jmp : FM unit :=
  s ← opn 0; id ← label_id s; _ ← e8 op.JMP; on_builder (label_ref id).
Definition a_jmp_if : FM unit :=
  s ← opn 1; id ← label_id s; _ ← e8 op.JMP_IF; _ ← e_reg 0; on_builder (label_ref id).
Definition a_call : FM unit :=
  _ ← e8 op.CALL; _ ← e_reg 0; _ ← e_fnref 1; _ ← e8 (zlen ops - 2); e_regs_from 2.
Definition a_spawn : FM unit := _ ← e8 op.SPAWN; _ ← e_reg 0; _ ← e_fnref 1; e_reg 2.
Definition a_port_open : FM unit := _ ← e8 op.PORT_OPEN; _ ← e_reg 0; e_byte 1.
Definition a_call_ext : FM unit :=
  s1 ← opn 1; m ← intern_m s1;
  s2 ← opn 2; f2 ← intern_m s2;
  _ ← e8 op.CALL_EXT; _ ← e_reg 0; _ ← e32 m; _ ← e32 f2; _ ← e8 (zlen ops - 3); e_regs_from 3.
Definition a_port_submit : FM unit :=
  _ ← e8 op.PORT_SUBMIT; _ ← e_reg 0; _ ← e_byte 1; _ ← e_reg 2; e_reg 3.

(** The arms of the [match] on the mnemonic, in the order of the source. *)
Definition asm_arms : list (string * FM unit) :=
  [ ("nop", a_nop);
    ("load_int", a_load_int);
    ("load_atom", a_load_atom);
    ("load_nil", a_reg1 op.LOAD_NIL);
    ("move", a_reg2 op.MOVE);
    ("self", a_reg1 op.SELF_PID);
    ("make_tuple", a_make_tuple);
    ("get_elem", a_get_elem);
    ("cons", a_reg3 op.CONS);
    ("head", a_reg2 op.HEAD);
    ("tail", a_reg2 op.TAIL);
    ("add", a_reg3 op.ADD);
    ("sub", a_reg3 op.SUB);
    ("mul", a_reg3 op.MUL);
    ("eq", a_reg3 op.CMP_EQ);
    ("lt", a_reg3 op.CMP_LT);
    ("jmp", a_jmp);
    ("jmp_if", a_jmp_if);
    ("call", a_call);
    ("ret", a_reg1 op.RET);
    ("spawn", a_spawn);
    ("send", a_reg2 op.SEND);
    ("recv", a_reg1 op.RECV);
    ("print", a_reg1 op.PRINT);
    ("exit_atom", a_reg1 op.EXIT_ATOM);
    ("port_open", a_port_open);
    ("call_ext", a_call_ext);
    ("port_submit", a_port_submit) ]%string.
End line.

(** A Rust [match] on a string: the first arm with that literal. *)
Fixpoint select_str {A} (x : str) (arms : list (string * A)) (otherwise : A) : A :=
  match arms with
  | [] => otherwise
  | (p, body) :: arms' => if bool_decide (x = lit p) then body else select_str x arms' otherwise
  end.

(** The mnemonic and the operands of a line. *)
Definition line_parts (line : str) : str * list str :=
  let '(mnem, rest) := default (line, []) (split_once is_whitespace line) in
  (mnem, filter (fun s => s <> []) (map trim (split_on (Z.eqb 44) rest))).

Definition asm_line (fns : fn_map) (l : Z * str) : FM unit :=
  let '(ln, line) := l in
  match strip_suffix 58 line with
  | Some name => id ← label_id name; on_builder (bind_label id)
  | None =>
      let '(mnem, ops) := line_parts line in
      select_str mnem (asm_arms fns ln ops) (throw (UnknownMnemonic ln mnem))
  end.

Definition assemble_fn_m (d : FnDecl) (fns : fn_map) : FM (list byte) :=
  _ ← for_each (d_body d) (asm_line fns);
  s ← get;
  map_err UnboundLabel (lift (finish (fs_b s))).

(** The code of the function and the atom table after it. *)
Definition assemble_fn (d : FnDecl) (fns : fn_map) (t : AtomTab) : res AsmError (list byte) * AtomTab :=
  let '(r, s) := assemble_fn_m d fns
    {| fs_b := CodeBuilder_new; fs_labels := ∅; fs_next := 0; fs_atoms := t |} in
  (r, fs_atoms s).

(** ** Assembling a file *)

Definition intern_t (name : str) : M AtomTab AsmError Z := fun t =>
  let '(i, t') := asm_intern name t in (Ok i, t').

Definition add_function (fns : fn_map) (d : FnDecl) : M AtomTab AsmError Function :=
  c ← map_err (InFn (d_name d) (d_arity d)) (assemble_fn d fns);
  na ← intern_t (d_name d);
  mret {| name_atom := na; arity := d_arity d; nregs := d_nregs d; code := c |}.

Fixpoint add_functions (fns : fn_map) (ds : list FnDecl) : M AtomTab AsmError (list Function) :=
  match ds with
  | [] => mret []
  | d :: ds' => f ← add_function fns d; fs ← add_functions fns ds'; mret (f :: fs)
  end.

Definition assemble (src : str) : res AsmError Module_ :=
  ds ← scan_decls src;
  fns ← index_fns 0 ds ∅;
  match add_functions fns ds AtomTab_default with
  | (r, t) => fs ← r; Ok {| atoms := map utf8 (at_names t); functions := fs |}
  end.

(** What [main] writes to the output file. *)
Definition asm_output (src : str) : res AsmError (list byte) := m ← assemble src; Ok (encode m).
