(* ===== verification/AsmRef.v ===== *)
(** * AsmRef: a two-pass reference assembler

    The reference reads a function's lines into structured instructions with a
    syntax table ([mnemonics]: opcode, operand shapes), lays them out, and
    resolves jumps from the table of label offsets.  The one-pass assembler of
    [ygg-asm] (placeholders patched at the end, labels numbered and atoms
    interned on the way) reads every line as the reference does, and fails
    exactly where it does. *)

From stdpp Require Import strings.
From S2P Require Import Prelude Bytecode BytecodeAnalysis Asm.

(** ** Structured instructions *)

Inductive shape := SReg | SByte | SInt | SAtom | SRegs | SCall | SSpawn | SJump.

#[export] Instance shape_eq_dec : EqDecision shape.
Proof. solve_decision. Defined.

(** Operands; atoms and labels by name, functions by index. *)
Inductive arg :=
| AReg (r : Z)
| AByte (v : Z)
| AInt (v : Z)
| AAtom (name : list Z)
| ARegs (rs : list Z)
| ACall (callee : Z) (rs : list Z)
| ASpawn (callee : Z)
| AJump (name : list Z).

Inductive aitem := LBind (name : list Z) | LIns (o : Z) (args : list arg).

(** The syntax: mnemonic, opcode, how many operands must be there before any of
    them is read, and the operand shapes. *)
Record row := { r_mnem : string; r_op : Z; r_first : nat; r_shapes : list shape }.
Definition mk (m : string) (o : Z) (n : nat) (sh : list shape) : row :=
  {| r_mnem := m; r_op := o; r_first := n; r_shapes := sh |}.

Definition mnemonics : list row :=
  [ mk "nop" op.NOP 0 [];
    mk "load_int" op.LOAD_INT 0 [SReg; SInt];
    mk "load_atom" op.LOAD_ATOM 2 [SReg; SAtom];
    mk "load_nil" op.LOAD_NIL 0 [SReg];
    mk "move" op.MOVE 0 [SReg; SReg];
    mk "self" op.SELF_PID 0 [SReg];
    mk "make_tuple" op.MAKE_TUPLE 0 [SReg; SRegs];
    mk "get_elem" op.GET_ELEM 0 [SReg; SReg; SByte];
    mk "cons" op.CONS 0 [SReg; SReg; SReg];
    mk "head" op.HEAD 0 [SReg; SReg];
    mk "tail" op.TAIL 0 [SReg; SReg];
    mk "add" op.ADD 0 [SReg; SReg; SReg];
    mk "sub" op.SUB 0 [SReg; SReg; SReg];
    mk "mul" op.MUL 0 [SReg; SReg; SReg];
    mk "eq" op.CMP_EQ 0 [SReg; SReg; SReg];
    mk "lt" op.CMP_LT 0 [SReg; SReg; SReg];
    mk "jmp" op.JMP 0 [SJump];
    mk "jmp_if" op.JMP_IF 2 [SReg; SJump];
    mk "call" op.CALL 0 [SReg; SCall];
    mk "ret" op.RET 0 [SReg];
    mk "spawn" op.SPAWN 0 [SReg; SSpawn; SReg];
    mk "send" op.SEND 0 [SReg; SReg];
    mk "recv" op.RECV 0 [SReg];
    mk "print" op.PRINT 0 [SReg];
    mk "exit_atom" op.EXIT_ATOM 0 [SReg];
    mk "port_open" op.PORT_OPEN 0 [SReg; SByte];
    mk "call_ext" op.CALL_EXT 3 [SReg; SAtom; SAtom; SRegs];
    mk "port_submit" op.PORT_SUBMIT 0 [SReg; SByte; SReg; SReg] ].

Section parse.
Context (fns : gmap (list Z) (Z * Z)) (ln : Z) (ops : list (list Z)).
Abbreviation R := (res AsmError).

Definition get_op (k : nat) : R (list Z) := match ops !! k with Some s => Ok s | None => Panic end.
Definition get_reg (s : list Z) : R Z :=
  match reg_of s with Some r => Ok r | None => Err (BadRegisterName ln s) end.
Definition get_fn (s : list Z) : R Z :=
  match fns !! s with Some (i, _) => Ok i | None => Err (UnknownFn ln s) end.
Definition get_int (r : res IntErrorKind Z) : R Z :=
  match r with Ok v => Ok v | Err k => Err (ParseInt k) | Panic => Panic | NoFuel => NoFuel end.
Definition get_regs (k : nat) : R (list Z) := mapM get_reg (drop k ops).

Definition ref_arg (k : nat) (sh : shape) : R arg :=
  match sh with
  | SReg => s ← get_op k; r ← get_reg s; Ok (AReg r)
  | SByte => s ← get_op k; v ← get_int (parse_u8 s); Ok (AByte v)
  | SInt => s ← get_op k; v ← get_int (parse_i64 s); Ok (AInt v)
  | SAtom => s ← get_op k; Ok (AAtom s)
  | SRegs => rs ← get_regs k; Ok (ARegs rs)
  | SCall => s ← get_op k; i ← get_fn s; rs ← get_regs (S k); Ok (ACall i rs)
  | SSpawn => s ← get_op k; i ← get_fn s; Ok (ASpawn i)
  | SJump => s ← get_op k; Ok (AJump s)
  end.

Fixpoint ref_args (k : nat) (shs : list shape) : R (list arg) :=
  match shs with
  | [] => Ok []
  | sh :: shs' => a ← ref_arg k sh; as_ ← ref_args (S k) shs'; Ok (a :: as_)
  end.

Definition ref_row (r : row) : R aitem :=
  if bool_decide (r_first r <= length ops)%nat then as_ ← ref_args 0 (r_shapes r); Ok (LIns (r_op r) as_)
  else Panic.
End parse.

Definition find_row (mnem : list Z) : option row :=
  list.head (filter (fun r => mnem = lit (r_mnem r)) mnemonics).

Definition ref_line (fns : gmap (list Z) (Z * Z)) (l : Z * list Z) : res AsmError aitem :=
  match strip_suffix 58 l.2 with
  | Some name => Ok (LBind name)
  | None =>
      match find_row (line_parts l.2).1 with
      | Some r => ref_row fns l.1 (line_parts l.2).2 r
      | None => Err (UnknownMnemonic l.1 (line_parts l.2).1)
      end
  end.

Definition ref_lines (fns : gmap (list Z) (Z * Z)) (body : list (Z * list Z)) : res AsmError (list aitem) :=
  mapM (ref_line fns) body.

(** ** Layout *)

Definition arg_len (a : arg) : Z :=
  match a with
  | AReg _ | AByte _ => 1
  | AInt _ => 8
  | AAtom _ | ASpawn _ | AJump _ => 4
  | ARegs rs => 1 + zlen rs
  | ACall _ rs => 5 + zlen rs
  end.
Definition args_len (as_ : list arg) : Z := foldr (fun a n => arg_len a + n) 0 as_.
Definition item_len (it : aitem) : Z := match it with LBind _ => 0 | LIns _ as_ => 1 + args_len as_ end.

(** Where each label ends up, the last binding of a name counting. *)
Fixpoint label_offs (pos : Z) (items : list aitem) (offs : gmap (list Z) Z) : gmap (list Z) Z :=
  match items with
  | [] => offs
  | it :: items' =>
      label_offs (pos + item_len it) items'
        (match it with LBind n => <[n := pos]> offs | LIns _ _ => offs end)
  end.

Definition arg_jump (a : arg) : list (list Z) := match a with AJump n => [n] | _ => [] end.
Definition arg_atom (a : arg) : list (list Z) := match a with AAtom n => [n] | _ => [] end.
Definition item_args (it : aitem) : list arg := match it with LBind _ => [] | LIns _ as_ => as_ end.
Definition item_jumps (it : aitem) : list (list Z) := concat (map arg_jump (item_args it)).
Definition item_atoms (it : aitem) : list (list Z) := concat (map arg_atom (item_args it)).

Section bytes.
Context (offs A : list Z -> Z).

Definition arg_bytes (pos : Z) (a : arg) : list byte :=
  match a with
  | AReg r => [z2b r]
  | AByte v => [z2b v]
  | AInt v => le_bytes 8 v
  | AAtom n => le_bytes 4 (A n)
  | ARegs rs => z2b (zlen rs) :: map z2b rs
  | ACall i rs => le_bytes 4 i ++ z2b (zlen rs) :: map z2b rs
  | ASpawn i => le_bytes 4 i
  | AJump n => le_bytes 4 (offs n - (pos + 4))
  end.

Fixpoint args_bytes (pos : Z) (as_ : list arg) : list byte :=
  match as_ with
  | [] => []
  | a :: as' => arg_bytes pos a ++ args_bytes (pos + arg_len a) as'
  end.

Definition item_bytes (pos : Z) (it : aitem) : list byte :=
  match it with
  | LBind _ => []
  | LIns o as_ => z2b o :: args_bytes (pos + 1) as_
  end.

Fixpoint items_bytes (pos : Z) (items : list aitem) : list byte :=
  match items with
  | [] => []
  | it :: items' => item_bytes pos it ++ items_bytes (pos + item_len it) items'
  end.
End bytes.

(** The index of a name in a table. *)
Definition index_in (m : gmap (list Z) Z) (n : list Z) : Z := default 0 (m !! n).

Definition intern_all (t : AtomTab) (names : list (list Z)) : AtomTab :=
  foldl (fun t n => (asm_intern n t).2) t names.

(** The first jump to a name that no line binds. *)
Definition first_unbound (items : list aitem) : option (list Z) :=
  list.head (filter (fun n => label_offs 0 items ∅ !! n = None) (concat (map item_jumps items))).

Definition ref_atoms (t : AtomTab) (items : list aitem) : AtomTab :=
  intern_all t (concat (map item_atoms items)).
Definition ref_code (t : AtomTab) (items : list aitem) : list byte :=
  items_bytes (index_in (label_offs 0 items ∅)) (index_in (at_index (ref_atoms t items))) 0 items.

(** ** One line of the assembler *)

(** What a line does to the state: its labels and atoms are entered, then its
    bytes emitted. *)
Definition intern_label (n : list Z) (s : FnState) : FnState := (label_id n s).2.
Definition intern_name (n : list Z) (s : FnState) : FnState := (intern_m n s).2.

Section ops.
Context (L A : gmap (list Z) Z).

Definition arg_ops (a : arg) : list builder_op :=
  match a with
  | AReg r => [B_u8 r]
  | AByte v => [B_u8 v]
  | AInt v => [B_i64 v]
  | AAtom n => [B_u32 (index_in A n)]
  | ARegs rs => B_u8 (zlen rs) :: map B_u8 rs
  | ACall i rs => B_u32 i :: B_u8 (zlen rs) :: map B_u8 rs
  | ASpawn i => [B_u32 i]
  | AJump n => [B_label_ref (index_in L n)]
  end.

Definition item_ops (it : aitem) : list builder_op :=
  match it with
  | LBind n => [B_bind (index_in L n)]
  | LIns o as_ => B_u8 o :: concat (map arg_ops as_)
  end.
End ops.

Definition item_labels (it : aitem) : list (list Z) :=
  match it with LBind n => [n] | LIns _ _ => item_jumps it end.

Definition enter (it : aitem) (s : FnState) : FnState :=
  foldl (fun s n => intern_name n s) (foldl (fun s n => intern_label n s) s (item_labels it)) (item_atoms it).

Definition emit_ops (os : list builder_op) (s : FnState) : FnState :=
  {| fs_b := foldl build_step (fs_b s) os; fs_labels := fs_labels s; fs_next := fs_next s; fs_atoms := fs_atoms s |}.

Definition emit_item (s : FnState) (it : aitem) : FnState :=
  let s1 := enter it s in
  emit_ops (item_ops (fs_labels s1) (at_index (fs_atoms s1)) it) s1.

(** *** The arms implement the table *)

Create HintDb asm.

Lemma emit_ops_app os1 os2 s : emit_ops os2 (emit_ops os1 s) = emit_ops (os1 ++ os2) s.
Proof. unfold emit_ops. simpl. by rewrite foldl_app. Qed.

Lemma emit_ops_nil s : emit_ops [] s = s.
Proof. by destruct s. Qed.

(** A computation over the state that agrees with a pure outcome: it fails as
    the outcome does, and otherwise leaves the state [post] says. *)
Definition agrees {A} (c : FM unit) (s : FnState) (r : res AsmError A) (post : A -> FnState) : Prop :=
  match r with
  | Ok a => c s = (Ok tt, post a)
  | Err e => (c s).1 = Err e
  | Panic => (c s).1 = Panic
  | NoFuel => False
  end.

Lemma agrees_bind {A B} (c k : FM unit) s (r : res AsmError A) post (f : A -> res AsmError B) post' :
  agrees c s r post -> (forall a, r = Ok a -> agrees k (post a) (f a) post') -> agrees (_ ← c; k) s (a ← r; f a) post'.
Proof.
  intros H1 H2. unfold agrees, mbind, res_bind, M_bind in *. destruct r as [a|e| |]; try done.
  - rewrite H1. specialize (H2 a eq_refl). by destruct (f a).
  - destruct (c s) as [[]]; cbn [fst] in *; by simplify_eq.
  - destruct (c s) as [[]]; cbn [fst] in *; by simplify_eq.
Qed.

Lemma agrees_post {A B} (c : FM unit) s (r : res AsmError A) post (g : A -> B) post' :
  agrees c s r post -> (forall a, r = Ok a -> post a = post' (g a)) -> agrees c s (a ← r; Ok (g a)) post'.
Proof. intros H1 H2. destruct r as [a|e| |]; try done. unfold agrees in *. cbn. by rewrite H1, <- H2. Qed.

Section arms.
Context (fns : gmap (list Z) (Z * Z)) (ln : Z).

Lemma agrees_reg x s : agrees (r ← reg ln x; e8 r) s (get_reg ln x) (fun r => emit_ops [B_u8 r] s).
Proof. unfold agrees, reg, get_reg, ok_or. by destruct (reg_of x). Qed.

Lemma agrees_regs l : forall s,
  agrees (for_each l (fun x => r ← reg ln x; e8 r)) s (mapM (get_reg ln) l) (fun rs => emit_ops (map B_u8 rs) s).
Proof.
  induction l as [|x l IH]; intros s; [cbn; by rewrite emit_ops_nil|].
  cbn [for_each mapM]. eapply agrees_bind; [apply agrees_reg|]. intros r _. cbn beta.
  eapply agrees_post; [apply IH|]. intros rs _.
  cbn beta. by rewrite emit_ops_app.
Qed.

Lemma mapM_regs_length l : forall rs, mapM (get_reg ln) l = Ok rs -> zlen rs = zlen l.
Proof.
  induction l as [|x l IH]; intros rs; cbn [mapM]; [by intros [= <-]|].
  unfold mbind, res_bind. destruct (get_reg ln x); try done. destruct (mapM _ l) as [rs'| | |]; try done.
  intros [= <-]. rewrite !zlen_cons. f_equal. by apply IH.
Qed.

Context (ops : list (list Z)).

Lemma agrees_op {A} k (c : list Z -> FM unit) s (r : list Z -> res AsmError A) post :
  (forall x, ops !! k = Some x -> agrees (c x) s (r x) post) ->
  agrees (x ← opn ops k; c x) s (x ← get_op ops k; r x) post.
Proof. unfold agrees, opn, get_op. destruct (ops !! k) as [x|]; [|done]. intros H. by apply (H x). Qed.

(** *** One operand of each shape that is emitted in place *)

Context (L A : gmap (list Z) Z).
Abbreviation posts s := (fun a => emit_ops (arg_ops L A a) s).

Lemma agrees_SReg k s : agrees (e_reg ln ops k) s (ref_arg fns ln ops k SReg) (posts s).
Proof. apply agrees_op. intros x _. eapply agrees_post; [apply agrees_reg|done]. Qed.

Lemma parse_digits_total lo hi neg l : forall acc, parse_digits lo hi neg acc l <> Panic /\ parse_digits lo hi neg acc l <> NoFuel.
Proof.
  induction l as [|c l IH]; intros acc; cbn [parse_digits]; [done|]. destruct (to_digit c); [|done].
  case_bool_decide; [apply IH|by destruct neg].
Qed.

Lemma parse_int_total lo hi l : parse_int lo hi l <> Panic /\ parse_int lo hi l <> NoFuel.
Proof.
  unfold parse_int. repeat case_match; try done; apply parse_digits_total.
Qed.

Lemma agrees_parsed {A'} (r : res IntErrorKind Z) (c : Z -> FM unit) s (f : Z -> res AsmError A') post :
  r <> Panic /\ r <> NoFuel -> (forall v, agrees (c v) s (f v) post) ->
  agrees (v ← parsed r; c v) s (v ← get_int r; f v) post.
Proof.
  intros [Hp Hn] H. unfold agrees, parsed, map_err, lift, get_int. destruct r as [v|e| |]; try done. apply (H v).
Qed.

Lemma agrees_SByte k s : agrees (e_byte ops k) s (ref_arg fns ln ops k SByte) (posts s).
Proof. apply agrees_op. intros x _. apply agrees_parsed; [apply parse_int_total|done]. Qed.

Lemma agrees_SInt k s :
  agrees (x ← opn ops k; v ← parsed (parse_i64 x); e64 v) s (ref_arg fns ln ops k SInt) (posts s).
Proof. apply agrees_op. intros x _. apply agrees_parsed; [apply parse_int_total|done]. Qed.

Lemma agrees_fnref {A'} x (c : Z -> FM unit) s (f : Z -> res AsmError A') post :
  (forall i, agrees (c i) s (f i) post) -> agrees (i ← fnref fns ln x; c i) s (i ← get_fn fns ln x; f i) post.
Proof. intros H. unfold agrees, fnref, get_fn, ok_or. destruct (fns !! x) as [[i a]|]; [|done]. apply (H i). Qed.

Lemma agrees_SSpawn k s : agrees (e_fnref fns ln ops k) s (ref_arg fns ln ops k SSpawn) (posts s).
Proof. apply agrees_op. intros x _. by apply agrees_fnref. Qed.

Lemma agrees_count_regs k (n : Z) s : n = zlen ops - Z.of_nat k -> (k <= length ops)%nat ->
  agrees (_ ← e8 n; e_regs_from ln ops k) s (get_regs ln ops k)
    (fun rs => emit_ops (B_u8 (zlen rs) :: map B_u8 rs) s).
Proof.
  intros -> Hk. pose proof (agrees_regs (drop k ops) (emit_ops [B_u8 (zlen ops - Z.of_nat k)] s)) as H.
  unfold agrees, get_regs, e_regs_from in *.
  destruct (mapM (get_reg ln) (drop k ops)) as [rs|e| |] eqn:E; try exact H.
  transitivity (@Ok AsmError unit tt, emit_ops (map B_u8 rs) (emit_ops [B_u8 (zlen ops - Z.of_nat k)] s)); [exact H|].
  rewrite emit_ops_app. apply mapM_regs_length in E. simpl. do 4 f_equal. unfold zlen in *. rewrite length_drop in E. lia.
Qed.

Lemma agrees_SRegs k n s : n = zlen ops - Z.of_nat k -> (k <= length ops)%nat ->
  agrees (_ ← e8 n; e_regs_from ln ops k) s (ref_arg fns ln ops k SRegs) (posts s).
Proof. intros Hn Hk. eapply agrees_post; [by apply agrees_count_regs|done]. Qed.

Lemma agrees_SCall s :
  agrees (_ ← e_fnref fns ln ops 1; _ ← e8 (zlen ops - 2); e_regs_from ln ops 2) s
    (ref_arg fns ln ops 1 SCall) (posts s).
Proof.
  unfold agrees, e_fnref, opn, ref_arg, get_op. destruct (ops !! 1%nat) as [x|] eqn:Hx; [|done].
  unfold mbind, res_bind, M_bind, fnref, get_fn, ok_or, unwrap. cbn [mret M_ret].
  destruct (fns !! x) as [[i a]|]; [|done]. cbn.
  pose proof (agrees_count_regs 2 (zlen ops - 2) (emit_ops [B_u32 i] s) eq_refl) as H.
  apply lookup_lt_Some in Hx. specialize (H Hx). unfold agrees in H. unfold mbind, M_bind in H.
  destruct (get_regs ln ops 2) as [rs|e| |]; exact H.
Qed.

Lemma agrees_SAtom k x s : ops !! k = Some x ->
  agrees (e32 (index_in A x)) s (ref_arg fns ln ops k SAtom) (posts s).
Proof. intros Hx. unfold agrees, ref_arg, get_op. by rewrite Hx. Qed.

Lemma agrees_SJump k x s : ops !! k = Some x ->
  agrees (on_builder (label_ref (index_in L x))) s (ref_arg fns ln ops k SJump) (posts s).
Proof. intros Hx. unfold agrees, ref_arg, get_op. by rewrite Hx. Qed.

(** *** Operand lists *)

Abbreviation postl s := (fun as_ => emit_ops (concat (map (arg_ops L A) as_)) s).

Lemma agrees_last c k sh s :
  agrees c s (ref_arg fns ln ops k sh) (posts s) -> agrees c s (ref_args fns ln ops k [sh]) (postl s).
Proof.
  intros H. cbn [ref_args]. eapply agrees_post; [exact H|]. intros a _. cbn. by rewrite app_nil_r.
Qed.

Lemma agrees_cons c c' k sh shs s :
  agrees c s (ref_arg fns ln ops k sh) (posts s) ->
  (forall s' a, ref_arg fns ln ops k sh = Ok a -> agrees c' s' (ref_args fns ln ops (S k) shs) (postl s')) ->
  agrees (_ ← c; c') s (ref_args fns ln ops k (sh :: shs)) (postl s).
Proof.
  intros H1 H2. cbn [ref_args]. eapply agrees_bind; [exact H1|]. intros a Ha.
  eapply agrees_post; [by apply (H2 _ a)|]. intros as_ _. cbn. by rewrite emit_ops_app.
Qed.
End arms.

#[local] Hint Resolve agrees_SReg agrees_SByte agrees_SInt agrees_SSpawn agrees_SCall agrees_SAtom agrees_SJump : asm.

(** *** Rows without names *)

Definition plain_shape (sh : shape) : bool := match sh with SAtom | SJump => false | _ => true end.

Section rows.
Context (fns : gmap (list Z) (Z * Z)) (ln : Z) (ops : list (list Z)).

Lemma ref_arg_plain k sh a : ref_arg fns ln ops k sh = Ok a -> plain_shape sh = true ->
  arg_jump a = [] /\ arg_atom a = [].
Proof.
  unfold ref_arg. intros H Hp. destruct sh; try done.
  all: unfold mbind, res_bind in H; repeat case_match; by simplify_eq.
Qed.

Lemma ref_args_plain shs : forall k as_, ref_args fns ln ops k shs = Ok as_ -> forallb plain_shape shs = true ->
  concat (map arg_jump as_) = [] /\ concat (map arg_atom as_) = [].
Proof.
  induction shs as [|sh shs IH]; intros k as_; cbn [ref_args forallb]; [by intros [= <-]|].
  intros H [Hp Hps]%andb_true_iff. unfold mbind, res_bind in H.
  destruct (ref_arg fns ln ops k sh) as [a| | |] eqn:Ha; try done.
  destruct (ref_args fns ln ops (S k) shs) as [as'| | |] eqn:Has; try done. injection H as <-.
  destruct (ref_arg_plain _ _ _ Ha Hp) as [Hj Hat], (IH _ _ Has Hps) as [Hj' Hat'].
  simpl. by rewrite Hj, Hat, Hj', Hat'.
Qed.

(** A plain row: the opcode, then the operands. *)
Lemma agrees_plain m o shs c s :
  forallb plain_shape shs = true ->
  (forall s', agrees c s' (ref_args fns ln ops 0 shs)
    (fun as_ => emit_ops (concat (map (arg_ops (fs_labels s) (at_index (fs_atoms s))) as_)) s')) ->
  agrees (_ ← e8 o; c) s (ref_row fns ln ops (mk m o 0 shs)) (emit_item s).
Proof.
  intros Hp H. unfold ref_row. rewrite bool_decide_true by (simpl; lia). cbn [r_shapes r_op mk].
  specialize (H (emit_ops [B_u8 o] s)). eapply agrees_post; [exact H|]. intros as_ Has. cbn beta.
  rewrite emit_ops_app. destruct (ref_args_plain _ _ _ Has Hp) as [Hj Hat].
  unfold emit_item, enter, item_labels, item_jumps, item_atoms. cbn [item_args]. by rewrite Hj, Hat.
Qed.

(** Operand after operand of a plain row. *)
Ltac operands :=
  repeat first [ apply agrees_last; solve [auto with asm]
               | apply agrees_cons; [solve [auto with asm]|intros ? ? ?] ];
  try apply agrees_last.
Ltac plain_row := apply agrees_plain; [done|]; intros ?; operands.

Lemma SReg_present k a : ref_arg fns ln ops k SReg = Ok a -> (S k <= length ops)%nat.
Proof.
  unfold ref_arg, get_op. destruct (ops !! k) eqn:E; [|done]. by apply lookup_lt_Some in E.
Qed.

Lemma agrees_a_nop s : agrees a_nop s (ref_row fns ln ops (mk "nop" op.NOP 0 [])) (emit_item s).
Proof. done. Qed.

Lemma agrees_a_reg1 m o s : agrees (a_reg1 ln ops o) s (ref_row fns ln ops (mk m o 0 [SReg])) (emit_item s).
Proof. plain_row. Qed.

Lemma agrees_a_reg2 m o s : agrees (a_reg2 ln ops o) s (ref_row fns ln ops (mk m o 0 [SReg; SReg])) (emit_item s).
Proof. plain_row. Qed.

Lemma agrees_a_reg3 m o s : agrees (a_reg3 ln ops o) s (ref_row fns ln ops (mk m o 0 [SReg; SReg; SReg])) (emit_item s).
Proof. plain_row. Qed.

Lemma agrees_a_load_int s :
  agrees (a_load_int ln ops) s (ref_row fns ln ops (mk "load_int" op.LOAD_INT 0 [SReg; SInt])) (emit_item s).
Proof. plain_row. Qed.

Lemma agrees_a_make_tuple s :
  agrees (a_make_tuple ln ops) s (ref_row fns ln ops (mk "make_tuple" op.MAKE_TUPLE 0 [SReg; SRegs])) (emit_item s).
Proof. plain_row. apply agrees_SRegs; [done|]. by eapply SReg_present. Qed.

Lemma agrees_a_get_elem s :
  agrees (a_get_elem ln ops) s (ref_row fns ln ops (mk "get_elem" op.GET_ELEM 0 [SReg; SReg; SByte])) (emit_item s).
Proof. plain_row. Qed.

Lemma agrees_a_call s :
  agrees (a_call fns ln ops) s (ref_row fns ln ops (mk "call" op.CALL 0 [SReg; SCall])) (emit_item s).
Proof. plain_row. Qed.

Lemma agrees_a_spawn s :
  agrees (a_spawn fns ln ops) s (ref_row fns ln ops (mk "spawn" op.SPAWN 0 [SReg; SSpawn; SReg])) (emit_item s).
Proof. plain_row. Qed.

Lemma agrees_a_port_open s :
  agrees (a_port_open ln ops) s (ref_row fns ln ops (mk "port_open" op.PORT_OPEN 0 [SReg; SByte])) (emit_item s).
Proof. plain_row. Qed.

Lemma agrees_a_port_submit s :
  agrees (a_port_submit ln ops) s
    (ref_row fns ln ops (mk "port_submit" op.PORT_SUBMIT 0 [SReg; SByte; SReg; SReg])) (emit_item s).
Proof. plain_row. Qed.

(** *** Rows with names: the tables are updated first *)

Lemma intern_m_eq x s : intern_m x s = (Ok (index_in (at_index (fs_atoms (intern_name x s))) x), intern_name x s).
Proof.
  unfold intern_name, intern_m, asm_intern, index_in. destruct (at_index (fs_atoms s) !! x) as [i|] eqn:E; cbn.
  - by rewrite E.
  - by rewrite lookup_insert_eq.
Qed.

(** Interning a name keeps the indices of the others. *)
Lemma asm_intern_mono n t : at_index t ⊆ at_index (asm_intern n t).2.
Proof.
  unfold asm_intern. destruct (at_index t !! n) eqn:E; cbn; [done|]. by apply insert_subseteq.
Qed.

Lemma asm_intern_in n t : is_Some (at_index (asm_intern n t).2 !! n).
Proof.
  unfold asm_intern. destruct (at_index t !! n) eqn:E; cbn; [by rewrite E|]. by rewrite lookup_insert_eq.
Qed.

Lemma fs_atoms_intern_name x s : fs_atoms (intern_name x s) = (asm_intern x (fs_atoms s)).2.
Proof. unfold intern_name, intern_m. by destruct (asm_intern x (fs_atoms s)). Qed.

Lemma index_in_mono (m m' : gmap (list Z) Z) n : m ⊆ m' -> is_Some (m !! n) -> index_in m' n = index_in m n.
Proof. intros Hm [i Hi]. unfold index_in. by rewrite Hi, (lookup_weaken _ _ _ _ Hi Hm). Qed.

Lemma index_stays x y s :
  index_in (at_index (fs_atoms (intern_name y (intern_name x s)))) x = index_in (at_index (fs_atoms (intern_name x s))) x.
Proof.
  apply index_in_mono; rewrite !fs_atoms_intern_name; [apply asm_intern_mono|apply asm_intern_in].
Qed.

Lemma label_id_eq x s : fs_next s + 1 < 2 ^ 32 ->
  label_id x s = (Ok (index_in (fs_labels (intern_label x s)) x), intern_label x s).
Proof.
  intros Hn. unfold intern_label, label_id, index_in. destruct (fs_labels s !! x) as [i|] eqn:E; cbn; [by rewrite E|].
  rewrite bool_decide_true by done. cbn. by rewrite lookup_insert_eq.
Qed.

Lemma agrees_named o shs c s s1 :
  (forall as_, ref_args fns ln ops 0 shs = Ok as_ -> enter (LIns o as_) s = s1) ->
  (forall s', agrees c s' (ref_args fns ln ops 0 shs)
    (fun as_ => emit_ops (concat (map (arg_ops (fs_labels s1) (at_index (fs_atoms s1))) as_)) s')) ->
  agrees (_ ← e8 o; c) s1 (as_ ← ref_args fns ln ops 0 shs; Ok (LIns o as_)) (emit_item s).
Proof.
  intros He H. specialize (H (emit_ops [B_u8 o] s1)). eapply agrees_post; [exact H|]. intros as_ Has. cbn beta.
  rewrite emit_ops_app. unfold emit_item. by rewrite (He as_ Has).
Qed.

(** Too few operands for a row that looks at them first. *)
Lemma agrees_missing {B} k (c : list Z -> FM unit) s (r : res AsmError B) post :
  (forall x, ops !! k = Some x -> agrees (c x) s r post) ->
  agrees (x ← opn ops k; c x) s (if bool_decide (S k <= length ops)%nat then r else Panic) post.
Proof.
  intros H. unfold opn. destruct (ops !! k) as [x|] eqn:E.
  - rewrite bool_decide_true by (by apply lookup_lt_Some in E). by apply (H x).
  - rewrite bool_decide_false; [done|]. apply lookup_ge_None in E. lia.
Qed.

(** After a name of the row has been entered into its table. *)
Lemma agrees_intern {B} x (k : Z -> FM unit) s (r : res AsmError B) post :
  agrees (k (index_in (at_index (fs_atoms (intern_name x s))) x)) (intern_name x s) r post ->
  agrees (a ← intern_m x; k a) s r post.
Proof. intros H. unfold agrees in *. by rewrite (bind_eval _ _ _ _ _ (intern_m_eq x s)). Qed.

Lemma agrees_label {B} x (k : Z -> FM unit) s (r : res AsmError B) post : fs_next s + 1 < 2 ^ 32 ->
  agrees (k (index_in (fs_labels (intern_label x s)) x)) (intern_label x s) r post ->
  agrees (a ← label_id x; k a) s r post.
Proof. intros Hn H. unfold agrees in *. by rewrite (bind_eval _ _ _ _ _ (label_id_eq x s Hn)). Qed.

(** The names of an operand list, shape by shape. *)
Definition shape_name (want : shape) (k : nat) (sh : shape) : list (list Z) :=
  if decide (sh = want) then option_list (ops !! k) else [].
Fixpoint shape_names (want : shape) (k : nat) (shs : list shape) : list (list Z) :=
  match shs with [] => [] | sh :: shs' => shape_name want k sh ++ shape_names want (S k) shs' end.

Lemma ref_arg_names k sh a : ref_arg fns ln ops k sh = Ok a ->
  arg_jump a = shape_name SJump k sh /\ arg_atom a = shape_name SAtom k sh.
Proof.
  intros H. destruct (plain_shape sh) eqn:Hp.
  - destruct (ref_arg_plain _ _ _ H Hp) as [-> ->]. by destruct sh.
  - unfold shape_name. destruct sh; try done; cbn [ref_arg] in H; unfold get_op in H.
    all: destruct (ops !! k); [|done]; cbn in H; by simplify_eq.
Qed.

Lemma ref_args_names shs : forall k as_, ref_args fns ln ops k shs = Ok as_ ->
  concat (map arg_jump as_) = shape_names SJump k shs /\ concat (map arg_atom as_) = shape_names SAtom k shs.
Proof.
  induction shs as [|sh shs IH]; intros k as_; cbn [ref_args]; [by intros [= <-]|]. unfold mbind, res_bind.
  destruct (ref_arg fns ln ops k sh) as [a| | |] eqn:Ha; try done.
  destruct (ref_args fns ln ops (S k) shs) as [as'| | |] eqn:Has; try done. intros [= <-].
  destruct (ref_arg_names _ _ _ Ha) as [Hj Hat], (IH _ _ Has) as [Hj' Hat'].
  simpl. by rewrite Hj, Hat, Hj', Hat'.
Qed.

Lemma enter_names o shs as_ s : ref_args fns ln ops 0 shs = Ok as_ ->
  enter (LIns o as_) s =
  foldl (fun s n => intern_name n s) (foldl (fun s n => intern_label n s) s (shape_names SJump 0 shs)) (shape_names SAtom 0 shs).
Proof.
  intros H%ref_args_names. unfold enter, item_labels, item_jumps, item_atoms. cbn [item_args].
  by destruct H as [-> ->].
Qed.

Ltac names :=
  cbn [shape_names r_shapes mk]; unfold shape_name; repeat case_decide; try done;
  repeat match goal with H : ops !! _ = Some _ |- _ => rewrite H; clear H end; done.

Lemma agrees_a_load_atom s :
  agrees (a_load_atom ln ops) s (ref_row fns ln ops (mk "load_atom" op.LOAD_ATOM 2 [SReg; SAtom])) (emit_item s).
Proof.
  apply agrees_missing. intros x Hx. apply agrees_intern, agrees_named.
  - intros as_ H. rewrite (enter_names _ _ _ _ H). names.
  - intros s'. operands.
Qed.

Lemma agrees_a_jmp s : fs_next s + 1 < 2 ^ 32 ->
  agrees (a_jmp ops) s (ref_row fns ln ops (mk "jmp" op.JMP 0 [SJump])) (emit_item s).
Proof.
  intros Hn. unfold ref_row. rewrite bool_decide_true by (cbn; lia). cbn [r_shapes r_op mk ref_args ref_arg].
  unfold a_jmp, opn, get_op. destruct (ops !! 0%nat) as [x|] eqn:Hx; [|done].
  by apply (agrees_label x (fun id => _ ← e8 op.JMP; on_builder (label_ref id))).
Qed.

Lemma agrees_a_jmp_if s : fs_next s + 1 < 2 ^ 32 ->
  agrees (a_jmp_if ln ops) s (ref_row fns ln ops (mk "jmp_if" op.JMP_IF 2 [SReg; SJump])) (emit_item s).
Proof.
  intros Hn. apply agrees_missing. intros x Hx. apply agrees_label; [done|]. apply agrees_named.
  - intros as_ H. rewrite (enter_names _ _ _ _ H). names.
  - intros s'. operands.
Qed.

Lemma agrees_a_call_ext s :
  agrees (a_call_ext ln ops) s
    (ref_row fns ln ops (mk "call_ext" op.CALL_EXT 3 [SReg; SAtom; SAtom; SRegs])) (emit_item s).
Proof.
  unfold ref_row. cbn [r_first r_shapes r_op mk]. destruct (ops !! 1%nat) as [x1|] eqn:H1.
  2: { rewrite bool_decide_false by (apply lookup_ge_None in H1; lia). unfold a_call_ext, opn. by rewrite H1. }
  unfold a_call_ext. replace (opn ops 1) with (mret x1 : FM (list Z)) by (unfold opn; by rewrite H1).
  apply (agrees_intern x1). apply agrees_missing. intros x2 H2.
  apply agrees_intern, agrees_named.
  - intros as_ H. rewrite (enter_names _ _ _ _ H). names.
  - intros s'. apply lookup_lt_Some in H2 as Hl. rewrite <- (index_stays x1 x2). operands.
    apply agrees_SRegs; [done|lia].
Qed.
End rows.

(** ** Lines and bodies *)

#[local] Hint Resolve agrees_a_nop agrees_a_reg1 agrees_a_reg2 agrees_a_reg3 agrees_a_load_int agrees_a_load_atom
  agrees_a_make_tuple agrees_a_get_elem agrees_a_jmp agrees_a_jmp_if agrees_a_call agrees_a_spawn agrees_a_port_open
  agrees_a_call_ext agrees_a_port_submit : asm.

Section lines.
Context (fns : gmap (list Z) (Z * Z)).

Definition arm_row ln ops s (arm : string * FM unit) (r : row) : Prop :=
  arm.1 = r_mnem r /\ agrees arm.2 s (ref_row fns ln ops r) (emit_item s).

Lemma arms_rows ln ops s : fs_next s + 1 < 2 ^ 32 ->
  Forall2 (arm_row ln ops s) (asm_arms fns ln ops) mnemonics.
Proof. intros Hn. unfold asm_arms, mnemonics. repeat (constructor; [split; [done|cbn [snd]; auto with asm]|]). constructor. Qed.

Lemma select_row {A} ln ops s mnem (d : FM unit) (r0 : res AsmError A) post arms rows g :
  Forall2 (arm_row ln ops s) arms rows ->
  agrees d s r0 post ->
  (forall r, agrees (A:=aitem) (select_str mnem arms d) s (ref_row fns ln ops r) (emit_item s) ->
     agrees (select_str mnem arms d) s (g r) post) ->
  agrees (select_str mnem arms d) s
    (match list.head (filter (fun r => mnem = lit (r_mnem r)) rows) with Some r => g r | None => r0 end) post.
Proof.
  intros HF Hd. induction HF as [|[m c] r arms rows [Hm Hc] _ IH]; [done|]. cbn [select_str fst snd] in *. subst m.
  rewrite filter_cons. case_bool_decide as Hb.
  - rewrite decide_True by done. intros Hg. by apply (Hg r).
  - rewrite decide_False by done. exact IH.
Qed.

Lemma agrees_line l s : fs_next s + 1 < 2 ^ 32 -> agrees (asm_line fns l) s (ref_line fns l) (emit_item s).
Proof.
  intros Hn. destruct l as [ln line]. unfold asm_line, ref_line. cbn [fst snd].
  destruct (strip_suffix 58 line) as [name|].
  - apply agrees_label; [done|]. done.
  - destruct (line_parts line) as [mnem ops]. cbn [fst snd]. unfold find_row.
    eapply (select_row ln ops s mnem); [by apply arms_rows|done|]. done.
Qed.

(** A line names at most one label. *)
Lemma rows_jumps : Forall (fun r => length (filter (fun sh => sh = SJump) (r_shapes r)) <= 1)%nat mnemonics.
Proof. unfold mnemonics. repeat (constructor; [vm_compute; lia|]). constructor. Qed.

Lemma shape_names_length ops want shs : forall k,
  (length (shape_names ops want k shs) <= length (filter (fun sh => sh = want) shs))%nat.
Proof.
  induction shs as [|sh shs IH]; intros k; [done|]. cbn [shape_names]. rewrite length_app, filter_cons.
  specialize (IH (S k)). unfold shape_name. destruct (decide (sh = want)); [|simpl; lia].
  destruct (ops !! k); simpl; lia.
Qed.

Lemma ref_line_labels l it : ref_line fns l = Ok it -> (length (item_labels it) <= 1)%nat.
Proof.
  unfold ref_line. destruct (strip_suffix 58 l.2); [by intros [= <-]|].
  unfold find_row. destruct (list.head _) as [r|] eqn:Hr; [|done].
  assert (r ∈ mnemonics) as Hin.
  { apply head_Some_elem_of in Hr. by apply list_elem_of_filter in Hr as [_ ?]. }
  unfold ref_row. case_bool_decide; [|done].
  destruct (ref_args fns l.1 (line_parts l.2).2 0 (r_shapes r)) as [as_| | |] eqn:Has; try done. intros [= <-].
  unfold item_labels, item_jumps. cbn [item_args]. apply ref_args_names in Has as [-> _].
  pose proof rows_jumps as HF. rewrite Forall_forall in HF. specialize (HF r Hin).
  etransitivity; [apply shape_names_length|done].
Qed.
End lines.

(** *** The tables *)

Definition labels_wf (s : FnState) : Prop :=
  0 <= fs_next s /\ (forall n i, fs_labels s !! n = Some i -> 0 <= i < fs_next s) /\
  (forall n n' i, fs_labels s !! n = Some i -> fs_labels s !! n' = Some i -> n = n').

(** Entering names: the tables grow, the new names are in them. *)
Record grows (s s' : FnState) : Prop := {
  g_labels : fs_labels s ⊆ fs_labels s';
  g_atoms : at_index (fs_atoms s) ⊆ at_index (fs_atoms s');
  g_wf : labels_wf s -> labels_wf s';
}.

#[export] Instance grows_preorder : PreOrder grows.
Proof.
  split.
  - intros s. split; [done|done|auto].
  - intros s1 s2 s3 [H1 H2 H3] [H4 H5 H6]. split; [by etransitivity|by etransitivity|auto].
Qed.

Lemma grows_label n s : grows s (intern_label n s).
Proof.
  unfold intern_label, label_id. destruct (fs_labels s !! n) as [i|] eqn:E; [done|].
  case_bool_decide; [|done]. split; cbn; [by apply insert_subseteq|done|].
  intros (H0 & Hr & Hi). split_and!; cbn; [lia| |].
  - intros n' i. rewrite lookup_insert. case_decide; [intros [= <-]; lia|]. intros H'%Hr. lia.
  - intros n1 n2 i. rewrite !lookup_insert. do 2 case_decide; subst; try done.
    + intros [= <-] Hx%Hr. lia.
    + intros Hx%Hr [= <-]. lia.
    + apply Hi.
Qed.

Lemma label_present n s : fs_next s + 1 < 2 ^ 32 ->
  is_Some (fs_labels (intern_label n s) !! n) /\ fs_next (intern_label n s) <= fs_next s + 1.
Proof.
  intros Hn. unfold intern_label, label_id. destruct (fs_labels s !! n) as [i|] eqn:E; cbn; [split; [by exists i|lia]|].
  rewrite bool_decide_true by done. cbn. rewrite lookup_insert_eq. split; [done|lia].
Qed.

Lemma grows_name n s : grows s (intern_name n s).
Proof.
  split.
  - unfold intern_name, intern_m. by destruct (asm_intern n (fs_atoms s)).
  - rewrite fs_atoms_intern_name. apply asm_intern_mono.
  - unfold intern_name, intern_m. by destruct (asm_intern n (fs_atoms s)).
Qed.

Lemma intern_names_frame ns : forall s,
  let s' := foldl (fun s n => intern_name n s) s ns in
  grows s s' /\ fs_labels s' = fs_labels s /\ fs_next s' = fs_next s /\ fs_b s' = fs_b s /\
  fs_atoms s' = intern_all (fs_atoms s) ns /\ (forall n, n ∈ ns -> is_Some (at_index (fs_atoms s') !! n)).
Proof.
  induction ns as [|n ns IH]; intros s; cbn [foldl].
  { split_and!; try done. intros n Hn. by apply elem_of_nil in Hn. }
  destruct (IH (intern_name n s)) as (Hg & Hl & Hx & Hb & Ha & Hin). cbn zeta in *.
  assert (fs_labels (intern_name n s) = fs_labels s /\ fs_next (intern_name n s) = fs_next s /\
    fs_b (intern_name n s) = fs_b s) as (E1 & E2 & E3).
  { unfold intern_name, intern_m. by destruct (asm_intern n (fs_atoms s)). }
  split_and!; try congruence.
  - etransitivity; [apply grows_name|done].
  - rewrite Ha. unfold intern_all. cbn [foldl]. by rewrite fs_atoms_intern_name.
  - intros n' [-> |Hn']%elem_of_cons; [|by apply Hin].
    destruct (asm_intern_in n (fs_atoms s)) as [i Hi]. rewrite <- fs_atoms_intern_name in Hi.
    exists i. by eapply lookup_weaken, Hg.
Qed.

Lemma enter_spec it s : (length (item_labels it) <= 1)%nat -> fs_next s + 1 < 2 ^ 32 ->
  grows s (enter it s) /\ fs_next (enter it s) <= fs_next s + 1 /\ fs_b (enter it s) = fs_b s /\
  fs_atoms (enter it s) = intern_all (fs_atoms s) (item_atoms it) /\
  (forall n, n ∈ item_labels it -> is_Some (fs_labels (enter it s) !! n)) /\
  (forall n, n ∈ item_atoms it -> is_Some (at_index (fs_atoms (enter it s)) !! n)).
Proof.
  intros Hl Hn. unfold enter. set (s1 := foldl (fun s n => intern_label n s) s (item_labels it)).
  destruct (intern_names_frame (item_atoms it) s1) as (Hg & E1 & E2 & E3 & E4 & Hin). cbn zeta in *.
  assert (grows s s1 /\ fs_next s1 <= fs_next s + 1 /\ fs_b s1 = fs_b s /\ fs_atoms s1 = fs_atoms s /\
    forall n, n ∈ item_labels it -> is_Some (fs_labels s1 !! n)) as (G1 & G2 & G3 & G4 & G5).
  { subst s1. destruct (item_labels it) as [|n [|]]; cbn [foldl] in *.
    - split_and!; [done|lia|done|done|]. intros n Hn'. by apply elem_of_nil in Hn'.
    - destruct (label_present n s Hn) as [Hp Hb]. split_and!; [apply grows_label|done| | |].
      1,2: unfold intern_label, label_id; destruct (fs_labels s !! n); [done|]; by case_bool_decide.
      intros n' ->%list_elem_of_singleton. done.
    - simpl in Hl. lia. }
  split_and!; [by etransitivity|congruence|congruence|congruence| |done].
  intros n Hn'. rewrite E1. by apply G5.
Qed.

(** Operations only depend on the names of the item. *)
Lemma item_ops_mono (L L' A A' : gmap (list Z) Z) it :
  L ⊆ L' -> A ⊆ A' ->
  (forall n, n ∈ item_labels it -> is_Some (L !! n)) -> (forall n, n ∈ item_atoms it -> is_Some (A !! n)) ->
  item_ops L' A' it = item_ops L A it.
Proof.
  intros HL HA Hl Ha. destruct it as [n|o as_]; cbn [item_ops].
  - do 2 f_equal. apply index_in_mono; [done|]. apply Hl. by left.
  - f_equal. f_equal. unfold item_labels, item_jumps, item_atoms in Hl, Ha. cbn [item_args] in Hl, Ha.
    induction as_ as [|a as_ IH]; [done|]. cbn [map concat] in *. setoid_rewrite elem_of_app in Hl.
    setoid_rewrite elem_of_app in Ha. f_equal; [|apply IH; naive_solver].
    destruct a; try done; cbn [arg_ops]; do 2 f_equal; (apply index_in_mono; [done|]).
    + apply Ha. left. by left.
    + apply Hl. left. by left.
Qed.

Lemma emit_items_spec items : forall s,
  Forall (fun it => length (item_labels it) <= 1)%nat items -> fs_next s + zlen items < 2 ^ 32 ->
  let s' := foldl emit_item s items in
  grows s s' /\ fs_atoms s' = ref_atoms (fs_atoms s) items /\
  (forall it n, it ∈ items -> n ∈ item_labels it -> is_Some (fs_labels s' !! n)) /\
  fs_b s' = foldl build_step (fs_b s) (concat (map (item_ops (fs_labels s') (at_index (fs_atoms s'))) items)).
Proof.
  induction items as [|it items IH]; intros s HF Hn; cbn [foldl].
  { split_and!; try done. intros it n Hn'. by apply elem_of_nil in Hn'. }
  apply Forall_cons in HF as [Hit HF]. rewrite zlen_cons in Hn. pose proof (zlen_nonneg items).
  destruct (enter_spec it s Hit ltac:(lia)) as (Hg & Hx & Hb & Ha & Hl & Hat).
  destruct (IH (emit_item s it)) as (Hg' & Ha' & Hl' & Hb'); [done|cbn; lia|]. cbn zeta in *.
  assert (grows (enter it s) (foldl emit_item (emit_item s it) items)) as Hge.
  { etransitivity; [|exact Hg']. split; [done|done|auto]. }
  set (s' := foldl emit_item (emit_item s it) items) in *. split_and!.
  - by etransitivity.
  - rewrite Ha'. unfold ref_atoms, intern_all. cbn [map concat]. rewrite foldl_app. f_equal. exact Ha.
  - intros it' n [-> |Hin]%elem_of_cons Hn'; [|by eapply Hl'].
    destruct (Hl n Hn') as [i Hi]. exists i. by eapply lookup_weaken, Hge.
  - rewrite Hb'. cbn [map concat]. rewrite foldl_app. f_equal. cbn [emit_item emit_ops fs_b]. rewrite Hb. f_equal.
    symmetry. apply item_ops_mono; [apply Hge|apply Hge|done|done].
Qed.

Lemma agrees_body fns body : forall s, fs_next s + zlen body < 2 ^ 32 ->
  agrees (for_each body (asm_line fns)) s (ref_lines fns body) (fun items => foldl emit_item s items).
Proof.
  induction body as [|l body IH]; intros s Hn; [done|]. rewrite zlen_cons in Hn. pose proof (zlen_nonneg body).
  cbn [for_each]. unfold ref_lines. cbn [mapM]. eapply agrees_bind; [apply agrees_line; lia|].
  intros it Hit. destruct (enter_spec it s (ref_line_labels _ _ _ Hit) ltac:(lia)) as (_ & Hx & _).
  eapply agrees_post; [apply IH; cbn; lia|]. done.
Qed.

Lemma ref_lines_labels fns body : forall items, ref_lines fns body = Ok items ->
  Forall (fun it => length (item_labels it) <= 1)%nat items /\ length items = length body.
Proof.
  unfold ref_lines. induction body as [|l body IH]; intros items; cbn [mapM]; [by intros [= <-]|].
  unfold mbind, res_bind. destruct (ref_line fns l) as [it| | |] eqn:Hl; try done.
  destruct (mapM (ref_line fns) body) as [its| | |]; try done. intros [= <-].
  destruct (IH its eq_refl) as [HF Hlen]. split; [constructor; [by eapply ref_line_labels|done]|simpl; by f_equal].
Qed.
