(* ===== verification/AsmLayout.v ===== *)
(** * AsmLayout: patched placeholders are resolved jumps

    What [CodeBuilder::finish] makes of a listing: the bytes of its instructions
    one after another, every jump holding the distance to its label; and the
    theorem that the one-pass assembler computes the code of the two-pass
    reference. *)

From S2P Require Import Prelude Bytecode BytecodeAnalysis Asm AsmRef.

(** ** Bytes of builder operations *)

(** The bytes of a sequence of builder operations, labels resolved. *)
Definition op_bytes (lbl : Z -> Z) (pos : Z) (o : builder_op) : list byte :=
  match o with
  | B_u8 v => [z2b v] | B_u32 v => le_bytes 4 v | B_i64 v => le_bytes 8 v | B_bytes v => v
  | B_label_ref l => le_bytes 4 (lbl l - (pos + 4)) | B_bind _ => []
  end.
Definition op_len (o : builder_op) : Z :=
  match o with
  | B_u8 _ => 1 | B_u32 _ | B_label_ref _ => 4 | B_i64 _ => 8 | B_bytes v => zlen v | B_bind _ => 0
  end.
Fixpoint ops_bytes (lbl : Z -> Z) (pos : Z) (os : list builder_op) : list byte :=
  match os with
  | [] => []
  | o :: os' => op_bytes lbl pos o ++ ops_bytes lbl (pos + op_len o) os'
  end.

Lemma zlen_op_bytes lbl pos o : zlen (op_bytes lbl pos o) = op_len o.
Proof. destruct o; cbn [op_bytes op_len]; unfold zlen; try rewrite length_le_bytes; done. Qed.

Lemma ops_bytes_app lbl os1 : forall pos os2,
  ops_bytes lbl pos (os1 ++ os2) = ops_bytes lbl pos os1 ++ ops_bytes lbl (pos + zlen (ops_bytes lbl pos os1)) os2.
Proof.
  induction os1 as [|o os1 IH]; intros pos os2; cbn [ops_bytes app].
  - rewrite zlen_nil. by rewrite Z.add_0_r.
  - rewrite IH, app_assoc. do 2 f_equal. rewrite zlen_app, zlen_op_bytes. lia.
Qed.

Definition op_refs (os : list builder_op) : list Z := omap (fun o => match o with B_label_ref l => Some l | _ => None end) os.

Lemma resolve_app lbls fx1 fx2 c : resolve lbls (fx1 ++ fx2) c = (c' ← resolve lbls fx1 c; resolve lbls fx2 c').
Proof.
  revert c. induction fx1 as [|[pos l] fx1 IH]; intros c; [done|]. cbn [resolve app].
  destruct (lbls !! l); [|done]. destruct (patch _ _ c); [|done]. apply IH.
Qed.

(** Patching inside a prefix leaves what follows alone. *)
Lemma patch_prefix pos bs c k : pos + zlen bs <= zlen c -> patch pos bs (c ++ k) = (fun c' => c' ++ k) <$> patch pos bs c.
Proof.
  intros Hle. unfold patch. pose proof (zlen_nonneg k). case_bool_decide as Hb.
  - rewrite bool_decide_true by lia. cbn. f_equal. unfold zlen in *. rewrite take_app_le, drop_app_le by lia.
    by rewrite <- !app_assoc.
  - rewrite bool_decide_false; [done|]. rewrite zlen_app in Hb. lia.
Qed.

Lemma resolve_prefix lbls fx k : forall c, Forall (fun p => 0 <= p.1 /\ p.1 + 4 <= zlen c) fx ->
  resolve lbls fx (c ++ k) = (c' ← resolve lbls fx c; Ok (c' ++ k)).
Proof.
  induction fx as [|[pos l] fx IH]; intros c HF; [done|]. cbn [resolve]. apply Forall_cons in HF as [[H1 H2] HF].
  destruct (lbls !! l) as [t|]; [|done]. cbn [fst] in *.
  rewrite patch_prefix by (unfold zlen at 1; rewrite length_le_bytes; lia).
  destruct (patch pos _ c) as [c'|] eqn:Hp; [|done]. cbn [fmap option_fmap option_map]. apply IH.
  destruct (lookupz_patch _ _ _ _ 0 Hp) as [-> _]. done.
Qed.

Lemma build_snoc os o : build (os ++ [o]) = build_step (build os) o.
Proof. unfold build. by rewrite foldl_app. Qed.

Lemma build_shape os lbl :
  zlen (cb_code (build os)) = zlen (ops_bytes lbl 0 os) /\ map snd (fixups (build os)) = op_refs os.
Proof.
  induction os as [|o os [IH1 IH2]] using rev_ind; [done|].
  rewrite build_snoc, ops_bytes_app, zlen_app, <- IH1. unfold op_refs in *. rewrite omap_app, <- IH2.
  cbn [ops_bytes]. rewrite app_nil_r, zlen_op_bytes.
  destruct o; cbn [build_step emit_u8 emit_u32 emit_i64 emit label_ref bind_label cb_code fixups op_len omap];
    rewrite ?zlen_app, ?map_app, ?app_nil_r; cbn; split; try done; lia.
Qed.

(** Patching the placeholder at the end. *)
Lemma patch_end c bs0 bs : length bs0 = length bs -> patch (zlen c) bs (c ++ bs0) = Some (c ++ bs).
Proof.
  intros Hl. unfold patch. pose proof (zlen_nonneg c). rewrite bool_decide_true by (unfold zlen in *; rewrite length_app; lia).
  f_equal. unfold zlen. rewrite Nat2Z.id, take_app_length. f_equal.
  rewrite drop_ge; [by rewrite app_nil_r|]. rewrite length_app. lia.
Qed.

(** Resolving what was built, once every referenced label has an offset. *)
Lemma build_resolve lbls os : (forall l, l ∈ op_refs os -> is_Some (lbls !! l)) ->
  resolve lbls (fixups (build os)) (cb_code (build os)) = Ok (ops_bytes (fun l => default 0 (lbls !! l)) 0 os).
Proof.
  set (lbl := fun l => default 0 (lbls !! l)). induction os as [|o os IH] using rev_ind; intros Hl; [done|].
  unfold op_refs in Hl. rewrite omap_app in Hl. setoid_rewrite elem_of_app in Hl. specialize (IH (fun l H => Hl l (or_introl H))).
  pose proof (bw_range _ (builder_wf_build os)) as Hr. pose proof (proj1 (build_shape os lbl)) as Hlen.
  assert (forall k, resolve lbls (fixups (build os)) (cb_code (build os) ++ k) = Ok (ops_bytes lbl 0 os ++ k)) as Hk.
  { intros k. rewrite resolve_prefix by done. by rewrite IH. }
  rewrite build_snoc, ops_bytes_app. cbn [ops_bytes]. rewrite app_nil_r.
  destruct o as [v|v|v|v|l|l]; cbn [build_step emit_u8 emit_u32 emit_i64 emit label_ref bind_label cb_code fixups op_bytes].
  1-4: apply Hk.
  - rewrite resolve_app, Hk. unfold mbind, res_bind. cbn [resolve].
    destruct (Hl l) as [t Ht]; [right; by left|]. rewrite Ht. rewrite Hlen.
    rewrite patch_end by done. replace (lbl l) with t by (unfold lbl; by rewrite Ht). done.
  - rewrite app_nil_r. exact IH.
Qed.

(** *** Labels by number and by name *)

Fixpoint bind_offs (pos : Z) (os : list builder_op) (m : gmap Z Z) : gmap Z Z :=
  match os with
  | [] => m
  | o :: os' => bind_offs (pos + op_len o) os' (match o with B_bind l => <[l := pos]> m | _ => m end)
  end.

Lemma bind_offs_app os1 : forall pos os2 m,
  bind_offs pos (os1 ++ os2) m = bind_offs (pos + foldr (fun o n => op_len o + n) 0 os1) os2 (bind_offs pos os1 m).
Proof.
  induction os1 as [|o os1 IH]; intros pos os2 m; cbn [bind_offs app foldr]; [by rewrite Z.add_0_r|].
  rewrite IH. f_equal. lia.
Qed.

Lemma ops_bytes_len lbl os : forall pos, zlen (ops_bytes lbl pos os) = foldr (fun o n => op_len o + n) 0 os.
Proof.
  induction os as [|o os IH]; intros pos; [done|]. cbn [ops_bytes foldr]. by rewrite zlen_app, zlen_op_bytes, IH.
Qed.

Lemma build_labels os : labels (build os) = bind_offs 0 os ∅.
Proof.
  induction os as [|o os IH] using rev_ind; [done|]. rewrite build_snoc, bind_offs_app, <- IH.
  rewrite <- (ops_bytes_len (fun _ => 0) os 0), <- (proj1 (build_shape os (fun _ => 0))).
  by destruct o.
Qed.

Section by_name.
Context (L A : gmap (list Z) Z).
Hypothesis L_inj : forall n n' i, L !! n = Some i -> L !! n' = Some i -> n = n'.

Lemma arg_ops_len a : foldr (fun o n => op_len o + n) 0 (arg_ops L A a) = arg_len a.
Proof.
  assert (forall rs, foldr (fun o n => op_len o + n) 0 (map B_u8 rs) = zlen rs) as H.
  { induction rs as [|r rs IH]; [done|]. cbn [map foldr op_len]. by rewrite IH, zlen_cons. }
  destruct a; cbn [arg_ops foldr op_len arg_len]; rewrite ?H; lia.
Qed.

Lemma foldr_len_app os1 os2 : foldr (fun o n => op_len o + n) 0 (os1 ++ os2) =
  foldr (fun o n => op_len o + n) 0 os1 + foldr (fun o n => op_len o + n) 0 os2.
Proof. induction os1 as [|o os1 IH]; [done|]. cbn [app foldr]. rewrite IH. lia. Qed.

Lemma item_ops_len it : foldr (fun o n => op_len o + n) 0 (item_ops L A it) = item_len it.
Proof.
  destruct it as [n|o as_]; [done|]. cbn [item_ops foldr op_len item_len]. f_equal.
  induction as_ as [|a as_ IH]; [done|]. cbn [map concat args_len foldr]. by rewrite foldr_len_app, arg_ops_len, IH.
Qed.

(** The bindings of an item. *)
Lemma bind_offs_noop os : (forall l, B_bind l ∉ os) -> forall pos m, bind_offs pos os m = m.
Proof.
  induction os as [|o os IH]; intros Hno pos m; [done|]. cbn [bind_offs].
  destruct o; try (apply IH; intros l' H; apply (Hno l'); by right). destruct (Hno l). by left.
Qed.

Lemma arg_ops_no_bind a l : B_bind l ∉ arg_ops L A a.
Proof.
  assert (forall rs, B_bind l ∉ map B_u8 rs) as H.
  { intros rs. rewrite list_elem_of_fmap. naive_solver. }
  destruct a; cbn [arg_ops]; rewrite ?elem_of_cons, ?elem_of_nil; naive_solver.
Qed.

Lemma ins_ops_no_bind o as_ l : B_bind l ∉ item_ops L A (LIns o as_).
Proof.
  cbn [item_ops]. rewrite elem_of_cons. intros [?|H]; [done|].
  induction as_ as [|a as_ IH]; cbn [map concat] in H; [by apply elem_of_nil in H|].
  apply elem_of_app in H as [H|H]; [by eapply arg_ops_no_bind|auto].
Qed.

(** The builder's label offsets are the reference's, through the numbering. *)
Lemma bind_offs_items items : forall pos (m : gmap Z Z) offs,
  (forall it n, it ∈ items -> n ∈ item_labels it -> is_Some (L !! n)) ->
  (forall n i, L !! n = Some i -> m !! i = offs !! n) ->
  forall n i, L !! n = Some i ->
    bind_offs pos (concat (map (item_ops L A) items)) m !! i = label_offs pos items offs !! n.
Proof using L_inj.
  induction items as [|it items IH]; intros pos m offs Hin Hm n i Hi; [by apply Hm|].
  cbn [map concat label_offs]. rewrite bind_offs_app, item_ops_len.
  apply IH; [intros it' n' H; apply Hin; by right| |done]. clear n i Hi. intros n i Hi.
  destruct it as [b|o as_]; [|rewrite bind_offs_noop by (intros l; apply ins_ops_no_bind); by apply Hm].
  cbn [item_ops bind_offs]. destruct (Hin (LBind b) b) as [j Hj]; [by left|by left|].
  unfold index_in. rewrite Hj. cbn [default]. destruct (decide (j = i)) as [->|Hne].
  - rewrite (L_inj _ _ _ Hj Hi). by rewrite !lookup_insert_eq.
  - rewrite !lookup_insert_ne; [by apply Hm| |done]. intros ->. by simplify_eq.
Qed.

Lemma op_refs_app os1 os2 : op_refs (os1 ++ os2) = op_refs os1 ++ op_refs os2.
Proof. apply omap_app. Qed.

Lemma item_refs it : op_refs (item_ops L A it) = map (index_in L) (item_jumps it).
Proof.
  destruct it as [n|o as_]; [done|]. unfold item_jumps. cbn [item_ops item_args].
  change (op_refs (B_u8 o :: concat (map (arg_ops L A) as_))) with (op_refs (concat (map (arg_ops L A) as_))).
  induction as_ as [|a as_ IH]; [done|]. cbn [map concat]. rewrite op_refs_app, map_app, IH. f_equal.
  assert (forall rs, op_refs (map B_u8 rs) = []) as H by (induction rs; done).
  destruct a; try done; apply H.
Qed.

Lemma items_refs items :
  op_refs (concat (map (item_ops L A) items)) = map (index_in L) (concat (map item_jumps items)).
Proof.
  induction items as [|it items IH]; [done|]. cbn [map concat]. by rewrite op_refs_app, map_app, IH, item_refs.
Qed.

Section resolved.
Context (lbl : Z -> Z) (offs : list Z -> Z).

Lemma arg_ops_bytes a pos : (forall n, n ∈ arg_jump a -> lbl (index_in L n) = offs n) ->
  ops_bytes lbl pos (arg_ops L A a) = arg_bytes offs (index_in A) pos a.
Proof.
  intros H. assert (forall rs pos, ops_bytes lbl pos (map B_u8 rs) = map z2b rs) as Hr.
  { induction rs as [|r rs IH]; intros p; [done|]. cbn [map ops_bytes op_bytes]. by rewrite IH. }
  destruct a; cbn [arg_ops ops_bytes op_bytes arg_bytes]; rewrite ?Hr, ?app_nil_r; try done.
  rewrite H; [done|]. by left.
Qed.

Lemma items_ops_bytes items : forall pos,
  (forall n, n ∈ concat (map item_jumps items) -> lbl (index_in L n) = offs n) ->
  ops_bytes lbl pos (concat (map (item_ops L A) items)) = items_bytes offs (index_in A) pos items.
Proof.
  induction items as [|it items IH]; intros pos H; [done|]. cbn [map concat items_bytes] in *.
  setoid_rewrite elem_of_app in H. rewrite ops_bytes_app, ops_bytes_len, item_ops_len, IH by auto. f_equal.
  assert (forall n, n ∈ item_jumps it -> lbl (index_in L n) = offs n) as Hi by auto. clear IH H.
  destruct it as [n|o as_]; [done|]. unfold item_jumps in Hi. cbn [item_ops item_bytes ops_bytes op_bytes op_len item_args] in *.
  cbn [app]. f_equal. revert Hi. generalize (pos + 1). clear pos. induction as_ as [|a as_ IH]; intros pos Hi; [done|].
  cbn [map concat args_bytes] in *. setoid_rewrite elem_of_app in Hi.
  rewrite ops_bytes_app, ops_bytes_len, arg_ops_len, IH, arg_ops_bytes by auto. done.
Qed.
End resolved.
End by_name.

Lemma head_filter_map {B C} (f : B -> C) (P : C -> Prop) `{!forall x, Decision (P x)} (Q : B -> Prop) `{!forall x, Decision (Q x)} l :
  (forall x, x ∈ l -> P (f x) <-> Q x) -> list.head (filter P (map f l)) = f <$> list.head (filter Q l).
Proof.
  induction l as [|x l IH]; intros HPQ; [done|]. cbn [map]. rewrite !filter_cons.
  destruct (decide (Q x)) as [Hq|Hq].
  - rewrite decide_True; [done|]. apply HPQ; [by left|done].
  - rewrite decide_False; [apply IH; intros y Hy; apply HPQ; by right|]. intros Hp. apply Hq, HPQ; [by left|done].
Qed.

(** Finishing the builder of a listing. *)
Lemma finish_items (L A : gmap (list Z) Z) items :
  (forall n n' i, L !! n = Some i -> L !! n' = Some i -> n = n') ->
  (forall it n, it ∈ items -> n ∈ item_labels it -> is_Some (L !! n)) ->
  finish (build (concat (map (item_ops L A) items))) =
  match first_unbound items with
  | Some n => Err (index_in L n)
  | None => Ok (items_bytes (index_in (label_offs 0 items ∅)) (index_in A) 0 items)
  end.
Proof.
  intros Hinj Hin. set (os := concat (map (item_ops L A) items)).
  assert (forall n, n ∈ concat (map item_jumps items) -> exists i, L !! n = Some i /\
    labels (build os) !! i = label_offs 0 items ∅ !! n) as Hlab.
  { intros n Hn. assert (is_Some (L !! n)) as [i Hi].
    { apply list_elem_of_In, in_concat in Hn as (js & Hjs%list_elem_of_In & Hn%list_elem_of_In).
      apply list_elem_of_fmap in Hjs as (it & -> & Hit). apply (Hin it); [done|].
      destruct it; [by apply elem_of_nil in Hn|done]. }
    exists i. split; [done|]. rewrite build_labels. by apply bind_offs_items. }
  assert (list.head (filter (fun l => labels (build os) !! l = None) (op_refs os)) = index_in L <$> first_unbound items) as Hhead.
  { replace (op_refs os) with (map (index_in L) (concat (map item_jumps items))) by (symmetry; apply items_refs). apply head_filter_map. intros n Hn.
    destruct (Hlab n Hn) as (i & Hi & E). replace (index_in L n) with i by (unfold index_in; by rewrite Hi). by rewrite E. }
  unfold finish. destruct (first_unbound items) as [n|] eqn:Hu; cbn in Hhead.
  - rewrite <- (proj2 (build_shape os (fun _ => 0))) in Hhead.
    rewrite (head_filter_map snd _ (fun p => labels (build os) !! p.2 = None)) in Hhead by done.
    destruct (list.head (filter _ (fixups (build os)))) as [p|] eqn:Hp; cbn in Hhead; [|done].
    injection Hhead as <-. eapply resolve_err; [apply builder_wf_build|done|exact Hp].
  - rewrite build_resolve.
    + f_equal. apply items_ops_bytes. intros n Hn. destruct (Hlab n Hn) as (i & Hi & E).
      replace (index_in L n) with i by (unfold index_in; by rewrite Hi). by rewrite E.
    + intros l Hl. apply not_eq_None_Some. intros Hnone. apply head_None in Hhead.
      assert (l ∈ filter (fun l => labels (build os) !! l = None) (op_refs os)) as Hf by (by apply list_elem_of_filter).
      rewrite Hhead in Hf. by apply elem_of_nil in Hf.
Qed.

(** ** One pass equals two passes *)

(** The outcome of a function, against the reference: an error or a panic on a
    line is the same one; a jump to a name that no line binds is an unbound
    label; otherwise the code and the atom table are the reference's. *)
Definition as_reference (d : FnDecl) (fns : gmap (list Z) (Z * Z)) (t : AtomTab)
    (out : res AsmError (list byte) * AtomTab) : Prop :=
  match ref_lines fns (d_body d) with
  | Ok items =>
      out.2 = ref_atoms t items /\
      match first_unbound items with
      | Some _ => exists id, out.1 = Err (UnboundLabel id)
      | None => out.1 = Ok (ref_code t items)
      end
  | Err e => out.1 = Err e
  | Panic => out.1 = Panic
  | NoFuel => False
  end.

Lemma assemble_fn_reference d fns t : zlen (d_body d) < 2 ^ 32 -> as_reference d fns t (assemble_fn d fns t).
Proof.
  intros Hn. set (s0 := {| fs_b := CodeBuilder_new; fs_labels := ∅; fs_next := 0; fs_atoms := t |}).
  pose proof (agrees_body fns (d_body d) s0 Hn) as H. unfold agrees in H.
  unfold as_reference, assemble_fn, assemble_fn_m. fold s0.
  destruct (ref_lines fns (d_body d)) as [items|e| |] eqn:Hr; try done.
  2,3: unfold mbind, M_bind; destruct (for_each _ _ s0) as [[]]; cbn in *; by simplify_eq.
  destruct (ref_lines_labels _ _ _ Hr) as [HF Hlen].
  destruct (emit_items_spec items s0 HF) as (Hg & Hat & Hlab & Hb); [unfold zlen in *; cbn; lia|].
  rewrite (bind_eval _ _ _ _ _ H). set (s := foldl emit_item s0 items) in *. cbn zeta in *.
  assert (labels_wf s) as (_ & _ & Hinj).
  { apply Hg. split_and!; cbn; [lia|intros n i; by rewrite lookup_empty|intros n n' i; by rewrite lookup_empty]. }
  unfold mbind, M_bind, get, map_err, lift. rewrite Hb. cbn [fs_b s0].
  change (foldl build_step CodeBuilder_new ?os) with (build os). rewrite finish_items by done.
  unfold ref_code. change (fs_atoms s0) with t in Hat. rewrite <- Hat. destruct (first_unbound items); cbn; eauto.
Qed.

(** C18: the one-pass assembler computes, for every function of fewer than 2^32
    lines, what the two-pass reference does: the same error or panic on the
    same line, an error for a jump to an unbound label, and otherwise the
    reference's code, every jump holding the distance to its label, and its
    atom table. *)
Theorem assemble_fn_two_pass d fns t : zlen (d_body d) < 2 ^ 32 -> as_reference d fns t (assemble_fn d fns t).
Proof. apply assemble_fn_reference. Qed.
