(* ===== verification/AsmVerify.v ===== *)
(** * AsmVerify: checked listings pass the bytecode verifier

    The assembler does not check registers, arities or how a function ends; the
    kernel's verifier does.  Here the checks a careful author makes on the text
    ([fn_checked]: registers inside the frame, argument counts equal to the
    callee's arity, a last instruction that does not fall through, a line for every jump label) are shown to
    be enough for the verifier to accept the code of a listing. *)

From S2P Require Import Prelude Bytecode BytecodeAnalysis Verify VerifySound.
From S2P Require Import Asm AsmRef AsmLayout.

(** ** Checks on a listing *)

Definition terminator (o : Z) : bool := bool_decide (o ∈ [op.JMP; op.RET; op.EXIT_ATOM]).

Section checks.
Context (ar : Z -> option Z) (nr : Z).

Definition check_regs (rs : list Z) : bool := forallb (fun r => bool_decide (r < nr)) rs.

Definition check_arg (a : arg) : bool :=
  match a with
  | AReg r => bool_decide (r < nr)
  | ARegs rs => bool_decide (zlen rs < 256) && check_regs rs
  | ACall i rs => bool_decide (ar i = Some (zlen rs) /\ zlen rs < 256) && check_regs rs
  | ASpawn i => bool_decide (ar i = Some 1)
  | AByte _ | AInt _ | AAtom _ | AJump _ => true
  end.

(** The last line is an instruction after which control does not go on. *)
Definition ends_well (items : list aitem) : bool :=
  match list.last items with Some (LIns o _) => terminator o | _ => false end.

Definition listing_checked (items : list aitem) : bool :=
  forallb (fun it => forallb check_arg (item_args it)) items && ends_well items.
End checks.

(** ** What the table promises about instructions *)

Definition shape_item (sh : shape) : item :=
  match sh with
  | SReg => IReg | SByte => IRaw 1 | SInt => IRaw 8 | SAtom => IAtom | SRegs => IRegs
  | SCall => ICall | SSpawn => ISpawn | SJump => IJump
  end.

Abbreviation byte_val := (fun r => 0 <= r < 256).

Definition arg_fits (sh : shape) (a : arg) : Prop :=
  match sh, a with
  | SReg, AReg r => 0 <= r < 256
  | SByte, AByte _ | SInt, AInt _ | SAtom, AAtom _ | SJump, AJump _ => True
  | SRegs, ARegs rs => Forall byte_val rs
  | SCall, ACall i rs => 0 <= i < 2 ^ 32 /\ Forall byte_val rs
  | SSpawn, ASpawn i => 0 <= i < 2 ^ 32
  | _, _ => False
  end.

Definition item_fits (it : aitem) : Prop :=
  match it with
  | LBind _ => True
  | LIns o as_ => 0 <= o < 256 /\ exists shs, format o = Some (map shape_item shs, terminator o) /\ Forall2 arg_fits shs as_
  end.

Lemma rows_format :
  Forall (fun r => 0 <= r_op r < 256 /\ format (r_op r) = Some (map shape_item (r_shapes r), terminator (r_op r))) mnemonics.
Proof. unfold mnemonics. repeat (constructor; [split; [vm_compute; split; congruence|vm_compute; reflexivity]|]). constructor. Qed.

Lemma parse_digits_range lo hi neg s : forall acc v,
  lo <= acc <= hi -> parse_digits lo hi neg acc s = Ok v -> lo <= v <= hi.
Proof.
  induction s as [|c s IH]; intros acc v Ha; cbn [parse_digits]; [by intros [= <-]|].
  destruct (to_digit c); [|done]. case_bool_decide as Hb; [|done]. apply IH. apply Hb.
Qed.

Lemma parse_int_range lo hi s v : lo <= 0 <= hi -> parse_int lo hi s = Ok v -> lo <= v <= hi.
Proof. intros H0 H. unfold parse_int in H. repeat case_match; simplify_eq; by eapply parse_digits_range. Qed.

Lemma reg_of_range s r : reg_of s = Some r -> 0 <= r < 256.
Proof.
  unfold reg_of. destruct (strip_prefix _ s) as [n|]; [|done]. destruct (parse_u8 n) as [v| | |] eqn:E; try done.
  intros [= <-]. apply parse_int_range in E; lia.
Qed.

(** Function indices are 32-bit. *)
Definition fns_fit (fns : gmap (list Z) (Z * Z)) : Prop := forall k i a, fns !! k = Some (i, a) -> 0 <= i < 2 ^ 32.

Section fits.
Context (fns : gmap (list Z) (Z * Z)) (Hfns : fns_fit fns).

Lemma get_regs_fit ln l : forall rs, mapM (get_reg ln) l = Ok rs -> Forall byte_val rs.
Proof using Type.
  induction l as [|x l IH]; intros rs; cbn [mapM]; [by intros [= <-]|]. unfold mbind, res_bind, get_reg.
  destruct (reg_of x) as [r|] eqn:E; [|done]. fold (get_reg ln). destruct (mapM (get_reg ln) l) as [rs'| | |]; try done.
  intros [= <-]. constructor; [by eapply reg_of_range|by apply IH].
Qed.

Lemma ref_arg_fits ln ops k sh a : ref_arg fns ln ops k sh = Ok a -> arg_fits sh a.
Proof using Hfns.
  intros H. destruct sh; cbn [ref_arg] in H; unfold get_op, mbind, res_bind in H.
  all: try (destruct (ops !! k) as [s|]; [|done]).
  - unfold get_reg in H. destruct (reg_of s) as [r|] eqn:E; [|done]. injection H as <-. by eapply reg_of_range.
  - destruct (get_int _); try done. by injection H as <-.
  - destruct (get_int _); try done. by injection H as <-.
  - by injection H as <-.
  - unfold get_regs in H. destruct (mapM _ _) as [rs| | |] eqn:E; try done. injection H as <-. by eapply get_regs_fit.
  - unfold get_fn in H. destruct (fns !! s) as [[i ari]|] eqn:E; [|done].
    unfold get_regs in H. destruct (mapM _ _) as [rs| | |] eqn:E'; try done. injection H as <-.
    split; [by eapply Hfns|by eapply get_regs_fit].
  - unfold get_fn in H. destruct (fns !! s) as [[i ari]|] eqn:E; [|done]. injection H as <-. by eapply Hfns.
  - by injection H as <-.
Qed.

Lemma ref_args_fit ln ops shs : forall k as_, ref_args fns ln ops k shs = Ok as_ -> Forall2 arg_fits shs as_.
Proof using Hfns.
  induction shs as [|sh shs IH]; intros k as_; cbn [ref_args]; [by intros [= <-]|]. unfold mbind, res_bind.
  destruct (ref_arg fns ln ops k sh) as [a| | |] eqn:Ha; try done.
  destruct (ref_args fns ln ops (S k) shs) as [as'| | |] eqn:Has; try done. intros [= <-].
  constructor; [by eapply ref_arg_fits|by eapply IH].
Qed.

Lemma ref_line_fits l it : ref_line fns l = Ok it -> item_fits it.
Proof using Hfns.
  unfold ref_line. destruct (strip_suffix 58 l.2); [by intros [= <-]|].
  unfold find_row. destruct (list.head _) as [r|] eqn:Hr; [|done].
  assert (r ∈ mnemonics) as Hin.
  { apply head_Some_elem_of in Hr. by apply list_elem_of_filter in Hr as [_ ?]. }
  unfold ref_row. case_bool_decide; [|done].
  destruct (ref_args _ _ _ 0 (r_shapes r)) as [as_| | |] eqn:Has; try done. intros [= <-].
  pose proof rows_format as HF. rewrite Forall_forall in HF. destruct (HF r Hin) as [Hop Hf].
  split; [done|]. exists (r_shapes r). split; [done|]. by eapply ref_args_fit.
Qed.

Lemma ref_lines_fit body : forall items, ref_lines fns body = Ok items -> Forall item_fits items.
Proof using Hfns.
  unfold ref_lines. induction body as [|l body IH]; intros items; cbn [mapM]; [by intros [= <-]|].
  unfold mbind, res_bind. destruct (ref_line fns l) as [it| | |] eqn:Hl; try done.
  destruct (mapM (ref_line fns) body) as [its| | |]; try done. intros [= <-].
  constructor; [by eapply ref_line_fits|by apply IH].
Qed.
End fits.

(** ** Bytes of a listing *)

Lemma zlen_arg_bytes offs A pos a : zlen (arg_bytes offs A pos a) = arg_len a.
Proof.
  destruct a; cbn [arg_bytes arg_len]; autorewrite with zlen; unfold zlen; rewrite ?length_le_bytes, ?length_map; simpl; lia.
Qed.

Lemma zlen_args_bytes offs A as_ : forall pos, zlen (args_bytes offs A pos as_) = args_len as_.
Proof.
  induction as_ as [|a as_ IH]; intros pos; [done|]. cbn [args_bytes args_len foldr].
  rewrite zlen_app, zlen_arg_bytes, IH. done.
Qed.

Lemma zlen_item_bytes offs A pos it : zlen (item_bytes offs A pos it) = item_len it.
Proof. destruct it; [done|]. cbn [item_bytes item_len]. by rewrite zlen_cons, zlen_args_bytes. Qed.

Definition items_len (items : list aitem) : Z := foldr (fun it n => item_len it + n) 0 items.

Lemma zlen_items_bytes offs A items : forall pos, zlen (items_bytes offs A pos items) = items_len items.
Proof.
  induction items as [|it items IH]; intros pos; [done|]. cbn [items_bytes items_len foldr].
  by rewrite zlen_app, zlen_item_bytes, IH.
Qed.

Lemma items_len_app l1 l2 : items_len (l1 ++ l2) = items_len l1 + items_len l2.
Proof. induction l1 as [|it l1 IH]; [done|]. unfold items_len in *. cbn [app foldr]. rewrite IH. lia. Qed.

Lemma args_len_nonneg as_ : 0 <= args_len as_.
Proof.
  induction as_ as [|a as_ IH]; [done|]. cbn [args_len foldr]. fold (args_len as_).
  assert (0 <= arg_len a); [|lia]. destruct a as [| | | |rs|i rs| |]; cbn [arg_len]; try lia.
  all: pose proof (zlen_nonneg rs); lia.
Qed.

Lemma item_len_nonneg it : 0 <= item_len it.
Proof. destruct it as [|o as_]; cbn [item_len]; [lia|]. pose proof (args_len_nonneg as_). lia. Qed.

Lemma items_len_nonneg items : 0 <= items_len items.
Proof.
  induction items as [|it items IH]; [done|]. unfold items_len in *. cbn [foldr]. pose proof (item_len_nonneg it). lia.
Qed.

Lemma items_bytes_app offs A l1 : forall pos l2,
  items_bytes offs A pos (l1 ++ l2) = items_bytes offs A pos l1 ++ items_bytes offs A (pos + items_len l1) l2.
Proof.
  induction l1 as [|it l1 IH]; intros pos l2; cbn [app items_bytes].
  - by rewrite Z.add_0_r.
  - rewrite IH, <- app_assoc. do 3 f_equal. unfold items_len. cbn [foldr]. lia.
Qed.

(** Where a label is bound. *)
Lemma label_offs_spec items : forall pos offs n p, label_offs pos items offs !! n = Some p ->
  offs !! n = Some p \/ exists l1 l2, items = l1 ++ LBind n :: l2 /\ p = pos + items_len l1.
Proof.
  induction items as [|it items IH]; intros pos offs n p; cbn [label_offs]; [by left|].
  intros [Ho|(l1 & l2 & -> & ->)]%IH.
  - destruct it as [b|o as_]; [|by left]. rewrite lookup_insert in Ho. case_decide; [|by left].
    simplify_eq. right. exists [], items. split; [done|]. cbn. lia.
  - right. exists (it :: l1), l2. split; [done|]. unfold items_len. cbn [foldr]. lia.
Qed.

(** ** The grammar at a position of the code *)

Lemma lookupz_mid {A} (pre : list A) x post : lookupz (pre ++ x :: post) (zlen pre) = Some x.
Proof.
  apply lookupz_Some. split; [apply zlen_nonneg|]. unfold zlen. rewrite Nat2Z.id.
  rewrite lookup_app_r by lia. by rewrite Nat.sub_diag.
Qed.

Lemma u32_mid pre v post : u32_operand (pre ++ le_bytes 4 v ++ post) (zlen pre) = Some (wrap 32 v).
Proof.
  unfold u32_operand. pose proof (slice_lookupz (pre ++ le_bytes 4 v ++ post) (le_bytes 4 v) (zlen pre)) as H.
  assert (zlen (le_bytes 4 v) = 4) as H4 by (unfold zlen; by rewrite length_le_bytes). rewrite H4 in H.
  rewrite H; [cbn [fmap option_fmap option_map]; by rewrite le_val_bytes| | |].
  - apply zlen_nonneg.
  - rewrite !zlen_app, H4. pose proof (zlen_nonneg post). lia.
  - intros i Hi. unfold lookupz. autorewrite with zlen. rewrite H4. pose proof (zlen_nonneg pre). pose proof (zlen_nonneg post).
    rewrite !bool_decide_true by lia. unfold zlen in *. rewrite lookup_app_r by lia.
    rewrite lookup_app_l by lia. f_equal. lia.
Qed.

Section positions.
Context (m : Module_) (f : Function) (offs A : list Z -> Z).
Abbreviation ar := (fun i => arity <$> lookupz (functions m) i).

Lemma reg_at_mid pre r post : code f = pre ++ z2b r :: post -> 0 <= r < 256 -> r < nregs f -> reg_at f (zlen pre).
Proof. intros Hc Hr Hn. exists (z2b r). split; [rewrite Hc; apply lookupz_mid|]. rewrite b2z_z2b, Z.mod_small; lia. Qed.

Lemma regs_at rs : forall pre post, code f = pre ++ map z2b rs ++ post -> Forall byte_val rs ->
  check_regs (nregs f) rs = true -> forall j, zlen pre <= j < zlen pre + zlen rs -> reg_at f j.
Proof.
  induction rs as [|r rs IH]; intros pre post Hc HF Hk j Hj; [rewrite zlen_nil in Hj; lia|].
  apply Forall_cons in HF as [Hr HF]. cbn [check_regs forallb] in Hk. apply andb_true_iff in Hk as [Hn Hk].
  apply bool_decide_eq_true in Hn. rewrite zlen_cons in Hj. destruct (decide (j = zlen pre)) as [->|].
  - by apply (reg_at_mid pre r (map z2b rs ++ post)).
  - eapply (IH (pre ++ [z2b r]) post); [|done|done|].
    + rewrite Hc. cbn [map app]. by rewrite <- app_assoc.
    + autorewrite with zlen. lia.
Qed.

Lemma arg_item_ok pre a post sh :
  code f = pre ++ arg_bytes offs A (zlen pre) a ++ post -> arg_fits sh a ->
  check_arg ar (nregs f) a = true -> (forall n, n ∈ arg_atom a -> 0 <= A n < zlen (atoms m) /\ A n < 2 ^ 32) ->
  item_ok m f (shape_item sh) (zlen pre) (zlen pre + arg_len a).
Proof.
  intros Hc Hf Hk Ha. pose proof (zlen_nonneg post) as Hpost.
  assert (zlen (code f) = zlen pre + arg_len a + zlen post) as Hlen.
  { rewrite Hc, !zlen_app, zlen_arg_bytes. lia. }
  destruct sh, a; try done; cbn [arg_fits check_arg arg_bytes arg_len shape_item item_ok] in *.
  - apply bool_decide_eq_true in Hk. split; [by eapply reg_at_mid|done].
  - lia.
  - lia.
  - destruct (Ha name) as [H1 H2]; [by left|]. exists (A name). rewrite Hc, u32_mid, wrap_small by lia. split_and!; [done|lia|done].
  - apply andb_true_iff in Hk as [Hl Hk]. apply bool_decide_eq_true in Hl. pose proof (zlen_nonneg rs).
    exists (z2b (zlen rs)). rewrite b2z_z2b, Z.mod_small by lia. split_and!; [rewrite Hc; apply lookupz_mid|lia|].
    intros j Hj. eapply (regs_at rs (pre ++ [z2b (zlen rs)]) post); [|done|done|].
    + rewrite Hc. cbn [app]. by rewrite <- app_assoc.
    + autorewrite with zlen. lia.
  - apply andb_true_iff in Hk as [Hl Hk]. apply bool_decide_eq_true in Hl as [Hl Hl']. pose proof (zlen_nonneg rs).
    destruct Hf as [Hi HF]. destruct (lookupz (functions m) callee) as [g|] eqn:Hg; [|done].
    cbn in Hl. injection Hl as Hl. exists callee, g, (z2b (zlen rs)). rewrite b2z_z2b, Z.mod_small by lia.
    rewrite <- app_assoc in Hc.
    assert (zlen pre + 4 = zlen (pre ++ le_bytes 4 callee)) as H4.
    { rewrite zlen_app. unfold zlen at 3. by rewrite length_le_bytes. }
    split_and!; [rewrite Hc, u32_mid, wrap_small by lia; done|done| |done|lia|].
    + rewrite H4, Hc, app_assoc. apply lookupz_mid.
    + intros j Hj. eapply (regs_at rs ((pre ++ le_bytes 4 callee) ++ [z2b (zlen rs)]) post); [|done|done|].
      * rewrite Hc, <- !app_assoc. done.
      * rewrite zlen_app, <- H4, zlen_cons, zlen_nil. lia.
  - apply bool_decide_eq_true in Hk. destruct (lookupz (functions m) callee) as [g|] eqn:Hg; [|done].
    cbn in Hk. injection Hk as Hk. exists callee, g. split_and!; [rewrite Hc, u32_mid, wrap_small by lia; done|done|done|done].
  - split; [|done]. rewrite Hc, u32_mid. done.
Qed.

(** What the operands of an instruction must satisfy. *)
Definition args_good (as_ : list arg) : Prop :=
  forallb (check_arg ar (nregs f)) as_ = true /\
  (forall n, n ∈ concat (map arg_atom as_) -> 0 <= A n < zlen (atoms m) /\ A n < 2 ^ 32) /\
  (forall n, n ∈ concat (map arg_jump as_) -> 0 <= offs n <= zlen (code f)).

Lemma args_good_cons a as_ : args_good (a :: as_) ->
  check_arg ar (nregs f) a = true /\ (forall n, n ∈ arg_atom a -> 0 <= A n < zlen (atoms m) /\ A n < 2 ^ 32) /\
  (forall n, n ∈ arg_jump a -> 0 <= offs n <= zlen (code f)) /\ args_good as_.
Proof.
  intros (Hk & Ha & Hj). cbn [forallb map concat] in *. apply andb_true_iff in Hk as [Hk1 Hk2].
  setoid_rewrite elem_of_app in Ha. setoid_rewrite elem_of_app in Hj. split_and!; auto. split_and!; auto.
Qed.

Lemma args_items_ok as_ : forall pre post shs,
  code f = pre ++ args_bytes offs A (zlen pre) as_ ++ post -> Forall2 arg_fits shs as_ -> args_good as_ ->
  items_ok m f (map shape_item shs) (zlen pre) (zlen pre + args_len as_).
Proof.
  induction as_ as [|a as_ IH]; intros pre post shs Hc HF Hg.
  - apply Forall2_nil_inv_r in HF as ->. cbn. lia.
  - apply Forall2_cons_inv_r in HF as (sh & shs' & Hsh & HF & ->).
    apply args_good_cons in Hg as (Hk & Ha & _ & Hg). cbn [args_bytes] in Hc. rewrite <- app_assoc in Hc.
    cbn [map items_ok]. exists (zlen pre + arg_len a). split; [by eapply arg_item_ok|].
    assert (zlen (pre ++ arg_bytes offs A (zlen pre) a) = zlen pre + arg_len a) as Hz.
    { by rewrite zlen_app, zlen_arg_bytes. }
    rewrite <- Hz. replace (zlen pre + args_len (a :: as_)) with (zlen (pre ++ arg_bytes offs A (zlen pre) a) + args_len as_)
      by (rewrite Hz; cbn [args_len foldr]; fold (args_len as_); lia).
    eapply IH; [|done|done]. rewrite Hz, <- app_assoc. exact Hc.
Qed.

(** Jumps lead to the offsets of their labels. *)
Lemma args_jumps as_ : forall pre post shs t,
  zlen (code f) < 2 ^ 31 ->
  code f = pre ++ args_bytes offs A (zlen pre) as_ ++ post -> Forall2 arg_fits shs as_ -> args_good as_ ->
  jumps m f (map shape_item shs) (zlen pre) t -> exists n, n ∈ concat (map arg_jump as_) /\ t = offs n.
Proof.
  induction as_ as [|a as_ IH]; intros pre post shs t Hs Hc HF Hg.
  - by apply Forall2_nil_inv_r in HF as ->.
  - apply Forall2_cons_inv_r in HF as (sh & shs' & Hsh & HF & ->).
    apply args_good_cons in Hg as (Hk & Ha & Hj & Hg). cbn [args_bytes] in Hc. rewrite <- app_assoc in Hc.
    cbn [map concat jumps]. setoid_rewrite elem_of_app. intros (a' & Hi & Hcase).
    assert (a' = zlen pre + arg_len a) as -> by (by eapply item_ok_det, arg_item_ok).
    assert (zlen (pre ++ arg_bytes offs A (zlen pre) a) = zlen pre + arg_len a) as Hz.
    { by rewrite zlen_app, zlen_arg_bytes. }
    destruct Hcase as [(Hjump & v & Hv & ->)|Hrest].
    + destruct sh; try done. destruct a as [| | | | | | |n]; try done. exists n.
      cbn [arg_bytes arg_jump] in *. split; [left; by left|].
      rewrite Hc, u32_mid in Hv. injection Hv as <-. rewrite swrap_wrap by lia.
      specialize (Hj n (list_elem_of_here n [])). cbn [arg_len].
      pose proof (zlen_nonneg pre). assert (zlen pre <= zlen (code f)).
      { rewrite Hc, zlen_app. pose proof (zlen_nonneg (le_bytes 4 (offs n - (zlen pre + 4)) ++ args_bytes offs A (zlen pre + arg_len (AJump n)) as_ ++ post)). lia. }
      assert (zlen pre + 4 <= zlen (code f)).
      { rewrite Hc, !zlen_app. unfold zlen at 3. rewrite length_le_bytes.
        pose proof (zlen_nonneg (args_bytes offs A (zlen pre + arg_len (AJump n)) as_)). pose proof (zlen_nonneg post). lia. }
      rewrite swrap_small by lia. lia.
    + rewrite <- Hz in Hrest. eapply IH in Hrest as (n & Hn & ->); [|done| |done|done]; [eauto|].
      rewrite Hz, <- app_assoc. exact Hc.
Qed.
End positions.

(** ** A checked listing is well-formed code *)

Section listing.
Context (m : Module_) (f : Function) (items : list aitem) (A : list Z -> Z).
Abbreviation ar := (fun i => arity <$> lookupz (functions m) i).
Abbreviation offs := (index_in (label_offs 0 items ∅)).

Context (Hcode : code f = items_bytes offs A 0 items).
Context (Hsmall : zlen (code f) < 2 ^ 31).
Context (Hfit : Forall item_fits items).
Context (Hcheck : listing_checked ar (nregs f) items = true).
Context (Hatoms : forall n, n ∈ concat (map item_atoms items) -> 0 <= A n < zlen (atoms m) /\ A n < 2 ^ 32).
Context (Hbound : first_unbound items = None).

Lemma code_len : zlen (code f) = items_len items.
Proof using Hcode. by rewrite Hcode, zlen_items_bytes. Qed.

(** Every label stands before an instruction. *)
Lemma after_label l1 l2 : items = l1 ++ l2 -> l2 <> [] -> items_len l1 < items_len items.
Proof using Hcheck.
  intros Hi Hne. destruct (exists_last Hne) as (l3 & it & ->). apply andb_true_iff in Hcheck as [_ He].
  rewrite Hi in He |- *. unfold ends_well in He. rewrite app_assoc, last_snoc in He. destruct it as [|o as_]; [done|].
  rewrite !items_len_app. pose proof (items_len_nonneg l3). pose proof (args_len_nonneg as_). cbn. lia.
Qed.

Lemma jump_bound n : n ∈ concat (map item_jumps items) ->
  exists l1 l2, items = l1 ++ LBind n :: l2 /\ offs n = items_len l1.
Proof using Hbound.
  intros Hn. destruct (label_offs 0 items ∅ !! n) as [p|] eqn:E.
  - pose proof E as E'. apply label_offs_spec in E' as [Hx|(l1 & l2 & Hi & ->)]; [by rewrite lookup_empty in Hx|].
    exists l1, l2. split; [done|]. unfold index_in. rewrite E. cbn. lia.
  - unfold first_unbound in Hbound. apply head_None in Hbound.
    assert (n ∈ filter (fun n => label_offs 0 items ∅ !! n = None) (concat (map item_jumps items))) as Hf.
    { by apply list_elem_of_filter. }
    rewrite Hbound in Hf. by apply elem_of_nil in Hf.
Qed.

Lemma ins_good l1 o as_ l2 : items = l1 ++ LIns o as_ :: l2 -> args_good m f offs A as_.
Proof using Hcode Hcheck Hatoms Hbound.
  intros Hi. assert (forall n, n ∈ concat (map arg_jump as_) -> n ∈ concat (map item_jumps items)) as Hj.
  { intros n Hn. rewrite Hi, map_app, concat_app. cbn [map concat]. rewrite !elem_of_app. by right; left. }
  assert (forall n, n ∈ concat (map arg_atom as_) -> n ∈ concat (map item_atoms items)) as Ha.
  { intros n Hn. rewrite Hi, map_app, concat_app. cbn [map concat]. rewrite !elem_of_app. by right; left. }
  split_and!; [|auto|].
  - apply andb_true_iff in Hcheck as [Hk _]. rewrite Hi, forallb_app in Hk. cbn [forallb item_args] in Hk.
    by apply andb_true_iff in Hk as [_ [? _]%andb_true_iff].
  - intros n Hn%Hj. destruct (jump_bound n Hn) as (k1 & k2 & Hk & ->). rewrite code_len, Hk, items_len_app.
    pose proof (items_len_nonneg k1). pose proof (items_len_nonneg (LBind n :: k2)). lia.
Qed.

(** The instruction of a listing, at its offset in the code. *)
Lemma ins_at l1 o as_ l2 : items = l1 ++ LIns o as_ :: l2 -> exists shs,
  instr_at m f (items_len l1) (map shape_item shs) (terminator o) (items_len (l1 ++ [LIns o as_])) /\
  forall t, jumps m f (map shape_item shs) (items_len l1 + 1) t -> exists n, n ∈ concat (map arg_jump as_) /\ t = offs n.
Proof using Type*.
  intros Hi. pose proof Hfit as HF. rewrite Hi in HF. apply Forall_app in HF as [_ [HF _]%Forall_cons].
  destruct HF as (Ho & shs & Hfmt & HF). pose proof (ins_good _ _ _ _ Hi) as Hg. exists shs.
  set (pre := items_bytes offs A 0 l1). set (post := items_bytes offs A (items_len l1 + item_len (LIns o as_)) l2).
  assert (zlen pre = items_len l1) as Hpre by apply zlen_items_bytes.
  assert (code f = (pre ++ [z2b o]) ++ args_bytes offs A (zlen (pre ++ [z2b o])) as_ ++ post) as Hc.
  { assert (forall g, items_bytes g A 0 items = items_bytes g A 0 l1 ++ items_bytes g A (0 + items_len l1) (LIns o as_ :: l2)) as Hsp.
    { intros g. rewrite Hi. apply items_bytes_app. }
    rewrite Hcode, Hsp, zlen_app, Hpre. cbn [items_bytes item_bytes]. by rewrite <- !app_assoc. }
  assert (zlen (pre ++ [z2b o]) = items_len l1 + 1) as Hz by (rewrite zlen_app, Hpre; done). split.
  - exists (z2b o). rewrite b2z_z2b, Z.mod_small by lia. split_and!; [|done|].
    + rewrite Hc, <- Hpre, <- app_assoc. apply lookupz_mid.
    + rewrite items_len_app, <- Hz. cbn [items_len foldr item_len].
      replace (items_len l1 + (1 + args_len as_ + 0)) with (zlen (pre ++ [z2b o]) + args_len as_) by lia.
      by eapply args_items_ok.
  - intros t. rewrite <- Hz. by eapply args_jumps.
Qed.

(** The next instruction of a listing, past the labels. *)
Lemma next_ins l : items_len l = 0 \/ exists k1 o as_ k2, l = k1 ++ LIns o as_ :: k2 /\ items_len k1 = 0.
Proof using Type.
  induction l as [|[n|o as_] l IH]; [by left| |].
  - destruct IH as [IH|(k1 & o & as_ & k2 & -> & Hk)]; [by left|]. right. exists (LBind n :: k1), o, as_, k2. by split.
  - right. exists [], o, as_, l. by split.
Qed.

(** The instruction boundaries of the code are the positions of the listing. *)
Lemma listing_reach l1 : forall l2, items = l1 ++ l2 -> rtc (next_instr m f) 0 (items_len l1).
Proof using Type*.
  induction l1 as [|it l1 IH] using rev_ind; intros l2 Hi; [done|]. rewrite <- app_assoc in Hi.
  specialize (IH _ Hi). destruct it as [n|o as_].
  - rewrite items_len_app. cbn. by rewrite Z.add_0_r.
  - eapply rtc_r; [exact IH|]. destruct (ins_at _ _ _ _ Hi) as (shs & Hat & _). by eexists _, _.
Qed.

Lemma listing_reached a : rtc (next_instr m f) 0 a -> exists l1 l2, items = l1 ++ l2 /\ a = items_len l1.
Proof using Type*.
  intros Hr. eapply (rtc_preserves _ (fun a => exists l1 l2, items = l1 ++ l2 /\ a = items_len l1)); [|exact Hr|].
  2: { by exists [], items. }
  intros b e (l1 & l2 & Hi & ->) (is_ & term & Hat).
  destruct (next_ins l2) as [H0|(k1 & o & as_ & k2 & -> & Hk)].
  { apply instr_at_bound in Hat. rewrite code_len, Hi, items_len_app in Hat. lia. }
  rewrite app_assoc in Hi. destruct (ins_at _ _ _ _ Hi) as (shs & Hat' & _).
  rewrite items_len_app, Hk, Z.add_0_r in Hat'.
  destruct (instr_at_det _ _ _ _ _ _ _ _ _ Hat Hat') as (_ & _ & ->).
  exists ((l1 ++ k1) ++ [LIns o as_]), k2. split; [by rewrite <- app_assoc|done].
Qed.

Lemma listing_decoded l1 l2 : items = l1 ++ l2 -> l2 <> [] -> decoded m f (items_len l1).
Proof using Type*.
  intros Hi Hne. split; [by eapply listing_reach|]. rewrite code_len. by eapply after_label.
Qed.

Lemma listing_fn_ok : is_Some (lookupz (atoms m) (name_atom f)) -> arity f <= nregs f -> fn_ok m f.
Proof using Type*.
  intros Hname Har. assert (items <> []) as Hne.
  { intros He. pose proof Hcheck as Hk. by rewrite He in Hk. }
  split; [done|done|by apply (listing_decoded [] items)|].
  intros a [Hr Ha]. apply listing_reached in Hr as (l1 & l2 & Hi & ->).
  destruct (next_ins l2) as [H0|(k1 & o & as_ & k2 & -> & Hk)].
  { rewrite code_len, Hi, items_len_app in Ha. lia. }
  rewrite app_assoc in Hi. destruct (ins_at _ _ _ _ Hi) as (shs & Hat & Hj).
  rewrite items_len_app, Hk, Z.add_0_r in Hat, Hj. eexists _, _, _. split; [exact Hat|]. split.
  - intros Ht. apply (listing_decoded _ k2); [by rewrite Hi, <- (app_assoc (l1 ++ k1))|]. intros ->.
    apply andb_true_iff in Hcheck as [_ He]. unfold ends_well in He. rewrite Hi, last_snoc in He. congruence.
  - intros t (n & Hn & ->)%Hj. destruct (jump_bound n) as (j1 & j2 & Hj1 & ->).
    + rewrite Hi, map_app, concat_app. cbn [map concat]. rewrite !elem_of_app. by right; left.
    + by eapply listing_decoded.
Qed.
End listing.
