(* ===== verification/AsmText.v ===== *)
(** * AsmText: the text the assembler passes on

    Every name of the module is a piece of the source text, so the atoms of an
    assembled module are valid UTF-8. *)

From stdpp Require Import strings.
From S2P Require Import Prelude Bytecode Asm AsmRef.

(** ** UTF-8 *)

(** A Unicode scalar value: what a Rust [char] can be. *)
Definition scalar (c : Z) : Prop := 0 <= c < 55296 \/ 57344 <= c < 1114112.

#[export] Instance scalar_dec c : Decision (scalar c).
Proof. unfold scalar. apply _. Defined.

Lemma in_range_z2b lo hi z : 0 <= z < 256 -> in_range lo hi (z2b z) = bool_decide (lo <= z <= hi).
Proof. intros H. unfold in_range. by rewrite b2z_z2b, Z.mod_small. Qed.

(** Evaluate the range tests of [valid_utf8] on a byte given as a number. *)
Ltac range_tests :=
  repeat first
    [ rewrite in_range_z2b by lia
    | rewrite bool_decide_true by lia
    | rewrite bool_decide_false by lia
    | progress cbn [orb andb] ].

Lemma cont_z2b z : cont (z2b (128 + z mod 64)) = true.
Proof. unfold cont. pose proof (Z.mod_pos_bound z 64). by range_tests. Qed.

Lemma valid_utf8_char c rest : scalar c -> valid_utf8 (utf8_char c ++ rest) = valid_utf8 rest.
Proof.
  intros Hc. unfold utf8_char, scalar in *.
  case_bool_decide as H1; [|case_bool_decide as H2; [|case_bool_decide as H3]]; cbn [app valid_utf8].
  - by range_tests.
  - pose proof (Z.div_lt_upper_bound c 64 32). pose proof (Z.div_le_lower_bound c 64 2). range_tests. by rewrite cont_z2b.
  - pose proof (Z.div_lt_upper_bound c 4096 16). pose proof (Z.div_pos c 4096). pose proof (Z.mod_pos_bound (c / 64) 64).
    destruct (decide (c < 4096)).
    { assert (c / 4096 = 0) as -> by (apply Z.div_small; lia). 
      assert (32 <= c / 64 < 64) by (split; [apply Z.div_le_lower_bound; lia|apply Z.div_lt_upper_bound; lia]).
      rewrite (Z.mod_small (c / 64)) by lia. range_tests. by rewrite cont_z2b. }
    assert (1 <= c / 4096) by (apply Z.div_le_lower_bound; lia).
    destruct (decide (c / 4096 = 13)) as [E|].
    { assert ((c / 64) mod 64 < 32).
      { assert (c < 55296) by (pose proof (Z.div_le_lower_bound c 4096 14); lia).
        pose proof (Z.div_mod (c / 64) 64). assert (c / 64 / 64 = 13) by (rewrite Z.div_div by lia; done).
        assert (c / 64 < 864) by (apply Z.div_lt_upper_bound; lia). lia. }
      range_tests. by rewrite cont_z2b. }
    destruct (decide (1 <= c / 4096 <= 12)); range_tests; by rewrite !cont_z2b.
  - assert (0 <= c / 262144 < 5) by (split; [apply Z.div_pos; lia|apply Z.div_lt_upper_bound; lia]).
    pose proof (Z.mod_pos_bound (c / 4096) 64). pose proof (Z.div_mod (c / 4096) 64).
    assert (c / 4096 / 64 = c / 262144) as E by (rewrite Z.div_div by lia; done).
    assert (16 <= c / 4096 < 272) by (split; [apply Z.div_le_lower_bound; lia|apply Z.div_lt_upper_bound; lia]).
    destruct (decide (c / 262144 = 0)); [|destruct (decide (c / 262144 = 4))].
    + range_tests. by rewrite !cont_z2b.
    + range_tests. by rewrite !cont_z2b.
    + range_tests. by rewrite !cont_z2b.
Qed.

Lemma utf8_valid s : Forall scalar s -> valid_utf8 (utf8 s) = true.
Proof.
  unfold utf8. induction 1 as [|c s Hc _ IH]; [done|]. cbn [map concat]. by rewrite valid_utf8_char.
Qed.

(** ** Pieces of a text *)

Section pieces.
Context (P : Z -> Prop).

Lemma trim_start_by_Forall p s : Forall P s -> Forall P (trim_start_by p s).
Proof. induction 1 as [|c s Hc Hs IH]; cbn [trim_start_by]; [done|]. destruct (p c); [done|by constructor]. Qed.

Lemma trim_end_by_Forall p s : Forall P s -> Forall P (trim_end_by p s).
Proof. intros H. unfold trim_end_by. by apply Forall_reverse, trim_start_by_Forall, Forall_reverse. Qed.

Lemma trim_Forall s : Forall P s -> Forall P (trim s).
Proof. intros H. by apply trim_end_by_Forall, trim_start_by_Forall. Qed.

Lemma split_once_Forall p s : forall a b, Forall P s -> split_once p s = Some (a, b) -> Forall P a /\ Forall P b.
Proof.
  induction s as [|c s IH]; intros a b HF; cbn [split_once]; [done|]. apply Forall_cons in HF as [Hc HF].
  destruct (p c); [by intros [= <- <-]|]. destruct (split_once p s) as [[a' b']|]; [|done].
  intros [= <- <-]. destruct (IH a' b' HF eq_refl). by split; [constructor|].
Qed.

Lemma split_on_Forall p s : Forall P s -> Forall (Forall P) (split_on p s).
Proof.
  induction 1 as [|c s Hc _ IH]; cbn [split_on]; [by repeat constructor|]. destruct (p c); [by repeat constructor|].
  destruct IH as [|x l Hx Hl]; repeat constructor; done.
Qed.

Lemma strip_prefix_Forall p : forall s r, Forall P s -> strip_prefix p s = Some r -> Forall P r.
Proof.
  induction p as [|a p IH]; intros s r HF; cbn [strip_prefix]; [by intros [= <-]|]. destruct HF as [|b s Hb HF]; [done|].
  destruct (a =? b); [|done]. by apply IH.
Qed.

Lemma strip_suffix_Forall c s r : Forall P s -> strip_suffix c s = Some r -> Forall P r.
Proof.
  intros HF. unfold strip_suffix. apply Forall_reverse in HF. destruct HF as [|d l Hd Hl]; [done|].
  destruct (c =? d); [|done]. intros [= <-]. by apply Forall_reverse.
Qed.

Lemma lines_Forall s : Forall P s -> Forall (Forall P) (lines s).
Proof.
  intros HF. unfold lines. pose proof (split_on_Forall (Z.eqb 10) s HF) as Hp. set (pieces := split_on _ s) in *.
  assert (Forall (Forall P) (map (fun l => default l (strip_suffix 13 l)) (removelast pieces))) as Hc.
  { apply Forall_map. assert (Forall (Forall P) (removelast pieces)) as Hr.
    { clear -Hp. induction Hp as [|x l Hx Hl IH]; [done|]. cbn [removelast]. destruct l; [done|by constructor]. }
    eapply Forall_impl; [exact Hr|]. intros l Hl. cbn. destruct (strip_suffix 13 l) eqn:E; [by eapply strip_suffix_Forall|done]. }
  destruct (list.last pieces) as [[|c l]|] eqn:E; try done. apply Forall_app. split; [done|]. constructor; [|done].
  apply last_Some_elem_of in E. rewrite Forall_forall in Hp. by apply Hp.
Qed.

Lemma line_parts_Forall line : Forall P line -> Forall (Forall P) (line_parts line).2.
Proof.
  intros HF. unfold line_parts. destruct (default (line, []) (split_once is_whitespace line)) as [mnem rest] eqn:E.
  assert (Forall P rest) as Hr.
  { destruct (split_once is_whitespace line) as [[a b]|] eqn:E'; cbn in E; simplify_eq; [|done].
    by eapply split_once_Forall in E' as [_ ?]. }
  apply (split_on_Forall (Z.eqb 44)) in Hr. rewrite Forall_forall in *. cbn [snd].
  intros x [_ (y & -> & Hy)%list_elem_of_fmap]%list_elem_of_filter. by apply trim_Forall, Hr.
Qed.

(** *** The atoms of a listing *)

Lemma ref_line_atoms fns l it : Forall P l.2 -> ref_line fns l = Ok it -> Forall (Forall P) (item_atoms it).
Proof.
  intros HF. unfold ref_line. destruct (strip_suffix 58 l.2); [by intros [= <-]|].
  destruct (find_row _) as [r|]; [|done]. unfold ref_row. case_bool_decide; [|done].
  destruct (ref_args _ _ _ 0 (r_shapes r)) as [as_| | |] eqn:Has; try done. intros [= <-].
  unfold item_atoms. cbn [item_args]. apply ref_args_names in Has as [_ ->].
  pose proof (line_parts_Forall _ HF) as Hops. clear -Hops. generalize 0%nat.
  induction (r_shapes r) as [|sh shs IH]; intros k; [done|]. cbn [shape_names]. apply Forall_app. split; [|apply IH].
  unfold shape_name. case_decide; [|done]. destruct (_ !! k) eqn:E; [|done]. constructor; [|done].
  rewrite Forall_lookup in Hops. by eapply Hops.
Qed.

Lemma ref_lines_atoms fns body : forall items, Forall (fun l => Forall P l.2) body -> ref_lines fns body = Ok items ->
  Forall (Forall P) (concat (map item_atoms items)).
Proof.
  unfold ref_lines. induction body as [|l body IH]; intros items HF; cbn [mapM]; [by intros [= <-]|].
  apply Forall_cons in HF as [Hl HF]. unfold mbind, res_bind. destruct (ref_line fns l) as [it| | |] eqn:E; try done.
  destruct (mapM (ref_line fns) body) as [its| | |]; try done. intros [= <-]. cbn [map concat].
  apply Forall_app. split; [by eapply ref_line_atoms|by apply IH].
Qed.

(** *** The atom table *)

Definition tab_text (t : AtomTab) : Prop := Forall (Forall P) (at_names t).

Lemma asm_intern_text n t : Forall P n -> tab_text t -> tab_text (asm_intern n t).2.
Proof.
  intros Hn Ht. unfold asm_intern. destruct (at_index t !! n); [done|]. apply Forall_app. split; [done|by constructor].
Qed.

Lemma intern_all_text ns : forall t, Forall (Forall P) ns -> tab_text t -> tab_text (intern_all t ns).
Proof.
  induction ns as [|n ns IH]; intros t HF Ht; [done|]. apply Forall_cons in HF as [Hn HF]. unfold intern_all. cbn [foldl].
  apply IH; [done|by apply asm_intern_text].
Qed.
End pieces.
