(* ===== verification/AsmThms.v ===== *)
(** * AsmThms: what the assembler guarantees

    The whole of [assemble]: names resolve to the functions and atoms they
    stand for, every function's code is the layout of its listing, and the file
    written for a checked source is one the kernel decodes and verifies. *)

From stdpp Require Import strings.
From S2P Require Import Prelude Bytecode BytecodeFormat BytecodeAnalysis Verify VerifySound.
From S2P Require Import Asm AsmRef AsmLayout AsmVerify AsmText.

(** ** The atom table *)

(** Every index leads back to its name. *)
Definition tab_wf (t : AtomTab) : Prop := forall n i, at_index t !! n = Some i -> lookupz (at_names t) i = Some n.

Record tab_le (t t' : AtomTab) : Prop := {
  tl_names : exists k, at_names t' = at_names t ++ k;
  tl_index : at_index t ⊆ at_index t';
}.

#[export] Instance tab_le_preorder : PreOrder tab_le.
Proof.
  split.
  - intros t. split; [exists []; by rewrite app_nil_r|done].
  - intros t1 t2 t3 [[k1 H1] H2] [[k2 H3] H4]. split; [|by etransitivity].
    exists (k1 ++ k2). by rewrite H3, H1, app_assoc.
Qed.

Lemma tab_le_len t t' : tab_le t t' -> zlen (at_names t) <= zlen (at_names t').
Proof. intros [[k ->] _]. rewrite zlen_app. pose proof (zlen_nonneg k). lia. Qed.

Lemma asm_intern_le n t : tab_le t (asm_intern n t).2.
Proof.
  split; [|apply asm_intern_mono]. unfold asm_intern. destruct (at_index t !! n); cbn; [exists []; by rewrite app_nil_r|by exists [n]].
Qed.

Lemma asm_intern_wf n t : tab_wf t -> zlen (at_names (asm_intern n t).2) <= 2 ^ 32 -> tab_wf (asm_intern n t).2.
Proof.
  unfold asm_intern. destruct (at_index t !! n) as [i|] eqn:E; cbn; [done|]. intros Hwf Hl n' i.
  cbn. rewrite zlen_app, zlen_cons, zlen_nil in Hl. rewrite wrap_small by (pose proof (zlen_nonneg (at_names t)); lia).
  rewrite lookup_insert. case_decide as Hn.
  - intros [= <-]. subst n'. apply lookupz_app_r.
  - intros Hi%Hwf. rewrite lookupz_app_l; [done|]. apply lookupz_range in Hi; lia.
Qed.

(** Interning returns an index of the name. *)
Lemma asm_intern_index n t : at_index (asm_intern n t).2 !! n = Some (asm_intern n t).1.
Proof. unfold asm_intern. destruct (at_index t !! n) eqn:E; cbn; [done|]. apply lookup_insert_eq. Qed.

Lemma atoms_interned ns : forall t, tab_wf t -> zlen (at_names (intern_all t ns)) <= 2 ^ 32 ->
  tab_wf (intern_all t ns) /\ tab_le t (intern_all t ns) /\ forall n, n ∈ ns -> is_Some (at_index (intern_all t ns) !! n).
Proof.
  induction ns as [|n ns IH]; intros t Hwf Hl; unfold intern_all in *; cbn [foldl] in *.
  { split_and!; [done|done|]. intros n Hn. by apply elem_of_nil in Hn. }
  assert (forall ns t, tab_le t (foldl (fun t n => (asm_intern n t).2) t ns)) as Hle.
  { clear. induction ns as [|n ns IH]; intros t; [done|]. cbn [foldl]. etransitivity; [apply asm_intern_le|apply IH]. }
  destruct (IH (asm_intern n t).2) as (Hw & Hl' & Hin); [|done|].
  { apply asm_intern_wf; [done|]. etransitivity; [apply tab_le_len, Hle|exact Hl]. }
  split_and!; [done|etransitivity; [apply asm_intern_le|done]|].
  intros n' [-> |Hn]%elem_of_cons; [|by apply Hin]. destruct (asm_intern_in n t) as [i Hi].
  exists i. by eapply lookup_weaken, Hl'.
Qed.

(** The bytes of a listing depend on the atoms it names only. *)
Lemma items_bytes_atoms offs A A' items : forall pos,
  (forall n, n ∈ concat (map item_atoms items) -> A n = A' n) -> items_bytes offs A pos items = items_bytes offs A' pos items.
Proof.
  induction items as [|it items IH]; intros pos H; [done|]. cbn [items_bytes map concat] in *.
  setoid_rewrite elem_of_app in H. f_equal; [|apply IH; auto].
  assert (forall n, n ∈ item_atoms it -> A n = A' n) as Hi by auto. clear H IH.
  destruct it as [|o as_]; [done|]. cbn [item_bytes]. f_equal. unfold item_atoms in Hi. cbn [item_args] in Hi.
  revert Hi. generalize (pos + 1). clear pos. induction as_ as [|a as_ IH]; intros pos Hi; [done|].
  cbn [args_bytes map concat] in *. setoid_rewrite elem_of_app in Hi. f_equal; [|apply IH; auto].
  destruct a; try done. cbn [arg_bytes]. rewrite Hi; [done|]. left. by left.
Qed.

(** ** Function names *)

(** Each key stands for the function declared with it. *)
Definition fns_ok (ds : list FnDecl) (fns : gmap (list Z) (Z * Z)) : Prop := forall k i a,
  fns !! k = Some (i, a) <-> exists d, lookupz ds i = Some d /\ fn_key d = k /\ d_arity d = a.

Lemma index_fns_spec ds2 : forall ds1 fns fns', fns_ok ds1 fns -> zlen (ds1 ++ ds2) <= 2 ^ 32 ->
  index_fns (zlen ds1) ds2 fns = Ok fns' -> fns_ok (ds1 ++ ds2) fns'.
Proof.
  induction ds2 as [|d ds2 IH]; intros ds1 fns fns' Hok Hl; cbn [index_fns].
  { intros [= <-]. by rewrite app_nil_r. }
  destruct (fns !! fn_key d) eqn:E; [done|]. pose proof (zlen_nonneg ds1). pose proof (zlen_nonneg ds2).
  rewrite zlen_app, zlen_cons in Hl. rewrite wrap_small by lia.
  replace (zlen ds1 + 1) with (zlen (ds1 ++ [d])) by (rewrite zlen_app; done).
  replace (ds1 ++ d :: ds2) with ((ds1 ++ [d]) ++ ds2) by (by rewrite <- app_assoc).
  apply IH; [|autorewrite with zlen; lia]. intros k i a. rewrite lookup_insert, lookupz_snoc. case_decide as Hk.
  - subst k. split; [intros [= <- <-]; exists d; by rewrite decide_True|].
    intros (d' & Hd & Hkey & <-). case_decide; [by simplify_eq|].
    assert (fns !! fn_key d = Some (i, d_arity d')) by (apply Hok; eauto). by simplify_eq.
  - rewrite (Hok k i a). split; intros (d' & Hd & Hkey & <-); exists d'.
    + rewrite decide_False by (apply lookupz_range in Hd; lia). done.
    + case_decide; [by simplify_eq|done].
Qed.

Lemma index_fns_ok ds fns : zlen ds <= 2 ^ 32 -> index_fns 0 ds ∅ = Ok fns -> fns_ok ds fns.
Proof.
  intros Hl. apply (index_fns_spec ds [] ∅); [|done]. intros k i a. rewrite lookup_empty.
  split; [done|]. intros (d & Hd & _). by rewrite lookupz_nil in Hd.
Qed.

(** ** Functions *)

(** [f] is the translation of the declaration [d]: its name, sizes, and the
    layout of its listing, atoms resolved in the final table. *)
Definition assembled (fns : gmap (list Z) (Z * Z)) (t : AtomTab) (d : FnDecl) (f : Function) : Prop :=
  lookupz (at_names t) (name_atom f) = Some (d_name d) /\ arity f = d_arity d /\ nregs f = d_nregs d /\
  exists items, ref_lines fns (d_body d) = Ok items /\ first_unbound items = None /\
    (forall n, n ∈ concat (map item_atoms items) ->
       exists i, at_index t !! n = Some i /\ lookupz (at_names t) i = Some n) /\
    code f = items_bytes (index_in (label_offs 0 items ∅)) (index_in (at_index t)) 0 items.

Lemma assembled_mono fns t t' d f : tab_le t t' -> tab_wf t' -> assembled fns t d f -> assembled fns t' d f.
Proof.
  intros Hle Hwf (Hn & Ha & Hr & items & Hi & Hu & Hat & Hc). pose proof Hle as [[k Hk] Hidx].
  split_and!; [|done|done|].
  { rewrite Hk, lookupz_app_l; [done|]. apply lookupz_range in Hn; lia. }
  exists items. split_and!; [done|done| |].
  - intros n Hn'. destruct (Hat n Hn') as (i & Hx & _). exists i.
    assert (at_index t' !! n = Some i) as Hx' by (by eapply lookup_weaken). auto.
  - rewrite Hc. apply items_bytes_atoms. intros n Hn'. destruct (Hat n Hn') as (i & Hx & _).
    symmetry. apply index_in_mono; [done|by exists i].
Qed.

Lemma add_function_inv fns d t f t' : zlen (d_body d) < 2 ^ 32 -> add_function fns d t = (Ok f, t') ->
  exists items, ref_lines fns (d_body d) = Ok items /\ first_unbound items = None /\
    let t1 := ref_atoms t items in
    t' = (asm_intern (d_name d) t1).2 /\
    f = {| name_atom := (asm_intern (d_name d) t1).1; arity := d_arity d; nregs := d_nregs d; code := ref_code t items |}.
Proof.
  intros Hb H. unfold add_function in H. minv. unfold map_err in Hc.
  pose proof (assemble_fn_reference d fns t Hb) as H2. unfold as_reference in H2. destruct (assemble_fn d fns t) as [r t1].
  destruct (ref_lines fns (d_body d)) as [items|e| |] eqn:Hr; [|by cbn in H2; subst r|by cbn in H2; subst r|done].
  destruct H2 as [Ht Hcode]. cbn [fst snd] in *.
  destruct (first_unbound items) eqn:Hu; [destruct Hcode as [id ->]; done|]. rewrite Hcode in Hc. injection Hc as <- <-.
  unfold intern_t in Hc0. rewrite Ht in Hc0. exists items. cbn zeta.
  destruct (asm_intern (d_name d) (ref_atoms t items)) as [na t2] eqn:E. by injection Hc0 as <- <-.
Qed.

Lemma intern_all_le ns : forall t, tab_le t (intern_all t ns).
Proof.
  induction ns as [|n ns IH]; intros t; [done|]. unfold intern_all in *. cbn [foldl].
  etransitivity; [apply asm_intern_le|apply IH].
Qed.

Lemma add_function_spec fns d t f t' : tab_wf t -> zlen (d_body d) < 2 ^ 32 -> zlen (at_names t') <= 2 ^ 32 ->
  add_function fns d t = (Ok f, t') -> tab_wf t' /\ assembled fns t' d f.
Proof.
  intros Hwf Hb Hl H. apply add_function_inv in H as (items & Hr & Hu & H); [|done]. cbn zeta in H.
  set (t1 := ref_atoms t items) in *. destruct H as [-> ->].
  pose proof (asm_intern_le (d_name d) t1) as Hle. set (t2 := (asm_intern (d_name d) t1).2) in *.
  pose proof (tab_le_len _ _ Hle).
  destruct (atoms_interned (concat (map item_atoms items)) t) as (Hw1 & _ & Hin1); [done|fold (ref_atoms t items); fold t1; lia|].
  fold (ref_atoms t items) in Hw1, Hin1. fold t1 in Hw1, Hin1.
  assert (tab_wf t2) as Hw2 by (by apply asm_intern_wf).
  split; [done|]. split_and!; [|done|done|].
  { cbn. apply Hw2. apply asm_intern_index. }
  exists items. split_and!; [done|done| |].
  - intros n Hn. destruct (Hin1 n Hn) as [i Hi]. exists i.
    assert (at_index t2 !! n = Some i) as Hi' by (by eapply lookup_weaken, Hle). auto.
  - cbn [code]. unfold ref_code. fold t1. apply items_bytes_atoms. intros n Hn.
    symmetry. apply index_in_mono; [apply Hle|by apply Hin1].
Qed.

Lemma add_functions_le fns ds : forall t fs t', Forall (fun d => zlen (d_body d) < 2 ^ 32) ds ->
  add_functions fns ds t = (Ok fs, t') -> tab_le t t'.
Proof.
  induction ds as [|d ds IH]; intros t fs t' HF H; cbn [add_functions] in H; [by injection H as <- <-|].
  apply Forall_cons in HF as [Hd HF]. minv. apply add_function_inv in Hc as (items & _ & _ & [-> _]); [|done].
  etransitivity; [apply (intern_all_le (concat (map item_atoms items)))|]. etransitivity; [apply asm_intern_le|]. by eapply IH.
Qed.

Lemma add_functions_spec fns ds : forall t fs t',
  tab_wf t -> Forall (fun d => zlen (d_body d) < 2 ^ 32) ds -> zlen (at_names t') <= 2 ^ 32 ->
  add_functions fns ds t = (Ok fs, t') -> tab_wf t' /\ Forall2 (assembled fns t') ds fs.
Proof.
  induction ds as [|d ds IH]; intros t fs t' Hwf HF Hl H; cbn [add_functions] in H.
  { injection H as <- <-. by split. }
  apply Forall_cons in HF as [Hd HF]. minv. pose proof (add_functions_le _ _ _ _ _ HF Hc0) as Hle.
  pose proof (tab_le_len _ _ Hle). apply add_function_spec in Hc as [Hw1 Ha]; [|done|done|lia].
  destruct (IH _ _ _ Hw1 HF Hl Hc0) as [Hw2 HF2]. split; [done|]. constructor; [by eapply assembled_mono|done].
Qed.

(** ** Lines and declarations *)

Lemma zlen_enumerate {A} (l : list A) : forall i, zlen (enumerate i l) = zlen l.
Proof. induction l as [|x l IH]; intros i; [done|]. cbn [enumerate]. by rewrite !zlen_cons, IH. Qed.

Section scan.
Context (P : Z -> Prop).

Definition decl_ok (n : Z) (d : FnDecl) : Prop :=
  zlen (d_body d) <= n /\ 0 <= d_arity d < 256 /\ 0 <= d_nregs d < 256 /\
  Forall P (d_name d) /\ Forall (fun l => Forall P l.2) (d_body d).

(** The scan after [n] lines: no more functions and body lines than that. *)
Definition scan_inv (n : Z) (s : ScanState) : Prop :=
  zlen (decls s) <= n /\ Forall (decl_ok n) (decls s) /\ (forall d, cur s = Some d -> decl_ok n d).

Lemma decl_ok_mono n d : decl_ok n d -> decl_ok (n + 1) d.
Proof. unfold decl_ok. naive_solver lia. Qed.

Lemma parsed_u8 {S} s (st st' : S) v : parsed (parse_u8 s) st = (Ok v, st') -> 0 <= v < 256 /\ st' = st.
Proof.
  unfold parsed, map_err, lift. destruct (parse_u8 s) eqn:E; try done. intros [= <- <-].
  apply parse_int_range in E; [|lia]. split; [lia|done].
Qed.

Lemma ok_or_ok {S E A} (o : option A) (e : E) (s s' : S) v : ok_or o e s = (Ok v, s') -> o = Some v /\ s' = s.
Proof. destruct o; cbn; [by intros [= <- <-]|done]. Qed.

Lemma scan_line_inv n l s s' : 0 <= n -> Forall P l.2 -> scan_inv n s -> scan_line l s = (Ok tt, s') -> scan_inv (n + 1) s'.
Proof.
  intros Hn Htext Hinv H. assert (scan_inv (n + 1) s) as Hs.
  { destruct Hinv as (H1 & H2 & H3). split_and!; [lia|eapply Forall_impl; [exact H2|apply decl_ok_mono]|eauto using decl_ok_mono]. }
  destruct l as [ln raw]. unfold scan_line in H. set (line := trim _) in H. assert (Forall P line) as Hline.
  { apply trim_Forall. apply (split_on_Forall P (Z.eqb 59)) in Htext. cbn [snd] in Htext. by destruct Htext. }
  destruct (_ || _); [by injection H as <-|].
  destruct (strip_prefix (lit "fn ") line) as [rest|] eqn:Hfn.
  - unfold fn_header in H. apply bind_ok in H as (s1 & s2 & Hg & H). injection Hg as <- <-.
    apply bind_ok in H as (u & s2 & Hf & H). destruct (bool_decide _); [done|]. injection Hf as _ <-.
    cbn zeta in H. apply bind_ok in H as ([sig regs] & s3 & [Hsig ->]%ok_or_ok & H).
    apply bind_ok in H as ([name ar] & s4 & [Hname ->]%ok_or_ok & H).
    apply bind_ok in H as (nn & s5 & [_ ->]%ok_or_ok & H).
    apply bind_ok in H as (nr & s6 & [Hnr ->]%parsed_u8 & H). apply bind_ok in H as (av & s7 & [Hav ->]%parsed_u8 & H).
    injection H as <-. destruct Hs as (H1 & H2 & _). split_and!; cbn; [done|done|]. intros d [= <-].
    apply strip_prefix_Forall with (P := P) in Hfn; [|done].
    apply split_once_Forall with (P := P) in Hsig as [Hsig _]; [|by apply trim_Forall, trim_end_by_Forall].
    apply split_once_Forall with (P := P) in Hname as [Hname _]; [|done].
    split_and!; cbn; [rewrite zlen_nil; lia|lia..|done|done].
  - destruct (bool_decide _).
    + unfold close_fn in H. apply bind_ok in H as (s1 & s2 & Hg & H). injection Hg as <- <-.
      apply bind_ok in H as (d & s2 & [Hd ->]%ok_or_ok & H). injection H as <-.
      destruct Hinv as (H1 & H2 & H3), Hs as (H1' & H2' & H3'). split_and!; cbn; [rewrite zlen_app, zlen_cons, zlen_nil; lia| |done].
      apply Forall_app. split; [done|]. constructor; [by apply H3'|done].
    + unfold body_line in H. apply bind_ok in H as (s1 & s2 & Hg & H). injection Hg as <- <-.
      apply bind_ok in H as (d & s2 & [Hd ->]%ok_or_ok & H). injection H as <-.
      destruct Hinv as (H1 & H2 & H3), Hs as (H1' & H2' & H3'). split_and!; cbn; [done|done|].
      intros d' [= <-]. destruct (H3 d Hd) as (Hb & Ha & Hr & Hnm & Hbd). split_and!; cbn; try lia; [|done|].
      * rewrite zlen_app, zlen_cons, zlen_nil. lia.
      * apply Forall_app. split; [done|by constructor].
Qed.

Lemma scan_lines_inv ls : forall n s s', 0 <= n -> Forall (fun l => Forall P l.2) ls -> scan_inv n s -> for_each ls scan_line s = (Ok tt, s') ->
  scan_inv (n + zlen ls) s'.
Proof.
  induction ls as [|l ls IH]; intros n s s' Hn HF Hs H; cbn [for_each] in H.
  { injection H as <-. by rewrite zlen_nil, Z.add_0_r. }
  apply Forall_cons in HF as [Hl HF]. apply bind_ok in H as ([] & s1 & H1 & H). eapply scan_line_inv in H1; [|done..].
  rewrite zlen_cons. replace (n + (1 + zlen ls)) with (n + 1 + zlen ls) by lia. eapply IH; [lia|done..].
Qed.

Lemma enumerate_Forall (l : list (list Z)) : forall i, Forall (Forall P) l -> Forall (fun l => Forall P l.2) (enumerate i l).
Proof. induction l as [|x l IH]; intros i HF; [done|]. apply Forall_cons in HF as [Hx HF]. constructor; [done|by apply IH]. Qed.


Lemma scan_decls_ok src ds : Forall P src -> scan_decls src = Ok ds -> zlen ds <= zlen (lines src) /\ Forall (decl_ok (zlen (lines src))) ds.
Proof.
  intros Htext. unfold scan_decls. destruct (scan_source src {| decls := []; cur := None |}) as [r s'] eqn:H. cbn. intros ->.
  unfold scan_source in H.
  apply bind_ok in H as ([] & s1 & H1 & H). apply scan_lines_inv with (n := 0) in H1; [|lia|by apply enumerate_Forall, lines_Forall|].
  2: { split_and!; cbn; [rewrite zlen_nil; lia|constructor|done]. }
  rewrite zlen_enumerate in H1. apply bind_ok in H as (s2 & s3 & Hg & H). injection Hg as <- <-.
  apply bind_ok in H as (u & s4 & Hf & H). destruct (bool_decide _); [done|]. injection Hf as _ <-.
  injection H as <- <-. by destruct H1 as (? & ? & _).
Qed.
End scan.

Lemma add_functions_text P fns n ds : forall t fs t', n < 2 ^ 32 -> Forall (decl_ok P n) ds -> tab_text P t ->
  add_functions fns ds t = (Ok fs, t') -> tab_text P t'.
Proof.
  induction ds as [|d ds IH]; intros t fs t' Hn HF Ht H; cbn [add_functions] in H; [by injection H as <- <-|].
  apply Forall_cons in HF as [(Hb & _ & _ & Hname & Hbody) HF]. minv.
  apply add_function_inv in Hc as (items & Hr & _ & [-> _]); [|lia]. eapply IH; [done|done| |done].
  apply asm_intern_text; [done|]. apply intern_all_text; [|done]. by eapply ref_lines_atoms.
Qed.

(** ** Whole files *)

Lemma assemble_inv P src m : zlen (lines src) < 2 ^ 32 -> zlen (atoms m) <= 2 ^ 32 -> Forall P src -> assemble src = Ok m ->
  exists ds fns t,
    scan_decls src = Ok ds /\ zlen ds <= zlen (lines src) /\ Forall (decl_ok P (zlen (lines src))) ds /\
    index_fns 0 ds ∅ = Ok fns /\ fns_ok ds fns /\
    atoms m = map utf8 (at_names t) /\ tab_text P t /\ Forall2 (assembled fns t) ds (functions m).
Proof.
  intros Hl Ha Ht H. unfold assemble in H. unfold mbind, res_bind in H.
  destruct (scan_decls src) as [ds| | |] eqn:Hd; try done. destruct (scan_decls_ok P _ _ Ht Hd) as [Hlen HF].
  destruct (index_fns 0 ds ∅) as [fns| | |] eqn:Hf; try done.
  destruct (add_functions fns ds AtomTab_default) as [[fs| | |] t] eqn:Hadd; try done. injection H as <-.
  cbn [atoms functions] in *. assert (zlen (at_names t) <= 2 ^ 32) as Hn by (unfold zlen in *; by rewrite length_map in Ha).
  assert (Forall (fun d => zlen (d_body d) < 2 ^ 32) ds) as Hbodies.
  { eapply Forall_impl; [exact HF|]. intros d [Hb _]. cbn. lia. }
  exists ds, fns, t. pose proof Hadd as HF2. apply add_functions_spec in HF2 as [_ HF2]; [|done..].
  split_and!; try done.
  - apply index_fns_ok; [lia|done].
  - eapply add_functions_text; [exact Hl|done| |exact Hadd]. constructor.
Qed.

(** C19: an assembled module is the translation of its text: the atoms are the
    UTF-8 names of one table, each call target [name/arity] stands for the one
    function declared with that key, and every function carries its declared
    name, arity and registers and the layout of its listing, in which an atom
    operand is the index of that name and a jump the distance to its label. *)
Theorem assemble_translates src m :
  assemble src = Ok m -> zlen (lines src) < 2 ^ 32 -> zlen (atoms m) <= 2 ^ 32 ->
  exists ds fns t,
    scan_decls src = Ok ds /\ index_fns 0 ds ∅ = Ok fns /\ fns_ok ds fns /\
    atoms m = map utf8 (at_names t) /\ Forall2 (assembled fns t) ds (functions m).
Proof.
  intros H Hl Ha. destruct (assemble_inv (fun _ => True) src m) as (ds & fns & t & ? & _ & _ & ? & ? & ? & _ & ?);
    [done|done|by apply Forall_true|done|]. by exists ds, fns, t.
Qed.

(** ** Checked sources load *)

(** The checks of an author on the text: every function of arity at most its
    registers, and a checked listing with a line for every label it jumps to. *)
Definition fn_checked (ds : list FnDecl) (fns : gmap (list Z) (Z * Z)) (d : FnDecl) : bool :=
  bool_decide (d_arity d <= d_nregs d) &&
  match ref_lines fns (d_body d) with
  | Ok items => bool_decide (first_unbound items = None) && listing_checked (fun i => d_arity <$> lookupz ds i) (d_nregs d) items
  | _ => false
  end.

Definition source_checked (src : list Z) : bool :=
  match scan_decls src with
  | Ok ds => match index_fns 0 ds ∅ with Ok fns => forallb (fn_checked ds fns) ds | _ => false end
  | _ => false
  end.

(** The limits of the module format and of the reader's memory. *)
Record within_limits (src : list Z) (m : Module_) : Prop := {
  wl_lines : zlen (lines src) < 2 ^ 32;
  wl_atoms : zlen (atoms m) < 2 ^ 32;
  wl_names : Forall (fun a => zlen a < 2 ^ 16) (atoms m);
  wl_code : Forall (fun f => zlen (code f) < 2 ^ 31) (functions m);
  wl_file : zlen (encode m) < 2 ^ 64;
}.

Lemma check_arg_ext ar ar' nr a : (forall i, ar i = ar' i) -> check_arg ar nr a = check_arg ar' nr a.
Proof. intros H. destruct a; cbn [check_arg]; by rewrite ?H. Qed.

Lemma listing_checked_ext ar ar' nr items : (forall i, ar i = ar' i) -> listing_checked ar nr items = listing_checked ar' nr items.
Proof.
  intros H. unfold listing_checked. f_equal. induction items as [|it items IH]; [done|]. cbn [forallb]. rewrite IH. f_equal.
  induction (item_args it) as [|a as_ IH']; [done|]. cbn [forallb]. by rewrite IH', (check_arg_ext ar ar').
Qed.

Lemma Forall2_lookupz_r {A B} (R : A -> B -> Prop) l k i y : Forall2 R l k -> lookupz k i = Some y ->
  exists x, lookupz l i = Some x /\ R x y.
Proof.
  rewrite lookupz_Some. intros HF [Hi Hy]. apply Forall2_lookup_r with (i := Z.to_nat i) (y := y) in HF as (x & Hx & HR); [|done].
  exists x. by rewrite lookupz_Some.
Qed.

Lemma Forall2_same_arity fns t ds fs i : Forall2 (assembled fns t) ds fs ->
  d_arity <$> lookupz ds i = arity <$> lookupz fs i.
Proof.
  intros HF. destruct (lookupz fs i) as [f|] eqn:Hf.
  - destruct (Forall2_lookupz_r _ _ _ _ _ HF Hf) as (d & -> & _ & Ha & _). cbn. by rewrite Ha.
  - apply Forall2_length in HF. apply lookupz_None in Hf. assert (lookupz ds i = None) as ->; [|done].
    apply lookupz_None. unfold zlen in *. by rewrite HF.
Qed.

Section loads.
Context (src : list Z) (m : Module_) (ds : list FnDecl) (fns : gmap (list Z) (Z * Z)) (t : AtomTab).
Context (Hfns : fns_ok ds fns) (Hds : zlen ds < 2 ^ 32) (Hatoms : atoms m = map utf8 (at_names t)).
Context (HF : Forall2 (assembled fns t) ds (functions m)) (Hlim : within_limits src m).

Lemma zlen_names : zlen (atoms m) = zlen (at_names t).
Proof using Hatoms. rewrite Hatoms. unfold zlen. by rewrite length_map. Qed.

Lemma checked_fn_ok d f : assembled fns t d f -> f ∈ functions m -> fn_checked ds fns d = true -> fn_ok m f.
Proof using Type*.
  intros (Hn & Ha & Hr & items & Hi & Hu & Hat & Hc) Hin Hk. unfold fn_checked in Hk. rewrite Hi in Hk.
  apply andb_true_iff in Hk as [Har Hk]. apply andb_true_iff in Hk as [_ Hk]. apply bool_decide_eq_true in Har.
  apply (listing_fn_ok m f items (index_in (at_index t))); [done| | | | |done| |lia].
  - pose proof (wl_code _ _ Hlim) as HFc. rewrite Forall_forall in HFc. by apply HFc.
  - eapply ref_lines_fit; [|exact Hi]. intros k i a (d' & Hd' & _)%Hfns. apply lookupz_range in Hd'. lia.
  - rewrite Hr. erewrite listing_checked_ext; [exact Hk|]. intros i. symmetry. by eapply Forall2_same_arity.
  - intros n Hn'. destruct (Hat n Hn') as (i & Hx & Hy). assert (index_in (at_index t) n = i) as -> by (unfold index_in; by rewrite Hx).
    apply lookupz_range in Hy. pose proof (wl_atoms _ _ Hlim). pose proof zlen_names. lia.
  - apply lookupz_is_Some. rewrite zlen_names. by apply lookupz_range in Hn.
Qed.

Lemma limits_module_ok : Forall (decl_ok scalar (zlen (lines src))) ds -> tab_text scalar t -> module_ok m.
Proof using Type*.
  intros Hok Htext. pose proof Hlim as [_ Hla Hln Hlc _]. split_and!; [done| | |].
  - rewrite Forall_forall in *. intros a Ha. split; [by apply Hln|]. rewrite Hatoms in Ha.
    apply list_elem_of_fmap in Ha as (n & -> & Hn). apply utf8_valid. unfold tab_text in Htext. rewrite Forall_forall in Htext. by apply Htext.
  - apply Forall2_length in HF. unfold zlen in *. lia.
  - apply Forall_forall. intros f Hf. pose proof Hf as Hf'. apply list_elem_of_lookup in Hf as [i Hi].
    eapply Forall2_lookup_r in HF as (d & Hd & Hn & Ha & Hr & _); [|exact Hi].
    rewrite Forall_lookup in Hok. destruct (Hok i d Hd) as (_ & Har & Hnr & _).
    apply lookupz_range in Hn. pose proof zlen_names. rewrite Forall_forall in Hlc. specialize (Hlc f Hf'). cbn in Hlc.
    split_and!; lia.
Qed.
End loads.

(** A checked function assembles. *)
Lemma checked_fn_assembles ds fns d t : fn_checked ds fns d = true -> zlen (d_body d) < 2 ^ 32 -> exists f t', add_function fns d t = (Ok f, t').
Proof.
  intros Hk Hb. unfold fn_checked in Hk. apply andb_true_iff in Hk as [_ Hk].
  pose proof (assemble_fn_reference d fns t Hb) as H. unfold as_reference in H.
  unfold add_function, mbind, M_bind, map_err. destruct (assemble_fn d fns t) as [r t1].
  destruct (ref_lines fns (d_body d)) as [items| | |]; try done. apply andb_true_iff in Hk as [Hu _]. apply bool_decide_eq_true in Hu.
  rewrite Hu in H. destruct H as [_ Hr]. cbn [fst] in Hr. subst r. unfold intern_t. destruct (asm_intern (d_name d) t1) as [na t2]. by eexists _, _.
Qed.

Lemma checked_fns_assemble ds0 fns ds : forall t, forallb (fn_checked ds0 fns) ds = true -> Forall (fun d => zlen (d_body d) < 2 ^ 32) ds ->
  exists fs t', add_functions fns ds t = (Ok fs, t').
Proof.
  induction ds as [|d ds IH]; intros t Hk HF; [by exists [], t|]. cbn [forallb] in Hk. apply andb_true_iff in Hk as [Hd Hk].
  apply Forall_cons in HF as [Hb HF]. destruct (checked_fn_assembles ds0 fns d t Hd Hb) as (f & t1 & H1). destruct (IH t1 Hk HF) as (fs & t2 & H2).
  exists (f :: fs), t2. cbn [add_functions]. by rewrite (bind_eval _ _ _ _ _ H1), (bind_eval _ _ _ _ _ H2).
Qed.

Lemma checked_source_assembles src : source_checked src = true -> zlen (lines src) < 2 ^ 32 -> exists m, assemble src = Ok m.
Proof.
  intros Hk Hl. unfold source_checked in Hk. unfold assemble, mbind, res_bind. destruct (scan_decls src) as [ds| | |] eqn:Hd; try done.
  destruct (scan_decls_ok (fun _ => True) src ds) as [_ HF]; [by apply Forall_true|done|].
  destruct (index_fns 0 ds ∅) as [fns| | |]; try done.
  destruct (checked_fns_assemble ds fns ds AtomTab_default Hk) as (fs & t & H).
  - eapply Forall_impl; [exact HF|]. intros d [Hb _]. cbn. lia.
  - rewrite H. by eexists.
Qed.

(** C17: a text of fewer than 2^32 lines whose author has checked it (every line parses; arities, registers,
    argument counts, jump labels and endings are right) assembles; and if the module fits the format's limits,
    the file written is one that the kernel's decoder reads back as the same module and its verifier accepts. *)
Theorem checked_source_loads src :
  Forall scalar src -> source_checked src = true -> zlen (lines src) < 2 ^ 32 ->
  exists m, assemble src = Ok m /\
    (within_limits src m -> exists bytes, asm_output src = Ok bytes /\ decode bytes = Ok m /\ verify m = Ok tt).
Proof.
  intros Htext Hk Hl. destruct (checked_source_assembles src Hk Hl) as [m H]. exists m. split; [done|]. intros Hlim. pose proof (wl_atoms _ _ Hlim).
  destruct (assemble_inv scalar src m) as (ds & fns & t & Hd & Hlen & Hok & Hi & Hfns & Ha & Ht & HF); [done|lia|done|done|].
  exists (encode m). unfold asm_output. rewrite H. split; [done|]. split.
  - rewrite <- (app_nil_r (encode m)). apply decode_encode_app; [apply (limits_module_ok src m ds fns t); try done; lia|].
    rewrite zlen_nil. pose proof (wl_file _ _ Hlim). lia.
  - apply verify_iff. intros i f Hf. destruct (Forall2_lookupz_r _ _ _ _ _ HF Hf) as (d & Hd' & Hasm).
    eapply checked_fn_ok; [done|lia|done|done|done|done| |].
    + apply lookupz_Some in Hf as [_ Hf]. by eapply list_elem_of_lookup_2.
    + unfold source_checked in Hk. rewrite Hd, Hi, forallb_forall in Hk. apply Hk, list_elem_of_In.
      apply lookupz_Some in Hd' as [_ Hd']. by eapply list_elem_of_lookup_2.
Qed.

(** The text of [modules/mathmod.yasm], the dash of its comment in ASCII. *)
Definition mathmod_src : list Z := lit "module mathmod
; Differential-test workload: recursion, arithmetic, comparisons, list and
; tuple building, printing. Loaded twice -- once per execution engine -- and
; the results must match exactly.

fn main/1 regs=12 {
    load_int r1, 10
    call r2, fact/1, r1         ; 3628800
    load_int r3, 3
    load_int r4, 4
    add r5, r3, r4              ; 7
    load_nil r7
    cons r6, r2, r7
    cons r6, r5, r6             ; [7, 3628800]
    load_atom r8, result
    make_tuple r9, r8, r2, r6   ; {result, 3628800, [7, 3628800]}
    print r9
    send r0, r9
    load_atom r10, normal
    exit_atom r10
}

fn fact/1 regs=8 {
    load_int r1, 2
    lt r2, r0, r1
    jmp_if r2, base
    load_int r3, 1
    sub r4, r0, r3
    call r5, fact/1, r4
    mul r6, r0, r5
    ret r6
base:
    load_int r7, 1
    ret r7
}
".

Definition mathmod : Module_ :=
  match assemble mathmod_src with Ok m => m | _ => {| atoms := []; functions := [] |} end.

Lemma mathmod_assembles : assemble mathmod_src = Ok mathmod.
Proof. vm_compute. reflexivity. Qed.

Lemma mathmod_limits : within_limits mathmod_src mathmod.
Proof. split; (eapply bool_decide_eq_true_1; vm_compute; reflexivity). Qed.

Lemma checked_source_loads_witness :
  exists bytes, asm_output mathmod_src = Ok bytes /\ decode bytes = Ok mathmod /\ verify mathmod = Ok tt.
Proof.
  destruct (checked_source_loads mathmod_src) as (m & Hm & H).
  - eapply bool_decide_eq_true_1. vm_compute. reflexivity.
  - vm_compute. reflexivity.
  - vm_compute. reflexivity.
  - assert (m = mathmod) as E by exact (f_equal (fun r => match r with Ok x => x | _ => m end) (eq_trans (eq_sym Hm) mathmod_assembles)).
    rewrite E in H. exact (H mathmod_limits).
Defined.

(** A jump to a label that no line binds is not checked, and does not assemble. *)
Example unbound_label_unchecked : let src := lit "fn f/0 regs=1 {
    jmp nowhere
}" in source_checked src = false /\ assemble src = Err (InFn (lit "f") 0 (UnboundLabel 0)).
Proof. split; vm_compute; reflexivity. Qed.

Lemma assemble_translates_witness : exists ds fns t,
  scan_decls mathmod_src = Ok ds /\ index_fns 0 ds ∅ = Ok fns /\ fns_ok ds fns /\
  atoms mathmod = map utf8 (at_names t) /\ Forall2 (assembled fns t) ds (functions mathmod).
Proof.
  apply assemble_translates; [exact mathmod_assembles|vm_compute; reflexivity|vm_compute; congruence].
Defined.

(** A jump back and a jump to a name that no line binds. *)
Definition loop_decl (target : string) : FnDecl :=
  {| d_name := lit "f"; d_arity := 0; d_nregs := 2;
     d_body := [(2, lit "again:"); (3, lit "load_int r1, -5"); (4, lit "jmp" ++ lit " " ++ lit target)] |}.

Lemma assemble_fn_two_pass_witness :
  as_reference (loop_decl "again") ∅ AtomTab_default (assemble_fn (loop_decl "again") ∅ AtomTab_default) /\
  as_reference (loop_decl "agian") ∅ AtomTab_default (assemble_fn (loop_decl "agian") ∅ AtomTab_default) /\
  (assemble_fn (loop_decl "again") ∅ AtomTab_default).1 =
    Ok (map z2b [1; 1; 251; 255; 255; 255; 255; 255; 255; 255; 16; 241; 255; 255; 255]) /\
  (assemble_fn (loop_decl "agian") ∅ AtomTab_default).1 = Err (UnboundLabel 1).
Proof.
  split_and!; [apply assemble_fn_two_pass; vm_compute; reflexivity|apply assemble_fn_two_pass; vm_compute; reflexivity| |].
  all: vm_compute; reflexivity.
Defined.

(** A line with too few operands panics; an unknown register is an error. *)
Lemma missing_operand_panics :
  ref_line ∅ (2, lit "ret") = Panic /\ ref_line ∅ (2, lit "ret x1") = Err (BadRegisterName 2 (lit "x1")).
Proof. split; vm_compute; reflexivity. Qed.
